(* ===== verification/_CoqProject ===== *)
-Q . S2P
Prelude.v
NetIP.v
Float64.v
EbpfAbi.v
EbpfDecision.v
EbpfDnsHint.v
EbpfGeneration.v
EbpfCompiler.v
EbpfBackend.v
EbpfLifecycle.v
RouteRule.v
RouteVerdict.v
KernelSink.v
AdaptiveLease.v
AdaptiveHealth.v
AdaptiveCapability.v
Varbin.v
Geosite.v
SrsBinary.v
FakeIP.v
ExpiringMap.v
BadVersion.v
AdaptiveScheduler.v
AdaptiveChoice.v
AdaptiveCoordinator.v
AdaptivePolicy.v
AdaptiveDial.v
TlsFragment.v
Sniff.v
AdaptiveRuntime.v
SmartObserved.v
SmartPacket.v
SmartSwitch.v
SmartCandidates.v
NodeProfile.v
LoadBalance.v
AdaptiveAudit.v
