(* ===== verification/Prelude.v ===== *)
(** * sing-box-smart-adaptive: a verification development (root file)

    sing-box is a proxy platform; this fork adds an eBPF data plane that decides
    packets in the kernel from what the user-space router has decided, and an
    adaptive pool of outbounds that keeps sessions on healthy nodes.  The
    development models the parts that decide: what a packet or connection is
    matched against, which decisions may be pushed into the kernel and when they
    are withdrawn, which node may be dialled, and the file formats rules are
    loaded from.

    ** Parts and files

    The eBPF control plane ([src/common/ebpf/v3], [src/protocol/ebpf/v3]):
    - [EbpfAbi.v], [EbpfDecision.v]: the records and constants shared with the
      kernel program, and the decision cascade [Decide] (abi.go, decision.go).
    - [EbpfDnsHint.v]: the table of DNS answers seen (dns_hint.go).
    - [EbpfGeneration.v]: two policy banks, compile reservations and the commit,
      whose two stores are separate steps (generation.go).
    - [EbpfCompiler.v]: prefixes, longest-prefix-match keys, the partition of a
      static snapshot (compiler.go).
    - [EbpfBackend.v]: the tables of the data plane and their publication and
      revocation (publisher.go); the state is [MemoryBackend].
    - [EbpfLifecycle.v]: the lifecycle that writes every change to the model and
      to the kernel sink, quarantines a sink that fails, and migrates options
      (lifecycle.go, sink.go, migration.go, option/ebpf.go).

    The router ([src/route], [src/route/rule], [src/adapter]):
    - [RouteRule.v]: default, logical and DNS rules with their items, groups,
      rule-sets and deferred address conditions (match_state.go,
      rule_abstract.go, rule_item_*.go); a matcher maps the metadata of a
      connection to a verdict and the metadata it leaves.
    - [RouteVerdict.v]: [matchRule], the actions it runs and the scope it
      publishes with a verdict (route.go, rule_action.go).
    - [KernelSink.v]: which verdicts reach the kernel: static prefixes, source
      MAC policies, learned destinations, DNS prefill (static_direct_sink.go,
      verdict_learn.go, dns_prefill.go).

    The adaptive pool ([src/protocol/group/adaptive]):
    - [AdaptiveLease.v]: session leases, reservations and the channels their
      waiters block on, with records shared between map and LRU list (lease.go).
    - [AdaptiveHealth.v]: the ledger of health records with a circuit breaker
      each, half-open tokens, observations (health.go).
    - [AdaptiveCapability.v]: path capabilities, the dual-stack policy, and the
      permits of an attempt; the store and its permits as a system of steps
      (node_capability.go, health.go).
    - [AdaptivePolicy.v]: eligibility, scores, ranking, stickiness and the plan of
      a dial (policy.go, catalog_port.go); it asks the health store through the
      class [HealthView].
    - [AdaptiveDial.v]: the attempts of a plan, sequential or hedged, as a machine
      of the caller and one goroutine per attempt (retry.go).
    - [AdaptiveScheduler.v]: the dispatcher of probes, its tables, waiters and
      steps; [AdaptiveChoice.v]: which probe is next; [AdaptiveCoordinator.v]: the
      handover of probing between runtime epochs (scheduler.go).
    - [AdaptiveRuntime.v]: the handles of nodes, the epochs that publish them by
      optimistic transactions, the leases of epochs, and the persistence of the
      identities (runtime_manager.go); a state that is never changed after it was
      built is its number in the order of allocation.
    - [AdaptiveAudit.v]: the audit of switches and the memory of selections that
      explain the pool to operators (switch_audit.go, selection_memory.go).

    The smart group ([src/protocol/group/smart.go] and its neighbours):
    - [SmartObserved.v], [SmartPacket.v]: the wrappers of streams and packet
      connections that turn what a connection does into evidence about its node,
      with their timers; reads, writes, closes and timers are threads of
      indivisible actions, in any interleaving.
    - [SmartSwitch.v]: pins and temporary overrides, the stable affinity, the
      contest between the current candidate and a challenger, and what the result
      of a dial changes; the ranks, sorted by what was measured, are an input.
    - [SmartCandidates.v]: the walk from the providers' groups to the candidates,
      identities and records of selections, one candidate for every endpoint, and
      the publication of a new catalog (smart_identity.go,
      selection_identity.go); digests of options are parameters.

    What all groups share ([src/protocol/group]):
    - [NodeProfile.v]: the registry of probe results, as a system of calls that wait
      for each other's probes (node_profile_registry.go, group_profile.go).
    - [LoadBalance.v]: the strategies of the load-balancing group and the jump hash
      (loadbalance.go); the class [SessionCache] is the interface of the library's
      cache.

    Tables of other parts:
    - [FakeIP.v]: addresses for domains, their storage and metadata, the transport
      that answers with them (dns/transport/fakeip, adapter/fakeip_metadata.go);
      the class [FakeIPStorage] with its laws is the interface of the storages.
    - [ExpiringMap.v]: a map with a heap of deadlines and the goroutine that
      expires it (common/expiringmap).
    - [BadVersion.v]: version numbers and the kernel features that depend on them
      (common/badversion, common/ktls).

    The first bytes of a connection:
    - [TlsFragment.v]: the search for the server name in a ClientHello and the
      connection that cuts it into packets or records (common/tlsfragment).
    - [Sniff.v]: packet and stream sniffers and the loops that ask them
      (common/sniff); the class [SingLib] is the interface to the libraries they
      call, [Decides] and [StableSniffer] what a sniffer promises to the loops.

    File formats:
    - [Varbin.v]: byte readers, uvarints and counted loops; the class [Varbin]
      is the interface to the [varbin] library, with its laws.
    - [SrsBinary.v]: binary rule-sets (common/srs); the class [SrsLib] is the
      interface to domain matchers, IP sets and zlib.
    - [Geosite.v]: the geosite database (common/geosite).

    [Prelude.v] has integers at their width, time, fallible results and the
    lemmas shared on lists and maps; [NetIP.v] the part of net/netip in use,
    [Float64.v] the binary64 arithmetic the scores and the jump hash use, with what
    rounding does to positive numbers.

    The router's verdict with its scope ([RouteVerdict]) is what [KernelSink]
    turns into writes of the [EbpfBackend] tables, which [EbpfDecision] reads;
    [EbpfLifecycle] drives [EbpfBackend] and the kernel sink in lockstep.  The
    rules matched by [RouteRule] come from files in the format of [SrsBinary].
    A dial of the pool asks [AdaptiveLease] for its session's node, plans with
    [AdaptivePolicy] against the records of [AdaptiveHealth], takes a permit of
    [AdaptiveCapability] for each attempt of [AdaptiveDial], and the probes of
    [AdaptiveScheduler] keep those records fresh.  The smart group ranks the
    candidates of [SmartCandidates], dials in the order of [SmartSwitch], and the
    connections it returns are observed by [SmartObserved] and [SmartPacket].

    ** What the theorems show

    - Decisions: the cascade refines a layered specification in which no flow or
      DNS evidence overrides identity or static policy; rule matching refines a
      declarative reading of rules; the first matching rule wins; deferring the
      address conditions of a deferrable rule is sound.
    - Generalization: a verdict gets destination scope only from a default rule
      whose classes of items are addresses only, with no action before it that
      rewrote the connection; without a rule-set that matches the source, such a
      rule, built by the constructor, also takes every other connection to that
      address that reaches it.  Only verdicts with this scope are learned, and only
      address rules are sunk into the kernel.  Rules before the selected one and
      rule-sets that match the source are exceptions found.
    - Publication: the backend's invariant holds in every reachable state; a
      static publication is atomic and fails exactly when something does not fit or
      another one is prepared; a generation is visible before its bank;
      invalidation fails closed; the model and the kernel sink stay in lockstep,
      and a sink that failed stays quarantined.
    - Leases: at most one leader per session, every waiter is released, map and
      LRU list agree, a committed lease is found again.
    - Health: the breaker refines a three-phase machine; a half-open record has
      one owner, whose report always frees it; acquisition of several domains is
      atomic; the read-only and the mutating checks agree; backoff is a capped
      power of two; the operator's profile and the planner's gate share one
      fail-open policy.
    - Plans and dials: a plan holds nodes that support the transport and are not
      blocked, each once, no more than the attempts, or a single blocked one when
      all are; a lease comes first; a service leaves its node only for a healthier
      one, or a faster one after the cooldown.  A dial gives up only after each
      candidate failed, settles each permit once, always returns, and without
      hedging leaves no second connection open.
    - Probes: the tables are bounded, a key runs once at a time, no waiter is
      answered twice and none is left without an answer; a due probe is always
      found, the one submitted first of its source; a priority below a higher one
      is served within 36 choices when both are due all along; the workers of two epochs never run at the same
      time, and a new epoch is never stuck behind a drained one.
    - Identities: over publications and restarts from the latest state, a handle
      names one incarnation of one node and is not given out again once retired,
      also across evictions; the lineage is bounded; evidence of a
      retired handle is rejected; the reference count of an epoch is the number of
      its leases; of two transactions on one base at most one commits; what is
      saved of an identity is what is loaded.  Rollbacks break two of these.
    - Operators' records: the audit of switches is the end of the history of events and
      counts every switch; the memory of selections is bounded and its views do not
      depend on the order of the map.
    - Smart group: a stream is reported as stalled only when it was written to and
      nothing was read for the timeout, a packet flow only when the packets it
      takes had no response for the timeout or the connection failed, each at most
      once; a pin is obeyed while its circuit is usable; a healthy current candidate
      gives way only to a confirmed challenger, and a late result changes nothing
      unless it may; the walk over groups ends and misses nothing; a pin follows its
      credentials through renamings; a new catalog clears the latest and the temporary
      choice when they are gone, and moves selections and affinities to the candidate
      of their endpoint when there is one.  Exceptions found: an answered request can stall, a
      challenger is never confirmed under sequential requests, two maps grow.
    - Shared probes: at most four probes run, one for an endpoint and one for a key;
      whoever waits can go on or waits for a probe whose end closes its channel, so
      there is no deadlock; the table is bounded.  The counts that should slow down
      or stop probing never grow.
    - Load balancing: the jump hash returns a bucket on every input and moves keys only
      to a new last bucket; the round robin is fair; a group with an available member
      uses one, except for sessions; a session stays with its credentials.
    - Tables: a FakeIP address is found again from its domain and gives the domain
      back, across restarts, for ranges of the right family; with room in the ranges
      and resets that succeed the addresses are in range; they are given out one at a
      time; the expiring map refines a map with deadlines and
      never misses one; versions compare lexicographically.
    - First bytes: the server name of every well-formed ClientHello is found; the
      peer of a fragmenting connection reads the same bytes, in two or more records
      when that is the mode; what a first sniff finds in a stream, up to the capacity
      of its buffer, does not depend on how the network cuts it, nor what is found in
      a packet on the order of the sniffers, with the exceptions found.
    - Formats: reading back what was written gives the same rules and items;
      every reader ends on every input; the items the writer gates by version are
      refused in older versions.

    ** Choices

    Integers keep their width where the code can reach it ([u8] to [u64],
    [i64]); a time is nanoseconds since the zero time.  A loop over a Go map
    takes the visiting order as an argument, quantified in the theorems.  Locks
    are taken as the code takes them: one operation is one step, and operations
    that release the lock in between are several steps.  Some are still one step, as
    their definitions say: [Release] of an epoch lease marks the lease and counts it
    down, [rebuild_catalog] also does what follows the publication in sections of its
    own, and the checks of [CanAttemptHandle] are one.  A panic of a connection behind a dial that
    succeeded is not modelled.  Loops that evict are
    given as many rounds as there are records, readers as many as there are
    bytes; lemmas show both are enough ([hs_evict_spec], [total_loop]), and
    [OutOfFuel] is shown never to be returned.  Floating-point delays are binary64
    numbers of [SpecFloat].  The depth of rules read from a
    file is bounded by the limit of the code itself.

    ** Not modelled

    Sockets, proxy protocols, TLS, tun devices, DNS exchange, HTTP APIs, on-disk
    caches and platform bindings are input and output around these decisions, or
    other libraries.  The C program of the data plane is not Go; [EbpfDecision]
    models the Go reference of its decision.  Of the adaptive pool, throughput
    averages use floating-point logarithms and are arguments, node weights are a
    function of the tag, the policy kernel of the optional build is another
    library, and the probes themselves and the files of persistence are left out.
    Of the smart group, the estimates, scores and probes that produce the ranks, the
    policy library and the status for operators are left out; so are the urltest
    and selector groups, the periodic tests of the load-balancing group, and the
    reference counts by which groups share a registry.  Random
    jitter, clocks and the order of map iteration are arguments of the model. *)

From stdpp Require Import base gmap list strings numbers fin_maps.
From Stdlib Require Import ZArith Lia.

#[global] Open Scope Z_scope.

(** ** Notations of the development *)

Declare Scope go_scope.
Delimit Scope go_scope with go.

(** Go's bit operators on unsigned integers: [x | y], [x & y], [x &^ y]. *)
Notation "x '.|' y" := (Z.lor x y) (at level 50, left associativity) : go_scope.
Notation "x '.&' y" := (Z.land x y) (at level 40, left associativity) : go_scope.
Notation "x '&^' y" := (Z.ldiff x y) (at level 40, left associativity) : go_scope.
#[global] Open Scope go_scope.

(** ** Machine integers: a w-bit unsigned integer is a [Z] in [[0, 2^w)]. *)

Definition u8 (z : Z) : Z := z mod 2 ^ 8.
Definition u16 (z : Z) : Z := z mod 2 ^ 16.
Definition u32 (z : Z) : Z := z mod 2 ^ 32.
Definition u64 (z : Z) : Z := z mod 2 ^ 64.

Definition u32_max : Z := 2 ^ 32 - 1.
Definition u64_max : Z := 2 ^ 64 - 1.
Definition i64_max : Z := 2 ^ 63 - 1.
Definition i64_min : Z := - 2 ^ 63.

(** A value is in the range of a [w]-bit unsigned integer. *)
Definition fits (w z : Z) : Prop := 0 ≤ z < 2 ^ w.

#[global] Instance fits_dec w z : Decision (fits w z).
Proof. unfold fits. apply _. Defined.

(** Two's-complement reinterpretation of the low 64 bits (int64 arithmetic). *)
Definition i64 (z : Z) : Z := (z + 2 ^ 63) mod 2 ^ 64 - 2 ^ 63.

(** ** Fallible code: [(value, error)] pairs become a sum with the message. *)

Inductive result (A : Type) : Type :=
| Ok (a : A)
| Err (msg : string).
Arguments Ok {A} a.
Arguments Err {A} msg.

#[global] Instance result_ret : MRet result := @Ok.
#[global] Instance result_bind : MBind result := λ A B f m,
  match m with Ok a => f a | Err e => Err e end.
#[global] Instance result_fmap : FMap result := λ A B f m,
  match m with Ok a => Ok (f a) | Err e => Err e end.
#[global] Instance result_eq_dec `{EqDecision A} : EqDecision (result A).
Proof. solve_decision. Defined.

Definition is_ok {A} (r : result A) : bool :=
  match r with Ok _ => true | Err _ => false end.

(** ** Time: a [time.Time] is the number of nanoseconds since the zero time
    (year 1), a [time.Duration] is a signed number of nanoseconds. *)

Definition time_zero : Z := 0.
Definition time_is_zero (t : Z) : bool := bool_decide (t = time_zero).
Definition time_after (t u : Z) : bool := bool_decide (u < t).
Definition time_before (t u : Z) : bool := bool_decide (t < u).
(** [t.Sub(u)] saturates at the bounds of an int64. *)
Definition time_sub (t u : Z) : Z := Z.max i64_min (Z.min i64_max (t - u)).

Definition nanosecond : Z := 1.
Definition millisecond : Z := 1000000.
Definition second : Z := 1000000000.
Definition minute : Z := 60 * second.
Definition hour : Z := 60 * minute.

(** ** Automation *)

#[global] Arguments Z.shiftr : simpl never.
#[global] Arguments Z.shiftl : simpl never.
#[global] Arguments Z.pow : simpl never.
#[global] Arguments Z.modulo : simpl never.
#[global] Arguments Z.div : simpl never.
#[global] Arguments Z.mul : simpl never.
#[global] Arguments Z.eqb : simpl never.
#[global] Arguments Z.ltb : simpl never.
#[global] Arguments Z.leb : simpl never.
#[global] Arguments Z.land : simpl never.
#[global] Arguments Z.lor : simpl never.
#[global] Arguments Z.ldiff : simpl never.

Create HintDb sbx.

(** Splits conjunctions, destructs the scrutinees of matches and conditionals
    of the goal and closes what simple reasoning closes. *)
Ltac split_matches :=
  repeat (case_match || case_decide); simplify_eq/=.

Ltac boolify :=
  repeat match goal with
  | H : context [bool_decide _] |- _ => case_bool_decide
  | |- context [bool_decide _] => case_bool_decide
  | H : andb _ _ = true |- _ => apply andb_prop in H; destruct H
  | H : orb _ _ = false |- _ => apply orb_false_elim in H; destruct H
  | H : negb _ = true |- _ => apply negb_true_iff in H
  | H : negb _ = false |- _ => apply negb_false_iff in H
  end.

Ltac boolprop :=
  repeat match goal with
  | H : Z.eqb _ _ = true |- _ => apply Z.eqb_eq in H
  | H : Z.eqb _ _ = false |- _ => apply Z.eqb_neq in H
  | H : Z.ltb _ _ = true |- _ => apply Z.ltb_lt in H
  | H : Z.ltb _ _ = false |- _ => apply Z.ltb_ge in H
  | H : Z.leb _ _ = true |- _ => apply Z.leb_le in H
  | H : Z.leb _ _ = false |- _ => apply Z.leb_gt in H
  | H : andb _ _ = true |- _ => apply andb_prop in H; destruct H
  | H : orb _ _ = false |- _ => apply orb_false_elim in H; destruct H
  | H : negb _ = true |- _ => apply negb_true_iff in H
  | H : negb _ = false |- _ => apply negb_false_iff in H
  | H : bool_decide _ = true |- _ => apply bool_decide_eq_true_1 in H
  | H : bool_decide _ = false |- _ => apply bool_decide_eq_false_1 in H
  end.

(** Refutes boolean hypotheses: turns the connectives into propositions and
    lets congruence find the clash, splitting disjunctions on the way. *)
Ltac bool_hyps :=
  repeat match goal with
  | H : andb _ _ = true |- _ => apply andb_prop in H; destruct H
  | H : orb _ _ = false |- _ => apply orb_false_elim in H; destruct H
  | H : negb _ = true |- _ => apply negb_true_iff in H
  | H : negb _ = false |- _ => apply negb_false_iff in H
  end.
Ltac bool_contra :=
  bool_hyps; try congruence;
  match goal with
  | H : orb _ _ = true |- _ => apply orb_prop in H; destruct H; bool_contra
  | H : andb _ _ = false |- _ => apply andb_false_iff in H; destruct H; bool_contra
  | _ => exfalso; lia
  end.
(** Rewrites the conditions of the goal with the known boolean atoms. *)
Ltac bool_rewrite :=
  repeat match goal with
  | H : ?b = true |- context [?b] => rewrite H
  | H : ?b = false |- context [?b] => rewrite H
  end; rewrite ?andb_false_r, ?andb_true_r, ?orb_false_r, ?orb_true_r; simpl.

(** ** Machine-integer lemmas *)

Lemma u32_fits z : fits 32 (u32 z).
Proof. apply Z.mod_pos_bound. lia. Qed.

Lemma u64_fits z : fits 64 (u64 z).
Proof. apply Z.mod_pos_bound. lia. Qed.

Lemma u8_fits z : fits 8 (u8 z).
Proof. apply Z.mod_pos_bound. lia. Qed.

Lemma u16_fits z : fits 16 (u16 z).
Proof. apply Z.mod_pos_bound. lia. Qed.

Lemma u32_id z : fits 32 z → u32 z = z.
Proof. intros H. by apply Z.mod_small. Qed.

Lemma u8_id z : fits 8 z → u8 z = z.
Proof. intros H. by apply Z.mod_small. Qed.

Lemma u64_id z : fits 64 z → u64 z = z.
Proof. intros H. by apply Z.mod_small. Qed.

#[export] Hint Resolve u8_fits u16_fits u32_fits u64_fits : sbx.

(** ** Range loops over Go maps

    [for k, v := range m] visits the entries in an order the runtime chooses
    anew for every loop.  A loop whose result depends on the order takes the
    visited list as an argument, and its theorems hold for every list that is
    a permutation of the map's entries. *)

Definition range_of `{Countable K} {V} (m : gmap K V) (l : list (K * V)) : Prop :=
  l ≡ₚ map_to_list m.

(** [for k, v := range m { if first || lt v best { best = v; key = k } }]:
    the key a linear scan for the least value keeps (the first one visited
    among equal values). *)
Fixpoint scan_min_from {K V} (score : V → Z) (best : K * Z) (l : list (K * V)) : K * Z :=
  match l with
  | [] => best
  | (k, v) :: l => scan_min_from score (if score v <? best.2 then (k, score v) else best) l
  end.

Definition scan_min {K V} (score : V → Z) (l : list (K * V)) : option K :=
  match l with
  | [] => None
  | (k, v) :: l => Some (scan_min_from score (k, score v) l).1
  end.

Section scan_min.
Context {K V : Type} (score : V → Z).

Lemma scan_min_from_spec (l : list (K * V)) (best : K * Z) :
  let r := scan_min_from score best l in
  (r = best ∨ ∃ v, (r.1, v) ∈ l ∧ r.2 = score v) ∧
  r.2 ≤ best.2 ∧ (∀ k v, (k, v) ∈ l → r.2 ≤ score v).
Proof.
  revert best. induction l as [|[k v] l IH]; intros best; simpl.
  - repeat split; [by left | lia | intros k v Hin; inversion Hin].
  - destruct (IH (if score v <? best.2 then (k, score v) else best)) as (Hor & Hle & Hall).
    destruct (score v <? best.2) eqn:E; boolprop; simpl in *.
    + repeat split; [| lia |].
      * right. destruct Hor as [->|(v' & Hin & Hs)].
        { exists v. split; [constructor | done]. }
        { exists v'. split; [by constructor | done]. }
      * intros k' v' [[= -> ->]|Hin]%elem_of_cons; [lia | eauto].
    + repeat split; [| lia |].
      * destruct Hor as [->|(v' & Hin & Hs)]; [by left |].
        right. exists v'. split; [by constructor | done].
      * intros k' v' [[= -> ->]|Hin]%elem_of_cons; [lia | eauto].
Qed.

(** The scan returns a key of the list with a least value. *)
Lemma scan_min_spec (l : list (K * V)) k :
  scan_min score l = Some k →
  ∃ v, (k, v) ∈ l ∧ ∀ k' v', (k', v') ∈ l → score v ≤ score v'.
Proof.
  destruct l as [|[k0 v0] l]; simpl; [done |]. intros [= <-].
  pose proof (scan_min_from_spec l (k0, score v0)) as (Hor & Hle & Hall). simpl in *.
  destruct Hor as [E|(v & Hin & Hs)].
  - rewrite E in Hall, Hle |- *. simpl in *. exists v0. split; [constructor |].
    intros k' v' [[= -> ->]|Hin]%elem_of_cons; [lia | eauto].
  - exists v. split; [by constructor |]. rewrite <- Hs.
    intros k' v' [[= -> ->]|Hin']%elem_of_cons; [lia | eauto].
Qed.

Lemma scan_min_None (l : list (K * V)) : scan_min score l = None ↔ l = [].
Proof. destruct l as [|[k v] l]; simpl; naive_solver. Qed.
End scan_min.

(** ** Finite maps *)

Section maps.
Context `{Countable K} {V : Type}.
Implicit Types m : gmap K V.

Lemma size_filter_le (P : K * V → Prop) `{!∀ x, Decision (P x)} m :
  (size (filter P m) ≤ size m)%nat.
Proof. apply map_subseteq_size, map_filter_subseteq. Qed.

Lemma size_delete_le k m : (size (delete k m) ≤ size m)%nat.
Proof. apply map_subseteq_size, delete_subseteq. Qed.

Lemma size_delete_Some k v m :
  m !! k = Some v → size m = S (size (delete k m)).
Proof.
  intros Hk. rewrite map_size_delete, Hk.
  assert (size m ≠ 0%nat) by (apply map_size_ne_0_lookup; eauto). lia.
Qed.

Lemma size_insert_le k v m : (size (<[k:=v]> m) ≤ S (size m))%nat.
Proof. rewrite map_size_insert. destruct (m !! k); simpl; lia. Qed.

Lemma range_of_lookup m l k v : range_of m l → (k, v) ∈ l ↔ m !! k = Some v.
Proof. intros Hr. rewrite Hr. apply elem_of_map_to_list. Qed.

Lemma range_of_nil m : range_of m [] → m = ∅.
Proof.
  unfold range_of. intros Hr. apply map_to_list_empty_iff.
  by apply Permutation_nil_l in Hr.
Qed.
End maps.

(** ** Orders *)

(** A strict weak order: what [sort.Slice] asks of its comparison. *)
Record weak_order {A} (lt : A → A → Prop) : Prop := {
  wk_trans a b c : lt a b → lt b c → lt a c;
  wk_neg a b c : lt a c → lt a b ∨ lt b c;
  wk_irrefl a : ¬ lt a a;
}.
Record total_order {B} (lt : B → B → Prop) : Prop := {
  tot_trans a b c : lt a b → lt b c → lt a c;
  tot_irrefl a : ¬ lt a a;
  tot_cases a b : lt a b ∨ a = b ∨ lt b a;
}.

Lemma weak_none {A} : weak_order (λ _ _ : A, False).
Proof. split; tauto. Qed.

(** Comparing one field first, then the rest. *)
Lemma weak_lex {A B} (f : A → B) (lt : B → B → Prop) (rest : A → A → Prop) :
  total_order lt → weak_order rest → weak_order (λ a b, lt (f a) (f b) ∨ f a = f b ∧ rest a b).
Proof.
  intros [Ht Hi Hc] [Wt Wn Wi]. split.
  - intros a b c [H1 | [E1 H1]] [H2 | [E2 H2]].
    + left. by eapply Ht.
    + left. by rewrite <- E2.
    + left. by rewrite E1.
    + right. split; [congruence | by eapply Wt].
  - intros a b c [H | [E H]].
    + destruct (Hc (f a) (f b)) as [? | [E | H']]; [by left; left | right; left; by rewrite <- E |].
      right. left. by eapply Ht.
    + destruct (Hc (f a) (f b)) as [? | [E' | H']]; [by left; left | | right; left; by rewrite <- E].
      destruct (Wn a b c H) as [? | ?]; [left; right; done | right; right; split; [congruence | done]].
  - intros a [? | [_ ?]]; [by eapply Hi | by eapply Wi].
Qed.

Lemma Z_total : total_order Z.lt.
Proof. split; intros; lia. Qed.
