(* ===== verification/NetIP.v ===== *)
(** * The part of Go's [net/netip] the program uses

    Addresses with their family and zone, prefixes, and the operations the
    eBPF control plane and the FakeIP store call: [Is4], [Is6], [Is4In6],
    [Unmap], [Next], [As4]/[As16], [PrefixFrom], [Masked], [Contains].
    An IPv4 address is a 32-bit integer, an IPv6 address a 128-bit integer,
    both big endian. *)

From S2P Require Import Prelude.
From stdpp Require Import base gmap list strings numbers.
From Stdlib Require Import ZArith Lia.

Local Open Scope Z_scope.

(** [netip.Addr]: the zero Addr, an IPv4 address, an IPv6 address with zone. *)
Inductive Addr : Type :=
| AddrZero
| AddrV4 (v : Z)
| AddrV6 (v : Z) (zone : string).

#[global] Instance Addr_eq_dec : EqDecision Addr.
Proof. solve_decision. Defined.
#[global] Instance Addr_countable : Countable Addr.
Proof.
  refine (inj_countable'
    (λ a, match a with
          | AddrZero => inl ()
          | AddrV4 v => inr (inl v)
          | AddrV6 v z => inr (inr (v, z))
          end)
    (λ s, match s with
          | inl _ => AddrZero
          | inr (inl v) => AddrV4 v
          | inr (inr (v, z)) => AddrV6 v z
          end) _).
  by intros [].
Defined.
#[global] Instance Addr_inhabited : Inhabited Addr := populate AddrZero.

Definition bit_len (a : Addr) : Z :=
  match a with AddrZero => 0 | AddrV4 _ => 32 | AddrV6 _ _ => 128 end.

Definition addr_value (a : Addr) : Z :=
  match a with AddrZero => 0 | AddrV4 v => v | AddrV6 v _ => v end.

Definition addr_is_valid (a : Addr) : bool :=
  match a with AddrZero => false | _ => true end.
Definition is4 (a : Addr) : bool := match a with AddrV4 _ => true | _ => false end.
Definition is6 (a : Addr) : bool := match a with AddrV6 _ _ => true | _ => false end.

(** [Is4In6]: the high 80 bits are zero and the next 16 are ones. *)
Definition is4in6 (a : Addr) : bool :=
  match a with AddrV6 v _ => v / 2 ^ 32 =? 0xffff | _ => false end.

Definition unmap (a : Addr) : Addr :=
  match a with
  | AddrV6 v z => if v / 2 ^ 32 =? 0xffff then AddrV4 (v mod 2 ^ 32) else a
  | _ => a
  end.

Definition has_zone (a : Addr) : bool :=
  match a with AddrV6 _ z => negb (String.eqb z "") | _ => false end.

Definition without_zone (a : Addr) : Addr :=
  match a with AddrV6 v _ => AddrV6 v "" | _ => a end.

(** [Next] returns the zero Addr on overflow. *)
Definition addr_next (a : Addr) : Addr :=
  match a with
  | AddrZero => AddrZero
  | AddrV4 v => if v + 1 =? 2 ^ 32 then AddrZero else AddrV4 (v + 1)
  | AddrV6 v z => if v + 1 =? 2 ^ 128 then AddrZero else AddrV6 (v + 1) z
  end.

(** The values an address can hold. *)
Definition addr_wf (a : Addr) : Prop :=
  match a with
  | AddrZero => True
  | AddrV4 v => fits 32 v
  | AddrV6 v _ => fits 128 v
  end.

#[global] Instance addr_wf_dec a : Decision (addr_wf a).
Proof. destruct a; simpl; apply _. Defined.

(** Big-endian bytes of an integer ([As4], [As16]). *)
Fixpoint be_bytes (n : nat) (v : Z) : list Z :=
  match n with
  | O => []
  | S n => be_bytes n (v / 256) ++ [v mod 256]
  end.

Definition be_value (l : list Z) : Z := foldl (λ acc b, acc * 256 + b) 0 l.

Definition as4 (a : Addr) : list Z := be_bytes 4 (addr_value a).
(** [As16] of an IPv4 address is its v4-mapped form. *)
Definition as16 (a : Addr) : list Z :=
  match a with
  | AddrZero => be_bytes 16 0
  | AddrV4 v => be_bytes 16 (0xffff * 2 ^ 32 + v)
  | AddrV6 v _ => be_bytes 16 v
  end.

(** [netip.Prefix]: [Bits() = -1] for an invalid prefix. *)
Record Prefix : Type := mkPrefix { prefix_addr : Addr; prefix_bits : Z }.

#[global] Instance Prefix_eq_dec : EqDecision Prefix.
Proof. solve_decision. Defined.
#[global] Instance Prefix_countable : Countable Prefix.
Proof.
  refine (inj_countable' (λ p, (prefix_addr p, prefix_bits p))
    (λ '(a, b), mkPrefix a b) _).
  by intros [].
Defined.

Definition prefix_zero : Prefix := mkPrefix AddrZero (-1).
Definition prefix_is_valid (p : Prefix) : bool := 0 <=? prefix_bits p.

Definition prefix_from (a : Addr) (bits : Z) : Prefix :=
  match a with
  | AddrZero => mkPrefix AddrZero (-1)
  | _ => mkPrefix (without_zone a)
           (if (bits <? 0) || (bit_len a <? bits) then -1 else bits)
  end.

(** Clears the low [n] bits. *)
Definition clear_low (n v : Z) : Z := Z.shiftl (Z.shiftr v n) n.

Definition mask_addr (a : Addr) (bits : Z) : Addr :=
  match a with
  | AddrZero => AddrZero
  | AddrV4 v => AddrV4 (clear_low (32 - bits) v)
  | AddrV6 v _ => AddrV6 (clear_low (128 - bits) v) ""
  end.

Definition masked (p : Prefix) : Prefix :=
  if prefix_is_valid p then prefix_from (mask_addr (prefix_addr p) (prefix_bits p)) (prefix_bits p)
  else prefix_zero.

(** [Prefix.Contains]: same family, no zone, equal high bits. *)
Definition prefix_contains (p : Prefix) (a : Addr) : bool :=
  if negb (prefix_is_valid p) || has_zone a then false
  else if (bit_len (prefix_addr p) =? 0) || (bit_len a =? 0)
          || negb (bit_len (prefix_addr p) =? bit_len a) then false
  else Z.shiftr (addr_value (prefix_addr p)) (bit_len a - prefix_bits p) =?
       Z.shiftr (addr_value a) (bit_len a - prefix_bits p).

(** What the constructors of [netip] can build. *)
Definition prefix_wf (p : Prefix) : Prop :=
  addr_wf (prefix_addr p) ∧ has_zone (prefix_addr p) = false ∧
  -1 ≤ prefix_bits p ≤ bit_len (prefix_addr p) ∧
  (prefix_addr p = AddrZero → prefix_bits p = -1).

#[global] Instance prefix_wf_dec p : Decision (prefix_wf p).
Proof. unfold prefix_wf. apply _. Defined.

(** ** Lemmas *)

Lemma be_bytes_length n v : length (be_bytes n v) = n.
Proof.
  revert v. induction n as [|n IH]; intros v; simpl; [done |].
  rewrite length_app, IH. simpl. lia.
Qed.

Lemma be_value_app l b : be_value (l ++ [b]) = be_value l * 256 + b.
Proof. unfold be_value. by rewrite foldl_app. Qed.

Lemma be_value_bytes n v : be_value (be_bytes n v) = v mod 2 ^ (8 * Z.of_nat n).
Proof.
  revert v. induction n as [|n IH]; intros v.
  - simpl. by rewrite Z.mod_1_r.
  - cbn [be_bytes]. rewrite be_value_app, IH.
    replace (8 * Z.of_nat (S n)) with (8 + 8 * Z.of_nat n) by lia.
    rewrite Z.pow_add_r by lia. change (2 ^ 8) with 256.
    rewrite Z.rem_mul_r by lia. lia.
Qed.

(** Equal byte arrays come from equal integers of the width. *)
Lemma be_bytes_inj n v w :
  fits (8 * Z.of_nat n) v → fits (8 * Z.of_nat n) w → be_bytes n v = be_bytes n w → v = w.
Proof.
  unfold fits. intros Hv Hw E. apply (f_equal be_value) in E. rewrite !be_value_bytes in E.
  rewrite (Z.mod_small v), (Z.mod_small w) in E by assumption. exact E.
Qed.

Lemma is4in6_unmap a : is4in6 (unmap a) = false.
Proof. destruct a as [|v|v z]; simpl; [done..|]. by destruct (v / 2 ^ 32 =? 0xffff) eqn:E; simpl; rewrite ?E. Qed.

Lemma unmap_idemp a : unmap (unmap a) = unmap a.
Proof. destruct a as [|v|v z]; simpl; [done..|]. by destruct (v / 2 ^ 32 =? 0xffff) eqn:E; simpl; rewrite ?E. Qed.

Lemma unmap_not4in6 a : is4in6 a = false → unmap a = a.
Proof. destruct a as [|v|v z]; simpl; [done..|]. by intros ->. Qed.

Lemma addr_wf_unmap a : addr_wf a → addr_wf (unmap a).
Proof.
  destruct a as [|v|v z]; simpl; [done..|]. intros Hv.
  destruct (v / 2 ^ 32 =? 0xffff); simpl; [|done].
  unfold fits. apply Z.mod_pos_bound. lia.
Qed.

Lemma shiftr_clear_low n v : 0 ≤ n → Z.shiftr (clear_low n v) n = Z.shiftr v n.
Proof.
  intros Hn. unfold clear_low. rewrite Z.shiftr_shiftl_l by lia.
  by rewrite Z.sub_diag, Z.shiftl_0_r.
Qed.

Lemma clear_low_idemp n v : 0 ≤ n → clear_low n (clear_low n v) = clear_low n v.
Proof. intros Hn. unfold clear_low at 1. by rewrite shiftr_clear_low. Qed.

Lemma clear_low_bound n v w : 0 ≤ n → fits w v → fits w (clear_low n v).
Proof.
  intros Hn [Hv1 Hv2]. unfold clear_low, fits.
  rewrite Z.shiftl_mul_pow2, Z.shiftr_div_pow2 by lia.
  pose proof (Z.mul_div_le v (2 ^ n)).
  assert (0 < 2 ^ n) by (apply Z.pow_pos_nonneg; lia).
  pose proof (Z.div_pos v (2 ^ n)). nia.
Qed.

Lemma masked_wf p : prefix_wf p → prefix_wf (masked p).
Proof.
  destruct p as [a b]. intros (Ha & Hz & Hb & H0). unfold masked, prefix_is_valid. simpl in *.
  destruct (0 <=? b) eqn:E; boolprop; [|by repeat split].
  destruct a as [|v|v z]; simpl in *.
  - repeat split; done.
  - assert (((b <? 0) || (32 <? b)) = false) as -> by lia.
    split_and!; simpl; [apply clear_low_bound; [lia|done] | done | lia | lia | done].
  - assert (((b <? 0) || (128 <? b)) = false) as -> by lia.
    split_and!; simpl; [apply clear_low_bound; [lia|done] | done | lia | lia | done].
Qed.
