(* ===== verification/Float64.v ===== *)
(** * Binary64 numbers

    The float64 arithmetic of Go on the binary64 numbers of [SpecFloat], shared by
    the policy of the adaptive pool and the switching of the smart group. *)

From S2P Require Import Prelude.
From stdpp Require Import base numbers.
From Stdlib Require Import ZArith Lia SpecFloat.

Local Open Scope Z_scope.

Definition sf_of_Z (z : Z) : spec_float := binary_normalize 53 1024 z 0 false.
Definition sf_div : spec_float → spec_float → spec_float := SFdiv 53 1024.
Definition sf_mul : spec_float → spec_float → spec_float := SFmul 53 1024.
Definition sf_sub : spec_float → spec_float → spec_float := SFsub 53 1024.
(** [int64(f)] truncates; a value that does not fit becomes the least integer,
    as the conversion of the machine does. *)
Definition sf_trunc (f : spec_float) : Z :=
  let z := match f with
           | S754_zero _ => 0
           | S754_finite s m e => let a := if 0 <=? e then Z.pos m * 2 ^ e else Z.pos m / 2 ^ (- e) in if s then - a else a
           | _ => i64_max + 1
           end in
  if (z <? i64_min) || (i64_max <? z) then i64_min else z.
Definition sf_one : spec_float := sf_of_Z 1.
Definition sf_zero : spec_float := S754_zero false.

(** ** Rounding

    What the rounding of a positive number does: the mantissa loses the bits beyond 53,
    and then grows by at most one. *)

Lemma digits_bounds p : 2 ^ (Z.pos (digits2_pos p) - 1) ≤ Z.pos p < 2 ^ Z.pos (digits2_pos p).
Proof.
  induction p as [p IH|p IH|]; cbn [digits2_pos]; [| |by cbn].
  - rewrite Pos2Z.inj_succ, Z.sub_1_r, Z.pred_succ. rewrite (Z.pow_succ_r 2 (Z.pos (digits2_pos p))) by lia.
    assert (2 ^ Z.pos (digits2_pos p) = 2 * 2 ^ (Z.pos (digits2_pos p) - 1)) as E by (rewrite <- Z.pow_succ_r by lia; f_equal; lia). lia.
  - rewrite Pos2Z.inj_succ, Z.sub_1_r, Z.pred_succ. rewrite (Z.pow_succ_r 2 (Z.pos (digits2_pos p))) by lia.
    assert (2 ^ Z.pos (digits2_pos p) = 2 * 2 ^ (Z.pos (digits2_pos p) - 1)) as E by (rewrite <- Z.pow_succ_r by lia; f_equal; lia). lia.
Qed.

Lemma digits_le p n : 0 ≤ n → Z.pos p < 2 ^ n → Z.pos (digits2_pos p) ≤ n.
Proof. intros Hn H. pose proof (digits_bounds p) as [H1 _]. assert (2 ^ (Z.pos (digits2_pos p) - 1) < 2 ^ n) as H2 by lia. apply Z.pow_lt_mono_r_iff in H2; lia. Qed.
Lemma digits_ge p n : 0 ≤ n → 2 ^ n ≤ Z.pos p → n < Z.pos (digits2_pos p).
Proof. intros Hn H. pose proof (digits_bounds p) as [_ H1]. assert (2 ^ n < 2 ^ Z.pos (digits2_pos p)) as H2 by lia. apply Z.pow_lt_mono_r_iff in H2; lia. Qed.

Lemma shr_1_m mrs : 0 ≤ shr_m mrs → shr_m (shr_1 mrs) = shr_m mrs / 2.
Proof.
  destruct mrs as [[|p|p] r s]; intros H; [done | | cbn in H; lia]. cbn [shr_m].
  destruct p as [p|p|]; cbn; [|by rewrite Pos2Z.inj_xO, Z.mul_comm, Z.div_mul by done | done].
  rewrite Pos2Z.inj_xI. apply (Z.div_unique_pos _ 2 (Z.pos p) 1); lia.
Qed.

Lemma iter_shr_m p mrs : 0 ≤ shr_m mrs → shr_m (iter_pos shr_1 p mrs) = shr_m mrs / 2 ^ Z.pos p.
Proof.
  revert mrs. induction p as [p IH|p IH|]; intros mrs H; cbn [iter_pos].
  - assert (0 ≤ shr_m (shr_1 mrs)) as H1 by (rewrite shr_1_m by done; apply Z.div_pos; lia).
    rewrite IH by (rewrite IH by done; apply Z.div_pos; lia). rewrite IH by done. rewrite shr_1_m by done. rewrite !Z.div_div by lia.
    assert (2 ^ Z.pos p~1 = 2 * (2 ^ Z.pos p * 2 ^ Z.pos p)) as ->; [|f_equal; lia].
    rewrite <- Z.pow_add_r by lia. rewrite <- Z.pow_succ_r by lia. f_equal. lia.
  - rewrite IH by (rewrite IH by done; apply Z.div_pos; lia). rewrite IH by done. rewrite !Z.div_div by lia. f_equal.
    rewrite <- Z.pow_add_r by lia. f_equal. lia.
  - by apply shr_1_m.
Qed.

Lemma shr_record_m m l : shr_m (shr_record_of_loc m l) = m.
Proof. by destruct l as [|[]]. Qed.

(** The number of bits that are lost. *)
Definition lost (m : positive) : Z := Z.max 0 (Z.pos (digits2_pos m) - 53).

Lemma shr_fexp_spec m e l :
  -1074 ≤ e → ∃ mrs, shr_fexp 53 1024 (Z.pos m) e l = (mrs, e + lost m) ∧ shr_m mrs = Z.pos m / 2 ^ lost m ∧ (lost m = 0 → mrs = shr_record_of_loc (Z.pos m) l).
Proof.
  intros He. unfold shr_fexp, fexp, emin. cbn [Zdigits2].
  replace (Z.max (Z.pos (digits2_pos m) + e - 53) (3 - 1024 - 53) - e) with (Z.max (Z.pos (digits2_pos m) - 53) (-1074 - e)) by lia.
  unfold lost. destruct (Z.max (Z.pos (digits2_pos m) - 53) (-1074 - e)) as [|p|p] eqn:E; cbn [shr].
  - exists (shr_record_of_loc (Z.pos m) l). replace (Z.max 0 _) with 0 by lia. rewrite Z.add_0_r, Z.pow_0_r, Z.div_1_r, shr_record_m. done.
  - exists (iter_pos shr_1 p (shr_record_of_loc (Z.pos m) l)). replace (Z.max 0 (Z.pos (digits2_pos m) - 53)) with (Z.pos p) by lia.
    rewrite iter_shr_m by (rewrite shr_record_m; lia). rewrite shr_record_m. split_and!; [done | done | lia].
  - exists (shr_record_of_loc (Z.pos m) l). replace (Z.max 0 _) with 0 by lia. rewrite Z.add_0_r, Z.pow_0_r, Z.div_1_r, shr_record_m. done.
Qed.

Lemma round_near m l : m ≤ round_nearest_even m l ≤ m + 1.
Proof. destruct l as [|[]]; cbn; try lia. destruct (Z.even m); lia. Qed.

Lemma short_mantissa m : 2 ^ 52 ≤ Z.pos m / 2 ^ lost m ∨ lost m = 0.
Proof.
  unfold lost. destruct (Z.max_spec 0 (Z.pos (digits2_pos m) - 53)) as [[H ->]|[H ->]]; [left | by right].
  apply Z.div_le_lower_bound; [lia|]. rewrite <- Z.pow_add_r by lia. pose proof (digits_bounds m) as [Hm _].
  replace (Z.pos (digits2_pos m) - 53 + 52) with (Z.pos (digits2_pos m) - 1) by lia. done.
Qed.

Lemma short_bound m : Z.pos m / 2 ^ lost m < 2 ^ 53.
Proof.
  apply Z.div_lt_upper_bound; [unfold lost; lia|]. unfold lost. rewrite <- Z.pow_add_r by lia. pose proof (digits_bounds m) as [_ Hm].
  eapply Z.lt_le_trans; [exact Hm|]. apply Z.pow_le_mono_r; lia.
Qed.

(** The result is [m1 * 2 ^ (e + lost m)], where [m1] is the short mantissa or one more. *)
Lemma round_spec m e l :
  -1074 ≤ e → e + lost m ≤ 970 →
  ∃ m1 m' e', binary_round_aux 53 1024 false (Z.pos m) e l = S754_finite false m' e' ∧
    Z.pos m / 2 ^ lost m ≤ m1 ≤ Z.pos m / 2 ^ lost m + 1 ∧ (l = loc_Exact → lost m = 0 → m1 = Z.pos m) ∧
    e + lost m ≤ e' ≤ e + lost m + 1 ∧ Z.pos m' * 2 ^ (e' - (e + lost m)) = m1 ∧ (m1 < 2 ^ 53 → e' = e + lost m).
Proof.
  intros He Hmax. destruct (shr_fexp_spec m e l He) as (mrs & E1 & Em & Eexact). unfold binary_round_aux. rewrite E1.
  set (m1 := round_nearest_even (shr_m mrs) (loc_of_shr_record mrs)). set (e1 := e + lost m) in *.
  pose proof (round_near (shr_m mrs) (loc_of_shr_record mrs)) as Hnear. fold m1 in Hnear. rewrite Em in Hnear.
  assert (l = loc_Exact → lost m = 0 → m1 = Z.pos m) as Hexact.
  { intros -> Hl. unfold m1. rewrite (Eexact Hl). done. }
  assert (0 < Z.pos m / 2 ^ lost m) as Hpos.
  { destruct (short_mantissa m) as [?|Hl]; [lia|]. rewrite Hl, Z.pow_0_r, Z.div_1_r. lia. }
  pose proof (short_bound m) as Hlt. destruct m1 as [|p|p] eqn:Ep; [lia | | lia].
  assert (Z.pos p ≤ 2 ^ 53) as Hp by lia. assert (0 ≤ lost m) as Hl0 by (unfold lost; lia).
  destruct (shr_fexp_spec p e1 loc_Exact) as (mrs2 & E2 & Em2 & _); [lia|]. rewrite E2, Em2.
  destruct (decide (Z.pos p = 2 ^ 53)) as [Hp53|Hne].
  - assert (p = 9007199254740992%positive) as -> by (change (2 ^ 53) with 9007199254740992 in Hp53; lia).
    change (lost 9007199254740992) with 1. change (9007199254740992 / 2 ^ 1) with 4503599627370496. cbn iota.
    assert ((e1 + 1 <=? 1024 - 53) = true) as -> by (apply Z.leb_le; lia). exists 9007199254740992, 4503599627370496%positive, (e1 + 1).
    split_and!; try done; try lia. by replace (e1 + 1 - e1) with 1 by lia.
  - assert (lost p = 0) as Hlp by (unfold lost; pose proof (digits_le p 53 ltac:(lia) ltac:(lia)); lia).
    rewrite Hlp, Z.pow_0_r, Z.div_1_r, Z.add_0_r. cbn iota. assert ((e1 <=? 1024 - 53) = true) as -> by (apply Z.leb_le; lia).
    exists (Z.pos p), p, e1. split_and!; try done; try lia. rewrite Z.sub_diag, Z.pow_0_r. lia.
Qed.

Lemma iter_xO p k : Z.pos (Pos.iter xO p k) = Z.pos p * 2 ^ Z.pos k.
Proof.
  revert p. induction k as [|k IH] using Pos.peano_ind; intros p; [cbn; lia|]. rewrite Pos.iter_succ, Pos2Z.inj_xO, IH, Pos2Z.inj_succ, Z.pow_succ_r by lia. lia.
Qed.

(** Integers of up to 53 bits are represented exactly, with a full mantissa. *)
Lemma sf_of_Z_spec z : 0 < z < 2 ^ 53 → ∃ m e, sf_of_Z z = S754_finite false m e ∧ Z.pos (digits2_pos m) = 53 ∧ -52 ≤ e ≤ 0 ∧ Z.pos m = z * 2 ^ (- e).
Proof.
  intros Hz. destruct z as [|p|p]; [lia | | lia]. pose proof (digits_le p 53 ltac:(lia) ltac:(lia)) as Hd.
  set (d := Z.pos (digits2_pos p)) in *. assert (1 ≤ d) as Hd1 by (unfold d; lia).
  assert (∃ mz, shl_align p 0 (fexp 53 1024 (d + 0)) = (mz, d - 53) ∧ Z.pos mz = Z.pos p * 2 ^ (53 - d)) as (mz & Ea & Emz).
  { unfold shl_align, fexp, emin. replace (Z.max (d + 0 - 53) (3 - 1024 - 53) - 0) with (d - 53) by lia. destruct (d - 53) as [|k|k] eqn:Ek; [|lia|].
    - exists p. replace (53 - d) with 0 by lia. split; [done | lia].
    - exists (Pos.iter xO p k). split; [f_equal; lia|]. rewrite iter_xO. do 2 f_equal. lia. }
  pose proof (digits_bounds p) as [Hlo Hhi]. fold d in Hlo, Hhi.
  assert (2 ^ 52 ≤ Z.pos mz < 2 ^ 53) as Hmz.
  { rewrite Emz. replace (2 ^ 52) with (2 ^ (d - 1) * 2 ^ (53 - d)) by (rewrite <- Z.pow_add_r by lia; f_equal; lia).
    replace (2 ^ 53) with (2 ^ d * 2 ^ (53 - d)) by (rewrite <- Z.pow_add_r by lia; f_equal; lia).
    split; [apply Z.mul_le_mono_nonneg_r; lia | apply Z.mul_lt_mono_pos_r; lia]. }
  assert (Z.pos (digits2_pos mz) = 53) as Hdz by (pose proof (digits_le mz 53 ltac:(lia) ltac:(lia)); pose proof (digits_ge mz 52 ltac:(lia) ltac:(lia)); lia).
  assert (lost mz = 0) as Hl by (unfold lost; lia).
  destruct (round_spec mz (d - 53) loc_Exact) as (m1 & m' & e' & Er & _ & Hm1 & He & Hm' & Hsame); [lia | lia|].
  assert (m1 = Z.pos mz) as -> by by apply Hm1. specialize (Hsame ltac:(lia)). rewrite Hl, Z.add_0_r in *. subst e'.
  rewrite Z.sub_diag, Z.pow_0_r, Z.mul_1_r in Hm'. injection Hm' as ->. exists mz, (d - 53). split_and!; [|done|lia|lia|].
  - unfold sf_of_Z, binary_normalize, binary_round. rewrite Z.add_0_r. fold d. by rewrite Ea.
  - rewrite Emz. do 2 f_equal. lia.
Qed.

(** [2^31 / y] is at least 1 and at most little more than [2^31]: the exact quotient is, and
    the integers up to there are represented. *)
Lemma ratio_spec y :
  0 < y ≤ 2 ^ 31 → ∃ m e, sf_div (sf_of_Z (2 ^ 31)) (sf_of_Z y) = S754_finite false m e ∧ -75 ≤ e ≤ 0 ∧ 2 ^ (- e) ≤ Z.pos m ≤ (2 ^ 31 + 1) * 2 ^ (- e).
Proof.
  intros Hy. destruct (sf_of_Z_spec y ltac:(lia)) as (m2 & e2 & -> & Hd2 & He2 & Hm2).
  assert (sf_of_Z (2 ^ 31) = S754_finite false 4503599627370496 (-21)) as -> by by vm_compute.
  unfold sf_div, SFdiv, SFdiv_core_binary. cbn [Zdigits2 xorb].
  change (Z.pos (digits2_pos 4503599627370496)) with 53. rewrite Hd2.
  assert (Z.min (fexp 53 1024 (53 + -21 - (53 + e2))) (-21 - e2) = -74 - e2) as -> by (unfold fexp, emin; lia).
  replace (-21 - e2 - (-74 - e2)) with 53 by lia. cbn iota. rewrite Z.shiftl_mul_pow2 by lia.
  pose proof (Z_div_mod (4503599627370496 * 2 ^ 53) (Z.pos m2) ltac:(lia)) as Hdiv. destruct (Z.div_eucl _ (Z.pos m2)) as [q r]. destruct Hdiv as [Hq Hr].
  set (ex := -74 - e2). assert (-74 ≤ ex ≤ -22) as Hex by lia.
  assert (Z.pos m2 * 2 ^ (- ex) = y * 2 ^ 74) as Hscale by (rewrite Hm2, <- Z.mul_assoc, <- Z.pow_add_r by lia; do 2 f_equal; lia).
  assert (4503599627370496 * 2 ^ 53 = 2 ^ 105) as E105 by done. rewrite E105 in Hq. assert (2 ^ 105 = 2 ^ 31 * 2 ^ 74) as Esplit by done.
  pose proof (Z.pow_pos_nonneg 2 (- ex) ltac:(lia) ltac:(lia)) as Hexp.
  assert (2 ^ (- ex) ≤ q) as Hq1 by nia. assert (q ≤ 2 ^ 31 * 2 ^ (- ex)) as Hq2 by nia.
  destruct q as [|q|q]; [lia | | lia].
  assert (ex + lost q ≤ -20) as Hlost.
  { unfold lost. assert (Z.pos q < 2 ^ (32 - ex)) as Hlt by (replace (32 - ex) with (32 + - ex) by lia; rewrite Z.pow_add_r by lia; lia).
    pose proof (digits_le q (32 - ex) ltac:(lia) Hlt). lia. }
  assert (0 ≤ lost q) as Hl0 by (unfold lost; lia). pose proof (Z.pow_pos_nonneg 2 (lost q) ltac:(lia) Hl0) as Hl1.
  destruct (round_spec q ex (new_location (Z.pos m2) r)) as (m1 & m' & e' & Er & Hm1 & _ & He' & Hm' & _); [lia | lia|]. rewrite Er.
  exists m', e'. split; [done|]. split; [lia|]. set (e1 := ex + lost q) in *.
  assert (2 ^ (- ex) = 2 ^ (- e1) * 2 ^ lost q) as Ex by (rewrite <- Z.pow_add_r by (unfold e1; lia); f_equal; unfold e1; lia).
  pose proof (Z.pow_pos_nonneg 2 (- e1) ltac:(lia) ltac:(lia)) as He1. rewrite Ex in Hq1, Hq2.
  assert (2 ^ (- e1) ≤ Z.pos q / 2 ^ lost q) as Hlow by (apply Z.div_le_lower_bound; lia).
  assert (Z.pos q / 2 ^ lost q ≤ 2 ^ 31 * 2 ^ (- e1)) as Hhigh by (apply Z.div_le_upper_bound; lia).
  assert (2 ^ (- e1) = 2 ^ (- e') * 2 ^ (e' - e1)) as Ee by (rewrite <- Z.pow_add_r by lia; f_equal; lia).
  pose proof (Z.pow_pos_nonneg 2 (e' - e1) ltac:(lia) ltac:(lia)) as Hee. subst m1.
  split; apply (Z.mul_le_mono_pos_r _ _ (2 ^ (e' - e1))); [lia | nia | lia | nia].
Qed.

(** The integer part of a rounded number that was between [x] and [y]. *)
Lemma trunc_bounds x y p ep m1 m' e' :
  0 < x < 2 ^ 53 → ep ≤ 0 → ep + lost p ≤ 10 → x * 2 ^ (- ep) ≤ Z.pos p ≤ y * 2 ^ (- ep) →
  Z.pos p / 2 ^ lost p ≤ m1 ≤ Z.pos p / 2 ^ lost p + 1 → ep + lost p ≤ e' ≤ ep + lost p + 1 → Z.pos m' * 2 ^ (e' - (ep + lost p)) = m1 →
  x ≤ (if 0 <=? e' then Z.pos m' * 2 ^ e' else Z.pos m' / 2 ^ (- e')) ≤ y + 2 ^ 10.
Proof.
  intros Hx Hep Hl1 Hb Hm1 He' Hm'. assert (0 ≤ lost p) as Hl0 by (unfold lost; lia). set (e1 := ep + lost p) in *.
  pose proof (Z.pow_pos_nonneg 2 (lost p) ltac:(lia) Hl0) as Hl2. pose proof (Z.pow_pos_nonneg 2 (e' - e1) ltac:(lia) ltac:(lia)) as Hee.
  pose proof (Z.mul_div_le (Z.pos p) (2 ^ lost p) Hl2) as Hfloor. destruct (Z.le_gt_cases e1 0) as [Hneg|Hpos].
  - assert (2 ^ (- ep) = 2 ^ (- e1) * 2 ^ lost p) as Eep by (rewrite <- Z.pow_add_r by (unfold e1 in *; lia); f_equal; unfold e1; lia).
    pose proof (Z.pow_pos_nonneg 2 (- e1) ltac:(lia) ltac:(lia)) as He1. rewrite Eep in Hb.
    assert (x * 2 ^ (- e1) ≤ m1) as Hlow by (assert (x * 2 ^ (- e1) ≤ Z.pos p / 2 ^ lost p) by (apply Z.div_le_lower_bound; lia); lia).
    assert (m1 ≤ (y + 1) * 2 ^ (- e1)) as Hhigh by (assert (Z.pos p / 2 ^ lost p ≤ y * 2 ^ (- e1)) by (apply Z.div_le_upper_bound; lia); lia).
    destruct (Z.leb_spec 0 e') as [H0|H0].
    + assert (2 ^ (e' - e1) = 2 ^ e' * 2 ^ (- e1)) as Ee by (rewrite <- Z.pow_add_r by lia; f_equal; lia). rewrite Ee in Hm'. rewrite <- Hm' in Hlow, Hhigh.
      rewrite Z.mul_assoc in Hlow, Hhigh. apply Z.mul_le_mono_pos_r in Hlow; [|done]. apply Z.mul_le_mono_pos_r in Hhigh; [|done]. lia.
    + assert (2 ^ (- e1) = 2 ^ (- e') * 2 ^ (e' - e1)) as Ee by (rewrite <- Z.pow_add_r by lia; f_equal; lia). rewrite Ee in Hlow, Hhigh. rewrite <- Hm' in Hlow, Hhigh.
      rewrite Z.mul_assoc in Hlow, Hhigh. apply Z.mul_le_mono_pos_r in Hlow; [|done]. apply Z.mul_le_mono_pos_r in Hhigh; [|done].
      pose proof (Z.pow_pos_nonneg 2 (- e') ltac:(lia) ltac:(lia)) as Hpe. split; [apply Z.div_le_lower_bound; lia|].
      etransitivity; [apply (Z.div_le_upper_bound _ _ (y + 1)); lia | lia].
  - assert (2 ^ 52 ≤ Z.pos p / 2 ^ lost p) as Hlong by (destruct (short_mantissa p) as [?|E]; [done | unfold e1 in Hpos; lia]).
    assert ((0 <=? e') = true) as -> by (apply Z.leb_le; lia).
    assert (2 ^ e' = 2 ^ (e' - e1) * 2 ^ e1) as -> by (rewrite <- Z.pow_add_r by lia; f_equal; lia). rewrite Z.mul_assoc, Hm'.
    assert (2 ^ lost p = 2 ^ e1 * 2 ^ (- ep)) as El by (rewrite <- Z.pow_add_r by lia; f_equal; unfold e1; lia).
    assert (2 ^ 1 ≤ 2 ^ e1) as H2 by (apply Z.pow_le_mono_r; lia). assert (2 ^ e1 ≤ 2 ^ 10) as H10 by (apply Z.pow_le_mono_r; lia).
    pose proof (Z.pow_pos_nonneg 2 (- ep) ltac:(lia) ltac:(lia)) as Hpp. split; [nia|].
    assert (Z.pos p / 2 ^ lost p * 2 ^ e1 ≤ y) as Hy; [|nia]. apply (Z.mul_le_mono_pos_r _ _ (2 ^ (- ep))); [done|]. rewrite <- Z.mul_assoc, <- El. lia.
Qed.

(** A product of an integer [x] of 31 bits with such a quotient is at least [x], and fits an
    [int64]. *)
Lemma product_spec x m e :
  0 < x ≤ 2 ^ 31 → -75 ≤ e ≤ 0 → 2 ^ (- e) ≤ Z.pos m ≤ (2 ^ 31 + 1) * 2 ^ (- e) → x ≤ sf_trunc (sf_mul (sf_of_Z x) (S754_finite false m e)) ≤ i64_max.
Proof.
  intros Hx He Hm. destruct (sf_of_Z_spec x ltac:(lia)) as (mx & ex & -> & Hdx & Hex & Hmx). unfold sf_mul, SFmul. cbn [xorb].
  set (p := (mx * m)%positive). set (ep := ex + e). assert (Z.pos p = x * Z.pos m * 2 ^ (- ex)) as Hp by (unfold p; rewrite Pos2Z.inj_mul, Hmx; lia).
  pose proof (Z.pow_pos_nonneg 2 (- ex) ltac:(lia) ltac:(lia)) as Hx2. pose proof (Z.pow_pos_nonneg 2 (- e) ltac:(lia) ltac:(lia)) as He2.
  assert (2 ^ (- ep) = 2 ^ (- ex) * 2 ^ (- e)) as Eep by (rewrite <- Z.pow_add_r by lia; f_equal; lia).
  assert (x * 2 ^ (- ep) ≤ Z.pos p ≤ x * (2 ^ 31 + 1) * 2 ^ (- ep)) as Hbounds by (rewrite Eep, Hp; split; nia).
  assert (Z.pos p < 2 ^ (63 - ep)) as Hp63.
  { replace (63 - ep) with (63 + - ep) by lia. rewrite Z.pow_add_r by lia. pose proof (Z.pow_pos_nonneg 2 (- ep) ltac:(lia) ltac:(lia)). nia. }
  pose proof (digits_le p (63 - ep) ltac:(lia) Hp63) as Hdp. assert (0 ≤ lost p ∧ ep + lost p ≤ 10) as [Hl0 Hl1] by (unfold lost; lia).
  destruct (round_spec p ep loc_Exact) as (m1 & m' & e' & -> & Hm1 & _ & He' & Hm' & _); [lia | lia|].
  destruct (trunc_bounds x (x * (2 ^ 31 + 1)) p ep m1 m' e') as [H1 H2]; try done; try lia.
  assert (x * (2 ^ 31 + 1) ≤ 2 ^ 31 * (2 ^ 31 + 1)) as Hmax by nia. unfold sf_trunc.
  set (z := if 0 <=? e' then _ else _) in *. unfold i64_min, i64_max.
  assert ((z <? - 2 ^ 63) || (2 ^ 63 - 1 <? z) = false) as -> by (apply orb_false_iff; split; apply Z.ltb_ge; lia). lia.
Qed.
