(* ===== verification/EbpfAbi.v ===== *)
(** * The eBPF v3 ABI: [src/common/ebpf/v3/abi.go]

    The constants and records the Go control plane shares with the TC program,
    [ClampCapacity], [ValidateControl] and the DNS-hint admission rule
    [DNSHintAllowsDirect].  Verdicts, sources, reasons and confidences are the
    integers of their Go types, so that a value no constant names is a value of
    the model too. *)

From S2P Require Import Prelude NetIP.
From stdpp Require Import base gmap list strings numbers.
From Stdlib Require Import ZArith Lia.

Local Open Scope Z_scope.

Definition ABIVersion : Z := 4.

Definition AFInet : Z := 2.
Definition AFInet6 : Z := 10.

Definition ProtocolTCP : Z := 6.
Definition ProtocolUDP : Z := 17.

(** [Verdict] (uint8) *)
Definition VerdictUnseen : Z := 0.
Definition VerdictDirect : Z := 1.
Definition VerdictProxy : Z := 2.
Definition VerdictBlock : Z := 3.
Definition VerdictMustControl : Z := 4.

(** [Source] (uint8) *)
Definition SourceStatic : Z := 1.
Definition SourceExactFlow : Z := 2.
Definition SourceDNSWeak : Z := 3.
Definition SourceFakeIP : Z := 4.

(** [Reason] (uint16) *)
Definition ReasonNone : Z := 0.
Definition ReasonStaticDirect : Z := 1.
Definition ReasonFlowDirect : Z := 2.
Definition ReasonFakeIPDirect : Z := 3.
Definition ReasonDNSHintDirect : Z := 4.
Definition ReasonPolicyProxy : Z := 5.
Definition ReasonMapMissProxy : Z := 6.
Definition ReasonGenerationMissProxy : Z := 7.
Definition ReasonParseFailProxy : Z := 8.
Definition ReasonSocketAssignOK : Z := 9.
Definition ReasonSocketAssignFail : Z := 10.
Definition ReasonBlocked : Z := 11.
Definition ReasonDNSHintConflict : Z := 12.
Definition ReasonMapCapacityReject : Z := 13.
Definition ReasonSecurityBypass : Z := 14.
Definition ReasonEstablishedBypass : Z := 15.
Definition ReasonStaticProxy : Z := 16.
Definition ReasonStaticBlock : Z := 17.
Definition ReasonMustControl : Z := 18.
Definition ReasonDNSHijackProxy : Z := 19.
Definition ReasonFlowProxy : Z := 20.
Definition ReasonFlowBlock : Z := 21.

Definition ConfidenceNone : Z := 0.
Definition ConfidenceWeak : Z := 1.
Definition ConfidenceStrong : Z := 2.
Definition ConfidenceAuthoritative : Z := 3.

Definition DNSEvidenceNone : Z := 0.
Definition DNSEvidenceFakeIP : Z := 1.
Definition DNSEvidenceStrong : Z := 2.
Definition DNSEvidenceWeak : Z := 3.

(** Control flags: bit masks of a uint32. *)
Definition FlagIPv4 : Z := 2 ^ 0.
Definition FlagIPv6 : Z := 2 ^ 1.
Definition FlagTCP : Z := 2 ^ 2.
Definition FlagUDP : Z := 2 ^ 3.
Definition FlagDNSHijack : Z := 2 ^ 4.
Definition FlagDropUDP443 : Z := 2 ^ 5.
Definition FlagSocketAssign : Z := 2 ^ 6.
Definition FlagStaticPolicy : Z := 2 ^ 7.
Definition FlagExactFlow : Z := 2 ^ 8.
Definition FlagDNSHint : Z := 2 ^ 9.
Definition FlagFakeIP : Z := 2 ^ 10.
Definition FlagMACSource : Z := 2 ^ 11.
Definition FlagFailureProxy : Z := 2 ^ 12.
Definition FlagDNSSniff : Z := 2 ^ 13.

Definition DefaultFlowEntries : Z := 8192.
Definition DefaultDNSHints : Z := 8192.
Definition DefaultPolicyLPM : Z := 16384.
Definition DefaultDynamicDirect : Z := 8192.
Definition MaxFlowEntries : Z := 65536.
Definition MaxDNSHints : Z := 32768.
Definition MaxPolicyLPM : Z := 65536.
Definition StatsCount : Z := 32.
Definition MaxSourcePolicies : Z := 8192.

Record Control : Type := mkControl {
  c_ABIVersion : Z;
  c_Enabled : Z;
  c_Flags : Z;
  c_ActiveBank : Z;
  c_PolicyGeneration : Z;
  c_RoutingMark : Z;
  c_Reserved0 : Z;
  c_Reserved1 : Z;
  c_Reserved2 : Z }.

Record PolicyValue : Type := mkPolicyValue {
  pv_Verdict : Z;
  pv_Source : Z;
  pv_Confidence : Z;
  pv_Reserved0 : Z;
  pv_ReasonCode : Z;
  pv_MatchProtocol : Z;
  pv_MatchDPortMin : Z;
  pv_MatchDPortMax : Z;
  pv_PolicyID : Z;
  pv_Generation : Z }.

Record FlowKey : Type := mkFlowKey {
  fk_Family : Z;
  fk_Protocol : Z;
  fk_Direction : Z;
  fk_Reserved0 : Z;
  fk_SPort : Z;
  fk_DPort : Z;
  fk_SAddr : list Z;
  fk_DAddr : list Z }.

Record FlowValue : Type := mkFlowValue {
  fv_Verdict : Z;
  fv_Source : Z;
  fv_Confidence : Z;
  fv_Reserved0 : Z;
  fv_ReasonCode : Z;
  fv_Reserved1 : Z;
  fv_PolicyID : Z;
  fv_Generation : Z;
  fv_ExpiresNs : Z }.

Record DNSIPKey : Type := mkDNSIPKey {
  dk_Family : Z;
  dk_Reserved0 : Z;
  dk_Reserved1 : Z;
  dk_Addr : list Z }.

Record DNSIPValue : Type := mkDNSIPValue {
  dv_DirectRefs : Z;
  dv_ProxyRefs : Z;
  dv_PolicyID : Z;
  dv_Generation : Z;
  dv_ExpiresNs : Z;
  dv_LastSeenNs : Z;
  dv_Evidence : Z;
  dv_Reserved0 : Z;
  dv_Reserved1 : Z;
  dv_Reserved2 : Z }.

Record LPM4Key : Type := mkLPM4Key { l4_PrefixLen : Z; l4_Addr : list Z }.
Record LPM6Key : Type := mkLPM6Key { l6_PrefixLen : Z; l6_Addr : list Z }.

Record Packet : Type := mkPacket {
  p_Family : Z;
  p_Protocol : Z;
  p_Fragmented : bool;
  p_VLANDepth : Z;
  p_SPort : Z;
  p_DPort : Z;
  p_SAddr : list Z;
  p_DAddr : list Z;
  p_SMAC : list Z;
  p_DMAC : list Z;
  p_IfIndex : Z;
  p_Mark : Z;
  p_PayloadOffset : Z;
  p_ParseRC : Z }.

Record MACKey : Type := mkMACKey {
  mk_Addr : list Z;
  mk_Reserved : list Z;
  mk_Ifindex : Z }.

Record MACPolicyValue : Type := mkMACPolicyValue {
  mv_Verdict : Z;
  mv_Source : Z;
  mv_Confidence : Z;
  mv_Reserved0 : Z;
  mv_ReasonCode : Z;
  mv_Reserved1 : Z;
  mv_PolicyID : Z;
  mv_Generation : Z }.

Record MACPolicyEntry : Type := mkMACPolicyEntry {
  me_Key : MACKey;
  me_Value : MACPolicyValue }.

#[global] Instance FlowKey_eq_dec : EqDecision FlowKey.
Proof. solve_decision. Defined.
#[global] Instance FlowKey_countable : Countable FlowKey.
Proof.
  refine (inj_countable'
    (λ k, (fk_Family k, fk_Protocol k, fk_Direction k, fk_Reserved0 k, fk_SPort k, fk_DPort k, fk_SAddr k, fk_DAddr k))
    (λ '(a, b, c, d, e, f, g, h), mkFlowKey a b c d e f g h) _).
  by intros [].
Defined.

#[global] Instance DNSIPKey_eq_dec : EqDecision DNSIPKey.
Proof. solve_decision. Defined.
#[global] Instance DNSIPKey_countable : Countable DNSIPKey.
Proof.
  refine (inj_countable' (λ k, (dk_Family k, dk_Reserved0 k, dk_Reserved1 k, dk_Addr k))
    (λ '(a, b, c, d), mkDNSIPKey a b c d) _).
  by intros [].
Defined.

#[global] Instance LPM4Key_eq_dec : EqDecision LPM4Key.
Proof. solve_decision. Defined.
#[global] Instance LPM4Key_countable : Countable LPM4Key.
Proof. by refine (inj_countable' (λ k, (l4_PrefixLen k, l4_Addr k)) (λ '(a, b), mkLPM4Key a b) _); intros []. Defined.

#[global] Instance LPM6Key_eq_dec : EqDecision LPM6Key.
Proof. solve_decision. Defined.
#[global] Instance LPM6Key_countable : Countable LPM6Key.
Proof. by refine (inj_countable' (λ k, (l6_PrefixLen k, l6_Addr k)) (λ '(a, b), mkLPM6Key a b) _); intros []. Defined.

#[global] Instance MACKey_eq_dec : EqDecision MACKey.
Proof. solve_decision. Defined.
#[global] Instance MACKey_countable : Countable MACKey.
Proof. by refine (inj_countable' (λ k, (mk_Addr k, mk_Reserved k, mk_Ifindex k)) (λ '(a, b, c), mkMACKey a b c) _); intros []. Defined.

#[global] Instance DNSIPValue_eq_dec : EqDecision DNSIPValue.
Proof. solve_decision. Defined.
#[global] Instance PolicyValue_eq_dec : EqDecision PolicyValue.
Proof. solve_decision. Defined.
#[global] Instance FlowValue_eq_dec : EqDecision FlowValue.
Proof. solve_decision. Defined.

(** [ClampCapacity] *)
Definition ClampCapacity (value def max : Z) : Z :=
  if value =? 0 then def
  else if max <? value then max
  else value.

(** [ValidateControl] *)
Definition ValidateControl (c : Control) : result unit :=
  if negb (c_ABIVersion c =? ABIVersion) then Err "ebpf v3 abi mismatch"
  else if 1 <? c_ActiveBank c then Err "ebpf v3 invalid active_bank"
  else Ok tt.

(** [DNSHintAllowsDirect]: the admission bit and the reason. *)
Definition DNSHintAllowsDirect (v : DNSIPValue) (generation nowNs : Z) : bool * Z :=
  if negb (dv_Generation v =? generation) then (false, ReasonGenerationMissProxy)
  else if negb (dv_ExpiresNs v =? 0) && (dv_ExpiresNs v <=? nowNs) then (false, ReasonMapMissProxy)
  else if negb (dv_ProxyRefs v =? 0) then (false, ReasonDNSHintConflict)
  else if dv_DirectRefs v =? 0 then (false, ReasonMapMissProxy)
  else if dv_Evidence v =? DNSEvidenceFakeIP then (true, ReasonFakeIPDirect)
  else if dv_Evidence v =? DNSEvidenceStrong then (true, ReasonDNSHintDirect)
  else if dv_Evidence v =? DNSEvidenceWeak then (false, ReasonMustControl)
  else (false, ReasonMapMissProxy).

(** ** Lemmas *)

(** An admitted hint is of the current generation, unexpired, unconflicted,
    and backed by strong evidence. *)
Lemma DNSHintAllowsDirect_true v g now r :
  DNSHintAllowsDirect v g now = (true, r) →
  dv_Generation v = g ∧ (dv_ExpiresNs v = 0 ∨ now < dv_ExpiresNs v) ∧
  dv_ProxyRefs v = 0 ∧ dv_DirectRefs v ≠ 0 ∧
  (dv_Evidence v = DNSEvidenceFakeIP ∧ r = ReasonFakeIPDirect ∨
   dv_Evidence v = DNSEvidenceStrong ∧ r = ReasonDNSHintDirect).
Proof.
  unfold DNSHintAllowsDirect. intros H.
  destruct (dv_Generation v =? g) eqn:E1; [|done].
  destruct (dv_ExpiresNs v =? 0) eqn:E2; simpl in H;
    [|destruct (dv_ExpiresNs v <=? now) eqn:E3; [done|]];
    (destruct (dv_ProxyRefs v =? 0) eqn:E4; [|done]);
    (destruct (dv_DirectRefs v =? 0) eqn:E5; [done|]);
    (destruct (dv_Evidence v =? DNSEvidenceFakeIP) eqn:E6;
      [|destruct (dv_Evidence v =? DNSEvidenceStrong) eqn:E7;
        [|by destruct (dv_Evidence v =? DNSEvidenceWeak)]]);
    simplify_eq/=; boolprop; naive_solver lia.
Qed.
