(* ===== verification/EbpfDecision.v ===== *)
(** * The TC ingress decision: [src/common/ebpf/v3/decision.go]

    [Decide] is the pure model of the TC program the Go control plane is tested
    against: one packet, the control word and the map hits give an action, a
    reason and a firewall mark.  The theorems relate the thirteen-step cascade
    to a layered specification (identity, static policy, exact flow, learned
    prefix, DNS evidence, in that order), and bound what each step may do to
    the mark. *)

From S2P Require Import Prelude NetIP EbpfAbi.
From stdpp Require Import base gmap list strings numbers.
From Stdlib Require Import ZArith Lia.

Local Open Scope Z_scope.

Inductive Action : Type := ActionContinue | ActionProxy | ActionBlock.

#[global] Instance Action_eq_dec : EqDecision Action.
Proof. solve_decision. Defined.

Record Decision : Type := mkDecision { d_Action : Action; d_Reason : Z; d_Mark : Z }.

#[global] Instance Decision_eq_dec : EqDecision Decision.
Proof. solve_decision. Defined.

(** A static, source-MAC or flow hit carries its verdict. *)
Record StaticPolicy : Type := mkStaticPolicy { sp_Verdict : Z }.
Record MACSourceHit : Type := mkMACSourceHit { mh_Verdict : Z }.
Record FlowHit : Type := mkFlowHit { fh_Verdict : Z }.

Record Input : Type := mkInput {
  in_Control : Control;
  in_Packet : Packet;
  in_Static : option StaticPolicy;
  in_Dynamic : option StaticPolicy;
  in_Flow : option FlowHit;
  in_MACSource : option MACSourceHit;
  in_DNS : option DNSIPValue;
  in_DNSNowNs : Z;
  in_EstablishedTCP : bool;
  in_HostAddress : bool }.

(** [c.Flags&flag != 0] *)
Definition flag_set (c : Control) (flag : Z) : bool := negb (c_Flags c .& flag =? 0).

Definition proxyDecision (c : Control) (reason : Z) : Decision :=
  let mark := if flag_set c FlagSocketAssign && negb (c_RoutingMark c =? 0)
              then c_RoutingMark c else 0 in
  mkDecision ActionProxy reason mark.

Definition FailureMarkMustBeZero (reason : Z) : bool :=
  existsb (Z.eqb reason)
    [ReasonParseFailProxy; ReasonSecurityBypass; ReasonStaticDirect; ReasonFlowDirect;
     ReasonFakeIPDirect; ReasonDNSHintDirect; ReasonBlocked; ReasonStaticBlock;
     ReasonFlowBlock; ReasonEstablishedBypass; ReasonNone].

(** The [i]-th byte of a fixed-size array. *)
Definition byte_at (l : list Z) (i : nat) : Z := default 0 (l !! i).

Definition securityBypass (p : Packet) : bool :=
  if (p_Protocol p =? 1) || (p_Protocol p =? 58) then true
  else if (p_Protocol p =? ProtocolUDP) && existsb (Z.eqb (p_SPort p)) [67; 68; 546; 547] then true
  else if (p_Protocol p =? ProtocolUDP) && existsb (Z.eqb (p_DPort p)) [67; 68; 546; 547] then true
  else if (p_Family p =? AFInet) && (byte_at (p_DAddr p) 0 .& 0xf0 =? 0xe0) then true
  else if (p_Family p =? AFInet) && (byte_at (p_DAddr p) 0 =? 255) && (byte_at (p_DAddr p) 1 =? 255)
          && (byte_at (p_DAddr p) 2 =? 255) && (byte_at (p_DAddr p) 3 =? 255) then true
  else if (p_Family p =? AFInet6) && (byte_at (p_DAddr p) 0 =? 0xff) then true
  else false.

(** The verdict switches of steps 7 to 10: [None] is a verdict no case names,
    on which the cascade falls through to the next step. *)
Definition mac_step (c : Control) (hit : MACSourceHit) : option Decision :=
  let v := mh_Verdict hit in
  if v =? VerdictDirect then Some (mkDecision ActionContinue ReasonStaticDirect 0)
  else if v =? VerdictBlock then Some (mkDecision ActionBlock ReasonStaticBlock 0)
  else if (v =? VerdictProxy) || (v =? VerdictMustControl) then Some (proxyDecision c ReasonMustControl)
  else None.

Definition static_step (c : Control) (hit : StaticPolicy) : option Decision :=
  let v := sp_Verdict hit in
  if v =? VerdictDirect then Some (mkDecision ActionContinue ReasonStaticDirect 0)
  else if v =? VerdictBlock then Some (mkDecision ActionBlock ReasonStaticBlock 0)
  else if v =? VerdictProxy then Some (proxyDecision c ReasonStaticProxy)
  else if v =? VerdictMustControl then Some (proxyDecision c ReasonMustControl)
  else None.

Definition flow_step (c : Control) (hit : FlowHit) : option Decision :=
  let v := fh_Verdict hit in
  if v =? VerdictDirect then Some (mkDecision ActionContinue ReasonFlowDirect 0)
  else if v =? VerdictBlock then Some (mkDecision ActionBlock ReasonFlowBlock 0)
  else if v =? VerdictProxy then Some (proxyDecision c ReasonFlowProxy)
  else if v =? VerdictMustControl then Some (proxyDecision c ReasonMustControl)
  else None.

Definition dynamic_step (c : Control) (hit : StaticPolicy) : option Decision :=
  let v := sp_Verdict hit in
  if v =? VerdictDirect then Some (mkDecision ActionContinue ReasonDNSHintDirect 0)
  else if v =? VerdictBlock then Some (mkDecision ActionBlock ReasonStaticBlock 0)
  else if v =? VerdictProxy then Some (proxyDecision c ReasonStaticProxy)
  else if v =? VerdictMustControl then Some (proxyDecision c ReasonMustControl)
  else None.

Definition dns_step (c : Control) (now : Z) (v : DNSIPValue) : option Decision :=
  match DNSHintAllowsDirect v (c_PolicyGeneration c) now with
  | (true, reason) => Some (mkDecision ActionContinue reason 0)
  | (false, _) => None
  end.

(** [if d decided { return d }; rest] *)
Definition or_else (d : option Decision) (rest : Decision) : Decision := default rest d.

(** Steps 7 to 13: the evidence part of the cascade. *)
Definition decide_evidence (i : Input) : Decision :=
  let c := in_Control i in
  or_else (in_MACSource i ≫= mac_step c)
  (or_else (in_Static i ≫= static_step c)
  (or_else (in_Flow i ≫= flow_step c)
  (or_else (in_Dynamic i ≫= dynamic_step c)
  (or_else (in_DNS i ≫= dns_step c (in_DNSNowNs i))
  (if in_EstablishedTCP i then mkDecision ActionContinue ReasonEstablishedBypass 0
   else proxyDecision c ReasonMapMissProxy))))).

Definition Decide (i : Input) : Decision :=
  let c := in_Control i in
  let p := in_Packet i in
  if (c_Enabled c =? 0) || negb (c_ABIVersion c =? ABIVersion)
  then mkDecision ActionContinue ReasonNone 0
  else if p_ParseRC p <? 0
  then mkDecision ActionContinue ReasonParseFailProxy 0
  else if (p_ParseRC p =? 0) && flag_set c FlagDNSHijack
          && ((p_Protocol p =? ProtocolTCP) || (p_Protocol p =? ProtocolUDP)) && (p_DPort p =? 53)
  then proxyDecision c ReasonDNSHijackProxy
  else if (p_ParseRC p =? 1) || securityBypass p || in_HostAddress i
  then mkDecision ActionContinue ReasonSecurityBypass 0
  else if p_Fragmented p
  then proxyDecision c ReasonParseFailProxy
  else if (p_Family p =? AFInet) && negb (flag_set c FlagIPv4)
  then mkDecision ActionContinue ReasonNone 0
  else if (p_Family p =? AFInet6) && negb (flag_set c FlagIPv6)
  then mkDecision ActionContinue ReasonNone 0
  else if (p_Protocol p =? ProtocolTCP) && negb (flag_set c FlagTCP)
  then mkDecision ActionContinue ReasonNone 0
  else if (p_Protocol p =? ProtocolUDP) && negb (flag_set c FlagUDP)
  then mkDecision ActionContinue ReasonNone 0
  else if negb (p_Protocol p =? ProtocolTCP) && negb (p_Protocol p =? ProtocolUDP)
  then mkDecision ActionContinue ReasonNone 0
  else if flag_set c FlagDropUDP443 && (p_Protocol p =? ProtocolUDP) && (p_DPort p =? 443)
  then mkDecision ActionBlock ReasonBlocked 0
  else decide_evidence i.

(** ** Specification: layered verdicts

    A layer is decisive when its verdict is one of the four the switches name;
    the first decisive layer of identity, static, flow and learned prefix gives
    the action; with none, DNS evidence or an established socket lets the packet
    pass, and everything else goes to userspace. *)

Definition decisive (v : Z) : bool :=
  existsb (Z.eqb v) [VerdictDirect; VerdictProxy; VerdictBlock; VerdictMustControl].

Definition action_of_verdict (v : Z) : Action :=
  if v =? VerdictDirect then ActionContinue
  else if v =? VerdictBlock then ActionBlock
  else ActionProxy.

Definition layers (i : Input) : list Z :=
  option_list (mh_Verdict <$> in_MACSource i) ++ option_list (sp_Verdict <$> in_Static i) ++
  option_list (fh_Verdict <$> in_Flow i) ++ option_list (sp_Verdict <$> in_Dynamic i) ++ [].

Definition dns_evidence (i : Input) : bool :=
  match in_DNS i with
  | Some v => (DNSHintAllowsDirect v (c_PolicyGeneration (in_Control i)) (in_DNSNowNs i)).1
  | None => false
  end.

Definition spec_action (i : Input) : Action :=
  match filter decisive (layers i) with
  | v :: _ => action_of_verdict v
  | [] => if dns_evidence i || in_EstablishedTCP i then ActionContinue else ActionProxy
  end.

(** The packets whose verdict evidence decides: v3 is enabled, the frame is a
    parsed unfragmented TCP/UDP packet of an enabled family and protocol, no
    bypass and no interception applies. *)
Definition evidence_applies (i : Input) : bool :=
  let c := in_Control i in
  let p := in_Packet i in
  negb (c_Enabled c =? 0) && (c_ABIVersion c =? ABIVersion) && (p_ParseRC p =? 0)
  && negb (flag_set c FlagDNSHijack && (p_DPort p =? 53))
  && negb (securityBypass p) && negb (in_HostAddress i) && negb (p_Fragmented p)
  && (negb (p_Family p =? AFInet) || flag_set c FlagIPv4)
  && (negb (p_Family p =? AFInet6) || flag_set c FlagIPv6)
  && ((p_Protocol p =? ProtocolTCP) && flag_set c FlagTCP
      || (p_Protocol p =? ProtocolUDP) && flag_set c FlagUDP)
  && negb (flag_set c FlagDropUDP443 && (p_Protocol p =? ProtocolUDP) && (p_DPort p =? 443)).

(** ** Lemmas *)

Lemma proxyDecision_action c r : d_Action (proxyDecision c r) = ActionProxy.
Proof. done. Qed.

Lemma decisive_cases v :
  decisive v = true → v = VerdictDirect ∨ v = VerdictProxy ∨ v = VerdictBlock ∨ v = VerdictMustControl.
Proof. unfold decisive. simpl. lia. Qed.

(** Every verdict switch decides exactly the decisive verdicts, with the
    action of the verdict. *)
Lemma verdict_switch v (s : option Decision) c r1 r2 r3 r4 :
  s = (if v =? VerdictDirect then Some (mkDecision ActionContinue r1 0)
       else if v =? VerdictBlock then Some (mkDecision ActionBlock r2 0)
       else if v =? VerdictProxy then Some (proxyDecision c r3)
       else if v =? VerdictMustControl then Some (proxyDecision c r4)
       else None) →
  if decisive v then d_Action <$> s = Some (action_of_verdict v) else s = None.
Proof.
  intros ->. unfold decisive, action_of_verdict. simpl.
  destruct (v =? VerdictDirect) eqn:E1; simpl; [done|].
  destruct (v =? VerdictProxy) eqn:E2; simpl.
  { destruct (v =? VerdictBlock) eqn:E3; [|done]. boolprop. by subst. }
  destruct (v =? VerdictBlock) eqn:E3; simpl; [done|].
  by destruct (v =? VerdictMustControl).
Qed.

Lemma mac_step_switch c h :
  if decisive (mh_Verdict h) then d_Action <$> mac_step c h = Some (action_of_verdict (mh_Verdict h))
  else mac_step c h = None.
Proof.
  eapply (verdict_switch _ _ c ReasonStaticDirect ReasonStaticBlock ReasonMustControl ReasonMustControl).
  unfold mac_step.
  by destruct (mh_Verdict h =? VerdictDirect), (mh_Verdict h =? VerdictBlock), (mh_Verdict h =? VerdictProxy).
Qed.

Lemma static_step_switch c h :
  if decisive (sp_Verdict h) then d_Action <$> static_step c h = Some (action_of_verdict (sp_Verdict h))
  else static_step c h = None.
Proof. by eapply verdict_switch. Qed.

Lemma flow_step_switch c h :
  if decisive (fh_Verdict h) then d_Action <$> flow_step c h = Some (action_of_verdict (fh_Verdict h))
  else flow_step c h = None.
Proof. by eapply verdict_switch. Qed.

Lemma dynamic_step_switch c h :
  if decisive (sp_Verdict h) then d_Action <$> dynamic_step c h = Some (action_of_verdict (sp_Verdict h))
  else dynamic_step c h = None.
Proof. by eapply verdict_switch. Qed.

(** One layer of the cascade against one layer of the specification. *)
Lemma layer_refines {A} (hit : option A) (verdict : A → Z) (step : A → option Decision) rest ls tl :
  (∀ h, if decisive (verdict h) then d_Action <$> step h = Some (action_of_verdict (verdict h))
        else step h = None) →
  d_Action rest = match filter decisive ls with v :: _ => action_of_verdict v | [] => tl end →
  d_Action (or_else (hit ≫= step) rest) =
    match filter decisive (option_list (verdict <$> hit) ++ ls) with
    | v :: _ => action_of_verdict v | [] => tl end.
Proof.
  intros Hs Hr. destruct hit as [h|]; simpl; [|done].
  specialize (Hs h). rewrite filter_cons. unfold or_else.
  destruct (decisive (verdict h)) eqn:E; rewrite ?decide_True, ?decide_False by (rewrite ?E; auto).
  - destruct (step h); simpl in *; [by simplify_eq | done].
  - by rewrite Hs.
Qed.

Lemma decide_evidence_refines i : d_Action (decide_evidence i) = spec_action i.
Proof.
  unfold decide_evidence, spec_action, layers.
  apply layer_refines; [apply mac_step_switch|].
  apply layer_refines; [apply static_step_switch|].
  apply layer_refines; [apply flow_step_switch|].
  apply layer_refines; [apply dynamic_step_switch|].
  simpl. unfold dns_evidence, or_else. destruct (in_DNS i) as [v|]; simpl.
  - unfold dns_step. destruct (DNSHintAllowsDirect _ _ _) as [[] r]; simpl; [done|].
    by destruct (in_EstablishedTCP i).
  - by destruct (in_EstablishedTCP i).
Qed.

Lemma evidence_applies_decide i : evidence_applies i = true → Decide i = decide_evidence i.
Proof.
  unfold evidence_applies, Decide. intros H. bool_hyps.
  assert ((p_ParseRC (in_Packet i) <? 0) = false) by lia.
  assert ((p_ParseRC (in_Packet i) =? 1) = false) by lia.
  repeat match goal with
  | H : orb _ _ = true |- _ => apply orb_prop in H; destruct H; bool_hyps
  | H : andb _ _ = false |- _ => apply andb_false_iff in H; destruct H
  end;
  destruct (p_Protocol (in_Packet i) =? ProtocolTCP) eqn:Ht, (p_Protocol (in_Packet i) =? ProtocolUDP) eqn:Hu;
  try discriminate; try (unfold ProtocolTCP, ProtocolUDP in *; lia); bool_rewrite; done.
Qed.

(** A cascade step that does not hand off to userspace leaves the mark zero. *)
Definition unmarked (d : Decision) : Prop := d_Action d ≠ ActionProxy → d_Mark d = 0.

Lemma unmarked_or_else s rest : (∀ d, s = Some d → unmarked d) → unmarked rest → unmarked (or_else s rest).
Proof. destruct s; simpl; auto. Qed.

Lemma unmarked_evidence i : unmarked (decide_evidence i).
Proof.
  unfold decide_evidence.
  repeat (apply unmarked_or_else; [intros d Hd|]).
  1-5: apply bind_Some in Hd as (h & _ & Hd);
       unfold mac_step, static_step, flow_step, dynamic_step, dns_step in Hd;
       repeat case_match; simplify_eq; by intros ?.
  destruct (in_EstablishedTCP i); by intros ?.
Qed.

(** The reasons the evidence part gives never demand a zero mark on a handoff. *)
Definition reason_marked_ok (d : Decision) : Prop :=
  d_Action d = ActionProxy → FailureMarkMustBeZero (d_Reason d) = false.

Lemma evidence_reason_marked_ok i : reason_marked_ok (decide_evidence i).
Proof.
  unfold decide_evidence.
  assert (∀ s rest, (∀ d, s = Some d → reason_marked_ok d) → reason_marked_ok rest →
    reason_marked_ok (or_else s rest)) as Hor by (intros [d|] rest; simpl; auto).
  repeat (apply Hor; [intros d Hd|]).
  1-5: apply bind_Some in Hd as (h & _ & Hd);
       unfold mac_step, static_step, flow_step, dynamic_step, dns_step in Hd;
       repeat case_match; simplify_eq; by intros ?.
  destruct (in_EstablishedTCP i); by intros ?.
Qed.

Lemma proxyDecision_mark c r :
  d_Mark (proxyDecision c r) ≠ 0 ↔ flag_set c FlagSocketAssign = true ∧ c_RoutingMark c ≠ 0.
Proof.
  unfold proxyDecision. simpl.
  destruct (flag_set c FlagSocketAssign), (c_RoutingMark c =? 0) eqn:E; simpl; boolprop; naive_solver.
Qed.

Lemma unmarked_Decide i : unmarked (Decide i).
Proof.
  unfold Decide, unmarked. repeat case_match; try done; try (by intros []).
  apply unmarked_evidence.
Qed.

(** ** Theorems *)

(** C1. For every packet that evidence decides (enabled, parsed, unfragmented, of an
    enabled family and protocol, neither intercepted nor bypassed nor dropped), the action
    of the thirteen-step cascade is the one of the layered specification: the first
    decisive verdict of source identity, static policy, exact flow and learned prefix, in
    the order of the steps 7 to 10 of Decide and of tc.bpf.c (the comment on the field
    Input.Dynamic names the last two the other way round, see the findings), else DNS
    evidence or an established socket, else userspace.  In particular no flow, learned or
    DNS evidence overrides a static or identity verdict. *)
Theorem Decide_refines_layers (i : Input) :
  evidence_applies i = true → d_Action (Decide i) = spec_action i.
Proof. intros H. rewrite evidence_applies_decide by done. apply decide_evidence_refines. Qed.

(** An exact flow that must be proxied wins over a learned DIRECT prefix of its destination,
    although the comment on [Input.Dynamic] has the prefix consulted first. *)
Theorem flow_before_learned (i : Input) (hit : FlowHit) :
  evidence_applies i = true → in_MACSource i = None → in_Static i = None → in_Flow i = Some hit → fh_Verdict hit = VerdictProxy →
  in_Dynamic i = Some (mkStaticPolicy VerdictDirect) → d_Action (Decide i) = ActionProxy.
Proof.
  intros Ha Hm Hs Hf Hv Hd. rewrite evidence_applies_decide by done. rewrite decide_evidence_refines. unfold spec_action, layers.
  by rewrite Hm, Hs, Hf, Hd; cbn; rewrite Hv.
Qed.

(** A decision that does not hand the packet to userspace never sets the
    firewall mark: DIRECT, block, bypass and parse failure leave it zero. *)
Theorem Decide_mark_only_on_proxy (i : Input) :
  d_Action (Decide i) ≠ ActionProxy → d_Mark (Decide i) = 0.
Proof. apply unmarked_Decide. Qed.

(** The reasons [FailureMarkMustBeZero] lists carry a mark in exactly one
    situation: a fragmented packet handed off with socket assignment on and a
    routing mark configured. *)
Theorem Decide_failure_mark (i : Input) :
  FailureMarkMustBeZero (d_Reason (Decide i)) = true ∧ d_Mark (Decide i) ≠ 0 ↔
  Decide i = proxyDecision (in_Control i) ReasonParseFailProxy ∧
  p_Fragmented (in_Packet i) = true ∧
  flag_set (in_Control i) FlagSocketAssign = true ∧ c_RoutingMark (in_Control i) ≠ 0.
Proof.
  split.
  - intros [Hr Hm]. destruct (decide (d_Action (Decide i) = ActionProxy)) as [Ha|Ha];
      [|by rewrite (unmarked_Decide i Ha) in Hm].
    revert Hr Hm Ha. unfold Decide. repeat case_match; try done; intros Hr Hm Ha.
    + by apply proxyDecision_mark in Hm.
    + by rewrite (evidence_reason_marked_ok i Ha) in Hr.
  - intros (-> & _ & Hm). split; [done | by apply proxyDecision_mark].
Qed.

(** With DNS interception on, a parsed TCP or UDP packet to port 53 goes to
    userspace whatever the maps hold: host-owned destinations, static DIRECT
    verdicts and learned evidence do not precede it. *)
Theorem Decide_dns_hijack_first (i : Input) :
  c_Enabled (in_Control i) ≠ 0 → c_ABIVersion (in_Control i) = ABIVersion →
  p_ParseRC (in_Packet i) = 0 → flag_set (in_Control i) FlagDNSHijack = true →
  p_Protocol (in_Packet i) = ProtocolTCP ∨ p_Protocol (in_Packet i) = ProtocolUDP →
  p_DPort (in_Packet i) = 53 →
  Decide i = proxyDecision (in_Control i) ReasonDNSHijackProxy.
Proof.
  intros H1 H2 H3 H4 H5 H6. unfold Decide. rewrite H2, H3, H4, H6.
  apply Z.eqb_neq in H1. rewrite H1. simpl.
  by destruct H5 as [->| ->].
Qed.

(** ** Witnesses *)

Definition demo_control : Control :=
  mkControl ABIVersion 1 (FlagIPv4 .| FlagTCP .| FlagUDP .| FlagSocketAssign .| FlagDNSHijack) 0 7 99 0 0 0.

Definition demo_packet (dport : Z) (fragmented : bool) : Packet :=
  mkPacket AFInet ProtocolTCP fragmented 0 40000 dport (be_bytes 16 0) (be_bytes 16 (1 * 2 ^ 120))
    [] [] 1 0 54 0.

Definition demo_input (dport : Z) (fragmented : bool) : Input :=
  mkInput demo_control (demo_packet dport fragmented) (Some (mkStaticPolicy VerdictProxy)) None
    (Some (mkFlowHit VerdictDirect)) None None 0 true false.

(** A static PROXY verdict wins over a DIRECT flow and an established socket. *)
Lemma Decide_refines_layers_witness :
  evidence_applies (demo_input 443 false) = true ∧ d_Action (Decide (demo_input 443 false)) = ActionProxy.
Proof.
  split; [vm_compute; reflexivity|].
  rewrite Decide_refines_layers; vm_compute; reflexivity.
Defined.

Lemma Decide_mark_only_on_proxy_witness :
  let i := mkInput demo_control (demo_packet 443 false) (Some (mkStaticPolicy VerdictDirect)) None None None None 0 false false in
  d_Action (Decide i) = ActionContinue ∧ d_Mark (Decide i) = 0.
Proof.
  split; [vm_compute; reflexivity|].
  apply Decide_mark_only_on_proxy. vm_compute. discriminate.
Defined.

Lemma Decide_dns_hijack_first_witness :
  Decide (demo_input 53 true) = proxyDecision demo_control ReasonDNSHijackProxy.
Proof.
  apply (Decide_dns_hijack_first (demo_input 53 true)); vm_compute; try reflexivity; try discriminate.
  left; reflexivity.
Defined.

(** The exceptional situation of the mark theorem exists. *)
Example Decide_fragment_marked :
  d_Reason (Decide (demo_input 443 true)) = ReasonParseFailProxy ∧ d_Mark (Decide (demo_input 443 true)) = 99.
Proof. vm_compute. auto. Qed.
