(* ===== verification/EbpfDnsHint.v ===== *)
(** * DNS hint table: [src/common/ebpf/v3/dns_hint.go]

    The userspace model of the kernel's DNS hint map: per destination address
    how many observations classified it DIRECT and how many PROXY within a
    policy generation, and the strongest evidence seen.  The abstract
    specification is the list of observations of the current epoch; a hint
    admits DIRECT exactly when every one of them was DIRECT and at least one
    had strong evidence. *)

From S2P Require Import Prelude NetIP EbpfAbi.
From stdpp Require Import base gmap list strings numbers fin_maps.
From Stdlib Require Import ZArith Lia.

Local Open Scope Z_scope.

Record DNSHintTable : Type := mkDNSHintTable {
  ht_entries : gmap DNSIPKey DNSIPValue;
  ht_nextPruneNs : Z }.

Definition maxDNSHintEntries : Z := 8192.
Definition dnsHintPruneIntervalNs : Z := 30 * 1000000000.

Definition NewDNSHintTable : DNSHintTable := mkDNSHintTable ∅ 0.

Definition evidenceRank (e : Z) : Z :=
  if e =? DNSEvidenceFakeIP then 3
  else if e =? DNSEvidenceStrong then 2
  else if e =? DNSEvidenceWeak then 1
  else 0.

(** [value.ExpiresNs != 0 && value.ExpiresNs <= nowNs] *)
Definition dns_expired (nowNs : Z) (v : DNSIPValue) : bool :=
  negb (dv_ExpiresNs v =? 0) && (dv_ExpiresNs v <=? nowNs).

Definition hints_pruneExpired (nowNs : Z) (m : gmap DNSIPKey DNSIPValue) : gmap DNSIPKey DNSIPValue :=
  filter (λ kv, dns_expired nowNs kv.2 = false) m.

(** [evictOldest], the range loop visiting the entries in the order [order]. *)
Definition hints_evictOldest (order : list (DNSIPKey * DNSIPValue)) (m : gmap DNSIPKey DNSIPValue) :=
  match scan_min dv_LastSeenNs order with
  | Some oldestKey => delete oldestKey m
  | None => m
  end.

(** [if cur.Refs != ^uint32(0) { cur.Refs++ }] *)
Definition sat_incr (z : Z) : Z := if z =? u32_max then z else u32 (z + 1).

(** The update of one entry: counters, evidence, conflict, expiry. *)
Definition observe_entry (cur : DNSIPValue) (direct : bool) (evidence policyID generation expiresNs nowNs : Z) : DNSIPValue :=
  let directRefs := if direct then sat_incr (dv_DirectRefs cur) else dv_DirectRefs cur in
  let proxyRefs := if direct then dv_ProxyRefs cur else sat_incr (dv_ProxyRefs cur) in
  let ev := if (evidenceRank (dv_Evidence cur) <? evidenceRank evidence) && (proxyRefs =? 0)
            then evidence else dv_Evidence cur in
  let ev := if (0 <? proxyRefs) && (0 <? directRefs) then DNSEvidenceWeak else ev in
  mkDNSIPValue directRefs proxyRefs policyID generation expiresNs nowNs ev
    (dv_Reserved0 cur) (dv_Reserved1 cur) (dv_Reserved2 cur).

(** The entry an observation starts from: an absent, stale or expired entry is
    replaced by a fresh one. *)
Definition entry_reusable (cur : option DNSIPValue) (generation nowNs : Z) : option DNSIPValue :=
  match cur with
  | Some v =>
      if negb (dv_Generation v =? generation)
         || negb (dv_ExpiresNs v =? 0) && negb (nowNs =? 0) && (dv_ExpiresNs v <=? nowNs)
      then None else Some v
  | None => None
  end.

(** The periodic prune at the start of [Observe]. *)
Definition hints_prune (t : DNSHintTable) (nowNs : Z) : DNSHintTable :=
  if negb (nowNs =? 0) && ((ht_nextPruneNs t =? 0) || (ht_nextPruneNs t <=? nowNs))
  then mkDNSHintTable (hints_pruneExpired nowNs (ht_entries t)) (u64 (nowNs + dnsHintPruneIntervalNs))
  else t.

(** [Observe]; [order] is the order in which an eviction scan, if one runs,
    visits the entries that are left after the prune. *)
Definition hints_Observe (t : DNSHintTable) (key : DNSIPKey) (direct : bool)
    (evidence policyID generation expiresNs nowNs : Z)
    (order : list (DNSIPKey * DNSIPValue)) : DNSHintTable * DNSIPValue :=
  let t := hints_prune t nowNs in
  let cur := ht_entries t !! key in
  let '(m, base) :=
    match entry_reusable cur generation nowNs with
    | Some v => (ht_entries t, v)
    | None =>
        let m := match cur with
                 | None => if maxDNSHintEntries <=? Z.of_nat (size (ht_entries t))
                           then hints_evictOldest order (ht_entries t) else ht_entries t
                 | Some _ => ht_entries t
                 end in
        (m, mkDNSIPValue 0 0 policyID generation 0 0 evidence 0 0 0)
    end in
  let v := observe_entry base direct evidence policyID generation expiresNs nowNs in
  (mkDNSHintTable (<[key := v]> m) (ht_nextPruneNs t), v).

Definition hints_Lookup (t : DNSHintTable) (key : DNSIPKey) : option DNSIPValue := ht_entries t !! key.

Definition hints_InvalidateGeneration (t : DNSHintTable) (generation : Z) : DNSHintTable :=
  mkDNSHintTable (filter (λ kv, dv_Generation kv.2 = generation) (ht_entries t)) 0.

(** ** Invariant *)

(** Counters are uint32 and a conflicting entry is weak. *)
Definition hint_ok (v : DNSIPValue) : Prop :=
  fits 32 (dv_DirectRefs v) ∧ fits 32 (dv_ProxyRefs v) ∧
  (dv_DirectRefs v ≠ 0 → dv_ProxyRefs v ≠ 0 → dv_Evidence v = DNSEvidenceWeak).

Definition hints_inv (t : DNSHintTable) : Prop :=
  map_Forall (λ _ v, hint_ok v) (ht_entries t) ∧ Z.of_nat (size (ht_entries t)) ≤ maxDNSHintEntries.

(** ** Abstract specification: the observations of one epoch of one address *)

Record Obs : Type := mkObs {
  o_direct : bool; o_evidence : Z; o_policy : Z; o_expires : Z; o_now : Z }.

(** Replays observations of an address that has a live entry: no eviction scan
    runs, so the visiting order plays no role. *)
Definition observe_one (t : DNSHintTable) (key : DNSIPKey) (generation : Z) (o : Obs)
    (order : list (DNSIPKey * DNSIPValue)) : DNSHintTable :=
  (hints_Observe t key (o_direct o) (o_evidence o) (o_policy o) generation (o_expires o) (o_now o) order).1.

Fixpoint observe_all (t : DNSHintTable) (key : DNSIPKey) (generation : Z) (os : list Obs) : DNSHintTable :=
  match os with
  | [] => t
  | o :: os => observe_all (observe_one t key generation o []) key generation os
  end.

(** Each observation after the first comes before the previous one expires. *)
Fixpoint unexpired_chain (expires : Z) (os : list Obs) : Prop :=
  match os with
  | [] => True
  | o :: os => (expires = 0 ∨ o_now o < expires) ∧ unexpired_chain (o_expires o) os
  end.

Definition all_direct (os : list Obs) : Prop := Forall (λ o, o_direct o = true) os.
Definition some_strong (os : list Obs) : Prop := Exists (λ o, 2 ≤ evidenceRank (o_evidence o)) os.

(** What an entry records of the observations of its epoch. *)
Definition records (g : Z) (os : list Obs) (v : DNSIPValue) : Prop :=
  dv_Generation v = g ∧
  dv_DirectRefs v = Z.min (Z.of_nat (length (filter (λ o, o_direct o = true) os))) u32_max ∧
  dv_ProxyRefs v = Z.min (Z.of_nat (length (filter (λ o, o_direct o = false) os))) u32_max ∧
  (all_direct os → (2 ≤ evidenceRank (dv_Evidence v) ↔ some_strong os)).

(** ** Lemmas *)

Lemma sat_incr_fits z : fits 32 z → fits 32 (sat_incr z).
Proof. intros H. unfold sat_incr. case_match; [done | apply u32_fits]. Qed.

Lemma sat_incr_pos z : fits 32 z → 0 < sat_incr z.
Proof.
  unfold sat_incr, u32_max, u32, fits. intros H. destruct (z =? 2 ^ 32 - 1) eqn:E; boolprop; [lia|].
  rewrite Z.mod_small by lia. lia.
Qed.

Lemma sat_incr_eq n : 0 ≤ n → sat_incr (Z.min n u32_max) = Z.min (n + 1) u32_max.
Proof.
  unfold sat_incr, u32_max, u32. intros H.
  destruct (Z.min n (2 ^ 32 - 1) =? 2 ^ 32 - 1) eqn:E; boolprop; [lia|].
  rewrite Z.mod_small; lia.
Qed.

Lemma observe_entry_ok v d e p g x n : hint_ok v → hint_ok (observe_entry v d e p g x n).
Proof.
  intros (Hd & Hp & Hc). unfold observe_entry, hint_ok; simpl.
  split_and!; [by destruct d; [apply sat_incr_fits|]|by destruct d; [|apply sat_incr_fits]|].
  intros Hd0 Hp0.
  assert (0 < (if d then dv_ProxyRefs v else sat_incr (dv_ProxyRefs v))) as H1.
  { destruct d; [unfold fits in Hp; lia | by apply sat_incr_pos]. }
  assert (0 < (if d then sat_incr (dv_DirectRefs v) else dv_DirectRefs v)) as H2.
  { destruct d; [by apply sat_incr_pos | unfold fits in Hd; lia]. }
  apply Z.ltb_lt in H1, H2. by rewrite H1, H2.
Qed.

Lemma fresh_hint_ok p g e : hint_ok (mkDNSIPValue 0 0 p g 0 0 e 0 0 0).
Proof. split_and!; simpl; [unfold fits; lia..|done]. Qed.

Lemma hints_prune_inv t n : hints_inv t → hints_inv (hints_prune t n).
Proof.
  intros [Hf Hs]. unfold hints_prune. case_match; [|done]. split; simpl.
  - intros k v [Hk _]%map_lookup_filter_Some. by apply (Hf k).
  - pose proof (size_filter_le (λ kv, dns_expired n kv.2 = false) (ht_entries t)).
    unfold hints_pruneExpired. lia.
Qed.

Lemma hints_evictOldest_size order m :
  range_of m order → m ≠ ∅ → size m = S (size (hints_evictOldest order m)).
Proof.
  intros Hr Hne. unfold hints_evictOldest. destruct (scan_min dv_LastSeenNs order) as [k|] eqn:E.
  - apply scan_min_spec in E as (v & Hin & _). apply (range_of_lookup _ _ _ _ Hr) in Hin.
    by eapply size_delete_Some.
  - apply scan_min_None in E as ->. by apply range_of_nil in Hr.
Qed.

Lemma hints_evictOldest_Forall P order m :
  map_Forall P m → map_Forall P (hints_evictOldest order m).
Proof.
  intros Hf. unfold hints_evictOldest. case_match; [|done].
  by apply map_Forall_delete.
Qed.

(** The table before the final store: the invariant holds, there is room for
    one more key, and the base entry is well formed. *)
Lemma hints_Observe_inv_aux t key d e p g x n order :
  hints_inv t → range_of (ht_entries (hints_prune t n)) order →
  hints_inv (hints_Observe t key d e p g x n order).1.
Proof.
  intros Hinv Hr. apply (hints_prune_inv t n) in Hinv as [Hf Hs].
  unfold hints_Observe. set (t' := hints_prune t n) in *.
  destruct (ht_entries t' !! key) as [v|] eqn:Ek; simpl.
  - assert (∀ b, hint_ok b → hints_inv
      (mkDNSHintTable (<[key:=observe_entry b d e p g x n]> (ht_entries t')) (ht_nextPruneNs t'))) as Hput.
    { intros b Hb. split; simpl.
      - apply map_Forall_insert_2; [by apply observe_entry_ok | done].
      - rewrite map_size_insert_Some by eauto. done. }
    match goal with |- context [if ?b then None else Some _] => destruct b end;
      simpl; apply Hput; [apply fresh_hint_ok | by apply (Hf key)].
  - destruct (maxDNSHintEntries <=? Z.of_nat (size (ht_entries t'))) eqn:E; boolprop; split; simpl;
      try (apply map_Forall_insert_2; [apply observe_entry_ok, fresh_hint_ok|]);
      try apply hints_evictOldest_Forall; try done.
    + assert (ht_entries t' ≠ ∅) as Hne.
      { intros E0. rewrite E0, map_size_empty in E. unfold maxDNSHintEntries in E. lia. }
      pose proof (hints_evictOldest_size _ _ Hr Hne).
      pose proof (size_insert_le key (observe_entry (mkDNSIPValue 0 0 p g 0 0 e 0 0 0) d e p g x n) (hints_evictOldest order (ht_entries t'))).
      lia.
    + pose proof (size_insert_le key (observe_entry (mkDNSIPValue 0 0 p g 0 0 e 0 0 0) d e p g x n) (ht_entries t')). lia.
Qed.

(** An observation of a live entry of the generation updates that entry. *)
Lemma observe_one_live t key g o order v :
  ht_entries t !! key = Some v → dv_Generation v = g →
  (dv_ExpiresNs v = 0 ∨ o_now o < dv_ExpiresNs v) →
  ht_entries (observe_one t key g o order) !! key =
    Some (observe_entry v (o_direct o) (o_evidence o) (o_policy o) g (o_expires o) (o_now o)).
Proof.
  intros Hk Hg Hx. unfold observe_one, hints_Observe.
  assert (ht_entries (hints_prune t (o_now o)) !! key = Some v) as ->.
  { unfold hints_prune. case_match; [|done]. simpl. apply map_lookup_filter_Some.
    split; [done|]. unfold dns_expired. simpl. lia. }
  unfold entry_reusable. rewrite Hg, Z.eqb_refl. simpl.
  assert (negb (dv_ExpiresNs v =? 0) && negb (o_now o =? 0) && (dv_ExpiresNs v <=? o_now o) = false) as -> by lia.
  simpl. apply lookup_insert_eq.
Qed.

(** The first observation of an epoch starts from a fresh entry. *)
Lemma observe_one_fresh t key g o order :
  entry_reusable (ht_entries (hints_prune t (o_now o)) !! key) g (o_now o) = None →
  ht_entries (observe_one t key g o order) !! key =
    Some (observe_entry (mkDNSIPValue 0 0 (o_policy o) g 0 0 (o_evidence o) 0 0 0)
            (o_direct o) (o_evidence o) (o_policy o) g (o_expires o) (o_now o)).
Proof.
  intros Hr. unfold observe_one, hints_Observe. rewrite Hr. simpl. apply lookup_insert_eq.
Qed.

Lemma evidenceRank_nonneg e : 0 ≤ evidenceRank e.
Proof. unfold evidenceRank. repeat case_match; lia. Qed.

Lemma no_proxy_all_direct (os : list Obs) :
  filter (λ o, o_direct o = false) os = [] ↔ all_direct os.
Proof.
  unfold all_direct. induction os as [|o os IH]; [by split|].
  rewrite filter_cons, Forall_cons, <- IH.
  destruct (o_direct o) eqn:E; [rewrite decide_False by done | rewrite decide_True by done]; intuition congruence.
Qed.

Lemma records_step g os v o :
  os ≠ [] → records g os v →
  records g (os ++ [o]) (observe_entry v (o_direct o) (o_evidence o) (o_policy o) g (o_expires o) (o_now o)).
Proof.
  intros Hne (Hg & Hd & Hp & He). unfold records, observe_entry. simpl.
  rewrite !filter_app, !length_app, !filter_cons, !filter_nil.
  split_and!; [done | | |].
  - destruct (o_direct o); simpl; rewrite Hd; [|f_equal; lia].
    rewrite sat_incr_eq by lia. f_equal. lia.
  - destruct (o_direct o); simpl; rewrite Hp; [f_equal; lia|].
    rewrite sat_incr_eq by lia. f_equal. lia.
  - intros [Hall Ho]%Forall_app. apply Forall_inv in Ho. simpl in Ho. rewrite Ho.
    assert (dv_ProxyRefs v = 0) as Hp0.
    { rewrite Hp. apply no_proxy_all_direct in Hall as ->. done. }
    rewrite Hp0. simpl. unfold some_strong. rewrite Exists_app, Exists_cons, Exists_nil.
    specialize (He Hall). unfold some_strong in He.
    destruct (evidenceRank (dv_Evidence v) <? evidenceRank (o_evidence o)) eqn:E; simpl; boolprop; intuition lia.
Qed.

Lemma records_first g o :
  records g [o] (observe_entry (mkDNSIPValue 0 0 (o_policy o) g 0 0 (o_evidence o) 0 0 0)
    (o_direct o) (o_evidence o) (o_policy o) g (o_expires o) (o_now o)).
Proof.
  unfold records, observe_entry, some_strong, all_direct. simpl.
  rewrite !filter_cons, !filter_nil, Exists_cons, Exists_nil, Forall_singleton, Z.ltb_irrefl.
  destruct (o_direct o); simpl; split_and!; try done; intuition congruence.
Qed.

Lemma records_all os t key g v :
  ∀ hist, hist ≠ [] → ht_entries t !! key = Some v → records g hist v →
  unexpired_chain (dv_ExpiresNs v) os →
  ∃ v', ht_entries (observe_all t key g os) !! key = Some v' ∧ records g (hist ++ os) v' ∧
        dv_ExpiresNs v' = default (dv_ExpiresNs v) (o_expires <$> last os).
Proof.
  revert t v. induction os as [|o os IH]; intros t v hist Hne Hk Hrec Hch; simpl in *.
  - exists v. by rewrite app_nil_r.
  - destruct Hch as [Hx Hch].
    pose proof (observe_one_live t key g o [] v Hk (proj1 Hrec) Hx) as Hk'.
    edestruct IH as (v' & ? & ? & Hv'); [| exact Hk' | by apply (records_step g hist v o) | exact Hch |].
    { by destruct hist. }
    exists v'. rewrite <- app_assoc in *. simpl in *. split_and!; [done..|].
    rewrite Hv'. by destruct os as [|o' os]; simpl; [|destruct (last (o' :: os)) eqn:E; [|apply last_None in E]].
Qed.

(** Admission in terms of the recorded history. *)
Lemma records_admission g os v now :
  os ≠ [] → records g os v →
  (DNSHintAllowsDirect v g now).1 = true ↔
  all_direct os ∧ some_strong os ∧ (dv_ExpiresNs v = 0 ∨ now < dv_ExpiresNs v).
Proof.
  intros Hne (Hg & Hd & Hp & He). split.
  - destruct (DNSHintAllowsDirect v g now) as [b r] eqn:E. simpl. intros ->.
    apply DNSHintAllowsDirect_true in E as (_ & Hx & Hp0 & _ & Hev).
    assert (all_direct os) as Hall.
    { apply no_proxy_all_direct. rewrite Hp in Hp0. unfold u32_max in Hp0.
      apply length_zero_iff_nil. lia. }
    split_and!; [done | | done]. apply He; [done|].
    unfold evidenceRank. destruct Hev as [[-> _]|[-> _]]; vm_compute; discriminate.
  - intros (Hall & Hst & Hx). apply He in Hst; [|done]. unfold DNSHintAllowsDirect.
    rewrite Hg, Z.eqb_refl. simpl.
    assert (negb (dv_ExpiresNs v =? 0) && (dv_ExpiresNs v <=? now) = false) as -> by lia.
    assert (filter (λ o, o_direct o = false) os = []) as Hnil by by apply no_proxy_all_direct.
    assert (filter (λ o, o_direct o = true) os = os) as Hid.
    { clear -Hall. induction Hall as [|o l Ho _ IH]; [done|]. rewrite filter_cons, Ho, decide_True by done. by f_equal. }
    rewrite Hp, Hd, Hnil, Hid. destruct os as [|o os]; [done|].
    assert ((Z.min (Z.of_nat (length (@nil Obs))) u32_max =? 0) = true) as -> by done. simpl.
    assert ((Z.min (Z.of_nat (S (length os))) u32_max =? 0) = false) as ->
      by (clear; apply Z.eqb_neq; unfold u32_max; lia).
    unfold evidenceRank in Hst.
    destruct (dv_Evidence v =? DNSEvidenceFakeIP); [done|].
    destruct (dv_Evidence v =? DNSEvidenceStrong); [done|].
    destruct (dv_Evidence v =? DNSEvidenceWeak); lia.
Qed.

(** ** Theorems *)

(** Observing any address keeps the hint table's invariant, whatever order
    an eviction scan visits the entries in: reference counts stay uint32, an
    entry with both DIRECT and PROXY observations is marked weak, and the table
    never exceeds its capacity. *)
Theorem hints_Observe_inv (t : DNSHintTable) key direct evidence policy gen expires now order :
  hints_inv t → range_of (ht_entries (hints_prune t now)) order →
  hints_inv (hints_Observe t key direct evidence policy gen expires now order).1.
Proof. apply hints_Observe_inv_aux. Qed.

(** The table implements its abstract specification: after an epoch of
    observations of an address (the first one finding no live entry, each later
    one arriving before the previous expires) the stored hint admits DIRECT at
    time [now] exactly when every observation was DIRECT, at least one carried
    FakeIP or strong evidence, and the hint has not expired.  One PROXY
    observation denies DIRECT for the rest of the epoch. *)
Theorem hints_admission_history (t : DNSHintTable) key gen o os order now :
  entry_reusable (ht_entries (hints_prune t (o_now o)) !! key) gen (o_now o) = None →
  unexpired_chain (o_expires o) os →
  ∃ v, hints_Lookup (observe_all (observe_one t key gen o order) key gen os) key = Some v ∧
    ((DNSHintAllowsDirect v gen now).1 = true ↔
     all_direct (o :: os) ∧ some_strong (o :: os) ∧
     (o_expires (default o (last os)) = 0 ∨ now < o_expires (default o (last os)))).
Proof.
  intros Hf Hch. pose proof (observe_one_fresh t key gen o order Hf) as Hk.
  destruct (records_all os (observe_one t key gen o order) key gen _ [o] ltac:(done) Hk
    (records_first gen o) Hch) as (v & Hv & Hrec & Hx).
  exists v. split; [done|]. rewrite (records_admission gen (o :: os)) by done.
  rewrite Hx. simpl. by destruct (last os).
Qed.

(** ** Witnesses *)

Definition demo_key : DNSIPKey := mkDNSIPKey AFInet 0 0 (be_bytes 16 0x01020304).

Lemma hints_Observe_inv_witness :
  hints_inv (hints_Observe NewDNSHintTable demo_key true DNSEvidenceStrong 1 7 1000 5 []).1.
Proof.
  apply hints_Observe_inv.
  - split; [by apply map_Forall_empty | vm_compute; discriminate].
  - vm_compute. reflexivity.
Defined.

(** A DIRECT then a PROXY observation: the hint no longer admits DIRECT. *)
Lemma hints_admission_history_witness :
  ∃ v, hints_Lookup
         (observe_all (observe_one NewDNSHintTable demo_key 7 (mkObs true DNSEvidenceStrong 1 1000 5) [])
            demo_key 7 [mkObs false DNSEvidenceStrong 1 2000 500]) demo_key = Some v ∧
    (DNSHintAllowsDirect v 7 600).1 = false.
Proof.
  destruct (hints_admission_history NewDNSHintTable demo_key 7 (mkObs true DNSEvidenceStrong 1 1000 5)
    [mkObs false DNSEvidenceStrong 1 2000 500] [] 600) as (v & Hv & Hadm).
  - reflexivity.
  - split; [right; reflexivity | done].
  - exists v. split; [exact Hv|]. apply not_true_is_false. intros Ht. apply Hadm in Ht as (Hall & _).
    inversion Hall as [|?? _ Hall']. inversion Hall'. discriminate.
Defined.
