(* ===== verification/EbpfGeneration.v ===== *)
(** * Double-buffered policy publication: [src/common/ebpf/v3/generation.go]

    [BankPublisher] keeps the live bank, the policy generation and the compile
    reservation in three atomic words.  The methods are modelled as functions
    of the three words (the receiver is never nil: the backend allocates its
    publisher); the interleaving of [Commit] with a concurrent [Snapshot] and
    the competition for the compile reservation are step relations whose steps
    are the atomic loads, stores and compare-and-swaps of the code. *)

From S2P Require Import Prelude.
From stdpp Require Import base gmap list strings numbers relations.
From Stdlib Require Import ZArith Lia.

Local Open Scope Z_scope.

Record BankPublisher : Type := mkBankPublisher {
  bp_active : Z;
  bp_generation : Z;
  bp_compiling : Z }.

#[global] Instance BankPublisher_eq_dec : EqDecision BankPublisher.
Proof. solve_decision. Defined.

Definition NewBankPublisher : BankPublisher := mkBankPublisher 0 1 0.

Definition InactiveBank (p : BankPublisher) : Z := u32 (1 - bp_active p).

(** [BeginCompile]: the inactive bank, when the reservation was free. *)
Definition BeginCompile (p : BankPublisher) : BankPublisher * option Z :=
  if bp_compiling p =? 0
  then (mkBankPublisher (bp_active p) (bp_generation p) 1, Some (InactiveBank p))
  else (p, None).

Definition AbortCompile (p : BankPublisher) : BankPublisher :=
  mkBankPublisher (bp_active p) (bp_generation p) 0.

(** [SyncGeneration]: without a competing writer the compare-and-swap loop runs once. *)
Definition SyncGeneration (p : BankPublisher) (generation : Z) : BankPublisher :=
  if generation =? 0 then p
  else if negb (bp_generation p =? 0) && (generation <? bp_generation p) then p
  else mkBankPublisher (bp_active p) generation (bp_compiling p).

(** [newGen := generation.Load() + 1; if newGen == 0 { newGen = 1 }] *)
Definition next_generation (g : Z) : Z := if u32 (g + 1) =? 0 then 1 else u32 (g + 1).

(** [Commit]: the publisher and the returned generation and bank. *)
Definition Commit (p : BankPublisher) : BankPublisher * (Z * Z) :=
  let newGen := next_generation (bp_generation p) in
  let newActive := InactiveBank p in
  (mkBankPublisher newActive newGen 0, (newGen, newActive)).

(** [Snapshot]: bank and generation. *)
Definition Snapshot (p : BankPublisher) : Z * Z := (bp_active p, bp_generation p).

(** ** Invariant and sequential reachability *)

Definition publisher_ok (p : BankPublisher) : Prop :=
  (bp_active p = 0 ∨ bp_active p = 1) ∧ 0 < bp_generation p < 2 ^ 32 ∧
  (bp_compiling p = 0 ∨ bp_compiling p = 1).

#[global] Instance publisher_ok_dec p : Decision (publisher_ok p).
Proof. unfold publisher_ok. apply _. Defined.

(** ** Commit against Snapshot, atomic step by atomic step *)

Inductive commit_pc : Type :=
| CStart
| CLoaded (newGen : Z)
| CReady (newGen newActive : Z)
| CGenStored (newActive : Z)
| CBankStored
| CDone.

Inductive snap_pc : Type :=
| SStart
| SGenRead (g : Z)
| SDone (bank g : Z).

Record race : Type := mkRace { r_pub : BankPublisher; r_commit : commit_pc; r_snap : snap_pc }.

Definition with_active (p : BankPublisher) (a : Z) := mkBankPublisher a (bp_generation p) (bp_compiling p).
Definition with_generation (p : BankPublisher) (g : Z) := mkBankPublisher (bp_active p) g (bp_compiling p).

Inductive race_step : race → race → Prop :=
| step_load_gen p s :
    race_step (mkRace p CStart s) (mkRace p (CLoaded (next_generation (bp_generation p))) s)
| step_load_bank p g s :
    race_step (mkRace p (CLoaded g) s) (mkRace p (CReady g (InactiveBank p)) s)
| step_store_gen p g a s :
    race_step (mkRace p (CReady g a) s) (mkRace (with_generation p g) (CGenStored a) s)
| step_store_bank p a s :
    race_step (mkRace p (CGenStored a) s) (mkRace (with_active p a) CBankStored s)
| step_clear p s :
    race_step (mkRace p CBankStored s) (mkRace (AbortCompile p) CDone s)
| step_snap_gen p c :
    race_step (mkRace p c SStart) (mkRace p c (SGenRead (bp_generation p)))
| step_snap_bank p c g :
    race_step (mkRace p c (SGenRead g)) (mkRace p c (SDone (bp_active p) g)).

(** What the race preserves, relative to the publisher it started from: the
    bank is flipped only once the new generation is in place, and the words
    the committer holds are the ones [Commit] computes. *)
Definition race_inv (p0 : BankPublisher) (r : race) : Prop :=
  let g0 := bp_generation p0 in let g1 := next_generation g0 in
  let a0 := bp_active p0 in let a1 := InactiveBank p0 in
  match r_commit r with
  | CStart => r_pub r = p0
  | CLoaded g => r_pub r = p0 ∧ g = g1
  | CReady g a => r_pub r = p0 ∧ g = g1 ∧ a = a1
  | CGenStored a => r_pub r = with_generation p0 g1 ∧ a = a1
  | CBankStored => r_pub r = with_active (with_generation p0 g1) a1
  | CDone => r_pub r = (Commit p0).1
  end.

(** ** The compile reservation, with any number of competing compilers *)

Record compile_race : Type := mkCompileRace { cr_pub : BankPublisher; cr_holders : gset nat }.

(** A compiler that holds the reservation ends it with [Commit] or [AbortCompile];
    generation synchronisation may happen at any time. *)
Inductive compile_step : compile_race → compile_race → Prop :=
| cstep_begin p hs n bank p' :
    n ∉ hs → BeginCompile p = (p', Some bank) → compile_step (mkCompileRace p hs) (mkCompileRace p' ({[n]} ∪ hs))
| cstep_busy p hs p' :
    BeginCompile p = (p', None) → compile_step (mkCompileRace p hs) (mkCompileRace p' hs)
| cstep_commit p hs n :
    n ∈ hs → compile_step (mkCompileRace p hs) (mkCompileRace (Commit p).1 (hs ∖ {[n]}))
| cstep_abort p hs n :
    n ∈ hs → compile_step (mkCompileRace p hs) (mkCompileRace (AbortCompile p) (hs ∖ {[n]}))
| cstep_sync p hs g :
    fits 32 g → compile_step (mkCompileRace p hs) (mkCompileRace (SyncGeneration p g) hs).

Definition compile_inv (c : compile_race) : Prop :=
  publisher_ok (cr_pub c) ∧ Z.of_nat (size (cr_holders c)) = bp_compiling (cr_pub c).

(** ** Lemmas *)

Lemma next_generation_range g : 0 < next_generation g < 2 ^ 32.
Proof.
  unfold next_generation. pose proof (u32_fits (g + 1)) as H. unfold fits in H.
  destruct (u32 (g + 1) =? 0) eqn:E; boolprop; lia.
Qed.

Lemma next_generation_ne g : 0 < g < 2 ^ 32 → next_generation g ≠ g.
Proof.
  unfold next_generation, u32. intros H. destruct (Z.eq_dec g (2 ^ 32 - 1)) as [->|Hne].
  - vm_compute. discriminate.
  - rewrite Z.mod_small by lia. destruct (g + 1 =? 0) eqn:E; boolprop; lia.
Qed.

Lemma InactiveBank_flip p : publisher_ok p → InactiveBank p = 1 - bp_active p.
Proof. unfold InactiveBank. intros ([->| ->] & _); reflexivity. Qed.

Lemma Commit_ok p : publisher_ok p → publisher_ok (Commit p).1.
Proof.
  intros Hok. split_and!; simpl; [|apply next_generation_range..|by left].
  rewrite InactiveBank_flip by done. destruct Hok as ([->| ->] & _); auto.
Qed.

Lemma SyncGeneration_ok p g : fits 32 g → publisher_ok p → publisher_ok (SyncGeneration p g).
Proof.
  intros Hg Hok. unfold SyncGeneration. destruct (g =? 0) eqn:E; [done|]. case_match; [done|].
  boolprop. destruct Hok as (? & ? & ?). unfold fits in Hg. split_and!; simpl; auto; lia.
Qed.

#[export] Hint Resolve next_generation_range Commit_ok SyncGeneration_ok : sbx.

Lemma race_inv_step p0 r r' : race_inv p0 r → race_step r r' → race_inv p0 r'.
Proof. unfold race_inv. intros Hi Hs. destruct Hs; simpl in *; destruct_and?; subst; auto. Qed.

Lemma race_inv_steps p0 r : rtc race_step (mkRace p0 CStart SStart) r → race_inv p0 r.
Proof.
  intros Hr. remember (mkRace p0 CStart SStart) as r0 eqn:E.
  assert (race_inv p0 r0) as Hi by by subst. clear E.
  induction Hr; eauto using race_inv_step.
Qed.

Lemma compile_inv_step c c' : compile_inv c → compile_step c c' → compile_inv c'.
Proof.
  intros [Hok Hsz] Hs. destruct Hs as [p hs n bank p' Hn Hb|p hs p' Hb|p hs n Hn|p hs n Hn|p hs g Hg]; simpl in *.
  - unfold BeginCompile in Hb. destruct (bp_compiling p =? 0) eqn:E; simplify_eq. boolprop.
    split; simpl; [destruct Hok as (? & ? & ?); split_and!; simpl; auto; lia|].
    rewrite size_union, size_singleton by set_solver. lia.
  - unfold BeginCompile in Hb. destruct (bp_compiling p =? 0) eqn:E; simplify_eq. done.
  - split; [by apply Commit_ok|]. simpl.
    assert (size hs = 1)%nat.
    { destruct Hok as (_ & _ & [H|H]); rewrite H in Hsz; [|lia].
      assert (size hs = 0)%nat as H0%size_empty_inv by lia. set_solver. }
    rewrite size_difference, size_singleton by set_solver. lia.
  - split; [destruct Hok as (? & ? & ?); split_and!; simpl; auto; lia|]. simpl.
    assert (size hs = 1)%nat.
    { destruct Hok as (_ & _ & [H|H]); rewrite H in Hsz; [|lia].
      assert (size hs = 0)%nat as H0%size_empty_inv by lia. set_solver. }
    rewrite size_difference, size_singleton by set_solver. lia.
  - split; [by apply SyncGeneration_ok|]. simpl. unfold SyncGeneration. by repeat case_match.
Qed.

(** ** Theorems *)

(** In every interleaving of the atomic steps of one [Commit] with a
    concurrent [Snapshot], the live bank is flipped only after the new
    generation is visible; a completed commit leaves the other bank live under a
    different, non-zero uint32 generation. *)
Theorem Commit_generation_before_bank (p0 : BankPublisher) (r : race) :
  publisher_ok p0 → rtc race_step (mkRace p0 CStart SStart) r →
  (bp_active (r_pub r) ≠ bp_active p0 → bp_generation (r_pub r) = next_generation (bp_generation p0)) ∧
  (r_commit r = CDone →
     bp_active (r_pub r) = 1 - bp_active p0 ∧ bp_generation (r_pub r) ≠ bp_generation p0 ∧
     publisher_ok (r_pub r)).
Proof.
  intros Hok Hr. apply race_inv_steps in Hr. unfold race_inv in Hr. split.
  - destruct (r_commit r); [destruct_and?; simplify_eq/=; try done..];
      repeat match goal with H : r_pub r = _ |- _ => rewrite H end; simpl; done.
  - intros Hd. rewrite Hd in Hr. rewrite Hr. simpl.
    split_and!; [by apply InactiveBank_flip | apply next_generation_ne; apply Hok | by apply Commit_ok].
Qed.

(** A [Snapshot] that races with [Commit] can return the new bank together
    with the old generation: it reads the generation before both stores and the
    bank after them. *)
Theorem Snapshot_new_bank_old_generation (p0 : BankPublisher) :
  ∃ r, rtc race_step (mkRace p0 CStart SStart) r ∧ r_commit r = CDone ∧
       r_snap r = SDone (InactiveBank p0) (bp_generation p0).
Proof.
  eexists. split.
  - eapply rtc_l; [apply step_snap_gen|].
    eapply rtc_l; [apply step_load_gen|]. eapply rtc_l; [apply step_load_bank|].
    eapply rtc_l; [apply step_store_gen|]. eapply rtc_l; [apply step_store_bank|].
    eapply rtc_l; [apply step_clear|]. eapply rtc_l; [apply step_snap_bank|]. apply rtc_refl.
  - done.
Qed.

(** The compile reservation is exclusive: with any number of compilers
    competing through [BeginCompile] and ending with [Commit] or
    [AbortCompile], and generations synchronised in between, at most one holds
    it, and the publisher stays well formed (bank 0 or 1, generation never 0). *)
Theorem compile_reservation_exclusive (c : compile_race) :
  rtc compile_step (mkCompileRace NewBankPublisher ∅) c →
  (size (cr_holders c) ≤ 1)%nat ∧ publisher_ok (cr_pub c).
Proof.
  intros Hr. remember (mkCompileRace NewBankPublisher ∅) as c0 eqn:E.
  assert (compile_inv c0) as Hi.
  { subst. split; [by apply (bool_decide_unpack _); vm_compute | done]. }
  clear E. induction Hr as [c0|c0 c1 c2 Hs Hr IH].
  - destruct Hi as [Hok Hsz]. split; [|done]. destruct Hok as (_ & _ & [H|H]); rewrite H in Hsz; lia.
  - apply IH. by eapply compile_inv_step.
Qed.

(** ** Witnesses *)

Lemma Commit_generation_before_bank_witness :
  publisher_ok NewBankPublisher ∧
  rtc race_step (mkRace NewBankPublisher CStart SStart) (mkRace (Commit NewBankPublisher).1 CDone SStart) ∧
  bp_generation (Commit NewBankPublisher).1 = 2.
Proof.
  assert (rtc race_step (mkRace NewBankPublisher CStart SStart) (mkRace (Commit NewBankPublisher).1 CDone SStart)) as Hr.
  { eapply rtc_l; [apply step_load_gen|]. eapply rtc_l; [apply step_load_bank|].
    eapply rtc_l; [apply step_store_gen|]. eapply rtc_l; [apply step_store_bank|].
    eapply rtc_l; [apply step_clear|]. apply rtc_refl. }
  assert (publisher_ok NewBankPublisher) as Hok by (apply (bool_decide_unpack _); vm_compute; exact I).
  split; [exact Hok|]. split; [exact Hr|].
  destruct (Commit_generation_before_bank _ _ Hok Hr) as [Hg _].
  exact (Hg ltac:(discriminate)).
Defined.

Lemma compile_reservation_exclusive_witness :
  (size (cr_holders (mkCompileRace (mkBankPublisher 0 1 1) ({[7%nat]} ∪ ∅))) ≤ 1)%nat.
Proof.
  apply compile_reservation_exclusive. eapply rtc_l; [|apply rtc_refl].
  apply (cstep_begin NewBankPublisher ∅ 7%nat 1); [set_solver | reflexivity].
Defined.
