(* ===== verification/EbpfCompiler.v ===== *)
(** * Static policy compiler: [src/common/ebpf/v3/compiler.go]

    Which route rules may sink into the kernel's static policy, how an
    accepted rule becomes a policy value, and how a prefix becomes a canonical
    prefix and an LPM key. *)

From S2P Require Import Prelude NetIP EbpfAbi.
From stdpp Require Import base gmap list strings numbers.
From Stdlib Require Import ZArith Lia.

Local Open Scope Z_scope.

Inductive RuleKind : Type := RuleKindStatic | RuleKindNeedsControl | RuleKindDynamicGroup.

#[global] Instance RuleKind_eq_dec : EqDecision RuleKind.
Proof. solve_decision. Defined.

Record CompileInput : Type := mkCompileInput {
  ci_Destination : Prefix;
  ci_Protocol : Z;
  ci_DPortMin : Z;
  ci_DPortMax : Z;
  ci_Verdict : Z;
  ci_Kind : RuleKind;
  ci_PolicyID : Z;
  ci_DomainBound : bool;
  ci_UsesSniff : bool;
  ci_UsesProviderRuntime : bool;
  ci_UsesNetworkType : bool;
  ci_LeafIsGroup : bool }.

Record CompiledPolicy : Type := mkCompiledPolicy { cp_Prefix : Prefix; cp_Value : PolicyValue }.

Definition CanonicalPrefix (prefix : Prefix) : result Prefix :=
  if negb (prefix_is_valid prefix) then Err "invalid prefix"
  else
    let addr := prefix_addr prefix in
    let bits := prefix_bits prefix in
    if is4in6 addr then
      if bits <? 96 then Err "invalid ipv4-mapped prefix length"
      else Ok (masked (prefix_from (unmap addr) (bits - 96)))
    else Ok (masked (prefix_from addr bits)).

Definition EligibleForStaticSink (i : CompileInput) : result unit :=
  match ci_Kind i with
  | RuleKindNeedsControl | RuleKindDynamicGroup => Err "rule kind not sinkable"
  | RuleKindStatic =>
      if ci_DomainBound i then Err "domain-bound rule cannot sink without DNS association"
      else if ci_UsesSniff i then Err "sniff-dependent rule cannot sink"
      else if ci_UsesProviderRuntime i then Err "provider-runtime rule cannot sink"
      else if ci_UsesNetworkType i then Err "network-type rule cannot sink"
      else if ci_LeafIsGroup i then Err "group outbound cannot sink as static DIRECT"
      else if negb (prefix_is_valid (ci_Destination i)) then Err "invalid destination prefix"
      else if negb (existsb (Z.eqb (ci_Verdict i)) [VerdictDirect; VerdictProxy; VerdictBlock; VerdictMustControl])
      then Err "unsupported verdict"
      else if (ci_Verdict i =? VerdictDirect) && ci_LeafIsGroup i then Err "group leaf cannot be static DIRECT"
      else Ok tt
  end.

Definition reasonForStatic (v : Z) : Z :=
  if v =? VerdictDirect then ReasonStaticDirect
  else if v =? VerdictProxy then ReasonStaticProxy
  else if v =? VerdictBlock then ReasonStaticBlock
  else if v =? VerdictMustControl then ReasonMustControl
  else ReasonNone.

(** The policy of one accepted rule. *)
Definition compile_one (i : CompileInput) (generation : Z) : CompiledPolicy :=
  let confidence := if ci_Verdict i =? VerdictMustControl then ConfidenceNone else ConfidenceStrong in
  mkCompiledPolicy (masked (ci_Destination i))
    (mkPolicyValue (ci_Verdict i) SourceStatic confidence 0 (reasonForStatic (ci_Verdict i))
       (ci_Protocol i) (ci_DPortMin i) (ci_DPortMax i) (ci_PolicyID i) generation).

(** The loop of [CompileStatic] with its two accumulators (both appended to). *)
Fixpoint compile_loop (inputs : list CompileInput) (generation : Z)
    (out : list CompiledPolicy) (rejected : list CompileInput) : list CompiledPolicy * list CompileInput :=
  match inputs with
  | [] => (out, rejected)
  | i :: inputs =>
      match EligibleForStaticSink i with
      | Err _ => compile_loop inputs generation out (rejected ++ [i])
      | Ok _ => compile_loop inputs generation (out ++ [compile_one i generation]) rejected
      end
  end.

Definition CompileStatic (inputs : list CompileInput) (generation : Z) : list CompiledPolicy * list CompileInput :=
  compile_loop inputs generation [] [].

Definition PrefixToLPM4 (p : Prefix) : result LPM4Key :=
  p ← CanonicalPrefix p;
  let addr := prefix_addr p in
  if negb (is4 addr) then Err "not ipv4 prefix"
  else let bits := prefix_bits p in
  if (bits <? 0) || (32 <? bits) then Err "invalid ipv4 bits"
  else Ok (mkLPM4Key bits (as4 addr)).

Definition PrefixToLPM6 (p : Prefix) : result LPM6Key :=
  p ← CanonicalPrefix p;
  let addr := prefix_addr p in
  if (negb (is6 addr) || is4in6 addr) && (is4 addr || is4in6 addr) then Err "not ipv6 prefix"
  else if is4 addr then Err "not ipv6 prefix"
  else let bits := prefix_bits p in
  if (bits <? 0) || (128 <? bits) then Err "invalid ipv6 bits"
  else Ok (mkLPM6Key bits (as16 addr)).

(** ** Specification *)

(** A rule the kernel may decide on its own: every input of its verdict is
    known when the policy is compiled. *)
Definition sinkable (i : CompileInput) : bool :=
  bool_decide (ci_Kind i = RuleKindStatic) && negb (ci_DomainBound i) && negb (ci_UsesSniff i)
  && negb (ci_UsesProviderRuntime i) && negb (ci_UsesNetworkType i) && negb (ci_LeafIsGroup i)
  && prefix_is_valid (ci_Destination i)
  && existsb (Z.eqb (ci_Verdict i)) [VerdictDirect; VerdictProxy; VerdictBlock; VerdictMustControl].

(** ** Lemmas *)

Lemma EligibleForStaticSink_spec i : is_ok (EligibleForStaticSink i) = sinkable i.
Proof.
  unfold EligibleForStaticSink, sinkable.
  destruct (ci_Kind i); simpl; [|done..].
  destruct (ci_DomainBound i); simpl; [done|].
  destruct (ci_UsesSniff i); simpl; [done|].
  destruct (ci_UsesProviderRuntime i); simpl; [done|].
  destruct (ci_UsesNetworkType i); simpl; [done|].
  destruct (ci_LeafIsGroup i); simpl; [done|].
  destruct (prefix_is_valid (ci_Destination i)); simpl; [|done].
  rewrite andb_false_r. by destruct (_ || _).
Qed.

Lemma compile_loop_spec inputs g out rej :
  compile_loop inputs g out rej =
    (out ++ ((λ i, compile_one i g) <$> filter (λ i, sinkable i = true) inputs),
     rej ++ filter (λ i, sinkable i = false) inputs).
Proof.
  revert out rej. induction inputs as [|i l IH]; intros out rej; simpl.
  { by rewrite !app_nil_r. }
  pose proof (EligibleForStaticSink_spec i) as Hs. rewrite !filter_cons.
  destruct (EligibleForStaticSink i); simpl in Hs; rewrite <- Hs, IH.
  - rewrite decide_True, decide_False by done. by rewrite fmap_cons, <- app_assoc.
  - rewrite decide_False, decide_True by done. by rewrite <- app_assoc.
Qed.

Lemma prefix_from_wf a bits : addr_wf a → prefix_wf (prefix_from a bits).
Proof.
  intros Ha. destruct a as [|v|v z]; simpl in *.
  - split_and!; simpl; try done; lia.
  - split_and!; simpl; try done; repeat case_match; lia.
  - split_and!; simpl; try done; repeat case_match; lia.
Qed.

Lemma masked_idemp p : prefix_wf p → masked (masked p) = masked p.
Proof.
  destruct p as [a b]. intros (Ha & Hz & Hb & H0). unfold masked at 2 3, prefix_is_valid; simpl in *.
  destruct (0 <=? b) eqn:E; boolprop; [|done].
  destruct a as [|v|v z]; simpl in *; [specialize (H0 eq_refl); lia|..];
    (assert (((b <? 0) || (_ <? b)) = false) as -> by lia); unfold masked, prefix_is_valid; simpl;
    (assert ((0 <=? b) = true) as -> by lia); simpl;
    (assert (((b <? 0) || (_ <? b)) = false) as -> by lia); by rewrite clear_low_idemp by lia.
Qed.

Lemma masked_contains p a : prefix_wf p → prefix_contains (masked p) a = prefix_contains p a.
Proof.
  destruct p as [q b]. intros (Ha & Hz & Hb & H0). unfold masked, prefix_is_valid; simpl in *.
  destruct (0 <=? b) eqn:E; boolprop.
  2: { unfold prefix_contains, prefix_is_valid. simpl. by rewrite (proj2 (Z.leb_gt 0 b) E). }
  destruct q as [|v|v z]; simpl in *; [specialize (H0 eq_refl); lia|..];
    (assert (((b <? 0) || (_ <? b)) = false) as -> by lia);
    unfold prefix_contains, prefix_is_valid; simpl;
    destruct (negb (0 <=? b) || has_zone a); try done; simpl;
    destruct a as [|w|w z']; simpl; try done;
    by rewrite shiftr_clear_low by lia.
Qed.

(** Two integers that agree above bit 32 agree above bit [n ≤ 32] exactly when
    their low halves do. *)
Lemma mapped_shift v w n :
  v / 2 ^ 32 = w / 2 ^ 32 → 0 ≤ n ≤ 32 →
  (Z.shiftr v n =? Z.shiftr w n) = (Z.shiftr (v mod 2 ^ 32) n =? Z.shiftr (w mod 2 ^ 32) n).
Proof.
  intros Hh Hn. rewrite !Z.shiftr_div_pow2 by lia.
  assert (2 ^ 32 = 2 ^ (32 - n) * 2 ^ n) as Hp by (rewrite <- Z.pow_add_r by lia; f_equal; lia).
  assert (0 < 2 ^ n) by (apply Z.pow_pos_nonneg; lia).
  assert (∀ x, x / 2 ^ n = 2 ^ (32 - n) * (x / 2 ^ 32) + (x mod 2 ^ 32) / 2 ^ n) as Hx.
  { intros x. rewrite (Z.div_mod x (2 ^ 32)) at 1 by lia. rewrite Hp at 1.
    replace (2 ^ (32 - n) * 2 ^ n * (x / 2 ^ 32)) with (2 ^ (32 - n) * (x / 2 ^ 32) * 2 ^ n) by lia.
    by rewrite Z.div_add_l by lia. }
  rewrite (Hx v), (Hx w), Hh. apply eq_true_iff_eq. rewrite !Z.eqb_eq. lia.
Qed.

(** The canonical prefix of an accepted prefix is built from its address,
    unmapped when it is v4-mapped. *)
Lemma CanonicalPrefix_Ok p q :
  prefix_wf p → CanonicalPrefix p = Ok q →
  0 ≤ prefix_bits p ∧
  ((is4in6 (prefix_addr p) = true ∧ 96 ≤ prefix_bits p ∧
    q = masked (prefix_from (unmap (prefix_addr p)) (prefix_bits p - 96))) ∨
   (is4in6 (prefix_addr p) = false ∧ q = masked p)).
Proof.
  intros (Ha & Hz & Hb & H0) Hc. unfold CanonicalPrefix, prefix_is_valid in Hc.
  destruct (0 <=? prefix_bits p) eqn:E; boolprop; [|done]. simpl in Hc. split; [done|].
  destruct (is4in6 (prefix_addr p)) eqn:Em.
  - destruct (prefix_bits p <? 96) eqn:E96; boolprop; simplify_eq. by left.
  - simplify_eq. right. split; [done|]. f_equal. destruct p as [a b]; simpl in *.
    destruct a as [|v|v z]; simpl in *; [specialize (H0 eq_refl); lia|..].
    + by assert (((b <? 0) || (32 <? b)) = false) as -> by lia.
    + assert (((b <? 0) || (128 <? b)) = false) as -> by lia.
      apply negb_false_iff, String.eqb_eq in Hz. by subst.
Qed.

Lemma CanonicalPrefix_wf p q : prefix_wf p → CanonicalPrefix p = Ok q → prefix_wf q.
Proof.
  intros Hwf Hc. destruct (CanonicalPrefix_Ok p q Hwf Hc) as (_ & [(_ & _ & ->)|(_ & ->)]).
  - apply masked_wf, prefix_from_wf, addr_wf_unmap, Hwf.
  - by apply masked_wf.
Qed.

Lemma mask_addr_4in6 a b :
  addr_wf a → 0 ≤ b ≤ bit_len a → is4in6 (mask_addr a b) = true → is4in6 a = true.
Proof.
  destruct a as [|v|v z]; simpl; [done..|]. intros Ha Hb Hm. boolprop. revert Hm.
  unfold clear_low. rewrite Z.shiftl_mul_pow2, Z.shiftr_div_pow2 by lia.
  assert (0 < 2 ^ (128 - b)) by (apply Z.pow_pos_nonneg; lia).
  destruct (Z.lt_ge_cases b 96) as [Hlt|Hge].
  - assert (2 ^ (128 - b) = 2 * 2 ^ (95 - b) * 2 ^ 32) as ->.
    { change 2 with (2 ^ 1) at 2. rewrite <- !Z.pow_add_r by lia. f_equal. lia. }
    rewrite Z.mul_assoc, Z.div_mul by lia. lia.
  - assert (2 ^ 32 = 2 ^ (128 - b) * 2 ^ (b - 96)) as Hp by (rewrite <- Z.pow_add_r by lia; f_equal; lia).
    assert (0 < 2 ^ (b - 96)) by (apply Z.pow_pos_nonneg; lia).
    rewrite Hp, <- !Z.div_div by lia. rewrite Z.div_mul by lia. lia.
Qed.

Lemma masked_addr_bits p :
  prefix_wf p → 0 ≤ prefix_bits p →
  masked p = mkPrefix (mask_addr (prefix_addr p) (prefix_bits p)) (prefix_bits p).
Proof.
  destruct p as [a b]. intros (Ha & Hz & Hb & H0) Hv. unfold masked, prefix_is_valid; simpl in *.
  assert ((0 <=? b) = true) as -> by lia.
  destruct a as [|v|v z]; simpl in *; [specialize (H0 eq_refl); lia|..];
    by (assert (((b <? 0) || (_ <? b)) = false) as -> by lia).
Qed.

Lemma prefix_from_valid a b :
  a ≠ AddrZero → 0 ≤ b ≤ bit_len a → prefix_from a b = mkPrefix (without_zone a) b.
Proof.
  intros Hne Hb. destruct a as [|v|v z]; simpl in *; [done|..];
    by (assert (((b <? 0) || (_ <? b)) = false) as -> by lia).
Qed.

Lemma CanonicalPrefix_plain p q :
  prefix_wf p → CanonicalPrefix p = Ok q →
  is4in6 (prefix_addr q) = false ∧ masked q = q ∧ 0 ≤ prefix_bits q.
Proof.
  intros Hwf Hc. pose proof (CanonicalPrefix_wf p q Hwf Hc) as Hq.
  destruct (CanonicalPrefix_Ok p q Hwf Hc) as (Hb & [(Hm & H96 & ->)|(Hm & ->)]).
  - assert (prefix_wf (prefix_from (unmap (prefix_addr p)) (prefix_bits p - 96))) as Hw
      by apply prefix_from_wf, addr_wf_unmap, Hwf.
    destruct Hwf as (Ha & _ & Hbb & _). destruct (prefix_addr p) as [|v|v z]; simpl in *; try done.
    rewrite Hm in *. simpl in Hw |- *.
    assert (((prefix_bits p - 96 <? 0) || (32 <? prefix_bits p - 96)) = false) as E by lia.
    rewrite E in *.
    split_and!; [| by apply masked_idemp |].
    + rewrite masked_addr_bits by (try done; simpl; lia). done.
    + rewrite masked_addr_bits by (try done; simpl; lia). simpl. lia.
  - split_and!; [| by apply masked_idemp |]; rewrite masked_addr_bits by done; [|done].
    simpl. apply not_true_is_false. intros Ht. apply mask_addr_4in6 in Ht; [congruence|apply Hwf|].
    destruct Hwf as (_ & _ & ? & _). lia.
Qed.

Lemma CanonicalPrefix_idem p q : prefix_wf p → CanonicalPrefix p = Ok q → CanonicalPrefix q = Ok q.
Proof.
  intros Hwf Hc. pose proof (CanonicalPrefix_plain p q Hwf Hc) as (Hn & Hi & Hb0).
  pose proof (CanonicalPrefix_wf p q Hwf Hc) as Hq.
  unfold CanonicalPrefix, prefix_is_valid. assert ((0 <=? prefix_bits q) = true) as -> by lia.
  rewrite Hn. simpl. f_equal. destruct q as [a b]. destruct Hq as (_ & Hz & Hb & H0). simpl in *.
  rewrite prefix_from_valid by (try lia; intros ->; specialize (H0 eq_refl); lia).
  assert (without_zone a = a) as ->; [|exact Hi].
  destruct a as [|v|v z]; [done..|]. simpl in *.
  apply negb_false_iff, String.eqb_eq in Hz. by subst.
Qed.

Lemma as4_inj v w : fits 32 v → fits 32 w → as4 (AddrV4 v) = as4 (AddrV4 w) → v = w.
Proof. intros Hv Hw. apply (be_bytes_inj 4 v w); assumption. Qed.

Lemma as16_v6_inj v w z z' : fits 128 v → fits 128 w → as16 (AddrV6 v z) = as16 (AddrV6 w z') → v = w.
Proof. intros Hv Hw. apply (be_bytes_inj 16 v w); assumption. Qed.

Lemma PrefixToLPM4_Ok p k :
  PrefixToLPM4 p = Ok k →
  ∃ v b, CanonicalPrefix p = Ok (mkPrefix (AddrV4 v) b) ∧ k = mkLPM4Key b (as4 (AddrV4 v)).
Proof.
  unfold PrefixToLPM4. destruct (CanonicalPrefix p) as [[a b]|]; simpl; [|done].
  destruct a as [|v|]; simpl; [done| |done]. case_match; [done|]. intros [= <-]. eauto.
Qed.

Lemma PrefixToLPM6_Ok p k :
  prefix_wf p → PrefixToLPM6 p = Ok k →
  ∃ v z b, CanonicalPrefix p = Ok (mkPrefix (AddrV6 v z) b) ∧ k = mkLPM6Key b (as16 (AddrV6 v z)).
Proof.
  intros Hwf. unfold PrefixToLPM6. destruct (CanonicalPrefix p) as [[a b]|] eqn:E; simpl; [|done].
  pose proof (CanonicalPrefix_plain p _ Hwf E) as (_ & Hmk & Hb). simpl in Hb.
  pose proof (CanonicalPrefix_wf p _ Hwf E) as (_ & _ & _ & H0). simpl in H0.
  destruct a as [|v|v z]; simpl; [specialize (H0 eq_refl); lia|done|].
  repeat (case_match; [done|]). intros [= <-]. eauto 10.
Qed.

(** ** Theorems *)

(** [CompileStatic] splits the rules in order: the compiled policies are
    exactly the masked policies of the rules that are static, bound to no
    domain, sniffing, provider runtime, network type or group and carry a valid
    prefix and a known verdict; every other rule is rejected.  A group leaf
    never becomes a static DIRECT policy. *)
Theorem CompileStatic_partition (inputs : list CompileInput) (g : Z) :
  CompileStatic inputs g =
    ((λ i, compile_one i g) <$> filter (λ i, sinkable i = true) inputs,
     filter (λ i, sinkable i = false) inputs) ∧
  (∀ i, i ∈ inputs → ci_LeafIsGroup i = true → i ∈ (CompileStatic inputs g).2).
Proof.
  unfold CompileStatic. rewrite compile_loop_spec. split; [done|].
  intros i Hin Hg. simpl. apply list_elem_of_filter. split; [|done].
  unfold sinkable. rewrite Hg. simpl. by rewrite andb_false_r.
Qed.

(** [CanonicalPrefix] keeps the meaning of a prefix: it fails exactly on an
    invalid prefix or a v4-mapped one shorter than /96; its result is never
    v4-mapped and is a fixed point; and it contains the unmapped form of an
    address exactly when the original prefix contains the address (for an
    address in the same representation as the prefix, without zone). *)
Theorem CanonicalPrefix_correct (p : Prefix) :
  prefix_wf p →
  match CanonicalPrefix p with
  | Ok q =>
      is4in6 (prefix_addr q) = false ∧ CanonicalPrefix q = Ok q ∧
      ∀ a, has_zone a = false → is4in6 a = is4in6 (prefix_addr p) →
           prefix_contains q (unmap a) = prefix_contains p a
  | Err _ => prefix_is_valid p = false ∨ is4in6 (prefix_addr p) = true ∧ prefix_bits p < 96
  end.
Proof.
  intros Hwf. destruct (CanonicalPrefix p) as [q|e] eqn:Hc.
  2: { unfold CanonicalPrefix in Hc. repeat case_match; simplify_eq; boolprop; auto. }
  pose proof (CanonicalPrefix_plain p q Hwf Hc) as (Hn & Hi & Hb0).
  pose proof (CanonicalPrefix_wf p q Hwf Hc) as Hq.
  split_and!; [done | |].
  - by apply (CanonicalPrefix_idem p).
  - intros a Hza Hm4. destruct (CanonicalPrefix_Ok p q Hwf Hc) as (Hb & [(Hm & H96 & ->)|(Hm & ->)]).
    2: { rewrite unmap_not4in6 by congruence. by apply masked_contains. }
    rewrite masked_contains by apply prefix_from_wf, addr_wf_unmap, Hwf.
    rewrite Hm in Hm4. destruct p as [[|v|v z] b], a as [|w|w z']; simpl in *; try done.
    destruct Hwf as (_ & _ & Hbb & _). simpl in Hbb.
    rewrite Hm, Hm4. boolprop.
    assert (((b - 96 <? 0) || (32 <? b - 96)) = false) as E by lia. simpl. rewrite E.
    unfold prefix_contains, prefix_is_valid. simpl.
    assert ((0 <=? b - 96) = true) as -> by lia. assert ((0 <=? b) = true) as -> by lia.
    rewrite Hza. simpl. replace (32 - (b - 96)) with (128 - b) by lia.
    symmetry. apply mapped_shift; [congruence | lia].
Qed.

(** LPM keys identify canonical prefixes: two prefixes with the same IPv4
    (IPv6) key have the same canonical form, so a revocation or lookup by key
    can only meet the prefix it was built from. *)
Theorem PrefixToLPM_injective (p q : Prefix) :
  prefix_wf p → prefix_wf q →
  (∀ k, PrefixToLPM4 p = Ok k → PrefixToLPM4 q = Ok k → CanonicalPrefix p = CanonicalPrefix q) ∧
  (∀ k, PrefixToLPM6 p = Ok k → PrefixToLPM6 q = Ok k → CanonicalPrefix p = CanonicalPrefix q).
Proof.
  intros Hp Hq. split.
  - intros k (v & b & E1 & ->)%PrefixToLPM4_Ok (w & b' & E2 & Hk)%PrefixToLPM4_Ok.
    pose proof (f_equal l4_PrefixLen Hk) as Hb. pose proof (f_equal l4_Addr Hk) as Hv.
    cbn [l4_PrefixLen l4_Addr] in Hb, Hv. clear Hk. rewrite E1, E2, Hb. do 3 f_equal.
    apply as4_inj; [apply (CanonicalPrefix_wf p _ Hp E1) | apply (CanonicalPrefix_wf q _ Hq E2) | done].
  - intros k H1 H2.
    apply PrefixToLPM6_Ok in H1 as (v & z & b & E1 & ->); [|done].
    apply PrefixToLPM6_Ok in H2 as (w & z' & b' & E2 & Hk); [|done].
    pose proof (f_equal l6_PrefixLen Hk) as Hb. pose proof (f_equal l6_Addr Hk) as Hv.
    cbn [l6_PrefixLen l6_Addr] in Hb, Hv. clear Hk. destruct (CanonicalPrefix_wf p _ Hp E1) as (Hv1 & Hz1 & _).
    destruct (CanonicalPrefix_wf q _ Hq E2) as (Hv2 & Hz2 & _). cbn [prefix_addr has_zone addr_wf] in *.
    apply negb_false_iff, String.eqb_eq in Hz1, Hz2. subst.
    rewrite E1, E2. do 3 f_equal. by apply (as16_v6_inj v w "" "").
Qed.

(** ** Witnesses *)

Definition demo_prefix : Prefix := mkPrefix (AddrV6 (0xffff * 2 ^ 32 + 0x0a010203) "") 120.

Lemma CanonicalPrefix_correct_witness :
  prefix_wf demo_prefix ∧ CanonicalPrefix demo_prefix = Ok (mkPrefix (AddrV4 0x0a010200) 24) ∧
  prefix_contains (mkPrefix (AddrV4 0x0a010200) 24) (AddrV4 0x0a0102ff) =
  prefix_contains demo_prefix (AddrV6 (0xffff * 2 ^ 32 + 0x0a0102ff) "").
Proof.
  assert (prefix_wf demo_prefix) as Hwf by (apply (bool_decide_unpack _); vm_compute; exact I).
  split; [exact Hwf|]. split; [vm_compute; reflexivity|].
  pose proof (CanonicalPrefix_correct demo_prefix Hwf) as H.
  apply (proj2 (proj2 H) (AddrV6 (0xffff * 2 ^ 32 + 0x0a0102ff) "")); vm_compute; reflexivity.
Defined.

Lemma PrefixToLPM_injective_witness :
  CanonicalPrefix demo_prefix = CanonicalPrefix (mkPrefix (AddrV4 0x0a0102aa) 24).
Proof.
  assert (prefix_wf demo_prefix) as H1 by (apply (bool_decide_unpack _); vm_compute; exact I).
  assert (prefix_wf (mkPrefix (AddrV4 0x0a0102aa) 24)) as H2 by (apply (bool_decide_unpack _); vm_compute; exact I).
  apply (proj1 (PrefixToLPM_injective _ _ H1 H2) (mkLPM4Key 24 (be_bytes 4 0x0a010200))); vm_compute; reflexivity.
Defined.
