(* ===== verification/EbpfBackend.v ===== *)
(** * The control-plane model of the kernel maps: [src/common/ebpf/v3/publisher.go]

    [MemoryBackend] holds the maps the TC program reads: two static policy
    banks behind a [BankPublisher], the exact-flow table, the DNS hints, the
    dynamic DIRECT prefixes of each family and the MAC policies.  Every method
    is a function of the backend; [time.Now()] is an argument per call, and the
    order of a range loop whose result depends on it is an argument too.  The
    pointers [NewMemoryBackend] allocates are never nil and an absent Go map is
    the empty map.  The file proves the type invariant of the backend under
    every operation (including those that interleave with a prepared, not yet
    committed policy snapshot), that a failed publication changes nothing, and
    what a publication, a learned flow and a revocation make visible to lookups. *)

From S2P Require Import Prelude NetIP EbpfAbi EbpfGeneration EbpfCompiler EbpfDnsHint.
From stdpp Require Import base gmap list strings numbers fin_maps relations.
From Stdlib Require Import ZArith Lia.

Local Open Scope Z_scope.

(** [netip.AddrPort] *)
Record AddrPort : Type := mkAddrPort { ap_Addr : Addr; ap_Port : Z }.

Record FlowPublishRequest : Type := mkFlowPublishRequest {
  fr_Client : AddrPort;
  fr_Destination : AddrPort;
  fr_Protocol : Z;
  fr_Verdict : Z;
  fr_LeafIsBareDirect : bool;
  fr_PolicyID : Z;
  fr_TTL : Z;
  fr_TimeoutClass : string }.

Record FlowPair : Type := mkFlowPair {
  fp_Forward : FlowKey;
  fp_Reverse : FlowKey;
  fp_Value : FlowValue }.

Definition DefaultFlowTTL (protocol : Z) (class : string) (configured : Z) : Z :=
  if 0 <? configured then configured
  else if protocol =? ProtocolTCP then 10 * minute
  else if String.eqb class "dns" then 30 * second
  else if String.eqb class "quic" then 2 * minute
  else 3 * minute.

(** [addrBytes]: a 16-byte array, an IPv4 address in its first four bytes. *)
Definition addrBytes (addr : Addr) : result (Z * list Z) :=
  let addr := unmap addr in
  if is4 addr then Ok (AFInet, as4 addr ++ replicate 12 0)
  else if is6 addr then Ok (AFInet6, as16 addr)
  else Err "invalid addr".

(** The switch on the verdict of [BuildFlowPair]: reason and confidence. *)
Definition flow_reason (verdict : Z) : result (Z * Z) :=
  if verdict =? VerdictDirect then Ok (ReasonFlowDirect, ConfidenceStrong)
  else if verdict =? VerdictProxy then Ok (ReasonFlowProxy, ConfidenceStrong)
  else if verdict =? VerdictBlock then Ok (ReasonFlowBlock, ConfidenceStrong)
  else if verdict =? VerdictMustControl then Ok (ReasonMustControl, ConfidenceNone)
  else Err "invalid verdict".

Definition BuildFlowPair (req : FlowPublishRequest) (generation expireNs : Z) : result FlowPair :=
  let client := fr_Client req in let destination := fr_Destination req in
  if negb (addr_is_valid (ap_Addr client)) || negb (addr_is_valid (ap_Addr destination))
  then Err "invalid addresses"
  else if negb (fr_Protocol req =? ProtocolTCP) && negb (fr_Protocol req =? ProtocolUDP)
  then Err "unsupported protocol"
  else if (fr_Verdict req =? VerdictDirect) && negb (fr_LeafIsBareDirect req)
  then Err "DIRECT requires bare direct leaf"
  else if (ap_Port destination =? 53) && (fr_Verdict req =? VerdictDirect)
  then Err "port 53 must not learn DIRECT flow"
  else
    '(family, saddr) ← addrBytes (ap_Addr client);
    '(dfamily, daddr) ← addrBytes (ap_Addr destination);
    if negb (family =? dfamily) then Err "address family mismatch"
    else
      '(reason, conf) ← flow_reason (fr_Verdict req);
      Ok (mkFlowPair
        (mkFlowKey family (fr_Protocol req) 0 0 (ap_Port client) (ap_Port destination) saddr daddr)
        (mkFlowKey family (fr_Protocol req) 0 0 (ap_Port destination) (ap_Port client) daddr saddr)
        (mkFlowValue (fr_Verdict req) SourceExactFlow conf 0 reason 0 (fr_PolicyID req) generation expireNs)).

Record MemoryBackend : Type := mkMemoryBackend {
  b_Control : Control;
  b_Policy4 : list (gmap LPM4Key PolicyValue);
  b_Policy6 : list (gmap LPM6Key PolicyValue);
  b_Flows : gmap FlowKey FlowValue;
  b_DNS : DNSHintTable;
  b_MACPolicies : gmap MACKey MACPolicyValue;
  b_dynamicDirects4 : gmap Prefix Z;
  b_dynamicDirects6 : gmap Prefix Z;
  b_Publisher : BankPublisher;
  b_Stats : list Z;
  b_flowLimit : Z;
  b_nextFlowPruneNs : Z }.

(** Assignments to one group of fields. *)
Definition set_Control (b : MemoryBackend) (c : Control) : MemoryBackend :=
  mkMemoryBackend c (b_Policy4 b) (b_Policy6 b) (b_Flows b) (b_DNS b) (b_MACPolicies b)
    (b_dynamicDirects4 b) (b_dynamicDirects6 b) (b_Publisher b) (b_Stats b) (b_flowLimit b) (b_nextFlowPruneNs b).
Definition set_Policies (b : MemoryBackend) p4 p6 : MemoryBackend :=
  mkMemoryBackend (b_Control b) p4 p6 (b_Flows b) (b_DNS b) (b_MACPolicies b)
    (b_dynamicDirects4 b) (b_dynamicDirects6 b) (b_Publisher b) (b_Stats b) (b_flowLimit b) (b_nextFlowPruneNs b).
Definition set_Flows (b : MemoryBackend) flows next : MemoryBackend :=
  mkMemoryBackend (b_Control b) (b_Policy4 b) (b_Policy6 b) flows (b_DNS b) (b_MACPolicies b)
    (b_dynamicDirects4 b) (b_dynamicDirects6 b) (b_Publisher b) (b_Stats b) (b_flowLimit b) next.
Definition set_DNS (b : MemoryBackend) dns : MemoryBackend :=
  mkMemoryBackend (b_Control b) (b_Policy4 b) (b_Policy6 b) (b_Flows b) dns (b_MACPolicies b)
    (b_dynamicDirects4 b) (b_dynamicDirects6 b) (b_Publisher b) (b_Stats b) (b_flowLimit b) (b_nextFlowPruneNs b).
Definition set_MAC (b : MemoryBackend) mac : MemoryBackend :=
  mkMemoryBackend (b_Control b) (b_Policy4 b) (b_Policy6 b) (b_Flows b) (b_DNS b) mac
    (b_dynamicDirects4 b) (b_dynamicDirects6 b) (b_Publisher b) (b_Stats b) (b_flowLimit b) (b_nextFlowPruneNs b).
Definition set_Dynamic (b : MemoryBackend) d4 d6 : MemoryBackend :=
  mkMemoryBackend (b_Control b) (b_Policy4 b) (b_Policy6 b) (b_Flows b) (b_DNS b) (b_MACPolicies b)
    d4 d6 (b_Publisher b) (b_Stats b) (b_flowLimit b) (b_nextFlowPruneNs b).
Definition set_Publisher (b : MemoryBackend) p : MemoryBackend :=
  mkMemoryBackend (b_Control b) (b_Policy4 b) (b_Policy6 b) (b_Flows b) (b_DNS b) (b_MACPolicies b)
    (b_dynamicDirects4 b) (b_dynamicDirects6 b) p (b_Stats b) (b_flowLimit b) (b_nextFlowPruneNs b).
Definition set_Stats (b : MemoryBackend) s : MemoryBackend :=
  mkMemoryBackend (b_Control b) (b_Policy4 b) (b_Policy6 b) (b_Flows b) (b_DNS b) (b_MACPolicies b)
    (b_dynamicDirects4 b) (b_dynamicDirects6 b) (b_Publisher b) s (b_flowLimit b) (b_nextFlowPruneNs b).

Definition control_with_bank (c : Control) (bank generation : Z) : Control :=
  mkControl (c_ABIVersion c) (c_Enabled c) (c_Flags c) bank generation (c_RoutingMark c)
    (c_Reserved0 c) (c_Reserved1 c) (c_Reserved2 c).

(** A prepared snapshot; [ps_live] is [prepared.backend == b], cleared when the
    snapshot is committed or aborted. *)
Record PreparedStatic : Type := mkPreparedStatic {
  ps_live : bool;
  ps_inactive : Z;
  ps_policy4 : gmap LPM4Key PolicyValue;
  ps_policy6 : gmap LPM6Key PolicyValue }.

Definition maxMemoryFlowEntries : Z := DefaultFlowEntries.
Definition flowPruneIntervalNs : Z := 30 * 1000000000.

Definition NewMemoryBackend : MemoryBackend :=
  let '(bank, gen) := Snapshot NewBankPublisher in
  mkMemoryBackend
    (mkControl ABIVersion 1
       (FlagIPv4 .| FlagIPv6 .| FlagTCP .| FlagUDP .| FlagSocketAssign .| FlagStaticPolicy
        .| FlagExactFlow .| FlagDNSHint .| FlagFakeIP .| FlagFailureProxy) bank gen 0 0 0 0)
    [∅; ∅] [∅; ∅] ∅ NewDNSHintTable ∅ ∅ ∅ NewBankPublisher
    (replicate (Z.to_nat StatsCount) 0) maxMemoryFlowEntries 0.

(** ** Static policy publication *)

Definition with_pv_generation (v : PolicyValue) (g : Z) : PolicyValue :=
  mkPolicyValue (pv_Verdict v) (pv_Source v) (pv_Confidence v) (pv_Reserved0 v) (pv_ReasonCode v)
    (pv_MatchProtocol v) (pv_MatchDPortMin v) (pv_MatchDPortMax v) (pv_PolicyID v) g.

(** The loop of [PrepareStatic] over the policies, into two fresh maps. *)
Fixpoint prepare_loop (nextGen : Z) (policies : list CompiledPolicy)
    (policy4 : gmap LPM4Key PolicyValue) (policy6 : gmap LPM6Key PolicyValue)
    : result (gmap LPM4Key PolicyValue * gmap LPM6Key PolicyValue) :=
  match policies with
  | [] => Ok (policy4, policy6)
  | p :: policies =>
      canonical ← CanonicalPrefix (cp_Prefix p);
      let value := with_pv_generation (cp_Value p) nextGen in
      if is4 (prefix_addr canonical)
      then key ← PrefixToLPM4 canonical;
           prepare_loop nextGen policies (<[key := value]> policy4) policy6
      else key ← PrefixToLPM6 canonical;
           prepare_loop nextGen policies policy4 (<[key := value]> policy6)
  end.

Definition PrepareStatic (b : MemoryBackend) (policies : list CompiledPolicy) : MemoryBackend * result PreparedStatic :=
  match BeginCompile (b_Publisher b) with
  | (_, None) => (b, Err "compile already in progress")
  | (pub, Some inactive) =>
      let b := set_Publisher b pub in
      let aborted := set_Publisher b (AbortCompile pub) in
      let nextGen := next_generation (bp_generation pub) in
      match prepare_loop nextGen policies ∅ ∅ with
      | Err e => (aborted, Err e)
      | Ok (policy4, policy6) =>
          if (DefaultPolicyLPM <? Z.of_nat (size policy4)) || (DefaultPolicyLPM <? Z.of_nat (size policy6))
          then (aborted, Err "static policy exceeds eBPF LPM map capacity")
          else (b, Ok (mkPreparedStatic true inactive policy4 policy6))
      end
  end.

Definition spent (prepared : PreparedStatic) : PreparedStatic :=
  mkPreparedStatic false (ps_inactive prepared) (ps_policy4 prepared) (ps_policy6 prepared).

Definition AbortPreparedStatic (b : MemoryBackend) (prepared : PreparedStatic) : MemoryBackend * PreparedStatic :=
  if ps_live prepared then (set_Publisher b (AbortCompile (b_Publisher b)), spent prepared) else (b, prepared).

Definition invalidateGenerationMaps (b : MemoryBackend) (generation : Z) : MemoryBackend :=
  if generation =? 0 then b
  else
    let b := set_Flows b (filter (λ kv, fv_Generation kv.2 = generation) (b_Flows b)) 0 in
    let b := set_DNS b (hints_InvalidateGeneration (b_DNS b) generation) in
    let b := set_Dynamic b ∅ ∅ in
    set_MAC b ∅.

Definition InvalidateGeneration (b : MemoryBackend) (generation : Z) : MemoryBackend :=
  invalidateGenerationMaps b generation.

Definition CommitPreparedStatic (b : MemoryBackend) (prepared : PreparedStatic) : MemoryBackend * PreparedStatic :=
  if ps_live prepared then
    let i := Z.to_nat (ps_inactive prepared) in
    let b := set_Policies b (<[i := ps_policy4 prepared]> (b_Policy4 b)) (<[i := ps_policy6 prepared]> (b_Policy6 b)) in
    let '(pub, (gen, bank)) := Commit (b_Publisher b) in
    let b := set_Publisher b pub in
    let b := set_Control b (control_with_bank (b_Control b) bank gen) in
    let b := set_Dynamic b ∅ ∅ in
    let b := invalidateGenerationMaps b gen in
    let b := set_Stats b (<[25%nat := u64 gen]> (b_Stats b)) in
    (b, spent prepared)
  else (b, prepared).

Definition PublishStatic (b : MemoryBackend) (policies : list CompiledPolicy) : MemoryBackend * result unit :=
  match PrepareStatic b policies with
  | (b, Err e) => (b, Err e)
  | (b, Ok prepared) => ((CommitPreparedStatic b prepared).1, Ok tt)
  end.

(** ** Dynamic DIRECT prefixes *)

(** [dynamicEntriesForPrefix]: the ledger of the prefix's family. *)
Inductive ledger : Type := Ledger4 | Ledger6.

#[global] Instance ledger_eq_dec : EqDecision ledger.
Proof. solve_decision. Defined.

Definition dynamicEntriesForPrefix (prefix : Prefix) : result ledger :=
  let addr := unmap (prefix_addr prefix) in
  if is4 addr then Ok Ledger4 else if is6 addr then Ok Ledger6
  else Err "invalid dynamic direct prefix family".

Definition get_ledger (b : MemoryBackend) (l : ledger) : gmap Prefix Z :=
  match l with Ledger4 => b_dynamicDirects4 b | Ledger6 => b_dynamicDirects6 b end.
Definition set_ledger (b : MemoryBackend) (l : ledger) (m : gmap Prefix Z) : MemoryBackend :=
  match l with
  | Ledger4 => set_Dynamic b m (b_dynamicDirects6 b)
  | Ledger6 => set_Dynamic b (b_dynamicDirects4 b) m
  end.

(** The loop that deletes the entries whose expiry is not after [now]. *)
Definition drop_expired (now : Z) (m : gmap Prefix Z) : gmap Prefix Z :=
  filter (λ kv, time_after kv.2 now = true) m.

Definition ledger_live (m : gmap Prefix Z) (prefix : Prefix) (now : Z) : bool :=
  match m !! prefix with Some existing => time_after existing now | None => false end.

(** [MergeDynamicDirect]; [t1] and [now] are its two readings of the clock. *)
Definition MergeDynamicDirect (b : MemoryBackend) (prefix : Prefix) (ttl t1 now : Z) : MemoryBackend * result unit :=
  let ttl := if ttl <=? 0 then 5 * minute else ttl in
  match CanonicalPrefix prefix with
  | Err e => (b, Err e)
  | Ok prefix =>
      match dynamicEntriesForPrefix prefix with
      | Err e => (b, Err e)
      | Ok l =>
          let expires := t1 + ttl in
          let entries := drop_expired now (get_ledger b l) in
          if ledger_live entries prefix now then (set_ledger b l (<[prefix := expires]> entries), Ok tt)
          else if DefaultDynamicDirect <=? Z.of_nat (size entries)
          then (set_ledger b l entries, Err "dynamic direct policy exceeds eBPF map capacity")
          else (set_ledger b l (<[prefix := expires]> entries), Ok tt)
      end
  end.

(** [ValidateDynamicDirect]: the counting loop counts the unexpired entries. *)
Definition ValidateDynamicDirect (b : MemoryBackend) (prefix : Prefix) (now : Z) : result Prefix :=
  canonical ← CanonicalPrefix prefix;
  l ← dynamicEntriesForPrefix canonical;
  let entries := get_ledger b l in
  if ledger_live entries canonical now then Ok canonical
  else
    let active := length (filter (λ kv, time_after kv.2 now = true) (map_to_list entries)) in
    if DefaultDynamicDirect <=? Z.of_nat active then Err "dynamic direct policy exceeds eBPF map capacity"
    else Ok canonical.

Definition MergeStaticDirect (b : MemoryBackend) (prefix : Prefix) (t1 now : Z) : MemoryBackend * result unit :=
  MergeDynamicDirect b prefix (5 * minute) t1 now.

Definition DeleteMergedStaticDirect (b : MemoryBackend) (prefix : Prefix) : MemoryBackend * result unit :=
  match CanonicalPrefix prefix with
  | Err e => (b, Err e)
  | Ok prefix =>
      let l := if is6 (prefix_addr prefix) then Ledger6 else Ledger4 in
      match get_ledger b l !! prefix with
      | None => (b, Ok tt)
      | Some _ => (set_ledger b l (delete prefix (get_ledger b l)), Ok tt)
      end
  end.

(** The scan of [LookupDynamicDirect] over the visited entries: the longest
    unexpired prefix that contains the address, with its expiry. *)
Fixpoint dynamic_scan (dest : Addr) (now : Z) (best : Prefix * Z) (order : list (Prefix * Z)) : Prefix * Z :=
  match order with
  | [] => best
  | (prefix, expiry) :: order =>
      if negb (time_after expiry now) then dynamic_scan dest now best order
      else if negb (prefix_contains prefix dest)
              || (prefix_is_valid best.1 && (prefix_bits prefix <=? prefix_bits best.1))
      then dynamic_scan dest now best order
      else dynamic_scan dest now (prefix, expiry) order
  end.

Definition LookupDynamicDirect (b : MemoryBackend) (dest : Addr) (now : Z) (order : list (Prefix * Z))
    : MemoryBackend * option PolicyValue :=
  if negb (addr_is_valid dest) then (b, None)
  else
    let dest := unmap dest in
    let l := if is6 dest then Ledger6 else Ledger4 in
    let best := dynamic_scan dest now (prefix_zero, time_zero) order in
    let b := set_ledger b l (drop_expired now (get_ledger b l)) in
    if negb (prefix_is_valid best.1) || negb (time_after best.2 now) then (b, None)
    else (b, Some (mkPolicyValue VerdictDirect SourceStatic ConfidenceStrong 0 ReasonDNSHintDirect
                     0 0 0 0 (c_PolicyGeneration (b_Control b)))).

(** ** Exact flows *)

Definition pruneExpiredFlows (nowNs : Z) (m : gmap FlowKey FlowValue) : gmap FlowKey FlowValue :=
  filter (λ kv, (negb (fv_ExpiresNs kv.2 =? 0) && (fv_ExpiresNs kv.2 <=? nowNs)) = false) m.

(** The key with source and destination swapped. *)
Definition reverse_key (k : FlowKey) : FlowKey :=
  mkFlowKey (fk_Family k) (fk_Protocol k) (fk_Direction k) (fk_Reserved0 k)
    (fk_DPort k) (fk_SPort k) (fk_DAddr k) (fk_SAddr k).

(** [evictOldestFlowPair], its scan visiting the flows in the order [order]. *)
Definition evictOldestFlowPair (order : list (FlowKey * FlowValue)) (m : gmap FlowKey FlowValue)
    : gmap FlowKey FlowValue * bool :=
  match scan_min fv_ExpiresNs order with
  | None => (m, false)
  | Some oldestKey => (delete (reverse_key oldestKey) (delete oldestKey m), true)
  end.

(** [for len(b.Flows)+missing > limit { if !b.evictOldestFlowPair() { break } }].
    The table shrinks in every turn, so the order of each scan is a function
    [visit] of the table it scans, and the table's size is enough fuel. *)
Fixpoint evict_loop (visit : gmap FlowKey FlowValue → list (FlowKey * FlowValue)) (fuel : nat)
    (limit missing : Z) (m : gmap FlowKey FlowValue) : gmap FlowKey FlowValue :=
  match fuel with
  | O => m
  | S fuel =>
      if limit <? Z.of_nat (size m) + missing then
        match evictOldestFlowPair (visit m) m with
        | (m, true) => evict_loop visit fuel limit missing m
        | (m, false) => m
        end
      else m
  end.
#[global] Arguments evict_loop : simpl never.

Definition flow_limit (b : MemoryBackend) : Z :=
  if b_flowLimit b <=? 0 then maxMemoryFlowEntries else b_flowLimit b.

Definition absent (m : gmap FlowKey FlowValue) (k : FlowKey) : Z :=
  match m !! k with Some _ => 0 | None => 1 end.

(** The expiry [PublishFlow] computes, saturating at the largest uint64. *)
Definition flow_expire (req : FlowPublishRequest) (nowNs : Z) : Z :=
  let ttlNs := u64 (DefaultFlowTTL (fr_Protocol req) (fr_TimeoutClass req) (fr_TTL req)) in
  if u64_max - nowNs <? ttlNs then u64_max else u64 (nowNs + ttlNs).

(** The periodic prune of [PublishFlow]: the flows and the next prune time. *)
Definition prune_flows (b : MemoryBackend) (nowNs : Z) : gmap FlowKey FlowValue * Z :=
  if negb (nowNs =? 0) && ((b_nextFlowPruneNs b =? 0) || (b_nextFlowPruneNs b <=? nowNs))
  then (pruneExpiredFlows nowNs (b_Flows b), u64 (nowNs + flowPruneIntervalNs))
  else (b_Flows b, b_nextFlowPruneNs b).

Definition PublishFlow (b : MemoryBackend) (req : FlowPublishRequest) (nowNs : Z)
    (visit : gmap FlowKey FlowValue → list (FlowKey * FlowValue)) : MemoryBackend * result unit :=
  match BuildFlowPair req (c_PolicyGeneration (b_Control b)) (flow_expire req nowNs) with
  | Err e => (b, Err e)
  | Ok fpair =>
      let '(flows, next) := prune_flows b nowNs in
      let missing := absent flows (fp_Forward fpair) + absent flows (fp_Reverse fpair) in
      let flows := evict_loop visit (S (size flows)) (flow_limit b) missing flows in
      let flows := <[fp_Reverse fpair := fp_Value fpair]> (<[fp_Forward fpair := fp_Value fpair]> flows) in
      (set_Flows b flows next, Ok tt)
  end.

Definition RevokeFlow (b : MemoryBackend) (client dest : AddrPort) (protocol : Z) : MemoryBackend * result unit :=
  match BuildFlowPair (mkFlowPublishRequest client dest protocol VerdictProxy false 0 0 "")
          (c_PolicyGeneration (b_Control b)) 1 with
  | Err e => (b, Err e)
  | Ok fpair =>
      (set_Flows b (delete (fp_Reverse fpair) (delete (fp_Forward fpair) (b_Flows b))) (b_nextFlowPruneNs b), Ok tt)
  end.

Definition LookupFlow (b : MemoryBackend) (key : FlowKey) : option FlowValue :=
  match b_Flows b !! key with
  | Some v => if fv_Generation v =? c_PolicyGeneration (b_Control b) then Some v else None
  | None => None
  end.

(** ** Static lookup *)

(** The protocol and port conditions of a static policy. *)
Definition policy_scope (v : PolicyValue) (protocol dport : Z) : option PolicyValue :=
  if negb (pv_MatchProtocol v =? 0) && negb (u8 (pv_MatchProtocol v) =? protocol) then None
  else if (negb (pv_MatchDPortMin v =? 0) || negb (pv_MatchDPortMax v =? 0))
          && ((dport <? pv_MatchDPortMin v) || (pv_MatchDPortMax v <? dport)) then None
  else Some v.

(** [LookupStatic]; an active bank other than 0 or 1 is an index panic. *)
Definition LookupStatic (b : MemoryBackend) (dest : Addr) (protocol dport : Z) : result (option PolicyValue) :=
  let bank := Z.to_nat (c_ActiveBank (b_Control b)) in
  let current v := if pv_Generation v =? c_PolicyGeneration (b_Control b)
                   then policy_scope v protocol dport else None in
  let addr := unmap dest in
  if is4 addr then
    match b_Policy4 b !! bank with
    | None => Err "index out of range"
    | Some m => Ok (m !! mkLPM4Key 32 (as4 addr) ≫= current)
    end
  else
    match b_Policy6 b !! bank with
    | None => Err "index out of range"
    | Some m => Ok (m !! mkLPM6Key 128 (as16 addr) ≫= current)
    end.

(** ** MAC policies *)

Definition zeroMACKey : MACKey := mkMACKey (replicate 6 0) (replicate 2 0) 0.

Definition mac_row (generation : Z) (v : MACPolicyValue) : MACPolicyValue :=
  mkMACPolicyValue (mv_Verdict v) (if mv_Source v =? 0 then SourceStatic else mv_Source v)
    (mv_Confidence v) (mv_Reserved0 v) (mv_ReasonCode v) (mv_Reserved1 v) (mv_PolicyID v)
    (if generation =? 0 then 1 else generation).

Fixpoint mac_snapshot (generation : Z) (entries : list MACPolicyEntry) (m : gmap MACKey MACPolicyValue)
    : gmap MACKey MACPolicyValue :=
  match entries with
  | [] => m
  | e :: entries =>
      if bool_decide (me_Key e = zeroMACKey) then mac_snapshot generation entries m
      else mac_snapshot generation entries (<[me_Key e := mac_row generation (me_Value e)]> m)
  end.

Definition PublishMACPolicies (b : MemoryBackend) (entries : list MACPolicyEntry) : MemoryBackend * result unit :=
  let snapshot := mac_snapshot (c_PolicyGeneration (b_Control b)) entries ∅ in
  if MaxSourcePolicies <? Z.of_nat (size snapshot)
  then (b, Err "mac source policy exceeds map capacity")
  else (set_MAC b snapshot, Ok tt).

(** ** Invariant *)

(** Both directions of a flow are in the table, with one value. *)
Definition flows_sym (m : gmap FlowKey FlowValue) : Prop :=
  ∀ k v, m !! k = Some v → m !! reverse_key k = Some v.

(** A ledger row of the family: a canonical prefix, masked and not IPv4-mapped. *)
Definition ledger_key_ok (l : ledger) (p : Prefix) : Prop :=
  match l with Ledger4 => is4 (prefix_addr p) = true | Ledger6 => is6 (prefix_addr p) = true end ∧
  is4in6 (prefix_addr p) = false ∧ prefix_wf p ∧ 0 ≤ prefix_bits p ∧ masked p = p.

Definition ledger_ok (b : MemoryBackend) (l : ledger) : Prop :=
  map_Forall (λ p _, ledger_key_ok l p) (get_ledger b l) ∧
  Z.of_nat (size (get_ledger b l)) ≤ DefaultDynamicDirect.

Definition bank_ok {K} `{Countable K} (bank : gmap K PolicyValue) : Prop :=
  Z.of_nat (size bank) ≤ DefaultPolicyLPM.

(** The control word mirrors the publisher. *)
Definition control_ok (b : MemoryBackend) : Prop :=
  publisher_ok (b_Publisher b) ∧ c_ActiveBank (b_Control b) = bp_active (b_Publisher b) ∧
  c_PolicyGeneration (b_Control b) = bp_generation (b_Publisher b).

Definition banks_ok (b : MemoryBackend) : Prop :=
  length (b_Policy4 b) = 2%nat ∧ length (b_Policy6 b) = 2%nat ∧
  Forall bank_ok (b_Policy4 b) ∧ Forall bank_ok (b_Policy6 b).

Definition flows_ok (b : MemoryBackend) : Prop :=
  flows_sym (b_Flows b) ∧ 2 ≤ flow_limit b ≤ DefaultFlowEntries ∧ Z.of_nat (size (b_Flows b)) ≤ flow_limit b.

Definition mac_ok (b : MemoryBackend) : Prop :=
  Z.of_nat (size (b_MACPolicies b)) ≤ MaxSourcePolicies ∧
  map_Forall (λ k v, k ≠ zeroMACKey ∧ mv_Generation v = c_PolicyGeneration (b_Control b)) (b_MACPolicies b).

Record backend_inv (b : MemoryBackend) : Prop := mkBackendInv {
  inv_control : control_ok b;
  inv_banks : banks_ok b;
  inv_flows : flows_ok b;
  inv_dns : hints_inv (b_DNS b);
  inv_ledger4 : ledger_ok b Ledger4;
  inv_ledger6 : ledger_ok b Ledger6;
  inv_mac : mac_ok b }.

(** A live prepared snapshot holds the compile reservation, targets the
    inactive bank and fits the kernel maps. *)
Definition prepared_inv (b : MemoryBackend) (p : PreparedStatic) : Prop :=
  ps_live p = true →
  bp_compiling (b_Publisher b) = 1 ∧ ps_inactive p = InactiveBank (b_Publisher b) ∧
  bank_ok (ps_policy4 p) ∧ bank_ok (ps_policy6 p) ∧
  map_Forall (λ _ v, pv_Generation v = next_generation (bp_generation (b_Publisher b))) (ps_policy4 p) ∧
  map_Forall (λ _ v, pv_Generation v = next_generation (bp_generation (b_Publisher b))) (ps_policy6 p).

(** Every policy of the live bank carries the live generation. *)
Definition live_bank_current (b : MemoryBackend) : Prop :=
  (∀ m, b_Policy4 b !! Z.to_nat (c_ActiveBank (b_Control b)) = Some m →
     map_Forall (λ _ v, pv_Generation v = c_PolicyGeneration (b_Control b)) m) ∧
  (∀ m, b_Policy6 b !! Z.to_nat (c_ActiveBank (b_Control b)) = Some m →
     map_Forall (λ _ v, pv_Generation v = c_PolicyGeneration (b_Control b)) m).

(** ** The operations as steps of one transition system

    The state is the backend and the prepared snapshots publishers hold; every
    method that changes the backend is a step, in any order.  Any publisher may
    prepare a snapshot at any time, and abort or commit one it holds. *)

Inductive backend_step : MemoryBackend * list PreparedStatic → MemoryBackend * list PreparedStatic → Prop :=
| bs_prepare b held ps b' p :
    (∀ q, q ∈ ps → prefix_wf (cp_Prefix q)) → PrepareStatic b ps = (b', Ok p) →
    backend_step (b, held) (b', p :: held)
| bs_prepare_failed b held ps b' e :
    PrepareStatic b ps = (b', Err e) → backend_step (b, held) (b', held)
| bs_abort b before p after :
    backend_step (b, before ++ p :: after) ((AbortPreparedStatic b p).1, before ++ after)
| bs_commit b before p after :
    backend_step (b, before ++ p :: after) ((CommitPreparedStatic b p).1, before ++ after)
| bs_merge b held prefix ttl t1 now :
    prefix_wf prefix → backend_step (b, held) ((MergeDynamicDirect b prefix ttl t1 now).1, held)
| bs_delete b held prefix : backend_step (b, held) ((DeleteMergedStaticDirect b prefix).1, held)
| bs_lookup_dynamic b held dest now order :
    backend_step (b, held) ((LookupDynamicDirect b dest now order).1, held)
| bs_publish_flow b held req nowNs visit :
    (∀ m, range_of m (visit m)) → backend_step (b, held) ((PublishFlow b req nowNs visit).1, held)
| bs_revoke_flow b held client dest protocol :
    backend_step (b, held) ((RevokeFlow b client dest protocol).1, held)
| bs_mac b held entries : backend_step (b, held) ((PublishMACPolicies b entries).1, held)
| bs_observe b held key direct evidence policyID expiresNs nowNs order :
    range_of (ht_entries (hints_prune (b_DNS b) nowNs)) order →
    backend_step (b, held)
      (set_DNS b (hints_Observe (b_DNS b) key direct evidence policyID
                    (c_PolicyGeneration (b_Control b)) expiresNs nowNs order).1, held)
| bs_invalidate b held generation : backend_step (b, held) (InvalidateGeneration b generation, held).

(** ** Flow-table lemmas *)

Lemma reverse_key_involutive k : reverse_key (reverse_key k) = k.
Proof. by destruct k. Qed.

Lemma BuildFlowPair_Ok req g x p :
  BuildFlowPair req g x = Ok p →
  fp_Reverse p = reverse_key (fp_Forward p) ∧
  fv_Generation (fp_Value p) = g ∧ fv_ExpiresNs (fp_Value p) = x ∧
  fv_Verdict (fp_Value p) = fr_Verdict req ∧
  (fr_Verdict req = VerdictDirect → fr_LeafIsBareDirect req = true ∧ ap_Port (fr_Destination req) ≠ 53).
Proof.
  unfold BuildFlowPair. intros H.
  destruct (_ || _) in H; [done|]. destruct (negb _ && negb _) in H; [done|].
  destruct ((fr_Verdict req =? VerdictDirect) && negb (fr_LeafIsBareDirect req)) eqn:E1; [done|].
  destruct ((ap_Port (fr_Destination req) =? 53) && (fr_Verdict req =? VerdictDirect)) eqn:E2; [done|].
  destruct (addrBytes (ap_Addr (fr_Client req))) as [[f sa]|]; simpl in H; [|done].
  destruct (addrBytes (ap_Addr (fr_Destination req))) as [[df da]|]; simpl in H; [|done].
  destruct (negb _) in H; [done|]. destruct (flow_reason (fr_Verdict req)) as [[r c]|]; simplify_eq/=.
  split_and!; try done. intros Hv. rewrite Hv in E1, E2. rewrite Z.eqb_refl in E1, E2.
  rewrite andb_true_r in E2. boolprop. simpl in E1. by apply negb_false_iff in E1.
Qed.

(** The keys and the value's metadata depend on the tuple only, not on the
    verdict: a revocation addresses the keys a publication wrote. *)
Lemma BuildFlowPair_keys req v bare g g' x x' p :
  BuildFlowPair req g x = Ok p →
  ∃ q, BuildFlowPair (mkFlowPublishRequest (fr_Client req) (fr_Destination req) (fr_Protocol req)
         VerdictProxy bare v 0 "") g' x' = Ok q ∧
       fp_Forward q = fp_Forward p ∧ fp_Reverse q = fp_Reverse p.
Proof.
  unfold BuildFlowPair. simpl. intros H.
  destruct (_ || _) in H |- *; [done|]. destruct (negb _ && negb _) in H |- *; [done|].
  destruct (_ && _) in H; [done|]. destruct (_ && _) in H; [done|].
  rewrite andb_false_r. destruct (addrBytes (ap_Addr (fr_Client req))) as [[f sa]|]; simpl in *; [|done].
  destruct (addrBytes (ap_Addr (fr_Destination req))) as [[df da]|]; simpl in *; [|done].
  destruct (negb _) in H |- *; [done|].
  destruct (flow_reason (fr_Verdict req)) as [[r c]|]; simplify_eq/=. eauto.
Qed.

Lemma flows_sym_filter (P : FlowValue → Prop) `{!∀ v, Decision (P v)} m :
  flows_sym m → flows_sym (filter (λ kv, P kv.2) m).
Proof.
  intros Hs k v [Hk HP]%map_lookup_filter_Some. apply map_lookup_filter_Some. split; [by apply Hs | done].
Qed.

Lemma flows_sym_delete k m : flows_sym m → flows_sym (delete (reverse_key k) (delete k m)).
Proof.
  intros Hs j v [Hj1 [Hj2 Hv]%lookup_delete_Some]%lookup_delete_Some.
  apply lookup_delete_Some. split.
  { intros E%(f_equal reverse_key). rewrite !reverse_key_involutive in E. congruence. }
  apply lookup_delete_Some. split; [|by apply Hs].
  intros E. apply Hj1. by rewrite E, reverse_key_involutive.
Qed.

Lemma flows_sym_insert k x m : flows_sym m → flows_sym (<[reverse_key k := x]> (<[k := x]> m)).
Proof.
  intros Hs j v Hj. destruct (decide (j = reverse_key k)) as [->|H1].
  { rewrite lookup_insert_eq in Hj. simplify_eq. rewrite reverse_key_involutive.
    destruct (decide (reverse_key k = k)) as [->|]; [by rewrite lookup_insert_eq|].
    by rewrite lookup_insert_ne, lookup_insert_eq. }
  rewrite lookup_insert_ne in Hj by done. destruct (decide (j = k)) as [->|H2].
  { rewrite lookup_insert_eq in Hj. simplify_eq. by rewrite lookup_insert_eq. }
  rewrite lookup_insert_ne in Hj by done.
  rewrite !lookup_insert_ne; [by apply Hs| |]; intros E%(f_equal reverse_key);
    rewrite !reverse_key_involutive in E; naive_solver.
Qed.

Lemma flows_sym_absent m k : flows_sym m → absent m (reverse_key k) = absent m k.
Proof.
  intros Hs. unfold absent. destruct (m !! k) eqn:E; [by rewrite (Hs _ _ E)|].
  destruct (m !! reverse_key k) eqn:E2; [|done]. apply Hs in E2. rewrite reverse_key_involutive in E2. congruence.
Qed.

Lemma evictOldestFlowPair_spec order m m' ok :
  range_of m order → evictOldestFlowPair order m = (m', ok) →
  m' ⊆ m ∧ (flows_sym m → flows_sym m') ∧
  (if ok then (size m' < size m)%nat else m = ∅).
Proof.
  intros Hr. unfold evictOldestFlowPair. destruct (scan_min fv_ExpiresNs order) as [k|] eqn:E; intros [= <- <-].
  - apply scan_min_spec in E as (v & Hin & _). apply (range_of_lookup _ _ _ _ Hr) in Hin.
    split_and!.
    + etrans; apply delete_subseteq.
    + apply flows_sym_delete.
    + rewrite (size_delete_Some k v m) by done.
      pose proof (size_delete_le (reverse_key k) (delete k m)). lia.
  - apply scan_min_None in E as ->. apply range_of_nil in Hr. by subst.
Qed.

(** The eviction loop stops with room for the missing keys or with an empty
    table, and removes nothing when there is room from the start. *)
Lemma evict_loop_spec visit fuel limit missing m :
  (∀ m, range_of m (visit m)) → (size m < fuel)%nat →
  let m' := evict_loop visit fuel limit missing m in
  m' ⊆ m ∧ (flows_sym m → flows_sym m') ∧
  (Z.of_nat (size m') + missing ≤ limit ∨ m' = ∅) ∧
  (Z.of_nat (size m) + missing ≤ limit → m' = m).
Proof.
  intros Hv. revert m. induction fuel as [|fuel IH]; intros m Hf; [lia|]. unfold evict_loop; fold evict_loop. cbv zeta.
  destruct (limit <? Z.of_nat (size m) + missing) eqn:E; boolprop; [|split_and!; auto].
  destruct (evictOldestFlowPair (visit m) m) as [m1 ok] eqn:Ev.
  destruct (evictOldestFlowPair_spec _ _ _ _ (Hv m) Ev) as (Hsub & Hsym & Hok). destruct ok.
  - destruct (IH m1) as (H1 & H2 & H3 & _); [lia|]. split_and!; auto; [by etrans | lia].
  - unfold evictOldestFlowPair in Ev. case_match; simplify_eq. split_and!; auto; lia.
Qed.

Lemma prune_flows_spec b nowNs flows next :
  prune_flows b nowNs = (flows, next) →
  flows ⊆ b_Flows b ∧ (flows_sym (b_Flows b) → flows_sym flows) ∧ (size flows ≤ size (b_Flows b))%nat.
Proof.
  unfold prune_flows. case_match; intros [= <- <-]; [|auto].
  split_and!; [apply map_filter_subseteq | | apply size_filter_le].
  exact (flows_sym_filter (λ v, negb (fv_ExpiresNs v =? 0) && (fv_ExpiresNs v <=? nowNs) = false) (b_Flows b)).
Qed.

Lemma PublishFlow_flows b req nowNs visit b' :
  (∀ m, range_of m (visit m)) → flows_ok b → PublishFlow b req nowNs visit = (b', Ok tt) →
  ∃ p, BuildFlowPair req (c_PolicyGeneration (b_Control b)) (flow_expire req nowNs) = Ok p ∧
       flows_ok b' ∧ b_Flows b' !! fp_Forward p = Some (fp_Value p) ∧
       b_Flows b' !! fp_Reverse p = Some (fp_Value p) ∧
       (∀ k, k ≠ fp_Forward p → k ≠ fp_Reverse p → ∀ v, b_Flows b' !! k = Some v → b_Flows b !! k = Some v).
Proof.
  intros Hv (Hs & Hl & Hsz). unfold PublishFlow.
  destruct (BuildFlowPair req _ _) as [p|] eqn:Eb; [|done].
  destruct (prune_flows b nowNs) as [flows next] eqn:Ep. intros [= <-]. exists p. split; [done|].
  destruct (prune_flows_spec _ _ _ _ Ep) as (Hsub & Hsym & Hle). specialize (Hsym Hs).
  apply BuildFlowPair_Ok in Eb as (Hr & _). rewrite Hr, (flows_sym_absent flows) by done.
  set (missing := absent flows (fp_Forward p) + absent flows (fp_Forward p)).
  destruct (evict_loop_spec visit (S (size flows)) (flow_limit b) missing flows Hv) as (Hsub' & Hsym' & Hfit & Hkeep); [lia|].
  set (flows' := evict_loop visit (S (size flows)) (flow_limit b) missing flows) in *.
  split_and!; simpl.
  - split_and!; simpl; [by apply flows_sym_insert, Hsym' | exact (proj1 Hl) | exact (proj2 Hl) |].
    match goal with |- _ ≤ ?l => change l with (flow_limit b) end.
    set (k := fp_Forward p) in *. set (x := fp_Value p).
    pose proof (size_insert_le (reverse_key k) x (<[k:=x]> flows')).
    pose proof (size_insert_le k x flows').
    unfold absent in missing. destruct (flows !! k) eqn:Ek.
    + assert (flows' = flows) as Hf by (apply Hkeep; unfold missing; lia). clearbody flows'. subst flows'.
      rewrite map_size_insert_Some; [rewrite map_size_insert_Some; [lia|eauto]|].
      destruct (decide (reverse_key k = k)) as [->|]; [by rewrite lookup_insert_eq|].
      rewrite lookup_insert_ne by done. rewrite (Hsym k _ Ek). eauto.
    + unfold missing in Hfit. destruct Hfit as [?|Hemp]; [lia|]. rewrite Hemp, map_size_empty in *. lia.
  - destruct (decide (reverse_key (fp_Forward p) = fp_Forward p)) as [->|]; [by rewrite lookup_insert_eq|].
    by rewrite lookup_insert_ne, lookup_insert_eq.
  - apply lookup_insert_eq.
  - intros k H1 H2 v. rewrite !lookup_insert_ne by done. intros Hk.
    by apply (lookup_weaken _ _ _ _ Hk); etrans.
Qed.

(** ** Static publication lemmas *)

Lemma BeginCompile_Some p p' i :
  BeginCompile p = (p', Some i) →
  bp_compiling p = 0 ∧ p' = mkBankPublisher (bp_active p) (bp_generation p) 1 ∧ i = InactiveBank p.
Proof. unfold BeginCompile. case_match; intros [= <- <-]. by boolprop. Qed.

Lemma AbortCompile_begin p p' i : BeginCompile p = (p', Some i) → AbortCompile p' = p.
Proof. intros (Hc & -> & _)%BeginCompile_Some. destruct p; simpl in *. by subst. Qed.

Lemma set_Publisher_same b p : set_Publisher (set_Publisher b p) (b_Publisher b) = b.
Proof. by destruct b. Qed.

(** A failed preparation leaves the backend as it was. *)
Lemma PrepareStatic_Err b ps b' e : PrepareStatic b ps = (b', Err e) → b' = b.
Proof.
  unfold PrepareStatic. destruct (BeginCompile (b_Publisher b)) as [pub [i|]] eqn:E; [|by intros [= <- _]].
  simpl. rewrite (AbortCompile_begin _ _ _ E), set_Publisher_same.
  repeat case_match; naive_solver.
Qed.

Lemma prepare_loop_generation g ps m4 m6 n4 n6 :
  prepare_loop g ps m4 m6 = Ok (n4, n6) →
  map_Forall (λ _ v, pv_Generation v = g) m4 → map_Forall (λ _ v, pv_Generation v = g) m6 →
  map_Forall (λ _ v, pv_Generation v = g) n4 ∧ map_Forall (λ _ v, pv_Generation v = g) n6.
Proof.
  revert m4 m6. induction ps as [|p ps IH]; intros m4 m6; simpl; [by intros [= <- <-]|].
  destruct (CanonicalPrefix (cp_Prefix p)) as [q|]; simpl; [|done].
  destruct (is4 (prefix_addr q)).
  - destruct (PrefixToLPM4 q); simpl; [|done]. intros H H4 H6. apply (IH _ _ H); [|done].
    by apply map_Forall_insert_2.
  - destruct (PrefixToLPM6 q); simpl; [|done]. intros H H4 H6. apply (IH _ _ H); [done|].
    by apply map_Forall_insert_2.
Qed.

(** The last policy of the list for a canonical prefix. *)
Definition last_policy (ps : list CompiledPolicy) (q : Prefix) : option CompiledPolicy :=
  last (filter (λ p, CanonicalPrefix (cp_Prefix p) = Ok q) ps).

Lemma last_policy_cons p ps q :
  last_policy (p :: ps) q =
    match last_policy ps q with
    | Some r => Some r
    | None => if decide (CanonicalPrefix (cp_Prefix p) = Ok q) then Some p else None
    end.
Proof.
  unfold last_policy. rewrite filter_cons. case_decide; [|by case_match].
  rewrite last_cons. by case_match.
Qed.

Lemma last_policy_nil q : last_policy [] q = None.
Proof. done. Qed.

(** What the loop builds: under every LPM key the last policy of that prefix. *)
Lemma prepare_loop_lookup g ps m4 m6 n4 n6 :
  Forall (λ p, prefix_wf (cp_Prefix p)) ps → prepare_loop g ps m4 m6 = Ok (n4, n6) →
  (∀ v b, fits 32 v → n4 !! mkLPM4Key b (as4 (AddrV4 v)) =
     match last_policy ps (mkPrefix (AddrV4 v) b) with
     | Some p => Some (with_pv_generation (cp_Value p) g)
     | None => m4 !! mkLPM4Key b (as4 (AddrV4 v))
     end) ∧
  (∀ v b, fits 128 v → n6 !! mkLPM6Key b (as16 (AddrV6 v "")) =
     match last_policy ps (mkPrefix (AddrV6 v "") b) with
     | Some p => Some (with_pv_generation (cp_Value p) g)
     | None => m6 !! mkLPM6Key b (as16 (AddrV6 v ""))
     end).
Proof.
  revert m4 m6. induction ps as [|p ps IH]; intros m4 m6 Hwf; cbn [prepare_loop]; [by intros [= <- <-]|].
  apply Forall_cons in Hwf as [Hp Hps].
  destruct (CanonicalPrefix (cp_Prefix p)) as [q|] eqn:Eq; cbn [mbind result_bind]; [|done].
  pose proof (CanonicalPrefix_idem _ _ Hp Eq) as Hq. pose proof (CanonicalPrefix_wf _ _ Hp Eq) as Hqw.
  destruct (is4 (prefix_addr q)) eqn:E4.
  - destruct (PrefixToLPM4 q) as [k|] eqn:Ek; cbn [mbind result_bind]; [|done].
    apply PrefixToLPM4_Ok in Ek as (v0 & b0 & Ek & ->). rewrite Hq in Ek. injection Ek as ->.
    intros H. destruct (IH _ _ Hps H) as [IH4 IH6]. split; intros v b Hv; rewrite last_policy_cons, Eq.
    + rewrite (IH4 v b Hv). case_match; [done|]. case_decide as Hd.
      { injection Hd as -> ->. apply lookup_insert_eq. }
      rewrite lookup_insert_ne; [done|]. intros Hk. apply Hd. f_equal.
      pose proof (f_equal l4_PrefixLen Hk) as Hb. pose proof (f_equal l4_Addr Hk) as Ha.
      cbn [l4_PrefixLen l4_Addr] in Hb, Ha. subst b. f_equal. f_equal. by apply as4_inj; [apply Hqw|..].
    + rewrite (IH6 v b Hv). case_match; [done|]. by rewrite decide_False by congruence.
  - destruct (PrefixToLPM6 q) as [k|] eqn:Ek; cbn [mbind result_bind]; [|done].
    apply (PrefixToLPM6_Ok _ _ Hqw) in Ek as (v0 & z0 & b0 & Ek & ->). rewrite Hq in Ek. injection Ek as ->.
    assert (z0 = "") as -> by (destruct Hqw as (_ & Hz & _); simpl in Hz; by apply negb_false_iff, String.eqb_eq in Hz).
    intros H. destruct (IH _ _ Hps H) as [IH4 IH6]. split; intros v b Hv; rewrite last_policy_cons, Eq.
    + rewrite (IH4 v b Hv). case_match; [done|]. by rewrite decide_False by congruence.
    + rewrite (IH6 v b Hv). case_match; [done|]. case_decide as Hd.
      { injection Hd as -> ->. apply lookup_insert_eq. }
      rewrite lookup_insert_ne; [done|]. intros Hk. apply Hd. f_equal.
      pose proof (f_equal l6_PrefixLen Hk) as Hb. pose proof (f_equal l6_Addr Hk) as Ha.
      cbn [l6_PrefixLen l6_Addr] in Hb, Ha. subst b. f_equal. f_equal.
      by apply (as16_v6_inj _ _ "" ""); [apply Hqw|..].
Qed.

(** The loop fails only on a prefix without canonical form. *)
Lemma prepare_loop_Ok g ps m4 m6 :
  Forall (λ p, prefix_wf (cp_Prefix p)) ps →
  is_ok (prepare_loop g ps m4 m6) = forallb (λ p, is_ok (CanonicalPrefix (cp_Prefix p))) ps.
Proof.
  revert m4 m6. induction ps as [|p ps IH]; intros m4 m6 Hwf; [done|].
  apply Forall_cons in Hwf as [Hp Hps]. cbn [prepare_loop forallb].
  destruct (CanonicalPrefix (cp_Prefix p)) as [q|] eqn:Eq; cbn [mbind result_bind is_ok andb]; [|done].
  pose proof (CanonicalPrefix_idem _ _ Hp Eq) as Hq. pose proof (CanonicalPrefix_wf _ _ Hp Eq) as (_ & _ & Hb & H0).
  pose proof (CanonicalPrefix_plain _ _ Hp Eq) as (Hn & _ & Hpos).
  unfold PrefixToLPM4, PrefixToLPM6. rewrite Hq. cbn [mbind result_bind].
  destruct q as [[|v|v z] b]; cbn [prefix_addr prefix_bits is4 is6 negb bit_len] in *.
  - specialize (H0 eq_refl). lia.
  - assert (((b <? 0) || (32 <? b)) = false) as -> by lia. cbn. apply IH, Hps.
  - rewrite Hn. cbn. assert (((b <? 0) || (128 <? b)) = false) as -> by lia. cbn. apply IH, Hps.
Qed.

Lemma PrepareStatic_Ok b ps b' p :
  PrepareStatic b ps = (b', Ok p) →
  bp_compiling (b_Publisher b) = 0 ∧
  b' = set_Publisher b (mkBankPublisher (bp_active (b_Publisher b)) (bp_generation (b_Publisher b)) 1) ∧
  prepare_loop (next_generation (bp_generation (b_Publisher b))) ps ∅ ∅ = Ok (ps_policy4 p, ps_policy6 p) ∧
  ps_live p = true ∧ ps_inactive p = InactiveBank (b_Publisher b) ∧
  bank_ok (ps_policy4 p) ∧ bank_ok (ps_policy6 p).
Proof.
  unfold PrepareStatic. destruct (BeginCompile (b_Publisher b)) as [pub [i|]] eqn:E; [|done].
  apply BeginCompile_Some in E as (Hc & -> & ->). simpl.
  destruct (prepare_loop _ ps ∅ ∅) as [[p4 p6]|] eqn:El; [|done].
  destruct (_ || _) eqn:Es; [done|]. intros [= <- <-]. boolprop. unfold bank_ok. split_and!; done.
Qed.

(** The compile reservation is the one snapshot that is held, if any. *)
Definition held_inv (b : MemoryBackend) (held : list PreparedStatic) : Prop :=
  match held with
  | [] => bp_compiling (b_Publisher b) = 0
  | [p] => ps_live p = true ∧ prepared_inv b p
  | _ => False
  end.

Definition sys_inv (s : MemoryBackend * list PreparedStatic) : Prop :=
  backend_inv s.1 ∧ live_bank_current s.1 ∧ held_inv s.1 s.2.

Lemma held_one b before p after : held_inv b (before ++ p :: after) → before = [] ∧ after = [].
Proof. destruct before as [|q [|]]; [by destruct after | done | done]. Qed.

(** Only the compile reservation of the publisher changes. *)
Lemma sys_inv_reservation b c held :
  backend_inv b → live_bank_current b → (c = 0 ∨ c = 1) →
  held_inv (set_Publisher b (mkBankPublisher (bp_active (b_Publisher b)) (bp_generation (b_Publisher b)) c)) held →
  sys_inv (set_Publisher b (mkBankPublisher (bp_active (b_Publisher b)) (bp_generation (b_Publisher b)) c), held).
Proof.
  intros [(Hp & Ha & Hg) Hb Hf Hd H4 H6 Hm] Hl Hc Hh. split_and!; [|done|done].
  constructor; try done. split; [|done]. destruct Hp as (? & ? & ?). unfold publisher_ok. simpl. auto.
Qed.

Lemma prepare_step_inv b held ps b' p :
  sys_inv (b, held) → PrepareStatic b ps = (b', Ok p) → sys_inv (b', p :: held).
Proof.
  intros (Hi & Hl & Hh) Hp. apply PrepareStatic_Ok in Hp as (Hc & -> & Hloop & Hlive & Hin & H4 & H6).
  assert (held = []) as ->.
  { cbn [fst snd] in Hh. destruct held as [|q [|]]; [done | | done]. destruct Hh as [Hq Hpi]. destruct (Hpi Hq) as [Hone _]. lia. }
  apply sys_inv_reservation; [done|done|by right|]. split; [done|]. intros _. simpl.
  apply prepare_loop_generation in Hloop as [G4 G6]; [|apply map_Forall_empty..]. by split_and!.
Qed.

(** Invalidation empties the learned maps, so it restores what it clears. *)
Lemma invalidate_restores b g :
  g ≠ 0 → control_ok b → banks_ok b → flows_ok b → hints_inv (b_DNS b) →
  backend_inv (invalidateGenerationMaps b g).
Proof.
  intros Hg Hc Hb (Hs & Hl & Hz) [Hd1 Hd2]. unfold invalidateGenerationMaps.
  assert ((g =? 0) = false) as -> by lia.
  assert (∀ K V `{Countable K} n, 0 ≤ n → Z.of_nat (size (∅ : gmap K V)) ≤ n) as He
    by (intros; rewrite map_size_empty; lia).
  constructor; simpl; try done.
  - split_and!; simpl; [exact (flows_sym_filter (λ v, fv_Generation v = g) _ Hs) | exact (proj1 Hl) | exact (proj2 Hl) |].
    pose proof (size_filter_le (λ kv, fv_Generation kv.2 = g) (b_Flows b)).
    match goal with |- _ ≤ ?l => change l with (flow_limit b) end. lia.
  - split; simpl.
    + intros k v [Hk _]%map_lookup_filter_Some. by apply (Hd1 k).
    + pose proof (size_filter_le (λ kv, dv_Generation kv.2 = g) (ht_entries (b_DNS b))). lia.
Qed.

Lemma invalidateGenerationMaps_inv b g :
  backend_inv b → backend_inv (invalidateGenerationMaps b g).
Proof.
  intros Hi. destruct (decide (g = 0)) as [->|]; [done|]. by apply invalidate_restores; [|apply Hi..].
Qed.

(** Invalidation touches neither the control word, the banks nor the publisher. *)
Lemma invalidate_frame b g :
  let b' := invalidateGenerationMaps b g in
  b_Control b' = b_Control b ∧ b_Policy4 b' = b_Policy4 b ∧ b_Policy6 b' = b_Policy6 b ∧
  b_Publisher b' = b_Publisher b.
Proof. unfold invalidateGenerationMaps. by case_match. Qed.

Lemma InactiveBank_lt p : publisher_ok p → (Z.to_nat (InactiveBank p) < 2)%nat.
Proof. intros H. rewrite InactiveBank_flip by done. destruct H as ([->| ->] & _); simpl; lia. Qed.

(** What a committed snapshot leaves: the prepared maps live under the new
    generation. *)
Lemma CommitPreparedStatic_frame b p :
  ps_live p = true →
  let b' := (CommitPreparedStatic b p).1 in
  let pub' := (Commit (b_Publisher b)).1 in
  b_Publisher b' = pub' ∧ b_Control b' = control_with_bank (b_Control b) (bp_active pub') (bp_generation pub') ∧
  b_Policy4 b' = <[Z.to_nat (ps_inactive p) := ps_policy4 p]> (b_Policy4 b) ∧
  b_Policy6 b' = <[Z.to_nat (ps_inactive p) := ps_policy6 p]> (b_Policy6 b).
Proof.
  intros Hlive. unfold CommitPreparedStatic. rewrite Hlive. simpl.
  unfold invalidateGenerationMaps. by case_match.
Qed.

Lemma commit_backend_inv b p :
  backend_inv b → prepared_inv b p → ps_live p = true → backend_inv (CommitPreparedStatic b p).1.
Proof.
  intros [(Hp & Ha & Hg) (Hb1 & Hb2 & Hb3 & Hb4) (Hs & Hl & Hz) Hd H4 H6 Hm] Hpi Hlive.
  destruct (Hpi Hlive) as (Hcmp & Hin & B4 & B6 & G4 & G6).
  unfold CommitPreparedStatic. rewrite Hlive. cbn [Commit]. 
  match goal with |- backend_inv (fst (set_Stats ?x _, _)) =>
    assert (backend_inv x) as [? ? ? ? ? ? ?]; [|by constructor] end.
  apply invalidate_restores; try done.
  - pose proof (next_generation_range (bp_generation (b_Publisher b))). simpl. lia.
  - split_and!; try done. by apply (Commit_ok (b_Publisher b)).
  - split_and!; simpl; rewrite ?length_insert; try done; by apply Forall_insert.
Qed.

Lemma commit_step_inv b p : sys_inv (b, [p]) → sys_inv ((CommitPreparedStatic b p).1, []).
Proof.
  intros (Hi & Hlb & Hlive & Hpi). simpl in *.
  destruct (Hpi Hlive) as (Hcmp & Hin & B4 & B6 & G4 & G6).
  pose proof (CommitPreparedStatic_frame b p Hlive) as (Fp & Fc & F4 & F6).
  destruct Hi as [(Hp & Hc) (Hb1 & Hb2 & Hb) Hf Hd H4 H6 Hm] eqn:Hi'.
  pose proof (InactiveBank_lt _ Hp) as Hlt.
  split_and!; cbn [fst snd].
  - by apply commit_backend_inv.
  - unfold live_bank_current. rewrite Fc, F4, F6, Hin. simpl.
    split; intros m; rewrite list_lookup_insert_eq by lia; by intros [= <-].
  - unfold held_inv. by rewrite Fp.
Qed.

(** ** Ledger lemmas *)

Lemma get_set_ledger b l m : get_ledger (set_ledger b l m) l = m.
Proof. by destruct l. Qed.

Lemma set_ledger_inv b l m :
  backend_inv b → map_Forall (λ p _, ledger_key_ok l p) m → Z.of_nat (size m) ≤ DefaultDynamicDirect →
  backend_inv (set_ledger b l m).
Proof. intros [] Hk Hs. by destruct l; constructor. Qed.

Lemma ledger_of_inv b l : backend_inv b → ledger_ok b l.
Proof. intros []. by destruct l. Qed.

Lemma drop_expired_size now m : (size (drop_expired now m) ≤ size m)%nat.
Proof. apply size_filter_le. Qed.

Lemma drop_expired_lookup now m p x :
  drop_expired now m !! p = Some x ↔ m !! p = Some x ∧ now < x.
Proof.
  unfold drop_expired, time_after. rewrite map_lookup_filter_Some. simpl. by rewrite bool_decide_eq_true.
Qed.

Lemma drop_expired_count now m :
  size (drop_expired now m) = length (filter (λ kv : Prefix * Z, time_after kv.2 now = true) (map_to_list m)).
Proof.
  rewrite <- length_map_to_list. apply Permutation_length. unfold drop_expired. rewrite map_filter_alt.
  apply map_to_list_to_map, (sublist_NoDup _ (map_to_list m).*1); [apply NoDup_fst_map_to_list|].
  apply fmap_sublist, sublist_filter.
Qed.

Lemma contains_family p a : prefix_contains p a = true → is6 a = is6 (prefix_addr p).
Proof.
  unfold prefix_contains. destruct (negb (prefix_is_valid p) || has_zone a); [done|].
  by destruct (prefix_addr p), a.
Qed.

Lemma drop_expired_live now m p : ledger_live (drop_expired now m) p now = ledger_live m p now.
Proof.
  unfold ledger_live. destruct (m !! p) as [x|] eqn:E.
  - destruct (time_after x now) eqn:Ea.
    + assert (drop_expired now m !! p = Some x) as -> by (apply drop_expired_lookup; unfold time_after in Ea; by boolprop).
      done.
    + destruct (drop_expired now m !! p) as [y|] eqn:E2; [|done].
      apply drop_expired_lookup in E2 as [E2 _]. congruence.
  - destruct (drop_expired now m !! p) as [y|] eqn:E2; [|done].
    apply drop_expired_lookup in E2 as [E2 _]. congruence.
Qed.

Lemma ledger_key_canonical p q l :
  prefix_wf p → CanonicalPrefix p = Ok q → dynamicEntriesForPrefix q = Ok l → ledger_key_ok l q.
Proof.
  intros Hwf Hc Hl. pose proof (CanonicalPrefix_plain _ _ Hwf Hc) as (Hn & Hmask & Hb).
  unfold dynamicEntriesForPrefix in Hl. rewrite unmap_not4in6 in Hl by done.
  split; [|split_and!; [done | by eapply CanonicalPrefix_wf | done | done]].
  repeat case_match; simplify_eq; done.
Qed.

(** The ledger of a canonical prefix is the one its family names. *)
Lemma canonical_ledger p q :
  prefix_wf p → CanonicalPrefix p = Ok q →
  dynamicEntriesForPrefix q = Ok (if is6 (prefix_addr q) then Ledger6 else Ledger4).
Proof.
  intros Hwf Hc. pose proof (CanonicalPrefix_plain _ _ Hwf Hc) as (Hn & _ & Hb).
  pose proof (CanonicalPrefix_wf _ _ Hwf Hc) as (_ & _ & _ & H0).
  unfold dynamicEntriesForPrefix. rewrite unmap_not4in6 by done.
  destruct (prefix_addr q); simpl; [specialize (H0 eq_refl); lia | done | done].
Qed.

Lemma drop_expired_inv b l now : backend_inv b → backend_inv (set_ledger b l (drop_expired now (get_ledger b l))).
Proof.
  intros Hi. destruct (ledger_of_inv b l Hi) as [Hk Hs]. apply set_ledger_inv; [done| |].
  - intros p x [Hp _]%drop_expired_lookup. by apply (Hk p x).
  - pose proof (drop_expired_size now (get_ledger b l)). lia.
Qed.

Lemma MergeDynamicDirect_inv b prefix ttl t1 now :
  prefix_wf prefix → backend_inv b → backend_inv (MergeDynamicDirect b prefix ttl t1 now).1.
Proof.
  intros Hwf Hi. unfold MergeDynamicDirect.
  destruct (CanonicalPrefix prefix) as [q|] eqn:Eq; [|done].
  destruct (dynamicEntriesForPrefix q) as [l|] eqn:El; [|done].
  pose proof (ledger_key_canonical _ _ _ Hwf Eq El) as Hq.
  destruct (ledger_of_inv b l Hi) as [Hk Hs].
  pose proof (drop_expired_size now (get_ledger b l)) as Hd.
  assert (∀ x, map_Forall (λ p _, ledger_key_ok l p) (<[q:=x]> (drop_expired now (get_ledger b l)))) as Hins.
  { intros x. apply map_Forall_insert_2; [done|]. intros p y [Hp _]%drop_expired_lookup. by apply (Hk p y). }
  pose proof (size_insert_le q (t1 + (if ttl <=? 0 then 5 * minute else ttl)) (drop_expired now (get_ledger b l))).
  destruct (ledger_live _ q now) eqn:Ev; simpl.
  { apply set_ledger_inv; [done | done |]. unfold ledger_live in Ev. case_match; [|done].
    rewrite map_size_insert_Some by eauto. lia. }
  destruct (DefaultDynamicDirect <=? _) eqn:Ec; boolprop; simpl.
  - by apply drop_expired_inv.
  - apply set_ledger_inv; [done | done | lia].
Qed.

Lemma DeleteMergedStaticDirect_inv b prefix : backend_inv b → backend_inv (DeleteMergedStaticDirect b prefix).1.
Proof.
  intros Hi. unfold DeleteMergedStaticDirect. destruct (CanonicalPrefix prefix) as [q|]; [|done].
  cbv zeta. set (l := if is6 _ then _ else _). destruct (ledger_of_inv b l Hi) as [Hk Hs].
  case_match; [|done]. apply set_ledger_inv; [done | by apply map_Forall_delete |].
  pose proof (size_delete_le q (get_ledger b l)). lia.
Qed.

Lemma LookupDynamicDirect_inv b dest now order : backend_inv b → backend_inv (LookupDynamicDirect b dest now order).1.
Proof.
  intros Hi. unfold LookupDynamicDirect. case_match; [done|]. cbv zeta.
  case_match; by apply drop_expired_inv.
Qed.

Lemma set_Flows_inv b m n :
  backend_inv b → flows_sym m → Z.of_nat (size m) ≤ flow_limit b → backend_inv (set_Flows b m n).
Proof. intros [? ? (? & ? & ?) ? ? ? ?] Hs Hz. by constructor. Qed.

Lemma PublishFlow_inv b req nowNs visit :
  (∀ m, range_of m (visit m)) → backend_inv b → backend_inv (PublishFlow b req nowNs visit).1.
Proof.
  intros Hv Hi. destruct (PublishFlow b req nowNs visit) as [b' r] eqn:E. simpl.
  destruct r as [[]|e].
  - pose proof (PublishFlow_flows _ _ _ _ _ Hv (inv_flows _ Hi) E) as (p & _ & Hf & _).
    unfold PublishFlow in E. repeat case_match; simplify_eq. destruct Hi. by constructor.
  - unfold PublishFlow in E. by repeat case_match; simplify_eq.
Qed.

Lemma RevokeFlow_inv b client dest protocol : backend_inv b → backend_inv (RevokeFlow b client dest protocol).1.
Proof.
  intros Hi. unfold RevokeFlow. destruct (BuildFlowPair _ _ _) as [p|] eqn:E; [|done].
  apply BuildFlowPair_Ok in E as (-> & _). destruct (inv_flows _ Hi) as (Hs & _ & Hz).
  apply set_Flows_inv; [done | by apply flows_sym_delete |].
  pose proof (size_delete_le (reverse_key (fp_Forward p)) (delete (fp_Forward p) (b_Flows b))).
  pose proof (size_delete_le (fp_Forward p) (b_Flows b)). lia.
Qed.

Lemma mac_snapshot_Forall g entries m :
  g ≠ 0 → map_Forall (λ k v, k ≠ zeroMACKey ∧ mv_Generation v = g) m →
  map_Forall (λ k v, k ≠ zeroMACKey ∧ mv_Generation v = g) (mac_snapshot g entries m).
Proof.
  intros Hg. revert m. induction entries as [|e es IH]; intros m Hm; simpl; [done|].
  case_bool_decide as Hz; apply IH; [done|]. apply map_Forall_insert_2; [|done].
  split; [done|]. simpl. by rewrite (proj2 (Z.eqb_neq g 0) Hg).
Qed.

Lemma PublishMACPolicies_inv b entries : backend_inv b → backend_inv (PublishMACPolicies b entries).1.
Proof.
  intros Hi. unfold PublishMACPolicies. destruct (MaxSourcePolicies <? _) eqn:E; boolprop; [done|].
  destruct Hi as [(Hp & Ha & Hg) Hb Hf Hd H4 H6 Hm]. constructor; try done. split; [done|]. simpl.
  apply mac_snapshot_Forall; [|apply map_Forall_empty]. destruct Hp as (_ & ? & _). lia.
Qed.

Lemma set_DNS_inv b dns :
  backend_inv b → hints_inv dns → backend_inv (set_DNS b dns).
Proof. intros [] H. by constructor. Qed.

(** Operations that learn or forget leave the control word, the banks and the
    publisher alone. *)
Definition same_core (b b' : MemoryBackend) : Prop :=
  b_Control b' = b_Control b ∧ b_Policy4 b' = b_Policy4 b ∧ b_Policy6 b' = b_Policy6 b ∧
  b_Publisher b' = b_Publisher b.

Lemma sys_inv_same_core b b' held :
  sys_inv (b, held) → backend_inv b' → same_core b b' → sys_inv (b', held).
Proof.
  intros (_ & Hl & Hh) Hi (Hc & H4 & H6 & Hp). unfold sys_inv, live_bank_current, held_inv, prepared_inv in *. simpl in *.
  rewrite Hc, H4, H6, Hp. done.
Qed.

Lemma set_ledger_core b l m : same_core b (set_ledger b l m).
Proof. by destruct l. Qed.

Lemma MergeDynamicDirect_core b p ttl t1 now : same_core b (MergeDynamicDirect b p ttl t1 now).1.
Proof. unfold MergeDynamicDirect. repeat case_match; first [done | apply set_ledger_core]. Qed.

Lemma DeleteMergedStaticDirect_core b p : same_core b (DeleteMergedStaticDirect b p).1.
Proof. unfold DeleteMergedStaticDirect. repeat case_match; first [done | apply set_ledger_core]. Qed.

Lemma PublishFlow_core b req now visit : same_core b (PublishFlow b req now visit).1.
Proof. unfold PublishFlow. by repeat case_match. Qed.

Lemma RevokeFlow_core b c d p : same_core b (RevokeFlow b c d p).1.
Proof. unfold RevokeFlow. by repeat case_match. Qed.

Lemma PublishMACPolicies_core b es : same_core b (PublishMACPolicies b es).1.
Proof. unfold PublishMACPolicies. by repeat case_match. Qed.

Lemma backend_step_inv s s' : sys_inv s → backend_step s s' → sys_inv s'.
Proof.
  intros Hi Hs. pose proof Hi as (Hb & _). destruct Hs; simpl in Hb.
  - by eapply prepare_step_inv.
  - apply PrepareStatic_Err in H as ->. done.
  - destruct (held_one _ _ _ _ (proj2 (proj2 Hi))) as [-> ->]. destruct Hi as (_ & Hl & Hlive & Hp). unfold AbortPreparedStatic. simpl in Hlive. rewrite Hlive.
    apply sys_inv_reservation; auto. done.
  - destruct (held_one _ _ _ _ (proj2 (proj2 Hi))) as [-> ->]. by apply commit_step_inv.
  - apply (sys_inv_same_core b); [done | by apply MergeDynamicDirect_inv | apply MergeDynamicDirect_core].
  - apply (sys_inv_same_core b); [done | by apply DeleteMergedStaticDirect_inv | apply DeleteMergedStaticDirect_core].
  - apply (sys_inv_same_core b); [done | by apply LookupDynamicDirect_inv |].
    unfold LookupDynamicDirect. repeat case_match; first [done | apply set_ledger_core].
  - apply (sys_inv_same_core b); [done | by apply PublishFlow_inv | apply PublishFlow_core].
  - apply (sys_inv_same_core b); [done | by apply RevokeFlow_inv | apply RevokeFlow_core].
  - apply (sys_inv_same_core b); [done | by apply PublishMACPolicies_inv | apply PublishMACPolicies_core].
  - apply (sys_inv_same_core b); [done | | done].
    apply set_DNS_inv; [done|]. apply hints_Observe_inv_aux; [by apply Hb | done].
  - apply (sys_inv_same_core b); [done | by apply invalidateGenerationMaps_inv | apply invalidate_frame].
Qed.

Lemma NewMemoryBackend_inv : sys_inv (NewMemoryBackend, []).
Proof.
  assert (∀ K V `{Countable K} n, 0 ≤ n → Z.of_nat (size (∅ : gmap K V)) ≤ n) as He
    by (intros; rewrite map_size_empty; lia).
  split; [|split; [|done]].
  - constructor.
    + repeat split; simpl; auto; lia.
    + unfold banks_ok, bank_ok. simpl. split_and!; try done; repeat constructor; by apply He.
    + split_and!; [by intros k v Hk | by vm_compute | by vm_compute | by apply He].
    + split; [apply map_Forall_empty | by apply He].
    + split; [apply map_Forall_empty | by apply He].
    + split; [apply map_Forall_empty | by apply He].
    + split; [by apply He | apply map_Forall_empty].
  - split; intros m [= <-]; apply map_Forall_empty.
Qed.

(** ** Lookup lemmas *)

(** An unexpired row that contains the address. *)
Definition row_covers (dest : Addr) (now : Z) (r : Prefix * Z) : bool :=
  time_after r.2 now && prefix_contains r.1 dest.

Lemma row_covers_valid dest now r : row_covers dest now r = true → prefix_is_valid r.1 = true.
Proof. unfold row_covers, prefix_contains. intros [_ H]%andb_prop. by destruct (prefix_is_valid r.1). Qed.

Lemma dynamic_scan_keeps dest now order best :
  row_covers dest now best = true → row_covers dest now (dynamic_scan dest now best order) = true.
Proof.
  revert best. induction order as [|[p x] order IH]; intros best Hb; simpl; [done|].
  destruct (time_after x now) eqn:Ex; simpl; [|by apply IH].
  destruct (prefix_contains p dest) eqn:Ec; simpl; [|by apply IH].
  case_match; apply IH; [done|]. unfold row_covers. simpl. by rewrite Ex, Ec.
Qed.

(** The scan finds a covering row exactly when there is one. *)
Lemma dynamic_scan_spec dest now order best :
  prefix_is_valid best.1 = false →
  let r := dynamic_scan dest now best order in
  if existsb (row_covers dest now) order then row_covers dest now r = true else r = best.
Proof.
  intros Hb. induction order as [|[p x] order IH]; simpl; [done|]. unfold row_covers at 1. simpl.
  destruct (time_after x now) eqn:Ex; simpl; [|apply IH].
  destruct (prefix_contains p dest) eqn:Ec; simpl; [|apply IH].
  rewrite Hb. simpl. apply dynamic_scan_keeps. unfold row_covers. simpl. by rewrite Ex, Ec.
Qed.

(** The ledger an address belongs to. *)
Definition addr_ledger (dest : Addr) : ledger := if is6 (unmap dest) then Ledger6 else Ledger4.

(** A DIRECT answer means a covering row and conversely. *)
Lemma LookupDynamicDirect_spec b dest now order :
  addr_is_valid dest = true → range_of (get_ledger b (addr_ledger dest)) order →
  (is_Some (LookupDynamicDirect b dest now order).2 ↔
   ∃ p x, get_ledger b (addr_ledger dest) !! p = Some x ∧ now < x ∧ prefix_contains p (unmap dest) = true).
Proof.
  intros Hv Hr. unfold LookupDynamicDirect. rewrite Hv. cbn [negb].
  change (if is6 (unmap dest) then Ledger6 else Ledger4) with (addr_ledger dest).
  pose proof (dynamic_scan_spec (unmap dest) now order (prefix_zero, time_zero) eq_refl) as Hs. simpl in Hs.
  assert (existsb (row_covers (unmap dest) now) order = true ↔
    ∃ p x, get_ledger b (addr_ledger dest) !! p = Some x ∧ now < x ∧ prefix_contains p (unmap dest) = true) as <-.
  { rewrite existsb_exists. unfold row_covers, time_after. split.
    - intros ([p x] & Hin & [Hx Hc]%andb_prop). apply list_elem_of_In, (range_of_lookup _ _ _ _ Hr) in Hin.
      apply bool_decide_eq_true_1 in Hx. eauto.
    - intros (p & x & Hin & Hx & Hc). exists (p, x). apply (range_of_lookup _ _ _ _ Hr), list_elem_of_In in Hin.
      split; [done|]. simpl. by rewrite bool_decide_eq_true_2, Hc. }
  destruct (existsb (row_covers (unmap dest) now) order).
  - rewrite (row_covers_valid _ _ _ Hs). apply andb_prop in Hs as [-> _]. simpl. by split; [|eauto].
  - rewrite Hs. simpl. split; [by intros []|done].
Qed.

(** The policy a host address finds after a publication: the last one published
    for exactly its host prefix, tagged with the new generation. *)
Definition host_policy (ps : list CompiledPolicy) (dest : Addr) (g : Z) : option PolicyValue :=
  let addr := without_zone (unmap dest) in
  (λ p, with_pv_generation (cp_Value p) g) <$> last_policy ps (mkPrefix addr (bit_len addr)).

Lemma pv_with_generation v g : pv_Generation (with_pv_generation v g) = g.
Proof. done. Qed.

Lemma policy_lookup_scope (o : option PolicyValue) g protocol dport :
  (∀ v, o = Some v → pv_Generation v = g) →
  (o ≫= λ v, if pv_Generation v =? g then policy_scope v protocol dport else None) =
  (o ≫= λ v, policy_scope v protocol dport).
Proof. intros Ho. destruct o as [v|]; simpl; [|done]. by rewrite (Ho v eq_refl), Z.eqb_refl. Qed.

(** ** Theorems *)

(** C3. The type invariant of the control plane holds in every state the
    operations of [MemoryBackend] can reach, in any order and whoever prepares
    snapshots: the control word mirrors the publisher, every policy
    of the live bank carries the live generation, the flow table holds both
    directions of every flow and at most DefaultFlowEntries rows, the banks,
    ledgers, hints and MAC rows fit the limits of their maps, ledger keys are
    canonical (masked, not IPv4-mapped) prefixes of their family, at most one
    prepared snapshot is outstanding, and the compile reservation is held exactly
    while there is one. *)
Theorem backend_reachable_inv (s : MemoryBackend * list PreparedStatic) :
  rtc backend_step (NewMemoryBackend, []) s → sys_inv s.
Proof.
  intros Hr. remember (NewMemoryBackend, []) as s0 eqn:E.
  assert (sys_inv s0) as Hi by (subst; apply NewMemoryBackend_inv). clear E.
  induction Hr; eauto using backend_step_inv.
Qed.

(** What [PublishStatic] needs: the compile reservation, canonical prefixes and
    room in both banks. *)
Definition publishable (b : MemoryBackend) (ps : list CompiledPolicy) : Prop :=
  bp_compiling (b_Publisher b) = 0 ∧ forallb (λ p, is_ok (CanonicalPrefix (cp_Prefix p))) ps = true ∧
  ∃ m4 m6, prepare_loop (next_generation (bp_generation (b_Publisher b))) ps ∅ ∅ = Ok (m4, m6) ∧ bank_ok m4 ∧ bank_ok m6.

(** C4. [PublishStatic] is atomic and its result is visible: it fails, leaving
    the backend untouched, exactly when the reservation is taken, a prefix has no
    canonical form or a bank would overflow; when it succeeds, every lookup of
    a valid destination answers the last policy published for that host, under the new
    generation and subject to its protocol and port scope, and nothing else. *)
Theorem PublishStatic_atomic (b : MemoryBackend) (ps : list CompiledPolicy) :
  backend_inv b → Forall (λ p, prefix_wf (cp_Prefix p)) ps →
  match PublishStatic b ps with
  | (b', Err _) =>
      b' = b ∧ ¬ publishable b ps
  | (b', Ok _) =>
      publishable b ps ∧
      c_PolicyGeneration (b_Control b') = next_generation (c_PolicyGeneration (b_Control b)) ∧
      c_ActiveBank (b_Control b') = 1 - c_ActiveBank (b_Control b) ∧
      ∀ dest protocol dport, addr_wf dest → addr_is_valid dest = true →
        LookupStatic b' dest protocol dport =
          Ok (host_policy ps dest (c_PolicyGeneration (b_Control b')) ≫= λ v, policy_scope v protocol dport)
  end.
Proof.
  intros Hi Hwf. unfold PublishStatic. destruct (PrepareStatic b ps) as [b1 [p|e]] eqn:Ep.
  - apply PrepareStatic_Ok in Ep as (Hc & -> & Hloop & Hlive & Hin & Hb4 & Hb6).
    assert (publishable b ps) as Hpub.
    { split_and!; [done | by rewrite <- (prepare_loop_Ok (next_generation (bp_generation (b_Publisher b))) ps ∅ ∅ Hwf), Hloop | eauto]. }
    destruct (inv_control _ Hi) as (Hp & Ha & Hg). destruct (inv_banks _ Hi) as (L4 & L6 & _).
    pose proof (InactiveBank_lt _ Hp) as Hlt. pose proof (InactiveBank_flip _ Hp) as Hflip.
    destruct (CommitPreparedStatic_frame (set_Publisher b (mkBankPublisher (bp_active (b_Publisher b)) (bp_generation (b_Publisher b)) 1)) p Hlive) as (_ & Fc & F4 & F6).
    set (pub := mkBankPublisher _ _ 1) in *. change (InactiveBank (b_Publisher b)) with (InactiveBank pub) in *.
    cbn [Commit fst b_Publisher set_Publisher bp_active bp_generation] in Fc.
    rewrite Fc, Ha, Hg. split; [done|]. split; [done|]. split; [exact Hflip|].
    intros dest protocol dport Hd Hv. unfold LookupStatic. rewrite Fc, F4, F6, Hin.
    cbn [b_Policy4 b_Policy6 set_Publisher c_ActiveBank c_PolicyGeneration control_with_bank].
    rewrite !list_lookup_insert_eq by lia.
    destruct (prepare_loop_lookup _ _ _ _ _ _ Hwf Hloop) as [P4 P6].
    apply addr_wf_unmap in Hd. assert (unmap dest ≠ AddrZero) as Hne by (destruct dest as [|?|?? ]; simpl; try done; by case_match).
    unfold host_policy. destruct (unmap dest) as [|v|v z] eqn:Eu; [done|..]; cbn [is4 without_zone bit_len].
    + rewrite (P4 v 32 Hd), lookup_empty. f_equal. rewrite policy_lookup_scope; [by destruct (last_policy _ _)|].
      intros w Hw. by destruct (last_policy _ _); simplify_eq.
    + change (as16 (AddrV6 v z)) with (as16 (AddrV6 v "")). rewrite (P6 v 128 Hd), lookup_empty. f_equal.
      rewrite policy_lookup_scope; [by destruct (last_policy _ _)|].
      intros w Hw. by destruct (last_policy _ _); simplify_eq.
  - split; [by eapply PrepareStatic_Err|]. intros (Hc & Hok & m4 & m6 & Hloop & H4 & H6).
    unfold PrepareStatic, BeginCompile in Ep. rewrite (proj2 (Z.eqb_eq _ _) Hc) in Ep. simpl in Ep. rewrite Hloop in Ep.
    unfold bank_ok in H4, H6. assert ((DefaultPolicyLPM <? Z.of_nat (size m4)) || (DefaultPolicyLPM <? Z.of_nat (size m6)) = false) as E by lia.
    by rewrite E in Ep.
Qed.

(** A learned flow is a symmetric, revocable verdict: a successful
    [PublishFlow] makes both directions of the tuple answer the requested
    verdict under the current generation, never shortens another flow's
    record, keeps the table within its limit, learns DIRECT only for a bare direct leaf
    and never for port 53; [RevokeFlow] of the same tuple then removes both directions. *)
Theorem PublishFlow_symmetric_revocable (b : MemoryBackend) (req : FlowPublishRequest) (nowNs : Z)
    (visit : gmap FlowKey FlowValue → list (FlowKey * FlowValue)) (b' : MemoryBackend) :
  (∀ m, range_of m (visit m)) → backend_inv b → PublishFlow b req nowNs visit = (b', Ok tt) →
  ∃ p, fp_Reverse p = reverse_key (fp_Forward p) ∧
    LookupFlow b' (fp_Forward p) = Some (fp_Value p) ∧ LookupFlow b' (fp_Reverse p) = Some (fp_Value p) ∧
    fv_Verdict (fp_Value p) = fr_Verdict req ∧ fv_ExpiresNs (fp_Value p) = flow_expire req nowNs ∧
    (fr_Verdict req = VerdictDirect → fr_LeafIsBareDirect req = true ∧ ap_Port (fr_Destination req) ≠ 53) ∧
    (∀ k v, k ≠ fp_Forward p → k ≠ fp_Reverse p → b_Flows b' !! k = Some v → b_Flows b !! k = Some v) ∧
    Z.of_nat (size (b_Flows b')) ≤ flow_limit b ∧
    ∃ b'', RevokeFlow b' (fr_Client req) (fr_Destination req) (fr_Protocol req) = (b'', Ok tt) ∧
      b_Flows b'' = delete (fp_Reverse p) (delete (fp_Forward p) (b_Flows b')) ∧
      LookupFlow b'' (fp_Forward p) = None ∧ LookupFlow b'' (fp_Reverse p) = None.
Proof.
  intros Hv Hi Hp.
  destruct (PublishFlow_flows _ _ _ _ _ Hv (inv_flows _ Hi) Hp) as (p & Hb & Hf & H1 & H2 & Ho).
  assert (b_Control b' = b_Control b ∧ flow_limit b' = flow_limit b) as [Hc Hlim].
  { unfold PublishFlow in Hp. repeat case_match; by simplify_eq. }
  destruct (BuildFlowPair_Ok _ _ _ _ Hb) as (Hr & Hg & Hx & Hver & Hdir).
  exists p. split_and!; try done.
  - unfold LookupFlow. by rewrite H1, Hc, Hg, Z.eqb_refl.
  - unfold LookupFlow. by rewrite H2, Hc, Hg, Z.eqb_refl.
  - eauto.
  - destruct Hf as (_ & _ & Hsz). by rewrite <- Hlim.
  - unfold RevokeFlow. destruct (BuildFlowPair_keys _ 0 false _ (c_PolicyGeneration (b_Control b')) _ 1 _ Hb) as (q & -> & -> & ->).
    eexists. split; [done|]. split; [done|]. unfold LookupFlow; simpl. split.
    + destruct (decide (fp_Reverse p = fp_Forward p)) as [->|]; [by rewrite lookup_delete_eq|].
      by rewrite lookup_delete_ne, lookup_delete_eq.
    + by rewrite lookup_delete_eq.
Qed.

(** The preflight of a dynamic DIRECT prefix is sound: when
    [ValidateDynamicDirect] accepts a prefix, [MergeDynamicDirect] of the canonical form cannot fail at
    that time, and until the TTL runs out an address of the prefix is answered DIRECT;
    [DeleteMergedStaticDirect] then removes exactly that row. *)
Theorem ValidateDynamicDirect_sound (b : MemoryBackend) (prefix canonical : Prefix) (ttl now : Z) :
  backend_inv b → prefix_wf prefix → 0 < ttl → ValidateDynamicDirect b prefix now = Ok canonical →
  ∃ b', MergeDynamicDirect b canonical ttl now now = (b', Ok tt) ∧
    (∀ dest now' order, addr_is_valid dest = true → now ≤ now' < now + ttl →
       prefix_contains canonical (unmap dest) = true →
       range_of (get_ledger b' (addr_ledger dest)) order →
       is_Some (LookupDynamicDirect b' dest now' order).2) ∧
    ∃ b'', DeleteMergedStaticDirect b' prefix = (b'', Ok tt) ∧
       ∀ l p, get_ledger b'' l !! p = if decide (p = canonical) then None else get_ledger b' l !! p.
Proof.
  intros Hi Hwf Httl Hval. unfold ValidateDynamicDirect in Hval.
  destruct (CanonicalPrefix prefix) as [q|] eqn:Eq; simpl in Hval; [|done].
  pose proof (canonical_ledger _ _ Hwf Eq) as El. rewrite El in Hval. simpl in Hval.
  set (l := if is6 (prefix_addr q) then Ledger6 else Ledger4) in *.
  assert (canonical = q) as -> by (repeat case_match; by simplify_eq).
  pose proof (CanonicalPrefix_idem _ _ Hwf Eq) as Hidem.
  exists (set_ledger b l (<[q := now + ttl]> (drop_expired now (get_ledger b l)))). split_and!.
  - unfold MergeDynamicDirect. rewrite Hidem, El, drop_expired_live.
    assert ((ttl <=? 0) = false) as -> by lia.
    destruct (ledger_live (get_ledger b l) q now); [done|].
    destruct (DefaultDynamicDirect <=? _) eqn:Ec in Hval; [done|].
    rewrite <- drop_expired_count in Ec. by rewrite Ec.
  - intros dest now' order Hv Hn Hc Hr. apply LookupDynamicDirect_spec; [done|done|].
    assert (addr_ledger dest = l) as ->.
    { unfold addr_ledger, l. f_equal. by apply contains_family in Hc as ->. }
    exists q, (now + ttl). rewrite get_set_ledger, lookup_insert_eq. split_and!; [done|lia|done].
  - unfold DeleteMergedStaticDirect. rewrite Eq. fold l. rewrite get_set_ledger, lookup_insert_eq.
    eexists. split; [done|]. intros l' p. 
    destruct (decide (p = q)) as [->|Hne].
    + destruct (decide (l' = l)) as [->|Hl]; [by rewrite get_set_ledger, lookup_delete_eq|].
      destruct (get_ledger b l' !! q) eqn:E.
      * exfalso. apply Hl. destruct (ledger_of_inv b l' Hi) as [Hk _]. apply Hk in E as (Hf & _).
        unfold l. destruct (prefix_addr q), l'; done.
      * by destruct l, l'.
    + destruct (decide (l' = l)) as [->|Hl]; [|by destruct l, l'].
      by rewrite !get_set_ledger, lookup_delete_ne.
Qed.

(** ** Witnesses *)

Definition demo_client : AddrPort := mkAddrPort (AddrV4 0xc0a80102) 40000.
Definition demo_dest : AddrPort := mkAddrPort (AddrV4 0x01010101) 443.
Definition demo_flow : FlowPublishRequest :=
  mkFlowPublishRequest demo_client demo_dest ProtocolTCP VerdictDirect true 7 0 "".
Definition demo_policy : CompiledPolicy :=
  mkCompiledPolicy (mkPrefix (AddrV4 0x01010101) 32)
    (mkPolicyValue VerdictDirect SourceStatic ConfidenceStrong 0 ReasonStaticDirect ProtocolTCP 443 443 9 0).

Lemma demo_visit (m : gmap FlowKey FlowValue) : range_of m (map_to_list m).
Proof. unfold range_of. reflexivity. Qed.

Lemma NewMemoryBackend_backend_inv : backend_inv NewMemoryBackend.
Proof. apply NewMemoryBackend_inv. Qed.

(** A flow is learned and revoked while a snapshot is prepared. *)
Definition demo_prepared : MemoryBackend * list PreparedStatic :=
  match PrepareStatic NewMemoryBackend [demo_policy] with (b, Ok p) => (b, [p]) | (b, Err _) => (b, []) end.

Lemma backend_reachable_inv_witness :
  length demo_prepared.2 = 1%nat ∧
  sys_inv ((RevokeFlow (PublishFlow demo_prepared.1 demo_flow 1000 map_to_list).1 demo_client demo_dest ProtocolTCP).1, demo_prepared.2).
Proof.
  split; [vm_compute; reflexivity|]. apply backend_reachable_inv.
  eapply rtc_l.
  { apply (bs_prepare NewMemoryBackend [] [demo_policy] demo_prepared.1 (default (mkPreparedStatic false 0 ∅ ∅) (head demo_prepared.2))).
    - intros q ->%list_elem_of_singleton. apply (bool_decide_unpack _); vm_compute; exact I.
    - vm_compute. reflexivity. }
  eapply rtc_l; [apply (bs_publish_flow demo_prepared.1 _ demo_flow 1000 map_to_list demo_visit)|].
  eapply rtc_l; [apply bs_revoke_flow | apply rtc_refl].
Defined.

Lemma PublishStatic_atomic_witness :
  LookupStatic (PublishStatic NewMemoryBackend [demo_policy]).1 (AddrV6 (0xffff * 2 ^ 32 + 0x01010101) "") ProtocolTCP 443 =
    Ok (Some (with_pv_generation (cp_Value demo_policy) 2)) ∧
  LookupStatic (PublishStatic NewMemoryBackend [demo_policy]).1 (AddrV4 0x01010101) ProtocolTCP 80 = Ok None.
Proof.
  assert (Forall (λ p, prefix_wf (cp_Prefix p)) [demo_policy]) as Hwf
    by (constructor; [apply (bool_decide_unpack _); vm_compute; exact I | constructor]).
  pose proof (PublishStatic_atomic NewMemoryBackend [demo_policy] NewMemoryBackend_backend_inv Hwf) as H.
  assert (is_ok (PublishStatic NewMemoryBackend [demo_policy]).2 = true) as Hok by (vm_compute; reflexivity).
  assert (c_PolicyGeneration (b_Control (PublishStatic NewMemoryBackend [demo_policy]).1) = 2) as Hg by (vm_compute; reflexivity).
  destruct (PublishStatic NewMemoryBackend [demo_policy]) as [b' [u|e]]; [|discriminate Hok].
  destruct H as (_ & _ & _ & H). cbn [fst] in *. rewrite Hg in H. split.
  - etransitivity; [apply H; [apply (bool_decide_unpack _); vm_compute; exact I | reflexivity] | vm_compute; reflexivity].
  - etransitivity; [apply H; [apply (bool_decide_unpack _); vm_compute; exact I | reflexivity] | vm_compute; reflexivity].
Defined.

Lemma PublishFlow_symmetric_revocable_witness :
  ∃ p, LookupFlow (PublishFlow NewMemoryBackend demo_flow 1000 map_to_list).1 (reverse_key (fp_Forward p)) = Some (fp_Value p) ∧
       fv_Verdict (fp_Value p) = VerdictDirect.
Proof.
  pose proof (PublishFlow_symmetric_revocable NewMemoryBackend demo_flow 1000 map_to_list
    (PublishFlow NewMemoryBackend demo_flow 1000 map_to_list).1 demo_visit NewMemoryBackend_backend_inv
    ltac:(vm_compute; reflexivity)) as (p & Hr & _ & H2 & Hv & _).
  exists p. rewrite <- Hr. split; [exact H2 | exact Hv].
Defined.

Lemma ValidateDynamicDirect_sound_witness :
  ∃ b', MergeDynamicDirect NewMemoryBackend (mkPrefix (AddrV4 0x0a010200) 24) minute 5 5 = (b', Ok tt) ∧
    is_Some (LookupDynamicDirect b' (AddrV4 0x0a010299) (5 + second) (map_to_list (get_ledger b' Ledger4))).2.
Proof.
  destruct (ValidateDynamicDirect_sound NewMemoryBackend (mkPrefix (AddrV4 0x0a010203) 24)
    (mkPrefix (AddrV4 0x0a010200) 24) minute 5 NewMemoryBackend_backend_inv) as (b' & Hm & Hl & _).
  - apply (bool_decide_unpack _). vm_compute. exact I.
  - reflexivity.
  - vm_compute. reflexivity.
  - exists b'. split; [exact Hm|]. apply Hl; [reflexivity | vm_compute; split; congruence | vm_compute; reflexivity | unfold range_of; reflexivity].
Defined.
