(* ===== verification/EbpfLifecycle.v ===== *)
(** * The eBPF lifecycle: [src/protocol/ebpf/v3/lifecycle.go], [sink.go], [migration.go]

    [Lifecycle] drives two representations of the policy in one transaction:
    the in-process [MemoryBackend] and the live kernel maps behind the
    [DataplaneSink] interface.  The sink is the type class [DataplaneSink] over
    an abstract kernel state; nothing is assumed of its answers.  Every method
    runs under the lifecycle mutex and is a function of the lifecycle and the
    kernel state.  The theorems: a kernel failure leaves the model unchanged and
    a kernel success is never followed by a model failure; the recovery of a
    failed MAC snapshot always retires it; once the dataplane is quarantined no
    later operation enables it; an invalidation retires all learned evidence. *)

From S2P Require Import Prelude NetIP EbpfAbi EbpfGeneration EbpfCompiler EbpfDnsHint EbpfBackend.
From stdpp Require Import base gmap list strings numbers fin_maps relations.
From Stdlib Require Import ZArith Lia Ascii.

Local Open Scope string_scope.
Local Open Scope Z_scope.

(** ** Options ([option.EBPFSharedNetworkOptions]) and their normalisation *)

Record EBPFXDPOptions : Type := mkXDP { xdp_Enabled : bool; xdp_Mode : string; xdp_AllowCopyMode : bool }.

Record EBPFPolicyOffloadOptions : Type := mkPolicyOffload {
  po_Enabled : bool;
  po_StaticRules : bool;
  po_ExactFlowLearning : bool;
  po_DNSIPHint : string;
  po_FakeIP : bool;
  po_MACSourcePolicy : bool }.

(** The fields the control plane reads; the others are passed through. *)
Record EBPFSharedNetworkOptions : Type := mkSharedNetwork {
  so_Engine : string;
  so_DataPlane : string;
  so_DropUDP443 : option bool;
  so_PolicyOffload : EBPFPolicyOffloadOptions;
  so_FailureMode : string;
  so_XDP : EBPFXDPOptions }.

(** [strings.ToLower] and [strings.TrimSpace] on ASCII strings. *)
Definition lower_char (c : ascii) : ascii :=
  let n := nat_of_ascii c in
  if (65 <=? n)%nat && (n <=? 90)%nat then ascii_of_nat (n + 32) else c.
Fixpoint to_lower (s : string) : string :=
  match s with EmptyString => EmptyString | String c s => String (lower_char c) (to_lower s) end.
Definition is_space (c : ascii) : bool :=
  let n := nat_of_ascii c in (n =? 32)%nat || ((9 <=? n)%nat && (n <=? 13)%nat).
Fixpoint trim_left (s : string) : string :=
  match s with
  | EmptyString => EmptyString
  | String c s' => if is_space c then trim_left s' else s
  end.
Fixpoint trim_right (s : string) : string :=
  match s with
  | EmptyString => EmptyString
  | String c s =>
      match trim_right s with
      | EmptyString => if is_space c then EmptyString else String c EmptyString
      | t => String c t
      end
  end.
Definition trim_space (s : string) : string := trim_right (trim_left s).

Definition EngineV2 : string := "v2".
Definition EngineV3 : string := "v3".

Definition NormalizeSharedNetwork (o : EBPFSharedNetworkOptions) : result EBPFSharedNetworkOptions :=
  let engine := trim_space (to_lower (so_Engine o)) in
  let mode := to_lower (trim_space (if String.eqb (xdp_Mode (so_XDP o)) "" then "auto" else xdp_Mode (so_XDP o))) in
  if negb (existsb (String.eqb mode) ["auto"; "skb"; "native"; "offload"])
  then Err "shared_network.xdp.mode must be auto|skb|native|offload"
  else
  let xdp := mkXDP (xdp_Enabled (so_XDP o)) mode (xdp_AllowCopyMode (so_XDP o)) in
  if xdp_Enabled xdp && negb (String.eqb engine EngineV3) then Err "shared_network.xdp requires engine=v3"
  else if String.eqb engine "" || String.eqb engine EngineV2
  then Ok (mkSharedNetwork EngineV2 (so_DataPlane o) (so_DropUDP443 o) (so_PolicyOffload o) (so_FailureMode o) xdp)
  else if negb (String.eqb engine EngineV3) then Err "shared_network.engine must be v2 or v3"
  else
  let dataPlane := if String.eqb (so_DataPlane o) "" then "socket_assign" else so_DataPlane o in
  if negb (String.eqb dataPlane "socket_assign") && negb (String.eqb dataPlane "token")
  then Err "shared_network.data_plane must be socket_assign or token"
  else if negb (String.eqb dataPlane "socket_assign") then Err "shared_network.engine=v3 requires data_plane=socket_assign"
  else
  let failureMode := if String.eqb (so_FailureMode o) "" then "proxy" else so_FailureMode o in
  if negb (String.eqb failureMode "proxy") then Err "shared_network.failure_mode only supports proxy in v3"
  else
  let drop := match so_DropUDP443 o with None => Some false | d => d end in
  let po := so_PolicyOffload o in
  let hint := if String.eqb (po_DNSIPHint po) "" then "safe" else po_DNSIPHint po in
  if negb (existsb (String.eqb hint) ["off"; "safe"; "strong"])
  then Err "policy_offload.dns_ip_hint must be off|safe|strong"
  else
  let defaults := po_Enabled po && negb (po_StaticRules po) && negb (po_ExactFlowLearning po)
                  && negb (po_FakeIP po) && negb (po_MACSourcePolicy po) in
  let po := mkPolicyOffload (po_Enabled po) (defaults || po_StaticRules po) (defaults || po_ExactFlowLearning po)
              hint (po_FakeIP po) (po_MACSourcePolicy po) in
  Ok (mkSharedNetwork EngineV3 dataPlane drop po failureMode xdp).

(** [strings.EqualFold] of two ASCII strings. *)
Definition IsV3 (o : EBPFSharedNetworkOptions) : bool :=
  String.eqb (to_lower (trim_space (so_Engine o))) (to_lower EngineV3).

(** ** The kernel-facing interface ([sink.go]) *)

Class DataplaneSink (K : Type) : Type := {
  sink_PublishStaticDirect : list Prefix → Z → Z → K → K * result unit;
  sink_MergeDynamicDirect : Prefix → Z → K → K * result unit;
  sink_PutDirectFlow : Z → AddrPort → AddrPort → Z → K → K * result unit;
  sink_DeleteDirectFlow : Z → AddrPort → AddrPort → K → K * result unit;
  sink_PublishDNSHint : Addr → bool → Z → Z → Z → K → K * result unit;
  sink_PublishMACPolicies : list MACPolicyEntry → K → K * result unit;
  sink_DeleteMergedStaticDirect : Prefix → K → K * result unit;
  sink_WriteControlV3 : bool → Z → Z → Z → Z → K → K * result unit;
  sink_InvalidateFlowDirect : K → K * result unit;
  sink_Disable : K → K * result unit;
  sink_PolicyGeneration : K → Z }.

(** ** The lifecycle *)

Record Lifecycle : Type := mkLifecycle {
  l_options : EBPFSharedNetworkOptions;
  l_backend : MemoryBackend;
  l_bound : bool;                     (* sink != nil *)
  l_flowTTL : Z;
  l_macQuarantined : bool;
  l_dataplaneQuarantined : bool }.

Definition with_backend (l : Lifecycle) (b : MemoryBackend) : Lifecycle :=
  mkLifecycle (l_options l) b (l_bound l) (l_flowTTL l) (l_macQuarantined l) (l_dataplaneQuarantined l).
Definition with_macQuarantined (l : Lifecycle) (q : bool) : Lifecycle :=
  mkLifecycle (l_options l) (l_backend l) (l_bound l) (l_flowTTL l) q (l_dataplaneQuarantined l).
Definition with_dataplaneQuarantined (l : Lifecycle) (q : bool) : Lifecycle :=
  mkLifecycle (l_options l) (l_backend l) (l_bound l) (l_flowTTL l) (l_macQuarantined l) q.

Definition control_with_flags (c : Control) (flags : Z) : Control :=
  mkControl (c_ABIVersion c) (c_Enabled c) flags (c_ActiveBank c) (c_PolicyGeneration c) (c_RoutingMark c)
    (c_Reserved0 c) (c_Reserved1 c) (c_Reserved2 c).
Definition control_with_enabled (c : Control) (enabled : Z) : Control :=
  mkControl (c_ABIVersion c) enabled (c_Flags c) (c_ActiveBank c) (c_PolicyGeneration c) (c_RoutingMark c)
    (c_Reserved0 c) (c_Reserved1 c) (c_Reserved2 c).
Definition control_with_generation (c : Control) (g : Z) : Control :=
  control_with_bank c (c_ActiveBank c) g.

Definition po (l : Lifecycle) : EBPFPolicyOffloadOptions := so_PolicyOffload (l_options l).
Definition enabled_now (l : Lifecycle) : bool := negb (c_Enabled (b_Control (l_backend l)) =? 0).

Definition NewLifecycle (options : EBPFSharedNetworkOptions) (flowTTL : Z) : result Lifecycle :=
  normalized ← NormalizeSharedNetwork options;
  if negb (IsV3 normalized) then Err "lifecycle requires engine=v3"
  else Ok (mkLifecycle normalized NewMemoryBackend false
             (if flowTTL <=? 0 then 10 * minute else flowTTL) false false).

Definition BindSink (l : Lifecycle) : Lifecycle :=
  mkLifecycle (l_options l) (l_backend l) true (l_flowTTL l) (l_macQuarantined l) (l_dataplaneQuarantined l).

(** The assignments of a generation the kernel or the model has moved to. *)
Definition adopt_generation (b : MemoryBackend) (generation : Z) : MemoryBackend :=
  let b := set_Control b (control_with_generation (b_Control b) generation) in
  let b := set_Publisher b (SyncGeneration (b_Publisher b) generation) in
  InvalidateGeneration b generation.

Definition syncPolicyGenerationLocked (l : Lifecycle) (generation : Z) : Lifecycle :=
  if generation =? 0 then l
  else
    let current := c_PolicyGeneration (b_Control (l_backend l)) in
    if negb (current =? 0) && (generation <? current) then l
    else with_backend l (adopt_generation (l_backend l) generation).

Definition ControlFlags (o : EBPFSharedNetworkOptions) (enableIPv4 enableIPv6 enableTCP enableUDP dnsHijack : bool) : Z :=
  let add (b : bool) (f flags : Z) := if b then flags .| f else flags in
  let flags := add enableIPv4 FlagIPv4 0 in
  let flags := add enableIPv6 FlagIPv6 flags in
  let flags := add enableTCP FlagTCP flags in
  let flags := add enableUDP FlagUDP flags in
  let flags := add dnsHijack FlagDNSHijack flags in
  let flags := add (match so_DropUDP443 o with Some d => d | None => false end) FlagDropUDP443 flags in
  let flags := add (String.eqb (so_DataPlane o) "" || String.eqb (so_DataPlane o) "socket_assign") FlagSocketAssign flags in
  let flags := flags .| FlagFailureProxy in
  let po := so_PolicyOffload o in
  if po_Enabled po then
    let flags := add (po_StaticRules po) FlagStaticPolicy flags in
    let flags := add (po_ExactFlowLearning po) FlagExactFlow flags in
    let hint := String.eqb (po_DNSIPHint po) "safe" || String.eqb (po_DNSIPHint po) "strong" in
    let flags := add hint FlagDNSSniff (add hint FlagDNSHint flags) in
    let flags := add (po_FakeIP po) FlagFakeIP flags in
    add (po_MACSourcePolicy po) FlagMACSource flags
  else flags.

(** Unix nanoseconds of a time: the epoch is 62135596800 s after the zero time. *)
Definition unix_nano (t : Z) : Z := i64 (t - 62135596800 * second).

Section lifecycle.
Context {K : Type} `{DataplaneSink K}.

(** [if l.sink != nil { ... }] around one fallible kernel call. *)
Definition sink_call (l : Lifecycle) (f : K → K * result unit) (k : K) : K * result unit :=
  if l_bound l then f k else (k, Ok tt).

Definition write_control (l : Lifecycle) (enabled : bool) (flags routingMark : Z) (k : K) : K * result unit :=
  let '(bank, generation) := Snapshot (b_Publisher (l_backend l)) in
  sink_call l (sink_WriteControlV3 enabled flags bank generation routingMark) k.

Definition ApplyControlFlags (l : Lifecycle) (enableIPv4 enableIPv6 enableTCP enableUDP dnsHijack : bool)
    (routingMark : Z) (k : K) : Lifecycle * K * result unit :=
  let flags := ControlFlags (l_options l) enableIPv4 enableIPv6 enableTCP enableUDP dnsHijack in
  let flags := if l_macQuarantined l then flags &^ FlagMACSource else flags in
  let enabled := enabled_now l && negb (l_dataplaneQuarantined l) in
  match write_control l enabled flags routingMark k with
  | (k, Err e) => (l, k, Err e)
  | (k, Ok _) =>
      let c := b_Control (l_backend l) in
      let c := mkControl ABIVersion (if enabled then 1 else 0) flags (c_ActiveBank c) (c_PolicyGeneration c)
                 routingMark (c_Reserved0 c) (c_Reserved1 c) (c_Reserved2 c) in
      (with_backend l (set_Control (l_backend l) c), k, Ok tt)
  end.

(** A compiled rule the DIRECT-only kernel surface can carry unchanged. *)
Definition publishable (p : CompiledPolicy) : bool :=
  let v := cp_Value p in
  (pv_Verdict v =? VerdictDirect) && (pv_MatchProtocol v =? 0)
  && (pv_MatchDPortMin v =? 0) && (pv_MatchDPortMax v =? 0).

(** The loop that splits the compiled policies. *)
Fixpoint split_direct (compiled : list CompiledPolicy) (direct : list CompiledPolicy) (rej : list CompileInput)
    : list CompiledPolicy * list CompileInput :=
  match compiled with
  | [] => (direct, rej)
  | p :: compiled =>
      if publishable p then split_direct compiled (direct ++ [p]) rej
      else split_direct compiled direct
             (rej ++ [mkCompileInput (cp_Prefix p) 0 0 0 (pv_Verdict (cp_Value p)) RuleKindNeedsControl
                        (pv_PolicyID (cp_Value p)) false false false false false])
  end.

(** The second half of both publications: the model is staged, the kernel is
    written, and the stage is committed or, on a kernel error, aborted. *)
Definition publish_prepared (l : Lifecycle) (b : MemoryBackend) (prepared : PreparedStatic)
    (prefixes : list Prefix) (k : K) : Lifecycle * K * result unit :=
  match sink_call l (sink_PublishStaticDirect prefixes 0 0) k with
  | (k, Err e) => (with_backend l (AbortPreparedStatic b prepared).1, k, Err e)
  | (k, Ok _) => (with_backend l (CommitPreparedStatic b prepared).1, k, Ok tt)
  end.

(** [PublishStaticRules]: accepted and rejected counts with the error. *)
Definition PublishStaticRules (l : Lifecycle) (inputs : list CompileInput) (k : K)
    : Lifecycle * K * (Z * Z * result unit) :=
  if negb (po_Enabled (po l)) || negb (po_StaticRules (po l))
  then (l, k, (0, Z.of_nat (length inputs), Ok tt))
  else
    let '(compiled, rej) := CompileStatic inputs (c_PolicyGeneration (b_Control (l_backend l))) in
    let '(direct, rej) := split_direct compiled [] rej in
    match PrepareStatic (l_backend l) direct with
    | (b, Err e) => (with_backend l b, k, (0, 0, Err e))
    | (b, Ok prepared) =>
        let '(l, k, r) := publish_prepared l b prepared (cp_Prefix <$> direct) k in
        (l, k, (Z.of_nat (length direct), Z.of_nat (length rej), r))
    end.

Definition disableMACSourceLocked (l : Lifecycle) (k : K) : Lifecycle * K * result unit :=
  let c := b_Control (l_backend l) in
  let flags := c_Flags c &^ FlagMACSource in
  match write_control l (enabled_now l) flags (c_RoutingMark c) k with
  | (k, Err e) => (l, k, Err e)
  | (k, Ok _) => (with_backend l (set_Control (l_backend l) (control_with_flags c flags)), k, Ok tt)
  end.

Definition invalidateGenerationLocked (l : Lifecycle) (k : K) : Lifecycle * K * result unit :=
  if l_bound l then
    match sink_InvalidateFlowDirect k with
    | (k, Err e) => (l, k, Err e)
    | (k, Ok _) =>
        let generation := sink_PolicyGeneration k in
        if generation =? 0 then (l, k, Err "kernel invalidation returned zero generation")
        else (with_backend l (adopt_generation (l_backend l) generation), k, Ok tt)
    end
  else
    let generation := next_generation (c_PolicyGeneration (b_Control (l_backend l))) in
    (with_backend l (adopt_generation (l_backend l) generation), k, Ok tt).

(** [errors.Join]: the messages, one per line. *)
Definition join_errors (es : list string) : string :=
  match es with [] => "" | e :: es => fold_left (λ acc e, String.append acc (String (ascii_of_nat 10) e)) es e end.

Definition recoverMACPublishFailureLocked (l : Lifecycle) (cause : string) (k : K) : Lifecycle * K * result unit :=
  let l := with_macQuarantined l true in
  match disableMACSourceLocked l k with
  | (l, k, Ok _) => (l, k, Err cause)
  | (l, k, Err disableErr) =>
      if negb (l_bound l) then (l, k, Err (join_errors [cause; disableErr]))
      else
        match invalidateGenerationLocked l k with
        | (l, k, Ok _) => (l, k, Err (join_errors [cause; disableErr]))
        | (l, k, Err invalidateErr) =>
            let l := with_dataplaneQuarantined l true in
            let l := with_backend l (set_Control (l_backend l) (control_with_enabled (b_Control (l_backend l)) 0)) in
            match sink_Disable k with
            | (k, Ok _) => (l, k, Err (join_errors [cause; disableErr; invalidateErr]))
            | (k, Err wholeErr) => (l, k, Err (join_errors [cause; disableErr; invalidateErr; wholeErr]))
            end
        end
  end.

(** The preflight set of the distinct non-zero keys. *)
Fixpoint unique_keys (entries : list MACPolicyEntry) (unique : gset MACKey) : gset MACKey :=
  match entries with
  | [] => unique
  | e :: entries =>
      unique_keys entries (if bool_decide (me_Key e = zeroMACKey) then unique else {[me_Key e]} ∪ unique)
  end.

Definition PublishMACSourcePolicies (l : Lifecycle) (entries : list MACPolicyEntry) (k : K) : Lifecycle * K * result unit :=
  if negb (po_Enabled (po l)) || negb (po_MACSourcePolicy (po l)) then (l, k, Ok tt)
  else
    let wasQuarantined := l_macQuarantined l in
    if MaxSourcePolicies <? Z.of_nat (size (unique_keys entries ∅))
    then (l, k, Err "mac source policy exceeds map capacity")
    else
      match sink_call l (sink_PublishMACPolicies entries) k with
      | (k, Err e) => recoverMACPublishFailureLocked l e k
      | (k, Ok _) =>
          match EbpfBackend.PublishMACPolicies (l_backend l) entries with
          | (b, Err e) => recoverMACPublishFailureLocked (with_backend l b) e k
          | (b, Ok _) =>
              let l := with_backend l b in
              if wasQuarantined then
                let c := b_Control (l_backend l) in
                let flags := c_Flags c .| FlagMACSource in
                match write_control l (enabled_now l) flags (c_RoutingMark c) k with
                | (k, Err e) => (with_macQuarantined l true, k, Err e)
                | (k, Ok _) =>
                    let l := with_backend l (set_Control (l_backend l) (control_with_flags c flags)) in
                    (with_macQuarantined l false, k, Ok tt)
                end
              else (with_macQuarantined l false, k, Ok tt)
          end
      end.

(** The loop of [PublishStaticDirect]: masked, valid, first occurrences. *)
Fixpoint normalize_prefixes (prefixes : list Prefix) (seen : gset Prefix) (acc : list Prefix) : list Prefix :=
  match prefixes with
  | [] => acc
  | p :: prefixes =>
      let p := masked p in
      if negb (prefix_is_valid p) then normalize_prefixes prefixes seen acc
      else if bool_decide (p ∈ seen) then normalize_prefixes prefixes seen acc
      else normalize_prefixes prefixes ({[p]} ∪ seen) (acc ++ [p])
  end.

Definition direct_policy (p : Prefix) : CompiledPolicy :=
  mkCompiledPolicy p (mkPolicyValue VerdictDirect SourceStatic ConfidenceStrong 0 ReasonStaticDirect 0 0 0 0 0).

Definition PublishStaticDirect (l : Lifecycle) (prefixes : list Prefix) (k : K) : Lifecycle * K * result unit :=
  let normalized := normalize_prefixes prefixes ∅ [] in
  match PrepareStatic (l_backend l) (direct_policy <$> normalized) with
  | (b, Err e) => (with_backend l b, k, Err e)
  | (b, Ok prepared) => publish_prepared l b prepared normalized k
  end.

(** [MergeDynamicDirect]: [t0] is the clock of the validation, [t1] and [t2]
    those of the merge. *)
Definition lifecycle_MergeDynamicDirect (l : Lifecycle) (prefix : Prefix) (ttl t0 t1 t2 : Z) (k : K) : Lifecycle * K * result unit :=
  if negb (po_Enabled (po l)) then (l, k, Ok tt)
  else
    match ValidateDynamicDirect (l_backend l) prefix t0 with
    | Err e => (l, k, Err e)
    | Ok canonical =>
        match sink_call l (sink_MergeDynamicDirect canonical ttl) k with
        | (k, Err e) => (l, k, Err e)
        | (k, Ok _) =>
            match MergeDynamicDirect (l_backend l) canonical ttl t1 t2 with
            | (b, Ok _) => (with_backend l b, k, Ok tt)
            | (b, Err e) =>
                let l := with_backend l b in
                if l_bound l then
                  match invalidateGenerationLocked l k with
                  | (l, k, Err e2) => (l, k, Err (join_errors [e; e2]))
                  | (l, k, Ok _) => (l, k, Err e)
                  end
                else (l, k, Err e)
            end
        end
    end.

Definition RevokeMergedStaticDirect (l : Lifecycle) (prefix : Prefix) (k : K) : Lifecycle * K * result unit :=
  match sink_call l (sink_DeleteMergedStaticDirect prefix) k with
  | (k, Err e) => (l, k, Err e)
  | (k, Ok _) => let '(b, r) := DeleteMergedStaticDirect (l_backend l) prefix in (with_backend l b, k, r)
  end.

Definition learn_request (l : Lifecycle) (client dest : AddrPort) (protocol : Z) : FlowPublishRequest :=
  mkFlowPublishRequest client dest protocol VerdictDirect true 0 (l_flowTTL l) "".

Definition LearnFlow (l : Lifecycle) (client dest : AddrPort) (protocol : Z) (bareDirect : bool) (now : Z)
    (visit : gmap FlowKey FlowValue → list (FlowKey * FlowValue)) (k : K) : Lifecycle * K * result unit :=
  if negb (po_Enabled (po l)) || negb (po_ExactFlowLearning (po l)) then (l, k, Ok tt)
  else if negb bareDirect then (l, k, Ok tt)
  else
    let request := learn_request l client dest protocol in
    match BuildFlowPair request (c_PolicyGeneration (b_Control (l_backend l))) 1 with
    | Err e => (l, k, Err e)
    | Ok _ =>
        match sink_call l (sink_PutDirectFlow protocol client dest (l_flowTTL l)) k with
        | (k, Err e) => (l, k, Err e)
        | (k, Ok _) =>
            let '(b, r) := PublishFlow (l_backend l) request (u64 (unix_nano now)) visit in
            (with_backend l b, k, r)
        end
    end.

Definition lifecycle_RevokeFlow (l : Lifecycle) (client dest : AddrPort) (protocol : Z) (k : K) : Lifecycle * K * result unit :=
  match BuildFlowPair (mkFlowPublishRequest client dest protocol VerdictProxy false 0 0 "")
          (c_PolicyGeneration (b_Control (l_backend l))) 1 with
  | Err e => (l, k, Err e)
  | Ok _ =>
      match sink_call l (sink_DeleteDirectFlow protocol client dest) k with
      | (k, Err e) => (l, k, Err e)
      | (k, Ok _) =>
          let '(b, r) := RevokeFlow (l_backend l) client dest protocol in (with_backend l b, k, r)
      end
  end.

(** [ObserveDNS]; [clock] is read when [now] is the zero time. *)
Definition ObserveDNS (l : Lifecycle) (addr : Addr) (direct : bool) (evidence ttl now clock : Z)
    (order : list (DNSIPKey * DNSIPValue)) (k : K) : Lifecycle * K * result unit :=
  if negb (po_Enabled (po l)) then (l, k, Ok tt)
  else
    match addrBytes addr with
    | Err _ => (l, k, Ok tt)
    | Ok (family, raw) =>
        let ttl := if ttl <=? 0 then minute else ttl in
        let now := if time_is_zero now then clock else now in
        let expire := u64 (unix_nano (now + ttl)) in
        match sink_call l (sink_PublishDNSHint addr direct evidence 0 ttl) k with
        | (k, Err e) => (l, k, Err e)
        | (k, Ok _) =>
            let b := l_backend l in
            let dns := (hints_Observe (b_DNS b) (mkDNSIPKey family 0 0 raw) direct evidence 0
                          (c_PolicyGeneration (b_Control b)) expire (u64 (unix_nano now)) order).1 in
            (with_backend l (set_DNS b dns), k, Ok tt)
        end
    end.

Definition lifecycle_Close (l : Lifecycle) : Lifecycle :=
  with_backend l (set_Control (l_backend l) (control_with_enabled (b_Control (l_backend l)) 0)).

(** ** One operation of the lifecycle *)

Inductive lifecycle_op : Type :=
| OpSyncPolicyGeneration (generation : Z)
| OpApplyControlFlags (ipv4 ipv6 tcp udp dnsHijack : bool) (routingMark : Z)
| OpPublishStaticRules (inputs : list CompileInput)
| OpPublishMACSourcePolicies (entries : list MACPolicyEntry)
| OpPublishStaticDirect (prefixes : list Prefix)
| OpMergeDynamicDirect (prefix : Prefix) (ttl t0 t1 t2 : Z)
| OpRevokeMergedStaticDirect (prefix : Prefix)
| OpLearnFlow (client dest : AddrPort) (protocol : Z) (bareDirect : bool) (now : Z)
    (visit : gmap FlowKey FlowValue → list (FlowKey * FlowValue))
| OpRevokeFlow (client dest : AddrPort) (protocol : Z)
| OpObserveDNS (addr : Addr) (direct : bool) (evidence ttl now clock : Z) (order : list (DNSIPKey * DNSIPValue))
| OpInvalidateGeneration
| OpClose.

Definition run_op (op : lifecycle_op) (l : Lifecycle) (k : K) : Lifecycle * K * result unit :=
  match op with
  | OpSyncPolicyGeneration g => (syncPolicyGenerationLocked l g, k, Ok tt)
  | OpApplyControlFlags a b c d e m => ApplyControlFlags l a b c d e m k
  | OpPublishStaticRules inputs =>
      let '(l, k, (_, _, r)) := PublishStaticRules l inputs k in (l, k, r)
  | OpPublishMACSourcePolicies entries => PublishMACSourcePolicies l entries k
  | OpPublishStaticDirect prefixes => PublishStaticDirect l prefixes k
  | OpMergeDynamicDirect prefix ttl t0 t1 t2 => lifecycle_MergeDynamicDirect l prefix ttl t0 t1 t2 k
  | OpRevokeMergedStaticDirect prefix => RevokeMergedStaticDirect l prefix k
  | OpLearnFlow c d p bare now visit => LearnFlow l c d p bare now visit k
  | OpRevokeFlow c d p => lifecycle_RevokeFlow l c d p k
  | OpObserveDNS a d e ttl now clock order => ObserveDNS l a d e ttl now clock order k
  | OpInvalidateGeneration => invalidateGenerationLocked l k
  | OpClose => (lifecycle_Close l, k, Ok tt)
  end.

Definition run_ops (ops : list lifecycle_op) (lk : Lifecycle * K) : Lifecycle * K :=
  foldl (λ lk op, (run_op op lk.1 lk.2).1) lk ops.
End lifecycle.

(** ** Observing the kernel calls

    [logging_sink] wraps any sink and records every mutating call with whether
    it succeeded, so that a theorem can speak of what reached the kernel. *)

Inductive sink_event : Type :=
| EvPublishStaticDirect (prefixes : list Prefix) (ok : bool)
| EvMergeDynamicDirect (prefix : Prefix) (ok : bool)
| EvPutDirectFlow (protocol : Z) (source destination : AddrPort) (ok : bool)
| EvDeleteDirectFlow (protocol : Z) (source destination : AddrPort) (ok : bool)
| EvPublishDNSHint (addr : Addr) (direct : bool) (ok : bool)
| EvPublishMACPolicies (entries : list MACPolicyEntry) (ok : bool)
| EvDeleteMergedStaticDirect (prefix : Prefix) (ok : bool)
| EvWriteControl (enabled : bool) (flags bank generation mark : Z) (ok : bool)
| EvInvalidateFlowDirect (ok : bool)
| EvDisable (ok : bool).

Definition event_ok (e : sink_event) : bool :=
  match e with
  | EvPublishStaticDirect _ ok | EvMergeDynamicDirect _ ok | EvPutDirectFlow _ _ _ ok
  | EvDeleteDirectFlow _ _ _ ok | EvPublishDNSHint _ _ ok | EvPublishMACPolicies _ ok
  | EvDeleteMergedStaticDirect _ ok | EvWriteControl _ _ _ _ _ ok | EvInvalidateFlowDirect ok
  | EvDisable ok => ok
  end.

Definition logged {K} (ev : bool → sink_event) (f : K → K * result unit) (x : K * list sink_event)
    : (K * list sink_event) * result unit :=
  let '(k, r) := f x.1 in ((k, app x.2 [ev (is_ok r)]), r).

Definition logging_sink {K : Type} (S : DataplaneSink K) : DataplaneSink (K * list sink_event) := {|
  sink_PublishStaticDirect ps g b := logged (EvPublishStaticDirect ps) (sink_PublishStaticDirect ps g b);
  sink_MergeDynamicDirect p ttl := logged (EvMergeDynamicDirect p) (sink_MergeDynamicDirect p ttl);
  sink_PutDirectFlow p s d ttl := logged (EvPutDirectFlow p s d) (sink_PutDirectFlow p s d ttl);
  sink_DeleteDirectFlow p s d := logged (EvDeleteDirectFlow p s d) (sink_DeleteDirectFlow p s d);
  sink_PublishDNSHint a d e g ttl := logged (EvPublishDNSHint a d) (sink_PublishDNSHint a d e g ttl);
  sink_PublishMACPolicies es := logged (EvPublishMACPolicies es) (sink_PublishMACPolicies es);
  sink_DeleteMergedStaticDirect p := logged (EvDeleteMergedStaticDirect p) (sink_DeleteMergedStaticDirect p);
  sink_WriteControlV3 en fl bank g mark := logged (EvWriteControl en fl bank g mark) (sink_WriteControlV3 en fl bank g mark);
  sink_InvalidateFlowDirect := logged EvInvalidateFlowDirect sink_InvalidateFlowDirect;
  sink_Disable := logged EvDisable sink_Disable;
  sink_PolicyGeneration x := sink_PolicyGeneration x.1 |}.

(** ** Frame lemmas *)

Lemma with_backend_same l : with_backend l (l_backend l) = l.
Proof. by destruct l. Qed.

Lemma AbortPreparedStatic_restores b ps b' p :
  PrepareStatic b ps = (b', Ok p) → (AbortPreparedStatic b' p).1 = b.
Proof.
  intros (Hc & -> & _ & Hlive & _)%PrepareStatic_Ok. unfold AbortPreparedStatic. rewrite Hlive.
  destruct b, b_Publisher; simpl in *. by subst.
Qed.

(** Whether a flow pair can be built depends on the tuple and the verdict. *)
Lemma BuildFlowPair_is_ok req g x g' x' :
  is_ok (BuildFlowPair req g x) = is_ok (BuildFlowPair req g' x').
Proof.
  unfold BuildFlowPair. repeat (case_match; [done|]).
  destruct (addrBytes (ap_Addr (fr_Client req))) as [[f sa]|]; [|done].
  destruct (addrBytes (ap_Addr (fr_Destination req))) as [[df da]|]; [|done]. simpl.
  case_match; [done|]. by destruct (flow_reason (fr_Verdict req)) as [[r c]|].
Qed.

(** Once validated at [t0], a merge at later clock readings cannot fail. *)
Lemma Merge_after_Validate b prefix canonical ttl t0 t1 t2 :
  backend_inv b → prefix_wf prefix → t0 ≤ t2 → ValidateDynamicDirect b prefix t0 = Ok canonical →
  ∃ b', MergeDynamicDirect b canonical ttl t1 t2 = (b', Ok tt).
Proof.
  intros Hi Hwf Ht Hval. unfold ValidateDynamicDirect in Hval.
  destruct (CanonicalPrefix prefix) as [q|] eqn:Eq; simpl in Hval; [|done].
  pose proof (canonical_ledger _ _ Hwf Eq) as El. rewrite El in Hval. simpl in Hval.
  set (l := if is6 (prefix_addr q) then Ledger6 else Ledger4) in *.
  assert (canonical = q) as -> by (repeat case_match; by simplify_eq).
  unfold MergeDynamicDirect. rewrite (CanonicalPrefix_idem _ _ Hwf Eq), El, drop_expired_live.
  destruct (ledger_live (get_ledger b l) q t2) eqn:E2; [eauto|].
  assert (drop_expired t2 (get_ledger b l) ⊆ drop_expired t0 (get_ledger b l)) as Hsub.
  { apply map_subseteq_spec. intros p x [Hp Hx]%drop_expired_lookup. apply drop_expired_lookup. split; [done|lia]. }
  pose proof (map_subseteq_size _ _ Hsub) as Hsz.
  destruct (DefaultDynamicDirect <=? Z.of_nat (size (drop_expired t2 (get_ledger b l)))) eqn:Ec; [|eauto].
  exfalso. boolprop. destruct (ledger_of_inv b l Hi) as [_ Hcap].
  pose proof (drop_expired_size t0 (get_ledger b l)).
  destruct (ledger_live (get_ledger b l) q t0) eqn:E0.
  - unfold ledger_live in E0, E2. destruct (get_ledger b l !! q) as [x|] eqn:Ex; [|done].
    assert (drop_expired t2 (get_ledger b l) ⊂ drop_expired t0 (get_ledger b l)) as Hss.
    { apply map_subset_alt. split; [done|]. exists q. split.
      - apply eq_None_not_Some. intros [y [Hy Hy']%drop_expired_lookup]. rewrite Hy in Ex. simplify_eq.
        unfold time_after in E2. boolprop. lia.
      - exists x. apply drop_expired_lookup. unfold time_after in E0. by boolprop. }
    apply map_subset_size in Hss. lia.
  - rewrite <- drop_expired_count in Hval.
    destruct (DefaultDynamicDirect <=? Z.of_nat (size (drop_expired t0 (get_ledger b l)))) eqn:Ev; [done|]. boolprop. lia.
Qed.

(** ** Transactions *)

(** The operations that dual-write a model change and one kernel change. *)
Definition transactional (op : lifecycle_op) : bool :=
  match op with
  | OpPublishStaticRules _ | OpPublishStaticDirect _ | OpMergeDynamicDirect _ _ _ _ _
  | OpLearnFlow _ _ _ _ _ _ | OpRevokeFlow _ _ _ | OpObserveDNS _ _ _ _ _ _ _ => true
  | _ => false
  end.

(** Inputs as the callers build them: prefixes from [netip] constructors, a
    clock that does not run backwards, range orders of the maps they scan. *)
Definition op_wf (op : lifecycle_op) (l : Lifecycle) : Prop :=
  match op with
  | OpMergeDynamicDirect p _ t0 t1 t2 => prefix_wf p ∧ t0 ≤ t1 ≤ t2
  | OpPublishStaticRules inputs => Forall (λ i, prefix_wf (ci_Destination i)) inputs
  | OpPublishStaticDirect ps => Forall prefix_wf ps
  | OpLearnFlow _ _ _ _ _ visit => ∀ m, range_of m (visit m)
  | OpObserveDNS _ _ _ _ now clock order =>
      range_of (ht_entries (hints_prune (b_DNS (l_backend l))
        (u64 (unix_nano (if time_is_zero now then clock else now))))) order
  | OpSyncPolicyGeneration g => fits 32 g
  | _ => True
  end.

(** What a dual write may look like from outside: nothing happened; or the
    kernel refused and the model is unchanged; or both sides accepted. *)
Definition lockstep (l l' : Lifecycle) (evs : list sink_event) (r : result unit) : Prop :=
  (evs = [] ∧ l' = l) ∨
  (∃ e, evs = [e] ∧ event_ok e = false ∧ is_ok r = false ∧ l' = l) ∨
  (∃ e, evs = [e] ∧ event_ok e = true ∧ is_ok r = true).

Section transactions.
Context {K : Type} (S : DataplaneSink K).
#[local] Existing Instance logging_sink.
#[local] Existing Instance S.
Implicit Types (l : Lifecycle) (k : K) (tr : list sink_event).

Lemma sink_call_logged l ev (f : K → K * result unit) k tr :
  l_bound l = true →
  ∃ k' r, sink_call l (logged ev f) (k, tr) = ((k', app tr [ev (is_ok r)]), r) ∧ f k = (k', r).
Proof.
  intros Hb. unfold sink_call, logged. rewrite Hb. simpl. destruct (f k) as [k' r]. eauto.
Qed.

Lemma publish_prepared_lockstep l ps b p prefixes k tr :
  l_bound l = true → PrepareStatic (l_backend l) ps = (b, Ok p) →
  ∃ l' k' evs r, publish_prepared l b p prefixes (k, tr) = (l', (k', app tr evs), r) ∧ lockstep l l' evs r.
Proof.
  intros Hb Hp. unfold publish_prepared. simpl.
  destruct (sink_call_logged l (EvPublishStaticDirect prefixes) (sink_PublishStaticDirect prefixes 0 0) k tr Hb) as (k' & r & -> & _).
  destruct r as [u|e]; do 4 eexists; (split; [reflexivity|]).
  - right; right; eauto.
  - right; left. eexists; split_and!; [done..|]. by rewrite (AbortPreparedStatic_restores _ _ _ _ Hp), with_backend_same.
Qed.

Lemma lockstep_nothing l k tr r :
  ∃ l' k' evs r', (l, (k, tr), r) = (l', (k', app tr evs), r') ∧ lockstep l l' evs r'.
Proof. exists l, k, [], r. rewrite app_nil_r. split; [done|]. by left. Qed.

(** One kernel call followed by a model step that cannot fail. *)
Lemma lockstep_call l ev (f : K → K * result unit) (step : MemoryBackend) k tr :
  l_bound l = true → (∀ ok, event_ok (ev ok) = ok) →
  ∃ l' k' evs r',
    match sink_call l (logged ev f) (k, tr) with
    | (x, Err e) => (l, x, Err e)
    | (x, Ok _) => (with_backend l step, x, Ok tt)
    end = (l', (k', app tr evs), r') ∧ lockstep l l' evs r'.
Proof.
  intros Hb Hev. destruct (sink_call_logged l ev f k tr Hb) as (k' & r & -> & _).
  destruct r as [u|e]; do 4 eexists; (split; [reflexivity|]).
  - right; right; eauto.
  - right; left; eauto.
Qed.

Lemma PrepareStatic_failed_nothing l ps b e k tr :
  PrepareStatic (l_backend l) ps = (b, Err e) →
  ∃ l' k' evs r', (with_backend l b, (k, tr), Err e : result unit) = (l', (k', app tr evs), r') ∧ lockstep l l' evs r'.
Proof. intros ->%PrepareStatic_Err. rewrite with_backend_same. apply lockstep_nothing. Qed.

Lemma lockstep_static_rules inputs l k tr :
  l_bound l = true →
  ∃ l' k' evs r, run_op (OpPublishStaticRules inputs) l (k, tr) = (l', (k', app tr evs), r) ∧ lockstep l l' evs r.
Proof.
  intros Hb. unfold run_op, PublishStaticRules.
  destruct (negb (po_Enabled (po l)) || negb (po_StaticRules (po l))); [apply lockstep_nothing|].
  destruct (CompileStatic _ _) as [compiled rej]. destruct (split_direct compiled [] rej) as [direct rej'].
  destruct (PrepareStatic (l_backend l) direct) as [b [p|e]] eqn:Ep.
  - destruct (publish_prepared_lockstep l direct b p (cp_Prefix <$> direct) k tr Hb Ep) as (l' & k' & evs & r & -> & Hl).
    eauto 10.
  - by eapply PrepareStatic_failed_nothing.
Qed.

Lemma lockstep_static_direct prefixes l k tr :
  l_bound l = true →
  ∃ l' k' evs r, run_op (OpPublishStaticDirect prefixes) l (k, tr) = (l', (k', app tr evs), r) ∧ lockstep l l' evs r.
Proof.
  intros Hb. unfold run_op, PublishStaticDirect. cbv zeta.
  destruct (PrepareStatic (l_backend l) _) as [b [p|e]] eqn:Ep.
  - by eapply publish_prepared_lockstep.
  - by eapply PrepareStatic_failed_nothing.
Qed.

Lemma lockstep_merge prefix ttl t0 t1 t2 l k tr :
  l_bound l = true → backend_inv (l_backend l) → prefix_wf prefix → t0 ≤ t1 ≤ t2 →
  ∃ l' k' evs r, run_op (OpMergeDynamicDirect prefix ttl t0 t1 t2) l (k, tr) = (l', (k', app tr evs), r) ∧ lockstep l l' evs r.
Proof.
  intros Hb Hi Hwf Ht. unfold run_op, lifecycle_MergeDynamicDirect. case_match; [apply lockstep_nothing|].
  destruct (ValidateDynamicDirect (l_backend l) prefix t0) as [q|] eqn:Ev; [|apply lockstep_nothing].
  assert (t0 ≤ t2) as Ht02 by lia.
  destruct (Merge_after_Validate _ _ _ ttl _ t1 t2 Hi Hwf Ht02 Ev) as [b' ->].
  by apply (lockstep_call l (EvMergeDynamicDirect q) (sink_MergeDynamicDirect q ttl)).
Qed.

Lemma lockstep_learn client dest protocol bare now visit l k tr :
  l_bound l = true →
  ∃ l' k' evs r, run_op (OpLearnFlow client dest protocol bare now visit) l (k, tr) = (l', (k', app tr evs), r) ∧ lockstep l l' evs r.
Proof.
  intros Hb. unfold run_op, LearnFlow. case_match; [apply lockstep_nothing|]. case_match; [apply lockstep_nothing|].
  cbv zeta. set (req := learn_request l client dest protocol).
  destruct (BuildFlowPair req _ 1) as [p|] eqn:Ep; [|apply lockstep_nothing].
  assert (∃ b', PublishFlow (l_backend l) req (u64 (unix_nano now)) visit = (b', Ok tt)) as [b' ->].
  { unfold PublishFlow. pose proof (BuildFlowPair_is_ok req (c_PolicyGeneration (b_Control (l_backend l))) 1
      (c_PolicyGeneration (b_Control (l_backend l))) (flow_expire req (u64 (unix_nano now)))) as Hok.
    rewrite Ep in Hok. destruct (BuildFlowPair req _ (flow_expire _ _)); [|done].
    destruct (prune_flows _ _). eauto. }
  by apply (lockstep_call l (EvPutDirectFlow protocol client dest) (sink_PutDirectFlow protocol client dest (l_flowTTL l))).
Qed.

Lemma lockstep_revoke client dest protocol l k tr :
  l_bound l = true →
  ∃ l' k' evs r, run_op (OpRevokeFlow client dest protocol) l (k, tr) = (l', (k', app tr evs), r) ∧ lockstep l l' evs r.
Proof.
  intros Hb. unfold run_op, lifecycle_RevokeFlow.
  destruct (BuildFlowPair _ _ 1) as [p|] eqn:Ep; [|apply lockstep_nothing].
  unfold RevokeFlow. rewrite Ep.
  by apply (lockstep_call l (EvDeleteDirectFlow protocol client dest) (sink_DeleteDirectFlow protocol client dest)).
Qed.

Lemma lockstep_observe addr direct evidence ttl now clock order l k tr :
  l_bound l = true →
  ∃ l' k' evs r, run_op (OpObserveDNS addr direct evidence ttl now clock order) l (k, tr) = (l', (k', app tr evs), r) ∧ lockstep l l' evs r.
Proof.
  intros Hb. unfold run_op, ObserveDNS. case_match; [apply lockstep_nothing|].
  destruct (addrBytes addr) as [[family raw]|]; [|apply lockstep_nothing]. cbv zeta.
  by eapply (lockstep_call l (EvPublishDNSHint addr direct) (sink_PublishDNSHint addr direct evidence 0 (if ttl <=? 0 then minute else ttl))).
Qed.
End transactions.

(** ** What reaches the kernel's control word *)

Definition emits {K} (P : sink_event → Prop) (x x' : K * list sink_event) : Prop :=
  ∃ evs, x'.2 = app x.2 evs ∧ Forall P evs.

Definition is_control (e : sink_event) : bool :=
  match e with EvWriteControl _ _ _ _ _ _ => true | _ => false end.
(** A control write that enables the dataplane. *)
Definition enabling (e : sink_event) : bool :=
  match e with EvWriteControl en _ _ _ _ _ => en | _ => false end.
(** A control write that turns the MAC lookup on. *)
Definition mac_enabling (e : sink_event) : bool :=
  match e with EvWriteControl _ flags _ _ _ _ => Z.testbit flags 11 | _ => false end.

Section emits.
Context {K : Type}.
Implicit Types (x : K * list sink_event) (P : sink_event → Prop).

#[global] Instance emits_preorder P : PreOrder (@emits K P).
Proof.
  split.
  - intros x. exists []. by rewrite app_nil_r.
  - intros x y z (e1 & H1 & F1) (e2 & H2 & F2). exists (app e1 e2).
    rewrite H2, H1, (assoc app). split; [done | by apply Forall_app].
Qed.

Lemma emits_impl P Q x x' : (∀ e, P e → Q e) → emits P x x' → emits Q x x'.
Proof. intros HPQ (evs & He & HF). exists evs. split; [done|]. by eapply Forall_impl. Qed.

Lemma logged_emits P ev (f : K → K * result unit) x x' r :
  (∀ ok, P (ev ok)) → logged ev f x = (x', r) → emits P x x'.
Proof.
  intros HP. unfold logged. destruct (f x.1). intros [= <- <-]. eexists. split; [done|]. by constructor.
Qed.

Lemma sink_call_emits P l ev (f : K → K * result unit) x x' r :
  (∀ ok, P (ev ok)) → sink_call l (logged ev f) x = (x', r) → emits P x x'.
Proof.
  intros HP. unfold sink_call. case_match; [by apply logged_emits|]. by intros [= <- <-].
Qed.
End emits.

Definition enabled_word (l : Lifecycle) : Z := c_Enabled (b_Control (l_backend l)).

(** Both quarantine bits and the enable word are as before. *)
Definition fuse_same (l l' : Lifecycle) : Prop :=
  l_dataplaneQuarantined l' = l_dataplaneQuarantined l ∧ l_macQuarantined l' = l_macQuarantined l ∧
  enabled_word l' = enabled_word l ∧ l_bound l' = l_bound l.

#[global] Instance fuse_same_preorder : PreOrder fuse_same.
Proof. unfold fuse_same. split; [done|]. intros x y z (?&?&?&?) (?&?&?&?). split_and!; congruence. Qed.

Lemma with_backend_fuse l b : c_Enabled (b_Control b) = enabled_word l → fuse_same l (with_backend l b).
Proof. done. Qed.

Lemma same_core_enabled b b' : same_core b b' → c_Enabled (b_Control b') = c_Enabled (b_Control b).
Proof. by intros (-> & _). Qed.

Lemma adopt_generation_control b g :
  b_Control (adopt_generation b g) = control_with_generation (b_Control b) g ∧
  b_Publisher (adopt_generation b g) = SyncGeneration (b_Publisher b) g ∧
  b_Policy4 (adopt_generation b g) = b_Policy4 b ∧ b_Policy6 (adopt_generation b g) = b_Policy6 b.
Proof.
  unfold adopt_generation, InvalidateGeneration.
  match goal with |- context [invalidateGenerationMaps ?x g] => pose proof (invalidate_frame x g) as (-> & -> & -> & ->) end.
  done.
Qed.

Section fuse.
Context {K : Type} (S : DataplaneSink K).
#[local] Existing Instance logging_sink.
#[local] Existing Instance S.
Implicit Types (l : Lifecycle) (x : K * list sink_event).

Definition not_control (e : sink_event) : Prop := is_control e = false.

Lemma publish_prepared_quiet l ps b p prefixes x l' x' r :
  PrepareStatic (l_backend l) ps = (b, Ok p) → publish_prepared l b p prefixes x = (l', x', r) →
  emits not_control x x' ∧ fuse_same l l'.
Proof.
  intros Hp. unfold publish_prepared. simpl.
  destruct (sink_call l _ x) as [x1 [u|e]] eqn:E; intros [= <- <- <-];
    (split; [by eapply (sink_call_emits not_control) in E|]); apply with_backend_fuse.
  - apply PrepareStatic_Ok in Hp as (_ & -> & _ & Hlive & _).
    destruct (CommitPreparedStatic_frame (set_Publisher (l_backend l) (mkBankPublisher (bp_active (b_Publisher (l_backend l))) (bp_generation (b_Publisher (l_backend l))) 1)) p Hlive) as (_ & -> & _).
    done.
  - by rewrite (AbortPreparedStatic_restores _ _ _ _ Hp).
Qed.

Lemma invalidate_quiet l x l' x' r :
  invalidateGenerationLocked l x = (l', x', r) → emits not_control x x' ∧ fuse_same l l'.
Proof.
  unfold invalidateGenerationLocked. simpl.
  assert (∀ g, fuse_same l (with_backend l (adopt_generation (l_backend l) g))) as Ha.
  { intros g. apply with_backend_fuse. by destruct (adopt_generation_control (l_backend l) g) as (-> & _). }
  destruct (l_bound l).
  - destruct (logged _ _ x) as [x1 [u|e]] eqn:E; apply (logged_emits not_control) in E; try done;
      [case_match|]; intros [= <- <- <-]; by split.
  - intros [= <- <- <-]. by split.
Qed.

Definition control_op (op : lifecycle_op) : bool :=
  match op with
  | OpApplyControlFlags _ _ _ _ _ _ | OpPublishMACSourcePolicies _ | OpClose => true
  | _ => false
  end.

(** Closes a branch of a dual write: the kernel call is no control write and
    the model step keeps the enable word. *)
Ltac quiet_call core :=
  match goal with
  | E : sink_call _ _ _ = _ |- _ => apply (sink_call_emits not_control) in E; [|done]
  end; split; [assumption|]; first [done | apply with_backend_fuse; apply same_core_enabled; apply core].

(** Every other operation writes no control word and leaves the fuses alone. *)
Lemma quiet_op op l x l' x' r :
  control_op op = false → run_op op l x = (l', x', r) → emits not_control x x' ∧ fuse_same l l'.
Proof.
  intros Hc. destruct op as [g| |inputs| |prefixes|prefix ttl t0 t1 t2|prefix|c d p bare now visit|c d p|a d e ttl now clock order| |];
    simpl in Hc; try done; unfold run_op.
  - intros [= <- <- <-]. split; [done|]. unfold syncPolicyGenerationLocked. repeat (case_match; [done|]).
    apply with_backend_fuse. by destruct (adopt_generation_control (l_backend l) g) as (-> & _).
  - unfold PublishStaticRules. destruct (_ || _); [intros [= <- <- <-]; by split|].
    destruct (CompileStatic _ _) as [compiled rej]. destruct (split_direct compiled [] rej) as [direct rej'].
    destruct (PrepareStatic (l_backend l) direct) as [b [q|err]] eqn:Ep.
    + destruct (publish_prepared l b q _ x) as [[l1 x1] r1] eqn:E. intros [= <- <- <-].
      by eapply publish_prepared_quiet.
    + intros [= <- <- <-]. apply PrepareStatic_Err in Ep as ->. by rewrite with_backend_same.
  - unfold PublishStaticDirect. cbv zeta. destruct (PrepareStatic (l_backend l) _) as [b [q|err]] eqn:Ep.
    + by apply (publish_prepared_quiet _ _ _ _ _ _ _ _ _ Ep).
    + intros [= <- <- <-]. apply PrepareStatic_Err in Ep as ->. by rewrite with_backend_same.
  - unfold lifecycle_MergeDynamicDirect. case_match; [intros [= <- <- <-]; by split|].
    destruct (ValidateDynamicDirect _ _ _) as [q|]; [|intros [= <- <- <-]; by split]. simpl.
    destruct (sink_call l _ x) as [x1 [u|err]] eqn:E; [|intros [= <- <- <-]; quiet_call tt].
    pose proof (MergeDynamicDirect_core (l_backend l) q ttl t1 t2) as Hm.
    destruct (MergeDynamicDirect (l_backend l) q ttl t1 t2) as [b [u'|err]]; [intros [= <- <- <-]; quiet_call Hm|].
    apply (sink_call_emits not_control) in E; [|done].
    assert (fuse_same l (with_backend l b)) as Hf by (by apply with_backend_fuse, same_core_enabled).
    destruct (l_bound l); simpl; [|intros [= <- <- <-]; by split].
    destruct (invalidateGenerationLocked (with_backend l b) x1) as [[l2 x2] r2] eqn:Ei.
    destruct (invalidate_quiet _ _ _ _ _ Ei) as [He Hs].
    destruct r2; intros [= <- <- <-]; split; by etrans.
  - unfold RevokeMergedStaticDirect. simpl.
    destruct (sink_call l _ x) as [x1 [u|err]] eqn:E; [|intros [= <- <- <-]; quiet_call tt].
    pose proof (DeleteMergedStaticDirect_core (l_backend l) prefix) as Hm.
    destruct (DeleteMergedStaticDirect (l_backend l) prefix) as [b r']. intros [= <- <- <-]. quiet_call Hm.
  - unfold LearnFlow. case_match; [intros [= <- <- <-]; by split|]. case_match; [intros [= <- <- <-]; by split|].
    cbv zeta. destruct (BuildFlowPair _ _ 1); [|intros [= <- <- <-]; by split]. simpl.
    destruct (sink_call l _ x) as [x1 [u|err]] eqn:E; [|intros [= <- <- <-]; quiet_call tt].
    pose proof (PublishFlow_core (l_backend l) (learn_request l c d p) (u64 (unix_nano now)) visit) as Hm.
    destruct (PublishFlow (l_backend l) _ _ visit) as [b r']. intros [= <- <- <-]. quiet_call Hm.
  - unfold lifecycle_RevokeFlow. destruct (BuildFlowPair _ _ 1); [|intros [= <- <- <-]; by split]. simpl.
    destruct (sink_call l _ x) as [x1 [u|err]] eqn:E; [|intros [= <- <- <-]; quiet_call tt].
    pose proof (RevokeFlow_core (l_backend l) c d p) as Hm.
    destruct (RevokeFlow (l_backend l) c d p) as [b r']. intros [= <- <- <-]. quiet_call Hm.
  - unfold ObserveDNS. case_match; [intros [= <- <- <-]; by split|].
    destruct (addrBytes a) as [[family raw]|]; [|intros [= <- <- <-]; by split]. cbv zeta. simpl.
    destruct (sink_call l _ x) as [x1 [u|err]] eqn:E; intros [= <- <- <-]; quiet_call tt.
  - apply invalidate_quiet.
Qed.

Lemma write_control_emits P l enabled flags mark x x' r :
  (∀ bank g ok, P (EvWriteControl enabled flags bank g mark ok)) →
  write_control l enabled flags mark x = (x', r) → emits P x x'.
Proof.
  intros HP. unfold write_control. destruct (Snapshot _) as [bank g]. simpl. intros E.
  by apply (sink_call_emits P) in E.
Qed.

Lemma not_control_enabling e : not_control e → enabling e = false.
Proof. by destruct e. Qed.

Lemma not_control_mac e : not_control e → mac_enabling e = false.
Proof. by destruct e. Qed.

Lemma clear_mac flags : Z.testbit (flags &^ FlagMACSource) 11 = false.
Proof.
  rewrite Z.ldiff_spec. replace (Z.testbit FlagMACSource 11) with true by reflexivity. apply andb_false_r.
Qed.

Lemma disableMAC_spec l x l' x' r :
  disableMACSourceLocked l x = (l', x', r) →
  fuse_same l l' ∧ (l_bound l = false → is_ok r = true) ∧
  (enabled_now l = false → emits (λ e, enabling e = false) x x') ∧
  emits (λ e, mac_enabling e = false) x x' ∧
  (is_ok r = true → Z.testbit (c_Flags (b_Control (l_backend l'))) 11 = false).
Proof.
  unfold disableMACSourceLocked. cbv zeta.
  destruct (write_control l _ _ _ x) as [x1 [u|e]] eqn:E; intros [= <- <- <-]; split_and!; try done.
  all: try (intros Hen; apply (write_control_emits (λ e, enabling e = false)) in E; [done|]; by intros; simpl).
  all: try (apply (write_control_emits (λ e, mac_enabling e = false)) in E; [done|]; intros; apply clear_mac).
  - intros _. apply clear_mac.
  - intros Hb. unfold write_control, sink_call in E. destruct (Snapshot _). rewrite Hb in E. by simplify_eq.
Qed.

(** The recovery of a failed MAC snapshot, whatever the kernel answers. *)
Lemma recoverMAC_spec l cause x l' x' r :
  recoverMACPublishFailureLocked l cause x = (l', x', r) →
  is_ok r = false ∧ l_macQuarantined l' = true ∧ l_bound l' = l_bound l ∧
  (enabled_now l = false → emits (λ e, enabling e = false) x x') ∧
  emits (λ e, mac_enabling e = false) x x' ∧
  (l_dataplaneQuarantined l = true → l_dataplaneQuarantined l' = true) ∧
  ((l_dataplaneQuarantined l' = l_dataplaneQuarantined l ∧ enabled_word l' = enabled_word l) ∨
   (l_dataplaneQuarantined l' = true ∧ enabled_word l' = 0)).
Proof.
  unfold recoverMACPublishFailureLocked. cbv zeta.
  destruct (disableMACSourceLocked _ x) as [[l1 x1] r1] eqn:E1.
  apply disableMAC_spec in E1 as ((F1 & F2 & F3 & F4) & _ & He1 & Hm1 & _). simpl in F1, F2, F4.
  change (enabled_word (with_macQuarantined l true)) with (enabled_word l) in F3.
  destruct r1 as [u|e1]; [intros [= <- <- <-]; split_and!; auto; congruence|].
  destruct (l_bound l1) eqn:Eb; simpl; [|intros [= <- <- <-]; split_and!; auto; congruence].
  destruct (invalidateGenerationLocked l1 x1) as [[l2 x2] r2] eqn:E2.
  apply invalidate_quiet in E2 as [He2 (G1 & G2 & G3 & G4)].
  assert (emits (λ e, enabling e = false) x1 x2) as Hq1 by (eapply emits_impl; [apply not_control_enabling | done]).
  assert (emits (λ e, mac_enabling e = false) x1 x2) as Hq2 by (eapply emits_impl; [apply not_control_mac | done]).
  destruct r2 as [u|e2].
  { intros [= <- <- <-]. split_and!; [done|congruence|congruence| | | |left; split; congruence].
    - intros Hen. etrans; [by apply He1 | done].
    - by etrans.
    - congruence. }
  unfold sink_Disable, logging_sink. destruct (logged EvDisable _ x2) as [x3 r3] eqn:E3.
  assert (emits (λ e, enabling e = false) x2 x3) as Hd1 by (apply (logged_emits (λ e, enabling e = false)) in E3; done).
  assert (emits (λ e, mac_enabling e = false) x2 x3) as Hd2 by (apply (logged_emits (λ e, mac_enabling e = false)) in E3; done).
  destruct r3 as [u|e3]; intros [= <- <- <-]; (split_and!; [done | simpl; congruence | simpl; congruence | | | done | by right]).
  all: try (intros Hen; etrans; [by apply He1|]; by etrans).
  all: etrans; [exact Hm1|]; by etrans.
Qed.

Lemma PublishMAC_spec l entries x l' x' r :
  PublishMACSourcePolicies l entries x = (l', x', r) →
  l_bound l' = l_bound l ∧
  (enabled_now l = false → emits (λ e, enabling e = false) x x') ∧
  (l_dataplaneQuarantined l = true → l_dataplaneQuarantined l' = true) ∧
  ((l_dataplaneQuarantined l' = l_dataplaneQuarantined l ∧ enabled_word l' = enabled_word l) ∨
   (l_dataplaneQuarantined l' = true ∧ enabled_word l' = 0)) ∧
  (l_bound l = true →
    emits (λ e, mac_enabling e = false) x x' ∨
    ∃ e, x'.2 = app x.2 [EvPublishMACPolicies entries true; e] ∧ is_control e = true).
Proof.
  unfold PublishMACSourcePolicies. case_match; [intros [= <- <- <-]; split_and!; [done | done | done | by left | intros; by left]|].
  cbv zeta. case_match; [intros [= <- <- <-]; split_and!; [done | done | done | by left | intros; by left]|].
  unfold sink_PublishMACPolicies, logging_sink at 1.
  destruct (sink_call l _ x) as [x1 [u|e]] eqn:E1.
  2: { intros (_ & _ & Hb & He & Hm & Hq & Ho)%recoverMAC_spec.
    assert (emits (λ e, enabling e = false) x x1) as H1 by (by eapply (sink_call_emits (λ e, enabling e = false)) in E1).
    assert (emits (λ e, mac_enabling e = false) x x1) as H2 by (by eapply (sink_call_emits (λ e, mac_enabling e = false)) in E1).
    split_and!; auto; [intros Hen; etrans; [exact H1|auto] | intros; left; by etrans]. }
  assert (emits (λ e, enabling e = false) x x1) as H1 by (by eapply (sink_call_emits (λ e, enabling e = false)) in E1).
  assert (emits (λ e, mac_enabling e = false) x x1) as H2 by (by eapply (sink_call_emits (λ e, mac_enabling e = false)) in E1).
  pose proof (PublishMACPolicies_core (l_backend l) entries) as Hcore.
  destruct (PublishMACPolicies (l_backend l) entries) as [b [u'|e]] eqn:Eb; simpl in Hcore.
  2: { intros (_ & _ & Hb & He & Hm & Hq & Ho)%recoverMAC_spec. simpl in Hb, Hq.
    assert (enabled_word (with_backend l b) = enabled_word l) as Hw by (by apply same_core_enabled).
    rewrite Hw in Ho.
    split_and!; auto; [|intros; left; by etrans].
    intros Hen. etrans; [exact H1|]. apply He. unfold enabled_now in *. unfold enabled_word in Hw. simpl in *. by rewrite Hw. }
  assert (enabled_word (with_backend l b) = enabled_word l) as Hw by (by apply same_core_enabled).
  destruct (l_macQuarantined l).
  2: { intros [= <- <- <-]. split_and!; auto. }
  destruct (write_control (with_backend l b) _ _ _ x1) as [x2 r2] eqn:E2.
  assert (enabled_now l = false → emits (λ e, enabling e = false) x1 x2) as H3.
  { intros Hen. apply (write_control_emits (λ e, enabling e = false)) in E2; [done|]. intros. simpl.
    unfold enabled_now in *. unfold enabled_word in Hw. simpl in Hw |- *. by rewrite Hw. }
  assert (l_bound l = true → ∃ e, x2.2 = app x.2 [EvPublishMACPolicies entries true; e] ∧ is_control e = true) as H4.
  { intros Hbd. unfold write_control in E2. destruct (Snapshot _) as [bank g]. unfold sink_call in E1, E2. simpl in E2.
    rewrite Hbd in E1, E2. unfold logged in E1, E2. destruct (sink_PublishMACPolicies _ x.1) as [k1 ?]. injection E1 as <- ->.
    destruct (sink_WriteControlV3 _ _ _ _ _ _) as [k2 ?]. injection E2 as <- ->. simpl.
    eexists. rewrite <- app_assoc. split; [reflexivity | done]. }
  destruct r2; intros [= <- <- <-]; split_and!; auto; intros Hen; by etrans; [exact H1|auto].
Qed.

Lemma Apply_spec l a b c d e mark x l' x' r :
  ApplyControlFlags l a b c d e mark x = (l', x', r) →
  l_dataplaneQuarantined l' = l_dataplaneQuarantined l ∧ l_macQuarantined l' = l_macQuarantined l ∧
  l_bound l' = l_bound l ∧
  (l_dataplaneQuarantined l = true → enabled_word l = 0 →
     enabled_word l' = 0 ∧ emits (λ e, enabling e = false) x x') ∧
  (l_macQuarantined l = true → emits (λ e, mac_enabling e = false) x x').
Proof.
  unfold ApplyControlFlags. cbv zeta.
  destruct (write_control l _ _ _ x) as [x1 r1] eqn:E.
  assert (l_dataplaneQuarantined l = true → emits (λ e, enabling e = false) x x1) as H1.
  { intros Hq. apply (write_control_emits (λ e, enabling e = false)) in E; [done|]. intros. simpl.
    by rewrite Hq, andb_false_r. }
  assert (l_macQuarantined l = true → emits (λ e, mac_enabling e = false) x x1) as H2.
  { intros Hq. apply (write_control_emits (λ e, mac_enabling e = false)) in E; [done|]. intros. simpl.
    rewrite Hq. apply clear_mac. }
  destruct r1; intros [= <- <- <-]; split_and!; try done; intros Hq He; split; auto.
  unfold enabled_word, enabled_now. simpl. by rewrite Hq, andb_false_r.
Qed.

(** The quarantine bit implies a cleared enable word. *)
Definition fuse_ok (l : Lifecycle) : Prop := l_dataplaneQuarantined l = true → enabled_word l = 0.

Lemma fuse_step op l x l' x' r :
  run_op op l x = (l', x', r) → fuse_ok l →
  fuse_ok l' ∧
  (l_dataplaneQuarantined l = true →
     l_dataplaneQuarantined l' = true ∧ emits (λ e, enabling e = false) x x').
Proof.
  intros Hr Hf. destruct (control_op op) eqn:Ec.
  2: { apply quiet_op in Hr as [He (H1 & H2 & H3 & H4)]; [|done]. unfold fuse_ok in *. split.
       - rewrite H1, H3. done.
       - intros Hq. split; [congruence|]. eapply emits_impl; [apply not_control_enabling | done]. }
  destruct op; simpl in Ec; try done; simpl in Hr.
  - apply Apply_spec in Hr as (H1 & _ & _ & H2 & _). split.
    + intros Hq. rewrite H1 in Hq. apply H2; auto.
    + intros Hq. split; [congruence|]. apply H2; auto.
  - apply PublishMAC_spec in Hr as (_ & He & Hq & Ho & _). split.
    + unfold fuse_ok in *. destruct Ho as [[-> ->]|[_ ->]]; auto.
    + intros Hd. split; [auto|]. apply He. unfold enabled_now. pose proof (Hf Hd) as Hz.
      unfold enabled_word in Hz. by rewrite Hz.
  - injection Hr as <- <- <-. done.
Qed.

Lemma fuse_run ops : ∀ l x,
  fuse_ok l →
  let lx := run_ops ops (l, x) in
  fuse_ok lx.1 ∧ (l_dataplaneQuarantined l = true →
    l_dataplaneQuarantined lx.1 = true ∧ emits (λ e, enabling e = false) x lx.2).
Proof.
  induction ops as [|op ops IH]; intros l x Hf; [done|].
  unfold run_ops. cbn [foldl fst snd]. destruct (run_op op l x) as [[l1 x1] r] eqn:E.
  destruct (fuse_step _ _ _ _ _ _ E Hf) as [Hf1 Hq1].
  destruct (IH l1 x1 Hf1) as [Hf2 Hq2]. split; [done|].
  intros Hq. destruct (Hq1 Hq) as [Hq' He]. destruct (Hq2 Hq') as [Hq'' He']. split; [done|]. by etrans.
Qed.

(** What the recovery leaves behind on a bound lifecycle. *)
Lemma recoverMAC_ladder l cause k tr l' k' tr' r :
  l_bound l = true → recoverMACPublishFailureLocked l cause (k, tr) = (l', (k', tr'), r) →
  (∃ en flags bank g mark, last tr' = Some (EvWriteControl en flags bank g mark true) ∧
     Z.testbit flags 11 = false ∧ Z.testbit (c_Flags (b_Control (l_backend l'))) 11 = false) ∨
  (last tr' = Some (EvInvalidateFlowDirect true) ∧ sink_PolicyGeneration k' ≠ 0 ∧
     c_PolicyGeneration (b_Control (l_backend l')) = sink_PolicyGeneration k' ∧
     b_MACPolicies (l_backend l') = ∅) ∨
  (∃ ok, last tr' = Some (EvDisable ok) ∧ l_dataplaneQuarantined l' = true ∧ enabled_word l' = 0).
Proof.
  intros Hb. unfold recoverMACPublishFailureLocked, disableMACSourceLocked, write_control, sink_call. cbv zeta.
  cbn [l_bound with_macQuarantined l_backend]. rewrite Hb. destruct (Snapshot _) as [bank g]. simpl.
  unfold logged at 1. simpl. destruct (sink_WriteControlV3 _ _ _ _ _ k) as [k1 [u|e1]].
  { intros [= <- <- <- <-]. left. do 5 eexists. rewrite last_snoc. split_and!; [reflexivity | apply clear_mac..]. }
  cbn [l_bound with_macQuarantined negb]. rewrite Hb. simpl.
  unfold invalidateGenerationLocked at 1. cbn [l_bound with_macQuarantined]. rewrite Hb.
  simpl. unfold logged at 1. simpl. destruct (sink_InvalidateFlowDirect k1) as [k2 [u|e2]]; simpl.
  - destruct (sink_PolicyGeneration k2 =? 0) eqn:Eg; boolprop.
    + unfold logged. simpl. destruct (sink_Disable k2) as [k3 r3]. 
      intros Hx. right; right. exists (is_ok r3). destruct r3; injection Hx as <- <- <- <-; by rewrite last_snoc.
    + intros [= <- <- <- <-]. right; left. rewrite last_snoc. simpl.
      destruct (adopt_generation_control (l_backend l) (sink_PolicyGeneration k2)) as (-> & _).
      split_and!; try done. unfold adopt_generation, InvalidateGeneration, invalidateGenerationMaps.
      by rewrite (proj2 (Z.eqb_neq _ 0) Eg).
  - unfold logged. simpl. destruct (sink_Disable k2) as [k3 r3].
    intros Hx. right; right. exists (is_ok r3). destruct r3; injection Hx as <- <- <- <-; by rewrite last_snoc.
Qed.
End fuse.

(** ** The invariant of the lifecycle *)

Definition generation_of (b : MemoryBackend) : Z := c_PolicyGeneration (b_Control b).

(** Learned rows are of the current generation; static rows are not newer. *)
Definition evidence_current (b : MemoryBackend) : Prop :=
  map_Forall (λ _ v, fv_Generation v = generation_of b) (b_Flows b) ∧
  map_Forall (λ _ v, dv_Generation v = generation_of b) (ht_entries (b_DNS b)).

Definition banks_le (b : MemoryBackend) : Prop :=
  Forall (map_Forall (λ _ v, pv_Generation v ≤ generation_of b)) (b_Policy4 b) ∧
  Forall (map_Forall (λ _ v, pv_Generation v ≤ generation_of b)) (b_Policy6 b).

Definition model_inv (b : MemoryBackend) : Prop :=
  backend_inv b ∧ evidence_current b ∧ banks_le b ∧ bp_compiling (b_Publisher b) = 0.

(** The effects the operations have on the model; [g] is the generation the
    model has afterwards. *)
Inductive effect (g : Z) : MemoryBackend → MemoryBackend → Prop :=
| eff_control b c :
    c_ActiveBank c = c_ActiveBank (b_Control b) → c_PolicyGeneration c = generation_of b →
    effect g b (set_Control b c)
| eff_publish b ps b1 p :
    Forall (λ q, prefix_wf (cp_Prefix q)) ps → PrepareStatic b ps = (b1, Ok p) →
    generation_of (CommitPreparedStatic b1 p).1 = g → effect g b (CommitPreparedStatic b1 p).1
| eff_adopt b : g ≠ 0 → effect g b (adopt_generation b g)
| eff_merge b p ttl t1 t2 : prefix_wf p → effect g b (MergeDynamicDirect b p ttl t1 t2).1
| eff_delete b p : effect g b (DeleteMergedStaticDirect b p).1
| eff_flow b req now visit : (∀ m, range_of m (visit m)) → effect g b (PublishFlow b req now visit).1
| eff_revoke b c d p : effect g b (RevokeFlow b c d p).1
| eff_mac b es : effect g b (PublishMACPolicies b es).1
| eff_observe b key direct ev pid x now order :
    range_of (ht_entries (hints_prune (b_DNS b) now)) order →
    effect g b (set_DNS b (hints_Observe (b_DNS b) key direct ev pid (generation_of b) x now order).1).

Lemma evidence_same_core b b' :
  same_core b b' → evidence_current b → banks_le b →
  b_Flows b' ⊆ b_Flows b → ht_entries (b_DNS b') ⊆ ht_entries (b_DNS b) →
  evidence_current b' ∧ banks_le b'.
Proof.
  intros (Hc & H4 & H6 & _) [Hf Hd] [L4 L6] Sf Sd.
  unfold evidence_current, banks_le, generation_of in *. rewrite Hc, H4, H6. split_and!; try done.
  - intros k v Hk. apply (Hf k). by eapply lookup_weaken.
  - intros k v Hk. apply (Hd k). by eapply lookup_weaken.
Qed.

Lemma adopt_generation_inv b g :
  g ≠ 0 → fits 32 g → generation_of b ≤ g → model_inv b → model_inv (adopt_generation b g).
Proof.
  intros Hg Hfit Hle ([(Hp & Ha & Hgen) Hb Hf Hd H4 H6 Hm] & [Ef Ed] & [L4 L6] & Hc).
  unfold generation_of in Hle. rewrite Hgen in Hle.
  pose proof (adopt_generation_control b g) as (Fc & Fp & F4 & F6).
  assert (SyncGeneration (b_Publisher b) g = mkBankPublisher (bp_active (b_Publisher b)) g (bp_compiling (b_Publisher b))) as Hs.
  { unfold SyncGeneration. rewrite (proj2 (Z.eqb_neq g 0) Hg).
    assert ((g <? bp_generation (b_Publisher b)) = false) as -> by lia. by rewrite andb_false_r. }
  split_and!.
  - unfold adopt_generation, InvalidateGeneration. apply invalidate_restores; try done.
    unfold control_ok. simpl. split_and!; [by apply SyncGeneration_ok | by rewrite Hs | by rewrite Hs].
  - unfold evidence_current, generation_of. rewrite Fc. simpl.
    unfold adopt_generation, InvalidateGeneration, invalidateGenerationMaps. rewrite (proj2 (Z.eqb_neq g 0) Hg). simpl.
    split; by intros k v [_ Hv]%map_lookup_filter_Some.
  - unfold banks_le, generation_of. rewrite Fc, F4, F6. simpl.
    split; (eapply Forall_impl; [eassumption|]); intros m Hmm k v Hk; apply Hmm in Hk; unfold generation_of in Hk; lia.
  - rewrite Fp, Hs. done.
Qed.

Lemma hints_Observe_generation t key direct ev pid g x now order :
  map_Forall (λ _ v, dv_Generation v = g) (ht_entries t) →
  map_Forall (λ _ v, dv_Generation v = g) (ht_entries (hints_Observe t key direct ev pid g x now order).1).
Proof.
  intros Ht.
  assert (map_Forall (λ _ v, dv_Generation v = g) (ht_entries (hints_prune t now))) as Hp.
  { unfold hints_prune. case_match; [|done]. intros k v [Hk _]%map_lookup_filter_Some. by apply (Ht k). }
  unfold hints_Observe. cbv zeta. case_match; simpl.
  repeat case_match; simplify_eq; simpl; (apply map_Forall_insert_2; [done|]); try done;
    by apply hints_evictOldest_Forall.
Qed.

Lemma commit_bank_le {A} (P Q : A → Prop) (i : nat) (m : A) (banks : list A) :
  Forall P banks → (∀ x, P x → Q x) → Q m → Forall Q (<[i := m]> banks).
Proof. intros HP HPQ Hm. apply Forall_insert; [by eapply Forall_impl | done]. Qed.

Lemma publish_effect_inv b ps b1 p :
  PrepareStatic b ps = (b1, Ok p) → generation_of b ≤ generation_of (CommitPreparedStatic b1 p).1 →
  model_inv b → model_inv (CommitPreparedStatic b1 p).1.
Proof.
  intros Hp Hle (Hi & [Ef Ed] & [L4 L6] & Hc).
  pose proof (PrepareStatic_Ok _ _ _ _ Hp) as (_ & Hb1 & Hloop & Hlive & Hin & B4 & B6).
  apply prepare_loop_generation in Hloop as [G4 G6]; [|apply map_Forall_empty..].
  set (pub := mkBankPublisher (bp_active (b_Publisher b)) (bp_generation (b_Publisher b)) 1) in *.
  assert (backend_inv b1) as Hi1.
  { subst b1. destruct Hi as [(Hpo & Ha & Hg) ? ? ? ? ? ?]. constructor; try done. split; [|done].
    destruct Hpo as (? & ? & ?). split_and!; simpl; auto; lia. }
  assert (prepared_inv b1 p) as Hpi by (intros _; subst b1; by split_and!).
  pose proof (CommitPreparedStatic_frame b1 p Hlive) as (Fp & Fc & F4 & F6).
  assert (generation_of (CommitPreparedStatic b1 p).1 = next_generation (bp_generation (b_Publisher b))) as Hgen
    by (unfold generation_of; rewrite Fc, Hb1; done).
  split_and!.
  - by apply commit_backend_inv.
  - unfold evidence_current. rewrite Hgen. unfold CommitPreparedStatic. rewrite Hlive, Hb1. cbn [Commit fst].
    unfold invalidateGenerationMaps. cbn [bp_generation b_Publisher set_Publisher set_Policies].
    pose proof (next_generation_range (bp_generation (b_Publisher b))) as Hr.
    change (bp_generation pub) with (bp_generation (b_Publisher b)).
    rewrite (proj2 (Z.eqb_neq (next_generation (bp_generation (b_Publisher b))) 0)) by lia. simpl.
    split; by intros k v [_ Hv]%map_lookup_filter_Some.
  - unfold banks_le. rewrite F4, F6, Hgen, Hb1. cbn [b_Policy4 b_Policy6 set_Publisher]. rewrite Hgen in Hle.
    split; (eapply commit_bank_le; [eassumption| |]).
    1,3: intros m Hm k v Hk; apply Hm in Hk; lia.
    all: intros k v Hk; first [apply G4 in Hk | apply G6 in Hk]; simpl in Hk; lia.
  - by rewrite Fp.
Qed.

Lemma model_inv_same_core b b' :
  model_inv b → backend_inv b' → same_core b b' →
  b_Flows b' ⊆ b_Flows b → ht_entries (b_DNS b') ⊆ ht_entries (b_DNS b) → model_inv b'.
Proof.
  intros (_ & He & Hb & Hc) Hi Hs Sf Sd. destruct (evidence_same_core _ _ Hs He Hb Sf Sd).
  split_and!; try done. by destruct Hs as (_ & _ & _ & ->).
Qed.

Lemma set_ledger_maps b l m :
  b_Flows (set_ledger b l m) = b_Flows b ∧ b_DNS (set_ledger b l m) = b_DNS b.
Proof. by destruct l. Qed.

Lemma PublishFlow_evidence b req now visit :
  (∀ m, range_of m (visit m)) → flows_ok b →
  map_Forall (λ _ v, fv_Generation v = generation_of b) (b_Flows b) →
  map_Forall (λ _ v, fv_Generation v = generation_of b) (b_Flows (PublishFlow b req now visit).1).
Proof.
  intros Hv Hf Hg. destruct (PublishFlow b req now visit) as [b' [[]|e]] eqn:E; simpl.
  - destruct (PublishFlow_flows _ _ _ _ _ Hv Hf E) as (p & Hp & _ & H1 & H2 & Ho).
    apply BuildFlowPair_Ok in Hp as (_ & Hpg & _). intros k v Hk.
    destruct (decide (k = fp_Forward p)) as [->|]; [by simplify_eq|].
    destruct (decide (k = fp_Reverse p)) as [->|]; [by simplify_eq|]. eapply (Hg k), Ho; eauto.
  - unfold PublishFlow in E. by repeat case_match; simplify_eq.
Qed.

Lemma effect_inv g b b' :
  fits 32 g → generation_of b ≤ g → model_inv b → effect g b b' →
  model_inv b' ∧ generation_of b' ≤ g.
Proof.
  intros Hfit Hle Hinv He. pose proof Hinv as (Hi & Hev & Hbk & Hc).
  destruct He as [b c Ha Hg|b ps b1 p Hwf Hp Hg|b Hg|b p ttl t1 t2 Hwf|b p|b req now visit Hv|b c d p|b es|b key direct ev pid x now order Hr].
  - unfold generation_of in *. simpl. rewrite Hg. split; [|done].
    unfold model_inv, evidence_current, banks_le, generation_of in *. simpl. rewrite Hg. split; [|done].
    destruct Hi as [(? & ? & ?) ? ? ? ? ? [? ?]].
    constructor; try done; unfold control_ok, mac_ok; simpl; split_and?; [done|congruence|congruence|done|by rewrite Hg].
  - split; [|lia]. eapply publish_effect_inv; [done | lia | done].
  - split; [by apply adopt_generation_inv|]. unfold generation_of.
    destruct (adopt_generation_control b g) as (-> & _). simpl. lia.
  - pose proof (MergeDynamicDirect_core b p ttl t1 t2) as Hs. split; [|unfold generation_of; by destruct Hs as (-> & _)].
    eapply model_inv_same_core; [done | by apply MergeDynamicDirect_inv | done | |];
      unfold MergeDynamicDirect; repeat case_match; simpl; rewrite ?(proj1 (set_ledger_maps _ _ _)), ?(proj2 (set_ledger_maps _ _ _)); done.
  - pose proof (DeleteMergedStaticDirect_core b p) as Hs. split; [|unfold generation_of; by destruct Hs as (-> & _)].
    eapply model_inv_same_core; [done | by apply DeleteMergedStaticDirect_inv | done | |];
      unfold DeleteMergedStaticDirect; repeat case_match; simpl; rewrite ?(proj1 (set_ledger_maps _ _ _)), ?(proj2 (set_ledger_maps _ _ _)); done.
  - pose proof (PublishFlow_core b req now visit) as Hs. pose proof Hs as (Hcn & H4 & H6 & Hp).
    split; [|unfold generation_of; by rewrite Hcn]. destruct Hev as [Ef Ed].
    pose proof (PublishFlow_evidence b req now visit Hv (inv_flows _ Hi) Ef) as Ef'.
    unfold model_inv, evidence_current, banks_le, generation_of in *. rewrite Hcn, H4, H6, Hp.
    split_and!; try done; [by apply PublishFlow_inv | | apply Hbk..].
    unfold PublishFlow. by repeat case_match.
  - pose proof (RevokeFlow_core b c d p) as Hs. split; [|unfold generation_of; by destruct Hs as (-> & _)].
    eapply model_inv_same_core; [done | by apply RevokeFlow_inv | done | |]; unfold RevokeFlow; case_match; simpl; try done.
    etrans; apply delete_subseteq.
  - pose proof (PublishMACPolicies_core b es) as Hs. split; [|unfold generation_of; by destruct Hs as (-> & _)].
    eapply model_inv_same_core; [done | by apply PublishMACPolicies_inv | done | |]; unfold PublishMACPolicies; by case_match.
  - split; [|done]. destruct Hev as [Ef Ed]. split_and!; try done.
    + apply set_DNS_inv; [done|]. apply hints_Observe_inv_aux; [by apply Hi | done].
    + split; [done|]. by apply hints_Observe_generation.
Qed.

Lemma effects_inv g b b' :
  fits 32 g → rtc (effect g) b b' → generation_of b ≤ g → model_inv b → model_inv b' ∧ generation_of b' ≤ g.
Proof.
  intros Hfit Hr. induction Hr as [b|b b1 b' He _ IH]; intros Hle Hinv; [done|].
  destruct (effect_inv _ _ _ Hfit Hle Hinv He). auto.
Qed.

Section reach.
Context {K : Type} `{DataplaneSink K}.
Implicit Types (l : Lifecycle) (k : K).

Lemma eff_once g b b' : effect g b b' → rtc (effect g) b b'.
Proof. apply rtc_once. Qed.

Lemma normalize_prefixes_wf ps seen acc :
  Forall prefix_wf ps → Forall prefix_wf acc → Forall prefix_wf (normalize_prefixes ps seen acc).
Proof.
  revert seen acc. induction ps as [|p ps IH]; intros seen acc Hp Ha; simpl; [done|].
  apply Forall_cons in Hp as [Hp Hps]. repeat case_match; apply IH; try done.
  apply Forall_app. split; [done|]. constructor; [by apply masked_wf | done].
Qed.

Lemma split_direct_wf compiled direct rej :
  Forall (λ p, prefix_wf (cp_Prefix p)) compiled → Forall (λ p, prefix_wf (cp_Prefix p)) direct →
  Forall (λ p, prefix_wf (cp_Prefix p)) (split_direct compiled direct rej).1.
Proof.
  revert direct rej. induction compiled as [|p cs IH]; intros direct rej Hc Hd; simpl; [done|].
  apply Forall_cons in Hc as [Hp Hcs]. case_match; apply IH; try done.
  apply Forall_app. split; [done|]. by constructor.
Qed.

Lemma CompileStatic_wf inputs g :
  Forall (λ i, prefix_wf (ci_Destination i)) inputs →
  Forall (λ p, prefix_wf (cp_Prefix p)) (CompileStatic inputs g).1.
Proof.
  intros Hi. unfold CompileStatic. rewrite compile_loop_spec. simpl. apply Forall_fmap, Forall_forall.
  intros i [_ Hin]%list_elem_of_filter. simpl. apply masked_wf. by apply (proj1 (Forall_forall _ _) Hi).
Qed.

Lemma publish_prepared_effect l ps b p prefixes k l' k' r :
  Forall (λ q, prefix_wf (cp_Prefix q)) ps → PrepareStatic (l_backend l) ps = (b, Ok p) →
  publish_prepared l b p prefixes k = (l', k', r) →
  rtc (effect (generation_of (l_backend l'))) (l_backend l) (l_backend l').
Proof.
  intros Hwf Hp. unfold publish_prepared. destruct (sink_call l _ k) as [k1 [u|e]]; intros [= <- <- <-]; simpl.
  - by eapply eff_once, eff_publish.
  - by rewrite (AbortPreparedStatic_restores _ _ _ _ Hp).
Qed.

Lemma invalidate_effect l k l' k' r :
  generation_of (l_backend l) ≠ 0 → invalidateGenerationLocked l k = (l', k', r) →
  rtc (effect (generation_of (l_backend l'))) (l_backend l) (l_backend l').
Proof.
  intros Hne. unfold invalidateGenerationLocked.
  assert (∀ g, g ≠ 0 → rtc (effect (generation_of (adopt_generation (l_backend l) g))) (l_backend l) (adopt_generation (l_backend l) g)) as Ha.
  { intros g Hg. assert (generation_of (adopt_generation (l_backend l) g) = g) as ->.
    { unfold generation_of. by destruct (adopt_generation_control (l_backend l) g) as (-> & _). }
    by apply eff_once, eff_adopt. }
  destruct (l_bound l).
  - destruct (sink_InvalidateFlowDirect k) as [k1 [u|e]]; [|by intros [= <- <- <-]].
    destruct (sink_PolicyGeneration k1 =? 0) eqn:E; intros [= <- <- <-]; [done|]. boolprop. by apply Ha.
  - intros [= <- <- <-]. apply Ha. pose proof (next_generation_range (generation_of (l_backend l))). unfold generation_of in *. lia.
Qed.

Lemma disableMAC_effect l k l' k' r g :
  disableMACSourceLocked l k = (l', k', r) →
  rtc (effect g) (l_backend l) (l_backend l') ∧ generation_of (l_backend l') = generation_of (l_backend l).
Proof.
  unfold disableMACSourceLocked. cbv zeta. destruct (write_control l _ _ _ k) as [k1 [u|e]]; intros [= <- <- <-]; [|done].
  split; [|done]. by apply eff_once, eff_control.
Qed.

Lemma recoverMAC_effect l cause k l' k' r :
  generation_of (l_backend l) ≠ 0 → recoverMACPublishFailureLocked l cause k = (l', k', r) →
  rtc (effect (generation_of (l_backend l'))) (l_backend l) (l_backend l').
Proof.
  intros Hne. unfold recoverMACPublishFailureLocked. cbv zeta.
  destruct (disableMACSourceLocked _ k) as [[l1 k1] r1] eqn:E1.
  destruct (disableMAC_effect _ _ _ _ _ (generation_of (l_backend l')) E1) as [He1 Hg1]. simpl in He1, Hg1.
  destruct r1 as [u|e1]; [intros [= <- <- <-]; by apply (disableMAC_effect _ _ _ _ _ _ E1)|].
  destruct (l_bound l1); simpl; [|intros [= <- <- <-]; by apply (disableMAC_effect _ _ _ _ _ _ E1)].
  destruct (invalidateGenerationLocked l1 k1) as [[l2 k2] r2] eqn:E2.
  apply invalidate_effect in E2; [|congruence].
  destruct r2 as [u|e2].
  { intros [= <- <- <-]. etrans; [apply (disableMAC_effect _ _ _ _ _ _ E1) | done]. }
  intros Hx. assert (l_backend l' = set_Control (l_backend l2) (control_with_enabled (b_Control (l_backend l2)) 0)) as Hb.
  { destruct (sink_Disable k2) as [k3 [u|e3]]; by injection Hx as <- <- <-. }
  rewrite Hb. change (generation_of (set_Control _ _)) with (generation_of (l_backend l2)).
  etrans; [apply (disableMAC_effect _ _ _ _ _ _ E1)|]. etrans; [exact E2|]. by apply eff_once, eff_control.
Qed.

Lemma PublishMAC_effect l entries k l' k' r :
  generation_of (l_backend l) ≠ 0 → PublishMACSourcePolicies l entries k = (l', k', r) →
  rtc (effect (generation_of (l_backend l'))) (l_backend l) (l_backend l').
Proof.
  intros Hne. unfold PublishMACSourcePolicies. case_match; [by intros [= <- <- <-]|]. cbv zeta.
  case_match; [by intros [= <- <- <-]|].
  destruct (sink_call l _ k) as [k1 [u|e]]; [|by apply recoverMAC_effect].
  assert (∀ g, effect g (l_backend l) (PublishMACPolicies (l_backend l) entries).1) as Hm by (intros; apply eff_mac).
  pose proof (PublishMACPolicies_core (l_backend l) entries) as (Hcore & _).
  destruct (PublishMACPolicies (l_backend l) entries) as [b [u'|e]]; simpl in Hm, Hcore.
  2: { intros Hx%recoverMAC_effect; [|simpl; unfold generation_of in *; by rewrite Hcore].
       eapply rtc_l; [apply Hm | exact Hx]. }
  case_match; [|intros [= <- <- <-]; by apply eff_once].
  destruct (write_control _ _ _ _ k1) as [k2 [u''|e]]; intros [= <- <- <-]; simpl; [|by apply eff_once].
  eapply rtc_l; [apply Hm|]. by apply eff_once, eff_control.
Qed.

Lemma run_op_effect op l k l' k' r :
  generation_of (l_backend l) ≠ 0 → op_wf op l → run_op op l k = (l', k', r) →
  rtc (effect (generation_of (l_backend l'))) (l_backend l) (l_backend l').
Proof.
  intros Hne Hwf.
  destruct op as [g|a b c d e mark|inputs|es|prefixes|prefix ttl t0 t1 t2|prefix|c d p bare now visit|c d p|a d e ttl now clock order| |];
    simpl in Hwf; unfold run_op.
  - intros [= <- <- <-]. unfold syncPolicyGenerationLocked. case_match; [done|]. cbv zeta. case_match; [done|]. boolprop.
    simpl. assert (generation_of (adopt_generation (l_backend l) g) = g) as ->.
    { unfold generation_of. by destruct (adopt_generation_control (l_backend l) g) as (-> & _). }
    by apply eff_once, eff_adopt.
  - unfold ApplyControlFlags. cbv zeta. destruct (write_control l _ _ _ k) as [k1 [u|err]]; intros [= <- <- <-]; [|done].
    by apply eff_once, eff_control.
  - unfold PublishStaticRules. destruct (_ || _); [by intros [= <- <- <-]|].
    pose proof (CompileStatic_wf inputs (c_PolicyGeneration (b_Control (l_backend l))) Hwf) as Hc.
    destruct (CompileStatic _ _) as [compiled rej].
    pose proof (split_direct_wf compiled [] rej Hc (List.Forall_nil _)) as Hd.
    destruct (split_direct compiled [] rej) as [direct rej'].
    destruct (PrepareStatic (l_backend l) direct) as [b [q|err]] eqn:Ep.
    + destruct (publish_prepared l b q _ k) as [[l1 k1] r1] eqn:E. intros [= <- <- <-].
      exact (publish_prepared_effect _ _ _ _ _ _ _ _ _ Hd Ep E).
    + intros [= <- <- <-]. by apply PrepareStatic_Err in Ep as ->.
  - by apply PublishMAC_effect.
  - unfold PublishStaticDirect. cbv zeta. destruct (PrepareStatic (l_backend l) _) as [b [q|err]] eqn:Ep.
    + intros E. refine (publish_prepared_effect _ _ _ _ _ _ _ _ _ _ Ep E).
      apply Forall_fmap. simpl. by apply normalize_prefixes_wf.
    + intros [= <- <- <-]. by apply PrepareStatic_Err in Ep as ->.
  - unfold lifecycle_MergeDynamicDirect. case_match; [by intros [= <- <- <-]|].
    destruct (ValidateDynamicDirect _ _ _) as [q|] eqn:Ev; [|by intros [= <- <- <-]].
    assert (prefix_wf q) as Hq.
    { unfold ValidateDynamicDirect in Ev. destruct (CanonicalPrefix prefix) as [q'|] eqn:Eq; simpl in Ev; [|done].
      assert (q = q') as -> by (destruct (dynamicEntriesForPrefix q'); simpl in Ev; repeat case_match; by simplify_eq).
      apply (CanonicalPrefix_wf prefix _ (proj1 Hwf) Eq). }
    destruct (sink_call l _ k) as [k1 [u|err]]; [|by intros [= <- <- <-]].
    assert (∀ g, effect g (l_backend l) (MergeDynamicDirect (l_backend l) q ttl t1 t2).1) as Hm by (intros; by apply eff_merge).
    pose proof (MergeDynamicDirect_core (l_backend l) q ttl t1 t2) as (Hcore & _).
    destruct (MergeDynamicDirect (l_backend l) q ttl t1 t2) as [b [u'|err]]; simpl in Hm, Hcore;
      [intros [= <- <- <-]; by apply eff_once|].
    destruct (l_bound _); [|intros [= <- <- <-]; by apply eff_once].
    destruct (invalidateGenerationLocked _ k1) as [[l2 k2] r2] eqn:Ei.
    apply invalidate_effect in Ei; [|simpl; unfold generation_of in *; by rewrite Hcore].
    destruct r2; intros [= <- <- <-]; (eapply rtc_l; [apply Hm | exact Ei]).
  - unfold RevokeMergedStaticDirect. destruct (sink_call l _ k) as [k1 [u|err]]; [|by intros [= <- <- <-]].
    pose proof (λ g, eff_delete g (l_backend l) prefix) as Hm.
    destruct (DeleteMergedStaticDirect (l_backend l) prefix) as [b r']. intros [= <- <- <-]. apply eff_once, Hm.
  - unfold LearnFlow. case_match; [by intros [= <- <- <-]|]. case_match; [by intros [= <- <- <-]|].
    cbv zeta. destruct (BuildFlowPair _ _ 1); [|by intros [= <- <- <-]].
    destruct (sink_call l _ k) as [k1 [u|err]]; [|by intros [= <- <- <-]].
    pose proof (λ g, eff_flow g (l_backend l) (learn_request l c d p) (u64 (unix_nano now)) visit Hwf) as Hm.
    destruct (PublishFlow (l_backend l) _ _ visit) as [b r']. intros [= <- <- <-]. apply eff_once, Hm.
  - unfold lifecycle_RevokeFlow. destruct (BuildFlowPair _ _ 1); [|by intros [= <- <- <-]].
    destruct (sink_call l _ k) as [k1 [u|err]]; [|by intros [= <- <- <-]].
    pose proof (λ g, eff_revoke g (l_backend l) c d p) as Hm.
    destruct (RevokeFlow (l_backend l) c d p) as [b r']. intros [= <- <- <-]. apply eff_once, Hm.
  - unfold ObserveDNS. destruct (negb (po_Enabled (po l))); [by intros [= <- <- <-]|].
    destruct (addrBytes a) as [[family raw]|]; [|by intros [= <- <- <-]]. cbv zeta.
    destruct (sink_call l _ k) as [k1 [u|err]]; intros [= <- <- <-]; [|done].
    apply eff_once. by apply eff_observe.
  - by apply invalidate_effect.
  - intros [= <- <- <-]. by apply eff_once, eff_control.
Qed.

(** A step of the lifecycle: one operation that does not rewind the policy
    generation (the counter has 32 bits; a kernel that reports an older
    generation would rewind it too). *)
Inductive lifecycle_step : Lifecycle * K → Lifecycle * K → Prop :=
| do_op op l k l' k' r :
    op_wf op l → run_op op l k = (l', k', r) →
    generation_of (l_backend l) ≤ generation_of (l_backend l') → fits 32 (generation_of (l_backend l')) →
    lifecycle_step (l, k) (l', k')
| do_bind l k : lifecycle_step (l, k) (BindSink l, k).

Lemma lifecycle_step_inv s s' : lifecycle_step s s' → model_inv (l_backend s.1) → model_inv (l_backend s'.1).
Proof.
  intros [op l k l' k' r Hwf Hr Hle Hfit|l k] Hi; simpl in *; [|done].
  apply run_op_effect in Hr; [|unfold generation_of; destruct Hi as ([(Hp & _ & ->) _ _ _ _ _ _] & _); destruct Hp as (_ & ? & _); lia|done].
  by eapply effects_inv in Hr as [? _].
Qed.

Lemma lifecycle_steps_inv s s' : rtc lifecycle_step s s' → model_inv (l_backend s.1) → model_inv (l_backend s'.1).
Proof. intros Hr. induction Hr; eauto using lifecycle_step_inv. Qed.

Lemma NewMemoryBackend_model_inv : model_inv NewMemoryBackend.
Proof.
  destruct NewMemoryBackend_inv as (Hi & _ & Hc). split; [done|]. split; [split; apply map_Forall_empty|].
  split; [|done]. split; simpl; (constructor; [apply map_Forall_empty|]); (constructor; [apply map_Forall_empty | constructor]).
Qed.

Lemma NewLifecycle_inv o ttl l : NewLifecycle o ttl = Ok l → model_inv (l_backend l) ∧ fuse_ok l.
Proof.
  unfold NewLifecycle. destruct (NormalizeSharedNetwork o); simpl; [|done]. case_match; [done|].
  intros [= <-]. split; [apply NewMemoryBackend_model_inv | done].
Qed.
End reach.

(** ** Theorems *)

(** Dual writes run in lockstep, whatever the kernel answers: a static
    publication, a dynamic merge, a learned or revoked flow and a DNS
    observation issue at most one kernel call; without one the model is
    unchanged, if the kernel refuses the operation fails with the model
    unchanged, and if the kernel accepts the model step cannot fail any more. *)
Theorem dual_write_lockstep {K : Type} (S : DataplaneSink K) (op : lifecycle_op) (l : Lifecycle) (k : K)
    (tr : list sink_event) :
  transactional op = true → l_bound l = true → model_inv (l_backend l) → op_wf op l →
  ∃ l' k' evs r, @run_op _ (logging_sink S) op l (k, tr) = (l', (k', app tr evs), r) ∧ lockstep l l' evs r.
Proof.
  intros Ht Hb (Hi & _) Hwf. destruct op; simpl in Ht; try done.
  - by apply lockstep_static_rules.
  - by apply lockstep_static_direct.
  - destruct Hwf as [Hwf Hc]. by apply lockstep_merge.
  - by apply lockstep_learn.
  - by apply lockstep_revoke.
  - by apply lockstep_observe.
Qed.

(** The dataplane fuse is one-way: once a lifecycle has quarantined its
    dataplane, no sequence of later operations clears the quarantine, sets the
    enable word of the model, or sends the kernel a control write that enables
    the dataplane, whatever the kernel answers to each call. *)
Theorem dataplane_quarantine_one_way {K : Type} (S : DataplaneSink K) (o : EBPFSharedNetworkOptions) (ttl : Z)
    (l0 : Lifecycle) (x0 : K * list sink_event) (before after : list lifecycle_op) :
  let S' := logging_sink S in
  NewLifecycle o ttl = Ok l0 →
  let mid := run_ops before (BindSink l0, x0) in
  l_dataplaneQuarantined mid.1 = true →
  let final := run_ops after mid in
  l_dataplaneQuarantined final.1 = true ∧ enabled_word final.1 = 0 ∧
  ∃ evs, final.2.2 = app mid.2.2 evs ∧ Forall (λ e, enabling e = false) evs.
Proof.
  intros S' Hn mid Hq final.
  assert (fuse_ok (BindSink l0)) as Hf by apply (proj2 (NewLifecycle_inv _ _ _ Hn)).
  destruct (fuse_run S before (BindSink l0) x0 Hf) as [Hmid _]. change (fuse_ok mid.1) in Hmid.
  destruct (fuse_run S after mid.1 mid.2 Hmid) as [Hfin Hst]. rewrite <- surjective_pairing in Hfin, Hst.
  destruct (Hst Hq) as [Hq' He]. split_and!; [exact Hq' | by apply Hfin | exact He].
Qed.

(** A MAC snapshot the kernel refused never stays live: the operation
    fails with the MAC lookup quarantined, and the last kernel call either
    turned the MAC lookup off, or moved the kernel to a generation that ignores
    the snapshot (the model follows with its MAC rows dropped), or was the
    whole-dataplane disable with the fuse set. *)
Theorem MAC_failure_retired {K : Type} (S : DataplaneSink K) (l : Lifecycle) (entries : list MACPolicyEntry)
    (k k1 : K) (cause : string) (tr : list sink_event) :
  l_bound l = true → po_Enabled (po l) = true → po_MACSourcePolicy (po l) = true →
  Z.of_nat (size (unique_keys entries ∅)) ≤ MaxSourcePolicies →
  sink_PublishMACPolicies entries k = (k1, Err cause) →
  let '(l', (k', tr'), r) := @PublishMACSourcePolicies _ (logging_sink S) l entries (k, tr) in
  is_ok r = false ∧ l_macQuarantined l' = true ∧
  ((∃ en flags bank g mark, last tr' = Some (EvWriteControl en flags bank g mark true) ∧
      Z.testbit flags 11 = false ∧ Z.testbit (c_Flags (b_Control (l_backend l'))) 11 = false) ∨
   (last tr' = Some (EvInvalidateFlowDirect true) ∧ sink_PolicyGeneration k' ≠ 0 ∧
      c_PolicyGeneration (b_Control (l_backend l')) = sink_PolicyGeneration k' ∧
      b_MACPolicies (l_backend l') = ∅) ∨
   (∃ ok, last tr' = Some (EvDisable ok) ∧ l_dataplaneQuarantined l' = true ∧ enabled_word l' = 0)).
Proof.
  intros Hb He Hm Hsz Hk. unfold PublishMACSourcePolicies. rewrite He, Hm. simpl.
  assert ((MaxSourcePolicies <? Z.of_nat (size (unique_keys entries ∅))) = false) as -> by lia.
  unfold sink_call. rewrite Hb. unfold logged. simpl. rewrite Hk. simpl.
  destruct (recoverMACPublishFailureLocked l cause _) as [[l' [k' tr']] r] eqn:E.
  pose proof (recoverMAC_spec S _ _ _ _ _ _ E) as (Hr & Hq & _).
  pose proof (recoverMAC_ladder S _ _ _ _ _ _ _ _ Hb E). auto.
Qed.

(** While the MAC lookup is quarantined, no operation turns it on in the
    kernel, except [PublishMACSourcePolicies] after the kernel accepted a
    complete new snapshot in the same call. *)
Theorem MAC_quarantine_holds {K : Type} (S : DataplaneSink K) (op : lifecycle_op) (l l' : Lifecycle)
    (x x' : K * list sink_event) (r : result unit) :
  l_macQuarantined l = true → l_bound l = true →
  @run_op _ (logging_sink S) op l x = (l', x', r) →
  (∃ evs, x'.2 = app x.2 evs ∧ Forall (λ e, mac_enabling e = false) evs) ∨
  (∃ entries e, op = OpPublishMACSourcePolicies entries ∧
     x'.2 = app x.2 [EvPublishMACPolicies entries true; e] ∧ is_control e = true).
Proof.
  intros Hq Hb Hr. destruct (control_op op) eqn:Ec.
  2: { apply quiet_op in Hr as [He _]; [|done]. left. apply (emits_impl not_control); [apply not_control_mac | done]. }
  destruct op; simpl in Ec; try done; simpl in Hr.
  - apply Apply_spec in Hr as (_ & _ & _ & _ & He). left. by apply He.
  - apply PublishMAC_spec in Hr as (_ & _ & _ & _ & He). destruct (He Hb) as [?|(e & ? & ?)]; [by left | right; eauto].
  - injection Hr as <- <- <-. left. exists []. by rewrite app_nil_r.
Qed.

(** Invalidation fails closed: in every reachable lifecycle, once
    [InvalidateGeneration] has advanced the generation no evidence learned or
    published before survives: the flow table, the DNS hints, the dynamic
    prefixes and the MAC rows are empty and every static lookup misses, until the policy is published again. *)
Theorem InvalidateGeneration_fails_closed {K : Type} `{DataplaneSink K} (o : EBPFSharedNetworkOptions) (ttl : Z)
    (l0 l l' : Lifecycle) (k0 k k' : K) :
  NewLifecycle o ttl = Ok l0 → rtc lifecycle_step (l0, k0) (l, k) →
  invalidateGenerationLocked l k = (l', k', Ok tt) →
  generation_of (l_backend l) < generation_of (l_backend l') →
  let b := l_backend l' in
  b_Flows b = ∅ ∧ ht_entries (b_DNS b) = ∅ ∧ b_dynamicDirects4 b = ∅ ∧ b_dynamicDirects6 b = ∅ ∧
  b_MACPolicies b = ∅ ∧
  ∀ dest protocol dport, LookupStatic b dest protocol dport = Ok None.
Proof.
  intros Hn Hsteps Hinv Hlt.
  apply lifecycle_steps_inv in Hsteps; [|apply (proj1 (NewLifecycle_inv _ _ _ Hn))]. simpl in Hsteps.
  destruct Hsteps as (Hi & [Ef Ed] & [L4 L6] & _).
  assert (∃ g, g ≠ 0 ∧ l' = with_backend l (adopt_generation (l_backend l) g)) as (g & Hg & ->).
  { unfold invalidateGenerationLocked in Hinv. destruct (l_bound l).
    - destruct (sink_InvalidateFlowDirect k) as [k1 [u|e]]; [|done].
      destruct (sink_PolicyGeneration k1 =? 0) eqn:E; [done|]. injection Hinv as <- <-. boolprop. eauto.
    - injection Hinv as <- <-. eexists. split; [|done].
      pose proof (next_generation_range (c_PolicyGeneration (b_Control (l_backend l)))). lia. }
  simpl in *. destruct (adopt_generation_control (l_backend l) g) as (Fc & Fp & F4 & F6).
  unfold generation_of in Hlt. rewrite Fc in Hlt. simpl in Hlt. fold (generation_of (l_backend l)) in Hlt.
  destruct (inv_control _ Hi) as (Hp & Ha & _). destruct (inv_banks _ Hi) as (N4 & N6 & _).
  split_and!; [| | | | |].
  1-5: unfold adopt_generation, InvalidateGeneration, invalidateGenerationMaps; rewrite (proj2 (Z.eqb_neq g 0) Hg); simpl; try done.
  - apply map_empty. intros i. apply map_lookup_filter_None. right. intros v Hv Hv'. apply Ef in Hv. simpl in *. lia.
  - apply map_empty. intros i. apply map_lookup_filter_None. right. intros v Hv Hv'. apply Ed in Hv. simpl in *. lia.
  - intros dest protocol dport. unfold LookupStatic. rewrite Fc, F4, F6. cbn [c_ActiveBank c_PolicyGeneration control_with_generation control_with_bank].
    rewrite Ha. assert (Z.to_nat (bp_active (b_Publisher (l_backend l))) < 2)%nat as Hlt2
      by (destruct Hp as ([->| ->] & _); simpl; lia).
    case_match.
    + destruct (lookup_lt_is_Some_2 (b_Policy4 (l_backend l)) (Z.to_nat (bp_active (b_Publisher (l_backend l))))) as [m Hm]; [lia|].
      rewrite Hm. f_equal. destruct (m !! _) as [v|] eqn:Ev; [|done]. simpl.
      pose proof (Forall_lookup_1 _ _ _ _ L4 Hm _ _ Ev). simpl in *. by assert ((pv_Generation v =? g) = false) as -> by lia.
    + destruct (lookup_lt_is_Some_2 (b_Policy6 (l_backend l)) (Z.to_nat (bp_active (b_Publisher (l_backend l))))) as [m Hm]; [lia|].
      rewrite Hm. f_equal. destruct (m !! _) as [v|] eqn:Ev; [|done]. simpl.
      pose proof (Forall_lookup_1 _ _ _ _ L6 Hm _ _ Ev). simpl in *. by assert ((pv_Generation v =? g) = false) as -> by lia.
Qed.

Lemma existsb_eqb_true s ls : existsb (String.eqb s) ls = true → s ∈ ls.
Proof. intros (x & Hin & ->%String.eqb_eq)%existsb_exists. by apply list_elem_of_In. Qed.

(** The choices a normalised v3 configuration can hold. *)
Definition v3_safe (o : EBPFSharedNetworkOptions) : Prop :=
  so_Engine o = EngineV3 ∧ so_DataPlane o = "socket_assign" ∧ so_FailureMode o = "proxy" ∧
  so_DropUDP443 o ≠ None ∧ po_DNSIPHint (so_PolicyOffload o) ∈ ["off"; "safe"; "strong"] ∧
  (po_Enabled (so_PolicyOffload o) = true →
     po_StaticRules (so_PolicyOffload o) || po_ExactFlowLearning (so_PolicyOffload o)
     || po_FakeIP (so_PolicyOffload o) || po_MACSourcePolicy (so_PolicyOffload o) = true).

Lemma NormalizeSharedNetwork_cases o o' :
  NormalizeSharedNetwork o = Ok o' →
  xdp_Mode (so_XDP o') ∈ ["auto"; "skb"; "native"; "offload"] ∧
  (so_Engine o' = EngineV2 ∧ xdp_Enabled (so_XDP o') = false ∨ v3_safe o').
Proof.
  unfold NormalizeSharedNetwork. cbv zeta. set (engine := trim_space (to_lower (so_Engine o))).
  set (mode := to_lower (trim_space _)).
  destruct (existsb (String.eqb mode) _) eqn:Em; [|done]. apply existsb_eqb_true in Em. cbn [negb xdp_Enabled].
  destruct (xdp_Enabled (so_XDP o) && negb (String.eqb engine EngineV3)) eqn:Ex; [done|].
  destruct (String.eqb engine "" || String.eqb engine EngineV2) eqn:E2.
  { intros [= <-]. split; [done|]. left. split; [done|]. simpl.
    assert (String.eqb engine EngineV3 = false) as H3.
    { apply orb_prop in E2 as [->%String.eqb_eq | ->%String.eqb_eq]; done. }
    rewrite H3, andb_true_r in Ex. done. }
  destruct (String.eqb engine EngineV3); [|done]. cbn [negb].
  set (dp := if String.eqb (so_DataPlane o) "" then _ else _).
  destruct (String.eqb dp "socket_assign") eqn:Ed; cbn [negb andb]; [|by case_match].
  set (fm := if String.eqb (so_FailureMode o) "" then _ else _).
  destruct (String.eqb fm "proxy") eqn:Ef; cbn [negb]; [|done].
  set (hint := if String.eqb (po_DNSIPHint (so_PolicyOffload o)) "" then _ else _).
  destruct (existsb (String.eqb hint) _) eqn:Eh; cbn [negb]; [|done]. intros [= <-].
  split; [done|]. right. unfold v3_safe; simpl. apply String.eqb_eq in Ed, Ef.
  split_and!; try done; [by destruct (so_DropUDP443 o) | by apply existsb_eqb_true |].
  intros ->. by destruct (po_StaticRules _), (po_ExactFlowLearning _), (po_FakeIP _), (po_MACSourcePolicy _).
Qed.

Lemma Normalize_v2_fixed o :
  xdp_Mode (so_XDP o) ∈ ["auto"; "skb"; "native"; "offload"] → so_Engine o = EngineV2 →
  xdp_Enabled (so_XDP o) = false → NormalizeSharedNetwork o = Ok o.
Proof.
  destruct o as [eng dp drop pol fm [xe xm xa]]. simpl. intros Hm -> ->.
  repeat (apply elem_of_cons in Hm as [->|Hm]); [reflexivity..|by apply elem_of_nil in Hm].
Qed.

Lemma Normalize_v3_fixed o :
  xdp_Mode (so_XDP o) ∈ ["auto"; "skb"; "native"; "offload"] → v3_safe o → NormalizeSharedNetwork o = Ok o.
Proof.
  destruct o as [eng dp drop [en st ex hint fk mc] fm [xe xm xa]]. unfold v3_safe. simpl.
  intros Hm (-> & -> & -> & Hd & Hh & Hen). destruct drop as [d|]; [|done].
  repeat (apply elem_of_cons in Hm as [->|Hm]); [..|by apply elem_of_nil in Hm];
    (repeat (apply elem_of_cons in Hh as [->|Hh]); [..|by apply elem_of_nil in Hh]);
    destruct en, st, ex, fk, mc, xe; try reflexivity; by specialize (Hen eq_refl).
Qed.

(** Normalisation of the shared-network options is idempotent and safe: a
    normalised configuration is a fixed point, names a known XDP mode, and is
    either the v2 engine without XDP or a v3 configuration with socket assignment,
    failure mode proxy, a known DNS hint mode and, when offload is enabled, at least one feature. *)
Theorem NormalizeSharedNetwork_idempotent (o o' : EBPFSharedNetworkOptions) :
  NormalizeSharedNetwork o = Ok o' →
  NormalizeSharedNetwork o' = Ok o' ∧
  (so_Engine o' = EngineV2 ∧ xdp_Enabled (so_XDP o') = false ∨ v3_safe o') ∧
  (IsV3 o' = true ↔ so_Engine o' = EngineV3).
Proof.
  intros [Hm Hc]%NormalizeSharedNetwork_cases. split_and!; [|done|].
  - destruct Hc as [[? ?]|?]; [by apply Normalize_v2_fixed | by apply Normalize_v3_fixed].
  - unfold IsV3. destruct Hc as [[-> _]|(-> & _)]; by split.
Qed.

(** At the top of the 32-bit generation counter the model splits: an
    invalidation without a kernel sink wraps the control word to 1 while the
    publisher, which refuses to go backwards, keeps the old generation. *)
Theorem invalidate_wrap_splits_model {K : Type} `{DataplaneSink K} (l : Lifecycle) (k : K) :
  l_bound l = false → generation_of (l_backend l) = u32_max → bp_generation (b_Publisher (l_backend l)) = u32_max →
  let '(l', _, r) := invalidateGenerationLocked l k in
  r = Ok tt ∧ generation_of (l_backend l') = 1 ∧ bp_generation (b_Publisher (l_backend l')) = u32_max.
Proof.
  intros Hb Hg Hp. unfold invalidateGenerationLocked. rewrite Hb.
  change (c_PolicyGeneration (b_Control (l_backend l))) with (generation_of (l_backend l)). rewrite Hg.
  replace (next_generation u32_max) with 1 by reflexivity. split; [done|]. cbn [l_backend with_backend]. unfold generation_of.
  destruct (adopt_generation_control (l_backend l) 1) as (-> & -> & _). split; [done|].
  unfold SyncGeneration. rewrite Hp. exact Hp.
Qed.

(** ** Witnesses *)

(** A kernel whose answers are scripted: each mutating call takes the next
    answer (success when the script is over); an accepted invalidation advances
    the reported generation. *)
Definition scripted (k : list bool * Z) : (list bool * Z) * result unit :=
  match k.1 with
  | false :: rest => ((rest, k.2), Err "EIO")
  | true :: rest => ((rest, k.2), Ok tt)
  | [] => (k, Ok tt)
  end.

#[local] Instance scripted_sink : DataplaneSink (list bool * Z) := {|
  sink_PublishStaticDirect _ _ _ := scripted;
  sink_MergeDynamicDirect _ _ := scripted;
  sink_PutDirectFlow _ _ _ _ := scripted;
  sink_DeleteDirectFlow _ _ _ := scripted;
  sink_PublishDNSHint _ _ _ _ _ := scripted;
  sink_PublishMACPolicies _ := scripted;
  sink_DeleteMergedStaticDirect _ := scripted;
  sink_WriteControlV3 _ _ _ _ _ := scripted;
  sink_InvalidateFlowDirect k := let '(k, r) := scripted k in (if is_ok r then (k.1, k.2 + 1) else k, r);
  sink_Disable := scripted;
  sink_PolicyGeneration k := k.2 |}.

Definition demo_options : EBPFSharedNetworkOptions :=
  mkSharedNetwork " V3 " "" None (mkPolicyOffload true true true "" false true) "" (mkXDP false "" false).

Definition demo_normalized : EBPFSharedNetworkOptions :=
  mkSharedNetwork EngineV3 "socket_assign" (Some false) (mkPolicyOffload true true true "safe" false true) "proxy"
    (mkXDP false "auto" false).

Definition demo_lifecycle : Lifecycle := mkLifecycle demo_normalized NewMemoryBackend false (10 * minute) false false.

Definition demo_entry : MACPolicyEntry :=
  mkMACPolicyEntry (mkMACKey [2; 0; 0; 0; 0; 1] [0; 0] 0) (mkMACPolicyValue VerdictProxy 0 2 0 5 0 0 0).

Lemma demo_lifecycle_new : NewLifecycle demo_options 0 = Ok demo_lifecycle.
Proof. reflexivity. Qed.

Lemma dual_write_lockstep_witness :
  ∃ l' k' evs r, @run_op _ (logging_sink scripted_sink) (OpPublishStaticDirect [mkPrefix (AddrV4 0x0a000000) 8])
    (BindSink demo_lifecycle) (([false], 1), []) = (l', (k', app [] evs), r) ∧ lockstep (BindSink demo_lifecycle) l' evs r.
Proof.
  apply (dual_write_lockstep scripted_sink); [reflexivity | reflexivity | apply NewMemoryBackend_model_inv |].
  constructor; [apply (bool_decide_unpack _); vm_compute; exact I | constructor].
Defined.

Definition demo_after : list lifecycle_op :=
  [OpApplyControlFlags true true true true false 7; OpPublishMACSourcePolicies [demo_entry]].

Lemma dataplane_quarantine_one_way_witness :
  let S' := logging_sink scripted_sink in
  let mid := run_ops [OpPublishMACSourcePolicies [demo_entry]] (BindSink demo_lifecycle, (([false; false; false], 1), [])) in
  l_dataplaneQuarantined mid.1 = true ∧ enabled_word (run_ops demo_after mid).1 = 0.
Proof.
  intros S' mid. assert (l_dataplaneQuarantined mid.1 = true) as Hq by (vm_compute; reflexivity).
  split; [exact Hq|].
  exact (proj1 (proj2 (dataplane_quarantine_one_way scripted_sink demo_options 0 demo_lifecycle
    (([false; false; false], 1), []) [OpPublishMACSourcePolicies [demo_entry]] demo_after demo_lifecycle_new Hq))).
Defined.

Lemma MAC_failure_retired_witness :
  let '(l', (k', tr'), r) := @PublishMACSourcePolicies _ (logging_sink scripted_sink) (BindSink demo_lifecycle) [demo_entry] (([false; false; true], 1), []) in
  is_ok r = false ∧ l_macQuarantined l' = true.
Proof.
  pose proof (MAC_failure_retired scripted_sink (BindSink demo_lifecycle) [demo_entry] ([false; false; true], 1)
    ([false; true], 1) "EIO" [] eq_refl eq_refl eq_refl ltac:(vm_compute; congruence) eq_refl) as H.
  destruct (PublishMACSourcePolicies _ _ _) as [[l' [k' tr']] r]. destruct H as (H1 & H2 & _). split; assumption.
Defined.

Lemma MAC_quarantine_holds_witness :
  let l := BindSink (with_macQuarantined demo_lifecycle true) in
  let out := @run_op _ (logging_sink scripted_sink) (OpPublishMACSourcePolicies [demo_entry]) l (([], 1), []) in
  (∃ evs, out.1.2.2 = app [] evs ∧ Forall (λ e, mac_enabling e = false) evs) ∨
  (∃ entries e, OpPublishMACSourcePolicies [demo_entry] = OpPublishMACSourcePolicies entries ∧
     out.1.2.2 = app [] [EvPublishMACPolicies entries true; e] ∧ is_control e = true).
Proof.
  intros l out.
  apply (MAC_quarantine_holds scripted_sink (OpPublishMACSourcePolicies [demo_entry]) l out.1.1 (([], 1), []) out.1.2 out.2);
    [reflexivity | reflexivity | apply injective_projections; [apply injective_projections|]; reflexivity].
Defined.

Lemma InvalidateGeneration_fails_closed_witness :
  b_Flows (l_backend (invalidateGenerationLocked (BindSink demo_lifecycle) ([] : list bool, 1)).1.1) = ∅ ∧
  LookupStatic (l_backend (invalidateGenerationLocked (BindSink demo_lifecycle) ([] : list bool, 1)).1.1) (AddrV4 1) 6 443 = Ok None.
Proof.
  pose proof (InvalidateGeneration_fails_closed demo_options 0 demo_lifecycle (BindSink demo_lifecycle)
    (invalidateGenerationLocked (BindSink demo_lifecycle) ([] : list bool, 1)).1.1 ([], 1) ([], 1) ([], 2)
    demo_lifecycle_new ltac:(eapply rtc_l; [apply do_bind | apply rtc_refl]) eq_refl ltac:(vm_compute; reflexivity)) as (H1 & _ & _ & _ & _ & H2).
  split; [exact H1 | apply H2].
Defined.

Lemma NormalizeSharedNetwork_idempotent_witness : NormalizeSharedNetwork demo_normalized = Ok demo_normalized.
Proof. exact (proj1 (NormalizeSharedNetwork_idempotent demo_options demo_normalized eq_refl)). Defined.

Lemma invalidate_wrap_splits_model_witness :
  let b := set_Publisher (set_Control NewMemoryBackend (control_with_generation (b_Control NewMemoryBackend) u32_max))
             (mkBankPublisher 0 u32_max 0) in
  let '(l', _, r) := invalidateGenerationLocked (with_backend demo_lifecycle b) ([] : list bool, 1) in
  r = Ok tt ∧ generation_of (l_backend l') = 1 ∧ bp_generation (b_Publisher (l_backend l')) = u32_max.
Proof. intros b. exact (invalidate_wrap_splits_model (with_backend demo_lifecycle b) ([], 1) eq_refl eq_refl eq_refl). Defined.
