(* ===== verification/RouteRule.v ===== *)
(** * Rule matching: [src/route/rule/]

    The matcher of routing and DNS rules: [match_state.go] (the four match
    groups), [rule_abstract.go] (default and logical rules with destination-IP
    deferral), [rule_item_rule_set.go] (rule-sets merged into the rule that
    refers to them), the DNS rule wrappers of [rule_dns.go] and the item classes
    of [rule_item_match_class.go].  A rule mutates the context it is matched
    against; the model threads the mutable part of [adapter.InboundContext]
    explicitly and returns it.  Rule items are values of the interface
    [RuleItem]: a class and a predicate of the immutable view of the connection.

    The abstract specification [holds] is a boolean function of the view; the
    matcher refines it when no destination-IP match is deferred.  In the DNS
    pre-match, where destination-IP items cannot be decided yet, the matcher
    computes a three-valued answer whose definite cases are sound. *)

From S2P Require Import Prelude NetIP.
From stdpp Require Import base gmap list strings numbers.
From Stdlib Require Import ZArith Lia.

Local Open Scope Z_scope.

(** ** The connection being matched *)

(** A DNS response as the matcher sees it: its address answers. *)
Definition Response : Type := list Addr.

(** The part of [adapter.InboundContext] the items read.  [v_DestIsIP] and
    [v_DestIsIPv6] are the answers of the destination's own [IsIP] and [IsIPv6]
    (methods of another package); [v_attrs] stands for the attributes of the item
    kinds that are not modelled one by one. *)
Record View : Type := mkView {
  v_SourceAddr : Addr;
  v_SourcePort : Z;
  v_DestAddr : Addr;
  v_DestFqdn : string;
  v_DestPort : Z;
  v_DestIsIP : bool;
  v_DestIsIPv6 : bool;
  v_DestinationAddresses : list Addr;
  v_Domain : string;
  v_Network : string;
  v_IPVersion : Z;
  v_attrs : gmap string string;
  v_DNSResponse : option Response;
  v_DestinationAddressMatchFromResponse : bool;
  v_IPCIDRMatchSource : bool;
  v_IPCIDRAcceptEmpty : bool }.

Inductive RouteVerdictScope : Type := RouteVerdictScopeUnknown | RouteVerdictScopeDestinationIP.

#[global] Instance RouteVerdictScope_eq_dec : EqDecision RouteVerdictScope.
Proof. solve_decision. Defined.

(** The context with the fields matching writes. *)
Record InboundContext : Type := mkContext {
  m_view : View;
  m_NamedDNSResponses : gmap string Response;
  m_MatchInputs : Z;
  m_DeferredIPCIDRMatchGroups : Z;
  m_IgnoreDestinationIPCIDRMatch : bool;
  m_VerdictScope : RouteVerdictScope }.

Definition with_cidr_mode (v : View) (source acceptEmpty : bool) : View :=
  mkView (v_SourceAddr v) (v_SourcePort v) (v_DestAddr v) (v_DestFqdn v) (v_DestPort v) (v_DestIsIP v) (v_DestIsIPv6 v)
    (v_DestinationAddresses v) (v_Domain v) (v_Network v) (v_IPVersion v) (v_attrs v) (v_DNSResponse v)
    (v_DestinationAddressMatchFromResponse v) source acceptEmpty.
(** [DNSResponse = response; DestinationAddressMatchFromResponse = true] *)
Definition with_response (v : View) (response : option Response) : View :=
  mkView (v_SourceAddr v) (v_SourcePort v) (v_DestAddr v) (v_DestFqdn v) (v_DestPort v) (v_DestIsIP v) (v_DestIsIPv6 v)
    (v_DestinationAddresses v) (v_Domain v) (v_Network v) (v_IPVersion v) (v_attrs v) response
    true (v_IPCIDRMatchSource v) (v_IPCIDRAcceptEmpty v).

Definition with_view (m : InboundContext) (v : View) : InboundContext :=
  mkContext v (m_NamedDNSResponses m) (m_MatchInputs m) (m_DeferredIPCIDRMatchGroups m)
    (m_IgnoreDestinationIPCIDRMatch m) (m_VerdictScope m).
Definition with_inputs (m : InboundContext) (i : Z) : InboundContext :=
  mkContext (m_view m) (m_NamedDNSResponses m) i (m_DeferredIPCIDRMatchGroups m)
    (m_IgnoreDestinationIPCIDRMatch m) (m_VerdictScope m).
Definition with_deferred (m : InboundContext) (d : Z) : InboundContext :=
  mkContext (m_view m) (m_NamedDNSResponses m) (m_MatchInputs m) d
    (m_IgnoreDestinationIPCIDRMatch m) (m_VerdictScope m).
Definition with_ignore (m : InboundContext) (b : bool) : InboundContext :=
  mkContext (m_view m) (m_NamedDNSResponses m) (m_MatchInputs m) (m_DeferredIPCIDRMatchGroups m)
    b (m_VerdictScope m).

(** [ResetRuleMatchCache] and [ResetRuleCache]; the four per-group cache bits
    the first one also clears are read nowhere. *)
Definition ResetRuleMatchCache (m : InboundContext) : InboundContext := with_deferred m 0.
Definition ResetRuleCache (m : InboundContext) : InboundContext :=
  ResetRuleMatchCache
    (mkContext (with_cidr_mode (m_view m) false false) (m_NamedDNSResponses m) 0
       (m_DeferredIPCIDRMatchGroups m) (m_IgnoreDestinationIPCIDRMatch m) RouteVerdictScopeUnknown).

(** ** Item classes (adapter/inbound.go) *)

Definition RouteMatchUnknown : Z := 2 ^ 31.
Definition RouteMatchIP : Z := 2 ^ 0.
Definition RouteMatchPort : Z := 2 ^ 1.
Definition RouteMatchNetwork : Z := 2 ^ 2.
Definition RouteMatchDomain : Z := 2 ^ 3.
Definition RouteMatchProcess : Z := 2 ^ 4.
Definition RouteMatchUser : Z := 2 ^ 5.
Definition RouteMatchProtocol : Z := 2 ^ 8.
Definition RouteMatchOther : Z := 2 ^ 10.

(** What the static sink needs to know of an item's dynamic type. *)
Inductive ItemKind : Type :=
| KindIPCIDR (isSource : bool) (prefixes : list Prefix)
| KindSourceMAC (macs : list (list Z))
| KindOther.

(** [RuleItem] with [RuleItemClass]. *)
Record RuleItem : Type := mkItem {
  ri_kind : ItemKind;
  ri_class : Z;
  ri_match : View → bool }.

Record RuleSetMetadata : Type := mkRuleSetMetadata {
  sm_ContainsProcessRule : bool;
  sm_ContainsWIFIRule : bool;
  sm_ContainsIPCIDRRule : bool;
  sm_ContainsDNSQueryTypeRule : bool;
  sm_ContainsNonIPCIDRRule : bool }.

(** ** Concrete items; the IP set, the domain matcher and the public-address
    test are code of other packages and are parameters. *)

Definition host_of (v : View) : string :=
  if negb (String.eqb (v_Domain v) "") then v_Domain v else v_DestFqdn v.

(** [DNSResponseAddressesForMatch] *)
Definition response_addresses (v : View) : list Addr := default [] (v_DNSResponse v).

Definition IPCIDRItem (contains : Addr → bool) (prefixes : list Prefix) (isSource : bool) : RuleItem :=
  mkItem (KindIPCIDR isSource prefixes) RouteMatchIP (λ v,
    if isSource || v_IPCIDRMatchSource v then contains (v_SourceAddr v)
    else if v_DestinationAddressMatchFromResponse v then
      match response_addresses v with
      | [] => v_IPCIDRAcceptEmpty v
      | addresses => existsb contains addresses
      end
    else if v_DestIsIP v then contains (v_DestAddr v)
    else if negb (bool_decide (v_DestinationAddresses v = [])) then existsb contains (v_DestinationAddresses v)
    else v_IPCIDRAcceptEmpty v).

Definition IPIsPrivateItem (isPublic : Addr → bool) (isSource : bool) : RuleItem :=
  mkItem KindOther RouteMatchIP (λ v,
    if isSource then negb (isPublic (v_SourceAddr v))
    else if v_DestinationAddressMatchFromResponse v then existsb (λ a, negb (isPublic a)) (response_addresses v)
    else if addr_is_valid (v_DestAddr v) then negb (isPublic (v_DestAddr v))
    else existsb (λ a, negb (isPublic a)) (v_DestinationAddresses v)).

Definition IPVersionItem (isIPv6 : bool) : RuleItem :=
  mkItem KindOther RouteMatchIP (λ v,
    negb (v_IPVersion v =? 0) && Bool.eqb (v_IPVersion v =? 6) isIPv6
    || v_DestIsIP v && Bool.eqb (v_DestIsIPv6 v) isIPv6).

Definition IPAcceptAnyItem : RuleItem :=
  mkItem KindOther RouteMatchIP (λ v,
    if v_DestinationAddressMatchFromResponse v then negb (bool_decide (response_addresses v = []))
    else negb (bool_decide (v_DestinationAddresses v = []))).

Definition PortItem (ports : list Z) (isSource : bool) : RuleItem :=
  mkItem KindOther RouteMatchPort (λ v,
    existsb (Z.eqb (if isSource then v_SourcePort v else v_DestPort v)) ports).

Definition PortRangeItem (ranges : list (Z * Z)) (isSource : bool) : RuleItem :=
  mkItem KindOther RouteMatchPort (λ v,
    let port := if isSource then v_SourcePort v else v_DestPort v in
    existsb (λ r, (r.1 <=? port) && (port <=? r.2)) ranges).

Definition NetworkItem (networks : list string) : RuleItem :=
  mkItem KindOther RouteMatchNetwork (λ v, existsb (String.eqb (v_Network v)) networks).

Definition DomainItem (toLower : string → string) (matcher : string → bool) : RuleItem :=
  mkItem KindOther RouteMatchDomain (λ v,
    if String.eqb (host_of v) "" then false else matcher (toLower (host_of v))).

(** ** Rules *)

(** The item lists of [abstractDefaultRule]; [allItems] is what the
    constructors append every item to. *)
Record DefaultItems : Type := mkDefaultItems {
  items : list RuleItem;
  sourceAddressItems : list RuleItem;
  sourcePortItems : list RuleItem;
  destinationAddressItems : list RuleItem;
  destinationIPCIDRItems : list RuleItem;
  destinationPortItems : list RuleItem }.

(** *** The constructor of a route rule

    The item kinds that are not modelled one by one (inbound, network, domain, process,
    user and the like) are given as items of their class; prefix sets and port ranges
    as parsed.  The errors of the action, of parsing and of options that were removed
    are not modelled: such a rule is not built. *)

Inductive OtherClass : Type := ClassNetwork | ClassDomain | ClassProtocol | ClassProcess | ClassUser | ClassOther | ClassUnknown.
Definition other_bits (c : OtherClass) : Z :=
  match c with
  | ClassNetwork => RouteMatchNetwork
  | ClassDomain => RouteMatchDomain
  | ClassProtocol => RouteMatchProtocol
  | ClassProcess => RouteMatchProcess
  | ClassUser => RouteMatchUser
  | ClassOther => RouteMatchOther
  | ClassUnknown => RouteMatchUnknown
  end.
Record OtherItem : Type := mkOther { oi_kind : ItemKind; oi_class : OtherClass; oi_match : View → bool }.
Definition other_item (o : OtherItem) : RuleItem := mkItem (oi_kind o) (other_bits (oi_class o)) (oi_match o).

Record DefaultRuleOptions : Type := mkRuleOptions {
  op_Inbound : list OtherItem;
  op_IPVersion : Z;
  op_Attributes : list OtherItem;
  op_Domains : list OtherItem;
  op_SourceIPCIDR : option ((Addr → bool) * list Prefix);
  op_SourceIPIsPrivate : bool;
  op_IPCIDR : option ((Addr → bool) * list Prefix);
  op_IPIsPrivate : bool;
  op_SourcePort : list Z;
  op_SourcePortRange : list (Z * Z);
  op_Port : list Z;
  op_PortRange : list (Z * Z);
  op_Others : list OtherItem }.

Definition cidr_items (o : option ((Addr → bool) * list Prefix)) (isSource : bool) : list RuleItem :=
  match o with Some (contains, prefixes) => [IPCIDRItem contains prefixes isSource] | None => [] end.
Definition private_items (isPublic : Addr → bool) (on isSource : bool) : list RuleItem :=
  if on then [IPIsPrivateItem isPublic isSource] else [].
Definition port_items (ports : list Z) (ranges : list (Z * Z)) (isSource : bool) : list RuleItem :=
  (if bool_decide (ports = []) then [] else [PortItem ports isSource]) ++ (if bool_decide (ranges = []) then [] else [PortRangeItem ranges isSource]).

Definition NewDefaultRule (isPublic : Addr → bool) (o : DefaultRuleOptions) : result DefaultItems :=
  if (0 <? op_IPVersion o) && negb ((op_IPVersion o =? 4) || (op_IPVersion o =? 6)) then Err "invalid ip version"
  else
    Ok (mkDefaultItems
          (map other_item (op_Inbound o) ++ (if 0 <? op_IPVersion o then [IPVersionItem (op_IPVersion o =? 6)] else [])
           ++ map other_item (op_Attributes o) ++ map other_item (op_Others o))
          (cidr_items (op_SourceIPCIDR o) true ++ private_items isPublic (op_SourceIPIsPrivate o) true)
          (port_items (op_SourcePort o) (op_SourcePortRange o) true)
          (map other_item (op_Domains o))
          (cidr_items (op_IPCIDR o) false ++ private_items isPublic (op_IPIsPrivate o) false)
          (port_items (op_Port o) (op_PortRange o) false)).

(** [adapter.HeadlessRule] values: default and logical rules (of routes and
    rule-sets) and the two DNS rules.  [RuleSetItem] is part of a default rule:
    the two flags and the rule-sets, each a list of headless rules with metadata. *)
Unset Elimination Schemes.
Inductive Rule : Type :=
| RuleDefault (d : DefaultItems) (sets : option RuleSets) (invert : bool)
| RuleLogical (isAnd : bool) (rules : list Rule) (invert : bool)
| RuleDNSDefault (d : DefaultItems) (sets : option RuleSets) (invert : bool)
    (matchResponse : bool) (matchResponseTag : string)
| RuleDNSLogical (isAnd : bool) (rules : list Rule) (invert : bool)
with RuleSets : Type :=
| mkRuleSets (ipCidrMatchSource ipCidrAcceptEmpty : bool) (setList : list (list Rule * RuleSetMetadata)).
Set Elimination Schemes.

(** ** Match groups (match_state.go) *)

Definition ruleMatchSourceAddress : Z := 1.
Definition ruleMatchSourcePort : Z := 2.
Definition ruleMatchDestinationAddress : Z := 4.
Definition ruleMatchDestinationPort : Z := 8.

Record ruleGroupMatch : Type := mkGroups { g_required : Z; g_satisfied : Z }.

Definition done (g : ruleGroupMatch) : bool := (g_required g &^ g_satisfied g) =? 0.
Definition mergeWith (g other : ruleGroupMatch) : ruleGroupMatch :=
  mkGroups (g_required g .| g_required other) (g_satisfied g .| g_satisfied other).
Definition has (s target : Z) : bool := negb (s .& target =? 0).

Definition matchAnyItem (l : list RuleItem) (v : View) : bool := existsb (λ i, ri_match i v) l.
Definition accumulateItemClasses (m : InboundContext) (l : list RuleItem) : InboundContext :=
  foldl (λ m i, with_inputs m (m_MatchInputs m .| ri_class i)) m l.

(** One group of [evaluateGroups]: when [present], its classes are recorded, the
    bit is required and, if [test] succeeds, satisfied. *)
Definition group_step (present : bool) (bit : Z) (l : list RuleItem) (skipSatisfied : bool)
    (s : ruleGroupMatch * InboundContext) : ruleGroupMatch * InboundContext :=
  let '(g, m) := s in
  if present then
    let m := accumulateItemClasses m l in
    let g := mkGroups (g_required g .| bit) (g_satisfied g) in
    if negb (skipSatisfied && has (g_satisfied g) bit) && matchAnyItem l (m_view m)
    then (mkGroups (g_required g) (g_satisfied g .| bit), m)
    else (g, m)
  else s.

Definition nonempty {A} (l : list A) : bool := match l with [] => false | _ => true end.

Definition destinationIPCIDRMatchesSource (d : DefaultItems) (m : InboundContext) : bool :=
  v_IPCIDRMatchSource (m_view m) && nonempty (destinationIPCIDRItems d).
Definition destinationIPCIDRMatchesDestination (d : DefaultItems) (m : InboundContext) : bool :=
  negb (m_IgnoreDestinationIPCIDRMatch m) && negb (v_IPCIDRMatchSource (m_view m))
  && nonempty (destinationIPCIDRItems d).

Definition evaluateGroups (d : DefaultItems) (m : InboundContext) : ruleGroupMatch * InboundContext :=
  let s := (mkGroups 0 0, m) in
  let s := group_step (nonempty (sourceAddressItems d)) ruleMatchSourceAddress (sourceAddressItems d) false s in
  let s := group_step (destinationIPCIDRMatchesSource d m) ruleMatchSourceAddress (destinationIPCIDRItems d) true s in
  let s := group_step (nonempty (sourcePortItems d)) ruleMatchSourcePort (sourcePortItems d) false s in
  let s := group_step (nonempty (destinationAddressItems d)) ruleMatchDestinationAddress (destinationAddressItems d) false s in
  let s := group_step (destinationIPCIDRMatchesDestination d m) ruleMatchDestinationAddress (destinationIPCIDRItems d) true s in
  let s := group_step (nonempty (destinationPortItems d)) ruleMatchDestinationPort (destinationPortItems d) false s in
  let '(g, m') := s in
  (g, if m_IgnoreDestinationIPCIDRMatch m && negb (v_IPCIDRMatchSource (m_view m))
         && nonempty (destinationIPCIDRItems d) && negb (nonempty (destinationAddressItems d))
      then with_deferred m' (m_DeferredIPCIDRMatchGroups m' .| ruleMatchDestinationAddress) else m').

(** The loop over the plain items: the context and whether all matched. *)
Fixpoint match_items (l : list RuleItem) (m : InboundContext) : bool * InboundContext :=
  match l with
  | [] => (true, m)
  | i :: l =>
      let m := with_inputs m (m_MatchInputs m .| ri_class i) in
      if ri_match i (m_view m) then match_items l m else (false, m)
  end.

Definition evaluateForMerge (d : DefaultItems) (m : InboundContext) : option ruleGroupMatch * InboundContext :=
  let '(groups, m) := evaluateGroups d m in
  let '(ok, m) := match_items (items d) m in
  (if ok then Some groups else None, m).

(** [RuleSetItem.MatchClass] *)
Definition set_class (meta : RuleSetMetadata) (class : Z) : Z :=
  let add (b : bool) (f c : Z) := if b then c .| f else c in
  add (sm_ContainsNonIPCIDRRule meta) (RouteMatchDomain .| RouteMatchOther)
    (add (sm_ContainsDNSQueryTypeRule meta) RouteMatchOther
      (add (sm_ContainsWIFIRule meta) RouteMatchOther
        (add (sm_ContainsProcessRule meta) RouteMatchProcess
          (add (sm_ContainsIPCIDRRule meta) RouteMatchIP class)))).

Definition sets_class (s : RuleSets) : Z :=
  let '(mkRuleSets _ _ setList) := s in
  match setList with
  | [] => RouteMatchUnknown
  | _ =>
      let class := foldl (λ c set, set_class set.2 c) 0 setList in
      if class =? 0 then RouteMatchUnknown else class
  end.

Definition nestedMetadata (ipCidrMatchSource ipCidrAcceptEmpty : bool) (m : InboundContext) : InboundContext :=
  let m := ResetRuleMatchCache m in
  with_view m (with_cidr_mode (m_view m) ipCidrMatchSource ipCidrAcceptEmpty).

(** [mergeableRuleIn]: the rules of a rule-set are headless rules. *)
Definition mergeableRuleIn (rules : list Rule) : option DefaultItems :=
  match rules with
  | [RuleDefault d None false] => Some d
  | _ => None
  end.

Definition allItems_empty (d : DefaultItems) (sets : option RuleSets) : bool :=
  negb (nonempty (items d) || nonempty (sourceAddressItems d) || nonempty (sourcePortItems d)
        || nonempty (destinationAddressItems d) || nonempty (destinationIPCIDRItems d)
        || nonempty (destinationPortItems d) || bool_decide (is_Some sets)).

(** ** Matching *)

Definition Matcher : Type := InboundContext → bool * InboundContext.

(** [matchAnyHeadlessRule]: every rule gets its own copy of the context. *)
Fixpoint match_any_loop (rules : list Matcher) (m : InboundContext) (matched : bool) (deferred : Z) : bool * InboundContext :=
  match rules with
  | [] => (matched, if matched then with_deferred m (m_DeferredIPCIDRMatchGroups m .| deferred) else m)
  | r :: rules =>
      let '(b, nested) := r (ResetRuleMatchCache m) in
      if b then
        if m_DeferredIPCIDRMatchGroups nested =? 0 then (true, m)
        else match_any_loop rules m true (deferred .| m_DeferredIPCIDRMatchGroups nested)
      else match_any_loop rules m matched deferred
  end.
Definition matchAnyHeadlessRule (rules : list Matcher) : Matcher := λ m, match_any_loop rules m false 0.

(** [matchWithOuterGroups] over the rule-sets: each is its mergeable rule, if it
    has one, and its own matcher. *)
Fixpoint outer_groups_loop (source acceptEmpty : bool) (sets : list (option DefaultItems * Matcher))
    (outer : ruleGroupMatch) (m : InboundContext) (matched : bool) (deferred : Z) : bool * InboundContext :=
  match sets with
  | [] => (matched, if matched then with_deferred m (m_DeferredIPCIDRMatchGroups m .| deferred) else m)
  | (Some branch, _) :: sets =>
      let '(groups, nested) := evaluateForMerge branch (nestedMetadata source acceptEmpty m) in
      match groups with
      | Some groups =>
          let merged := mergeWith outer groups in
          if done merged then
            let branchDeferred := m_DeferredIPCIDRMatchGroups nested &^ g_satisfied merged in
            if branchDeferred =? 0
            then (true, with_deferred m (m_DeferredIPCIDRMatchGroups m &^ g_satisfied merged))
            else outer_groups_loop source acceptEmpty sets outer m true (deferred .| branchDeferred)
          else outer_groups_loop source acceptEmpty sets outer m matched deferred
      | None => outer_groups_loop source acceptEmpty sets outer m matched deferred
      end
  | (None, set) :: sets =>
      if done outer then
        let '(b, nested) := set (nestedMetadata source acceptEmpty m) in
        if b then
          if m_DeferredIPCIDRMatchGroups nested =? 0 then (true, m)
          else outer_groups_loop source acceptEmpty sets outer m true (deferred .| m_DeferredIPCIDRMatchGroups nested)
        else outer_groups_loop source acceptEmpty sets outer m matched deferred
      else outer_groups_loop source acceptEmpty sets outer m matched deferred
  end.

(** A rule-set item ready to run: its class and [matchWithOuterGroups]. *)
Definition SetRunner : Type := Z * (ruleGroupMatch → InboundContext → bool * InboundContext).

(** [matchInner] *)
Definition matchInner (d : DefaultItems) (sets : option SetRunner) (m : InboundContext) : bool * InboundContext :=
  let '(groups, m) := evaluateGroups d m in
  let '(ok, m) := match_items (items d) m in
  if negb ok then (false, m)
  else
    let '(matched, m) :=
      match sets with
      | Some (class, run) => run groups (with_inputs m (m_MatchInputs m .| class))
      | None => (done groups, m)
      end in
    (matched, if matched then with_deferred m (m_DeferredIPCIDRMatchGroups m &^ g_satisfied groups) else m).

(** [abstractDefaultRule.Match] *)
Definition default_Match (empty : bool) (d : DefaultItems) (sets : option SetRunner) (invert : bool) : Matcher := λ m,
  if empty then (true, m)
  else
    let before := m_MatchInputs m in
    let beforeDeferred := m_DeferredIPCIDRMatchGroups m in
    let '(matched, m) := matchInner d sets (with_deferred (with_inputs m 0) 0) in
    let ruleInputs := m_MatchInputs m in
    let deferredGroups := m_DeferredIPCIDRMatchGroups m in
    let '(matched, deferredGroups) :=
      if invert then
        if negb matched then (true, 0) else (negb (deferredGroups =? 0), deferredGroups)
      else (matched, deferredGroups) in
    if matched
    then (true, with_deferred (with_inputs m (before .| ruleInputs)) (beforeDeferred .| deferredGroups))
    else (false, with_deferred (with_inputs m before) beforeDeferred).

(** The AND loop of [abstractLogicalRule.Match]. *)
Fixpoint and_loop (rules : list Matcher) (m : InboundContext) (matched : bool) (collected deferred : Z) : bool * Z * Z :=
  match rules with
  | [] => (matched, collected, deferred)
  | r :: rules =>
      let '(b, nested) := r (ResetRuleCache m) in
      let collected := collected .| m_MatchInputs nested in
      let deferred := deferred .| m_DeferredIPCIDRMatchGroups nested in
      if b then and_loop rules m matched collected deferred
      else if deferred =? 0 then (false, collected, deferred)
      else and_loop rules m false collected deferred
  end.

(** The OR loop. *)
Fixpoint or_loop (rules : list Matcher) (m : InboundContext) (matched : bool) (collected deferred : Z) : bool * Z * Z :=
  match rules with
  | [] => (matched, collected, deferred)
  | r :: rules =>
      let '(b, nested) := r (ResetRuleCache m) in
      let deferred := deferred .| m_DeferredIPCIDRMatchGroups nested in
      if b then
        let collected := m_MatchInputs nested in
        if m_DeferredIPCIDRMatchGroups nested =? 0 then (true, collected, deferred)
        else or_loop rules m true collected deferred
      else or_loop rules m matched collected deferred
  end.

(** [abstractLogicalRule.Match] *)
Definition logical_Match (isAnd : bool) (children : list Matcher) (invert : bool) : Matcher := λ m,
  let '(matched, collected, deferred) :=
    if isAnd then and_loop children m true 0 0 else or_loop children m false 0 0 in
  let matched := if invert then (if negb (deferred =? 0) then true else negb matched) else matched in
  if matched
  then (true, with_deferred (with_inputs m (m_MatchInputs m .| collected)) (m_DeferredIPCIDRMatchGroups m .| deferred))
  else (false, m).

(** [LogicalDNSRule.matchForMatch]: a plain boolean walk. *)
Fixpoint walk (isAnd : bool) (children : list Matcher) (m : InboundContext) : bool :=
  match children with
  | [] => isAnd
  | r :: children =>
      let b := (r (ResetRuleCache m)).1 in
      if isAnd then (if b then walk isAnd children m else false)
      else (if b then true else walk isAnd children m)
  end.

Definition is_dns (r : Rule) : bool :=
  match r with RuleDNSDefault _ _ _ _ _ | RuleDNSLogical _ _ _ => true | _ => false end.

(** [defer func() { metadata.IgnoreDestinationIPCIDRMatch = false }()] around a
    match with the flag set. *)
Definition with_ignore_destination (f : Matcher) : Matcher := λ m,
  let '(b, m) := f (with_ignore m true) in (b, with_ignore m false).

(** [eval r false] is [r.Match]; [eval r true] is [r.LegacyPreMatch] of a DNS rule. *)
Fixpoint eval (r : Rule) (pre : bool) {struct r} : Matcher :=
  let child (c : Rule) : Matcher := λ m,
    if m_IgnoreDestinationIPCIDRMatch m && is_dns c then eval c true m else eval c false m in
  let runner (s : RuleSets) : SetRunner :=
    (sets_class s,
     let '(mkRuleSets source acceptEmpty setList) := s in
     λ outer m, outer_groups_loop source acceptEmpty
       (List.map (λ set, (mergeableRuleIn (fst set), matchAnyHeadlessRule (List.map (λ c, eval c false) (fst set)))) setList)
       outer m false 0) in
  let default d sets invert := default_Match (allItems_empty d sets) d
        match sets with Some s => Some (runner s) | None => None end invert in
  match r with
  | RuleDefault d sets invert => default d sets invert
  | RuleLogical isAnd rules invert => logical_Match isAnd (List.map child rules) invert
  | RuleDNSDefault d sets invert matchResponse tag =>
      if pre then
        if matchResponse then λ m, (false, m) else with_ignore_destination (default d sets invert)
      else
        if matchResponse then λ m,
          let response := if String.eqb tag "" then v_DNSResponse (m_view m) else m_NamedDNSResponses m !! tag in
          match response with
          | None => (invert, m)
          | Some _ => ((default d sets invert (with_view m (with_response (m_view m) response))).1, m)
          end
        else default d sets invert
  | RuleDNSLogical isAnd rules invert =>
      if pre then with_ignore_destination (logical_Match isAnd (List.map child rules) invert)
      else λ m,
        let matched := walk isAnd (List.map (λ c, eval c false) rules) m in
        (if invert then negb matched else matched, m)
  end.

Definition Match (r : Rule) : Matcher := eval r false.
Definition LegacyPreMatch (r : Rule) : Matcher := eval r true.

(** [DNSRule.MatchAddressLimit]: the embedded rule against a DNS response. *)
Definition MatchAddressLimit (r : Rule) (response : option Response) : Matcher := λ m,
  let m' := with_view m (with_response (m_view m) response) in
  match r with
  | RuleDNSDefault d sets invert _ _ => ((eval (RuleDefault d sets invert) false m').1, m)
  | RuleDNSLogical isAnd rules invert => ((eval (RuleLogical isAnd rules invert) false m').1, m)
  | _ => (false, m)
  end.

(** ** Induction over rules and the rule-sets inside them *)

Definition sets_all (P : Rule → Prop) (sets : option RuleSets) : Prop :=
  match sets with
  | None => True
  | Some (mkRuleSets _ _ l) => Forall (λ set, Forall P set.1) l
  end.

Lemma Rule_ind (P : Rule → Prop) :
  (∀ d sets invert, sets_all P sets → P (RuleDefault d sets invert)) →
  (∀ isAnd rules invert, Forall P rules → P (RuleLogical isAnd rules invert)) →
  (∀ d sets invert mr tag, sets_all P sets → P (RuleDNSDefault d sets invert mr tag)) →
  (∀ isAnd rules invert, Forall P rules → P (RuleDNSLogical isAnd rules invert)) →
  ∀ r, P r.
Proof.
  intros H1 H2 H3 H4.
  refine (fix go (r : Rule) : P r :=
    let list_all := fix list_all (l : list Rule) : Forall P l :=
      match l with [] => List.Forall_nil _ | x :: l => List.Forall_cons _ _ _ (go x) (list_all l) end in
    let sets_rec (sets : option RuleSets) : sets_all P sets :=
      match sets with
      | None => I
      | Some (mkRuleSets _ _ l) =>
          (fix gos l : Forall (λ set : list Rule * RuleSetMetadata, Forall P set.1) l :=
             match l with
             | [] => List.Forall_nil _
             | (rs, meta) :: l => List.Forall_cons (λ set : list Rule * RuleSetMetadata, Forall P set.1) (rs, meta) l (list_all rs) (gos l)
             end) l
      end in
    match r with
    | RuleDefault d sets invert => H1 d sets invert (sets_rec sets)
    | RuleLogical isAnd rules invert => H2 isAnd rules invert (list_all rules)
    | RuleDNSDefault d sets invert mr tag => H3 d sets invert mr tag (sets_rec sets)
    | RuleDNSLogical isAnd rules invert => H4 isAnd rules invert (list_all rules)
    end).
Qed.

(** ** Specification: a boolean semantics without deferral *)

(** The four groups as booleans: source address, source port, destination
    address, destination port. *)
Record quad : Type := mkQuad { q_sa : bool; q_sp : bool; q_da : bool; q_dp : bool }.

Definition enc (q : quad) : Z :=
  (if q_sa q then 1 else 0) + (if q_sp q then 2 else 0) + (if q_da q then 4 else 0) + (if q_dp q then 8 else 0).
Definition quad_or (q r : quad) : quad :=
  mkQuad (q_sa q || q_sa r) (q_sp q || q_sp r) (q_da q || q_da r) (q_dp q || q_dp r).
Definition quad_done (req sat : quad) : bool :=
  implb (q_sa req) (q_sa sat) && implb (q_sp req) (q_sp sat) && implb (q_da req) (q_da sat) && implb (q_dp req) (q_dp sat).

(** Which groups a default rule constrains, and which of them the view
    satisfies; [ign] tells that destination-IP items are not to be consulted. *)
Definition required (d : DefaultItems) (ign : bool) (v : View) : quad :=
  let cidr := nonempty (destinationIPCIDRItems d) in
  mkQuad (nonempty (sourceAddressItems d) || v_IPCIDRMatchSource v && cidr)
    (nonempty (sourcePortItems d))
    (nonempty (destinationAddressItems d) || negb ign && negb (v_IPCIDRMatchSource v) && cidr)
    (nonempty (destinationPortItems d)).
Definition satisfied (d : DefaultItems) (ign : bool) (v : View) : quad :=
  let cidr := matchAnyItem (destinationIPCIDRItems d) v in
  mkQuad (matchAnyItem (sourceAddressItems d) v || v_IPCIDRMatchSource v && cidr)
    (matchAnyItem (sourcePortItems d) v)
    (matchAnyItem (destinationAddressItems d) v || negb ign && negb (v_IPCIDRMatchSource v) && cidr)
    (matchAnyItem (destinationPortItems d) v).

Definition items_hold (d : DefaultItems) (v : View) : bool := forallb (λ i, ri_match i v) (items d).

(** One rule-set under the rule that refers to it: a mergeable rule shares its
    groups with the referring rule (an item of either satisfies a group that
    either constrains); any other rule-set is a further conjunct. *)
Definition set_holds (req sat : quad) (v : View) (branch : option DefaultItems) (any : bool) : bool :=
  match branch with
  | Some b =>
      items_hold b v &&
      quad_done (quad_or req (required b false v)) (quad_or sat (satisfied b false v))
  | None => quad_done req sat && any
  end.

Fixpoint holds (r : Rule) (named : gmap string Response) (v : View) {struct r} : bool :=
  let default (d : DefaultItems) (sets : option RuleSets) (invert : bool) (v : View) : bool :=
    if allItems_empty d sets then true
    else xorb invert (items_hold d v &&
      match sets with
      | None => quad_done (required d false v) (satisfied d false v)
      | Some (mkRuleSets source acceptEmpty setList) =>
          let v' := with_cidr_mode v source acceptEmpty in
          existsb (λ set, set_holds (required d false v) (satisfied d false v) v' (mergeableRuleIn (fst set))
                            (existsb (λ c, holds c named v') (fst set))) setList
      end) in
  let logical (isAnd : bool) (rules : list Rule) (invert : bool) : bool :=
    let v' := with_cidr_mode v false false in
    xorb invert (if isAnd then forallb (λ c, holds c named v') rules else existsb (λ c, holds c named v') rules) in
  match r with
  | RuleDefault d sets invert => default d sets invert v
  | RuleLogical isAnd rules invert => logical isAnd rules invert
  | RuleDNSDefault d sets invert matchResponse tag =>
      if matchResponse then
        match (if String.eqb tag "" then v_DNSResponse v else named !! tag) with
        | None => invert
        | Some response => default d sets invert (with_response v (Some response))
        end
      else default d sets invert v
  | RuleDNSLogical isAnd rules invert => logical isAnd rules invert
  end.

(** ** Bit lemmas *)

Lemma enc_lor q r : enc q .| enc r = enc (quad_or q r).
Proof. destruct q as [[] [] [] []], r as [[] [] [] []]; reflexivity. Qed.

Lemma enc_done req sat : (enc req &^ enc sat =? 0) = quad_done req sat.
Proof. destruct req as [[] [] [] []], sat as [[] [] [] []]; reflexivity. Qed.

Lemma nonempty_any l v : matchAnyItem l v = true → nonempty l = true.
Proof. by destruct l. Qed.

Lemma nonempty_and_any l v : nonempty l && matchAnyItem l v = matchAnyItem l v.
Proof. destruct (matchAnyItem l v) eqn:E; [|by rewrite andb_false_r]. by rewrite (nonempty_any _ _ E). Qed.

Lemma quad_ext q r :
  q_sa q = q_sa r → q_sp q = q_sp r → q_da q = q_da r → q_dp q = q_dp r → q = r.
Proof. destruct q, r; simpl. by intros -> -> -> ->. Qed.

Lemma accumulate_frame l m :
  ∃ i, accumulateItemClasses m l = with_inputs m i.
Proof.
  revert m. induction l as [|x l IH]; intros m; simpl.
  - exists (m_MatchInputs m). by destruct m.
  - destruct (IH (with_inputs m (m_MatchInputs m .| ri_class x))) as [i Hi]. exists i.
    unfold accumulateItemClasses in *. simpl. rewrite Hi. done.
Qed.

Definition bit_sa : quad := mkQuad true false false false.
Definition bit_sp : quad := mkQuad false true false false.
Definition bit_da : quad := mkQuad false false true false.
Definition bit_dp : quad := mkQuad false false false true.

Definition scale (c : bool) (q : quad) : quad :=
  mkQuad (c && q_sa q) (c && q_sp q) (c && q_da q) (c && q_dp q).
Definition no_groups : quad := mkQuad false false false false.

Lemma quad_or_none q : quad_or q no_groups = q.
Proof. destruct q. unfold quad_or; simpl. by rewrite !orb_false_r. Qed.

(** A group step on encoded groups. *)
Lemma group_step_enc present bit l skip req sat m :
  ∃ i, group_step present (enc bit) l skip (mkGroups (enc req) (enc sat), m) =
    (mkGroups (enc (quad_or req (scale present bit)))
       (enc (quad_or sat (scale (present && negb (skip && has (enc sat) (enc bit)) && matchAnyItem l (m_view m)) bit))),
     with_inputs m i).
Proof.
  assert (∀ q, scale true q = q) as Ht by (by intros []).
  assert (∀ q, scale false q = no_groups) as Hf by done.
  unfold group_step. destruct present.
  - destruct (accumulate_frame l m) as [i ->]. exists i. simpl. rewrite Ht, enc_lor.
    destruct (negb _ && _); rewrite ?Ht, ?Hf, ?enc_lor, ?quad_or_none; done.
  - exists (m_MatchInputs m). rewrite !andb_false_l, !Hf, !quad_or_none. by destruct m.
Qed.

Lemma groups_zero : mkGroups 0 0 = mkGroups (enc no_groups) (enc no_groups).
Proof. reflexivity. Qed.
Lemma bit_sa_enc : ruleMatchSourceAddress = enc bit_sa.
Proof. reflexivity. Qed.
Lemma bit_sp_enc : ruleMatchSourcePort = enc bit_sp.
Proof. reflexivity. Qed.
Lemma bit_da_enc : ruleMatchDestinationAddress = enc bit_da.
Proof. reflexivity. Qed.
Lemma bit_dp_enc : ruleMatchDestinationPort = enc bit_dp.
Proof. reflexivity. Qed.

Lemma has_sa q : has (enc q) (enc bit_sa) = q_sa q.
Proof. destruct q as [[] [] [] []]; reflexivity. Qed.
Lemma has_da q : has (enc q) (enc bit_da) = q_da q.
Proof. destruct q as [[] [] [] []]; reflexivity. Qed.

#[local] Opaque enc has.

(** Whether a default rule leaves its destination-IP items for later. *)
Definition defers (d : DefaultItems) (ign : bool) (v : View) : bool :=
  ign && negb (v_IPCIDRMatchSource v) && nonempty (destinationIPCIDRItems d) && negb (nonempty (destinationAddressItems d)).

Lemma with_inputs_twice m i j : with_inputs (with_inputs m i) j = with_inputs m j.
Proof. done. Qed.

Lemma evaluateGroups_spec d m :
  ∃ i, evaluateGroups d m =
    (mkGroups (enc (required d (m_IgnoreDestinationIPCIDRMatch m) (m_view m)))
              (enc (satisfied d (m_IgnoreDestinationIPCIDRMatch m) (m_view m))),
     with_deferred (with_inputs m i)
       (if defers d (m_IgnoreDestinationIPCIDRMatch m) (m_view m)
        then m_DeferredIPCIDRMatchGroups m .| 4 else m_DeferredIPCIDRMatchGroups m)).
Proof.
  unfold evaluateGroups. cbv zeta.
  rewrite groups_zero, bit_sa_enc, bit_sp_enc, bit_da_enc, bit_dp_enc.
  repeat (match goal with |- context [group_step ?p (enc ?b) ?l ?s (mkGroups (enc ?r) (enc ?q), ?m)] =>
    let i := fresh "i" in destruct (group_step_enc p b l s r q m) as [i ->] end;
    rewrite ?with_inputs_twice; cbn [m_view with_inputs]).
  eexists. f_equal; [|unfold defers; rewrite <- bit_da_enc; by destruct (_ && _)].
  rewrite ?has_sa, ?has_da. apply (f_equal2 mkGroups); apply (f_equal enc); apply quad_ext;
    cbn [q_sa q_sp q_da q_dp quad_or scale no_groups bit_sa bit_sp bit_da bit_dp required satisfied];
    rewrite ?andb_true_r, ?andb_false_r, ?orb_false_r, ?andb_false_l, ?orb_false_l; cbn [negb];
    rewrite ?andb_true_r, ?andb_true_l, ?nonempty_and_any; try done.
  - unfold destinationIPCIDRMatchesSource. destruct (matchAnyItem (sourceAddressItems d) (m_view m)); [done|].
    cbn [orb negb]. by rewrite andb_true_r, <- andb_assoc, nonempty_and_any.
  - unfold destinationIPCIDRMatchesDestination. destruct (matchAnyItem (destinationAddressItems d) (m_view m)); [done|].
    cbn [orb negb]. by rewrite andb_true_r, <- andb_assoc, nonempty_and_any.
Qed.

(** ** Frames: what matching may write *)

Lemma match_items_spec l m :
  ∃ i, match_items l m = (forallb (λ x, ri_match x (m_view m)) l, with_inputs m i).
Proof.
  revert m. induction l as [|x l IH]; intros m; simpl.
  - exists (m_MatchInputs m). by destruct m.
  - destruct (ri_match x (m_view m)); simpl; [|eauto].
    destruct (IH (with_inputs m (m_MatchInputs m .| ri_class x))) as [i ->]. by exists i.
Qed.

Definition groups_of (d : DefaultItems) (ign : bool) (v : View) : ruleGroupMatch :=
  mkGroups (enc (required d ign v)) (enc (satisfied d ign v)).

Definition deferral (d : DefaultItems) (m : InboundContext) : Z :=
  if defers d (m_IgnoreDestinationIPCIDRMatch m) (m_view m)
  then m_DeferredIPCIDRMatchGroups m .| 4 else m_DeferredIPCIDRMatchGroups m.

Lemma evaluateForMerge_spec d m :
  ∃ i, evaluateForMerge d m =
    (if items_hold d (m_view m) then Some (groups_of d (m_IgnoreDestinationIPCIDRMatch m) (m_view m)) else None,
     with_deferred (with_inputs m i) (deferral d m)).
Proof.
  unfold evaluateForMerge. destruct (evaluateGroups_spec d m) as [i ->].
  destruct (match_items_spec (items d) (with_deferred (with_inputs m i) (deferral d m))) as [j Hj].
  unfold deferral in Hj |- *. rewrite Hj. by exists j.
Qed.

Lemma with_deferred_same m : with_deferred m (m_DeferredIPCIDRMatchGroups m) = m.
Proof. by destruct m. Qed.
Lemma with_both_same m : with_deferred (with_inputs m (m_MatchInputs m)) (m_DeferredIPCIDRMatchGroups m) = m.
Proof. by destruct m. Qed.

(** A rule-set item writes the deferred groups only. *)
Lemma outer_groups_frame source ae sets outer : ∀ m matched deferred,
  ∃ b d, outer_groups_loop source ae sets outer m matched deferred = (b, with_deferred m d).
Proof.
  induction sets as [|[[branch|] set] sets IH]; intros m matched deferred; simpl.
  - exists matched. destruct matched; [eauto|]. exists (m_DeferredIPCIDRMatchGroups m). by destruct m.
  - destruct (evaluateForMerge branch _) as [[g|] nested]; [|apply IH].
    destruct (done _); [|apply IH]. destruct (_ =? 0); [eauto|apply IH].
  - destruct (done outer); [|apply IH]. destruct (set _) as [[] nested]; [|apply IH].
    destruct (_ =? 0); [|apply IH]. exists true, (m_DeferredIPCIDRMatchGroups m). by destruct m.
Qed.

(** A set runner as [eval] builds it. *)
Definition runner_ok (sets : option SetRunner) : Prop :=
  ∀ class run, sets = Some (class, run) → ∀ g m, ∃ b d, run g m = (b, with_deferred m d).

Lemma matchInner_frame d sets m :
  runner_ok sets → ∃ b i k, matchInner d sets m = (b, with_deferred (with_inputs m i) k).
Proof.
  intros Hs. unfold matchInner. destruct (evaluateGroups_spec d m) as [i ->].
  match goal with |- context [match_items ?l ?x] => destruct (match_items_spec l x) as [j ->] end.
  destruct (forallb _ _); simpl; [|by do 3 eexists].
  destruct sets as [[class run]|].
  - match goal with |- context [run ?g ?x] => destruct (Hs class run eq_refl g x) as (b & k & ->) end.
    destruct b; do 3 eexists; reflexivity.
  - destruct (done _); do 3 eexists; reflexivity.
Qed.

(** The hygiene of one matcher: a failed match leaves the context as it was, a
    successful one only adds input classes and deferred groups. *)
Definition hygienic (f : Matcher) : Prop :=
  ∀ m, match f m with
       | (false, m') => m' = m
       | (true, m') => ∃ i k, m' = with_deferred (with_inputs m (m_MatchInputs m .| i)) (m_DeferredIPCIDRMatchGroups m .| k)
       end.

Lemma hygienic_same (f : InboundContext → bool) : hygienic (λ m, (f m, m)).
Proof. intros m. destruct (f m); [|done]. exists 0, 0. rewrite !Z.lor_0_r. by rewrite with_both_same. Qed.

Lemma default_hygienic empty d sets invert : runner_ok sets → hygienic (default_Match empty d sets invert).
Proof.
  intros Hs m. unfold default_Match. destruct empty; [apply (hygienic_same (λ _, true) m)|].
  destruct (matchInner_frame d sets (with_deferred (with_inputs m 0) 0) Hs) as (b & i & k & ->). simpl.
  destruct invert, b; simpl; [destruct (k =? 0); simpl | | |];
    first [by destruct m | by eexists _, _].
Qed.

Lemma logical_hygienic isAnd children invert : hygienic (logical_Match isAnd children invert).
Proof.
  intros m. unfold logical_Match.
  destruct (if isAnd then _ else _) as [[b c] k]. destruct (if invert then _ else b); eauto.
Qed.

Lemma eval_runner_ok (sets : option RuleSets) (f : RuleSets → list (option DefaultItems * Matcher)) :
  runner_ok (match sets with
             | Some s => Some (sets_class s, let '(mkRuleSets source ae _) := s in
                                λ outer m, outer_groups_loop source ae (f s) outer m false 0)
             | None => None end).
Proof.
  intros class run E. destruct sets as [[source ae l]|]; [|done]. simplify_eq. intros g m. apply outer_groups_frame.
Qed.

(** ** The equations of [eval] *)

Definition set_closures (l : list (list Rule * RuleSetMetadata)) : list (option DefaultItems * Matcher) :=
  List.map (λ set, (mergeableRuleIn (fst set), matchAnyHeadlessRule (List.map (λ c, eval c false) (fst set)))) l.

Definition set_runner (s : RuleSets) : SetRunner :=
  (sets_class s,
   let '(mkRuleSets source ae l) := s in λ outer m, outer_groups_loop source ae (set_closures l) outer m false 0).

Definition sets_runner (sets : option RuleSets) : option SetRunner :=
  match sets with Some s => Some (set_runner s) | None => None end.

Definition eval_child (c : Rule) : Matcher := λ m,
  if m_IgnoreDestinationIPCIDRMatch m && is_dns c then eval c true m else eval c false m.

Definition abstract_default (d : DefaultItems) (sets : option RuleSets) (invert : bool) : Matcher :=
  default_Match (allItems_empty d sets) d (sets_runner sets) invert.

Lemma eval_default d sets invert pre : eval (RuleDefault d sets invert) pre = abstract_default d sets invert.
Proof. reflexivity. Qed.
Lemma eval_logical isAnd rules invert pre :
  eval (RuleLogical isAnd rules invert) pre = logical_Match isAnd (List.map eval_child rules) invert.
Proof. reflexivity. Qed.
Lemma eval_dns_default d sets invert mr tag :
  eval (RuleDNSDefault d sets invert mr tag) false =
    if mr then λ m,
      let response := if String.eqb tag "" then v_DNSResponse (m_view m) else m_NamedDNSResponses m !! tag in
      match response with
      | None => (invert, m)
      | Some _ => ((abstract_default d sets invert (with_view m (with_response (m_view m) response))).1, m)
      end
    else abstract_default d sets invert.
Proof. reflexivity. Qed.
Lemma eval_dns_logical isAnd rules invert :
  eval (RuleDNSLogical isAnd rules invert) false =
    λ m, (if invert then negb (walk isAnd (List.map (λ c, eval c false) rules) m)
          else walk isAnd (List.map (λ c, eval c false) rules) m, m).
Proof. reflexivity. Qed.
Lemma eval_pre_default d sets invert tag :
  eval (RuleDNSDefault d sets invert false tag) true = with_ignore_destination (abstract_default d sets invert).
Proof. reflexivity. Qed.
Lemma eval_pre_logical isAnd rules invert :
  eval (RuleDNSLogical isAnd rules invert) true =
    with_ignore_destination (logical_Match isAnd (List.map eval_child rules) invert).
Proof. reflexivity. Qed.

Lemma sets_runner_ok sets : runner_ok (sets_runner sets).
Proof.
  intros class run E. destruct sets as [[source ae l]|]; [|done]. simpl in E. injection E as <- <-.
  intros g m. apply outer_groups_frame.
Qed.

Lemma eval_hygienic r : hygienic (eval r false).
Proof.
  destruct r as [d sets inv|a l inv|d sets inv mr tag|a l inv].
  - apply default_hygienic, sets_runner_ok.
  - apply logical_hygienic.
  - rewrite eval_dns_default. destruct mr; [|apply default_hygienic, sets_runner_ok].
    intros m. cbv zeta. destruct (if String.eqb tag "" then _ else _).
    + apply (hygienic_same (λ m, (abstract_default d sets inv _).1) m).
    + apply (hygienic_same (λ _, inv) m).
  - rewrite eval_dns_logical. apply hygienic_same.
Qed.

(** ** Refinement of the boolean semantics *)

(** What the matcher of a rule computes when nothing is deferred. *)
Definition refines (r : Rule) : Prop :=
  ∀ m, m_IgnoreDestinationIPCIDRMatch m = false →
  ∃ i, eval r false m =
    (holds r (m_NamedDNSResponses m) (m_view m),
     if holds r (m_NamedDNSResponses m) (m_view m) then with_inputs m i else m).

Lemma match_any_refines rules m :
  Forall refines rules → m_IgnoreDestinationIPCIDRMatch m = false →
  matchAnyHeadlessRule (List.map (λ c, eval c false) rules) m =
    (existsb (λ c, holds c (m_NamedDNSResponses m) (m_view m)) rules, m).
Proof.
  intros Hr Hi. unfold matchAnyHeadlessRule. induction rules as [|r rules IH]; simpl; [done|].
  apply Forall_cons_1 in Hr as [Hr Hrs]. destruct (Hr (ResetRuleMatchCache m) Hi) as [i ->]. simpl.
  destruct (holds r _ _); simpl; [done | by apply IH].
Qed.

Lemma groups_of_done req sat : done (mkGroups (enc req) (enc sat)) = quad_done req sat.
Proof. apply enc_done. Qed.

Lemma merge_enc r1 s1 r2 s2 :
  mergeWith (mkGroups (enc r1) (enc s1)) (mkGroups (enc r2) (enc s2)) =
  mkGroups (enc (quad_or r1 r2)) (enc (quad_or s1 s2)).
Proof. unfold mergeWith. simpl. by rewrite !enc_lor. Qed.

Lemma outer_groups_refines source ae l req sat m :
  Forall (λ set, Forall refines set.1) l →
  m_IgnoreDestinationIPCIDRMatch m = false → m_DeferredIPCIDRMatchGroups m = 0 →
  let v' := with_cidr_mode (m_view m) source ae in
  outer_groups_loop source ae (set_closures l) (mkGroups (enc req) (enc sat)) m false 0 =
    (existsb (λ set, set_holds req sat v' (mergeableRuleIn (fst set))
                       (existsb (λ c, holds c (m_NamedDNSResponses m) v') (fst set))) l, m).
Proof.
  intros Hl Hi Hd v'. induction l as [|[rules meta] l IH]; [done|].
  apply Forall_cons_1 in Hl as [Hr Hl]. cbn [set_closures List.map outer_groups_loop existsb fst].
  fold (set_closures l). simpl in Hr. destruct (mergeableRuleIn rules) as [branch|] eqn:Em.
  - destruct (evaluateForMerge_spec branch (nestedMetadata source ae m)) as [i ->].
    cbn [set_holds]. change (m_view (nestedMetadata source ae m)) with v'.
    change (m_IgnoreDestinationIPCIDRMatch (nestedMetadata source ae m)) with (m_IgnoreDestinationIPCIDRMatch m).
    rewrite Hi. destruct (items_hold branch v'); cbn [andb orb]; [|by apply IH].
    unfold groups_of. rewrite merge_enc, groups_of_done.
    destruct (quad_done _ _); cbn [andb orb]; [|by apply IH].
    assert (deferral branch (nestedMetadata source ae m) = 0) as Hdf.
    { unfold deferral, defers. simpl. by rewrite Hi. }
    cbn [m_DeferredIPCIDRMatchGroups with_deferred]. rewrite Hdf, Z.ldiff_0_l, Hd, Z.ldiff_0_l. simpl.
    rewrite <- Hd at 1. by rewrite with_deferred_same.
  - cbn [set_holds]. rewrite groups_of_done.
    destruct (quad_done req sat); cbn [andb orb]; [|by apply IH].
    rewrite match_any_refines by done. change (m_view (nestedMetadata source ae m)) with v'.
    change (m_NamedDNSResponses (nestedMetadata source ae m)) with (m_NamedDNSResponses m).
    destruct (existsb _ rules); cbn [orb]; [done | by apply IH].
Qed.

Lemma default_refines d sets invert m :
  sets_all refines sets → m_IgnoreDestinationIPCIDRMatch m = false →
  ∃ i, abstract_default d sets invert m =
    (holds (RuleDefault d sets invert) (m_NamedDNSResponses m) (m_view m),
     if holds (RuleDefault d sets invert) (m_NamedDNSResponses m) (m_view m) then with_inputs m i else m).
Proof.
  intros Hs Hi. unfold abstract_default, default_Match. cbn [holds].
  destruct (allItems_empty d sets); [exists (m_MatchInputs m); by destruct m|].
  unfold matchInner. set (m0 := with_deferred (with_inputs m 0) 0).
  destruct (evaluateGroups_spec d m0) as [i ->].
  match goal with |- context [match_items ?l ?x] => destruct (match_items_spec l x) as [j ->] end.
  assert (deferral d m0 = 0) as Hdf by (unfold deferral, defers; simpl; by rewrite Hi).
  unfold deferral in Hdf. rewrite Hdf. cbn [m_view with_deferred with_inputs m0].
  change (m_IgnoreDestinationIPCIDRMatch m0) with (m_IgnoreDestinationIPCIDRMatch m). rewrite Hi.
  change (m_view m0) with (m_view m). fold (items_hold d (m_view m)).
  destruct (items_hold d (m_view m)) eqn:Eh; cbn [negb andb].
  2: { destruct invert; simpl; rewrite ?Z.lor_0_r; first [eexists; reflexivity | exists 0; by destruct m]. }
  destruct sets as [[source ae l]|]; cbn [sets_runner set_runner].
  - match goal with |- context [outer_groups_loop _ _ _ _ ?x _ _] =>
      pose proof (outer_groups_refines source ae l (required d false (m_view m)) (satisfied d false (m_view m)) x Hs Hi eq_refl) as Ho end.
    cbv zeta in Ho. rewrite Ho. clear Ho. cbn [m_view with_inputs with_deferred m_NamedDNSResponses m0].
    destruct (existsb _ l), invert; simpl; rewrite ?Z.ldiff_0_l; simpl; rewrite ?Z.lor_0_r; first [eexists; reflexivity | exists 0; by destruct m].
  - rewrite groups_of_done. destruct (quad_done _ _), invert; simpl; rewrite ?Z.ldiff_0_l; simpl; rewrite ?Z.lor_0_r; first [eexists; reflexivity | exists 0; by destruct m].
Qed.

(** The view logical children are matched against. *)
Definition child_view (v : View) : View := with_cidr_mode v false false.

Lemma eval_child_plain c m : m_IgnoreDestinationIPCIDRMatch m = false → eval_child c m = eval c false m.
Proof. intros Hi. unfold eval_child. by rewrite Hi. Qed.

Lemma refines_child r m :
  refines r → m_IgnoreDestinationIPCIDRMatch m = false →
  ∃ i, eval r false (ResetRuleCache m) =
    (holds r (m_NamedDNSResponses m) (child_view (m_view m)), with_inputs (ResetRuleCache m) i).
Proof.
  intros Hr Hi. destruct (Hr (ResetRuleCache m) Hi) as [i ->].
  change (m_view (ResetRuleCache m)) with (child_view (m_view m)).
  change (m_NamedDNSResponses (ResetRuleCache m)) with (m_NamedDNSResponses m).
  destruct (holds r _ _); [by exists i|]. exists 0. done.
Qed.

Lemma and_loop_refines rules m c :
  Forall refines rules → m_IgnoreDestinationIPCIDRMatch m = false →
  ∃ c', and_loop (List.map eval_child rules) m true c 0 =
    (forallb (λ r, holds r (m_NamedDNSResponses m) (child_view (m_view m))) rules, c', 0).
Proof.
  intros Hr Hi. revert c. induction rules as [|r rules IH]; intros c; simpl; [eauto|].
  apply Forall_cons_1 in Hr as [Hr Hrs]. rewrite eval_child_plain by done.
  destruct (refines_child r m Hr Hi) as [i ->]. simpl.
  destruct (holds r _ _); simpl; [by apply IH | eauto].
Qed.

Lemma or_loop_refines rules m c :
  Forall refines rules → m_IgnoreDestinationIPCIDRMatch m = false →
  ∃ c', or_loop (List.map eval_child rules) m false c 0 =
    (existsb (λ r, holds r (m_NamedDNSResponses m) (child_view (m_view m))) rules, c', 0).
Proof.
  intros Hr Hi. revert c. induction rules as [|r rules IH]; intros c; simpl; [eauto|].
  apply Forall_cons_1 in Hr as [Hr Hrs]. rewrite eval_child_plain by done.
  destruct (refines_child r m Hr Hi) as [i ->]. simpl.
  destruct (holds r _ _); simpl; [eauto | by apply IH].
Qed.

Lemma walk_refines isAnd rules m :
  Forall refines rules → m_IgnoreDestinationIPCIDRMatch m = false →
  walk isAnd (List.map (λ c, eval c false) rules) m =
    if isAnd then forallb (λ r, holds r (m_NamedDNSResponses m) (child_view (m_view m))) rules
    else existsb (λ r, holds r (m_NamedDNSResponses m) (child_view (m_view m))) rules.
Proof.
  intros Hr Hi. induction rules as [|r rules IH]; simpl; [by destruct isAnd|].
  apply Forall_cons_1 in Hr as [Hr Hrs]. destruct (refines_child r m Hr Hi) as [i ->]. simpl. rewrite IH by done.
  destruct isAnd, (holds r _ _); done.
Qed.

Lemma logical_result (b invert : bool) c m :
  ∃ i, (let '(matched, collected, deferred) := (b, c, 0) in
        let matched := if invert then (if negb (deferred =? 0) then true else negb matched) else matched in
        if matched
        then (true, with_deferred (with_inputs m (m_MatchInputs m .| collected)) (m_DeferredIPCIDRMatchGroups m .| deferred))
        else (false, m)) = (xorb invert b, if xorb invert b then with_inputs m i else m).
Proof.
  exists (m_MatchInputs m .| c). cbv zeta. rewrite Z.lor_0_r. by destruct b, invert.
Qed.

Lemma eval_refines r : refines r.
Proof.
  induction r as [d sets invert Hs|isAnd rules invert Hr|d sets invert mr tag Hs|isAnd rules invert Hr] using Rule_ind;
    intros m Hi.
  - by apply default_refines.
  - rewrite eval_logical. unfold logical_Match. cbn [holds]. fold (child_view (m_view m)). destruct isAnd.
    + destruct (and_loop_refines rules m 0 Hr Hi) as [c ->]. apply logical_result.
    + destruct (or_loop_refines rules m 0 Hr Hi) as [c ->]. apply logical_result.
  - rewrite eval_dns_default. destruct mr; [|by apply default_refines].
    cbv zeta. cbn [holds]. destruct (if String.eqb tag "" then _ else _) as [resp|]; simpl.
    + destruct (default_refines d sets invert (with_view m (with_response (m_view m) (Some resp))) Hs Hi) as [i ->].
      cbn [holds fst m_view with_view m_NamedDNSResponses]. exists (m_MatchInputs m).
      match goal with |- (?b, _) = (_, if ?b' then _ else _) => change b' with b; destruct b; by destruct m end.
    + exists (m_MatchInputs m). destruct invert; by destruct m.
  - rewrite eval_dns_logical. rewrite walk_refines by done. cbn [holds]. fold (child_view (m_view m)).
    exists (m_MatchInputs m). destruct isAnd.
    + destruct (forallb _ rules), invert; by destruct m.
    + destruct (existsb _ rules), invert; by destruct m.
Qed.

(** ** Deferral: the DNS pre-match as a three-valued answer *)

(** An item that does not read the DNS response. *)
Definition response_free (i : RuleItem) : Prop :=
  ∀ v response, ri_match i (with_response v response) = ri_match i v.

(** A default rule whose destination-IP items can be left for later: only they
    read the response, and they do not share their group with domain items. *)
Definition deferrable_items (d : DefaultItems) : Prop :=
  Forall response_free (items d ++ sourceAddressItems d ++ sourcePortItems d
                        ++ destinationAddressItems d ++ destinationPortItems d)
  ∧ (destinationAddressItems d = [] ∨ destinationIPCIDRItems d = []).

Fixpoint deferrable (r : Rule) : Prop :=
  match r with
  | RuleDefault d None _ | RuleDNSDefault d None _ false _ => deferrable_items d
  | RuleLogical _ rules _ | RuleDNSLogical _ rules _ => foldr (λ c P, deferrable c ∧ P) True rules
  | _ => False
  end.

Lemma deferrable_children rules :
  foldr (λ c P, deferrable c ∧ P) True rules → Forall deferrable rules.
Proof. induction rules as [|c rules IH]; simpl; [done|]. intros [Hc H]. constructor; [done | by apply IH]. Qed.

(** The answer [(b, deferred)] says nothing wrong about any later response:
    a rejection holds for every response, an acceptance with nothing deferred too. *)
Definition sound3 (final : option Response → bool) (b : bool) (deferred : Z) : Prop :=
  (b = false → ∀ response, final response = false)
  ∧ (b = true → deferred = 0 → ∀ response, final response = true).

Lemma any_response_free l v response :
  Forall response_free l → matchAnyItem l (with_response v response) = matchAnyItem l v.
Proof.
  induction l as [|i l IH]; [done|]. intros [Hi Hl]%Forall_cons_1. unfold matchAnyItem in *. simpl.
  by rewrite Hi, IH.
Qed.

Lemma all_response_free l v response :
  Forall response_free l →
  forallb (λ i, ri_match i (with_response v response)) l = forallb (λ i, ri_match i v) l.
Proof.
  induction l as [|i l IH]; [done|]. intros [Hi Hl]%Forall_cons_1. simpl. by rewrite Hi, IH.
Qed.

(** The groups of a deferrable default rule against a response: the pre-match
    groups, with the destination address decided by the response when deferred. *)
Lemma deferrable_groups d v response :
  deferrable_items d → v_IPCIDRMatchSource v = false →
  let w := with_response v response in
  items_hold d w = items_hold d v
  ∧ quad_done (required d false w) (satisfied d false w) =
      quad_done (required d true v) (satisfied d true v)
      && (negb (nonempty (destinationIPCIDRItems d)) || matchAnyItem (destinationIPCIDRItems d) w).
Proof.
  intros [Hfree Hmix] Hsrc w. rewrite !Forall_app in Hfree. destruct Hfree as (Hi & Hsa & Hsp & Hda & Hdp).
  split; [by apply all_response_free|].
  unfold quad_done, required, satisfied. cbn [q_sa q_sp q_da q_dp].
  change (v_IPCIDRMatchSource w) with (v_IPCIDRMatchSource v). unfold w.
  rewrite (any_response_free _ _ _ Hsa), (any_response_free _ _ _ Hsp),
    (any_response_free _ _ _ Hda), (any_response_free _ _ _ Hdp), Hsrc. cbn [andb negb].
  rewrite !orb_false_r.
  generalize (implb (nonempty (sourceAddressItems d)) (matchAnyItem (sourceAddressItems d) v)),
    (implb (nonempty (sourcePortItems d)) (matchAnyItem (sourcePortItems d) v)),
    (implb (nonempty (destinationPortItems d)) (matchAnyItem (destinationPortItems d) v)); intros a b c.
  destruct Hmix as [-> | ->]; cbn [nonempty matchAnyItem existsb orb negb implb].
  - generalize (matchAnyItem (destinationIPCIDRItems d) (with_response v response)).
    destruct (nonempty (destinationIPCIDRItems d)), a, b, c; by intros [].
  - rewrite !orb_false_r, andb_true_r. done.
Qed.

Lemma default_sound d invert m :
  deferrable_items d → v_IPCIDRMatchSource (m_view m) = false →
  m_IgnoreDestinationIPCIDRMatch m = true → m_DeferredIPCIDRMatchGroups m = 0 →
  let '(b, m') := abstract_default d None invert m in
  sound3 (λ response, holds (RuleDefault d None invert) (m_NamedDNSResponses m) (with_response (m_view m) response))
    b (m_DeferredIPCIDRMatchGroups m').
Proof.
  intros Hd Hsrc Hi Hz. unfold abstract_default, default_Match. cbn [holds].
  destruct (allItems_empty d None); [by split|].
  unfold matchInner. set (m0 := with_deferred (with_inputs m 0) 0).
  destruct (evaluateGroups_spec d m0) as [i ->].
  match goal with |- context [match_items ?l ?x] => destruct (match_items_spec l x) as [j ->] end.
  cbn [m_view with_deferred with_inputs m0 m_IgnoreDestinationIPCIDRMatch m_DeferredIPCIDRMatchGroups sets_runner].
  rewrite Hi, Hz. fold (items_hold d (m_view m)). unfold defers. rewrite Hsrc. cbn [andb negb].
  pose proof (λ response, deferrable_groups d (m_view m) response Hd Hsrc) as Hg. cbv zeta in Hg.
  destruct (items_hold d (m_view m)) eqn:Eh; cbn [negb].
  2: { destruct invert; split; try done; intros _; [intros _|]; intros response; by destruct (Hg response) as [-> _]. }
  rewrite groups_of_done. destruct (quad_done _ _) eqn:Eq.
  2: { destruct invert; split; try done; intros _; [intros _|]; intros response; by destruct (Hg response) as [-> ->]. }
  destruct Hd as [_ Hmix]. cbn [g_satisfied].
  destruct (nonempty (destinationIPCIDRItems d)) eqn:En.
  - assert (destinationAddressItems d = []) as Ea by (destruct Hmix as [|E]; [done | by rewrite E in En]).
    rewrite Ea. cbn [nonempty negb andb].
    assert ((0 .| 4) &^ enc (satisfied d true (m_view m)) = 4) as E4.
    { unfold satisfied. rewrite Ea. cbn [matchAnyItem existsb orb andb negb].
      destruct (_ || _), (matchAnyItem (sourcePortItems d) _), (matchAnyItem (destinationPortItems d) _); reflexivity. }
    cbn [m_DeferredIPCIDRMatchGroups with_deferred]. rewrite E4. simpl. destruct invert; simpl; split; try done.
  - cbn [andb]. cbn [m_DeferredIPCIDRMatchGroups with_deferred]. rewrite Z.ldiff_0_l. simpl.
    destruct invert; simpl; split; try done; intros _; [|intros _]; intros response; by destruct (Hg response) as [-> ->].
Qed.

(** One rule in the pre-match, at a context a loop of a logical rule makes. *)
Definition pre_sound (r : Rule) : Prop :=
  ∀ m, m_IgnoreDestinationIPCIDRMatch m = true → m_DeferredIPCIDRMatchGroups m = 0 →
  v_IPCIDRMatchSource (m_view m) = false →
  let '(b, m') := eval_child r m in
  sound3 (λ response, holds r (m_NamedDNSResponses m) (with_response (m_view m) response)) b (m_DeferredIPCIDRMatchGroups m')
  ∧ (b = false → m_DeferredIPCIDRMatchGroups m' = 0).

Lemma lor_zero a b : a .| b = 0 → a = 0 ∧ b = 0.
Proof. apply Z.lor_eq_0_iff. Qed.

(** The pre-match view of a child and the final view of the same child. *)
Definition final_child (m : InboundContext) (r : Rule) (response : option Response) : bool :=
  holds r (m_NamedDNSResponses m) (child_view (with_response (m_view m) response)).

Lemma pre_sound_child r m :
  pre_sound r → m_IgnoreDestinationIPCIDRMatch m = true →
  let '(b, nested) := eval_child r (ResetRuleCache m) in
  sound3 (final_child m r) b (m_DeferredIPCIDRMatchGroups nested) ∧ (b = false → m_DeferredIPCIDRMatchGroups nested = 0).
Proof.
  intros Hr Hi. exact (Hr (ResetRuleCache m) Hi eq_refl eq_refl).
Qed.

(** The AND loop: whatever was seen so far, the result answers for the rest. *)
Lemma and_loop_sound rules m : ∀ (matched : bool) c deferred b c' d',
  Forall pre_sound rules → m_IgnoreDestinationIPCIDRMatch m = true →
  and_loop (List.map eval_child rules) m matched c deferred = (b, c', d') →
  (b = false → matched = false ∨ ∀ response, forallb (λ r, final_child m r response) rules = false)
  ∧ (b = true → d' = 0 → matched = true ∧ deferred = 0 ∧ ∀ response, forallb (λ r, final_child m r response) rules = true).
Proof.
  induction rules as [|r rules IH]; intros matched c deferred b c' d' Hr Hi; simpl.
  - intros [= -> <- <-]. split; [by left|done].
  - apply Forall_cons_1 in Hr as [Hr Hrs]. pose proof (pre_sound_child r m Hr Hi) as Hc.
    destruct (eval_child r (ResetRuleCache m)) as [[] nested]; destruct Hc as [[Hf Ht] Hz].
    + intros (H1 & H2)%IH; try done. split.
      * intros Hb. destruct (H1 Hb) as [?|H]; [by left|]. right. intros response. by rewrite H, andb_false_r.
      * intros Hb Hd. destruct (H2 Hb Hd) as (Hm & [Hd0 Hn]%lor_zero & H). split_and!; [done..|].
        intros response. by rewrite H, Ht.
    + assert (∀ response, final_child m r response && forallb (λ r, final_child m r response) rules = false) as Hall.
      { intros response. by rewrite Hf. }
      case_match.
      * intros [= <- <- <-]. split; [by right|done].
      * intros (H1 & H2)%IH; try done. split; [by right|]. intros Hb Hd. by destruct (H2 Hb Hd).
Qed.

Lemma or_loop_sound rules m : ∀ (matched : bool) c deferred b c' d',
  Forall pre_sound rules → m_IgnoreDestinationIPCIDRMatch m = true →
  or_loop (List.map eval_child rules) m matched c deferred = (b, c', d') →
  (matched = true → deferred ≠ 0) →
  (b = false → ∀ response, existsb (λ r, final_child m r response) rules = false)
  ∧ (b = true → d' = 0 → ∀ response, existsb (λ r, final_child m r response) rules = true).
Proof.
  induction rules as [|r rules IH]; intros matched c deferred b c' d' Hr Hi; simpl.
  - intros [= -> <- <-] Hm. split; [done|]. intros Hb Hd. by destruct (Hm Hb).
  - apply Forall_cons_1 in Hr as [Hr Hrs]. pose proof (pre_sound_child r m Hr Hi) as Hc.
    destruct (eval_child r (ResetRuleCache m)) as [[] nested]; destruct Hc as [[Hf Ht] Hz].
    + destruct (Z.eqb_spec (m_DeferredIPCIDRMatchGroups nested) 0) as [En|En].
      * intros [= <- <- <-] _. split; [done|]. intros _ _ response. by rewrite Ht.
      * intros HL _. destruct (IH _ _ _ _ _ _ Hrs Hi HL) as [H1 H2].
        { intros _ [_ H]%lor_zero. by apply En. }
        split; [|intros Hb Hd response; by rewrite H2, orb_true_r].
        intros Hb. exfalso. subst b. revert HL. clear. generalize (deferred .| m_DeferredIPCIDRMatchGroups nested), (m_MatchInputs nested).
        induction rules as [|r rules IH]; intros z y; simpl; [done|].
        destruct (eval_child r _) as [[] n]; [destruct (_ =? 0); [done|]|]; apply IH.
    + intros HL Hm. rewrite Hz, Z.lor_0_r in HL by done.
      destruct (IH _ _ _ _ _ _ Hrs Hi HL Hm) as [H1 H2]. split.
      * intros Hb response. by rewrite Hf, H1.
      * intros Hb Hd response. by rewrite H2, orb_true_r.
Qed.

Lemma logical_sound isAnd rules invert m :
  Forall pre_sound rules → m_IgnoreDestinationIPCIDRMatch m = true → m_DeferredIPCIDRMatchGroups m = 0 →
  let '(b, m') := logical_Match isAnd (List.map eval_child rules) invert m in
  sound3 (λ response, holds (RuleLogical isAnd rules invert) (m_NamedDNSResponses m) (with_response (m_view m) response))
    b (m_DeferredIPCIDRMatchGroups m')
  ∧ (b = false → m_DeferredIPCIDRMatchGroups m' = 0).
Proof.
  intros Hr Hi Hz. unfold logical_Match. cbn [holds].
  destruct (if isAnd then _ else _) as [[b c] k] eqn:EL.
  set (final := λ response, if isAnd then forallb (λ r, final_child m r response) rules else existsb (λ r, final_child m r response) rules).
  assert ((b = false → ∀ response, final response = false) ∧ (b = true → k = 0 → ∀ response, final response = true)) as [H1 H2].
  { unfold final. destruct isAnd.
    - destruct (and_loop_sound _ _ _ _ _ _ _ _ Hr Hi EL) as [H1 H2]. split.
      + intros Hb response. destruct (H1 Hb) as [|H]; [done|apply H].
      + intros Hb Hk. by destruct (H2 Hb Hk) as (_ & _ & H).
    - by apply (or_loop_sound _ _ _ _ _ _ _ _ Hr Hi EL). }
  destruct invert.
  - destruct (Z.eqb_spec k 0) as [->|Hk]; cbn [negb].
    + rewrite Z.lor_0_r. destruct b; cbn [negb]; split; try done; split; try done.
      * intros _ response. exact (f_equal negb (H2 eq_refl eq_refl response)).
      * intros _ _ response. exact (f_equal negb (H1 eq_refl response)).
    + split; [|done]. split; [done|]. intros _ Hd. cbn in Hd. by apply lor_zero in Hd as [_ ?].
  - destruct b; split; try done; split; try done.
    intros _ Hd response. cbn in Hd. apply lor_zero in Hd as [_ Hd]. exact (H2 eq_refl Hd response).
Qed.

Lemma default_pre_sound d invert m :
  deferrable_items d → m_IgnoreDestinationIPCIDRMatch m = true → m_DeferredIPCIDRMatchGroups m = 0 →
  v_IPCIDRMatchSource (m_view m) = false →
  let '(b, m') := abstract_default d None invert m in
  sound3 (λ response, holds (RuleDefault d None invert) (m_NamedDNSResponses m) (with_response (m_view m) response))
    b (m_DeferredIPCIDRMatchGroups m')
  ∧ (b = false → m_DeferredIPCIDRMatchGroups m' = 0).
Proof.
  intros Hd Hi Hz Hsrc. pose proof (default_sound d invert m Hd Hsrc Hi Hz) as Hs.
  pose proof (default_hygienic (allItems_empty d None) d (sets_runner None) invert (sets_runner_ok None) m) as Hh.
  unfold abstract_default in *. destruct (default_Match _ _ _ _ m) as [[] m'].
  - by split.
  - split; [done|]. intros _. by rewrite Hh.
Qed.

Lemma deferrable_pre_sound r : deferrable r → pre_sound r.
Proof.
  induction r as [d sets invert Hs|isAnd rules invert Hr|d sets invert mr tag Hs|isAnd rules invert Hr] using Rule_ind;
    simpl; intros Hdef m Hi Hz Hsrc; unfold eval_child; rewrite Hi; cbn [is_dns andb].
  - destruct sets; [done|]. rewrite eval_default. by apply default_pre_sound.
  - rewrite eval_logical. apply logical_sound; [|done..].
    apply deferrable_children in Hdef. rewrite Forall_forall in Hr, Hdef |- *. auto.
  - destruct sets, mr; try done. rewrite eval_pre_default. unfold with_ignore_destination.
    pose proof (default_pre_sound d invert (with_ignore m true) Hdef eq_refl Hz Hsrc) as H.
    by destruct (abstract_default d None invert (with_ignore m true)) as [b m'].
  - rewrite eval_pre_logical. unfold with_ignore_destination.
    assert (Forall pre_sound rules) as Hp.
    { apply deferrable_children in Hdef. rewrite Forall_forall in Hr, Hdef |- *. auto. }
    pose proof (logical_sound isAnd rules invert (with_ignore m true) Hp eq_refl Hz) as H.
    by destruct (logical_Match isAnd _ invert (with_ignore m true)) as [b m'].
Qed.

(** [MatchAddressLimit] computes the boolean semantics of the rule on the response. *)
Lemma MatchAddressLimit_holds r response m :
  is_dns r = true → deferrable r → m_IgnoreDestinationIPCIDRMatch m = false →
  (MatchAddressLimit r response m).1 = holds r (m_NamedDNSResponses m) (with_response (m_view m) response).
Proof.
  intros Hdns Hdef Hi. set (m1 := with_view m (with_response (m_view m) response)).
  destruct r as [| |d sets invert mr tag|isAnd rules invert]; try done; cbn [MatchAddressLimit].
  - destruct sets, mr; try done. fold m1.
    destruct (eval_refines (RuleDefault d None invert) m1 Hi) as [i ->]. done.
  - fold m1. destruct (eval_refines (RuleLogical isAnd rules invert) m1 Hi) as [i ->]. done.
Qed.

(** ** Properties *)

(** Matching a rule never leaves traces of a failure: a rule that does not match returns the
    context exactly as it was, and one that matches only adds input classes and
    deferred groups; the same holds for the DNS pre-match, which also leaves the
    destination-IP flag cleared. *)
Theorem Match_hygiene r m :
  hygienic (Match r) ∧
  (m_IgnoreDestinationIPCIDRMatch m = false →
   match LegacyPreMatch r m with
   | (false, m') => m' = m
   | (true, m') => ∃ i k, m' = with_deferred (with_inputs m (m_MatchInputs m .| i)) (m_DeferredIPCIDRMatchGroups m .| k)
   end).
Proof.
  split; [apply eval_hygienic|]. intros Hi. unfold LegacyPreMatch.
  assert (∀ f, hygienic f → match with_ignore_destination f m with
    | (false, m') => m' = m
    | (true, m') => ∃ i k, m' = with_deferred (with_inputs m (m_MatchInputs m .| i)) (m_DeferredIPCIDRMatchGroups m .| k)
    end) as Hw.
  { intros f Hf. unfold with_ignore_destination. specialize (Hf (with_ignore m true)).
    destruct (f (with_ignore m true)) as [[] m'].
    - destruct Hf as (i & k & ->). exists i, k. destruct m; simpl in *. by subst.
    - subst m'. destruct m; simpl in *. by subst. }
  destruct r as [d sets inv|a l inv|d sets inv [] tag|a l inv].
  - exact (eval_hygienic (RuleDefault d sets inv) m).
  - exact (eval_hygienic (RuleLogical a l inv) m).
  - done.
  - rewrite eval_pre_default. apply Hw, default_hygienic, sets_runner_ok.
  - rewrite eval_pre_logical. apply Hw, logical_hygienic.
Qed.

(** C2. Outside the DNS pre-match the matcher decides the boolean semantics: every group a
    default rule constrains needs one matching item, a mergeable rule-set shares
    the groups of its rule, other rule-sets are a further conjunct, logical
    rules are conjunction and disjunction, and inversion negates; nothing is deferred. *)
Theorem Match_refines_holds r m :
  m_IgnoreDestinationIPCIDRMatch m = false →
  (Match r m).1 = holds r (m_NamedDNSResponses m) (m_view m) ∧
  m_DeferredIPCIDRMatchGroups (Match r m).2 = m_DeferredIPCIDRMatchGroups m.
Proof.
  intros Hi. unfold Match. destruct (eval_refines r m Hi) as [i ->]. split; [done|]. simpl. by destruct (holds r _ _).
Qed.

(** C8. For DNS rules whose address conditions can be left for later, matched from a context
    that was reset, the pre-match never contradicts the response that follows: a rule it rejects is rejected by the
    address-limit match for every response, and one it accepts with nothing deferred is
    accepted for every response.  These are the default and logical DNS rules, nested and
    inverted in any way, in which only the destination-IP items read the response, and no
    rule refers to a rule-set, asks for match_response, or puts domain and destination-IP
    conditions into one group; a rule with both is pre-matched by its domains alone, and
    mixed_rule_decided_by_domain shows that it is rejected there although a response would
    match. *)
Theorem LegacyPreMatch_sound r m :
  is_dns r = true → deferrable r →
  m_IgnoreDestinationIPCIDRMatch m = false → m_DeferredIPCIDRMatchGroups m = 0 →
  v_IPCIDRMatchSource (m_view m) = false →
  ∀ response,
    ((LegacyPreMatch r m).1 = false → (MatchAddressLimit r response m).1 = false) ∧
    ((LegacyPreMatch r m).1 = true → m_DeferredIPCIDRMatchGroups (LegacyPreMatch r m).2 = 0 →
     (MatchAddressLimit r response m).1 = true).
Proof.
  intros Hdns Hdef Hi Hz Hsrc response. rewrite MatchAddressLimit_holds by done.
  pose proof (deferrable_pre_sound r Hdef (with_ignore m true) eq_refl Hz Hsrc) as H.
  assert (eval_child r (with_ignore m true) = LegacyPreMatch r m) as E.
  { destruct r as [| |d sets inv [] tag|]; try done; by destruct sets. }
  rewrite E in H. destruct (LegacyPreMatch r m) as [b m']. destruct H as [[Hf Ht] _]. split; intros Hb; simpl in *.
  - by apply (Hf Hb).
  - intros Hk. by apply (Ht Hb Hk).
Qed.

(** ** Witnesses *)

Definition sample_view : View :=
  mkView AddrZero 5353 AddrZero "example.org" 53 false false [] "example.org" "udp" 4 ∅ None false false false.
Definition sample_context : InboundContext := mkContext sample_view ∅ 0 0 false RouteVerdictScopeUnknown.
(** [{domain, ip_cidr}] as two rules under an OR, the second one inverted. *)
Definition sample_domain : DefaultItems :=
  mkDefaultItems [] [] [] [DomainItem (λ s, s) (String.eqb "example.org")] [] [].
Definition sample_cidr : DefaultItems :=
  mkDefaultItems [NetworkItem ["udp"]] [] [] [] [IPCIDRItem (λ _, true) [] false] [].
Definition sample_dns_rule : Rule :=
  RuleDNSLogical true [RuleDNSDefault sample_domain None false false ""; RuleDNSDefault sample_cidr None true false ""] false.

Lemma Match_hygiene_witness :
  hygienic (Match sample_dns_rule) ∧ (LegacyPreMatch sample_dns_rule sample_context).1 = true ∧
  m_IgnoreDestinationIPCIDRMatch (LegacyPreMatch sample_dns_rule sample_context).2 = false.
Proof.
  destruct (Match_hygiene sample_dns_rule sample_context) as [H1 H2]. specialize (H2 eq_refl).
  split; [exact H1|]. split; reflexivity.
Defined.

Lemma Match_refines_holds_witness :
  (Match sample_dns_rule sample_context).1 = holds sample_dns_rule ∅ sample_view.
Proof. apply (Match_refines_holds sample_dns_rule sample_context). reflexivity. Defined.

(** Domain and address conditions of one rule are alternatives; the pre-match looks at the
    domains only. *)
Definition mixed_rule : Rule :=
  RuleDNSDefault (mkDefaultItems [] [] [] [DomainItem (λ s, s) (String.eqb "example.com")] [IPCIDRItem (λ _, true) [] false] []) None false false "".
Lemma mixed_rule_decided_by_domain :
  (LegacyPreMatch mixed_rule sample_context).1 = false ∧ (MatchAddressLimit mixed_rule (Some [AddrV4 1]) sample_context).1 = true.
Proof. split; reflexivity. Qed.

Lemma LegacyPreMatch_sound_witness :
  deferrable sample_dns_rule ∧
  m_DeferredIPCIDRMatchGroups (LegacyPreMatch sample_dns_rule sample_context).2 = 4 ∧
  ∀ response, (LegacyPreMatch sample_dns_rule sample_context).1 = false →
    (MatchAddressLimit sample_dns_rule response sample_context).1 = false.
Proof.
  assert (deferrable sample_dns_rule) as Hd.
  { repeat split; repeat constructor; intros v response; reflexivity. }
  split; [exact Hd|]. split; [reflexivity|]. intros response.
  exact (proj1 (LegacyPreMatch_sound sample_dns_rule sample_context eq_refl Hd eq_refl eq_refl eq_refl response)).
Defined.
