(* ===== verification/RouteVerdict.v ===== *)
(** * Route decisions and what may be sunk into the kernel

    [route/route.go] ([matchRule], the walk over the rules with the actions that
    are not final), [route/rule/rule_default.go] ([VerdictScope]),
    [route/rule/static_direct_sink.go] (the prefixes and source MAC addresses
    published as kernel verdicts), [protocol/ebpf/verdict_learn.go] (the gates a
    learned verdict passes) and [protocol/ebpf/dns_prefill.go]
    ([dnsPrefillIsStableDirect]).  The rules are those of [RouteRule]; sniffing,
    resolving and the preparation of the metadata are effects on the routing
    state given by parameters. *)

From Stdlib Require Import ZArith Lia.
From S2P Require Import Prelude NetIP RouteRule.
From stdpp Require Import base gmap list strings numbers.

Local Open Scope Z_scope.

(** ** Actions *)

Record Socksaddr : Type := mkSocksaddr { sa_Addr : Addr; sa_Fqdn : string; sa_Port : Z }.

Record RuleActionRouteOptions : Type := mkRouteOptions {
  o_OverrideAddress : Socksaddr;
  o_OverridePort : Z;
  o_NetworkStrategy : option Z;
  o_NetworkType : list Z;
  o_FallbackNetworkType : list Z;
  o_FallbackDelay : Z;
  o_UDPDisableDomainUnmapping : bool;
  o_UDPConnect : bool;
  o_UDPTimeout : Z;
  o_TLSFragment : bool;
  o_TLSFragmentFallbackDelay : Z;
  o_TLSRecordFragment : bool;
  o_TLSSpoof : string;
  o_TLSSpoofMethod : Z }.

Inductive RuleAction : Type :=
| RuleActionRoute (outbound : string) (options : RuleActionRouteOptions)
| RuleActionBypass (outbound : string) (options : RuleActionRouteOptions)
| RuleActionOptions (options : RuleActionRouteOptions)
| RuleActionDirect
| RuleActionReject (method : string)
| RuleActionHijackDNS
| RuleActionSniff
| RuleActionResolve.

(** A rule of the router: [DefaultRule] or [LogicalRule] with its action. *)
Inductive RouterRule : Type :=
| DefaultRule (d : DefaultItems) (sets : option RuleSets) (invert : bool) (action : RuleAction)
| LogicalRule (isAnd : bool) (rules : list Rule) (invert : bool) (action : RuleAction).

Definition rule_of (r : RouterRule) : Rule :=
  match r with
  | DefaultRule d sets invert _ => RuleDefault d sets invert
  | LogicalRule isAnd rules invert _ => RuleLogical isAnd rules invert
  end.
Definition action_of (r : RouterRule) : RuleAction :=
  match r with DefaultRule _ _ _ a | LogicalRule _ _ _ a => a end.

(** ** The scope of a verdict *)

(** [allItems] without the rule-set item. *)
Definition allItems (d : DefaultItems) : list RuleItem :=
  items d ++ sourceAddressItems d ++ sourcePortItems d ++ destinationAddressItems d
  ++ destinationIPCIDRItems d ++ destinationPortItems d.

Definition rule_classes (d : DefaultItems) (sets : option RuleSets) : Z :=
  foldl (λ c i, c .| ri_class i) 0 (allItems d) .| match sets with Some s => sets_class s | None => 0 end.

Definition VerdictScope (r : RouterRule) : RouteVerdictScope :=
  match r with
  | DefaultRule d sets invert _ =>
      if invert || nonempty (sourceAddressItems d) || nonempty (sourcePortItems d) || nonempty (destinationPortItems d)
      then RouteVerdictScopeUnknown
      else
        let classes := rule_classes d sets in
        if (classes =? 0) || (classes =? RouteMatchIP) then RouteVerdictScopeDestinationIP
        else RouteVerdictScopeUnknown
  | LogicalRule _ _ _ _ => RouteVerdictScopeUnknown
  end.

(** ** The rule walk *)

Section Router.
(** [Socksaddr] methods of another package. *)
Context (isValid isIP isIPv6 : Socksaddr → bool).
(** Buffers handed over by sniffing. *)
Context {Buffer PacketBuffer : Type}.

(** The metadata the walk reads and writes: the matching context and the options
    later used to dial. *)
Record RouteState : Type := mkRouteState {
  st_ctx : InboundContext;
  st_RouteOriginalDestination : Socksaddr;
  st_NetworkStrategy : option Z;
  st_NetworkType : list Z;
  st_FallbackNetworkType : list Z;
  st_FallbackDelay : Z;
  st_UDPDisableDomainUnmapping : bool;
  st_UDPConnect : bool;
  st_UDPTimeout : Z;
  st_TLSFragment : bool;
  st_TLSFragmentFallbackDelay : Z;
  st_TLSRecordFragment : bool;
  st_TLSSpoof : string;
  st_TLSSpoofMethod : Z }.

Definition with_ctx (s : RouteState) (m : InboundContext) : RouteState :=
  mkRouteState m (st_RouteOriginalDestination s) (st_NetworkStrategy s) (st_NetworkType s) (st_FallbackNetworkType s)
    (st_FallbackDelay s) (st_UDPDisableDomainUnmapping s) (st_UDPConnect s) (st_UDPTimeout s) (st_TLSFragment s)
    (st_TLSFragmentFallbackDelay s) (st_TLSRecordFragment s) (st_TLSSpoof s) (st_TLSSpoofMethod s).

Definition destination (v : View) : Socksaddr := mkSocksaddr (v_DestAddr v) (v_DestFqdn v) (v_DestPort v).
(** [metadata.Destination = a] *)
Definition with_destination (v : View) (a : Socksaddr) : View :=
  mkView (v_SourceAddr v) (v_SourcePort v) (sa_Addr a) (sa_Fqdn a) (sa_Port a) (isIP a) (isIPv6 a)
    (v_DestinationAddresses v) (v_Domain v) (v_Network v) (v_IPVersion v) (v_attrs v) (v_DNSResponse v)
    (v_DestinationAddressMatchFromResponse v) (v_IPCIDRMatchSource v) (v_IPCIDRAcceptEmpty v).
Definition without_addresses (v : View) : View :=
  mkView (v_SourceAddr v) (v_SourcePort v) (v_DestAddr v) (v_DestFqdn v) (v_DestPort v) (v_DestIsIP v) (v_DestIsIPv6 v)
    [] (v_Domain v) (v_Network v) (v_IPVersion v) (v_attrs v) (v_DNSResponse v)
    (v_DestinationAddressMatchFromResponse v) (v_IPCIDRMatchSource v) (v_IPCIDRAcceptEmpty v).

(** The destination after [applyRouteOptionsOverride]. *)
Definition override_view (v : View) (o : RuleActionRouteOptions) : View :=
  let v := if isValid (o_OverrideAddress o)
           then with_destination v (mkSocksaddr (sa_Addr (o_OverrideAddress o)) (sa_Fqdn (o_OverrideAddress o)) (v_DestPort v))
           else v in
  if 0 <? o_OverridePort o then with_destination v (mkSocksaddr (v_DestAddr v) (v_DestFqdn v) (o_OverridePort o)) else v.

(** [if routeOptions != nil { ... }] of [matchRule]. *)
Definition apply_options (s : RouteState) (o : RuleActionRouteOptions) : RouteState :=
  let v := m_view (st_ctx s) in
  let original := if (isValid (o_OverrideAddress o) || (0 <? o_OverridePort o)) && negb (isValid (st_RouteOriginalDestination s))
                  then destination v else st_RouteOriginalDestination s in
  let v := if isValid (o_OverrideAddress o) then without_addresses v else v in
  mkRouteState (with_view (st_ctx s) (override_view v o)) original
    (match o_NetworkStrategy o with Some n => Some n | None => st_NetworkStrategy s end)
    (if nonempty (o_NetworkType o) then o_NetworkType o else st_NetworkType s)
    (if nonempty (o_FallbackNetworkType o) then o_FallbackNetworkType o else st_FallbackNetworkType s)
    (if negb (o_FallbackDelay o =? 0) then o_FallbackDelay o else st_FallbackDelay s)
    (o_UDPDisableDomainUnmapping o || st_UDPDisableDomainUnmapping s)
    (o_UDPConnect o || st_UDPConnect s)
    (if 0 <? o_UDPTimeout o then o_UDPTimeout o else st_UDPTimeout s)
    (o_TLSFragment o || st_TLSFragment s)
    (if o_TLSFragment o then o_TLSFragmentFallbackDelay o else st_TLSFragmentFallbackDelay s)
    (o_TLSRecordFragment o || st_TLSRecordFragment s)
    (if negb (String.eqb (o_TLSSpoof o) "") then o_TLSSpoof o else st_TLSSpoof s)
    (if negb (String.eqb (o_TLSSpoof o) "") then o_TLSSpoofMethod o else st_TLSSpoofMethod s).

Definition options_of (a : RuleAction) : option RuleActionRouteOptions :=
  match a with
  | RuleActionRoute _ o | RuleActionOptions o => Some o
  | RuleActionBypass outbound o => if String.eqb outbound "" then None else Some o
  | _ => None
  end.

(** Sniffing and resolving: the new metadata, what was buffered, and an error. *)
Context (prepareMatchMetadata : RouteState → RouteState * option string).
Context (actionSniff : RouteState → list Buffer → list PacketBuffer →
             RouteState * option Buffer * list PacketBuffer * option string).
Context (actionResolve : RouteState → RouteState * option string).

Record MatchResult : Type := mkMatchResult {
  mr_selected : option (nat * RouterRule);
  mr_buffers : list Buffer;
  mr_packetBuffers : list PacketBuffer;
  mr_fatalErr : option string;
  mr_state : RouteState }.

(** [actionType] is one of route, reject, hijack-dns, or bypass with an outbound. *)
Definition selects (a : RuleAction) : bool :=
  match a with
  | RuleActionRoute _ _ | RuleActionReject _ | RuleActionHijackDNS => true
  | RuleActionBypass outbound _ => negb (String.eqb outbound "")
  | _ => false
  end.

(** The actions that taint the scope. *)
Definition taints (a : RuleAction) : bool :=
  match a with RuleActionSniff | RuleActionResolve | RuleActionOptions _ => true | _ => false end.

Definition set_scope (s : RouteState) (scope : RouteVerdictScope) : RouteState :=
  with_ctx s (mkContext (m_view (st_ctx s)) (m_NamedDNSResponses (st_ctx s)) (m_MatchInputs (st_ctx s))
    (m_DeferredIPCIDRMatchGroups (st_ctx s)) (m_IgnoreDestinationIPCIDRMatch (st_ctx s)) scope).

(** The end of [matchRule]: the scope published with the decision. *)
Definition publish_scope (selected : option (nat * RouterRule)) (tainted : bool) (s : RouteState) : RouteState :=
  set_scope s
    match selected with
    | None => if tainted then RouteVerdictScopeUnknown else RouteVerdictScopeDestinationIP
    | Some (_, r) => if tainted then RouteVerdictScopeUnknown else VerdictScope r
    end.

(** The action of a matched rule: the state after it, or a fatal error. *)
Definition run_action (a : RuleAction) (s : RouteState) (buffers : list Buffer) (packets : list PacketBuffer) :
    RouteState * list Buffer * list PacketBuffer * option string :=
  let s := match options_of a with Some o => apply_options s o | None => s end in
  match a with
  | RuleActionSniff =>
      let '(s, newBuffer, newPackets, err) := actionSniff s buffers packets in
      match newBuffer with
      | Some b => (s, buffers ++ [b], packets, err)
      | None => (s, buffers, packets ++ newPackets, err)
      end
  | RuleActionResolve => let '(s, err) := actionResolve s in (s, buffers, packets, err)
  | _ => (s, buffers, packets, None)
  end.

(** The loop [match:] of [matchRule]. *)
Fixpoint match_loop (rules : list RouterRule) (index : nat) (s : RouteState) (tainted : bool)
    (buffers : list Buffer) (packets : list PacketBuffer) : MatchResult :=
  match rules with
  | [] => mkMatchResult None buffers packets None (publish_scope None tainted s)
  | r :: rules =>
      let '(matched, m) := Match (rule_of r) (ResetRuleCache (st_ctx s)) in
      let s := with_ctx s m in
      if negb matched then match_loop rules (S index) s tainted buffers packets
      else
        let '(s, buffers, packets, err) := run_action (action_of r) s buffers packets in
        match err with
        | Some e => mkMatchResult None buffers packets (Some e) s
        | None =>
            let tainted := tainted || taints (action_of r) in
            if selects (action_of r)
            then mkMatchResult (Some (index, r)) buffers packets None (publish_scope (Some (index, r)) tainted s)
            else match_loop rules (S index) s tainted buffers packets
        end
  end.

Definition matchRule (rules : list RouterRule) (s : RouteState) : MatchResult :=
  let '(s, err) := prepareMatchMetadata s in
  match err with
  | Some e => mkMatchResult None [] [] (Some e) s
  | None => match_loop rules 0 s false [] []
  end.

(** ** The walk as a relation *)

(** [passes rules s t s' t']: none of [rules] ends the walk, which goes from the
    state [s] (taint [t]) to [s'] ([t']). *)
Inductive passes : list RouterRule → RouteState → bool → RouteState → bool → Prop :=
| passes_nil s t : passes [] s t s t
| passes_fail r rules s t s' t' m :
    Match (rule_of r) (ResetRuleCache (st_ctx s)) = (false, m) →
    passes rules (with_ctx s m) t s' t' →
    passes (r :: rules) s t s' t'
| passes_action r rules s t s' t' m s1 buffers packets buffers1 packets1 :
    Match (rule_of r) (ResetRuleCache (st_ctx s)) = (true, m) →
    selects (action_of r) = false →
    run_action (action_of r) (with_ctx s m) buffers packets = (s1, buffers1, packets1, None) →
    passes rules s1 (t || taints (action_of r)) s' t' →
    passes (r :: rules) s t s' t'.

Lemma match_loop_selected rules : ∀ k s t bs ps i r,
  mr_selected (match_loop rules k s t bs ps) = Some (i, r) →
  ∃ pre post s' t' m,
    rules = pre ++ r :: post ∧ i = (k + length pre)%nat ∧ passes pre s t s' t' ∧
    Match (rule_of r) (ResetRuleCache (st_ctx s')) = (true, m) ∧ selects (action_of r) = true ∧
    m_VerdictScope (st_ctx (mr_state (match_loop rules k s t bs ps))) =
      (if t' || taints (action_of r) then RouteVerdictScopeUnknown else VerdictScope r).
Proof.
  induction rules as [|x rules IH]; intros k s t bs ps i r; simpl; [done|].
  destruct (Match (rule_of x) (ResetRuleCache (st_ctx s))) as [[] m] eqn:Em; simpl.
  - destruct (run_action _ _ _ _) as [[[s1 bs1] ps1] [e|]] eqn:Ea; [done|].
    destruct (selects (action_of x)) eqn:Es.
    + intros [= <- <-]. exists [], rules, s, t, m. split_and!; [done | simpl; lia | constructor | done | done | done].
    + intros H. destruct (IH _ _ _ _ _ _ _ H) as (pre & post & s' & t' & m' & -> & -> & Hp & Hm & Hsel & Hsc).
      exists (x :: pre), post, s', t', m'. split_and!; [done | simpl; lia | by eapply passes_action | done | done | done].
  - intros H. destruct (IH _ _ _ _ _ _ _ H) as (pre & post & s' & t' & m' & -> & -> & Hp & Hm & Hsel & Hsc).
    exists (x :: pre), post, s', t', m'. split_and!; [done | simpl; lia | by eapply passes_fail | done | done | done].
Qed.

Lemma match_loop_unselected rules : ∀ k s t bs ps,
  mr_selected (match_loop rules k s t bs ps) = None →
  mr_fatalErr (match_loop rules k s t bs ps) = None →
  ∃ s' t', passes rules s t s' t' ∧
    m_VerdictScope (st_ctx (mr_state (match_loop rules k s t bs ps))) =
      (if t' then RouteVerdictScopeUnknown else RouteVerdictScopeDestinationIP).
Proof.
  induction rules as [|x rules IH]; intros k s t bs ps; simpl.
  - intros _ _. exists s, t. split; [constructor|done].
  - destruct (Match (rule_of x) (ResetRuleCache (st_ctx s))) as [[] m] eqn:Em; simpl.
    + destruct (run_action _ _ _ _) as [[[s1 bs1] ps1] [e|]] eqn:Ea; [done|].
      destruct (selects (action_of x)) eqn:Es; [done|].
      intros H1 H2. destruct (IH _ _ _ _ _ H1 H2) as (s' & t' & Hp & Hsc).
      exists s', t'. split; [by eapply passes_action | done].
    + intros H1 H2. destruct (IH _ _ _ _ _ H1 H2) as (s' & t' & Hp & Hsc).
      exists s', t'. split; [by eapply passes_fail | done].
Qed.

(** What a rule sees of the context of a walk. *)
Definition rule_sees (s : RouteState) (r : RouterRule) : bool :=
  holds (rule_of r) (m_NamedDNSResponses (st_ctx s)) (child_view (m_view (st_ctx s))).

Lemma Match_walk r s :
  m_IgnoreDestinationIPCIDRMatch (st_ctx s) = false →
  ∃ i, Match (rule_of r) (ResetRuleCache (st_ctx s)) =
    (rule_sees s r, if rule_sees s r then with_inputs (ResetRuleCache (st_ctx s)) i else ResetRuleCache (st_ctx s)).
Proof. intros Hi. exact (eval_refines (rule_of r) (ResetRuleCache (st_ctx s)) Hi). Qed.

(** The states of a walk no rule can tell apart. *)
Definition same_sight (s s' : RouteState) : Prop :=
  child_view (m_view (st_ctx s)) = child_view (m_view (st_ctx s')) ∧
  m_NamedDNSResponses (st_ctx s) = m_NamedDNSResponses (st_ctx s') ∧
  m_IgnoreDestinationIPCIDRMatch (st_ctx s) = m_IgnoreDestinationIPCIDRMatch (st_ctx s').

Lemma same_sight_sees s s' r : same_sight s s' → rule_sees s r = rule_sees s' r.
Proof. intros (H1 & H2 & _). unfold rule_sees. by rewrite H1, H2. Qed.

#[local] Instance same_sight_equiv : Equivalence same_sight.
Proof.
  split; unfold same_sight; [by intros ? | by intros ?? (? & ? & ?) | intros ??? (-> & -> & ->) (-> & -> & ->); done].
Qed.

Lemma same_sight_match s m i :
  m = ResetRuleCache (st_ctx s) ∨ m = with_inputs (ResetRuleCache (st_ctx s)) i → same_sight s (with_ctx s m).
Proof. by intros [-> | ->]. Qed.

(** A pass that ends untainted changed nothing a rule can see. *)
Lemma passes_clean rules s t s' t' :
  passes rules s t s' t' → t' = false → m_IgnoreDestinationIPCIDRMatch (st_ctx s) = false →
  t = false ∧ same_sight s s' ∧
  Forall (λ r, rule_sees s r = true → selects (action_of r) = false ∧ taints (action_of r) = false) rules.
Proof.
  induction 1 as [s t|r rules s t s' t' m Hm Hp IH|r rules s t s' t' m s1 bs ps bs1 ps1 Hm Hs Ha Hp IH]; intros Ht Hi.
  - split_and!; [done | by reflexivity | by constructor].
  - destruct (Match_walk r s Hi) as [i Hw]. rewrite Hm in Hw. injection Hw as Hsee Hm'. rewrite <- Hsee in Hm'.
    assert (same_sight s (with_ctx s m)) as Hss by (apply (same_sight_match _ _ 0); by left).
    destruct (IH Ht) as (-> & Hs' & Hall); [by subst m|]. split_and!; [done | by etrans |].
    constructor; [by rewrite <- Hsee|]. eapply Forall_impl; [|exact Hall]. intros x Hx. by rewrite (same_sight_sees _ _ x Hss).
  - destruct (Match_walk r s Hi) as [i Hw]. rewrite Hm in Hw. injection Hw as Hsee Hm'. rewrite <- Hsee in Hm'.
    assert (same_sight s (with_ctx s m)) as Hss by (apply (same_sight_match _ _ i); by right).
    destruct (taints (action_of r)) eqn:Etaint.
    { exfalso. assert (t || true = true) as E by apply orb_true_r. rewrite E in Hp. clear -Hp Ht.
      remember true as tt eqn:Ett in Hp. induction Hp; subst; try done; by apply IHHp. }
    assert (s1 = with_ctx s m) as ->.
    { destruct (action_of r) as [|outbound o| | | | | |]; simpl in *; try done; [|by simplify_eq].
      destruct (String.eqb outbound ""); [by simplify_eq | done]. }
    destruct (IH Ht) as (Ht0 & Hs' & Hall); [by subst m|].
    rewrite orb_false_r in Ht0. split_and!; [done | by etrans |].
    constructor; [done|]. eapply Forall_impl; [|exact Hall]. intros x Hx. by rewrite (same_sight_sees _ _ x Hss).
Qed.

(** When every action is final the walk is a search for the first rule that
    holds. *)
Lemma match_loop_final rules : ∀ k s t bs ps,
  Forall (λ r, selects (action_of r) = true ∧ taints (action_of r) = false) rules →
  m_IgnoreDestinationIPCIDRMatch (st_ctx s) = false →
  mr_selected (match_loop rules k s t bs ps) =
    prod_map (λ i, (k + i)%nat) id <$>
      list_find (λ r, rule_sees s r = true) rules.
Proof.
  induction rules as [|x rules IH]; intros k s t bs ps Hf Hi; simpl; [done|].
  apply Forall_cons_1 in Hf as [[Hsel Htaint] Hf].
  destruct (Match_walk x s Hi) as [i ->].
  destruct (rule_sees s x) eqn:Eh; cbn [negb].
  - rewrite decide_True by done. simpl. rewrite Hsel.
    destruct (action_of x); try done; simpl; rewrite Nat.add_0_r; done.
  - rewrite decide_False by done. rewrite IH by done. rewrite <- option_fmap_compose. simpl.
    apply option_fmap_ext. intros [j r]. unfold prod_map; simpl. f_equal. lia.
Qed.

(** The first rule that holds and is final; earlier ones that hold are skipped. *)
Definition first_final (rules : list RouterRule) (s : RouteState) : option (nat * RouterRule) :=
  list_find (λ r, rule_sees s r = true ∧ selects (action_of r) = true) rules.

Lemma skipped_not_final rules s :
  Forall (λ r, rule_sees s r = true → selects (action_of r) = false ∧ taints (action_of r) = false) rules →
  ∀ r, r ∈ rules → ¬ (rule_sees s r = true ∧ selects (action_of r) = true).
Proof.
  intros Hall r [i Hr]%list_elem_of_lookup [H1 H2]. destruct (Forall_lookup_1 _ _ _ _ Hall Hr H1) as [H3 _]. congruence.
Qed.

(** A rule that, seen by a walk in the state [s], neither ends it nor runs an action
    that rewrites or enriches the metadata. *)
Definition quiet_rule (s : RouteState) (r : RouterRule) : Prop :=
  rule_sees s r = true → selects (action_of r) = false ∧ taints (action_of r) = false.

(** The number of rules a walk passes before the selected one. *)
Definition walked (rules : list RouterRule) (selected : option (nat * RouterRule)) : nat :=
  match selected with Some (i, _) => i | None => length rules end.

(** The verdict of a walk whose published scope is the destination IP. *)
Lemma match_loop_scope rules s bs ps :
  m_IgnoreDestinationIPCIDRMatch (st_ctx s) = false →
  mr_fatalErr (match_loop rules 0 s false bs ps) = None →
  m_VerdictScope (st_ctx (mr_state (match_loop rules 0 s false bs ps))) = RouteVerdictScopeDestinationIP →
  mr_selected (match_loop rules 0 s false bs ps) = first_final rules s ∧
  Forall (quiet_rule s) (take (walked rules (first_final rules s)) rules) ∧
  (∀ i r, first_final rules s = Some (i, r) → VerdictScope r = RouteVerdictScopeDestinationIP).
Proof.
  intros Hi Herr Hscope. destruct (mr_selected _) as [[i r]|] eqn:Esel.
  - destruct (match_loop_selected rules _ _ _ _ _ _ _ Esel) as (pre & post & s' & t' & m & Er & -> & Hp & Hm & Hsel & Hsc).
    rewrite Hscope in Hsc. destruct (t' || taints (action_of r)) eqn:Et; [done|].
    apply orb_false_iff in Et as [Et' _].
    destruct (passes_clean _ _ _ _ _ Hp Et' Hi) as (_ & Hss & Hall).
    assert (rule_sees s r = true) as Hsee.
    { rewrite (same_sight_sees _ _ r Hss). destruct (Match_walk r s') as [j Hj].
      { destruct Hss as (_ & _ & <-). done. }
      rewrite Hm in Hj. by injection Hj. }
    assert (first_final rules s = Some (length pre, r)) as ->.
    { unfold first_final. rewrite Er. apply list_find_Some. split_and!.
      - by apply list_lookup_middle.
      - done.
      - done.
      - intros j y Hj Hlt. rewrite lookup_app_l in Hj by done.
        apply (skipped_not_final pre s Hall y), list_elem_of_lookup. by exists j. }
    split; [done|]. split; [cbn [walked]; by rewrite Er, take_app_length|]. intros i r' [= _ <-]. done.
  - destruct (match_loop_unselected rules _ _ _ _ _ Esel Herr) as (s' & t' & Hp & Hsc).
    rewrite Hscope in Hsc. destruct t'; [done|].
    destruct (passes_clean _ _ _ _ _ Hp eq_refl Hi) as (_ & _ & Hall).
    assert (first_final rules s = None) as ->; [|split_and!; [done | by rewrite take_ge by done | done]].
    unfold first_final. apply list_find_None, Forall_lookup. intros i y Hy%list_elem_of_lookup_2. by apply (skipped_not_final rules s Hall).
Qed.

(** When every action of the rule list is final, routing is a search: the rule selected is the
    first one whose boolean semantics holds of the prepared metadata. *)
Theorem matchRule_first_match rules s s0 :
  prepareMatchMetadata s = (s0, None) → m_IgnoreDestinationIPCIDRMatch (st_ctx s0) = false →
  Forall (λ r, selects (action_of r) = true) rules →
  mr_selected (matchRule rules s) = list_find (λ r, rule_sees s0 r = true) rules.
Proof.
  intros Hp Hi Hf. unfold matchRule. rewrite Hp, match_loop_final; [|clear -Hf|done].
  - destruct (list_find _ rules) as [[i r]|]; done.
  - eapply Forall_impl; [|exact Hf]. intros r Hr. split; [done|]. revert Hr. cbv beta. by destruct (action_of r).
Qed.

End Router.

(** ** Destination-only rules *)

(** Two connections to the same destination address: sources, ports, domain,
    network and the other attributes may differ. *)
Definition same_destination (v w : View) : Prop :=
  v_DestAddr v = v_DestAddr w ∧ v_DestIsIP v = v_DestIsIP w ∧ v_DestIsIPv6 v = v_DestIsIPv6 w ∧
  v_DestinationAddresses v = v_DestinationAddresses w ∧ v_IPVersion v = v_IPVersion w ∧
  v_DNSResponse v = v_DNSResponse w ∧
  v_DestinationAddressMatchFromResponse v = v_DestinationAddressMatchFromResponse w.

(** An item that, matching destinations, reads the destination address only. *)
Definition destination_only (i : RuleItem) : Prop :=
  ∀ v w, same_destination v w → ri_match i (child_view v) = ri_match i (child_view w).

Lemma IPCIDRItem_destination_only contains prefixes : destination_only (IPCIDRItem contains prefixes false).
Proof.
  intros v w (H1 & H2 & H3 & H4 & H5 & H6 & H7). unfold IPCIDRItem, response_addresses. simpl.
  by rewrite H1, H2, H4, H6, H7.
Qed.
Lemma IPIsPrivateItem_destination_only isPublic : destination_only (IPIsPrivateItem isPublic false).
Proof.
  intros v w (H1 & H2 & H3 & H4 & H5 & H6 & H7). unfold IPIsPrivateItem, response_addresses. simpl.
  by rewrite H1, H4, H6, H7.
Qed.
Lemma IPVersionItem_destination_only isIPv6 : destination_only (IPVersionItem isIPv6).
Proof. intros v w (H1 & H2 & H3 & H4 & H5 & H6 & H7). unfold IPVersionItem. simpl. by rewrite H2, H3, H5. Qed.

(** Items of the class IP, where they are not source items, read the destination only. *)
Definition ip_items_destination_only (d : DefaultItems) : Prop :=
  Forall (λ i, ri_class i = RouteMatchIP → destination_only i)
    (items d ++ destinationAddressItems d ++ destinationIPCIDRItems d).

(** Every class an item can have is a non-empty bit set. *)
Definition classes_nonzero (d : DefaultItems) : Prop := Forall (λ i, 0 < ri_class i) (allItems d).

Lemma classes_zero_or_ip l c :
  Forall (λ i, 0 < ri_class i) l → 0 ≤ c →
  foldl (λ c i, c .| ri_class i) c l = 0 ∨ foldl (λ c i, c .| ri_class i) c l = RouteMatchIP →
  (c = 0 ∨ c = 1) ∧ Forall (λ i, ri_class i = RouteMatchIP) l.
Proof.
  revert c. induction l as [|i l IH]; intros c Hpos Hc; simpl.
  - intros [->| ->]; split; auto.
  - apply Forall_cons_1 in Hpos as [Hi Hl]. intros H.
    destruct (IH (c .| ri_class i) Hl) as [Hci Hall]; [by apply Z.lor_nonneg; lia | done |].
    assert (c .| ri_class i ≠ 0) as Hne by (intros [_ ?]%Z.lor_eq_0_iff; lia).
    destruct Hci as [?|Hone]; [done|].
    assert (∀ x, 0 ≤ x → (∀ j, 0 ≤ j → Z.testbit x j = true → j = 0) → x = 0 ∨ x = 1) as Hsmall.
    { intros x Hx Hbits. assert (x < 2); [|lia]. destruct (Z.lt_ge_cases x 2) as [|Hge]; [done|exfalso].
      assert (0 < Z.log2 x) by (apply Z.log2_pos; lia).
      pose proof (Hbits (Z.log2 x) ltac:(lia) (Z.bit_log2 x ltac:(lia))). lia. }
    assert (∀ j, 0 ≤ j → Z.testbit (c .| ri_class i) j = true → j = 0) as Hb.
    { intros j Hj. rewrite Hone. destruct (decide (j = 0)) as [->|]; [done|]. by rewrite (Z.bits_above_log2 1 j) by (simpl; lia). }
    split; [|constructor; [|done]].
    + apply Hsmall; [done|]. intros j Hj Ht. apply Hb; [done|]. by rewrite Z.lor_spec, Ht.
    + destruct (Hsmall (ri_class i)) as [?|?]; [lia| |lia|done].
      intros j Hj Ht. apply Hb; [done|]. by rewrite Z.lor_spec, Ht, orb_true_r.
Qed.

(** A rule of destination-IP scope without a rule-set reads nothing else. *)
Lemma scoped_rule_destination_only d invert a named v w :
  VerdictScope (DefaultRule d None invert a) = RouteVerdictScopeDestinationIP →
  classes_nonzero d → ip_items_destination_only d → same_destination v w →
  holds (RuleDefault d None invert) named (child_view v) = holds (RuleDefault d None invert) named (child_view w).
Proof.
  intros Hscope Hnz Honly Hvw. unfold VerdictScope in Hscope.
  destruct invert; [done|]. cbn [orb] in Hscope.
  destruct (sourceAddressItems d) eqn:Esa; [|done]. destruct (sourcePortItems d) eqn:Esp; [|done].
  destruct (destinationPortItems d) eqn:Edp; [|done]. cbn [nonempty orb] in Hscope.
  destruct ((_ =? 0) || _) eqn:Ec; [|done].
  assert (Forall (λ i, ri_class i = RouteMatchIP) (allItems d)) as Hall.
  { eapply (classes_zero_or_ip (allItems d) 0 Hnz); [lia|].
    apply orb_true_iff in Ec as [E%Z.eqb_eq|E%Z.eqb_eq]; unfold rule_classes in E; rewrite Z.lor_0_r in E; auto. }
  unfold allItems in Hall. rewrite Esa, Esp, Edp, app_nil_r in Hall. cbn [app] in Hall.
  assert (∀ l, l ⊆ items d ++ destinationAddressItems d ++ destinationIPCIDRItems d →
    ∀ i, i ∈ l → ri_match i (child_view v) = ri_match i (child_view w)) as Heq.
  { intros l Hl i Hi%Hl. apply list_elem_of_lookup in Hi as [k Hk].
    exact (Forall_lookup_1 _ _ _ _ Honly Hk (Forall_lookup_1 _ _ _ _ Hall Hk) v w Hvw). }
  assert (∀ l, l ⊆ items d ++ destinationAddressItems d ++ destinationIPCIDRItems d →
    matchAnyItem l (child_view v) = matchAnyItem l (child_view w)) as Hany.
  { intros l Hl. specialize (Heq l Hl). clear -Heq. induction l as [|i l IH]; [done|]. unfold matchAnyItem in *. simpl.
    rewrite (Heq i) by set_solver. rewrite IH; [done|]. intros j Hj. apply Heq. set_solver. }
  assert (items_hold d (child_view v) = items_hold d (child_view w)) as Hitems.
  { unfold items_hold. assert (items d ⊆ items d ++ destinationAddressItems d ++ destinationIPCIDRItems d) as Hl by set_solver.
    specialize (Heq _ Hl). clear -Heq. induction (items d) as [|i l IH]; [done|]. simpl.
    rewrite (Heq i) by set_solver. rewrite IH; [done|]. intros j Hj. apply Heq. set_solver. }
  cbn [holds]. rewrite Hitems. unfold required, satisfied. rewrite Esa, Esp, Edp.
  rewrite (Hany (destinationAddressItems d)) by set_solver. rewrite (Hany (destinationIPCIDRItems d)) by set_solver. done.
Qed.

(** *** Rules as [NewDefaultRule] builds them *)

Lemma other_class o : 0 < ri_class (other_item o) ∧ ri_class (other_item o) ≠ RouteMatchIP.
Proof. destruct o as [k [] f]; cbn; by split. Qed.

Lemma built_items isPublic o d :
  NewDefaultRule isPublic o = Ok d → classes_nonzero d ∧ ip_items_destination_only d.
Proof.
  unfold NewDefaultRule. destruct (_ && _); [done|]. intros [= <-].
  assert (∀ l, Forall (λ i, 0 < ri_class i) (map other_item l)) as Hpos by (intros l; apply list.Forall_fmap, list.Forall_true; intros x; apply other_class).
  assert (∀ l, Forall (λ i, ri_class i = RouteMatchIP → destination_only i) (map other_item l)) as Honly
    by (intros l; apply list.Forall_fmap, list.Forall_true; intros x H; by destruct (proj2 (other_class x) H)).
  split.
  - unfold classes_nonzero, allItems, cidr_items, private_items, port_items. cbn [items sourceAddressItems sourcePortItems destinationAddressItems destinationIPCIDRItems destinationPortItems].
    rewrite !Forall_app. split_and!; try apply Hpos; repeat case_match; repeat constructor.
  - unfold ip_items_destination_only, cidr_items, private_items. cbn [items destinationAddressItems destinationIPCIDRItems].
    rewrite !Forall_app. split_and!; try apply Honly; repeat case_match; repeat constructor; intros _;
      first [apply IPVersionItem_destination_only | apply IPCIDRItem_destination_only | apply IPIsPrivateItem_destination_only].
Qed.

(** A default rule the constructor built, without a rule-set. *)
Definition built_rule (isPublic : Addr → bool) (r : RouterRule) : Prop :=
  ∃ o d invert a, NewDefaultRule isPublic o = Ok d ∧ r = DefaultRule d None invert a.

(** A final one of destination-IP scope. *)
Definition destination_rule (isPublic : Addr → bool) (r : RouterRule) : Prop :=
  built_rule isPublic r ∧ VerdictScope r = RouteVerdictScopeDestinationIP ∧ selects (action_of r) = true.

(** Two walks over connections to the same destination. *)
Definition same_flight (s1 s2 : RouteState) : Prop :=
  same_destination (m_view (st_ctx s1)) (m_view (st_ctx s2)) ∧
  m_NamedDNSResponses (st_ctx s1) = m_NamedDNSResponses (st_ctx s2) ∧
  m_IgnoreDestinationIPCIDRMatch (st_ctx s1) = false ∧ m_IgnoreDestinationIPCIDRMatch (st_ctx s2) = false.

Lemma destination_rule_sees isPublic r s1 s2 :
  built_rule isPublic r → VerdictScope r = RouteVerdictScopeDestinationIP → same_flight s1 s2 → rule_sees s1 r = rule_sees s2 r.
Proof.
  intros (o & d & invert & a & Ho & ->) Hsc (Hd & Hn & _). unfold rule_sees. rewrite Hn.
  destruct (built_items _ _ _ Ho). by eapply scoped_rule_destination_only.
Qed.

Section Generalize.
Context (isValid isIP isIPv6 : Socksaddr → bool) {Buffer PacketBuffer : Type}.
Context (prepareMatchMetadata : RouteState → RouteState * option string).
Context (actionSniff : RouteState → list Buffer → list PacketBuffer →
           RouteState * option Buffer * list PacketBuffer * option string).
Context (actionResolve : RouteState → RouteState * option string).

#[local] Abbreviation loop := (match_loop isValid isIP isIPv6 actionSniff actionResolve).

Lemma final_action_selects x rules k s t bs ps :
  selects (action_of x) = true → rule_sees s x = true → m_IgnoreDestinationIPCIDRMatch (st_ctx s) = false →
  mr_selected (loop (x :: rules) k s t bs ps) = Some (k, x).
Proof.
  intros Hsel Hsee Hi. simpl. destruct (Match_walk x s Hi) as [i ->]. rewrite Hsee. cbn [negb].
  rewrite Hsel. by destruct (action_of x).
Qed.

Lemma failed_rule_skipped x rules k s t bs ps :
  rule_sees s x = false → m_IgnoreDestinationIPCIDRMatch (st_ctx s) = false →
  loop (x :: rules) k s t bs ps = loop rules (S k) (with_ctx s (ResetRuleCache (st_ctx s))) t bs ps.
Proof. intros Hsee Hi. simpl. destruct (Match_walk x s Hi) as [i ->]. by rewrite Hsee. Qed.

Lemma loop_generalizes isPublic rules : ∀ k i s1 s2 t bs ps r,
  same_flight s1 s2 → Forall (destination_rule isPublic) (take (S i) rules) →
  mr_selected (loop rules k s1 t bs ps) = Some ((k + i)%nat, r) →
  mr_selected (loop rules k s2 t bs ps) = Some ((k + i)%nat, r).
Proof.
  induction rules as [|x rules IH]; intros k i s1 s2 t bs ps r Hs Hall; [done|].
  rewrite firstn_cons in Hall. apply Forall_cons_1 in Hall as [Hx Hall].
  destruct Hx as (Hb & Hsc & Hfin).
  pose proof (destination_rule_sees _ x _ _ Hb Hsc Hs) as Hsee. pose proof Hs as (Hd & Hn & Hi1 & Hi2). destruct (rule_sees s1 x) eqn:E1.
  - rewrite !final_action_selects by done. done.
  - rewrite !failed_rule_skipped by done. intros Hsel.
    destruct (match_loop_selected _ _ _ _ _ rules _ _ _ _ _ _ _ Hsel) as (pre & post & s' & t' & m & _ & Hlen & _).
    destruct i as [|i]; [lia|]. rewrite <- Nat.add_succ_comm in Hsel |- *.
    refine (IH (S k) i _ _ t bs ps r _ Hall Hsel). exact Hs.
Qed.

(** C5. A verdict published with destination-IP scope, for a connection whose metadata could be
    prepared, that is not in a DNS pre-match and none of whose actions failed, is the one of the first final rule that holds of the metadata as prepared
    (or of no rule); no rule that held before it ran a sniff, resolve or route-options
    action; and that rule has destination-IP scope itself: if it is a default rule as
    NewDefaultRule builds it, without a rule-set, then it holds of every connection to the
    same destination, whatever its source, ports, domain and network.  (With a rule-set
    that is matched against the source this last part fails, see the findings.) *)
Theorem matchRule_destination_scope rules s s0 :
  prepareMatchMetadata s = (s0, None) → m_IgnoreDestinationIPCIDRMatch (st_ctx s0) = false →
  let result := matchRule isValid isIP isIPv6 prepareMatchMetadata actionSniff actionResolve rules s in
  mr_fatalErr result = None → m_VerdictScope (st_ctx (mr_state result)) = RouteVerdictScopeDestinationIP →
  mr_selected result = first_final rules s0 ∧
  Forall (quiet_rule s0) (take (walked rules (first_final rules s0)) rules) ∧
  (∀ i r, first_final rules s0 = Some (i, r) →
     VerdictScope r = RouteVerdictScopeDestinationIP ∧
     ∀ isPublic s2, built_rule isPublic r → same_flight s0 s2 → rule_sees s2 r = true).
Proof.
  intros Hp Hi. unfold matchRule. rewrite Hp. cbv zeta. intros Herr Hsc. destruct (match_loop_scope _ _ _ _ _ rules s0 [] [] Hi Herr Hsc) as (H1 & H2 & H3).
  split_and!; [done | done|]. intros i r Hr. pose proof (H3 i r Hr) as Hr3. split; [done|]. intros isPublic s2 Hb Hs.
  rewrite <- (destination_rule_sees isPublic r s0 s2 Hb Hr3 Hs). apply list_find_Some in Hr as (_ & [Hsee _] & _). done.
Qed.

(** C6. When every rule up to the selected one is a final default rule of destination-IP scope,
    as NewDefaultRule builds it and without a rule-set, the verdict holds for the
    destination as such: any other connection with the same destination address (the same
    resolved addresses, IP version and DNS response) that is routed, whatever its source, ports, domain
    or network, gets the same rule.  (Rules with rule-sets and logical rules are not
    covered; a rule-set matched against the source breaks it, see the findings.) *)
Theorem destination_scope_generalizes isPublic rules s1 s2 s1' s2' i r :
  prepareMatchMetadata s1 = (s1', None) → prepareMatchMetadata s2 = (s2', None) → same_flight s1' s2' →
  mr_selected (matchRule isValid isIP isIPv6 prepareMatchMetadata actionSniff actionResolve rules s1) = Some (i, r) →
  Forall (destination_rule isPublic) (take (S i) rules) →
  mr_selected (matchRule isValid isIP isIPv6 prepareMatchMetadata actionSniff actionResolve rules s2) = Some (i, r).
Proof.
  unfold matchRule. intros -> -> Hs Hsel Hall. exact (loop_generalizes isPublic rules 0 i s1' s2' false [] [] r Hs Hall Hsel).
Qed.

End Generalize.

(** ** Concrete walks *)

(** No sniffing or resolving; the metadata is ready. *)
Definition quiet_isIP (a : Socksaddr) : bool := addr_is_valid (sa_Addr a).
Definition quiet_prepare (s : RouteState) : RouteState * option string := (s, None).
Definition quiet_sniff (s : RouteState) (_ _ : list unit) : RouteState * option unit * list unit * option string :=
  (s, None, [], None).
Definition quiet_resolve (s : RouteState) : RouteState * option string := (s, None).
Definition quiet_match (rules : list RouterRule) (s : RouteState) : MatchResult (Buffer := unit) (PacketBuffer := unit) :=
  matchRule quiet_isIP quiet_isIP (λ _, false) quiet_prepare quiet_sniff quiet_resolve rules s.

Definition no_override : Socksaddr := mkSocksaddr AddrZero "" 0.
Definition no_options : RuleActionRouteOptions :=
  mkRouteOptions no_override 0 None [] [] 0 false false 0 false 0 false "" 0.

(** A connection to 203.0.113.7 at [port]. *)
Definition flight (port : Z) : RouteState :=
  mkRouteState
    (mkContext (mkView (AddrV4 3232235777) 40000 (AddrV4 3405803783) "" port true false [] "" "tcp" 4 ∅ None false false false)
       ∅ 0 0 false RouteVerdictScopeUnknown)
    no_override None [] [] 0 false false 0 false 0 false "" 0.

Definition cidr_direct : RouterRule :=
  DefaultRule (mkDefaultItems [] [] [] [] [IPCIDRItem (λ a, addr_is_valid a) [] false] []) None false
    (RuleActionRoute "direct" no_options).
Definition port_proxy : RouterRule :=
  DefaultRule (mkDefaultItems [] [] [] [] [] [PortItem [25] false]) None false (RuleActionRoute "proxy" no_options).

Lemma flights_same p q : same_flight (flight p) (flight q).
Proof. by repeat split. Qed.

Definition cidr_options : DefaultRuleOptions :=
  mkRuleOptions [] 0 [] [] None false (Some (λ a, addr_is_valid a, [])) false [] [] [] [] [].

Lemma cidr_direct_destination : destination_rule (λ _, true) cidr_direct.
Proof. split; [|done]. by exists cidr_options; do 3 eexists. Qed.

(** A rule-set that is matched against the source: a rule with nothing else has destination-IP
    scope, and a connection to the same address from another source does not match it. *)
Definition source_set : RuleSets :=
  mkRuleSets true false
    [([RuleDefault (mkDefaultItems [] [] [] [] [IPCIDRItem (λ a, bool_decide (a = AddrV4 3232235777)) [] false] []) None false],
      mkRuleSetMetadata false false true false false)].
Definition source_direct : RouterRule := DefaultRule (mkDefaultItems [] [] [] [] [] []) (Some source_set) false (RuleActionRoute "direct" no_options).
Definition other_source : RouteState :=
  with_ctx (flight 443)
    (mkContext (mkView (AddrV4 3232235778) 40000 (AddrV4 3405803783) "" 443 true false [] "" "tcp" 4 ∅ None false false false)
       ∅ 0 0 false RouteVerdictScopeUnknown).

Theorem source_rule_set_has_destination_scope :
  same_flight (flight 443) other_source ∧
  m_VerdictScope (st_ctx (mr_state (quiet_match [source_direct] (flight 443)))) = RouteVerdictScopeDestinationIP ∧
  mr_selected (quiet_match [source_direct] (flight 443)) = Some (0%nat, source_direct) ∧
  mr_selected (quiet_match [source_direct] other_source) = None.
Proof. split; [by repeat split|]. split_and!; vm_compute; reflexivity. Qed.

(** The scope of a verdict says nothing about the rules before the selected one: with a port
    rule in front, a connection to port 443 is routed direct with destination-IP
    scope, while a connection to the same address at port 25 goes to the proxy. *)
Theorem matchRule_scope_ignores_earlier_rules :
  let rules := [port_proxy; cidr_direct] in
  same_flight (flight 443) (flight 25) ∧
  m_VerdictScope (st_ctx (mr_state (quiet_match rules (flight 443)))) = RouteVerdictScopeDestinationIP ∧
  mr_selected (quiet_match rules (flight 443)) = Some (1%nat, cidr_direct) ∧
  mr_selected (quiet_match rules (flight 25)) = Some (0%nat, port_proxy).
Proof. split; [apply flights_same|]. repeat split; reflexivity. Qed.

(** ** Witnesses *)

Lemma matchRule_destination_scope_witness :
  mr_selected (quiet_match [port_proxy; cidr_direct] (flight 443)) = first_final [port_proxy; cidr_direct] (flight 443) ∧
  rule_sees (flight 25) cidr_direct = true.
Proof.
  destruct (matchRule_destination_scope quiet_isIP quiet_isIP (λ _, false) quiet_prepare quiet_sniff quiet_resolve
    [port_proxy; cidr_direct] (flight 443) (flight 443) eq_refl eq_refl eq_refl eq_refl) as (H1 & _ & H3).
  split; [exact H1|].
  exact (proj2 (H3 1%nat cidr_direct eq_refl) (λ _, true) (flight 25) (proj1 cidr_direct_destination) (flights_same 443 25)).
Defined.

Lemma matchRule_first_match_witness :
  mr_selected (quiet_match [port_proxy; cidr_direct] (flight 25)) =
    list_find (λ r, rule_sees (flight 25) r = true) [port_proxy; cidr_direct].
Proof.
  apply (matchRule_first_match quiet_isIP quiet_isIP (λ _, false) quiet_prepare quiet_sniff quiet_resolve
    [port_proxy; cidr_direct] (flight 25) (flight 25)); [reflexivity | reflexivity | repeat constructor].
Defined.

Lemma destination_scope_generalizes_witness :
  mr_selected (quiet_match [cidr_direct; port_proxy] (flight 25)) = Some (0%nat, cidr_direct).
Proof.
  apply (destination_scope_generalizes quiet_isIP quiet_isIP (λ _, false) quiet_prepare quiet_sniff quiet_resolve (λ _, true)
    [cidr_direct; port_proxy] (flight 443) (flight 25) (flight 443) (flight 25)); try reflexivity.
  - apply flights_same.
  - constructor; [apply cidr_direct_destination | constructor].
Defined.
