(* ===== verification/KernelSink.v ===== *)
(** * Verdicts published to the kernel

    [route/rule/static_direct_sink.go]: the prefixes and source MAC addresses a
    rule list contributes to the static kernel policy, with the rule-set
    helpers of [route/rule/rule_set.go]; [protocol/ebpf/verdict_learn.go]: the
    gates and the key of a learned DIRECT verdict; [protocol/ebpf/dns_prefill.go]:
    [filterPrefillAddresses] and [dnsPrefillIsStableDirect]. *)

From Stdlib Require Import ZArith Lia.
From S2P Require Import Prelude NetIP RouteRule RouteVerdict.
From stdpp Require Import base gmap list strings numbers.

#[local] Set Warnings "-clear-no-such-hyp".

Local Open Scope Z_scope.

(** ** Static DIRECT prefixes *)

(** The prefixes of an item that is an [IPCIDRItem]. *)
Definition cidr_prefixes (i : RuleItem) : list Prefix :=
  match ri_kind i with KindIPCIDR _ prefixes => prefixes | _ => [] end.

(** [extractIPSetFromRule]; [None] is the panic on a rule that is not headless. *)
Fixpoint extractIPSetFromRule (r : Rule) : option (list Prefix) :=
  match r with
  | RuleDefault d _ _ => Some (concat (List.map cidr_prefixes (destinationIPCIDRItems d)))
  | RuleLogical _ rules _ =>
      foldr (λ c acc, match extractIPSetFromRule c, acc with Some a, Some b => Some (a ++ b) | _, _ => None end)
        (Some []) rules
  | _ => None
  end.

(** [rs.ExtractIPSet()] of a rule-set. *)
Definition ExtractIPSet (rules : list Rule) : option (list Prefix) :=
  foldr (λ c acc, match extractIPSetFromRule c, acc with Some a, Some b => Some (a ++ b) | _, _ => None end)
    (Some []) rules.

Definition pure_ip (meta : RuleSetMetadata) : bool :=
  sm_ContainsIPCIDRRule meta && negb (sm_ContainsNonIPCIDRRule meta).

Definition actionIsStaticDirect (a : RuleAction) (bareDirect : string → bool) : bool :=
  match a with
  | RuleActionDirect => true
  | RuleActionBypass outbound _ => if String.eqb outbound "" then true else bareDirect outbound
  | RuleActionRoute outbound _ => bareDirect outbound
  | _ => false
  end.

Definition sets_pure_destination (sets : option RuleSets) : list (list Rule) :=
  match sets with
  | Some (mkRuleSets false _ l) => List.map fst (List.filter (λ set, pure_ip set.2) l)
  | _ => []
  end.

Definition matchItemsSinkable (d : DefaultItems) (sets : option RuleSets) : bool :=
  if nonempty (sourceAddressItems d) || nonempty (sourcePortItems d) || nonempty (destinationPortItems d) then false
  else if negb (nonempty (destinationIPCIDRItems d) || nonempty (sets_pure_destination sets)) then false
  else
    let classes := rule_classes d sets in
    negb ((classes =? 0) || negb (classes &^ RouteMatchIP =? 0)).

Definition staticDirectPrefixes (bareDirect : string → bool) (r : RouterRule) : option (list Prefix) :=
  match r with
  | DefaultRule d sets invert a =>
      if invert || negb (actionIsStaticDirect a bareDirect) || negb (matchItemsSinkable d sets) then Some []
      else
        match foldr (λ rules acc, match ExtractIPSet rules, acc with Some a, Some b => Some (a ++ b) | _, _ => None end)
                (Some []) (sets_pure_destination sets) with
        | Some fromSets => Some (concat (List.map cidr_prefixes (destinationIPCIDRItems d)) ++ fromSets)
        | None => None
        end
  | LogicalRule _ _ _ _ => Some []
  end.

(** The closure [add]: masked, valid, first occurrence only. *)
Fixpoint add_prefixes (prefixes : list Prefix) (seen : gset Prefix) : list Prefix * gset Prefix :=
  match prefixes with
  | [] => ([], seen)
  | p :: prefixes =>
      let p := masked p in
      if negb (prefix_is_valid p) || bool_decide (p ∈ seen) then add_prefixes prefixes seen
      else let '(out, seen) := add_prefixes prefixes ({[p]} ∪ seen) in (p :: out, seen)
  end.

Fixpoint collect_prefixes (bareDirect : string → bool) (rules : list RouterRule) (seen : gset Prefix) : option (list Prefix) :=
  match rules with
  | [] => Some []
  | r :: rules =>
      match staticDirectPrefixes bareDirect r with
      | None => None
      | Some prefixes =>
          let '(out, seen) := add_prefixes prefixes seen in
          match collect_prefixes bareDirect rules seen with Some rest => Some (out ++ rest) | None => None end
      end
  end.

Definition CollectStaticDirectPrefixes (rules : list RouterRule) (bareDirect : option (string → bool)) : option (list Prefix) :=
  collect_prefixes (default (λ _, false) bareDirect) rules ∅.

(** ** Rule-set metadata (rule_set.go) *)

(** [option.DefaultHeadlessRule]: the fields the metadata tests read;
    [ho_others] tells that one of the remaining fields is set. *)
Record DefaultHeadlessOptions : Type := mkHeadlessOptions {
  ho_IPCIDR : list string;
  ho_hasIPSet : bool;
  ho_Invert : bool;
  ho_ProcessName : list string;
  ho_ProcessPath : list string;
  ho_ProcessPathRegex : list string;
  ho_PackageName : list string;
  ho_PackageNameRegex : list string;
  ho_WIFISSID : list string;
  ho_WIFIBSSID : list string;
  ho_QueryType : list Z;
  ho_others : bool }.

Unset Elimination Schemes.
Inductive HeadlessOptions : Type :=
| HeadlessDefault (o : DefaultHeadlessOptions)
| HeadlessLogical (isAnd : bool) (rules : list HeadlessOptions) (invert : bool).
Set Elimination Schemes.

Fixpoint HasHeadlessRule_one (cond : DefaultHeadlessOptions → bool) (r : HeadlessOptions) : bool :=
  match r with
  | HeadlessDefault o => cond o
  | HeadlessLogical _ rules _ => existsb (HasHeadlessRule_one cond) rules
  end.
Definition HasHeadlessRule (rules : list HeadlessOptions) (cond : DefaultHeadlessOptions → bool) : bool :=
  existsb (HasHeadlessRule_one cond) rules.

Definition isProcessHeadlessRule (o : DefaultHeadlessOptions) : bool :=
  nonempty (ho_ProcessName o) || nonempty (ho_ProcessPath o) || nonempty (ho_ProcessPathRegex o)
  || nonempty (ho_PackageName o) || nonempty (ho_PackageNameRegex o).
Definition isWIFIHeadlessRule (o : DefaultHeadlessOptions) : bool := nonempty (ho_WIFISSID o) || nonempty (ho_WIFIBSSID o).
Definition isIPCIDRHeadlessRule (o : DefaultHeadlessOptions) : bool := nonempty (ho_IPCIDR o) || ho_hasIPSet o.
Definition isDNSQueryTypeHeadlessRule (o : DefaultHeadlessOptions) : bool := nonempty (ho_QueryType o).
(** [DeepEqual] with a copy of [ip_cidr], the IP set and [invert] alone. *)
Definition isNonIPCIDRHeadlessRule (o : DefaultHeadlessOptions) : bool :=
  isProcessHeadlessRule o || isWIFIHeadlessRule o || isDNSQueryTypeHeadlessRule o || ho_others o.

Definition buildRuleSetMetadata (rules : list HeadlessOptions) : RuleSetMetadata :=
  mkRuleSetMetadata (HasHeadlessRule rules isProcessHeadlessRule) (HasHeadlessRule rules isWIFIHeadlessRule)
    (HasHeadlessRule rules isIPCIDRHeadlessRule) (HasHeadlessRule rules isDNSQueryTypeHeadlessRule)
    (HasHeadlessRule rules isNonIPCIDRHeadlessRule).

(** ** Source MAC policies *)

Inductive SourceMACOffloadVerdict : Type := SourceMACOffloadDirect | SourceMACOffloadBlock.

#[global] Instance SourceMACOffloadVerdict_eq_dec : EqDecision SourceMACOffloadVerdict.
Proof. solve_decision. Defined.

Record SourceMACPolicy : Type := mkSourceMACPolicy { mp_MAC : list Z; mp_Verdict : SourceMACOffloadVerdict }.

Definition mac_verdict (a : RuleAction) : option SourceMACOffloadVerdict :=
  match a with
  | RuleActionDirect => Some SourceMACOffloadDirect
  | RuleActionBypass outbound _ => if String.eqb outbound "" then Some SourceMACOffloadDirect else None
  | RuleActionReject method => if String.eqb method "drop" then Some SourceMACOffloadBlock else None
  | _ => None
  end.

(** The MAC loop: addresses of six bytes not seen before. *)
Fixpoint mac_policies (verdict : SourceMACOffloadVerdict) (macs : list (list Z)) (seen : gset (list Z)) :
    list SourceMACPolicy * gset (list Z) :=
  match macs with
  | [] => ([], seen)
  | mac :: macs =>
      if negb (Z.of_nat (length mac) =? 6) || bool_decide (mac ∈ seen) then mac_policies verdict macs seen
      else let '(out, seen) := mac_policies verdict macs ({[mac]} ∪ seen) in (mkSourceMACPolicy mac verdict :: out, seen)
  end.

(** The item loop: [None] when an item is not a MAC item; the addresses seen
    before it stay recorded in [seen]. *)
Fixpoint item_policies (verdict : SourceMACOffloadVerdict) (l : list RuleItem) (seen : gset (list Z)) :
    option (list SourceMACPolicy) * gset (list Z) :=
  match l with
  | [] => (Some [], seen)
  | i :: l =>
      match ri_kind i with
      | KindSourceMAC macs =>
          let '(out, seen) := mac_policies verdict macs seen in
          let '(rest, seen) := item_policies verdict l seen in
          (match rest with Some rest => Some (out ++ rest) | None => None end, seen)
      | _ => (None, seen)
      end
  end.

Definition sourceMACPolicies (r : RouterRule) (seen : gset (list Z)) : list SourceMACPolicy * gset (list Z) :=
  match r with
  | DefaultRule d sets invert a =>
      if invert then ([], seen)
      else
        match mac_verdict a with
        | None => ([], seen)
        | Some verdict =>
            if allItems_empty d sets
               || negb (bool_decide (length (items d) = length (allItems d)) && negb (bool_decide (is_Some sets)))
            then ([], seen)
            else let '(out, seen) := item_policies verdict (allItems d) seen in (default [] out, seen)
        end
  | LogicalRule _ _ _ _ => ([], seen)
  end.

Fixpoint collect_macs (rules : list RouterRule) (seen : gset (list Z)) : list SourceMACPolicy :=
  match rules with
  | [] => []
  | r :: rules => let '(out, seen) := sourceMACPolicies r seen in out ++ collect_macs rules seen
  end.

Definition CollectSourceMACPolicies (rules : list RouterRule) : list SourceMACPolicy := collect_macs rules ∅.

(** ** Learned verdicts (verdict_learn.go) *)

Definition verdictSkipNone : Z := 0.
Definition verdictSkipPort53 : Z := 1.
Definition verdictSkipSniff : Z := 2.
Definition verdictSkipNonDirect : Z := 3.
Definition verdictSkipProcessUser : Z := 4.
Definition verdictSkipNoDest : Z := 5.
Definition verdictSkipDisabled : Z := 6.
Definition verdictSkipAddrMismatch : Z := 7.

Record EBPFVerdictOptions : Type := mkVerdictOptions {
  vo_Mode : string;
  vo_TTL : Z;
  vo_AllowWithSniff : bool;
  vo_PromoteBypass : option bool }.

Record verdictLearnOptions : Type := mkLearnOptions {
  lo_mode : string;
  lo_ttl : Z;
  lo_allowWithSniff : bool;
  lo_promoteBypass : bool }.

(** Nanoseconds, as [time.Duration]. *)
Definition Minute : Z := 60 * 10 ^ 9.

Definition verdictLearnOptionsFrom (opts : EBPFVerdictOptions) : verdictLearnOptions :=
  let ttl := if vo_TTL opts <=? 0 then 5 * Minute else vo_TTL opts in
  let mode := if String.eqb (vo_Mode opts) "" then "off"%string else vo_Mode opts in
  let promote := default true (vo_PromoteBypass opts) in
  let promote := if negb (String.eqb mode "learn") then false else promote in
  mkLearnOptions mode ttl (vo_AllowWithSniff opts) promote.

Record AddrPort : Type := mkAddrPort { ap_Addr : Addr; ap_Port : Z }.
Definition addrport_is_valid (a : AddrPort) : bool := addr_is_valid (ap_Addr a).

(** The fields of the metadata the learner reads. *)
Record LearnMetadata : Type := mkLearnMetadata {
  lm_InboundType : string;
  lm_VerdictScope : RouteVerdictScope;
  lm_User : string;
  lm_hasProcessInfo : bool;
  lm_Destination : Socksaddr;
  lm_DestinationAddresses : list Addr }.

(** What the learner can tell of an outbound dialer: the type when it is an
    [adapter.Outbound], and [IsEmpty] when it is a [dialer.DirectDialer]. *)
Record OutboundDialer : Type := mkDialer { dl_outboundType : option string; dl_direct : option bool }.

Definition verdictRouteInputsOK (m : LearnMetadata) : bool :=
  bool_decide (lm_VerdictScope m = RouteVerdictScopeDestinationIP).
Definition verdictUsedProcessOrUser (m : LearnMetadata) : bool :=
  negb (String.eqb (lm_User m) "") || lm_hasProcessInfo m.

Definition verdictIsEmptyDirect (dialer : option OutboundDialer) : bool :=
  match dialer with
  | None => false
  | Some d =>
      let direct := bool_decide (is_Some (dl_direct d)) in
      match dl_outboundType d with
      | Some t => if String.eqb t "direct" || String.eqb t "ebpf" then direct else default false (dl_direct d)
      | None => default false (dl_direct d)
      end
  end.

Definition evaluateVerdictLearn (opts : verdictLearnOptions) (dialer : option OutboundDialer) (m : LearnMetadata)
    (dest : AddrPort) : bool * Z :=
  if String.eqb (lo_mode opts) "" || String.eqb (lo_mode opts) "off" then (false, verdictSkipDisabled)
  else if negb (addrport_is_valid dest) then (false, verdictSkipNoDest)
  else if ap_Port dest =? 53 then (false, verdictSkipPort53)
  else if negb (verdictRouteInputsOK m) then (false, verdictSkipSniff)
  else if verdictUsedProcessOrUser m then (false, verdictSkipProcessUser)
  else if negb (verdictIsEmptyDirect dialer) then (false, verdictSkipNonDirect)
  else (true, verdictSkipNone).

Definition is_unspecified (a : Addr) : bool :=
  match a with AddrZero => false | AddrV4 v => v =? 0 | AddrV6 v z => (v =? 0) && String.eqb z "" end.

Section Learn.
(** [Socksaddr.IsValid] and [Socksaddr.IsIP]. *)
Context (isValid isIP : Socksaddr → bool).

Definition zero_addrport : AddrPort := mkAddrPort AddrZero 0.

(** The address the client sees: the destination, or its first resolved address. *)
Definition preferred_destination (m : LearnMetadata) (remote : AddrPort) : AddrPort :=
  if isValid (lm_Destination m) && isIP (lm_Destination m)
  then mkAddrPort (sa_Addr (lm_Destination m)) (sa_Port (lm_Destination m))
  else
    match lm_DestinationAddresses m with
    | [] => zero_addrport
    | addr :: _ =>
        let port := sa_Port (lm_Destination m) in
        let port := if (port =? 0) && addrport_is_valid remote then ap_Port remote else port in
        if addr_is_valid addr && negb (port =? 0) then mkAddrPort addr port else zero_addrport
    end.

Definition resolveLearnDestination (m : LearnMetadata) (remote : AddrPort) : AddrPort * Z :=
  let preferred := preferred_destination m remote in
  let peerOK := addrport_is_valid remote && negb (is_unspecified (ap_Addr remote)) && negb (ap_Port remote =? 0) in
  if negb (addrport_is_valid preferred) || (ap_Port preferred =? 0) then (zero_addrport, verdictSkipNoDest)
  else if negb peerOK then (preferred, verdictSkipNone)
  else
    let pa := unmap (ap_Addr preferred) in
    let ra := unmap (ap_Addr remote) in
    if bool_decide (pa = ra) then (mkAddrPort pa (ap_Port preferred), verdictSkipNone)
    else if existsb (λ a, addr_is_valid a && bool_decide (unmap a = ra)) (lm_DestinationAddresses m)
    then (preferred, verdictSkipNone)
    else (zero_addrport, verdictSkipAddrMismatch).

Definition verdictInboundEligible (inboundType : string) : bool :=
  String.eqb inboundType "ebpf" || String.eqb inboundType "mixed".

(** The coordinator: its backend and promotion hook (absent or present), options
    and counters, and what was handed to the backend and to the hook. *)
Record coordinator : Type := mkCoordinator {
  co_hasBackend : bool;
  co_hasPromote : bool;
  co_learn : verdictLearnOptions;
  co_closed : bool;
  co_learnInvoked : Z;
  co_skipReason : gmap Z Z;
  co_skipped : Z;
  co_written : list (Z * AddrPort * Z);
  co_promoted : list (Addr * Z) }.

Definition ECommon_ProtocolTCP : Z := 6.
Definition ECommon_ProtocolUDP : Z := 17.

Definition with_counters (c : coordinator) (invoked : Z) (reasons : gmap Z Z) (skipped : Z) : coordinator :=
  mkCoordinator (co_hasBackend c) (co_hasPromote c) (co_learn c) (co_closed c) invoked reasons skipped (co_written c) (co_promoted c).
Definition with_published (c : coordinator) (written : list (Z * AddrPort * Z)) (promoted : list (Addr * Z)) : coordinator :=
  mkCoordinator (co_hasBackend c) (co_hasPromote c) (co_learn c) (co_closed c) (co_learnInvoked c) (co_skipReason c)
    (co_skipped c) written promoted.

(** [noteSkipReason] counts the eight reasons. *)
Definition noteSkipReason (c : coordinator) (reason : Z) : coordinator :=
  if (reason <? 0) || (8 <=? reason) then c
  else with_counters c (co_learnInvoked c) (<[reason := default 0 (co_skipReason c !! reason) + 1]> (co_skipReason c)) (co_skipped c).
Definition count_invoked (c : coordinator) : coordinator :=
  with_counters c (co_learnInvoked c + 1) (co_skipReason c) (co_skipped c).
(** [backend.Skip()] *)
Definition backend_Skip (c : coordinator) : coordinator :=
  with_counters c (co_learnInvoked c) (co_skipReason c) (co_skipped c + 1).
Definition promoteLearnedBypass (c : coordinator) (addr : Addr) (ttl : Z) : coordinator :=
  if negb (addr_is_valid addr) || negb (co_hasPromote c) then c
  else with_published c (co_written c) (co_promoted c ++ [(unmap addr, ttl)]).
(** A successful [PutDIRECT], then [promoteLearnedBypass]. *)
Definition write_direct (c : coordinator) (protocol : Z) (dest : AddrPort) : coordinator :=
  promoteLearnedBypass
    (with_published c (co_written c ++ [(protocol, dest, lo_ttl (co_learn c))]) (co_promoted c))
    (ap_Addr dest) (lo_ttl (co_learn c)).

(** [putFails] tells whether the map write returns an error. *)
Definition MaybeLearnTCP (putFails : bool) (dialer : option OutboundDialer) (m : LearnMetadata) (remote : AddrPort)
    (c : coordinator) : coordinator :=
  if negb (verdictInboundEligible (lm_InboundType m)) then c
  else
    let c := count_invoked c in
    if negb (verdictIsEmptyDirect dialer) then noteSkipReason c verdictSkipNonDirect
    else if negb (co_hasBackend c) || co_closed c then c
    else if negb (String.eqb (lo_mode (co_learn c)) "learn") then c
    else
      let '(dest, resolveReason) := resolveLearnDestination m remote in
      if negb (resolveReason =? verdictSkipNone) || negb (addrport_is_valid dest)
      then noteSkipReason (backend_Skip c) resolveReason
      else
        let '(ok, reason) := evaluateVerdictLearn (co_learn c) dialer m dest in
        if negb ok then noteSkipReason (backend_Skip c) reason
        else if putFails then c else write_direct c ECommon_ProtocolTCP dest.

Definition MaybeLearnUDP (putFails : bool) (dialer : option OutboundDialer) (m : LearnMetadata) (remote : AddrPort)
    (c : coordinator) : coordinator :=
  if negb (verdictInboundEligible (lm_InboundType m)) then c
  else
    let c := count_invoked c in
    if negb (verdictIsEmptyDirect dialer) then noteSkipReason c verdictSkipNonDirect
    else if negb (co_hasBackend c) || negb (String.eqb (lo_mode (co_learn c)) "learn") || co_closed c then c
    else
      let '(dest, resolveReason) := resolveLearnDestination m remote in
      if negb (resolveReason =? verdictSkipNone) || negb (addrport_is_valid dest) || (ap_Port dest =? 53)
      then
        let c := backend_Skip c in
        if negb (resolveReason =? verdictSkipNone) then noteSkipReason c resolveReason
        else if ap_Port dest =? 53 then noteSkipReason c verdictSkipPort53 else c
      else
        let '(ok, reason) := evaluateVerdictLearn (co_learn c) dialer m dest in
        if negb ok then noteSkipReason (backend_Skip c) reason
        else if putFails then c else write_direct c ECommon_ProtocolUDP dest.

End Learn.

(** ** DNS prefill (dns_prefill.go) *)

Section Prefill.
Context (isIP isIPv6 : Socksaddr → bool).
(** Address classes of [netip.Addr]. *)
Context (isLoopback isMulticast isPrivate isLinkLocalUnicast : Addr → bool).

Fixpoint filter_prefill (addresses : list Addr) (seen : gset Addr) : list Addr :=
  match addresses with
  | [] => []
  | addr :: addresses =>
      if negb (addr_is_valid addr) then filter_prefill addresses seen
      else
        let addr := unmap addr in
        if is_unspecified addr || isLoopback addr || isMulticast addr || isPrivate addr || isLinkLocalUnicast addr
        then filter_prefill addresses seen
        else if bool_decide (addr ∈ seen) then filter_prefill addresses seen
        else addr :: filter_prefill addresses ({[addr]} ∪ seen)
  end.
Definition filterPrefillAddresses (addresses : list Addr) : list Addr := filter_prefill addresses ∅.

(** The outbound manager: the type of the default outbound and of a tag. *)
Record OutboundManager : Type := mkOutbounds { om_Default : string; om_Outbound : string → option string }.

Definition isStableDirectLeafType (t : string) : bool := String.eqb t "direct" || String.eqb t "ebpf".

(** The rule walk: [inl] is an early return, [inr] the scope and the tag after
    the loop. *)
Fixpoint prefill_loop (rules : list RouterRule) (m : InboundContext) (scope : RouteVerdictScope) (tainted : bool) :
    bool + (RouteVerdictScope * string) :=
  match rules with
  | [] => inr (scope, ""%string)
  | r :: rules =>
      let '(matched, m) := Match (rule_of r) (ResetRuleCache m) in
      if negb matched then prefill_loop rules m scope tainted
      else
        let scope := VerdictScope r in
        match action_of r with
        | RuleActionRoute outbound _ => if tainted then inl false else inr (scope, outbound)
        | RuleActionBypass outbound _ =>
            if tainted then inl false
            else if String.eqb outbound "" then inl (bool_decide (scope = RouteVerdictScopeDestinationIP))
            else inr (scope, outbound)
        | RuleActionDirect =>
            if tainted then inl false else inl (bool_decide (scope = RouteVerdictScopeDestinationIP))
        | RuleActionReject _ | RuleActionHijackDNS => inl false
        | RuleActionSniff | RuleActionOptions _ | RuleActionResolve => prefill_loop rules m scope true
        end
  end.

Definition prefill_context (attrs : gmap string string) (domain : string) (addr : Addr) : InboundContext :=
  let destination := mkSocksaddr addr "" 0 in
  mkContext
    (mkView AddrZero 0 addr "" 0 (isIP destination) (isIPv6 destination) [] domain "tcp" (if is4 addr then 4 else 6)
       attrs None false false false) ∅ 0 0 false RouteVerdictScopeUnknown.

(** [attrs] holds the inbound tag and type. *)
Definition dnsPrefillIsStableDirect (rules : list RouterRule) (outbounds : OutboundManager) (attrs : gmap string string)
    (domain : string) (addr : Addr) : bool :=
  match prefill_loop rules (prefill_context attrs domain addr) RouteVerdictScopeUnknown false with
  | inl b => b
  | inr (scope, outboundTag) =>
      if negb (bool_decide (scope = RouteVerdictScopeDestinationIP)) then false
      else if String.eqb outboundTag "" then isStableDirectLeafType (om_Default outbounds)
      else
        match om_Outbound outbounds outboundTag with
        | None => false
        | Some t => isStableDirectLeafType t
        end
  end.

End Prefill.

(** ** Static prefixes: lemmas *)

Lemma elem_of_concat {A} (x : A) (ll : list (list A)) : x ∈ concat ll ↔ ∃ l, l ∈ ll ∧ x ∈ l.
Proof.
  induction ll as [|l ll IH]; simpl; [set_solver|]. rewrite elem_of_app, IH. set_solver.
Qed.

(** An [IPCIDRItem] for destinations whose set contains its prefixes. *)
Definition cidr_law (i : RuleItem) : Prop :=
  ∀ isSource prefixes, ri_kind i = KindIPCIDR isSource prefixes →
  ∃ contains, i = IPCIDRItem contains prefixes false ∧
    ∀ p a, p ∈ prefixes → prefix_contains p a = true → contains a = true.

Lemma cidr_prefixes_match l p a v :
  Forall cidr_law l → p ∈ concat (List.map cidr_prefixes l) → prefix_contains p a = true →
  v_DestIsIP v = true → v_DestAddr v = a → v_DestinationAddressMatchFromResponse v = false →
  v_IPCIDRMatchSource v = false → matchAnyItem l v = true.
Proof.
  intros Hlaw Hp Hc Hip Ha Hr Hs. induction l as [|i l IH]; [set_solver|].
  apply Forall_cons_1 in Hlaw as [Hi Hl]. cbn [List.map concat] in Hp. apply elem_of_app in Hp as [Hp|Hp].
  - unfold cidr_prefixes in Hp. destruct (ri_kind i) as [isSource ps| |] eqn:Ek; [|set_solver..].
    destruct (Hi _ _ Ek) as (contains & -> & Hcon). unfold matchAnyItem. simpl.
    rewrite Hs, Hr, Hip, Ha, (Hcon p a) by done. done.
  - unfold matchAnyItem in *. simpl. by rewrite IH, orb_true_r.
Qed.

Lemma sinkable_shape d sets :
  matchItemsSinkable d sets = true →
  sourceAddressItems d = [] ∧ sourcePortItems d = [] ∧ destinationPortItems d = [].
Proof.
  unfold matchItemsSinkable. destruct (sourceAddressItems d), (sourcePortItems d), (destinationPortItems d); done.
Qed.

(** [add]: the new prefixes, each once. *)
Lemma add_prefixes_spec ps : ∀ seen out seen',
  add_prefixes ps seen = (out, seen') →
  seen' = list_to_set out ∪ seen ∧ NoDup out ∧
  (∀ q, q ∈ out ↔ (q ∉ seen) ∧ ∃ p, p ∈ ps ∧ q = masked p ∧ prefix_is_valid q = true).
Proof.
  induction ps as [|p ps IH]; intros seen out seen'; cbn [add_prefixes].
  - intros [= <- <-]. split_and!; [set_solver | constructor | set_solver].
  - destruct (prefix_is_valid (masked p)) eqn:Ev; cbn [negb orb].
    + case_bool_decide as Hin.
      * intros H. destruct (IH _ _ _ H) as (-> & Hnd & Hq). split_and!; [done..|].
        intros q. rewrite Hq. split; [set_solver|]. intros (Hns & p' & [->|Hp']%elem_of_cons & -> & Hv); [done|]. eauto.
      * destruct (add_prefixes ps _) as [out1 seen1] eqn:E1. intros [= <- <-].
        destruct (IH _ _ _ E1) as (-> & Hnd & Hq). split_and!; [set_solver | |].
        -- constructor; [|done]. rewrite Hq. set_solver.
        -- intros q. rewrite elem_of_cons, Hq. split.
           ++ intros [->|(Hns & p' & Hp' & -> & Hv)]; [split; [done|]; exists p; set_solver|].
              split; [set_solver|]. exists p'. set_solver.
           ++ intros (Hns & p' & Hp' & Hm & Hv). destruct (decide (q = masked p)) as [->|Hne]; [by left|].
              right. split; [set_solver|]. exists p'. split_and!; [|done|done].
              apply elem_of_cons in Hp' as [->|?]; [done|done].
    + intros H. destruct (IH _ _ _ H) as (-> & Hnd & Hq). split_and!; [done..|].
      intros q. rewrite Hq. split; [set_solver|].
      intros (Hns & p' & [->|Hp']%elem_of_cons & -> & Hv); [congruence|]. eauto.
Qed.

Lemma collect_prefixes_spec bare rules : ∀ seen out,
  collect_prefixes bare rules seen = Some out →
  NoDup out ∧ (∀ q, q ∈ out ↔ (q ∉ seen) ∧
    ∃ r ps p, r ∈ rules ∧ staticDirectPrefixes bare r = Some ps ∧ p ∈ ps ∧ q = masked p ∧ prefix_is_valid q = true).
Proof.
  induction rules as [|r rules IH]; intros seen out; cbn [collect_prefixes].
  - intros [= <-]. split; [constructor|]. set_solver.
  - destruct (staticDirectPrefixes bare r) as [ps|] eqn:Er; [|done].
    destruct (add_prefixes ps seen) as [out1 seen1] eqn:E1.
    destruct (collect_prefixes bare rules seen1) as [rest|] eqn:E2; [|done]. intros [= <-].
    destruct (add_prefixes_spec _ _ _ _ E1) as (Hs1 & Hn1 & Hq1). destruct (IH _ _ E2) as (Hn2 & Hq2). split.
    + apply list.NoDup_app. split_and!; [done| |done]. intros q Hq Hq'. apply Hq2 in Hq' as [Hns _]. rewrite Hs1 in Hns. set_solver.
    + intros q. rewrite elem_of_app, Hq1, Hq2, Hs1. split.
      * intros [(Hns & p & Hp & -> & Hv)|(Hns & r' & ps' & p & Hr' & Hps & Hp & -> & Hv)].
        -- split; [done|]. exists r, ps, p. set_solver.
        -- split; [set_solver|]. exists r', ps', p. set_solver.
      * intros (Hns & r' & ps' & p & [->|Hr']%elem_of_cons & Hps & Hp & -> & Hv).
        -- rewrite Er in Hps. injection Hps as <-. left. split; [done|]. by exists p.
        -- destruct (decide (masked p ∈ out1)) as [Hin|Hnin]; [left; by apply Hq1 in Hin|].
           right. split; [set_solver|]. by exists r', ps', p.
Qed.

(** ** Source MAC policies: lemmas *)

Lemma mac_policies_spec v macs : ∀ seen out seen',
  mac_policies v macs seen = (out, seen') →
  seen' = list_to_set (mp_MAC <$> out) ∪ seen ∧ NoDup (mp_MAC <$> out) ∧
  Forall (λ p, (mp_MAC p ∉ seen) ∧ mp_MAC p ∈ macs ∧ Z.of_nat (length (mp_MAC p)) = 6 ∧ mp_Verdict p = v) out.
Proof.
  induction macs as [|mac macs IH]; intros seen out seen'; cbn [mac_policies].
  - intros [= <- <-]. split_and!; [set_solver | constructor | constructor].
  - destruct (Z.eqb_spec (Z.of_nat (length mac)) 6) as [H6|H6]; cbn [negb orb].
    + case_bool_decide as Hin.
      * intros H. destruct (IH _ _ _ H) as (-> & Hnd & Hall). split_and!; [done..|].
        eapply Forall_impl; [|exact Hall]. intros p (? & ? & ? & ?). split_and!; [done | by apply elem_of_cons; right | done..].
      * destruct (mac_policies v macs _) as [out1 seen1] eqn:E1. intros [= <- <-].
        destruct (IH _ _ _ E1) as (-> & Hnd & Hall). split_and!; [set_solver | |].
        -- rewrite fmap_cons. constructor; [|done]. intros (p & Hp & Hin')%list_elem_of_fmap.
           apply list_elem_of_lookup in Hin' as [k Hk]. destruct (Forall_lookup_1 _ _ _ _ Hall Hk) as [Hns _].
           simpl in Hp. apply Hns. rewrite <- Hp. set_solver.
        -- constructor; [split_and!; [done | by apply elem_of_cons; left | done..]|]. eapply Forall_impl; [|exact Hall].
           intros p (Hns & ? & ? & ?). split_and!; [set_solver | by apply elem_of_cons; right | done..].
    + intros H. destruct (IH _ _ _ H) as (-> & Hnd & Hall). split_and!; [done..|].
      eapply Forall_impl; [|exact Hall]. intros p (? & ? & ? & ?). split_and!; [done | by apply elem_of_cons; right | done..].
Qed.

(** [mac] is listed by some MAC item of [l]. *)
Definition lists_mac (l : list RuleItem) (mac : list Z) : Prop :=
  ∃ i macs, i ∈ l ∧ ri_kind i = KindSourceMAC macs ∧ mac ∈ macs.

Definition mac_item (i : RuleItem) : Prop := ∃ macs, ri_kind i = KindSourceMAC macs.

(** What the policies of one rule, or of a list of rules, satisfy. *)
Definition policies_fresh (out : list SourceMACPolicy) (seen seen' : gset (list Z)) : Prop :=
  NoDup (mp_MAC <$> out) ∧ Forall (λ p, (mp_MAC p ∉ seen) ∧ mp_MAC p ∈ seen' ∧ Z.of_nat (length (mp_MAC p)) = 6) out ∧
  seen ⊆ seen'.

Lemma policies_fresh_app out1 out2 s1 s2 s3 :
  policies_fresh out1 s1 s2 → policies_fresh out2 s2 s3 → policies_fresh (out1 ++ out2) s1 s3.
Proof.
  intros (Hn1 & Hf1 & Hs1) (Hn2 & Hf2 & Hs2). unfold policies_fresh. rewrite fmap_app. split_and!; [| |set_solver].
  - apply list.NoDup_app. split_and!; [done| |done]. intros m (p & -> & Hp)%list_elem_of_fmap (q & Hq & Hin)%list_elem_of_fmap.
    apply list_elem_of_lookup in Hp as [k Hk]. apply list_elem_of_lookup in Hin as [k' Hk'].
    destruct (Forall_lookup_1 _ _ _ _ Hf1 Hk) as (_ & H1 & _). destruct (Forall_lookup_1 _ _ _ _ Hf2 Hk') as (H2 & _).
    rewrite Hq in H1. done.
  - apply Forall_app. split; (eapply Forall_impl; [|eassumption]); intros p (? & ? & ?); split_and!; set_solver.
Qed.

Lemma policies_fresh_nil s : policies_fresh [] s s.
Proof. split_and!; [constructor..|done]. Qed.

Lemma item_policies_spec v l : ∀ seen out seen',
  item_policies v l seen = (out, seen') →
  seen ⊆ seen' ∧
  (∀ ps, out = Some ps → policies_fresh ps seen seen' ∧ Forall mac_item l ∧
     Forall (λ p, lists_mac l (mp_MAC p) ∧ mp_Verdict p = v) ps).
Proof.
  induction l as [|i l IH]; intros seen out seen'; cbn [item_policies].
  - intros [= <- <-]. split; [done|]. intros ps [= <-]. split_and!; [apply policies_fresh_nil | constructor..].
  - destruct (ri_kind i) as [|macs|] eqn:Ek; [by intros [= <- <-]| |by intros [= <- <-]].
    destruct (mac_policies v macs seen) as [out1 seen1] eqn:E1.
    destruct (item_policies v l seen1) as [rest seen2] eqn:E2. intros [= <- <-].
    destruct (mac_policies_spec _ _ _ _ _ E1) as (Hs1 & Hn1 & Hall1). destruct (IH _ _ _ E2) as [Hs2 Hrest].
    split; [set_solver|]. intros ps Hps. destruct rest as [rest|]; [|done]. injection Hps as <-.
    destruct (Hrest rest eq_refl) as (Hf & Hmi & Hv). split_and!.
    + eapply policies_fresh_app; [|exact Hf]. split_and!; [done| |set_solver].
      apply Forall_lookup. intros k p Hk. destruct (Forall_lookup_1 _ _ _ _ Hall1 Hk) as (? & ? & ? & ?).
      split_and!; [done| |done]. rewrite Hs1. apply elem_of_union_l, elem_of_list_to_set, list_elem_of_fmap.
      exists p. split; [done|]. by eapply list_elem_of_lookup_2.
    + constructor; [by eexists|done].
    + apply Forall_app. split; (eapply Forall_impl; [|eassumption]).
      * intros p (_ & Hm & _ & ->). split; [|done]. exists i, macs. split_and!; [by left | done..].
      * intros p [(j & ms & Hj & ?) ->]. split; [|done]. exists j, ms. split; [by right|done].
Qed.

(** The rule a MAC policy comes from. *)
Definition mac_origin (r : RouterRule) (p : SourceMACPolicy) : Prop :=
  ∃ d a, r = DefaultRule d None false a ∧ mac_verdict a = Some (mp_Verdict p) ∧
    allItems d = items d ∧ Forall mac_item (items d) ∧ lists_mac (items d) (mp_MAC p).

Lemma allItems_items d : length (items d) = length (allItems d) → allItems d = items d.
Proof.
  unfold allItems. rewrite length_app. intros H.
  match goal with |- _ ++ ?l = _ => assert (length l = 0%nat) as E by lia; apply nil_length_inv in E; rewrite E end.
  apply app_nil_r.
Qed.

Lemma sourceMACPolicies_spec r seen out seen' :
  sourceMACPolicies r seen = (out, seen') → policies_fresh out seen seen' ∧ Forall (mac_origin r) out.
Proof.
  destruct r as [d sets invert a|]; cbn [sourceMACPolicies]; [|intros [= <- <-]; split; [apply policies_fresh_nil|constructor]].
  assert (([], seen) = (out, seen') → policies_fresh out seen seen' ∧ Forall (mac_origin (DefaultRule d sets invert a)) out) as Hnil.
  { intros [= <- <-]; split; [apply policies_fresh_nil|constructor]. }
  destruct invert; [done|]. destruct (mac_verdict a) as [v|] eqn:Ev; [|done].
  destruct (_ || _) eqn:Eb; [done|]. apply orb_false_iff in Eb as [_ Eb].
  apply negb_false_iff, andb_true_iff in Eb as [Elen%bool_decide_eq_true Esets%negb_true_iff%bool_decide_eq_false].
  destruct (item_policies v (allItems d) seen) as [out1 seen1] eqn:E1. intros [= <- <-].
  destruct (item_policies_spec _ _ _ _ _ E1) as [Hs Hout]. destruct out1 as [ps|]; simpl.
  - destruct (Hout ps eq_refl) as (Hf & Hmi & Hv). split; [done|].
    eapply Forall_impl; [|exact Hv]. intros p [Hl <-].
    destruct sets; [by destruct Esets|]. pose proof (allItems_items d Elen) as Hal. rewrite Hal in Hmi, Hl.
    exists d, a. by split_and!.
  - split; [|constructor]. split_and!; [constructor..|done].
Qed.

Lemma collect_macs_spec rules : ∀ seen,
  NoDup (mp_MAC <$> collect_macs rules seen) ∧
  Forall (λ p, (mp_MAC p ∉ seen) ∧ Z.of_nat (length (mp_MAC p)) = 6 ∧ ∃ r, r ∈ rules ∧ mac_origin r p) (collect_macs rules seen).
Proof.
  induction rules as [|r rules IH]; intros seen; cbn [collect_macs]; [by repeat constructor|].
  destruct (sourceMACPolicies r seen) as [out seen'] eqn:E.
  destruct (sourceMACPolicies_spec _ _ _ _ E) as [(Hn & Hf & Hs) Ho]. destruct (IH seen') as [Hn' Hall']. split.
  - rewrite fmap_app. apply list.NoDup_app. split_and!; [done| |done].
    intros m (p & -> & Hp)%list_elem_of_fmap (q & Hq & Hin)%list_elem_of_fmap.
    apply list_elem_of_lookup in Hp as [k Hk]. apply list_elem_of_lookup in Hin as [k' Hk'].
    destruct (Forall_lookup_1 _ _ _ _ Hf Hk) as (_ & H1 & _). destruct (Forall_lookup_1 _ _ _ _ Hall' Hk') as (H2 & _).
    rewrite Hq in H1. done.
  - apply Forall_app. split.
    + apply Forall_lookup. intros k p Hk. destruct (Forall_lookup_1 _ _ _ _ Hf Hk) as (? & _ & ?).
      split_and!; [done..|]. exists r. split; [by left|]. by apply (Forall_lookup_1 _ _ _ _ Ho Hk).
    + eapply Forall_impl; [|exact Hall']. intros p (? & ? & r' & ? & ?). split_and!; [set_solver|done|].
      exists r'. split; [by right|done].
Qed.

(** ** Learned verdicts: lemmas *)

Lemma noteSkipReason_published c r : co_written (noteSkipReason c r) = co_written c ∧ co_promoted (noteSkipReason c r) = co_promoted c.
Proof. unfold noteSkipReason. by destruct (_ || _). Qed.

Lemma evaluateVerdictLearn_ok opts dialer m dest reason :
  evaluateVerdictLearn opts dialer m dest = (true, reason) →
  ap_Port dest ≠ 53 ∧ lm_VerdictScope m = RouteVerdictScopeDestinationIP ∧
  lm_User m = ""%string ∧ lm_hasProcessInfo m = false ∧ verdictIsEmptyDirect dialer = true.
Proof.
  unfold evaluateVerdictLearn. destruct (_ || _); [done|]. destruct (negb _); [done|].
  destruct (Z.eqb_spec (ap_Port dest) 53); [done|].
  unfold verdictRouteInputsOK. case_bool_decide; [|done]. cbn [negb].
  unfold verdictUsedProcessOrUser. destruct (String.eqb_spec (lm_User m) ""); [|done]. cbn [negb orb].
  destruct (lm_hasProcessInfo m); [done|]. by destruct (verdictIsEmptyDirect dialer).
Qed.

(** The dialed peer is unusable as evidence, or the destination itself, or
    another resolved address of it. *)
Definition peer_agrees (m : LearnMetadata) (dest remote : AddrPort) : Prop :=
  addrport_is_valid remote && negb (is_unspecified (ap_Addr remote)) && negb (ap_Port remote =? 0) = false
  ∨ unmap (ap_Addr dest) = unmap (ap_Addr remote)
  ∨ ∃ a, a ∈ lm_DestinationAddresses m ∧ addr_is_valid a = true ∧ unmap a = unmap (ap_Addr remote).

Lemma unmap_idem a : unmap (unmap a) = unmap a.
Proof. destruct a as [|v|v z]; simpl; [done..|]. destruct (v / 2 ^ 32 =? 65535) eqn:E; simpl; by rewrite ?E. Qed.

Lemma resolveLearnDestination_ok isValid isIP m remote dest :
  resolveLearnDestination isValid isIP m remote = (dest, verdictSkipNone) →
  unmap (ap_Addr dest) = unmap (ap_Addr (preferred_destination isValid isIP m remote)) ∧
  ap_Port dest = ap_Port (preferred_destination isValid isIP m remote) ∧
  ap_Port dest ≠ 0 ∧ peer_agrees m dest remote.
Proof.
  unfold resolveLearnDestination. set (pref := preferred_destination isValid isIP m remote). cbv zeta.
  destruct (negb (addrport_is_valid pref)); [done|]. cbn [orb].
  destruct (Z.eqb_spec (ap_Port pref) 0) as [|Hport]; [done|].
  destruct (_ && _ && _) eqn:Epeer; cbn [negb].
  - case_bool_decide as Heq.
    + intros [= <-]. simpl. rewrite unmap_idem. split_and!; [done..|]. right; left. simpl. by rewrite unmap_idem.
    + destruct (existsb _ _) eqn:Ex; [|done]. intros [= <-]. split_and!; [done..|]. right; right.
      apply existsb_exists in Ex as (a & Hin & [Hv Hu%bool_decide_eq_true]%andb_true_iff).
      exists a. split_and!; [by apply list_elem_of_In | done..].
  - intros [= <-]. split_and!; [done..|]. by left.
Qed.

(** What is known when a verdict was written. *)
Definition learned (isValid isIP : Socksaddr → bool) (dialer : option OutboundDialer) (m : LearnMetadata) (remote : AddrPort)
    (c : coordinator) (dest : AddrPort) : Prop :=
  lm_VerdictScope m = RouteVerdictScopeDestinationIP ∧ ap_Port dest ≠ 53 ∧ ap_Port dest ≠ 0 ∧
  lm_User m = ""%string ∧ lm_hasProcessInfo m = false ∧ verdictIsEmptyDirect dialer = true ∧
  verdictInboundEligible (lm_InboundType m) = true ∧ lo_mode (co_learn c) = "learn"%string ∧ co_closed c = false ∧
  unmap (ap_Addr dest) = unmap (ap_Addr (preferred_destination isValid isIP m remote)) ∧ peer_agrees m dest remote.

Lemma write_direct_spec c protocol dest :
  addr_is_valid (ap_Addr dest) = true →
  co_written (write_direct c protocol dest) = co_written c ++ [(protocol, dest, lo_ttl (co_learn c))] ∧
  co_promoted (write_direct c protocol dest) =
    co_promoted c ++ (if co_hasPromote c then [(unmap (ap_Addr dest), lo_ttl (co_learn c))] else []).
Proof.
  intros Hv. unfold write_direct, promoteLearnedBypass. rewrite Hv. simpl. destruct (co_hasPromote c); simpl; [done|].
  by rewrite app_nil_r.
Qed.

(** One step of the learner: either nothing is published or one verdict is. *)
Definition learn_step (protocol : Z) (P : AddrPort → Prop) (c c' : coordinator) : Prop :=
  (co_written c' = co_written c ∧ co_promoted c' = co_promoted c) ∨
  ∃ dest, P dest ∧ co_written c' = co_written c ++ [(protocol, dest, lo_ttl (co_learn c))] ∧
    (co_promoted c' = co_promoted c ∨ co_promoted c' = co_promoted c ++ [(unmap (ap_Addr dest), lo_ttl (co_learn c))]) ∧
    (lo_promoteBypass (co_learn c) = true →
     co_promoted c' = co_promoted c ++ (if co_hasPromote c then [(unmap (ap_Addr dest), lo_ttl (co_learn c))] else [])).

Lemma skip_published c r :
  co_written (noteSkipReason (backend_Skip c) r) = co_written c ∧ co_promoted (noteSkipReason (backend_Skip c) r) = co_promoted c.
Proof. apply (noteSkipReason_published (backend_Skip c)). Qed.

(** The write at the end of both learners, after the attempt was counted. *)
Lemma learned_write isValid isIP dialer m remote c protocol dest reason :
  verdictInboundEligible (lm_InboundType m) = true → lo_mode (co_learn c) = "learn"%string → co_closed c = false →
  addrport_is_valid dest = true → resolveLearnDestination isValid isIP m remote = (dest, verdictSkipNone) →
  evaluateVerdictLearn (co_learn c) dialer m dest = (true, reason) →
  learn_step protocol (learned isValid isIP dialer m remote c) c (write_direct (count_invoked c) protocol dest).
Proof.
  intros Hel Hmode Hc Hv Hr He. right. exists dest.
  destruct (evaluateVerdictLearn_ok _ _ _ _ _ He) as (? & ? & ? & ? & ?).
  destruct (resolveLearnDestination_ok _ _ _ _ _ Hr) as (? & ? & ? & ?).
  destruct (write_direct_spec (count_invoked c) protocol dest Hv) as [-> ->]. split_and!; try done.
  cbn. destruct (co_hasPromote c); [by right | left; apply app_nil_r].
Qed.

(** C7. A DIRECT verdict is written, over TCP or UDP, only for a destination-IP scoped decision of
    an eligible inbound in learn mode, without user or process identity, through
    a bare direct outbound, never for port 53, keyed by the address the client
    sees; the dialed peer must not be a different host.  At most one verdict is
    written per connection.  Nothing is promoted to the bypass table but the address of
    the verdict just written, with its lifetime; under promote_bypass it is promoted
    whenever there is a bypass table.  (With promote_bypass=false the option documents no
    promotion at all; that the learner promotes even then is a finding, and not claimed
    here.) *)
Theorem MaybeLearn_writes_scoped isValid isIP putFails dialer m remote c :
  learn_step ECommon_ProtocolTCP (learned isValid isIP dialer m remote c) c (MaybeLearnTCP isValid isIP putFails dialer m remote c) ∧
  learn_step ECommon_ProtocolUDP (learned isValid isIP dialer m remote c) c (MaybeLearnUDP isValid isIP putFails dialer m remote c).
Proof.
  split; unfold MaybeLearnTCP, MaybeLearnUDP.
  - destruct (verdictInboundEligible _) eqn:Eel; [|by left]. cbn [negb].
    destruct (verdictIsEmptyDirect dialer); [|left; apply (noteSkipReason_published (count_invoked c))]. cbn [negb].
    destruct (negb (co_hasBackend _)); [by left|]. cbn [orb]. destruct (co_closed (count_invoked c)) eqn:Ecl; [by left|].
    destruct (String.eqb_spec (lo_mode (co_learn (count_invoked c))) "learn"); [|by left]. cbn [negb].
    destruct (resolveLearnDestination _ _ _ _) as [dest reason] eqn:Er.
    destruct (Z.eqb_spec reason verdictSkipNone) as [->|]; [|left; apply (skip_published (count_invoked c))].
    destruct (addrport_is_valid dest) eqn:Ev; [|left; apply (skip_published (count_invoked c))]. cbn [negb orb].
    destruct (evaluateVerdictLearn _ _ _ _) as [[] reason] eqn:Ee; [|left; apply (skip_published (count_invoked c))].
    destruct putFails; [by left|]. by eapply learned_write.
  - destruct (verdictInboundEligible _) eqn:Eel; [|by left]. cbn [negb].
    destruct (verdictIsEmptyDirect dialer); [|left; apply (noteSkipReason_published (count_invoked c))]. cbn [negb].
    destruct (negb (co_hasBackend _)); [by left|]. cbn [orb].
    destruct (String.eqb_spec (lo_mode (co_learn (count_invoked c))) "learn"); [|by left]. cbn [negb orb].
    destruct (co_closed (count_invoked c)) eqn:Ecl; [by left|].
    destruct (resolveLearnDestination _ _ _ _) as [dest reason] eqn:Er.
    destruct (Z.eqb_spec reason verdictSkipNone) as [->|]; cbn [negb orb]; [|left; apply (skip_published (count_invoked c))].
    destruct (addrport_is_valid dest) eqn:Ev; cbn [negb orb]; [|left; destruct (ap_Port dest =? 53); [apply (skip_published (count_invoked c))|done]].
    destruct (ap_Port dest =? 53); [left; apply (skip_published (count_invoked c))|].
    destruct (evaluateVerdictLearn _ _ _ _) as [[] reason] eqn:Ee; [|left; apply (skip_published (count_invoked c))].
    destruct putFails; [by left|]. by eapply learned_write.
Qed.

(** ** Properties of the static sinks *)

(** A prefix a rule without rule-sets sinks as DIRECT is inside what the rule matches: the rule
    is not inverted, its action is statically direct, and every connection to an
    address of the prefix that satisfies the rule's plain items matches it. *)
Theorem staticDirectPrefixes_sound bareDirect d invert a ps p addr named v :
  staticDirectPrefixes bareDirect (DefaultRule d None invert a) = Some ps → p ∈ ps →
  Forall cidr_law (destinationIPCIDRItems d) →
  prefix_contains p addr = true → v_DestIsIP v = true → v_DestAddr v = addr →
  v_DestinationAddressMatchFromResponse v = false → items_hold d (child_view v) = true →
  invert = false ∧ actionIsStaticDirect a bareDirect = true ∧
  holds (RuleDefault d None invert) named (child_view v) = true.
Proof.
  intros Hps Hp Hlaw Hc Hip Ha Hr Hitems. cbn [staticDirectPrefixes] in Hps.
  destruct invert; [simplify_eq; set_solver|]. destruct (actionIsStaticDirect a bareDirect); [|simplify_eq/=; set_solver].
  destruct (matchItemsSinkable d None) eqn:Es; [|simplify_eq/=; set_solver]. simpl in Hps. simplify_eq.
  rewrite app_nil_r in Hp. destruct (sinkable_shape _ _ Es) as (Esa & Esp & Edp). split; [done|]. split; [done|].
  pose proof (cidr_prefixes_match _ _ _ (child_view v) Hlaw Hp Hc Hip eq_refl Hr eq_refl) as Hany.
  cbn [holds]. destruct (allItems_empty d None); [done|]. rewrite xorb_false_l, Hitems. cbn [andb].
  unfold quad_done, required, satisfied. rewrite Esa, Esp, Edp, Hany. simpl.
  by rewrite !orb_true_r, implb_true_r.
Qed.

(** The published list is exact: it has each prefix once, and its members are the valid masked
    prefixes contributed by some rule of the list. *)
Theorem CollectStaticDirectPrefixes_exact rules bareDirect out :
  CollectStaticDirectPrefixes rules bareDirect = Some out →
  NoDup out ∧
  ∀ q, q ∈ out ↔ ∃ r ps p, r ∈ rules ∧ staticDirectPrefixes (default (λ _, false) bareDirect) r = Some ps ∧
                   p ∈ ps ∧ q = masked p ∧ prefix_is_valid q = true.
Proof.
  intros H. destruct (collect_prefixes_spec _ _ _ _ H) as [Hn Hq]. split; [done|].
  intros q. rewrite Hq. split; [by intros [_ ?]|]. intros ?. split; [set_solver | done].
Qed.

(** Every source-MAC policy has a six-byte address of its own (no address is given two
    verdicts) and comes from a rule that is not inverted, has no rule-set,
    consists of MAC items that list the address, and whose action is the verdict:
    direct and plain bypass are DIRECT, reject by drop is BLOCK. *)
Theorem CollectSourceMACPolicies_sound rules :
  NoDup (mp_MAC <$> CollectSourceMACPolicies rules) ∧
  Forall (λ p, Z.of_nat (length (mp_MAC p)) = 6 ∧ ∃ r, r ∈ rules ∧ mac_origin r p) (CollectSourceMACPolicies rules).
Proof.
  destruct (collect_macs_spec rules ∅) as [Hn Hf]. split; [done|].
  eapply Forall_impl; [|exact Hf]. intros p (_ & ? & ?). done.
Qed.

(** ** Where the sinks and the router disagree *)

Definition sample_prefix : Prefix := mkPrefix (AddrV4 3405803776) 24.
Definition empty_items : DefaultItems := mkDefaultItems [] [] [] [] [] [].
Definition prefix_items (p : Prefix) : DefaultItems :=
  mkDefaultItems [] [] [] [] [IPCIDRItem (prefix_contains p) [p] false] [].

(** The rule-set [{ip_cidr: 203.0.113.0/24, invert: true}] and a rule that routes it direct. *)
Definition inverted_options : list HeadlessOptions :=
  [HeadlessDefault (mkHeadlessOptions ["203.0.113.0/24"%string] false true [] [] [] [] [] [] [] [] false)].
Definition inverted_set_rule : RouterRule :=
  DefaultRule empty_items
    (Some (mkRuleSets false false [([RuleDefault (prefix_items sample_prefix) None true], buildRuleSetMetadata inverted_options)]))
    false (RuleActionRoute "direct" no_options).

(** An inverted pure-IP rule-set is sunk as its own complement: the prefix of the set is
    published as DIRECT although the rule does not match any of its addresses. *)
Theorem inverted_rule_set_sunk :
  staticDirectPrefixes (String.eqb "direct") inverted_set_rule = Some [sample_prefix] ∧
  prefix_contains sample_prefix (v_DestAddr (m_view (st_ctx (flight 443)))) = true ∧
  rule_sees (flight 443) inverted_set_rule = false.
Proof. repeat split; vm_compute; reflexivity. Qed.

(** [SourceMACAddressItem], the source address of the link being an attribute. *)
Definition SourceMACAddressItem (name : string) (macs : list (list Z)) : RuleItem :=
  mkItem (KindSourceMAC macs) RouteMatchOther (λ v, bool_decide (v_attrs v !! "source_mac_address"%string = Some name)).

Definition reject_smtp : RouterRule :=
  DefaultRule (mkDefaultItems [] [] [] [] [] [PortItem [25] false]) None false (RuleActionReject "default").
Definition mac_bypass : RouterRule :=
  DefaultRule (mkDefaultItems [SourceMACAddressItem "02:00:00:00:00:01" [[2; 0; 0; 0; 0; 1]]] [] [] [] [] []) None false
    (RuleActionBypass "" no_options).

(** Source-MAC policies do override decisions of earlier rules: behind a rule that rejects port
    25, the bypassed address is still published as DIRECT, and the router
    rejects a connection of that host to port 25. *)
Theorem mac_policy_overrides_earlier_rule :
  CollectSourceMACPolicies [reject_smtp; mac_bypass] = [mkSourceMACPolicy [2; 0; 0; 0; 0; 1] SourceMACOffloadDirect] ∧
  mr_selected (quiet_match [reject_smtp; mac_bypass] (flight 25)) = Some (0%nat, reject_smtp).
Proof. split; [vm_compute | ]; reflexivity. Qed.

Definition sniff_all : RouterRule := DefaultRule empty_items None false RuleActionSniff.
Definition prefill_state (addr : Addr) : RouteState :=
  with_ctx (flight 0) (prefill_context quiet_isIP (λ _, false) ∅ "example.org" addr).

(** The DNS prefill forgets the taint of a rule list that ends without a final rule: behind a
    bare sniff rule it calls the address stable direct, where the router
    publishes an unknown scope for the same metadata. *)
Theorem prefill_forgets_taint :
  dnsPrefillIsStableDirect quiet_isIP (λ _, false) [sniff_all] (mkOutbounds "direct" (λ _, None)) ∅ "example.org" (AddrV4 3405803783) = true ∧
  m_VerdictScope (st_ctx (mr_state (quiet_match [sniff_all] (prefill_state (AddrV4 3405803783))))) = RouteVerdictScopeUnknown.
Proof. split; reflexivity. Qed.

Definition sample_metadata : LearnMetadata :=
  mkLearnMetadata "ebpf" RouteVerdictScopeDestinationIP "" false (mkSocksaddr (AddrV4 3405803783) "" 443) [].
Definition sample_dialer : option OutboundDialer := Some (mkDialer (Some "direct"%string) (Some false)).
Definition sample_coordinator (promote : option bool) : coordinator :=
  mkCoordinator true true (verdictLearnOptionsFrom (mkVerdictOptions "learn" 0 false promote)) false 0 ∅ 0 [] [].

(** [promote_bypass: false] does not keep a learned verdict out of the bypass table: the option
    is normalised to false, and the address is promoted all the same. *)
Theorem learn_ignores_promote_bypass :
  lo_promoteBypass (co_learn (sample_coordinator (Some false))) = false ∧
  co_promoted (MaybeLearnTCP quiet_isIP quiet_isIP false sample_dialer sample_metadata (mkAddrPort AddrZero 0)
                 (sample_coordinator (Some false))) = [(AddrV4 3405803783, 5 * Minute)].
Proof. split; vm_compute; reflexivity. Qed.

(** ** Witnesses *)

Lemma prefix_items_law p : Forall cidr_law (destinationIPCIDRItems (prefix_items p)).
Proof.
  constructor; [|constructor]. intros isSource prefixes [= <- <-]. exists (prefix_contains p). split; [done|].
  intros q a Hq. apply list_elem_of_singleton in Hq. by subst q.
Qed.

(** A connection that is learned. *)
Definition learned_tcp : coordinator :=
  MaybeLearnTCP quiet_isIP quiet_isIP false sample_dialer sample_metadata (mkAddrPort AddrZero 0) (sample_coordinator None).

Lemma MaybeLearn_writes_scoped_witness :
  co_written learned_tcp = [(ECommon_ProtocolTCP, mkAddrPort (AddrV4 3405803783) 443, 5 * Minute)] ∧
  ∃ dest, learned quiet_isIP quiet_isIP sample_dialer sample_metadata (mkAddrPort AddrZero 0) (sample_coordinator None) dest ∧
    co_promoted learned_tcp = [(unmap (ap_Addr dest), 5 * Minute)].
Proof.
  split; [vm_compute; reflexivity|].
  destruct (proj1 (MaybeLearn_writes_scoped quiet_isIP quiet_isIP false sample_dialer sample_metadata (mkAddrPort AddrZero 0) (sample_coordinator None)))
    as [[H _]|(dest & Hd & _ & _ & Hp)]; [vm_compute in H; discriminate|].
  exists dest. split; [exact Hd|]. exact (Hp eq_refl).
Defined.

Definition direct_rule : RouterRule := DefaultRule (prefix_items sample_prefix) None false (RuleActionRoute "direct" no_options).

Lemma staticDirectPrefixes_sound_witness :
  holds (RuleDefault (prefix_items sample_prefix) None false) ∅ (child_view (m_view (st_ctx (flight 443)))) = true.
Proof.
  apply (staticDirectPrefixes_sound (String.eqb "direct") (prefix_items sample_prefix) false (RuleActionRoute "direct" no_options)
    [sample_prefix] sample_prefix (AddrV4 3405803783) ∅ (m_view (st_ctx (flight 443)))); try reflexivity.
  - apply list_elem_of_singleton. reflexivity.
  - apply prefix_items_law.
Defined.

Lemma CollectStaticDirectPrefixes_exact_witness : NoDup [sample_prefix].
Proof.
  apply (CollectStaticDirectPrefixes_exact [direct_rule; direct_rule] (Some (String.eqb "direct")) [sample_prefix]).
  vm_compute. reflexivity.
Defined.
