(* ===== verification/AdaptiveLease.v ===== *)
(** * Session leases of the adaptive pool: [src/protocol/group/adaptive/lease.go]

    [SessionLeaseManager] binds a session to the node it was first sent through.
    The first connection of a session reserves it and later commits a node;
    concurrent connections of the same session wait on the reservation's
    channel.  Leases expire, are renewed or replaced in place, and are bounded by
    an LRU list.  The records are shared by the map and the LRU list, so the
    model has a heap of records: the map and the list hold addresses. *)

From Stdlib Require Import ZArith Lia.
From S2P Require Import Prelude.
From stdpp Require Import base gmap list strings numbers fin_maps.

#[local] Set Warnings "-clear-no-such-hyp".

Local Open Scope Z_scope.

(** ** Data *)

(** [SessionKey] and [NodeID] are arrays of 16 bytes; 0 is the zero array. *)
Definition SessionKey : Type := Z.
Definition NodeID : Type := Z.

Record NodeHandle : Type := mkHandle { nh_NodeID : NodeID; nh_Slot : Z; nh_Version : Z; nh_BornRevision : Z }.

Record SessionLease : Type := mkLease {
  sl_Key : SessionKey;
  sl_NodeID : NodeID;
  sl_NodeSlot : Z;
  sl_NodeVersion : Z;
  sl_ServiceID : string;
  sl_Mode : string;
  sl_ExpiresAt : Z;
  sl_UpdatedAt : Z }.

Definition zero_lease : SessionLease := mkLease 0 0 0 0 "" "" 0 0.

(** [pendingRecord]; [pr_wait] is the address of its channel. *)
Record pendingRecord : Type := mkPending {
  pr_generation : Z;
  pr_token : Z;
  pr_wait : Z;
  pr_waiters : Z }.

(** [LeaseReservation]; [rv_done] is its [sync.Once]. *)
Record LeaseReservation : Type := mkReservation {
  rv_key : SessionKey;
  rv_generation : Z;
  rv_token : Z;
  rv_done : bool }.

(** [SessionLeaseManager]: [lm_heap] holds the lease records, [lm_lru] their
    addresses from the most recently used, [lm_closed] the closed channels;
    [lm_alloc] is the next fresh address. *)
Record SessionLeaseManager : Type := mkManager {
  lm_heap : gmap Z SessionLease;
  lm_leases : gmap SessionKey Z;
  lm_pending : gmap SessionKey pendingRecord;
  lm_lru : list Z;
  lm_closed : gset Z;
  lm_maxEntries : Z;
  lm_evictions : Z;
  lm_generation : Z;
  lm_nextToken : Z;
  lm_alloc : Z }.

Definition with_leases (m : SessionLeaseManager) (heap : gmap Z SessionLease) (leases : gmap SessionKey Z) (lru : list Z)
    (evictions alloc : Z) : SessionLeaseManager :=
  mkManager heap leases (lm_pending m) lru (lm_closed m) (lm_maxEntries m) evictions (lm_generation m) (lm_nextToken m) alloc.
Definition with_pending (m : SessionLeaseManager) (pending : gmap SessionKey pendingRecord) (closed : gset Z)
    (generation nextToken alloc : Z) : SessionLeaseManager :=
  mkManager (lm_heap m) (lm_leases m) pending (lm_lru m) closed (lm_maxEntries m) (lm_evictions m) generation nextToken alloc.

Definition NewSessionLeaseManager (maxEntries : Z) : SessionLeaseManager :=
  mkManager ∅ ∅ ∅ [] ∅ (if maxEntries <=? 0 then 8192 else maxEntries) 0 0 0 0.

(** ** The LRU list *)

(** [lru.Remove(element)] and [lru.MoveToFront(element)]. *)
Definition lru_remove (id : Z) (lru : list Z) : list Z := filter (λ x, x ≠ id) lru.
Definition lru_front (id : Z) (lru : list Z) : list Z := id :: lru_remove id lru.

Definition touch (m : SessionLeaseManager) (id : Z) : SessionLeaseManager :=
  with_leases m (lm_heap m) (lm_leases m) (lru_front id (lm_lru m)) (lm_evictions m) (lm_alloc m).

Definition lease_at (m : SessionLeaseManager) (id : Z) : SessionLease := default zero_lease (lm_heap m !! id).

(** [removeLocked(record)] *)
Definition removeLocked (m : SessionLeaseManager) (id : Z) : SessionLeaseManager :=
  with_leases m (lm_heap m) (delete (sl_Key (lease_at m id)) (lm_leases m)) (lru_remove id (lm_lru m))
    (u64 (lm_evictions m + 1)) (lm_alloc m).

Definition removeOldestLocked (m : SessionLeaseManager) : SessionLeaseManager :=
  match last (lm_lru m) with None => m | Some id => removeLocked m id end.

(** [for len(m.leases) > m.maxEntries { m.removeOldestLocked() }]; every round
    shortens the list, so its length bounds the rounds. *)
Fixpoint evict (fuel : nat) (m : SessionLeaseManager) : SessionLeaseManager :=
  match fuel with
  | O => m
  | S fuel => if lm_maxEntries m <? Z.of_nat (size (lm_leases m)) then evict fuel (removeOldestLocked m) else m
  end.
Definition enforce_bound (m : SessionLeaseManager) : SessionLeaseManager := evict (length (lm_lru m)) m.

(** [record := &leaseRecord{lease}; PushFront(record); leases[key] = record] *)
Definition push_lease (m : SessionLeaseManager) (lease : SessionLease) : SessionLeaseManager :=
  let id := lm_alloc m in
  with_leases m (<[id := lease]> (lm_heap m)) (<[sl_Key lease := id]> (lm_leases m)) (id :: lm_lru m) (lm_evictions m) (id + 1).

(** ** Pending reservations *)

Definition pendingOwnedByLocked (m : SessionLeaseManager) (key : SessionKey) (generation token : Z) : bool :=
  match lm_pending m !! key with
  | Some p => (pr_generation p =? generation) && (pr_token p =? token)
  | None => false
  end.

Definition finishPendingLocked (m : SessionLeaseManager) (key : SessionKey) (generation token : Z) : SessionLeaseManager :=
  match lm_pending m !! key with
  | Some p =>
      if (pr_generation p =? generation) && (pr_token p =? token)
      then with_pending m (delete key (lm_pending m)) ({[pr_wait p]} ∪ lm_closed m) (lm_generation m) (lm_nextToken m) (lm_alloc m)
      else m
  | None => m
  end.

(** ** Operations *)

(** One round of the loop of [Reserve]: a live lease, a channel to wait on, or a
    new reservation.  A caller that waited runs another round; a cancelled one
    returns the context's error. *)
Inductive ReserveOutcome : Type :=
| Leased (lease : SessionLease)
| Waiting (wait : Z)
| Reserved (r : LeaseReservation).

Definition reserve_pending (m : SessionLeaseManager) (key : SessionKey) : SessionLeaseManager * ReserveOutcome :=
  match lm_pending m !! key with
  | Some p =>
      (with_pending m (<[key := mkPending (pr_generation p) (pr_token p) (pr_wait p) (pr_waiters p + 1)]> (lm_pending m))
         (lm_closed m) (lm_generation m) (lm_nextToken m) (lm_alloc m), Waiting (pr_wait p))
  | None =>
      let token := u64 (lm_nextToken m + 1) in
      (with_pending m (<[key := mkPending (lm_generation m) token (lm_alloc m) 0]> (lm_pending m))
         (lm_closed m) (lm_generation m) token (lm_alloc m + 1),
       Reserved (mkReservation key (lm_generation m) token false))
  end.

Definition Reserve (m : SessionLeaseManager) (key : SessionKey) (now : Z) : SessionLeaseManager * ReserveOutcome :=
  match lm_leases m !! key with
  | Some id =>
      if time_after (sl_ExpiresAt (lease_at m id)) now then (touch m id, Leased (lease_at m id))
      else reserve_pending (removeLocked m id) key
  | None => reserve_pending m key
  end.

Definition Peek (m : SessionLeaseManager) (key : SessionKey) (now : Z) : SessionLeaseManager * option SessionLease :=
  match lm_leases m !! key with
  | None => (m, None)
  | Some id =>
      if negb (time_after (sl_ExpiresAt (lease_at m id)) now) then (removeLocked m id, None)
      else (touch m id, Some (lease_at m id))
  end.

Definition lease_ttl (ttl : Z) : Z := if ttl <=? 0 then 10 * minute else ttl.

(** [CommitHandle]: the manager, and the lease or the zero lease. *)
Definition CommitHandle (m : SessionLeaseManager) (r : LeaseReservation) (handle : NodeHandle) (serviceID mode : string)
    (ttl now : Z) : SessionLeaseManager * SessionLease :=
  if rv_done r then (m, zero_lease)
  else if negb (rv_generation r =? lm_generation m) || negb (pendingOwnedByLocked m (rv_key r) (rv_generation r) (rv_token r))
  then (m, zero_lease)
  else
    let committed := mkLease (rv_key r) (nh_NodeID handle) (nh_Slot handle) (nh_Version handle) serviceID mode
                       (now + lease_ttl ttl) now in
    let m := enforce_bound (push_lease m committed) in
    (finishPendingLocked m (rv_key r) (rv_generation r) (rv_token r), committed).

Definition Abort (m : SessionLeaseManager) (r : LeaseReservation) : SessionLeaseManager :=
  if rv_done r then m else finishPendingLocked m (rv_key r) (rv_generation r) (rv_token r).

(** The reservation after [once.Do]. *)
Definition finished (r : LeaseReservation) : LeaseReservation :=
  mkReservation (rv_key r) (rv_generation r) (rv_token r) true.

Definition Invalidate (m : SessionLeaseManager) (key : SessionKey) (expected : NodeID) : SessionLeaseManager :=
  match lm_leases m !! key with
  | Some id => if (expected =? 0) || (sl_NodeID (lease_at m id) =? expected) then removeLocked m id else m
  | None => m
  end.

Definition same_handle (l : SessionLease) (h : NodeHandle) : bool :=
  (sl_NodeID l =? nh_NodeID h) && (sl_NodeSlot l =? nh_Slot h) && (sl_NodeVersion l =? nh_Version h).

(** In-place update of a record, moved to the front. *)
Definition update_lease (m : SessionLeaseManager) (id : Z) (lease : SessionLease) : SessionLeaseManager :=
  touch (with_leases m (<[id := lease]> (lm_heap m)) (lm_leases m) (lm_lru m) (lm_evictions m) (lm_alloc m)) id.

Definition ReplaceHandle (m : SessionLeaseManager) (key : SessionKey) (expected next : NodeHandle) (serviceID mode : string)
    (ttl now : Z) : SessionLeaseManager * SessionLease :=
  let lease := mkLease key (nh_NodeID next) (nh_Slot next) (nh_Version next) serviceID mode (now + lease_ttl ttl) now in
  match lm_leases m !! key with
  | Some id =>
      if negb (nh_NodeID expected =? 0) && negb (same_handle (lease_at m id) expected) then (m, lease_at m id)
      else
        let lease := mkLease (sl_Key (lease_at m id)) (nh_NodeID next) (nh_Slot next) (nh_Version next) serviceID mode
                       (now + lease_ttl ttl) now in
        (update_lease m id lease, lease)
  | None => if negb (nh_NodeID expected =? 0) then (m, zero_lease) else (enforce_bound (push_lease m lease), lease)
  end.

Definition RenewHandle (m : SessionLeaseManager) (key : SessionKey) (expected : NodeHandle) (ttl now : Z) :
    SessionLeaseManager * SessionLease :=
  match lm_leases m !! key with
  | Some id =>
      let old := lease_at m id in
      if negb (same_handle old expected) then (m, zero_lease)
      else
        let lease := mkLease (sl_Key old) (sl_NodeID old) (sl_NodeSlot old) (sl_NodeVersion old) (sl_ServiceID old) (sl_Mode old)
                       (now + lease_ttl ttl) now in
        (update_lease m id lease, lease)
  | None => (m, zero_lease)
  end.

(** [RetireNodeHandle] over the entries in the order [range] visits them. *)
Definition RetireNodeHandle (m : SessionLeaseManager) (handle : NodeHandle) (order : list (SessionKey * Z)) : SessionLeaseManager :=
  foldl (λ m e, if same_handle (lease_at m e.2) handle then removeLocked m e.2 else m) m order.

Definition Clear (m : SessionLeaseManager) : SessionLeaseManager :=
  mkManager (lm_heap m) ∅ ∅ [] (list_to_set (pr_wait <$> (map_to_list (lm_pending m)).*2) ∪ lm_closed m)
    (lm_maxEntries m) (lm_evictions m) (u64 (lm_generation m + 1)) (lm_nextToken m) (lm_alloc m).

Definition Stats (m : SessionLeaseManager) : Z * Z := (Z.of_nat (size (lm_leases m)), lm_evictions m).

(** [PersistenceSnapshot], the entries in the order visited. *)
Definition PersistenceSnapshot (m : SessionLeaseManager) (now : Z) (order : list (SessionKey * Z)) : list SessionLease :=
  List.filter (λ l, time_after (sl_ExpiresAt l) now) (List.map (λ e, lease_at m e.2) order).

Definition restorable (l : SessionLease) (now : Z) : bool :=
  negb ((sl_Key l =? 0) || (sl_NodeID l =? 0) || (sl_NodeSlot l =? 0) || (sl_NodeVersion l =? 0)
        || negb (time_after (sl_ExpiresAt l) now)).

Definition restore_one (now : Z) (m : SessionLeaseManager) (l : SessionLease) : SessionLeaseManager :=
  if negb (restorable l now) then m
  else
    match lm_leases m !! sl_Key l with
    | Some id =>
        if time_after (sl_UpdatedAt (lease_at m id)) (sl_UpdatedAt l) then m else push_lease (removeLocked m id) l
    | None => push_lease m l
    end.

Definition RestorePersistence (m : SessionLeaseManager) (leases : list SessionLease) (now : Z) : SessionLeaseManager :=
  enforce_bound (foldl (restore_one now) m leases).

(** ** The lease invariant *)

(** The map and the LRU list: every listed record is allocated, and every
    mapped record is listed under its own key. *)
Record lease_inv (m : SessionLeaseManager) : Prop := {
  li_nodup : NoDup (lm_lru m);
  li_alloc : ∀ id, id ∈ lm_lru m → id < lm_alloc m;
  li_map : ∀ k id, lm_leases m !! k = Some id → id ∈ lm_lru m ∧ sl_Key (lease_at m id) = k }.

Definition bounded (m : SessionLeaseManager) : Prop := Z.of_nat (size (lm_leases m)) ≤ lm_maxEntries m.

Lemma elem_of_lru_remove x id lru : x ∈ lru_remove id lru ↔ x ≠ id ∧ x ∈ lru.
Proof. unfold lru_remove. rewrite list_elem_of_filter. naive_solver. Qed.

Lemma lru_remove_NoDup id lru : NoDup lru → NoDup (lru_remove id lru).
Proof. apply NoDup_filter. Qed.

Lemma touch_inv m id : lease_inv m → id ∈ lm_lru m → lease_inv (touch m id).
Proof.
  intros [Hn Ha Hm] Hid. split; simpl.
  - constructor; [rewrite elem_of_lru_remove; naive_solver | by apply lru_remove_NoDup].
  - intros x [->|Hx]%elem_of_cons; [by apply Ha|]. apply Ha. by apply elem_of_lru_remove in Hx as [_ ?].
  - intros k x Hk. destruct (Hm k x Hk) as [Hin Hkey]. split; [|done].
    apply elem_of_cons. destruct (decide (x = id)); [by left|]. right. by apply elem_of_lru_remove.
Qed.

Lemma removeLocked_inv m id : lease_inv m → lease_inv (removeLocked m id).
Proof.
  intros [Hn Ha Hm]. split; simpl.
  - by apply lru_remove_NoDup.
  - intros x [_ Hx]%elem_of_lru_remove. by apply Ha.
  - intros k x [Hne Hk]%lookup_delete_Some. destruct (Hm k x Hk) as [Hin Hkey]. split; [|done].
    apply elem_of_lru_remove. split; [|done]. intros ->. by rewrite Hkey in Hne.
Qed.

Lemma push_inv m l : lease_inv m → lease_inv (push_lease m l).
Proof.
  intros [Hn Ha Hm]. split; simpl.
  - constructor; [|done]. intros H%Ha. lia.
  - intros x [->|H%Ha]%elem_of_cons; lia.
  - intros k x [[<- <-]|[Hne Hk]]%lookup_insert_Some.
    + split; [by left|]. unfold lease_at. simpl. by rewrite lookup_insert_eq.
    + destruct (Hm k x Hk) as [Hin Hkey]. split; [by right|].
      unfold lease_at in *. simpl. rewrite lookup_insert_ne; [done|]. intros <-. apply Ha in Hin. lia.
Qed.

Lemma update_inv m id l :
  lease_inv m → id ∈ lm_lru m → sl_Key l = sl_Key (lease_at m id) → lease_inv (update_lease m id l).
Proof.
  intros [Hn Ha Hm] Hid Hl. apply touch_inv; [|done]. split; simpl; [done..|].
  intros k x Hk. destruct (Hm k x Hk) as [Hin Hkey]. split; [done|].
  unfold lease_at in *. simpl. destruct (decide (id = x)) as [->|Hne].
  - rewrite lookup_insert_eq. simpl. by rewrite Hl.
  - by rewrite lookup_insert_ne.
Qed.

Lemma lookup_in_lru m k id : lease_inv m → lm_leases m !! k = Some id → id ∈ lm_lru m.
Proof. intros Hi Hk. by apply (li_map _ Hi k). Qed.

(** Every mapped lease has a place in the list, so the list is the longer one. *)
Lemma size_leases_le m : lease_inv m → (size (lm_leases m) ≤ length (lm_lru m))%nat.
Proof.
  intros [Hn Ha Hm].
  rewrite <- (size_dom (lm_leases m) (D := gset Z)).
  trans (size (list_to_set ((λ id, sl_Key (lease_at m id)) <$> lm_lru m) : gset Z)).
  - apply subseteq_size. intros k [id Hk]%elem_of_dom. destruct (Hm k id Hk) as [Hin <-].
    apply elem_of_list_to_set, list_elem_of_fmap. by exists id.
  - clear. induction (lm_lru m) as [|x l IH]; [done|]. cbn [fmap list_fmap list_to_set length].
    rewrite size_union_alt, size_singleton.
    assert (size (list_to_set ((λ id, sl_Key (lease_at m id)) <$> l) ∖ {[sl_Key (lease_at m x)]} : gset Z) ≤
      size (list_to_set ((λ id, sl_Key (lease_at m id)) <$> l) : gset Z))%nat by (apply subseteq_size; set_solver).
    lia.
Qed.

Lemma removeOldest_inv m : lease_inv m → lease_inv (removeOldestLocked m).
Proof. intros Hi. unfold removeOldestLocked. destruct (last _); [by apply removeLocked_inv | done]. Qed.

Lemma lru_remove_last lru id : NoDup lru → last lru = Some id → ∃ l, lru = l ++ [id] ∧ lru_remove id lru = l.
Proof.
  intros Hn Hl. apply last_Some in Hl as [l ->]. exists l. split; [done|].
  apply list.NoDup_app in Hn as (_ & Hd & _). unfold lru_remove. rewrite filter_app.
  assert (filter (λ x, x ≠ id) [id] = []) as -> by (rewrite filter_cons_False; [done | naive_solver]).
  rewrite app_nil_r. clear -Hd. induction l as [|x l IH]; [done|].
  rewrite filter_cons_True.
  - f_equal. apply IH. intros y Hy. apply Hd. by right.
  - intros ->. apply (Hd id); by left.
Qed.

(** The fields eviction does not touch. *)
Definition same_pending (m m' : SessionLeaseManager) : Prop :=
  lm_pending m' = lm_pending m ∧ lm_closed m' = lm_closed m ∧ lm_maxEntries m' = lm_maxEntries m ∧
  lm_generation m' = lm_generation m ∧ lm_nextToken m' = lm_nextToken m ∧ lm_alloc m ≤ lm_alloc m'.

#[global] Instance same_pending_preorder : PreOrder same_pending.
Proof.
  split; unfold same_pending; [by intros m; split_and!|].
  intros m1 m2 m3 (-> & -> & -> & -> & -> & ?) (-> & -> & -> & -> & -> & ?). split_and!; [done..|lia].
Qed.

Lemma removeOldest_same m : same_pending m (removeOldestLocked m).
Proof. unfold removeOldestLocked. by destruct (last _). Qed.

Lemma evict_same fuel m : same_pending m (evict fuel m).
Proof.
  revert m. induction fuel as [|fuel IH]; intros m; simpl; [done|]. destruct (_ <? _); [|done].
  etrans; [apply removeOldest_same | apply IH].
Qed.

Lemma evict_inv fuel m :
  lease_inv m → 0 ≤ lm_maxEntries m → (length (lm_lru m) ≤ fuel)%nat →
  lease_inv (evict fuel m) ∧ bounded (evict fuel m).
Proof.
  revert m. induction fuel as [|fuel IH]; intros m Hi Hmax Hlen; simpl.
  - split; [done|]. unfold bounded. pose proof (size_leases_le m Hi). lia.
  - destruct (Z.ltb_spec (lm_maxEntries m) (Z.of_nat (size (lm_leases m)))); [|by split].
    pose proof (size_leases_le m Hi) as Hsz.
    destruct (removeOldest_same m) as (_ & _ & Hme & _).
    apply IH; [by apply removeOldest_inv | lia |].
    unfold removeOldestLocked. destruct (last (lm_lru m)) as [id|] eqn:El.
    + simpl. destruct (lru_remove_last _ _ (li_nodup _ Hi) El) as (l & El' & ->). rewrite El', length_app in Hlen. simpl in Hlen. lia.
    + apply last_None in El. rewrite El in Hsz. simpl in Hsz. lia.
Qed.

(** The bound loop always terminates with the bound established. *)
Lemma enforce_bound_inv m :
  lease_inv m → 0 ≤ lm_maxEntries m → lease_inv (enforce_bound m) ∧ bounded (enforce_bound m).
Proof. intros Hi Hm. by apply evict_inv. Qed.

Lemma enforce_bound_same m : same_pending m (enforce_bound m).
Proof. apply evict_same. Qed.

(** Operations that shrink or keep the map keep the bound. *)
Lemma removeLocked_bounded m id : bounded m → bounded (removeLocked m id).
Proof. unfold bounded. simpl. pose proof (size_delete_le (sl_Key (lease_at m id)) (lm_leases m)). lia. Qed.

Lemma touch_bounded m id : bounded m → bounded (touch m id).
Proof. done. Qed.

Lemma push_same m l : same_pending m (push_lease m l).
Proof. split_and!; try done. simpl. lia. Qed.

Lemma finish_same m k g t :
  lm_heap (finishPendingLocked m k g t) = lm_heap m ∧ lm_leases (finishPendingLocked m k g t) = lm_leases m ∧
  lm_lru (finishPendingLocked m k g t) = lm_lru m ∧ lm_maxEntries (finishPendingLocked m k g t) = lm_maxEntries m ∧
  lm_alloc (finishPendingLocked m k g t) = lm_alloc m.
Proof. unfold finishPendingLocked. destruct (lm_pending m !! k) as [p|]; [|done]. by destruct (_ && _). Qed.

(** Managers with the same leases have the same lease invariant. *)
Lemma lease_inv_same m m' :
  lm_heap m' = lm_heap m → lm_leases m' = lm_leases m → lm_lru m' = lm_lru m → lm_maxEntries m' = lm_maxEntries m →
  lm_alloc m ≤ lm_alloc m' → lease_inv m ∧ bounded m → lease_inv m' ∧ bounded m'.
Proof.
  intros Hh Hl Hr Hm Ha [[Hn Hal Hmap] Hb]. split.
  - split; rewrite ?Hr; [done | intros id Hid%Hal; lia|].
    intros k id. rewrite Hl. intros Hk. unfold lease_at. rewrite Hh. by apply Hmap.
  - unfold bounded. by rewrite Hl, Hm.
Qed.

Definition lease_ok (m : SessionLeaseManager) : Prop := lease_inv m ∧ bounded m ∧ 0 < lm_maxEntries m.

Lemma lease_ok_same m m' :
  lm_heap m' = lm_heap m → lm_leases m' = lm_leases m → lm_lru m' = lm_lru m → lm_maxEntries m' = lm_maxEntries m →
  lm_alloc m ≤ lm_alloc m' → lease_ok m → lease_ok m'.
Proof.
  intros Hh Hl Hr Hm Ha (Hi & Hb & Hp). destruct (lease_inv_same m m' Hh Hl Hr Hm Ha (conj Hi Hb)).
  split_and!; [done..|]. lia.
Qed.

Lemma finish_ok m k g t : lease_ok m → lease_ok (finishPendingLocked m k g t).
Proof. destruct (finish_same m k g t) as (? & ? & ? & ? & Ha). apply lease_ok_same; try done. lia. Qed.

Lemma removeLocked_ok m id : lease_ok m → lease_ok (removeLocked m id).
Proof. intros (? & ? & ?). split_and!; [by apply removeLocked_inv | by apply removeLocked_bounded | done]. Qed.

Lemma touch_ok m id : lease_ok m → id ∈ lm_lru m → lease_ok (touch m id).
Proof. intros (? & ? & ?) ?. split_and!; [by apply touch_inv | done..]. Qed.

Lemma enforce_ok m : lease_inv m → 0 < lm_maxEntries m → lease_ok (enforce_bound m).
Proof.
  intros Hi Hp. destruct (enforce_bound_inv m Hi) as [? ?]; [lia|].
  destruct (enforce_bound_same m) as (_ & _ & Hme & _). split_and!; [done..|]. lia.
Qed.

Lemma push_ok m l : lease_ok m → lease_ok (enforce_bound (push_lease m l)).
Proof. intros (? & ? & ?). apply enforce_ok; [by apply push_inv | done]. Qed.

Lemma update_ok m id l :
  lease_ok m → id ∈ lm_lru m → sl_Key l = sl_Key (lease_at m id) → lease_ok (update_lease m id l).
Proof. intros (? & ? & ?) ? ?. split_and!; [by apply update_inv | done..]. Qed.

(** ** Every operation keeps the leases in order *)

Lemma reserve_pending_ok m k : lease_ok m → lease_ok (reserve_pending m k).1.
Proof.
  intros Hok. unfold reserve_pending. destruct (lm_pending m !! k); (eapply lease_ok_same; [..|exact Hok]; try done); simpl; lia.
Qed.

Lemma Reserve_ok m k now : lease_ok m → lease_ok (Reserve m k now).1.
Proof.
  intros Hok. unfold Reserve. destruct (lm_leases m !! k) as [id|] eqn:Ek; [|by apply reserve_pending_ok].
  destruct (time_after _ _); [|by apply reserve_pending_ok, removeLocked_ok].
  apply touch_ok; [done|]. apply (lookup_in_lru m k); [apply Hok | done].
Qed.

Lemma CommitHandle_ok m r h svc mode ttl now : lease_ok m → lease_ok (CommitHandle m r h svc mode ttl now).1.
Proof.
  intros Hok. unfold CommitHandle. destruct (rv_done r); [done|]. destruct (_ || _); [done|]. simpl.
  by apply finish_ok, push_ok.
Qed.

Lemma Abort_ok m r : lease_ok m → lease_ok (Abort m r).
Proof. intros Hok. unfold Abort. destruct (rv_done r); [done|]. by apply finish_ok. Qed.

Lemma Clear_ok m : lease_ok m → lease_ok (Clear m).
Proof.
  intros (Hi & Hb & Hp). split_and!; [|unfold bounded; simpl; rewrite map_size_empty; lia | done].
  split; simpl; [constructor | intros id Hin; by apply elem_of_nil in Hin | intros k id Hk; by rewrite lookup_empty in Hk].
Qed.

Lemma restore_one_inv now m l :
  lease_inv m → 0 < lm_maxEntries m → lease_inv (restore_one now m l) ∧ same_pending m (restore_one now m l).
Proof.
  intros Hi Hp. unfold restore_one. destruct (negb _); [done|].
  destruct (lm_leases m !! sl_Key l) as [id|].
  - destruct (time_after _ _); [done|]. split; [by apply push_inv, removeLocked_inv|].
    transitivity (removeLocked m id); [done | apply push_same].
  - split; [by apply push_inv | apply push_same].
Qed.

Lemma restore_all_inv now leases m :
  lease_inv m → 0 < lm_maxEntries m → lease_inv (foldl (restore_one now) m leases) ∧ same_pending m (foldl (restore_one now) m leases).
Proof.
  revert m. induction leases as [|l leases IH]; intros m Hi Hp; simpl; [done|].
  destruct (restore_one_inv now m l Hi Hp) as [Hi' Hs]. destruct (IH (restore_one now m l) Hi') as [Hi'' Hs'].
  { destruct Hs as (_ & _ & -> & _). done. }
  split; [done | by etrans].
Qed.

Lemma retire_ok m h order :
  lease_ok m → lease_ok (RetireNodeHandle m h order) ∧ same_pending m (RetireNodeHandle m h order).
Proof.
  unfold RetireNodeHandle. revert m. induction order as [|[k id] order IH]; intros m Hok; simpl; [done|].
  destruct (same_handle _ _); [|by apply IH].
  destruct (IH (removeLocked m id) (removeLocked_ok m id Hok)) as [? ?]. split; [done|]. by transitivity (removeLocked m id).
Qed.

(** The operations that do not touch the reservations. *)
Inductive lease_op (m : SessionLeaseManager) : SessionLeaseManager → Prop :=
| op_Peek k now : lease_op m (Peek m k now).1
| op_Invalidate k expected : lease_op m (Invalidate m k expected)
| op_Replace k expected next svc mode ttl now : lease_op m (ReplaceHandle m k expected next svc mode ttl now).1
| op_Renew k expected ttl now : lease_op m (RenewHandle m k expected ttl now).1
| op_Retire h order : range_of (lm_leases m) order → lease_op m (RetireNodeHandle m h order)
| op_Restore leases now : lease_op m (RestorePersistence m leases now).

Lemma lease_op_ok m m' : lease_op m m' → lease_ok m → lease_ok m' ∧ same_pending m m'.
Proof.
  intros Hop Hok. assert (∀ k id, lm_leases m !! k = Some id → id ∈ lm_lru m) as Hin.
  { intros k id. apply lookup_in_lru, Hok. }
  destruct Hop as [k now|k expected|k expected next svc mode ttl now|k expected ttl now|h order _|leases now].
  - unfold Peek. destruct (lm_leases m !! k) as [id|] eqn:Ek; [|done].
    destruct (negb _); simpl; [split; [by apply removeLocked_ok|done] | split; [by apply touch_ok, (Hin k)|done]].
  - unfold Invalidate. destruct (lm_leases m !! k) as [id|]; [|done].
    destruct (_ || _); [|done]. split; [by apply removeLocked_ok|done].
  - unfold ReplaceHandle. destruct (lm_leases m !! k) as [id|] eqn:Ek.
    + destruct (_ && _); [done|]. split; [|done]. apply update_ok; [done | by apply (Hin k) | done].
    + destruct (negb _); [done|]. split; [by apply push_ok|].
      etrans; [apply push_same | apply enforce_bound_same].
  - unfold RenewHandle. destruct (lm_leases m !! k) as [id|] eqn:Ek; [|done].
    destruct (negb _); [done|]. split; [|done]. apply update_ok; [done | by apply (Hin k) | done].
  - by apply retire_ok.
  - destruct Hok as (Hi & Hb & Hp). destruct (restore_all_inv now leases m Hi Hp) as [Hi' Hs].
    unfold RestorePersistence. split; [apply enforce_ok; [done|]; destruct Hs as (_ & _ & -> & _); done|].
    etrans; [exact Hs | apply enforce_bound_same].
Qed.

(** ** The system: the manager and the reservations it handed out *)

Record system : Type := mkSystem { sys_m : SessionLeaseManager; sys_res : list LeaseReservation }.

Inductive step : system → system → Prop :=
| step_reserve m rs k now m' out :
    Reserve m k now = (m', out) →
    step (mkSystem m rs) (mkSystem m' (match out with Reserved r => rs ++ [r] | _ => rs end))
| step_commit m rs i r h svc mode ttl now :
    rs !! i = Some r →
    step (mkSystem m rs) (mkSystem (CommitHandle m r h svc mode ttl now).1 (<[i := finished r]> rs))
| step_abort m rs i r :
    rs !! i = Some r → step (mkSystem m rs) (mkSystem (Abort m r) (<[i := finished r]> rs))
| step_clear m rs : step (mkSystem m rs) (mkSystem (Clear m) rs)
| step_lease m m' rs : lease_op m m' → step (mkSystem m rs) (mkSystem m' rs).

(** [reachable max n s]: [n] operations after [NewSessionLeaseManager max]. *)
Inductive reachable (maxEntries : Z) : nat → system → Prop :=
| reach_new : reachable maxEntries 0 (mkSystem (NewSessionLeaseManager maxEntries) [])
| reach_step n s s' : reachable maxEntries n s → step s s' → reachable maxEntries (S n) s'.

(** [r] can still bind its session. *)
Definition committable (m : SessionLeaseManager) (r : LeaseReservation) : bool :=
  negb (rv_done r) && (rv_generation r =? lm_generation m)
  && pendingOwnedByLocked m (rv_key r) (rv_generation r) (rv_token r).

(** [r] is the unused reservation a pending record was made for. *)
Definition owns (r : LeaseReservation) (k : SessionKey) (p : pendingRecord) : Prop :=
  rv_key r = k ∧ rv_generation r = pr_generation p ∧ rv_token r = pr_token p ∧ rv_done r = false.

Definition pending_ok (s : system) : Prop :=
  ∀ k p, lm_pending (sys_m s) !! k = Some p →
    pr_generation p = lm_generation (sys_m s) ∧ (pr_wait p ∉ lm_closed (sys_m s)) ∧ pr_wait p < lm_alloc (sys_m s) ∧
    (∀ k' p', lm_pending (sys_m s) !! k' = Some p' → pr_wait p' = pr_wait p → k' = k) ∧
    ∃ i r, sys_res s !! i = Some r ∧ owns r k p.

Definition closed_ok (m : SessionLeaseManager) : Prop := ∀ c, c ∈ lm_closed m → c < lm_alloc m.

Definition waits_ok (s : system) : Prop := pending_ok s ∧ closed_ok (sys_m s).

Lemma waits_same m m' rs : same_pending m m' → waits_ok (mkSystem m rs) → waits_ok (mkSystem m' rs).
Proof.
  intros (Hp & Hc & _ & Hg & _ & Ha) [Hok Hcl]. split.
  - intros k p. simpl in *. rewrite Hp, Hc, Hg. intros Hk. destruct (Hok k p Hk) as (H1 & H2 & H3 & H4 & H5).
    split_and!; [done | done | simpl in *; lia | done | done].
  - intros c. simpl in *. rewrite Hc. intros Hin. specialize (Hcl c Hin). simpl in Hcl. lia.
Qed.

Lemma reserve_pending_waits m rs k m' out :
  waits_ok (mkSystem m rs) → reserve_pending m k = (m', out) →
  waits_ok (mkSystem m' (match out with Reserved r => rs ++ [r] | _ => rs end)).
Proof.
  intros [Hok Hcl]. unfold reserve_pending. destruct (lm_pending m !! k) as [p|] eqn:Ek; intros [= <- <-]; split; simpl; [| done | |].
  - intros k1 p1. simpl. intros [[<- <-]|[Hne Hk1]]%lookup_insert_Some; simpl.
    + destruct (Hok k p Ek) as (H1 & H2 & H3 & H4 & H5). split_and!; [done..| |done].
      intros k2 p2 [[<- <-]|[Hne2 Hk2]]%lookup_insert_Some; simpl; [done|]. by apply H4.
    + destruct (Hok k1 p1 Hk1) as (H1 & H2 & H3 & H4 & H5). split_and!; [done..| |done].
      intros k2 p2 [[<- <-]|[Hne2 Hk2]]%lookup_insert_Some; simpl; [by apply (H4 k p)|by apply H4].
  - intros k1 p1. simpl. intros [[<- <-]|[Hne Hk1]]%lookup_insert_Some; simpl.
    + split_and!; [done | intros Hin; specialize (Hcl _ Hin); simpl in Hcl; lia | lia | |].
      * intros k2 p2 [[<- <-]|[Hne2 Hk2]]%lookup_insert_Some; simpl; [done|].
        intros E. destruct (Hok k2 p2 Hk2) as (_ & _ & H3 & _). simpl in H3. lia.
      * eexists (length rs), _. split; [by apply list_lookup_middle|]. done.
    + destruct (Hok k1 p1 Hk1) as (H1 & H2 & H3 & H4 & i & r & Hi & Ho). simpl in H3. split_and!; [done | done | lia | |].
      * intros k2 p2 [[<- <-]|[Hne2 Hk2]]%lookup_insert_Some; simpl; [lia|by apply H4].
      * exists i, r. split; [|done]. by apply lookup_app_l_Some.
  - intros c Hin. simpl. specialize (Hcl c Hin). simpl in Hcl. lia.
Qed.

Lemma Reserve_waits m rs k now m' out :
  waits_ok (mkSystem m rs) → Reserve m k now = (m', out) →
  waits_ok (mkSystem m' (match out with Reserved r => rs ++ [r] | _ => rs end)).
Proof.
  intros Hok. unfold Reserve. destruct (lm_leases m !! k) as [id|]; [|by apply reserve_pending_waits].
  destruct (time_after _ _).
  - intros [= <- <-]. by apply (waits_same m).
  - apply reserve_pending_waits. by apply (waits_same m).
Qed.

(** A reservation that ends takes its pending record with it, if it owns one. *)
Lemma finish_waits m rs i r :
  rs !! i = Some r → waits_ok (mkSystem m rs) →
  waits_ok (mkSystem (finishPendingLocked m (rv_key r) (rv_generation r) (rv_token r)) (<[i := finished r]> rs)).
Proof.
  intros Hi [Hok Hcl]. unfold finishPendingLocked.
  assert (∀ k p, lm_pending m !! k = Some p → ¬ owns r k p →
    ∃ i' r', <[i := finished r]> rs !! i' = Some r' ∧ owns r' k p) as Hother.
  { intros k p Hk Hno. destruct (Hok k p Hk) as (_ & _ & _ & _ & i' & r' & Hi' & Ho).
    exists i', r'. split; [|done]. rewrite list_lookup_insert_ne; [done|]. intros ->. simpl in Hi'. rewrite Hi in Hi'. by simplify_eq. }
  assert ((∀ k p, lm_pending m !! k = Some p → ¬ owns r k p) → waits_ok (mkSystem m (<[i := finished r]> rs))) as Hnone.
  { intros Hno. split; [|done]. intros k p Hk. destruct (Hok k p Hk) as (H1 & H2 & H3 & H4 & _).
    split_and!; [done..|]. by apply Hother, Hno. }
  destruct (lm_pending m !! rv_key r) as [p0|] eqn:E0.
  2: { apply Hnone. intros k p Hk (<- & _). congruence. }
  destruct ((_ =? _) && _) eqn:Eb.
  - split; simpl.
    + intros k p. simpl. intros [Hne Hk]%lookup_delete_Some. destruct (Hok k p Hk) as (H1 & H2 & H3 & H4 & _).
      split_and!; [done | | done | |].
      * intros [E%elem_of_singleton|?]%elem_of_union; [|done]. apply Hne. by apply (H4 (rv_key r) p0).
      * intros k' p' [_ Hk']%lookup_delete_Some. by apply H4.
      * apply Hother; [done|]. by intros (? & _).
    + intros c. simpl. intros [->%elem_of_singleton|Hin]%elem_of_union; [|by apply Hcl].
      by destruct (Hok _ _ E0) as (_ & _ & ? & _).
  - apply Hnone. intros k p Hk (<- & Hg & Ht & _). rewrite E0 in Hk. injection Hk as <-.
    rewrite Hg, Ht, !Z.eqb_refl in Eb. done.
Qed.

(** One that ends without owning anything changes nothing. *)
Lemma unowned_waits m rs i r :
  rs !! i = Some r → rv_done r = true ∨ committable m r = false → waits_ok (mkSystem m rs) →
  waits_ok (mkSystem m (<[i := finished r]> rs)).
Proof.
  intros Hi Hno [Hok Hcl]. split; [|done]. intros k p Hk.
  destruct (Hok k p Hk) as (H1 & H2 & H3 & H4 & i' & r' & Hi' & Ho). split_and!; [done..|].
  exists i', r'. simpl in *. split; [|done]. rewrite list_lookup_insert_ne; [done|]. intros ->. rewrite Hi in Hi'. injection Hi' as <-.
  destruct Ho as (Hk' & Hg & Ht & Hd). destruct Hno as [?|Hno]; [congruence|].
  unfold committable, pendingOwnedByLocked in Hno. rewrite Hk', Hk, Hd, Hg, Ht, H1, !Z.eqb_refl in Hno. done.
Qed.

Lemma Commit_cases m r h svc mode ttl now :
  (committable m r = false ∧ CommitHandle m r h svc mode ttl now = (m, zero_lease)) ∨
  (committable m r = true ∧
   let lease := mkLease (rv_key r) (nh_NodeID h) (nh_Slot h) (nh_Version h) svc mode (now + lease_ttl ttl) now in
   CommitHandle m r h svc mode ttl now =
     (finishPendingLocked (enforce_bound (push_lease m lease)) (rv_key r) (rv_generation r) (rv_token r), lease)).
Proof.
  unfold CommitHandle, committable. destruct (rv_done r); [by left|]. cbn [negb andb].
  destruct (rv_generation r =? lm_generation m); [|by left]. cbn [negb orb andb].
  destruct (pendingOwnedByLocked _ _ _ _); [by right | by left].
Qed.

Lemma step_ok s s' : step s s' → lease_ok (sys_m s) ∧ waits_ok s → lease_ok (sys_m s') ∧ waits_ok s'.
Proof.
  intros Hst [Hok Hw]. destruct Hst as [m rs k now m' out HR|m rs i r h svc mode ttl now Hi|m rs i r Hi|m rs|m m' rs Hop]; simpl in *.
  - split; [|by eapply Reserve_waits]. pose proof (Reserve_ok m k now Hok) as H. by rewrite HR in H.
  - split; [by apply CommitHandle_ok|].
    destruct (Commit_cases m r h svc mode ttl now) as [[Hc ->]|[Hc ->]]; simpl; [apply unowned_waits; auto|].
    apply finish_waits; [done|]. eapply waits_same; [|exact Hw]. etrans; [apply push_same | apply enforce_bound_same].
  - split; [by apply Abort_ok|]. unfold Abort. destruct (rv_done r) eqn:Ed; [apply unowned_waits; auto|].
    by apply finish_waits.
  - split; [by apply Clear_ok|]. destruct Hw as [Hok' Hcl]. split.
    + intros k p Hk. simpl in Hk. by rewrite lookup_empty in Hk.
    + intros c. simpl. intros [Hin|Hin]%elem_of_union; [|by apply Hcl].
      apply elem_of_list_to_set, list_elem_of_fmap in Hin as (p & -> & Hp).
      apply list_elem_of_fmap in Hp as ([k p'] & -> & Hp%elem_of_map_to_list). by destruct (Hok' _ _ Hp) as (_ & _ & ? & _).
  - destruct (lease_op_ok m m' Hop Hok) as [? ?]. split; [done|]. by eapply waits_same.
Qed.

Lemma reachable_ok maxEntries n s : reachable maxEntries n s → lease_ok (sys_m s) ∧ waits_ok s.
Proof.
  induction 1 as [|n s s' _ IH Hst]; [|by eapply step_ok]. split; simpl.
  - split_and!; [split; simpl; [constructor | intros id Hin; by apply elem_of_nil in Hin | intros k id Hk; by rewrite lookup_empty in Hk] | |].
    + unfold bounded. simpl. rewrite map_size_empty. destruct (Z.leb_spec maxEntries 0); lia.
    + simpl. destruct (Z.leb_spec maxEntries 0); lia.
  - split; [intros k p Hk; simpl in Hk; by rewrite lookup_empty in Hk | intros c Hc; simpl in Hc; set_solver].
Qed.

(** ** Tokens *)

(** After [n] operations at most [n] tokens were issued, all different. *)
Definition tokens_ok (n : nat) (s : system) : Prop :=
  0 ≤ lm_nextToken (sys_m s) ≤ Z.of_nat n ∧ NoDup (rv_token <$> sys_res s) ∧
  (∀ i r, sys_res s !! i = Some r → rv_token r ≤ lm_nextToken (sys_m s)).

Lemma reserve_pending_tokens n m rs k m' out :
  Z.of_nat (S n) < 2 ^ 64 → tokens_ok n (mkSystem m rs) → reserve_pending m k = (m', out) →
  tokens_ok (S n) (mkSystem m' (match out with Reserved r => rs ++ [r] | _ => rs end)).
Proof.
  intros Hn (Hb & Hnd & Hle). simpl in *. unfold reserve_pending. destruct (lm_pending m !! k); intros [= <- <-].
  - split_and!; simpl; [lia.. | done | done].
  - assert (u64 (lm_nextToken m + 1) = lm_nextToken m + 1) as Hu by (apply u64_id; unfold fits; lia).
    split_and!; simpl; rewrite ?Hu; [lia.. | |].
    + rewrite fmap_app. apply list.NoDup_app. split_and!; [done | | apply NoDup_singleton].
      intros t (r & -> & Hr)%list_elem_of_fmap Ht%list_elem_of_singleton. simpl in Ht.
      apply list_elem_of_lookup in Hr as [j Hj]. specialize (Hle j r Hj). lia.
    + intros i r Hi. apply lookup_snoc_Some in Hi as [[_ Hi]|[_ <-]]; [specialize (Hle i r Hi); lia | done].
Qed.

Lemma Reserve_tokens n m rs k now m' out :
  Z.of_nat (S n) < 2 ^ 64 → tokens_ok n (mkSystem m rs) → Reserve m k now = (m', out) →
  tokens_ok (S n) (mkSystem m' (match out with Reserved r => rs ++ [r] | _ => rs end)).
Proof.
  intros Hn Ht. unfold Reserve. destruct (lm_leases m !! k) as [id|]; [|by apply reserve_pending_tokens].
  destruct (time_after _ _).
  - intros [= <- <-]. destruct Ht as (? & ? & ?). split_and!; simpl in *; [lia.. | done | done].
  - apply (reserve_pending_tokens n (removeLocked m id)); [done|]. exact Ht.
Qed.

Lemma finish_tokens n m m' rs i r :
  rs !! i = Some r → lm_nextToken m' = lm_nextToken m → tokens_ok n (mkSystem m rs) →
  tokens_ok (S n) (mkSystem m' (<[i := finished r]> rs)).
Proof.
  intros Hi Hm (Hb & Hnd & Hle). simpl in *. split_and!; simpl; rewrite ?Hm; [lia.. | |].
  - rewrite list_fmap_insert. simpl. rewrite list_insert_id; [done|]. by rewrite list_lookup_fmap, Hi.
  - intros j r' [(<- & <- & _)|[_ Hj]]%list_lookup_insert_Some; simpl; [by apply (Hle i)|by apply (Hle j)].
Qed.

Lemma finish_nextToken m k g t : lm_nextToken (finishPendingLocked m k g t) = lm_nextToken m.
Proof. unfold finishPendingLocked. destruct (lm_pending m !! k) as [p|]; [|done]. by destruct (_ && _). Qed.

Lemma step_tokens n s s' :
  Z.of_nat (S n) < 2 ^ 64 → step s s' → lease_ok (sys_m s) → tokens_ok n s → tokens_ok (S n) s'.
Proof.
  intros Hn Hst Hok Ht. destruct Hst as [m rs k now m' out HR|m rs i r h svc mode ttl now Hi|m rs i r Hi|m rs|m m' rs Hop].
  - by eapply Reserve_tokens.
  - eapply finish_tokens; [done| |exact Ht].
    destruct (Commit_cases m r h svc mode ttl now) as [[Hc ->]|[Hc ->]]; simpl; [done|].
    rewrite finish_nextToken. destruct (enforce_bound_same (push_lease m (mkLease (rv_key r) (nh_NodeID h) (nh_Slot h) (nh_Version h) svc mode (now + lease_ttl ttl) now))) as (_ & _ & _ & _ & -> & _). done.
  - eapply finish_tokens; [done| |exact Ht]. unfold Abort. destruct (rv_done r); [done | apply finish_nextToken].
  - destruct Ht as (? & ? & ?). split_and!; simpl in *; [lia.. | done | done].
  - destruct (lease_op_ok m m' Hop Hok) as [_ (_ & _ & _ & _ & Hnt & _)]. destruct Ht as (? & ? & ?).
    split_and!; simpl in *; rewrite ?Hnt; [lia.. | done | done].
Qed.

Lemma reachable_tokens maxEntries n s : reachable maxEntries n s → Z.of_nat n < 2 ^ 64 → tokens_ok n s.
Proof.
  induction 1 as [|n s s' Hr IH Hst]; intros Hn; [split_and!; simpl; [done.. | constructor | done]|].
  eapply step_tokens; [done.. | by apply (reachable_ok maxEntries n) | apply IH; lia].
Qed.

(** ** A committed lease is found again *)

(** Every listed record is the one its key maps to. *)
Definition clean (m : SessionLeaseManager) : Prop :=
  ∀ id, id ∈ lm_lru m → lm_leases m !! sl_Key (lease_at m id) = Some id.

(** The lease of [k] is mapped and at the front. *)
Definition at_front (m : SessionLeaseManager) (k : SessionKey) (id : Z) : Prop :=
  ∃ l, lm_lru m = id :: l ∧ lm_leases m !! k = Some id.

Lemma removeOldest_keeps m k id :
  lease_inv m → clean m → at_front m k id → 1 < Z.of_nat (size (lm_leases m)) →
  clean (removeOldestLocked m) ∧ at_front (removeOldestLocked m) k id ∧ lease_at (removeOldestLocked m) id = lease_at m id.
Proof.
  intros Hi Hc (l & El & Hk) Hsz. pose proof (size_leases_le m Hi) as Hlen. rewrite El in Hlen. simpl in Hlen.
  unfold removeOldestLocked. destruct (last (lm_lru m)) as [o|] eqn:Elast.
  2: { apply last_None in Elast. by rewrite El in Elast. }
  assert (o ∈ lm_lru m) as Ho by (apply last_Some in Elast as [l' ->]; set_solver).
  assert (o ≠ id) as Hne.
  { intros ->. rewrite El in Elast. destruct l as [|x l]; [simpl in Hlen; lia|].
    pose proof (li_nodup _ Hi) as Hn. rewrite El in Hn. apply NoDup_cons in Hn as [Hn _]. apply Hn.
    change (last (x :: l) = Some id) in Elast. apply last_Some in Elast as [l' ->]. set_solver. }
  split_and!.
  - intros x Hx. simpl in Hx. apply elem_of_lru_remove in Hx as [Hxo Hx]. simpl.
    pose proof (Hc x Hx) as Hcx. rewrite lookup_delete_ne; [done|]. intros E. pose proof (Hc o Ho) as Hco.
    rewrite E in Hco. unfold lease_at in *. simpl in *. rewrite Hcx in Hco. by simplify_eq.
  - exists (lru_remove o l). simpl. rewrite El. split; [unfold lru_remove; by rewrite filter_cons_True by done|].
    rewrite lookup_delete_ne; [done|]. intros E. pose proof (Hc o Ho) as Hco. rewrite E, Hk in Hco. by simplify_eq.
  - done.
Qed.

Lemma evict_keeps fuel m k id :
  lease_inv m → clean m → at_front m k id → 1 ≤ lm_maxEntries m →
  lm_leases (evict fuel m) !! k = Some id ∧ lease_at (evict fuel m) id = lease_at m id.
Proof.
  revert m. induction fuel as [|fuel IH]; intros m Hi Hc Hf Hm; simpl.
  - destruct Hf as (l & _ & ?). done.
  - destruct (Z.ltb_spec (lm_maxEntries m) (Z.of_nat (size (lm_leases m)))); [|by destruct Hf as (l & _ & ?)].
    destruct (removeOldest_keeps m k id Hi Hc Hf) as (Hc' & Hf' & <-); [lia|].
    apply IH; [by apply removeOldest_inv | done | done |]. destruct (removeOldest_same m) as (_ & _ & -> & _). done.
Qed.

Lemma push_clean m l : lease_inv m → clean m → lm_leases m !! sl_Key l = None → clean (push_lease m l).
Proof.
  intros Hi Hc Hnone id. simpl. intros [->|Hid]%elem_of_cons.
  - unfold lease_at. simpl. by rewrite !lookup_insert_eq.
  - pose proof (li_alloc _ Hi id Hid) as Ha. pose proof (Hc id Hid) as Hk.
    unfold lease_at in *. simpl. rewrite (lookup_insert_ne (lm_heap m)) by lia.
    rewrite lookup_insert_ne; [done|]. intros E. rewrite E in Hnone. congruence.
Qed.

(** ** Properties *)

(** C11. Whatever the sequence of operations, the lease table is consistent and bounded: every
    session maps to an allocated record that carries its key and is in the LRU
    list exactly once, and no more than [maxEntries] sessions are bound.  The
    eviction loop always ends with the bound established. *)
Theorem lease_table_consistent maxEntries n s :
  reachable maxEntries n s →
  NoDup (lm_lru (sys_m s)) ∧ Z.of_nat (size (lm_leases (sys_m s))) ≤ lm_maxEntries (sys_m s) ∧
  ∀ k id, lm_leases (sys_m s) !! k = Some id →
    id ∈ lm_lru (sys_m s) ∧ sl_Key (lease_at (sys_m s) id) = k ∧ id < lm_alloc (sys_m s).
Proof.
  intros Hr. destruct (reachable_ok _ _ _ Hr) as [(Hi & Hb & _) _]. destruct Hi as [Hn Ha Hm]. split_and!; [done | done |].
  intros k id Hk. destruct (Hm k id Hk) as [Hin Hkey]. split_and!; [done | done | by apply Ha].
Qed.

(** C9. A session has a single leader: of two reservations handed out for the same session, at most
    one can still commit. *)
Theorem single_leader maxEntries n s i j r r' :
  reachable maxEntries n s → Z.of_nat n < 2 ^ 64 →
  sys_res s !! i = Some r → sys_res s !! j = Some r' → i ≠ j → rv_key r = rv_key r' →
  committable (sys_m s) r && committable (sys_m s) r' = false.
Proof.
  intros Hr Hn Hi Hj Hij Hkey. destruct (reachable_tokens _ _ _ Hr Hn) as (_ & Hnd & _).
  apply not_true_iff_false. intros [H1 H2]%andb_true_iff. apply Hij.
  unfold committable, pendingOwnedByLocked in H1, H2. rewrite <- Hkey in H2.
  destruct (lm_pending (sys_m s) !! rv_key r) as [p|]; [|by rewrite andb_false_r in H1].
  boolprop. eapply (NoDup_lookup (rv_token <$> sys_res s)); [done|..]; rewrite list_lookup_fmap.
  - by rewrite Hi.
  - rewrite Hj. simpl. f_equal. congruence.
Qed.

(** C10. No waiter is lost: the channel of a pending session is still open, an unused reservation
    owns it, and that reservation closes it however it ends, by commit or by
    abort; clearing the table closes it too and revokes every reservation. *)
Theorem waiters_released maxEntries n s k p :
  reachable maxEntries n s → lm_pending (sys_m s) !! k = Some p →
  (pr_wait p ∉ lm_closed (sys_m s)) ∧
  (∃ i r, sys_res s !! i = Some r ∧ owns r k p ∧
     pr_wait p ∈ lm_closed (Abort (sys_m s) r) ∧
     ∀ h svc mode ttl now, pr_wait p ∈ lm_closed (CommitHandle (sys_m s) r h svc mode ttl now).1) ∧
  pr_wait p ∈ lm_closed (Clear (sys_m s)) ∧
  (∀ r, committable (Clear (sys_m s)) r = false).
Proof.
  intros Hr Hk. destruct (reachable_ok _ _ _ Hr) as [_ [Hp _]]. destruct (Hp k p Hk) as (Hg & Hc & _ & _ & i & r & Hi & Ho).
  assert (∀ m, lm_pending m = lm_pending (sys_m s) →
    pr_wait p ∈ lm_closed (finishPendingLocked m (rv_key r) (rv_generation r) (rv_token r))) as Hfin.
  { intros m Hm. destruct Ho as (Ek & Eg & Et & _). unfold finishPendingLocked. rewrite Hm, Ek, Hk, Eg, Et, !Z.eqb_refl. simpl. set_solver. }
  split; [done|]. split.
  - exists i, r. split_and!; [done | done | |].
    + unfold Abort. destruct Ho as (_ & _ & _ & ->). by apply Hfin.
    + intros h svc mode ttl now. destruct (Commit_cases (sys_m s) r h svc mode ttl now) as [[Hno _]|[_ ->]].
      * destruct Ho as (Ek & Eg & Et & Ed). unfold committable, pendingOwnedByLocked in Hno.
        rewrite Ek, Hk, Ed, Eg, Et, Hg, !Z.eqb_refl in Hno. done.
      * apply Hfin. match goal with |- lm_pending (enforce_bound ?x) = _ => destruct (enforce_bound_same x) as (-> & _) end. done.
  - split.
    + apply elem_of_union_l, elem_of_list_to_set, list_elem_of_fmap. exists p. split; [done|].
      apply list_elem_of_fmap. exists (k, p). split; [done|]. by apply elem_of_map_to_list.
    + intros r'. unfold committable, pendingOwnedByLocked. simpl. by rewrite lookup_empty, andb_false_r.
Qed.

(** A reservation that commits binds its session: until the lease expires, a lookup returns
    exactly the committed lease, even when the commit had to evict others. *)
Theorem commit_then_peek m r h svc mode ttl now now' :
  lease_inv m → clean m → 1 ≤ lm_maxEntries m → lm_leases m !! rv_key r = None →
  committable m r = true → now' < now + lease_ttl ttl →
  let '(m', lease) := CommitHandle m r h svc mode ttl now in
  (Peek m' (rv_key r) now').2 = Some lease ∧ sl_NodeID lease = nh_NodeID h ∧ sl_ExpiresAt lease = now + lease_ttl ttl.
Proof.
  intros Hi Hc Hm Hnone Hcom Hnow. destruct (Commit_cases m r h svc mode ttl now) as [[Hno _]|[_ ->]]; [congruence|].
  set (lease := mkLease (rv_key r) (nh_NodeID h) (nh_Slot h) (nh_Version h) svc mode (now + lease_ttl ttl) now).
  destruct (evict_keeps (length (lm_lru (push_lease m lease))) (push_lease m lease) (rv_key r) (lm_alloc m)) as [Hk Hl].
  { by apply push_inv. } { by apply push_clean. }
  { exists (lm_lru m). split; [done|]. simpl. by rewrite lookup_insert_eq. } { done. }
  fold (enforce_bound (push_lease m lease)) in Hk, Hl.
  destruct (finish_same (enforce_bound (push_lease m lease)) (rv_key r) (rv_generation r) (rv_token r)) as (Eh & El & _).
  split; [|done]. unfold Peek. rewrite El, Hk. unfold lease_at in *. rewrite Eh, Hl. simpl. rewrite lookup_insert_eq. simpl.
  unfold time_after. by rewrite bool_decide_true.
Qed.

(** ** Concrete runs *)

Definition sample_handle : NodeHandle := mkHandle 9 3 4 1.

(** Reserve a session and commit it at time [now]. *)
Definition bind_session (m : SessionLeaseManager) (k now : Z) : SessionLeaseManager :=
  match Reserve m k now with
  | (m, Reserved r) => (CommitHandle m r sample_handle "svc" "adaptive" 1000 now).1
  | (m, _) => m
  end.

(** Session 1 is reserved, restored from persistence before the reservation
    commits, and then committed. *)
Definition restored_while_reserved : SessionLeaseManager :=
  match Reserve (NewSessionLeaseManager 2) 1 100 with
  | (m, Reserved r) =>
      (CommitHandle (RestorePersistence m [mkLease 1 9 3 4 "svc" "adaptive" 5000 50] 100) r sample_handle "svc" "adaptive" 1000 100).1
  | (m, _) => m
  end.

(** A commit over a lease that appeared meanwhile leaves the old record in the LRU list; when that
    record is evicted the live lease of the session goes with it, although it was
    used last and another session is older. *)
Theorem commit_over_lease_evicts_live_session :
  let m := bind_session restored_while_reserved 2 110 in
  let '(m, found) := Peek m 1 120 in
  let m := bind_session m 3 130 in
  found = Some (mkLease 1 9 3 4 "svc" "adaptive" 1100 100) ∧
  lm_leases m !! 1 = None ∧ is_Some (lm_leases m !! 2) ∧ is_Some (lm_leases m !! 3).
Proof. vm_compute. split_and!; try reflexivity; by eexists. Qed.

(** ** Witnesses *)

(** A system with one open reservation of session 7. *)
Definition reserved_system : system :=
  mkSystem (Reserve (NewSessionLeaseManager 4) 7 100).1 [mkReservation 7 0 1 false].

Lemma reserved_reachable : reachable 4 1 reserved_system.
Proof.
  eapply reach_step; [constructor|].
  apply (step_reserve (NewSessionLeaseManager 4) [] 7 100 _ (Reserved (mkReservation 7 0 1 false))). reflexivity.
Qed.

(** A second reservation of the session after the table was cleared. *)
Definition rereserved_system : system :=
  mkSystem (Reserve (Clear (sys_m reserved_system)) 7 110).1 [mkReservation 7 0 1 false; mkReservation 7 1 2 false].

Lemma rereserved_reachable : reachable 4 3 rereserved_system.
Proof.
  eapply reach_step; [eapply reach_step; [exact reserved_reachable | apply step_clear]|].
  apply (step_reserve (Clear (sys_m reserved_system)) [mkReservation 7 0 1 false] 7 110 _ (Reserved (mkReservation 7 1 2 false))).
  reflexivity.
Qed.

Lemma lease_table_consistent_witness :
  NoDup (lm_lru (sys_m reserved_system)) ∧
  Z.of_nat (size (lm_leases (sys_m reserved_system))) ≤ lm_maxEntries (sys_m reserved_system).
Proof.
  destruct (lease_table_consistent 4 1 reserved_system reserved_reachable) as (H1 & H2 & _). exact (conj H1 H2).
Defined.

Lemma single_leader_witness :
  committable (sys_m rereserved_system) (mkReservation 7 0 1 false)
  && committable (sys_m rereserved_system) (mkReservation 7 1 2 false) = false.
Proof.
  apply (single_leader 4 3 rereserved_system 0 1); [exact rereserved_reachable | lia | reflexivity | reflexivity | lia | reflexivity].
Defined.

Lemma waiters_released_witness : 0 ∈ lm_closed (Clear (sys_m reserved_system)).
Proof.
  destruct (waiters_released 4 1 reserved_system 7 (mkPending 0 1 0 0) reserved_reachable eq_refl) as (_ & _ & H & _).
  exact H.
Defined.

Lemma commit_then_peek_witness :
  let '(m', lease) := CommitHandle (sys_m reserved_system) (mkReservation 7 0 1 false) sample_handle "svc" "adaptive" 1000 200 in
  (Peek m' 7 300).2 = Some lease ∧ sl_NodeID lease = 9 ∧ sl_ExpiresAt lease = 1200.
Proof.
  apply (commit_then_peek (sys_m reserved_system) (mkReservation 7 0 1 false) sample_handle "svc" "adaptive" 1000 200 300).
  - apply (reachable_ok 4 1 reserved_system reserved_reachable).
  - intros id Hid. by apply elem_of_nil in Hid.
  - vm_compute. discriminate.
  - reflexivity.
  - reflexivity.
  - reflexivity.
Defined.
