(* ===== verification/AdaptiveHealth.v ===== *)
(** * Node health and circuit breakers of the adaptive pool

    [src/protocol/group/adaptive/health.go]: the ledger of health records, one
    per node handle and failure domain, with a circuit breaker in each; attempt
    permits that own half-open tokens; passive, active and quality observations.
    [node_capability.go]: the read-only capability view, and the transport path
    vocabulary of [resolver.go].

    A record is inserted under its key once and leaves the map and the LRU list
    together, so the model keeps the records in the map and the keys in the
    list.  Evidence weights and throughput are floating point and do not take
    part in the state machine: a weight is a rational, throughput is left out.
    The random jitter of a backoff is the function [jitter] of each call. *)

From Stdlib Require Import ZArith Lia QArith.
From S2P Require Import Prelude AdaptiveLease.
From stdpp Require Import base gmap list strings numbers sorting.

#[local] Set Warnings "-clear-no-such-hyp".

Local Open Scope Z_scope.

(** ** Vocabulary *)

Inductive FailureDomain : Type := DomainEndpoint | DomainTransport | DomainService.
Inductive ObservationOutcome : Type := OutcomeSuccess | OutcomeFailure | OutcomeBlocked | OutcomeDeferred.
(** [BreakerNone] is the empty string of a record that was never written. *)
Inductive BreakerState : Type := BreakerNone | BreakerUnknown | BreakerClosed | BreakerOpen | BreakerCooldown | BreakerHalfOpen.
Inductive HealthState : Type := HealthNone | HealthUnknown | HealthHealthy | HealthDegraded | HealthUnreachable.

#[global] Instance FailureDomain_eq_dec : EqDecision FailureDomain.
Proof. solve_decision. Defined.
#[global] Instance ObservationOutcome_eq_dec : EqDecision ObservationOutcome.
Proof. solve_decision. Defined.
#[global] Instance BreakerState_eq_dec : EqDecision BreakerState.
Proof. solve_decision. Defined.
#[global] Instance HealthState_eq_dec : EqDecision HealthState.
Proof. solve_decision. Defined.

#[global] Instance FailureDomain_countable : Countable FailureDomain.
Proof.
  refine (inj_countable' (λ d, match d with DomainEndpoint => 0 | DomainTransport => 1 | DomainService => 2 end)
    (λ n, if n =? 0 then DomainEndpoint else if n =? 1 then DomainTransport else DomainService) _).
  by intros [].
Defined.

Record healthKey : Type := mkHealthKey {
  hk_nodeID : NodeID;
  hk_nodeSlot : Z;
  hk_nodeVersion : Z;
  hk_domain : FailureDomain;
  hk_transport : string;
  hk_service : string }.

#[global] Instance healthKey_eq_dec : EqDecision healthKey.
Proof. solve_decision. Defined.
#[global] Instance healthKey_countable : Countable healthKey.
Proof.
  refine (inj_countable' (λ k, (hk_nodeID k, hk_nodeSlot k, hk_nodeVersion k, hk_domain k, hk_transport k, hk_service k))
    (λ '(a, b, c, d, e, f), mkHealthKey a b c d e f) _).
  by intros [].
Defined.

Record HealthStatus : Type := mkStatus {
  st_Health : HealthState;
  st_Breaker : BreakerState;
  st_LastUpdated : Z;
  st_LastDelay : Z;
  st_SmoothedDelay : Z;
  st_DelaySamples : Z;
  st_Successes : Z;
  st_Failures : Z;
  st_NonBreakerSuccesses : Z;
  st_NonBreakerFailures : Z;
  st_ConsecutiveFailures : Z;
  st_RecoverySuccesses : Z;
  st_CooldownUntil : Z;
  st_Backoff : Z;
  st_HalfOpen : bool;
  st_Reason : string }.

Definition healthDelayRingSize : nat := 10.

Record healthRecord : Type := mkRecord {
  hr_status : HealthStatus;
  hr_consecutiveFailure : Z;
  hr_reopenCount : Z;
  hr_recoverySuccesses : Z;
  hr_openUntil : Z;
  hr_halfOpenToken : Z;
  hr_version : Z;
  hr_delaySamples : list Z;
  hr_delayCount : nat;
  hr_delayNext : nat }.

Definition zero_status : HealthStatus := mkStatus HealthNone BreakerNone 0 0 0 0 0 0 0 0 0 0 0 0 false "".
Definition new_record : healthRecord := mkRecord zero_status 0 0 0 0 0 0 (replicate healthDelayRingSize 0) 0 0.

Record BreakerConfig : Type := mkBreakerConfig {
  bc_FailureThreshold : Z;
  bc_BaseCooldown : Z;
  bc_MaxCooldown : Z }.

Definition defaultBreakerConfig : BreakerConfig := mkBreakerConfig 3 (5 * second) (5 * minute).

Record HealthStore : Type := mkStore {
  hs_entries : gmap healthKey healthRecord;
  hs_lru : list healthKey;
  hs_retention : Z;
  hs_maxEntries : Z;
  hs_evictions : Z;
  hs_breaker : BreakerConfig;
  hs_nextToken : Z }.

Definition with_entries (s : HealthStore) (entries : gmap healthKey healthRecord) (lru : list healthKey) : HealthStore :=
  mkStore entries lru (hs_retention s) (hs_maxEntries s) (hs_evictions s) (hs_breaker s) (hs_nextToken s).

(** The jitter settings are not part of the state. *)
Definition NewHealthStoreWithClock (retention maxEntries : Z) (breaker : BreakerConfig) : HealthStore :=
  let base := if bc_BaseCooldown breaker <=? 0 then bc_BaseCooldown defaultBreakerConfig else bc_BaseCooldown breaker in
  mkStore ∅ []
    (if retention <=? 0 then 7 * 24 * hour else retention)
    (if maxEntries <=? 0 then 4096 else maxEntries) 0
    (mkBreakerConfig
       (if bc_FailureThreshold breaker <=? 0 then bc_FailureThreshold defaultBreakerConfig else bc_FailureThreshold breaker)
       base
       (if bc_MaxCooldown breaker <? base then bc_MaxCooldown defaultBreakerConfig else bc_MaxCooldown breaker))
    0.
Definition NewHealthStore (retention maxEntries : Z) : HealthStore := NewHealthStoreWithClock retention maxEntries defaultBreakerConfig.

(** ** The delay ring *)

#[global] Instance Zle_decision : RelDecision Z.le := Z.le_dec.

Definition medianHealthDelay (samples : list Z) : Z :=
  let ordered := merge_sort Z.le samples in
  let mid := (length ordered / 2)%nat in
  match samples with
  | [] => 0
  | _ =>
      if Nat.eqb (length ordered mod 2)%nat 1 then nth mid ordered 0
      else Z.quot (i64 (nth (mid - 1) ordered 0 + nth mid ordered 0)) 2
  end.

(** The status with the fields a delay sample writes. *)
Definition status_with_delay (st : HealthStatus) (delay smoothed samples : Z) : HealthStatus :=
  mkStatus (st_Health st) (st_Breaker st) (st_LastUpdated st) delay smoothed samples (st_Successes st) (st_Failures st)
    (st_NonBreakerSuccesses st) (st_NonBreakerFailures st) (st_ConsecutiveFailures st) (st_RecoverySuccesses st)
    (st_CooldownUntil st) (st_Backoff st) (st_HalfOpen st) (st_Reason st).

Definition recordHealthDelay (r : healthRecord) (delay : Z) : healthRecord :=
  if delay <=? 0 then r
  else
    let samples := <[hr_delayNext r := delay]> (hr_delaySamples r) in
    let count := if (hr_delayCount r <? healthDelayRingSize)%nat then S (hr_delayCount r) else hr_delayCount r in
    mkRecord (status_with_delay (hr_status r) delay (medianHealthDelay (take count samples)) (Z.of_nat count))
      (hr_consecutiveFailure r) (hr_reopenCount r) (hr_recoverySuccesses r) (hr_openUntil r) (hr_halfOpenToken r) (hr_version r)
      samples count ((hr_delayNext r + 1) mod healthDelayRingSize)%nat.

Definition RankingDelay (st : HealthStatus) : Z := if 0 <? st_SmoothedDelay st then st_SmoothedDelay st else st_LastDelay st.

(** ** The ledger *)

Definition removeKey (s : HealthStore) (k : healthKey) : HealthStore :=
  mkStore (delete k (hs_entries s)) (filter (λ x, x ≠ k) (hs_lru s)) (hs_retention s) (hs_maxEntries s)
    (u64 (hs_evictions s + 1)) (hs_breaker s) (hs_nextToken s).

(** [pruneExpiredLocked]: from the back, up to the first record that is not
    expired.  [keys] is the list from the back. *)
Fixpoint prune_from (now : Z) (keys : list healthKey) (s : HealthStore) : HealthStore :=
  match keys with
  | [] => s
  | k :: keys =>
      let updated := match hs_entries s !! k with Some r => st_LastUpdated (hr_status r) | None => 0 end in
      if time_sub now updated <=? hs_retention s then s else prune_from now keys (removeKey s k)
  end.
Definition pruneExpiredLocked (s : HealthStore) (now : Z) : HealthStore := prune_from now (reverse (hs_lru s)) s.

Definition hs_removeOldestLocked (s : HealthStore) : HealthStore :=
  match last (hs_lru s) with None => s | Some k => removeKey s k end.
Fixpoint hs_evict (fuel : nat) (s : HealthStore) : HealthStore :=
  match fuel with
  | O => s
  | S fuel => if hs_maxEntries s <? Z.of_nat (size (hs_entries s)) then hs_evict fuel (hs_removeOldestLocked s) else s
  end.
Definition hs_enforce_bound (s : HealthStore) : HealthStore := hs_evict (length (hs_lru s)) s.

(** The record of [k], created or moved to the front. *)
Definition hs_touch (s : HealthStore) (k : healthKey) (fresh : healthRecord) : healthRecord * HealthStore :=
  match hs_entries s !! k with
  | Some r => (r, with_entries s (hs_entries s) (k :: filter (λ x, x ≠ k) (hs_lru s)))
  | None => (fresh, with_entries s (<[k := fresh]> (hs_entries s)) (k :: hs_lru s))
  end.
Definition hs_write (s : HealthStore) (k : healthKey) (r : healthRecord) : HealthStore :=
  with_entries s (<[k := r]> (hs_entries s)) (hs_lru s).

(** Status updates, named after the fields they write. *)
Definition st_stamp (st : HealthStatus) (at_ : Z) (reason : string) : HealthStatus :=
  mkStatus (st_Health st) (st_Breaker st) at_ (st_LastDelay st) (st_SmoothedDelay st) (st_DelaySamples st) (st_Successes st)
    (st_Failures st) (st_NonBreakerSuccesses st) (st_NonBreakerFailures st) (st_ConsecutiveFailures st) (st_RecoverySuccesses st)
    (st_CooldownUntil st) (st_Backoff st) (st_HalfOpen st) reason.
Definition st_set_breaker (st : HealthStatus) (b : BreakerState) (halfOpen : bool) (cooldown : Z) : HealthStatus :=
  mkStatus (st_Health st) b (st_LastUpdated st) (st_LastDelay st) (st_SmoothedDelay st) (st_DelaySamples st) (st_Successes st)
    (st_Failures st) (st_NonBreakerSuccesses st) (st_NonBreakerFailures st) (st_ConsecutiveFailures st) (st_RecoverySuccesses st)
    cooldown (st_Backoff st) halfOpen (st_Reason st).
Definition st_set_health (st : HealthStatus) (h : HealthState) : HealthStatus :=
  mkStatus h (st_Breaker st) (st_LastUpdated st) (st_LastDelay st) (st_SmoothedDelay st) (st_DelaySamples st) (st_Successes st)
    (st_Failures st) (st_NonBreakerSuccesses st) (st_NonBreakerFailures st) (st_ConsecutiveFailures st) (st_RecoverySuccesses st)
    (st_CooldownUntil st) (st_Backoff st) (st_HalfOpen st) (st_Reason st).
Definition st_set_backoff (st : HealthStatus) (b : Z) : HealthStatus :=
  mkStatus (st_Health st) (st_Breaker st) (st_LastUpdated st) (st_LastDelay st) (st_SmoothedDelay st) (st_DelaySamples st) (st_Successes st)
    (st_Failures st) (st_NonBreakerSuccesses st) (st_NonBreakerFailures st) (st_ConsecutiveFailures st) (st_RecoverySuccesses st)
    (st_CooldownUntil st) b (st_HalfOpen st) (st_Reason st).
Definition st_set_counts (st : HealthStatus) (successes failures consecutive recovery : Z) : HealthStatus :=
  mkStatus (st_Health st) (st_Breaker st) (st_LastUpdated st) (st_LastDelay st) (st_SmoothedDelay st) (st_DelaySamples st) successes
    failures (st_NonBreakerSuccesses st) (st_NonBreakerFailures st) consecutive recovery
    (st_CooldownUntil st) (st_Backoff st) (st_HalfOpen st) (st_Reason st).
Definition st_set_quality (st : HealthStatus) (successes failures : Z) : HealthStatus :=
  mkStatus (st_Health st) (st_Breaker st) (st_LastUpdated st) (st_LastDelay st) (st_SmoothedDelay st) (st_DelaySamples st)
    (st_Successes st) (st_Failures st) successes failures (st_ConsecutiveFailures st) (st_RecoverySuccesses st)
    (st_CooldownUntil st) (st_Backoff st) (st_HalfOpen st) (st_Reason st).

Definition with_status (r : healthRecord) (st : HealthStatus) : healthRecord :=
  mkRecord st (hr_consecutiveFailure r) (hr_reopenCount r) (hr_recoverySuccesses r) (hr_openUntil r) (hr_halfOpenToken r)
    (hr_version r) (hr_delaySamples r) (hr_delayCount r) (hr_delayNext r).
(** The record with its breaker bookkeeping replaced. *)
Definition with_machine (r : healthRecord) (st : HealthStatus) (consecutive reopen recovery openUntil token version : Z) : healthRecord :=
  mkRecord st consecutive reopen recovery openUntil token version (hr_delaySamples r) (hr_delayCount r) (hr_delayNext r).

(** ** Backoff *)

(** [for i := 1; i < reopenCount; i++] doubling an int64, capped. *)
Fixpoint backoff_loop (n : nat) (maxCooldown backoff : Z) : Z :=
  match n with
  | O => backoff
  | S n => if Z.quot maxCooldown 2 <=? backoff then maxCooldown else backoff_loop n maxCooldown (i64 (backoff * 2))
  end.

Definition open_backoff (cfg : BreakerConfig) (reopenCount : Z) (jitter : Z → Z) : Z :=
  let backoff := backoff_loop (Z.to_nat (reopenCount - 1)) (bc_MaxCooldown cfg) (bc_BaseCooldown cfg) in
  let backoff := Z.min backoff (bc_MaxCooldown cfg) in
  let backoff := Z.min (jitter backoff) (bc_MaxCooldown cfg) in
  let floor := Z.quot (bc_BaseCooldown cfg) 2 in
  if (backoff <? floor) && (0 <? bc_BaseCooldown cfg) then floor else backoff.

Definition openBreakerRecordLocked (cfg : BreakerConfig) (r : healthRecord) (now : Z) (jitter : Z → Z) : healthRecord :=
  let backoff := open_backoff cfg (hr_reopenCount r) jitter in
  let openUntil := now + backoff in
  let st := st_set_backoff (st_set_breaker (hr_status r) BreakerOpen false openUntil) backoff in
  let st := st_set_counts st (st_Successes st) (st_Failures st) (st_ConsecutiveFailures st) 0 in
  with_machine r st (hr_consecutiveFailure r) (hr_reopenCount r) 0 openUntil 0 (u64 (hr_version r + 1)).

(** ** Observations *)

(** The breaker step of [observeLocked] on the stamped record: a success. *)
Definition observe_success (r : healthRecord) : healthRecord :=
  let st := hr_status r in
  let st := st_set_counts st (u64 (st_Successes st + 1)) (st_Failures st) (st_ConsecutiveFailures st) (st_RecoverySuccesses st) in
  let recovery := if bool_decide (st_Breaker st = BreakerHalfOpen) then hr_recoverySuccesses r + 1 else hr_recoverySuccesses r in
  if bool_decide (st_Breaker st = BreakerHalfOpen) && (recovery <? 2) then
    with_machine r
      (st_set_counts (st_set_breaker (st_set_health st HealthDegraded) BreakerHalfOpen true 0)
         (st_Successes st) (st_Failures st) 0 recovery)
      0 (hr_reopenCount r) recovery (hr_openUntil r) 0 (hr_version r)
  else
    with_machine r
      (st_set_counts (st_set_backoff (st_set_breaker (st_set_health st HealthHealthy) BreakerClosed false 0) 0)
         (st_Successes st) (st_Failures st) 0 0)
      0 0 0 0 0 (hr_version r).

(** ... and anything else. *)
Definition observe_failure (cfg : BreakerConfig) (r : healthRecord) (at_ : Z) (jitter : Z → Z) : healthRecord :=
  let st := hr_status r in
  let consecutive := hr_consecutiveFailure r + 1 in
  let st := st_set_counts st (st_Successes st) (u64 (st_Failures st + 1)) (st_ConsecutiveFailures st) 0 in
  let r' :=
    if bool_decide (st_Breaker st = BreakerHalfOpen) || (bc_FailureThreshold cfg <=? consecutive) then
      openBreakerRecordLocked cfg
        (with_machine r (st_set_health st HealthUnreachable) consecutive (hr_reopenCount r + 1) 0 (hr_openUntil r)
           (hr_halfOpenToken r) (hr_version r)) at_ jitter
    else
      with_machine r (st_set_breaker (st_set_health st HealthDegraded) BreakerClosed (st_HalfOpen st) (st_CooldownUntil st))
        consecutive (hr_reopenCount r) 0 (hr_openUntil r) (hr_halfOpenToken r) (hr_version r) in
  let st := hr_status r' in
  with_status r' (st_set_counts st (st_Successes st) (st_Failures st) consecutive (st_RecoverySuccesses st)).

(** The conditions of [observeLocked] after the record is at hand: may the
    observation change it? *)
Definition observation_applies (r : healthRecord) (version token : Z) (active : bool) : bool :=
  negb (active && negb (hr_version r =? version))
  && negb (negb active && negb (bool_decide (st_Breaker (hr_status r) = BreakerClosed))
           && negb (bool_decide (st_Breaker (hr_status r) = BreakerNone)))
  && negb (bool_decide (st_Breaker (hr_status r) = BreakerHalfOpen) && negb (token =? hr_halfOpenToken r)).

Definition apply_observation (cfg : BreakerConfig) (r : healthRecord) (outcome : ObservationOutcome) (at_ delay : Z)
    (reason : string) (jitter : Z → Z) : healthRecord :=
  let r := with_status r (st_stamp (hr_status r) at_ reason) in
  if bool_decide (outcome = OutcomeSuccess) then observe_success (if 0 <? delay then recordHealthDelay r delay else r)
  else observe_failure cfg r at_ jitter.

(** A success that leaves a half-open record half-open returns before the
    bound is enforced; the record existed, so the bound held. *)
Definition observeLocked (s : HealthStore) (k : healthKey) (outcome : ObservationOutcome) (at_ delay : Z) (reason : string)
    (version token : Z) (active : bool) (jitter : Z → Z) : HealthStore :=
  let s := pruneExpiredLocked s at_ in
  let stale := match hs_entries s !! k with
               | Some r => negb (time_is_zero (st_LastUpdated (hr_status r))) && time_before at_ (st_LastUpdated (hr_status r))
               | None => active && negb (version =? 0)
               end in
  if stale then s
  else
    let '(r, s) := hs_touch s k new_record in
    if negb (observation_applies r version token active) then s
    else
      let r' := apply_observation (hs_breaker s) r outcome at_ delay reason jitter in
      let s := hs_write s k r' in
      if bool_decide (outcome = OutcomeSuccess) && bool_decide (st_Breaker (hr_status r') = BreakerHalfOpen) then s
      else hs_enforce_bound s.

(** [observeQualityLocked] *)
Definition quality_health (threshold : Z) (failures : Z) (h : HealthState) : HealthState :=
  let threshold := if threshold <=? 0 then 3 else threshold in
  if threshold <=? failures then HealthUnreachable
  else if bool_decide (h = HealthUnreachable) then h else HealthDegraded.

Definition apply_quality (cfg : BreakerConfig) (r : healthRecord) (outcome : ObservationOutcome) (at_ delay : Z)
    (reason : string) (weight : Q) : healthRecord :=
  let weight := if Qle_bool weight 0 && negb (Qeq_bool weight 0) then 0%Q else weight in
  let r := with_status r (st_stamp (hr_status r) at_ reason) in
  let r := if bool_decide (outcome = OutcomeSuccess) && (0 <? delay) then recordHealthDelay r delay else r in
  let st := hr_status r in
  let metricsOnly := negb (Qle_bool weight 0) && negb (Qle_bool (1 # 2) weight) in
  let flips := negb metricsOnly && bool_decide (st_Breaker st = BreakerClosed) in
  with_status r
    (if bool_decide (outcome = OutcomeSuccess) then
       let st := st_set_quality st (u64 (st_NonBreakerSuccesses st + 1)) (st_NonBreakerFailures st) in
       if flips then st_set_health (st_set_quality st (st_NonBreakerSuccesses st) 0) HealthHealthy else st
     else
       let st := st_set_quality st (st_NonBreakerSuccesses st) (u64 (st_NonBreakerFailures st + 1)) in
       if flips then st_set_health st (quality_health (bc_FailureThreshold cfg) (st_NonBreakerFailures st) (st_Health st)) else st).

Definition closed_record : healthRecord := with_status new_record (st_set_breaker zero_status BreakerClosed false 0).

Definition observeQualityLocked (s : HealthStore) (k : healthKey) (outcome : ObservationOutcome) (at_ delay : Z) (reason : string)
    (weight : Q) : HealthStore :=
  let s := pruneExpiredLocked s at_ in
  let stale := match hs_entries s !! k with
               | Some r => negb (time_is_zero (st_LastUpdated (hr_status r))) && time_before at_ (st_LastUpdated (hr_status r))
               | None => false
               end in
  if stale then s
  else
    let '(r, s) := hs_touch s k closed_record in
    hs_enforce_bound (hs_write s k (apply_quality (hs_breaker s) r outcome at_ delay reason weight)).

(** ** Transport paths (resolver.go) *)

Definition healthFamilyAny : string := "any".

Definition slash : Ascii.ascii := Ascii.ascii_of_nat 47.

Fixpoint split_slash (s : string) : option (string * string) :=
  match s with
  | EmptyString => None
  | String c s =>
      if Ascii.eqb c slash then Some (EmptyString, s)
      else match split_slash s with Some (a, b) => Some (String c a, b) | None => None end
  end.

(** [normalizeHealthTransportPath] *)
Definition normalizeHealthTransportPath (path : string) : string :=
  if String.eqb path "tcp" then "tcp/any"
  else if String.eqb path "udp" then "udp_data/any"
  else if String.eqb path "udp_dns" then "udp_dns/any"
  else if String.eqb path "udp_data" then "udp_data/any"
  else path.

Definition splitHealthTransport (path : string) : string * string :=
  if String.eqb path "tcp" then ("tcp", "")%string
  else if String.eqb path "udp" then ("udp_data", "")%string
  else if String.eqb path "udp_dns" || String.eqb path "udp_data" then (path, ""%string)
  else match split_slash path with
       | Some (EmptyString, _) | None => (path, ""%string)
       | Some (class, family) => (class, family)
       end.

(** [transportLedgerKey]: the normal form is empty only for the empty path. *)
Definition transportLedgerKey (transport : string) : string :=
  let normalized := normalizeHealthTransportPath transport in
  if String.eqb normalized "" then transport else normalized.

Definition refineHealthTransportFamily (path family : string) : string :=
  if String.eqb path "" || String.eqb family "" || String.eqb family healthFamilyAny then path
  else if negb (String.eqb family "ipv4") && negb (String.eqb family "ipv6") then path
  else
    let '(class, currentFamily) := splitHealthTransport path in
    if String.eqb class "" then path
    else if negb (String.eqb currentFamily "") && negb (String.eqb currentFamily healthFamilyAny) then path
    else (class +:+ "/" +:+ family)%string.

Definition dualStackFamilyPaths (path : string) : option (string * string) :=
  if String.eqb path "tcp" || String.eqb path "tcp/any" then Some ("tcp/ipv4", "tcp/ipv6")%string
  else if String.eqb path "udp_dns/any" then Some ("udp_dns/ipv4", "udp_dns/ipv6")%string
  else if String.eqb path "udp" || String.eqb path "udp/any" || String.eqb path "udp_data/any"
  then Some ("udp_data/ipv4", "udp_data/ipv6")%string
  else None.

(** ** Finding a record *)

Definition key_of (h : NodeHandle) (d : FailureDomain) (transport service : string) : healthKey :=
  mkHealthKey (nh_NodeID h) (nh_Slot h) (nh_Version h) d transport service.

Definition with_transport (k : healthKey) (t : string) : healthKey :=
  mkHealthKey (hk_nodeID k) (hk_nodeSlot k) (hk_nodeVersion k) (hk_domain k) t (hk_service k).

(** The key of the class alone, where a qualified path has no record. *)
Definition legacy_key (k : healthKey) : option healthKey :=
  if negb (bool_decide (hk_domain k = DomainTransport)) then None
  else match split_slash (hk_transport k) with
       | Some (EmptyString, _) | None => None
       | Some (class, _) => Some (with_transport k (if String.prefix "udp_" class then "udp"%string else class))
       end.

Definition recordForKeyLocked (s : HealthStore) (k : healthKey) : option healthRecord * healthKey :=
  match hs_entries s !! k with
  | Some r => (Some r, k)
  | None =>
      match legacy_key k with
      | Some lk => match hs_entries s !! lk with Some r => (Some r, lk) | None => (None, k) end
      | None => (None, k)
      end
  end.

Definition healthTransportStatusRank (st : HealthStatus) : Z :=
  match st_Breaker st with
  | BreakerHalfOpen => 4
  | BreakerOpen => 3
  | BreakerCooldown => 2
  | _ => if bool_decide (st_Health st = HealthUnreachable) then 1 else 0
  end.

(** The scan of [mostRestrictiveTransportRecordLocked] and [StatusHandle]: the
    record of highest rank, the latest among equals, the first visited among
    those. *)
Definition more_restrictive (candidate selected : HealthStatus) : bool :=
  (healthTransportStatusRank selected <? healthTransportStatusRank candidate)
  || ((healthTransportStatusRank candidate =? healthTransportStatusRank selected)
      && time_after (st_LastUpdated candidate) (st_LastUpdated selected)).

Fixpoint select_scan (keep : healthKey → bool) (order : list (healthKey * healthRecord))
    (selected : option (healthKey * healthRecord)) : option (healthKey * healthRecord) :=
  match order with
  | [] => selected
  | (k, r) :: order =>
      let better := keep k && match selected with
                              | None => true
                              | Some (_, r') => more_restrictive (hr_status r) (hr_status r')
                              end in
      select_scan keep order (if better then Some (k, r) else selected)
  end.

Definition same_node (h : NodeHandle) (k : healthKey) : bool :=
  (hk_nodeID k =? nh_NodeID h) && (hk_nodeSlot k =? nh_Slot h) && (hk_nodeVersion k =? nh_Version h).

Definition mostRestrictiveTransportRecordLocked (h : NodeHandle) (transport : string)
    (order : list (healthKey * healthRecord)) : option (healthKey * healthRecord) :=
  let '(class, family) := splitHealthTransport transport in
  if String.eqb class "" then None
  else if negb (String.eqb family "") && negb (String.eqb family healthFamilyAny) then None
  else
    match select_scan (λ k, same_node h k && bool_decide (hk_domain k = DomainTransport)
                              && String.prefix (class +:+ "/") (hk_transport k)) order None with
    | Some (k, r) => if healthTransportStatusRank (hr_status r) =? 0 then None else Some (k, r)
    | None => None
    end.

Definition StatusHandle (s : HealthStore) (h : NodeHandle) (d : FailureDomain) (transport service : string)
    (order : list (healthKey * healthRecord)) : HealthStatus :=
  let record := fst (recordForKeyLocked s (key_of h d transport service)) in
  let record :=
    match record with
    | Some r => Some r
    | None =>
        if bool_decide (d = DomainTransport) && negb (bool_decide (is_Some (split_slash transport))) then
          snd <$> select_scan (λ k, same_node h k && bool_decide (hk_domain k = d) && String.eqb (hk_service k) service
                                      && String.prefix (transport +:+ "/") (hk_transport k)) order None
        else None
    end in
  match record with
  | Some r => hr_status r
  | None => st_set_health (st_set_breaker zero_status BreakerClosed false 0) HealthUnknown
  end.

(** ** Availability *)

Definition availableReadOnly (r : healthRecord) (now : Z) : bool :=
  match st_Breaker (hr_status r) with
  | BreakerOpen | BreakerCooldown => negb (time_before now (hr_openUntil r))
  | BreakerHalfOpen => hr_halfOpenToken r =? 0
  | _ => true
  end.

(** [availableLocked] relabels an open breaker whose window has not passed. *)
Definition availableLocked (r : healthRecord) (now : Z) : bool * healthRecord :=
  match st_Breaker (hr_status r) with
  | BreakerOpen =>
      if time_before now (hr_openUntil r)
      then (false, with_status r (st_set_breaker (hr_status r) BreakerCooldown (st_HalfOpen (hr_status r)) (hr_openUntil r)))
      else (true, r)
  | BreakerCooldown => (negb (time_before now (hr_openUntil r)), r)
  | BreakerHalfOpen => (hr_halfOpenToken r =? 0, r)
  | _ => (true, r)
  end.

(** ** Permits *)

Record permitEntry : Type := mkPermitEntry { pe_key : healthKey; pe_version : Z; pe_halfOpenToken : Z }.
#[global] Instance permitEntry_eq_dec : EqDecision permitEntry.
Proof. solve_decision. Defined.
Record AttemptPermit : Type := mkPermit { ap_entries : list permitEntry; ap_completed : bool }.

Definition releaseTokenLocked (s : HealthStore) (e : permitEntry) : HealthStore :=
  match hs_entries s !! pe_key e with
  | Some r =>
      if (hr_version r =? pe_version e) && (hr_halfOpenToken r =? pe_halfOpenToken e) && negb (pe_halfOpenToken e =? 0)
         && bool_decide (st_Breaker (hr_status r) = BreakerHalfOpen)
      then hs_write s (pe_key e)
             (with_machine r (st_set_breaker (hr_status r) BreakerCooldown false (hr_openUntil r))
                (hr_consecutiveFailure r) (hr_reopenCount r) (hr_recoverySuccesses r) (hr_openUntil r) 0 (hr_version r))
      else s
  | None => s
  end.

Definition releasePermit (s : HealthStore) (entries : list permitEntry) : HealthStore := foldl releaseTokenLocked s entries.

Definition breaker_tripped (b : BreakerState) : bool :=
  match b with BreakerOpen | BreakerCooldown | BreakerHalfOpen => true | _ => false end.

(** An available record takes part in an attempt: a tripped breaker becomes
    half-open under a fresh token.  This is under the lock of [tryAcquirePermit]; the
    checks made before it under other locks may be outdated by then (see [health_step]
    in [AdaptiveCapability]). *)
Definition acquire_record (s : HealthStore) (k : healthKey) (r : healthRecord) : HealthStore * permitEntry :=
  if breaker_tripped (st_Breaker (hr_status r)) then
    let token := u64 (hs_nextToken s + 1) in
    let r' := with_machine r (st_set_breaker (hr_status r) BreakerHalfOpen true (st_CooldownUntil (hr_status r)))
                (hr_consecutiveFailure r) (hr_reopenCount r) (hr_recoverySuccesses r) (hr_openUntil r) token (hr_version r) in
    (mkStore (<[k := r']> (hs_entries s)) (hs_lru s) (hs_retention s) (hs_maxEntries s) (hs_evictions s) (hs_breaker s) token,
     mkPermitEntry k (hr_version r) token)
  else (s, mkPermitEntry k (hr_version r) 0).

Fixpoint acquire_loop (s : HealthStore) (keys : list healthKey) (now : Z) (entries : list permitEntry) :
    HealthStore * option AttemptPermit :=
  match keys with
  | [] => (s, Some (mkPermit entries false))
  | k :: keys =>
      match recordForKeyLocked s k with
      | (None, k) => acquire_loop s keys now (entries ++ [mkPermitEntry k 0 0])
      | (Some r, k) =>
          let '(ok, r) := availableLocked r now in
          let s := hs_write s k r in
          if negb ok then (releasePermit s entries, None)
          else
            let '(s, e) := acquire_record s k r in
            acquire_loop s keys now (entries ++ [e])
      end
  end.
Definition tryAcquirePermit (s : HealthStore) (keys : list healthKey) (now : Z) : HealthStore * option AttemptPermit :=
  acquire_loop s keys now [].

(** [TryAcquireDomainPermitHandle] *)
Definition TryAcquireDomainPermitHandle (s : HealthStore) (h : NodeHandle) (d : FailureDomain) (transport service : string)
    (now : Z) (order : list (healthKey * healthRecord)) : HealthStore * option AttemptPermit :=
  let transport := if bool_decide (d = DomainTransport) then transportLedgerKey transport else transport in
  let '(record, k) := recordForKeyLocked s (key_of h d transport service) in
  let '(record, k) :=
    match record with
    | Some r => (Some r, k)
    | None =>
        if bool_decide (d = DomainTransport) then
          match mostRestrictiveTransportRecordLocked h (hk_transport k) order with
          | Some (pinned, r) => (Some r, pinned)
          | None => (None, k)
          end
        else (None, k)
    end in
  match record with
  | None => (s, Some (mkPermit [mkPermitEntry k 0 0] false))
  | Some r =>
      let '(ok, r) := availableLocked r now in
      let s := hs_write s k r in
      if negb ok then (s, None)
      else let '(s, e) := acquire_record s k r in (s, Some (mkPermit [e] false))
  end.

(** [TryAcquireConnectionFallbackPermitHandle]: no availability check, but a
    half-open record is left to its owner. *)
Fixpoint fallback_loop (s : HealthStore) (keys : list healthKey) (entries : list permitEntry) : option AttemptPermit :=
  match keys with
  | [] => Some (mkPermit entries false)
  | k :: keys =>
      match hs_entries s !! k with
      | None => fallback_loop s keys (entries ++ [mkPermitEntry k 0 0])
      | Some r =>
          if bool_decide (st_Breaker (hr_status r) = BreakerHalfOpen) then None
          else fallback_loop s keys (entries ++ [mkPermitEntry k (hr_version r) 0])
      end
  end.
Definition TryAcquireConnectionFallbackPermitHandle (s : HealthStore) (h : NodeHandle) (transport : string) : option AttemptPermit :=
  fallback_loop s [key_of h DomainEndpoint "" ""; key_of h DomainTransport (transportLedgerKey transport) ""] [].

(** [completePermitDomains] *)
Fixpoint complete_loop (s : HealthStore) (entries : list permitEntry) (outcomes : FailureDomain → option ObservationOutcome)
    (at_ delay : Z) (reason : string) (jitter : Z → Z) : HealthStore :=
  match entries with
  | [] => s
  | e :: entries =>
      let s :=
        match outcomes (hk_domain (pe_key e)) with
        | None | Some OutcomeDeferred => releaseTokenLocked s e
        | Some outcome => observeLocked s (pe_key e) outcome at_ delay reason (pe_version e) (pe_halfOpenToken e) true jitter
        end in
      complete_loop s entries outcomes at_ delay reason jitter
  end.

(** The permit's methods, with the clock reading that replaces a zero time. *)
Definition CompleteDomains (s : HealthStore) (p : AttemptPermit) (outcomes : FailureDomain → option ObservationOutcome)
    (at_ delay : Z) (reason : string) (clock : Z) (jitter : Z → Z) : HealthStore * AttemptPermit :=
  if ap_completed p then (s, p)
  else (complete_loop s (ap_entries p) outcomes (if time_is_zero at_ then clock else at_) delay reason jitter,
        mkPermit (ap_entries p) true).
Definition ReleaseDeferred (s : HealthStore) (p : AttemptPermit) : HealthStore * AttemptPermit :=
  if ap_completed p then (s, p) else (releasePermit s (ap_entries p), mkPermit (ap_entries p) true).

(** [ObserveEvidence] *)
Definition ObserveEvidence (s : HealthStore) (h : NodeHandle) (d : FailureDomain) (transport service : string)
    (outcome : ObservationOutcome) (at_ delay : Z) (reason : string) (breakerEligible : bool) (weight : Q) (clock : Z)
    (jitter : Z → Z) : HealthStore :=
  if bool_decide (outcome = OutcomeDeferred) then s
  else
    let at_ := if time_is_zero at_ then clock else at_ in
    let transport :=
      if bool_decide (d = DomainTransport) && negb (String.eqb (normalizeHealthTransportPath transport) "")
      then normalizeHealthTransportPath transport else transport in
    let k := key_of h d transport service in
    if breakerEligible then observeLocked s k outcome at_ delay reason 0 0 false jitter
    else observeQualityLocked s k outcome at_ delay reason weight.

(** [RetireNodeHandle], in the order visited. *)
Definition health_RetireNodeHandle (s : HealthStore) (h : NodeHandle) (order : list (healthKey * healthRecord)) : HealthStore :=
  foldl (λ s e, if same_node h e.1 then removeKey s e.1 else s) s order.

(** ** Invariants *)

Definition config_ok (cfg : BreakerConfig) : Prop :=
  0 < bc_FailureThreshold cfg ∧ 0 < bc_BaseCooldown cfg ≤ bc_MaxCooldown cfg.

(** One record: a token only while half-open, the half-open flag in step with
    the breaker, one recovery success at most, and fewer consecutive failures
    than the threshold while the breaker is closed. *)
Record record_ok (cfg : BreakerConfig) (r : healthRecord) : Prop := {
  ro_token : hr_halfOpenToken r ≠ 0 → st_Breaker (hr_status r) = BreakerHalfOpen;
  ro_flag : st_HalfOpen (hr_status r) = bool_decide (st_Breaker (hr_status r) = BreakerHalfOpen);
  ro_recovery : 0 ≤ hr_recoverySuccesses r ≤ 1 ∧ st_RecoverySuccesses (hr_status r) = hr_recoverySuccesses r;
  ro_closed : 0 ≤ hr_consecutiveFailure r ∧
              (breaker_tripped (st_Breaker (hr_status r)) = false → hr_consecutiveFailure r < bc_FailureThreshold cfg);
  ro_known : st_Breaker (hr_status r) ≠ BreakerUnknown;
  ro_ring : length (hr_delaySamples r) = healthDelayRingSize ∧ (hr_delayCount r ≤ healthDelayRingSize)%nat ∧
            (hr_delayNext r < healthDelayRingSize)%nat }.

(** The ledger: the list names exactly the records, each once. *)
Record ledger_ok (s : HealthStore) : Prop := {
  lo_nodup : NoDup (hs_lru s);
  lo_dom : ∀ k, k ∈ hs_lru s ↔ is_Some (hs_entries s !! k) }.

Definition health_bounded (s : HealthStore) : Prop := Z.of_nat (size (hs_entries s)) ≤ hs_maxEntries s.

Record store_ok (s : HealthStore) : Prop := {
  so_ledger : ledger_ok s;
  so_bound : health_bounded s;
  so_max : 0 < hs_maxEntries s;
  so_config : config_ok (hs_breaker s);
  so_records : ∀ k r, hs_entries s !! k = Some r → record_ok (hs_breaker s) r }.

Lemma ledger_size s : ledger_ok s → size (hs_entries s) = length (hs_lru s).
Proof.
  intros [Hn Hd]. rewrite <- (size_dom (hs_entries s) (D := gset healthKey)), <- (size_list_to_set (C := gset healthKey) _ Hn).
  f_equal. apply set_eq. intros k. by rewrite elem_of_dom, elem_of_list_to_set, Hd.
Qed.

Lemma removeKey_ledger s k : ledger_ok s → ledger_ok (removeKey s k).
Proof.
  intros [Hn Hd]. split; simpl; [by apply NoDup_filter|].
  intros x. rewrite list_elem_of_filter, Hd. destruct (decide (x = k)) as [->|Hne].
  - rewrite lookup_delete_eq. naive_solver.
  - rewrite lookup_delete_ne by done. naive_solver.
Qed.

(** Removing records only shrinks the ledger and keeps the configuration. *)
Definition shrinks (s s' : HealthStore) : Prop :=
  (∀ k r, hs_entries s' !! k = Some r → hs_entries s !! k = Some r) ∧ (size (hs_entries s') ≤ size (hs_entries s))%nat ∧
  hs_breaker s' = hs_breaker s ∧ hs_maxEntries s' = hs_maxEntries s ∧ hs_nextToken s' = hs_nextToken s.

#[global] Instance shrinks_preorder : PreOrder shrinks.
Proof.
  split; [by intros s|]. intros s1 s2 s3 (A1 & B1 & C1 & D1 & E1) (A2 & B2 & C2 & D2 & E2).
  split_and!; [auto | lia | congruence | congruence | congruence].
Qed.

Lemma removeKey_shrinks s k : shrinks s (removeKey s k).
Proof.
  split_and!; try done; simpl; [|apply size_delete_le]. intros x r Hx. by apply lookup_delete_Some in Hx as [_ ?].
Qed.

Lemma shrinks_ok s s' : shrinks s s' → ledger_ok s' → store_ok s → store_ok s'.
Proof.
  intros (Hr & Hsz & Hb & Hm & _) Hl [_ Hbd Hmax Hc Hrec]. split; [done | | by rewrite Hm | by rewrite Hb |].
  - unfold health_bounded in *. rewrite Hm. lia.
  - rewrite Hb. intros k r Hk. by apply (Hrec k), Hr.
Qed.

Lemma prune_from_spec now keys s : ledger_ok s → ledger_ok (prune_from now keys s) ∧ shrinks s (prune_from now keys s).
Proof.
  revert s. induction keys as [|k keys IH]; intros s Hl; [done|]. cbn [prune_from]. cbv zeta. destruct (_ <=? _); [done|].
  destruct (IH (removeKey s k)) as [? ?]; [by apply removeKey_ledger|]. split; [done|]. etrans; [apply removeKey_shrinks | done].
Qed.

Lemma prune_ok s now : store_ok s → store_ok (pruneExpiredLocked s now) ∧ shrinks s (pruneExpiredLocked s now).
Proof.
  intros Hs. destruct (prune_from_spec now (reverse (hs_lru s)) s (so_ledger _ Hs)) as [? ?].
  split; [by eapply shrinks_ok | done].
Qed.

Lemma hs_removeOldest_spec s : ledger_ok s → ledger_ok (hs_removeOldestLocked s) ∧ shrinks s (hs_removeOldestLocked s).
Proof.
  intros Hl. unfold hs_removeOldestLocked. destruct (last _); [|done].
  split; [by apply removeKey_ledger | apply removeKey_shrinks].
Qed.

(** The eviction loop ends within as many rounds as there are records, with the
    bound established. *)
Lemma hs_evict_spec fuel s :
  ledger_ok s → 0 ≤ hs_maxEntries s → (length (hs_lru s) ≤ fuel)%nat →
  ledger_ok (hs_evict fuel s) ∧ shrinks s (hs_evict fuel s) ∧ health_bounded (hs_evict fuel s).
Proof.
  revert s. induction fuel as [|fuel IH]; intros s Hl Hm Hlen; cbn [hs_evict].
  - split_and!; [done..|]. unfold health_bounded. rewrite (ledger_size s Hl). lia.
  - destruct (Z.ltb_spec (hs_maxEntries s) (Z.of_nat (size (hs_entries s)))); [|done].
    destruct (hs_removeOldest_spec s Hl) as [Hl' Hs']. destruct (IH (hs_removeOldestLocked s)) as (H1 & H2 & H3).
    + done.
    + destruct Hs' as (_ & _ & _ & -> & _). done.
    + rewrite (ledger_size s Hl) in H. rewrite <- (ledger_size _ Hl').
      unfold hs_removeOldestLocked. destruct (last (hs_lru s)) as [k|] eqn:El; [|apply last_None in El; rewrite El in H; simpl in H; lia].
      assert (k ∈ hs_lru s) as Hk by (apply last_Some in El as [l ->]; set_solver).
      apply (lo_dom _ Hl) in Hk as [r Hk]. simpl. pose proof (size_delete_Some k r _ Hk). rewrite (ledger_size s Hl) in H0. lia.
    + split_and!; [done | by etrans | done].
Qed.

Lemma hs_enforce_ok s :
  ledger_ok s → 0 < hs_maxEntries s → config_ok (hs_breaker s) → (∀ k r, hs_entries s !! k = Some r → record_ok (hs_breaker s) r) →
  store_ok (hs_enforce_bound s) ∧ shrinks s (hs_enforce_bound s).
Proof.
  intros Hl Hm Hc Hr. destruct (hs_evict_spec (length (hs_lru s)) s) as (H1 & H2 & H3); [done | lia | done |].
  split; [|done]. destruct H2 as (Hx & _ & Hb & Hme & _). split; [done | done | | |]; unfold hs_enforce_bound; rewrite ?Hme, ?Hb; [done..|].
  intros k r Hk. by apply (Hr k), Hx.
Qed.

(** Writing a record under an existing key. *)
Lemma hs_write_ledger s k r : is_Some (hs_entries s !! k) → ledger_ok s → ledger_ok (hs_write s k r).
Proof.
  intros Hk [Hn Hd]. split; [done|]. intros x. simpl. rewrite Hd. destruct (decide (x = k)) as [->|Hne].
  - rewrite lookup_insert_eq. naive_solver.
  - by rewrite lookup_insert_ne.
Qed.

Lemma hs_write_ok s k r0 r :
  hs_entries s !! k = Some r0 → record_ok (hs_breaker s) r → store_ok s → store_ok (hs_write s k r).
Proof.
  intros Hk Hr [Hl Hb Hm Hc Hrec]. split; [by apply hs_write_ledger; [rewrite Hk|] | | done | done |].
  - unfold health_bounded in *. simpl. rewrite map_size_insert, Hk. done.
  - simpl. intros x y [[<- <-]|[_ Hx]]%lookup_insert_Some; [done | by apply (Hrec x)].
Qed.

Lemma hs_touch_spec s k fresh r s' :
  hs_touch s k fresh = (r, s') → ledger_ok s →
  ledger_ok s' ∧ hs_entries s' !! k = Some r ∧ hs_breaker s' = hs_breaker s ∧ hs_maxEntries s' = hs_maxEntries s ∧
  hs_nextToken s' = hs_nextToken s ∧ (∀ x, x ≠ k → hs_entries s' !! x = hs_entries s !! x) ∧
  (hs_entries s !! k = Some r ∧ hs_entries s' = hs_entries s ∨ hs_entries s !! k = None ∧ r = fresh).
Proof.
  unfold hs_touch. intros Ht [Hn Hd]. destruct (hs_entries s !! k) as [r0|] eqn:Ek; simplify_eq; simpl.
  - split_and!; [|done..|by left]. split; simpl.
    + constructor; [rewrite list_elem_of_filter; naive_solver | by apply NoDup_filter].
    + intros x. rewrite elem_of_cons, list_elem_of_filter, <- Hd. destruct (decide (x = k)) as [->|]; [|naive_solver].
      split; [|naive_solver]. intros _. apply Hd. by rewrite Ek.
  - split_and!; [| by rewrite lookup_insert_eq | done..| | by right].
    + split; simpl.
      * constructor; [|done]. rewrite Hd, Ek. by intros [].
      * intros x. rewrite elem_of_cons, Hd. destruct (decide (x = k)) as [->|Hne]; [rewrite lookup_insert_eq; naive_solver|].
        rewrite lookup_insert_ne by done. naive_solver.
    + intros x Hx. by rewrite lookup_insert_ne.
Qed.

(** *** Each step of a record keeps it well-formed *)

Lemma recordHealthDelay_machine r d :
  hr_consecutiveFailure (recordHealthDelay r d) = hr_consecutiveFailure r ∧
  hr_reopenCount (recordHealthDelay r d) = hr_reopenCount r ∧
  hr_recoverySuccesses (recordHealthDelay r d) = hr_recoverySuccesses r ∧
  hr_openUntil (recordHealthDelay r d) = hr_openUntil r ∧
  hr_halfOpenToken (recordHealthDelay r d) = hr_halfOpenToken r ∧
  hr_version (recordHealthDelay r d) = hr_version r ∧
  st_Breaker (hr_status (recordHealthDelay r d)) = st_Breaker (hr_status r) ∧
  st_HalfOpen (hr_status (recordHealthDelay r d)) = st_HalfOpen (hr_status r) ∧
  st_Health (hr_status (recordHealthDelay r d)) = st_Health (hr_status r) ∧
  st_RecoverySuccesses (hr_status (recordHealthDelay r d)) = st_RecoverySuccesses (hr_status r).
Proof. unfold recordHealthDelay. by destruct (d <=? 0). Qed.

Lemma recordHealthDelay_ok cfg r d : record_ok cfg r → record_ok cfg (recordHealthDelay r d).
Proof.
  intros [H1 H2 H3 H4 H5 (Hl & Hc & Hn)]. destruct (recordHealthDelay_machine r d) as (A & B & C & D & E & F & G & H & I & J).
  split; rewrite ?A, ?C, ?E, ?G, ?H, ?J; [done..|]. unfold recordHealthDelay, healthDelayRingSize in *.
  destruct (d <=? 0); [done|]. cbn [hr_delaySamples hr_delayCount hr_delayNext]. rewrite length_insert. split_and!; [done | | apply Nat.mod_upper_bound; lia].
  destruct (Nat.ltb_spec (hr_delayCount r) 10); lia.
Qed.

Lemma stamp_ok cfg r at_ reason : record_ok cfg r → record_ok cfg (with_status r (st_stamp (hr_status r) at_ reason)).
Proof. intros []. by split. Qed.

Lemma observe_success_ok cfg r : config_ok cfg → record_ok cfg r → record_ok cfg (observe_success r).
Proof.
  intros [? ?] [H1 H2 H3 H4 H5 H6]. unfold observe_success. cbv zeta. simpl.
  case_bool_decide as E; simpl; [destruct (Z.ltb_spec (hr_recoverySuccesses r + 1) 2)|]; split; simpl; try done; try lia; naive_solver lia.
Qed.

Lemma observe_failure_ok cfg r at_ j : config_ok cfg → record_ok cfg r → record_ok cfg (observe_failure cfg r at_ j).
Proof.
  intros [? ?] [H1 H2 H3 H4 H5 H6]. unfold observe_failure. cbv zeta. simpl.
  case_bool_decide as E; simpl.
  - split; simpl; try done; naive_solver lia.
  - destruct (Z.leb_spec (bc_FailureThreshold cfg) (hr_consecutiveFailure r + 1)); simpl; split; simpl; try done; try naive_solver lia.
Qed.

Lemma apply_observation_ok cfg r o at_ d reason j :
  config_ok cfg → record_ok cfg r → record_ok cfg (apply_observation cfg r o at_ d reason j).
Proof.
  intros Hc Hr. unfold apply_observation. cbv zeta. case_bool_decide.
  - apply observe_success_ok; [done|]. destruct (0 <? d); [apply recordHealthDelay_ok|]; by apply stamp_ok.
  - by apply observe_failure_ok, stamp_ok.
Qed.

Lemma apply_quality_machine cfg r o at_ d reason w :
  hr_consecutiveFailure (apply_quality cfg r o at_ d reason w) = hr_consecutiveFailure r ∧
  hr_reopenCount (apply_quality cfg r o at_ d reason w) = hr_reopenCount r ∧
  hr_recoverySuccesses (apply_quality cfg r o at_ d reason w) = hr_recoverySuccesses r ∧
  hr_openUntil (apply_quality cfg r o at_ d reason w) = hr_openUntil r ∧
  hr_halfOpenToken (apply_quality cfg r o at_ d reason w) = hr_halfOpenToken r ∧
  hr_version (apply_quality cfg r o at_ d reason w) = hr_version r ∧
  st_Breaker (hr_status (apply_quality cfg r o at_ d reason w)) = st_Breaker (hr_status r) ∧
  st_HalfOpen (hr_status (apply_quality cfg r o at_ d reason w)) = st_HalfOpen (hr_status r) ∧
  st_RecoverySuccesses (hr_status (apply_quality cfg r o at_ d reason w)) = st_RecoverySuccesses (hr_status r).
Proof.
  unfold apply_quality. cbv zeta. destruct (bool_decide (o = OutcomeSuccess)); destruct (0 <? d); simpl;
    try (destruct (recordHealthDelay_machine (with_status r (st_stamp (hr_status r) at_ reason)) d)
           as (-> & -> & -> & -> & -> & -> & Hb & Hh & _ & Hr));
    split_and!; try done; repeat case_match; simpl; rewrite ?Hb, ?Hh, ?Hr; done.
Qed.

Lemma apply_quality_ok cfg r o at_ d reason w : record_ok cfg r → record_ok cfg (apply_quality cfg r o at_ d reason w).
Proof.
  intros Hr. destruct (apply_quality_machine cfg r o at_ d reason w) as (A & B & C & D & E & F & G & H & I).
  pose proof Hr as [H1 H2 H3 H4 H5 H6]. split; rewrite ?A, ?C, ?E, ?G, ?H, ?I; [done..|].
  unfold apply_quality. cbv zeta. simpl. destruct (_ && _); [|done].
  exact (ro_ring _ _ (recordHealthDelay_ok cfg _ d (stamp_ok cfg r at_ reason Hr))).
Qed.

(** An observation that applies always leaves the record without a token. *)
Lemma apply_observation_token cfg r o at_ d reason j :
  record_ok cfg r → hr_halfOpenToken (apply_observation cfg r o at_ d reason j) = 0.
Proof.
  intros [H1 _ _ _ _ _]. unfold apply_observation. cbv zeta. case_bool_decide.
  - unfold observe_success. cbv zeta. by destruct (_ && _).
  - unfold observe_failure. cbv zeta. simpl. case_bool_decide; simpl; [done|]. destruct (_ <=? _); simpl; [done|].
    destruct (decide (hr_halfOpenToken r = 0)); [done|]. by destruct H0; apply H1.
Qed.

(** *** Steps of the store that give out no token *)

(** Every record with a token had it before. *)
Record quiet (s s' : HealthStore) : Prop := {
  qu_next : hs_nextToken s' = hs_nextToken s;
  qu_token : ∀ k r', hs_entries s' !! k = Some r' → hr_halfOpenToken r' ≠ 0 →
             ∃ r, hs_entries s !! k = Some r ∧ hr_halfOpenToken r = hr_halfOpenToken r' ∧ hr_version r = hr_version r' }.

#[global] Instance quiet_preorder : PreOrder quiet.
Proof.
  split; [intros s; split; naive_solver|]. intros s1 s2 s3 [N1 T1] [N2 T2]. split; [congruence|].
  intros k r3 Hk Ht. destruct (T2 k r3 Hk Ht) as (r2 & Hk2 & Et2 & Ev2).
  destruct (T1 k r2 Hk2) as (r1 & Hk1 & Et1 & Ev1); [congruence|]. exists r1. split_and!; [done | congruence..].
Qed.

Lemma shrinks_quiet s s' : shrinks s s' → quiet s s'.
Proof. intros (Hr & _ & _ & _ & Hn). split; [done|]. intros k r Hk _. exists r. auto. Qed.

Lemma hs_write_quiet s k r r' :
  hs_entries s !! k = Some r → (hr_halfOpenToken r' = 0 ∨ hr_halfOpenToken r' = hr_halfOpenToken r ∧ hr_version r' = hr_version r) →
  quiet s (hs_write s k r').
Proof.
  intros Hk Hr. split; [done|]. simpl. intros x y [[<- <-]|[_ Hx]]%lookup_insert_Some Ht; [|by exists y].
  destruct Hr as [?|[? ?]]; [done|]. by exists r.
Qed.

Lemma hs_touch_quiet s k fresh r s' :
  hs_touch s k fresh = (r, s') → hr_halfOpenToken fresh = 0 → ledger_ok s → quiet s s'.
Proof.
  intros Ht Hf Hl. destruct (hs_touch_spec _ _ _ _ _ Ht Hl) as (_ & Hk & _ & _ & Hn & Ho & Hc). split; [done|].
  intros x y Hx Hy. destruct (decide (x = k)) as [->|Hne]; [|rewrite Ho in Hx by done; by exists y].
  destruct Hc as [[Hc He]|[Hc ->]]; simplify_eq. by exists r.
Qed.

(** The pattern of both observations: touch, write, enforce the bound. *)
Lemma touch_write_ok s k fresh r s' r' :
  hs_touch s k fresh = (r, s') → store_ok s → hr_halfOpenToken fresh = 0 → record_ok (hs_breaker s) fresh →
  (record_ok (hs_breaker s) r → record_ok (hs_breaker s) r') →
  (record_ok (hs_breaker s) r → hr_halfOpenToken r' = 0 ∨ hr_halfOpenToken r' = hr_halfOpenToken r ∧ hr_version r' = hr_version r) →
  store_ok (hs_enforce_bound (hs_write s' k r')) ∧ quiet s (hs_enforce_bound (hs_write s' k r')).
Proof.
  intros Ht Hs Hf Hfr Hr Htok. pose proof Hs as [Hl Hb Hm Hc Hrec].
  destruct (hs_touch_spec _ _ _ _ _ Ht Hl) as (Hl' & Hk & Ebr & Emax & En & Ho & Hcase).
  assert (record_ok (hs_breaker s) r) as Hrok by (destruct Hcase as [[? _]|[_ ->]]; [by eapply Hrec | done]).
  destruct (hs_enforce_ok (hs_write s' k r')) as [Hok Hsh].
  - apply hs_write_ledger; [by rewrite Hk | done].
  - simpl. by rewrite Emax.
  - simpl. by rewrite Ebr.
  - simpl. rewrite Ebr. intros x y [[<- <-]|[Hne Hx]]%lookup_insert_Some; [auto|]. rewrite Ho in Hx by done. by eapply Hrec.
  - split; [done|]. etrans; [by eapply hs_touch_quiet|]. etrans; [|by apply shrinks_quiet].
    apply (hs_write_quiet _ _ r); auto.
Qed.

Lemma new_record_ok cfg : config_ok cfg → record_ok cfg new_record.
Proof. intros [? ?]. split; simpl; try done; try lia. split_and!; simpl; unfold healthDelayRingSize; lia. Qed.

Lemma closed_record_ok cfg : config_ok cfg → record_ok cfg closed_record.
Proof. intros [? ?]. split; simpl; try done; try lia. split_and!; simpl; unfold healthDelayRingSize; lia. Qed.

(** A fresh record takes the observation that created it. *)
Lemma new_record_applies version token active :
  active && negb (version =? 0) = false → observation_applies new_record version token active = true.
Proof. unfold observation_applies. destruct active; simpl; [|done]. rewrite (Z.eqb_sym 0). by intros ->%negb_false_iff. Qed.

Lemma observeLocked_ok s k o at_ d reason v t active j :
  store_ok s → store_ok (observeLocked s k o at_ d reason v t active j) ∧ quiet s (observeLocked s k o at_ d reason v t active j).
Proof.
  intros Hs. destruct (prune_ok s at_ Hs) as [Hp Hsh%shrinks_quiet]. unfold observeLocked. cbv zeta.
  set (s1 := pruneExpiredLocked s at_) in *. destruct (match hs_entries s1 !! k with Some _ => _ | None => _ end) eqn:Est; [done|].
  destruct (hs_touch s1 k new_record) as [r s2] eqn:Et. pose proof (so_ledger _ Hp) as Hl.
  destruct (hs_touch_spec _ _ _ _ _ Et Hl) as (Hl2 & Hk2 & Eb & Em & En & Ho & Hcase).
  assert (quiet s s2) as Hq by (etrans; [done | by eapply hs_touch_quiet]).
  assert (hs_entries s1 !! k = Some r → hs_entries s2 = hs_entries s1 → store_ok s2) as Hs2.
  { intros Hk He. destruct Hp. split; [done | | by rewrite Em | by rewrite Eb |]; unfold health_bounded; rewrite ?He, ?Em, ?Eb; done. }
  destruct (negb (observation_applies r v t active)) eqn:Eap.
  - destruct Hcase as [[Hk He]|[Hk ->]]; [auto|]. rewrite Hk in Est. by rewrite (new_record_applies _ _ _ Est) in Eap.
  - set (r' := apply_observation _ _ _ _ _ _ _).
    assert (record_ok (hs_breaker s1) r → record_ok (hs_breaker s1) r') as Hr'.
    { unfold r'. rewrite Eb. apply apply_observation_ok, Hp. }
    assert (record_ok (hs_breaker s1) r → hr_halfOpenToken r' = 0) as Ht'.
    { unfold r'. rewrite Eb. apply apply_observation_token. }
    pose proof (new_record_ok _ (so_config _ Hp)) as Hnew.
    destruct (bool_decide (o = OutcomeSuccess) && _) eqn:Eho.
    + assert (hs_entries s1 !! k = Some r ∧ hs_entries s2 = hs_entries s1) as [Hk He].
      { destruct Hcase as [?|[_ ->]]; [done|]. exfalso. apply andb_true_iff in Eho as [->%bool_decide_eq_true Eho%bool_decide_eq_true].
        revert Eho. unfold r', apply_observation. cbv zeta. simpl. unfold observe_success. cbv zeta.
        destruct (0 <? d); simpl; [|done]. unfold recordHealthDelay. by destruct (d <=? 0). }
      pose proof (so_records _ Hp _ _ Hk) as Hr0. split.
      * eapply hs_write_ok; [done | rewrite Eb; auto | auto].
      * etrans; [done|]. apply (hs_write_quiet _ _ r); auto.
    + destruct (touch_write_ok s1 k new_record r s2 r') as [? ?]; auto. split; [done | by transitivity s1].
Qed.

Lemma observeQualityLocked_ok s k o at_ d reason w :
  store_ok s → store_ok (observeQualityLocked s k o at_ d reason w) ∧ quiet s (observeQualityLocked s k o at_ d reason w).
Proof.
  intros Hs. destruct (prune_ok s at_ Hs) as [Hp Hsh%shrinks_quiet]. unfold observeQualityLocked. cbv zeta.
  set (s1 := pruneExpiredLocked s at_) in *. destruct (match hs_entries s1 !! k with Some _ => _ | None => _ end); [done|].
  destruct (hs_touch s1 k closed_record) as [r s2] eqn:Et.
  destruct (hs_touch_spec _ _ _ _ _ Et (so_ledger _ Hp)) as (_ & _ & Eb & _).
  destruct (apply_quality_machine (hs_breaker s2) r o at_ d reason w) as (_ & _ & _ & _ & Etok & Ev & _).
  destruct (touch_write_ok s1 k closed_record r s2 (apply_quality (hs_breaker s2) r o at_ d reason w)) as [? ?]; auto.
  - apply closed_record_ok, Hp.
  - rewrite Eb. apply apply_quality_ok.
  - split; [done | by transitivity s1].
Qed.

(** *** Token ownership *)

(** The entry that owns the token of a record. *)
Definition owner (k : healthKey) (r : healthRecord) : permitEntry := mkPermitEntry k (hr_version r) (hr_halfOpenToken r).

(** Every token out is owned by one of the entries [E]. *)
Definition owned (E : list permitEntry) (s : HealthStore) : Prop :=
  ∀ k r, hs_entries s !! k = Some r → hr_halfOpenToken r ≠ 0 → owner k r ∈ E.

(** The tokens of [E] were given out by the counter, each once. *)
Record tokens_ok (E : list permitEntry) (s : HealthStore) : Prop := {
  tk_next : 0 ≤ hs_nextToken s;
  tk_below : ∀ e, e ∈ E → 0 ≤ pe_halfOpenToken e ≤ hs_nextToken s;
  tk_once : NoDup (filter (λ t, t ≠ 0) (pe_halfOpenToken <$> E)) }.

Lemma owned_quiet E s s' : quiet s s' → owned E s → owned E s'.
Proof.
  intros [_ Hq] Ho k r' Hk Ht. destruct (Hq k r' Hk Ht) as (r & Hr & Et & Ev).
  pose proof (Ho k r Hr) as Hin. unfold owner in *. rewrite Et, Ev in Hin. auto.
Qed.

Lemma tokens_quiet E s s' : quiet s s' → tokens_ok E s → tokens_ok E s'.
Proof. intros [En _] [? ? ?]. split; rewrite ?En; done. Qed.

Lemma releaseToken_ok s e : store_ok s → store_ok (releaseTokenLocked s e) ∧ quiet s (releaseTokenLocked s e).
Proof.
  intros Hs. unfold releaseTokenLocked. destruct (hs_entries s !! pe_key e) as [r|] eqn:Ek; [|done].
  destruct (_ && _) eqn:Ec; [|done]. split; [|by eapply hs_write_quiet; [done | left]].
  eapply hs_write_ok; [done | | done]. destruct (so_records _ Hs _ _ Ek) as [H1 H2 H3 H4 H5 H6].
  apply andb_true_iff in Ec as [_ Eb%bool_decide_eq_true]. rewrite Eb in H4. split; simpl; try done; naive_solver.
Qed.

(** Releasing an entry takes it out of the owners. *)
Lemma releaseToken_owned E e s : store_ok s → owned (e :: E) s → owned E (releaseTokenLocked s e).
Proof.
  intros Hs Ho k r Hk Ht.
  destruct (releaseToken_ok s e Hs) as [_ [_ Hq]]. destruct (Hq k r Hk Ht) as (r0 & Hk0 & Et & Ev).
  pose proof (Ho k r0 Hk0) as Hin. unfold owner in Hin. rewrite Et, Ev in Hin. specialize (Hin Ht).
  apply elem_of_cons in Hin as [He|Hin]; [exfalso|done]. subst e. clear Hq. unfold releaseTokenLocked in Hk.
  cbn [pe_key pe_version pe_halfOpenToken] in Hk.
  rewrite Hk0, Et, Ev, !Z.eqb_refl, (proj2 (Z.eqb_neq _ _) Ht) in Hk.
  rewrite (bool_decide_eq_true_2 (st_Breaker (hr_status r0) = BreakerHalfOpen)) in Hk
    by (apply (ro_token _ _ (so_records _ Hs _ _ Hk0)); congruence).
  simpl in Hk. rewrite lookup_insert_eq in Hk. apply (f_equal (from_option hr_halfOpenToken 0)) in Hk. simpl in Hk. congruence.
Qed.

Lemma releasePermit_ok entries s :
  store_ok s → store_ok (releasePermit s entries) ∧ quiet s (releasePermit s entries).
Proof.
  unfold releasePermit. revert s. induction entries as [|e entries IH]; intros s Hs; [done|]. simpl.
  destruct (releaseToken_ok s e Hs) as [H1 H2]. destruct (IH _ H1) as [H3 H4]. split; [done | by etrans].
Qed.

Lemma releasePermit_owned E entries s :
  store_ok s → owned (E ++ entries) s → owned E (releasePermit s entries).
Proof.
  unfold releasePermit. revert s. induction entries as [|e entries IH]; intros s Hs Ho; simpl; [by rewrite app_nil_r in Ho|].
  apply IH; [by apply releaseToken_ok|]. apply releaseToken_owned; [done|].
  intros k r Hk Ht. specialize (Ho k r Hk Ht). rewrite elem_of_app, elem_of_cons in Ho. rewrite elem_of_cons, elem_of_app. tauto.
Qed.

Lemma availableLocked_ok cfg r now ok r' :
  availableLocked r now = (ok, r') → record_ok cfg r →
  record_ok cfg r' ∧ ok = availableReadOnly r now ∧ hr_halfOpenToken r' = hr_halfOpenToken r ∧ hr_version r' = hr_version r ∧
  (ok = true → r' = r ∧ hr_halfOpenToken r = 0).
Proof.
  intros Ha [H1 H2 H3 H4 H5 H6]. unfold availableLocked, availableReadOnly in *.
  assert (st_Breaker (hr_status r) ≠ BreakerHalfOpen → hr_halfOpenToken r = 0) as Htok.
  { intros Hn. destruct (decide (hr_halfOpenToken r = 0)); [done|]. by destruct Hn; apply H1. }
  destruct (st_Breaker (hr_status r)) eqn:Eb.
  4: destruct (time_before now (hr_openUntil r)).
  all: simplify_eq; (split; [split; simpl; rewrite ?Eb; try done; naive_solver|]); split_and!; try done; try (by intros; auto).
  intros ?%Z.eqb_eq. auto.
Qed.

(** A token given to a record that had none. *)
Lemma acquire_record_ok s k r s' e :
  acquire_record s k r = (s', e) → hs_entries s !! k = Some r → store_ok s → 0 ≤ hs_nextToken s → hs_nextToken s + 1 < 2 ^ 64 →
  hr_halfOpenToken r = 0 →
  store_ok s' ∧ hs_nextToken s ≤ hs_nextToken s' ≤ hs_nextToken s + 1 ∧
  (∀ E, owned E s → tokens_ok E s → owned (E ++ [e]) s' ∧ tokens_ok (E ++ [e]) s').
Proof.
  unfold acquire_record. intros Ha Hk Hs Hn Hw Ht.
  assert (u64 (hs_nextToken s + 1) = hs_nextToken s + 1) as Eu by (apply Z.mod_small; lia).
  destruct (breaker_tripped _) eqn:Eb; simplify_eq.
  - pose proof (so_records _ Hs _ _ Hk) as [H1 H2 H3 H4 H5 H6].
    set (r' := with_machine _ _ _ _ _ _ _ _). assert (record_ok (hs_breaker s) r') as Hr' by (split; simpl; try done; naive_solver).
    split; [|split].
    + destruct (hs_write_ok s k r r' Hk Hr' Hs) as [[? ?] ? ? ? ?]. by split; [split|..].
    + simpl. lia.
    + intros E Ho [_ Hbel Honce]. split.
      * intros x y Hx Hy. simpl in Hx. apply elem_of_app. apply lookup_insert_Some in Hx as [[<- <-]|[Hne Hx]].
        -- right. by apply list_elem_of_singleton.
        -- left. by apply Ho.
      * split; simpl; rewrite ?Eu; [lia | |].
        -- intros e [?%Hbel | ->%list_elem_of_singleton]%elem_of_app; simpl; lia.
        -- rewrite fmap_app, filter_app, list.NoDup_app. split_and!; [done | | apply NoDup_filter, NoDup_singleton].
           intros t [_ Hin]%list_elem_of_filter [_ Ht'%list_elem_of_singleton]%list_elem_of_filter.
           apply list_elem_of_fmap in Hin as (e & He & Hin%Hbel). simpl in Ht'. lia.
  - split_and!; [done | lia | lia |]. intros E Ho [_ Hbel Honce]. split.
    + intros x y Hx Hy. apply elem_of_app. left. by apply Ho.
    + split; [done | | by rewrite fmap_app, filter_app; simpl; rewrite app_nil_r].
      intros e [? | ->%list_elem_of_singleton]%elem_of_app; [auto | simpl; lia].
Qed.

(** What an acquisition leaves: with a permit its entries join the owners, and
    without one no token stays behind. *)
Record acquired (E : list permitEntry) (n : nat) (s s' : HealthStore) (res : option AttemptPermit) : Prop := {
  aq_ok : store_ok s';
  aq_next : hs_nextToken s ≤ hs_nextToken s' ≤ hs_nextToken s + Z.of_nat n;
  aq_owned : owned (E ++ from_option ap_entries [] res) s';
  aq_tokens : tokens_ok (E ++ from_option ap_entries [] res) s' }.

Lemma tokens_app_l E E' s : tokens_ok (E ++ E') s → tokens_ok E s.
Proof.
  intros [? Hb Ho]. split; [done | |].
  - intros e He. apply Hb, elem_of_app. auto.
  - rewrite fmap_app, filter_app in Ho. by apply list.NoDup_app in Ho as [? _].
Qed.

Lemma tokens_zero E k v s : tokens_ok E s → tokens_ok (E ++ [mkPermitEntry k v 0]) s.
Proof.
  intros [Hn Hb Ho]. split; [done | | by rewrite fmap_app, filter_app; simpl; rewrite app_nil_r].
  intros e [? | ->%list_elem_of_singleton]%elem_of_app; [auto | simpl; lia].
Qed.

Lemma owned_weaken E E' s : owned E s → owned (E ++ E') s.
Proof. intros Ho k r Hk Ht. apply elem_of_app. left. by apply Ho. Qed.

Lemma recordForKey_lookup s k r k' : recordForKeyLocked s k = (Some r, k') → hs_entries s !! k' = Some r.
Proof. unfold recordForKeyLocked. intros. repeat case_match; naive_solver. Qed.

(** Writing back what [availableLocked] left. *)
Lemma available_write s k r now ok r' :
  hs_entries s !! k = Some r → availableLocked r now = (ok, r') → store_ok s →
  store_ok (hs_write s k r') ∧ quiet s (hs_write s k r').
Proof.
  intros Hk Ha Hs. destruct (availableLocked_ok (hs_breaker s) _ _ _ _ Ha) as (Hr & _ & Et & Ev & _); [by eapply so_records|].
  split; [by eapply hs_write_ok | by eapply hs_write_quiet; [|right]].
Qed.

Lemma acquire_loop_ok E keys s now entries s' res :
  acquire_loop s keys now entries = (s', res) → store_ok s → hs_nextToken s + Z.of_nat (length keys) < 2 ^ 64 →
  owned (E ++ entries) s → tokens_ok (E ++ entries) s → acquired E (length keys) s s' res.
Proof.
  revert s entries. induction keys as [|k keys IH]; intros s entries; cbn [acquire_loop length].
  { intros ? Hs _ Ho Ht. simplify_eq. split; simpl; [done | lia | done | done]. }
  intros Ha Hs Hw Ho Ht. destruct (recordForKeyLocked s k) as [[r|] k'] eqn:Er.
  - apply recordForKey_lookup in Er. destruct (availableLocked r now) as [ok r1] eqn:Eav.
    destruct (available_write _ _ _ _ _ _ Er Eav Hs) as [Hs1 Hq1].
    destruct (availableLocked_ok (hs_breaker s) _ _ _ _ Eav) as (_ & _ & _ & _ & Hav); [by eapply so_records|].
    pose proof (owned_quiet _ _ _ Hq1 Ho) as Ho1. pose proof (tokens_quiet _ _ _ Hq1 Ht) as Ht1.
    destruct ok; simpl in Ha.
    + destruct Hav as [-> Hz]; [done|]. destruct (acquire_record _ k' r) as [s2 e] eqn:Ea.
      destruct (acquire_record_ok _ _ _ _ _ Ea) as (Hs2 & Hn2 & Hacq); try done; simpl;
        [by rewrite lookup_insert_eq | apply (tk_next _ _ Ht) | lia |].
      destruct (Hacq _ Ho1 Ht1) as [Ho2 Ht2]. rewrite <- app_assoc in Ho2, Ht2. simpl in Hn2.
      destruct (IH _ _ Ha) as [? ? ? ?]; [done | lia | done | done |]. split; [done | lia | done | done].
    + simplify_eq. destruct (releasePermit_ok entries _ Hs1) as [Hs2 Hq2].
      split; simpl; rewrite ?app_nil_r; [done | | by apply releasePermit_owned |].
      * rewrite (qu_next _ _ Hq2), (qu_next _ _ Hq1). lia.
      * apply (tokens_quiet _ _ _ Hq2). by eapply tokens_app_l.
  - destruct (IH _ _ Ha Hs) as [? ? ? ?]; [lia | rewrite app_assoc; by apply owned_weaken | rewrite app_assoc; by apply tokens_zero |].
    split; [done | lia | done | done].
Qed.

Lemma select_scan_elem keep order sel k r :
  select_scan keep order sel = Some (k, r) → sel = Some (k, r) ∨ (k, r) ∈ order ∧ keep k = true.
Proof.
  revert sel. induction order as [|[k0 r0] order IH]; intros sel Hs; simpl in Hs; [auto|].
  destruct (IH _ Hs) as [Hsel|[? ?]]; [|right; split; [by right | done]].
  destruct (keep k0 && _) eqn:Eb; [|auto]. simplify_eq. right. apply andb_true_iff in Eb as [? _]. split; [by left | done].
Qed.

Lemma mostRestrictive_elem h t order k r :
  mostRestrictiveTransportRecordLocked h t order = Some (k, r) → (k, r) ∈ order.
Proof.
  unfold mostRestrictiveTransportRecordLocked. destruct (splitHealthTransport t) as [class family].
  intros. repeat case_match; simplify_eq. match goal with H : select_scan _ _ _ = _ |- _ => by destruct (select_scan_elem _ _ _ _ _ H) as [?|[? _]] end.
Qed.

(** The records visited by a loop over the map, in any order. *)
Definition visits (s : HealthStore) (order : list (healthKey * healthRecord)) : Prop := order ≡ₚ map_to_list (hs_entries s).

Lemma visits_lookup s order k r : visits s order → (k, r) ∈ order → hs_entries s !! k = Some r.
Proof. intros Hv Hin. apply elem_of_map_to_list. by rewrite <- Hv. Qed.

Lemma TryAcquireDomainPermit_ok E s h d t svc now order s' res :
  TryAcquireDomainPermitHandle s h d t svc now order = (s', res) → visits s order → store_ok s →
  hs_nextToken s + 1 < 2 ^ 64 → owned E s → tokens_ok E s → acquired E 1 s s' res.
Proof.
  unfold TryAcquireDomainPermitHandle. intros Ha Hv Hs Hw Ho Ht.
  set (t' := if bool_decide (d = DomainTransport) then transportLedgerKey t else t) in Ha.
  destruct (recordForKeyLocked s (key_of h d t' svc)) as [rec0 k0] eqn:Er.
  destruct (match rec0 with Some r => _ | None => _ end) as [rec k] eqn:Erec.
  assert (∀ r, rec = Some r → hs_entries s !! k = Some r) as Hrec.
  { intros r ->. destruct rec0 as [r0|]; [simplify_eq; by eapply recordForKey_lookup|].
    repeat case_match; simplify_eq; (eapply visits_lookup; [done | by eapply mostRestrictive_elem]). }
  destruct rec as [r|]; [|simplify_eq; split; simpl; [done | lia | by apply owned_weaken | by apply tokens_zero]].
  specialize (Hrec r eq_refl). destruct (availableLocked r now) as [ok r1] eqn:Eav.
  destruct (available_write _ _ _ _ _ _ Hrec Eav Hs) as [Hs1 Hq1].
  destruct (availableLocked_ok (hs_breaker s) _ _ _ _ Eav) as (_ & _ & _ & _ & Hav); [by eapply so_records|].
  pose proof (owned_quiet _ _ _ Hq1 Ho) as Ho1. pose proof (tokens_quiet _ _ _ Hq1 Ht) as Ht1.
  destruct ok; simpl in Ha; [|simplify_eq; split; simpl; rewrite ?app_nil_r; [done | lia | done | done]].
  destruct Hav as [-> Hz]; [done|]. destruct (acquire_record _ k r) as [s2 e] eqn:Ea.
  destruct (acquire_record_ok _ _ _ _ _ Ea) as (Hs2 & Hn2 & Hacq); try done; simpl;
    [by rewrite lookup_insert_eq | apply (tk_next _ _ Ht) |].
  destruct (Hacq _ Ho1 Ht1) as [Ho2 Ht2]. simpl in Hn2. simplify_eq. split; simpl; [done | lia | done | done].
Qed.

Lemma fallback_tokens s keys entries p :
  fallback_loop s keys entries = Some p → (∀ e, e ∈ entries → pe_halfOpenToken e = 0) → ∀ e, e ∈ ap_entries p → pe_halfOpenToken e = 0.
Proof.
  revert entries. induction keys as [|k keys IH]; intros entries; cbn [fallback_loop]; [naive_solver|].
  intros Hf Hz. destruct (hs_entries s !! k) as [r|]; [destruct (bool_decide _); [done|]|]; apply (IH _ Hf);
    intros e [? | ->%list_elem_of_singleton]%elem_of_app; auto.
Qed.

Lemma tokens_zeros E E' s : (∀ e, e ∈ E' → pe_halfOpenToken e = 0) → tokens_ok E s → tokens_ok (E ++ E') s.
Proof.
  intros Hz [Hn Hb Ho]. split; [done | |].
  - intros e [? | He%Hz]%elem_of_app; [auto | lia].
  - rewrite fmap_app, filter_app. assert (filter (λ t, t ≠ 0) (pe_halfOpenToken <$> E') = []) as ->; [|by rewrite app_nil_r].
    clear - Hz. induction E' as [|e E' IH]; [done|]. cbn [fmap list_fmap]. rewrite filter_cons_False.
    + apply IH. intros x Hx. apply Hz. by right.
    + rewrite (Hz e) by by left. tauto.
Qed.

Lemma complete_loop_ok s entries outcomes at_ d reason j :
  store_ok s → store_ok (complete_loop s entries outcomes at_ d reason j) ∧ quiet s (complete_loop s entries outcomes at_ d reason j).
Proof.
  revert s. induction entries as [|e entries IH]; intros s Hs; [done|]. cbn [complete_loop]. cbv zeta.
  set (s1 := match outcomes (hk_domain (pe_key e)) with Some _ => _ | None => _ end).
  assert (store_ok s1 ∧ quiet s s1) as [Hs1 Hq1].
  { unfold s1. destruct (outcomes _) as [[]|]; first [by apply releaseToken_ok | by apply observeLocked_ok]. }
  destruct (IH s1 Hs1) as [? ?]. split; [done | by etrans].
Qed.

Lemma ObserveEvidence_ok s h d t svc o at_ delay reason elig w clock j :
  store_ok s → store_ok (ObserveEvidence s h d t svc o at_ delay reason elig w clock j) ∧
  quiet s (ObserveEvidence s h d t svc o at_ delay reason elig w clock j).
Proof.
  intros Hs. unfold ObserveEvidence. cbv zeta. destruct (bool_decide (o = _)); [done|].
  destruct elig; [by apply observeLocked_ok | by apply observeQualityLocked_ok].
Qed.

Lemma health_RetireNodeHandle_ok s h order :
  store_ok s → store_ok (health_RetireNodeHandle s h order) ∧ quiet s (health_RetireNodeHandle s h order).
Proof.
  unfold health_RetireNodeHandle. revert s. induction order as [|[k r] order IH]; intros s Hs; [done|]. simpl.
  assert (store_ok (if same_node h k then removeKey s k else s) ∧ quiet s (if same_node h k then removeKey s k else s)) as [H1 H2].
  { destruct (same_node h k); [|done]. pose proof (removeKey_shrinks s k). split; [|by apply shrinks_quiet].
    eapply shrinks_ok; [done | by apply removeKey_ledger, Hs | done]. }
  destruct (IH _ H1) as [? ?]. split; [done | by etrans].
Qed.

(** ** Backoff: the loop is a capped power of two *)

Lemma i64_small z : 0 ≤ z < 2 ^ 63 → i64 z = z.
Proof. intros. unfold i64. rewrite Z.mod_small; lia. Qed.

Lemma backoff_loop_min n m b :
  2 * Z.quot m 2 = m → m < 2 ^ 63 → 0 < b ≤ m → Z.min (backoff_loop n m b) m = Z.min (b * 2 ^ Z.of_nat n) m.
Proof.
  intros Hm Hm63. revert b. induction n as [|n IH]; intros b Hb; cbn [backoff_loop].
  { by rewrite Z.mul_1_r. }
  rewrite Nat2Z.inj_succ, Z.pow_succ_r by lia. pose proof (Z.pow_pos_nonneg 2 (Z.of_nat n)) as Hp.
  destruct (Z.leb_spec (Z.quot m 2) b); [nia|]. rewrite i64_small by lia. rewrite IH by lia. f_equal. ring.
Qed.

Lemma open_backoff_floor cfg n j :
  config_ok cfg → Z.quot (bc_BaseCooldown cfg) 2 ≤ open_backoff cfg n j ≤ bc_MaxCooldown cfg.
Proof.
  intros [_ [Hb Hm]]. unfold open_backoff. cbv zeta.
  pose proof (Z.quot_le_upper_bound (bc_BaseCooldown cfg) 2 (bc_BaseCooldown cfg)).
  rewrite (proj2 (Z.ltb_lt 0 (bc_BaseCooldown cfg))) by done. rewrite andb_true_r.
  destruct (Z.ltb_spec (Z.min (j (Z.min (backoff_loop (Z.to_nat (n - 1)) (bc_MaxCooldown cfg) (bc_BaseCooldown cfg)) (bc_MaxCooldown cfg)))
    (bc_MaxCooldown cfg)) (Z.quot (bc_BaseCooldown cfg) 2)); lia.
Qed.

(** The cooldown of a breaker that opens for the [n]-th time in a row is
    exactly [min(max, base * 2^(n-1))] when the jitter is off, computed without
    overflow of the 64-bit duration whatever [n] is; and whatever the jitter
    returns, the window stays between half the base and the maximum. *)
Theorem backoff_capped_power cfg n :
  config_ok cfg → 2 * Z.quot (bc_MaxCooldown cfg) 2 = bc_MaxCooldown cfg → bc_MaxCooldown cfg < 2 ^ 63 → 1 ≤ n →
  open_backoff cfg n (λ b, b) = Z.min (bc_MaxCooldown cfg) (bc_BaseCooldown cfg * 2 ^ (n - 1)) ∧
  ∀ jitter, Z.quot (bc_BaseCooldown cfg) 2 ≤ open_backoff cfg n jitter ≤ bc_MaxCooldown cfg.
Proof.
  intros Hc Heven H63 Hn. split; [|intros; by apply open_backoff_floor]. destruct Hc as [_ [Hb Hm]].
  unfold open_backoff. cbv zeta. rewrite backoff_loop_min by lia. rewrite Z2Nat.id by lia.
  pose proof (Z.pow_pos_nonneg 2 (n - 1)). pose proof (Z.quot_le_upper_bound (bc_BaseCooldown cfg) 2 (bc_BaseCooldown cfg)).
  rewrite (proj2 (Z.ltb_ge _ _)) by nia. simpl. lia.
Qed.

Lemma backoff_capped_power_witness :
  open_backoff defaultBreakerConfig 4 (λ b, b) = 40 * second ∧ open_backoff defaultBreakerConfig 100 (λ b, b) = 5 * minute.
Proof.
  split.
  - rewrite (proj1 (backoff_capped_power defaultBreakerConfig 4 ltac:(by vm_compute) eq_refl eq_refl ltac:(lia))). reflexivity.
  - rewrite (proj1 (backoff_capped_power defaultBreakerConfig 100 ltac:(by vm_compute) eq_refl eq_refl ltac:(lia))). reflexivity.
Defined.

(** ** The breaker as a three-phase machine *)

(** The abstract breaker: closed with a failure count, open, or being probed;
    the last two remember whether one probe has succeeded. *)
Inductive phase : Type :=
| PClosed (failures : Z)
| POpen (failures : Z) (confirmed : bool)
| PProbe (failures : Z) (confirmed : bool).

Definition phase_of (r : healthRecord) : phase :=
  match st_Breaker (hr_status r) with
  | BreakerOpen | BreakerCooldown => POpen (hr_consecutiveFailure r) (hr_recoverySuccesses r =? 1)
  | BreakerHalfOpen => PProbe (hr_consecutiveFailure r) (hr_recoverySuccesses r =? 1)
  | _ => PClosed (hr_consecutiveFailure r)
  end.

(** A failure counts towards the threshold unless the record is being probed,
    when it reopens at once. *)
Definition phase_failure (threshold : Z) (p : phase) : phase :=
  match p with
  | PProbe n _ => POpen (n + 1) false
  | PClosed n | POpen n _ => if threshold <=? n + 1 then POpen (n + 1) false else PClosed (n + 1)
  end.
(** Two probes have to succeed. *)
Definition phase_success (p : phase) : phase :=
  match p with PProbe _ false => PProbe 0 true | _ => PClosed 0 end.
Definition phase_acquire (p : phase) : phase := match p with POpen n b => PProbe n b | p => p end.
Definition phase_release (p : phase) : phase := match p with PProbe n b => POpen n b | p => p end.

Lemma apply_observation_phase cfg r o at_ d reason j :
  record_ok cfg r →
  phase_of (apply_observation cfg r o at_ d reason j) =
    (if bool_decide (o = OutcomeSuccess) then phase_success (phase_of r) else phase_failure (bc_FailureThreshold cfg) (phase_of r)).
Proof.
  intros [H1 H2 [H3 _] H4 H5 _]. unfold apply_observation. cbv zeta. destruct (bool_decide (o = OutcomeSuccess)).
  - set (r1 := if 0 <? d then _ else _).
    assert (phase_of r1 = phase_of r ∧ hr_recoverySuccesses r1 = hr_recoverySuccesses r ∧
            st_Breaker (hr_status r1) = st_Breaker (hr_status r)) as (Hp & Hr & Hb).
    { unfold r1. destruct (0 <? d); [|done]. set (r0 := with_status r _).
      destruct (recordHealthDelay_machine r0 d) as (A & _ & B & _ & _ & _ & C & _). unfold phase_of. by rewrite A, B, C. }
    rewrite <- Hp. unfold observe_success, phase_of. cbv zeta. simpl. rewrite Hb, Hr.
    destruct (st_Breaker (hr_status r)); simpl; try done.
    destruct (Z.eqb_spec (hr_recoverySuccesses r) 1) as [->|]; [done|]. assert (hr_recoverySuccesses r = 0) as -> by lia. done.
  - unfold observe_failure, phase_of. cbv zeta. simpl. destruct (st_Breaker (hr_status r)) eqn:Eb; simpl; try done;
      destruct (bc_FailureThreshold cfg <=? hr_consecutiveFailure r + 1); done.
Qed.

Lemma acquire_phase s k r s' e :
  acquire_record s k r = (s', e) → hs_entries s !! k = Some r →
  ∃ r', hs_entries s' !! k = Some r' ∧ phase_of r' = phase_acquire (phase_of r).
Proof.
  unfold acquire_record, phase_of. intros Ha Hk. destruct (st_Breaker (hr_status r)) eqn:Eb; simpl in Ha; simplify_eq;
    try (exists r; rewrite Eb; done); (eexists; split; [simpl; apply lookup_insert_eq|]; done).
Qed.

Lemma release_phase s e r :
  hs_entries s !! pe_key e = Some r → e = owner (pe_key e) r → hr_halfOpenToken r ≠ 0 → store_ok s →
  ∃ r', hs_entries (releaseTokenLocked s e) !! pe_key e = Some r' ∧ hr_halfOpenToken r' = 0 ∧
        phase_of r' = phase_release (phase_of r).
Proof.
  intros Hk He Ht Hs. unfold releaseTokenLocked. rewrite Hk. pose proof (ro_token _ _ (so_records _ Hs _ _ Hk) Ht) as Eb.
  assert (pe_version e = hr_version r) as -> by (by rewrite He). assert (pe_halfOpenToken e = hr_halfOpenToken r) as -> by (by rewrite He).
  rewrite !Z.eqb_refl, (proj2 (Z.eqb_neq _ _) Ht), (bool_decide_eq_true_2 _ Eb). simpl.
  eexists. split; [apply lookup_insert_eq|]. unfold phase_of. simpl. by rewrite Eb.
Qed.


(** A store with one record, under the default limits. *)
Definition one_record (k : healthKey) (r : healthRecord) : HealthStore :=
  hs_write (with_entries (NewHealthStore 0 0) ∅ [k]) k r.
Lemma one_record_ok k r : record_ok defaultBreakerConfig r → store_ok (one_record k r).
Proof.
  intros Hr. split; [split; simpl | | done | by vm_compute |].
  - apply NoDup_singleton.
  - intros x. rewrite list_elem_of_singleton. destruct (decide (x = k)) as [->|]; [rewrite lookup_insert_eq; naive_solver|].
    rewrite lookup_insert_ne, lookup_empty by done. split; [done | by intros [? ?]].
  - unfold health_bounded. simpl. rewrite insert_empty, map_size_singleton. lia.
  - simpl. intros x y [[_ <-]|[_ ?]]%lookup_insert_Some; [done | by rewrite lookup_empty in *].
Qed.

Definition sample_key : healthKey := mkHealthKey 1 0 1 DomainEndpoint "" "".

(** A record that failed three times at time 1 and cools down for 5 seconds. *)
Definition opened_record : healthRecord :=
  Nat.iter 3 (λ r, apply_observation defaultBreakerConfig r OutcomeFailure 1 0 "refused" (λ b, b)) new_record.
Lemma opened_record_ok : record_ok defaultBreakerConfig opened_record.
Proof. do 3 (apply apply_observation_ok; [by vm_compute|]). apply new_record_ok. by vm_compute. Qed.

