(* ===== verification/AdaptiveCapability.v ===== *)
(** * Path capabilities and attempt permits of the adaptive pool

    [src/protocol/group/adaptive/node_capability.go]: the read-only view of a
    node per transport path, with the fail-open dual-stack policy.
    [health.go]: the entry points that combine it with the ledger of
    [AdaptiveHealth.v] to grant attempt permits.  The last part puts the store
    and the permits it has issued together, as a system of steps, one per entry
    point.

    A loop over the ledger visits the records in an arbitrary order, which is an
    argument [order] of the operations that have such a loop. *)

From Stdlib Require Import ZArith Lia QArith.
From S2P Require Import Prelude AdaptiveLease AdaptiveHealth.
From stdpp Require Import base gmap list strings numbers sorting.

#[local] Set Warnings "-clear-no-such-hyp".

Local Open Scope Z_scope.

(** ** Path states *)

Definition PathStateUnknown : string := "unknown".
Definition PathStateHealthy : string := "healthy".
Definition PathStateDegraded : string := "degraded".
Definition PathStateUnreachable : string := "unreachable".
Definition PathStateOpen : string := "open".
Definition PathStateCooldown : string := "cooldown".
Definition PathStateCooldownReady : string := "cooldown_ready".
Definition PathStateHalfOpen : string := "half_open".
Definition PathStateRecoveryPending : string := "recovery_pending".

Definition breaker_string (b : BreakerState) : string :=
  match b with
  | BreakerNone => "" | BreakerUnknown => "unknown" | BreakerClosed => "closed"
  | BreakerOpen => "open" | BreakerCooldown => "cooldown" | BreakerHalfOpen => "half_open"
  end.
Definition health_string (h : HealthState) : string :=
  match h with
  | HealthNone => "" | HealthUnknown => "unknown" | HealthHealthy => "healthy"
  | HealthDegraded => "degraded" | HealthUnreachable => "unreachable"
  end.

Record PathCapability : Type := mkCapability {
  pc_Path : string;
  pc_Available : bool;
  pc_Known : bool;
  pc_State : string;
  pc_Health : string;
  pc_Breaker : string;
  pc_SmoothedDelayMs : Z;
  pc_ConsecutiveFailures : Z;
  pc_RecoverySuccesses : Z;
  pc_BackoffMs : Z;
  pc_OpenUntil : Z;
  pc_Reason : string;
  pc_LastFailure : string }.

(** The literals of the source, which give the first fields only. *)
Definition bare_capability (path : string) (available known : bool) (state : string) (delay : Z) (lastFailure : string) : PathCapability :=
  mkCapability path available known state "" "" delay 0 0 0 0 "" lastFailure.

Record NodeCapabilityProfile : Type := mkProfile {
  np_TCP4 : PathCapability;
  np_TCP6 : PathCapability;
  np_DNSUDPv4 : PathCapability;
  np_DNSUDPv6 : PathCapability;
  np_DataUDPv4 : PathCapability;
  np_DataUDPv6 : PathCapability;
  np_Endpoint : PathCapability }.

Record ServiceContext : Type := mkService {
  sc_ID : string;
  sc_Transport : string;
  sc_HealthTransport : string }.

Definition serviceHealthTransport (service : ServiceContext) : string :=
  if negb (String.eqb (sc_HealthTransport service) "") then sc_HealthTransport service else sc_Transport service.
Definition RequiredPathForService (service : ServiceContext) : string := serviceHealthTransport service.

(** selection_memory.go: saturating conversion to milliseconds. *)
Definition durationMillis32 (value : Z) : Z :=
  if value <=? 0 then 0
  else let milliseconds := Z.quot value millisecond in if u32_max <=? milliseconds then u32_max else u32 milliseconds.

(** ** One path *)

Definition classifyPathCapability (st : HealthStatus) (now : Z) : string * bool :=
  let health :=
    match st_Health st with
    | HealthHealthy => (PathStateHealthy, true)
    | HealthDegraded => (PathStateDegraded, true)
    | HealthUnreachable => (PathStateUnreachable, false)
    | _ => (PathStateUnknown, true)
    end in
  match st_Breaker st with
  | BreakerOpen =>
      if time_is_zero (st_CooldownUntil st) || time_before now (st_CooldownUntil st) then (PathStateOpen, false)
      else (PathStateCooldownReady, true)
  | BreakerCooldown =>
      if time_is_zero (st_CooldownUntil st) || time_before now (st_CooldownUntil st) then (PathStateCooldown, false)
      else (PathStateCooldownReady, true)
  | BreakerHalfOpen => if st_RecoverySuccesses st <? 2 then (PathStateRecoveryPending, true) else (PathStateHalfOpen, true)
  | _ => health
  end.

Definition breaker_set (b : BreakerState) : bool := negb (bool_decide (b = BreakerClosed)) && negb (bool_decide (b = BreakerNone)).

Definition EndpointHandle (s : HealthStore) (h : NodeHandle) : HealthStatus :=
  StatusHandle s h DomainEndpoint "" "" [].

Definition capability_of (path : string) (st : HealthStatus) (now : Z) : PathCapability :=
  let known := negb (bool_decide (st_Health st = HealthUnknown)) || (0 <? st_Successes st) || (0 <? st_Failures st) || breaker_set (st_Breaker st) in
  let '(state, available) := classifyPathCapability st now in
  let lastFailure :=
    if negb available then
      if negb (String.eqb (st_Reason st) "") then st_Reason st
      else if breaker_set (st_Breaker st) then breaker_string (st_Breaker st) else health_string (st_Health st)
    else if String.eqb state PathStateRecoveryPending then "recovery_pending"%string else ""%string in
  mkCapability path available known state (health_string (st_Health st)) (breaker_string (st_Breaker st))
    (durationMillis32 (RankingDelay st)) (st_ConsecutiveFailures st) (st_RecoverySuccesses st)
    (u32 (Z.max 0 (Z.quot (st_Backoff st) millisecond))) (st_CooldownUntil st) (st_Reason st) lastFailure.

Definition at_or_clock (now clock : Z) : Z := if time_is_zero now then clock else now.

(** [pathCapability], at a time that is not zero (each caller replaces a zero
    time by the store's clock first). *)
Definition pathCapability (s : HealthStore) (h : NodeHandle) (path : string) (now : Z) (order : list (healthKey * healthRecord)) : PathCapability :=
  capability_of path (if String.eqb path "" then EndpointHandle s h else StatusHandle s h DomainTransport path "" order) now.

Definition BuildCapabilityProfile (s : HealthStore) (h : NodeHandle) (now clock : Z) : NodeCapabilityProfile :=
  let now := at_or_clock now clock in
  let cap path := pathCapability s h path now [] in
  mkProfile (cap "tcp/ipv4") (cap "tcp/ipv6") (cap "udp_dns/ipv4") (cap "udp_dns/ipv6") (cap "udp_data/ipv4") (cap "udp_data/ipv6") (cap "").

(** ** Dual-stack policy *)

Definition known_good (c : PathCapability) : bool := pc_Known c && pc_Available c.
Definition known_bad (c : PathCapability) : bool := pc_Known c && negb (pc_Available c).

Definition aggregateDualStackCapability (path : string) (a b : PathCapability) : PathCapability :=
  if known_good a then bare_capability path true true (pc_State a) (pc_SmoothedDelayMs a) ""
  else if known_good b then bare_capability path true true (pc_State b) (pc_SmoothedDelayMs b) ""
  else if known_bad a && known_bad b then
    let failure := pc_LastFailure a in
    let failure := if String.eqb failure "" then pc_LastFailure b else failure in
    let failure := if String.eqb failure "" then "all_families_unavailable"%string else failure in
    bare_capability path false true PathStateUnreachable 0 failure
  else bare_capability path true false PathStateUnknown 0 "".

Definition transportPathEligible (s : HealthStore) (h : NodeHandle) (path : string) (now : Z) (order : list (healthKey * healthRecord)) : bool :=
  let fallthrough := let cap := pathCapability s h path now order in negb (pc_Known cap) || pc_Available cap in
  match dualStackFamilyPaths path with
  | Some (familyA, familyB) =>
      let a := pathCapability s h familyA now order in
      let b := pathCapability s h familyB now order in
      let agg := aggregateDualStackCapability path a b in
      if pc_Known agg && negb (pc_Available agg) then false
      else if known_good a || known_good b then true
      else fallthrough
  | None => fallthrough
  end.

Definition RequiredPathKnownBlocked (s : HealthStore) (h : NodeHandle) (service : ServiceContext) (now clock : Z)
    (order : list (healthKey * healthRecord)) : bool :=
  negb (transportPathEligible s h (RequiredPathForService service) (at_or_clock now clock) order).

Definition capabilityForPath (p : NodeCapabilityProfile) (path : string) : PathCapability :=
  if String.eqb path "tcp/ipv4" then np_TCP4 p
  else if String.eqb path "tcp/ipv6" then np_TCP6 p
  else if String.eqb path "udp_dns/ipv4" then np_DNSUDPv4 p
  else if String.eqb path "udp_dns/ipv6" then np_DNSUDPv6 p
  else if String.eqb path "udp_data/ipv4" then np_DataUDPv4 p
  else if String.eqb path "udp_data/ipv6" then np_DataUDPv6 p
  else if String.eqb path "tcp" || String.eqb path "tcp/any" then aggregateDualStackCapability path (np_TCP4 p) (np_TCP6 p)
  else if String.eqb path "udp" || String.eqb path "udp/any" || String.eqb path "udp_data/any"
  then aggregateDualStackCapability path (np_DataUDPv4 p) (np_DataUDPv6 p)
  else if String.eqb path "udp_dns/any" then aggregateDualStackCapability path (np_DNSUDPv4 p) (np_DNSUDPv6 p)
  else bare_capability path true false PathStateUnknown 0 "".

(** [SupportsService]; the branch on bulk throughput returns the same value as
    the code after it. *)
Definition SupportsService (p : NodeCapabilityProfile) (service : ServiceContext) : bool * string :=
  let path := RequiredPathForService service in
  let cap := capabilityForPath p path in
  if negb (pc_Known cap) then (true, ""%string)
  else if negb (pc_Available cap) then
    if negb (String.eqb (pc_LastFailure cap) "") then (false, path +:+ ":" +:+ pc_LastFailure cap)%string
    else if negb (String.eqb (pc_State cap) "") then (false, path +:+ ":" +:+ pc_State cap)%string
    else (false, path +:+ ":unavailable")%string
  else (true, ""%string).

(** ** Permits *)

Definition permitKeysForDial (s : HealthStore) (h : NodeHandle) (transport serviceID : string) (includeService : bool) (clock : Z)
    (order : list (healthKey * healthRecord)) : list healthKey :=
  let transportKey := transportLedgerKey transport in
  let transportKey :=
    match dualStackFamilyPaths transportKey with
    | Some (familyA, familyB) =>
        if known_bad (pathCapability s h transport clock order) then
          if known_good (pathCapability s h familyA clock order) then familyA
          else if known_good (pathCapability s h familyB clock order) then familyB
          else transportKey
        else transportKey
    | None => transportKey
    end in
  [key_of h DomainEndpoint "" ""]
  ++ (if negb (String.eqb transportKey "") then [key_of h DomainTransport transportKey ""] else [])
  ++ (if includeService then [key_of h DomainService "" serviceID] else []).

Definition TryAcquireAttemptPermitHandle (s : HealthStore) (h : NodeHandle) (service : ServiceContext) (at_ clock : Z)
    (order : list (healthKey * healthRecord)) : HealthStore * option AttemptPermit :=
  let at_ := at_or_clock at_ clock in
  let path := serviceHealthTransport service in
  if negb (transportPathEligible s h path at_ order) then (s, None)
  else tryAcquirePermit s (permitKeysForDial s h path (sc_ID service) true clock order) at_.

Definition TryAcquireConnectionPermitHandle (s : HealthStore) (h : NodeHandle) (transport : string) (at_ clock : Z)
    (order : list (healthKey * healthRecord)) : HealthStore * option AttemptPermit :=
  let at_ := at_or_clock at_ clock in
  if negb (transportPathEligible s h transport at_ order) then (s, None)
  else tryAcquirePermit s (permitKeysForDial s h transport "" false clock order) at_.

(** The endpoint and service records inspected by [CanAttemptHandle], which
    relabels them, and by its read-only form. *)
Definition attempt_keys (h : NodeHandle) (service : ServiceContext) : list healthKey :=
  [key_of h DomainEndpoint "" ""; key_of h DomainService "" (sc_ID service)].

Fixpoint inspect_loop (s : HealthStore) (keys : list healthKey) (now : Z) : HealthStore * bool :=
  match keys with
  | [] => (s, true)
  | k :: keys =>
      match recordForKeyLocked s k with
      | (None, _) => inspect_loop s keys now
      | (Some r, k) =>
          let '(ok, r) := availableLocked r now in
          if ok then inspect_loop (hs_write s k r) keys now else (hs_write s k r, false)
      end
  end.
(** The check of the path and the loop over the keys have a section each in the code and
    are one step here. *)
Definition CanAttemptHandle (s : HealthStore) (h : NodeHandle) (service : ServiceContext) (at_ clock : Z)
    (order : list (healthKey * healthRecord)) : HealthStore * bool :=
  let at_ := at_or_clock at_ clock in
  if negb (transportPathEligible s h (serviceHealthTransport service) at_ order) then (s, false)
  else inspect_loop s (attempt_keys h service) at_.

Definition CanAttemptHandleReadOnly (s : HealthStore) (h : NodeHandle) (service : ServiceContext) (at_ clock : Z)
    (order : list (healthKey * healthRecord)) : bool :=
  let at_ := at_or_clock at_ clock in
  transportPathEligible s h (serviceHealthTransport service) at_ order
  && forallb (λ k, match fst (recordForKeyLocked s k) with None => true | Some r => availableReadOnly r at_ end) (attempt_keys h service).

(** ** Read-only and mutating views agree *)

(** Two stores whose records differ at most by an open breaker relabelled as
    cooling down: every decision below reads them alike. *)
Definition same_record (r r' : healthRecord) : Prop :=
  phase_of r' = phase_of r ∧ hr_halfOpenToken r' = hr_halfOpenToken r ∧ hr_version r' = hr_version r ∧ hr_openUntil r' = hr_openUntil r ∧
  st_Health (hr_status r') = st_Health (hr_status r) ∧ st_LastUpdated (hr_status r') = st_LastUpdated (hr_status r).
Definition relabelled (s s' : HealthStore) : Prop :=
  hs_nextToken s' = hs_nextToken s ∧ ∀ k, option_relation same_record (λ _, False) (λ _, False) (hs_entries s !! k) (hs_entries s' !! k).

#[global] Instance same_record_preorder : PreOrder same_record.
Proof. split; [by intros r|]. unfold same_record. intros r1 r2 r3 ? ?. naive_solver congruence. Qed.

#[global] Instance relabelled_preorder : PreOrder relabelled.
Proof.
  split.
  - intros s. split; [done|]. intros k. by destruct (hs_entries s !! k); simpl.
  - intros s1 s2 s3 [N1 R1] [N2 R2]. split; [congruence|]. intros k. specialize (R1 k). specialize (R2 k).
    destruct (hs_entries s1 !! k), (hs_entries s2 !! k), (hs_entries s3 !! k); simpl in *; try done. by etrans.
Qed.

Lemma availableLocked_same r now ok r' : availableLocked r now = (ok, r') → ok = availableReadOnly r now ∧ same_record r r'.
Proof.
  unfold availableLocked, availableReadOnly, same_record, phase_of. intros Ha.
  destruct (st_Breaker (hr_status r)) eqn:Eb; try (destruct (time_before now (hr_openUntil r))); simplify_eq; simpl; rewrite ?Eb; done.
Qed.

Lemma hs_write_relabelled s k r r' : hs_entries s !! k = Some r → same_record r r' → relabelled s (hs_write s k r').
Proof.
  intros Hk Hr. split; [done|]. intros x. simpl. destruct (decide (x = k)) as [->|Hne].
  - rewrite lookup_insert_eq, Hk. done.
  - rewrite lookup_insert_ne by done. by destruct (hs_entries s !! x).
Qed.

(** Outside the transport domain a key has no legacy form. *)
Lemma recordForKey_plain s k : hk_domain k ≠ DomainTransport → recordForKeyLocked s k = (hs_entries s !! k, k).
Proof. intros Hd. unfold recordForKeyLocked, legacy_key. rewrite bool_decide_eq_false_2 by done. by destruct (hs_entries s !! k). Qed.

Lemma inspect_loop_spec s keys now s' ok :
  inspect_loop s keys now = (s', ok) → NoDup keys → Forall (λ k, hk_domain k ≠ DomainTransport) keys →
  ok = forallb (λ k, match fst (recordForKeyLocked s k) with None => true | Some r => availableReadOnly r now end) keys ∧ relabelled s s'.
Proof.
  revert s. induction keys as [|k keys IH]; intros s Hi Hnd Hp; cbn [inspect_loop forallb] in *; [by simplify_eq|].
  apply NoDup_cons in Hnd as [Hk Hnd]. apply Forall_cons in Hp as [Hpk Hp]. rewrite recordForKey_plain in * by done.
  destruct (hs_entries s !! k) as [r|] eqn:Er; [|by apply IH].
  destruct (availableLocked r now) as [ok1 r1] eqn:Ea. destruct (availableLocked_same _ _ _ _ Ea) as [Eok Hs]. simpl. rewrite <- Eok.
  pose proof (hs_write_relabelled _ _ _ _ Er Hs) as Hw. destruct ok1; [|by simplify_eq].
  destruct (IH _ Hi Hnd Hp) as [-> Hr]. split; [|by etrans].
  clear - Hk Hp. induction keys as [|x keys IH]; [done|]. apply Forall_cons in Hp as [Hx Hp]. simpl.
  rewrite !recordForKey_plain, IH by (try done; set_solver). simpl. rewrite lookup_insert_ne by set_solver. done.
Qed.

(** The read-only availability check used for planning and the mutating one
    agree on every store, node, service and time; and all the mutating one ever
    changes is the label of open breakers, so the phase of every breaker, the
    tokens and the cooldown windows stay. *)
Theorem CanAttempt_views_agree s h service at_ clock order :
  snd (CanAttemptHandle s h service at_ clock order) = CanAttemptHandleReadOnly s h service at_ clock order ∧
  relabelled s (fst (CanAttemptHandle s h service at_ clock order)).
Proof.
  unfold CanAttemptHandle, CanAttemptHandleReadOnly. cbv zeta. destruct (transportPathEligible _ _ _ _ _); [|done]. cbn [negb].
  destruct (inspect_loop s (attempt_keys h service) (at_or_clock at_ clock)) as [s' ok] eqn:Ei.
  destruct (inspect_loop_spec _ _ _ _ _ Ei) as [-> ?]; [| |done].
  - apply NoDup_cons. split; [|apply NoDup_singleton]. by intros ?%list_elem_of_singleton.
  - by repeat constructor.
Qed.

(** ** Acquiring several domains is atomic *)

(** Between [s] and [s'] the entries [es] were acquired: every other record
    keeps its token, and none loses its version, window or failure count. *)
Definition kept (es : list permitEntry) (k : healthKey) (r r' : healthRecord) : Prop :=
  hr_version r' = hr_version r ∧ hr_openUntil r' = hr_openUntil r ∧ hr_consecutiveFailure r' = hr_consecutiveFailure r ∧
  (hr_halfOpenToken r' = hr_halfOpenToken r ∨ hr_halfOpenToken r = 0 ∧ owner k r' ∈ es).
Record attempt_frame (es : list permitEntry) (s s' : HealthStore) : Prop := {
  af_kept : ∀ k, option_relation (kept es k) (λ _, False) (λ _, False) (hs_entries s !! k) (hs_entries s' !! k);
  af_free : ∀ e r, e ∈ es → pe_halfOpenToken e ≠ 0 → hs_entries s !! pe_key e = Some r → hr_halfOpenToken r = 0 }.

Lemma attempt_frame_refl s : attempt_frame [] s s.
Proof. split; [intros k; destruct (hs_entries s !! k); simpl; unfold kept; auto | intros e r He; by apply elem_of_nil in He]. Qed.

(** One record is rewritten, the others stay. *)
Lemma attempt_frame_write es es' s s' s2 k r r' :
  attempt_frame es s s' → hs_entries s' !! k = Some r → hs_entries s2 = <[k := r']> (hs_entries s') →
  (∀ e, e ∈ es → e ∈ es') →
  hr_version r' = hr_version r → hr_openUntil r' = hr_openUntil r → hr_consecutiveFailure r' = hr_consecutiveFailure r →
  (∀ r0, hs_entries s !! k = Some r0 → kept es k r0 r → hr_halfOpenToken r' = hr_halfOpenToken r0 ∨ hr_halfOpenToken r0 = 0 ∧ owner k r' ∈ es') →
  (∀ e r0, e ∈ es' → (e ∉ es) → pe_halfOpenToken e ≠ 0 → hs_entries s !! pe_key e = Some r0 → hr_halfOpenToken r0 = 0) →
  attempt_frame es' s s2.
Proof.
  intros [Hk Hf] Hr Hs2 Hsub Ev Eo Ec Ht Hnew. split.
  - intros x. specialize (Hk x). rewrite Hs2. destruct (decide (x = k)) as [->|Hne].
    + rewrite lookup_insert_eq. rewrite Hr in Hk. destruct (hs_entries s !! k) as [r0|] eqn:E0; simpl in *; [|done].
      pose proof Hk as (? & ? & ? & ?). unfold kept. split_and!; [congruence..|]. by apply Ht.
    + rewrite lookup_insert_ne by done. destruct (hs_entries s !! x), (hs_entries s' !! x); simpl in *; try done.
      destruct Hk as (? & ? & ? & H). split_and!; try done. destruct H as [?|[? ?]]; auto.
  - intros e r0 He Hz H0. destruct (decide (e ∈ es)); [by eapply Hf | by eapply Hnew].
Qed.

Lemma available_frame es s s' k r now ok r' :
  attempt_frame es s s' → hs_entries s' !! k = Some r → availableLocked r now = (ok, r') → attempt_frame es s (hs_write s' k r').
Proof.
  intros Hf Hk Ha. destruct (availableLocked_same _ _ _ _ Ha) as [_ (_ & Et & Ev & Eo & _)].
  assert (hr_consecutiveFailure r' = hr_consecutiveFailure r) as Ec.
  { unfold availableLocked in Ha. destruct (st_Breaker _); try destruct (time_before _ _); by simplify_eq. }
  eapply attempt_frame_write; try done. intros r0 H0 (_ & _ & _ & H). destruct H as [?|[? ?]]; [by left; congruence|].
  right. split; [done|]. unfold owner in *. by rewrite Et, Ev.
Qed.

Lemma attempt_frame_more es es' s s' :
  attempt_frame es s s' → (∀ e, e ∈ es' → pe_halfOpenToken e = 0) → attempt_frame (es ++ es') s s'.
Proof.
  intros [Hk Hf] Hz. split.
  - intros k. specialize (Hk k). destruct (hs_entries s !! k), (hs_entries s' !! k); simpl in *; try done.
    destruct Hk as (? & ? & ? & [?|[? ?]]); split_and!; auto. right. set_solver.
  - intros e r [He|He]%elem_of_app ?; [by eapply Hf | by rewrite Hz in *].
Qed.

Lemma acquire_frame es s s' k r s2 e :
  attempt_frame es s s' → hs_entries s' !! k = Some r → hr_halfOpenToken r = 0 → acquire_record s' k r = (s2, e) →
  attempt_frame (es ++ [e]) s s2.
Proof.
  intros Hf Hk Hz Ha. unfold acquire_record in Ha. destruct (breaker_tripped _); simplify_eq.
  - eapply (attempt_frame_write es _ s s' _ k r); [done | done | reflexivity | set_solver | done | done | done | |].
    + intros r0 H0 (Hv & _ & _ & Hor). right. split; [by destruct Hor as [?|[? _]]; congruence|].
      apply elem_of_app. right. by apply list_elem_of_singleton.
    + intros e r0 [? | ->%list_elem_of_singleton]%elem_of_app Hn; [done|]. simpl. intros _ H0.
      pose proof (af_kept _ _ _ Hf k) as Hke. rewrite H0, Hk in Hke. destruct Hke as (_ & _ & _ & [?|[? _]]); congruence.
  - apply attempt_frame_more; [done|]. by intros e ->%list_elem_of_singleton.
Qed.

Lemma release_frame e es s s' :
  attempt_frame (e :: es) s s' → store_ok s' → attempt_frame es s (releaseTokenLocked s' e).
Proof.
  intros [Hk Hf] Hs. split; [|intros x r Hx; apply Hf; by right].
  intros k. specialize (Hk k).
  destruct (hs_entries s !! k) as [r0|] eqn:E0, (hs_entries s' !! k) as [r|] eqn:E1; simpl in Hk; try done; unfold releaseTokenLocked.
  2:{ destruct (hs_entries s' !! pe_key e) as [re|] eqn:Ee; [|by rewrite E1]. destruct (_ && _); [|by rewrite E1].
      simpl. rewrite lookup_insert_ne by congruence. by rewrite E1. }
  destruct Hk as (Hv & Ho & Hc & Ht).
  destruct (hs_entries s' !! pe_key e) as [re|] eqn:Ee.
  - destruct (_ && _) eqn:Econd.
    + simpl. destruct (decide (k = pe_key e)) as [->|Hne].
      * rewrite lookup_insert_eq. simplify_eq. simpl. split_and!; try done. left. simpl. symmetry. eapply Hf; [by left | | done].
        rewrite !andb_true_iff, negb_true_iff, Z.eqb_neq in Econd. tauto.
      * rewrite lookup_insert_ne, E1 by done. simpl. split_and!; try done. destruct Ht as [?|[? [He|?]%elem_of_cons]]; auto. by destruct Hne; subst e.
    + rewrite E1. simpl. split_and!; try done. destruct Ht as [?|[? [He|?]%elem_of_cons]]; auto. left.
      subst e. simpl in *. simplify_eq. destruct (decide (hr_halfOpenToken r = 0)) as [|Hnz]; [congruence|].
      rewrite !Z.eqb_refl, (proj2 (Z.eqb_neq _ _) Hnz), (bool_decide_eq_true_2 _ (ro_token _ _ (so_records _ Hs _ _ E1) Hnz)) in Econd. done.
  - rewrite E1. simpl. split_and!; try done. destruct Ht as [?|[? [He|?]%elem_of_cons]]; auto. subst e. simpl in *. congruence.
Qed.

Lemma releasePermit_frame es s s' : attempt_frame es s s' → store_ok s' → attempt_frame [] s (releasePermit s' es).
Proof.
  unfold releasePermit. revert s'. induction es as [|e es IH]; intros s' Hf Hs; [done|]. simpl.
  apply IH; [by apply release_frame | by apply releaseToken_ok].
Qed.

Lemma acquire_loop_frame s keys s1 now entries s' :
  acquire_loop s1 keys now entries = (s', None) → store_ok s1 → 0 ≤ hs_nextToken s1 → hs_nextToken s1 + Z.of_nat (length keys) < 2 ^ 64 →
  attempt_frame entries s s1 → attempt_frame [] s s'.
Proof.
  revert s1 entries. induction keys as [|k keys IH]; intros s1 entries; cbn [acquire_loop length]; [done|].
  intros Ha Hs Hn0 Hw Hf. destruct (recordForKeyLocked s1 k) as [[r|] k'] eqn:Er.
  - apply recordForKey_lookup in Er. destruct (availableLocked r now) as [ok r1] eqn:Eav.
    destruct (available_write _ _ _ _ _ _ Er Eav Hs) as [Hs1 Hq1].
    destruct (availableLocked_ok (hs_breaker s1) _ _ _ _ Eav) as (_ & _ & _ & _ & Hav); [by eapply so_records|].
    pose proof (available_frame _ _ _ _ _ _ _ _ Hf Er Eav) as Hf1. destruct ok; simpl in Ha.
    + destruct Hav as [-> Hz]; [done|]. destruct (acquire_record _ k' r) as [s2 e] eqn:Ea.
      assert (hs_entries (hs_write s1 k' r) !! k' = Some r) as Hk' by (simpl; by rewrite lookup_insert_eq).
      destruct (acquire_record_ok _ _ _ _ _ Ea) as (Hs2 & Hn2 & _); try done; simpl; [lia|]. simpl in Hn2.
      apply (IH _ _ Ha); [done | lia | lia | by eapply acquire_frame].
    + simplify_eq. by apply releasePermit_frame.
  - apply (IH _ _ Ha); [done | lia | lia |]. apply attempt_frame_more; [done|]. by intros e ->%list_elem_of_singleton.
Qed.

(** A permit is only given when every record outside the transport domain was
    available. *)
Lemma acquire_loop_available s keys now entries s' p k r :
  acquire_loop s keys now entries = (s', Some p) → NoDup keys → k ∈ keys → hk_domain k ≠ DomainTransport →
  hs_entries s !! k = Some r → availableReadOnly r now = true.
Proof.
  revert s entries. induction keys as [|k0 keys IH]; intros s entries; [by intros _ _ ?%elem_of_nil|]. cbn [acquire_loop].
  intros Ha Hnd Hk Hd Hr. apply NoDup_cons in Hnd as [Hk0 Hnd].
  destruct (recordForKeyLocked s k0) as [rec k'] eqn:Er.
  assert (k ≠ k0 → k ≠ k') as Hne.
  { intros Hne ->. unfold recordForKeyLocked, legacy_key in Er. repeat case_match; simplify_eq; try done;
      match goal with H : negb _ = false |- _ => apply negb_false_iff, bool_decide_eq_true in H; by destruct Hd end. }
  destruct (decide (k = k0)) as [->|Hk0'].
  - rewrite recordForKey_plain in Er by done. rewrite Hr in Er. simplify_eq.
    destruct (availableLocked r now) as [ok r1] eqn:Eav. destruct (availableLocked_same _ _ _ _ Eav) as [<- _]. by destruct ok.
  - apply elem_of_cons in Hk as [?|Hk]; [done|]. specialize (Hne Hk0'). destruct rec as [r0|]; [|by eapply IH].
    destruct (availableLocked r0 now) as [[] r1]; [|done]. simpl in Ha. destruct (acquire_record _ k' r1) as [s2 e] eqn:Ea.
    eapply (IH s2); [done..|]. unfold acquire_record in Ea. destruct (breaker_tripped _); simplify_eq; simpl; by rewrite !lookup_insert_ne by done.
Qed.

Lemma permitKeys_shape s h t svc incl clock order :
  NoDup (permitKeysForDial s h t svc incl clock order) ∧ (length (permitKeysForDial s h t svc incl clock order) ≤ 3)%nat ∧
  key_of h DomainEndpoint "" "" ∈ permitKeysForDial s h t svc incl clock order ∧
  (incl = true → key_of h DomainService "" svc ∈ permitKeysForDial s h t svc incl clock order).
Proof.
  unfold permitKeysForDial. cbv zeta. destruct (negb _), incl; simpl; split_and!; try lia; try set_solver;
    repeat (apply NoDup_cons; split; [intros Hin; repeat (apply elem_of_cons in Hin as [?|Hin]; [done|]); by apply elem_of_nil in Hin|]);
    by apply NoDup_nil.
Qed.

(** Acquiring the permit of an attempt is atomic and sound.  When a permit is
    refused, every record still has the half-open token, version, cooldown
    window and failure count it had, whichever domains had been taken before
    the refusal; when one is given, the read-only check allowed the attempt. *)
Theorem TryAcquireAttemptPermit_atomic s h service at_ clock order s' res :
  TryAcquireAttemptPermitHandle s h service at_ clock order = (s', res) → store_ok s →
  0 ≤ hs_nextToken s → hs_nextToken s + 3 < 2 ^ 64 →
  match res with
  | None => attempt_frame [] s s'
  | Some _ => CanAttemptHandleReadOnly s h service at_ clock order = true
  end.
Proof.
  unfold TryAcquireAttemptPermitHandle, CanAttemptHandleReadOnly. cbv zeta. intros Ha Hs Hn Hw.
  destruct (transportPathEligible _ _ _ _ _); simpl in Ha; [|simplify_eq; apply attempt_frame_refl].
  destruct (permitKeys_shape s h (serviceHealthTransport service) (sc_ID service) true clock order) as (Hnd & Hlen & Hke & Hks).
  destruct res as [p|].
  - simpl. rewrite !recordForKey_plain by done. simpl. rewrite andb_true_r, andb_true_iff. unfold tryAcquirePermit in Ha.
    split; case_match eqn:E; try done; (eapply acquire_loop_available; [exact Ha | done | | | exact E]; [by auto | done]).
  - eapply acquire_loop_frame; [exact Ha | done | done | lia | apply attempt_frame_refl].
Qed.

(** The endpoint is cooling down: the attempt is refused, and allowed later. *)
Definition sample_handle : NodeHandle := mkHandle 1 0 1 1.
Definition sample_service : ServiceContext := mkService "web" "tcp" "tcp/any".

Lemma TryAcquireAttemptPermit_atomic_witness :
  attempt_frame [] (one_record sample_key opened_record)
    (fst (TryAcquireAttemptPermitHandle (one_record sample_key opened_record) sample_handle sample_service second 0 [])) ∧
  CanAttemptHandleReadOnly (one_record sample_key opened_record) sample_handle sample_service (6 * second) 0 [] = true.
Proof.
  pose proof (one_record_ok sample_key _ opened_record_ok) as Hs. split.
  - apply (TryAcquireAttemptPermit_atomic _ sample_handle sample_service second 0 [] _ None); [reflexivity | done | simpl; lia | simpl; lia].
  - apply (TryAcquireAttemptPermit_atomic _ sample_handle sample_service (6 * second) 0 []
             (fst (TryAcquireAttemptPermitHandle (one_record sample_key opened_record) sample_handle sample_service (6 * second) 0 []))
             (snd (TryAcquireAttemptPermitHandle (one_record sample_key opened_record) sample_handle sample_service (6 * second) 0 [])));
      [reflexivity | done | simpl; lia | simpl; lia].
Defined.

(** ** The store and its permits as a system *)

(** The store and the permits it has issued, completed or not. *)
Record health_system : Type := mkHealthSystem { sys_store : HealthStore; sys_permits : list AttemptPermit }.

Definition issued (permits : list AttemptPermit) : list permitEntry := mjoin (ap_entries <$> permits).
Definition grant (permits : list AttemptPermit) (res : option AttemptPermit) : list AttemptPermit :=
  match res with Some p => permits ++ [p] | None => permits end.

(** One step per entry point.  The token counter is 64 bits wide: the steps
    that draw tokens are those before it wraps.  [TryAcquireAttemptPermitHandle]
    and [TryAcquireConnectionPermitHandle] take the lock once for the check, once
    for the choice of the keys and once to acquire: [HS_acquire] is the last
    section alone, with keys chosen from any state [s0] of the store. *)
Inductive health_step : health_system → health_system → Prop :=
| HS_attempt s ps h service at_ clock order s' res :
    hs_nextToken s + 3 < 2 ^ 64 → TryAcquireAttemptPermitHandle s h service at_ clock order = (s', res) →
    health_step (mkHealthSystem s ps) (mkHealthSystem s' (grant ps res))
| HS_connection s ps h transport at_ clock order s' res :
    hs_nextToken s + 3 < 2 ^ 64 → TryAcquireConnectionPermitHandle s h transport at_ clock order = (s', res) →
    health_step (mkHealthSystem s ps) (mkHealthSystem s' (grant ps res))
| HS_acquire s0 s ps h transport serviceID includeService at_ clock order s' res :
    hs_nextToken s + 3 < 2 ^ 64 →
    tryAcquirePermit s (permitKeysForDial s0 h transport serviceID includeService clock order) at_ = (s', res) →
    health_step (mkHealthSystem s ps) (mkHealthSystem s' (grant ps res))
| HS_domain s ps h d transport service now order s' res :
    hs_nextToken s + 1 < 2 ^ 64 → visits s order → TryAcquireDomainPermitHandle s h d transport service now order = (s', res) →
    health_step (mkHealthSystem s ps) (mkHealthSystem s' (grant ps res))
| HS_fallback s ps h transport :
    health_step (mkHealthSystem s ps) (mkHealthSystem s (grant ps (TryAcquireConnectionFallbackPermitHandle s h transport)))
| HS_complete s ps i p outcomes at_ delay reason clock jitter s' p' :
    ps !! i = Some p → CompleteDomains s p outcomes at_ delay reason clock jitter = (s', p') →
    health_step (mkHealthSystem s ps) (mkHealthSystem s' (<[i := p']> ps))
| HS_release s ps i p s' p' :
    ps !! i = Some p → ReleaseDeferred s p = (s', p') → health_step (mkHealthSystem s ps) (mkHealthSystem s' (<[i := p']> ps))
| HS_observe s ps h d transport service o at_ delay reason elig weight clock jitter :
    health_step (mkHealthSystem s ps)
      (mkHealthSystem (ObserveEvidence s h d transport service o at_ delay reason elig weight clock jitter) ps)
| HS_inspect s ps h service at_ clock order :
    health_step (mkHealthSystem s ps) (mkHealthSystem (fst (CanAttemptHandle s h service at_ clock order)) ps)
| HS_retire s ps h order :
    visits s order → health_step (mkHealthSystem s ps) (mkHealthSystem (health_RetireNodeHandle s h order) ps).

(** States reached from an empty store. *)
Inductive health_reachable (retention maxEntries : Z) : health_system → Prop :=
| HR_init : health_reachable retention maxEntries (mkHealthSystem (NewHealthStore retention maxEntries) [])
| HR_step σ σ' : health_reachable retention maxEntries σ → health_step σ σ' → health_reachable retention maxEntries σ'.

Record system_inv (σ : health_system) : Prop := {
  si_store : store_ok (sys_store σ);
  si_owned : owned (issued (sys_permits σ)) (sys_store σ);
  si_tokens : tokens_ok (issued (sys_permits σ)) (sys_store σ) }.

Lemma issued_grant ps res : issued (grant ps res) = issued ps ++ from_option ap_entries [] res.
Proof.
  unfold issued. destruct res as [p|]; simpl; [|by rewrite app_nil_r]. by rewrite fmap_app, join_app; simpl; rewrite app_nil_r.
Qed.

Lemma issued_insert ps i p p' : ps !! i = Some p → ap_entries p' = ap_entries p → issued (<[i := p']> ps) = issued ps.
Proof.
  intros Hi He. unfold issued. f_equal. rewrite list_fmap_insert, He. apply list_insert_id. by rewrite list_lookup_fmap, Hi.
Qed.

Lemma system_inv_grant n s ps s' res :
  acquired (issued ps) n s s' res → system_inv (mkHealthSystem s' (grant ps res)).
Proof. intros [Hs _ Ho Ht]. split; simpl; rewrite ?issued_grant; done. Qed.

Lemma system_inv_quiet s ps s' ps' :
  system_inv (mkHealthSystem s ps) → issued ps' = issued ps → store_ok s' ∧ quiet s s' → system_inv (mkHealthSystem s' ps').
Proof.
  intros [_ Ho Ht] Ei [Hs Hq]. split; simpl in *; rewrite ?Ei; [done | by eapply owned_quiet | by eapply tokens_quiet].
Qed.

Lemma tryAcquire_acquired ps s keys now s' res :
  system_inv (mkHealthSystem s ps) → (length keys ≤ 3)%nat → hs_nextToken s + 3 < 2 ^ 64 →
  tryAcquirePermit s keys now = (s', res) → acquired (issued ps) (length keys) s s' res.
Proof.
  intros [Hs Ho Ht] Hl Hw Ha. simpl in *.
  apply (acquire_loop_ok (issued ps) _ _ _ _ _ _ Ha); [done | lia | rewrite app_nil_r; done | rewrite app_nil_r; done].
Qed.

(** A permit behind the eligibility gate. *)
Lemma system_inv_permit b s ps h t svc incl clock order now s' res :
  (if negb b then (s, None) else tryAcquirePermit s (permitKeysForDial s h t svc incl clock order) now) = (s', res) →
  system_inv (mkHealthSystem s ps) → hs_nextToken s + 3 < 2 ^ 64 → system_inv (mkHealthSystem s' (grant ps res)).
Proof.
  intros Ha Hi Hw. destruct b; simpl in Ha; [|by simplify_eq].
  by eapply system_inv_grant, tryAcquire_acquired; [done | apply permitKeys_shape | ..].
Qed.

Lemma inspect_loop_ok s keys now : store_ok s → store_ok (fst (inspect_loop s keys now)) ∧ quiet s (fst (inspect_loop s keys now)).
Proof.
  revert s. induction keys as [|k keys IH]; intros s Hs; cbn [inspect_loop]; [done|].
  destruct (recordForKeyLocked s k) as [[r|] k'] eqn:Er; [|by apply IH]. apply recordForKey_lookup in Er.
  destruct (availableLocked r now) as [ok r1] eqn:Ea. destruct (available_write _ _ _ _ _ _ Er Ea Hs) as [Hs1 Hq1].
  destruct ok; [|done]. destruct (IH _ Hs1) as [? ?]. split; [done | by etrans].
Qed.

Lemma CanAttempt_ok s h service at_ clock order :
  store_ok s → store_ok (fst (CanAttemptHandle s h service at_ clock order)) ∧ quiet s (fst (CanAttemptHandle s h service at_ clock order)).
Proof. intros Hs. unfold CanAttemptHandle. cbv zeta. destruct (negb _); [done | by apply inspect_loop_ok]. Qed.

Lemma fallback_acquired ps s h t :
  system_inv (mkHealthSystem s ps) → acquired (issued ps) 0 s s (TryAcquireConnectionFallbackPermitHandle s h t).
Proof.
  intros [Hs Ho Ht]. destruct (TryAcquireConnectionFallbackPermitHandle s h t) as [p|] eqn:Ef; simpl in *.
  - split; simpl; [done | lia | by apply owned_weaken|]. apply tokens_zeros; [|done].
    by apply (fallback_tokens _ _ _ _ Ef); intros ? ?%elem_of_nil.
  - split; simpl; rewrite ?app_nil_r; [done | lia | done | done].
Qed.

Lemma system_inv_step σ σ' : system_inv σ → health_step σ σ' → system_inv σ'.
Proof.
  intros Hi Hst. destruct Hst as [s ps h service at_ clock order s' res Hw Ha|s ps h t at_ clock order s' res Hw Ha|
    s0 s ps h t svc incl at_ clock order s' res Hw Ha|s ps h d t svc now order s' res Hw Hv Ha|s ps h t|s ps i p outcomes at_ delay reason clock j s' p' Hp Hc|
    s ps i p s' p' Hp Hc| | |]; pose proof (si_store _ Hi) as Hs.
  - by eapply system_inv_permit.
  - by eapply system_inv_permit.
  - eapply system_inv_grant, tryAcquire_acquired; [done | apply permitKeys_shape | done | done].
  - eapply system_inv_grant, TryAcquireDomainPermit_ok; try done; apply Hi.
  - by eapply system_inv_grant, fallback_acquired.
  - unfold CompleteDomains in Hc. destruct (ap_completed p); simplify_eq.
    + eapply system_inv_quiet; [done | by eapply issued_insert | done].
    + eapply system_inv_quiet; [done | by eapply issued_insert | by apply complete_loop_ok].
  - unfold ReleaseDeferred in Hc. destruct (ap_completed p); simplify_eq.
    + eapply system_inv_quiet; [done | by eapply issued_insert | done].
    + eapply system_inv_quiet; [done | by eapply issued_insert | by apply releasePermit_ok].
  - eapply system_inv_quiet; [done | done | by apply ObserveEvidence_ok].
  - eapply system_inv_quiet; [done | done | by apply CanAttempt_ok].
  - eapply system_inv_quiet; [done | done | by apply health_RetireNodeHandle_ok].
Qed.

Lemma system_inv_reachable retention maxEntries σ : health_reachable retention maxEntries σ → system_inv σ.
Proof.
  induction 1 as [|σ σ' _ IH Hst]; [|by eapply system_inv_step]. split; simpl.
  - split; [split; [apply NoDup_nil_2|] | | | by vm_compute |]; simpl.
    + intros k. rewrite elem_of_nil, lookup_empty. split; [done | by intros [? ?]].
    + unfold health_bounded. simpl. rewrite map_size_empty. destruct (Z.leb_spec maxEntries 0); lia.
    + destruct (Z.leb_spec maxEntries 0); lia.
    + intros k r Hk. by rewrite lookup_empty in Hk.
  - intros k r Hk. simpl in Hk. by rewrite lookup_empty in Hk.
  - split; [done | by intros e ?%elem_of_nil | apply NoDup_nil_2].
Qed.

(** ** What the system promises *)

(** C14. In every state reached from an empty store by any sequence of attempts,
    connections, domain and fallback permits, completions, releases,
    observations, inspections and retirements: the LRU list and the map name the
    same records, each once; their number is within the configured bound; and
    each record is well-formed (a token only while half-open, the half-open flag
    in step with the breaker, at most one recovery success, fewer consecutive
    failures than the threshold while closed, a delay ring of fixed size). *)
Theorem health_reachable_inv retention maxEntries σ : health_reachable retention maxEntries σ → store_ok (sys_store σ).
Proof. intros Hr. by apply system_inv_reachable in Hr as [? _ _]. Qed.

(** Three failures of the endpoint, seen passively. *)
Definition failed_thrice : HealthStore :=
  Nat.iter 3 (λ s, ObserveEvidence s sample_handle DomainEndpoint "" "" OutcomeFailure second 0 "refused" true 1 0 (λ b, b)) (NewHealthStore 0 0).
Lemma failed_thrice_reachable : health_reachable 0 0 (mkHealthSystem failed_thrice []).
Proof. do 3 (eapply HR_step; [|apply HS_observe]). apply HR_init. Qed.

(** ... and the probe that starts after the cooldown. *)
Definition probing : HealthStore * option AttemptPermit :=
  TryAcquireConnectionPermitHandle failed_thrice sample_handle "tcp" (10 * second) 0 [].
Lemma probing_reachable : health_reachable 0 0 (mkHealthSystem (fst probing) (grant [] (snd probing))).
Proof.
  eapply HR_step; [apply failed_thrice_reachable|].
  eapply (HS_connection _ _ sample_handle "tcp" (10 * second) 0 []); [by vm_compute | apply surjective_pairing].
Qed.

Lemma health_reachable_inv_witness :
  store_ok (fst probing) ∧ match hs_entries (fst probing) !! sample_key with Some r => hr_halfOpenToken r = 1 | None => False end.
Proof. split; [exact (health_reachable_inv 0 0 _ probing_reachable) | by vm_compute]. Defined.

Lemma issued_once E s e i j e' :
  tokens_ok E s → E !! i = Some e → E !! j = Some e' → pe_halfOpenToken e' = pe_halfOpenToken e → pe_halfOpenToken e ≠ 0 → j = i.
Proof.
  intros [_ _ Hnd] Hi Hj He Hz. destruct (decide (j = i)) as [|Hne]; [done|exfalso].
  assert (∀ i j e e', (i < j)%nat → E !! i = Some e → E !! j = Some e' → pe_halfOpenToken e' = pe_halfOpenToken e → pe_halfOpenToken e ≠ 0 → False) as Hcore.
  { clear - Hnd. intros i j e e' Hlt Hi Hj He Hz. rewrite <- (take_drop_middle E i e Hi) in Hnd.
    rewrite fmap_app, filter_app, fmap_cons, filter_cons_True, list.NoDup_app, NoDup_cons in Hnd by done.
    destruct Hnd as (_ & _ & Hni & _). apply Hni. rewrite list_elem_of_filter. split; [done|]. rewrite <- He.
    apply list_elem_of_fmap_2, (list_elem_of_lookup_2 _ (j - S i)). rewrite lookup_drop. by replace (S i + (j - S i))%nat with j by lia. }
  destruct (Nat.lt_trichotomy i j) as [?|[?|?]]; [by eapply (Hcore i j e e') | done | eapply (Hcore j i e' e); congruence].
Qed.

(** A half-open record under an observation of quality. *)
Lemma quality_keeps_probe cfg r outcome at_ delay reason weight :
  st_Breaker (hr_status r) = BreakerHalfOpen →
  let r' := apply_quality cfg r outcome at_ delay reason weight in
  hr_halfOpenToken r' = hr_halfOpenToken r ∧ hr_version r' = hr_version r ∧ st_Breaker (hr_status r') = BreakerHalfOpen ∧
  st_Health (hr_status r') = st_Health (hr_status r) ∧ hr_recoverySuccesses r' = hr_recoverySuccesses r ∧
  hr_consecutiveFailure r' = hr_consecutiveFailure r.
Proof.
  intros Eb. unfold apply_quality. set (w := if _ && _ then 0%Q else weight). set (r1 := if _ && _ then recordHealthDelay _ _ else _).
  assert (st_Breaker (hr_status r1) = BreakerHalfOpen ∧ hr_halfOpenToken r1 = hr_halfOpenToken r ∧ hr_version r1 = hr_version r ∧
    st_Health (hr_status r1) = st_Health (hr_status r) ∧ hr_recoverySuccesses r1 = hr_recoverySuccesses r ∧
    hr_consecutiveFailure r1 = hr_consecutiveFailure r) as (E1 & E2 & E3 & E4 & E5 & E6).
  { unfold r1. destruct (bool_decide _ && _); unfold recordHealthDelay; [destruct (delay <=? 0)|]; by split_and!. }
  rewrite E1, (bool_decide_false (BreakerHalfOpen = BreakerClosed)), andb_false_r by done. cbn zeta. destruct (bool_decide _); by split_and!.
Qed.

(** C12. A half-open breaker has exactly one owner.  In every reachable state, a
    record that holds a token was granted to exactly one entry of exactly one
    issued permit; until that entry gives the token back no acquisition finds
    the record available, at any time; no passive or active observation of an outcome
    applies to it unless it carries this token and the version the token was granted
    under; and an observation of quality, which needs no token, leaves its token, its
    version, its breaker and the counts the breaker goes by as they are (it adds to the
    statistics of delay and quality and to the time of the last write). *)
Theorem half_open_single_owner retention maxEntries σ k r :
  health_reachable retention maxEntries σ → hs_entries (sys_store σ) !! k = Some r → hr_halfOpenToken r ≠ 0 →
  (∃ i, issued (sys_permits σ) !! i = Some (owner k r) ∧
        ∀ j e, issued (sys_permits σ) !! j = Some e → pe_halfOpenToken e = hr_halfOpenToken r → j = i) ∧
  (∀ now, availableReadOnly r now = false) ∧
  (∀ version token active, observation_applies r version token active = true →
     active = true ∧ version = hr_version r ∧ token = hr_halfOpenToken r) ∧
  (∀ outcome at_ delay reason weight,
     let r' := apply_quality (hs_breaker (sys_store σ)) r outcome at_ delay reason weight in
     hr_halfOpenToken r' = hr_halfOpenToken r ∧ hr_version r' = hr_version r ∧ st_Breaker (hr_status r') = BreakerHalfOpen ∧
     st_Health (hr_status r') = st_Health (hr_status r) ∧ hr_recoverySuccesses r' = hr_recoverySuccesses r ∧
     hr_consecutiveFailure r' = hr_consecutiveFailure r).
Proof.
  intros Hreach Hk Ht. destruct (system_inv_reachable _ _ _ Hreach) as [Hs Ho Htk].
  pose proof (ro_token _ _ (so_records _ Hs _ _ Hk) Ht) as Eb. split_and!.
  - destruct (list_elem_of_lookup_1 _ _ (Ho k r Hk Ht)) as [i Hi]. exists i. split; [done|].
    intros j e Hj He. by eapply (issued_once _ _ (owner k r)).
  - intros now. unfold availableReadOnly. rewrite Eb. by apply Z.eqb_neq.
  - unfold observation_applies. rewrite Eb. intros v t a. rewrite !andb_true_iff. destruct a; simpl; [|by intros [[_ ?] _]].
    intros [[Hv _] Htok]. rewrite negb_involutive in Hv, Htok. by apply Z.eqb_eq in Hv, Htok.
  - intros outcome at_ delay reason weight. by apply quality_keeps_probe.
Qed.

Lemma half_open_single_owner_witness :
  ∃ r, hs_entries (fst probing) !! sample_key = Some r ∧ (∀ now, availableReadOnly r now = false).
Proof.
  eexists. split; [vm_compute; reflexivity|].
  apply (half_open_single_owner 0 0 _ sample_key _ probing_reachable); [vm_compute; reflexivity | done].
Defined.

Lemma hs_enforce_id s : health_bounded s → hs_enforce_bound s = s.
Proof.
  unfold health_bounded, hs_enforce_bound. intros Hb. destruct (length (hs_lru s)); [done|]. cbn [hs_evict].
  by rewrite (proj2 (Z.ltb_ge _ _)).
Qed.

(** What [observeLocked] does to a record that is present, in time and willing. *)
Lemma observeLocked_present s k r o at_ d reason v t active j :
  store_ok s → hs_entries (pruneExpiredLocked s at_) !! k = Some r → time_before at_ (st_LastUpdated (hr_status r)) = false →
  observation_applies r v t active = true →
  hs_entries (observeLocked s k o at_ d reason v t active j) !! k = Some (apply_observation (hs_breaker s) r o at_ d reason j).
Proof.
  intros Hs Hk Hat Happ. destruct (prune_ok s at_ Hs) as [Hp (_ & _ & Eb & _)]. unfold observeLocked. cbv zeta.
  rewrite Hk, Hat, andb_false_r. unfold hs_touch. rewrite Hk. rewrite Happ. simpl. rewrite Eb.
  set (r' := apply_observation _ _ _ _ _ _ _).
  destruct (_ && _); [simpl; by rewrite lookup_insert_eq|]. rewrite hs_enforce_id; [simpl; by rewrite lookup_insert_eq|].
  unfold health_bounded. simpl. rewrite map_size_insert, Hk. apply Hp.
Qed.

(** The probe of a half-open breaker always ends.  In every reachable state,
    when the owner of a token reports the outcome of its probe, at a time that is
    not before the last write of the record, the record (unless it has expired)
    gives up the token and takes the step of the abstract breaker: a second
    success closes it, a failure reopens it. *)
Theorem owner_completion_frees retention maxEntries σ k r o at_ d reason jitter :
  health_reachable retention maxEntries σ → hs_entries (sys_store σ) !! k = Some r → hr_halfOpenToken r ≠ 0 →
  st_LastUpdated (hr_status r) ≤ at_ → is_Some (hs_entries (pruneExpiredLocked (sys_store σ) at_) !! k) →
  ∃ r', hs_entries (observeLocked (sys_store σ) k o at_ d reason (hr_version r) (hr_halfOpenToken r) true jitter) !! k = Some r' ∧
        hr_halfOpenToken r' = 0 ∧
        phase_of r' = (if bool_decide (o = OutcomeSuccess) then phase_success (phase_of r)
                       else phase_failure (bc_FailureThreshold (hs_breaker (sys_store σ))) (phase_of r)).
Proof.
  intros Hreach Hk Ht Hat [r1 Hp]. destruct (system_inv_reachable _ _ _ Hreach) as [Hs _ _].
  destruct (prune_ok _ at_ Hs) as [_ (Hsub & _)]. pose proof (Hsub _ _ Hp) as Hr1. rewrite Hk in Hr1. simplify_eq.
  pose proof (so_records _ Hs _ _ Hk) as Hr. eexists. split; [|split].
  - apply observeLocked_present; [done | done | unfold time_before; by apply bool_decide_eq_false_2; lia |].
    unfold observation_applies. rewrite !Z.eqb_refl. simpl. rewrite andb_false_r. done.
  - by apply apply_observation_token.
  - by apply apply_observation_phase.
Qed.

Lemma owner_completion_frees_witness :
  ∃ r r', hs_entries (fst probing) !! sample_key = Some r ∧
    hs_entries (observeLocked (fst probing) sample_key OutcomeSuccess (11 * second) 0 "" (hr_version r) (hr_halfOpenToken r) true (λ b, b))
      !! sample_key = Some r' ∧ hr_halfOpenToken r' = 0 ∧ phase_of r' = PProbe 0 true.
Proof.
  destruct (hs_entries (fst probing) !! sample_key) as [r|] eqn:Er; [|by vm_compute in Er].
  assert (hr_halfOpenToken r = 1 ∧ st_LastUpdated (hr_status r) = second ∧ phase_of r = PProbe 3 false) as (Et & Eu & Ep).
  { vm_compute in Er. by injection Er as <-. }
  destruct (owner_completion_frees 0 0 _ sample_key r OutcomeSuccess (11 * second) 0 "" (λ b, b) probing_reachable Er) as (r' & H1 & H2 & H3).
  - lia.
  - rewrite Eu. by vm_compute.
  - by vm_compute; eexists.
  - exists r, r'. rewrite Ep in H3. auto.
Defined.

(** A quality sample taken at 12 s is recorded on the endpoint while the probe of
    10 s is out ... *)
Definition sampled_while_probing : HealthStore :=
  ObserveEvidence (fst probing) sample_handle DomainEndpoint "" "" OutcomeSuccess (12 * second) 0 "quality" false 1 0 (λ b, b).
(** ... and then the owner reports its success, observed at 11 s. *)
Definition reported_late : HealthStore * AttemptPermit :=
  match snd probing with
  | Some p => CompleteDomains sampled_while_probing p (λ _, Some OutcomeSuccess) (11 * second) 0 "ok" 0 (λ b, b)
  | None => (sampled_while_probing, mkPermit [] true)
  end.

(** The report is dropped with the token still out: the permit is used up, the
    record stays half-open, and at no later time does it become available. *)
Lemma late_report_strands_token :
  ap_completed (snd reported_late) = true ∧
  ∃ r, hs_entries (fst reported_late) !! sample_key = Some r ∧ phase_of r = PProbe 3 false ∧ ∀ now, availableReadOnly r now = false.
Proof. split; [by vm_compute|]. eexists. split; [vm_compute; reflexivity|]. by split. Qed.

(** A breaker reopened after one confirmed probe has one failure on its count: a
    failing last-resort attempt inside its cooldown closes it. *)
Lemma fallback_failure_closes_open_breaker :
  let r0 := with_machine opened_record (st_set_breaker (hr_status opened_record) BreakerHalfOpen true 0) 3 1 0 0 7 1 in
  let r1 := apply_observation defaultBreakerConfig r0 OutcomeSuccess 2 0 "" (λ b, b) in
  let r2 := apply_observation defaultBreakerConfig r1 OutcomeFailure 3 0 "" (λ b, b) in
  let r3 := apply_observation defaultBreakerConfig r2 OutcomeFailure 4 0 "" (λ b, b) in
  phase_of r2 = POpen 1 false ∧ observation_applies r2 (hr_version r2) 0 true = true ∧ phase_of r3 = PClosed 2.
Proof. by vm_compute. Qed.

(** ** The profile and the planner share one policy *)

Lemma StatusHandle_qualified s h d path svc order order' :
  is_Some (split_slash path) → StatusHandle s h d path svc order = StatusHandle s h d path svc order'.
Proof. intros Hs. unfold StatusHandle. rewrite (bool_decide_eq_true_2 _ Hs), andb_false_r. by destruct (fst _). Qed.

Lemma pathCapability_qualified s h path now order order' :
  is_Some (split_slash path) → pathCapability s h path now order = pathCapability s h path now order'.
Proof. intros Hs. unfold pathCapability. by rewrite (StatusHandle_qualified _ _ _ _ _ order order' Hs). Qed.

Definition concrete_paths : list string :=
  ["tcp/ipv4"; "tcp/ipv6"; "udp_dns/ipv4"; "udp_dns/ipv6"; "udp_data/ipv4"; "udp_data/ipv6"].

Lemma aggregate_bad path a b : known_bad (aggregateDualStackCapability path a b) = known_bad a && known_bad b.
Proof.
  unfold aggregateDualStackCapability, known_good, known_bad. cbv zeta.
  destruct (pc_Known a), (pc_Available a), (pc_Known b), (pc_Available b); done.
Qed.

Lemma SupportsService_bad p service : fst (SupportsService p service) = negb (known_bad (capabilityForPath p (RequiredPathForService service))).
Proof.
  unfold SupportsService, known_bad. cbv zeta. destruct (pc_Known _), (pc_Available _); simpl; try done.
  destruct (negb _); [done|]. by destruct (negb _).
Qed.

(** The profile's answer for a path, from the ledger. *)
Lemma capabilityForPath_bad s h now clock path order :
  known_bad (capabilityForPath (BuildCapabilityProfile s h now clock) path) =
    match dualStackFamilyPaths path with
    | Some (a, b) => known_bad (pathCapability s h a (at_or_clock now clock) order) && known_bad (pathCapability s h b (at_or_clock now clock) order)
    | None => bool_decide (path ∈ concrete_paths) && known_bad (pathCapability s h path (at_or_clock now clock) order)
    end.
Proof.
  unfold capabilityForPath.
  repeat match goal with
         | |- context [String.eqb path ?c] =>
             destruct (String.eqb_spec path c) as [->|];
             [first [ cbn -[pathCapability aggregateDualStackCapability bool_decide]; rewrite ?aggregate_bad;
                      rewrite ?bool_decide_eq_true_2 by (unfold concrete_paths; set_solver); simpl;
                      repeat (erewrite (pathCapability_qualified _ _ _ _ order []) by (by vm_compute; eexists)); reflexivity ]
             | cbn [orb]]
         end.
  unfold dualStackFamilyPaths. repeat (rewrite (proj2 (String.eqb_neq path _)) by done). simpl.
  rewrite bool_decide_eq_false_2; [done|]. unfold concrete_paths. set_solver.
Qed.

Lemma eligible_blocked s h path now order :
  negb (transportPathEligible s h path now order) =
    match dualStackFamilyPaths path with
    | Some (a, b) =>
        let a := pathCapability s h a now order in let b := pathCapability s h b now order in
        (known_bad a && known_bad b) || (negb (known_good a) && negb (known_good b) && known_bad (pathCapability s h path now order))
    | None => known_bad (pathCapability s h path now order)
    end.
Proof.
  unfold transportPathEligible. cbv zeta.
  assert (∀ c, negb (negb (pc_Known c) || pc_Available c) = known_bad c) as Hneg.
  { intros c. unfold known_bad. by destruct (pc_Known c), (pc_Available c). }
  destruct (dualStackFamilyPaths path) as [[a b]|]; [|apply Hneg]. change (pc_Known ?c && negb (pc_Available ?c)) with (known_bad c).
  rewrite aggregate_bad. generalize (pathCapability s h a now order) (pathCapability s h b now order). intros ca cb.
  destruct (known_bad ca && known_bad cb); [done|]. simpl. destruct (known_good ca), (known_good cb); simpl; try done; apply Hneg.
Qed.

(** The capability profile shown to operators and the gate used by the planner
    apply one fail-open policy.  What the profile reports as unsupported the gate
    blocks; for a path of a concrete family the two agree exactly; and for an
    aggregate of two families the gate blocks beyond the profile only where no
    family is known to work and the aggregate's own ledger is known to be bad, so
    one bad family never condemns a node. *)
Theorem profile_and_gate_agree s h service now clock order :
  let blocked := RequiredPathKnownBlocked s h service now clock order in
  let supported := fst (SupportsService (BuildCapabilityProfile s h now clock) service) in
  let path := RequiredPathForService service in
  let cap p := pathCapability s h p (at_or_clock now clock) order in
  (supported = false → blocked = true) ∧
  (path ∈ concrete_paths → blocked = negb supported) ∧
  (∀ a b, dualStackFamilyPaths path = Some (a, b) →
     supported = negb (known_bad (cap a) && known_bad (cap b)) ∧
     (blocked && supported = true → known_good (cap a) = false ∧ known_good (cap b) = false ∧ known_bad (cap path) = true)).
Proof.
  cbv zeta. unfold RequiredPathKnownBlocked. rewrite SupportsService_bad, (capabilityForPath_bad _ _ _ _ _ order), eligible_blocked. cbv zeta.
  generalize (RequiredPathForService service) as path. intros path.
  destruct (dualStackFamilyPaths path) as [[a b]|] eqn:Ed; split_and!.
  - intros ->%negb_false_iff. done.
  - intros Hc. exfalso. revert Ed. unfold concrete_paths in Hc. rewrite !elem_of_cons in Hc. by repeat (destruct Hc as [->|Hc]); [..|apply elem_of_nil in Hc].
  - intros a' b' ?. simplify_eq. split; [done|]. destruct (known_bad _ && known_bad _); simpl; [done|].
    rewrite andb_true_r, !andb_true_iff, !negb_true_iff. tauto.
  - intros Hs%negb_false_iff. by apply andb_true_iff in Hs as [_ ?].
  - intros Hc. rewrite (bool_decide_eq_true_2 _ Hc). simpl. by rewrite negb_involutive.
  - done.
Qed.
