(* ===== verification/Varbin.v ===== *)
(** * Byte streams: readers, uvarints and slices

    What the binary formats of [src/common/srs] and [src/common/geosite] use of
    Go's [encoding/binary] and [io]: byte and integer reads, [ReadUvarint] with
    its overflow and end-of-file rules, and loops that read a counted number of
    elements.  A reader is a function from the remaining bytes to an error or a
    value with the bytes that remain.

    [varbin] is a library outside the repository: the class [Varbin] has the
    operations used of it, and [VarbinLaws] what its documentation says they do.
    The instance [varbin_go] (the standard encoding) satisfies the laws. *)

From Stdlib Require Import ZArith Lia.
From S2P Require Import Prelude NetIP.
From stdpp Require Import base list strings numbers.

Local Open Scope Z_scope.

Abbreviation bytes := (list Z).

(** ** Errors *)

(** [OutOfFuel] does not exist in the code: it marks a loop of the model that
    was not given enough rounds. *)
Inductive io_error : Type :=
| EOF
| UnexpectedEOF
| ErrOverflow
| ErrInvalid
| ErrMsg (msg : string)
| ErrNum (msg : string) (n m : Z)
| ErrCause (msg : string) (index : Z) (cause : io_error)
| OutOfFuel.

Fixpoint exhausted (e : io_error) : bool :=
  match e with OutOfFuel => true | ErrCause _ _ e => exhausted e | _ => false end.

Definition reader (A : Type) : Type := bytes → io_error + (A * bytes).

Definition r_ret {A} (a : A) : reader A := λ bs, inr (a, bs).
Definition r_fail {A} (e : io_error) : reader A := λ _, inl e.
Definition r_bind {A B} (m : reader A) (f : A → reader B) : reader B := λ bs,
  match m bs with inl e => inl e | inr (a, bs) => f a bs end.

Declare Scope reader_scope.
Delimit Scope reader_scope with reader.
Notation "'let!' x := m 'in' k" := (r_bind m (λ x, k)) (at level 10, x pattern, k at level 200) : reader_scope.
#[global] Open Scope reader_scope.

(** [E.Cause(err, msg, i, "]")] *)
Definition with_cause {A} (msg : string) (i : Z) (m : reader A) : reader A := λ bs,
  match m bs with inl e => inl (ErrCause msg i e) | inr x => inr x end.

(** ** Fixed-size reads *)

Definition ReadByte : reader Z := λ bs, match bs with [] => inl EOF | b :: bs => inr (b, bs) end.

(** [io.ReadFull] of [n] bytes. *)
Definition ReadFull (n : nat) : reader bytes := λ bs,
  if (length bs <? n)%nat then inl (match bs with [] => EOF | _ => UnexpectedEOF end)
  else inr (take n bs, drop n bs).

(** [binary.Read] into a [bool] and into a big-endian [uint64]. *)
Definition ReadBool : reader bool := let! b := ReadByte in r_ret (negb (b =? 0)).
Definition ReadUint64 : reader Z := let! l := ReadFull 8 in r_ret (be_value l).

(** ** Uvarints *)

Definition MaxVarintLen64 : nat := 10.

(** [binary.ReadUvarint]: round [i], with [rounds] to go. *)
Fixpoint uvarint_loop (rounds : nat) (first : bool) (x s : Z) : reader Z := λ bs,
  match rounds with
  | O => inl ErrOverflow
  | S rounds =>
      match bs with
      | [] => inl (if first then EOF else UnexpectedEOF)
      | b :: bs =>
          if b <? 0x80 then
            if Nat.eqb rounds 0 && (1 <? b) then inl ErrOverflow else inr (Z.lor x (u64 (Z.shiftl b s)), bs)
          else uvarint_loop rounds false (Z.lor x (u64 (Z.shiftl (Z.land b 0x7f) s))) (s + 7) bs
      end
  end.
Definition ReadUvarint : reader Z := uvarint_loop MaxVarintLen64 true 0 0.

(** [binary.PutUvarint]: a [uint64] takes ten bytes at most. *)
Fixpoint put_loop (fuel : nat) (x : Z) : bytes :=
  match fuel with
  | O => []
  | S fuel => if 0x80 <=? x then Z.lor (u8 x) 0x80 :: put_loop fuel (Z.shiftr x 7) else [u8 x]
  end.
Definition PutUvarint (x : Z) : bytes := put_loop MaxVarintLen64 x.

Lemma lor_disjoint x y s : 0 ≤ x < 2 ^ s → 0 ≤ s → 0 ≤ y → Z.lor x (Z.shiftl y s) = x + y * 2 ^ s.
Proof.
  intros Hx Hs Hy. rewrite <- Z.shiftl_mul_pow2 by done. rewrite <- Z.lxor_lor, Z.add_nocarry_lxor; [done| |];
    (apply Z.bits_inj'; intros n Hn; rewrite Z.land_spec, Z.bits_0, Z.shiftl_spec by done;
     destruct (Z.ltb_spec n s); [by rewrite (Z.testbit_neg_r y) by lia; rewrite andb_false_r|];
     assert (Z.testbit x n = false) as ->; [|done]; apply Z.testbit_false; [done|];
     rewrite Z.div_small; [done|]; split; [lia|]; eapply Z.lt_le_trans; [apply Hx|]; apply Z.pow_le_mono_r; lia).
Qed.

Lemma put_byte x : 0 ≤ x → Z.lor (u8 x) 0x80 = x mod 128 + 128 ∧ Z.land (Z.lor (u8 x) 0x80) 0x7f = x mod 128.
Proof.
  intros Hx. pose proof (Z.mod_pos_bound x 256 ltac:(lia)) as H. change (u8 x) with (x mod 256).
  assert (∀ y, 0 ≤ y < 256 → Z.lor y 0x80 = y mod 128 + 128 ∧ Z.land (Z.lor y 0x80) 0x7f = y mod 128) as Hall.
  { intros y Hy. assert (∀ n : nat, (n < 256)%nat → Z.lor (Z.of_nat n) 0x80 = Z.of_nat n mod 128 + 128 ∧
      Z.land (Z.lor (Z.of_nat n) 0x80) 0x7f = Z.of_nat n mod 128) as Hn.
    { intros n. do 256 (destruct n as [|n]; [intros _; by vm_compute|]). lia. }
    specialize (Hn (Z.to_nat y)). rewrite Z2Nat.id in Hn by lia. apply Hn. lia. }
  destruct (Hall _ H) as [-> ->]. rewrite Z.mod_mod_divide by (by exists 2). done.
Qed.

(** Each round reads back seven bits. *)
Lemma uvarint_put rounds x s n rest first :
  0 ≤ s → 0 ≤ x < 2 ^ s → 0 ≤ n → s + 7 * Z.of_nat rounds = 70 → n * 2 ^ s < 2 ^ 64 → (0 < rounds)%nat →
  uvarint_loop rounds first x s (put_loop rounds n ++ rest) = inr (x + n * 2 ^ s, rest).
Proof.
  revert x s n first. induction rounds as [|rounds IH]; intros x s n first Hs Hx Hn Hl Hb Hpos; [lia|]. cbn [uvarint_loop put_loop].
  assert (Hp : 0 < 2 ^ s) by (apply Z.pow_pos_nonneg; lia).
  assert (∀ y, 0 ≤ y ≤ n → u64 (Z.shiftl y s) = Z.shiftl y s) as Hu.
  { intros y Hy. apply u64_id. unfold fits. rewrite Z.shiftl_mul_pow2 by done. nia. }
  destruct (Z.leb_spec 0x80 n); simpl app.
  - destruct (put_byte n Hn) as [-> E2]. cbv iota. pose proof (Z.mod_pos_bound n 128 ltac:(lia)).
    rewrite (proj2 (Z.ltb_ge _ _)) by lia.
    assert (Z.land (n mod 128 + 128) 0x7f = n mod 128) as ->.
    { destruct (put_byte n Hn) as [E1 E2']. by rewrite E1 in E2'. }
    rewrite Hu, lor_disjoint by (try lia; pose proof (Z.mod_le n 128); lia).
    assert (rounds ≠ 0)%nat. { intros ->. assert (s = 63) as -> by lia. change (2 ^ 64) with (2 * 2 ^ 63) in Hb. nia. }
    rewrite Z.shiftr_div_pow2 by lia. change (2 ^ 7) with 128.
    assert (Es : 2 ^ (s + 7) = 2 ^ s * 128) by (by rewrite Z.pow_add_r by lia).
    pose proof (Z.div_mod n 128 ltac:(lia)) as Hdm. rewrite IH.
    + f_equal. f_equal. rewrite Es. lia.
    + lia.
    + rewrite Es. nia.
    + apply Z.div_pos; lia.
    + lia.
    + rewrite Es. nia.
    + lia.
  - change (u8 n) with (n mod 256). rewrite Z.mod_small by lia. simpl. rewrite (proj2 (Z.ltb_lt _ _)) by lia.
    rewrite Hu, lor_disjoint by lia. destruct (Nat.eqb_spec rounds 0) as [->|]; [|done].
    assert (s = 63) as -> by lia. rewrite (proj2 (Z.ltb_ge _ _)); [done|]. change (2 ^ 64) with (2 * 2 ^ 63) in Hb. nia.
Qed.

Lemma ReadUvarint_Put n rest : fits 64 n → ReadUvarint (PutUvarint n ++ rest) = inr (n, rest).
Proof.
  intros [Hn Hb]. unfold ReadUvarint, PutUvarint.
  rewrite uvarint_put; unfold MaxVarintLen64; change (2 ^ 0) with 1; rewrite ?Z.mul_1_r; try lia; done.
Qed.

(** ** Counted loops *)

(** [for i := range n { a, err = rd(i); ... append }].  A round that succeeds
    consumes a byte, so as many rounds as there are bytes are enough. *)
Fixpoint read_loop {A} (fuel : nat) (rd : Z → reader A) (i n : Z) : reader (list A) := λ bs,
  if n <=? i then inr ([], bs)
  else match fuel with
       | O => inl OutOfFuel
       | S fuel =>
           match rd i bs with
           | inl e => inl e
           | inr (a, bs) =>
               match read_loop fuel rd (i + 1) n bs with inl e => inl e | inr (l, bs) => inr (a :: l, bs) end
           end
       end.
Definition read_many {A} (rd : Z → reader A) (n : Z) : reader (list A) := λ bs, read_loop (S (length bs)) rd 0 n bs.

(** *** Total readers *)

(** A reader that never runs out of fuel and never grows its input; it is
    consuming when success takes at least one byte. *)
Record total_reader {A} (strict : bool) (rd : reader A) : Prop := {
  tr_fuel : ∀ bs e, rd bs = inl e → exhausted e = false;
  tr_shrink : ∀ bs a bs', rd bs = inr (a, bs') → (length bs' + (if strict then 1 else 0) ≤ length bs)%nat }.

Lemma total_weaken {A} (rd : reader A) : total_reader true rd → total_reader false rd.
Proof. intros [H1 H2]. split; [done|]. intros bs a bs' H%H2. lia. Qed.

Lemma total_ret {A} (a : A) : total_reader false (r_ret a).
Proof. split; unfold r_ret; intros; simplify_eq. lia. Qed.

Lemma total_fail {A} e b : exhausted e = false → total_reader (A := A) b (r_fail e).
Proof. intros He. split; unfold r_fail; intros; by simplify_eq. Qed.

Lemma total_bind {A B} b1 b2 (m : reader A) (f : A → reader B) :
  total_reader b1 m → (∀ a, total_reader b2 (f a)) → total_reader (b1 || b2) (r_bind m f).
Proof.
  intros [F1 S1] H2. split; unfold r_bind.
  - intros bs e. destruct (m bs) as [e1|[a bs1]] eqn:E; [intros; simplify_eq; by eapply F1 | by apply H2].
  - intros bs y bs'. destruct (m bs) as [e1|[a bs1]] eqn:E; [done|]. intros Hf.
    apply (tr_shrink _ _ (H2 a)) in Hf. apply S1 in E. destruct b1, b2; simpl; lia.
Qed.

Lemma total_byte : total_reader true ReadByte.
Proof. split; unfold ReadByte; intros [|b bs]; intros; simplify_eq; simpl; [done | lia]. Qed.

Lemma total_full n : (0 < n)%nat → total_reader true (ReadFull n).
Proof.
  intros Hn. split; unfold ReadFull; intros bs; destruct (Nat.ltb_spec (length bs) n); intros; simplify_eq.
  - by destruct bs.
  - rewrite length_drop. lia.
Qed.

Lemma total_uvarint_loop rounds first x s : total_reader true (uvarint_loop rounds first x s).
Proof.
  revert first x s. induction rounds as [|rounds IH]; intros first x s; (split; cbn [uvarint_loop]; [intros [|b bs] | intros [|b bs]]);
    try (intros; simplify_eq; done); try (intros e He; simplify_eq; by destruct first).
  - intros e. destruct (b <? 128); [destruct (_ && _); intros; by simplify_eq | by apply IH].
  - intros y bs'. destruct (b <? 128); [destruct (_ && _); intros; simplify_eq; simpl; lia|].
    intros H. apply (tr_shrink _ _ (IH _ _ _)) in H. simpl in *. lia.
Qed.

Lemma total_uvarint : total_reader true ReadUvarint.
Proof. apply total_uvarint_loop. Qed.

Lemma total_cause {A} b msg i (m : reader A) : total_reader b m → total_reader b (with_cause msg i m).
Proof.
  intros [H1 H2]. split; unfold with_cause; intros bs; destruct (m bs) as [e|[a bs1]] eqn:E; intros; simplify_eq; simpl; eauto.
Qed.

Lemma total_loop {A} fuel (rd : Z → reader A) i n bs :
  (∀ i, total_reader true (rd i)) → (length bs < fuel)%nat →
  match read_loop fuel rd i n bs with inl e => exhausted e = false | inr (_, bs') => (length bs' ≤ length bs)%nat end.
Proof.
  intros Hrd. revert i bs. induction fuel as [|fuel IH]; intros i bs Hf; cbn [read_loop]; destruct (n <=? i); try done; [lia|].
  destruct (rd i bs) as [e|[a bs1]] eqn:E; [by eapply Hrd|]. apply (tr_shrink _ _ (Hrd i)) in E. simpl in E.
  specialize (IH (i + 1) bs1 ltac:(lia)). destruct (read_loop fuel rd (i + 1) n bs1) as [e|[l bs2]]; [done | lia].
Qed.

Lemma total_many {A} (rd : Z → reader A) n : (∀ i, total_reader true (rd i)) → total_reader false (read_many rd n).
Proof.
  intros Hrd. split; unfold read_many; intros bs; pose proof (total_loop (S (length bs)) rd 0 n bs Hrd ltac:(lia)) as H;
    destruct (read_loop _ _ _ _ _) as [e|[l bs1]]; intros; simplify_eq; [done | lia].
Qed.

(** What every element satisfies. *)
Lemma read_loop_post {A} (P : A → Prop) fuel (rd : Z → reader A) i n bs l bs' :
  (∀ i bs a bs', rd i bs = inr (a, bs') → P a) → read_loop fuel rd i n bs = inr (l, bs') → Forall P l.
Proof.
  intros Hp. revert i bs l. induction fuel as [|fuel IH]; intros i bs l; cbn [read_loop]; destruct (n <=? i); intros; simplify_eq; [done..|].
  destruct (rd i bs) as [e|[a bs1]] eqn:E; [done|]. destruct (read_loop fuel rd (i + 1) n bs1) as [e|[l1 bs2]] eqn:El; simplify_eq.
  constructor; [by eapply Hp | by eapply IH].
Qed.

(** *** Reading back what was written *)

(** [rd] reads back what [enc] wrote, for the values satisfying [P]. *)
Definition decodes {A} (P : A → Prop) (enc : A → bytes) (rd : reader A) : Prop :=
  ∀ a rest, P a → rd (enc a ++ rest) = inr (a, rest).

Lemma decodes_loop {A} P (enc : A → bytes) (rd : Z → reader A) fuel i l rest :
  (∀ i, decodes P enc (rd i)) → Forall P l → (length l ≤ fuel)%nat → 0 ≤ i →
  read_loop fuel rd i (i + Z.of_nat (length l)) (mjoin (enc <$> l) ++ rest) = inr (l, rest).
Proof.
  intros Hd Hl. revert fuel i. induction Hl as [|a l Ha Hl IH]; intros fuel i Hf Hi.
  - destruct fuel; simpl; rewrite Z.add_0_r, (proj2 (Z.leb_le i i)) by lia; done.
  - simpl in Hf. destruct fuel as [|fuel]; [lia|]. cbn [read_loop length].
    rewrite (proj2 (Z.leb_gt _ _)) by lia. change (mjoin (enc <$> (a :: l))) with (enc a ++ mjoin (enc <$> l)). rewrite <- app_assoc.
    rewrite (Hd i a _ Ha).
    replace (i + Z.of_nat (S (length l))) with ((i + 1) + Z.of_nat (length l)) by lia. rewrite IH by lia. done.
Qed.

Lemma join_length_ge {A} (P : A → Prop) (enc : A → bytes) l :
  (∀ a, P a → enc a ≠ []) → Forall P l → (length l ≤ length (mjoin (enc <$> l)))%nat.
Proof.
  intros He. induction 1 as [|a l Ha Hl IH]; [done|].
  change (mjoin (enc <$> (a :: l))) with (enc a ++ mjoin (enc <$> l)). rewrite length_app.
  pose proof (He a Ha). destruct (enc a); [done|]. cbn [length]. lia.
Qed.

Lemma decodes_many {A} P (enc : A → bytes) (rd : Z → reader A) l rest :
  (∀ i, decodes P enc (rd i)) → (∀ a, P a → enc a ≠ []) → Forall P l →
  read_many rd (Z.of_nat (length l)) (mjoin (enc <$> l) ++ rest) = inr (l, rest).
Proof.
  intros Hd He Hl. unfold read_many. apply (decodes_loop P enc rd _ 0); [done | done | | done].
  pose proof (join_length_ge P enc l He Hl). rewrite length_app. lia.
Qed.

(** ... and when each element was written on its own. *)
Lemma read_many_Forall2 {A B} (f : B → A) (rd : Z → reader A) l bss rest :
  Forall2 (λ x b, b ≠ [] ∧ ∀ i rest, rd i (b ++ rest) = inr (f x, rest)) l bss →
  read_many rd (Z.of_nat (length l)) (mjoin bss ++ rest) = inr (f <$> l, rest).
Proof.
  intros Hl. assert (length l ≤ length (mjoin bss))%nat as Hlen.
  { induction Hl as [|x b l bss [Hb _] Hl IH]; [done|]. change (mjoin (b :: bss)) with (b ++ mjoin bss). rewrite length_app.
    destruct b; [done|]. simpl. lia. }
  unfold read_many. rewrite length_app. set (fuel := S _). assert (length l ≤ fuel)%nat as Hf by lia. clearbody fuel. clear Hlen.
  change (Z.of_nat (length l)) with (0 + Z.of_nat (length l)). generalize 0 as i. revert fuel Hf.
  induction Hl as [|x b l bss [Hb Hr] Hl IH]; intros fuel Hf i.
  - destruct fuel; simpl; rewrite Z.add_0_r, (proj2 (Z.leb_le i i)) by lia; done.
  - cbn [length] in *. destruct fuel as [|fuel]; [lia|]. cbn [read_loop]. rewrite (proj2 (Z.leb_gt _ _)) by lia.
    change (mjoin (b :: bss)) with (b ++ mjoin bss). rewrite <- app_assoc, Hr.
    replace (i + Z.of_nat (S (length l))) with ((i + 1) + Z.of_nat (length l)) by lia. rewrite IH by lia. done.
Qed.

(** ** Strings and slices *)

Definition byte_of (c : Ascii.ascii) : Z := Z.of_nat (Ascii.nat_of_ascii c).
Definition string_bytes (s : string) : bytes := byte_of <$> String.list_ascii_of_string s.
Definition bytes_string (l : bytes) : string :=
  String.string_of_list_ascii ((λ b, Ascii.ascii_of_nat (Z.to_nat b)) <$> l).

Lemma bytes_string_bytes s : bytes_string (string_bytes s) = s.
Proof.
  unfold bytes_string, string_bytes. rewrite <- list_fmap_compose. rewrite <- (String.string_of_list_ascii_of_string s) at 2. f_equal.
  rewrite <- (list_fmap_id (String.list_ascii_of_string s)) at 2. apply list_fmap_ext. intros i c _. simpl.
  unfold byte_of. by rewrite Nat2Z.id, Ascii.ascii_nat_embedding.
Qed.

(** The operations of the [varbin] package that the formats use. *)
Class Varbin : Type := {
  WriteUvarint : Z → bytes;
  ReadSlice8 : reader bytes;
  ReadSlice16 : reader (list Z) }.

Definition be16 (l : list Z) : bytes := mjoin (be_bytes 2 <$> l).

(** Its documented behaviour: [WriteUvarint] is the standard encoding (what
    [binary.ReadUvarint] reads back), and [ReadSlice] reads a uvarint count and
    that many big-endian elements. *)
Class VarbinLaws `{Varbin} : Prop := {
  WriteUvarint_read n rest : fits 64 n → ReadUvarint (WriteUvarint n ++ rest) = inr (n, rest);
  ReadSlice8_read l rest : fits 64 (Z.of_nat (length l)) → Forall (fits 8) l →
    ReadSlice8 (WriteUvarint (Z.of_nat (length l)) ++ l ++ rest) = inr (l, rest);
  ReadSlice16_read l rest : fits 64 (Z.of_nat (length l)) → Forall (fits 16) l →
    ReadSlice16 (WriteUvarint (Z.of_nat (length l)) ++ be16 l ++ rest) = inr (l, rest);
  ReadSlice8_total : total_reader true ReadSlice8;
  ReadSlice16_total : total_reader true ReadSlice16 }.

Lemma WriteUvarint_nonempty `{VarbinLaws} n : fits 64 n → WriteUvarint n ≠ [].
Proof. intros Hn E. pose proof (WriteUvarint_read n [] Hn) as Hr. rewrite E in Hr. done. Qed.

(** *** The standard encoding satisfies the laws *)

Definition ReadUint16 : reader Z := let! l := ReadFull 2 in r_ret (be_value l).

#[global] Instance varbin_go : Varbin := {|
  WriteUvarint := PutUvarint;
  ReadSlice8 := let! n := ReadUvarint in read_many (λ _, ReadByte) n;
  ReadSlice16 := let! n := ReadUvarint in read_many (λ _, ReadUint16) n |}.

Lemma ReadUint16_decodes : decodes (fits 16) (be_bytes 2) ReadUint16.
Proof.
  intros a rest Ha. unfold ReadUint16, r_bind, ReadFull. rewrite length_app, be_bytes_length.
  destruct (Nat.ltb_spec (2 + length rest) 2); [lia|].
  rewrite take_app_length', drop_app_length' by (symmetry; apply be_bytes_length). rewrite be_value_bytes. unfold r_ret.
  by rewrite Z.mod_small.
Qed.

Lemma total_uint16 : total_reader true ReadUint16.
Proof. apply (total_bind true false); [apply total_full; lia | intros; apply total_ret]. Qed.

#[global] Instance varbin_go_laws : VarbinLaws.
Proof.
  split; simpl.
  - apply ReadUvarint_Put.
  - intros l rest Hn Hl. unfold r_bind. rewrite ReadUvarint_Put by done.
    pose proof (decodes_many (fits 8) (λ b, [b]) (λ _, ReadByte) l rest) as H.
    assert (mjoin ((λ b, [b]) <$> l) = l) as E by (clear; induction l as [|b l IH]; [done|]; simpl; by f_equal).
    rewrite E in H. apply H; [by intros _ a r _ | done | done].
  - intros l rest Hn Hl. unfold r_bind. rewrite ReadUvarint_Put by done.
    apply (decodes_many (fits 16)); [intros _; apply ReadUint16_decodes | by intros a _ E%(f_equal length); rewrite be_bytes_length in E | done].
  - apply (total_bind true false); [apply total_uvarint | intros; apply total_many; intros; apply total_byte].
  - apply (total_bind true false); [apply total_uvarint | intros; apply total_many; intros; apply total_uint16].
Qed.

Lemma string_bytes_fits s : Forall (fits 8) (string_bytes s).
Proof.
  unfold string_bytes. apply Forall_fmap, Forall_true. intros c. unfold compose, byte_of, fits.
  pose proof (Ascii.nat_ascii_bounded c). lia.
Qed.

Lemma string_bytes_length s : length (string_bytes s) = String.length s.
Proof. unfold string_bytes. rewrite length_fmap. induction s; simpl; congruence. Qed.

Lemma read_bytes_decodes l rest : read_many (λ _, ReadByte) (Z.of_nat (length l)) (l ++ rest) = inr (l, rest).
Proof.
  pose proof (decodes_many (λ _, True) (λ b, [b]) (λ _, ReadByte) l rest) as H.
  assert (mjoin ((λ b, [b]) <$> l) = l) as E by (clear; induction l as [|b l IH]; [done|]; simpl; by f_equal).
  rewrite E in H. apply H; [by intros _ a r _ | done | by apply Forall_true].
Qed.
