(* ===== verification/Geosite.v ===== *)
(** * The geosite database

    [src/common/geosite]: a file with a metadata table (code, offset, number of
    items) followed by the items of all codes.  [writer.go] lays the table out
    from a map, [reader.go] loads the table once and then seeks for each code,
    [rule.go] turns items into a rule.  The file is the list of its bytes;
    [readMetadata] counts the bytes the buffered reader has handed out. *)

From Stdlib Require Import ZArith Lia.
From S2P Require Import Prelude NetIP Varbin.
From stdpp Require Import base gmap list strings numbers sorting.

Local Open Scope Z_scope.

(** ** Items and rules (rule.go) *)

Definition RuleTypeDomain : Z := 0.
Definition RuleTypeDomainSuffix : Z := 1.
Definition RuleTypeDomainKeyword : Z := 2.
Definition RuleTypeDomainRegex : Z := 3.

Record Item : Type := mkItem { item_Type : Z; item_Value : string }.

(** The fields of [option.DefaultRule] that the package writes. *)
Record DomainRule : Type := mkDomainRule {
  dr_Domain : list string;
  dr_DomainSuffix : list string;
  dr_DomainKeyword : list string;
  dr_DomainRegex : list string }.

(** [Compile]: the counting loop before it only sizes the slices. *)
Fixpoint Compile (code : list Item) : DomainRule :=
  match code with
  | [] => mkDomainRule [] [] [] []
  | item :: code =>
      let r := Compile code in
      if item_Type item =? RuleTypeDomain then mkDomainRule (item_Value item :: dr_Domain r) (dr_DomainSuffix r) (dr_DomainKeyword r) (dr_DomainRegex r)
      else if item_Type item =? RuleTypeDomainSuffix then mkDomainRule (dr_Domain r) (item_Value item :: dr_DomainSuffix r) (dr_DomainKeyword r) (dr_DomainRegex r)
      else if item_Type item =? RuleTypeDomainKeyword then mkDomainRule (dr_Domain r) (dr_DomainSuffix r) (item_Value item :: dr_DomainKeyword r) (dr_DomainRegex r)
      else if item_Type item =? RuleTypeDomainRegex then mkDomainRule (dr_Domain r) (dr_DomainSuffix r) (dr_DomainKeyword r) (item_Value item :: dr_DomainRegex r)
      else r
  end.

Definition Merge (rules : list DomainRule) : DomainRule :=
  mkDomainRule (mjoin (dr_Domain <$> rules)) (mjoin (dr_DomainSuffix <$> rules)) (mjoin (dr_DomainKeyword <$> rules)) (mjoin (dr_DomainRegex <$> rules)).

(** ** Writer *)

Section Format.
Context `{Varbin}.

Definition writeString (value : string) : bytes := WriteUvarint (Z.of_nat (String.length value)) ++ string_bytes value.
Definition write_item (item : Item) : bytes := u8 (item_Type item) :: writeString (item_Value item).

Definition string_le (a b : string) : Prop := String.leb a b = true.
#[global] Instance string_le_dec : RelDecision string_le := λ a b, decide (String.leb a b = true).

(** The contents in the order of the keys, with the offset of each. *)
Fixpoint write_contents (keys : list string) (domains : gmap string (list Item)) (content : bytes) (index : gmap string Z) : bytes * gmap string Z :=
  match keys with
  | [] => (content, index)
  | code :: keys =>
      let index := <[code := Z.of_nat (length content)]> index in
      write_contents keys domains (content ++ mjoin (write_item <$> default [] (domains !! code))) index
  end.

Definition write_entry (domains : gmap string (list Item)) (index : gmap string Z) (code : string) : bytes :=
  writeString code ++ WriteUvarint (u64 (default 0 (index !! code))) ++ WriteUvarint (Z.of_nat (length (default [] (domains !! code)))).

Definition sorted_keys (domains : gmap string (list Item)) : list string := merge_sort string_le (map_to_list domains).*1.

Definition Geosite_Write (domains : gmap string (list Item)) : bytes :=
  let keys := sorted_keys domains in
  let '(content, index) := write_contents keys domains [] ∅ in
  [0] ++ WriteUvarint (Z.of_nat (length keys)) ++ mjoin (write_entry domains index <$> keys) ++ content.

(** ** Reader *)

Record Reader : Type := mkReader {
  rd_file : bytes;
  rd_metadataIndex : Z;
  rd_domainIndex : gmap string Z;
  rd_domainLength : gmap string Z }.

Definition readString : reader string :=
  let! length := ReadUvarint in
  let! value := read_many (λ _, ReadByte) length in
  r_ret (bytes_string value).

Definition MaxInt32 : Z := 2 ^ 31 - 1.

Definition read_entry : reader (string * Z * Z) :=
  let! code := readString in
  let! codeIndex := ReadUvarint in
  let! codeLength := ReadUvarint in
  if (MaxInt32 <? codeIndex) || (MaxInt32 <? codeLength) then r_fail (ErrMsg ("invalid metadata entry: " +:+ code))
  else r_ret (code, codeIndex, codeLength).

(** A later entry of a code replaces an earlier one. *)
Definition put_entry (m : gmap string Z * gmap string Z) (e : string * Z * Z) : gmap string Z * gmap string Z :=
  (<[e.1.1 := e.1.2]> m.1, <[e.1.1 := e.2]> m.2).

Definition read_table : reader (gmap string Z * gmap string Z) :=
  let! version := ReadByte in
  if negb (version =? 0) then r_fail (ErrMsg "unknown version")
  else
    let! entryLength := ReadUvarint in
    let! entries := read_many (λ _, read_entry) entryLength in
    r_ret (foldl put_entry (∅, ∅) entries).

Definition readMetadata (file : bytes) : io_error + Reader :=
  match read_table file with
  | inl e => inl e
  | inr ((index, len), rest) => inr (mkReader file (Z.of_nat (length file - length rest)) index len)
  end.

(** [NewReader]: the codes in an arbitrary order. *)
Definition NewReader (file : bytes) : io_error + (Reader * list string) :=
  match readMetadata file with inl e => inl e | inr r => inr (r, (map_to_list (rd_domainIndex r)).*1) end.

Definition read_item : reader Item :=
  let! typeByte := ReadByte in
  let! value := readString in
  r_ret (mkItem typeByte value).

(** [Reader.Read]: a seek past the end leaves nothing to read. *)
Definition Geosite_Read (r : Reader) (code : string) : io_error + list Item :=
  match rd_domainIndex r !! code with
  | None => inl (ErrMsg ("code " +:+ code +:+ " not exists!"))
  | Some index =>
      match read_many (λ _, read_item) (default 0 (rd_domainLength r !! code))
              (drop (Z.to_nat (rd_metadataIndex r + index)) (rd_file r)) with
      | inl e => inl e
      | inr (items, _) => inr items
      end
  end.
End Format.

(** ** Reading back what was written *)

(** What the format can hold: type bytes, lengths of 64 bits, and offsets and
    counts that fit the reader's 31-bit check. *)
Definition item_ok (i : Item) : Prop := fits 8 (item_Type i) ∧ fits 64 (Z.of_nat (String.length (item_Value i))).

Definition items_of (domains : gmap string (list Item)) (code : string) : list Item := default [] (domains !! code).

Record writable `{Varbin} (domains : gmap string (list Item)) : Prop := {
  wr_items : ∀ code items, domains !! code = Some items → Forall item_ok items;
  wr_codes : ∀ code items, domains !! code = Some items → fits 64 (Z.of_nat (String.length code));
  wr_counts : ∀ code items, domains !! code = Some items → Z.of_nat (length items) ≤ MaxInt32;
  wr_size : fits 64 (Z.of_nat (size domains));
  wr_content : Z.of_nat (length (fst (write_contents (sorted_keys domains) domains [] ∅))) ≤ MaxInt32 }.

Section RoundTrip.
Context `{VarbinLaws}.

Lemma readString_write s rest : fits 64 (Z.of_nat (String.length s)) → readString (writeString s ++ rest) = inr (s, rest).
Proof.
  intros Hs. unfold readString, writeString, r_bind. rewrite <- app_assoc, WriteUvarint_read by done.
  rewrite <- (string_bytes_length s), read_bytes_decodes. unfold r_ret. by rewrite bytes_string_bytes.
Qed.

Lemma read_item_write : decodes item_ok write_item read_item.
Proof.
  intros [t v] rest [Ht Hv]. unfold read_item, write_item, r_bind. simpl in *. rewrite readString_write by done. unfold r_ret.
  by rewrite u8_id.
Qed.

Lemma writeString_nonempty s : fits 64 (Z.of_nat (String.length s)) → writeString s ≠ [].
Proof. intros Hs. unfold writeString. pose proof (WriteUvarint_nonempty _ Hs). by destruct (WriteUvarint _). Qed.

Lemma sorted_keys_spec domains : NoDup (sorted_keys domains) ∧ ∀ code, code ∈ sorted_keys domains ↔ is_Some (domains !! code).
Proof.
  unfold sorted_keys. split.
  - rewrite merge_sort_Permutation. apply NoDup_fst_map_to_list.
  - intros code. rewrite merge_sort_Permutation, list_elem_of_fmap. split.
    + intros ([c items] & -> & Hin%elem_of_map_to_list). simpl. by rewrite Hin.
    + intros [items Hi]. exists (code, items). by rewrite elem_of_map_to_list.
Qed.

Lemma sorted_keys_length domains : length (sorted_keys domains) = size domains.
Proof. unfold sorted_keys. rewrite merge_sort_Permutation, length_fmap. apply length_map_to_list. Qed.

(** Each code's items stand in the content at its offset. *)
Lemma write_contents_spec keys domains content index content' index' :
  write_contents keys domains content index = (content', index') → NoDup keys →
  (∃ tail, content' = content ++ tail) ∧ (∀ code, (code ∉ keys) → index' !! code = index !! code) ∧
  (∀ code, code ∈ keys → ∃ pre post, content' = pre ++ mjoin (write_item <$> items_of domains code) ++ post ∧
                                     index' !! code = Some (Z.of_nat (length pre))).
Proof.
  revert content index. induction keys as [|k keys IH]; intros content index Hw Hnd; cbn [write_contents] in Hw.
  - simplify_eq. split_and!; [exists []; by rewrite app_nil_r | done | by intros ? ?%elem_of_nil].
  - apply NoDup_cons in Hnd as [Hk Hnd]. destruct (IH _ _ Hw Hnd) as ((tail & Ht) & Hout & Hin). rewrite <- app_assoc in Ht. split_and!.
    + eauto.
    + intros code [Hne Hc]%not_elem_of_cons. rewrite Hout by done. by rewrite lookup_insert_ne.
    + intros code [->|Hc]%elem_of_cons; [|by apply Hin]. exists content, tail. split; [done|]. rewrite Hout by done. by rewrite lookup_insert_eq.
Qed.

(** The table, entry by entry. *)
Definition entry_of (domains : gmap string (list Item)) (index : gmap string Z) (code : string) : string * Z * Z :=
  (code, default 0 (index !! code), Z.of_nat (length (items_of domains code))).

Definition entry_ok (e : string * Z * Z) : Prop :=
  fits 64 (Z.of_nat (String.length e.1.1)) ∧ 0 ≤ e.1.2 ≤ MaxInt32 ∧ 0 ≤ e.2 ≤ MaxInt32.
Definition enc_entry (e : string * Z * Z) : bytes := writeString e.1.1 ++ WriteUvarint (u64 e.1.2) ++ WriteUvarint e.2.

Lemma read_entry_write : decodes entry_ok enc_entry read_entry.
Proof.
  intros [[code i] n] rest (Hc & Hi & Hl). unfold MaxInt32 in *. simpl in *.
  unfold read_entry, enc_entry, r_bind. simpl. rewrite <- !app_assoc, readString_write by done.
  rewrite u64_id by (unfold fits; lia). rewrite !WriteUvarint_read by (unfold fits in *; lia).
  unfold MaxInt32. rewrite !(proj2 (Z.ltb_ge _ _)) by lia. done.
Qed.

Lemma put_entries_spec l m :
  NoDup (l.*1.*1) →
  (∀ code i n, (code, i, n) ∈ l → (foldl put_entry m l).1 !! code = Some i ∧ (foldl put_entry m l).2 !! code = Some n) ∧
  (∀ code, (code ∉ l.*1.*1) → (foldl put_entry m l).1 !! code = m.1 !! code ∧ (foldl put_entry m l).2 !! code = m.2 !! code).
Proof.
  revert m. induction l as [|[[c i] n] l IH]; intros m Hnd; simpl in *.
  - split; [by intros ? ? ? ?%elem_of_nil | done].
  - apply NoDup_cons in Hnd as [Hc Hnd]. destruct (IH (put_entry m (c, i, n)) Hnd) as [Hin Hout]. split.
    + intros code i' n' [?|?]%elem_of_cons; [|by apply Hin]. simplify_eq. destruct (Hout c Hc) as [-> ->]. unfold put_entry. simpl.
      by rewrite !lookup_insert_eq.
    + intros code [Hne Hn]%not_elem_of_cons. destruct (Hout code Hn) as [-> ->]. unfold put_entry. simpl. by rewrite !lookup_insert_ne.
Qed.

Lemma read_many_entries domains index keys rest :
  (∀ code, code ∈ keys → entry_ok (entry_of domains index code)) →
  read_many (λ _, read_entry) (Z.of_nat (length keys)) (mjoin (write_entry domains index <$> keys) ++ rest) =
    inr (entry_of domains index <$> keys, rest).
Proof.
  intros Hok. assert (write_entry domains index <$> keys = enc_entry <$> (entry_of domains index <$> keys)) as ->.
  { rewrite <- list_fmap_compose. by apply list_fmap_ext. }
  rewrite <- (length_fmap (entry_of domains index) keys). apply (decodes_many entry_ok).
  - intros _. apply read_entry_write.
  - intros e (He & _). unfold enc_entry. pose proof (writeString_nonempty _ He). by destruct (writeString _).
  - apply Forall_forall. intros e Hin. apply list_elem_of_fmap in Hin as (code & -> & Hin). by apply Hok.
Qed.

(** Writing a geosite database and opening it again loses nothing: the reader
    accepts the file, lists exactly the codes of the map, returns for each of
    them its items in order, and reports every other code as missing. *)
Theorem geosite_round_trip domains :
  writable domains →
  ∃ r codes, NewReader (Geosite_Write domains) = inr (r, codes) ∧ (∀ code, code ∈ codes ↔ is_Some (domains !! code)) ∧
    ∀ code, Geosite_Read r code = match domains !! code with
                                  | Some items => inr items
                                  | None => inl (ErrMsg ("code " +:+ code +:+ " not exists!"))
                                  end.
Proof.
  intros [Hit Hco Hct Hsz Hcont]. unfold Geosite_Write. destruct (sorted_keys_spec domains) as [Hnd Hkeys].
  destruct (write_contents (sorted_keys domains) domains [] ∅) as [content index] eqn:Ew. simpl in Hcont.
  destruct (write_contents_spec _ _ _ _ _ _ Ew Hnd) as (_ & _ & Hidx).
  set (entries := entry_of domains index <$> sorted_keys domains).
  set (header := 0 :: WriteUvarint (Z.of_nat (length (sorted_keys domains))) ++ mjoin (write_entry domains index <$> sorted_keys domains)).
  replace ([0] ++ _ ++ _ ++ content) with (header ++ content) by (unfold header; simpl; by rewrite <- app_assoc).
  assert (Hdef : ∀ code items, domains !! code = Some items → items_of domains code = items) by (intros code items E; unfold items_of; by rewrite E).
  assert (Hok : ∀ code, code ∈ sorted_keys domains → entry_ok (entry_of domains index code)).
  { intros code Hc. destruct (Hidx code Hc) as (pre & post & -> & Ei). apply Hkeys in Hc as [items Hi].
    unfold entry_ok, entry_of. simpl. rewrite Ei, (Hdef _ _ Hi). simpl. rewrite length_app in Hcont.
    split; [by eapply Hco | split; [lia | split; [lia | by eapply Hct]]]. }
  assert (Htab : read_table (header ++ content) = inr (foldl put_entry (∅, ∅) entries, content)).
  { unfold header, read_table, r_bind. simpl. rewrite <- app_assoc, WriteUvarint_read by (by rewrite sorted_keys_length).
    rewrite read_many_entries by done. done. }
  assert (Hents : entries.*1.*1 = sorted_keys domains).
  { unfold entries. rewrite <- !list_fmap_compose. rewrite <- (list_fmap_id (sorted_keys domains)) at 2. by apply list_fmap_ext. }
  destruct (put_entries_spec entries (∅, ∅)) as [Hin Hout]; [by rewrite Hents|]. rewrite Hents in Hout.
  set (m := foldl put_entry (∅, ∅) entries) in *.
  clearbody header. unfold NewReader, readMetadata. rewrite Htab. destruct m as [mi ml]. simpl in *. do 2 eexists. split; [reflexivity|].
  assert (Hlook : ∀ code, code ∈ sorted_keys domains → mi !! code = Some (default 0 (index !! code)) ∧
                          ml !! code = Some (Z.of_nat (length (items_of domains code)))).
  { intros code Hc. apply Hin. unfold entries. apply list_elem_of_fmap. by exists code. }
  assert (Hnone : ∀ code, domains !! code = None → mi !! code = None).
  { intros code Hc. destruct (Hout code) as [-> _]; [|apply lookup_empty]. rewrite Hkeys, Hc. by intros [? ?]. }
  split.
  - intros code. rewrite list_elem_of_fmap. split.
    + intros ([c i] & -> & Hc%elem_of_map_to_list). simpl. destruct (domains !! c) eqn:E; [done|]. by rewrite Hnone in Hc.
    + intros Hs. exists (code, default 0 (index !! code)). split; [done|]. apply elem_of_map_to_list. by apply Hlook, Hkeys.
  - intros code. unfold Geosite_Read. simpl. destruct (domains !! code) as [items|] eqn:Ed; [|by rewrite Hnone].
    assert (Hc : code ∈ sorted_keys domains) by (apply Hkeys; by rewrite Ed). destruct (Hlook code Hc) as [-> ->].
    destruct (Hidx code Hc) as (pre & post & Econt & ->). rewrite (Hdef _ _ Ed) in *. simpl.
    rewrite length_app. replace (length header + length content - length content)%nat with (length header) by lia.
    rewrite Z2Nat.inj_add, !Nat2Z.id by lia. rewrite <- drop_drop, drop_app_length, Econt, drop_app_length.
    rewrite (decodes_many item_ok); [done | intros _; apply read_item_write | done | by eapply Hit].
Qed.
End RoundTrip.

(** A database of two codes. *)
Definition sample_domains : gmap string (list Item) :=
  <["cn" := [mkItem RuleTypeDomainSuffix "cn"; mkItem RuleTypeDomain "qq.com"]]> {["ads" := [mkItem RuleTypeDomainKeyword "advert"]]}.

Lemma sample_writable : writable sample_domains.
Proof.
  unfold sample_domains. split.
  1-3: intros code items [[<- <-]|[_ [<- <-]%lookup_singleton_Some]]%lookup_insert_Some; first [repeat constructor; by vm_compute | by vm_compute].
  - by vm_compute.
  - by vm_compute.
Qed.

Lemma geosite_round_trip_witness :
  ∃ r codes, NewReader (Geosite_Write sample_domains) = inr (r, codes) ∧
    Geosite_Read r "ads" = inr [mkItem RuleTypeDomainKeyword "advert"] ∧
    Geosite_Read r "us" = inl (ErrMsg "code us not exists!").
Proof.
  destruct (geosite_round_trip sample_domains sample_writable) as (r & codes & H1 & _ & H2). exists r, codes.
  rewrite !H2. split; [exact H1|]. split; reflexivity.
Defined.

(** ** Malformed files *)

Lemma total_string : total_reader true readString.
Proof.
  apply (total_bind true false); [apply total_uvarint|]. intros n. apply (total_bind false false); [|intros; apply total_ret].
  apply total_many. intros _. apply total_byte.
Qed.

Lemma total_item : total_reader true read_item.
Proof.
  apply (total_bind true false); [apply total_byte|]. intros t.
  apply (total_bind false false); [apply total_weaken, total_string | intros; apply total_ret].
Qed.

Lemma total_entry : total_reader true read_entry.
Proof.
  apply (total_bind true false); [apply total_string|]. intros code.
  apply (total_bind false false); [apply total_weaken, total_uvarint|]. intros i.
  apply (total_bind false false); [apply total_weaken, total_uvarint|]. intros n.
  destruct (_ || _); [by apply total_fail | apply total_ret].
Qed.

Lemma total_table : total_reader true read_table.
Proof.
  apply (total_bind true false); [apply total_byte|]. intros v. destruct (negb _); [by apply total_fail|].
  apply (total_bind false false); [apply total_weaken, total_uvarint|]. intros n.
  apply (total_bind false false); [apply total_many; intros _; apply total_entry | intros; apply total_ret].
Qed.

(** Opening and reading a geosite file ends on every input: whatever the bytes,
    the counts and the offsets in them (up to 64 bits each), the loops stop within
    as many rounds as there are bytes left, with a result or with one of the
    errors of the code, and a table that is accepted names offsets and counts of
    31 bits only. *)
Theorem geosite_reader_total file :
  match NewReader file with
  | inl e => exhausted e = false
  | inr (r, codes) =>
      (∀ code e, Geosite_Read r code = inl e → exhausted e = false) ∧
      ∀ code, code ∈ codes → ∃ i n, rd_domainIndex r !! code = Some i ∧ rd_domainLength r !! code = Some n ∧ i ≤ MaxInt32 ∧ n ≤ MaxInt32
  end.
Proof.
  unfold NewReader, readMetadata. destruct (read_table file) as [e|[[mi ml] rest]] eqn:Et; [by eapply total_table|]. simpl. split.
  - intros code e. unfold Geosite_Read. simpl. destruct (mi !! code); [|intros; by simplify_eq].
    destruct (read_many _ _ _) as [e'|[l bs]] eqn:Er; [|done]. intros ?; simplify_eq. eapply (total_many (λ _, read_item)); [intros; apply total_item | exact Er].
  - assert (∀ l m, Forall (λ e : string * Z * Z, e.1.2 ≤ MaxInt32 ∧ e.2 ≤ MaxInt32) l →
      (∀ code i, m.1 !! code = Some i → ∃ n, m.2 !! code = Some n ∧ i ≤ MaxInt32 ∧ n ≤ MaxInt32) →
      ∀ code i, (foldl put_entry m l).1 !! code = Some i → ∃ n, (foldl put_entry m l).2 !! code = Some n ∧ i ≤ MaxInt32 ∧ n ≤ MaxInt32) as Hfold.
    { induction l as [|[[c i] n] l IH]; intros m Hl Hm; [done|]. apply Forall_cons in Hl as [[Hi Hn] Hl]. simpl. apply IH; [done|].
      intros code i'. unfold put_entry. simpl. destruct (decide (code = c)) as [->|Hne].
      - rewrite !lookup_insert_eq. intros ?; simplify_eq. eauto.
      - rewrite !lookup_insert_ne by done. apply Hm. }
    unfold read_table, r_bind in Et. destruct (ReadByte file) as [?|[v bs1]]; [done|]. destruct (negb _); [done|].
    destruct (ReadUvarint bs1) as [?|[n bs2]]; [done|]. destruct (read_many _ n bs2) as [?|[l bs3]] eqn:El; [done|].
    unfold r_ret in Et. injection Et as Ef _. intros code Hin. apply list_elem_of_fmap in Hin as ([c i] & -> & Hin%elem_of_map_to_list). simpl in *.
    destruct (Hfold l (∅, ∅)) with (code := c) (i := i) as (n' & Hn' & ? & ?).
    + eapply read_loop_post; [|exact El]. intros _ bs [[c' i'] n'] bs'. unfold read_entry, r_bind.
      destruct (readString bs) as [?|[s b1]]; [done|]. destruct (ReadUvarint b1) as [?|[x b2]]; [done|].
      destruct (ReadUvarint b2) as [?|[y b3]]; [done|]. destruct (Z.ltb_spec MaxInt32 x), (Z.ltb_spec MaxInt32 y); intros E; try done.
      unfold r_ret in E. simpl in E. simplify_eq. simpl. lia.
    + intros x y Hxy. simpl in Hxy. by rewrite lookup_empty in Hxy.
    + by rewrite Ef.
    + rewrite Ef in Hn'. eauto 6.
Qed.

(** Compiling the items of several codes in one go gives the same rule as
    compiling each code and merging the rules. *)
Theorem Compile_app_Merge codes : Compile (mjoin codes) = Merge (Compile <$> codes).
Proof.
  assert (∀ a b, Compile (a ++ b) = Merge [Compile a; Compile b]) as Happ.
  { intros a b. unfold Merge. simpl. rewrite !app_nil_r. induction a as [|[t v] a IH]; [simpl; by destruct (Compile b)|]. cbn [app Compile]. rewrite IH.
    simpl. repeat case_match; done. }
  induction codes as [|c codes IH]; [done|]. change (mjoin (c :: codes)) with (c ++ mjoin codes). rewrite Happ, IH. unfold Merge. simpl.
  by rewrite !app_nil_r.
Qed.
