(* ===== verification/SrsBinary.v ===== *)
(** * The binary rule-set format

    [src/common/srs]: rule-sets as bytes.  A file is a magic number, a version
    and a zlib stream of rules; a default rule is a sequence of tagged items
    ended by [ruleItemFinal]; a logical rule nests rules ([binary.go]).  IP sets
    are lists of address ranges ([ip_set.go]), prefixes an address and a length
    ([ip_cidr.go]).

    The writer takes options (domain lists, CIDR strings), the reader returns
    compiled forms (a matcher, an IP set) and, in recovery mode, the lists
    dumped from them.  The domain matchers, the IP set builder and zlib are not
    in the repository: the class [SrsLib] has what the format calls, and
    [SrsLaws] what it relies on.

    A rule nests one level per call of [readRule], whose budget of levels is the
    recursion argument; the loops of the reader are given one round per byte. *)

From Stdlib Require Import ZArith Lia.
From S2P Require Import Prelude NetIP Varbin.
From stdpp Require Import base gmap list strings numbers.

#[local] Set Warnings "-clear-no-such-hyp,-register-all".

Local Open Scope Z_scope.

(** ** Constants *)

Definition MagicBytes : bytes := [0x53; 0x52; 0x53].

Definition ruleItemQueryType : Z := 0.
Definition ruleItemNetwork : Z := 1.
Definition ruleItemDomain : Z := 2.
Definition ruleItemDomainKeyword : Z := 3.
Definition ruleItemDomainRegex : Z := 4.
Definition ruleItemSourceIPCIDR : Z := 5.
Definition ruleItemIPCIDR : Z := 6.
Definition ruleItemSourcePort : Z := 7.
Definition ruleItemSourcePortRange : Z := 8.
Definition ruleItemPort : Z := 9.
Definition ruleItemPortRange : Z := 10.
Definition ruleItemProcessName : Z := 11.
Definition ruleItemProcessPath : Z := 12.
Definition ruleItemPackageName : Z := 13.
Definition ruleItemWIFISSID : Z := 14.
Definition ruleItemWIFIBSSID : Z := 15.
Definition ruleItemAdGuardDomain : Z := 16.
Definition ruleItemProcessPathRegex : Z := 17.
Definition ruleItemNetworkType : Z := 18.
Definition ruleItemNetworkIsExpensive : Z := 19.
Definition ruleItemNetworkIsConstrained : Z := 20.
Definition ruleItemNetworkInterfaceAddress : Z := 21.
Definition ruleItemDefaultInterfaceAddress : Z := 22.
Definition ruleItemPackageNameRegex : Z := 23.
Definition ruleItemFinal : Z := 0xFF.

Definition RuleSetVersion1 : Z := 1.
Definition RuleSetVersion2 : Z := 2.
Definition RuleSetVersion3 : Z := 3.
Definition RuleSetVersion4 : Z := 4.
Definition RuleSetVersion5 : Z := 5.
Definition RuleSetVersionCurrent : Z := RuleSetVersion5.

(** A rule may nest this many times below the first level. *)
Definition maxLogicalRuleDepth : nat := 100.

(** ** Libraries *)

(** An [netipx.IPSet] is read and written through its range list. *)
Definition ipset : Type := list (Addr * Addr).

Class SrsLib : Type := {
  (* sing: domain matchers *)
  matcher : Type;
  NewMatcher : list string → list string → bool → matcher;
  matcher_Write : matcher → bytes;
  ReadMatcher : reader matcher;
  matcher_Dump : matcher → list string * list string;
  adguard : Type;
  NewAdGuardMatcher : list string → adguard;
  adguard_Write : adguard → bytes;
  ReadAdGuardMatcher : reader adguard;
  adguard_Dump : adguard → list string;
  (* sing: [M.AddrFromIP] *)
  AddrFromIP : bytes → Addr;
  (* netip and netipx: parsing, and the set of the added prefixes and addresses *)
  ParsePrefix : string → io_error + Prefix;
  ParseAddr : string → io_error + Addr;
  IPSetBuilder_IPSet : list (Prefix + Addr) → io_error + ipset;
  IPSet_Prefixes : ipset → list string;
  (* zlib *)
  zlib_compress : bytes → bytes;
  zlib_open : bytes → io_error + bytes }.

(** ** Rules (option/rule_set.go) *)

Section Format.
Context `{Varbin} `{SrsLib}.

Record DefaultHeadlessRule : Type := mkHeadless {
  h_QueryType : list Z;
  h_Network : list string;
  h_Domain : list string;
  h_DomainSuffix : list string;
  h_DomainKeyword : list string;
  h_DomainRegex : list string;
  h_SourceIPCIDR : list string;
  h_IPCIDR : list string;
  h_SourcePort : list Z;
  h_SourcePortRange : list string;
  h_Port : list Z;
  h_PortRange : list string;
  h_ProcessName : list string;
  h_ProcessPath : list string;
  h_ProcessPathRegex : list string;
  h_PackageName : list string;
  h_PackageNameRegex : list string;
  h_NetworkType : list Z;
  h_NetworkIsExpensive : bool;
  h_NetworkIsConstrained : bool;
  h_WIFISSID : list string;
  h_WIFIBSSID : list string;
  h_NetworkInterfaceAddress : option (list (Z * list Prefix));
  h_DefaultInterfaceAddress : list Prefix;
  h_Invert : bool;
  h_DomainMatcher : option matcher;
  h_SourceIPSet : option ipset;
  h_IPSet : option ipset;
  h_AdGuardDomain : list string;
  h_AdGuardDomainMatcher : option adguard }.

Definition empty_rule : DefaultHeadlessRule :=
  mkHeadless [] [] [] [] [] [] [] [] [] [] [] [] [] [] [] [] [] [] false false [] [] None [] false None None
    None [] None.

(** The assignments [rule.F = v]: [set_field] builds the record with one field
    replaced. *)
Definition eta_rule (r : DefaultHeadlessRule) : DefaultHeadlessRule :=
  mkHeadless (h_QueryType r) (h_Network r) (h_Domain r) (h_DomainSuffix r) (h_DomainKeyword r) (h_DomainRegex r)
    (h_SourceIPCIDR r) (h_IPCIDR r) (h_SourcePort r) (h_SourcePortRange r) (h_Port r) (h_PortRange r) (h_ProcessName r)
    (h_ProcessPath r) (h_ProcessPathRegex r) (h_PackageName r) (h_PackageNameRegex r) (h_NetworkType r)
    (h_NetworkIsExpensive r) (h_NetworkIsConstrained r) (h_WIFISSID r) (h_WIFIBSSID r) (h_NetworkInterfaceAddress r)
    (h_DefaultInterfaceAddress r) (h_Invert r) (h_DomainMatcher r) (h_SourceIPSet r) (h_IPSet r) (h_AdGuardDomain r)
    (h_AdGuardDomainMatcher r).
Ltac set_field f v r :=
  let t := eval unfold eta_rule in (eta_rule r) in
  match t with context C [f r] => let t' := context C [v] in exact t' end.
Definition set_QueryType (v : list Z) (r : DefaultHeadlessRule) : DefaultHeadlessRule := ltac:(set_field h_QueryType v r).
Definition set_Network (v : list string) (r : DefaultHeadlessRule) : DefaultHeadlessRule := ltac:(set_field h_Network v r).
Definition set_Domain (v : list string) (r : DefaultHeadlessRule) : DefaultHeadlessRule := ltac:(set_field h_Domain v r).
Definition set_DomainSuffix (v : list string) (r : DefaultHeadlessRule) : DefaultHeadlessRule := ltac:(set_field h_DomainSuffix v r).
Definition set_DomainKeyword (v : list string) (r : DefaultHeadlessRule) : DefaultHeadlessRule := ltac:(set_field h_DomainKeyword v r).
Definition set_DomainRegex (v : list string) (r : DefaultHeadlessRule) : DefaultHeadlessRule := ltac:(set_field h_DomainRegex v r).
Definition set_SourceIPCIDR (v : list string) (r : DefaultHeadlessRule) : DefaultHeadlessRule := ltac:(set_field h_SourceIPCIDR v r).
Definition set_IPCIDR (v : list string) (r : DefaultHeadlessRule) : DefaultHeadlessRule := ltac:(set_field h_IPCIDR v r).
Definition set_SourcePort (v : list Z) (r : DefaultHeadlessRule) : DefaultHeadlessRule := ltac:(set_field h_SourcePort v r).
Definition set_SourcePortRange (v : list string) (r : DefaultHeadlessRule) : DefaultHeadlessRule := ltac:(set_field h_SourcePortRange v r).
Definition set_Port (v : list Z) (r : DefaultHeadlessRule) : DefaultHeadlessRule := ltac:(set_field h_Port v r).
Definition set_PortRange (v : list string) (r : DefaultHeadlessRule) : DefaultHeadlessRule := ltac:(set_field h_PortRange v r).
Definition set_ProcessName (v : list string) (r : DefaultHeadlessRule) : DefaultHeadlessRule := ltac:(set_field h_ProcessName v r).
Definition set_ProcessPath (v : list string) (r : DefaultHeadlessRule) : DefaultHeadlessRule := ltac:(set_field h_ProcessPath v r).
Definition set_ProcessPathRegex (v : list string) (r : DefaultHeadlessRule) : DefaultHeadlessRule := ltac:(set_field h_ProcessPathRegex v r).
Definition set_PackageName (v : list string) (r : DefaultHeadlessRule) : DefaultHeadlessRule := ltac:(set_field h_PackageName v r).
Definition set_PackageNameRegex (v : list string) (r : DefaultHeadlessRule) : DefaultHeadlessRule := ltac:(set_field h_PackageNameRegex v r).
Definition set_NetworkType (v : list Z) (r : DefaultHeadlessRule) : DefaultHeadlessRule := ltac:(set_field h_NetworkType v r).
Definition set_NetworkIsExpensive (v : bool) (r : DefaultHeadlessRule) : DefaultHeadlessRule := ltac:(set_field h_NetworkIsExpensive v r).
Definition set_NetworkIsConstrained (v : bool) (r : DefaultHeadlessRule) : DefaultHeadlessRule := ltac:(set_field h_NetworkIsConstrained v r).
Definition set_WIFISSID (v : list string) (r : DefaultHeadlessRule) : DefaultHeadlessRule := ltac:(set_field h_WIFISSID v r).
Definition set_WIFIBSSID (v : list string) (r : DefaultHeadlessRule) : DefaultHeadlessRule := ltac:(set_field h_WIFIBSSID v r).
Definition set_NetworkInterfaceAddress (v : option (list (Z * list Prefix))) (r : DefaultHeadlessRule) : DefaultHeadlessRule := ltac:(set_field h_NetworkInterfaceAddress v r).
Definition set_DefaultInterfaceAddress (v : list Prefix) (r : DefaultHeadlessRule) : DefaultHeadlessRule := ltac:(set_field h_DefaultInterfaceAddress v r).
Definition set_Invert (v : bool) (r : DefaultHeadlessRule) : DefaultHeadlessRule := ltac:(set_field h_Invert v r).
Definition set_DomainMatcher (v : option matcher) (r : DefaultHeadlessRule) : DefaultHeadlessRule := ltac:(set_field h_DomainMatcher v r).
Definition set_SourceIPSet (v : option ipset) (r : DefaultHeadlessRule) : DefaultHeadlessRule := ltac:(set_field h_SourceIPSet v r).
Definition set_IPSet (v : option ipset) (r : DefaultHeadlessRule) : DefaultHeadlessRule := ltac:(set_field h_IPSet v r).
Definition set_AdGuardDomain (v : list string) (r : DefaultHeadlessRule) : DefaultHeadlessRule := ltac:(set_field h_AdGuardDomain v r).
Definition set_AdGuardDomainMatcher (v : option adguard) (r : DefaultHeadlessRule) : DefaultHeadlessRule := ltac:(set_field h_AdGuardDomainMatcher v r).

Inductive LogicalMode : Type := LogicalTypeAnd | LogicalTypeOr.

(** A rule of another type, or a logical rule of another mode, makes the writer
    panic; there are none here. *)
Inductive HeadlessRule : Type :=
| HeadlessDefault (rule : DefaultHeadlessRule)
| HeadlessLogical (mode : LogicalMode) (rules : list HeadlessRule) (invert : bool).

(** ** Addresses, ranges and prefixes *)

(** [Addr.AsSlice] *)
Definition AsSlice (a : Addr) : bytes :=
  match a with AddrZero => [] | AddrV4 v => be_bytes 4 v | AddrV6 v _ => be_bytes 16 v end.

Definition write_addr (a : Addr) : bytes := WriteUvarint (Z.of_nat (length (AsSlice a))) ++ AsSlice a.

Definition readIPSetAddr : reader Addr :=
  let! addrLen := ReadUvarint in
  if negb (addrLen =? 4) && negb (addrLen =? 16) then r_fail ErrInvalid
  else let! addrBytes := ReadFull (Z.to_nat addrLen) in r_ret (AddrFromIP addrBytes).

Definition read_range : reader (Addr * Addr) :=
  let! from := readIPSetAddr in
  let! to := readIPSetAddr in
  r_ret (from, to).
Definition write_range (r : Addr * Addr) : bytes := write_addr r.1 ++ write_addr r.2.

Definition readIPSet : reader ipset :=
  let! version := ReadByte in
  if negb (version =? 1) then r_fail ErrInvalid
  else let! length := ReadUint64 in read_many (λ _, read_range) length.
Definition writeIPSet (set : ipset) : bytes :=
  [1] ++ be_bytes 8 (Z.of_nat (length set)) ++ mjoin (write_range <$> set).

Definition readPrefix : reader Prefix :=
  let! addrLen := ReadUvarint in
  if negb (addrLen =? 4) && negb (addrLen =? 16) then r_fail ErrInvalid
  else
    let! addrBytes := ReadFull (Z.to_nat addrLen) in
    let! prefixBits := ReadByte in
    r_ret (prefix_from (AddrFromIP addrBytes) prefixBits).
Definition writePrefix (p : Prefix) : bytes := write_addr (prefix_addr p) ++ [u8 (prefix_bits p)].

(** A counted list of prefixes. *)
Definition read_prefixes : reader (list Prefix) := let! prefixCount := ReadUvarint in read_many (λ _, readPrefix) prefixCount.
Definition write_prefixes (l : list Prefix) : bytes := WriteUvarint (Z.of_nat (length l)) ++ mjoin (writePrefix <$> l).

(** ** Items *)

Definition read_string : reader string := let! value := ReadSlice8 in r_ret (bytes_string value).
Definition write_string (s : string) : bytes := WriteUvarint (Z.of_nat (String.length s)) ++ string_bytes s.

Definition readRuleItemString : reader (list string) := let! length := ReadUvarint in read_many (λ _, read_string) length.
Definition writeRuleItemString (itemType : Z) (value : list string) : bytes :=
  [itemType] ++ WriteUvarint (Z.of_nat (length value)) ++ mjoin (write_string <$> value).
Definition writeRuleItemUint8 (itemType : Z) (value : list Z) : bytes := [itemType] ++ WriteUvarint (Z.of_nat (length value)) ++ value.
Definition writeRuleItemUint16 (itemType : Z) (value : list Z) : bytes := [itemType] ++ WriteUvarint (Z.of_nat (length value)) ++ be16 value.

(** The parsing loop of [writeRuleItemCIDR]. *)
Fixpoint parse_cidrs (i : Z) (value : list string) : io_error + list (Prefix + Addr) :=
  match value with
  | [] => inr []
  | s :: value =>
      match ParsePrefix s with
      | inr prefix => match parse_cidrs (i + 1) value with inl e => inl e | inr l => inr (inl prefix :: l) end
      | inl err =>
          match ParseAddr s with
          | inr addr => match parse_cidrs (i + 1) value with inl e => inl e | inr l => inr (inr addr :: l) end
          | inl _ => inl (ErrCause "parse [" i err)
          end
      end
  end.
Definition build_ipset (value : list string) : io_error + ipset :=
  match parse_cidrs 0 value with inl e => inl e | inr l => IPSetBuilder_IPSet l end.
Definition writeRuleItemCIDR (itemType : Z) (value : list string) : io_error + bytes :=
  match build_ipset value with inl e => inl e | inr set => inr ([itemType] ++ writeIPSet set) end.

(** [TypedMap.Put]: replaces the value of a key in place, or appends. *)
Fixpoint tm_put (k : Z) (v : list Prefix) (m : list (Z * list Prefix)) : list (Z * list Prefix) :=
  match m with
  | [] => [(k, v)]
  | (k', v') :: m => if k =? k' then (k, v) :: m else (k', v') :: tm_put k v m
  end.

Definition read_interface : reader (Z * list Prefix) :=
  let! key := ReadByte in
  let! value := read_prefixes in
  r_ret (key, value).
Definition write_interface (e : Z * list Prefix) : bytes := [u8 e.1] ++ write_prefixes e.2.

(** ** Default rules *)

(** The switch of [readDefaultRule] on an item that is not the final one. *)
Definition read_item (recover : bool) (itemType lastItemType : Z) (r : DefaultHeadlessRule) : reader DefaultHeadlessRule :=
  if itemType =? ruleItemQueryType then let! v := ReadSlice16 in r_ret (set_QueryType v r)
  else if itemType =? ruleItemNetwork then let! v := readRuleItemString in r_ret (set_Network v r)
  else if itemType =? ruleItemDomain then
    let! m := ReadMatcher in
    let r := set_DomainMatcher (Some m) r in
    r_ret (if recover then set_DomainSuffix (matcher_Dump m).2 (set_Domain (matcher_Dump m).1 r) else r)
  else if itemType =? ruleItemDomainKeyword then let! v := readRuleItemString in r_ret (set_DomainKeyword v r)
  else if itemType =? ruleItemDomainRegex then let! v := readRuleItemString in r_ret (set_DomainRegex v r)
  else if itemType =? ruleItemSourceIPCIDR then
    let! set := readIPSet in
    let r := set_SourceIPSet (Some set) r in
    r_ret (if recover then set_SourceIPCIDR (IPSet_Prefixes set) r else r)
  else if itemType =? ruleItemIPCIDR then
    let! set := readIPSet in
    let r := set_IPSet (Some set) r in
    r_ret (if recover then set_IPCIDR (IPSet_Prefixes set) r else r)
  else if itemType =? ruleItemSourcePort then let! v := ReadSlice16 in r_ret (set_SourcePort v r)
  else if itemType =? ruleItemSourcePortRange then let! v := readRuleItemString in r_ret (set_SourcePortRange v r)
  else if itemType =? ruleItemPort then let! v := ReadSlice16 in r_ret (set_Port v r)
  else if itemType =? ruleItemPortRange then let! v := readRuleItemString in r_ret (set_PortRange v r)
  else if itemType =? ruleItemProcessName then let! v := readRuleItemString in r_ret (set_ProcessName v r)
  else if itemType =? ruleItemProcessPath then let! v := readRuleItemString in r_ret (set_ProcessPath v r)
  else if itemType =? ruleItemProcessPathRegex then let! v := readRuleItemString in r_ret (set_ProcessPathRegex v r)
  else if itemType =? ruleItemPackageName then let! v := readRuleItemString in r_ret (set_PackageName v r)
  else if itemType =? ruleItemPackageNameRegex then let! v := readRuleItemString in r_ret (set_PackageNameRegex v r)
  else if itemType =? ruleItemWIFISSID then let! v := readRuleItemString in r_ret (set_WIFISSID v r)
  else if itemType =? ruleItemWIFIBSSID then let! v := readRuleItemString in r_ret (set_WIFIBSSID v r)
  else if itemType =? ruleItemAdGuardDomain then
    let! m := ReadAdGuardMatcher in
    let r := set_AdGuardDomainMatcher (Some m) r in
    r_ret (if recover then set_AdGuardDomain (adguard_Dump m) r else r)
  else if itemType =? ruleItemNetworkType then let! v := ReadSlice8 in r_ret (set_NetworkType v r)
  else if itemType =? ruleItemNetworkIsExpensive then r_ret (set_NetworkIsExpensive true r)
  else if itemType =? ruleItemNetworkIsConstrained then r_ret (set_NetworkIsConstrained true r)
  else if itemType =? ruleItemNetworkInterfaceAddress then
    let! size := ReadUvarint in
    let! entries := read_many (λ _, read_interface) size in
    r_ret (set_NetworkInterfaceAddress (Some (foldl (λ m e, tm_put e.1 e.2 m) [] entries)) r)
  else if itemType =? ruleItemDefaultInterfaceAddress then let! v := read_prefixes in r_ret (set_DefaultInterfaceAddress v r)
  else r_fail (ErrNum "unknown rule item type: " itemType lastItemType).

(** The loop: every round reads at least the item type. *)
Fixpoint read_items (fuel : nat) (recover : bool) (lastItemType : Z) (r : DefaultHeadlessRule) : reader DefaultHeadlessRule :=
  match fuel with
  | O => r_fail OutOfFuel
  | S fuel =>
      let! itemType := ReadByte in
      if itemType =? ruleItemFinal then let! invert := ReadBool in r_ret (set_Invert invert r)
      else
        let! r := read_item recover itemType lastItemType r in
        read_items fuel recover itemType r
  end.
Definition readDefaultRule (recover : bool) : reader DefaultHeadlessRule := λ bs,
  read_items (S (length bs)) recover 0 empty_rule bs.

(** A sequence of guarded writes, up to the first that fails. *)
Fixpoint write_seq (l : list (bool * (io_error + bytes))) : io_error + bytes :=
  match l with
  | [] => inr []
  | (guard, w) :: l =>
      if guard then
        match w with
        | inl e => inl e
        | inr b => match write_seq l with inl e => inl e | inr bs => inr (b ++ bs) end
        end
      else write_seq l
  end.

Definition nonempty {A} (l : list A) : bool := match l with [] => false | _ => true end.

(** An item of format [version] or later. *)
Definition since (version generateVersion : Z) (msg : string) (w : bytes) : io_error + bytes :=
  if generateVersion <? version then inl (ErrMsg msg) else inr w.

(** [E.Cause] of the two CIDR items. *)
Definition cause (msg : string) (w : io_error + bytes) : io_error + bytes :=
  match w with inl e => inl (ErrCause msg 0 e) | inr b => inr b end.

(** The writes of [writeDefaultRule], each with its guard. *)
Definition default_writes (r : DefaultHeadlessRule) (v : Z) : list (bool * (io_error + bytes)) :=
    [(true, inr [0]);
     (nonempty (h_QueryType r), inr (writeRuleItemUint16 ruleItemQueryType (h_QueryType r)));
     (nonempty (h_Network r), inr (writeRuleItemString ruleItemNetwork (h_Network r)));
     (nonempty (h_Domain r) || nonempty (h_DomainSuffix r),
      inr ([ruleItemDomain] ++ matcher_Write (NewMatcher (h_Domain r) (h_DomainSuffix r) (v =? RuleSetVersion1))));
     (nonempty (h_DomainKeyword r), inr (writeRuleItemString ruleItemDomainKeyword (h_DomainKeyword r)));
     (nonempty (h_DomainRegex r), inr (writeRuleItemString ruleItemDomainRegex (h_DomainRegex r)));
     (nonempty (h_SourceIPCIDR r), cause "source_ip_cidr" (writeRuleItemCIDR ruleItemSourceIPCIDR (h_SourceIPCIDR r)));
     (nonempty (h_IPCIDR r), cause "ipcidr" (writeRuleItemCIDR ruleItemIPCIDR (h_IPCIDR r)));
     (nonempty (h_SourcePort r), inr (writeRuleItemUint16 ruleItemSourcePort (h_SourcePort r)));
     (nonempty (h_SourcePortRange r), inr (writeRuleItemString ruleItemSourcePortRange (h_SourcePortRange r)));
     (nonempty (h_Port r), inr (writeRuleItemUint16 ruleItemPort (h_Port r)));
     (nonempty (h_PortRange r), inr (writeRuleItemString ruleItemPortRange (h_PortRange r)));
     (nonempty (h_ProcessName r), inr (writeRuleItemString ruleItemProcessName (h_ProcessName r)));
     (nonempty (h_ProcessPath r), inr (writeRuleItemString ruleItemProcessPath (h_ProcessPath r)));
     (nonempty (h_ProcessPathRegex r), inr (writeRuleItemString ruleItemProcessPathRegex (h_ProcessPathRegex r)));
     (nonempty (h_PackageName r), inr (writeRuleItemString ruleItemPackageName (h_PackageName r)));
     (nonempty (h_PackageNameRegex r),
      since RuleSetVersion5 v "`package_name_regex` rule item is only supported in version 5 or later"
        (writeRuleItemString ruleItemPackageNameRegex (h_PackageNameRegex r)));
     (nonempty (h_NetworkType r),
      since RuleSetVersion3 v "`network_type` rule item is only supported in version 3 or later"
        (writeRuleItemUint8 ruleItemNetworkType (h_NetworkType r)));
     (h_NetworkIsExpensive r,
      since RuleSetVersion3 v "`network_is_expensive` rule item is only supported in version 3 or later" [ruleItemNetworkIsExpensive]);
     (h_NetworkIsConstrained r,
      since RuleSetVersion3 v "`network_is_constrained` rule item is only supported in version 3 or later" [ruleItemNetworkIsConstrained]);
     (nonempty (default [] (h_NetworkInterfaceAddress r)),
      since RuleSetVersion4 v "`network_interface_address` rule item is only supported in version 4 or later"
        ([ruleItemNetworkInterfaceAddress] ++ WriteUvarint (Z.of_nat (length (default [] (h_NetworkInterfaceAddress r))))
         ++ mjoin (write_interface <$> default [] (h_NetworkInterfaceAddress r))));
     (nonempty (h_DefaultInterfaceAddress r),
      since RuleSetVersion4 v "`default_interface_address` rule item is only supported in version 4 or later"
        ([ruleItemDefaultInterfaceAddress] ++ write_prefixes (h_DefaultInterfaceAddress r)));
     (nonempty (h_WIFISSID r), inr (writeRuleItemString ruleItemWIFISSID (h_WIFISSID r)));
     (nonempty (h_WIFIBSSID r), inr (writeRuleItemString ruleItemWIFIBSSID (h_WIFIBSSID r)));
     (nonempty (h_AdGuardDomain r),
      since RuleSetVersion2 v "AdGuard rule items is only supported in version 2 or later"
        ([ruleItemAdGuardDomain] ++ adguard_Write (NewAdGuardMatcher (h_AdGuardDomain r))));
     (true, inr [ruleItemFinal; if h_Invert r then 1 else 0])].
Definition writeDefaultRule (r : DefaultHeadlessRule) (v : Z) : io_error + bytes := write_seq (default_writes r v).

(** ** Rules and rule-sets *)

(** [readRule] with a budget of levels: [readRule(reader, recover, depth)] has
    [maxLogicalRuleDepth + 1 - depth] of them. *)
Fixpoint readRule (levels : nat) (recover : bool) : reader HeadlessRule :=
  match levels with
  | O => r_fail (ErrMsg "logical rule nested too deep")
  | S levels =>
      let! ruleType := ReadByte in
      if ruleType =? 0 then let! r := readDefaultRule recover in r_ret (HeadlessDefault r)
      else if ruleType =? 1 then
        (* readLogicalRule *)
        let! mode := ReadByte in
        if (mode =? 0) || (mode =? 1) then
          let! length := ReadUvarint in
          let! rules := read_many (λ i, with_cause "read logical rule [" i (readRule levels recover)) length in
          let! invert := ReadBool in
          r_ret (HeadlessLogical (if mode =? 0 then LogicalTypeAnd else LogicalTypeOr) rules invert)
        else r_fail (ErrNum "unknown logical mode: " mode 0)
      else r_fail (ErrNum "unknown rule type: " ruleType 0)
  end.

Fixpoint writeRule (rule : HeadlessRule) (v : Z) : io_error + bytes :=
  match rule with
  | HeadlessDefault r => writeDefaultRule r v
  | HeadlessLogical mode rules invert =>
      (* writeLogicalRule *)
      write_seq
        [(true, inr [1]);
         (true, inr [match mode with LogicalTypeAnd => 0 | LogicalTypeOr => 1 end]);
         (true, inr (WriteUvarint (Z.of_nat (length rules))));
         (true, write_seq ((λ rule, (true, writeRule rule v)) <$> rules));
         (true, inr [if invert then 1 else 0])]
  end.

Definition Srs_Read (recover : bool) (file : bytes) : io_error + (Z * list HeadlessRule) :=
  match ReadFull 3 file with
  | inl e => inl e
  | inr (magicBytes, file) =>
      if negb (bool_decide (magicBytes = MagicBytes)) then inl (ErrMsg "invalid sing-box rule-set file")
      else
        match ReadByte file with
        | inl e => inl e
        | inr (version, file) =>
            if RuleSetVersionCurrent <? version then inl (ErrNum "unsupported version: " version 0)
            else
              match zlib_open file with
              | inl e => inl e
              | inr bs =>
                  match (let! length := ReadUvarint in
                         read_many (λ i, with_cause "read rule[" i (readRule (S maxLogicalRuleDepth) recover)) length) bs with
                  | inl e => inl e
                  | inr (rules, _) => inr (version, rules)
                  end
              end
        end
  end.

Definition Srs_Write (rules : list HeadlessRule) (generateVersion : Z) : io_error + bytes :=
  match write_seq ((true, inr (WriteUvarint (Z.of_nat (length rules)))) :: ((λ rule, (true, writeRule rule generateVersion)) <$> rules)) with
  | inl e => inl e
  | inr bs => inr (MagicBytes ++ [u8 generateVersion] ++ zlib_compress bs)
  end.
End Format.

(** ** What the format relies on *)

Definition addr_plain (a : Addr) : Prop := addr_wf a ∧ a ≠ AddrZero ∧ has_zone a = false.

Class SrsLaws `{VarbinLaws} `{SrsLib} : Prop := {
  ReadMatcher_read m rest : ReadMatcher (matcher_Write m ++ rest) = inr (m, rest);
  ReadMatcher_total : total_reader false ReadMatcher;
  ReadAdGuardMatcher_read m rest : ReadAdGuardMatcher (adguard_Write m ++ rest) = inr (m, rest);
  ReadAdGuardMatcher_total : total_reader false ReadAdGuardMatcher;
  AddrFromIP_AsSlice a : addr_plain a → AddrFromIP (AsSlice a) = a;
  IPSet_ranges l s : IPSetBuilder_IPSet l = inr s → Forall (λ r, addr_plain r.1 ∧ addr_plain r.2) s ∧ fits 64 (Z.of_nat (length s));
  zlib_open_compress b : zlib_open (zlib_compress b) = inr b;
  zlib_open_error bs e : zlib_open bs = inl e → exhausted e = false }.

Section Total.
Context `{SrsLaws}.

(** *** Every reader stops *)

Lemma total_seq {A B} (m : reader A) (f : A → reader B) :
  total_reader false m → (∀ a, total_reader false (f a)) → total_reader false (r_bind m f).
Proof. apply (total_bind false false). Qed.

Create HintDb total.
#[local] Hint Resolve total_ret total_seq total_weaken total_byte total_uvarint total_many : total.

Lemma addr_len_pos n : negb (n =? 4) && negb (n =? 16) = false → (0 < Z.to_nat n)%nat.
Proof. intros [?%negb_false_iff|?%negb_false_iff]%andb_false_iff; lia. Qed.

Lemma total_addr : total_reader true readIPSetAddr.
Proof.
  apply (total_bind true false); [apply total_uvarint|]. intros n. destruct (_ && _) eqn:E; [by apply total_fail|].
  apply total_seq; [|intros; apply total_ret]. apply total_weaken, total_full. by apply addr_len_pos.
Qed.

Lemma total_range : total_reader true read_range.
Proof. apply (total_bind true false); [apply total_addr|]. intros. apply total_seq; [apply total_weaken, total_addr | auto with total]. Qed.

Lemma total_ipset : total_reader true readIPSet.
Proof.
  apply (total_bind true false); [apply total_byte|]. intros v. destruct (negb _); [by apply total_fail|].
  apply total_seq; [|intros; apply total_many; intros; apply total_range].
  apply total_seq; [apply total_weaken, total_full; lia | auto with total].
Qed.

Lemma total_prefix : total_reader true readPrefix.
Proof.
  apply (total_bind true false); [apply total_uvarint|]. intros n. destruct (_ && _) eqn:E; [by apply total_fail|].
  apply total_seq; [|auto with total]. apply total_weaken, total_full. by apply addr_len_pos.
Qed.

Lemma total_prefixes : total_reader true read_prefixes.
Proof. apply (total_bind true false); [apply total_uvarint|]. intros. apply total_many. intros. apply total_prefix. Qed.

Lemma total_read_string : total_reader true read_string.
Proof. apply (total_bind true false); [apply ReadSlice8_total | intros; apply total_ret]. Qed.

Lemma total_strings : total_reader true readRuleItemString.
Proof. apply (total_bind true false); [apply total_uvarint|]. intros. apply total_many. intros. apply total_read_string. Qed.

Lemma total_interface : total_reader true read_interface.
Proof. apply (total_bind true false); [apply total_byte|]. intros. apply total_seq; [apply total_weaken, total_prefixes | auto with total]. Qed.

#[local] Hint Resolve total_ipset total_prefixes total_strings total_interface : total.

Ltac total_go :=
  repeat first [ apply total_ret | apply ReadMatcher_total | apply ReadAdGuardMatcher_total
               | apply total_weaken; first [apply ReadSlice8_total | apply ReadSlice16_total | solve [auto with total]]
               | apply total_many; intros; solve [auto with total] | apply total_seq; [|intros] ].

Lemma total_read_item recover t last r : total_reader false (read_item recover t last r).
Proof.
  unfold read_item.
  repeat match goal with |- total_reader _ (if t =? ?c then _ else _) => destruct (t =? c); [solve [total_go]|] end.
  by apply total_fail.
Qed.

Lemma total_items fuel recover last r bs :
  (length bs < fuel)%nat →
  match read_items fuel recover last r bs with inl e => exhausted e = false | inr (_, bs') => (length bs' < length bs)%nat end.
Proof.
  revert last r bs. induction fuel as [|fuel IH]; intros last r bs Hf; [lia|]. cbn [read_items]. unfold r_bind at 1.
  destruct (ReadByte bs) as [e|[t bs1]] eqn:Et; [by eapply total_byte|]. apply (tr_shrink _ _ total_byte) in Et. simpl in Et.
  destruct (t =? ruleItemFinal).
  - unfold ReadBool, r_bind. destruct (ReadByte bs1) as [e|[b bs2]] eqn:Eb; [by eapply total_byte|].
    apply (tr_shrink _ _ total_byte) in Eb. simpl in *. lia.
  - unfold r_bind. destruct (read_item recover t last r bs1) as [e|[r1 bs2]] eqn:Ei; [by eapply total_read_item|].
    apply (tr_shrink _ _ (total_read_item _ _ _ _)) in Ei. specialize (IH t r1 bs2 ltac:(lia)).
    destruct (read_items fuel recover t r1 bs2) as [e|[r2 bs3]]; [done | lia].
Qed.

Lemma total_default recover : total_reader true (readDefaultRule recover).
Proof.
  split; unfold readDefaultRule; intros bs; pose proof (total_items (S (length bs)) recover 0 empty_rule bs ltac:(lia)) as Ht;
    destruct (read_items _ _ _ _ _) as [e|[r bs1]]; intros; simplify_eq; [done | lia].
Qed.

Lemma total_rule levels recover : total_reader true (readRule levels recover).
Proof.
  induction levels as [|levels IH]; cbn [readRule]; [by apply total_fail|].
  apply (total_bind true false); [apply total_byte|]. intros t. destruct (t =? 0).
  { apply total_seq; [apply total_weaken, total_default | auto with total]. }
  destruct (t =? 1); [|by apply total_fail]. apply total_seq; [auto with total|]. intros mode. destruct (_ || _); [|by apply total_fail].
  apply total_seq; [auto with total|]. intros n. apply total_seq; [apply total_many; intros; by apply total_cause|]. intros rules.
  apply total_seq; [|auto with total]. unfold ReadBool. auto with total.
Qed.

(** Reading a rule-set ends on every input.  Whatever the bytes, the 64-bit
    counts in them and the nesting of the rules, no loop runs for more rounds
    than there are bytes: the reader returns the rules or one of the errors of
    the code (end of file, overflow of a uvarint, invalid address length,
    unknown type, nesting too deep, ...). *)
Theorem srs_reader_total recover file e : Srs_Read recover file = inl e → exhausted e = false.
Proof.
  unfold Srs_Read. destruct (ReadFull 3 file) as [e1|[magic f1]] eqn:E1; [intros; simplify_eq; by eapply total_full; [|exact E1]; lia|].
  destruct (negb _); [intros; by simplify_eq|]. destruct (ReadByte f1) as [e2|[v f2]] eqn:E2; [intros; simplify_eq; by eapply total_byte|].
  destruct (_ <? v); [intros; by simplify_eq|]. destruct (zlib_open f2) as [e3|bs] eqn:E3; [intros; simplify_eq; by eapply zlib_open_error|].
  destruct (r_bind _ _ bs) as [e4|[rules rest]] eqn:E4; [|done]. intros; simplify_eq.
  eapply (total_bind true false); [apply total_uvarint | | exact E4]. intros. apply total_many. intros. apply total_cause, total_rule.
Qed.
End Total.

(** ** Reading back what was written *)

(** What the format can hold. *)
Definition strings_ok (l : list string) : Prop :=
  fits 64 (Z.of_nat (length l)) ∧ Forall (λ s, fits 64 (Z.of_nat (String.length s))) l.
Definition words_ok (w : Z) (l : list Z) : Prop := fits 64 (Z.of_nat (length l)) ∧ Forall (fits w) l.
Definition prefix_plain (p : Prefix) : Prop := addr_plain (prefix_addr p) ∧ 0 ≤ prefix_bits p ≤ bit_len (prefix_addr p).
Definition prefixes_ok (l : list Prefix) : Prop := fits 64 (Z.of_nat (length l)) ∧ Forall prefix_plain l.
Definition interfaces_ok (m : list (Z * list Prefix)) : Prop :=
  fits 64 (Z.of_nat (length m)) ∧ NoDup m.*1 ∧ Forall (λ e, fits 8 e.1 ∧ prefixes_ok e.2) m.

Section Spec.
Context `{Varbin} `{SrsLib}.

Record encodable (r : DefaultHeadlessRule) : Prop := {
  en_strings : Forall strings_ok
    [h_Network r; h_DomainKeyword r; h_DomainRegex r; h_SourcePortRange r; h_PortRange r; h_ProcessName r; h_ProcessPath r;
     h_ProcessPathRegex r; h_PackageName r; h_PackageNameRegex r; h_WIFISSID r; h_WIFIBSSID r];
  en_words : Forall (words_ok 16) [h_QueryType r; h_SourcePort r; h_Port r];
  en_types : words_ok 8 (h_NetworkType r);
  en_interfaces : interfaces_ok (default [] (h_NetworkInterfaceAddress r));
  en_default : prefixes_ok (h_DefaultInterfaceAddress r) }.

(** The compiled forms of the options. *)
Definition compiled_domains (v : Z) (r : DefaultHeadlessRule) : option matcher :=
  if nonempty (h_Domain r) || nonempty (h_DomainSuffix r) then Some (NewMatcher (h_Domain r) (h_DomainSuffix r) (v =? RuleSetVersion1)) else None.
Definition compiled_ipset (l : list string) : option ipset :=
  if nonempty l then match build_ipset l with inr s => Some s | inl _ => None end else None.
Definition compiled_adguard (r : DefaultHeadlessRule) : option adguard :=
  if nonempty (h_AdGuardDomain r) then Some (NewAdGuardMatcher (h_AdGuardDomain r)) else None.

(** A map without entries is not written, and reads back as no map. *)
Definition present {A} (m : list A) : option (list A) := match m with [] => None | m => Some m end.

(** In recovery mode, the options of a compiled form. *)
Definition dump (recover : bool) {A} (f : A → list string) (x : option A) : list string := if recover then from_option f [] x else [].

(** What a rule looks like once written and read: plain items as they were, the
    others compiled, their options only in recovery mode. *)
Definition loaded (recover : bool) (v : Z) (r : DefaultHeadlessRule) : DefaultHeadlessRule :=
  {| h_QueryType := h_QueryType r;
     h_Network := h_Network r;
     h_Domain := dump recover (λ m, (matcher_Dump m).1) (compiled_domains v r);
     h_DomainSuffix := dump recover (λ m, (matcher_Dump m).2) (compiled_domains v r);
     h_DomainKeyword := h_DomainKeyword r;
     h_DomainRegex := h_DomainRegex r;
     h_SourceIPCIDR := dump recover IPSet_Prefixes (compiled_ipset (h_SourceIPCIDR r));
     h_IPCIDR := dump recover IPSet_Prefixes (compiled_ipset (h_IPCIDR r));
     h_SourcePort := h_SourcePort r;
     h_SourcePortRange := h_SourcePortRange r;
     h_Port := h_Port r;
     h_PortRange := h_PortRange r;
     h_ProcessName := h_ProcessName r;
     h_ProcessPath := h_ProcessPath r;
     h_ProcessPathRegex := h_ProcessPathRegex r;
     h_PackageName := h_PackageName r;
     h_PackageNameRegex := h_PackageNameRegex r;
     h_NetworkType := h_NetworkType r;
     h_NetworkIsExpensive := h_NetworkIsExpensive r;
     h_NetworkIsConstrained := h_NetworkIsConstrained r;
     h_WIFISSID := h_WIFISSID r;
     h_WIFIBSSID := h_WIFIBSSID r;
     h_NetworkInterfaceAddress := present (default [] (h_NetworkInterfaceAddress r));
     h_DefaultInterfaceAddress := h_DefaultInterfaceAddress r;
     h_Invert := h_Invert r;
     h_DomainMatcher := compiled_domains v r;
     h_SourceIPSet := compiled_ipset (h_SourceIPCIDR r);
     h_IPSet := compiled_ipset (h_IPCIDR r);
     h_AdGuardDomain := dump recover adguard_Dump (compiled_adguard r);
     h_AdGuardDomainMatcher := compiled_adguard r |}.

Fixpoint loaded_rule (recover : bool) (v : Z) (rule : HeadlessRule) : HeadlessRule :=
  match rule with
  | HeadlessDefault r => HeadlessDefault (loaded recover v r)
  | HeadlessLogical mode rules invert => HeadlessLogical mode (loaded_rule recover v <$> rules) invert
  end.

(** The rule nests at most [levels] levels and every item can be encoded. *)
Fixpoint rule_fits (levels : nat) (rule : HeadlessRule) : Prop :=
  match levels with
  | O => False
  | S levels =>
      match rule with
      | HeadlessDefault r => encodable r
      | HeadlessLogical _ rules _ => fits 64 (Z.of_nat (length rules)) ∧ Forall (rule_fits levels) rules
      end
  end.
End Spec.

(** The names of the writers are unfolded before the sequence they build. *)
#[local] Strategy expand [writeRule].
#[local] Strategy -10 [writeDefaultRule default_writes].
#[local] Strategy 1000 [write_seq].

Section RoundTrip.
Context `{SrsLaws}.

(** *** Elements *)

Lemma read_addr_write rest a : addr_plain a → readIPSetAddr (write_addr a ++ rest) = inr (a, rest).
Proof.
  intros Ha. unfold readIPSetAddr, write_addr, r_bind. rewrite <- app_assoc.
  assert (length (AsSlice a) = 4%nat ∨ length (AsSlice a) = 16%nat) as Hl.
  { destruct Ha as (_ & ? & _). destruct a; simpl; rewrite ?be_bytes_length; auto; done. }
  rewrite WriteUvarint_read by (unfold fits; lia). rewrite Nat2Z.id.
  assert (negb (Z.of_nat (length (AsSlice a)) =? 4) && negb (Z.of_nat (length (AsSlice a)) =? 16) = false) as -> by (destruct Hl as [-> | ->]; done).
  unfold ReadFull. rewrite length_app. rewrite (proj2 (Nat.ltb_ge _ _)) by lia.
  rewrite take_app_length, drop_app_length. unfold r_ret. by rewrite AddrFromIP_AsSlice.
Qed.

Lemma read_range_write : decodes (λ r, addr_plain r.1 ∧ addr_plain r.2) write_range read_range.
Proof.
  intros [a b] rest [Ha Hb]. unfold read_range, write_range, r_bind. simpl in *.
  rewrite <- app_assoc, read_addr_write by done. by rewrite read_addr_write.
Qed.

Lemma ReadUint64_write n rest : fits 64 n → ReadUint64 (be_bytes 8 n ++ rest) = inr (n, rest).
Proof.
  intros Hn. unfold ReadUint64, r_bind, ReadFull. rewrite length_app, be_bytes_length, (proj2 (Nat.ltb_ge _ _)) by lia.
  rewrite take_app_length', drop_app_length' by (symmetry; apply be_bytes_length). unfold r_ret. by rewrite be_value_bytes, Z.mod_small.
Qed.

Lemma readIPSet_write s rest :
  Forall (λ r, addr_plain r.1 ∧ addr_plain r.2) s → fits 64 (Z.of_nat (length s)) → readIPSet (writeIPSet s ++ rest) = inr (s, rest).
Proof.
  intros Hs Hl. unfold readIPSet, writeIPSet, r_bind. rewrite <- !app_assoc. cbn [app ReadByte]. change (negb (1 =? 1)) with false. cbv iota beta. rewrite ReadUint64_write by done.
  apply (decodes_many _ _ _ _ _ (λ _, read_range_write)); [|done].
  intros [a b] [Ha _] E. unfold write_range, write_addr in E. simpl in E.
  assert (fits 64 (Z.of_nat (length (AsSlice a)))) as Hf.
  { destruct a; simpl; rewrite ?be_bytes_length; unfold fits; simpl; lia. }
  pose proof (WriteUvarint_nonempty _ Hf). by destruct (WriteUvarint _).
Qed.

Lemma read_prefix_write : decodes prefix_plain writePrefix readPrefix.
Proof.
  intros [a bits] rest [Ha Hb]. simpl in *. pose proof (read_addr_write ([u8 bits] ++ rest) a Ha) as Hr.
  unfold writePrefix. simpl. rewrite <- app_assoc. unfold readIPSetAddr, readPrefix, r_bind in *.
  destruct (ReadUvarint _) as [?|[n bs]]; [done|]. destruct (_ && _); [done|]. destruct (ReadFull _ bs) as [?|[l bs']]; [done|].
  unfold r_ret in *. injection Hr as -> ->. simpl.
  assert (fits 8 bits) by (destruct a; simpl in *; unfold fits; lia). rewrite u8_id by done.
  do 2 f_equal. destruct Ha as (_ & Hz & Hzone).
  destruct a as [|v|v z]; simpl in *; [done| |].
  - rewrite (proj2 (Z.ltb_ge bits 0)), (proj2 (Z.ltb_ge 32 bits)) by lia. done.
  - rewrite (proj2 (Z.ltb_ge bits 0)), (proj2 (Z.ltb_ge 128 bits)) by lia. simpl. apply negb_false_iff, String.eqb_eq in Hzone. by subst.
Qed.

Lemma prefixes_write l rest : prefixes_ok l → read_prefixes (write_prefixes l ++ rest) = inr (l, rest).
Proof.
  intros [Hl Hp]. unfold read_prefixes, write_prefixes, r_bind. rewrite <- app_assoc, WriteUvarint_read by done.
  apply (decodes_many _ _ _ _ _ (λ _, read_prefix_write)); [|done].
  intros p _ E. unfold writePrefix in E. apply (f_equal length) in E. rewrite length_app in E. simpl in E. lia.
Qed.

Lemma read_string_write : decodes (λ s, fits 64 (Z.of_nat (String.length s))) write_string read_string.
Proof.
  intros s rest Hs. unfold read_string, write_string, r_bind. rewrite <- string_bytes_length in *.
  rewrite <- app_assoc, ReadSlice8_read by (try done; apply string_bytes_fits). unfold r_ret. by rewrite bytes_string_bytes.
Qed.

Lemma strings_write l rest :
  strings_ok l → readRuleItemString (WriteUvarint (Z.of_nat (length l)) ++ mjoin (write_string <$> l) ++ rest) = inr (l, rest).
Proof.
  intros [Hl Hs]. unfold readRuleItemString, r_bind. rewrite WriteUvarint_read by done.
  apply (decodes_many _ _ _ _ _ (λ _, read_string_write)); [|done].
  intros s Hf E. unfold write_string in E. pose proof (WriteUvarint_nonempty _ Hf). by destruct (WriteUvarint _).
Qed.

Lemma interface_write : decodes (λ e, fits 8 e.1 ∧ prefixes_ok e.2) write_interface read_interface.
Proof.
  intros [k v] rest [Hk Hv]. unfold read_interface, write_interface, r_bind. simpl in *. rewrite prefixes_write by done.
  unfold r_ret. by rewrite u8_id.
Qed.

(** Putting the entries of a map with distinct keys one by one builds it. *)
Lemma tm_put_new k v m : (k ∉ m.*1) → tm_put k v m = m ++ [(k, v)].
Proof.
  induction m as [|[k' v'] m IH]; [done|]. simpl. intros [Hne Hn]%not_elem_of_cons. rewrite (proj2 (Z.eqb_neq k k')) by done. by rewrite IH.
Qed.
Lemma tm_put_all m m0 : NoDup (m0.*1 ++ m.*1) → foldl (λ m e, tm_put e.1 e.2 m) m0 m = m0 ++ m.
Proof.
  revert m0. induction m as [|[k v] m IH]; intros m0 Hn; simpl; [by rewrite app_nil_r|]. rewrite tm_put_new.
  - rewrite IH; [by rewrite <- app_assoc|]. rewrite fmap_app, <- app_assoc. done.
  - apply list.NoDup_app in Hn as (_ & Hd & _). intros Hin. apply (Hd _ Hin). by left.
Qed.

(** *** The item loop *)

(** [read_items] on [bs] gives [res] however many rounds it has, if enough. *)
Definition reads (recover : bool) (r : DefaultHeadlessRule) (bs : bytes) (res : io_error + (DefaultHeadlessRule * bytes)) : Prop :=
  ∀ fuel last, (length bs < fuel)%nat → read_items fuel recover last r bs = res.

Lemma reads_item recover t body rest r r' res :
  t ≠ ruleItemFinal → (∀ last, read_item recover t last r (body ++ rest) = inr (r', rest)) → reads recover r' rest res →
  reads recover r (t :: body ++ rest) res.
Proof.
  intros Ht Hi Hr fuel last Hf. destruct fuel as [|fuel]; [simpl in Hf; lia|]. cbn [read_items]. unfold r_bind at 1. cbn [ReadByte].
  rewrite (proj2 (Z.eqb_neq _ _)) by done. unfold r_bind. rewrite Hi. apply Hr. cbn [length] in Hf. rewrite length_app in Hf. lia.
Qed.

Lemma reads_final recover r inv rest :
  reads recover r ([ruleItemFinal; if inv : bool then 1 else 0] ++ rest) (inr (set_Invert inv r, rest)).
Proof. intros fuel last Hf. destruct fuel as [|fuel]; [simpl in Hf; lia|]. by destruct inv. Qed.

(** A guarded block: what the writer produced, and what the loop makes of it. *)
Definition block (guard : bool) (w : io_error + bytes) (b : bytes) : Prop := if guard then w = inr b else b = [].

Lemma write_seq_inv l bs :
  write_seq l = inr bs → ∃ bss, Forall2 (λ gw b, block gw.1 gw.2 b) l bss ∧ bs = mjoin bss.
Proof.
  revert bs. induction l as [|[guard w] l IH]; intros bs Hw; simpl in Hw; [simplify_eq; by exists []|]. destruct guard.
  - destruct w as [e|b]; [done|]. destruct (write_seq l) as [e|bs']; [done|]. simplify_eq.
    destruct (IH bs' eq_refl) as (bss & Hf & ->). exists (b :: bss). split; [by constructor | done].
  - destruct (IH bs Hw) as (bss & Hf & ->). exists ([] :: bss). split; [by constructor | done].
Qed.

(** The blocks by kind of item; [set [] r = r] holds for a field not read yet. *)
Lemma reads_strings recover t set l r rest res b :
  block (nonempty l) (inr (writeRuleItemString t l)) b → t ≠ ruleItemFinal →
  (∀ last r, read_item recover t last r = let! v := readRuleItemString in r_ret (set v r)) →
  strings_ok l → set [] r = r → reads recover (set l r) rest res → reads recover r (b ++ rest) res.
Proof.
  intros Hb Ht Hi Hl Hs Hr. destruct l as [|x l]; simpl in Hb; [subst b; by rewrite Hs in Hr|]. simplify_eq.
  unfold writeRuleItemString. rewrite <- app_assoc. apply (reads_item _ _ _ rest _ (set (x :: l) r)); [done | | done]. intros last. rewrite Hi. unfold r_bind.
  rewrite <- app_assoc, strings_write by done. done.
Qed.

Lemma reads_words recover t set l r rest res b :
  block (nonempty l) (inr (writeRuleItemUint16 t l)) b → t ≠ ruleItemFinal →
  (∀ last r, read_item recover t last r = let! v := ReadSlice16 in r_ret (set v r)) →
  words_ok 16 l → set [] r = r → reads recover (set l r) rest res → reads recover r (b ++ rest) res.
Proof.
  intros Hb Ht Hi [Hl Hw] Hs Hr. destruct l as [|x l]; simpl in Hb; [subst b; by rewrite Hs in Hr|]. simplify_eq.
  unfold writeRuleItemUint16. rewrite <- app_assoc. apply (reads_item _ _ _ rest _ (set (x :: l) r)); [done | | done]. intros last. rewrite Hi. unfold r_bind.
  rewrite <- app_assoc, ReadSlice16_read by done. done.
Qed.

Lemma reads_flag recover t set (flag : bool) r rest res b :
  block flag (inr [t]) b → t ≠ ruleItemFinal → (∀ last r, read_item recover t last r = r_ret (set true r)) → set false r = r →
  reads recover (set flag r) rest res → reads recover r (b ++ rest) res.
Proof.
  intros Hb Ht Hi Hs Hr. destruct flag; simpl in Hb; [|subst b; by rewrite Hs in Hr]. simplify_eq.
  apply (reads_item _ _ [] _ _ (set true r)); [done | | done]. intros last. by rewrite Hi.
Qed.

(** The compiled items: read by [rd] into [x], stored by [put]. *)
Lemma reads_compiled {A} recover t (rd : reader A) put (guard : bool) x w b r rest res :
  block guard (inr (t :: w)) b → t ≠ ruleItemFinal →
  (∀ last r, read_item recover t last r = let! m := rd in r_ret (put m r)) → (guard = true → rd (w ++ rest) = inr (x, rest)) →
  reads recover (if guard then put x r else r) rest res → reads recover r (b ++ rest) res.
Proof.
  intros Hb Ht Hi Hrd Hr. destruct guard; simpl in Hb; [|by subst b]. simplify_eq.
  apply (reads_item _ _ _ rest _ (put x r)); [done | | done]. intros last. rewrite Hi. unfold r_bind. by rewrite Hrd.
Qed.

Lemma since_inr version v msg w b guard : block guard (since version v msg w) b → block guard (inr w) b.
Proof. destruct guard; simpl; [|done]. unfold since. by destruct (v <? version). Qed.

(** A CIDR item holds the set built from the strings. *)
Lemma cidr_block msg t l b :
  block (nonempty l) (cause msg (writeRuleItemCIDR t l)) b →
  ∃ s, block (nonempty l) (inr (t :: writeIPSet s)) b ∧ compiled_ipset l = (if nonempty l then Some s else None) ∧
       (nonempty l = true → ∀ rest, readIPSet (writeIPSet s ++ rest) = inr (s, rest)).
Proof.
  unfold cause, writeRuleItemCIDR, compiled_ipset. destruct (nonempty l); [|by intros ->; exists []]. simpl.
  destruct (build_ipset l) as [e|s] eqn:Eb; [done|]. intros; simplify_eq. exists s. split_and!; [done | done |]. intros _ rest.
  unfold build_ipset in Eb. destruct (parse_cidrs 0 l); [done|]. destruct (IPSet_ranges _ _ Eb). by apply readIPSet_write.
Qed.

(** A list item of any kind, absent when empty. *)
Lemma reads_list {A} recover t (rd : reader (list A)) set l w b r rest res :
  block (nonempty l) (inr (t :: w)) b → t ≠ ruleItemFinal →
  (∀ last r, read_item recover t last r = let! v := rd in r_ret (set v r)) → rd (w ++ rest) = inr (l, rest) → set [] r = r →
  reads recover (set l r) rest res → reads recover r (b ++ rest) res.
Proof.
  intros Hb Ht Hi Hrd Hs Hr. eapply (reads_compiled recover t rd set); [exact Hb | done | done | by intros _|].
  destruct l; simpl; [by rewrite Hs in Hr | done].
Qed.

Lemma reads_interfaces recover m b r rest res :
  block (nonempty m) (inr ([ruleItemNetworkInterfaceAddress] ++ WriteUvarint (Z.of_nat (length m)) ++ mjoin (write_interface <$> m))) b →
  interfaces_ok m →
  set_NetworkInterfaceAddress None r = r →
  reads recover (set_NetworkInterfaceAddress (present m) r) rest res → reads recover r (b ++ rest) res.
Proof.
  intros Hb (Hl & Hn & Hm) Hs Hr. destruct (nonempty m) eqn:En; cbn [block] in Hb; [|destruct m; [|done]; subst b; simpl in Hr; by rewrite Hs in Hr].
  assert (present m = Some m) as Em by (by destruct m). rewrite Em in Hr.
  injection Hb as <-. apply (reads_item _ _ _ rest _ (set_NetworkInterfaceAddress (Some m) r)); [done | | done]. intros last.
  change (read_item recover ruleItemNetworkInterfaceAddress last r) with
    (let! size := ReadUvarint in let! entries := read_many (λ _, read_interface) size in
     r_ret (set_NetworkInterfaceAddress (Some (foldl (λ m e, tm_put e.1 e.2 m) [] entries)) r)).
  unfold r_bind. rewrite <- app_assoc, WriteUvarint_read by done.
  rewrite (decodes_many _ _ _ _ _ (λ _, interface_write)); [|by intros ? _ ?|done]. by rewrite tm_put_all.
Qed.

Ltac next_block Hw :=
  let b := fresh "b" in let bs := fresh "bs" in let Hb := fresh "Hb" in
  apply Forall2_cons_inv_l in Hw as (b & bs & Hb & Hw & ->); cbn [fst snd] in Hb.

(** The fields a compiled item writes, absent or present. *)
Definition put_domains (recover : bool) (m : option matcher) (r : DefaultHeadlessRule) : DefaultHeadlessRule :=
  set_DomainMatcher m (set_DomainSuffix (dump recover (λ m, (matcher_Dump m).2) m) (set_Domain (dump recover (λ m, (matcher_Dump m).1) m) r)).
Definition put_source (recover : bool) (s : option ipset) (r : DefaultHeadlessRule) : DefaultHeadlessRule :=
  set_SourceIPSet s (set_SourceIPCIDR (dump recover IPSet_Prefixes s) r).
Definition put_ip (recover : bool) (s : option ipset) (r : DefaultHeadlessRule) : DefaultHeadlessRule :=
  set_IPSet s (set_IPCIDR (dump recover IPSet_Prefixes s) r).
Definition put_adguard (recover : bool) (m : option adguard) (r : DefaultHeadlessRule) : DefaultHeadlessRule :=
  set_AdGuardDomainMatcher m (set_AdGuardDomain (dump recover adguard_Dump m) r).

Lemma reads_option {A} recover t (rd : reader A) raw put (guard : bool) x w b r rest res :
  block guard (inr (t :: w)) b → t ≠ ruleItemFinal →
  (∀ last r, read_item recover t last r = let! m := rd in r_ret (raw m r)) → (guard = true → rd (w ++ rest) = inr (x, rest)) →
  put None r = r → put (Some x) r = raw x r →
  reads recover (put (if guard then Some x else None) r) rest res → reads recover r (b ++ rest) res.
Proof.
  intros Hb Ht Hi Hrd Hn Hs Hr. eapply (reads_compiled recover t rd raw); [exact Hb | done | done | done |].
  destruct guard; by rewrite ?Hn, ?Hs in Hr.
Qed.

(** Keeps the rule read so far in the form of a record. *)
Ltac norm_rule :=
  match goal with |- reads ?rec ?r ?bs ?res =>
    let r1 := eval cbv beta delta
      [set_QueryType set_Network set_Domain set_DomainSuffix set_DomainKeyword set_DomainRegex set_SourceIPCIDR
       set_IPCIDR set_SourcePort set_SourcePortRange set_Port set_PortRange set_ProcessName set_ProcessPath
       set_ProcessPathRegex set_PackageName set_PackageNameRegex set_NetworkType set_NetworkIsExpensive
       set_NetworkIsConstrained set_WIFISSID set_WIFIBSSID set_NetworkInterfaceAddress set_DefaultInterfaceAddress
       set_Invert set_DomainMatcher set_SourceIPSet set_IPSet set_AdGuardDomain set_AdGuardDomainMatcher put_domains
       put_source put_ip put_adguard empty_rule] in r in
    let r2 := eval cbn
      [h_QueryType h_Network h_Domain h_DomainSuffix h_DomainKeyword h_DomainRegex h_SourceIPCIDR h_IPCIDR h_SourcePort
       h_SourcePortRange h_Port h_PortRange h_ProcessName h_ProcessPath h_ProcessPathRegex h_PackageName
       h_PackageNameRegex h_NetworkType h_NetworkIsExpensive h_NetworkIsConstrained h_WIFISSID h_WIFIBSSID
       h_NetworkInterfaceAddress h_DefaultInterfaceAddress h_Invert h_DomainMatcher h_SourceIPSet h_IPSet
       h_AdGuardDomain h_AdGuardDomainMatcher] in r1 in
    change (reads rec r2 bs res)
  end.

Ltac strings_block set := eapply (reads_strings _ _ set); [eassumption | done | by intros | assumption | reflexivity | norm_rule].
Ltac words_block set := eapply (reads_words _ _ set); [eassumption | done | by intros | assumption | reflexivity | norm_rule].
Ltac list_block rd set tac := eapply (reads_list _ _ rd set); [eassumption | done | by intros | tac | reflexivity | norm_rule].
Ltac flag_block set := eapply (reads_flag _ _ set); [eassumption | done | by intros | reflexivity | norm_rule].
Ltac option_block rec rd put tac :=
  eapply (reads_option rec _ rd _ (put rec)); [eassumption | done | by intros | tac | by destruct rec | by destruct rec | norm_rule].

Lemma default_write recover v r bs rest :
  encodable r → writeDefaultRule r v = inr bs →
  ∃ body, bs = 0 :: body ∧ readDefaultRule recover (body ++ rest) = inr (loaded recover v r, rest).
Proof.
  intros [Hstr Hwords [Htl Htw] Hif Hdef] Hw. unfold writeDefaultRule in Hw. apply write_seq_inv in Hw as (bss & Hw & ->).
  unfold default_writes in Hw. do 26 next_block Hw. apply Forall2_nil_inv_l in Hw as ->. cbn [mjoin list_join].
  repeat match goal with Hb : block _ (since _ _ _ _) _ |- _ => apply since_inr in Hb end.
  repeat match goal with Hb : block true _ _ |- _ => injection Hb as <- end.
  rewrite !list.Forall_cons in Hstr. rewrite !list.Forall_cons in Hwords. destruct Hstr as (? & ? & ? & ? & ? & ? & ? & ? & ? & ? & ? & ? & _), Hwords as (? & ? & ? & _).
  repeat match goal with Hb : block _ (cause _ _) _ |- _ => apply cidr_block in Hb as (? & ? & ? & ?) end.
  eexists. split; [reflexivity|]. unfold readDefaultRule.
  match goal with |- read_items _ _ _ _ ?bs = ?res => assert (reads recover empty_rule bs res) as Hr; [|apply Hr; lia] end.
  rewrite <- !app_assoc, app_nil_l.
  words_block set_QueryType. strings_block set_Network.
  option_block recover ReadMatcher put_domains ltac:(intros _; apply ReadMatcher_read).
  strings_block set_DomainKeyword. strings_block set_DomainRegex.
  option_block recover readIPSet put_source ltac:(by eauto). option_block recover readIPSet put_ip ltac:(by eauto).
  words_block set_SourcePort. strings_block set_SourcePortRange. words_block set_Port. strings_block set_PortRange.
  strings_block set_ProcessName. strings_block set_ProcessPath. strings_block set_ProcessPathRegex.
  strings_block set_PackageName. strings_block set_PackageNameRegex.
  list_block ReadSlice8 set_NetworkType ltac:(rewrite <- app_assoc; by apply ReadSlice8_read).
  flag_block set_NetworkIsExpensive. flag_block set_NetworkIsConstrained.
  eapply reads_interfaces; [eassumption | done | reflexivity | norm_rule].
  list_block read_prefixes set_DefaultInterfaceAddress ltac:(by apply prefixes_write).
  strings_block set_WIFISSID. strings_block set_WIFIBSSID.
  option_block recover ReadAdGuardMatcher put_adguard ltac:(intros _; apply ReadAdGuardMatcher_read).
  unfold loaded, compiled_domains, compiled_adguard.
  repeat match goal with E : compiled_ipset _ = _ |- _ => rewrite E; clear E end. apply reads_final.
Qed.

(** *** Rules and rule-sets *)

Lemma write_rules_inv v rules bs :
  write_seq ((λ rule, (true, writeRule rule v)) <$> rules) = inr bs →
  ∃ bss, Forall2 (λ rule b, writeRule rule v = inr b) rules bss ∧ bs = mjoin bss.
Proof.
  revert bs. induction rules as [|rule rules IH]; intros bs Hw; simpl in Hw; [simplify_eq; by exists []|].
  destruct (writeRule rule v) as [e|b] eqn:Er; [done|]. destruct (write_seq _) as [e|bs']; [done|]. simplify_eq.
  destruct (IH bs' eq_refl) as (bss & Hf & ->). exists (b :: bss). split; [by constructor | done].
Qed.

Lemma rule_write levels recover v rule b :
  rule_fits levels rule → writeRule rule v = inr b →
  b ≠ [] ∧ ∀ rest, readRule levels recover (b ++ rest) = inr (loaded_rule recover v rule, rest).
Proof.
  revert rule b. induction levels as [|levels IH]; intros rule b Hf Hw; [done|]. destruct rule as [r|mode rules invert].
  - cbn [writeRule] in Hw. split; [destruct (default_write recover v r b [] Hf Hw) as (body & -> & _); by intros ?|]. intros rest.
    destruct (default_write recover v r b rest Hf Hw) as (body & -> & Hr). cbn [readRule app]. unfold r_bind. cbn [ReadByte].
    change (0 =? 0) with true. cbv iota beta. by rewrite Hr.
  - destruct Hf as [Hl Hf]. cbn [writeRule] in Hw. apply write_seq_inv in Hw as (bss0 & Hw & ->). do 5 next_block Hw. apply Forall2_nil_inv_l in Hw as ->. cbn [mjoin list_join].
    repeat match goal with Hb : block true (inr _) _ |- _ => injection Hb as <- end.
    match goal with Hb : block true (write_seq _) _ |- _ => apply write_rules_inv in Hb as (bss & Hbs & ->) end.
    split; [done|]. intros rest. rewrite <- !app_assoc, app_nil_l. cbn [readRule app]. unfold r_bind. cbn [ReadByte].
    change (1 =? 0) with false. change (1 =? 1) with true. cbv iota beta. cbn [ReadByte].
    assert (((match mode with LogicalTypeAnd => 0 | LogicalTypeOr => 1 end) =? 0) ||
            ((match mode with LogicalTypeAnd => 0 | LogicalTypeOr => 1 end) =? 1) = true) as -> by (by destruct mode).
    rewrite WriteUvarint_read by done.
    rewrite (read_many_Forall2 (loaded_rule recover v)).
    + unfold ReadBool, r_bind. cbn [ReadByte]. unfold r_ret. by destruct mode, invert.
    + clear Hl. induction Hbs as [|rule b rules bss Hw Hbs IHl]; [done|]. apply list.Forall_cons in Hf as [Hf1 Hf2].
      constructor; [|by apply IHl]. destruct (IH rule b Hf1 Hw) as [Hne Hr]. split; [done|]. intros i rest'. unfold with_cause. by rewrite Hr.
Qed.

(** C37. Writing a rule-set and reading it back loses nothing.  If [Write] succeeds
    in a version the reader supports, on rules that nest at most
    [maxLogicalRuleDepth] levels and whose items can be encoded, then [Read]
    accepts the file and returns the version and the same rules: default and
    logical ones in order and nesting, every plain item as it was, domains and
    CIDRs in their compiled form, and in recovery mode the lists those forms dump. *)
Theorem srs_round_trip recover rules v file :
  fits 8 v → v ≤ RuleSetVersionCurrent → fits 64 (Z.of_nat (length rules)) → Forall (rule_fits (S maxLogicalRuleDepth)) rules →
  Srs_Write rules v = inr file → Srs_Read recover file = inr (v, loaded_rule recover v <$> rules).
Proof.
  intros Hv Hcur Hl Hf Hw. unfold Srs_Write in Hw. destruct (write_seq _) as [e|bs] eqn:Es; [done|]. injection Hw as <-.
  cbn [write_seq] in Es. destruct (write_seq ((λ rule, (true, writeRule rule v)) <$> rules)) as [e|bs'] eqn:Er; [done|]. injection Es as <-.
  apply write_rules_inv in Er as (bss & Hbs & ->).
  unfold Srs_Read. unfold ReadFull. cbn [MagicBytes app length Nat.ltb Nat.leb take drop]. rewrite bool_decide_eq_true_2 by done.
  cbn [negb ReadByte]. rewrite u8_id, (proj2 (Z.ltb_ge _ _)) by done. rewrite zlib_open_compress. unfold r_bind.
  rewrite WriteUvarint_read by done. rewrite <- (app_nil_r (mjoin bss)), (read_many_Forall2 (loaded_rule recover v)); [done|].
  clear Hl. induction Hbs as [|rule b rules bss Hw Hbs IHl]; [done|]. apply list.Forall_cons in Hf as [Hf1 Hf2].
  constructor; [|by apply IHl]. destruct (rule_write _ recover _ _ _ Hf1 Hw) as [Hne Hr]. split; [done|]. intros i rest'.
  unfold with_cause. by rewrite Hr.
Qed.
End RoundTrip.

(** ** Versions *)

Section Versions.
Context `{SrsLaws}.

Lemma write_seq_ok l bs guard w : write_seq l = inr bs → (guard, w) ∈ l → guard = true → ∃ b, w = inr b.
Proof.
  revert bs. induction l as [|[g x] l IH]; intros bs Hw Hin Hg; [by apply elem_of_nil in Hin|]. simpl in Hw.
  apply elem_of_cons in Hin as [?|Hin].
  - simplify_eq. destruct x as [e|b]; [done | by exists b].
  - destruct g; [|by eapply IH]. destruct x as [e|b]; [done|]. destruct (write_seq l) as [e|bs']; [done|]. by eapply IH.
Qed.

Lemma since_gate l bs guard version v msg w :
  write_seq l = inr bs → (guard, since version v msg w) ∈ l → v < version → guard = false.
Proof.
  intros Hw Hin Hv. destruct guard; [|done]. destruct (write_seq_ok _ _ _ _ Hw Hin eq_refl) as [b Hb]. unfold since in Hb.
  by rewrite (proj2 (Z.ltb_lt v version)) in Hb.
Qed.

(** C40. The version gates of the writer.  If writing a default rule in version [v]
    succeeds, the rule has no AdGuard domains when [v] is below 2, no network type
    and no expensive or constrained flag below 3, no interface addresses below 4 and
    no package name expressions below 5: a rule with one of these items is refused
    in an older version instead of losing the item.  Nothing is said of the other
    items, which the writer does not gate; [process_path_regex] is one of them
    although it is newer than version 1 ([process_path_regex_not_gated]). *)
Theorem srs_version_gates r v bs :
  writeDefaultRule r v = inr bs →
  (v < RuleSetVersion2 → h_AdGuardDomain r = []) ∧
  (v < RuleSetVersion3 → h_NetworkType r = [] ∧ h_NetworkIsExpensive r = false ∧ h_NetworkIsConstrained r = false) ∧
  (v < RuleSetVersion4 → default [] (h_NetworkInterfaceAddress r) = [] ∧ h_DefaultInterfaceAddress r = []) ∧
  (v < RuleSetVersion5 → h_PackageNameRegex r = []).
Proof.
  intros Hw. change (write_seq (default_writes r v) = inr bs) in Hw.
  assert (∀ {A} (l : list A), nonempty l = false → l = []) as Hne by (by intros A []).
  assert (∀ guard version msg w, (guard, since version v msg w) ∈ default_writes r v → v < version → guard = false) as Hg.
  { intros guard version msg w. by apply since_gate with bs. }
  clear Hw. unfold default_writes in Hg.
  split_and!; intros Hv; split_and?; try apply Hne; (eapply Hg; [|exact Hv]; do 30 first [apply list_elem_of_here | apply list_elem_of_further]).
Qed.
End Versions.

(** ** An instance of the libraries *)

(** Counts in unary, which have no bound. *)
Definition write_unary (n : nat) : bytes := replicate n 1 ++ [0].
Fixpoint read_unary (bs : bytes) : io_error + (nat * bytes) :=
  match bs with
  | [] => inl EOF
  | b :: bs => if b =? 1 then match read_unary bs with inl e => inl e | inr (n, bs) => inr (S n, bs) end else inr (O, bs)
  end.
Definition write_list {A} (enc : A → bytes) (l : list A) : bytes := write_unary (length l) ++ mjoin (enc <$> l).
Definition read_list {A} (rd : reader A) : reader (list A) := let! n := read_unary in read_many (λ _, rd) (Z.of_nat n).

Definition write_text (s : string) : bytes := write_list (λ c, [byte_of c]) (String.list_ascii_of_string s).
Definition read_text : reader string :=
  let! l := read_list (let! b := ReadByte in r_ret (Ascii.ascii_of_nat (Z.to_nat b))) in r_ret (String.string_of_list_ascii l).

Lemma read_unary_write n rest : read_unary (write_unary n ++ rest) = inr (n, rest).
Proof. unfold write_unary. induction n as [|n IH]; [done|]. simpl in *. by rewrite IH. Qed.

Lemma total_unary : total_reader true read_unary.
Proof.
  split.
  - induction bs as [|b bs IH]; simpl; intros e He; [by simplify_eq|]. destruct (b =? 1); [|done].
    destruct (read_unary bs) as [e'|[n bs']]; [|done]. simplify_eq. by apply IH.
  - induction bs as [|b bs IH]; simpl; intros n bs' He; [done|]. destruct (b =? 1); [|simplify_eq; lia].
    destruct (read_unary bs) as [e'|[m bs1]]; [done|]. simplify_eq. specialize (IH m bs' eq_refl). lia.
Qed.

Lemma read_list_write {A} (enc : A → bytes) (rd : reader A) l rest :
  decodes (λ _, True) enc rd → (∀ a, enc a ≠ []) → read_list rd (write_list enc l ++ rest) = inr (l, rest).
Proof.
  intros Hd He. unfold read_list, write_list, r_bind. rewrite <- app_assoc, read_unary_write.
  apply (decodes_many (λ _, True)); [done | by intros a _ | by apply Forall_true].
Qed.

Lemma total_list {A} (rd : reader A) : total_reader true rd → total_reader true (read_list rd).
Proof. intros Hr. apply (total_bind true false); [apply total_unary|]. intros. by apply total_many. Qed.

Lemma read_text_write : decodes (λ _, True) write_text read_text.
Proof.
  intros s rest _. unfold read_text, write_text. unfold r_bind at 1. rewrite read_list_write; [|intros c r _|done].
  - unfold r_ret. by rewrite String.string_of_list_ascii_of_string.
  - unfold r_bind, r_ret. simpl. unfold byte_of. by rewrite Nat2Z.id, Ascii.ascii_nat_embedding.
Qed.

Lemma write_text_nonempty s : write_text s ≠ [].
Proof. unfold write_text, write_list, write_unary. by destruct (length _). Qed.

Lemma total_text : total_reader true read_text.
Proof.
  apply (total_bind true false); [apply total_list|intros; apply total_ret].
  apply (total_bind true false); [apply total_byte | intros; apply total_ret].
Qed.

#[global] Instance addr_plain_dec a : Decision (addr_plain a).
Proof. unfold addr_plain. apply _. Defined.

(** The first and last address of a prefix. *)
Definition prefix_range (p : Prefix) : Addr * Addr :=
  let p := masked p in
  match prefix_addr p with
  | AddrZero => (AddrZero, AddrZero)
  | AddrV4 v => (AddrV4 v, AddrV4 (v + 2 ^ (32 - prefix_bits p) - 1))
  | AddrV6 v z => (AddrV6 v z, AddrV6 (v + 2 ^ (128 - prefix_bits p) - 1) z)
  end.

Definition addr_from_slice (l : bytes) : Addr := if Nat.eqb (length l) 4 then AddrV4 (be_value l) else AddrV6 (be_value l) "".
Lemma addr_from_AsSlice a : addr_plain a → addr_from_slice (AsSlice a) = a.
Proof.
  intros (Hw & Hn & Hz). unfold addr_from_slice. destruct a as [|v|v z]; [done| |]; cbn [AsSlice]; rewrite be_bytes_length, be_value_bytes;
    cbn [Nat.eqb]; f_equal; [by apply Z.mod_small | by apply Z.mod_small |].
  simpl in Hz. by apply negb_false_iff, String.eqb_eq in Hz.
Qed.

(** Matchers are the lists they were made of, an IP set the ranges in order, one
    CIDR is known, and compression does nothing. *)
#[local] Instance sample_lib : SrsLib := {|
  matcher := list string * list string;
  NewMatcher d s _ := (d, s);
  matcher_Write m := write_list write_text m.1 ++ write_list write_text m.2;
  ReadMatcher := let! d := read_list read_text in let! s := read_list read_text in r_ret (d, s);
  matcher_Dump m := m;
  adguard := list string;
  NewAdGuardMatcher l := l;
  adguard_Write := write_list write_text;
  ReadAdGuardMatcher := read_list read_text;
  adguard_Dump l := l;
  AddrFromIP := addr_from_slice;
  ParsePrefix s := if String.eqb s "10.0.0.0/8" then inr (mkPrefix (AddrV4 0x0a000000) 8) else inl ErrInvalid;
  ParseAddr _ := inl ErrInvalid;
  IPSetBuilder_IPSet l :=
    let rs := (λ x, match x with inl p => prefix_range p | inr a => (a, a) end) <$> l in
    if decide (Forall (λ r, addr_plain r.1 ∧ addr_plain r.2) rs ∧ fits 64 (Z.of_nat (length rs))) then inr rs else inl ErrInvalid;
  IPSet_Prefixes s := (λ _, "10.0.0.0/8"%string) <$> s;
  zlib_compress b := b;
  zlib_open b := inr b |}.

#[local] Instance sample_lib_laws : SrsLaws.
Proof.
  split; simpl.
  - intros [d s] rest. unfold r_bind. simpl. rewrite <- app_assoc.
    rewrite !read_list_write by (apply read_text_write || apply write_text_nonempty). done.
  - apply (total_bind false false); [apply total_weaken, total_list, total_text|]. intros d.
    apply (total_bind false false); [apply total_weaken, total_list, total_text | intros; apply total_ret].
  - intros m rest. apply read_list_write; [apply read_text_write | apply write_text_nonempty].
  - apply total_weaken, total_list, total_text.
  - apply addr_from_AsSlice.
  - intros l s. destruct (decide _) as [[? ?]|]; [|done]. intros; simplify_eq. done.
  - done.
  - done.
Qed.

(** Two rules: one with domains, an address range and a port, one nested. *)
Definition sample_rule : DefaultHeadlessRule :=
  set_Port [443; 8443] (set_IPCIDR ["10.0.0.0/8"] (set_DomainSuffix [".example.com"] (set_Domain ["example.com"] empty_rule))).
Definition sample_rules : list HeadlessRule :=
  [HeadlessDefault sample_rule;
   HeadlessLogical LogicalTypeOr [HeadlessDefault (set_Network ["udp"] empty_rule); HeadlessDefault (set_Invert true (set_NetworkType [1] empty_rule))] true].

Lemma sample_encodable : Forall (rule_fits (S maxLogicalRuleDepth)) sample_rules.
Proof.
  repeat constructor; try by vm_compute.
Qed.

Lemma srs_round_trip_witness :
  ∃ file, Srs_Write sample_rules 5 = inr file ∧ Srs_Read true file = inr (5, loaded_rule true 5 <$> sample_rules).
Proof.
  eexists. split; [vm_compute; reflexivity|].
  apply (srs_round_trip true sample_rules 5); [by vm_compute | by vm_compute | by vm_compute | apply sample_encodable | by vm_compute].
Defined.

(** A list of ports that ends after its count is an unexpected end of the file. *)
Lemma srs_reader_total_witness :
  ∃ e, Srs_Read false [0x53; 0x52; 0x53; 1; 1; 0; 7; 0xFF] = inl e ∧ exhausted e = false.
Proof.
  destruct (Srs_Read false [0x53; 0x52; 0x53; 1; 1; 0; 7; 0xFF]) as [e|x] eqn:E.
  - exists e. split; [reflexivity|]. exact (srs_reader_total false _ e E).
  - exfalso. assert (match Srs_Read false [0x53; 0x52; 0x53; 1; 1; 0; 7; 0xFF] with inl _ => true | inr _ => false end = true) as H
      by (vm_compute; reflexivity). by rewrite E in H.
Defined.

Lemma srs_version_gates_witness :
  (∃ bs, writeDefaultRule sample_rule 1 = inr bs) ∧ h_AdGuardDomain sample_rule = [].
Proof.
  assert (∃ bs, writeDefaultRule sample_rule 1 = inr bs) as [bs Hb] by (eexists; vm_compute; reflexivity).
  split; [by exists bs|]. by apply (srs_version_gates sample_rule 1 bs Hb).
Defined.

(** An expression for process paths is written in version 1, although it is
    documented as an item of 1.10.0 and version 1 as the format of 1.8.0. *)
Theorem process_path_regex_not_gated :
  ∃ bs, writeDefaultRule (set_ProcessPathRegex ["^/usr/bin/"] empty_rule) 1 = inr bs ∧ ruleItemProcessPathRegex ∈ bs.
Proof. eexists. split; [vm_compute; reflexivity|]. apply (bool_decide_unpack _). vm_compute. exact I. Qed.

(** The writer has no limit on the nesting: a rule one level too deep is written
    without an error, and the file cannot be read back. *)
Definition deep_rule : HeadlessRule :=
  Nat.iter 101 (λ rule, HeadlessLogical LogicalTypeAnd [rule] false) (HeadlessDefault (set_Port [53] empty_rule)).

Fixpoint root_cause (e : io_error) : io_error := match e with ErrCause _ _ e => root_cause e | e => e end.

Lemma deep_rule_written_not_readable :
  match Srs_Write [deep_rule] 5 with
  | inl _ => False
  | inr file => match Srs_Read false file with inl e => root_cause e = ErrMsg "logical rule nested too deep" | inr _ => False end
  end.
Proof. by vm_compute. Qed.
