(* ===== verification/FakeIP.v ===== *)
(** * FakeIP: addresses handed out for domains

    [dns/transport/fakeip]: the in-memory storage, the store that walks a ring
    of addresses, and the DNS transport that answers with them; the metadata
    record and its encoding of [adapter/fakeip_metadata.go].  The storage is an
    interface ([FakeIPStorage] with its laws): the store's theorems are proved
    against it, and [MemoryStorage] discharges it. *)

From S2P Require Import Prelude NetIP Varbin.
From stdpp Require Import base gmap list strings numbers.
From Stdlib Require Import ZArith Lia.

Local Open Scope Z_scope.

(** ** The address range *)

(** [raw[i/8] |= 1 << (7 - i%8)] on a byte array. *)
Definition set_bit (raw : list Z) (i : Z) : list Z :=
  alter (λ b, b .| u8 (Z.shiftl 1 (7 - i mod 8))) (Z.to_nat (i / 8)) raw.

(** [for i := bits; i < 128; i++]. *)
Definition set_bits_from (raw : list Z) (bits : Z) : list Z :=
  foldl set_bit raw (seqZ bits (128 - bits)).

Definition broadcastAddress (prefix : Prefix) : Addr :=
  let addr := prefix_addr prefix in
  let raw := as16 addr in
  let bits := prefix_bits prefix in
  let bits := if is4 addr then bits + 96 else bits in
  let raw := set_bits_from raw bits in
  if is4 addr then AddrV4 (be_value (drop 12 raw)) else AddrV6 (be_value raw) "".

(** The width of the addresses of a prefix, and the number of host bits. *)
Definition host_bits (p : Prefix) : Z := bit_len (prefix_addr p) - prefix_bits p.

(** The last address of a range, by arithmetic. *)
Definition range_last (p : Prefix) : Z :=
  Z.shiftl (Z.shiftr (addr_value (prefix_addr p)) (host_bits p)) (host_bits p)
  + 2 ^ host_bits p - 1.

(** *** Bits of big-endian byte arrays *)

Lemma be_value_cons b l : be_value (b :: l) = b * 2 ^ (8 * Z.of_nat (length l)) + be_value l.
Proof.
  induction l as [|x l IH] using rev_ind.
  - unfold be_value. simpl. lia.
  - rewrite app_comm_cons, !be_value_app, IH, length_app. simpl.
    replace (8 * Z.of_nat (length l + 1)) with (8 * Z.of_nat (length l) + 8) by lia.
    rewrite Z.pow_add_r by lia. change (2 ^ 8) with 256. lia.
Qed.

Lemma be_value_bound l : Forall (fits 8) l → 0 ≤ be_value l < 2 ^ (8 * Z.of_nat (length l)).
Proof.
  induction 1 as [|b l Hb _ IH]; [unfold be_value; simpl; lia |].
  rewrite be_value_cons. simpl length. unfold fits in Hb.
  replace (8 * Z.of_nat (S (length l))) with (8 + 8 * Z.of_nat (length l)) by lia.
  rewrite Z.pow_add_r by lia. nia.
Qed.

(** A sum of a high and a low part is their [or]. *)
Lemma high_low_lor x r m : 0 ≤ m → 0 ≤ r < 2 ^ m → x * 2 ^ m + r = Z.shiftl x m .| r.
Proof.
  intros Hm Hr. rewrite <- Z.shiftl_mul_pow2, <- Z.add_lor_land by done.
  assert (Z.land (Z.shiftl x m) r = 0) as ->; [| lia].
  destruct (decide (r = 0)) as [-> | Hr0]; [apply Z.land_0_r |].
  apply Z.bits_inj'. intros n Hn. rewrite Z.land_spec, Z.bits_0, Z.shiftl_spec by done.
  destruct (decide (n < m)) as [Hl | Hl]; [by rewrite Z.testbit_neg_r by lia |].
  rewrite (Z.bits_above_log2 r n); [by rewrite andb_false_r | lia |].
  apply Z.log2_lt_pow2; [lia |].
  assert (2 ^ m ≤ 2 ^ n) by (apply Z.pow_le_mono_r; lia). lia.
Qed.

Lemma fits_lor w a b : fits w a → fits w b → fits w (a .| b).
Proof.
  unfold fits. intros Ha Hb. assert (0 ≤ a .| b) by (apply Z.lor_nonneg; lia).
  split; [done |]. destruct (decide (a .| b = 0)) as [-> | Hn]; [lia |].
  apply Z.log2_lt_pow2; [lia |]. rewrite Z.log2_lor by lia.
  assert (Hlog : ∀ c, 0 ≤ c < 2 ^ w → c ≠ 0 → Z.log2 c < w) by (intros; apply Z.log2_lt_pow2; lia).
  assert (Hw : 0 < w).
  { destruct (decide (w ≤ 0)) as [Hw |]; [| lia]. destruct (decide (w = 0)) as [-> |].
    - assert (a = 0) as -> by lia. assert (b = 0) as -> by lia. done.
    - rewrite Z.pow_neg_r in Ha by lia. lia. }
  apply Z.max_lub_lt.
  - destruct (decide (a = 0)) as [-> |]; [simpl; lia | by apply Hlog].
  - destruct (decide (b = 0)) as [-> |]; [simpl; lia | by apply Hlog].
Qed.

(** An [or] of high parts leaves the low part alone, and the other way round. *)
Lemma lor_high x y r m :
  0 ≤ m → 0 ≤ r < 2 ^ m → (x * 2 ^ m + r) .| (y * 2 ^ m) = (x .| y) * 2 ^ m + r.
Proof.
  intros Hm Hr. rewrite !high_low_lor, <- Z.shiftl_mul_pow2, Z.shiftl_lor by done.
  rewrite <- !Z.lor_assoc. f_equal. apply Z.lor_comm.
Qed.

Lemma lor_low x y r m :
  0 ≤ m → 0 ≤ r < 2 ^ m → 0 ≤ y < 2 ^ m → (x * 2 ^ m + r) .| y = x * 2 ^ m + (r .| y).
Proof.
  intros Hm Hr Hy. rewrite !high_low_lor; [by rewrite Z.lor_assoc | done | | done | done].
  by apply fits_lor.
Qed.

(** Setting a bit of the array sets the bit of the integer, counted from the
    top. *)
Lemma set_bit_value raw i :
  Forall (fits 8) raw → 0 ≤ i < 8 * Z.of_nat (length raw) →
  be_value (set_bit raw i) = be_value raw .| 2 ^ (8 * Z.of_nat (length raw) - 1 - i)
  ∧ Forall (fits 8) (set_bit raw i) ∧ length (set_bit raw i) = length raw.
Proof.
  intros Hf. revert i. induction Hf as [|b l Hb Hl IH]; intros i Hi; [simpl in Hi; lia |].
  simpl length in *. unfold set_bit in *.
  assert (Hmod := Z.mod_pos_bound i 8 ltac:(lia)). assert (Hdm := Z.div_mod i 8 ltac:(lia)).
  destruct (decide (i < 8)) as [Hlt | Hge].
  - rewrite (Z.div_small i 8), (Z.mod_small i 8) by lia. simpl.
    rewrite Z.shiftl_1_l, u8_id.
    2: { unfold fits. split; [lia |]. apply Z.pow_lt_mono_r; lia. }
    rewrite !be_value_cons. split_and!; [| | done].
    + rewrite <- lor_high by (lia || apply be_value_bound; done).
      f_equal. rewrite <- Z.pow_add_r by lia. f_equal. lia.
    + constructor; [| done]. apply fits_lor; [done |]. unfold fits.
      split; [lia |]. apply Z.pow_lt_mono_r; lia.
  - replace (Z.to_nat (i / 8)) with (S (Z.to_nat ((i - 8) / 8))).
    2: { replace i with (i - 8 + 1 * 8) at 2 by lia. rewrite Z.div_add by lia.
         pose proof (Z.div_pos (i - 8) 8). lia. }
    replace (i mod 8) with ((i - 8) mod 8) by (replace i with (i - 8 + 1 * 8) at 2 by lia; by rewrite Z.mod_add by lia).
    match goal with |- context [alter ?f (S ?n) (b :: l)] =>
      change (alter f (S n) (b :: l)) with (b :: alter f n l) end.
    destruct (IH (i - 8) ltac:(lia)) as (IHv & IHf & IHl).
    rewrite !be_value_cons, IHl, IHv. split_and!; [| by constructor | simpl; lia].
    rewrite lor_low; [f_equal; f_equal; f_equal; lia | lia | by apply be_value_bound |].
    split; [lia |]. apply Z.pow_lt_mono_r; lia.
Qed.

Lemma set_bits_value raw n :
  Forall (fits 8) raw → length raw = 16%nat → 0 ≤ n ≤ 128 →
  be_value (set_bits_from raw (128 - n)) = be_value raw .| (2 ^ n - 1)
  ∧ Forall (fits 8) (set_bits_from raw (128 - n))
  ∧ length (set_bits_from raw (128 - n)) = 16%nat.
Proof.
  intros Hf Hl Hn. unfold set_bits_from. replace (128 - (128 - n)) with n by lia.
  revert raw Hf Hl. pattern n. revert n Hn.
  assert (H : ∀ k : nat, Z.of_nat k ≤ 128 → ∀ raw, Forall (fits 8) raw → length raw = 16%nat →
    be_value (foldl set_bit raw (seqZ (128 - Z.of_nat k) (Z.of_nat k))) = be_value raw .| (2 ^ Z.of_nat k - 1)
    ∧ Forall (fits 8) (foldl set_bit raw (seqZ (128 - Z.of_nat k) (Z.of_nat k)))
    ∧ length (foldl set_bit raw (seqZ (128 - Z.of_nat k) (Z.of_nat k))) = 16%nat).
  2: { intros n Hn raw Hf Hl. rewrite <- (Z2Nat.id n) by lia. apply H; [lia | done | done]. }
  intros k. induction k as [|k IH]; intros Hk raw Hf Hl.
  - simpl. split_and!; [| done | done]. change (2 ^ 0 - 1) with 0. by rewrite Z.lor_0_r.
  - rewrite seqZ_cons by lia. simpl foldl.
    replace (Z.succ (128 - Z.of_nat (S k))) with (128 - Z.of_nat k) by lia.
    replace (Z.pred (Z.of_nat (S k))) with (Z.of_nat k) by lia.
    destruct (set_bit_value raw (128 - Z.of_nat (S k)) Hf) as (Hv & Hf' & Hl'); [rewrite Hl; lia |].
    destruct (IH ltac:(lia) (set_bit raw (128 - Z.of_nat (S k))) Hf' ltac:(congruence)) as (IHv & ? & ?).
    split_and!; [| done | done]. rewrite IHv, Hv, Hl, <- Z.lor_assoc. f_equal.
    replace (8 * Z.of_nat 16 - 1 - (128 - Z.of_nat (S k))) with (Z.of_nat k) by lia.
    replace (2 ^ Z.of_nat k) with (1 * 2 ^ Z.of_nat k + 0) at 1 by lia.
    assert (0 < 2 ^ Z.of_nat k) by lia.
    rewrite lor_low, Z.lor_0_l by lia.
    replace (Z.of_nat (S k)) with (1 + Z.of_nat k) by lia. rewrite Z.pow_add_r by lia. lia.
Qed.

(** Setting the low bits of an integer gives the end of its block. *)
Lemma lor_ones_end v k :
  0 ≤ k → v .| (2 ^ k - 1) = Z.shiftl (Z.shiftr v k) k + 2 ^ k - 1.
Proof.
  intros Hk. assert (0 < 2 ^ k) by lia.
  rewrite Z.shiftl_mul_pow2, Z.shiftr_div_pow2 by lia.
  rewrite (Z.div_mod v (2 ^ k)) at 1 by lia. pose proof (Z.mod_pos_bound v (2 ^ k)).
  rewrite (Z.mul_comm (2 ^ k)), lor_low by lia.
  assert (v mod 2 ^ k .| (2 ^ k - 1) = 2 ^ k - 1) as ->; [| lia].
  destruct (decide (v mod 2 ^ k = 0)) as [-> | Hn]; [apply Z.lor_0_l |].
  replace (2 ^ k - 1) with (Z.ones k) by (rewrite Z.ones_equiv; lia).
  apply Z.lor_ones_low; [lia |]. apply Z.log2_lt_pow2; lia.
Qed.

Lemma be_bytes_fits n v : Forall (fits 8) (be_bytes n v).
Proof.
  revert v. induction n as [|n IH]; intros v; [constructor |]. cbn [be_bytes].
  apply Forall_app. split; [apply IH |]. constructor; [| constructor].
  apply Z.mod_pos_bound. lia.
Qed.

Lemma be_value_drop n l :
  Forall (fits 8) l → be_value (drop n l) = be_value l mod 2 ^ (8 * Z.of_nat (length l - n)).
Proof.
  revert n. induction l as [|b l IH]; intros n Hf.
  - rewrite drop_nil. unfold be_value. simpl. by rewrite Z.mod_0_l by lia.
  - pose proof (be_value_bound _ Hf) as Hb. destruct n as [|n].
    + simpl drop. rewrite Nat.sub_0_r. by rewrite Z.mod_small.
    + apply list.Forall_cons in Hf as [Hb' Hf]. simpl drop. rewrite IH by done. simpl length.
      rewrite be_value_cons. simpl.
      destruct (decide (n ≤ length l)%nat) as [Hn | Hn].
      * replace (8 * Z.of_nat (length l)) with (8 * Z.of_nat n + 8 * Z.of_nat (length l - n)) by lia.
        rewrite Z.pow_add_r, Z.mul_assoc, Z.add_comm, Z.mod_add by lia. done.
      * replace (length l - n)%nat with 0%nat by lia. by rewrite !Z.mod_1_r.
Qed.

(** The loop over the bytes computes the last address of the range. *)
Lemma broadcastAddress_value p :
  prefix_wf p → prefix_is_valid p = true →
  broadcastAddress p =
    match prefix_addr p with
    | AddrV4 _ => AddrV4 (range_last p)
    | _ => AddrV6 (range_last p) ""
    end.
Proof.
  destruct p as [a b]. unfold prefix_wf, prefix_is_valid, broadcastAddress, range_last, host_bits.
  cbn [prefix_addr prefix_bits]. intros (Ha & Hz & Hb & H0) Hv. boolprop.
  destruct a as [|v|v z]; cbn [as16 is4 bit_len addr_value addr_wf] in *; [specialize (H0 eq_refl); lia | |].
  - f_equal. unfold fits in Ha.
    destruct (set_bits_value (be_bytes 16 (0xffff * 2 ^ 32 + v)) (32 - b)) as (Hbv & Hf & Hl);
      [apply be_bytes_fits | apply be_bytes_length | lia |].
    replace (b + 96) with (128 - (32 - b)) by lia.
    rewrite be_value_drop, Hl, Hbv, be_value_bytes by done.
    change (8 * Z.of_nat 16) with 128. change (8 * Z.of_nat (16 - 12)) with 32.
    rewrite (Z.mod_small (_ + v)) by (change (2 ^ 128) with (2 ^ 96 * 2 ^ 32); lia).
    assert (2 ^ (32 - b) ≤ 2 ^ 32) by (apply Z.pow_le_mono_r; lia).
    assert (0 < 2 ^ (32 - b)) by lia.
    rewrite lor_low by lia. rewrite Z.add_comm, Z.mod_add by lia.
    rewrite Z.mod_small by (apply fits_lor; unfold fits; lia).
    by rewrite lor_ones_end by lia.
  - f_equal.
    destruct (set_bits_value (be_bytes 16 v) (128 - b)) as (Hbv & Hf & Hl);
      [apply be_bytes_fits | apply be_bytes_length | lia |].
    replace (128 - (128 - b)) with b in Hbv by lia.
    rewrite Hbv, be_value_bytes, Z.mod_small by done. by rewrite lor_ones_end by lia.
Qed.

(** ** Metadata and its encoding *)

Record FakeIPMetadata : Type := mkMetadata {
  md_inet4Range : Prefix;
  md_inet6Range : Prefix;
  md_inet4Current : Addr;
  md_inet6Current : Addr;
}.

#[global] Instance FakeIPMetadata_eq_dec : EqDecision FakeIPMetadata.
Proof. solve_decision. Defined.

(** [netip.Addr.MarshalBinary] and its inverse. *)
Definition addr_marshal (a : Addr) : bytes :=
  match a with
  | AddrZero => []
  | AddrV4 v => be_bytes 4 v
  | AddrV6 v z => be_bytes 16 v ++ string_bytes z
  end.

Definition addr_unmarshal (l : bytes) : option Addr :=
  let n := length l in
  if decide (n = 0)%nat then Some AddrZero
  else if decide (n = 4)%nat then Some (AddrV4 (be_value l))
  else if decide (16 ≤ n)%nat then Some (AddrV6 (be_value (take 16 l)) (bytes_string (drop 16 l)))
  else None.

(** [netip.Prefix.MarshalBinary]: the address without its zone and a byte of
    bits ([-1] wraps to 255). *)
Definition prefix_marshal (p : Prefix) : bytes :=
  addr_marshal (without_zone (prefix_addr p)) ++ [u8 (prefix_bits p)].

Definition prefix_unmarshal (l : bytes) : option Prefix :=
  match list.last l with
  | None => None
  | Some b => (λ a, prefix_from a b) <$> addr_unmarshal (take (length l - 1) l)
  end.

(** One length-prefixed element. *)
Definition marshal_element (data : bytes) : bytes :=
  be_bytes 2 (u16 (Z.of_nat (length data))) ++ data.

Definition MarshalBinary (m : FakeIPMetadata) : bytes :=
  marshal_element (prefix_marshal (md_inet4Range m)) ++
  marshal_element (prefix_marshal (md_inet6Range m)) ++
  marshal_element (addr_marshal (md_inet4Current m)) ++
  marshal_element (addr_marshal (md_inet6Current m)).

(** Decoding fails with an error, or panics where the code has [common.Must]. *)
Inductive decode_fault : Type :=
| FaultPanic (e : io_error)
| FaultErr (e : io_error).

Definition unmarshal_element {A} (decode : bytes → option A) (l : bytes) : decode_fault + (A * bytes) :=
  match ReadUint16 l with
  | inl e => inl (FaultPanic e)
  | inr (n, l) =>
      match ReadFull (Z.to_nat n) l with
      | inl e => inl (FaultErr e)
      | inr (element, l) =>
          match decode element with
          | None => inl (FaultErr (ErrMsg "unexpected slice size"))
          | Some a => inr (a, l)
          end
      end
  end.

Definition UnmarshalBinary (data : bytes) : decode_fault + FakeIPMetadata :=
  match unmarshal_element prefix_unmarshal data with
  | inl e => inl e
  | inr (r4, l) =>
      match unmarshal_element prefix_unmarshal l with
      | inl e => inl e
      | inr (r6, l) =>
          match unmarshal_element addr_unmarshal l with
          | inl e => inl e
          | inr (c4, l) =>
              match unmarshal_element addr_unmarshal l with
              | inl e => inl e
              | inr (c6, _) => inr (mkMetadata r4 r6 c4 c6)
              end
          end
      end
  end.

(** The values of [netip] with a zone short enough for the 16-bit length. *)
Definition addr_short (a : Addr) : Prop :=
  addr_wf a ∧ match a with AddrV6 _ z => Z.of_nat (String.length z) < 65000 | _ => True end.
Definition metadata_wf (m : FakeIPMetadata) : Prop :=
  prefix_wf (md_inet4Range m) ∧ prefix_wf (md_inet6Range m) ∧
  addr_short (md_inet4Current m) ∧ addr_short (md_inet6Current m).

Lemma addr_round_trip a : addr_wf a → addr_unmarshal (addr_marshal a) = Some a.
Proof.
  destruct a as [|v|v z]; intros Ha; unfold addr_unmarshal; [done | |].
  - cbn [addr_marshal]. rewrite be_bytes_length.
    rewrite decide_False, decide_True, (be_value_bytes 4), Z.mod_small by done. done.
  - cbn [addr_marshal]. rewrite length_app, be_bytes_length.
    rewrite decide_False, decide_False, decide_True by lia.
    rewrite take_app_length', drop_app_length' by by rewrite be_bytes_length.
    rewrite bytes_string_bytes, (be_value_bytes 16), Z.mod_small by done. done.
Qed.

Lemma without_zone_id a : has_zone a = false → without_zone a = a.
Proof.
  destruct a as [|v|v z]; [done.. |]. simpl. intros Hz. boolprop.
  apply String.eqb_eq in Hz. by subst.
Qed.

Lemma prefix_round_trip p : prefix_wf p → prefix_unmarshal (prefix_marshal p) = Some p.
Proof.
  destruct p as [a b]. intros (Ha & Hz & Hb & H0). unfold prefix_unmarshal, prefix_marshal.
  cbn [prefix_addr prefix_bits] in *. rewrite without_zone_id by done.
  rewrite last_snoc, length_app. simpl length.
  rewrite Nat.add_sub, take_app_length, addr_round_trip by done. simpl. f_equal.
  assert (0 ≤ b → u8 b = b). { intros. apply u8_id. unfold fits. destruct a; simpl in Hb; lia. }
  destruct a as [|v|v z]; unfold prefix_from.
  - by rewrite H0.
  - simpl. f_equal. destruct (decide (b = -1)) as [-> |]; [done |]. simpl in Hb.
    rewrite H by lia. by assert ((b <? 0) || (32 <? b) = false) as -> by lia.
  - rewrite without_zone_id by done. f_equal. simpl. destruct (decide (b = -1)) as [-> |]; [done |]. simpl in Hb.
    rewrite H by lia. by assert ((b <? 0) || (128 <? b) = false) as -> by lia.
Qed.

Lemma element_round_trip {A} (decode : bytes → option A) data a rest :
  Z.of_nat (length data) < 2 ^ 16 → decode data = Some a →
  unmarshal_element decode (marshal_element data ++ rest) = inr (a, rest).
Proof.
  intros Hlen Hd. unfold unmarshal_element, marshal_element. unfold u16.
  rewrite Z.mod_small, <- app_assoc by lia.
  rewrite ReadUint16_decodes by (unfold fits; lia). rewrite Nat2Z.id. unfold ReadFull.
  rewrite length_app. destruct (Nat.ltb_spec (length data + length rest) (length data)); [lia |].
  by rewrite take_app_length, drop_app_length, Hd.
Qed.

Lemma addr_marshal_length a : addr_short a → Z.of_nat (length (addr_marshal a)) < 65100.
Proof.
  intros [_ Hs]. destruct a as [|v|v z]; [done | cbn [addr_marshal]; by rewrite be_bytes_length |].
  cbn [addr_marshal]. rewrite length_app, be_bytes_length, string_bytes_length. lia.
Qed.

Lemma prefix_marshal_length p : prefix_wf p → Z.of_nat (length (prefix_marshal p)) < 65200.
Proof.
  intros (Ha & Hz & _). unfold prefix_marshal. rewrite without_zone_id, length_app by done.
  assert (addr_short (prefix_addr p)) as Hl%addr_marshal_length.
  { split; [done |]. destruct (prefix_addr p) as [|v|v z]; [done.. |].
    simpl in Hz. boolprop. apply String.eqb_eq in Hz. by subst z. }
  simpl length at 2. lia.
Qed.

(** The metadata written to the cache file is read back as it was. *)
Theorem metadata_round_trip m : metadata_wf m → UnmarshalBinary (MarshalBinary m) = inr m.
Proof.
  destruct m as [r4 r6 c4 c6]. intros (H4 & H6 & Hc4 & Hc6). unfold UnmarshalBinary, MarshalBinary.
  cbn [md_inet4Range md_inet6Range md_inet4Current md_inet6Current] in *.
  rewrite (element_round_trip prefix_unmarshal _ r4);
    [| pose proof (prefix_marshal_length r4 H4); lia | by apply prefix_round_trip].
  rewrite (element_round_trip prefix_unmarshal _ r6);
    [| pose proof (prefix_marshal_length r6 H6); lia | by apply prefix_round_trip].
  rewrite (element_round_trip addr_unmarshal _ c4);
    [| pose proof (addr_marshal_length c4 Hc4); lia | by apply addr_round_trip, Hc4].
  rewrite <- (app_nil_r (marshal_element (addr_marshal c6))).
  rewrite (element_round_trip addr_unmarshal _ c6);
    [done | pose proof (addr_marshal_length c6 Hc6); lia | by apply addr_round_trip, Hc6].
Qed.

Lemma metadata_round_trip_witness :
  UnmarshalBinary (MarshalBinary (mkMetadata (mkPrefix (AddrV4 0xc6120000) 15) prefix_zero (AddrV4 0xc6120007) AddrZero))
  = inr (mkMetadata (mkPrefix (AddrV4 0xc6120000) 15) prefix_zero (AddrV4 0xc6120007) AddrZero).
Proof.
  apply metadata_round_trip. unfold metadata_wf, prefix_wf, addr_short, fits. simpl.
  repeat split; done.
Defined.

(** ** The storage interface *)

(** [adapter.FakeIPStorage].  Reading the metadata may change the storage (the
    cache file deletes it); an error of [FakeIPStore] is a message. *)
Class FakeIPStorage (St : Type) : Type := {
  FakeIPMetadata_read : St → St * option FakeIPMetadata;
  FakeIPSaveMetadata : St → FakeIPMetadata → St * option string;
  FakeIPSaveMetadataAsync : St → FakeIPMetadata → St;
  FakeIPStore : St → Addr → string → St * option string;
  FakeIPLoad : St → Addr → option string;
  FakeIPLoadDomain : St → string → bool → option Addr;
  FakeIPReset : St → St * option string }.

(** Two storages that answer every load alike. *)
Definition same_loads `{FakeIPStorage St} (s t : St) : Prop :=
  (∀ a, FakeIPLoad s a = FakeIPLoad t a) ∧ (∀ d v6, FakeIPLoadDomain s d v6 = FakeIPLoadDomain t d v6).

(** What a storage promises.  [saved s m] says that reading the metadata of [s]
    may give [m]; reading takes it out. *)
Class FakeIPStorageLaws (St : Type) `{FakeIPStorage St} : Type := {
  saved : St → FakeIPMetadata → Prop;
  saved_read s s' m : FakeIPMetadata_read s = (s', Some m) → saved s m;
  saved_read_consumes s m : ¬ saved (FakeIPMetadata_read s).1 m;
  saved_save s m m' : saved (FakeIPSaveMetadata s m).1 m' → m' = m ∨ saved s m';
  saved_async s m m' : saved (FakeIPSaveMetadataAsync s m) m' → m' = m ∨ saved s m';
  saved_store s a d m : saved (FakeIPStore s a d).1 m → saved s m;
  saved_reset s m : saved (FakeIPReset s).1 m → saved s m;
  read_loads s : same_loads (FakeIPMetadata_read s).1 s;
  save_loads s m : same_loads (FakeIPSaveMetadata s m).1 s;
  async_loads s m : same_loads (FakeIPSaveMetadataAsync s m) s;
  store_load s s' a d a' :
    FakeIPStore s a d = (s', None) →
    FakeIPLoad s' a' = if decide (a' = a) then Some d else FakeIPLoad s a';
  store_load_domain s s' a d d' v6 :
    FakeIPStore s a d = (s', None) →
    FakeIPLoadDomain s' d' v6 =
      if decide (v6 = negb (is4 a)) then
        if decide (d' = d) then Some a
        else if decide (FakeIPLoad s a = Some d') then None else FakeIPLoadDomain s d' v6
      else FakeIPLoadDomain s d' v6;
  reset_error s s' e : FakeIPReset s = (s', Some e) → same_loads s' s;
  store_error s s' a d e : FakeIPStore s a d = (s', Some e) → same_loads s' s;
  reset_loads s s' :
    FakeIPReset s = (s', None) →
    (∀ a, FakeIPLoad s' a = None) ∧ (∀ d v6, FakeIPLoadDomain s' d v6 = None) }.

(** *** [MemoryStorage] *)

Record MemoryStorage : Type := mkMemoryStorage {
  addressCache : gmap Addr string;
  domainCache4 : gmap string Addr;
  domainCache6 : gmap string Addr;
}.

Definition NewMemoryStorage : MemoryStorage := mkMemoryStorage ∅ ∅ ∅.

Definition mem_FakeIPMetadata (s : MemoryStorage) : MemoryStorage * option FakeIPMetadata := (s, None).
Definition mem_FakeIPSaveMetadata (s : MemoryStorage) (m : FakeIPMetadata) : MemoryStorage * option string := (s, None).
Definition mem_FakeIPSaveMetadataAsync (s : MemoryStorage) (m : FakeIPMetadata) : MemoryStorage := s.

Definition mem_FakeIPStore (s : MemoryStorage) (address : Addr) (domain : string) : MemoryStorage * option string :=
  let s :=
    match addressCache s !! address with
    | Some oldDomain =>
        if is4 address
        then mkMemoryStorage (addressCache s) (delete oldDomain (domainCache4 s)) (domainCache6 s)
        else mkMemoryStorage (addressCache s) (domainCache4 s) (delete oldDomain (domainCache6 s))
    | None => s
    end in
  let addresses := <[address := domain]> (addressCache s) in
  (if is4 address
   then mkMemoryStorage addresses (<[domain := address]> (domainCache4 s)) (domainCache6 s)
   else mkMemoryStorage addresses (domainCache4 s) (<[domain := address]> (domainCache6 s)),
   None).

Definition mem_FakeIPStoreAsync (s : MemoryStorage) (address : Addr) (domain : string) : MemoryStorage :=
  (mem_FakeIPStore s address domain).1.

Definition mem_FakeIPLoad (s : MemoryStorage) (address : Addr) : option string := addressCache s !! address.

Definition mem_FakeIPLoadDomain (s : MemoryStorage) (domain : string) (isIPv6 : bool) : option Addr :=
  if negb isIPv6 then domainCache4 s !! domain else domainCache6 s !! domain.

Definition mem_FakeIPReset (s : MemoryStorage) : MemoryStorage * option string :=
  (mkMemoryStorage ∅ ∅ ∅, None).

#[global] Instance memory_storage : FakeIPStorage MemoryStorage := {|
  FakeIPMetadata_read := mem_FakeIPMetadata;
  FakeIPSaveMetadata := mem_FakeIPSaveMetadata;
  FakeIPSaveMetadataAsync := mem_FakeIPSaveMetadataAsync;
  FakeIPStore := mem_FakeIPStore;
  FakeIPLoad := mem_FakeIPLoad;
  FakeIPLoadDomain := mem_FakeIPLoadDomain;
  FakeIPReset := mem_FakeIPReset |}.

Lemma mem_store_load_domain s a d d' v6 :
  mem_FakeIPLoadDomain (mem_FakeIPStore s a d).1 d' v6 =
    if decide (v6 = negb (is4 a)) then
      if decide (d' = d) then Some a
      else if decide (mem_FakeIPLoad s a = Some d') then None else mem_FakeIPLoadDomain s d' v6
    else mem_FakeIPLoadDomain s d' v6.
Proof.
  unfold mem_FakeIPStore, mem_FakeIPLoadDomain, mem_FakeIPLoad.
  destruct (addressCache s !! a) as [old |], (is4 a), v6; simpl; try done.
  all: destruct (decide (d' = d)) as [-> | Hd]; [by simplify_map_eq |].
  all: rewrite ?lookup_insert_ne by done; repeat case_decide; simplify_map_eq; try done.
  all: by rewrite lookup_delete_ne by congruence.
Qed.

#[global] Instance memory_storage_laws : FakeIPStorageLaws MemoryStorage.
Proof.
  refine {| saved := λ _ _, False |}; try (intros; done); try (by intros ? ? ?); try (intros; by right); try (intros; by left).
  - intros s s' a d a' [= <-]. simpl. unfold mem_FakeIPLoad, mem_FakeIPStore.
    destruct (addressCache s !! a) eqn:E, (is4 a); simpl; case_decide; subst;
      by rewrite ?lookup_insert_eq, ?lookup_insert_ne by done.
  - intros s s' a d d' v6 Hs. change (mem_FakeIPStore s a d = (s', None)) in Hs.
    pose proof (mem_store_load_domain s a d d' v6) as H. by rewrite Hs in H.
  - intros s s' [= <-]. split; [done |]. intros d []; done.
Defined.

(** A Go interface value holds one of several implementations: the cache file
    or the memory storage. *)
#[global] Instance sum_storage `{FakeIPStorage St, FakeIPStorage T} : FakeIPStorage (St + T) := {|
  FakeIPMetadata_read := λ s, match s with
    | inl s => prod_map inl id (FakeIPMetadata_read s)
    | inr s => prod_map inr id (FakeIPMetadata_read s) end;
  FakeIPSaveMetadata := λ s m, match s with
    | inl s => prod_map inl id (FakeIPSaveMetadata s m)
    | inr s => prod_map inr id (FakeIPSaveMetadata s m) end;
  FakeIPSaveMetadataAsync := λ s m, match s with
    | inl s => inl (FakeIPSaveMetadataAsync s m)
    | inr s => inr (FakeIPSaveMetadataAsync s m) end;
  FakeIPStore := λ s a d, match s with
    | inl s => prod_map inl id (FakeIPStore s a d)
    | inr s => prod_map inr id (FakeIPStore s a d) end;
  FakeIPLoad := λ s a, match s with inl s => FakeIPLoad s a | inr s => FakeIPLoad s a end;
  FakeIPLoadDomain := λ s d v6, match s with
    | inl s => FakeIPLoadDomain s d v6 | inr s => FakeIPLoadDomain s d v6 end;
  FakeIPReset := λ s, match s with
    | inl s => prod_map inl id (FakeIPReset s)
    | inr s => prod_map inr id (FakeIPReset s) end |}.

#[global] Instance sum_storage_laws `{FakeIPStorageLaws St, FakeIPStorageLaws T} : FakeIPStorageLaws (St + T).
Proof.
  refine {| saved := λ s m, match s with inl s => saved s m | inr s => saved s m end |};
    intros [s|s]; simpl.
  all: try solve [apply saved_read_consumes | apply saved_save | apply saved_async | apply saved_store | apply saved_reset].
  all: try solve [split; simpl; [apply read_loads | apply read_loads] | split; simpl; [apply save_loads | apply save_loads]
                 | split; simpl; [apply async_loads | apply async_loads]].
  - intros s' m. destruct (FakeIPMetadata_read s) eqn:E. intros [= <- ->]. by eapply saved_read.
  - intros s' m. destruct (FakeIPMetadata_read s) eqn:E. intros [= <- ->]. by eapply saved_read.
  - intros s' a d a'. destruct (FakeIPStore s a d) eqn:E. intros [= <- ->]. by eapply store_load.
  - intros s' a d a'. destruct (FakeIPStore s a d) eqn:E. intros [= <- ->]. by eapply store_load.
  - intros s' a d d' v6. destruct (FakeIPStore s a d) eqn:E. intros [= <- ->]. by eapply store_load_domain.
  - intros s' a d d' v6. destruct (FakeIPStore s a d) eqn:E. intros [= <- ->]. by eapply store_load_domain.
  - intros s' e. destruct (FakeIPReset s) eqn:E. intros [= <- ->].
    split; simpl; by eapply reset_error.
  - intros s' e. destruct (FakeIPReset s) eqn:E. intros [= <- ->].
    split; simpl; by eapply reset_error.
  - intros s' a d e. destruct (FakeIPStore s a d) eqn:E. intros [= <- ->].
    split; simpl; by eapply store_error.
  - intros s' a d e. destruct (FakeIPStore s a d) eqn:E. intros [= <- ->].
    split; simpl; by eapply store_error.
  - intros s'. destruct (FakeIPReset s) eqn:E. intros [= <- ->]. by eapply reset_loads.
  - intros s'. destruct (FakeIPReset s) eqn:E. intros [= <- ->]. by eapply reset_loads.
Defined.

#[global] Arguments FakeIPMetadata_read : simpl never.
#[global] Arguments FakeIPSaveMetadata : simpl never.
#[global] Arguments FakeIPSaveMetadataAsync : simpl never.
#[global] Arguments FakeIPStore : simpl never.
#[global] Arguments FakeIPLoad : simpl never.
#[global] Arguments FakeIPLoadDomain : simpl never.
#[global] Arguments FakeIPReset : simpl never.

(** ** The store *)

Record Store (St : Type) : Type := mkStore {
  inet4Range : Prefix;
  inet6Range : Prefix;
  inet4Last : Addr;
  inet6Last : Addr;
  storage : option St;
  inet4Current : Addr;
  inet6Current : Addr;
}.
Arguments mkStore {St}.
Arguments inet4Range {St}.
Arguments inet6Range {St}.
Arguments inet4Last {St}.
Arguments inet6Last {St}.
Arguments storage {St}.
Arguments inet4Current {St}.
Arguments inet6Current {St}.

Definition NewStore {St} (inet4Range inet6Range : Prefix) : Store St :=
  mkStore inet4Range inet6Range
    (if prefix_is_valid inet4Range then broadcastAddress inet4Range else AddrZero)
    (if prefix_is_valid inet6Range then broadcastAddress inet6Range else AddrZero)
    None AddrZero AddrZero.

(** The next address of a ring: the first usable address again at the end. *)
Definition nextAddress (current last : Addr) (range : Prefix) : Addr :=
  let next := addr_next current in
  if bool_decide (next = last) || negb (prefix_contains range next)
  then addr_next (addr_next (prefix_addr range))
  else next.

Definition current_metadata {St} (s : Store St) : FakeIPMetadata :=
  mkMetadata (inet4Range s) (inet6Range s) (inet4Current s) (inet6Current s).

Definition with_storage {St} (s : Store St) (st : St) : Store St :=
  mkStore (inet4Range s) (inet6Range s) (inet4Last s) (inet6Last s) (Some st) (inet4Current s) (inet6Current s).

Section store.
Context {C : Type} `{HC : FakeIPStorageLaws C}.
Abbreviation St := (C + MemoryStorage)%type.
Implicit Types (s : Store St) (st : St).

(** [cacheFile]: the cache file of the context, if any, and whether it stores
    FakeIP entries. *)
Definition Start s (cacheFile : option (C * bool)) : Store St :=
  let st : St := match cacheFile with Some (c, true) => inl c | _ => inr NewMemoryStorage end in
  let '(st, metadata) := FakeIPMetadata_read st in
  let fresh :=
    mkStore (inet4Range s) (inet6Range s) (inet4Last s) (inet6Last s) (Some (FakeIPReset st).1)
      (if prefix_is_valid (inet4Range s) then addr_next (prefix_addr (inet4Range s)) else inet4Current s)
      (if prefix_is_valid (inet6Range s) then addr_next (prefix_addr (inet6Range s)) else inet6Current s) in
  match metadata with
  | Some m =>
      if bool_decide (md_inet4Range m = inet4Range s) && bool_decide (md_inet6Range m = inet6Range s)
      then mkStore (inet4Range s) (inet6Range s) (inet4Last s) (inet6Last s) (Some st)
             (md_inet4Current m) (md_inet6Current m)
      else fresh
  | None => fresh
  end.

Definition Contains s (address : Addr) : bool :=
  prefix_contains (inet4Range s) address || prefix_contains (inet6Range s) address.

Definition Close s : Store St * option string :=
  match storage s with
  | None => (s, None)
  | Some st => let '(st, err) := FakeIPSaveMetadata st (current_metadata s) in (with_storage s st, err)
  end.

(** The part of [Create] that holds [addressAccess]. *)
Definition Create_locked s st (domain : string) (isIPv6 : bool) : Store St * result Addr :=
  match FakeIPLoadDomain st domain isIPv6 with
  | Some address => (s, Ok address)
  | None =>
      let allocate (s : Store St) (address : Addr) : Store St * result Addr :=
        let '(st, err) := FakeIPStore st address domain in
        let st := FakeIPSaveMetadataAsync st (current_metadata s) in
        (with_storage s st, Ok address) in
      if negb isIPv6 then
        if negb (addr_is_valid (inet4Current s)) then (s, Err "missing IPv4 fakeip address range") else
        let next := nextAddress (inet4Current s) (inet4Last s) (inet4Range s) in
        allocate (mkStore (inet4Range s) (inet6Range s) (inet4Last s) (inet6Last s) (storage s) next (inet6Current s)) next
      else
        if negb (addr_is_valid (inet6Current s)) then (s, Err "missing IPv6 fakeip address range") else
        let next := nextAddress (inet6Current s) (inet6Last s) (inet6Range s) in
        allocate (mkStore (inet4Range s) (inet6Range s) (inet4Last s) (inet6Last s) (storage s) (inet4Current s) next) next
  end.

(** [None]: the storage is nil ([Start] has not run) and the call panics. *)
Definition Create s (domain : string) (isIPv6 : bool) : option (Store St * result Addr) :=
  match storage s with
  | None => None
  | Some st =>
      match FakeIPLoadDomain st domain isIPv6 with
      | Some address => Some (s, Ok address)
      | None => Some (Create_locked s st domain isIPv6)
      end
  end.

Definition Lookup s (address : Addr) : option string :=
  match storage s with None => None | Some st => FakeIPLoad st address end.

Definition Reset s : option (Store St * option string) :=
  match storage s with
  | None => None
  | Some st => let '(st, err) := FakeIPReset st in Some (with_storage s st, err)
  end.
End store.

(** ** The ring of usable addresses *)

(** The address of a family with a value. *)
Definition addr_of (v6 : bool) (x : Z) : Addr := if v6 then AddrV6 x "" else AddrV4 x.

Definition base (p : Prefix) : Z := addr_value (prefix_addr p).

(** A range that leaves a usable address between the two reserved ones and the
    broadcast address. *)
Definition range_ok (v6 : bool) (p : Prefix) : Prop :=
  prefix_wf p ∧ prefix_is_valid p = true ∧ is4 (prefix_addr p) = negb v6 ∧ base p + 2 < range_last p.

Definition configured (v6 : bool) (p : Prefix) (last : Addr) : Prop :=
  prefix_is_valid p = false ∨ (range_ok v6 p ∧ last = broadcastAddress p).

(** The addresses a range may hand out, and the values of its cursor. *)
Definition usable (v6 : bool) (p : Prefix) (a : Addr) : Prop :=
  prefix_is_valid p = true ∧ ∃ x, a = addr_of v6 x ∧ base p + 2 ≤ x < range_last p.
Definition cursor_ok (v6 : bool) (p : Prefix) (a : Addr) : Prop :=
  if prefix_is_valid p then ∃ x, a = addr_of v6 x ∧ base p + 1 ≤ x < range_last p
  else a = AddrZero.

(** The number of addresses of the ring, and the position of a value in it. *)
Definition capacity (p : Prefix) : Z := range_last p - (base p + 2).
Definition ring_step (p : Prefix) (x : Z) : Z := if x + 1 =? range_last p then base p + 2 else x + 1.

Lemma range_ok_addr v6 p : range_ok v6 p → prefix_addr p = addr_of v6 (base p).
Proof.
  intros ((_ & Hz & _ & H0) & Hv & Hf & _). unfold base, addr_of. unfold prefix_is_valid in Hv. boolprop.
  destruct (prefix_addr p) as [|v|v z] eqn:E, v6; simpl in *; try done; [specialize (H0 eq_refl); lia.. |].
  boolprop. apply String.eqb_eq in Hz. by subst.
Qed.

Lemma range_ok_width v6 p : range_ok v6 p → bit_len (prefix_addr p) = if v6 then 128 else 32.
Proof. intros Hr. rewrite (range_ok_addr v6 p Hr). by destruct v6. Qed.

(** The block of a range: its last address, and the test [Contains]. *)
Lemma range_block v6 p :
  range_ok v6 p →
  0 ≤ host_bits p ∧ range_last p = base p / 2 ^ host_bits p * 2 ^ host_bits p + 2 ^ host_bits p - 1
  ∧ 0 ≤ base p ≤ range_last p ∧ range_last p < 2 ^ (if v6 then 128 else 32).
Proof.
  intros Hr. pose proof (range_ok_width _ _ Hr) as Hw. pose proof (range_ok_addr _ _ Hr) as Ha.
  destruct Hr as ((Hwf & _ & Hb & _) & Hv & _ & Hroom). unfold prefix_is_valid in Hv. boolprop.
  assert (Hh : 0 ≤ host_bits p ≤ if v6 then 128 else 32) by (unfold host_bits; lia).
  assert (Hbase : fits (if v6 then 128 else 32) (base p)).
  { unfold base in *. rewrite Ha in Hwf. by destruct v6. }
  unfold fits in Hbase. set (w := if v6 then 128 else 32) in *.
  assert (Heq : range_last p = base p / 2 ^ host_bits p * 2 ^ host_bits p + 2 ^ host_bits p - 1).
  { unfold range_last, base. rewrite Z.shiftl_mul_pow2, Z.shiftr_div_pow2 by lia. done. }
  split_and!; [lia | done | lia | lia |]. rewrite Heq.
  assert (0 < 2 ^ host_bits p) by lia.
  assert (2 ^ w = 2 ^ (w - host_bits p) * 2 ^ host_bits p) as Hsplit by (rewrite <- Z.pow_add_r by lia; f_equal; lia).
  assert (base p / 2 ^ host_bits p < 2 ^ (w - host_bits p)).
  { apply Z.div_lt_upper_bound; [lia |]. rewrite Z.mul_comm, <- Hsplit. lia. }
  rewrite Hsplit. nia.
Qed.

Lemma range_contains v6 p x :
  range_ok v6 p → 0 ≤ x →
  prefix_contains p (addr_of v6 x) = bool_decide (base p / 2 ^ host_bits p = x / 2 ^ host_bits p).
Proof.
  intros Hr Hx. pose proof (range_ok_width _ _ Hr) as Hw. pose proof (range_block _ _ Hr) as (Hh & _).
  destruct Hr as (_ & Hv & _ & _). unfold prefix_contains. rewrite Hv. simpl negb.
  assert (has_zone (addr_of v6 x) = false) as -> by by destruct v6.
  assert (Hwx : bit_len (addr_of v6 x) = bit_len (prefix_addr p)) by (rewrite Hw; by destruct v6).
  rewrite Hwx, Z.eqb_refl. fold (host_bits p). simpl orb.
  assert ((bit_len (prefix_addr p) =? 0) = false) as -> by (rewrite Hw; by destruct v6).
  simpl. rewrite !Z.shiftr_div_pow2 by lia. fold (base p).
  assert (addr_value (addr_of v6 x) = x) as -> by by destruct v6.
  case_bool_decide; [by apply Z.eqb_eq | by apply Z.eqb_neq].
Qed.

(** Membership is an interval that ends at the last address. *)
Lemma range_contains_above v6 p x :
  range_ok v6 p → base p ≤ x → prefix_contains p (addr_of v6 x) = bool_decide (x ≤ range_last p).
Proof.
  intros Hr Hx. destruct (range_block _ _ Hr) as (Hh & Hl & Hb & _).
  rewrite (range_contains v6) by (done || lia). apply bool_decide_ext.
  assert (0 < 2 ^ host_bits p) by lia. rewrite Hl.
  pose proof (Z.div_mod (base p) (2 ^ host_bits p)). pose proof (Z.mod_pos_bound (base p) (2 ^ host_bits p)).
  pose proof (Z.div_mod x (2 ^ host_bits p)). pose proof (Z.mod_pos_bound x (2 ^ host_bits p)).
  pose proof (Z.div_le_mono (base p) x (2 ^ host_bits p)). split; [intros E; rewrite E in *; lia | nia].
Qed.

Lemma broadcast_of v6 p : range_ok v6 p → broadcastAddress p = addr_of v6 (range_last p).
Proof.
  intros Hr. rewrite broadcastAddress_value by apply Hr. rewrite (range_ok_addr v6 p Hr). by destruct v6.
Qed.

Lemma addr_next_of (v6 : bool) x :
  0 ≤ x → x + 1 < 2 ^ (if v6 then 128 else 32) → addr_next (addr_of v6 x) = addr_of v6 (x + 1).
Proof.
  intros Hx Hb. destruct v6; simpl.
  - destruct (x + 1 =? 2 ^ 128) eqn:E; boolprop; [lia | done].
  - destruct (x + 1 =? 2 ^ 32) eqn:E; boolprop; [lia | done].
Qed.

(** The step of the code is the step of the ring. *)
Lemma nextAddress_ring v6 p x :
  range_ok v6 p → base p + 1 ≤ x < range_last p →
  nextAddress (addr_of v6 x) (broadcastAddress p) p = addr_of v6 (ring_step p x).
Proof.
  intros Hr Hx. destruct (range_block _ _ Hr) as (Hh & Hl & Hb & Hw).
  assert (base p + 2 < range_last p) by apply Hr.
  unfold nextAddress, ring_step. rewrite (broadcast_of v6), addr_next_of by (done || lia).
  rewrite (range_contains_above v6) by (done || lia). rewrite (range_ok_addr v6 p Hr) at 1.
  rewrite !addr_next_of by lia.
  rewrite (bool_decide_eq_true_2 (x + 1 ≤ range_last p)) by lia. rewrite orb_false_r.
  destruct (x + 1 =? range_last p) eqn:E; boolprop; case_bool_decide as Hn; try done.
  - f_equal. lia.
  - destruct Hn. by rewrite E.
  - destruct E. destruct v6; by injection Hn.
Qed.

Lemma ring_step_usable p x :
  base p + 2 < range_last p → base p + 1 ≤ x < range_last p → base p + 2 ≤ ring_step p x < range_last p.
Proof. intros Hr Hx. unfold ring_step. destruct (x + 1 =? range_last p) eqn:E; boolprop; lia. Qed.

(** ** The invariant of the store *)

Section invariant.
Context {C : Type} `{HC : FakeIPStorageLaws C}.
Abbreviation St := (C + MemoryStorage)%type.
Implicit Types (s : Store St) (st : St).

(** The two directions of the table agree. *)
Definition table_ok st : Prop := ∀ a d v6,
  FakeIPLoadDomain st d v6 = Some a ↔ FakeIPLoad st a = Some d ∧ v6 = negb (is4 a).

Definition entries_ok (r4 r6 : Prefix) st : Prop := ∀ a d,
  FakeIPLoad st a = Some d → usable false r4 a ∨ usable true r6 a.

Definition metadata_ok (r4 r6 : Prefix) (m : FakeIPMetadata) : Prop :=
  md_inet4Range m = r4 ∧ md_inet6Range m = r6 ∧
  cursor_ok false r4 (md_inet4Current m) ∧ cursor_ok true r6 (md_inet6Current m).

Definition storage_ok (r4 r6 : Prefix) st : Prop :=
  table_ok st ∧ entries_ok r4 r6 st ∧ ∀ m, saved st m → metadata_ok r4 r6 m.

Definition store_ok s : Prop :=
  configured false (inet4Range s) (inet4Last s) ∧ configured true (inet6Range s) (inet6Last s) ∧
  metadata_ok (inet4Range s) (inet6Range s) (current_metadata s) ∧
  ∃ st, storage s = Some st ∧ storage_ok (inet4Range s) (inet6Range s) st.

Lemma table_ok_loads st st' : same_loads st' st → table_ok st → table_ok st'.
Proof. intros [H1 H2] Ht a d v6. rewrite H1, H2. apply Ht. Qed.

Lemma entries_ok_loads r4 r6 st st' : same_loads st' st → entries_ok r4 r6 st → entries_ok r4 r6 st'.
Proof. intros [H1 _] He a d. rewrite H1. apply He. Qed.

(** Storing a domain that has no address keeps the table two-way consistent:
    the previous domain of a reused address loses its entry. *)
Lemma table_ok_store st st' a d err :
  table_ok st → FakeIPLoadDomain st d (negb (is4 a)) = None →
  FakeIPStore st a d = (st', err) → table_ok st'.
Proof.
  intros Ht Hd Hs. destruct err as [e |]; [by eapply table_ok_loads; [eapply store_error |] |].
  intros a' d' v6. rewrite (store_load_domain _ _ _ _ _ _ Hs), (store_load _ _ _ _ _ Hs).
  destruct (decide (v6 = negb (is4 a))) as [-> | Hv].
  - destruct (decide (d' = d)) as [-> | Hne].
    + destruct (decide (a' = a)) as [-> | Ha]; [done |].
      rewrite <- (Ht a' d (negb (is4 a))), Hd. naive_solver.
    + destruct (decide (FakeIPLoad st a = Some d')) as [Hl | Hl].
      * destruct (decide (a' = a)) as [-> | Ha]; [split; [done | intros [? _]; congruence] |].
        assert (Hda : FakeIPLoadDomain st d' (negb (is4 a)) = Some a) by by apply Ht.
        rewrite <- (Ht a' d' (negb (is4 a))), Hda. naive_solver.
      * rewrite (Ht a' d' _). destruct (decide (a' = a)) as [-> | Ha]; [| done].
        split; intros [? _]; congruence.
  - rewrite (Ht a' d' _). destruct (decide (a' = a)) as [-> | Ha]; [| done].
    split; intros [_ ?]; congruence.
Qed.

(** *** Both families at once *)

Definition range_of_family (v6 : bool) s : Prefix := if v6 then inet6Range s else inet4Range s.
Definition last_of_family (v6 : bool) s : Addr := if v6 then inet6Last s else inet4Last s.
Definition cursor (v6 : bool) s : Addr := if v6 then inet6Current s else inet4Current s.
Definition set_cursor (v6 : bool) s (a : Addr) : Store St :=
  if v6 then mkStore (inet4Range s) (inet6Range s) (inet4Last s) (inet6Last s) (storage s) (inet4Current s) a
  else mkStore (inet4Range s) (inet6Range s) (inet4Last s) (inet6Last s) (storage s) a (inet6Current s).

Lemma store_ok_family v6 s :
  store_ok s →
  configured v6 (range_of_family v6 s) (last_of_family v6 s) ∧
  cursor_ok v6 (range_of_family v6 s) (cursor v6 s).
Proof. intros (H4 & H6 & (_ & _ & Hc4 & Hc6) & _). by destruct v6. Qed.

(** The outcomes of [Create]: known, no range, or a new address. *)
Inductive created s (d : string) (v6 : bool) : Store St → result Addr → Prop :=
| created_known st a :
    storage s = Some st → FakeIPLoadDomain st d v6 = Some a → created s d v6 s (Ok a)
| created_missing st msg :
    storage s = Some st → FakeIPLoadDomain st d v6 = None → cursor v6 s = AddrZero →
    created s d v6 s (Err msg)
| created_new st st' err :
    let next := nextAddress (cursor v6 s) (last_of_family v6 s) (range_of_family v6 s) in
    let s' := set_cursor v6 s next in
    storage s = Some st → FakeIPLoadDomain st d v6 = None → cursor v6 s ≠ AddrZero →
    FakeIPStore st next d = (st', err) →
    created s d v6 (with_storage s' (FakeIPSaveMetadataAsync st' (current_metadata s'))) (Ok next).

Lemma Create_locked_cases s st d v6 :
  storage s = Some st → created s d v6 (Create_locked s st d v6).1 (Create_locked s st d v6).2.
Proof.
  intros Hst. unfold Create_locked. destruct (FakeIPLoadDomain st d v6) as [a |] eqn:Hd; [by eapply created_known |].
  destruct v6; cbn [negb].
  - destruct (addr_is_valid (inet6Current s)) eqn:Hv; cbn [negb].
    2: { eapply created_missing; [done.. |]. simpl. by destruct (inet6Current s). }
    destruct (FakeIPStore st _ d) as [st' err] eqn:Hs.
    eapply (created_new s d true); [done.. | simpl; by destruct (inet6Current s) | done].
  - destruct (addr_is_valid (inet4Current s)) eqn:Hv; cbn [negb].
    2: { eapply created_missing; [done.. |]. simpl. by destruct (inet4Current s). }
    destruct (FakeIPStore st _ d) as [st' err] eqn:Hs.
    eapply (created_new s d false); [done.. | simpl; by destruct (inet4Current s) | done].
Qed.

Lemma Create_cases s d v6 s' r : Create s d v6 = Some (s', r) → created s d v6 s' r.
Proof.
  unfold Create. destruct (storage s) as [st |] eqn:Hst; [| done].
  pose proof (Create_locked_cases s st d v6 Hst) as Hc.
  destruct (FakeIPLoadDomain st d v6) as [a |] eqn:Hd.
  - intros [= <- <-]. by eapply created_known.
  - destruct (Create_locked s st d v6) as [s1 r1]. by intros [= <- <-].
Qed.

(** A new address is a usable address of its range. *)
Lemma next_usable v6 s :
  store_ok s → cursor v6 s ≠ AddrZero →
  let next := nextAddress (cursor v6 s) (last_of_family v6 s) (range_of_family v6 s) in
  usable v6 (range_of_family v6 s) next.
Proof.
  intros Hs Hc. destruct (store_ok_family v6 s Hs) as [Hcfg Hcur]. simpl. unfold cursor_ok in Hcur.
  destruct (prefix_is_valid (range_of_family v6 s)) eqn:Hv; [| done].
  destruct Hcur as (x & Hx & Hb). destruct Hcfg as [Hcfg | [Hr ->]]; [congruence |].
  rewrite Hx, nextAddress_ring by done. split; [done |]. eexists. split; [done |].
  apply ring_step_usable; [apply Hr | done].
Qed.

Lemma usable_family v6 p a : usable v6 p a → negb (is4 a) = v6 ∧ a ≠ AddrZero ∧ cursor_ok v6 p a.
Proof.
  intros (Hv & x & -> & Hb). unfold cursor_ok. rewrite Hv. split_and!; [by destruct v6 | by destruct v6 |].
  exists x. split; [done | lia].
Qed.

Lemma created_ok s d v6 s' r : store_ok s → created s d v6 s' r → store_ok s'.
Proof.
  intros Hs [st a Hst Hd | st msg Hst Hd Hc | st st' err next s1 Hst Hd Hc Hstore]; [done.. |].
  pose proof (next_usable v6 s Hs Hc) as Hu. fold next in Hu. destruct (usable_family _ _ _ Hu) as (Hf & _ & Hcur).
  assert (Hsame : inet4Range s1 = inet4Range s ∧ inet6Range s1 = inet6Range s ∧
                  inet4Last s1 = inet4Last s ∧ inet6Last s1 = inet6Last s) by by destruct v6.
  destruct Hsame as (E1 & E2 & E3 & E4). destruct Hs as (H4 & H6 & (_ & _ & Hc4 & Hc6) & st0 & Hst0 & Ht & He & Hsv).
  rewrite Hst in Hst0. simplify_eq.
  assert (Hm : metadata_ok (inet4Range s) (inet6Range s) (current_metadata s1)).
  { unfold metadata_ok, current_metadata. rewrite E1, E2. simpl in *. by destruct v6. }
  unfold store_ok, with_storage. simpl. rewrite E1, E2, E3, E4. split_and!; [done | done | |].
  { unfold current_metadata in *. simpl. by rewrite E1, E2 in *. }
  eexists. split; [done |]. split_and!.
  - eapply table_ok_loads; [apply async_loads |]. eapply table_ok_store; [done | by rewrite Hf | done].
  - eapply entries_ok_loads; [apply async_loads |]. intros a d' Hl. destruct err as [e |].
    { destruct (store_error _ _ _ _ _ Hstore) as [Hsl _]. rewrite Hsl in Hl. by eapply He. }
    rewrite (store_load _ _ _ _ _ Hstore) in Hl. case_decide as Ha; [| by eapply He].
    subst a. destruct v6; [by right | by left].
  - intros m [-> | Hm']%saved_async; [done |]. apply Hsv. eapply (saved_store _ next d). by rewrite Hstore.
Qed.

(** *** Start, reset, close *)

(** The ranges of the configuration: each is absent or leaves room. *)
Definition ranges_ok (r4 r6 : Prefix) : Prop :=
  (prefix_is_valid r4 = false ∨ range_ok false r4) ∧ (prefix_is_valid r6 = false ∨ range_ok true r6).

(** The storage [Start] opens, and that its [FakeIPReset] does not fail. *)
Definition opened (cacheFile : option (C * bool)) : St :=
  match cacheFile with Some (c, true) => inl c | _ => inr NewMemoryStorage end.
Definition reset_succeeds st : Prop := (FakeIPReset (FakeIPMetadata_read st).1).2 = None.

Lemma configured_new v6 p :
  prefix_is_valid p = false ∨ range_ok v6 p →
  configured v6 p (if prefix_is_valid p then broadcastAddress p else AddrZero).
Proof. intros [Hp | Hp]; [by left |]. right. split; [done |]. by rewrite (proj1 (proj2 Hp)). Qed.

Lemma cursor_new v6 p :
  prefix_is_valid p = false ∨ range_ok v6 p →
  cursor_ok v6 p (if prefix_is_valid p then addr_next (prefix_addr p) else AddrZero).
Proof.
  intros Hp. unfold cursor_ok. destruct (prefix_is_valid p) eqn:Hv; [| done].
  destruct Hp as [| Hr]; [done |]. destruct (range_block _ _ Hr) as (_ & _ & Hb & Hw).
  assert (base p + 2 < range_last p) by apply Hr.
  exists (base p + 1). rewrite (range_ok_addr _ _ Hr) at 1. rewrite addr_next_of by lia. split; [done | lia].
Qed.

(** Whatever ranges the storage was used with before, it is consistent with the
    ranges of the configuration once the store has started. *)
Lemma Start_ok r4 r6 r4' r6' cacheFile :
  ranges_ok r4 r6 → storage_ok r4' r6' (opened cacheFile) → reset_succeeds (opened cacheFile) →
  store_ok (Start (NewStore r4 r6) cacheFile).
Proof.
  intros [H4 H6] (Ht & He & Hsv) Hrs. unfold Start. fold (opened cacheFile).
  destruct (FakeIPMetadata_read (opened cacheFile)) as [st md] eqn:Hread.
  assert (Hl : same_loads st (opened cacheFile)) by (pose proof (read_loads (opened cacheFile)) as Hl; by rewrite Hread in Hl).
  assert (Hno : ∀ m, ¬ saved st m) by (intros m; pose proof (saved_read_consumes (opened cacheFile) m) as Hl'; by rewrite Hread in Hl').
  unfold reset_succeeds in Hrs. rewrite Hread in Hrs. simpl in Hrs.
  destruct (FakeIPReset st) as [st1 err] eqn:Hreset. simpl in Hrs. subst err. simpl.
  destruct (reset_loads _ _ Hreset) as [Hr1 Hr2].
  assert (Hno' : ∀ m, ¬ saved st1 m).
  { intros m Hm. eapply Hno, saved_reset. by rewrite Hreset. }
  assert (Hfresh : store_ok (mkStore r4 r6
    (if prefix_is_valid r4 then broadcastAddress r4 else AddrZero)
    (if prefix_is_valid r6 then broadcastAddress r6 else AddrZero) (Some st1)
    (if prefix_is_valid r4 then addr_next (prefix_addr r4) else AddrZero)
    (if prefix_is_valid r6 then addr_next (prefix_addr r6) else AddrZero))).
  { split_and!; simpl; [by apply configured_new | by apply configured_new | |].
    - split_and!; simpl; [done | done | by apply cursor_new | by apply cursor_new].
    - exists st1. split; [done |]. split_and!.
      + intros a d v6. rewrite Hr1, Hr2. split; [done | by intros []].
      + intros a d. by rewrite Hr1.
      + intros m Hm. by destruct (Hno' m). }
  destruct md as [m |]; [| done].
  destruct (bool_decide (md_inet4Range m = r4)) eqn:E4, (bool_decide (md_inet6Range m = r6)) eqn:E6; try done.
  boolprop. simpl. destruct (Hsv m) as (<- & <- & Hc4 & Hc6); [by eapply saved_read |].
  rewrite E4, E6 in *. split_and!; simpl; [by apply configured_new | by apply configured_new | by split_and! |].
  exists st. split; [done |]. split_and!; [by eapply table_ok_loads | by eapply entries_ok_loads |].
  intros m' Hm. by destruct (Hno m').
Qed.

Lemma Reset_ok s s' err : store_ok s → Reset s = Some (s', err) → store_ok s'.
Proof.
  intros (H4 & H6 & Hm & st & Hst & Ht & He & Hsv). unfold Reset. rewrite Hst.
  destruct (FakeIPReset st) as [st1 err1] eqn:Hreset. intros [= <- <-].
  split_and!; [done.. |]. exists st1. split; [done |]. simpl.
  assert (Hsv' : ∀ m, saved st1 m → metadata_ok (inet4Range s) (inet6Range s) m).
  { intros m Hs. apply Hsv. eapply saved_reset. by rewrite Hreset. }
  destruct err1 as [e |].
  - pose proof (reset_error _ _ _ Hreset) as Hl.
    split_and!; [by eapply table_ok_loads | by eapply entries_ok_loads | done].
  - destruct (reset_loads _ _ Hreset) as [Hr1 Hr2]. split_and!; [| | done].
    + intros a d v6. rewrite Hr1, Hr2. split; [done | by intros []].
    + intros a d. by rewrite Hr1.
Qed.

Lemma Close_ok s : store_ok s → store_ok (Close s).1.
Proof.
  intros (H4 & H6 & Hm & st & Hst & Ht & He & Hsv). unfold Close. rewrite Hst.
  destruct (FakeIPSaveMetadata st (current_metadata s)) as [st1 err] eqn:Hsave. simpl.
  assert (Hl : same_loads st1 st) by (pose proof (save_loads st (current_metadata s)) as Hl; by rewrite Hsave in Hl).
  split_and!; [done.. |]. exists st1. split; [done |]. simpl.
  split_and!; [by eapply table_ok_loads | by eapply entries_ok_loads |].
  intros m Hs. destruct (saved_save st (current_metadata s) m) as [-> | Hs']; [by rewrite Hsave | done | by apply Hsv].
Qed.

(** *** Reachable states, across restarts *)

(** A storage that has never been used. *)
Definition unused st : Prop :=
  (∀ a, FakeIPLoad st a = None) ∧ (∀ d v6, FakeIPLoadDomain st d v6 = None) ∧ ∀ m, ¬ saved st m.

(** A start on an unused storage, a restart on the cache file of the previous
    run (after [Close] or not, with the same ranges or others), and the
    operations of a running store. *)
Inductive reachable : Store St → Prop :=
| reach_start r4 r6 cacheFile :
    ranges_ok r4 r6 → unused (opened cacheFile) → reset_succeeds (opened cacheFile) →
    reachable (Start (NewStore r4 r6) cacheFile)
| reach_restart s c r4 r6 :
    reachable s → storage s = Some (inl c) → ranges_ok r4 r6 → reset_succeeds (inl c) →
    reachable (Start (NewStore r4 r6) (Some (c, true)))
| reach_create s d v6 s' r : reachable s → Create s d v6 = Some (s', r) → reachable s'
| reach_reset s s' err : reachable s → Reset s = Some (s', err) → reachable s'
| reach_close s : reachable s → reachable (Close s).1.

Lemma fakeip_reachable_ok s : reachable s → store_ok s.
Proof.
  induction 1 as [r4 r6 cf Hr (Hu1 & Hu2 & Hu3) Hrs | s c r4 r6 _ IH Hst Hr Hrs | s d v6 s' r _ IH Hc
                 | s s' err _ IH Hr | s _ IH].
  - apply (Start_ok r4 r6 r4 r6); [done | | done]. split_and!.
    + intros a d v6. rewrite Hu1, Hu2. split; [done | by intros []].
    + intros a d. by rewrite Hu1.
    + intros m Hm. by destruct (Hu3 m).
  - destruct IH as (_ & _ & _ & st & Hst' & Hok). rewrite Hst in Hst'. simplify_eq.
    by eapply (Start_ok r4 r6 _ _ (Some (c, true))).
  - by eapply created_ok, Create_cases.
  - by eapply Reset_ok.
  - by apply Close_ok.
Qed.

(** *** Any ranges of the right family *)

(** A range that is absent, or of the family it is configured for; the address
    that follows the two reserved ones still exists. *)
Definition family_ok (v6 : bool) (p : Prefix) : Prop :=
  prefix_is_valid p = true →
  is4 (prefix_addr p) = negb v6 ∧ is4 (addr_next (addr_next (prefix_addr p))) = negb v6.

(** As [reachable], but for every size of the ranges (/31 and /32 included), and
    without the condition that the reset of [Start] succeeds. *)
Inductive running : Store St → Prop :=
| run_start r4 r6 cacheFile :
    family_ok false r4 → family_ok true r6 → unused (opened cacheFile) →
    running (Start (NewStore r4 r6) cacheFile)
| run_restart s c r4 r6 :
    running s → storage s = Some (inl c) → family_ok false r4 → family_ok true r6 →
    running (Start (NewStore r4 r6) (Some (c, true)))
| run_create s d v6 s' r : running s → Create s d v6 = Some (s', r) → running s'
| run_reset s s' err : running s → Reset s = Some (s', err) → running s'
| run_close s : running s → running (Close s).1.

(** An absent range has no cursor. *)
Definition no_cursor (p : Prefix) (a : Addr) : Prop := prefix_is_valid p = false → a = AddrZero.
Definition metadata_sound (m : FakeIPMetadata) : Prop :=
  no_cursor (md_inet4Range m) (md_inet4Current m) ∧ no_cursor (md_inet6Range m) (md_inet6Current m).
Definition storage_sound st : Prop := table_ok st ∧ ∀ m, saved st m → metadata_sound m.
Definition store_sound s : Prop :=
  family_ok false (inet4Range s) ∧ family_ok true (inet6Range s) ∧ metadata_sound (current_metadata s) ∧
  ∃ st, storage s = Some st ∧ storage_sound st.

Lemma contains_same_family p a : prefix_contains p a = true → is4 a = is4 (prefix_addr p).
Proof.
  unfold prefix_contains. destruct (negb (prefix_is_valid p) || has_zone a); [done|].
  destruct (prefix_addr p), a; simpl; done.
Qed.

Lemma next_family v6 s :
  store_sound s → cursor v6 s ≠ AddrZero →
  prefix_is_valid (range_of_family v6 s) = true ∧
  is4 (nextAddress (cursor v6 s) (last_of_family v6 s) (range_of_family v6 s)) = negb v6.
Proof.
  intros (H4 & H6 & [Hc4 Hc6] & _) Hc.
  assert (family_ok v6 (range_of_family v6 s)) as Hf by by destruct v6.
  assert (no_cursor (range_of_family v6 s) (cursor v6 s)) as Hn by by destruct v6.
  destruct (prefix_is_valid (range_of_family v6 s)) eqn:Hv; [|by destruct Hc, Hn]. split; [done|].
  destruct (Hf Hv) as [Ha Hnn]. unfold nextAddress. destruct (prefix_contains _ (addr_next _)) eqn:Hin; [|by rewrite orb_true_r].
  case_bool_decide; [done|]. cbn [orb negb]. by rewrite (contains_same_family _ _ Hin).
Qed.

Lemma storage_sound_loads st st' :
  same_loads st' st → (∀ m, saved st' m → saved st m ∨ metadata_sound m) → storage_sound st → storage_sound st'.
Proof.
  intros Hl Hs [Ht Hm]. split; [by eapply table_ok_loads|]. intros m Hm'. destruct (Hs m Hm'); [by apply Hm | done].
Qed.

Lemma reset_sound st : storage_sound st → storage_sound (FakeIPReset st).1.
Proof.
  intros [Ht Hm]. destruct (FakeIPReset st) as [st1 err] eqn:E. cbn [fst]. assert (∀ m, saved st1 m → saved st m) as Hs.
  { intros m Hm'. apply saved_reset. by rewrite E. }
  split; [|intros m Hm'; by apply Hm, Hs]. destruct err as [e|]; [by eapply table_ok_loads; [eapply reset_error|]|].
  destruct (reset_loads _ _ E) as [H1 H2]. intros a d v6. rewrite H1, H2. split; [done | by intros []].
Qed.

Lemma created_sound s d v6 s' r : store_sound s → created s d v6 s' r → store_sound s'.
Proof.
  intros Hs Hc. destruct Hc as [| |st st' err next s1 Hst Hd Hcu Hstore]; [done..|].
  destruct (next_family v6 s Hs Hcu) as [Hv Hf]. fold next in Hf.
  pose proof Hs as (H4 & H6 & [Hc4 Hc6] & st0 & Hst0 & Ht & Hm). rewrite Hst in Hst0. simplify_eq.
  assert (metadata_sound (current_metadata s1)) as Hms.
  { unfold s1. destruct v6; cbn in *; split; try done; intros ?; simpl in *; congruence. }
  split_and!; [by destruct v6 | by destruct v6 | by destruct v6 |]. eexists. split; [done|].
  apply (storage_sound_loads st'); [apply async_loads | intros m [->|]%saved_async; auto|].
  split; [eapply table_ok_store; [done | | done]; by rewrite Hf, negb_involutive|].
  intros m Hm'. apply Hm. eapply (saved_store _ next d). by rewrite Hstore.
Qed.

Lemma Start_sound r4 r6 cacheFile :
  family_ok false r4 → family_ok true r6 → storage_sound (opened cacheFile) → store_sound (Start (NewStore r4 r6) cacheFile).
Proof.
  intros H4 H6 Hst. unfold Start. fold (opened cacheFile).
  destruct (FakeIPMetadata_read (opened cacheFile)) as [st md] eqn:Hread.
  assert (storage_sound st) as Hs.
  { pose proof (read_loads (opened cacheFile)) as Hl. pose proof (saved_read_consumes (opened cacheFile)) as Hn.
    rewrite Hread in Hl, Hn. apply (storage_sound_loads (opened cacheFile)); [done | intros m Hm; by destruct (Hn m) | done]. }
  match goal with |- store_sound (match _ with Some m => if _ then _ else ?f | None => _ end) => assert (store_sound f) as Hfresh end.
  { split_and!; [done | done | |].
    - split; intros Hv; cbn in *; by rewrite Hv.
    - eexists. split; [done|]. by apply reset_sound. }
  destruct md as [m|]; [|done].
  destruct (bool_decide (md_inet4Range m = _)) eqn:E4, (bool_decide (md_inet6Range m = _)) eqn:E6; try done.
  boolprop. cbn in E4, E6. split_and!; [done | done | |by exists st].
  destruct Hst as [_ Hm]. specialize (Hm m (saved_read _ _ _ Hread)). unfold metadata_sound in *. cbn. by rewrite <- E4, <- E6.
Qed.

Lemma running_sound s : running s → store_sound s.
Proof.
  induction 1 as [r4 r6 cf H4 H6 (Hu1 & Hu2 & Hu3) | s c r4 r6 _ IH Hst H4 H6 | s d v6 s' r _ IH Hc | s s' err _ IH Hr | s _ IH].
  - apply Start_sound; [done | done |]. split; [|intros m Hm; by destruct (Hu3 m)].
    intros a d v6. rewrite Hu1, Hu2. split; [done | by intros []].
  - apply Start_sound; [done | done |]. destruct IH as (_ & _ & _ & st & Hst' & Hok). rewrite Hst in Hst'. by simplify_eq.
  - by eapply created_sound, Create_cases.
  - destruct IH as (H4 & H6 & Hm & st & Hst & Hok). unfold Reset in Hr. rewrite Hst in Hr.
    pose proof (reset_sound _ Hok) as Hok'. destruct (FakeIPReset st) as [st1 err1]. simplify_eq.
    split_and!; [done..|]. by exists st1.
  - destruct IH as (H4 & H6 & Hm & st & Hst & Hok). unfold Close. rewrite Hst.
    pose proof (save_loads st (current_metadata s)) as Hl. pose proof (saved_save st (current_metadata s)) as Hs.
    destruct (FakeIPSaveMetadata st (current_metadata s)) as [st1 err]. cbn [fst] in *.
    split_and!; [done..|]. exists st1. split; [done|]. apply (storage_sound_loads st); [done | | done].
    intros m [->|]%Hs; [by right | by left].
Qed.

Lemma range_ok_family v6 p : prefix_is_valid p = false ∨ range_ok v6 p → family_ok v6 p.
Proof.
  intros [Hp|Hp] Hv; [congruence|]. pose proof (range_block _ _ Hp) as (_ & _ & Hb & Hw).
  pose proof (proj2 (proj2 (proj2 Hp))). rewrite (range_ok_addr _ _ Hp), !addr_next_of by lia. by destruct v6.
Qed.

Lemma reachable_running s : reachable s → running s.
Proof.
  induction 1 as [r4 r6 cf [H4 H6] | s c r4 r6 _ IH Hst [H4 H6] | | |].
  - apply run_start; [by apply range_ok_family.. | done].
  - eapply run_restart; [done | done | by apply range_ok_family..].
  - by eapply run_create.
  - by eapply run_reset.
  - by apply run_close.
Qed.
End invariant.

(** ** What the store promises *)

(** After [j] steps the ring is [j] positions further, modulo its size. *)
Lemma ring_iter p x j :
  base p + 2 ≤ x < range_last p →
  Nat.iter j (ring_step p) x = base p + 2 + (x - (base p + 2) + Z.of_nat j) mod capacity p.
Proof.
  intros Hx. assert (0 < capacity p) by (unfold capacity; lia).
  induction j as [|j IH]; simpl.
  - rewrite Z.add_0_r, Z.mod_small by (unfold capacity; lia). lia.
  - rewrite IH. unfold ring_step. set (y := x - (base p + 2) + Z.of_nat j).
    replace (x - (base p + 2) + Z.of_nat (S j)) with (y + 1) by lia.
    pose proof (Z.mod_pos_bound y (capacity p) ltac:(done)). rewrite <- (Zplus_mod_idemp_l y 1).
    destruct (base p + 2 + y mod capacity p + 1 =? range_last p) eqn:E; boolprop.
    + replace (y mod capacity p + 1) with (capacity p) by (unfold capacity in *; lia).
      rewrite Z.mod_same by lia. lia.
    + rewrite (Z.mod_small (y mod capacity p + 1)) by (unfold capacity in *; lia). lia.
Qed.

Lemma ring_iter_ne p x j :
  base p + 2 ≤ x < range_last p → (0 < j)%nat → Z.of_nat j < capacity p → Nat.iter j (ring_step p) x ≠ x.
Proof.
  intros Hx Hj Hc. rewrite ring_iter by done. set (o := x - (base p + 2)).
  assert (0 ≤ o < capacity p) by (unfold capacity; lia).
  destruct (decide (o + Z.of_nat j < capacity p)) as [Hl | Hl].
  - rewrite Z.mod_small by lia. lia.
  - replace (o + Z.of_nat j) with (o + Z.of_nat j - capacity p + 1 * capacity p) by lia.
    rewrite Z.mod_add, Z.mod_small by lia. lia.
Qed.

Section properties.
Context {C : Type} `{HC : FakeIPStorageLaws C}.
Abbreviation St := (C + MemoryStorage)%type.
Implicit Types (s : Store St) (st : St).

(** The addresses of a known domain and of a new one are usable. *)
Lemma created_usable s d v6 s' a :
  store_ok s → created s d v6 s' (Ok a) → usable v6 (range_of_family v6 s') a.
Proof.
  intros Hs Hc. inversion Hc as [st a' Hst Hd | | st st' err next s1 Hst Hd Hcu Hstore]; subst.
  - destruct Hs as (_ & _ & _ & st' & Hst' & Ht & He & _). rewrite Hst in Hst'. simplify_eq.
    apply Ht in Hd as [Hl ->]. destruct (He _ _ Hl) as [Hu | Hu];
      destruct (usable_family _ _ _ Hu) as (E & _ & _); rewrite E; done.
  - pose proof (next_usable v6 s Hs Hcu) as Hu. by destruct v6.
Qed.

Lemma usable_contained v6 p a :
  range_ok v6 p → usable v6 p a →
  prefix_contains p a = true ∧ is4 a = negb v6 ∧ a ≠ prefix_addr p ∧ a ≠ addr_next (prefix_addr p)
  ∧ a ≠ broadcastAddress p.
Proof.
  intros Hr (_ & x & -> & Hx). destruct (range_block _ _ Hr) as (_ & _ & Hb & Hw).
  rewrite (range_contains_above v6), (broadcast_of v6), (range_ok_addr v6 p Hr), addr_next_of by (done || lia).
  rewrite bool_decide_eq_true_2 by lia.
  split_and!; [done | by destruct v6 | | |]; destruct v6; intros [= ?]; lia.
Qed.

Lemma created_ranges s d v6 s' r v6' :
  created s d v6 s' r → range_of_family v6' s' = range_of_family v6' s ∧ last_of_family v6' s' = last_of_family v6' s.
Proof. destruct 1; [done.. |]. by destruct v6, v6'. Qed.

Lemma usable_range_ok v6 s a :
  store_ok s → usable v6 (range_of_family v6 s) a → range_ok v6 (range_of_family v6 s)
  ∧ last_of_family v6 s = broadcastAddress (range_of_family v6 s).
Proof.
  intros Hs [Hv _]. destruct (store_ok_family v6 s Hs) as [[Hi | ?] _]; [congruence | done].
Qed.

Lemma Create_usable_in s d v6 s' a :
  reachable s → Create s d v6 = Some (s', Ok a) →
  Contains s' a = true ∧ is4 a = negb v6 ∧ a ≠ AddrZero.
Proof.
  intros Hs%fakeip_reachable_ok Hc%Create_cases. pose proof (created_ok _ _ _ _ _ Hs Hc) as Hs'.
  pose proof (created_usable _ _ _ _ _ Hs Hc) as Hu.
  destruct (usable_range_ok _ _ _ Hs' Hu) as [Hr _]. destruct (usable_family _ _ _ Hu) as (_ & Hz & _).
  destruct (usable_contained _ _ _ Hr Hu) as (Hin & Hf & _). split_and!; [| done | done].
  unfold Contains. destruct v6; simpl in Hin; rewrite Hin; [by rewrite orb_true_r | done].
Qed.

(** The address [Create] returns belongs to the configured range of the asked
    family, and is none of the network, the gateway and the broadcast address,
    whatever happened to the store before, restarts with other ranges
    included. *)
Theorem Create_in_range s d v6 s' a :
  reachable s → Create s d v6 = Some (s', Ok a) →
  let p := range_of_family v6 s' in
  Contains s' a = true ∧ is4 a = negb v6 ∧
  a ≠ prefix_addr p ∧ a ≠ addr_next (prefix_addr p) ∧ a ≠ broadcastAddress p.
Proof.
  intros Hr Hc. destruct (Create_usable_in _ _ _ _ _ Hr Hc) as (Hin & Hf & _).
  pose proof (fakeip_reachable_ok _ Hr) as Hs. apply Create_cases in Hc.
  pose proof (created_usable _ _ _ _ _ Hs Hc) as Hu.
  destruct (usable_range_ok _ _ _ (created_ok _ _ _ _ _ Hs Hc) Hu) as [Hok _].
  destruct (usable_contained _ _ _ Hok Hu) as (_ & _ & Hn). simpl. split_and!; [done | done | apply Hn..].
Qed.

(** Domain to address and address to domain are inverse of each other, so two
    domains never share an address, and every stored address is in range. *)
Theorem fakeip_table_consistent s st :
  reachable s → storage s = Some st →
  (∀ d v6 a, FakeIPLoadDomain st d v6 = Some a ↔ FakeIPLoad st a = Some d ∧ v6 = negb (is4 a)) ∧
  (∀ a d, FakeIPLoad st a = Some d → Contains s a = true).
Proof.
  intros Hs%fakeip_reachable_ok Hst. pose proof Hs as (_ & _ & _ & st' & Hst' & Ht & He & _).
  rewrite Hst in Hst'. simplify_eq. split; [intros; apply Ht |]. intros a d Hl. unfold Contains.
  destruct (He _ _ Hl) as [Hu | Hu].
  - destruct (usable_range_ok false s a Hs Hu) as [Hr _]. destruct (usable_contained _ _ _ Hr Hu) as [E _].
    simpl in E. by rewrite E.
  - destruct (usable_range_ok true s a Hs Hu) as [Hr _]. destruct (usable_contained _ _ _ Hr Hu) as [E _].
    simpl in E. rewrite E. apply orb_true_r.
Qed.

Lemma fakeip_lookup_running s st d v6 s' a :
  running s → storage s = Some st → (∀ a, (FakeIPStore st a d).2 = None) →
  Create s d v6 = Some (s', Ok a) →
  Lookup s' a = Some d ∧ Create s' d v6 = Some (s', Ok a).
Proof.
  intros Hr Hst Hok Hc. pose proof (run_create _ _ _ _ _ Hr Hc) as Hr'.
  apply Create_cases in Hc. pose proof (running_sound _ Hr') as (_ & _ & _ & st2 & Hst2 & Ht & _).
  assert (Hd : FakeIPLoadDomain st2 d v6 = Some a).
  { inversion Hc as [st1 a' Hst1 Hd | | st1 st1' err next s1 Hst1 Hd Hcu Hstore]; subst; [congruence |].
    destruct (next_family v6 s (running_sound _ Hr) Hcu) as [_ Hf]. fold next in Hf.
    rewrite Hst in Hst1. simplify_eq. simpl in Hst2. simplify_eq.
    specialize (Hok next). rewrite Hstore in Hok. simpl in Hok. subst err.
    rewrite (proj2 (async_loads _ _)), (store_load_domain _ _ _ _ _ _ Hstore).
    by rewrite Hf, negb_involutive, decide_True, decide_True. }
  unfold Lookup, Create. rewrite Hst2, Hd. split; [by apply Ht in Hd as [? _] | done].
Qed.

Lemma fakeip_lookup_after s st d v6 s' a :
  reachable s → storage s = Some st → (∀ a, (FakeIPStore st a d).2 = None) →
  Create s d v6 = Some (s', Ok a) →
  Lookup s' a = Some d ∧ Create s' d v6 = Some (s', Ok a).
Proof. intros Hr. by apply fakeip_lookup_running, reachable_running. Qed.

(** C39. A domain gets its address back, and the address its domain: if [Create]
    gives an address for a domain and the storage does not fail to store it, then
    looking up the address gives the domain, and asking again for the domain gives
    the same address and changes nothing.  This holds in every state of a store
    reached by starts on an unused storage, restarts on the cache file of the run
    before (with the same ranges or others), [Create], [Reset] and [Close], whether
    or not a reset fails, provided each configured range is of its own family, of
    any size, and its address is not one of the last two of the address space.
    [NewTransport] does not check the family: [wrong_family_forgets] shows that the
    property fails for an IPv6 prefix as [inet4_range]. *)
Theorem fakeip_round_trip s st d v6 s' a :
  running s → storage s = Some st → (∀ a, (FakeIPStore st a d).2 = None) →
  Create s d v6 = Some (s', Ok a) →
  Lookup s' a = Some d ∧ Create s' d v6 = Some (s', Ok a).
Proof. apply fakeip_lookup_running. Qed.

(** *** How long an address is kept *)

Fixpoint Creates s (l : list (string * bool)) : option (Store St) :=
  match l with
  | [] => Some s
  | (d, v6) :: l => match Create s d v6 with Some (s', _) => Creates s' l | None => None end
  end.

(** [a] is held by [d] and the cursor of its family is [j] steps past it. *)
Definition held (d : string) (v6 : bool) (x : Z) (j : nat) s : Prop :=
  Lookup s (addr_of v6 x) = Some d ∧
  base (range_of_family v6 s) + 2 ≤ x < range_last (range_of_family v6 s) ∧
  cursor v6 s = addr_of v6 (Nat.iter j (ring_step (range_of_family v6 s)) x).

Lemma held_created d v6 x j s d' v6' s' r :
  store_ok s → held d v6 x j s → Z.of_nat (S j) < capacity (range_of_family v6 s) →
  created s d' v6' s' r → held d v6 x j s' ∨ held d v6 x (S j) s'.
Proof.
  intros Hs (Hl & Hx & Hcur) Hj Hc. pose proof (created_ranges _ _ _ _ _ v6 Hc) as [Hrange _].
  inversion Hc as [st a' Hst Hd | st msg Hst Hd Hcu | st st' err next s1 Hst Hd Hcu Hstore]; subst; [by left.. |].
  assert (Hne : addr_of v6 x ≠ next ∧ (v6' = v6 → next = addr_of v6 (Nat.iter (S j) (ring_step (range_of_family v6 s)) x))).
  { pose proof (next_usable v6' s Hs Hcu) as Hu. fold next in Hu.
    destruct (usable_range_ok v6' s next Hs Hu) as [Hr Hlast].
    destruct (decide (v6' = v6)) as [-> | Hv].
    - assert (Hnext : next = addr_of v6 (Nat.iter (S j) (ring_step (range_of_family v6 s)) x)).
      { unfold next. rewrite Hlast, Hcur, nextAddress_ring; [done | done |].
        rewrite ring_iter by done. pose proof (Z.mod_pos_bound (x - (base (range_of_family v6 s) + 2) + Z.of_nat j)
          (capacity (range_of_family v6 s)) ltac:(lia)). unfold capacity in *. lia. }
      split; [| done]. rewrite Hnext. intros E.
      eapply (ring_iter_ne (range_of_family v6 s) x (S j)); [done | lia | done |]. by destruct v6; injection E.
    - destruct (usable_family _ _ _ Hu) as (Hf & _). split; [| done]. intros E. rewrite <- E in Hf.
      by destruct v6, v6'. }
  destruct Hne as [Hne Hnext].
  assert (Hl' : Lookup (with_storage s1 (FakeIPSaveMetadataAsync st' (current_metadata s1))) (addr_of v6 x) = Some d).
  { unfold Lookup in *. simpl. rewrite Hst in Hl. rewrite (proj1 (async_loads _ _)). destruct err as [e |].
    - by rewrite (proj1 (store_error _ _ _ _ _ Hstore)).
    - by rewrite (store_load _ _ _ _ _ Hstore), decide_False. }
  unfold held. rewrite Hrange. destruct (decide (v6' = v6)) as [-> | Hv].
  - right. split_and!; [done | lia | lia |]. rewrite <- Hnext by done. by destruct v6.
  - left. split_and!; [done | lia | lia |]. rewrite <- Hcur. by destruct v6, v6'.
Qed.

Lemma held_Creates d v6 x l j s s' :
  store_ok s → held d v6 x j s → Z.of_nat (j + length l) < capacity (range_of_family v6 s) →
  Creates s l = Some s' → Lookup s' (addr_of v6 x) = Some d.
Proof.
  revert j s. induction l as [|[d' v6'] l IH]; intros j s Hs Hh Hj; simpl; [intros [= <-]; apply Hh |].
  destruct (Create s d' v6') as [[s1 r] |] eqn:Hc; [| done]. apply Create_cases in Hc.
  pose proof (created_ranges _ _ _ _ _ v6 Hc) as [Hrange _]. simpl in Hj.
  destruct (held_created d v6 x j s d' v6' s1 r) as [Hh' | Hh']; [done | done | lia | done | |].
  - apply (IH j); [by eapply created_ok | done | rewrite Hrange; lia].
  - apply (IH (S j)); [by eapply created_ok | done | rewrite Hrange; lia].
Qed.

(** An address just handed out is kept for its domain as long as fewer new
    domains are asked for than the range has usable addresses. *)
Theorem fakeip_address_kept s st d v6 s1 a l s2 :
  reachable s → storage s = Some st → FakeIPLoadDomain st d v6 = None →
  (∀ a, (FakeIPStore st a d).2 = None) →
  Create s d v6 = Some (s1, Ok a) → Creates s1 l = Some s2 →
  Z.of_nat (length l) < capacity (range_of_family v6 s1) →
  Lookup s2 a = Some d.
Proof.
  intros Hr Hst Hnone Hok Hc Hl Hcap.
  destruct (fakeip_lookup_after s st d v6 s1 a Hr Hst Hok Hc) as [Hlook _].
  pose proof (fakeip_reachable_ok _ (reach_create _ _ _ _ _ Hr Hc)) as Hs1. pose proof (fakeip_reachable_ok _ Hr) as Hs.
  apply Create_cases in Hc. pose proof (created_usable _ _ _ _ _ Hs Hc) as (_ & x & -> & Hx).
  apply (held_Creates d v6 x l 0 s1 s2); [done | | done | done].
  split_and!; [done | lia | lia |]. simpl.
  inversion Hc as [st' a' Hst' Hd | | st' st'' err next s' Hst' Hd Hcu Hstore]; subst; [congruence |].
  by destruct v6.
Qed.
End properties.

(** ** Concurrent callers

    [Create] looks the domain up before it takes the lock and again after.
    Callers are threads; a lookup and a locked section are one step each, in any
    order, with resets in between. *)

Section concurrency.
Context {C : Type} `{HC : FakeIPStorageLaws C}.
Abbreviation St := (C + MemoryStorage)%type.
Implicit Types (s : Store St) (st : St).

Inductive caller : Type :=
| CallStart (d : string) (v6 : bool)
| CallWaiting (d : string) (v6 : bool)
| CallDone (d : string) (v6 : bool) (r : result Addr).

(** What a run shows to its callers: results and resets, in their order. *)
Inductive fakeip_event : Type :=
| EvCreated (d : string) (v6 : bool) (r : result Addr)
| EvReset.

Inductive conc_step : Store St * gmap nat caller → list fakeip_event → Store St * gmap nat caller → Prop :=
| conc_call s ts t d v6 :
    ts !! t = None → conc_step (s, ts) [] (s, <[t := CallStart d v6]> ts)
| conc_hit s ts t d v6 st a :
    ts !! t = Some (CallStart d v6) → storage s = Some st → FakeIPLoadDomain st d v6 = Some a →
    conc_step (s, ts) [EvCreated d v6 (Ok a)] (s, <[t := CallDone d v6 (Ok a)]> ts)
| conc_miss s ts t d v6 st :
    ts !! t = Some (CallStart d v6) → storage s = Some st → FakeIPLoadDomain st d v6 = None →
    conc_step (s, ts) [] (s, <[t := CallWaiting d v6]> ts)
| conc_locked s ts t d v6 st s' r :
    ts !! t = Some (CallWaiting d v6) → storage s = Some st → Create_locked s st d v6 = (s', r) →
    conc_step (s, ts) [EvCreated d v6 r] (s', <[t := CallDone d v6 r]> ts)
| conc_reset s ts s' err :
    Reset s = Some (s', err) → conc_step (s, ts) [EvReset] (s', ts).

Inductive conc_run : Store St * gmap nat caller → list fakeip_event → Store St * gmap nat caller → Prop :=
| conc_nil c : conc_run c [] c
| conc_cons c c1 c2 e1 e2 : conc_step c e1 c1 → conc_run c1 e2 c2 → conc_run c (e1 ++ e2) c2.

(** The specification: every call is one indivisible [Create]. *)
Inductive atomic_run : Store St → list fakeip_event → Store St → Prop :=
| atomic_nil s : atomic_run s [] s
| atomic_create s d v6 s1 r es s2 :
    Create s d v6 = Some (s1, r) → atomic_run s1 es s2 → atomic_run s (EvCreated d v6 r :: es) s2
| atomic_reset s s1 err es s2 :
    Reset s = Some (s1, err) → atomic_run s1 es s2 → atomic_run s (EvReset :: es) s2.

(** The second lookup makes the locked section a whole [Create]. *)
Lemma Create_locked_atomic s st d v6 :
  storage s = Some st → Create s d v6 = Some (Create_locked s st d v6).
Proof.
  intros Hst. unfold Create, Create_locked. rewrite Hst. by destruct (FakeIPLoadDomain st d v6).
Qed.

(** Every interleaving of callers gives the results, in the order they are
    obtained, of a sequence of indivisible calls. *)
Theorem Create_linearizable s ts es s' ts' :
  conc_run (s, ts) es (s', ts') → atomic_run s es s'.
Proof.
  intros Hr. remember (s, ts) as c eqn:Ec. remember (s', ts') as c' eqn:Ec'.
  revert s ts Ec. induction Hr as [c | c c1 c2 e1 e2 Hstep _ IH]; intros s ts ->.
  - injection Ec' as <- <-. constructor.
  - inversion Hstep as [s0 ts0 t d v6 _ | s0 ts0 t d v6 st a _ Hst Hd | s0 ts0 t d v6 st _ _ _
      | s0 ts0 t d v6 st s1 r _ Hst Hl | s0 ts0 s1 err Hreset]; subst; simpl.
    + by eapply IH.
    + eapply atomic_create; [| by eapply IH]. unfold Create. by rewrite Hst, Hd.
    + by eapply IH.
    + eapply atomic_create; [| by eapply IH]. by rewrite (Create_locked_atomic _ _ _ _ Hst), Hl.
    + eapply atomic_reset; [done | by eapply IH].
Qed.
End concurrency.

(** ** The DNS transport *)

Definition TypeA : Z := 1.
Definition TypeAAAA : Z := 28.
Definition ClassINET : Z := 1.
Definition RcodeSuccess : Z := 0.
Definition DefaultDNSTTL : Z := 600.

Record Question : Type := mkQuestion { q_Name : string; q_Qtype : Z; q_Qclass : Z }.
Record RR_Header : Type := mkHdr { hdr_Name : string; hdr_Rrtype : Z; hdr_Class : Z; hdr_Ttl : Z }.
Inductive RR : Type :=
| RR_A (hdr : RR_Header) (a : bytes)
| RR_AAAA (hdr : RR_Header) (aaaa : bytes).
Record Msg : Type := mkMsg {
  msg_Id : Z;
  msg_Response : bool;
  msg_Authoritative : bool;
  msg_RecursionDesired : bool;
  msg_RecursionAvailable : bool;
  msg_Rcode : Z;
  msg_Question : list Question;
  msg_Answer : list RR;
}.

Definition FixedResponseStatus (message : Msg) (rcode : Z) : Msg :=
  mkMsg (msg_Id message) true true true true rcode (msg_Question message) [].

(** [netip.Addr.AsSlice]. *)
Definition as_slice (a : Addr) : bytes :=
  match a with AddrZero => [] | AddrV4 v => be_bytes 4 v | AddrV6 v _ => be_bytes 16 v end.

Definition FixedResponse (id : Z) (question : Question) (addresses : list Addr) (timeToLive : Z) : Msg :=
  mkMsg id true true true true RcodeSuccess [question]
    (omap (λ address,
       if is4 address && (q_Qtype question =? TypeA)
       then Some (RR_A (mkHdr (q_Name question) TypeA ClassINET timeToLive) (as_slice address))
       else if is6 address && (q_Qtype question =? TypeAAAA)
       then Some (RR_AAAA (mkHdr (q_Name question) TypeAAAA ClassINET timeToLive) (as_slice address))
       else None) addresses).

Section transport.
Context {C : Type} `{HC : FakeIPStorageLaws C}.
Abbreviation St := (C + MemoryStorage)%type.
(** [IsFqdn] of the DNS library. *)
Variable IsFqdn : string → bool.

Definition FqdnToDomain (fqdn : string) : string :=
  if IsFqdn fqdn then String.substring 0 (String.length fqdn - 1) fqdn else fqdn.

Record Transport : Type := mkTransport {
  tr_store : Store St;
  tr_inet4Enabled : bool;
  tr_inet6Enabled : bool;
}.

Definition NewTransport (inet4Range inet6Range : Prefix) : result Transport :=
  if negb (prefix_is_valid inet4Range) && negb (prefix_is_valid inet6Range)
  then Err "at least one of inet4_range or inet6_range must be set"
  else Ok (mkTransport (NewStore inet4Range inet6Range) (prefix_is_valid inet4Range) (prefix_is_valid inet6Range)).

(** [None]: a panic (no question, or the store has not started). *)
Definition Exchange (t : Transport) (message : Msg) : option (Transport * result Msg) :=
  match msg_Question message with
  | [] => None
  | question :: _ =>
      if negb (q_Qtype question =? TypeA) && negb (q_Qtype question =? TypeAAAA)
      then Some (t, Err "only IP queries are supported by fakeip")
      else if (q_Qtype question =? TypeA) && negb (tr_inet4Enabled t)
              || (q_Qtype question =? TypeAAAA) && negb (tr_inet6Enabled t)
      then Some (t, Ok (FixedResponseStatus message RcodeSuccess))
      else
        match Create (tr_store t) (FqdnToDomain (q_Name question)) (q_Qtype question =? TypeAAAA) with
        | None => None
        | Some (s, r) =>
            let t := mkTransport s (tr_inet4Enabled t) (tr_inet6Enabled t) in
            match r with
            | Err e => Some (t, Err e)
            | Ok address => Some (t, Ok (FixedResponse (msg_Id message) question [address] DefaultDNSTTL))
            end
        end
  end.

(** The record that answers a query with an address. *)
Definition answer_record (question : Question) (a : Addr) : RR :=
  if q_Qtype question =? TypeA
  then RR_A (mkHdr (q_Name question) TypeA ClassINET DefaultDNSTTL) (as_slice a)
  else RR_AAAA (mkHdr (q_Name question) TypeAAAA ClassINET DefaultDNSTTL) (as_slice a).

Lemma FixedResponse_one id question a v6 :
  (q_Qtype question =? TypeAAAA) = v6 → (q_Qtype question =? TypeA) = negb v6 →
  is4 a = negb v6 → a ≠ AddrZero →
  msg_Answer (FixedResponse id question [a] DefaultDNSTTL) = [answer_record question a].
Proof.
  unfold FixedResponse, answer_record. simpl. intros -> ->. destruct v6, a; try done; intros; by destruct v6.
Qed.

(** A reply is empty when the family is disabled; otherwise it has one record of
    the asked type, with an address of the range that the store maps back to
    the domain of the query. *)
Theorem Exchange_answers t st message q qs t' reply :
  reachable (tr_store t) → storage (tr_store t) = Some st → (∀ a d, (FakeIPStore st a d).2 = None) →
  msg_Question message = q :: qs → Exchange t message = Some (t', Ok reply) →
  msg_Id reply = msg_Id message ∧ msg_Rcode reply = RcodeSuccess ∧
  (msg_Answer reply = [] ∧ (if q_Qtype q =? TypeAAAA then tr_inet6Enabled t else tr_inet4Enabled t) = false
   ∨ ∃ a, msg_Answer reply = [answer_record q a] ∧ Contains (tr_store t') a = true ∧
          Lookup (tr_store t') a = Some (FqdnToDomain (q_Name q))).
Proof.
  intros Hr Hst Hok Hq. unfold Exchange. rewrite Hq.
  destruct (q_Qtype q =? TypeA) eqn:Ea, (q_Qtype q =? TypeAAAA) eqn:E6;
    [unfold TypeA, TypeAAAA in *; lia | | | done]; simpl.
  - destruct (tr_inet4Enabled t); simpl; [| by intros [= <- <-]; split_and!; [| | left]].
    destruct (Create (tr_store t) (FqdnToDomain (q_Name q)) false) as [[s1 [a |]] |] eqn:Hc; [| done..].
    intros [= <- <-]. split_and!; [done | done |]. right. exists a.
    destruct (Create_usable_in _ _ _ _ _ Hr Hc) as (Hin & Hf & Hz).
    split_and!; [by apply (FixedResponse_one _ _ _ false) | done | by eapply fakeip_lookup_after].
  - destruct (tr_inet6Enabled t); simpl; [| by intros [= <- <-]; split_and!; [| | left]].
    destruct (Create (tr_store t) (FqdnToDomain (q_Name q)) true) as [[s1 [a |]] |] eqn:Hc; [| done..].
    intros [= <- <-]. split_and!; [done | done |]. right. exists a.
    destruct (Create_usable_in _ _ _ _ _ Hr Hc) as (Hin & Hf & Hz).
    split_and!; [by apply (FixedResponse_one _ _ _ true) | done | by eapply fakeip_lookup_after].
Qed.
End transport.

(** ** Concrete stores *)

Definition r198_18 (bits : Z) : Prefix := mkPrefix (AddrV4 0xc6120000) bits.
Definition store_of (bits : Z) : Store (MemoryStorage + MemoryStorage) := Start (NewStore (r198_18 bits) prefix_zero) None.

Lemma store_29_reachable : reachable (store_of 29).
Proof.
  apply reach_start; [| | done].
  - split; [right | by left]. split_and!; [vm_compute; intuition congruence | done | done | done].
  - split_and!; [done | by intros d [] | by intros m []].
Qed.

Lemma Create_in_range_witness :
  ∃ s' a, Create (store_of 29) "a" false = Some (s', Ok a) ∧ Contains s' a = true.
Proof.
  do 2 eexists. split; [vm_compute; reflexivity |].
  eapply (Create_in_range (store_of 29) "a" false); [apply store_29_reachable | vm_compute; reflexivity].
Defined.

Lemma fakeip_table_consistent_witness :
  ∃ st, storage (store_of 29) = Some st ∧
    ∀ d v6 a, FakeIPLoadDomain st d v6 = Some a ↔ FakeIPLoad st a = Some d ∧ v6 = negb (is4 a).
Proof.
  eexists. split; [reflexivity |].
  eapply (fakeip_table_consistent (store_of 29)); [apply store_29_reachable | reflexivity].
Defined.

Lemma fakeip_round_trip_witness :
  ∃ s', Create (store_of 29) "a" false = Some (s', Ok (AddrV4 0xc6120002)) ∧
        Lookup s' (AddrV4 0xc6120002) = Some "a"%string.
Proof.
  eexists. split; [vm_compute; reflexivity |].
  eapply (fakeip_round_trip (store_of 29) (inr NewMemoryStorage) "a" false);
    [apply reachable_running, store_29_reachable | reflexivity | reflexivity | vm_compute; reflexivity].
Defined.

Lemma fakeip_address_kept_witness :
  ∃ s1 s2, Create (store_of 29) "a" false = Some (s1, Ok (AddrV4 0xc6120002)) ∧
    Creates s1 [("b"%string, false); ("c"%string, false)] = Some s2 ∧
    Lookup s2 (AddrV4 0xc6120002) = Some "a"%string.
Proof.
  do 2 eexists. split; [vm_compute; reflexivity |]. split; [vm_compute; reflexivity |].
  eapply (fakeip_address_kept (store_of 29) (inr NewMemoryStorage) "a" false _ _
            [("b"%string, false); ("c"%string, false)]);
    [apply store_29_reachable | reflexivity | reflexivity | reflexivity | vm_compute; reflexivity
    | vm_compute; reflexivity | vm_compute; reflexivity].
Defined.

(** A range of two addresses passes every check of the constructor, but the
    first address handed out lies outside of it, so the connection to it is not
    recognised as a FakeIP one. *)
Theorem small_range_escapes :
  is_ok (NewTransport (C := MemoryStorage) (r198_18 31) prefix_zero) = true ∧
  ∃ s', Create (store_of 31) "a" false = Some (s', Ok (AddrV4 0xc6120002)) ∧
        Contains s' (AddrV4 0xc6120002) = false.
Proof. split; [reflexivity |]. eexists. split; vm_compute; reflexivity. Qed.

(** The constructor does not look at the family of a range either: with an IPv6
    prefix as [inet4_range] the addresses are stored as those of IPv6 queries, so
    that asking twice for a domain gives two addresses. *)
Definition wrong_family : Prefix := mkPrefix (AddrV6 (0xfc00 * 2 ^ 112) "") 18.
Definition store_wrong_family : Store (MemoryStorage + MemoryStorage) := Start (NewStore wrong_family prefix_zero) None.

Theorem wrong_family_forgets :
  is_ok (NewTransport (C := MemoryStorage) wrong_family prefix_zero) = true ∧
  ∃ s' s'' a a', Create store_wrong_family "a" false = Some (s', Ok a) ∧ Create s' "a" false = Some (s'', Ok a') ∧ a ≠ a'.
Proof. split; [reflexivity |]. do 4 eexists. split_and!; [vm_compute; reflexivity.. | discriminate]. Qed.

Definition transport_29 : Transport (C := MemoryStorage) := mkTransport (store_of 29) true false.
Definition query_a : Msg := mkMsg 7 false false true false 0 [mkQuestion "a" TypeA ClassINET] [].

Lemma Exchange_answers_witness :
  ∃ t' reply, Exchange (λ _, false) transport_29 query_a = Some (t', Ok reply) ∧ msg_Id reply = 7.
Proof.
  destruct (Exchange (λ _, false) transport_29 query_a) as [[t' [reply |]] |] eqn:E;
    [| vm_compute in E; discriminate E..].
  exists t', reply. split; [reflexivity |].
  apply (Exchange_answers (λ _, false) transport_29 (inr NewMemoryStorage) query_a
           (mkQuestion "a" TypeA ClassINET) [] t' reply);
    [apply store_29_reachable | reflexivity | reflexivity | reflexivity | exact E].
Defined.

(** Two callers miss the same domain before either takes the lock: the second
    one gets the address of the first. *)
Definition after_a : Store (MemoryStorage + MemoryStorage) :=
  match Create (store_of 29) "a" false with Some (s, _) => s | None => store_of 29 end.

Lemma Create_linearizable_witness :
  atomic_run (store_of 29) [EvCreated "a" false (Ok (AddrV4 0xc6120002)); EvCreated "a" false (Ok (AddrV4 0xc6120002))] after_a.
Proof.
  apply (Create_linearizable (store_of 29) ∅ _ after_a
    (<[1%nat := CallDone "a" false (Ok (AddrV4 0xc6120002))]>
      (<[0%nat := CallDone "a" false (Ok (AddrV4 0xc6120002))]>
        (<[1%nat := CallWaiting "a" false]> (<[0%nat := CallWaiting "a" false]>
          (<[1%nat := CallStart "a" false]> (<[0%nat := CallStart "a" false]> ∅))))))).
  eapply (conc_cons _ _ _ []); [apply (conc_call _ _ 0 "a" false); reflexivity |].
  eapply (conc_cons _ _ _ []); [apply (conc_call _ _ 1 "a" false); reflexivity |].
  eapply (conc_cons _ _ _ []); [apply (conc_miss _ _ 0 "a" false (inr NewMemoryStorage)); reflexivity |].
  eapply (conc_cons _ _ _ []); [apply (conc_miss _ _ 1 "a" false (inr NewMemoryStorage)); reflexivity |].
  eapply (conc_cons _ _ _ [_]);
    [apply (conc_locked _ _ 0 "a" false (inr NewMemoryStorage) after_a (Ok (AddrV4 0xc6120002)));
     [reflexivity | reflexivity | vm_compute; reflexivity] |].
  destruct (storage after_a) as [st |] eqn:Hst; [| vm_compute in Hst; discriminate Hst].
  assert (H1 : match storage after_a with Some st => Create_locked after_a st "a" false | None => (after_a, Err "") end
               = (after_a, Ok (AddrV4 0xc6120002))) by (vm_compute; reflexivity).
  rewrite Hst in H1.
  eapply (conc_cons _ _ _ [_] []);
    [apply (conc_locked _ _ 1 "a" false st after_a (Ok (AddrV4 0xc6120002))); [reflexivity | exact Hst | exact H1] |].
  apply conc_nil.
Defined.
