(* ===== verification/ExpiringMap.v ===== *)
(** * The expiring map

    [common/expiringmap]: a map whose values live for a fixed time, with one
    timer and a binary heap of the entries by expiry.  An entry is shared by the
    map and the heap and holds its own position in the heap, so entries are
    cells of a store and both containers hold pointers to them.  The heap
    operations are those of Go's [container/heap].  An access outside of the
    heap, which panics, is [None]; the theorems show that it never happens.

    The map refines a table of values with their expiry; the goroutine that
    removes what has expired is a machine of its own, composed with callers. *)

From S2P Require Import Prelude.
From stdpp Require Import base gmap list strings numbers fin_sets.
From Stdlib Require Import ZArith Lia.

Local Open Scope Z_scope.

(** ** Entries and the heap *)

Record entry (K V : Type) : Type := mkEntry {
  e_key : K;
  e_value : V;
  e_expiresAt : Z;
  e_index : Z;
}.
Arguments mkEntry {K V}.
Arguments e_key {K V}.
Arguments e_value {K V}.
Arguments e_expiresAt {K V}.
Arguments e_index {K V}.

(** The cells of the entries and the slice of pointers to them. *)
Record entryHeap (K V : Type) : Type := mkHeap {
  h_cells : gmap nat (entry K V);
  h_queue : list nat;
}.
Arguments mkHeap {K V}.
Arguments h_cells {K V}.
Arguments h_queue {K V}.

Section heap.
Context {K V : Type}.
Implicit Types (h : entryHeap K V) (e : entry K V) (i j n p : nat).

Definition set_index e (z : Z) : entry K V := mkEntry (e_key e) (e_value e) (e_expiresAt e) z.

Definition heap_Len h : nat := length (h_queue h).

(** The entry at a position of the slice. *)
Definition heap_at h i : option (entry K V) := p ← h_queue h !! i; h_cells h !! p.

Definition heap_Less h i j : option bool :=
  ei ← heap_at h i; ej ← heap_at h j; Some (time_before (e_expiresAt ei) (e_expiresAt ej)).

Definition heap_Swap h i j : option (entryHeap K V) :=
  pi ← h_queue h !! i; pj ← h_queue h !! j;
  let queue := <[j := pi]> (<[i := pj]> (h_queue h)) in
  ei ← h_cells h !! pj;
  let cells := <[pj := set_index ei (Z.of_nat i)]> (h_cells h) in
  ej ← cells !! pi;
  Some (mkHeap (<[pi := set_index ej (Z.of_nat j)]> cells) queue).

(** [Push] and [Pop] of the slice, called by the heap algorithms. *)
Definition heap_append h p : option (entryHeap K V) :=
  e ← h_cells h !! p;
  Some (mkHeap (<[p := set_index e (Z.of_nat (heap_Len h))]> (h_cells h)) (h_queue h ++ [p])).

Definition heap_take_last h : option (entryHeap K V * nat) :=
  let last := (heap_Len h - 1)%nat in
  p ← h_queue h !! last;
  e ← h_cells h !! p;
  Some (mkHeap (<[p := set_index e (-1)]> (h_cells h)) (take last (h_queue h)), p).

(** *** [container/heap] *)

(** [up]: the parent of position 0 is 0 (division truncates). *)
Fixpoint heap_up (fuel : nat) h j : option (entryHeap K V) :=
  let i := ((j - 1) / 2)%nat in
  if decide (i = j) then Some h
  else
    less ← heap_Less h j i;
    if negb less then Some h
    else
      h ← heap_Swap h i j;
      match fuel with O => None | S fuel => heap_up fuel h i end.

(** [down]: [true] when the element has moved. *)
Fixpoint heap_down (fuel : nat) h i0 i n : option (entryHeap K V * bool) :=
  let j1 := (2 * i + 1)%nat in
  if decide (n ≤ j1)%nat then Some (h, bool_decide (i0 < i)%nat)
  else
    j ← (if decide (j1 + 1 < n)%nat
         then less ← heap_Less h (j1 + 1) j1; Some (if less : bool then (j1 + 1)%nat else j1)
         else Some j1);
    less ← heap_Less h j i;
    if negb less then Some (h, bool_decide (i0 < i)%nat)
    else
      h ← heap_Swap h i j;
      match fuel with O => None | S fuel => heap_down fuel h i0 j n end.

Definition heap_Push h p : option (entryHeap K V) :=
  h ← heap_append h p; heap_up (heap_Len h) h (heap_Len h - 1).

Definition heap_Pop h : option (entryHeap K V * nat) :=
  let n := (heap_Len h - 1)%nat in
  h ← heap_Swap h 0 n;
  '(h, _) ← heap_down n h 0 0 n;
  heap_take_last h.

Definition heap_Fix h i : option (entryHeap K V) :=
  '(h, moved) ← heap_down (heap_Len h) h i i (heap_Len h);
  if negb moved then heap_up (heap_Len h) h i else Some h.

(** The index of an entry is a signed integer: a popped entry has [-1]. *)
Definition heap_Remove h (i : Z) : option (entryHeap K V * nat) :=
  let n := (heap_Len h - 1)%nat in
  if decide (i < 0) then None
  else
    let i := Z.to_nat i in
    h ← (if decide (n = i) then Some h
         else
           h ← heap_Swap h i n;
           '(h, moved) ← heap_down n h i i n;
           if negb moved then heap_up n h i else Some h);
    heap_take_last h.

(** ** Specification of the heap *)

(** Every pointer of the slice is a cell that knows its position. *)
Definition indexed h : Prop := ∀ i p, h_queue h !! i = Some p →
  ∃ e, h_cells h !! p = Some e ∧ e_index e = Z.of_nat i.

(** What the heap algorithms do not change. *)
Definition payload e : K * V * Z := (e_key e, e_value e, e_expiresAt e).
Definition same_payload h h' : Prop := ∀ p, payload <$> h_cells h !! p = payload <$> h_cells h' !! p.

(** The expiry at a position. *)
Definition expiry h i : Z := default 0 (e_expiresAt <$> heap_at h i).

Definition parent i : nat := ((i - 1) / 2)%nat.

Definition heap_ordered n h : Prop := ∀ i, (0 < i < n)%nat → expiry h (parent i) ≤ expiry h i.

(** The order holds except around a position. *)
Definition ordered_above n h j : Prop :=
  (∀ i, (0 < i < n)%nat → i ≠ j → expiry h (parent i) ≤ expiry h i) ∧
  (∀ i, (0 < i < n)%nat → parent i = j → (0 < j)%nat → expiry h (parent j) ≤ expiry h i).
Definition ordered_below n h i0 : Prop :=
  (∀ i, (0 < i < n)%nat → i ≠ i0 → parent i ≠ i0 → expiry h (parent i) ≤ expiry h i) ∧
  (∀ i, (0 < i < n)%nat → parent i = i0 → (0 < i0)%nat → expiry h (parent i0) ≤ expiry h i).

Definition swapped i j k : nat := if decide (k = i) then j else if decide (k = j) then i else k.

(** A step of an algorithm: the same entries in another order. *)
Definition rearranged h h' : Prop :=
  indexed h' ∧ same_payload h h' ∧ h_queue h' ≡ₚ h_queue h.

Lemma rearranged_refl h : indexed h → rearranged h h.
Proof. intros Hi. by split_and!. Qed.

Lemma rearranged_trans h1 h2 h3 : rearranged h1 h2 → rearranged h2 h3 → rearranged h1 h3.
Proof.
  intros (_ & S1 & P1) (I2 & S2 & P2). split_and!; [done | | by rewrite P2].
  intros p. by rewrite S1.
Qed.

Lemma rearranged_len h h' : rearranged h h' → heap_Len h' = heap_Len h.
Proof. intros (_ & _ & HP). by apply Permutation_length. Qed.

Lemma indexed_at h i : indexed h → (i < heap_Len h)%nat → ∃ p e, h_queue h !! i = Some p ∧ h_cells h !! p = Some e
  ∧ heap_at h i = Some e ∧ e_index e = Z.of_nat i.
Proof.
  intros Hi Hl. destruct (lookup_lt_is_Some_2 (h_queue h) i Hl) as [p Hp].
  destruct (Hi i p Hp) as (e & He & Hx). exists p, e. unfold heap_at. rewrite Hp. by simpl.
Qed.

Lemma indexed_NoDup h : indexed h → NoDup (h_queue h).
Proof.
  intros Hi. apply NoDup_alt. intros i j p Hp1 Hp2.
  destruct (Hi _ _ Hp1) as (e & He & Hx). destruct (Hi _ _ Hp2) as (e' & He' & Hx'). simplify_eq. lia.
Qed.

Lemma indexed_inj h i j p : indexed h → h_queue h !! i = Some p → h_queue h !! j = Some p → i = j.
Proof. intros Hi H1 H2. by eapply NoDup_lookup; [apply (indexed_NoDup h) | |]. Qed.

Lemma heap_Less_spec h i j :
  indexed h → (i < heap_Len h)%nat → (j < heap_Len h)%nat →
  heap_Less h i j = Some (bool_decide (expiry h i < expiry h j)).
Proof.
  intros Hi Hl1 Hl2. destruct (indexed_at h i Hi Hl1) as (p & e & _ & _ & He & _).
  destruct (indexed_at h j Hi Hl2) as (p' & e' & _ & _ & He' & _).
  unfold heap_Less, expiry. rewrite He, He'. done.
Qed.

(** Swapping two positions. *)
Lemma heap_Swap_spec h i j :
  indexed h → (i < heap_Len h)%nat → (j < heap_Len h)%nat →
  ∃ h', heap_Swap h i j = Some h' ∧ rearranged h h' ∧ (∀ k, expiry h' k = expiry h (swapped i j k)) ∧
        ∀ k, h_queue h' !! k = h_queue h !! swapped i j k.
Proof.
  intros Hi Hl1 Hl2. destruct (indexed_at h i Hi Hl1) as (pi & ei & Hpi & Hci & _ & Hxi).
  destruct (indexed_at h j Hi Hl2) as (pj & ej & Hpj & Hcj & _ & Hxj).
  assert (Hlen : (i < length (h_queue h))%nat ∧ (j < length (h_queue h))%nat) by done.
  unfold heap_Swap. rewrite Hpi, Hpj. simpl. rewrite Hcj. simpl.
  assert (Hq : ∀ k, (<[j:=pi]> (<[i:=pj]> (h_queue h))) !! k = h_queue h !! swapped i j k).
  { intros k. unfold swapped. destruct (decide (k = i)) as [-> | Hki].
    - destruct (decide (i = j)) as [-> | Hij].
      + rewrite list_lookup_insert_eq; [congruence | rewrite length_insert; lia].
      + rewrite list_lookup_insert_ne, list_lookup_insert_eq by (done || lia). done.
    - destruct (decide (k = j)) as [-> | Hkj].
      + rewrite list_lookup_insert_eq; [done | rewrite length_insert; lia].
      + by rewrite !list_lookup_insert_ne. }
  destruct (<[pj:=set_index ej (Z.of_nat i)]> (h_cells h) !! pi) as [ei' |] eqn:Hei'.
  2: { destruct (decide (pi = pj)) as [-> | Hne]; [by rewrite lookup_insert_eq in Hei' |].
       rewrite lookup_insert_ne in Hei' by done. congruence. }
  eexists. split; [done |].
  assert (Hpay : same_payload h (mkHeap (<[pi:=set_index ei' (Z.of_nat j)]> (<[pj:=set_index ej (Z.of_nat i)]> (h_cells h)))
                   (<[j:=pi]> (<[i:=pj]> (h_queue h))))).
  { intros p. simpl. destruct (decide (p = pi)) as [-> | Hp].
    - rewrite lookup_insert_eq, Hci. simpl. destruct (decide (pi = pj)) as [-> | Hne].
      + rewrite lookup_insert_eq in Hei'. simplify_eq. done.
      + rewrite lookup_insert_ne in Hei' by done. simplify_eq. done.
    - rewrite lookup_insert_ne by done. destruct (decide (p = pj)) as [-> | Hp'].
      + rewrite lookup_insert_eq, Hcj. done.
      + by rewrite lookup_insert_ne by done. }
  split_and!; [split_and!; [| done |] | | exact Hq].
  - intros k p. simpl. rewrite Hq. intros Hk.
    destruct (decide (p = pi)) as [-> | Hp].
    + rewrite lookup_insert_eq. eexists. split; [done |]. simpl. f_equal.
      assert (swapped i j k = i) by by eapply (indexed_inj h).
      unfold swapped in *. repeat case_decide; congruence.
    + rewrite lookup_insert_ne by done. destruct (decide (p = pj)) as [-> | Hp'].
      * rewrite lookup_insert_eq. eexists. split; [done |]. simpl. f_equal.
        assert (swapped i j k = j) by by eapply (indexed_inj h).
        unfold swapped in *. repeat case_decide; congruence.
      * rewrite lookup_insert_ne by done. destruct (Hi _ _ Hk) as (e & He & Hx). exists e. split; [done |].
        rewrite Hx. f_equal. unfold swapped in *. repeat case_decide; congruence.
  - simpl. apply Permutation_insert_swap; done.
  - intros k. unfold expiry, heap_at. simpl. rewrite Hq. destruct (h_queue h !! swapped i j k) as [p |]; simpl; [| done].
    specialize (Hpay p). simpl in Hpay. destruct (h_cells h !! p), (<[_:=_]> _ !! p); simpl in *; try done.
    unfold payload in Hpay. by simplify_eq.
Qed.

(** The positions that are not swapped keep their pointers. *)
Lemma heap_Swap_far h i j h' k :
  heap_Swap h i j = Some h' → k ≠ i → k ≠ j → h_queue h' !! k = h_queue h !! k.
Proof.
  unfold heap_Swap. intros Hs Hi Hj.
  destruct (h_queue h !! i) as [pi |]; simpl in Hs; [| done].
  destruct (h_queue h !! j) as [pj |]; simpl in Hs; [| done].
  destruct (h_cells h !! pj) as [ej |]; simpl in Hs; [| done].
  destruct (_ !! pi) as [ei |]; simpl in Hs; [| done]. simplify_eq. simpl.
  by rewrite !list_lookup_insert_ne.
Qed.

Lemma parent_lt i : (0 < i)%nat → (parent i < i)%nat.
Proof. intros Hi. unfold parent. apply Nat.Div0.div_lt_upper_bound. lia. Qed.

Lemma parent_child i k : (0 < k)%nat → parent k = i ↔ k = (2 * i + 1)%nat ∨ k = (2 * i + 2)%nat.
Proof.
  intros Hk. unfold parent. pose proof (Nat.div_mod_eq (k - 1) 2). pose proof (Nat.mod_upper_bound (k - 1) 2).
  split; [lia |]. intros [-> | ->]; [by rewrite Nat.add_sub, Nat.mul_comm, Nat.div_mul |].
  replace (2 * i + 2 - 1)%nat with (1 + i * 2)%nat by lia. by rewrite Nat.div_add.
Qed.

Lemma swapped_l i j : swapped i j i = j.
Proof. unfold swapped. by rewrite decide_True. Qed.
Lemma swapped_r i j : swapped i j j = i.
Proof. unfold swapped. by repeat case_decide. Qed.
Lemma swapped_ne i j k : k ≠ i → k ≠ j → swapped i j k = k.
Proof. intros. unfold swapped. by rewrite !decide_False. Qed.

(** One step up: the element is at its parent now. *)
Lemma ordered_above_step n h h' j :
  ordered_above n h j → (0 < j < n)%nat → expiry h j < expiry h (parent j) →
  (∀ k, expiry h' k = expiry h (swapped (parent j) j k)) → ordered_above n h' (parent j).
Proof.
  intros [H1 H2] Hj Hless Hs. pose proof (parent_lt j ltac:(lia)) as Hpj. split.
  - intros i Hi Hne. rewrite !Hs. pose proof (parent_lt i ltac:(lia)).
    destruct (decide (i = j)) as [-> | Hij].
    + rewrite swapped_r, swapped_l. lia.
    + rewrite (swapped_ne _ _ i) by done. destruct (decide (parent i = j)) as [Hpi | Hpi].
      * rewrite Hpi, swapped_r. apply H2; [done | done | lia].
      * destruct (decide (parent i = parent j)) as [Hpp | Hpp].
        { rewrite Hpp, swapped_l. specialize (H1 i Hi Hij). rewrite Hpp in H1. lia. }
        rewrite swapped_ne by done. by apply H1.
  - intros i Hi Hpi Hpos. rewrite !Hs. pose proof (parent_lt (parent j) Hpos).
    rewrite (swapped_ne _ _ (parent (parent j))) by lia.
    assert (expiry h (parent (parent j)) ≤ expiry h (parent j)) by (apply H1; lia).
    destruct (decide (i = j)) as [-> | Hij]; [by rewrite swapped_r |].
    rewrite swapped_ne by (try done; intros ->; lia). specialize (H1 i Hi Hij). rewrite Hpi in H1. lia.
Qed.

Lemma heap_up_spec fuel n h j :
  indexed h → (n ≤ heap_Len h)%nat → (j < n)%nat → (j ≤ fuel)%nat → ordered_above n h j →
  ∃ h', heap_up fuel h j = Some h' ∧ rearranged h h' ∧ heap_ordered n h' ∧
        ∀ k, (n ≤ k)%nat → h_queue h' !! k = h_queue h !! k.
Proof.
  revert h j. induction fuel as [|fuel IH]; intros h j Hi Hn Hj Hf Ho; cbn [heap_up]; fold (parent j).
  - assert (j = 0)%nat as -> by lia. rewrite decide_True by done. exists h.
    split_and!; [done | by apply rearranged_refl | | done]. intros i Hi'. apply Ho; lia.
  - destruct (decide (parent j = j)) as [Hpj | Hpj].
    { exists h. split_and!; [done | by apply rearranged_refl | | done].
      assert (j = 0)%nat as -> by (destruct j; [done | pose proof (parent_lt (S j)); lia]).
      intros i Hi'. apply Ho; lia. }
    assert (0 < j)%nat by (destruct j; [by destruct Hpj | lia]). pose proof (parent_lt j ltac:(lia)) as Hlt.
    rewrite heap_Less_spec by (done || lia). simpl. case_bool_decide as Hless; simpl.
    2: { exists h. split_and!; [done | by apply rearranged_refl | | done]. intros i Hi'.
         destruct (decide (i = j)) as [-> | Hne]; [lia | by apply Ho]. }
    destruct (heap_Swap_spec h (parent j) j Hi) as (h1 & Hsw & Hr & Hs & _); [lia | lia |].
    rewrite Hsw. simpl. pose proof Hr as (Hi1 & _ & _).
    destruct (IH h1 (parent j)) as (h' & Hup & Hr' & Hord & Hk);
      [done | by rewrite (rearranged_len _ _ Hr) | lia | lia | by eapply ordered_above_step |].
    exists h'. split_and!; [done | by eapply rearranged_trans | done |].
    intros k Hkn. rewrite Hk by done. by eapply heap_Swap_far; [done | lia | lia].
Qed.

(** One step down: the element is at its least child now. *)
Lemma ordered_below_step n h h' i j :
  ordered_below n h i → (0 < j < n)%nat → parent j = i → expiry h j < expiry h i →
  (∀ k, (0 < k < n)%nat → parent k = i → expiry h j ≤ expiry h k) →
  (∀ k, expiry h' k = expiry h (swapped i j k)) →
  ordered_below n h' j ∧ expiry h' (parent j) ≤ expiry h' j.
Proof.
  intros [H1 H2] Hj Hp Hless Hleast Hs. pose proof (parent_lt j ltac:(lia)) as Hij. rewrite Hp in Hij.
  split; [split |].
  - intros k Hk Hkj Hpk. rewrite !Hs. pose proof (parent_lt k ltac:(lia)).
    destruct (decide (k = i)) as [-> | Hki].
    + rewrite swapped_l, (swapped_ne _ _ (parent i)) by lia. apply H2; [done | done | lia].
    + rewrite (swapped_ne _ _ k) by done. destruct (decide (parent k = i)) as [Hpi | Hpi].
      * rewrite Hpi, swapped_l. by apply Hleast.
      * rewrite swapped_ne by done. by apply H1.
  - intros k Hk Hpk _. rewrite !Hs, Hp, swapped_l. pose proof (parent_lt k ltac:(lia)).
    rewrite swapped_ne by lia. specialize (H1 k Hk ltac:(lia) ltac:(lia)). by rewrite Hpk in H1.
  - rewrite !Hs, Hp, swapped_l, swapped_r. lia.
Qed.

(** The outcome of a [down] that started at [i0]. *)
Definition settled n h i0 h' (moved : bool) : Prop :=
  rearranged h h' ∧ (∀ k, (n ≤ k)%nat → h_queue h' !! k = h_queue h !! k) ∧
  if moved then heap_ordered n h' else ordered_above n h' i0.

Lemma settled_here n h i0 i :
  indexed h → (i0 ≤ i)%nat → ordered_below n h i → ((i0 < i)%nat → expiry h (parent i) ≤ expiry h i) →
  (∀ k, (0 < k < n)%nat → parent k = i → expiry h i ≤ expiry h k) →
  settled n h i0 h (bool_decide (i0 < i)%nat).
Proof.
  intros Hi Hle [H1 H2] Hup Hdown. split_and!; [by apply rearranged_refl | done |].
  assert (Hall : ∀ k, (0 < k < n)%nat → k ≠ i → expiry h (parent k) ≤ expiry h k).
  { intros k Hk Hne. destruct (decide (parent k = i)) as [Hp | Hp]; [rewrite Hp; by apply Hdown | by apply H1]. }
  case_bool_decide as Hm.
  - intros k Hk. destruct (decide (k = i)) as [-> | Hne]; [by apply Hup | by apply Hall].
  - assert (i = i0) as -> by lia. split; [done | apply H2].
Qed.

(** The child [down] compares with is the least one. *)
Lemma least_child h i n :
  indexed h → (n ≤ heap_Len h)%nat → (2 * i + 1 < n)%nat →
  ∃ j, (if decide (2 * i + 1 + 1 < n)%nat
        then less ← heap_Less h (2 * i + 1 + 1) (2 * i + 1); Some (if less : bool then (2 * i + 1 + 1)%nat else (2 * i + 1)%nat)
        else Some (2 * i + 1)%nat) = Some j ∧
       (0 < j < n)%nat ∧ parent j = i ∧ ∀ k, (0 < k < n)%nat → parent k = i → expiry h j ≤ expiry h k.
Proof.
  intros Hi Hn Hlt. case_decide as H2.
  - rewrite heap_Less_spec by (done || lia). cbn [mbind option_bind]. eexists. split; [done |]. case_bool_decide as Hless.
    + split_and!; [lia | lia | apply parent_child; lia |]. intros k Hk Hp. apply parent_child in Hp; [| lia].
      destruct Hp as [-> | ->]; [lia |]. by replace (2 * i + 2)%nat with (2 * i + 1 + 1)%nat by lia.
    + split_and!; [lia | lia | apply parent_child; lia |]. intros k Hk Hp. apply parent_child in Hp; [| lia].
      destruct Hp as [-> | ->]; [lia |]. replace (2 * i + 2)%nat with (2 * i + 1 + 1)%nat by lia. lia.
  - eexists. split_and!; [done | lia | lia | apply parent_child; lia |].
    intros k Hk Hp. apply parent_child in Hp; [| lia]. destruct Hp as [-> | ->]; lia.
Qed.

Lemma heap_down_spec fuel n h i0 i :
  indexed h → (n ≤ heap_Len h)%nat → (i0 ≤ i)%nat → (n ≤ i + S fuel)%nat → ordered_below n h i →
  ((i0 < i)%nat → expiry h (parent i) ≤ expiry h i) →
  ∃ h' moved, heap_down fuel h i0 i n = Some (h', moved) ∧ settled n h i0 h' moved.
Proof.
  revert h i. induction fuel as [|fuel IH]; intros h i Hi Hn Hle Hf Ho Hup; cbn [heap_down].
  all: destruct (decide (n ≤ 2 * i + 1)%nat) as [Hend | Hlt].
  1, 3: do 2 eexists; split; [done |]; apply settled_here; [done | done | done | done |];
    intros k Hk Hp; apply parent_child in Hp; lia.
  1: lia.
  destruct (least_child h i n Hi Hn ltac:(lia)) as (j & -> & Hj & Hp & Hleast). simpl.
  pose proof (parent_lt j ltac:(lia)) as Hij. rewrite Hp in Hij.
  rewrite heap_Less_spec by (done || lia). simpl. case_bool_decide as Hless; simpl.
  2: { do 2 eexists. split; [done |]. apply settled_here; [done | done | done | done |].
       intros k Hk Hpk. specialize (Hleast k Hk Hpk). lia. }
  destruct (heap_Swap_spec h i j Hi) as (h1 & Hsw & Hr & Hs & _); [lia | lia |]. rewrite Hsw. simpl.
  destruct (ordered_below_step n h h1 i j Ho Hj Hp Hless Hleast Hs) as [Ho1 Hup1]. pose proof Hr as (Hi1 & _ & _).
  destruct (IH h1 j) as (h' & moved & Hd & Hset);
    [done | by rewrite (rearranged_len _ _ Hr) | lia | lia | done | done |].
  exists h', moved. split; [done |]. destruct Hset as (Hr' & Hk & Hord).
  split_and!; [by eapply rearranged_trans | | done].
  intros k Hkn. rewrite Hk by done. by eapply heap_Swap_far; [done | lia | lia].
Qed.

(** *** The operations of the heap *)

Definition heap_wf h : Prop := indexed h ∧ heap_ordered (heap_Len h) h.

Lemma expiry_queue h h' i j : same_payload h h' → h_queue h !! i = h_queue h' !! j → expiry h i = expiry h' j.
Proof.
  intros Hp Hq. unfold expiry, heap_at. rewrite Hq. destruct (h_queue h' !! j) as [p |]; [| done]. simpl.
  specialize (Hp p). unfold payload in Hp.
  destruct (h_cells h !! p), (h_cells h' !! p); simpl in *; simplify_eq; done.
Qed.

Lemma same_payload_index h p e z q :
  h_cells h !! p = Some e → same_payload h (mkHeap (<[p := set_index e z]> (h_cells h)) q).
Proof.
  intros He p'. simpl. destruct (decide (p' = p)) as [-> | Hne]; [by rewrite lookup_insert_eq, He | by rewrite lookup_insert_ne].
Qed.

Lemma heap_Push_spec h p e :
  heap_wf h → h_cells h !! p = Some e → p ∉ h_queue h →
  ∃ h', heap_Push h p = Some h' ∧ heap_wf h' ∧ same_payload h h' ∧ h_queue h' ≡ₚ p :: h_queue h.
Proof.
  intros [Hi Ho] He Hp. unfold heap_Push, heap_append. rewrite He. simpl.
  set (h1 := mkHeap _ _). assert (Hlen : heap_Len h1 = S (heap_Len h)) by (unfold heap_Len; simpl; rewrite length_app; simpl; lia).
  assert (Hpay : same_payload h h1) by by apply same_payload_index.
  assert (Hi1 : indexed h1).
  { intros i p' Hi'. unfold h1 in *. simpl in *. apply lookup_app_Some in Hi' as [Hi' | [Hl Hi']].
    - rewrite lookup_insert_ne by (intros ->; eapply Hp, list_elem_of_lookup_2; done). by apply Hi.
    - apply list_lookup_singleton_Some in Hi' as [Hz ->]. rewrite lookup_insert_eq. eexists. split; [done |].
      simpl. unfold heap_Len. lia. }
  destruct (heap_up_spec (heap_Len h1) (heap_Len h1) h1 (heap_Len h1 - 1)) as (h' & Hup & Hr & Hord & _);
    [done | lia | lia | lia | |].
  { assert (Hx : ∀ i, (i < heap_Len h)%nat → expiry h1 i = expiry h i).
    { intros i Hl. symmetry. apply expiry_queue; [done |]. unfold h1. simpl. by rewrite lookup_app_l. }
    split; [| intros i Hl Hpi; pose proof (parent_lt i ltac:(lia)); lia].
    intros i Hl Hne. pose proof (parent_lt i ltac:(lia)). rewrite !Hx by lia. apply Ho. lia. }
  exists h'. split_and!; [done | | | ].
  - split; [apply Hr |]. by rewrite (rearranged_len _ _ Hr).
  - intros p'. rewrite Hpay. apply Hr.
  - destruct Hr as (_ & _ & ->). unfold h1. simpl. symmetry. apply Permutation_cons_append.
Qed.

(** Taking the last pointer off an array that is ordered below it. *)
Lemma heap_take_last_spec h :
  indexed h → (0 < heap_Len h)%nat → heap_ordered (heap_Len h - 1) h →
  ∃ h' p, heap_take_last h = Some (h', p) ∧ h_queue h !! (heap_Len h - 1)%nat = Some p ∧
    heap_wf h' ∧ same_payload h h' ∧ h_queue h ≡ₚ p :: h_queue h'.
Proof.
  intros Hi Hl Ho. destruct (indexed_at h (heap_Len h - 1) Hi ltac:(lia)) as (p & e & Hp & He & _).
  unfold heap_take_last. rewrite Hp. simpl. rewrite He. simpl. do 2 eexists. split; [done |].
  assert (Hsplit : h_queue h = take (heap_Len h - 1) (h_queue h) ++ [p]).
  { rewrite <- take_S_r by done. replace (S (heap_Len h - 1)) with (length (h_queue h)) by (unfold heap_Len in *; lia).
    by rewrite firstn_all. }
  assert (Hpay : same_payload h (mkHeap (<[p := set_index e (-1)]> (h_cells h)) (take (heap_Len h - 1) (h_queue h))))
    by by apply same_payload_index.
  split_and!; [done | | done |].
  - split.
    + intros i p' Hi'. simpl in *. apply lookup_take_Some in Hi' as [Hq Hlt].
      rewrite lookup_insert_ne; [by apply Hi |]. intros ->.
      assert (i = heap_Len h - 1)%nat by by eapply (indexed_inj h). lia.
    + unfold heap_Len at 1. simpl. rewrite length_take. unfold heap_Len in *.
      intros i Hlt. pose proof (parent_lt i ltac:(lia)).
      rewrite <- !(expiry_queue h _ _ _ Hpay) by (simpl; rewrite lookup_take_lt by lia; done). apply Ho. lia.
  - rewrite Hsplit at 1. simpl. rewrite Permutation_app_comm. done.
Qed.

Lemma heap_Pop_spec h :
  heap_wf h → (0 < heap_Len h)%nat →
  ∃ h' p, heap_Pop h = Some (h', p) ∧ h_queue h !! 0%nat = Some p ∧ heap_wf h' ∧ same_payload h h' ∧
    h_queue h ≡ₚ p :: h_queue h'.
Proof.
  intros [Hi Ho] Hl. unfold heap_Pop. set (n := (heap_Len h - 1)%nat).
  destruct (heap_Swap_spec h 0 n Hi) as (h1 & Hsw & Hr & Hs & Hq); [lia | lia |]. rewrite Hsw. simpl.
  pose proof (rearranged_len _ _ Hr) as Hl1. pose proof Hr as (Hi1 & _ & _).
  destruct (heap_down_spec n n h1 0 0) as (h2 & moved & Hd & Hr2 & Hfar & Hord); [done | lia | done | lia | | lia |].
  { split; [| lia]. intros i Hn Hne Hp. pose proof (parent_lt i ltac:(lia)).
    rewrite !Hs, !swapped_ne by lia. apply Ho. lia. }
  rewrite Hd. simpl. pose proof (rearranged_len _ _ Hr2) as Hl2.
  destruct (heap_take_last_spec h2) as (h' & p & Ht & Hp & Hwf & Hpay & HP); [apply Hr2 | lia | |].
  { replace (heap_Len h2 - 1)%nat with n by lia. destruct moved; [done |]. intros i Hn. apply Hord; lia. }
  exists h', p. replace (heap_Len h2 - 1)%nat with n in Hp by lia. rewrite Hfar, Hq, swapped_r in Hp by lia.
  pose proof (rearranged_trans _ _ _ Hr Hr2) as (_ & Hp12 & HP12).
  split_and!; [done | done | done | intros p'; by rewrite Hp12 | by rewrite <- HP12].
Qed.

Lemma heap_Fix_spec h i :
  indexed h → (i < heap_Len h)%nat → ordered_below (heap_Len h) h i →
  ∃ h', heap_Fix h i = Some h' ∧ rearranged h h' ∧ heap_ordered (heap_Len h') h'.
Proof.
  intros Hi Hl Ho. unfold heap_Fix.
  destruct (heap_down_spec (heap_Len h) (heap_Len h) h i i) as (h1 & moved & Hd & Hr & _ & Hord);
    [done | lia | done | lia | done | lia |].
  rewrite Hd. simpl. pose proof (rearranged_len _ _ Hr) as Hl1. destruct moved; simpl.
  - exists h1. by rewrite Hl1.
  - destruct (heap_up_spec (heap_Len h1) (heap_Len h1) h1 i) as (h' & Hup & Hr' & Hord' & _);
      [apply Hr | lia | lia | lia | by rewrite Hl1 |].
    exists h'. split_and!; [done | by eapply rearranged_trans | by rewrite (rearranged_len _ _ Hr')].
Qed.

Lemma heap_Remove_spec h i p :
  heap_wf h → h_queue h !! i = Some p →
  ∃ h', heap_Remove h (Z.of_nat i) = Some (h', p) ∧ heap_wf h' ∧ same_payload h h' ∧ h_queue h ≡ₚ p :: h_queue h'.
Proof.
  intros [Hi Ho] Hp. assert (Hl : (i < heap_Len h)%nat) by by eapply lookup_lt_Some.
  unfold heap_Remove. rewrite decide_False, Nat2Z.id by lia. set (n := (heap_Len h - 1)%nat).
  destruct (decide (n = i)) as [Hn | Hn].
  - simpl. destruct (heap_take_last_spec h) as (h' & p' & Ht & Hp' & Hwf & Hpay & HP);
      [done | lia | intros k Hk; apply Ho; lia |].
    fold n in Hp'. rewrite Hn, Hp in Hp'. simplify_eq. by exists h'.
  - destruct (heap_Swap_spec h i n Hi) as (h1 & Hsw & Hr & Hs & Hq); [lia | lia |].
    pose proof (rearranged_len _ _ Hr) as Hl1. pose proof Hr as (Hi1 & _ & _).
    destruct (heap_down_spec n n h1 i i) as (h2 & moved & Hd & Hr2 & Hfar & Hord); [done | lia | done | lia | | lia |].
    { split.
      - intros k Hk Hne Hpk. pose proof (parent_lt k ltac:(lia)). rewrite !Hs, !swapped_ne by lia. apply Ho. lia.
      - intros k Hk Hpk Hpos. pose proof (parent_lt k ltac:(lia)). pose proof (parent_lt i ltac:(lia)).
        rewrite !Hs, !swapped_ne by lia. transitivity (expiry h i); [apply Ho; lia |]. rewrite <- Hpk. apply Ho. lia. }
    assert (H3 : ∃ h3, (if negb moved then heap_up n h2 i else Some h2) = Some h3 ∧ rearranged h2 h3 ∧
      heap_ordered n h3 ∧ h_queue h3 !! n = h_queue h2 !! n).
    { destruct moved; simpl; [exists h2; split_and!; [done | apply rearranged_refl, Hr2 | done | done] |].
      destruct (heap_up_spec n n h2 i) as (h3 & Hup & Hr3 & Hord3 & Hfar3);
        [apply Hr2 | rewrite (rearranged_len _ _ Hr2); lia | lia | lia | done |].
      exists h3. split_and!; [done | done | done | by apply Hfar3]. }
    destruct H3 as (h3 & H3 & Hr3 & Hord3 & Hn3).
    rewrite Hsw. simpl. rewrite Hd. simpl. rewrite H3. simpl.
    pose proof (rearranged_trans _ _ _ Hr (rearranged_trans _ _ _ Hr2 Hr3)) as Hr13.
    pose proof (rearranged_len _ _ Hr13) as Hl3.
    destruct (heap_take_last_spec h3) as (h' & p' & Ht & Hp' & Hwf & Hpay & HP);
      [apply Hr3 | lia | by replace (heap_Len h3 - 1)%nat with n by lia |].
    replace (heap_Len h3 - 1)%nat with n in Hp' by lia. rewrite Hn3, Hfar, Hq, swapped_r, Hp in Hp' by lia.
    simplify_eq. destruct Hr13 as (_ & Hp13 & HP13).
    exists h'. split_and!; [done | done | intros q; by rewrite Hp13 | by rewrite <- HP13].
Qed.

(** The entry at the front expires first. *)
Lemma heap_front h i : heap_ordered (heap_Len h) h → (i < heap_Len h)%nat → expiry h 0 ≤ expiry h i.
Proof.
  intros Ho. induction (lt_wf i) as [i _ IH]. intros Hl. destruct (decide (i = 0%nat)) as [-> | Hne]; [lia |].
  pose proof (parent_lt i ltac:(lia)). specialize (IH (parent i) ltac:(lia) ltac:(lia)).
  specialize (Ho i ltac:(lia)). lia.
Qed.
End heap.

(** ** The map *)

Record Map (K V : Type) `{Countable K} : Type := mkMap {
  m_heap : entryHeap K V;
  m_entries : gmap K nat;
  m_mapPeak : nat;
  m_lifetime : Z;
  m_wake : bool;
  m_closed : bool;
}.
Arguments mkMap {K V _ _}.
Arguments m_heap {K V _ _}.
Arguments m_entries {K V _ _}.
Arguments m_mapPeak {K V _ _}.
Arguments m_lifetime {K V _ _}.
Arguments m_wake {K V _ _}.
Arguments m_closed {K V _ _}.

Section map.
Context {K V : Type} `{Countable K}.
(** The zero value of [V]. *)
Variable zero : V.
Implicit Types (m : Map K V) (now : Z) (key : K) (value : V).

(** [None]: the panic on a lifetime that is not positive. *)
Definition New (lifetime : Z) : option (Map K V) :=
  if lifetime <=? 0 then None else Some (mkMap (mkHeap ∅ []) ∅ 0 lifetime false false).

(** The wake channel holds one signal; a full channel is left as it is. *)
Definition notify m : Map K V :=
  mkMap (m_heap m) (m_entries m) (m_mapPeak m) (m_lifetime m) true (m_closed m).

Definition set_heap m (h : entryHeap K V) : Map K V :=
  mkMap h (m_entries m) (m_mapPeak m) (m_lifetime m) (m_wake m) (m_closed m).
Definition set_entries m (entries : gmap K nat) (mapPeak : nat) : Map K V :=
  mkMap (m_heap m) entries mapPeak (m_lifetime m) (m_wake m) (m_closed m).

(** A rebuilt Go map has the same entries. *)
Definition compact m : Map K V :=
  let remaining := size (m_entries m) in
  if decide (remaining = 0)%nat then set_entries m ∅ 0
  else if decide (m_mapPeak m < 1024 ∨ m_mapPeak m / 4 < remaining)%nat then m
  else set_entries m (m_entries m) remaining.

Definition remove m (item : nat) : option (Map K V) :=
  e ← h_cells (m_heap m) !! item;
  '(h, _) ← heap_Remove (m_heap m) (e_index e);
  Some (compact (set_entries (set_heap m h) (delete (e_key e) (m_entries m)) (m_mapPeak m))).

(** [item.value = value; item.expiresAt = expiresAt; heap.Fix(...)]. *)
Definition refresh m (item : nat) value (expiresAt : Z) : option (Map K V) :=
  e ← h_cells (m_heap m) !! item;
  let cells := <[item := mkEntry (e_key e) value expiresAt (e_index e)]> (h_cells (m_heap m)) in
  if decide (e_index e < 0) then None
  else
    h ← heap_Fix (mkHeap cells (h_queue (m_heap m))) (Z.to_nat (e_index e));
    Some (set_heap m h).

(** [item, loaded := m.entries[key]], dropping an expired entry. *)
Definition live_item m now key : option (Map K V * option nat) :=
  match m_entries m !! key with
  | None => Some (m, None)
  | Some item =>
      e ← h_cells (m_heap m) !! item;
      if negb (time_after (e_expiresAt e) now)
      then m ← remove m item; Some (m, None)
      else Some (m, Some item)
  end.

(** The locked part of [storeIf]; the second flag says that the caller wakes the
    goroutine once it has released the lock. *)
Definition storeIf m now key value (allow : option (V → bool → bool)) : option (Map K V * (bool * bool)) :=
  let expiresAt := now + m_lifetime m in
  if m_closed m then Some (m, (false, false))
  else
    '(m, item) ← live_item m now key;
    current ← match item with
              | Some item => e ← h_cells (m_heap m) !! item; Some (e_value e)
              | None => Some zero
              end;
    let allowed := match allow with Some allow => allow current (bool_decide (is_Some item)) | None => true end in
    if negb allowed then Some (m, (false, false))
    else
      match item with
      | Some item =>
          m ← refresh m item value expiresAt;
          Some (m, (true, false))
      | None =>
          let wake := bool_decide (heap_Len (m_heap m) = 0%nat) in
          let item := fresh (dom (h_cells (m_heap m))) in
          let cells := <[item := mkEntry key value expiresAt 0]> (h_cells (m_heap m)) in
          let entries := <[key := item]> (m_entries m) in
          h ← heap_Push (mkHeap cells (h_queue (m_heap m))) item;
          Some (set_entries (set_heap m h) entries (max (m_mapPeak m) (size entries)), (true, wake))
      end.

Definition Load m now key : option (Map K V * option V) :=
  if m_closed m then Some (m, None)
  else
    '(m, item) ← live_item m now key;
    match item with
    | None => Some (m, None)
    | Some item => e ← h_cells (m_heap m) !! item; Some (m, Some (e_value e))
    end.

Definition LoadAndRefresh m now key : option (Map K V * option V) :=
  let expiresAt := now + m_lifetime m in
  if m_closed m then Some (m, None)
  else
    '(m, item) ← live_item m now key;
    match item with
    | None => Some (m, None)
    | Some item =>
        e ← h_cells (m_heap m) !! item;
        m ← refresh m item (e_value e) expiresAt;
        Some (m, Some (e_value e))
    end.

Definition Len m : nat := size (m_entries m).

(** The locked part of [Close]. *)
Definition Close m : Map K V :=
  if m_closed m then m
  else mkMap (mkHeap (h_cells (m_heap m)) []) ∅ 0 (m_lifetime m) (m_wake m) true.

(** The loop of [removeExpired]: at most one round per queued entry. *)
Fixpoint expire_loop (fuel : nat) m now (removed : bool) : option (Map K V * bool) :=
  match h_queue (m_heap m) with
  | [] => Some (m, removed)
  | item :: _ =>
      e ← h_cells (m_heap m) !! item;
      if time_after (e_expiresAt e) now then Some (m, removed)
      else
        '(h, item) ← heap_Pop (m_heap m);
        e ← h_cells h !! item;
        let m := set_entries (set_heap m h) (delete (e_key e) (m_entries m)) (m_mapPeak m) in
        match fuel with O => None | S fuel => expire_loop fuel m now true end
  end.

Definition removeExpired m now : option (Map K V) :=
  '(m, removed) ← expire_loop (heap_Len (m_heap m)) m now false;
  Some (if removed : bool then compact m else m).

(** *** The invariant *)

Definition agree (h : entryHeap K V) (entries : gmap K nat) : Prop := ∀ k p,
  entries !! k = Some p ↔ p ∈ h_queue h ∧ ∃ e, h_cells h !! p = Some e ∧ e_key e = k.

Definition map_ok m : Prop :=
  heap_wf (m_heap m) ∧ agree (m_heap m) (m_entries m) ∧ (size (m_entries m) ≤ m_mapPeak m)%nat ∧
  (m_closed m = true → h_queue (m_heap m) = []).

(** The table the map stands for: values with their expiry. *)
Definition table_of (h : entryHeap K V) (entries : gmap K nat) : gmap K (V * Z) :=
  omap (λ p, (λ e, (e_value e, e_expiresAt e)) <$> h_cells h !! p) entries.
Definition values m : gmap K (V * Z) := table_of (m_heap m) (m_entries m).

Lemma table_of_lookup h entries k :
  table_of h entries !! k = (p ← entries !! k; (λ e, (e_value e, e_expiresAt e)) <$> h_cells h !! p).
Proof. unfold table_of. by rewrite lookup_omap. Qed.

Lemma table_of_payload h h' entries : same_payload h h' → table_of h entries = table_of h' entries.
Proof.
  intros Hp. apply map_eq. intros k. rewrite !table_of_lookup. destruct (entries !! k) as [p |]; [| done]. simpl.
  specialize (Hp p). unfold payload in Hp.
  destruct (h_cells h !! p), (h_cells h' !! p); simpl in *; congruence.
Qed.

Lemma payload_key (h h' : entryHeap K V) p k :
  same_payload h h' →
  (∃ e, h_cells h !! p = Some e ∧ e_key e = k) ↔ (∃ e, h_cells h' !! p = Some e ∧ e_key e = k).
Proof.
  intros Hp. specialize (Hp p). unfold payload in Hp.
  split; intros (e & He & <-); rewrite He in Hp.
  - destruct (h_cells h' !! p) as [e' |]; simpl in Hp; [| done]. injection Hp as -> _ _. by exists e'.
  - destruct (h_cells h !! p) as [e' |]; simpl in Hp; [| done]. injection Hp as <- _ _. by exists e'.
Qed.

Lemma agree_payload h h' entries : same_payload h h' → h_queue h' ≡ₚ h_queue h → agree h entries → agree h' entries.
Proof. intros Hp HP Ha k p. by rewrite (Ha k p), HP, (payload_key h h'). Qed.

(** Dropping the pointer of a key from the queue and the key from the map. *)
Lemma agree_delete h h' entries p e :
  agree h entries → same_payload h h' → h_queue h ≡ₚ p :: h_queue h' → NoDup (h_queue h) →
  h_cells h !! p = Some e → agree h' (delete (e_key e) entries).
Proof.
  intros Ha Hp HP Hnd He k q. rewrite HP in Hnd. apply NoDup_cons in Hnd as [Hnin Hnd].
  assert (Hpe : entries !! e_key e = Some p).
  { apply Ha. split; [rewrite HP; left | eauto]. }
  assert (Hq : ∀ k', (∃ e', h_cells h !! q = Some e' ∧ e_key e' = k') ↔ (∃ e', h_cells h' !! q = Some e' ∧ e_key e' = k')).
  { intros k'. by apply payload_key. }
  destruct (decide (k = e_key e)) as [-> | Hne].
  - rewrite lookup_delete_eq, <- Hq. split; [done |]. intros [Hin Hk].
    assert (entries !! e_key e = Some q) as Hqe by (apply Ha; split; [rewrite HP; by right | done]).
    rewrite Hpe in Hqe. by simplify_eq.
  - rewrite lookup_delete_ne, (Ha k q), HP, Hq, elem_of_cons by done.
    split; [| intros [Hin Hk]; split; [by right | done]]. intros [[-> | Hin] Hk]; [| done].
    apply Hq in Hk as (e' & He' & <-). congruence.
Qed.

(** What an operation leaves alone. *)
Definition same_frame m m' : Prop :=
  m_lifetime m' = m_lifetime m ∧ m_closed m' = m_closed m ∧ m_wake m' = m_wake m.

Lemma same_frame_trans m1 m2 m3 : same_frame m1 m2 → same_frame m2 m3 → same_frame m1 m3.
Proof. intros (? & ? & ?) (? & ? & ?). split_and!; congruence. Qed.

Lemma compact_spec m :
  m_heap (compact m) = m_heap m ∧ m_entries (compact m) = m_entries m ∧ same_frame m (compact m) ∧
  ((size (m_entries m) ≤ m_mapPeak m)%nat → (size (m_entries (compact m)) ≤ m_mapPeak (compact m))%nat).
Proof.
  unfold compact. case_decide as H0; [| case_decide].
  - apply map_size_empty_inv in H0. simpl. rewrite H0. by rewrite map_size_empty.
  - done.
  - simpl. split_and!; [done | done | done | lia].
Qed.

Lemma map_ok_compact m : map_ok m → map_ok (compact m) ∧ values (compact m) = values m ∧ same_frame m (compact m).
Proof.
  intros (Hh & Ha & Hs & Hc). destruct (compact_spec m) as (E1 & E2 & Hf & Hs').
  unfold map_ok, values. rewrite E1, E2 in *. destruct Hf as (Hf1 & Hf2 & Hf3). rewrite Hf2.
  split_and!; [done | done | by apply Hs' | done | done | done].
Qed.

(** The entry of a key and its place in the queue. *)
Lemma entry_of m key p :
  map_ok m → m_entries m !! key = Some p →
  ∃ i e, h_queue (m_heap m) !! i = Some p ∧ h_cells (m_heap m) !! p = Some e ∧ e_key e = key ∧
         e_index e = Z.of_nat i ∧ values m !! key = Some (e_value e, e_expiresAt e).
Proof.
  intros ([Hi _] & Ha & _) Hk. apply Ha in Hk as Hin. destruct Hin as [[i Hq]%list_elem_of_lookup (e & He & Hkey)].
  destruct (Hi _ _ Hq) as (e' & He' & Hx). simplify_eq. exists i, e. split_and!; [done.. |].
  unfold values. rewrite table_of_lookup, Hk. simpl. by rewrite He.
Qed.

Lemma values_None m key : map_ok m → m_entries m !! key = None ↔ values m !! key = None.
Proof.
  intros Hok. split.
  - intros Hk. unfold values. by rewrite table_of_lookup, Hk.
  - intros Hv. destruct (m_entries m !! key) as [p |] eqn:Hk; [| done].
    destruct (entry_of m key p Hok Hk) as (i & e & _ & _ & _ & _ & Hv'). congruence.
Qed.

Lemma delete_spec m h p e :
  map_ok m → m_closed m = false → heap_wf h → same_payload (m_heap m) h →
  h_queue (m_heap m) ≡ₚ p :: h_queue h → h_cells (m_heap m) !! p = Some e →
  let m' := set_entries (set_heap m h) (delete (e_key e) (m_entries m)) (m_mapPeak m) in
  map_ok m' ∧ values m' = delete (e_key e) (values m) ∧ same_frame m m'.
Proof.
  intros (Hh & Ha & Hs & Hc) Hcl Hwf Hp HP He. split; [| split; [| done]].
  - split_and!; simpl; [done | | | congruence].
    + by eapply agree_delete; [| | | apply indexed_NoDup, Hh |].
    + pose proof (size_delete_le (e_key e) (m_entries m)). lia.
  - unfold values. simpl. rewrite <- (table_of_payload _ _ _ Hp). unfold table_of. by rewrite omap_delete.
Qed.

Lemma remove_spec m key p :
  map_ok m → m_closed m = false → m_entries m !! key = Some p →
  ∃ m', remove m p = Some m' ∧ map_ok m' ∧ values m' = delete key (values m) ∧ same_frame m m'.
Proof.
  intros Hok Hcl Hk. destruct (entry_of m key p Hok Hk) as (i & e & Hq & He & <- & Hx & _).
  unfold remove. rewrite He. simpl. rewrite Hx. pose proof Hok as (Hh & _).
  destruct (heap_Remove_spec (m_heap m) i p Hh Hq) as (h & Hr & Hwf & Hp & HP). rewrite Hr. simpl.
  destruct (delete_spec m h p e Hok Hcl Hwf Hp HP He) as (Hok' & Hv & Hf).
  destruct (map_ok_compact _ Hok') as (Hok2 & Hv2 & Hf2).
  eexists. split_and!; [done | done | by rewrite Hv2 | by eapply same_frame_trans].
Qed.

(** Giving an entry another value and expiry, and fixing the heap. *)
Lemma refresh_spec m key p value expiresAt :
  map_ok m → m_closed m = false → m_entries m !! key = Some p →
  ∃ m', refresh m p value expiresAt = Some m' ∧ map_ok m' ∧
        values m' = <[key := (value, expiresAt)]> (values m) ∧ same_frame m m' ∧
        heap_Len (m_heap m') = heap_Len (m_heap m).
Proof.
  intros Hok Hcl Hk. destruct (entry_of m key p Hok Hk) as (i & e & Hq & He & Hkey & Hx & _).
  pose proof Hok as ([Hi Ho] & Ha & Hs & _). unfold refresh. rewrite He. simpl. rewrite Hx.
  rewrite decide_False, Nat2Z.id by lia. set (h1 := mkHeap _ _).
  assert (Hc1 : ∀ q, h_cells h1 !! q = if decide (q = p) then Some (mkEntry (e_key e) value expiresAt (e_index e))
                                       else h_cells (m_heap m) !! q).
  { intros q. unfold h1. simpl. case_decide as Hqp; [subst; by rewrite lookup_insert_eq, Hx | by rewrite lookup_insert_ne]. }
  assert (Hi1 : indexed h1).
  { intros j q Hj. rewrite Hc1. change (h_queue h1) with (h_queue (m_heap m)) in Hj. case_decide as Hqp; [| by apply Hi].
    subst q. eexists. split; [done |]. simpl. rewrite Hx. f_equal. by eapply (indexed_inj (m_heap m)). }
  assert (Hex : ∀ j, j ≠ i → expiry h1 j = expiry (m_heap m) j).
  { intros j Hj. unfold expiry, heap_at. change (h_queue h1) with (h_queue (m_heap m)).
    destruct (h_queue (m_heap m) !! j) as [q |] eqn:Hqj; [| done]. simpl. rewrite Hc1, decide_False; [done |].
    intros ->. apply Hj. by eapply (indexed_inj (m_heap m)). }
  assert (Hl : (i < heap_Len (m_heap m))%nat) by by eapply lookup_lt_Some.
  destruct (heap_Fix_spec h1 i Hi1 Hl) as (h' & Hf & Hr & Hord).
  { change (heap_Len h1) with (heap_Len (m_heap m)). split.
    - intros k Hk' Hne Hpk. rewrite !Hex by done. by apply Ho.
    - intros k Hk' Hpk Hpos. pose proof (parent_lt k ltac:(lia)). pose proof (parent_lt i ltac:(lia)).
      rewrite !Hex by lia. transitivity (expiry (m_heap m) i); [apply Ho; lia |]. rewrite <- Hpk. by apply Ho. }
  rewrite Hf. simpl. destruct Hr as (Hi' & Hp' & HP').
  assert (Ha1 : agree h1 (m_entries m)).
  { intros k q. rewrite (Ha k q), Hc1. case_decide as Hqp; [subst q | done]. rewrite He.
    split; (intros [? (e' & [= <-] & Hk')]; split; [done |]; eexists; by split). }
  eexists. split_and!; [done | | | done |].
  - split_and!; [by split | by eapply agree_payload | done | simpl; congruence].
  - unfold values. simpl. rewrite <- (table_of_payload _ _ _ Hp'). apply map_eq. intros k. rewrite table_of_lookup.
    destruct (decide (k = key)) as [-> | Hne].
    + rewrite lookup_insert_eq, Hk. simpl. by rewrite Hc1, decide_True.
    + rewrite lookup_insert_ne, table_of_lookup by done. destruct (m_entries m !! k) as [q |] eqn:Hkq; [| done]. simpl.
      rewrite Hc1, decide_False; [done |]. intros ->. apply Ha in Hkq as [_ (e' & He' & <-)]. congruence.
  - by apply Permutation_length in HP'.
Qed.

(** Adding an entry for a key that has none. *)
Lemma insert_spec m key value expiresAt :
  map_ok m → m_closed m = false → m_entries m !! key = None →
  let item := fresh (dom (h_cells (m_heap m))) in
  let entries := <[key := item]> (m_entries m) in
  ∃ h, heap_Push (mkHeap (<[item := mkEntry key value expiresAt 0]> (h_cells (m_heap m))) (h_queue (m_heap m))) item = Some h ∧
    let m' := set_entries (set_heap m h) entries (max (m_mapPeak m) (size entries)) in
    map_ok m' ∧ values m' = <[key := (value, expiresAt)]> (values m) ∧ (0 < heap_Len h)%nat.
Proof.
  intros ([Hi Ho] & Ha & Hs & _) Hcl Hk item entries.
  assert (Hfresh : h_cells (m_heap m) !! item = None) by (apply not_elem_of_dom, is_fresh).
  assert (Hnin : item ∉ h_queue (m_heap m)).
  { intros [i Hq]%list_elem_of_lookup. destruct (Hi _ _ Hq) as (e & He & _). congruence. }
  set (h1 := mkHeap _ _).
  assert (Hc1 : ∀ q, q ≠ item → h_cells h1 !! q = h_cells (m_heap m) !! q)
    by (intros q Hq; unfold h1; simpl; by rewrite lookup_insert_ne).
  assert (Hne : ∀ q, q ∈ h_queue (m_heap m) → q ≠ item) by (intros q Hq ->; done).
  assert (Hwf1 : heap_wf h1).
  { split.
    - intros i q Hq. rewrite Hc1 by (eapply Hne, list_elem_of_lookup_2, Hq). by apply Hi.
    - change (heap_Len h1) with (heap_Len (m_heap m)). intros i Hl.
      assert (Hx : ∀ j, expiry h1 j = expiry (m_heap m) j).
      { intros j. unfold expiry, heap_at. change (h_queue h1) with (h_queue (m_heap m)).
        destruct (h_queue (m_heap m) !! j) as [q |] eqn:Hq; [| done]. simpl.
        by rewrite Hc1 by (eapply Hne, list_elem_of_lookup_2, Hq). }
      rewrite !Hx. by apply Ho. }
  assert (Hci : h_cells h1 !! item = Some (mkEntry key value expiresAt 0)) by (unfold h1; simpl; by rewrite lookup_insert_eq).
  destruct (heap_Push_spec h1 item _ Hwf1 Hci Hnin) as (h & Hpush & Hwf & Hp & HP).
  exists h. split; [done |]. simpl. split_and!; [split_and!; simpl; [done | | lia | congruence] | |].
  - intros k q. rewrite HP, <- (payload_key h1 h) by done. unfold entries.
    destruct (decide (q = item)) as [-> | Hq].
    + rewrite Hci. destruct (decide (k = key)) as [-> | Hkk].
      * rewrite lookup_insert_eq. split; [intros _; split; [left | eauto] | done].
      * rewrite lookup_insert_ne by done. split; [intros Hkq; apply Ha in Hkq as [Hin _]; by destruct (Hne _ Hin) |].
        intros [_ (e & [= <-] & Hke)]. simpl in Hke. by destruct Hkk.
    + rewrite Hc1, elem_of_cons by done. destruct (decide (k = key)) as [-> | Hkk].
      * rewrite lookup_insert_eq. split; [intros [= <-]; done |]. intros [[| Hin] Hex]; [done |].
        assert (m_entries m !! key = Some q) by by apply Ha. congruence.
      * rewrite lookup_insert_ne, (Ha k q) by done. change (h_queue h1) with (h_queue (m_heap m)).
        split; [intros [Hin Hex]; split; [by right | done] | intros [[| Hin] Hex]; [done | by split]].
  - unfold values. simpl. rewrite <- (table_of_payload h1 h) by done. apply map_eq. intros k.
    rewrite table_of_lookup. unfold entries. destruct (decide (k = key)) as [-> | Hkk].
    + rewrite !lookup_insert_eq. simpl. by rewrite lookup_insert_eq.
    + rewrite !lookup_insert_ne, table_of_lookup by done. destruct (m_entries m !! k) as [q |] eqn:Hkq; [| done]. simpl.
      apply Ha in Hkq as [Hin _]. rewrite lookup_insert_ne; [done |]. intros <-. by destruct (Hne _ Hin).
  - apply Permutation_length in HP. unfold heap_Len. rewrite HP. simpl. lia.
Qed.

(** ** The specification: a table of values with their expiry *)

Record ttl_table : Type := mkTable {
  t_values : gmap K (V * Z);
  t_lifetime : Z;
  t_closed : bool;
}.

Definition table m : ttl_table := mkTable (values m) (m_lifetime m) (m_closed m).

(** The value of a key that has not expired. *)
Definition live (t : gmap K (V * Z)) now key : option V :=
  '(v, x) ← t !! key; if time_after x now then Some v else None.

(** The table without the key if it has expired. *)
Definition drop_expired (t : gmap K (V * Z)) now key : gmap K (V * Z) :=
  match live t now key with Some _ => t | None => delete key t end.

Inductive op : Type :=
| OpStoreIf (key : K) (value : V) (allow : option (V → bool → bool))
| OpLoad (key : K)
| OpLoadAndRefresh (key : K)
| OpLen
| OpRemoveExpired
| OpClose.

Inductive out : Type :=
| OutBool (b : bool)
| OutValue (v : option V)
| OutLen (n : nat)
| OutNone.

Definition spec_exec (t : ttl_table) now (o : op) : ttl_table * out :=
  let set vs := mkTable vs (t_lifetime t) (t_closed t) in
  match o with
  | OpStoreIf key value allow =>
      if t_closed t then (t, OutBool false)
      else
        let current := live (t_values t) now key in
        let vs := drop_expired (t_values t) now key in
        if match allow with Some allow => allow (default zero current) (bool_decide (is_Some current)) | None => true end
        then (set (<[key := (value, now + t_lifetime t)]> vs), OutBool true)
        else (set vs, OutBool false)
  | OpLoad key =>
      if t_closed t then (t, OutValue None)
      else (set (drop_expired (t_values t) now key), OutValue (live (t_values t) now key))
  | OpLoadAndRefresh key =>
      if t_closed t then (t, OutValue None)
      else
        match live (t_values t) now key with
        | Some v => (set (<[key := (v, now + t_lifetime t)]> (t_values t)), OutValue (Some v))
        | None => (set (drop_expired (t_values t) now key), OutValue None)
        end
  | OpLen => (t, OutLen (size (t_values t)))
  | OpRemoveExpired => (set (filter (λ kv, now < kv.2.2) (t_values t)), OutNone)
  | OpClose => (mkTable (if t_closed t then t_values t else ∅) (t_lifetime t) true, OutNone)
  end.

(** The operations of the code, under their names. *)
Definition exec m now (o : op) : option (Map K V * out) :=
  match o with
  | OpStoreIf key value allow => '(m, (stored, _)) ← storeIf m now key value allow; Some (m, OutBool stored)
  | OpLoad key => '(m, v) ← Load m now key; Some (m, OutValue v)
  | OpLoadAndRefresh key => '(m, v) ← LoadAndRefresh m now key; Some (m, OutValue v)
  | OpLen => Some (m, OutLen (Len m))
  | OpRemoveExpired => m ← removeExpired m now; Some (m, OutNone)
  | OpClose => Some (Close m, OutNone)
  end.

Lemma live_item_spec m now key :
  map_ok m → m_closed m = false →
  ∃ m' item, live_item m now key = Some (m', item) ∧ map_ok m' ∧ same_frame m m' ∧
    values m' = drop_expired (values m) now key ∧
    match item with
    | Some p => m' = m ∧ m_entries m !! key = Some p ∧
                ∃ e, h_cells (m_heap m) !! p = Some e ∧ live (values m) now key = Some (e_value e)
    | None => live (values m) now key = None ∧ m_entries m' !! key = None
    end.
Proof.
  intros Hok Hcl. unfold live_item, drop_expired, live.
  destruct (m_entries m !! key) as [p |] eqn:Hk.
  - destruct (entry_of m key p Hok Hk) as (i & e & Hq & He & Hkey & Hx & ->). rewrite He. simpl.
    destruct (time_after (e_expiresAt e) now) eqn:Ht; simpl.
    + exists m, (Some p). split_and!; try done. by exists e.
    + destruct (remove_spec m key p Hok Hcl Hk) as (m' & Hr & Hok' & Hv & Hf). rewrite Hr. simpl.
      exists m', None. split_and!; try done.
      apply (values_None m' key Hok'). by rewrite Hv, lookup_delete_eq.
  - pose proof (proj1 (values_None m key Hok) Hk) as Hv. rewrite Hv. simpl.
    exists m, None. split_and!; try done. by rewrite delete_id.
Qed.

Lemma live_item_empty m m' now key item :
  live_item m now key = Some (m', item) → h_queue (m_heap m) = [] → map_ok m → h_queue (m_heap m') = [].
Proof.
  unfold live_item. intros Hli Hq Hok. destruct (m_entries m !! key) as [p |] eqn:Hk; [| by simplify_eq].
  destruct (entry_of m key p Hok Hk) as (i & e & Hqi & _). by rewrite Hq in Hqi.
Qed.

Lemma storeIf_spec m now key value allow :
  map_ok m →
  ∃ m' stored wake, storeIf m now key value allow = Some (m', (stored, wake)) ∧ map_ok m' ∧ same_frame m m' ∧
    spec_exec (table m) now (OpStoreIf key value allow) = (table m', OutBool stored) ∧
    (h_queue (m_heap m) = [] → h_queue (m_heap m') ≠ [] → wake = true).
Proof.
  intros Hok. unfold storeIf. unfold spec_exec. cbn [t_closed table].
  destruct (m_closed m) eqn:Hcl; [by exists m, false, false |].
  destruct (live_item_spec m now key Hok Hcl) as (m1 & item & Hli & Hok1 & Hf1 & Hv1 & Hitem). rewrite Hli.
  pose proof Hf1 as (Hl1 & Hc1 & Hw1). rewrite Hcl in Hc1. cbn [mbind option_bind t_values t_lifetime table].
  destruct item as [p |].
  - destruct Hitem as (-> & Hk & e & He & Hlive). rewrite He. cbn [mbind option_bind].
    rewrite Hlive. cbn [default]. unfold id. rewrite !bool_decide_eq_true_2 by done.
    destruct (match allow with Some allow => allow (e_value e) true | None => true end); cbn [negb].
    + destruct (refresh_spec m key p value (now + m_lifetime m) Hok Hcl Hk) as (m2 & -> & Hok2 & Hv2 & Hf2 & Hl2).
      exists m2, true, false. cbn [mbind option_bind]. pose proof Hf2 as (E1 & E2 & E3).
      split_and!; [done | done | done | | ].
      * unfold table. by rewrite E1, E2, Hcl, Hv2, <- Hv1.
      * intros Hq Hq'. unfold heap_Len in Hl2. rewrite Hq in Hl2. by destruct (h_queue (m_heap m2)).
    + exists m, false, false. split_and!; [done | done | done | unfold table; by rewrite Hcl, <- Hv1 | done].
  - destruct Hitem as (Hlive & Hk). rewrite Hlive. cbn [default mbind option_bind].
    change (bool_decide (is_Some (None : option nat))) with false. change (bool_decide (is_Some (None : option V))) with false.
    destruct (match allow with Some allow => allow zero false | None => true end); cbn [negb].
    + destruct (insert_spec m1 key value (now + m_lifetime m) Hok1 Hc1 Hk) as (h & Hpush & Hok2 & Hv2 & Hlen).
      rewrite Hpush. cbn [mbind option_bind]. eexists _, true, _. split_and!; [done | done | | | ].
      * done.
      * unfold table. cbn [m_lifetime m_closed set_entries set_heap]. by rewrite Hv2, Hv1, Hl1, Hc1.
      * intros Hq _. apply bool_decide_eq_true_2. unfold heap_Len. by rewrite (live_item_empty _ _ _ _ _ Hli).
    + exists m1, false, false. split_and!; [done | done | done | unfold table; by rewrite Hl1, Hc1, <- Hv1 |].
      intros Hq Hq'. destruct Hq'. by eapply live_item_empty.
Qed.

Lemma Load_spec m now key :
  map_ok m →
  ∃ m' v, Load m now key = Some (m', v) ∧ map_ok m' ∧ same_frame m m' ∧
    spec_exec (table m) now (OpLoad key) = (table m', OutValue v).
Proof.
  intros Hok. unfold Load, spec_exec. cbn [t_closed table]. destruct (m_closed m) eqn:Hcl; [by exists m, None |].
  destruct (live_item_spec m now key Hok Hcl) as (m1 & item & -> & Hok1 & Hf1 & Hv1 & Hitem).
  pose proof Hf1 as (Hl1 & Hc1 & _). rewrite Hcl in Hc1. cbn [mbind option_bind t_values t_lifetime table].
  destruct item as [p |].
  - destruct Hitem as (-> & Hk & e & He & Hlive). rewrite He, Hlive. eexists _, _. split_and!; [done | done | done |].
    unfold table. by rewrite Hc1, <- Hv1.
  - destruct Hitem as (Hlive & Hk). rewrite Hlive. eexists _, _. split_and!; [done | done | done |].
    unfold table. by rewrite Hl1, Hc1, <- Hv1.
Qed.

Lemma LoadAndRefresh_spec m now key :
  map_ok m →
  ∃ m' v, LoadAndRefresh m now key = Some (m', v) ∧ map_ok m' ∧ same_frame m m' ∧
    spec_exec (table m) now (OpLoadAndRefresh key) = (table m', OutValue v).
Proof.
  intros Hok. unfold LoadAndRefresh, spec_exec. cbn [t_closed table]. destruct (m_closed m) eqn:Hcl; [by exists m, None |].
  destruct (live_item_spec m now key Hok Hcl) as (m1 & item & -> & Hok1 & Hf1 & Hv1 & Hitem).
  pose proof Hf1 as (Hl1 & Hc1 & _). rewrite Hcl in Hc1. cbn [mbind option_bind t_values t_lifetime table].
  destruct item as [p |].
  - destruct Hitem as (-> & Hk & e & He & Hlive). rewrite He, Hlive. cbn [mbind option_bind].
    destruct (refresh_spec m key p (e_value e) (now + m_lifetime m) Hok Hcl Hk) as (m2 & -> & Hok2 & Hv2 & Hf2 & _).
    eexists _, _. split_and!; [done | done | done |]. destruct Hf2 as (E1 & E2 & _). unfold table. by rewrite E1, E2, Hcl, Hv2.
  - destruct Hitem as (Hlive & Hk). rewrite Hlive. eexists _, _. split_and!; [done | done | done |].
    unfold table. by rewrite Hl1, Hc1, <- Hv1.
Qed.

(** The rest of the queue is live once the front is. *)
Lemma front_live m now p q e :
  map_ok m → h_queue (m_heap m) = p :: q → h_cells (m_heap m) !! p = Some e → now < e_expiresAt e →
  filter (λ kv, now < kv.2.2) (values m) = values m.
Proof.
  intros Hok Hq He Hlt. apply map_filter_id. intros k [v x] Hv. simpl.
  destruct (m_entries m !! k) as [p' |] eqn:Hk; [| apply (values_None m k Hok) in Hk; congruence].
  destruct (entry_of m k p' Hok Hk) as (i & e' & Hqi & He' & _ & _ & Hv'). simplify_eq.
  pose proof Hok as ([_ Ho] & _). pose proof (heap_front (m_heap m) i Ho ltac:(by eapply lookup_lt_Some)) as Hle.
  unfold expiry, heap_at in Hle. rewrite Hqi, Hq in Hle. simpl in Hle. rewrite He, He' in Hle. simpl in Hle. lia.
Qed.

Lemma expire_loop_spec fuel m now removed :
  map_ok m → (heap_Len (m_heap m) ≤ fuel)%nat →
  ∃ m' removed', expire_loop fuel m now removed = Some (m', removed') ∧ map_ok m' ∧ same_frame m m' ∧
    values m' = filter (λ kv, now < kv.2.2) (values m).
Proof.
  revert m removed. induction fuel as [|fuel IH]; intros m removed Hok Hl; cbn [expire_loop].
  all: destruct (h_queue (m_heap m)) as [|p q] eqn:Hq.
  1, 3: exists m, removed; split_and!; [done | done | done |]; symmetry; apply map_filter_id; intros k [v x] Hv;
    exfalso; destruct (m_entries m !! k) as [p |] eqn:Hk; [| apply (values_None m k Hok) in Hk; congruence];
    destruct (entry_of m k p Hok Hk) as (i & e & Hqi & _); by rewrite Hq in Hqi.
  { unfold heap_Len in Hl. rewrite Hq in Hl. simpl in Hl. lia. }
  pose proof Hok as (Hwf & _ & _ & Hcl). destruct (m_closed m) eqn:Hc; [by rewrite Hcl in Hq |].
  destruct (indexed_at (m_heap m) 0 (proj1 Hwf)) as (p0 & e & Hp0 & He & _); [unfold heap_Len; rewrite Hq; simpl; lia |].
  rewrite Hq in Hp0. injection Hp0 as <-. rewrite He. cbn [mbind option_bind]. unfold time_after.
  case_bool_decide as Ht.
  { exists m, removed. split_and!; [done | done | done |]. symmetry. by eapply front_live. }
  destruct (heap_Pop_spec (m_heap m) Hwf) as (h & p' & Hpop & Hp' & Hwf' & Hpay & HP); [unfold heap_Len; rewrite Hq; simpl; lia |].
  rewrite Hq in Hp'. injection Hp' as <-. rewrite Hpop. cbn [mbind option_bind].
  destruct (delete_spec m h p e Hok Hc Hwf' Hpay HP He) as (Hok1 & Hv1 & Hf1).
  pose proof (Hpay p) as Hpe. rewrite He in Hpe. destruct (h_cells h !! p) as [e' |] eqn:He'; simpl in Hpe; [| done].
  assert (e_key e' = e_key e) as Hke by (unfold payload in Hpe; congruence). cbn [mbind option_bind]. rewrite Hke.
  destruct (IH _ true Hok1) as (m' & removed' & Hloop & Hok' & Hf' & Hv').
  { simpl. apply Permutation_length in HP. unfold heap_Len in *. rewrite HP in Hl. simpl in Hl. lia. }
  exists m', removed'. split_and!; [done | done | by eapply same_frame_trans |].
  rewrite Hv', Hv1. apply map_filter_delete_not. intros [v x] Hv. simpl.
  assert (m_entries m !! e_key e = Some p) as Hk.
  { apply Hok. split; [rewrite Hq; left | eauto]. }
  destruct (entry_of m _ p Hok Hk) as (i & e2 & _ & He2 & _ & _ & Hv2). simplify_eq. lia.
Qed.

Lemma removeExpired_spec m now :
  map_ok m → ∃ m', removeExpired m now = Some m' ∧ map_ok m' ∧ same_frame m m' ∧
    values m' = filter (λ kv, now < kv.2.2) (values m).
Proof.
  intros Hok. unfold removeExpired.
  destruct (expire_loop_spec (heap_Len (m_heap m)) m now false Hok) as (m1 & removed & -> & Hok1 & Hf1 & Hv1); [done |].
  cbn [mbind option_bind]. destruct removed; [| by exists m1].
  destruct (map_ok_compact m1 Hok1) as (Hok2 & Hv2 & Hf2). exists (compact m1).
  split_and!; [done | done | by eapply same_frame_trans | congruence].
Qed.

Lemma map_ok_empty cells lifetime wake closed : map_ok (mkMap (mkHeap cells []) ∅ 0 lifetime wake closed).
Proof.
  split_and!; simpl; [split; [done |] | | | done].
  - intros i. unfold heap_Len. simpl. lia.
  - intros k p. rewrite lookup_empty. split; [done |]. intros [Hin _]. by apply not_elem_of_nil in Hin.
  - by rewrite map_size_empty.
Qed.

Lemma values_closed m : map_ok m → m_closed m = true → values m = ∅ ∧ m_entries m = ∅.
Proof.
  intros Hok Hc. assert (Hn : ∀ k, m_entries m !! k = None).
  { intros k. destruct (m_entries m !! k) as [p |] eqn:Hk; [| done].
    destruct (entry_of m k p Hok Hk) as (i & e & Hq & _). destruct Hok as (_ & _ & _ & Hcl). by rewrite (Hcl Hc) in Hq. }
  split; apply map_empty; [| done]. intros k. by apply (values_None m k Hok).
Qed.

Lemma Close_spec m : map_ok m → map_ok (Close m) ∧ spec_exec (table m) 0 OpClose = (table (Close m), OutNone).
Proof.
  intros Hok. unfold Close, spec_exec. cbn [t_closed t_values t_lifetime table].
  destruct (m_closed m) eqn:Hc.
  - split; [done |]. unfold table. by rewrite Hc.
  - split; [apply map_ok_empty |]. unfold table, values, table_of. simpl. by rewrite omap_empty.
Qed.

Lemma Len_spec m : map_ok m → Len m = size (values m).
Proof.
  intros Hok. unfold Len. rewrite <- !size_dom. f_equal. apply set_eq. intros k.
  rewrite !elem_of_dom, <- !not_eq_None_Some. by rewrite (values_None m k Hok).
Qed.

(** Every operation of the map succeeds (no access outside the heap), keeps its
    invariant and does what the specification does. *)
Lemma exec_spec m now o :
  map_ok m → ∃ m' r, exec m now o = Some (m', r) ∧ map_ok m' ∧ spec_exec (table m) now o = (table m', r).
Proof.
  intros Hok. destruct o as [key value allow | key | key | | |]; cbn [exec].
  - destruct (storeIf_spec m now key value allow Hok) as (m' & stored & wake & -> & Hok' & _ & Hs & _). by eexists _, _.
  - destruct (Load_spec m now key Hok) as (m' & v & -> & Hok' & _ & Hs). by eexists _, _.
  - destruct (LoadAndRefresh_spec m now key Hok) as (m' & v & -> & Hok' & _ & Hs). by eexists _, _.
  - eexists _, _. split_and!; [done | done |]. simpl. by rewrite Len_spec.
  - destruct (removeExpired_spec m now Hok) as (m' & -> & Hok' & (Hl & Hc & _) & Hv). eexists _, _. split_and!; [done | done |].
    unfold table. simpl. by rewrite Hv, Hl, Hc.
  - destruct (Close_spec m Hok) as [Hok' Hs]. eexists _, _. split_and!; [done | done | done].
Qed.

(** Runs of operations, each at its own reading of the clock. *)
Fixpoint execs m (l : list (Z * op)) : option (Map K V * list out) :=
  match l with
  | [] => Some (m, [])
  | (now, o) :: l => '(m, r) ← exec m now o; '(m, rs) ← execs m l; Some (m, r :: rs)
  end.
Fixpoint spec_execs (t : ttl_table) (l : list (Z * op)) : ttl_table * list out :=
  match l with
  | [] => (t, [])
  | (now, o) :: l => let '(t, r) := spec_exec t now o in let '(t, rs) := spec_execs t l in (t, r :: rs)
  end.

Lemma execs_spec m l :
  map_ok m → ∃ m' rs, execs m l = Some (m', rs) ∧ map_ok m' ∧ spec_execs (table m) l = (table m', rs).
Proof.
  revert m. induction l as [|[now o] l IH]; intros m Hok; cbn [execs spec_execs]; [by eexists _, _ |].
  destruct (exec_spec m now o Hok) as (m1 & r & -> & Hok1 & ->). cbn [mbind option_bind].
  destruct (IH m1 Hok1) as (m' & rs & -> & Hok' & ->). by eexists _, _.
Qed.

Lemma New_ok lifetime m : New lifetime = Some m → map_ok m ∧ table m = mkTable ∅ lifetime false ∧ 0 < lifetime.
Proof.
  unfold New. destruct (lifetime <=? 0) eqn:E; [done |]. boolprop. intros [= <-].
  split_and!; [apply map_ok_empty | | done]. unfold table, values, table_of. simpl. by rewrite omap_empty.
Qed.

(** C38. A new map answers every sequence of operations, at whatever times, as the
    table of values with expiries does: the binary heap with its indices never
    loses, duplicates or misplaces an entry, and nothing panics. *)
Theorem expiringmap_refines lifetime m l :
  New lifetime = Some m →
  ∃ m' rs, execs m l = Some (m', rs) ∧ map_ok m' ∧ spec_execs (mkTable ∅ lifetime false) l = (table m', rs).
Proof.
  intros (Hok & Ht & _)%New_ok. destruct (execs_spec m l Hok) as (m' & rs & He & Hok' & Hs).
  exists m', rs. by rewrite <- Ht.
Qed.

(** ** The goroutine *)

(** Where [run] is: at the top of its loop, blocked on the wake channel, blocked
    on the timer of a deadline (or the wake channel), or gone. *)
Inductive run_pc : Type :=
| RunTop
| RunWait
| RunTimer (deadline : Z)
| RunDone.

(** One iteration under the lock. *)
Definition run_top m now : option (Map K V * run_pc) :=
  if m_closed m then Some (m, RunDone)
  else
    m ← removeExpired m now;
    match h_queue (m_heap m) with
    | [] => Some (m, RunWait)
    | item :: _ => e ← h_cells (m_heap m) !! item; Some (m, RunTimer (e_expiresAt e))
    end.

(** [wait := time.Until(...); if wait < 0 { wait = 0 }]. *)
Definition timer_wait (deadline now : Z) : Z :=
  let wait := time_sub deadline now in if wait <? 0 then 0 else wait.

Definition take_wake m : Map K V :=
  mkMap (m_heap m) (m_entries m) (m_mapPeak m) (m_lifetime m) false (m_closed m).

(** The map, the goroutine, the callers that have released the lock and are
    about to signal, and the clock. *)
Record system : Type := mkSystem {
  s_map : Map K V;
  s_pc : run_pc;
  s_notifiers : nat;
  s_clock : Z;
}.

Section run.
(** A caller reads the clock before it gets the lock; it waits for the lock at
    most this long. *)
Variable slack : Z.
Hypothesis slack_nonneg : 0 ≤ slack.

Inductive system_step : system → system → Prop :=
| step_tick m pc n c c' : c ≤ c' → system_step (mkSystem m pc n c) (mkSystem m pc n c')
| step_store m pc n c now key value allow m' stored wake :
    c - slack ≤ now ≤ c → storeIf m now key value allow = Some (m', (stored, wake)) →
    system_step (mkSystem m pc n c) (mkSystem m' pc (if wake then S n else n) c)
| step_load m pc n c now key m' v :
    c - slack ≤ now ≤ c → Load m now key = Some (m', v) →
    system_step (mkSystem m pc n c) (mkSystem m' pc n c)
| step_refresh m pc n c now key m' v :
    c - slack ≤ now ≤ c → LoadAndRefresh m now key = Some (m', v) →
    system_step (mkSystem m pc n c) (mkSystem m' pc n c)
| step_close m pc n c : system_step (mkSystem m pc n c) (mkSystem (Close m) pc (S n) c)
| step_notify m pc n c : system_step (mkSystem m pc (S n) c) (mkSystem (notify m) pc n c)
| step_run m n c m' pc' :
    run_top m c = Some (m', pc') → system_step (mkSystem m RunTop n c) (mkSystem m' pc' n c)
| step_woken m n c : m_wake m = true → system_step (mkSystem m RunWait n c) (mkSystem (take_wake m) RunTop n c)
| step_timer m d n c : d ≤ c → system_step (mkSystem m (RunTimer d) n c) (mkSystem m RunTop n c)
| step_timer_woken m d n c :
    m_wake m = true → system_step (mkSystem m (RunTimer d) n c) (mkSystem (take_wake m) RunTop n c).

Inductive system_reachable (lifetime : Z) : system → Prop :=
| sys_init m c : New lifetime = Some m → system_reachable lifetime (mkSystem m RunTop 0 c)
| sys_step s s' : system_reachable lifetime s → system_step s s' → system_reachable lifetime s'.

(** What the goroutine relies on in each place. *)
Definition pc_ok (lifetime : Z) (s : system) : Prop :=
  match s_pc s with
  | RunWait => (h_queue (m_heap (s_map s)) = [] ∧ m_closed (s_map s) = false) ∨ m_wake (s_map s) = true ∨ (0 < s_notifiers s)%nat
  | RunTimer d => d ≤ s_clock s + lifetime ∧ ∀ k v x, values (s_map s) !! k = Some (v, x) → d - slack ≤ x
  | RunDone => m_closed (s_map s) = true
  | RunTop => True
  end.

Definition system_ok (lifetime : Z) (s : system) : Prop :=
  map_ok (s_map s) ∧ m_lifetime (s_map s) = lifetime ∧
  (∀ k v x, values (s_map s) !! k = Some (v, x) → x ≤ s_clock s + lifetime) ∧ pc_ok lifetime s.

(** A value of the table after an operation was there before, or is stored now. *)
Lemma spec_origin t now o k v x :
  t_values (spec_exec t now o).1 !! k = Some (v, x) →
  t_values t !! k = Some (v, x) ∨ x = now + t_lifetime t.
Proof.
  assert (Hd : ∀ key, drop_expired (t_values t) now key !! k = Some (v, x) → t_values t !! k = Some (v, x)).
  { intros key. unfold drop_expired. destruct (live _ _ _); [done |]. by intros [_ ?]%lookup_delete_Some. }
  destruct o as [key value allow | key | key | | |]; simpl.
  - destruct (t_closed t); [by left |]. destruct (match allow with Some _ => _ | None => true end); simpl.
    + intros [[<- [= <- <-]] | [_ ?]]%lookup_insert_Some; [by right | left; by eapply Hd].
    + intros ?. left. by eapply Hd.
  - destruct (t_closed t); [by left |]. simpl. intros ?. left. by eapply Hd.
  - destruct (t_closed t); [by left |]. destruct (live _ _ _); simpl.
    + intros [[<- [= <- <-]] | [_ ?]]%lookup_insert_Some; [by right | by left].
    + intros ?. left. by eapply Hd.
  - by left.
  - intros [? _]%map_lookup_filter_Some. by left.
  - destruct (t_closed t); [by left |]. by rewrite lookup_empty.
Qed.

(** An operation of a caller. *)
Lemma system_ok_call lifetime m m' pc n n' c now o r :
  system_ok lifetime (mkSystem m pc n c) → c - slack ≤ now ≤ c →
  map_ok m' → same_frame m m' → spec_exec (table m) now o = (table m', r) →
  (h_queue (m_heap m) = [] → h_queue (m_heap m') ≠ [] → (0 < n')%nat) → (n ≤ n')%nat →
  system_ok lifetime (mkSystem m' pc n' c).
Proof.
  intros (Hok & Hl & Hx & Hpc) Hnow Hok' (Hl' & Hc' & Hw') Hs Hwake Hn. simpl in *.
  assert (Horig : ∀ k v x, values m' !! k = Some (v, x) → values m !! k = Some (v, x) ∨ x = now + lifetime).
  { intros k v x Hv. rewrite <- Hl. change (m_lifetime m) with (t_lifetime (table m)).
    apply (spec_origin (table m) now o). by rewrite Hs. }
  split_and!; simpl; [done | congruence | |].
  - intros k v x [Hv | ->]%Horig; [by eapply Hx | lia].
  - unfold pc_ok in *. simpl in *. destruct pc as [| | d |]; [done | | | congruence].
    + rewrite Hc', Hw'. destruct Hpc as [[Hq Hc] | [Hw | Hpos]]; [| by right; left | right; right; lia].
      destruct (decide (h_queue (m_heap m') = [])) as [Hq' | Hq']; [by left | right; right; by apply Hwake].
    + destruct Hpc as [Hd Hall]. split; [done |]. intros k v x [Hv | ->]%Horig; [by eapply Hall | lia].
Qed.

Lemma system_ok_run lifetime m m' pc' n c :
  system_ok lifetime (mkSystem m RunTop n c) → run_top m c = Some (m', pc') →
  system_ok lifetime (mkSystem m' pc' n c).
Proof.
  intros (Hok & Hl & Hx & _). simpl in *. unfold run_top. destruct (m_closed m) eqn:Hcl.
  { intros [= <- <-]. split_and!; simpl; [done | done | done | done]. }
  destruct (removeExpired_spec m c Hok) as (m1 & -> & Hok1 & (Hl1 & Hc1 & _) & Hv1). cbn [mbind option_bind].
  assert (Hx1 : ∀ k v x, values m1 !! k = Some (v, x) → x ≤ c + lifetime).
  { intros k v x. rewrite Hv1. intros [? _]%map_lookup_filter_Some. by eapply Hx. }
  destruct (h_queue (m_heap m1)) as [|p q] eqn:Hq.
  { intros [= <- <-]. split_and!; simpl; [done | congruence | done |]. left. simpl. split; [done | congruence]. }
  destruct (h_cells (m_heap m1) !! p) as [e |] eqn:He; cbn [mbind option_bind]; [| done]. intros [= <- <-].
  assert (Hp : m_entries m1 !! e_key e = Some p).
  { apply Hok1. split; [rewrite Hq; left | eauto]. }
  destruct (entry_of m1 _ p Hok1 Hp) as (i & e' & _ & He' & _ & _ & Hve). simplify_eq.
  split_and!; simpl; [done | congruence | done |]. split; [by eapply Hx1 |]. simpl. intros k v x Hk.
  destruct (m_entries m1 !! k) as [p' |] eqn:Hk'; [| apply (values_None m1 k Hok1) in Hk'; congruence].
  destruct (entry_of m1 k p' Hok1 Hk') as (j & e2 & Hqj & He2 & _ & _ & Hv2). simplify_eq.
  pose proof Hok1 as ([_ Ho] & _). pose proof (heap_front (m_heap m1) j Ho ltac:(by eapply lookup_lt_Some)) as Hle.
  unfold expiry, heap_at in Hle. rewrite Hqj, Hq in Hle. simpl in Hle. rewrite He2, He in Hle. simpl in Hle. lia.
Qed.

Lemma queue_empty m : map_ok m → h_queue (m_heap m) = [] ↔ values m = ∅.
Proof.
  intros Hok. split.
  - intros Hq. apply map_empty. intros k. apply (values_None m k Hok).
    destruct (m_entries m !! k) as [p |] eqn:Hk; [| done].
    destruct (entry_of m k p Hok Hk) as (i & e & Hqi & _). by rewrite Hq in Hqi.
  - intros Hv. destruct (h_queue (m_heap m)) as [|p q] eqn:Hq; [done |].
    pose proof Hok as ([Hi _] & Ha & _). destruct (Hi 0%nat p) as (e & He & _); [by rewrite Hq |].
    assert (m_entries m !! e_key e = Some p) as Hk by (apply Ha; split; [rewrite Hq; left | eauto]).
    destruct (entry_of m _ p Hok Hk) as (i & e' & _ & _ & _ & _ & Hve). by rewrite Hv, lookup_empty in Hve.
Qed.

(** A lookup adds nothing to an empty map. *)
Lemma lookup_empty_map m m' now key r (refreshing : bool) :
  map_ok m → map_ok m' → h_queue (m_heap m) = [] →
  spec_exec (table m) now (if refreshing then OpLoadAndRefresh key else OpLoad key) = (table m', r) →
  h_queue (m_heap m') = [].
Proof.
  intros Hok Hok' Hq Hs. apply (queue_empty m' Hok'). apply (queue_empty m Hok) in Hq.
  change (values m') with (t_values (table m', r).1). rewrite <- Hs. destruct refreshing; simpl.
  - destruct (m_closed m); [done |]. unfold drop_expired, live. rewrite Hq, lookup_empty. simpl. apply delete_empty.
  - destruct (m_closed m); [done |]. simpl. unfold drop_expired, live. rewrite Hq, lookup_empty. simpl. apply delete_empty.
Qed.

Lemma system_reachable_ok lifetime s : system_reachable lifetime s → system_ok lifetime s.
Proof.
  induction 1 as [m c Hnew | s s' _ IH Hstep].
  - destruct (New_ok _ _ Hnew) as (Hok & Ht & Hpos). unfold table in Ht. injection Ht as Hv Hl _.
    split_and!; simpl; [done | done | | done]. intros k v x. by rewrite Hv, lookup_empty.
  - destruct Hstep as [m pc n c c' Hc | m pc n c now key value allow m' stored wake Hnow Hs | m pc n c now key m' v Hnow Hs
      | m pc n c now key m' v Hnow Hs | m pc n c | m pc n c | m n c m' pc' Hrun | m n c Hw | m d n c Hd | m d n c Hw].
    + destruct IH as (Hok & Hl & Hx & Hpc). split_and!; simpl in *; [done | done | intros k v x Hv; specialize (Hx k v x Hv); lia |].
      unfold pc_ok in *. simpl in *. destruct pc; [done | done | | done]. destruct Hpc. split; [lia | done].
    + pose proof (proj1 IH) as Hok. simpl in Hok.
      destruct (storeIf_spec m now key value allow Hok) as (m1 & st1 & wk1 & Hs1 & Hok1 & Hf1 & Hsp & Hwk).
      rewrite Hs in Hs1. simplify_eq. eapply system_ok_call; [done | done | done | done | done | | destruct wk1; lia].
      intros Hq Hq'. rewrite (Hwk Hq Hq'). lia.
    + pose proof (proj1 IH) as Hok. simpl in Hok.
      destruct (Load_spec m now key Hok) as (m1 & v1 & Hs1 & Hok1 & Hf1 & Hsp).
      rewrite Hs in Hs1. simplify_eq. eapply system_ok_call; [done | done | done | done | done | | done].
      intros Hq Hq'. destruct Hq'. by eapply (lookup_empty_map m _ now key _ false).
    + pose proof (proj1 IH) as Hok. simpl in Hok.
      destruct (LoadAndRefresh_spec m now key Hok) as (m1 & v1 & Hs1 & Hok1 & Hf1 & Hsp).
      rewrite Hs in Hs1. simplify_eq. eapply system_ok_call; [done | done | done | done | done | | done].
      intros Hq Hq'. destruct Hq'. by eapply (lookup_empty_map m _ now key _ true).
    + destruct IH as (Hok & Hl & Hx & Hpc). destruct (Close_spec m Hok) as [Hok' Hs]. simpl in *.
      assert (Hcl : values (Close m) = ∅ ∧ m_closed (Close m) = true).
      { assert (m_closed (Close m) = true) as Hc by (unfold Close; by destruct (m_closed m) eqn:E).
        split; [by apply values_closed | done]. }
      destruct Hcl as [Hv Hc]. split_and!; simpl; [done | unfold Close; by destruct (m_closed m) | |].
      * intros k v x. by rewrite Hv, lookup_empty.
      * unfold pc_ok in *. simpl in *. destruct pc; [done | right; right; lia | | done].
        split; [apply Hpc |]. intros k v x. by rewrite Hv, lookup_empty.
    + destruct IH as (Hok & Hl & Hx & Hpc). split_and!; simpl; [done | done | done |].
      unfold pc_ok in *. simpl in *. destruct pc; [done | right; by left | done | done].
    + by eapply system_ok_run.
    + destruct IH as (Hok & Hl & Hx & Hpc). by split_and!.
    + destruct IH as (Hok & Hl & Hx & Hpc). by split_and!.
    + destruct IH as (Hok & Hl & Hx & Hpc). by split_and!.
Qed.

(** The goroutine misses nothing: when it is blocked on the wake channel the map
    is open and empty, or a signal is there or about to be sent; when it is
    blocked on its timer no entry expires before the deadline, up to the time a
    caller may wait for the lock; and it only ends once the map is closed. *)
Theorem expiry_never_missed lifetime s :
  system_reachable lifetime s →
  match s_pc s with
  | RunTop => True
  | RunWait => (values (s_map s) = ∅ ∧ m_closed (s_map s) = false) ∨ m_wake (s_map s) = true ∨ (0 < s_notifiers s)%nat
  | RunTimer d => ∀ k v x, values (s_map s) !! k = Some (v, x) → d ≤ x + slack
  | RunDone => m_closed (s_map s) = true
  end.
Proof.
  intros (Hok & _ & _ & Hpc)%system_reachable_ok. unfold pc_ok in Hpc. destruct (s_pc s) as [| | d |]; [done | | | done].
  - destruct Hpc as [[Hq Hc] | Hpc]; [left; split; [by apply queue_empty | done] | by right].
  - intros k v x Hk. destruct Hpc as [_ Hall]. specialize (Hall k v x Hk). lia.
Qed.
End run.
End map.

(** ** Concrete runs *)

Definition demo_map : Map nat Z := mkMap (mkHeap ∅ []) ∅ 0 10 false false.
Definition demo_ops : list (Z * op (K := nat) (V := Z)) :=
  [(0, OpStoreIf 1%nat 7 None); (2, OpStoreIf 2%nat 8 None); (3, OpLoad 1%nat); (4, OpLoadAndRefresh 1%nat);
   (12, OpRemoveExpired); (12, OpLen); (13, OpLoad 2%nat); (13, OpLoad 1%nat); (14, OpLoad 1%nat);
   (15, OpClose); (16, OpStoreIf 3%nat 9 None)].

Lemma expiringmap_refines_witness :
  ∃ m' rs, execs 0 demo_map demo_ops = Some (m', rs) ∧ spec_execs 0 (mkTable ∅ 10 false) demo_ops = (table m', rs) ∧
    rs = [OutBool true; OutBool true; OutValue (Some 7); OutValue (Some 7); OutNone; OutLen 1; OutValue None;
          OutValue (Some 7); OutValue None; OutNone; OutBool false].
Proof.
  destruct (expiringmap_refines 0 10 demo_map demo_ops eq_refl) as (m' & rs & He & _ & Hs).
  exists m', rs. split; [exact He |]. split; [exact Hs |].
  apply (f_equal snd) in Hs. simpl snd in Hs at 2. rewrite <- Hs. vm_compute. reflexivity.
Defined.

(** The goroutine sleeps, a value is stored, and the signal of the caller is
    still to come. *)
Definition demo_stored : Map nat Z :=
  match storeIf 0 demo_map 5 1%nat 7 None with Some (m, _) => m | None => demo_map end.

Lemma expiry_never_missed_witness :
  system_reachable 0 1 10 (mkSystem demo_stored RunWait 1 5) ∧ values demo_stored !! 1%nat = Some (7, 15) ∧
  ((values demo_stored = ∅ ∧ m_closed demo_stored = false) ∨ m_wake demo_stored = true ∨ (0 < 1)%nat).
Proof.
  assert (Hr : system_reachable 0 1 10 (mkSystem demo_stored RunWait 1 5)).
  { eapply sys_step; [eapply sys_step; [apply (sys_init 0 1 10 demo_map 5); reflexivity |
                                        eapply step_run; vm_compute; reflexivity] |].
    eapply (step_store 0 1 _ _ 0 5 5 1%nat 7 None _ true true); [lia | vm_compute; reflexivity]. }
  split; [exact Hr |]. split; [vm_compute; reflexivity |].
  exact (expiry_never_missed 0 1 ltac:(lia) 10 _ Hr).
Defined.
