(* ===== verification/BadVersion.v ===== *)
(** * Version numbers and the kernel TLS features chosen from them

    [common/badversion]: parsing, printing and comparing versions, and the
    switch of [common/ktls/ktls_linux.go] that derives the supported features
    from the release string of the kernel.  [strings] and [strconv] of Go are
    modelled for what they are used for: splitting at a character, prefixes,
    and [Atoi], whose value is kept and whose error is dropped. *)

From S2P Require Import Prelude.
From stdpp Require Import base list strings numbers.
From Stdlib Require Import ZArith Lia.
From Stdlib Require Import DecimalString DecimalN.

Local Open Scope Z_scope.

(** ** Strings *)

Definition char_dash : Ascii.ascii := Ascii.ascii_of_nat 45.
Definition char_dot : Ascii.ascii := Ascii.ascii_of_nat 46.
Definition char_plus : Ascii.ascii := Ascii.ascii_of_nat 43.

(** [strings.Split] at a one-character separator. *)
Fixpoint split_at (c : Ascii.ascii) (s : string) : list string :=
  match s with
  | EmptyString => [EmptyString]
  | String a s =>
      if Ascii.eqb a c then EmptyString :: split_at c s
      else match split_at c s with [] => [String a EmptyString] | x :: l => String a x :: l end
  end.

Fixpoint contains_char (c : Ascii.ascii) (s : string) : bool :=
  match s with EmptyString => false | String a s => Ascii.eqb a c || contains_char c s end.

(** [strings.TrimPrefix(s, "v")]. *)
Definition trim_v (s : string) : string :=
  match s with String a s' => if Ascii.eqb a (Ascii.ascii_of_nat 118) then s' else s | EmptyString => s end.

(** [s[n:]]. *)
Fixpoint skip (n : nat) (s : string) : string :=
  match n, s with S n, String _ s => skip n s | _, _ => s end.

(** The value of [strconv.Atoi]: 0 on a syntax error, the nearest bound on a
    range error. *)
Definition digits_value (s : string) : Z :=
  match NilEmpty.uint_of_string s with Some d => Z.of_N (N.of_uint d) | None => 0 end.
Definition clamp (z : Z) : Z := Z.max i64_min (Z.min i64_max z).
Definition Atoi (s : string) : Z :=
  match s with
  | String a s' =>
      if Ascii.eqb a char_dash then clamp (- digits_value s')
      else if Ascii.eqb a char_plus then clamp (digits_value s')
      else clamp (digits_value s)
  | EmptyString => 0
  end.

(** [F.ToString] of an integer. *)
Definition format_int (z : Z) : string :=
  if z <? 0 then String char_dash (NilEmpty.string_of_uint (N.to_uint (Z.to_N (- z))))
  else NilEmpty.string_of_uint (N.to_uint (Z.to_N z)).

(** ** Versions *)

Record Version : Type := mkVersion {
  Major : Z;
  Minor : Z;
  Patch : Z;
  Commit : string;
  PreReleaseIdentifier : string;
  PreReleaseVersion : Z;
}.

#[global] Instance Version_eq_dec : EqDecision Version.
Proof. solve_decision. Defined.

Definition parsePreReleaseIdentifier (identifier : string) : Z :=
  if String.prefix "rc" identifier then 1
  else if String.prefix "beta" identifier then 2
  else if String.prefix "alpha" identifier then 3
  else 0.

Definition GreaterThan (v w : Version) : bool :=
  if Major w <? Major v then true else if Major v <? Major w then false
  else if Minor w <? Minor v then true else if Minor v <? Minor w then false
  else if Patch w <? Patch v then true else if Patch v <? Patch w then false
  else
    let vi := PreReleaseIdentifier v in
    let wi := PreReleaseIdentifier w in
    if (vi =? "")%string && negb (wi =? "")%string then true
    else if negb (vi =? "")%string && (wi =? "")%string then false
    else if negb (vi =? "")%string && negb (wi =? "")%string then
      if (vi =? wi)%string && (PreReleaseVersion w <? PreReleaseVersion v) then true
      else if (vi =? wi)%string && (PreReleaseVersion v <? PreReleaseVersion w) then false
      else if parsePreReleaseIdentifier vi <? parsePreReleaseIdentifier wi then true
      else if parsePreReleaseIdentifier wi <? parsePreReleaseIdentifier vi then false
      else false
    else false.

Definition GreaterThanOrEqual (v w : Version) : bool := bool_decide (v = w) || GreaterThan v w.
Definition LessThan (v w : Version) : bool := negb (GreaterThanOrEqual v w).
Definition LessThanOrEqual (v w : Version) : bool := bool_decide (v = w) || GreaterThan w v.

Definition dot (s t : string) : string := String.append s (String char_dot t).
Definition dash (s t : string) : string := String.append s (String char_dash t).

Definition VersionString (v : Version) : string :=
  dot (format_int (Major v)) (dot (format_int (Minor v)) (format_int (Patch v))).

Definition version_String (v : Version) : string :=
  let version := VersionString v in
  if negb (PreReleaseIdentifier v =? "")%string
  then dash version (dot (PreReleaseIdentifier v) (format_int (PreReleaseVersion v)))
  else version.

Definition BadString (v : Version) : string :=
  let version := dot (format_int (Major v)) (format_int (Minor v)) in
  let version := if 0 <? Patch v then dot version (format_int (Patch v)) else version in
  if negb (PreReleaseIdentifier v =? "")%string then
    let version := dash version (PreReleaseIdentifier v) in
    if 0 <? PreReleaseVersion v then String.append version (format_int (PreReleaseVersion v)) else version
  else version.

(** The part of [Parse] behind the dash: commit, identifier, its version. *)
Definition parse_identifier (identifier : string) : string * string * Z :=
  if contains_char char_dot identifier then
    let identifierParts := split_at char_dot identifier in
    (""%string, nth 0 identifierParts ""%string,
     if decide (2 ≤ length identifierParts)%nat then Atoi (nth 1 identifierParts ""%string) else 0)
  else if String.prefix "alpha" identifier then (""%string, "alpha"%string, Atoi (skip 5 identifier))
  else if String.prefix "beta" identifier then (""%string, "beta"%string, Atoi (skip 4 identifier))
  else (identifier, ""%string, 0).

(** The elements of the dotted part; a missing one is 0. *)
Definition parse_elements (versionName : string) : Z * Z * Z :=
  let versionElements := split_at char_dot versionName in
  let versionLen := length versionElements in
  ((if decide (1 ≤ versionLen)%nat then Atoi (nth 0 versionElements ""%string) else 0),
   (if decide (2 ≤ versionLen)%nat then Atoi (nth 1 versionElements ""%string) else 0),
   (if decide (3 ≤ versionLen)%nat then Atoi (nth 2 versionElements ""%string) else 0)).

Definition Parse (versionName : string) : Version :=
  let versionName := trim_v versionName in
  let '(versionName, (commit, identifier, preVersion)) :=
    if contains_char char_dash versionName then
      let parts := split_at char_dash versionName in
      (nth 0 parts ""%string, parse_identifier (nth 1 parts ""%string))
    else (versionName, (""%string, ""%string, 0)) in
  let '(major, minor, patch) := parse_elements versionName in
  mkVersion major minor patch commit identifier preVersion.

(** The examples of the repository's own test. *)
Example TestCompareVersion :
  version_String (Parse "v1.3.0-beta1") = "1.3.0-beta.1"%string ∧
  BadString (Parse "v1.3.0-beta.1") = "1.3-beta1"%string ∧
  GreaterThan (Parse "1.3.0") (Parse "1.3-beta1") = true ∧
  GreaterThan (Parse "1.3.0") (Parse "1.3.0-beta1") = true ∧
  GreaterThan (Parse "1.3.0-beta1") (Parse "1.3.0-alpha1") = true ∧
  GreaterThan (Parse "1.3.1") (Parse "1.3.0") = true ∧
  GreaterThan (Parse "1.4") (Parse "1.3") = true.
Proof. vm_compute. done. Qed.

(** ** Kernel TLS features ([KernelSupport]) *)

Record Support : Type := mkSupport {
  TLS : bool;
  TLS_RX : bool;
  TLS_Version13 : bool;
  TLS_Version13_RX : bool;
  TLS_TX_ZEROCOPY : bool;
  TLS_RX_NOPADDING : bool;
  TLS_AES_256_GCM : bool;
  TLS_AES_128_CCM : bool;
  TLS_CHACHA20_POLY1305 : bool;
  TLS_SM4 : bool;
  TLS_ARIA_GCM : bool;
  TLS_Version13_KeyUpdate : bool;
}.

Definition no_support : Support :=
  mkSupport false false false false false false false false false false false false.

(** A switch whose cases fall through: the first case that holds is run, and
    every later one. *)
Fixpoint run_switch {A} (cases : list (bool * (A → A))) (a : A) : A :=
  match cases with
  | [] => a
  | (holds, body) :: rest => if holds : bool then foldl (λ a c, c.2 a) (body a) rest else run_switch rest a
  end.

(** [Version{Major: major, Minor: minor}]. *)
Definition release (major minor : Z) : Version := mkVersion major minor 0 "" "" 0.

Definition kernel_switch (kernelVersion : Version) : Support :=
  let ge major minor := GreaterThanOrEqual kernelVersion (release major minor) in
  run_switch
    [(ge 6 14, λ '(mkSupport t rx v13 v13rx z np a256 a128 ch sm ar _), mkSupport t rx v13 v13rx z np a256 a128 ch sm ar true);
     (ge 6 1, λ '(mkSupport t rx v13 v13rx z np a256 a128 ch sm _ ku), mkSupport t rx v13 v13rx z np a256 a128 ch sm true ku);
     (ge 6 0, λ '(mkSupport t rx v13 _ z _ a256 a128 ch sm ar ku), mkSupport t rx v13 true z true a256 a128 ch sm ar ku);
     (ge 5 19, λ '(mkSupport t rx v13 v13rx _ np a256 a128 ch sm ar ku), mkSupport t rx v13 v13rx true np a256 a128 ch sm ar ku);
     (ge 5 16, λ '(mkSupport t rx v13 v13rx z np a256 a128 ch _ ar ku), mkSupport t rx v13 v13rx z np a256 a128 ch true ar ku);
     (ge 5 11, λ '(mkSupport t rx v13 v13rx z np a256 a128 _ sm ar ku), mkSupport t rx v13 v13rx z np a256 a128 true sm ar ku);
     (ge 5 2, λ '(mkSupport t rx v13 v13rx z np a256 _ ch sm ar ku), mkSupport t rx v13 v13rx z np a256 true ch sm ar ku);
     (ge 5 1, λ '(mkSupport t rx _ v13rx z np _ a128 ch sm ar ku), mkSupport t rx true v13rx z np true a128 ch sm ar ku);
     (ge 4 17, λ '(mkSupport t _ v13 v13rx z np a256 a128 ch sm ar ku), mkSupport t true v13 v13rx z np a256 a128 ch sm ar ku);
     (ge 4 13, λ '(mkSupport _ rx v13 v13rx z np a256 a128 ch sm ar ku), mkSupport true rx v13 v13rx z np a256 a128 ch sm ar ku)]
    no_support.

(** ** Printing and parsing *)

Lemma split_at_none c s : contains_char c s = false → split_at c s = [s].
Proof.
  induction s as [|a s IH]; simpl; [done |]. intros [Ha Hs]%orb_false_elim. by rewrite Ha, IH.
Qed.

Lemma split_at_app c s t :
  contains_char c s = false → split_at c (String.append s (String c t)) = s :: split_at c t.
Proof.
  induction s as [|a s IH]; simpl; [by rewrite Ascii.eqb_refl |].
  intros [Ha Hs]%orb_false_elim. by rewrite Ha, IH.
Qed.

Lemma contains_app c s t : contains_char c (String.append s t) = contains_char c s || contains_char c t.
Proof. induction s as [|a s IH]; simpl; [done |]. by rewrite IH, orb_assoc. Qed.

(** No character of a printed number is outside of 0 to 9. *)
Lemma digits_chars c d :
  (Ascii.nat_of_ascii c < 48)%nat ∨ (57 < Ascii.nat_of_ascii c)%nat →
  contains_char c (NilEmpty.string_of_uint d) = false.
Proof.
  intros Hc. assert (Hne : ∀ a, (48 ≤ Ascii.nat_of_ascii a ≤ 57)%nat → Ascii.eqb a c = false).
  { intros a Ha. apply Ascii.eqb_neq. intros ->. lia. }
  induction d as [|d IH|d IH|d IH|d IH|d IH|d IH|d IH|d IH|d IH|d IH];
    cbn [NilEmpty.string_of_uint contains_char]; [done | ..].
  all: rewrite IH, orb_false_r; apply Hne; vm_compute; split; repeat constructor.
Qed.

Definition not_digit (c : Ascii.ascii) : Prop := (Ascii.nat_of_ascii c < 48)%nat ∨ (57 < Ascii.nat_of_ascii c)%nat.

Lemma format_int_chars c z : not_digit c → 0 ≤ z → contains_char c (format_int z) = false.
Proof. intros Hc Hz. unfold format_int. destruct (z <? 0) eqn:E; boolprop; [lia |]. by apply digits_chars. Qed.

Lemma head_not_in c s : contains_char c s = false →
  match s with String a _ => Ascii.eqb a c = false | EmptyString => True end.
Proof. destruct s as [|a s]; simpl; [done |]. by intros [? _]%orb_false_elim. Qed.

Lemma not_digit_dash : not_digit char_dash.
Proof. left. vm_compute. lia. Qed.
Lemma not_digit_dot : not_digit char_dot.
Proof. left. vm_compute. lia. Qed.
Lemma not_digit_plus : not_digit char_plus.
Proof. left. vm_compute. lia. Qed.
#[local] Hint Resolve not_digit_dash not_digit_dot not_digit_plus : sbx.

(** Machine integers survive printing and parsing. *)
Lemma Atoi_format z : 0 ≤ z ≤ i64_max → Atoi (format_int z) = z.
Proof.
  intros Hz. pose proof (format_int_chars char_dash z not_digit_dash ltac:(lia)) as H1%head_not_in.
  pose proof (format_int_chars char_plus z not_digit_plus ltac:(lia)) as H2%head_not_in.
  assert (Hv : clamp (digits_value (format_int z)) = z).
  { unfold digits_value, format_int. destruct (z <? 0) eqn:E; boolprop; [lia |].
    rewrite NilEmpty.usu, DecimalN.Unsigned.of_to, Z2N.id by lia. unfold clamp, i64_max, i64_min in *. lia. }
  unfold Atoi. destruct (format_int z) as [|a s] eqn:Ef; [done |]. by rewrite H1, H2.
Qed.

(** Versions that a program is released under: machine integers, no commit, a
    pre-release identifier without separators. *)
Definition version_wf (v : Version) : Prop :=
  0 ≤ Major v ≤ i64_max ∧ 0 ≤ Minor v ≤ i64_max ∧ 0 ≤ Patch v ≤ i64_max ∧ 0 ≤ PreReleaseVersion v ≤ i64_max ∧
  Commit v = ""%string ∧
  contains_char char_dash (PreReleaseIdentifier v) = false ∧ contains_char char_dot (PreReleaseIdentifier v) = false ∧
  (PreReleaseIdentifier v = ""%string → PreReleaseVersion v = 0).

Lemma parse_elements_VersionString v : version_wf v → parse_elements (VersionString v) = (Major v, Minor v, Patch v).
Proof.
  intros (Hmaj & Hmin & Hpat & _). unfold parse_elements, VersionString, dot.
  rewrite !split_at_app, split_at_none by (apply format_int_chars; [auto with sbx | lia]). simpl.
  by rewrite !Atoi_format by lia.
Qed.

Lemma VersionString_chars v : version_wf v →
  contains_char char_dash (VersionString v) = false ∧ ∀ t, trim_v (String.append (VersionString v) t) = String.append (VersionString v) t.
Proof.
  intros (Hmaj & Hmin & Hpat & _).
  assert (Hd : ∀ z, 0 ≤ z → contains_char char_dash (format_int z) = false) by (intros; apply format_int_chars; auto with sbx).
  split.
  - unfold VersionString, dot. rewrite !contains_app. simpl. rewrite !contains_app. simpl. by rewrite !Hd by lia.
  - intros t. pose proof (format_int_chars (Ascii.ascii_of_nat 118) (Major v)) as Hv.
    specialize (Hv ltac:(right; vm_compute; lia) ltac:(lia)). apply head_not_in in Hv.
    unfold VersionString, dot. destruct (format_int (Major v)) as [|a s]; [done |]. simpl. by rewrite Hv.
Qed.

Lemma identifier_no_dash v : version_wf v →
  contains_char char_dash (dot (PreReleaseIdentifier v) (format_int (PreReleaseVersion v))) = false.
Proof.
  intros (_ & _ & _ & Hpre & _ & Hdash & _). unfold dot. rewrite contains_app, Hdash. cbn [contains_char].
  rewrite format_int_chars by (auto with sbx || lia). done.
Qed.

Lemma parse_identifier_print v : version_wf v →
  parse_identifier (dot (PreReleaseIdentifier v) (format_int (PreReleaseVersion v)))
  = (""%string, PreReleaseIdentifier v, PreReleaseVersion v).
Proof.
  intros (_ & _ & _ & Hpre & _ & _ & Hdot & _). unfold parse_identifier, dot.
  rewrite contains_app. cbn [contains_char]. rewrite Ascii.eqb_refl, orb_true_r.
  rewrite split_at_app, split_at_none by (done || (apply format_int_chars; [auto with sbx | lia])).
  cbn [nth length]. rewrite decide_True, Atoi_format by (simpl; lia). done.
Qed.

(** Printing a version and parsing the text gives the version back. *)
Theorem version_round_trip v : version_wf v → Parse (version_String v) = v.
Proof.
  intros Hwf. pose proof Hwf as (_ & _ & _ & Hpre & Hcommit & Hdash & Hdot & Hnone).
  destruct (VersionString_chars v Hwf) as [Hcd Htrim]. unfold Parse, version_String.
  destruct (PreReleaseIdentifier v =? "")%string eqn:Hi; cbn [negb].
  - apply String.eqb_eq in Hi. pose proof (Htrim ""%string) as Ht.
    assert (Happ : ∀ s, String.append s "" = s) by (induction s as [|a s IH]; [done |]; exact (f_equal (String a) IH)).
    rewrite Happ in Ht. rewrite Ht, Hcd, (parse_elements_VersionString v Hwf).
    destruct v as [ma mi pa co id pv]. simpl in *. by rewrite Hcommit, Hi, (Hnone Hi).
  - unfold dash. rewrite Htrim, contains_app. cbn [contains_char]. rewrite Ascii.eqb_refl, orb_true_r.
    rewrite split_at_app, split_at_none by (done || by apply identifier_no_dash). cbn [nth].
    rewrite parse_identifier_print, (parse_elements_VersionString v Hwf) by done.
    destruct v as [ma mi pa co id pv]. simpl in *. by rewrite Hcommit.
Qed.

Lemma version_round_trip_witness : Parse (version_String (mkVersion 1 13 0 "" "beta" 2)) = mkVersion 1 13 0 "" "beta" 2.
Proof. apply version_round_trip. vm_compute. intuition congruence. Defined.

(** ** The order of versions *)

(** Lexicographic comparison of two lists of integers. *)
Fixpoint lex_gt (l k : list Z) : bool :=
  match l, k with
  | x :: l, y :: k => if y <? x then true else if x <? y then false else lex_gt l k
  | _, _ => false
  end.

(** The key a version is ordered by: a release is above its candidates, those
    above its betas, those above its alphas. *)
Definition stage (identifier : string) : Z :=
  if (identifier =? "")%string then 3 else 3 - parsePreReleaseIdentifier identifier.
Definition version_key (v : Version) : list Z :=
  [Major v; Minor v; Patch v; stage (PreReleaseIdentifier v);
   if (PreReleaseIdentifier v =? "")%string then 0 else PreReleaseVersion v].

Definition known_identifier (identifier : string) : Prop := identifier ∈ [""; "rc"; "beta"; "alpha"]%string.

(** On releases, candidates, betas and alphas the comparison is the
    lexicographic order of the keys. *)
Theorem GreaterThan_lexicographic v w :
  known_identifier (PreReleaseIdentifier v) → known_identifier (PreReleaseIdentifier w) →
  GreaterThan v w = lex_gt (version_key v) (version_key w).
Proof.
  destruct v as [ma mi pa co id pv], w as [ma' mi' pa' co' id' pv'].
  unfold GreaterThan, version_key, known_identifier. simpl.
  intros Hv Hw. rewrite !elem_of_cons, elem_of_nil in Hv, Hw.
  do 3 (case_match; [done |]; case_match; [done |]).
  destruct Hv as [-> | [-> | [-> | [-> | []]]]], Hw as [-> | [-> | [-> | [-> | []]]]]; simpl; try reflexivity.
  all: unfold stage; simpl; repeat case_match; try done; boolprop; lia.
Qed.

Lemma GreaterThan_lexicographic_witness :
  GreaterThan (Parse "1.3.0-beta2") (Parse "1.3.0-alpha7") = true ∧
  GreaterThan (Parse "1.3.0-beta2") (Parse "1.3.0-alpha7")
  = lex_gt (version_key (Parse "1.3.0-beta2")) (version_key (Parse "1.3.0-alpha7")).
Proof.
  split; [vm_compute; reflexivity |].
  apply GreaterThan_lexicographic; unfold known_identifier; apply (bool_decide_unpack _); vm_compute; exact I.
Defined.

(** ** The kernel features *)

(** A plain kernel version, without a suffix. *)
Definition plain (v : Version) : Prop :=
  Commit v = ""%string ∧ PreReleaseIdentifier v = ""%string ∧ PreReleaseVersion v = 0 ∧ 0 ≤ Patch v.

Definition at_least (v : Version) (major minor : Z) : bool :=
  (major <? Major v) || (Major v =? major) && (minor <=? Minor v).

Lemma plain_GreaterThanOrEqual v major minor :
  plain v → GreaterThanOrEqual v (release major minor) = at_least v major minor.
Proof.
  destruct v as [ma mi pa co id pv]. intros (Hc & Hi & Hpv & Hp). simpl in *. subst.
  unfold GreaterThanOrEqual, GreaterThan, at_least, release. simpl.
  destruct (major <? ma) eqn:E1; [by rewrite orb_true_r |].
  destruct (ma <? major) eqn:E2.
  { rewrite bool_decide_eq_false_2 by (intros [= -> _ _]; lia). boolprop.
    by assert ((ma =? major) = false) as -> by lia. }
  assert (ma = major) as -> by (boolprop; lia). rewrite Z.eqb_refl. simpl.
  destruct (minor <? mi) eqn:E3; [boolprop; rewrite orb_true_r; symmetry; apply Z.leb_le; lia |].
  destruct (mi <? minor) eqn:E4; [boolprop; rewrite bool_decide_eq_false_2 by (intros [= -> _]; lia); symmetry; apply Z.leb_gt; lia |].
  assert (mi = minor) as -> by (boolprop; lia). rewrite Z.leb_refl.
  destruct (0 <? pa) eqn:E5; [by rewrite orb_true_r |]. assert (pa = 0) as -> by (boolprop; lia).
  by rewrite bool_decide_eq_true_2.
Qed.

Lemma at_least_mono v ma mi ma' mi' :
  at_least v ma mi = true → ma' < ma ∨ (ma' = ma ∧ mi' ≤ mi) → at_least v ma' mi' = true.
Proof. unfold at_least. lia. Qed.

(** A feature is on exactly from the kernel release that introduced it, for a
    kernel version without a suffix; so a newer kernel has every feature of an
    older one. *)
Theorem kernel_switch_exact v :
  plain v →
  kernel_switch v =
    mkSupport (at_least v 4 13) (at_least v 4 17) (at_least v 5 1) (at_least v 6 0) (at_least v 5 19) (at_least v 6 0)
      (at_least v 5 1) (at_least v 5 2) (at_least v 5 11) (at_least v 5 16) (at_least v 6 1) (at_least v 6 14).
Proof.
  intros Hv. unfold kernel_switch. rewrite !plain_GreaterThanOrEqual by done. unfold no_support.
  assert (Hmono : ∀ a b c d, at_least v a b = true → c < a ∨ (c = a ∧ d ≤ b) → at_least v c d = true)
    by (intros; by eapply at_least_mono).
  cbn [run_switch].
  repeat match goal with
  | |- (if at_least v ?a ?b then _ else _) = _ =>
      let E := fresh in destruct (at_least v a b) eqn:E;
      [repeat match goal with
       | |- context [at_least v ?c ?d] => rewrite (Hmono _ _ c d E ltac:(lia))
       end; reflexivity |]
  end.
  reflexivity.
Qed.

Lemma kernel_switch_exact_witness : TLS_ARIA_GCM (kernel_switch (Parse "6.1.0")) = true.
Proof. rewrite kernel_switch_exact; [reflexivity |]. vm_compute. intuition congruence. Defined.

(** A release string with a suffix, as distributions use, loses the features of
    exactly that kernel: the suffix becomes the commit, so the version is not
    equal to the release, and it is not greater either.  Two such versions are
    each less than the other. *)
Theorem kernel_suffix_loses_features :
  TLS_ARIA_GCM (kernel_switch (Parse "6.1.0")) = true ∧
  TLS_ARIA_GCM (kernel_switch (Parse "6.1.0-13-amd64")) = false ∧
  LessThan (Parse "6.1.0-13-amd64") (Parse "6.1.0-21-amd64") = true ∧
  LessThan (Parse "6.1.0-21-amd64") (Parse "6.1.0-13-amd64") = true.
Proof. vm_compute. done. Qed.
