(* ===== verification/AdaptiveScheduler.v ===== *)
(** * The probe scheduler of the adaptive pool

    [protocol/group/adaptive/scheduler.go].  Probes are submitted with waiters;
    one dispatcher goroutine keeps them in three tables (pending, active, to be
    run again), hands them to workers, and answers every waiter through a
    channel of capacity one that is closed after its result.  Ownership of the
    probing of a pool passes from runtime epoch to runtime epoch through a
    coordinator.

    The dispatcher is a machine whose steps are the cases of its [select]; a
    second send on a waiter's channel, which would panic, is [None].  The choice
    of the next probe is a function of the visiting order of the pending table,
    which Go leaves open. *)

From S2P Require Import Prelude AdaptiveLease AdaptiveHealth.
From stdpp Require Import base gmap list strings numbers fin_sets fin_maps.
From Stdlib Require Import ZArith Lia.

Local Open Scope Z_scope.

(** ** Data *)

Record ProbeKey : Type := mkProbeKey {
  pk_RuntimeEpochID : Z;
  pk_CatalogRevision : Z;
  pk_SourceGeneration : Z;
  pk_NodeID : NodeID;
  pk_NodeSlot : Z;
  pk_NodeVersion : Z;
  pk_Suite : string;
  pk_Target : string;
}.

#[global] Instance ProbeKey_eq_dec : EqDecision ProbeKey.
Proof. unfold NodeID in *. solve_decision. Defined.
#[global] Instance ProbeKey_countable : Countable ProbeKey.
Proof.
  refine (inj_countable'
    (λ k, ((pk_RuntimeEpochID k, pk_CatalogRevision k, pk_SourceGeneration k, (pk_NodeID k : Z)),
           (pk_NodeSlot k, pk_NodeVersion k, pk_Suite k, pk_Target k)))
    (λ '((a, b, c, d), (e, f, g, h)), mkProbeKey a b c d e f g h) _).
  by intros [].
Defined.

Record ProbeResult : Type := mkResult {
  pr_Outcome : ObservationOutcome;
  pr_Delay : Z;
  pr_Reason : string;
  pr_Settled : bool;
}.

Definition ProbePriorityCoverage : Z := 1.
Definition ProbePriorityService : Z := 2.
Definition ProbePriorityOnDemand : Z := 3.
Definition ProbePriorityRecovery : Z := 4.
Definition maxHighPriorityBurst : Z := 8.

(** [Run] and [Observe] are closures of the caller: names here. *)
Record ProbeTask : Type := mkTask {
  pt_Key : ProbeKey;
  pt_Source : string;
  pt_Priority : Z;
  pt_DueAt : Z;
  pt_SubmittedAt : Z;
  pt_Interval : Z;
  pt_FailureInterval : Z;
  pt_FailureStreak : Z;
  pt_SuccessStreak : Z;
  pt_Timeout : Z;
  pt_FreshAfterCurrent : bool;
  pt_Run : option nat;
  pt_Observe : option nat;
}.

Inductive ProbeSubmitStatus : Type := ProbeAccepted | ProbeCoalesced | ProbeDeferred | ProbeRejected.

(** A waiter is the number it was submitted under; its channel has the result it
    was sent, if any, and is closed then. *)
Record scheduledProbe : Type := mkScheduled { sp_task : ProbeTask; sp_waiters : gset Z }.
Record activeProbe : Type := mkActive { ac_entry : scheduledProbe; ac_cancelled : bool }.

Record probeRemoval : Type := mkRemoval {
  rm_epochID : Z;
  rm_revision : Z;
  rm_nodeID : NodeID;
  rm_nodeSlot : Z;
  rm_nodeVersion : Z;
}.

(** ** Choosing the next probe *)

Definition compare_int (x y : Z) (k : Z) : Z := if x =? y then k else if x <? y then -1 else 1.
Definition compare_str (x y : string) (k : Z) : Z :=
  match String.compare x y with Lt => -1 | Gt => 1 | Eq => k end.

Definition compareProbeKey (l r : ProbeKey) : Z :=
  compare_int (pk_NodeID l) (pk_NodeID r)
    (compare_int (pk_NodeSlot l) (pk_NodeSlot r)
      (compare_int (pk_NodeVersion l) (pk_NodeVersion r)
        (compare_str (pk_Suite l) (pk_Suite r)
          (compare_str (pk_Target l) (pk_Target r) 0)))).

Definition task_priority (t : ProbeTask) : Z := if pt_Priority t =? 0 then ProbePriorityCoverage else pt_Priority t.
Definition task_source (t : ProbeTask) : string := if (pt_Source t =? "")%string then "default"%string else pt_Source t.

(** The order of [sort.Slice] on the entries of a source. *)
Definition task_before (l r : ProbeTask) : bool :=
  if negb (pt_SubmittedAt l =? pt_SubmittedAt r) then time_before (pt_SubmittedAt l) (pt_SubmittedAt r)
  else compareProbeKey (pt_Key l) (pt_Key r) <? 0.

(** [entries[0]] after sorting: an entry no other comes before. *)
Fixpoint first_entry (best : ProbeTask) (l : list ProbeTask) : ProbeTask :=
  match l with
  | [] => best
  | t :: l => first_entry (if task_before t best then t else best) l
  end.

(** [sort.Strings] of distinct strings. *)
Fixpoint insert_string (s : string) (l : list string) : list string :=
  match l with
  | [] => [s]
  | t :: l' => if String.leb s t then s :: l else t :: insert_string s l'
  end.
Definition sort_strings (l : list string) : list string := foldr insert_string [] l.

(** [sort.SearchStrings]: the first position whose string is not less. *)
Fixpoint search_strings (l : list string) (s : string) : nat :=
  match l with
  | [] => O
  | t :: l => if String.ltb t s then S (search_strings l s) else O
  end.

(** The source after the previous one, if that is among the sources. *)
Definition next_source (sources : list string) (previous : option string) : option string :=
  match previous with
  | Some previous =>
      if (previous =? "")%string then sources !! 0%nat
      else
        let index := search_strings sources previous in
        if bool_decide (sources !! index = Some previous)
        then sources !! ((index + 1) mod length sources)%nat
        else sources !! 0%nat
  | None => sources !! 0%nat
  end.

(** The state of the choice that lives across calls. *)
Record choice_state : Type := mkChoice {
  ch_lastSource : gmap Z string;
  ch_highBurst : Z;
  ch_forcedPriority : Z;
}.

Definition highest_priority (ready : list ProbeTask) : Z := foldr (λ t h, Z.max (task_priority t) h) 0 ready.

(** The priorities below the highest that have a ready probe, ascending. *)
Definition lower_priorities (ready : list ProbeTask) (highest : Z) : list Z :=
  filter (λ p, Exists (λ t, task_priority t = p) ready) (seqZ ProbePriorityCoverage (highest - ProbePriorityCoverage)).

(** The first of them above the one forced last, else the first. *)
Definition forced_choice (lower : list Z) (forced first : Z) : Z :=
  default first (list_find (λ p, forced < p) lower ≫= λ r, Some r.2).

Definition select_priority (c : choice_state) (ready : list ProbeTask) : Z * choice_state :=
  let highest := highest_priority ready in
  let '(selected, forced) :=
    if maxHighPriorityBurst <=? ch_highBurst c then
      match lower_priorities ready highest with
      | [] => (highest, ch_forcedPriority c)
      | (first :: _) as lower =>
          let selected := forced_choice lower (ch_forcedPriority c) first in (selected, selected)
      end
    else (highest, ch_forcedPriority c) in
  (selected,
   mkChoice (ch_lastSource c) (if negb (selected =? highest) then 0 else ch_highBurst c + 1) forced).

(** [nextScheduledProbe]: the chosen key, with the pending probes in the order
    the loop visits them. *)
Definition nextScheduledProbe (now : Z) (pending : list ProbeTask) (c : choice_state) : option (ProbeKey * choice_state) :=
  let ready := filter (λ t, ¬ now < pt_DueAt t) pending in
  if highest_priority ready =? 0 then None
  else
    let '(selected, c) := select_priority c ready in
    let candidates := filter (λ t, task_priority t = selected) ready in
    let sources := sort_strings (remove_dups (task_source <$> candidates)) in
    source ← next_source sources (ch_lastSource c !! selected);
    let c := mkChoice (<[selected := source]> (ch_lastSource c)) (ch_highBurst c) (ch_forcedPriority c) in
    match filter (λ t, task_source t = source) candidates with
    | [] => None
    | t :: entries => Some (pt_Key (first_entry t entries), c)
    end.

Definition earliestProbeDue (pending : list ProbeTask) : option Z :=
  let earliest := foldl (λ earliest t, if time_is_zero earliest || time_before (pt_DueAt t) earliest
                                       then pt_DueAt t else earliest) time_zero pending in
  if time_is_zero earliest then None else Some earliest.

(** ** Tasks *)

Definition mergeProbeTask (existing next : ProbeTask) : ProbeTask :=
  mkTask (pt_Key existing)
    (if (pt_Source existing =? "")%string then pt_Source next else pt_Source existing)
    (if pt_Priority existing <? pt_Priority next then pt_Priority next else pt_Priority existing)
    (if time_before (pt_DueAt next) (pt_DueAt existing) then pt_DueAt next else pt_DueAt existing)
    (pt_SubmittedAt existing)
    (if (0 <? pt_Interval next) || (pt_Interval existing <=? 0) then pt_Interval next else pt_Interval existing)
    (if (0 <? pt_FailureInterval next) || (pt_FailureInterval existing <=? 0) then pt_FailureInterval next
     else pt_FailureInterval existing)
    (pt_FailureStreak existing) (pt_SuccessStreak existing)
    (if 0 <? pt_Timeout next then pt_Timeout next else pt_Timeout existing)
    (pt_FreshAfterCurrent existing) (pt_Run next) (pt_Observe next).

Definition nextPeriodicProbeInterval (task : ProbeTask) (result : ProbeResult) : Z :=
  match pr_Outcome result with
  | OutcomeFailure =>
      if pt_FailureStreak task =? 0 then 30 * second
      else if pt_FailureStreak task =? 1 then minute else 5 * minute
  | OutcomeSuccess =>
      if pt_SuccessStreak task =? 0 then 5 * minute
      else if pt_SuccessStreak task =? 1 then 15 * minute else 30 * minute
  | _ => pt_Interval task
  end.

(** The next run of a periodic task: its streaks, capped at 3, and due time. *)
Definition periodic_task (task : ProbeTask) (result : ProbeResult) (now : Z) : ProbeTask :=
  let '(failures, successes) :=
    match pr_Outcome result with
    | OutcomeFailure => (if pt_FailureStreak task <? 3 then pt_FailureStreak task + 1 else pt_FailureStreak task, 0)
    | OutcomeSuccess => (0, if pt_SuccessStreak task <? 3 then pt_SuccessStreak task + 1 else pt_SuccessStreak task)
    | _ => (pt_FailureStreak task, pt_SuccessStreak task)
    end in
  mkTask (pt_Key task) (pt_Source task) (pt_Priority task) (now + nextPeriodicProbeInterval task result) now
    (pt_Interval task) (pt_FailureInterval task) failures successes (pt_Timeout task) (pt_FreshAfterCurrent task)
    (pt_Run task) (pt_Observe task).

Definition probeRemovalMatches (removal : probeRemoval) (key : ProbeKey) : bool :=
  ((rm_epochID removal =? 0) || (pk_RuntimeEpochID key =? rm_epochID removal)) &&
  ((rm_revision removal =? 0) || (pk_CatalogRevision key =? rm_revision removal)) &&
  ((rm_nodeID removal =? 0) || (pk_NodeID key =? rm_nodeID removal)) &&
  ((rm_nodeSlot removal =? 0) || (pk_NodeSlot key =? rm_nodeSlot removal)) &&
  ((rm_nodeVersion removal =? 0) || (pk_NodeVersion key =? rm_nodeVersion removal)).

(** [Submit] before the request is sent: the error, or the task with its defaults. *)
Definition Submit (isOwner : bool) (task : ProbeTask) (now : Z) : string + ProbeTask :=
  match pt_Run task with
  | None => inl "adaptive probe task has no runner"%string
  | Some _ =>
      if negb isOwner then inl "adaptive probe scheduler is not active owner"%string
      else inr (mkTask (pt_Key task) (pt_Source task)
        (if pt_Priority task =? 0 then ProbePriorityCoverage else pt_Priority task)
        (if time_is_zero (pt_DueAt task) then now else pt_DueAt task)
        (if time_is_zero (pt_SubmittedAt task) then now else pt_SubmittedAt task)
        (pt_Interval task) (pt_FailureInterval task) (pt_FailureStreak task) (pt_SuccessStreak task)
        (if pt_Timeout task <=? 0 then 5 * second else pt_Timeout task)
        (pt_FreshAfterCurrent task) (pt_Run task) (pt_Observe task))
  end.

(** [newOwnedProbeScheduler]: the numbers of workers and of queued probes. *)
Definition scheduler_limits (workers queueSize : Z) : Z * Z :=
  (if workers <=? 0 then 4 else workers, if queueSize <=? 0 then 4096 else queueSize).

(** What a worker reports: the runner's result, or its panic ([None]); a job whose
    context is done, or whose scheduler no longer owns, is deferred. *)
Definition worker_result (run : option ProbeResult) (elapsed : Z) (ctxErr : option string) (isOwner : bool) : ProbeResult :=
  let result := default (mkResult OutcomeDeferred 0 "probe runner panic" false) run in
  let delay := if pr_Delay result <=? 0 then elapsed else pr_Delay result in
  match ctxErr with
  | Some err => mkResult OutcomeDeferred delay err false
  | None =>
      if negb isOwner then mkResult OutcomeDeferred delay "adaptive probe scheduler is not active owner" false
      else mkResult (pr_Outcome result) delay (pr_Reason result) (pr_Settled result)
  end.

(** ** The dispatcher *)

Record schedulerStats : Type := mkStats {
  ss_accepted : Z;
  ss_coalesced : Z;
  ss_deferred : Z;
  ss_rejected : Z;
  ss_completed : Z;
  ss_stalled : Z;
}.

Inductive counter : Type := CAccepted | CCoalesced | CDeferred | CRejected | CCompleted | CStalled.

(** [atomic.Uint64.Add(1)]. *)
Definition count (s : schedulerStats) (c : counter) : schedulerStats :=
  let inc (b : bool) x := if b then u64 (x + 1) else x in
  mkStats
    (inc (match c with CAccepted => true | _ => false end) (ss_accepted s))
    (inc (match c with CCoalesced => true | _ => false end) (ss_coalesced s))
    (inc (match c with CDeferred => true | _ => false end) (ss_deferred s))
    (inc (match c with CRejected => true | _ => false end) (ss_rejected s))
    (inc (match c with CCompleted => true | _ => false end) (ss_completed s))
    (inc (match c with CStalled => true | _ => false end) (ss_stalled s)).

(** The variables of [runDispatcher] with the channels of the waiters, the
    calls of observers and the counters of the scheduler and of its owner.
    The entry to be dispatched is an entry of the pending table; the code drops
    it whenever that entry leaves the table, so it is known by its key. *)
Record dispatcher : Type := mkDispatcher {
  d_pending : gmap ProbeKey scheduledProbe;
  d_active : gmap ProbeKey activeProbe;
  d_rerun : gmap ProbeKey scheduledProbe;
  d_choice : choice_state;
  d_ownerReady : bool;
  d_dispatch : option ProbeKey;
  d_depth : Z;
  d_answers : gmap Z ProbeResult;
  d_observed : list (ProbeTask * ProbeResult);
  d_stats : schedulerStats;
  d_owner : option schedulerStats;
}.

Definition zero_stats : schedulerStats := mkStats 0 0 0 0 0 0.

Section dispatcher.
(** The capacity of the queue, and the observers that panic. *)
Variable queueSize : nat.
Variable observer_panics : ProbeTask → ProbeResult → bool.
Implicit Types (d : dispatcher) (e : scheduledProbe) (key : ProbeKey) (r : ProbeResult).

(** Setters, one per group of variables that changes together. *)
Definition set_tables d pending active rerun : dispatcher :=
  mkDispatcher pending active rerun (d_choice d) (d_ownerReady d) (d_dispatch d) (d_depth d) (d_answers d)
    (d_observed d) (d_stats d) (d_owner d).
Definition set_dispatch d (c : choice_state) (dispatch : option ProbeKey) : dispatcher :=
  mkDispatcher (d_pending d) (d_active d) (d_rerun d) c (d_ownerReady d) dispatch (d_depth d) (d_answers d)
    (d_observed d) (d_stats d) (d_owner d).
Definition set_ready d (ready : bool) : dispatcher :=
  mkDispatcher (d_pending d) (d_active d) (d_rerun d) (d_choice d) ready (d_dispatch d) (d_depth d) (d_answers d)
    (d_observed d) (d_stats d) (d_owner d).
Definition set_depth d (depth : Z) : dispatcher :=
  mkDispatcher (d_pending d) (d_active d) (d_rerun d) (d_choice d) (d_ownerReady d) (d_dispatch d) depth (d_answers d)
    (d_observed d) (d_stats d) (d_owner d).
Definition set_answers d (answers : gmap Z ProbeResult) (observed : list (ProbeTask * ProbeResult)) : dispatcher :=
  mkDispatcher (d_pending d) (d_active d) (d_rerun d) (d_choice d) (d_ownerReady d) (d_dispatch d) (d_depth d) answers
    observed (d_stats d) (d_owner d).

(** [s.stats.x.Add(1); if s.owner != nil { s.owner.stats.x.Add(1) }]. *)
Definition bump d (c : counter) : dispatcher :=
  mkDispatcher (d_pending d) (d_active d) (d_rerun d) (d_choice d) (d_ownerReady d) (d_dispatch d) (d_depth d) (d_answers d)
    (d_observed d) (count (d_stats d) c) ((λ s, count s c) <$> d_owner d).

(** [waiter.result <- result; close(waiter.result)] for a set of waiters. *)
Definition answer d (waiters : gset Z) r : option dispatcher :=
  if decide (waiters ## dom (d_answers d))
  then Some (set_answers d (gset_to_gmap r waiters ∪ d_answers d) (d_observed d))
  else None.

Definition finish d e r : option dispatcher :=
  d ← answer d (sp_waiters e) r;
  match pt_Observe (sp_task e) with
  | None => Some d
  | Some _ =>
      let d := set_answers d (d_answers d) (d_observed d ++ [(sp_task e, r)]) in
      Some (if observer_panics (sp_task e) r then bump d CRejected else d)
  end.

(** [finish] for the entries of a loop, in the order they are visited. *)
Fixpoint finish_all d (es : list scheduledProbe) r : option dispatcher :=
  match es with
  | [] => Some d
  | e :: es => d ← finish d e r; finish_all d es r
  end.

Definition deferred_result (reason : string) : ProbeResult := mkResult OutcomeDeferred 0 reason false.
Definition ErrProbeQueueFull : string := "adaptive probe queue is full".
Definition ErrProbeSchedulerOwner : string := "adaptive probe scheduler is not active owner".

Definition deferWaiter d (waiter : Z) (reason : string) : option dispatcher :=
  answer (bump d CDeferred) {[waiter]} (deferred_result reason).
Definition deferEntry d e (reason : string) : option dispatcher :=
  finish (bump d CDeferred) e (deferred_result reason).

Definition add_waiter (e : scheduledProbe) (waiter : Z) : scheduledProbe :=
  mkScheduled (sp_task e) ({[waiter]} ∪ sp_waiters e).

Definition queue_full d : bool := (queueSize <=? size (d_pending d) + size (d_rerun d))%nat.

Definition acceptSubmission d (task : ProbeTask) (waiter : Z) : option (dispatcher * ProbeSubmitStatus) :=
  let key := pt_Key task in
  let merged e := mkScheduled (mergeProbeTask (sp_task e) task) ({[waiter]} ∪ sp_waiters e) in
  match d_pending d !! key with
  | Some existing =>
      Some (bump (set_tables d (<[key := merged existing]> (d_pending d)) (d_active d) (d_rerun d)) CCoalesced, ProbeCoalesced)
  | None =>
      match d_active d !! key with
      | Some running =>
          if negb (pt_FreshAfterCurrent task) then
            let running := mkActive (add_waiter (ac_entry running) waiter) (ac_cancelled running) in
            Some (bump (set_tables d (d_pending d) (<[key := running]> (d_active d)) (d_rerun d)) CCoalesced, ProbeCoalesced)
          else
            match d_rerun d !! key with
            | Some existing =>
                Some (bump (set_tables d (d_pending d) (d_active d) (<[key := merged existing]> (d_rerun d))) CCoalesced,
                      ProbeCoalesced)
            | None =>
                if queue_full d then d ← deferWaiter d waiter ErrProbeQueueFull; Some (d, ProbeDeferred)
                else
                  Some (bump (set_tables d (d_pending d) (d_active d)
                                (<[key := mkScheduled task {[waiter]}]> (d_rerun d))) CCoalesced, ProbeCoalesced)
            end
      | None =>
          if queue_full d then d ← deferWaiter d waiter ErrProbeQueueFull; Some (d, ProbeDeferred)
          else
            Some (bump (set_tables d (<[key := mkScheduled task {[waiter]}]> (d_pending d)) (d_active d) (d_rerun d)) CAccepted,
                  ProbeAccepted)
      end
  end.

Definition submissionError (status : ProbeSubmitStatus) : option string :=
  match status with
  | ProbeDeferred => Some ErrProbeQueueFull
  | ProbeRejected => Some ErrProbeSchedulerOwner
  | _ => None
  end.

Definition remove_waiter e (waiter : Z) : scheduledProbe := mkScheduled (sp_task e) (sp_waiters e ∖ {[waiter]}).

(** The entry is of no use to anyone once its last waiter has left. *)
Definition abandoned e : bool := bool_decide (sp_waiters e = ∅) && (pt_Interval (sp_task e) <=? 0).

Definition cancelProbeWaiter d key (waiter : Z) : option dispatcher :=
  let result := deferred_result "context canceled" in
  let upd e (table : gmap ProbeKey scheduledProbe) :=
    let e := remove_waiter e waiter in if abandoned e then delete key table else <[key := e]> table in
  match d_pending d !! key with
  | Some e =>
      if decide (waiter ∈ sp_waiters e) then
        d ← answer d {[waiter]} result;
        Some (set_tables d (upd e (d_pending d)) (d_active d) (d_rerun d))
      else Some d
  | None =>
      match d_rerun d !! key with
      | Some e =>
          if decide (waiter ∈ sp_waiters e) then
            d ← answer d {[waiter]} result;
            Some (set_tables d (d_pending d) (d_active d) (upd e (d_rerun d)))
          else Some d
      | None =>
          match d_active d !! key with
          | Some running =>
              if decide (waiter ∈ sp_waiters (ac_entry running)) then
                d ← answer d {[waiter]} result;
                let e := remove_waiter (ac_entry running) waiter in
                let running := mkActive e (ac_cancelled running || abandoned e) in
                Some (set_tables d (d_pending d) (<[key := running]> (d_active d)) (d_rerun d))
              else Some d
          | None => Some d
          end
      end
  end.

(** The matching entries are finished in the order the loops visit them. *)
Definition removeProbes d (removal : probeRemoval) (pendings reruns : list scheduledProbe) : option dispatcher :=
  let result := deferred_result "probe identity retired" in
  let keep (kv : ProbeKey * scheduledProbe) := probeRemovalMatches removal kv.1 = false in
  d ← finish_all (set_tables d (filter keep (d_pending d)) (d_active d) (d_rerun d)) pendings result;
  d ← finish_all (set_tables d (d_pending d) (d_active d) (filter keep (d_rerun d))) reruns result;
  let active := map_imap (λ key running,
    Some (mkActive (ac_entry running) (ac_cancelled running || probeRemovalMatches removal key))) (d_active d) in
  Some (set_tables d (d_pending d) active (d_rerun d)).

(** [if dispatch != nil && pending[dispatch.task.Key] == nil { dispatch = nil }]. *)
Definition drop_stale_dispatch d : dispatcher :=
  match d_dispatch d with
  | Some key =>
      match d_pending d !! key with Some _ => d | None => set_dispatch d (d_choice d) None end
  | None => d
  end.

(** The top of the loop. *)
Definition loop_top d (now : Z) (order : list ProbeTask) : dispatcher :=
  let d :=
    match d_dispatch d with
    | None =>
        if d_ownerReady d then
          match nextScheduledProbe now order (d_choice d) with
          | Some (key, c) => set_dispatch d c (Some key)
          | None => d
          end
        else d
    | Some _ => d
    end in
  set_depth d (Z.of_nat (size (d_pending d) + size (d_rerun d))).

(** A worker takes the job: [None] when there is none to take. *)
Definition job_taken d : option (dispatcher * ProbeTask) :=
  key ← d_dispatch d;
  e ← d_pending d !! key;
  Some (set_dispatch (set_tables d (delete key (d_pending d)) (<[key := mkActive e false]> (d_active d)) (d_rerun d))
          (d_choice d) None, sp_task e).

(** What runs next under a key: a probe submitted meanwhile, or the period. *)
Definition next_run (task : ProbeTask) r (now : Z) (next : option scheduledProbe) : option scheduledProbe :=
  if 0 <? pt_Interval task then
    let periodic := periodic_task task r now in
    match next with
    | None => Some (mkScheduled periodic ∅)
    | Some next =>
        if pt_Interval (sp_task next) <=? 0 then
          let t := sp_task next in
          Some (mkScheduled (mkTask (pt_Key t) (pt_Source t) (pt_Priority t) (pt_DueAt t) (pt_SubmittedAt t)
                 (pt_Interval periodic) (pt_FailureInterval periodic) (pt_FailureStreak t) (pt_SuccessStreak t)
                 (pt_Timeout t) (pt_FreshAfterCurrent t) (pt_Run t) (pt_Observe t)) (sp_waiters next))
        else Some next
    end
  else next.

Definition completion d key (task : ProbeTask) r (now : Z) : option dispatcher :=
  match d_active d !! key with
  | None => Some d
  | Some running =>
      let d := bump (set_tables d (d_pending d) (delete key (d_active d)) (d_rerun d)) CCompleted in
      d ← finish d (ac_entry running) r;
      let next := next_run task r now (d_rerun d !! key) in
      let d := set_tables d (d_pending d) (d_active d) (delete key (d_rerun d)) in
      match next with
      | None => Some d
      | Some next =>
          if negb (queue_full d)
          then Some (set_tables d (<[pt_Key (sp_task next) := next]> (d_pending d)) (d_active d) (d_rerun d))
          else deferEntry d next ErrProbeQueueFull
      end
  end.

(** The deferred function when the context is done. *)
Definition stop d (pendings reruns : list scheduledProbe) (actives : list activeProbe) : option dispatcher :=
  let result := deferred_result "scheduler stopped" in
  d ← finish_all d pendings result;
  d ← finish_all d reruns result;
  d ← finish_all d (ac_entry <$> actives) result;
  Some (set_depth d 0).

(** ** The scheduler as a system *)

(** The dispatcher with the waiters issued so far and the jobs at the workers. *)
Record sched_system : Type := mkSched {
  y_d : dispatcher;
  y_issued : gset Z;
  y_inflight : list (ProbeKey * ProbeTask);
}.

(** The order a loop visits a table in. *)
Definition visits {A} (m : gmap ProbeKey A) (l : list A) : Prop := l ≡ₚ (map_to_list m).*2.
Definition matching (removal : probeRemoval) (m : gmap ProbeKey scheduledProbe) : gmap ProbeKey scheduledProbe :=
  filter (λ kv, probeRemovalMatches removal kv.1 = true) m.

(** The cases of the [select], after the top of the loop. *)
Inductive sched_step : sched_system → sched_system → Prop :=
| ss_top d I J now order :
    order ≡ₚ (sp_task <$> (map_to_list (d_pending d)).*2) →
    sched_step (mkSched d I J) (mkSched (loop_top d now order) I J)
| ss_submit d I J task w d' status :
    w ∉ I → acceptSubmission d task w = Some (d', status) →
    sched_step (mkSched d I J) (mkSched d' ({[w]} ∪ I) J)
| ss_cancel d I J key w d' :
    cancelProbeWaiter d key w = Some d' →
    sched_step (mkSched d I J) (mkSched (drop_stale_dispatch d') I J)
| ss_remove d I J removal ps rs d' :
    visits (matching removal (d_pending d)) ps → visits (matching removal (d_rerun d)) rs →
    removeProbes d removal ps rs = Some d' →
    sched_step (mkSched d I J) (mkSched (drop_stale_dispatch d') I J)
| ss_job d I J key d' task :
    d_dispatch d = Some key → job_taken d = Some (d', task) →
    sched_step (mkSched d I J) (mkSched d' I ((key, task) :: J))
| ss_done d I J1 J2 key task r now d' :
    completion d key task r now = Some d' →
    sched_step (mkSched d I (J1 ++ (key, task) :: J2)) (mkSched d' I (J1 ++ J2))
| ss_ready d I J : sched_step (mkSched d I J) (mkSched (set_ready d true) I J)
| ss_stall d I J : sched_step (mkSched d I J)
    (mkSched (mkDispatcher (d_pending d) (d_active d) (d_rerun d) (d_choice d) (d_ownerReady d) (d_dispatch d) (d_depth d)
       (d_answers d) (d_observed d) (d_stats d) ((λ s, count s CStalled) <$> d_owner d)) I J).

Definition initial (owner : option schedulerStats) : dispatcher :=
  mkDispatcher ∅ ∅ ∅ (mkChoice ∅ 0 0) (bool_decide (owner = None)) None 0 ∅ [] zero_stats owner.

Inductive sched_reachable (owner : option schedulerStats) : sched_system → Prop :=
| sr_init : sched_reachable owner (mkSched (initial owner) ∅ [])
| sr_step y y' : sched_reachable owner y → sched_step y y' → sched_reachable owner y'.

(** *** The invariant *)

Inductive place : Type := PPending | PActive | PRerun.
#[global] Instance place_eq_dec : EqDecision place.
Proof. solve_decision. Defined.

Definition entry_at d (l : place * ProbeKey) : option scheduledProbe :=
  match l.1 with
  | PPending => d_pending d !! l.2
  | PActive => ac_entry <$> d_active d !! l.2
  | PRerun => d_rerun d !! l.2
  end.

(** The waiters held at a place. *)
Definition waiters_at d (l : place * ProbeKey) : gset Z := default ∅ (sp_waiters <$> entry_at d l).
Abbreviation holds d w l := (w ∈ waiters_at d l).

Record waiters_ok d (I : gset Z) : Prop := {
  wo_unique w l1 l2 : holds d w l1 → holds d w l2 → l1 = l2;
  wo_open w l : holds d w l → w ∈ I ∧ d_answers d !! w = None;
  wo_cover w : w ∈ I → (∃ l, holds d w l) ∨ is_Some (d_answers d !! w);
  wo_answered w : is_Some (d_answers d !! w) → w ∈ I;
}.

Record tables_ok d (J : list (ProbeKey * ProbeTask)) : Prop := {
  to_keys l e : entry_at d l = Some e → pt_Key (sp_task e) = l.2;
  to_jobs k t : (k, t) ∈ J → pt_Key t = k;
  to_disjoint k : is_Some (d_pending d !! k) → d_active d !! k = None;
  to_rerun k : is_Some (d_rerun d !! k) → is_Some (d_active d !! k);
  to_dispatch k : d_dispatch d = Some k → is_Some (d_pending d !! k);
  to_inflight : NoDup J.*1;
  to_active k : k ∈ J.*1 ↔ is_Some (d_active d !! k);
  to_size : (size (d_pending d) + size (d_rerun d) ≤ queueSize)%nat;
}.

(** What answering leaves alone. *)
Definition same_tables d d' : Prop :=
  d_pending d' = d_pending d ∧ d_active d' = d_active d ∧ d_rerun d' = d_rerun d ∧
  d_dispatch d' = d_dispatch d ∧ d_choice d' = d_choice d.

Lemma same_tables_trans d1 d2 d3 : same_tables d1 d2 → same_tables d2 d3 → same_tables d1 d3.
Proof. intros (? & ? & ? & ? & ?) (? & ? & ? & ? & ?). split_and!; congruence. Qed.

Lemma answer_spec d ws r :
  ws ## dom (d_answers d) →
  ∃ d', answer d ws r = Some d' ∧ same_tables d d' ∧
        ∀ w, is_Some (d_answers d' !! w) ↔ w ∈ ws ∨ is_Some (d_answers d !! w).
Proof.
  intros Hd. unfold answer. rewrite decide_True by done. eexists. split_and!; [done | done |].
  intros w. simpl. by rewrite <- !elem_of_dom, dom_union_L, dom_gset_to_gmap, elem_of_union.
Qed.

Lemma finish_spec d e r :
  sp_waiters e ## dom (d_answers d) →
  ∃ d', finish d e r = Some d' ∧ same_tables d d' ∧
        ∀ w, is_Some (d_answers d' !! w) ↔ w ∈ sp_waiters e ∨ is_Some (d_answers d !! w).
Proof.
  intros Hd. unfold finish. destruct (answer_spec d (sp_waiters e) r Hd) as (d1 & -> & Hs & Ha). cbn [mbind option_bind].
  destruct (pt_Observe (sp_task e)); [| by exists d1].
  eexists. split_and!; [done | |]; by destruct (observer_panics (sp_task e) r).
Qed.

(** Entries whose waiters are pairwise different. *)
Fixpoint separate (es : list scheduledProbe) : Prop :=
  match es with
  | [] => True
  | e :: es => (∀ e', e' ∈ es → sp_waiters e ## sp_waiters e') ∧ separate es
  end.

Definition any_waiter (es : list scheduledProbe) (w : Z) : Prop := ∃ e, e ∈ es ∧ w ∈ sp_waiters e.

Lemma finish_all_spec d es r :
  separate es → (∀ w, any_waiter es w → d_answers d !! w = None) →
  ∃ d', finish_all d es r = Some d' ∧ same_tables d d' ∧
        ∀ w, is_Some (d_answers d' !! w) ↔ any_waiter es w ∨ is_Some (d_answers d !! w).
Proof.
  revert d. induction es as [|e es IH]; intros d; simpl.
  { intros _ _. exists d. split_and!; [done | done |]. intros w. split; [by right |].
    intros [(e & He & _) | ?]; [by apply not_elem_of_nil in He | done]. }
  intros [Hsep Hes] Hopen.
  destruct (finish_spec d e r) as (d1 & -> & Hs1 & Ha1).
  { intros w Hw Hd. apply elem_of_dom in Hd. rewrite (Hopen w) in Hd; [by destruct Hd |]. exists e. split; [left | done]. }
  cbn [mbind option_bind]. destruct (IH d1) as (d2 & -> & Hs2 & Ha2); [done | |].
  { intros w (e' & He' & Hw). apply eq_None_not_Some. rewrite Ha1. intros [Hwe | Hd].
    - by eapply (Hsep e' He' w).
    - rewrite (Hopen w) in Hd; [by destruct Hd |]. exists e'. split; [by right | done]. }
  exists d2. split_and!; [done | by eapply same_tables_trans |]. intros w. rewrite Ha2, Ha1. split.
  - intros [(e' & He' & Hw) | [Hw | Hw]]; [left; exists e'; split; [by right | done] | left; exists e; split; [left | done] | by right].
  - intros [(e' & [-> | He']%elem_of_cons & Hw) | Hw]; [by right; left | left; by exists e' | by right; right].
Qed.

(** The entries of a table whose waiters are pairwise different. *)
Lemma visits_elem {A} (m : gmap ProbeKey A) l (e : A) : visits m l → e ∈ l ↔ ∃ k, m !! k = Some e.
Proof.
  intros ->. rewrite list_elem_of_fmap. split.
  - intros ([k e'] & -> & Hk). exists k. by apply elem_of_map_to_list.
  - intros [k Hk]. exists (k, e). split; [done |]. by apply elem_of_map_to_list.
Qed.

Lemma visits_self {A} (m : gmap ProbeKey A) : visits m (map_to_list m).*2.
Proof. unfold visits. reflexivity. Qed.

Lemma visits_separate (m : gmap ProbeKey scheduledProbe) l :
  visits m l →
  (∀ k1 k2 e1 e2, m !! k1 = Some e1 → m !! k2 = Some e2 → k1 ≠ k2 → sp_waiters e1 ## sp_waiters e2) →
  separate l.
Proof.
  intros Hv Hd. apply Permutation_map_inv in Hv as (kl & -> & HP).
  assert (Hnd : NoDup kl.*1) by (rewrite <- HP; apply NoDup_fst_map_to_list).
  assert (Hin : ∀ k e, (k, e) ∈ kl → m !! k = Some e) by (intros k e; rewrite <- HP; apply elem_of_map_to_list).
  clear HP. induction kl as [|[k e] kl IH]; simpl; [done |]. apply NoDup_cons in Hnd as [Hk Hnd]. split.
  - intros e' ([k' e''] & -> & He')%list_elem_of_fmap. simpl. apply (Hd k k'); [apply Hin; left | apply Hin; by right |].
    intros ->. apply Hk. apply list_elem_of_fmap. by exists (k', e'').
  - apply IH; [done |]. intros k' e' Hke. apply Hin. by right.
Qed.

(** *** Preservation of the waiters *)

(** A step moves entries, answers the waiters of [A] and adds at most one waiter
    that was not issued before. *)
Lemma waiters_ok_step d d' I I' (A : Z → Prop) (f : place * ProbeKey → place * ProbeKey) l0 :
  waiters_ok d I → I ⊆ I' → (∀ w, A w → w ∈ I') →
  (∀ w l', holds d' w l' → ¬ A w ∧ ((∃ l, holds d w l ∧ (f l = l')) ∨ (w ∉ I ∧ w ∈ I' ∧ l' = l0))) →
  (∀ w, (∃ l, holds d w l) ∨ (w ∈ I' ∧ w ∉ I) → (∃ l', holds d' w l') ∨ A w) →
  (∀ w, is_Some (d_answers d' !! w) ↔ A w ∨ is_Some (d_answers d !! w)) →
  waiters_ok d' I'.
Proof.
  intros [Hu Ho Hc Ha] HI HA Hfrom Hto Hans. split.
  - intros w l1 l2 [_ [(l & Hl & <-) | (Hn & _ & ->)]]%Hfrom [_ [(l' & Hl' & <-) | (Hn' & _ & ->)]]%Hfrom.
    + by rewrite (Hu w l l').
    + by apply Ho in Hl as [? _].
    + by apply Ho in Hl' as [? _].
    + done.
  - intros w l [HnA Hor]%Hfrom. split.
    + destruct Hor as [(l' & Hl' & _) | (_ & ? & _)]; [| done]. apply HI. by apply Ho in Hl' as [? _].
    + apply eq_None_not_Some. rewrite Hans. intros [? | Hs]; [done |].
      destruct Hor as [(l' & Hl' & _) | (Hn & _ & _)]; [apply Ho in Hl' as [_ E]; rewrite E in Hs; by destruct Hs |].
      by apply Ha in Hs.
  - intros w Hw. rewrite Hans. destruct (decide (w ∈ I)) as [Hi | Hi].
    + destruct (Hc w Hi) as [Hl | Hs]; [| by right; right]. destruct (Hto w (or_introl Hl)) as [? | ?]; [by left | by right; left].
    + destruct (Hto w (or_intror (conj Hw Hi))) as [? | ?]; [by left | by right; left].
  - intros w [? | ?]%Hans; [by apply HA | by apply HI, Ha].
Qed.

(** Changes of one table at one key. *)
Ltac table_change :=
  match goal with |- context [decide (?l = _)] =>
    case_decide as Hd; destruct l as [[] ?]; simplify_eq; unfold entry_at, set_tables;
    cbn [fst snd d_pending d_active d_rerun];
    rewrite ?lookup_insert_eq, ?lookup_delete_eq; try done;
    rewrite ?lookup_insert_ne, ?lookup_delete_ne by congruence; done
  end.
Lemma entry_pending d k e l :
  entry_at (set_tables d (<[k := e]> (d_pending d)) (d_active d) (d_rerun d)) l
  = if decide (l = (PPending, k)) then Some e else entry_at d l.
Proof. by table_change. Qed.
Lemma entry_rerun d k e l :
  entry_at (set_tables d (d_pending d) (d_active d) (<[k := e]> (d_rerun d))) l
  = if decide (l = (PRerun, k)) then Some e else entry_at d l.
Proof. by table_change. Qed.
Lemma entry_active d k a l :
  entry_at (set_tables d (d_pending d) (<[k := a]> (d_active d)) (d_rerun d)) l
  = if decide (l = (PActive, k)) then Some (ac_entry a) else entry_at d l.
Proof. by table_change. Qed.
Lemma entry_pending_del d k l :
  entry_at (set_tables d (delete k (d_pending d)) (d_active d) (d_rerun d)) l
  = if decide (l = (PPending, k)) then None else entry_at d l.
Proof. by table_change. Qed.
Lemma entry_rerun_del d k l :
  entry_at (set_tables d (d_pending d) (d_active d) (delete k (d_rerun d))) l
  = if decide (l = (PRerun, k)) then None else entry_at d l.
Proof. by table_change. Qed.
Lemma entry_active_del d k l :
  entry_at (set_tables d (d_pending d) (delete k (d_active d)) (d_rerun d)) l
  = if decide (l = (PActive, k)) then None else entry_at d l.
Proof. by table_change. Qed.

Lemma entry_same d d' l : same_tables d d' → entry_at d' l = entry_at d l.
Proof. intros (E1 & E2 & E3 & _). unfold entry_at. by rewrite E1, E2, E3. Qed.

(** A new waiter joins a place. *)
Lemma waiters_ok_put d d' I w l0 :
  waiters_ok d I → w ∉ I → d_answers d' = d_answers d →
  (∀ l, waiters_at d' l = if decide (l = l0) then {[w]} ∪ waiters_at d l0 else waiters_at d l) →
  waiters_ok d' ({[w]} ∪ I).
Proof.
  intros Hok Hw Ha Hl.
  apply (waiters_ok_step d d' I ({[w]} ∪ I) (λ _, False) (λ l, l) l0); [done | set_solver | done | | |].
  - intros w' l' Hh. split; [tauto |]. rewrite Hl in Hh. case_decide as Hll; [subst l' | left; by exists l'].
    apply elem_of_union in Hh as [->%elem_of_singleton | Hh]; [right; set_solver | left; by exists l0].
  - intros w' [[l Hh] | [Hi Hn]]; left.
    + exists l. rewrite Hl. case_decide; [subst; set_solver | done].
    + exists l0. rewrite Hl, decide_True by done. set_solver.
  - intros w'. rewrite Ha. tauto.
Qed.

(** A new waiter is answered at once. *)
Lemma waiters_ok_reject d d' I w :
  waiters_ok d I → w ∉ I → (∀ l, waiters_at d' l = waiters_at d l) →
  (∀ w', is_Some (d_answers d' !! w') ↔ w' ∈ ({[w]} : gset Z) ∨ is_Some (d_answers d !! w')) →
  waiters_ok d' ({[w]} ∪ I).
Proof.
  intros Hok Hw Hl Ha.
  apply (waiters_ok_step d d' I ({[w]} ∪ I) (λ w', w' = w) (λ l, l) (PPending, mkProbeKey 0 0 0 0 0 0 "" ""));
    [done | set_solver | set_solver | | |].
  - intros w' l' Hh. rewrite Hl in Hh. split; [| left; by exists l'].
    intros ->. by apply (wo_open _ _ Hok) in Hh as [? _].
  - intros w' [[l Hh] | [Hi Hn]]; [left; exists l; by rewrite Hl | right; set_solver].
  - intros w'. rewrite Ha. set_solver.
Qed.

(** A waiter leaves its place with an answer. *)
Lemma waiters_ok_take d d' I w l0 :
  waiters_ok d I → holds d w l0 →
  (∀ l, waiters_at d' l = if decide (l = l0) then waiters_at d l0 ∖ {[w]} else waiters_at d l) →
  (∀ w', is_Some (d_answers d' !! w') ↔ w' ∈ ({[w]} : gset Z) ∨ is_Some (d_answers d !! w')) →
  waiters_ok d' I.
Proof.
  intros Hok Hw Hl Ha.
  apply (waiters_ok_step d d' I I (λ w', w' = w) (λ l, l) l0); [done | done | | | |].
  - intros w' ->. by apply (wo_open _ _ Hok) in Hw as [? _].
  - intros w' l' Hh. rewrite Hl in Hh. case_decide as Hll.
    + subst l'. apply elem_of_difference in Hh as [Hh Hn]. split; [set_solver | left; by exists l0].
    + split; [| left; by exists l']. intros ->. by apply Hll, (wo_unique _ _ Hok w).
  - intros w' [[l Hh] | [Hi Hn]]; [| done]. destruct (decide (w' = w)) as [-> | Hne]; [by right |]. left. exists l.
    rewrite Hl. case_decide; [subst; set_solver | done].
  - intros w'. rewrite Ha. set_solver.
Qed.

(** *** Preservation of the tables *)

Lemma is_Some_dom {A} (m m' : gmap ProbeKey A) k : dom m' = dom m → is_Some (m' !! k) ↔ is_Some (m !! k).
Proof. intros E. by rewrite <- !elem_of_dom, E. Qed.

(** A step that changes no key of a table. *)
Lemma tables_ok_doms d d' J :
  tables_ok d J → dom (d_pending d') = dom (d_pending d) → dom (d_active d') = dom (d_active d) →
  dom (d_rerun d') = dom (d_rerun d) → (∀ k, d_dispatch d' = Some k → is_Some (d_pending d !! k)) →
  (∀ l e, entry_at d' l = Some e → pt_Key (sp_task e) = l.2) → tables_ok d' J.
Proof.
  intros [Hk Hj Hdis Hre Hdp Hnd Hac Hsz] Ep Ea Er Ed Hk'. split; [done | done | | | | done | |].
  - intros k Hs. rewrite (is_Some_dom _ _ _ Ep) in Hs. apply eq_None_not_Some.
    rewrite (is_Some_dom _ _ _ Ea). rewrite (Hdis k Hs). by intros [].
  - intros k. rewrite (is_Some_dom _ _ _ Er), (is_Some_dom _ _ _ Ea). apply Hre.
  - intros k Hk1. rewrite (is_Some_dom _ _ _ Ep). by apply Ed.
  - intros k. rewrite (is_Some_dom _ _ _ Ea). apply Hac.
  - rewrite <- !size_dom, Ep, Er, !size_dom. done.
Qed.

Lemma tables_ok_same d d' J : same_tables d d' → tables_ok d J → tables_ok d' J.
Proof.
  intros Hs Hok. pose proof Hs as (E1 & E2 & E3 & E4 & _).
  apply (tables_ok_doms d d' J Hok); [by rewrite E1 | by rewrite E2 | by rewrite E3 | |].
  - intros k. rewrite E4. apply (to_dispatch _ _ Hok).
  - intros l e. rewrite (entry_same _ _ _ Hs). apply (to_keys _ _ Hok).
Qed.

Lemma dom_replace {A} (m : gmap ProbeKey A) k x y : m !! k = Some x → dom (<[k := y]> m) = dom m.
Proof. intros E. apply elem_of_dom_2 in E. rewrite dom_insert_L. set_solver. Qed.

(** Rewriting the task and the waiters of one entry. *)
Definition put_entry d (l : place * ProbeKey) e : dispatcher :=
  match l.1 with
  | PPending => set_tables d (<[l.2 := e]> (d_pending d)) (d_active d) (d_rerun d)
  | PActive =>
      let cancelled := default false (ac_cancelled <$> d_active d !! l.2) in
      set_tables d (d_pending d) (<[l.2 := mkActive e cancelled]> (d_active d)) (d_rerun d)
  | PRerun => set_tables d (d_pending d) (d_active d) (<[l.2 := e]> (d_rerun d))
  end.

Lemma entry_put d l0 e l : entry_at (put_entry d l0 e) l = if decide (l = l0) then Some e else entry_at d l.
Proof. destruct l0 as [[] k]; [apply entry_pending | apply (entry_active d k (mkActive e _)) | apply entry_rerun]. Qed.

Lemma waiters_at_eq d d' (l : place * ProbeKey) : entry_at d' l = entry_at d l → waiters_at d' l = waiters_at d l.
Proof. unfold waiters_at. by intros ->. Qed.
Lemma waiters_at_put d l0 e l :
  waiters_at (put_entry d l0 e) l = if decide (l = l0) then sp_waiters e else waiters_at d l.
Proof. unfold waiters_at. rewrite entry_put. by case_decide. Qed.
Lemma waiters_at_Some d l e : entry_at d l = Some e → waiters_at d l = sp_waiters e.
Proof. unfold waiters_at. by intros ->. Qed.
Lemma waiters_at_None d l : entry_at d l = None → waiters_at d l = ∅.
Proof. unfold waiters_at. by intros ->. Qed.

Lemma tables_ok_put d l e e' J :
  tables_ok d J → entry_at d l = Some e → pt_Key (sp_task e') = pt_Key (sp_task e) → tables_ok (put_entry d l e') J.
Proof.
  intros Hok He Hk. pose proof (to_keys _ _ Hok _ _ He) as Hl.
  apply (tables_ok_doms d _ J Hok).
  - destruct l as [[] k]; simpl; [by eapply dom_replace | done | done].
  - destruct l as [[] k]; simpl; [done | | done]. unfold entry_at in He. simpl in He.
    apply fmap_Some in He as (a & Ha & ->). by eapply dom_replace.
  - destruct l as [[] k]; simpl; [done | done | by eapply dom_replace].
  - intros k. replace (d_dispatch (put_entry d l e')) with (d_dispatch d) by by destruct l as [[] ?].
    apply (to_dispatch _ _ Hok).
  - intros l' e''. rewrite entry_put. case_decide; [intros [= <-]; subst; congruence | apply (to_keys _ _ Hok)].
Qed.

(** A new entry, where the queue has room. *)
Lemma tables_ok_new_pending d task w J :
  tables_ok d J → d_pending d !! pt_Key task = None → d_active d !! pt_Key task = None → queue_full d = false →
  tables_ok (put_entry d (PPending, pt_Key task) (mkScheduled task w)) J.
Proof.
  intros [Hk Hj Hdis Hre Hdp Hnd Hac Hsz] Hp Ha Hq. apply Nat.leb_gt in Hq. split; [| done | | done | | done | done |].
  - intros l e. rewrite entry_put. case_decide; [by intros [= <-]; subst | apply Hk].
  - intros k. simpl. destruct (decide (k = pt_Key task)) as [-> |]; [done |]. rewrite lookup_insert_ne by done. apply Hdis.
  - intros k Hd. simpl. apply lookup_insert_is_Some'. right. by apply Hdp.
  - simpl. rewrite map_size_insert_None by done. lia.
Qed.

Lemma tables_ok_new_rerun d task w J :
  tables_ok d J → d_rerun d !! pt_Key task = None → is_Some (d_active d !! pt_Key task) → queue_full d = false →
  tables_ok (put_entry d (PRerun, pt_Key task) (mkScheduled task w)) J.
Proof.
  intros [Hk Hj Hdis Hre Hdp Hnd Hac Hsz] Hp Ha Hq. apply Nat.leb_gt in Hq. split; [| done | done | | done | done | done |].
  - intros l e. rewrite entry_put. case_decide; [by intros [= <-]; subst | apply Hk].
  - intros k. simpl. destruct (decide (k = pt_Key task)) as [-> |]; [done |]. rewrite lookup_insert_ne by done. apply Hre.
  - simpl. rewrite map_size_insert_None by done. lia.
Qed.

(** The counters do not matter to the invariant. *)
Lemma tables_ok_bump d c J : tables_ok d J → tables_ok (bump d c) J.
Proof. by apply tables_ok_same. Qed.
Lemma waiters_ok_bump d c I : waiters_ok d I → waiters_ok (bump d c) I.
Proof. by intros [? ? ? ?]; split. Qed.

(** *** Submission *)

(** The waiter joins an entry that is in a table. *)
Lemma join_ok d I J l e e' w :
  waiters_ok d I → tables_ok d J → w ∉ I → entry_at d l = Some e →
  pt_Key (sp_task e') = pt_Key (sp_task e) → sp_waiters e' = {[w]} ∪ sp_waiters e →
  waiters_ok (put_entry d l e') ({[w]} ∪ I) ∧ tables_ok (put_entry d l e') J.
Proof.
  intros Hw Ht Hn He Hk Hws. split; [| by eapply tables_ok_put].
  apply (waiters_ok_put d _ I w l); [done | done | by destruct l as [[] ?] |].
  intros l'. rewrite waiters_at_put. case_decide; [| done]. by rewrite (waiters_at_Some _ _ _ He).
Qed.

Lemma defer_ok d I J w reason :
  waiters_ok d I → tables_ok d J → w ∉ I →
  ∃ d', deferWaiter d w reason = Some d' ∧ waiters_ok d' ({[w]} ∪ I) ∧ tables_ok d' J.
Proof.
  intros Hw Ht Hn. destruct (answer_spec (bump d CDeferred) {[w]} (deferred_result reason)) as (d' & E & Hs & Ha).
  { apply disjoint_singleton_l. rewrite elem_of_dom. intros Hs. by apply (wo_answered _ _ Hw) in Hs. }
  exists d'. split_and!; [done | | by eapply tables_ok_same, tables_ok_bump].
  apply (waiters_ok_reject (bump d CDeferred)); [by apply waiters_ok_bump | done | | done].
  intros l. by apply waiters_at_eq, entry_same.
Qed.

Lemma acceptSubmission_ok d I J task w :
  waiters_ok d I → tables_ok d J → w ∉ I →
  ∃ d' status, acceptSubmission d task w = Some (d', status) ∧ waiters_ok d' ({[w]} ∪ I) ∧ tables_ok d' J.
Proof.
  intros Hw Ht Hn. unfold acceptSubmission.
  assert (Hnew : ∀ l, entry_at d l = None → pt_Key task = l.2 →
            waiters_ok (put_entry d l (mkScheduled task {[w]})) ({[w]} ∪ I)).
  { intros l He Hk. apply (waiters_ok_put d _ I w l); [done | done | by destruct l as [[] ?] |].
    intros l'. rewrite waiters_at_put. case_decide; [| done]. rewrite (waiters_at_None _ _ He). set_solver. }
  destruct (d_pending d !! pt_Key task) as [e |] eqn:Ep.
  { destruct (join_ok d I J (PPending, pt_Key task) e (mkScheduled (mergeProbeTask (sp_task e) task) ({[w]} ∪ sp_waiters e)) w) as [H1 H2];
      [done.. |]. do 2 eexists. split_and!; [done | by apply waiters_ok_bump | by apply tables_ok_bump]. }
  destruct (d_active d !! pt_Key task) as [a |] eqn:Ea.
  - destruct (pt_FreshAfterCurrent task); simpl.
    + destruct (d_rerun d !! pt_Key task) as [e |] eqn:Er.
      * destruct (join_ok d I J (PRerun, pt_Key task) e (mkScheduled (mergeProbeTask (sp_task e) task) ({[w]} ∪ sp_waiters e)) w)
          as [H1 H2]; [done.. |]. do 2 eexists. split_and!; [done | by apply waiters_ok_bump | by apply tables_ok_bump].
      * destruct (queue_full d) eqn:Hq.
        { destruct (defer_ok d I J w ErrProbeQueueFull) as (d' & -> & ? & ?); [done.. |]. by do 2 eexists. }
        do 2 eexists. split_and!; [done | apply waiters_ok_bump, (Hnew (PRerun, pt_Key task)); by simpl |].
        apply tables_ok_bump, (tables_ok_new_rerun d task {[w]}); by rewrite ?Ea.
    + destruct (join_ok d I J (PActive, pt_Key task) (ac_entry a) (add_waiter (ac_entry a) w) w) as [H1 H2];
        [done | done | done | unfold entry_at; simpl; by rewrite Ea | done | done |].
      unfold put_entry in H1, H2. simpl in H1, H2. rewrite Ea in H1, H2. simpl in H1, H2.
      do 2 eexists. split_and!; [done | by apply waiters_ok_bump | by apply tables_ok_bump].
  - destruct (queue_full d) eqn:Hq.
    { destruct (defer_ok d I J w ErrProbeQueueFull) as (d' & -> & ? & ?); [done.. |]. by do 2 eexists. }
    do 2 eexists. split_and!; [done | apply waiters_ok_bump, (Hnew (PPending, pt_Key task)); by simpl |].
    apply tables_ok_bump, (tables_ok_new_pending d task {[w]}); done.
Qed.

(** *** Cancellation *)

Definition drop_entry d (l : place * ProbeKey) : dispatcher :=
  match l.1 with
  | PPending => set_tables d (delete l.2 (d_pending d)) (d_active d) (d_rerun d)
  | PActive => set_tables d (d_pending d) (delete l.2 (d_active d)) (d_rerun d)
  | PRerun => set_tables d (d_pending d) (d_active d) (delete l.2 (d_rerun d))
  end.

Lemma entry_drop d l0 l : entry_at (drop_entry d l0) l = if decide (l = l0) then None else entry_at d l.
Proof. destruct l0 as [[] k]; [apply entry_pending_del | apply entry_active_del | apply entry_rerun_del]. Qed.
Lemma waiters_at_drop d l0 l : waiters_at (drop_entry d l0) l = if decide (l = l0) then ∅ else waiters_at d l.
Proof. unfold waiters_at. rewrite entry_drop. by case_decide. Qed.

(** All of [tables_ok] but the choice of the dispatch, which the code revisits
    after it has removed entries. *)
Definition undispatched d : dispatcher := set_dispatch d (d_choice d) None.

Lemma tables_ok_undispatched d J : tables_ok d J → tables_ok (undispatched d) J.
Proof. intros Hok. by apply (tables_ok_doms d _ J Hok); [.. | apply (to_keys _ _ Hok)]. Qed.

Lemma drop_stale_ok d J : tables_ok (undispatched d) J → tables_ok (drop_stale_dispatch d) J.
Proof.
  intros Hok. unfold drop_stale_dispatch. destruct (d_dispatch d) as [k |] eqn:Ed.
  - destruct (d_pending d !! k) eqn:Ep; [| done].
    apply (tables_ok_doms (undispatched d) _ J Hok); [done | done | done | | apply (to_keys _ _ Hok)].
    intros k'. rewrite Ed. intros [= <-]. by eexists.
  - apply (tables_ok_doms (undispatched d) _ J Hok); [done | done | done | | apply (to_keys _ _ Hok)]. intros k. by rewrite Ed.
Qed.

Lemma waiters_ok_ext d d' I :
  waiters_ok d I → (∀ l, entry_at d' l = entry_at d l) → d_answers d' = d_answers d → waiters_ok d' I.
Proof.
  intros [Hu Ho Hc Ha] He Ea. assert (∀ l, waiters_at d' l = waiters_at d l) as Hl by (intros; by apply waiters_at_eq).
  split; intros w.
  - intros l1 l2. rewrite !Hl. apply Hu.
  - intros l. rewrite Hl, Ea. apply Ho.
  - intros Hw. rewrite Ea. destruct (Hc w Hw) as [[l ?] |]; [left; exists l; by rewrite Hl | by right].
  - rewrite Ea. apply Ha.
Qed.

Lemma waiters_drop_stale d I : waiters_ok d I → waiters_ok (drop_stale_dispatch d) I.
Proof. intros Hok. unfold drop_stale_dispatch. repeat case_match; try done. by apply (waiters_ok_ext d). Qed.

Lemma tables_ok_drop d l J : l.1 ≠ PActive → tables_ok d J → tables_ok (undispatched (drop_entry d l)) J.
Proof.
  intros Hl [Hk Hj Hdis Hre Hdp Hnd Hac Hsz]. split; [| done | | | done | done | |].
  - intros l' e. unfold undispatched. change (entry_at _ l') with (entry_at (drop_entry d l) l').
    rewrite entry_drop. case_decide; [done | apply Hk].
  - intros k Hs. destruct l as [[] k']; simpl in *; [| done | by apply Hdis].
    apply Hdis. destruct Hs as [x [_ Hx]%lookup_delete_Some]. by exists x.
  - intros k Hs. destruct l as [[] k']; simpl in *; [by apply Hre | done |].
    apply Hre. destruct Hs as [x [_ Hx]%lookup_delete_Some]. by exists x.
  - by destruct l as [[] k'].
  - destruct l as [[] k']; simpl in *; [| done |].
    + assert (size (delete k' (d_pending d)) ≤ size (d_pending d))%nat by (apply map_subseteq_size, delete_subseteq). lia.
    + assert (size (delete k' (d_rerun d)) ≤ size (d_rerun d))%nat by (apply map_subseteq_size, delete_subseteq). lia.
Qed.


(** The waiter leaves its entry, which is dropped when it was the last one. *)
Lemma leave_ok d I J l e w reason d1 d2 :
  waiters_ok d I → tables_ok d J → entry_at d l = Some e → w ∈ sp_waiters e →
  answer d {[w]} (deferred_result reason) = Some d1 →
  (d2 = put_entry d1 l (remove_waiter e w) ∨ l.1 ≠ PActive ∧ sp_waiters (remove_waiter e w) = ∅ ∧ d2 = drop_entry d1 l) →
  waiters_ok d2 I ∧ tables_ok (undispatched d2) J.
Proof.
  intros Hw Ht He Hin Hans Hd2.
  destruct (answer_spec d {[w]} (deferred_result reason)) as (d1' & E & Hs & Ha).
  { apply disjoint_singleton_l. rewrite elem_of_dom. intros Hs. pose proof (wo_open _ _ Hw w l) as Ho.
    rewrite (waiters_at_Some _ _ _ He) in Ho. destruct (Ho Hin) as [_ Hn]. rewrite Hn in Hs. by destruct Hs. }
  rewrite E in Hans. injection Hans as ->.
  assert (He1 : entry_at d1 l = Some e) by (by rewrite (entry_same d d1)).
  assert (Hat : ∀ l', waiters_at d1 l' = waiters_at d l') by (intros; by apply waiters_at_eq, entry_same).
  assert (Ht1 : tables_ok d1 J) by by eapply tables_ok_same. split.
  - apply (waiters_ok_take d d2 I w l); [done | by rewrite (waiters_at_Some _ _ _ He) | |].
    + intros l'. destruct Hd2 as [-> | (_ & He2 & ->)].
      * rewrite waiters_at_put, (waiters_at_Some _ _ _ He). by case_decide.
      * rewrite waiters_at_drop, (waiters_at_Some _ _ _ He). by case_decide.
    + destruct Hd2 as [-> | (_ & _ & ->)]; by destruct l as [[] ?].
  - destruct Hd2 as [-> | (Hl & _ & ->)]; [| by apply tables_ok_drop].
    apply tables_ok_undispatched. by eapply tables_ok_put.
Qed.

Lemma cancelProbeWaiter_ok d I J key w :
  waiters_ok d I → tables_ok d J →
  ∃ d', cancelProbeWaiter d key w = Some d' ∧
        waiters_ok (drop_stale_dispatch d') I ∧ tables_ok (drop_stale_dispatch d') J.
Proof.
  intros Hw Ht. unfold cancelProbeWaiter.
  assert (Hid : waiters_ok (drop_stale_dispatch d) I ∧ tables_ok (drop_stale_dispatch d) J).
  { split; [by apply waiters_drop_stale | by apply drop_stale_ok, tables_ok_undispatched]. }
  assert (Hopen : ∀ l e, entry_at d l = Some e → w ∈ sp_waiters e →
            ∃ d1, answer d {[w]} (deferred_result "context canceled") = Some d1 ∧ same_tables d d1).
  { intros l e He Hin. destruct (answer_spec d {[w]} (deferred_result "context canceled")) as (d1 & E & Hs & _); [| by exists d1].
    apply disjoint_singleton_l. rewrite elem_of_dom. intros Hs. pose proof (wo_open _ _ Hw w l) as Ho.
    rewrite (waiters_at_Some _ _ _ He) in Ho. destruct (Ho Hin) as [_ Hn]. rewrite Hn in Hs. by destruct Hs. }
  assert (Hfin : ∀ d', waiters_ok d' I ∧ tables_ok (undispatched d') J →
            waiters_ok (drop_stale_dispatch d') I ∧ tables_ok (drop_stale_dispatch d') J).
  { intros d' [? ?]. split; [by apply waiters_drop_stale | by apply drop_stale_ok]. }
  destruct (d_pending d !! key) as [e |] eqn:Ep; [| destruct (d_rerun d !! key) as [e |] eqn:Er;
    [| destruct (d_active d !! key) as [a |] eqn:Ea; [| by exists d]]];
    (case_decide as Hin; [| by exists d]).
  - destruct (Hopen (PPending, key) e) as (d1 & Hans & Hs); [done | done |]. rewrite Hans. cbn [mbind option_bind].
    eexists. split; [done |]. apply Hfin. apply (leave_ok d I J (PPending, key) e w "context canceled" d1); [done.. |].
    unfold abandoned. case_bool_decide as Hem; simpl; [| by left]. destruct (_ <=? 0); [| by left]. right. by split_and!.
  - destruct (Hopen (PRerun, key) e) as (d1 & Hans & Hs); [done | done |]. rewrite Hans. cbn [mbind option_bind].
    eexists. split; [done |]. apply Hfin. apply (leave_ok d I J (PRerun, key) e w "context canceled" d1); [done.. |].
    unfold abandoned. case_bool_decide as Hem; simpl; [| by left]. destruct (_ <=? 0); [| by left]. right. by split_and!.
  - destruct (Hopen (PActive, key) (ac_entry a)) as (d1 & Hans & Hs); [unfold entry_at; simpl; by rewrite Ea | done |].
    rewrite Hans. cbn [mbind option_bind]. eexists. split; [done |]. apply Hfin.
    destruct (leave_ok d I J (PActive, key) (ac_entry a) w "context canceled" d1 _ Hw Ht
                ltac:(unfold entry_at; simpl; by rewrite Ea) Hin Hans (or_introl eq_refl)) as [H1 H2].
    destruct Hs as (Hs1 & Hs2 & Hs3 & _). split.
    + apply (waiters_ok_ext _ _ _ H1); [| done]. intros l. rewrite entry_put. by rewrite entry_active.
    + apply (tables_ok_doms _ _ J H2); [done | by simpl; rewrite !dom_insert_L | done | done |].
      intros l e He. apply (to_keys _ _ H2 l e). rewrite <- He.
      change (entry_at (undispatched ?x)) with (entry_at x). rewrite entry_put. by rewrite entry_active.
Qed.

(** *** Removal *)

Lemma any_waiter_table removal (m : gmap ProbeKey scheduledProbe) l w :
  visits (matching removal m) l →
  any_waiter l w ↔ ∃ k e, m !! k = Some e ∧ probeRemovalMatches removal k = true ∧ w ∈ sp_waiters e.
Proof.
  intros Hv. unfold any_waiter. setoid_rewrite (visits_elem _ _ _ Hv). unfold matching. split.
  - intros (e & [k [? ?]%map_lookup_filter_Some] & Hw). by exists k, e.
  - intros (k & e & ? & ? & Hw). exists e. split; [| done]. exists k. by apply map_lookup_filter_Some.
Qed.

(** The entries of one table have waiters of their own. *)
Lemma table_separate d I p (m : gmap ProbeKey scheduledProbe) l :
  waiters_ok d I → (∀ k e, m !! k = Some e → entry_at d (p, k) = Some e) → visits m l → separate l.
Proof.
  intros Hw Hm Hv. apply (visits_separate m l Hv). intros k1 k2 e1 e2 H1%Hm H2%Hm Hne w Hw1 Hw2.
  apply Hne. pose proof (wo_unique _ _ Hw w (p, k1) (p, k2)) as Hu.
  rewrite (waiters_at_Some _ _ _ H1), (waiters_at_Some _ _ _ H2) in Hu. by injection (Hu Hw1 Hw2).
Qed.

Lemma holds_entry d w l : holds d w l ↔ ∃ e, entry_at d l = Some e ∧ w ∈ sp_waiters e.
Proof.
  unfold waiters_at. destruct (entry_at d l) as [e |] eqn:E; simpl; split.
  - intros H. by exists e.
  - by intros (e' & [= ->] & ?).
  - by intros ?%not_elem_of_empty.
  - by intros (e' & ? & _).
Qed.

Lemma finish_tables d e r d' : finish d e r = Some d' → same_tables d d'.
Proof.
  unfold finish, answer. case_decide; [| done]. cbn [mbind option_bind].
  destruct (pt_Observe (sp_task e)); [destruct (observer_panics _ _) |]; by intros [= <-].
Qed.
Lemma finish_all_tables d es r d' : finish_all d es r = Some d' → same_tables d d'.
Proof.
  revert d. induction es as [|e es IH]; intros d; simpl; [by intros [= ->] |].
  destruct (finish d e r) as [d1 |] eqn:E; [| done]. cbn [mbind option_bind].
  intros H. eapply same_tables_trans; [by eapply finish_tables | by apply IH].
Qed.

Lemma removeProbes_entries d removal ps rs d' l :
  removeProbes d removal ps rs = Some d' →
  entry_at d' l = match l.1 with
                  | PActive => entry_at d l
                  | _ => if probeRemovalMatches removal l.2 then None else entry_at d l
                  end ∧ dom (d_active d') = dom (d_active d).
Proof.
  intros E. unfold removeProbes in E.
  destruct (finish_all _ ps _) as [d1 |] eqn:E1; [| done]. cbn [mbind option_bind] in E.
  destruct (finish_all _ rs _) as [d2 |] eqn:E2; [| done]. cbn [mbind option_bind] in E. injection E as <-.
  apply finish_all_tables in E1 as (P1 & A1 & R1 & _), E2 as (P2 & A2 & R2 & _). simpl in *.
  assert (Hfil : ∀ (m : gmap ProbeKey scheduledProbe) k,
            filter (λ kv, probeRemovalMatches removal kv.1 = false) m !! k
            = if probeRemovalMatches removal k then None else m !! k).
  { intros m k. rewrite map_lookup_filter. destruct (m !! k) as [x |]; simpl; [| by destruct (probeRemovalMatches _ _)].
    destruct (probeRemovalMatches removal k); [by rewrite option_guard_False | by rewrite option_guard_True]. }
  split.
  - destruct l as [[] k]; unfold entry_at; simpl.
    + rewrite P2, P1. apply Hfil.
    + rewrite map_lookup_imap, A2, A1. by destruct (d_active d !! k).
    + rewrite R2, R1. apply Hfil.
  - rewrite A2, A1. apply set_eq. intros k. rewrite !elem_of_dom, map_lookup_imap.
    destruct (d_active d !! k); simpl; split; by intros [].
Qed.

Definition removed (removal : probeRemoval) (l : place * ProbeKey) : Prop :=
  l.1 ≠ PActive ∧ probeRemovalMatches removal l.2 = true.

(** Every matching entry that is not running is finished, once. *)
Lemma removeProbes_runs d I removal ps rs :
  waiters_ok d I → visits (matching removal (d_pending d)) ps → visits (matching removal (d_rerun d)) rs →
  ∃ d', removeProbes d removal ps rs = Some d' ∧
        ∀ w, is_Some (d_answers d' !! w) ↔ (∃ l, holds d w l ∧ removed removal l) ∨ is_Some (d_answers d !! w).
Proof.
  intros Hw Hps Hrs. unfold removeProbes.
  assert (Hin : ∀ p m l w, (∀ k, m !! k = entry_at d (p, k)) → visits (matching removal m) l →
            any_waiter l w ↔ ∃ k, holds d w (p, k) ∧ probeRemovalMatches removal k = true).
  { intros p m l w Hm Hv. rewrite (any_waiter_table _ _ _ _ Hv). setoid_rewrite holds_entry. setoid_rewrite Hm. naive_solver. }
  assert (Hsep : ∀ p m l, (∀ k, m !! k = entry_at d (p, k)) → visits (matching removal m) l → separate l).
  { intros p m l Hm Hv. apply (table_separate d I p (matching removal m) l Hw); [| done].
    intros k e [He _]%map_lookup_filter_Some. by rewrite <- Hm. }
  pose proof (λ w, Hin PPending _ ps w (λ _, eq_refl) Hps) as Hip.
  pose proof (λ w, Hin PRerun _ rs w (λ _, eq_refl) Hrs) as Hir.
  destruct (finish_all_spec (set_tables d (filter (λ kv, probeRemovalMatches removal kv.1 = false) (d_pending d)) (d_active d)
    (d_rerun d)) ps (deferred_result "probe identity retired")) as (d1 & -> & Hs1 & Ha1).
  { by eapply (Hsep PPending). }
  { intros w (k & Hh & _)%Hip. by apply (wo_open _ _ Hw) in Hh as [_ ?]. }
  cbn [mbind option_bind].
  destruct (finish_all_spec (set_tables d1 (d_pending d1) (d_active d1)
     (filter (λ kv, probeRemovalMatches removal kv.1 = false) (d_rerun d1))) rs (deferred_result "probe identity retired"))
    as (d2 & -> & Hs2 & Ha2).
  { by eapply (Hsep PRerun). }
  { intros w (k & Hh & _)%Hir. apply eq_None_not_Some. intros Hs. simpl in Hs. apply Ha1 in Hs as [(k' & Hh' & _)%Hip | Hs].
    - by pose proof (wo_unique _ _ Hw _ _ _ Hh Hh').
    - simpl in Hs. apply (wo_open _ _ Hw) in Hh as [_ E]. rewrite E in Hs. by destruct Hs. }
  cbn [mbind option_bind]. eexists. split; [done |]. intros w.
  change (is_Some (d_answers d2 !! w) ↔ (∃ l, holds d w l ∧ removed removal l) ∨ is_Some (d_answers d !! w)).
  rewrite Ha2. simpl. rewrite Ha1. simpl. rewrite Hip, Hir. split.
  - intros [(k & ? & ?) | [(k & ? & ?) | ?]]; [left; by exists (PRerun, k) | left; by exists (PPending, k) | by right].
  - intros [([[] k] & ? & [? ?]) | ?]; [right; left; by exists k | done | left; by exists k | by right; right].
Qed.

Lemma removeProbes_ok d I J removal ps rs :
  waiters_ok d I → tables_ok d J →
  visits (matching removal (d_pending d)) ps → visits (matching removal (d_rerun d)) rs →
  ∃ d', removeProbes d removal ps rs = Some d' ∧
        waiters_ok (drop_stale_dispatch d') I ∧ tables_ok (drop_stale_dispatch d') J.
Proof.
  intros Hw Ht Hps Hrs. destruct (removeProbes_runs d I removal ps rs Hw Hps Hrs) as (d' & E & Ha). exists d'. split; [done |].
  pose proof (λ l, proj1 (removeProbes_entries _ _ _ _ _ l E)) as He.
  destruct (removeProbes_entries _ _ _ _ _ (PActive, mkProbeKey 0 0 0 0 0 0 "" "") E) as [_ Hdom].
  assert (Hsub : ∀ l e, entry_at d' l = Some e → entry_at d l = Some e ∧ ¬ removed removal l).
  { intros l e. rewrite He. unfold removed. destruct l as [[] k]; simpl; [| by intros; split; [done | intros []] |];
      destruct (probeRemovalMatches removal k); intros; [done | split; [done | by intros [_ ?]] | done | split; [done | by intros [_ ?]]]. }
  assert (Hkeep : ∀ l, ¬ removed removal l → entry_at d' l = entry_at d l).
  { intros l Hn. rewrite He. destruct l as [[] k]; simpl; [| done |];
      (destruct (probeRemovalMatches removal k) eqn:Em; [by destruct Hn |]; done). }
  split.
  - apply waiters_drop_stale.
    apply (waiters_ok_step d d' I I (λ w, ∃ l, holds d w l ∧ removed removal l) (λ l, l) (PPending, mkProbeKey 0 0 0 0 0 0 "" ""));
      [done | done | | | | done].
    + intros w (l & Hl & _). by apply (wo_open _ _ Hw) in Hl as [? _].
    + intros w l (e & [He1 Hn]%Hsub & Hin)%holds_entry.
      assert (Hl : holds d w l) by (apply holds_entry; by exists e).
      split; [| left; by exists l]. intros (l' & Hl' & Hr). by rewrite (wo_unique _ _ Hw w l l' Hl Hl') in Hn.
    + intros w [[l Hl] | [? ?]]; [| done]. destruct (probeRemovalMatches removal l.2) eqn:Em.
      * destruct (decide (l.1 = PActive)) as [Hp | Hp]; [| right; by exists l]. left. exists l.
        apply holds_entry in Hl as (e & ? & ?). apply holds_entry. exists e. rewrite Hkeep; [done |]. by intros [? _].
      * left. exists l. apply holds_entry in Hl as (e & ? & ?). apply holds_entry. exists e. rewrite Hkeep; [done |].
        intros [_ ?]. congruence.
  - apply drop_stale_ok. destruct Ht as [Hk Hj Hdis Hre Hdp Hnd Hac Hsz].
    assert (Hp : d_pending d' ⊆ d_pending d) by (apply map_subseteq_spec; intros k e H; by apply (Hsub (PPending, k)) in H as [? _]).
    assert (Hr : d_rerun d' ⊆ d_rerun d) by (apply map_subseteq_spec; intros k e H; by apply (Hsub (PRerun, k)) in H as [? _]).
    split; [| done | | | done | done | |].
    + intros l e Hl. by apply Hk, (Hsub l).
    + intros k [e Hs]. simpl in *. apply eq_None_not_Some. rewrite (is_Some_dom _ _ _ Hdom).
      rewrite Hdis; [by intros [] |]. exists e. by eapply lookup_weaken.
    + intros k [e Hs]. simpl in *. rewrite (is_Some_dom _ _ _ Hdom). apply Hre. exists e. by eapply lookup_weaken.
    + intros k. simpl. rewrite (is_Some_dom _ _ _ Hdom). apply Hac.
    + apply map_subseteq_size in Hp, Hr. simpl. lia.
Qed.

(** *** Jobs *)

Lemma job_taken_ok d I J key d' task :
  waiters_ok d I → tables_ok d J → d_dispatch d = Some key → job_taken d = Some (d', task) →
  waiters_ok d' I ∧ tables_ok d' ((key, task) :: J).
Proof.
  intros Hw Ht Hdsp. unfold job_taken. rewrite Hdsp. cbn [mbind option_bind].
  destruct (d_pending d !! key) as [e |] eqn:Ep; [| done]. cbn [mbind option_bind]. intros [= <- <-].
  set (d' := set_dispatch _ _ _).
  pose proof (to_disjoint _ _ Ht key (mk_is_Some _ _ Ep)) as Ea.
  assert (He : ∀ l, entry_at d' l = if decide (l = (PPending, key)) then None
                                    else if decide (l = (PActive, key)) then Some e else entry_at d l).
  { intros l. transitivity (entry_at (drop_entry (put_entry d (PActive, key) e) (PPending, key)) l).
    - destruct l as [[] k]; [done | | done]. unfold entry_at. simpl. by rewrite Ea.
    - by rewrite entry_drop, entry_put. }
  split.
  - apply (waiters_ok_step d d' I I (λ _, False) (λ l, if decide (l = (PPending, key)) then (PActive, key) else l)
             (PPending, key)); [done | done | done | | |].
    + intros w l Hh. split; [tauto |]. left. apply holds_entry in Hh as (e' & He' & Hin). rewrite He in He'.
      case_decide as H1; [done |]. case_decide as H2.
      * injection He' as <-. exists (PPending, key). split; [apply holds_entry; by exists e | by rewrite decide_True].
      * exists l. split; [apply holds_entry; by exists e' | by rewrite decide_False].
    + intros w [[l Hl] | [? ?]]; [| done]. left. apply holds_entry in Hl as (e' & He' & Hin).
      destruct (decide (l = (PPending, key))) as [-> | Hne].
      * exists (PActive, key). apply holds_entry. exists e. rewrite He, decide_False, decide_True by done.
        unfold entry_at in He'. simpl in He'. rewrite Ep in He'. by injection He' as <-.
      * exists l. apply holds_entry. exists e'. rewrite He, decide_False by done. case_decide as H2; [| done].
        subst l. unfold entry_at in He'. simpl in He'. by rewrite Ea in He'.
    + intros w. simpl. tauto.
  - destruct Ht as [Hk Hj Hdis Hre Hdp Hnd Hac Hsz]. split; [| | | | done | | |].
    + intros l e'. rewrite He. case_decide; [done |]. case_decide; [| apply Hk].
      intros [= <-]. subst l. by apply (Hk (PPending, key)).
    + intros k t [[= -> ->] | Hin]%elem_of_cons; [by apply (Hk (PPending, key)) | by apply Hj].
    + intros k [x Hx]. simpl in Hx |- *. apply lookup_delete_Some in Hx as [Hne Hx].
      rewrite lookup_insert_ne by done. apply Hdis. by eexists.
    + intros k Hs. simpl. apply lookup_insert_is_Some'. right. by apply Hre.
    + simpl. apply NoDup_cons. split; [| done]. rewrite Hac, Ea. by intros [].
    + intros k. simpl. rewrite elem_of_cons, Hac, lookup_insert_is_Some'. intuition congruence.
    + simpl. rewrite map_size_delete_Some by by eexists. assert (size (d_pending d) ≠ 0)%nat; [| lia].
      intros Hz. by rewrite (map_size_empty_inv _ Hz) in Ep.
Qed.

(** *** Completion *)

Lemma next_run_spec task r now next key :
  pt_Key task = key → (∀ e, next = Some e → pt_Key (sp_task e) = key) →
  default ∅ (sp_waiters <$> next_run task r now next) = default ∅ (sp_waiters <$> next) ∧
  ∀ e, next_run task r now next = Some e → pt_Key (sp_task e) = key.
Proof.
  intros Ht Hn. unfold next_run. destruct (0 <? pt_Interval task); [| done]. destruct next as [e |].
  - case_match; (split; [done |]); intros e' [= <-]; exact (Hn _ eq_refl).
  - split; [done |]. intros e [= <-]. simpl. unfold periodic_task. by destruct (pr_Outcome r).
Qed.

(** The entries after a completion; the probe that ran is finished. *)
Lemma completion_runs d I J key task r now a :
  waiters_ok d I → tables_ok d J → (key, task) ∈ J → d_active d !! key = Some a →
  ∃ d', completion d key task r now = Some d' ∧
    d_dispatch d' = d_dispatch d ∧ dom (d_active d') = dom (d_active d) ∖ {[key]} ∧
    (∀ w, is_Some (d_answers d' !! w) ↔ w ∈ waiters_at d (PActive, key) ∨ is_Some (d_answers d !! w)) ∧
    d_rerun d' = delete key (d_rerun d) ∧
    (∀ l, l ≠ (PPending, key) → l ≠ (PActive, key) → l ≠ (PRerun, key) → entry_at d' l = entry_at d l) ∧
    waiters_at d' (PPending, key) = waiters_at d (PRerun, key) ∧
    (∀ e, entry_at d' (PPending, key) = Some e → pt_Key (sp_task e) = key) ∧
    (size (d_pending d') + size (d_rerun d') ≤ queueSize)%nat.
Proof.
  intros Hw Ht HJ Ea. unfold completion. rewrite Ea.
  set (d1 := bump _ _).
  assert (Hat : waiters_at d (PActive, key) = sp_waiters (ac_entry a)).
  { apply waiters_at_Some. unfold entry_at. simpl. by rewrite Ea. }
  destruct (finish_spec d1 (ac_entry a) r) as (d2 & -> & Hs & Ha).
  { intros w Hin Hd. apply elem_of_dom in Hd. rewrite <- Hat in Hin. apply (wo_open _ _ Hw) in Hin as [_ E].
    simpl in Hd. rewrite E in Hd. by destruct Hd. }
  cbn [mbind option_bind]. destruct Hs as (Ep2 & Ea2 & Er2 & Ed2 & _). simpl in Ep2, Ea2, Er2, Ed2.
  pose proof (to_jobs _ _ Ht _ _ HJ) as Hkey.
  assert (Hpn : d_pending d !! key = None).
  { apply eq_None_not_Some. intros Hs. by rewrite (to_disjoint _ _ Ht key Hs) in Ea. }
  rewrite Er2.
  destruct (next_run_spec task r now (d_rerun d !! key) key Hkey) as [Hnw Hnk].
  { intros e He. by apply (to_keys _ _ Ht (PRerun, key)). }
  pose proof (to_size _ _ Ht) as Hsz.
  assert (Hq : is_Some (d_rerun d !! key) → (size (d_pending d) + size (delete key (d_rerun d)) < queueSize)%nat).
  { intros [x Hx]. rewrite map_size_delete_Some by by eexists. assert (size (d_rerun d) ≠ 0)%nat; [| lia].
    intros Hz. by rewrite (map_size_empty_inv _ Hz) in Hx. }
  assert (Hsd : (size (delete key (d_rerun d)) ≤ size (d_rerun d))%nat) by apply map_subseteq_size, delete_subseteq.
  set (d3 := set_tables d2 (d_pending d2) (d_active d2) (delete key (d_rerun d))).
  assert (Hd3 : d_dispatch d3 = d_dispatch d ∧ dom (d_active d3) = dom (d_active d) ∖ {[key]} ∧
    (∀ l, l ≠ (PPending, key) → l ≠ (PActive, key) → l ≠ (PRerun, key) → entry_at d3 l = entry_at d l)).
  { split_and!; [done | simpl; rewrite Ea2; apply dom_delete_L |]. intros [[] k] H1 H2 H3; unfold entry_at; simpl.
    - by rewrite Ep2.
    - rewrite Ea2, lookup_delete_ne by congruence. done.
    - rewrite lookup_delete_ne by congruence. done. }
  destruct Hd3 as (Hd3 & Hdom3 & He3).
  assert (Hans : ∀ w, is_Some (d_answers d2 !! w) ↔ w ∈ waiters_at d (PActive, key) ∨ is_Some (d_answers d !! w)).
  { intros w. rewrite Ha, Hat. done. }
  assert (Hrw : waiters_at d (PRerun, key) = default ∅ (sp_waiters <$> d_rerun d !! key)) by done.
  destruct (next_run task r now (d_rerun d !! key)) as [next |] eqn:En.
  - specialize (Hnk next eq_refl). rewrite Hnk. destruct (queue_full d3) eqn:Hfull; cbn [negb].
    + destruct (finish_spec (bump d3 CDeferred) next (deferred_result ErrProbeQueueFull)) as (d4 & E4 & Hs4 & Ha4).
      { apply Nat.leb_le in Hfull. simpl in Hfull. rewrite Ep2 in Hfull. simpl in Hnw. rewrite Hnw.
        destruct (d_rerun d !! key); [pose proof (Hq ltac:(by eexists)); lia | set_solver]. }
      exists d4. unfold deferEntry. rewrite E4.
      assert (Hnil : d_rerun d !! key = None).
      { apply eq_None_not_Some. intros Hs. apply Nat.leb_le in Hfull. simpl in Hfull. rewrite Ep2 in Hfull.
        pose proof (Hq Hs). lia. }
      pose proof (λ l, entry_same _ _ l Hs4) as He4. destruct Hs4 as (Ep4 & Ea4 & Er4 & Ed4 & _).
      rewrite Hnil in Hnw, Hrw. simpl in Hnw, Hrw.
      split_and!; [done | by rewrite Ed4 | by rewrite Ea4 | | by rewrite Er4 | | | |].
      * intros w. rewrite Ha4, Hnw. rewrite <- Hans. set_solver.
      * intros l H1 H2 H3. rewrite He4. by apply He3.
      * unfold waiters_at. rewrite He4. unfold entry_at. simpl. rewrite Ep2, Hpn. simpl. by rewrite Hnil.
      * intros e. rewrite He4. unfold entry_at. simpl. rewrite Ep2, Hpn. done.
      * rewrite Ep4, Er4. simpl. rewrite Ep2. lia.
    + eexists. split_and!; [done | done | done | done | done | | | |].
      * intros l H1 H2 H3. rewrite <- (He3 l H1 H2 H3). rewrite entry_pending. by rewrite decide_False.
      * unfold waiters_at at 1. rewrite entry_pending, decide_True by done. done.
      * intros e. rewrite entry_pending, decide_True by done. by intros [= <-].
      * apply Nat.leb_gt in Hfull. simpl in *. rewrite Ep2 in Hfull |- *. rewrite map_size_insert_None by done. lia.
  - exists d3. split_and!; [done | done | done | done | done | done | | |].
    + rewrite Hrw, <- Hnw. unfold waiters_at, entry_at. simpl. by rewrite Ep2, Hpn.
    + intros e. unfold entry_at. simpl. by rewrite Ep2, Hpn.
    + simpl. rewrite Ep2. lia.
Qed.

Lemma completion_ok d I J1 J2 key task r now :
  waiters_ok d I → tables_ok d (J1 ++ (key, task) :: J2) →
  ∃ d', completion d key task r now = Some d' ∧ waiters_ok d' I ∧ tables_ok d' (J1 ++ J2).
Proof.
  intros Hw Ht. assert (HJ : (key, task) ∈ J1 ++ (key, task) :: J2) by (apply elem_of_app; right; left).
  assert (Hka : is_Some (d_active d !! key)) by (apply (to_active _ _ Ht), list_elem_of_fmap; by exists (key, task)).
  destruct Hka as [a Ea].
  destruct (completion_runs d I _ key task r now a Hw Ht HJ Ea) as (d' & E & Ed & Hdom & Ha & Hr & Hoth & Hpw & Hpk & Hsz).
  exists d'. split; [done |].
  assert (Han : entry_at d' (PActive, key) = None).
  { unfold entry_at. simpl. apply fmap_None, not_elem_of_dom. rewrite Hdom. set_solver. }
  assert (Hrn : entry_at d' (PRerun, key) = None) by (unfold entry_at; simpl; by rewrite Hr, lookup_delete_eq).
  assert (Hpn : d_pending d !! key = None).
  { apply eq_None_not_Some. intros Hs. by rewrite (to_disjoint _ _ Ht key Hs) in Ea. }
  split.
  - apply (waiters_ok_step d d' I I (λ w, holds d w (PActive, key))
             (λ l, if decide (l = (PRerun, key)) then (PPending, key) else l) (PPending, key)); [done | done | | | | done].
    + intros w Hl. by apply (wo_open _ _ Hw) in Hl as [? _].
    + intros w l Hh.
      assert (Hfrom : ∃ l0, holds d w l0 ∧ l0 ≠ (PActive, key) ∧ (if decide (l0 = (PRerun, key)) then (PPending, key) else l0) = l).
      { destruct (decide (l = (PPending, key))) as [-> | H1]; [exists (PRerun, key); by rewrite <- Hpw, decide_True by done |].
        destruct (decide (l = (PActive, key))) as [-> | H2]; [by rewrite (waiters_at_None _ _ Han) in Hh |].
        destruct (decide (l = (PRerun, key))) as [-> | H3]; [by rewrite (waiters_at_None _ _ Hrn) in Hh |].
        exists l. rewrite (waiters_at_eq d d' l) in Hh by by apply Hoth. by rewrite decide_False. }
      destruct Hfrom as (l0 & Hl0 & Hne & Hf). split; [| left; by exists l0].
      intros Hact. by apply Hne, (wo_unique _ _ Hw w).
    + intros w [[l Hl] | [? ?]]; [| done].
      destruct (decide (l = (PActive, key))) as [-> | H2]; [by right | left].
      destruct (decide (l = (PRerun, key))) as [-> | H3]; [exists (PPending, key); by rewrite Hpw |].
      destruct (decide (l = (PPending, key))) as [-> | H1]; [by rewrite (waiters_at_None d (PPending, key) Hpn) in Hl |].
      exists l. by rewrite (waiters_at_eq d d' l) by by apply Hoth.
  - destruct Ht as [Hk Hj Hdis Hre Hdp Hnd Hac Hsz0].
    rewrite fmap_app, fmap_cons in Hnd, Hac. simpl in Hnd, Hac.
    assert (Hact : ∀ k, is_Some (d_active d' !! k) ↔ is_Some (d_active d !! k) ∧ k ≠ key).
    { intros k. rewrite <- !elem_of_dom, Hdom. set_solver. }
    split; [| | | | | | | done].
    + intros l e He. destruct (decide (l = (PPending, key))) as [-> | H1]; [by apply Hpk |].
      destruct (decide (l = (PActive, key))) as [-> | H2]; [by rewrite Han in He |].
      destruct (decide (l = (PRerun, key))) as [-> | H3]; [by rewrite Hrn in He |].
      rewrite Hoth in He by done. by apply Hk.
    + intros k t Hin. apply Hj. rewrite elem_of_app, elem_of_cons in *. tauto.
    + intros k Hs. apply eq_None_not_Some. rewrite Hact. intros [Hs' Hne].
      pose proof (Hoth (PPending, k)) as Ho. unfold entry_at in Ho. simpl in Ho. rewrite Ho in Hs by congruence.
      rewrite (Hdis k Hs) in Hs'. by destruct Hs'.
    + intros k. rewrite Hr. intros [x [Hne Hx]%lookup_delete_Some]. apply Hact. split; [| done]. apply Hre. by eexists.
    + intros k. rewrite Ed. intros Hd. pose proof (Hdp k Hd) as Hs.
      assert (k ≠ key) by (intros ->; rewrite Hpn in Hs; by destruct Hs).
      pose proof (Hoth (PPending, k)) as Ho. unfold entry_at in Ho. simpl in Ho. by rewrite Ho by congruence.
    + rewrite fmap_app. apply list.NoDup_app in Hnd as (? & Hx & [? ?]%NoDup_cons). apply list.NoDup_app. split_and!; [done | | done].
      intros x Hx1 Hx2. apply (Hx x Hx1). by right.
    + intros k. rewrite Hact, <- Hac, fmap_app, !elem_of_app, elem_of_cons.
      apply list.NoDup_app in Hnd as (? & Hx & [Hn ?]%NoDup_cons). split.
      * intros Hin. split; [tauto |]. intros ->. destruct Hin as [Hin | Hin]; [apply (Hx key Hin); left | done].
      * intros [[? | [? | ?]] ?]; [by left | done | by right].
Qed.

(** *** Every reachable state *)

Definition sched_ok (y : sched_system) : Prop := waiters_ok (y_d y) (y_issued y) ∧ tables_ok (y_d y) (y_inflight y).

Lemma nextScheduledProbe_pending now order c key c' :
  nextScheduledProbe now order c = Some (key, c') → ∃ t, t ∈ order ∧ pt_Key t = key.
Proof.
  unfold nextScheduledProbe. destruct (_ =? 0); [done |]. destruct (select_priority _ _) as [sel c1].
  destruct (next_source _ _) as [src |]; [| done]. cbn [mbind option_bind].
  destruct (filter _ _) as [|t l] eqn:E; [done |]. intros [= <- _].
  assert (Hin : first_entry t l ∈ t :: l).
  { clear E. revert t. induction l as [|u l IH]; intros t; simpl; [left |].
    destruct (task_before u t).
    - right. apply IH.
    - destruct (elem_of_cons (u :: l) (first_entry t l) t) as [_ H]. apply H.
      destruct (proj1 (elem_of_cons l (first_entry t l) t) (IH t)) as [-> | ?]; [by left | right; by right]. }
  rewrite <- E in Hin. exists (first_entry t l). split; [| done].
  by apply list_elem_of_filter in Hin as [_ [_ [_ ?]%list_elem_of_filter]%list_elem_of_filter].
Qed.

Lemma loop_top_ok d I J now order :
  waiters_ok d I → tables_ok d J → order ≡ₚ (sp_task <$> (map_to_list (d_pending d)).*2) →
  waiters_ok (loop_top d now order) I ∧ tables_ok (loop_top d now order) J.
Proof.
  intros Hw Ht Hord.
  assert (Hf : ∀ c dsp n, (∀ k, dsp = Some k → is_Some (d_pending d !! k)) →
            waiters_ok (set_depth (set_dispatch d c dsp) n) I ∧ tables_ok (set_depth (set_dispatch d c dsp) n) J).
  { intros c dsp n Hd. split; [by apply (waiters_ok_ext d) |].
    by apply (tables_ok_doms d _ J Ht); [.. | apply (to_keys _ _ Ht)]. }
  assert (Hid : ∀ n, waiters_ok (set_depth d n) I ∧ tables_ok (set_depth d n) J).
  { intros n. split; [by apply (waiters_ok_ext d) | by apply (tables_ok_same d)]. }
  unfold loop_top. destruct (d_dispatch d) eqn:Ed; [apply Hid |]. destruct (d_ownerReady d); [| apply Hid].
  destruct (nextScheduledProbe _ _ _) as [[key c] |] eqn:En; [| apply Hid].
  apply Hf. intros k [= <-]. apply nextScheduledProbe_pending in En as (t & Hin & <-).
  rewrite Hord in Hin. apply list_elem_of_fmap in Hin as (e & -> & ([k e'] & -> & Hk)%list_elem_of_fmap).
  apply elem_of_map_to_list in Hk. simpl. rewrite (to_keys _ _ Ht (PPending, k) e' Hk). by eexists.
Qed.

Lemma sched_step_ok y y' : sched_ok y → sched_step y y' → sched_ok y'.
Proof.
  intros [Hw Ht] Hstep. destruct Hstep as [d I J now order Hord | d I J task w d' status Hn E | d I J key w d' E
    | d I J removal ps rs d' Hps Hrs E | d I J key d' task Hd E | d I J1 J2 key task r now d' E | d I J | d I J]; simpl in *.
  - by apply loop_top_ok.
  - destruct (acceptSubmission_ok d I J task w Hw Ht Hn) as (d1 & s1 & E1 & ? & ?). rewrite E1 in E. by injection E as <- _.
  - destruct (cancelProbeWaiter_ok d I J key w Hw Ht) as (d1 & E1 & ? & ?). rewrite E1 in E. by injection E as <-.
  - destruct (removeProbes_ok d I J removal ps rs Hw Ht Hps Hrs) as (d1 & E1 & ? & ?). rewrite E1 in E. by injection E as <-.
  - by eapply job_taken_ok.
  - destruct (completion_ok d I J1 J2 key task r now Hw Ht) as (d1 & E1 & ? & ?). rewrite E1 in E. by injection E as <-.
  - split; [by apply (waiters_ok_ext d) | by apply (tables_ok_same d)].
  - split; [by apply (waiters_ok_ext d) | by apply (tables_ok_same d)].
Qed.

Lemma sched_reachable_ok owner y : sched_reachable owner y → sched_ok y.
Proof.
  induction 1 as [| y y' _ IH Hstep]; [| by eapply sched_step_ok].
  assert (He : ∀ l, entry_at (initial owner) l = None) by (intros [[] k]; done).
  assert (Hn : ∀ w l, ¬ holds (initial owner) w l) by (intros w l; rewrite (waiters_at_None _ _ (He l)); apply not_elem_of_empty).
  split.
  - split; simpl; [by intros w l1 l2 ?%Hn | by intros w l ?%Hn | by intros w ?%not_elem_of_empty | by intros w [? ?]].
  - split; simpl; [intros l e; by rewrite He | by intros k t ?%not_elem_of_nil | by intros k [] | by intros k [] | done | by apply NoDup_nil_2 | | rewrite !map_size_empty; lia].
    intros k. split; [by intros ?%not_elem_of_nil | by intros []].
Qed.

(** *** What the dispatcher promises *)

(** No waiter's channel is ever sent to twice (a send on the closed channel would
    panic), whatever is submitted, cancelled, removed or completed. *)
Theorem scheduler_never_panics owner y :
  sched_reachable owner y →
  (∀ task w, w ∉ y_issued y → is_Some (acceptSubmission (y_d y) task w)) ∧
  (∀ key w, is_Some (cancelProbeWaiter (y_d y) key w)) ∧
  (∀ removal ps rs, visits (matching removal (d_pending (y_d y))) ps → visits (matching removal (d_rerun (y_d y))) rs →
     is_Some (removeProbes (y_d y) removal ps rs)) ∧
  (∀ key task r now, (key, task) ∈ y_inflight y → is_Some (completion (y_d y) key task r now)).
Proof.
  intros [Hw Ht]%sched_reachable_ok. split_and!.
  - intros task w Hn. destruct (acceptSubmission_ok _ _ _ task w Hw Ht Hn) as (d' & s & -> & _). by eexists.
  - intros key w. destruct (cancelProbeWaiter_ok _ _ _ key w Hw Ht) as (d' & -> & _). by eexists.
  - intros removal ps rs Hps Hrs. destruct (removeProbes_ok _ _ _ removal ps rs Hw Ht Hps Hrs) as (d' & -> & _). by eexists.
  - intros key task r now (J1 & J2 & E)%list_elem_of_split. rewrite E in Ht.
    destruct (completion_ok _ _ _ _ key task r now Hw Ht) as (d' & -> & _). by eexists.
Qed.

(** The three tables: bounded, one run of a key at a time, and a job at a worker
    for exactly the active ones. *)
Theorem scheduler_bounded owner y :
  sched_reachable owner y →
  (size (d_pending (y_d y)) + size (d_rerun (y_d y)) ≤ queueSize)%nat ∧
  NoDup (y_inflight y).*1 ∧
  (∀ k, k ∈ (y_inflight y).*1 ↔ is_Some (d_active (y_d y) !! k)) ∧
  (∀ k, is_Some (d_pending (y_d y) !! k) → d_active (y_d y) !! k = None).
Proof. intros [_ [_ _ Hdis _ _ Hnd Hac Hsz]]%sched_reachable_ok. done. Qed.

Lemma separate_app es1 es2 :
  separate es1 → separate es2 → (∀ w, any_waiter es1 w → any_waiter es2 w → False) → separate (es1 ++ es2).
Proof.
  intros H1 H2 Hd. induction es1 as [|e es1 IH]; simpl; [done |]. destruct H1 as [He H1]. split.
  - intros e' [Hin | Hin]%elem_of_app; [by apply He |]. intros w Hw Hw'. apply (Hd w); [exists e; split; [left | done] | by exists e'].
  - apply IH; [done |]. intros w (e' & Hin & Hw). apply Hd. exists e'. split; [by right | done].
Qed.
Lemma any_waiter_app es1 es2 w : any_waiter (es1 ++ es2) w ↔ any_waiter es1 w ∨ any_waiter es2 w.
Proof. unfold any_waiter. setoid_rewrite elem_of_app. naive_solver. Qed.
Lemma finish_all_app d es1 es2 r : finish_all d (es1 ++ es2) r = finish_all d es1 r ≫= λ d, finish_all d es2 r.
Proof.
  revert d. induction es1 as [|e es1 IH]; intros d; simpl; [done |]. destruct (finish d e r); [apply IH | done].
Qed.

(** An answer once given stays. *)
Lemma finish_keeps d e r d' w r' :
  finish d e r = Some d' → d_answers d !! w = Some r' → d_answers d' !! w = Some r'.
Proof.
  unfold finish, answer. case_decide as Hd; [| done]. cbn [mbind option_bind]. intros E Hw.
  assert (Hk : (gset_to_gmap r (sp_waiters e) ∪ d_answers d) !! w = Some r').
  { apply lookup_union_Some_r; [| done]. apply map_disjoint_dom. by rewrite dom_gset_to_gmap. }
  destruct (pt_Observe (sp_task e)); [destruct (observer_panics _ _) |]; by injection E as <-.
Qed.
Lemma finish_all_keeps d es r d' w r' :
  finish_all d es r = Some d' → d_answers d !! w = Some r' → d_answers d' !! w = Some r'.
Proof.
  revert d. induction es as [|e es IH]; intros d; simpl; [by intros [= ->] |].
  destruct (finish d e r) as [d1 |] eqn:E; [| done]. cbn [mbind option_bind].
  intros H Hw. eapply IH; [done | by eapply finish_keeps].
Qed.

(** A table seen as the place it is. *)
Lemma any_waiter_place d I p (m : gmap ProbeKey scheduledProbe) l :
  waiters_ok d I → (∀ k, m !! k = entry_at d (p, k)) → visits m l →
  separate l ∧ ∀ w, any_waiter l w ↔ ∃ k, holds d w (p, k).
Proof.
  intros Hw Hm Hv. split; [apply (table_separate d I p m l Hw); [intros k e; by rewrite Hm | done] |].
  intros w. unfold any_waiter. setoid_rewrite (visits_elem _ _ _ Hv). setoid_rewrite holds_entry. setoid_rewrite Hm. naive_solver.
Qed.

(** C18. When the scheduler stops, every waiter it ever issued has its answer. *)
Theorem scheduler_stop_answers_all owner y ps rs acts :
  sched_reachable owner y → visits (d_pending (y_d y)) ps → visits (d_rerun (y_d y)) rs → visits (d_active (y_d y)) acts →
  ∃ d', stop (y_d y) ps rs acts = Some d' ∧ dom (d_answers d') = y_issued y ∧
        ∀ w r, d_answers (y_d y) !! w = Some r → d_answers d' !! w = Some r.
Proof.
  intros [Hw _]%sched_reachable_ok Hp Hr Ha. destruct y as [d I J]. simpl in *.
  destruct (any_waiter_place d I PPending _ ps Hw (λ _, eq_refl) Hp) as [Sp Wp].
  destruct (any_waiter_place d I PRerun _ rs Hw (λ _, eq_refl) Hr) as [Sr Wr].
  destruct (any_waiter_place d I PActive (ac_entry <$> d_active d) (ac_entry <$> acts) Hw) as [Sa Wa].
  { intros k. by rewrite lookup_fmap. }
  { unfold visits. rewrite map_to_list_fmap, Ha, <- !list_fmap_compose. done. }
  set (es := (ps ++ rs) ++ (ac_entry <$> acts)). set (r0 := deferred_result "scheduler stopped").
  assert (Hall : ∀ w, any_waiter es w ↔ ∃ l, holds d w l).
  { intros w. unfold es. rewrite !any_waiter_app, Wp, Wr, Wa. split.
    - intros [[[k ?] | [k ?]] | [k ?]]; by eexists (_, k).
    - intros [[[] k] ?]; [left; left | right | left; right]; by exists k. }
  assert (Hdis : ∀ w p p' k k', p ≠ p' → holds d w (p, k) → holds d w (p', k') → False).
  { intros w p p' k k' Hne H1 H2. apply Hne. by injection (wo_unique _ _ Hw w _ _ H1 H2). }
  destruct (finish_all_spec d es r0) as (d1 & E & Hs & Hans).
  { unfold es. apply separate_app; [apply separate_app | |]; [done | done | | done |].
    - intros w [k H1]%Wp [k' H2]%Wr. by apply (Hdis w PPending PRerun k k').
    - intros w [[k H1]%Wp | [k H1]%Wr]%any_waiter_app [k' H2]%Wa;
        [by apply (Hdis w PPending PActive k k') | by apply (Hdis w PRerun PActive k k')]. }
  { intros w [l Hl]%Hall. by apply (wo_open _ _ Hw) in Hl as [_ ?]. }
  pose proof (λ w r, finish_all_keeps _ _ _ _ w r E) as Hkeep. unfold es in E. rewrite !finish_all_app in E.
  exists (set_depth d1 0). split_and!.
  - unfold stop. fold r0. destruct (finish_all d ps r0) as [dp |]; [| done]. cbn [mbind option_bind] in E |- *.
    destruct (finish_all dp rs r0) as [dr |]; [| done]. cbn [mbind option_bind] in E |- *.
    by rewrite E.
  - apply set_eq. intros w. rewrite elem_of_dom. simpl. rewrite Hans, Hall. split.
    + intros [[l Hl] | Hl]; [by apply (wo_open _ _ Hw) in Hl as [? _] | by apply (wo_answered _ _ Hw)].
    + intros Hin. by apply (wo_cover _ _ Hw).
  - simpl. intros w r Hwr. by apply Hkeep.
Qed.

(** Removing the probes of an identity does not end a periodic one that is
    running: its completion, deferred or not, puts it back in the queue under the
    retired key. *)
Theorem retired_periodic_returns owner y key task removal ps rs d1 r now :
  sched_reachable owner y → (key, task) ∈ y_inflight y → 0 < pt_Interval task → probeRemovalMatches removal key = true →
  visits (matching removal (d_pending (y_d y))) ps → visits (matching removal (d_rerun (y_d y))) rs →
  removeProbes (y_d y) removal ps rs = Some d1 → queue_full d1 = false →
  ∃ d2 e, completion (drop_stale_dispatch d1) key task r now = Some d2 ∧ d_pending d2 !! key = Some e ∧
          pt_DueAt (sp_task e) = now + nextPeriodicProbeInterval task r.
Proof.
  intros [Hw Ht]%sched_reachable_ok HJ Hint Hm Hps Hrs Hrem Hq.
  destruct (removeProbes_ok _ _ _ removal ps rs Hw Ht Hps Hrs) as (d1' & E & Hw1 & Ht1). rewrite Hrem in E. injection E as <-.
  set (d := drop_stale_dispatch d1) in *.
  assert (Hq1 : queue_full d = false) by (subst d; unfold drop_stale_dispatch; repeat case_match; done).
  assert (Hrn : d_rerun d !! key = None).
  { destruct (removeProbes_entries _ _ _ _ _ (PRerun, key) Hrem) as [He _]. simpl in He. rewrite Hm in He.
    subst d. unfold drop_stale_dispatch. repeat case_match; done. }
  destruct (proj1 (to_active _ _ Ht1 key)) as [a Ha]; [apply list_elem_of_fmap; by exists (key, task) |].
  unfold completion. rewrite Ha.
  destruct (finish_spec (bump (set_tables d (d_pending d) (delete key (d_active d)) (d_rerun d)) CCompleted) (ac_entry a) r)
    as (d2 & -> & (Ep & _ & Er & _) & _).
  { intros w Hin Hd. apply elem_of_dom in Hd. destruct (wo_open _ _ Hw1 w (PActive, key)) as [_ Hn].
    - rewrite (waiters_at_Some d (PActive, key) (ac_entry a)); [done |]. unfold entry_at. simpl. by rewrite Ha.
    - simpl in Hd. rewrite Hn in Hd. by destruct Hd. }
  cbn [mbind option_bind]. simpl in Ep, Er. rewrite Er, Hrn. unfold next_run. rewrite (proj2 (Z.ltb_lt _ _) Hint).
  assert (Hk : pt_Key (periodic_task task r now) = key).
  { rewrite <- (to_jobs _ _ Ht1 key task HJ). unfold periodic_task. by destruct (pr_Outcome r). }
  assert (Hfull : queue_full (set_tables d2 (d_pending d2) (d_active d2) (delete key (d_rerun d))) = false).
  { unfold queue_full in *. simpl. rewrite Ep, delete_id by done. done. }
  rewrite Hfull. cbn [negb]. do 2 eexists. split_and!; [done | simpl; rewrite Hk; apply lookup_insert_eq |].
  simpl. unfold periodic_task. by destruct (pr_Outcome r).
Qed.
End dispatcher.

(** ** A run

    One worker has taken a periodic probe, a fresh run of it waits, and another
    probe is queued. *)

Definition quiet : ProbeTask → ProbeResult → bool := λ _ _, false.
Definition example_task (node : Z) (source : string) (priority : Z) : ProbeTask :=
  mkTask (mkProbeKey 1 1 1 node 1 1 "tcp" "target") source priority 0 0 0 0 0 0 1 false (Some 1%nat) None.
Definition periodic_example : ProbeTask :=
  mkTask (mkProbeKey 1 1 1 7 1 1 "tcp" "target") "a" 1 0 0 minute 0 0 0 1 false (Some 1%nat) (Some 2%nat).
Definition fresh_example : ProbeTask :=
  mkTask (mkProbeKey 1 1 1 7 1 1 "tcp" "target") "a" 1 0 0 0 0 0 0 1 true (Some 1%nat) None.

Definition example_d0 : dispatcher := initial None.
Definition example_d1 : dispatcher := default example_d0 (fst <$> acceptSubmission 4 example_d0 periodic_example 1).
Definition example_d2 : dispatcher := loop_top example_d1 0 [periodic_example].
Definition example_d3 : dispatcher := default example_d0 (fst <$> job_taken example_d2).
Definition example_d4 : dispatcher := default example_d0 (fst <$> acceptSubmission 4 example_d3 fresh_example 2).
Definition example_d5 : dispatcher := default example_d0 (fst <$> acceptSubmission 4 example_d4 (example_task 3 "c" 1) 3).
Definition example_y : sched_system :=
  mkSched example_d5 ({[3]} ∪ ({[2]} ∪ ({[1]} ∪ ∅))) [(pt_Key periodic_example, periodic_example)].

Lemma example_reachable : sched_reachable 4 quiet None example_y.
Proof.
  eapply sr_step; [eapply sr_step; [eapply sr_step; [eapply sr_step; [eapply sr_step; [apply sr_init |] |] |] |] |].
  - apply (ss_submit 4 quiet _ ∅ [] periodic_example 1 example_d1 ProbeAccepted); [set_solver | by vm_compute].
  - apply (ss_top 4 quiet _ _ [] 0 [periodic_example]). by vm_compute.
  - apply (ss_job 4 quiet _ _ [] (pt_Key periodic_example) example_d3 periodic_example); by vm_compute.
  - apply (ss_submit 4 quiet _ _ _ fresh_example 2 example_d4 ProbeCoalesced); [set_solver | by vm_compute].
  - apply (ss_submit 4 quiet _ _ _ (example_task 3 "c" 1) 3 example_d5 ProbeAccepted); [set_solver | by vm_compute].
Defined.

Lemma scheduler_never_panics_witness :
  sched_reachable 4 quiet None example_y ∧ is_Some (cancelProbeWaiter (y_d example_y) (pt_Key periodic_example) 2).
Proof.
  split; [exact example_reachable |]. exact (proj1 (proj2 (scheduler_never_panics 4 quiet None example_y example_reachable)) _ _).
Defined.

Lemma scheduler_bounded_witness :
  (size (d_pending (y_d example_y)) = 1 ∧ size (d_rerun (y_d example_y)) = 1)%nat ∧
  (size (d_pending (y_d example_y)) + size (d_rerun (y_d example_y)) ≤ 4)%nat.
Proof. split; [by vm_compute |]. exact (proj1 (scheduler_bounded 4 quiet None example_y example_reachable)). Defined.

Lemma scheduler_stop_answers_all_witness :
  ∃ d', stop quiet (y_d example_y) (map_to_list (d_pending (y_d example_y))).*2 (map_to_list (d_rerun (y_d example_y))).*2
          (map_to_list (d_active (y_d example_y))).*2 = Some d' ∧ dom (d_answers d') = y_issued example_y.
Proof.
  destruct (scheduler_stop_answers_all 4 quiet None example_y (map_to_list (d_pending (y_d example_y))).*2
    (map_to_list (d_rerun (y_d example_y))).*2 (map_to_list (d_active (y_d example_y))).*2 example_reachable) as (d' & E1 & E2 & _);
    [apply visits_self.. | exact (ex_intro _ d' (conj E1 E2))].
Defined.

Definition example_removal : probeRemoval := mkRemoval 0 0 7 1 1.
Lemma retired_periodic_returns_witness :
  ∃ d1 d2 e, removeProbes quiet (y_d example_y) example_removal [] (map_to_list (d_rerun (y_d example_y))).*2 = Some d1 ∧
    completion 4 quiet (drop_stale_dispatch d1) (pt_Key periodic_example) periodic_example
      (deferred_result "context canceled") 100 = Some d2 ∧
    d_pending d2 !! pt_Key periodic_example = Some e.
Proof.
  destruct (removeProbes quiet (y_d example_y) example_removal [] (map_to_list (d_rerun (y_d example_y))).*2) as [d1 |] eqn:E;
    [| by vm_compute in E].
  destruct (retired_periodic_returns 4 quiet None example_y (pt_Key periodic_example) periodic_example example_removal
    [] (map_to_list (d_rerun (y_d example_y))).*2 d1 (deferred_result "context canceled") 100) as (d2 & e & E1 & E2 & _);
    [exact example_reachable | left | reflexivity | reflexivity | vm_compute; reflexivity | vm_compute; reflexivity | exact E | |
     exact (ex_intro _ d1 (ex_intro _ d2 (ex_intro _ e (conj eq_refl (conj E1 E2)))))].
  vm_compute in E. injection E as <-. vm_compute. reflexivity.
Defined.
