(* ===== verification/AdaptiveChoice.v ===== *)
(** * Which probe runs next

    [nextScheduledProbe] of [protocol/group/adaptive/scheduler.go]: what it
    chooses, that it chooses whenever a probe is due, that no priority starves,
    and that a source can. *)

From S2P Require Import Prelude AdaptiveLease AdaptiveHealth AdaptiveScheduler.
From stdpp Require Import base gmap list strings numbers fin_sets fin_maps sorting.
From Stdlib Require Import ZArith Lia.

Local Open Scope Z_scope.

(** ** The order of the entries of a source *)

Lemma string_compare_lt_trans a b c :
  String.compare a b = Lt → String.compare b c = Lt → String.compare a c = Lt.
Proof.
  revert b c. induction a as [|x a IH]; intros [|y b] [|z c]; simpl; try done.
  destruct (Ascii.compare x y) eqn:E1, (Ascii.compare y z) eqn:E2; try done; intros H1 H2.
  all: unfold Ascii.compare in *.
  all: rewrite ?N.compare_eq_iff, ?N.compare_lt_iff in *.
  - rewrite E1, E2, N.compare_refl. by eapply IH.
  - rewrite E1. apply N.compare_lt_iff in E2. by rewrite E2.
  - rewrite <- E2. apply N.compare_lt_iff in E1. by rewrite E1.
  - assert (Ascii.N_of_ascii x < Ascii.N_of_ascii z)%N as ->%N.compare_lt_iff by lia. done.
Qed.

Lemma string_compare_refl a : String.compare a a = Eq.
Proof. induction a as [|x a IH]; simpl; [done |]. unfold Ascii.compare. by rewrite N.compare_refl. Qed.

Definition string_lt (a b : string) : Prop := String.compare a b = Lt.
Lemma string_total : total_order string_lt.
Proof.
  split.
  - apply string_compare_lt_trans.
  - intros a H. unfold string_lt in H. by rewrite string_compare_refl in H.
  - intros a b. unfold string_lt. destruct (String.compare a b) eqn:E.
    + right. left. by apply String.compare_eq_iff.
    + by left.
    + right. right. by rewrite String.compare_antisym, E.
Qed.

Lemma compare_int_neg x y k : compare_int x y k < 0 ↔ x < y ∨ x = y ∧ k < 0.
Proof. unfold compare_int. destruct (Z.eqb_spec x y), (Z.ltb_spec x y); lia. Qed.
Lemma compare_str_neg x y k : compare_str x y k < 0 ↔ string_lt x y ∨ x = y ∧ k < 0.
Proof.
  unfold compare_str, string_lt. destruct (String.compare x y) eqn:E.
  - apply String.compare_eq_iff in E as ->. split; [by right | by intros [? | [_ ?]]].
  - split; [by left | lia].
  - split; [lia |]. intros [? | [-> _]]; [done |]. by rewrite string_compare_refl in E.
Qed.

(** The order of the keys: node, slot, version, suite, target. *)
Definition key_lt (l r : ProbeKey) : Prop :=
  pk_NodeID l < pk_NodeID r ∨ pk_NodeID l = pk_NodeID r ∧
  (pk_NodeSlot l < pk_NodeSlot r ∨ pk_NodeSlot l = pk_NodeSlot r ∧
  (pk_NodeVersion l < pk_NodeVersion r ∨ pk_NodeVersion l = pk_NodeVersion r ∧
  (string_lt (pk_Suite l) (pk_Suite r) ∨ pk_Suite l = pk_Suite r ∧
  (string_lt (pk_Target l) (pk_Target r) ∨ pk_Target l = pk_Target r ∧ False)))).

Lemma key_lt_weak : weak_order key_lt.
Proof.
  apply (weak_lex pk_NodeID), (weak_lex pk_NodeSlot), (weak_lex pk_NodeVersion), (weak_lex pk_Suite), (weak_lex pk_Target), weak_none;
    first [apply Z_total | apply string_total].
Qed.

Lemma compareProbeKey_neg l r : compareProbeKey l r < 0 ↔ key_lt l r.
Proof.
  unfold compareProbeKey, key_lt. rewrite !compare_int_neg, !compare_str_neg.
  assert (E : 0 < 0 ↔ False) by lia. by rewrite E.
Qed.

Definition task_lt (l r : ProbeTask) : Prop :=
  pt_SubmittedAt l < pt_SubmittedAt r ∨ pt_SubmittedAt l = pt_SubmittedAt r ∧ key_lt (pt_Key l) (pt_Key r).

Lemma task_lt_weak : weak_order task_lt.
Proof.
  apply (weak_lex pt_SubmittedAt); [apply Z_total |]. destruct key_lt_weak as [Kt Kn Ki].
  split; intros; [by eapply Kt | by apply Kn | by apply Ki].
Qed.

Lemma task_before_spec l r : task_before l r = true ↔ task_lt l r.
Proof.
  unfold task_before, task_lt, time_before. destruct (Z.eqb_spec (pt_SubmittedAt l) (pt_SubmittedAt r)) as [E | E]; simpl.
  - rewrite Z.ltb_lt, compareProbeKey_neg. split; [by right | intros [? | [_ ?]]; [lia | done]].
  - rewrite bool_decide_eq_true. split; [by left | intros [? | [? _]]; [done | lia]].
Qed.

(** The first entry after sorting: one of them, with none before it. *)
Lemma first_entry_spec best l :
  first_entry best l ∈ best :: l ∧ ∀ u, u ∈ best :: l → ¬ task_lt u (first_entry best l).
Proof.
  revert best. induction l as [|t l IH]; intros best; simpl.
  { split; [left |]. intros u ->%list_elem_of_singleton. apply (wk_irrefl _ task_lt_weak). }
  destruct (task_before t best) eqn:E.
  - apply task_before_spec in E. destruct (IH t) as [Hin Hmin]. split; [by right |].
    intros u [-> | Hu]%elem_of_cons; [| by apply Hmin]. intros Hlt.
    apply (Hmin t); [left |]. by apply (wk_trans _ task_lt_weak t best).
  - assert (Hn : ¬ task_lt t best) by (rewrite <- task_before_spec; by rewrite E).
    destruct (IH best) as [Hin Hmin]. split.
    + apply elem_of_cons in Hin as [-> | Hin]; [left | by do 2 right].
    + intros u [-> | [-> | Hu]%elem_of_cons]%elem_of_cons; [apply Hmin; left | | apply Hmin; by right].
      intros Hlt. destruct (wk_neg _ task_lt_weak t best _ Hlt) as [? | ?]; [done |]. apply (Hmin best); [left | done].
Qed.

(** ** The priority *)

Definition due (now : Z) (t : ProbeTask) : Prop := ¬ now < pt_DueAt t.
Definition ready_at (now : Z) (pending : list ProbeTask) : list ProbeTask := filter (λ t, ¬ now < pt_DueAt t) pending.
(** [ProbePriority] is a [uint8]; zero stands for coverage. *)
Definition priorities_ok (l : list ProbeTask) : Prop := ∀ t, t ∈ l → 0 ≤ pt_Priority t ≤ ProbePriorityRecovery.

Lemma task_priority_pos l t : priorities_ok l → t ∈ l → 1 ≤ task_priority t ≤ 4.
Proof.
  intros Hp Ht%Hp. unfold task_priority, ProbePriorityCoverage, ProbePriorityRecovery in *. destruct (Z.eqb_spec (pt_Priority t) 0); lia.
Qed.

Lemma highest_spec l :
  priorities_ok l →
  (l = [] ∧ highest_priority l = 0) ∨
  ((∃ t, t ∈ l ∧ task_priority t = highest_priority l) ∧ ∀ t, t ∈ l → task_priority t ≤ highest_priority l).
Proof.
  unfold highest_priority. induction l as [|t l IH]; intros Hp; [by left | right]. simpl.
  pose proof (task_priority_pos _ t Hp (list_elem_of_here _ _)) as Ht.
  destruct IH as [[-> E] | [(u & Hu & Eu) Hmax]]; [intros u Hu; apply Hp; by right | |].
  - simpl. rewrite Z.max_l by lia. split; [exists t; split; [left | done] |]. intros u ->%list_elem_of_singleton. lia.
  - split.
    + destruct (Z.max_spec (task_priority t) (foldr (λ t h, Z.max (task_priority t) h) 0 l)) as [[? ->] | [? ->]];
        [exists u; split; [by right | done] | exists t; split; [left | done]].
    + intros v [-> | Hv]%elem_of_cons; [| apply Hmax in Hv]; lia.
Qed.

Lemma lower_spec ready highest p :
  p ∈ lower_priorities ready highest ↔ 1 ≤ p < highest ∧ ∃ t, t ∈ ready ∧ task_priority t = p.
Proof.
  unfold lower_priorities. rewrite list_elem_of_filter, elem_of_seqZ, Exists_exists. unfold ProbePriorityCoverage.
  split; intros [? ?]; split; try done; lia.
Qed.

Lemma forced_choice_spec lower forced first rest :
  lower = first :: rest →
  forced_choice lower forced first ∈ lower.
Proof.
  intros E. unfold forced_choice. destruct (list_find _ lower) as [[i p] |] eqn:Ef; simpl.
  - apply list_find_Some in Ef as (Hp & _ & _). by eapply list_elem_of_lookup_2.
  - rewrite E. left.
Qed.

(** The highest priority, or, after eight of them in a row, a lower one. *)
Lemma select_priority_spec c ready sel c' :
  priorities_ok ready → ready ≠ [] → select_priority c ready = (sel, c') →
  (∃ t, t ∈ ready ∧ task_priority t = sel) ∧ ch_lastSource c' = ch_lastSource c ∧
  (sel = highest_priority ready ∨ maxHighPriorityBurst ≤ ch_highBurst c ∧ sel ∈ lower_priorities ready (highest_priority ready)).
Proof.
  intros Hp Hne. destruct (highest_spec ready Hp) as [[? _] | [Hex Hmax]]; [done |].
  unfold select_priority. destruct (Z.leb_spec maxHighPriorityBurst (ch_highBurst c)); [| by intros [= <- <-]; auto].
  destruct (lower_priorities ready (highest_priority ready)) as [|first rest] eqn:El; [by intros [= <- <-]; auto |].
  intros [= <- <-]. pose proof (forced_choice_spec _ (ch_forcedPriority c) _ _ El) as Hin. rewrite El in Hin.
  split_and!; [| done | by right].
  assert (Hl : forced_choice (first :: rest) (ch_forcedPriority c) first ∈ lower_priorities ready (highest_priority ready))
    by by rewrite El.
  by apply lower_spec in Hl as [_ ?].
Qed.

(** ** The source *)

Lemma insert_string_elem s x l : x ∈ insert_string s l ↔ x = s ∨ x ∈ l.
Proof.
  induction l as [|t l IH]; simpl; [by rewrite elem_of_cons |].
  destruct (String.leb s t); rewrite !elem_of_cons; [done |]. rewrite IH. tauto.
Qed.
Lemma sort_strings_elem x l : x ∈ sort_strings l ↔ x ∈ l.
Proof.
  induction l as [|t l IH]; [done |]. change (sort_strings (t :: l)) with (insert_string t (sort_strings l)).
  by rewrite insert_string_elem, IH, elem_of_cons.
Qed.

Lemma next_source_spec sources previous :
  sources ≠ [] → ∃ s, next_source sources previous = Some s ∧ s ∈ sources.
Proof.
  intros Hne. assert (Hi : ∀ i, (i < length sources)%nat → ∃ s, sources !! i = Some s ∧ s ∈ sources).
  { intros i [s Hs]%lookup_lt_is_Some_2. exists s. split; [done | by eapply list_elem_of_lookup_2]. }
  assert (Hlen : (0 < length sources)%nat) by (destruct sources; simpl; [done | lia]).
  unfold next_source. destruct previous as [s |]; [| by apply Hi]. destruct (s =? "")%string; [by apply Hi |].
  case_bool_decide; apply Hi; [apply Nat.mod_upper_bound |]; lia.
Qed.

(** ** The choice *)

(** What the code promises of one choice: a probe that is due, of the highest
    priority or, after a burst of eight, of a lower one; and of its priority and
    source the one submitted first. *)
Definition good_choice (now : Z) (pending : list ProbeTask) (c : choice_state) (t : ProbeTask) : Prop :=
  t ∈ pending ∧ due now t ∧
  (∀ u, u ∈ pending → due now u → task_priority u = task_priority t → task_source u = task_source t → ¬ task_lt u t) ∧
  (ch_highBurst c < maxHighPriorityBurst → ∀ u, u ∈ pending → due now u → task_priority u ≤ task_priority t).

Lemma nextScheduledProbe_choice now pending c :
  priorities_ok pending →
  match nextScheduledProbe now pending c with
  | None => ∀ t, t ∈ pending → ¬ due now t
  | Some (key, c') =>
      ∃ t, good_choice now pending c t ∧ pt_Key t = key ∧
           (task_priority t, mkChoice (ch_lastSource c) (ch_highBurst c') (ch_forcedPriority c')) =
           select_priority c (ready_at now pending)
  end.
Proof.
  intros Hp. unfold nextScheduledProbe. fold (ready_at now pending). set (ready := ready_at now pending).
  assert (Hr : ∀ t, t ∈ ready ↔ due now t ∧ t ∈ pending) by (intros t; apply list_elem_of_filter).
  assert (Hpr : priorities_ok ready) by (intros t [_ Ht]%Hr; by apply Hp).
  destruct (highest_spec ready Hpr) as [[E ->] | [(t0 & Ht0 & E0) Hmax]].
  { simpl. intros t Ht Hd. assert (t ∈ ready) as Hin by by apply Hr. rewrite E in Hin. by apply not_elem_of_nil in Hin. }
  assert (Hne : ready ≠ []) by (intros E; rewrite E in Ht0; by apply not_elem_of_nil in Ht0).
  destruct (Z.eqb_spec (highest_priority ready) 0) as [Hz | _].
  { pose proof (task_priority_pos _ _ Hpr Ht0). lia. }
  destruct (select_priority c ready) as [sel c1] eqn:Es.
  destruct (select_priority_spec _ _ _ _ Hpr Hne Es) as ((ts & Hts & Ets) & Elast & Hsel).
  set (cand := filter (λ t, task_priority t = sel) ready).
  assert (Hc : ∀ t, t ∈ cand ↔ task_priority t = sel ∧ t ∈ ready) by (intros t; unfold cand; by rewrite list_elem_of_filter).
  set (sources := sort_strings (remove_dups (task_source <$> cand))).
  assert (Hs : ∀ x, x ∈ sources ↔ ∃ t, x = task_source t ∧ t ∈ cand).
  { intros x. unfold sources. by rewrite sort_strings_elem, elem_of_remove_dups, list_elem_of_fmap. }
  destruct (next_source_spec sources (ch_lastSource c1 !! sel)) as (src & -> & Hsrc).
  { intros E. assert (task_source ts ∈ sources) as Hin by (apply Hs; exists ts; split; [done | by apply Hc]).
    rewrite E in Hin. by apply not_elem_of_nil in Hin. }
  cbn [mbind option_bind]. apply Hs in Hsrc as (tt & Ett & Htt).
  destruct (filter (λ t, task_source t = src) cand) as [|t entries] eqn:Ef.
  { assert (tt ∈ filter (λ t, task_source t = src) cand) as Hin by by apply list_elem_of_filter.
    rewrite Ef in Hin. by apply not_elem_of_nil in Hin. }
  destruct (first_entry_spec t entries) as [Hin Hmin]. rewrite <- Ef in Hin, Hmin.
  apply list_elem_of_filter in Hin as [Esrc [Epr [Hdue Hpend]%Hr]%Hc].
  exists (first_entry t entries). split_and!; [| done |].
  - split_and!; [done | done | |].
    + intros u Hu Hdu Epu Esu. apply Hmin. apply list_elem_of_filter. split; [congruence |]. apply Hc. split; [congruence | by apply Hr].
    + intros Hb u Hu Hdu. rewrite Epr. destruct Hsel as [-> | [Hb' _]]; [apply Hmax; by apply Hr | lia].
  - simpl. rewrite Epr. f_equal. rewrite <- Elast. by destruct c1.
Qed.

(** [nextScheduledProbe] finds a probe exactly when one is due, and a good one. *)
Theorem next_probe_exact now pending c :
  priorities_ok pending →
  match nextScheduledProbe now pending c with
  | None => ∀ t, t ∈ pending → ¬ due now t
  | Some (key, _) => ∃ t, good_choice now pending c t ∧ pt_Key t = key
  end.
Proof.
  intros Hp. pose proof (nextScheduledProbe_choice now pending c Hp) as H.
  destruct (nextScheduledProbe now pending c) as [[key c'] |]; [| done]. destruct H as (t & ? & ? & _). by exists t.
Qed.

(** ** No priority starves *)

(** Successive choices: the pending probes of each, and what was chosen. *)
Fixpoint choose_all (c : choice_state) (inputs : list (Z * list ProbeTask)) : list (option ProbeKey) :=
  match inputs with
  | [] => []
  | (now, pending) :: inputs =>
      match nextScheduledProbe now pending c with
      | Some (key, c') => Some key :: choose_all c' inputs
      | None => None :: choose_all c inputs
      end
  end.

Definition choice_ok (c : choice_state) : Prop := 0 ≤ ch_highBurst c ∧ 0 ≤ ch_forcedPriority c ≤ 3.

(** How far the rotation of forced priorities is from [p], and how much of the
    burst is left. *)
Definition rotation (forced p : Z) : Z := if forced <? p then p - forced else 4 - forced + p.
Definition waiting (c : choice_state) (p : Z) : Z :=
  9 * rotation (ch_forcedPriority c) p + (8 - Z.min 8 (ch_highBurst c)).

Lemma seqZ_sorted m n : StronglySorted Z.lt (seqZ m n).
Proof.
  destruct (decide (0 ≤ n)) as [Hn |]; [| rewrite seqZ_nil by lia; constructor]. revert m. pattern n.
  apply natlike_ind; [| | done]; clear.
  - intros m. rewrite seqZ_nil by lia. constructor.
  - intros n Hn IH m. rewrite seqZ_cons by lia. replace (Z.pred (Z.succ n)) with n by lia.
    constructor; [apply IH |]. apply list.Forall_forall. intros x Hx%elem_of_seqZ. lia.
Qed.
Lemma lower_sorted ready h : StronglySorted Z.lt (lower_priorities ready h).
Proof.
  unfold lower_priorities. induction (seqZ_sorted ProbePriorityCoverage (h - ProbePriorityCoverage)) as [|x l Hs IH Hf]; [constructor |].
  rewrite filter_cons. case_decide; [| done]. constructor; [done |].
  apply list.Forall_forall. intros y [_ Hy]%list_elem_of_filter. rewrite list.Forall_forall in Hf. by apply Hf.
Qed.

Lemma sorted_lookup_lt l i j (x y : Z) :
  StronglySorted Z.lt l → l !! i = Some x → l !! j = Some y → (i < j)%nat → x < y.
Proof.
  intros Hs. revert i j. induction Hs as [|z l Hs IH Hf]; intros [|i] [|j] Hi Hj Hlt; simplify_eq/=; try lia.
  - rewrite list.Forall_forall in Hf. by eapply Hf, list_elem_of_lookup_2.
  - eapply IH; [done | done | lia].
Qed.

(** A forced choice moves the rotation on, or is [p]. *)
Lemma forced_choice_advances lower forced p first rest :
  StronglySorted Z.lt lower → lower = first :: rest → p ∈ lower → (∀ q, q ∈ lower → 1 ≤ q ≤ 3) → 0 ≤ forced ≤ 3 →
  let q := forced_choice lower forced first in q = p ∨ rotation q p < rotation forced p.
Proof.
  intros Hs E Hp Hr Hf. simpl. unfold forced_choice, rotation. pose proof (Hr p Hp).
  destruct (list_find (λ p, forced < p) lower) as [[i q] |] eqn:Ef; simpl.
  - apply list_find_Some in Ef as (Hq & Hlt & Hbefore). pose proof (Hr q (list_elem_of_lookup_2 _ _ _ Hq)).
    destruct (Z.ltb_spec forced p), (Z.ltb_spec q p); try lia.
    destruct (decide (q = p)) as [| Hne]; [by left |]. exfalso.
    apply list_elem_of_lookup in Hp as [j Hj]. destruct (decide (j < i)%nat) as [Hji | Hji]; [by apply (Hbefore j p) |].
    assert (i ≠ j) by congruence. pose proof (sorted_lookup_lt _ i j q p Hs Hq Hj ltac:(lia)). lia.
  - apply list_find_None in Ef. rewrite list.Forall_forall in Ef. pose proof (Ef p Hp).
    assert (first ≤ p).
    { rewrite E in Hs, Hp. apply elem_of_cons in Hp as [-> | Hp]; [lia |]. inversion_clear Hs as [|? ? ? Hall].
      rewrite list.Forall_forall in Hall. apply Hall in Hp. lia. }
    assert (1 ≤ first) by (apply Hr; rewrite E; left). cbn beta in *.
    destruct (Z.ltb_spec forced p), (Z.ltb_spec first p); lia.
Qed.

(** One choice below the highest priority that does not pick [p] brings [p] nearer. *)
Lemma select_priority_advances c ready p sel c' :
  priorities_ok ready → (∃ t, t ∈ ready ∧ task_priority t = p) → p < highest_priority ready → choice_ok c →
  select_priority c ready = (sel, c') → choice_ok c' ∧ (sel = p ∨ waiting c' p < waiting c p).
Proof.
  intros Hp (t & Ht & Etp) Hph [Hb Hf] Es. pose proof (task_priority_pos _ _ Hp Ht) as Hpos. rewrite Etp in Hpos.
  destruct (highest_spec ready Hp) as [[-> _] | [(th & Hth & Eh) Hmax]]; [by apply not_elem_of_nil in Ht |].
  pose proof (task_priority_pos _ _ Hp Hth) as Hh4. rewrite Eh in Hh4.
  revert Es. unfold select_priority. set (h := highest_priority ready) in *.
  assert (Hpin : p ∈ lower_priorities ready h) by (apply lower_spec; split; [lia | by exists t]).
  destruct (Z.leb_spec maxHighPriorityBurst (ch_highBurst c)) as [Hfull | Hroom]; unfold maxHighPriorityBurst in *.
  - destruct (lower_priorities ready h) as [|first rest] eqn:El; [by apply not_elem_of_nil in Hpin |].
    assert (Hlow : ∀ q, q ∈ first :: rest → 1 ≤ q ≤ 3 ∧ q < h) by (intros q; rewrite <- El; intros [? _]%lower_spec; lia).
    pose proof (forced_choice_spec (first :: rest) (ch_forcedPriority c) first rest eq_refl) as Hq.
    pose proof (forced_choice_advances (first :: rest) (ch_forcedPriority c) p first rest) as Hadv. simpl in Hadv.
    set (q := forced_choice (first :: rest) (ch_forcedPriority c) first) in *. intros [= <- <-].
    destruct (Hlow q Hq) as [Hq3 Hqh]. destruct (Z.eqb_spec q h); [lia |]. simpl. split; [split; simpl; lia |].
    destruct Hadv as [? | ?]; [by rewrite <- El; apply lower_sorted | done | done | by intros ? [? _]%Hlow | done | by left |].
    right. unfold waiting. simpl. lia.
  - intros [= <- <-]. rewrite Z.eqb_refl. split; [split; simpl; lia |]. right. unfold waiting. simpl. lia.
Qed.

(** The [i]th choice is a probe of priority [p]. *)
Definition chosen (inputs : list (Z * list ProbeTask)) (outs : list (option ProbeKey)) (p : Z) (i : nat) : Prop :=
  ∃ now pending key t, inputs !! i = Some (now, pending) ∧ outs !! i = Some (Some key) ∧
    t ∈ pending ∧ pt_Key t = key ∧ task_priority t = p.

(** Probes of priority [p] and of a higher one are due. *)
Definition contended (p : Z) (input : Z * list ProbeTask) : Prop :=
  priorities_ok input.2 ∧
  (∃ t, t ∈ input.2 ∧ due input.1 t ∧ task_priority t = p) ∧
  (∃ t, t ∈ input.2 ∧ due input.1 t ∧ p < task_priority t).

Lemma chosen_later inputs outs p x y i : chosen inputs outs p i → chosen (x :: inputs) (y :: outs) p (S i).
Proof. done. Qed.

Lemma chosen_within p c inputs :
  1 ≤ p → choice_ok c → (∀ input, input ∈ inputs → contended p input) → waiting c p ≤ Z.of_nat (length inputs) + 8 →
  ∃ i, chosen inputs (choose_all c inputs) p i.
Proof.
  intros Hp1. revert c. induction inputs as [|[now pending] inputs IH]; intros c Hc Hin Hw.
  { exfalso. destruct Hc as [Hb Hf]. unfold waiting, rotation in *. simpl in Hw.
    destruct (Z.ltb_spec (ch_forcedPriority c) p); lia. }
  destruct (Hin (now, pending) (list_elem_of_here _ _)) as (Hp & (t & Ht & Hd & Et) & (u & Hu & Hdu & Eu)). simpl in *.
  pose proof (nextScheduledProbe_choice now pending c Hp) as Hch.
  destruct (nextScheduledProbe now pending c) as [[key c'] |]; [| by apply Hch in Ht].
  destruct Hch as (v & (Hv & _) & Ek & Es).
  set (ready := ready_at now pending) in *.
  assert (Hr : ∀ x, x ∈ ready ↔ due now x ∧ x ∈ pending) by (intros x; apply list_elem_of_filter).
  assert (Hpr : priorities_ok ready) by (intros x [_ Hx]%Hr; by apply Hp).
  assert (Hph : p < highest_priority ready).
  { destruct (highest_spec ready Hpr) as [[E _] | [_ Hmax]]; [| pose proof (Hmax u (proj2 (Hr u) (conj Hdu Hu))); lia].
    assert (t ∈ ready) as Htr by by apply Hr. rewrite E in Htr. by apply not_elem_of_nil in Htr. }
  destruct (select_priority_advances c ready p _ _ Hpr ltac:(exists t; split; [by apply Hr | done]) Hph Hc (eq_sym Es)) as [Hc' Hor].
  destruct Hor as [Ev | Hlt]; [exists O; by exists now, pending, key, v |].
  destruct (IH c') as [i Hi]; [by destruct Hc' | intros x Hx; apply Hin; by right | |].
  - unfold waiting in Hlt, Hw |- *. simpl in Hlt. lia.
  - exists (S i). by apply chosen_later.
Qed.

(** C19. A priority is not starved by higher ones that stay busy: if at each of 36 consecutive
    choices of the dispatcher a probe of priority p and a probe of a higher priority are
    due, at least one of these choices is a probe of priority p, whatever the burst counter
    and the rotation were before (in their ranges: a burst of at least zero, a last forced
    priority from none to three).  When a higher priority is due only at some of the choices
    this does not hold: see middle_priority_can_starve and the findings. *)
Theorem lower_priority_not_starved p c inputs :
  1 ≤ p → choice_ok c → (36 ≤ length inputs)%nat → (∀ input, input ∈ inputs → contended p input) →
  ∃ i, chosen inputs (choose_all c inputs) p i.
Proof.
  intros Hp Hc Hlen Hin. apply chosen_within; [done | done | done |].
  destruct Hc as [Hb Hf]. assert (p ≤ 3).
  { destruct inputs as [|x inputs]; simpl in Hlen; [lia |].
    destruct (Hin x (list_elem_of_here _ _)) as (Hpr & _ & (u & Hu & _ & Eu)). pose proof (task_priority_pos _ _ Hpr Hu). lia. }
  unfold waiting, rotation. destruct (Z.ltb_spec (ch_forcedPriority c) p); lia.
Qed.

(** ** Two ways a probe can starve *)

(** The state after the choices. *)
Fixpoint choose_state (c : choice_state) (inputs : list (Z * list ProbeTask)) : choice_state :=
  match inputs with
  | [] => c
  | (now, pending) :: inputs =>
      match nextScheduledProbe now pending c with
      | Some (_, c') => choose_state c' inputs
      | None => choose_state c inputs
      end
  end.

Lemma choose_all_app c l1 l2 : choose_all c (l1 ++ l2) = choose_all c l1 ++ choose_all (choose_state c l1) l2.
Proof.
  revert c. induction l1 as [|[now pending] l1 IH]; intros c; simpl; [done |].
  destruct (nextScheduledProbe now pending c) as [[key c'] |]; simpl; by rewrite IH.
Qed.

(** Rounds that come back to the same states never choose what none of them chooses. *)
Lemma rounds_avoid (P : choice_state → Prop) round (k : ProbeKey) n c :
  P c → (∀ c, P c → P (choose_state c round) ∧ Some k ∉ choose_all c round) →
  Some k ∉ choose_all c (mjoin (replicate n round)).
Proof.
  intros Hc Hround. revert c Hc. induction n as [|n IH]; intros c Hc; [apply not_elem_of_nil |].
  simpl. rewrite choose_all_app, elem_of_app. destruct (Hround c Hc) as [Hc' Hn]. intros [? | ?]; [done |]. by apply (IH _ Hc').
Qed.

Definition fresh_choice : choice_state := mkChoice ∅ 0 0.

(** Two sources take turns with one ready probe each; the third is always ready. *)
Definition source_round : list (Z * list ProbeTask) :=
  [(0, [example_task 1 "a" 1; example_task 3 "c" 1]); (0, [example_task 2 "b" 1; example_task 3 "c" 1])].

Definition after_b (c : choice_state) : Prop :=
  ch_lastSource c !! 1 = None ∨ ch_lastSource c !! 1 = Some "b"%string.

(** Two ready probes of the coverage priority: the source decides. *)
Lemma two_sources l last burst forced sources src t :
  ready_at 0 l = l → (∀ c, select_priority c l = (1, mkChoice (ch_lastSource c) (ch_highBurst c + 1) (ch_forcedPriority c))) →
  (highest_priority l =? 0) = false → filter (λ t, task_priority t = 1) l = l →
  sort_strings (remove_dups (task_source <$> l)) = sources → next_source sources (last !! 1) = Some src →
  filter (λ t, task_source t = src) l = [t] →
  nextScheduledProbe 0 l (mkChoice last burst forced) = Some (pt_Key t, mkChoice (<[1 := src]> last) (burst + 1) forced).
Proof.
  intros E1 E2 E3 E4 E5 E6 E7. unfold nextScheduledProbe. fold (ready_at 0 l). rewrite E1, E3, E2. cbn [ch_lastSource].
  rewrite E4, E5, E6. cbn [mbind option_bind]. by rewrite E7.
Qed.

Lemma select_single l c :
  highest_priority l = 1 → select_priority c l = (1, mkChoice (ch_lastSource c) (ch_highBurst c + 1) (ch_forcedPriority c)).
Proof. intros E. unfold select_priority. rewrite E. by destruct (_ <=? _). Qed.

(** A source that is ready at every choice is never served. *)
Theorem source_can_starve n :
  Some (pt_Key (example_task 3 "c" 1)) ∉ choose_all fresh_choice (mjoin (replicate n source_round)).
Proof.
  apply (rounds_avoid after_b); [by left |]. intros [last burst forced] Hb. unfold after_b in *. cbn [ch_lastSource] in Hb.
  unfold source_round. cbn [choose_state choose_all].
  rewrite (two_sources _ last burst forced ["a"; "c"]%string "a"%string (example_task 1 "a" 1)); 
    [| done | intros c; by apply select_single | done | done | done | by destruct Hb as [-> | ->] | done].
  rewrite (two_sources _ _ _ _ ["b"; "c"]%string "b"%string (example_task 2 "b" 1));
    [| done | intros c; by apply select_single | done | done | done | by rewrite lookup_insert_eq | done].
  split; [right; apply lookup_insert_eq |].
  intros [? | [? | ?%not_elem_of_nil]%elem_of_cons]%elem_of_cons; done.
Qed.

(** Priorities 1 and 3 are always ready, priority 4 at all but every ninth choice. *)
Definition priority_round : list (Z * list ProbeTask) :=
  replicate 8 (0, [example_task 4 "a" 4; example_task 3 "a" 3; example_task 1 "a" 1]) ++
  [(0, [example_task 3 "a" 3; example_task 1 "a" 1])].

(** The rotation never reaches the middle priority: at the ninth choice it is the
    highest, and the highest is not forced. *)
Theorem middle_priority_can_starve n :
  Some (pt_Key (example_task 3 "a" 3)) ∉ choose_all fresh_choice (mjoin (replicate n priority_round)).
Proof.
  apply (rounds_avoid (λ c, c = fresh_choice ∨ c = choose_state fresh_choice priority_round)); [by left |].
  intros c [-> | ->]; (split; [right |]).
  - done.
  - by apply (bool_decide_unpack _); vm_compute.
  - vm_compute. done.
  - by apply (bool_decide_unpack _); vm_compute.
Qed.

(** ** Concrete inputs *)

Definition example_pending : list ProbeTask := [example_task 4 "a" 4; example_task 3 "b" 3; example_task 1 "a" 1].

Lemma example_priorities : priorities_ok example_pending.
Proof. intros t [-> | [-> | [-> | H%not_elem_of_nil]%elem_of_cons]%elem_of_cons]%elem_of_cons; done. Qed.

Lemma next_probe_exact_witness :
  priorities_ok example_pending ∧
  ∃ t, good_choice 0 example_pending fresh_choice t ∧ pt_Key t = pt_Key (example_task 4 "a" 4).
Proof. split; [exact example_priorities |]. exact (next_probe_exact 0 example_pending fresh_choice example_priorities). Defined.

Lemma lower_priority_not_starved_witness :
  ∃ i, chosen (replicate 36 (0, example_pending)) (choose_all fresh_choice (replicate 36 (0, example_pending))) 3 i.
Proof.
  apply (lower_priority_not_starved 3 fresh_choice (replicate 36 (0, example_pending))); [lia | done | by vm_compute; lia |].
  intros input [-> _]%elem_of_replicate. split_and!; [exact example_priorities | |].
  - exists (example_task 3 "b" 3). split_and!; [right; left | done | done].
  - exists (example_task 4 "a" 4). split_and!; [left | done | done].
Defined.
