(* ===== verification/AdaptiveCoordinator.v ===== *)
(** * Handing the probing of a pool from epoch to epoch

    [SchedulerCoordinator] of [protocol/group/adaptive/scheduler.go].  A runtime
    epoch claims the ownership and gets a token with four channels that are only
    ever closed: [revoke], [done], [ready] and [drained].  Two goroutines per
    claim close [ready] when the claim before has drained, and [drained] when the
    token is ready and done.  A scheduler dispatches once its token is ready, and
    its token is done once its dispatcher and workers have returned.

    Tokens are numbered in the order they are made; a channel is whether it is
    closed.  The goroutines are steps that may come at any time. *)

From S2P Require Import Prelude AdaptiveLease AdaptiveHealth AdaptiveScheduler.
From stdpp Require Import base gmap list strings numbers fin_sets fin_maps.
From Stdlib Require Import ZArith Lia.

Local Open Scope Z_scope.

(** ** Tokens and the coordinator *)

(** [tk_after] is the token whose [drained] the first goroutine waits for. *)
Record SchedulerOwnershipToken : Type := mkToken {
  tk_EpochID : Z;
  tk_Generation : Z;
  tk_revoked : bool;
  tk_done : bool;
  tk_ready : bool;
  tk_drained : bool;
  tk_after : option nat;
}.

(** The tokens made so far, and the fields of the coordinator; [drain] is the
    [drained] channel of a token. *)
Record SchedulerCoordinator : Type := mkCoordinator {
  co_tokens : list SchedulerOwnershipToken;
  co_owner : Z;
  co_generation : Z;
  co_token : option nat;
  co_drain : option nat;
}.

Definition revokeOwner (t : SchedulerOwnershipToken) : SchedulerOwnershipToken :=
  mkToken (tk_EpochID t) (tk_Generation t) true (tk_done t) (tk_ready t) (tk_drained t) (tk_after t).
Definition markDone (t : SchedulerOwnershipToken) : SchedulerOwnershipToken :=
  mkToken (tk_EpochID t) (tk_Generation t) (tk_revoked t) true (tk_ready t) (tk_drained t) (tk_after t).
(** [close(next.ready)] and [close(next.drained)] of the goroutines. *)
Definition close_ready (t : SchedulerOwnershipToken) : SchedulerOwnershipToken :=
  mkToken (tk_EpochID t) (tk_Generation t) (tk_revoked t) (tk_done t) true (tk_drained t) (tk_after t).
Definition close_drained (t : SchedulerOwnershipToken) : SchedulerOwnershipToken :=
  mkToken (tk_EpochID t) (tk_Generation t) (tk_revoked t) (tk_done t) (tk_ready t) true (tk_after t).

Definition revoke_current (c : SchedulerCoordinator) : list SchedulerOwnershipToken :=
  match co_token c with Some i => alter revokeOwner i (co_tokens c) | None => co_tokens c end.

Inductive claim_result : Type := ClaimError (e : string) | ClaimToken (i : nat).

Definition Claim (c : SchedulerCoordinator) (epochID : Z) : SchedulerCoordinator * claim_result :=
  if epochID =? 0 then (c, ClaimError "adaptive scheduler owner epoch is required")
  else
    match (if co_owner c =? epochID then co_token c else None) with
    | Some i => (c, ClaimToken i)
    | None =>
        let previousDrain := co_drain c in
        let tokens := revoke_current c in
        let generation := u64 (co_generation c + 1) in
        let token := mkToken epochID generation false false (bool_decide (previousDrain = None)) false previousDrain in
        (mkCoordinator (tokens ++ [token]) epochID generation (Some (length tokens)) (Some (length tokens)),
         ClaimToken (length tokens))
    end.

Definition Release (c : SchedulerCoordinator) (epochID generation : Z) : SchedulerCoordinator :=
  match co_token c with
  | Some _ =>
      if (co_owner c =? epochID) && (co_generation c =? generation)
      then mkCoordinator (revoke_current c) 0 (co_generation c) None (co_drain c)
      else c
  | None => c
  end.

Definition IsOwner (c : SchedulerCoordinator) (token : option nat) : bool :=
  match token with
  | None => false
  | Some i =>
      bool_decide (co_token c = Some i) &&
      match co_tokens c !! i with
      | Some t => (co_owner c =? tk_EpochID t) && (co_generation c =? tk_Generation t)
      | None => false
      end
  end.

(** Whether the channel to wait on is there, and whether the coordinator is idle. *)
Definition cleanupState (c : option SchedulerCoordinator) : option nat * bool :=
  match c with
  | None => (None, true)
  | Some c =>
      if negb (co_owner c =? 0) || bool_decide (co_token c ≠ None) then (co_drain c, false)
      else
        match co_drain c with
        | None => (None, true)
        | Some i => (Some i, default false (tk_drained <$> co_tokens c !! i))
        end
  end.

(** ** The coordinator with the schedulers of its tokens *)

(** A scheduler that runs, or one whose dispatcher has returned while the jobs
    that were taken are still at the workers. *)
Inductive owned_scheduler : Type :=
| Running (y : sched_system)
| Stopping (jobs : list (ProbeKey * ProbeTask)).

Definition jobs_of (s : owned_scheduler) : list (ProbeKey * ProbeTask) :=
  match s with Running y => y_inflight y | Stopping jobs => jobs end.

Record owners : Type := mkOwners {
  ow_coordinator : SchedulerCoordinator;
  ow_schedulers : gmap nat owned_scheduler;
}.

Definition with_tokens (c : SchedulerCoordinator) (tokens : list SchedulerOwnershipToken) : SchedulerCoordinator :=
  mkCoordinator tokens (co_owner c) (co_generation c) (co_token c) (co_drain c).

Section owners.
Variable queueSize : nat.
Variable observer_panics : ProbeTask → ProbeResult → bool.
(** The counters of the coordinator when a scheduler starts. *)
Variable stats : schedulerStats.

Inductive owners_step : owners → owners → Prop :=
| os_claim c s epochID :
    owners_step (mkOwners c s) (mkOwners (Claim c epochID).1 s)
| os_release c s epochID generation :
    owners_step (mkOwners c s) (mkOwners (Release c epochID generation) s)
  (** the goroutine [<-previousDrain; close(next.ready)] *)
| os_ready c s i j t u :
    co_tokens c !! i = Some t → tk_after t = Some j → tk_ready t = false →
    co_tokens c !! j = Some u → tk_drained u = true →
    owners_step (mkOwners c s) (mkOwners (with_tokens c (alter close_ready i (co_tokens c))) s)
  (** the goroutine [<-next.ready; <-next.done; close(next.drained)] *)
| os_drained c s i t :
    co_tokens c !! i = Some t → tk_ready t = true → tk_done t = true → tk_drained t = false →
    owners_step (mkOwners c s) (mkOwners (with_tokens c (alter close_drained i (co_tokens c))) s)
  (** [newOwnedProbeScheduler], once per token *)
| os_start c s i :
    is_Some (co_tokens c !! i) → s !! i = None →
    owners_step (mkOwners c s) (mkOwners c (<[i := Running (mkSched (initial (Some stats)) ∅ [])]> s))
  (** a step of its dispatcher, which hears of [ready] only when that is closed *)
| os_run c s i t y y' :
    co_tokens c !! i = Some t → s !! i = Some (Running y) → sched_step queueSize observer_panics y y' →
    (d_ownerReady (y_d y') = true → d_ownerReady (y_d y) = true ∨ tk_ready t = true) →
    owners_step (mkOwners c s) (mkOwners c (<[i := Running y']> s))
  (** the context is done: closed, or the token revoked *)
| os_stop c s i y :
    s !! i = Some (Running y) →
    owners_step (mkOwners c s) (mkOwners c (<[i := Stopping (y_inflight y)]> s))
  (** a worker returns *)
| os_worker c s i J1 j J2 :
    s !! i = Some (Stopping (J1 ++ j :: J2)) →
    owners_step (mkOwners c s) (mkOwners c (<[i := Stopping (J1 ++ J2)]> s))
  (** [<-scheduler.closed; scheduler.worker.Wait(); ownership.markDone()] *)
| os_done c s i :
    s !! i = Some (Stopping []) →
    owners_step (mkOwners c s) (mkOwners (with_tokens c (alter markDone i (co_tokens c))) s).

Definition new_coordinator : SchedulerCoordinator := mkCoordinator [] 0 0 None None.

Inductive owners_reachable : owners → Prop :=
| or_init : owners_reachable (mkOwners new_coordinator ∅)
| or_step o o' : owners_reachable o → owners_step o o' → owners_reachable o'.

(** *** The invariant *)

(** The token before. *)
Definition before (i : nat) : option nat := match i with O => None | S j => Some j end.

Record tokens_ok (c : SchedulerCoordinator) : Prop := {
  tko_after i t : co_tokens c !! i = Some t → tk_after t = before i;
  tko_drain : co_drain c = before (length (co_tokens c));
  tko_drained i t : co_tokens c !! i = Some t → tk_drained t = true → tk_ready t = true ∧ tk_done t = true;
  tko_ready i t j : co_tokens c !! i = Some t → tk_ready t = true → before i = Some j →
    ∃ u, co_tokens c !! j = Some u ∧ tk_drained u = true;
  tko_first t : co_tokens c !! 0%nat = Some t → tk_ready t = true;
  tko_current i : co_token c = Some i → before (length (co_tokens c)) = Some i ∧
    ∃ t, co_tokens c !! i = Some t ∧ tk_EpochID t = co_owner c ∧ tk_Generation t = co_generation c ∧ co_owner c ≠ 0;
  tko_revoked i t : co_tokens c !! i = Some t → co_token c ≠ Some i → tk_revoked t = true;
  tko_owner : co_token c = None → co_owner c = 0;
}.

Record schedulers_ok (o : owners) : Prop := {
  so_token i a : ow_schedulers o !! i = Some a → is_Some (co_tokens (ow_coordinator o) !! i);
  so_done i t : co_tokens (ow_coordinator o) !! i = Some t → tk_done t = true → ow_schedulers o !! i = Some (Stopping []);
  so_idle i y : ow_schedulers o !! i = Some (Running y) → d_ownerReady (y_d y) = false →
    d_dispatch (y_d y) = None ∧ y_inflight y = [];
  so_ready i y t : ow_schedulers o !! i = Some (Running y) → d_ownerReady (y_d y) = true →
    co_tokens (ow_coordinator o) !! i = Some t → tk_ready t = true;
  so_jobs i a t : ow_schedulers o !! i = Some a → jobs_of a ≠ [] →
    co_tokens (ow_coordinator o) !! i = Some t → tk_ready t = true;
}.

(** A token that is ready has only finished tokens before it. *)
Lemma ready_after_all c i j t u :
  tokens_ok c → co_tokens c !! i = Some t → tk_ready t = true → co_tokens c !! j = Some u → (j < i)%nat →
  tk_ready u = true ∧ tk_done u = true.
Proof.
  intros Hok. revert t. induction i as [|i IH]; intros t Ht Hr Hu Hlt; [lia |].
  destruct (tko_ready _ Hok (S i) t i Ht Hr eq_refl) as (v & Hv & Hd). destruct (tko_drained _ Hok i v Hv Hd) as [Hvr Hvd].
  destruct (decide (j = i)) as [-> | Hne]; [by rewrite Hu in Hv; injection Hv as -> |]. apply (IH v); [done | done | done | lia].
Qed.

(** *** Preservation by the coordinator *)

Lemma alter_Some {A} (f : A → A) (l : list A) i j y :
  alter f i l !! j = Some y ↔ ∃ x, l !! j = Some x ∧ y = if decide (i = j) then f x else x.
Proof.
  rewrite list_lookup_alter. case_decide as E; [subst; rewrite fmap_Some; done |].
  split; [intros H; by exists y | by intros (x & H & ->)].
Qed.

Lemma tokens_ok_alter c f i :
  tokens_ok c →
  (∀ t, tk_EpochID (f t) = tk_EpochID t ∧ tk_Generation (f t) = tk_Generation t ∧ tk_after (f t) = tk_after t ∧
        (tk_revoked t = true → tk_revoked (f t) = true)) →
  (∀ t, co_tokens c !! i = Some t →
     (tk_drained (f t) = true → tk_ready (f t) = true ∧ tk_done (f t) = true) ∧
     (tk_drained t = true → tk_drained (f t) = true) ∧ (tk_ready t = true → tk_ready (f t) = true) ∧
     (tk_ready (f t) = true → ∀ j, before i = Some j → ∃ u, co_tokens c !! j = Some u ∧ tk_drained u = true)) →
  tokens_ok (with_tokens c (alter f i (co_tokens c))).
Proof.
  intros [Ha Hd Hdr Hr Hf Hc Hv Ho] Hsame Hi. split; simpl; rewrite ?length_alter; try done.
  - intros j t (x & Hx & ->)%alter_Some. case_decide; [| by apply Ha].
    destruct (Hsame x) as (_ & _ & -> & _). by apply Ha.
  - intros j t (x & Hx & ->)%alter_Some. case_decide as E; [subst j; by destruct (Hi x Hx) as (? & _) | by apply (Hdr j)].
  - intros j t k (x & Hx & ->)%alter_Some Hrt Hb.
    assert (Hex : ∃ u, co_tokens c !! k = Some u ∧ tk_drained u = true).
    { case_decide as E; [subst j; destruct (Hi x Hx) as (_ & _ & _ & H); by apply H | by apply (Hr j x)]. }
    destruct Hex as (u & Hu & Hdu). exists (if decide (i = k) then f u else u). split; [apply alter_Some; by exists u |].
    destruct (decide (i = k)) as [E |]; [subst k; destruct (Hi u Hu) as (_ & H & _); by apply H | done].
  - intros t (x & Hx & ->)%alter_Some. case_decide as E; [| by apply Hf]. subst i.
    destruct (Hi x Hx) as (_ & _ & H & _). by apply H, Hf.
  - intros j Hj. destruct (Hc j Hj) as (Hb & t & Ht & E1 & E2 & E3). split; [done |].
    exists (if decide (i = j) then f t else t). split; [apply alter_Some; by exists t |].
    case_decide; [| done]. destruct (Hsame t) as (-> & -> & _). done.
  - intros j t (x & Hx & ->)%alter_Some Hn. case_decide; [apply Hsame |]; by apply (Hv j).
Qed.

Lemma revoke_current_ok c :
  tokens_ok c → tokens_ok (with_tokens c (revoke_current c)) ∧
  ∀ i t, revoke_current c !! i = Some t → tk_revoked t = true.
Proof.
  intros Hok. unfold revoke_current. destruct (co_token c) as [k |] eqn:Ek.
  - split.
    + apply tokens_ok_alter; [done | by intros t |]. intros t Ht. split_and!; [exact (tko_drained _ Hok k t Ht) | done | done |].
      intros Hr j Hj. by apply (tko_ready _ Hok k t j).
    + intros i t (x & Hx & ->)%alter_Some. case_decide as E; [done |]. apply (tko_revoked _ Hok i x Hx). rewrite Ek. congruence.
  - split; [by destruct c | intros i t Ht; apply (tko_revoked _ Hok i t Ht)]. by rewrite Ek.
Qed.

Lemma Claim_ok c epochID : tokens_ok c → tokens_ok (Claim c epochID).1.
Proof.
  intros Hok. unfold Claim. destruct (Z.eqb_spec epochID 0) as [| Hne]; [done |].
  case_match; [done |]. cbn [fst]. destruct (revoke_current_ok c Hok) as [[Ha Hd Hdr Hr Hf Hc Hv Ho] Hrev].
  simpl in *. set (l := revoke_current c) in *. clearbody l. split; simpl; rewrite ?length_app; simpl.
  - intros i t [[_ Ht] | [-> <-]]%lookup_snoc_Some; [by apply Ha | by simpl].
  - by rewrite Nat.add_1_r.
  - intros i t [[_ Ht] | [-> <-]]%lookup_snoc_Some; [by apply (Hdr i) | done].
  - intros i t j [[Hlt Ht] | [-> <-]]%lookup_snoc_Some Hrt Hb.
    + destruct (Hr i t j Ht Hrt Hb) as (u & Hu & Hdu). exists u. split; [| done]. by apply lookup_app_l_Some.
    + exfalso. simpl in Hrt. apply bool_decide_eq_true in Hrt. congruence.
  - intros t [[_ Ht] | [E <-]]%lookup_snoc_Some; [by apply Hf |]. simpl. apply bool_decide_eq_true. by rewrite Hd, <- E.
  - intros i [= <-]. rewrite Nat.add_1_r. split; [done |]. eexists. split; [by apply list_lookup_middle |]. done.
  - intros i t [[_ Ht] | [-> <-]]%lookup_snoc_Some Hn; [by apply (Hrev i) | done].
  - done.
Qed.

Lemma Release_ok c epochID generation : tokens_ok c → tokens_ok (Release c epochID generation).
Proof.
  intros Hok. unfold Release. destruct (co_token c) as [k |] eqn:Ek; [| done]. case_match; [| done].
  destruct (revoke_current_ok c Hok) as [[Ha Hd Hdr Hr Hf Hc Hv Ho] Hrev]. split; simpl in *; try done.
  intros i t Ht _. by apply (Hrev i).
Qed.

(** *** Preservation by the schedulers *)

(** The part of a token the schedulers look at. *)
Definition same_flags (t u : SchedulerOwnershipToken) : Prop :=
  (tk_ready u = true → tk_ready t = true) ∧ (tk_done t = true → tk_done u = true).

Lemma schedulers_ok_tokens c c' s :
  schedulers_ok (mkOwners c s) →
  (∀ i, is_Some (co_tokens c !! i) → is_Some (co_tokens c' !! i)) →
  (∀ i t, co_tokens c' !! i = Some t →
     (∃ u, co_tokens c !! i = Some u ∧ same_flags t u) ∨ co_tokens c !! i = None ∧ tk_done t = false) →
  schedulers_ok (mkOwners c' s).
Proof.
  intros [Ht Hd Hi Hr Hj] Hin Hfl. simpl in *. split; simpl; [by intros i a Ha%Ht; apply Hin | | done | |].
  - intros i t Hit Hdt. destruct (Hfl i t Hit) as [(u & Hu & _ & Hdu) | [_ ?]]; [| congruence]. by apply (Hd i u); [| apply Hdu].
  - intros i y t Hs Hy Hit. destruct (Hfl i t Hit) as [(u & Hu & Hru & _) | [Hn _]]; [by apply Hru, (Hr i y) |].
    apply Ht in Hs. rewrite Hn in Hs. by destruct Hs.
  - intros i a t Hs Ha Hit. destruct (Hfl i t Hit) as [(u & Hu & Hru & _) | [Hn _]]; [by apply Hru, (Hj i a) |].
    apply Ht in Hs. rewrite Hn in Hs. by destruct Hs.
Qed.

Lemma schedulers_ok_alter c s f i :
  schedulers_ok (mkOwners c s) →
  (∀ t, co_tokens c !! i = Some t → same_flags (f t) t ∨ (tk_ready (f t) = tk_ready t ∧ s !! i = Some (Stopping []))) →
  schedulers_ok (mkOwners (with_tokens c (alter f i (co_tokens c))) s).
Proof.
  intros Hok Hf. destruct Hok as [Ht Hd Hi Hr Hj]. simpl in *.
  assert (Hrd : ∀ t, co_tokens c !! i = Some t → tk_ready t = true → tk_ready (f t) = true).
  { intros t Hit Hrt. destruct (Hf t Hit) as [[H _] | [-> _]]; [by apply H | done]. }
  split; simpl.
  - intros j a Ha. destruct (Ht j a Ha) as [t Hjt]. eexists. apply alter_Some. by exists t.
  - intros j t (x & Hx & ->)%alter_Some Hdt. case_decide as E; [| by apply (Hd j x)]. subst j.
    destruct (Hf x Hx) as [[_ H] | [_ H]]; [by apply (Hd i x); [| apply H] | done].
  - done.
  - intros j y t Hs Hy (x & Hx & ->)%alter_Some. case_decide as E; [subst j; apply (Hrd x Hx) |]; by eapply Hr.
  - intros j a t Hs Ha (x & Hx & ->)%alter_Some. case_decide as E; [subst j; apply (Hrd x Hx) |]; by eapply Hj.
Qed.

(** A scheduler whose token is not ready has dispatched nothing. *)
Definition idle (y : sched_system) : Prop := d_dispatch (y_d y) = None ∧ y_inflight y = [].

Lemma finish_ready d e r d' : finish observer_panics d e r = Some d' → d_ownerReady d' = d_ownerReady d.
Proof.
  unfold finish, answer. case_decide; [| done]. cbn [mbind option_bind].
  destruct (pt_Observe (sp_task e)); [destruct (observer_panics _ _) |]; by intros [= <-].
Qed.
Lemma finish_all_ready d es r d' : finish_all observer_panics d es r = Some d' → d_ownerReady d' = d_ownerReady d.
Proof.
  revert d. induction es as [|e es IH]; intros d; simpl; [by intros [= ->] |].
  destruct (finish _ d e r) as [d1 |] eqn:E; [| done]. cbn [mbind option_bind].
  intros H. rewrite (IH _ H). by eapply finish_ready.
Qed.

Lemma acceptSubmission_idle d task w d' st :
  acceptSubmission queueSize d task w = Some (d', st) → d_ownerReady d' = d_ownerReady d ∧ d_dispatch d' = d_dispatch d.
Proof. unfold acceptSubmission, deferWaiter, answer. repeat case_match; intros; simplify_option_eq; done. Qed.
Lemma cancelProbeWaiter_idle d key w d' :
  cancelProbeWaiter d key w = Some d' → d_ownerReady d' = d_ownerReady d ∧ d_dispatch d' = d_dispatch d.
Proof. unfold cancelProbeWaiter, answer. repeat case_match; intros; simplify_option_eq; done. Qed.
Lemma removeProbes_idle d removal ps rs d' :
  removeProbes observer_panics d removal ps rs = Some d' → d_ownerReady d' = d_ownerReady d ∧ d_dispatch d' = d_dispatch d.
Proof.
  unfold removeProbes. destruct (finish_all _ _ ps _) as [d1 |] eqn:E1; [| done]. cbn [mbind option_bind].
  destruct (finish_all _ _ rs _) as [d2 |] eqn:E2; [| done]. cbn [mbind option_bind]. intros [= <-]. simpl.
  rewrite (finish_all_ready _ _ _ _ E2). simpl. rewrite (finish_all_ready _ _ _ _ E1).
  apply finish_all_tables in E1 as (_ & _ & _ & E1 & _), E2 as (_ & _ & _ & E2 & _). simpl in *. by rewrite E2, E1.
Qed.
Lemma drop_stale_idle d : d_ownerReady (drop_stale_dispatch d) = d_ownerReady d ∧
  (d_dispatch d = None → d_dispatch (drop_stale_dispatch d) = None).
Proof. unfold drop_stale_dispatch. by repeat case_match. Qed.

Lemma sched_step_idle y y' :
  sched_step queueSize observer_panics y y' → d_ownerReady (y_d y') = false →
  (d_ownerReady (y_d y) = false → idle y) → idle y'.
Proof.
  intros Hstep Hr' Hidle. destruct Hstep as [d I J now order Hord | d I J task w d' status Hn E | d I J key w d' E
    | d I J removal ps rs d' Hps Hrs E | d I J key d' task Hd E | d I J1 J2 key task r now d' E | d I J | d I J];
    unfold idle in *; simpl in *.
  - unfold loop_top in *. destruct (d_dispatch d) eqn:Ed; simpl in *; [by destruct (Hidle Hr') |].
    destruct (d_ownerReady d) eqn:Er; simpl in *; [| by rewrite Ed; apply Hidle].
    exfalso. destruct (nextScheduledProbe _ _ _) as [[? ?] |]; simpl in Hr'; congruence.
  - apply acceptSubmission_idle in E as [E1 E2]. rewrite E2. apply Hidle. congruence.
  - apply cancelProbeWaiter_idle in E as [E1 E2]. destruct (drop_stale_idle d') as [E3 E4]. rewrite E3, E1 in Hr'.
    destruct (Hidle Hr') as [? ?]. split; [apply E4; congruence | done].
  - apply removeProbes_idle in E as [E1 E2]. destruct (drop_stale_idle d') as [E3 E4]. rewrite E3, E1 in Hr'.
    destruct (Hidle Hr') as [? ?]. split; [apply E4; congruence | done].
  - unfold job_taken in E. rewrite Hd in E. simpl in E. destruct (d_pending d !! key); [| done]. simpl in E.
    injection E as <- _. simpl in Hr'. destruct (Hidle Hr') as [? _]. congruence.
  - assert (Er : d_ownerReady d = false).
    { rewrite <- Hr'. symmetry. unfold completion, deferEntry in E. destruct (d_active d !! key); [| by injection E as <-].
      destruct (finish _ _ _ _) as [d1 |] eqn:E1; [| done]. simpl in E. apply finish_ready in E1. simpl in E1. rewrite <- E1.
      case_match; [| by injection E as <-]. case_match; [by injection E as <- |]. by apply finish_ready in E. }
    destruct (Hidle Er) as [_ Hnil]. by destruct J1.
  - done.
  - by apply Hidle.
Qed.

Lemma schedulers_ok_insert c s i a t :
  schedulers_ok (mkOwners c s) → co_tokens c !! i = Some t → (tk_done t = true → a = Stopping []) →
  (∀ y, a = Running y → d_ownerReady (y_d y) = false → idle y) →
  (∀ y, a = Running y → d_ownerReady (y_d y) = true → tk_ready t = true) → (jobs_of a ≠ [] → tk_ready t = true) →
  schedulers_ok (mkOwners c (<[i := a]> s)).
Proof.
  intros [Ht Hd Hi Hr Hj] Hit Hdone Hidle Hready Hjobs. simpl in *. split; simpl.
  - intros j b [[<- <-] | [_ Hb]]%lookup_insert_Some; [by rewrite Hit | by apply (Ht j b)].
  - intros j u Hu Hdu. destruct (decide (i = j)) as [<- | Hne]; [| rewrite lookup_insert_ne by done; by apply (Hd j u)].
    rewrite lookup_insert_eq. rewrite Hit in Hu. injection Hu as <-. by rewrite Hdone.
  - intros j y [[<- E] | [_ Hb]]%lookup_insert_Some Hy; [by apply Hidle | by apply (Hi j)].
  - intros j y u [[<- E] | [_ Hb]]%lookup_insert_Some Hy Hu; [| by apply (Hr j y)].
    rewrite Hit in Hu. injection Hu as <-. by apply (Hready y).
  - intros j b u [[<- E] | [_ Hb]]%lookup_insert_Some Hy Hu; [| by apply (Hj j b)].
    rewrite Hit in Hu. injection Hu as <-. subst b. by apply Hjobs.
Qed.

Definition owners_ok (o : owners) : Prop := tokens_ok (ow_coordinator o) ∧ schedulers_ok o.

Lemma length_revoke c : length (revoke_current c) = length (co_tokens c).
Proof. unfold revoke_current. destruct (co_token c); [apply length_alter | done]. Qed.

Lemma Claim_tokens c epochID i t :
  co_tokens (Claim c epochID).1 !! i = Some t →
  (∃ u, co_tokens c !! i = Some u ∧ same_flags t u) ∨ co_tokens c !! i = None ∧ tk_done t = false.
Proof.
  assert (Hrev : ∀ i t, revoke_current c !! i = Some t → ∃ u, co_tokens c !! i = Some u ∧ same_flags t u).
  { intros j u. unfold revoke_current. case_match; [| intros Hu; by exists u].
    intros (x & Hx & ->)%alter_Some. exists x. split; [done |]. by case_decide. }
  unfold Claim. case_match; [intros H'; left; by exists t |]. case_match; [intros H'; left; by exists t |]. cbn [fst co_tokens].
  intros [[_ Ht%Hrev] | [-> <-]]%lookup_snoc_Some; [by left | right]. split; [| done].
  apply lookup_ge_None. rewrite length_revoke. lia.
Qed.
Lemma Claim_tokens_grow c epochID i : is_Some (co_tokens c !! i) → is_Some (co_tokens (Claim c epochID).1 !! i).
Proof.
  rewrite !lookup_lt_is_Some. unfold Claim. repeat case_match; simpl; try done; rewrite length_app, length_revoke; lia.
Qed.

Lemma owners_step_ok o o' : owners_ok o → owners_step o o' → owners_ok o'.
Proof.
  intros [Hc Hs] Hstep. destruct Hstep as [c s epochID | c s epochID generation | c s i j t u Ht Ha Hr Hu Hd | c s i t Ht Hr Hd Hnd
    | c s i [t Ht] Hn | c s i t y y' Ht Hy Hstep Hready | c s i y Hy | c s i J1 j J2 Hy | c s i Hy]; unfold owners_ok in *; simpl in *.
  - split; [by apply Claim_ok |]. apply (schedulers_ok_tokens c); [done | intros i; apply Claim_tokens_grow | intros i t; apply Claim_tokens].
  - split; [by apply Release_ok |]. unfold Release. destruct (co_token c) as [n |] eqn:En; [| done]. case_match; [| done].
    unfold revoke_current. rewrite En. apply (schedulers_ok_tokens (with_tokens c (alter revokeOwner n (co_tokens c)))).
    + apply (schedulers_ok_alter c s revokeOwner n Hs). by left.
    + done.
    + intros i t Ht. left. by exists t.
  - split.
    + apply tokens_ok_alter; [done | done |]. intros x Hx. rewrite Ht in Hx. injection Hx as <-. split_and!; [| done | done |].
      * intros Hdt. destruct (tko_drained _ Hc i t Ht Hdt) as [? ?]. congruence.
      * intros _ k Hk. rewrite <- (tko_after _ Hc i t Ht), Ha in Hk. injection Hk as <-. by exists u.
    + apply schedulers_ok_alter; [done |]. by left.
  - split.
    + apply tokens_ok_alter; [done | done |]. intros x Hx. rewrite Ht in Hx. injection Hx as <-. split_and!; [done | done | done |].
      intros _ k Hk. by apply (tko_ready _ Hc i t k).
    + apply schedulers_ok_alter; [done |]. by left.
  - split; [done |]. apply (schedulers_ok_insert c s i _ t); [done | done | | by intros y [= <-] | by intros y [= <-] | done].
    intros Hd. pose proof (so_done _ Hs i t Ht Hd). simpl in *. congruence.
  - split; [done |]. apply (schedulers_ok_insert c s i _ t); [done | done | | | |].
    + intros Hd. pose proof (so_done _ Hs i t Ht Hd). simpl in *. congruence.
    + intros z [= <-] Hz. apply (sched_step_idle y y' Hstep Hz). by apply (so_idle _ Hs i).
    + intros z [= <-] Hz. destruct (Hready Hz) as [Hz' | ?]; [by apply (so_ready _ Hs i y t) | done].
    + simpl. intros Hjobs. destruct (d_ownerReady (y_d y')) eqn:Ez.
      * destruct (Hready eq_refl) as [Hz' | ?]; [by apply (so_ready _ Hs i y t) | done].
      * by destruct (sched_step_idle y y' Hstep Ez (so_idle _ Hs i y Hy)).
  - split; [done |]. destruct (so_token _ Hs i _ Hy) as [t Ht]. apply (schedulers_ok_insert c s i _ t); [done | done | | done | done |].
    + intros Hd. pose proof (so_done _ Hs i t Ht Hd). simpl in *. congruence.
    + intros Hjobs. by apply (so_jobs _ Hs i _ t Hy).
  - split; [done |]. destruct (so_token _ Hs i _ Hy) as [t Ht]. apply (schedulers_ok_insert c s i _ t); [done | done | | done | done |].
    + intros Hd. pose proof (so_done _ Hs i t Ht Hd) as Es. simpl in Es. rewrite Hy in Es. by destruct J1.
    + intros _. apply (so_jobs _ Hs i _ t Hy); [| done]. simpl. by destruct J1.
  - split.
    + apply tokens_ok_alter; [done | done |]. intros x Hx. split_and!; [| done | done |].
      * simpl. intros Hd. by destruct (tko_drained _ Hc i x Hx Hd).
      * simpl. intros Hr k Hk. by apply (tko_ready _ Hc i x k).
    + apply schedulers_ok_alter; [done |]. intros x Hx. by right.
Qed.

Lemma owners_reachable_ok o : owners_reachable o → owners_ok o.
Proof.
  induction 1 as [| o o' _ IH Hstep]; [| by eapply owners_step_ok]. split; split; simpl; try done; by intros i t ?%lookup_nil_Some.
Qed.

(** *** What the coordinator promises *)

(** A scheduler with jobs at its workers has a ready token, and the tokens
    before it are done. *)
Lemma jobs_exclude o i j a b :
  owners_ok o → ow_schedulers o !! i = Some a → ow_schedulers o !! j = Some b → jobs_of a ≠ [] → (j < i)%nat → jobs_of b = [].
Proof.
  intros [Hc Hs] Ha Hb Hja Hlt. destruct (so_token _ Hs i a Ha) as [t Ht], (so_token _ Hs j b Hb) as [u Hu].
  destruct (ready_after_all _ i j t u Hc Ht) as [_ Hd]; [by apply (so_jobs _ Hs i a) | done | done |].
  rewrite (so_done _ Hs j u Hu Hd) in Hb. by injection Hb as <-.
Qed.

(** C20. Jobs are at the workers of one scheduler at most: the next owner dispatches
    only after the workers of every owner before it have returned. *)
Theorem one_owner_probes o i j a b :
  owners_reachable o →
  ow_schedulers o !! i = Some a → ow_schedulers o !! j = Some b → jobs_of a ≠ [] → jobs_of b ≠ [] → i = j.
Proof.
  intros Hok%owners_reachable_ok Ha Hb Hja Hjb. destruct (Nat.lt_trichotomy i j) as [Hlt | [? | Hlt]]; [| done |].
  - by rewrite (jobs_exclude o j i b a Hok Hb Ha Hjb Hlt) in Hja.
  - by rewrite (jobs_exclude o i j a b Hok Ha Hb Hja Hlt) in Hjb.
Qed.

(** The claim that was made last owns, until it is released or another is made;
    every other token is revoked.  A release with the epoch or the generation of
    an earlier claim changes nothing. *)
Theorem claim_takes_over o epochID c i :
  owners_reachable o → epochID ≠ 0 → Claim (ow_coordinator o) epochID = (c, ClaimToken i) →
  IsOwner c (Some i) = true ∧
  (∀ j, j ≠ i → IsOwner c (Some j) = false) ∧
  (∀ j t, co_tokens c !! j = Some t → j ≠ i → tk_revoked t = true) ∧
  ∀ e g, (e ≠ co_owner c ∨ g ≠ co_generation c) → Release c e g = c.
Proof.
  intros [Hc _]%owners_reachable_ok Hne E.
  assert (Hok : tokens_ok c) by (pose proof (Claim_ok _ epochID Hc) as H; by rewrite E in H).
  assert (Hcur : co_token c = Some i ∧ co_owner c = epochID).
  { revert E. unfold Claim. destruct (Z.eqb_spec epochID 0); [done |].
    destruct (Z.eqb_spec (co_owner (ow_coordinator o)) epochID) as [Eo | Eo].
    - destruct (co_token (ow_coordinator o)) eqn:Ec; intros [= <- <-]; done.
    - intros [= <- <-]. done. }
  destruct Hcur as [Hcur Hown]. destruct (tko_current _ Hok i Hcur) as (_ & t & Ht & E1 & E2 & _). split_and!.
  - unfold IsOwner. rewrite bool_decide_true by done. rewrite Ht, E1, E2. simpl. by rewrite !Z.eqb_refl.
  - intros j Hj. unfold IsOwner. rewrite bool_decide_false by congruence. done.
  - intros j u Hu Hj. apply (tko_revoked _ Hok j u Hu). congruence.
  - intros e g Heg. unfold Release. rewrite Hcur. destruct (Z.eqb_spec (co_owner c) e), (Z.eqb_spec (co_generation c) g); simpl; try done.
    destruct Heg; congruence.
Qed.

(** When the manager is told that a coordinator is idle, no job of it is left at
    any worker, and all its tokens are done. *)
Theorem cleanup_is_idle o drain :
  owners_reachable o → cleanupState (Some (ow_coordinator o)) = (drain, true) →
  (∀ i a, ow_schedulers o !! i = Some a → a = Stopping []) ∧
  (∀ i t, co_tokens (ow_coordinator o) !! i = Some t → tk_done t = true).
Proof.
  intros [Hc Hs]%owners_reachable_ok. set (c := ow_coordinator o) in *. unfold cleanupState.
  destruct (negb (co_owner c =? 0) || bool_decide (co_token c ≠ None)); [done |].
  assert (Hall : (∀ i t, co_tokens c !! i = Some t → tk_done t = true) →
            (∀ i a, ow_schedulers o !! i = Some a → a = Stopping []) ∧ (∀ i t, co_tokens c !! i = Some t → tk_done t = true)).
  { intros Hd. split; [| done]. intros i a Ha. destruct (so_token _ Hs i a Ha) as [t Ht].
    pose proof (so_done _ Hs i t Ht (Hd i t Ht)). congruence. }
  rewrite (tko_drain _ Hc). destruct (length (co_tokens c)) as [|n] eqn:El; simpl.
  - intros _. apply Hall. intros i t Ht%lookup_lt_Some. lia.
  - intros [= _ Hd]. destruct (co_tokens c !! n) as [u |] eqn:Hu; [| done]. simpl in Hd. apply Hall. intros i t Ht.
    destruct (tko_drained _ Hc n u Hu Hd) as [Hr Hdn]. pose proof (lookup_lt_Some _ _ _ Ht).
    destruct (decide (i = n)) as [-> | Hne]; [congruence |]. by destruct (ready_after_all c n i u t Hc Hu Hr Ht ltac:(lia)).
Qed.

(** A claim is never stuck: while its token is not ready, an earlier scheduler has
    still to finish, or a goroutine can move. *)
Theorem claim_progress o i t :
  owners_reachable o → co_tokens (ow_coordinator o) !! i = Some t → tk_ready t = false →
  (∃ j u, (j < i)%nat ∧ co_tokens (ow_coordinator o) !! j = Some u ∧ tk_ready u = true ∧ tk_done u = false) ∨
  ∃ j u, (j ≤ i)%nat ∧ co_tokens (ow_coordinator o) !! j = Some u ∧
    ((tk_ready u = true ∧ tk_done u = true ∧ tk_drained u = false ∧
      owners_step o (mkOwners (with_tokens (ow_coordinator o) (alter close_drained j (co_tokens (ow_coordinator o)))) (ow_schedulers o))) ∨
     (tk_ready u = false ∧
      owners_step o (mkOwners (with_tokens (ow_coordinator o) (alter close_ready j (co_tokens (ow_coordinator o)))) (ow_schedulers o)))).
Proof.
  intros [Hc _]%owners_reachable_ok. destruct o as [c s]. simpl in *. revert t. induction i as [|i IH]; intros t Ht Hr.
  { by rewrite (tko_first _ Hc t Ht) in Hr. }
  destruct (lookup_lt_is_Some_2 (co_tokens c) i) as [u Hu]; [apply lookup_lt_Some in Ht; lia |].
  destruct (tk_ready u) eqn:Hru.
  - destruct (tk_done u) eqn:Hdu; [| left; exists i, u; split_and!; [lia | done..]].
    right. destruct (tk_drained u) eqn:Hdru.
    + exists (S i), t. split_and!; [done | done |]. right. split; [done |].
      apply (os_ready c s (S i) i t u); [done | by rewrite (tko_after _ Hc _ _ Ht) | done..].
    + exists i, u. split_and!; [lia | done |]. left. split_and!; [done.. |]. by apply (os_drained c s i u).
  - destruct (IH u Hu Hru) as [(j & v & ? & ?) | (j & v & ? & ?)]; [left | right]; exists j, v; split; (lia || done).
Qed.
End owners.

(** ** A handover

    Epoch 1 claims, starts, runs one probe; epoch 2 claims while the probe runs. *)

Definition handover_c1 : SchedulerCoordinator := (Claim new_coordinator 1).1.
Definition handover_c2 : SchedulerCoordinator := (Claim handover_c1 2).1.
Definition fresh_system : sched_system := mkSched (initial (Some zero_stats)) ∅ [].

Definition handover_y1 : sched_system := mkSched (set_ready (initial (Some zero_stats)) true) ∅ [].
Definition handover_d2 : dispatcher := default (y_d handover_y1) (fst <$> acceptSubmission 4 (y_d handover_y1) (example_task 1 "a" 1) 1).
Definition handover_d3 : dispatcher := loop_top handover_d2 0 [example_task 1 "a" 1].
Definition handover_d4 : dispatcher := default handover_d3 (fst <$> job_taken handover_d3).
Definition handover_y4 : sched_system :=
  mkSched handover_d4 ({[1]} ∪ ∅) [(pt_Key (example_task 1 "a" 1), example_task 1 "a" 1)].

Definition handover_o : owners :=
  mkOwners handover_c2 (<[1%nat := Running fresh_system]> (<[0%nat := Running handover_y4]>
    (<[0%nat := Running (mkSched handover_d3 ({[1]} ∪ ∅) [])]> (<[0%nat := Running (mkSched handover_d2 ({[1]} ∪ ∅) [])]>
      (<[0%nat := Running handover_y1]> (<[0%nat := Running fresh_system]> ∅)))))).

Lemma handover_reachable : owners_reachable 4 quiet zero_stats handover_o.
Proof.
  eapply or_step; [eapply or_step; [eapply or_step; [eapply or_step; [eapply or_step; [eapply or_step; [eapply or_step;
    [eapply or_step; [apply or_init |] |] |] |] |] |] |] |].
  - apply (os_claim _ _ _ new_coordinator ∅ 1).
  - apply (os_start _ _ _ handover_c1 ∅ 0); [by eexists | done].
  - eapply (os_run _ _ _ handover_c1 _ 0 _ _ handover_y1); [reflexivity | apply lookup_insert_eq | apply ss_ready | by right].
  - eapply (os_run _ _ _ handover_c1 _ 0 _ _ (mkSched handover_d2 ({[1]} ∪ ∅) [])); [reflexivity | apply lookup_insert_eq | | by left].
    apply (ss_submit 4 quiet _ ∅ [] (example_task 1 "a" 1) 1 handover_d2 ProbeAccepted); [set_solver | vm_compute; reflexivity].
  - eapply (os_run _ _ _ handover_c1 _ 0 _ _ (mkSched handover_d3 ({[1]} ∪ ∅) [])); [reflexivity | apply lookup_insert_eq | | by left].
    apply (ss_top 4 quiet _ _ [] 0 [example_task 1 "a" 1]). vm_compute. reflexivity.
  - eapply (os_run _ _ _ handover_c1 _ 0 _ _ handover_y4); [reflexivity | apply lookup_insert_eq | | by left].
    apply (ss_job 4 quiet _ _ [] (pt_Key (example_task 1 "a" 1)) handover_d4 (example_task 1 "a" 1)); vm_compute; reflexivity.
  - apply (os_claim _ _ _ handover_c1 _ 2).
  - apply (os_start _ _ _ handover_c2 _ 1); [by eexists | done].
Qed.

Lemma one_owner_probes_witness :
  owners_reachable 4 quiet zero_stats handover_o ∧ ow_schedulers handover_o !! 0%nat = Some (Running handover_y4) ∧
  ∀ j b, ow_schedulers handover_o !! j = Some b → jobs_of b ≠ [] → j = 0%nat.
Proof.
  split; [exact handover_reachable |]. split; [reflexivity |]. intros j b Hb Hj.
  exact (one_owner_probes 4 quiet zero_stats handover_o j 0 b (Running handover_y4) handover_reachable Hb eq_refl Hj
           ltac:(discriminate)).
Defined.

Lemma claim_takes_over_witness :
  IsOwner (Claim (ow_coordinator handover_o) 3).1 (Some 2%nat) = true ∧ Release (Claim (ow_coordinator handover_o) 3).1 1 1 = (Claim (ow_coordinator handover_o) 3).1.
Proof.
  destruct (claim_takes_over 4 quiet zero_stats handover_o 3 (Claim (ow_coordinator handover_o) 3).1 2 handover_reachable
              ltac:(lia) eq_refl) as (H1 & _ & _ & H2).
  split; [exact H1 | apply H2; left; vm_compute; lia].
Defined.

Lemma cleanup_is_idle_witness :
  cleanupState (Some new_coordinator) = (None, true) ∧ ∀ i a, ow_schedulers (mkOwners new_coordinator ∅) !! i = Some a → a = Stopping [].
Proof.
  split; [reflexivity |].
  exact (proj1 (cleanup_is_idle 4 quiet zero_stats (mkOwners new_coordinator ∅) None (or_init 4 quiet zero_stats) eq_refl)).
Defined.

Lemma claim_progress_witness :
  ∃ j u, (j < 1)%nat ∧ co_tokens (ow_coordinator handover_o) !! j = Some u ∧ tk_ready u = true ∧ tk_done u = false.
Proof.
  destruct (claim_progress 4 quiet zero_stats handover_o 1 (mkToken 2 2 false false false false (Some 0%nat)) handover_reachable
              eq_refl eq_refl) as [H | (j & u & Hj & Hu & _)]; [exact H |].
  exists 0%nat, (mkToken 1 1 true false true false None). split_and!; [lia | reflexivity | reflexivity | reflexivity].
Defined.
