(* ===== verification/AdaptivePolicy.v ===== *)
(** * The policy engine of the adaptive pool

    [protocol/group/adaptive/policy.go] with the candidates and snapshots of
    [catalog_port.go]: which nodes a dial may try, in which order, and the memory
    that keeps a service on the node it uses.

    The engine asks the health store through the class [HealthView]; the ledger of
    [AdaptiveHealth] is its instance.  Delays are divided by weights and compared
    with a margin in binary64, which is the arithmetic of [SpecFloat].  The engine
    is the one of the default build, which has no policy kernel; a plan is made
    against one state of the store at one time. *)

From S2P Require Import Prelude Float64 AdaptiveLease AdaptiveHealth AdaptiveCapability.
From stdpp Require Import base gmap list strings numbers fin_sets fin_maps sorting.
From Stdlib Require Import ZArith Lia SpecFloat.

Local Open Scope Z_scope.

(** ** Candidates and snapshots *)

Record Candidate : Type := mkCandidate {
  ca_ID : NodeID;
  ca_EndpointID : NodeID;
  ca_EndpointConflictCount : Z;
  ca_Handle : NodeHandle;
  ca_PrimaryTag : string;
  ca_Aliases : list string;
  ca_Sources : list string;
  ca_Transport : list string;
  ca_IdentityStable : bool;
}.

#[global] Instance NodeHandle_dec : EqDecision NodeHandle.
Proof. unfold NodeID in *. solve_decision. Defined.
#[global] Instance Candidate_eq_dec : EqDecision Candidate.
Proof. unfold NodeID in *. solve_decision. Defined.

Record ExecutionSnapshot : Type := mkSnapshot {
  sn_RuntimeEpochID : Z;
  sn_CatalogRevision : Z;
  sn_Generation : Z;
  sn_Candidates : list Candidate;
  sn_ByID : gmap Z Z;
}.

Definition snapshot_Candidate (s : ExecutionSnapshot) (id : NodeID) : option Candidate :=
  index ← sn_ByID s !! (id : Z);
  if (index <? 0) || (Z.of_nat (length (sn_Candidates s)) <=? index) then None
  else sn_Candidates s !! Z.to_nat index.

(** ** Modes, reasons and plans *)

Inductive PolicyMode : Type :=
| ModeNone | ModeStrictAffinity | ModeAdaptive | ModeLatency | ModeBulk | ModeManual | ModeOther (s : string).
Inductive DecisionReason : Type :=
| ReasonManualPin | ReasonLease | ReasonRanked | ReasonFallback | ReasonStrictNew | ReasonBulkSpread
| ReasonBulkThroughput | ReasonWarmingFallback | ReasonStickyMargin | ReasonSwitchCooldown.

#[global] Instance PolicyMode_eq_dec : EqDecision PolicyMode.
Proof. solve_decision. Defined.
#[global] Instance DecisionReason_eq_dec : EqDecision DecisionReason.
Proof. solve_decision. Defined.

(** The service of a dial: what the health store looks at, and the fields the
    engine adds. *)
Record policy_service : Type := mkPolicyService {
  ps_context : ServiceContext;
  ps_AffinityID : string;
  ps_Session : SessionKey;
  ps_Mode : PolicyMode;
}.
Definition ps_ID (s : policy_service) : string := sc_ID (ps_context s).

Record DecisionPlan : Type := mkPlan {
  dp_RuntimeEpochID : Z;
  dp_CatalogRevision : Z;
  dp_Generation : Z;
  dp_Mode : PolicyMode;
  dp_Reason : DecisionReason;
  dp_Candidates : list Candidate;
  dp_service : policy_service;
  dp_allowBlocked : bool;
  dp_disableHedge : bool;
}.

Definition ErrNoCandidates : string := "adaptive pool has no leaf candidates".
Definition ErrNoEligibleCandidates : string := "adaptive pool has no eligible candidates".

(** ** Margins and weights *)

(** [0.15]. *)
Definition defaultSwitchMargin : spec_float := S754_finite false 5404319552844595 (-55).

Definition significantlyFaster (challenger incumbent : Z) (margin : spec_float) : bool :=
  if incumbent <=? 0 then true
  else if challenger <=? 0 then false
  else if SFleb margin (S754_zero false) then challenger <? incumbent
  else SFleb (sf_of_Z challenger) (sf_mul (sf_of_Z incumbent) (sf_sub sf_one margin)).

Definition weightedDelay (delay : Z) (weight : spec_float) : Z :=
  let weight := if SFleb weight (S754_zero false) then sf_one else weight in
  sf_trunc (sf_div (sf_of_Z delay) weight).

(** ** What the engine asks of the health store *)

(** [StatusHandle]; the number of throughput samples of a service with their
    average; and [CanAttemptHandleReadOnly] at the store's clock. *)
Class HealthView (H : Type) : Type := {
  hv_status : H → NodeHandle → FailureDomain → string → string → HealthStatus;
  hv_throughput : H → NodeHandle → string → Z * spec_float;
  hv_can_attempt : H → NodeHandle → ServiceContext → bool;
}.

(** The ledger at a time, with the order a scan of its map takes and the
    throughput of the services. *)
Record store_view : Type := mkView {
  sv_store : HealthStore;
  sv_clock : Z;
  sv_order : list (healthKey * healthRecord);
  sv_throughput : gmap healthKey (Z * spec_float);
}.
#[global] Instance store_HealthView : HealthView store_view := {
  hv_status v h d transport service := StatusHandle (sv_store v) h d transport service (sv_order v);
  hv_throughput v h service := default (0, S754_zero false) (sv_throughput v !! key_of h DomainService "" service);
  hv_can_attempt v h service := CanAttemptHandleReadOnly (sv_store v) h service time_zero (sv_clock v) (sv_order v);
}.

(** ** Scores *)

Definition healthPriority (state : HealthState) : Z :=
  match state with HealthHealthy => 0 | HealthUnknown => 1 | HealthDegraded => 2 | HealthUnreachable => 4 | HealthNone => 3 end.

Definition familyHasEvidence (st : HealthStatus) : bool :=
  (0 <? st_Successes st) || (0 <? st_Failures st) || (0 <? st_NonBreakerSuccesses st) || (0 <? st_NonBreakerFailures st) ||
  (0 <? st_DelaySamples st) || bool_decide (st_Health st = HealthDegraded) || bool_decide (st_Health st = HealthUnreachable) ||
  (negb (bool_decide (st_Breaker st = BreakerClosed)) && negb (bool_decide (st_Breaker st = BreakerNone))).

Definition familyUsableForScore (st : HealthStatus) : bool :=
  if bool_decide (st_Breaker st = BreakerOpen) || bool_decide (st_Breaker st = BreakerCooldown) then false
  else negb (bool_decide (st_Health st = HealthUnreachable)).

Definition preferStatusDelay (left right : HealthStatus) : bool :=
  let ld := RankingDelay left in let rd := RankingDelay right in
  if ld =? 0 then false else if rd =? 0 then true else ld <=? rd.

(** Runes that [strings.TrimSpace] removes, as UTF-8. *)
Definition white_space : list (list Z) :=
  [[9]; [10]; [11]; [12]; [13]; [32]; [194; 133]; [194; 160]; [225; 154; 128]; [226; 128; 168]; [226; 128; 169];
   [226; 128; 175]; [226; 129; 159]; [227; 128; 128]] ++ ((λ i, [226; 128; 128 + i]) <$> seqZ 0 11).
Definition bytes_of (s : string) : list Z := (λ a, Z.of_N (Ascii.N_of_ascii a)) <$> String.list_ascii_of_string s.

Definition strip (p l : list Z) : option (list Z) := if decide (take (length p) l = p) then Some (drop (length p) l) else None.
Definition strip_any (ps : list (list Z)) (l : list Z) : option (list Z) :=
  foldr (λ p r, match strip p l with Some l' => Some l' | None => r end) None ps.
Fixpoint trim_left (ps : list (list Z)) (fuel : nat) (l : list Z) : list Z :=
  match fuel with
  | O => l
  | S fuel => match strip_any ps l with Some l' => trim_left ps fuel l' | None => l end
  end.
Definition TrimSpace (l : list Z) : list Z :=
  let l := trim_left white_space (length l) l in
  reverse (trim_left (reverse <$> white_space) (length l) (reverse l)).

(** What follows the last [" ("]. *)
Fixpoint after_last_open (l : list Z) : option (list Z) :=
  match l with
  | [] => None
  | x :: l' =>
      match after_last_open l' with
      | Some r => Some r
      | None => match l' with
                | y :: l'' => if (x =? 32) && (y =? 40) then Some l'' else None
                | [] => None
                end
      end
  end.

Definition isProviderReplicaTag (tag : string) : bool :=
  match after_last_open (TrimSpace (bytes_of tag)) with
  | None => false
  | Some rest =>
      match list.last rest with
      | Some 41 =>
          let num := take (length rest - 1) rest in
          if bool_decide (num = []) || bool_decide (num = [49]) then false
          else forallb (λ r, (48 <=? r) && (r <=? 57)) num
      | _ => false
      end
  end.

(** ** The engine *)

Record stickyPreference : Type := mkSticky { sk_handle : NodeHandle; sk_until : Z; sk_updatedAt : Z }.

(** [affinityMode], [manualFailure]: the strings that are compared with. *)
Record PolicyEngine : Type := mkEngine {
  pe_maxAttempts : Z;
  pe_manualFailure : string;
  pe_bulkSequence : Z;
  pe_nodeWeights : option (string → spec_float);
  pe_switchMargin : spec_float;
  pe_switchCooldown : Z;
  pe_affinityMode : string;
  pe_sticky : gmap string stickyPreference;
}.

Definition hour : Z := 60 * minute.
Definition defaultSwitchCooldown : Z := 2 * minute.
Definition earlySwitchWindow : Z := 20 * second.
Definition maxStickyEntries : nat := 4096.

Definition NewPolicyEngine (maxAttempts : Z) (manualFailure : string) : PolicyEngine :=
  mkEngine (if maxAttempts <=? 0 then 3 else maxAttempts) (if (manualFailure =? "")%string then "fallback" else manualFailure)
    0 None defaultSwitchMargin defaultSwitchCooldown "" ∅.

Definition with_sticky (e : PolicyEngine) (sticky : gmap string stickyPreference) : PolicyEngine :=
  mkEngine (pe_maxAttempts e) (pe_manualFailure e) (pe_bulkSequence e) (pe_nodeWeights e) (pe_switchMargin e)
    (pe_switchCooldown e) (pe_affinityMode e) sticky.
Definition with_sequence (e : PolicyEngine) (sequence : Z) : PolicyEngine :=
  mkEngine (pe_maxAttempts e) (pe_manualFailure e) sequence (pe_nodeWeights e) (pe_switchMargin e)
    (pe_switchCooldown e) (pe_affinityMode e) (pe_sticky e).

Definition BindAffinityMode (e : PolicyEngine) (mode : string) : PolicyEngine :=
  mkEngine (pe_maxAttempts e) (pe_manualFailure e) (pe_bulkSequence e) (pe_nodeWeights e) (pe_switchMargin e)
    (pe_switchCooldown e) (if (mode =? "disabled")%string then "disabled" else "service") (pe_sticky e).
(** [0.5] is [S754_finite false (2 ^ 52) (-53)]. *)
Definition sf_half : spec_float := S754_finite false 4503599627370496 (-53).
Definition BindSwitchStability (e : PolicyEngine) (margin : spec_float) (cooldown : Z) : PolicyEngine :=
  let margin := if SFltb margin (S754_zero false) then defaultSwitchMargin else margin in
  let margin := if SFltb sf_half margin then sf_half else margin in
  mkEngine (pe_maxAttempts e) (pe_manualFailure e) (pe_bulkSequence e) (pe_nodeWeights e) margin
    (if cooldown <? 0 then 0 else cooldown) (pe_affinityMode e) (pe_sticky e).
Definition policy_Clear (e : PolicyEngine) : PolicyEngine := with_sticky e ∅.
Definition importStickyFrom (e src : PolicyEngine) : PolicyEngine := with_sticky e (pe_sticky src ∪ pe_sticky e).

Definition hex_digit (d : Z) : Ascii.ascii := Ascii.ascii_of_N (Z.to_N (if d <? 10 then 48 + d else 87 + d)).
(** [SessionKey.String]: the first eight of sixteen bytes. *)
Definition session_String (key : SessionKey) : string :=
  String.string_of_list_ascii ((λ i, hex_digit (Z.land (Z.shiftr key (124 - 4 * i)) 15)) <$> seqZ 0 16).

Definition stickyKey (e : PolicyEngine) (service : policy_service) : string :=
  if (pe_affinityMode e =? "disabled")%string then ""
  else
    let base := if (ps_AffinityID service =? "")%string then ps_ID service else ps_AffinityID service in
    if (ps_Session service : Z) =? 0 then base
    else session_String (ps_Session service) +:+ String.String Ascii.zero base.

(** An entry that [pruneStickyLocked] drops for its age. *)
Definition sticky_stale (now : Z) (p : stickyPreference) : bool :=
  if time_is_zero (sk_until p) then 24 * hour <? time_sub now (sk_updatedAt p)
  else time_after now (sk_until p + 24 * hour).

Section engine.
(** [N.NetworkName] of the networking library, and the order in which a loop
    visits the preferences. *)
Variable NetworkName : string → string.
Variable visit : gmap string stickyPreference → list (string * stickyPreference).
Context {H : Type} `{HealthView H}.
Implicit Types (e : PolicyEngine) (h : H) (service : policy_service) (c : Candidate).

(** The oldest preference, the first visited among equals; the empty key is the
    mark of none in the code. *)
Fixpoint oldest_sticky (l : list (string * stickyPreference)) (best : string * Z) : string * Z :=
  match l with
  | [] => best
  | (key, p) :: l =>
      oldest_sticky l (if (best.1 =? "")%string || time_before (sk_updatedAt p) best.2 then (key, sk_updatedAt p) else best)
  end.
Fixpoint prune_oldest (fuel : nat) (sticky : gmap string stickyPreference) : gmap string stickyPreference :=
  match fuel with
  | O => sticky
  | S fuel =>
      if (maxStickyEntries <? size sticky)%nat
      then prune_oldest fuel (delete (oldest_sticky (visit sticky) (""%string, 0)).1 sticky)
      else sticky
  end.
Definition pruneStickyLocked (now : Z) (sticky : gmap string stickyPreference) : gmap string stickyPreference :=
  let sticky := filter (λ kv, sticky_stale now kv.2 = false) sticky in
  prune_oldest (size sticky) sticky.

Definition RememberSelection e (key : string) (handle : NodeHandle) (now clock : Z) : PolicyEngine :=
  if (key =? "")%string || ((nh_NodeID handle : Z) =? 0) || (pe_affinityMode e =? "disabled")%string then e
  else
    let now := if time_is_zero now then clock else now in
    let previous := pe_sticky e !! key in
    let until :=
      if match previous with Some p => negb (bool_decide (sk_handle p = handle)) | None => true end
      then (if 0 <? pe_switchCooldown e then now + pe_switchCooldown e else time_zero)
      else default time_zero (sk_until <$> previous) in
    let sticky := <[key := mkSticky handle until now]> (pe_sticky e) in
    with_sticky e (if (maxStickyEntries <? size sticky)%nat then pruneStickyLocked now sticky else sticky).

Definition ForgetSelectionAfterEarlyFailure e service (handle : NodeHandle) (now clock : Z) : PolicyEngine * bool :=
  if (nh_NodeID handle : Z) =? 0 then (e, false)
  else
    let now := if time_is_zero now then clock else now in
    let key := stickyKey e service in
    match pe_sticky e !! key with
    | Some p =>
        let age := time_sub now (sk_updatedAt p) in
        if negb (bool_decide (sk_handle p = handle)) || (age <? 0) || (earlySwitchWindow <? age) then (e, false)
        else (with_sticky e (delete key (pe_sticky e)), true)
    | None => (e, false)
    end.

Definition stickyPreferred e (key : string) (now : Z) : PolicyEngine * option stickyPreference :=
  if (key =? "")%string then (e, None)
  else
    match pe_sticky e !! key with
    | Some p =>
        if (nh_NodeID (sk_handle p) : Z) =? 0 then (e, None)
        else if negb (time_is_zero (sk_until p)) && time_after now (sk_until p + 24 * hour)
        then (with_sticky e (delete key (pe_sticky e)), None)
        else (e, Some p)
    | None => (e, None)
    end.

(** *** Scores *)

Definition candidateSupports c (transport : string) : bool :=
  existsb (λ network, (NetworkName network =? NetworkName transport)%string) (ca_Transport c).
Definition candidateBlocked h c service : bool := negb (hv_can_attempt h (ca_Handle c) (ps_context service)).

Definition transportScoreStatus h (handle : NodeHandle) service : string * HealthStatus :=
  let path := serviceHealthTransport (ps_context service) in
  let normalized := normalizeHealthTransportPath path in
  let normalized := if (normalized =? "")%string then path else normalized in
  match dualStackFamilyPaths normalized with
  | None => (normalized, hv_status h handle DomainTransport normalized "")
  | Some (familyA, familyB) =>
      let a := hv_status h handle DomainTransport familyA "" in
      let b := hv_status h handle DomainTransport familyB "" in
      let agg := hv_status h handle DomainTransport normalized "" in
      match familyUsableForScore a, familyUsableForScore b with
      | true, true =>
          if negb (familyHasEvidence a) && negb (familyHasEvidence b) && familyHasEvidence agg then (normalized, agg)
          else if preferStatusDelay a b then (familyA, a) else (familyB, b)
      | true, false => if negb (familyHasEvidence a) && familyHasEvidence agg then (normalized, agg) else (familyA, a)
      | false, true => if negb (familyHasEvidence b) && familyHasEvidence agg then (normalized, agg) else (familyB, b)
      | false, false => (normalized, agg)
      end
  end.

Record CandidateScoreExplanation : Type := mkScore {
  cs_HealthPriority : Z;
  cs_ObservedDelay : Z;
  cs_SmoothedDelay : Z;
  cs_WeightedDelay : Z;
  cs_SelectionScore : Z;
  cs_DominantEvidence : string;
  cs_ManualWeight : spec_float;
}.

(** [worsenDelay] on the ranking and the smoothed delay. *)
Definition worsenDelay (st : HealthStatus) (d : Z * Z) : Z * Z :=
  let '(delay, smoothed) := d in
  let r := RankingDelay st in
  (if (0 <? r) && ((delay =? 0) || (delay <? r)) then r else delay,
   if (0 <? st_SmoothedDelay st) && ((smoothed =? 0) || (smoothed <? st_SmoothedDelay st)) then st_SmoothedDelay st else smoothed).

Definition candidateScore e h c service : CandidateScoreExplanation :=
  let endpoint := hv_status h (ca_Handle c) DomainEndpoint "" "" in
  let '(transportName, transport) := transportScoreStatus h (ca_Handle c) service in
  let has_service := negb (ps_ID service =? "")%string in
  let serviceStatus := if has_service then hv_status h (ca_Handle c) DomainService "" (ps_ID service) else zero_status in
  let '(priority, dominant) := (healthPriority (st_Health endpoint), "endpoint"%string) in
  let '(priority, dominant) :=
    if priority <? healthPriority (st_Health transport) then (healthPriority (st_Health transport), transportName)
    else (priority, dominant) in
  let '(priority, dominant) :=
    if has_service && (priority <? healthPriority (st_Health serviceStatus))
    then (healthPriority (st_Health serviceStatus), ("service:" +:+ ps_ID service)%string) else (priority, dominant) in
  let d := worsenDelay endpoint (RankingDelay transport, st_SmoothedDelay transport) in
  let '(delay, smoothed) := if has_service then worsenDelay serviceStatus d else d in
  let delay := if delay =? 0 then 10 * second else delay in
  let smoothed := if smoothed =? 0 then delay else smoothed in
  let weight := match pe_nodeWeights e with Some w => w (ca_PrimaryTag c) | None => sf_one end in
  let weighted := weightedDelay smoothed weight in
  let weighted :=
    if isProviderReplicaTag (ca_PrimaryTag c) then i64 (weighted + 8 * second)
    else if 1 <? ca_EndpointConflictCount c then i64 (weighted + 2 * second) else weighted in
  let score := u64 (priority * 1000000000000) in
  let score := if 0 <? weighted then u64 (score + Z.quot weighted 1000) else score in
  mkScore priority delay smoothed weighted score dominant weight.

(** *** Plans *)

Definition moveCandidateFirst (l : list Candidate) (index : nat) : list Candidate :=
  match index with
  | O => l
  | _ => match l !! index with Some c => c :: take index l ++ drop (S index) l | None => l end
  end.
Definition limitCandidates (l : list Candidate) (limit : Z) : list Candidate :=
  if limit <? Z.of_nat (length l) then take (Z.to_nat limit) l else l.
(** The offset is a count, below [2^63]. *)
Definition rotateCandidates (l : list Candidate) (offset : Z) : list Candidate :=
  if (length l <? 2)%nat then l
  else
    let offset := Z.to_nat (Z.rem offset (Z.of_nat (length l))) in
    match offset with O => l | _ => drop offset l ++ take offset l end.

(** The comparison given to [sort.SliceStable]. *)
Definition candidate_less e h service (mode : PolicyMode) (l r : Candidate) : bool :=
  let left := candidateScore e h l service in
  let right := candidateScore e h r service in
  if negb (cs_HealthPriority left =? cs_HealthPriority right) then cs_HealthPriority left <? cs_HealthPriority right
  else
    let rest :=
      if negb (cs_WeightedDelay left =? cs_WeightedDelay right) then cs_WeightedDelay left <? cs_WeightedDelay right
      else (ca_ID l : Z) <? (ca_ID r : Z) in
    if bool_decide (mode = ModeBulk) then
      let '(ln, lb) := hv_throughput h (ca_Handle l) (ps_ID service) in
      let '(rn, rb) := hv_throughput h (ca_Handle r) (ps_ID service) in
      let leftKnown := 2 <=? ln in
      let rightKnown := 2 <=? rn in
      if negb (Bool.eqb leftKnown rightKnown) then leftKnown
      else if leftKnown && negb (SFeqb lb rb) then SFltb rb lb
      else rest
    else rest.

(** A stable sort: by insertion, behind no equal one. *)
Fixpoint insert_candidate (less : Candidate → Candidate → bool) c (l : list Candidate) : list Candidate :=
  match l with
  | [] => [c]
  | x :: l' => if less x c then x :: insert_candidate less c l' else c :: l
  end.
Definition sort_candidates (less : Candidate → Candidate → bool) (l : list Candidate) : list Candidate :=
  foldr (insert_candidate less) [] l.

(** The handle of a session lease. *)
Definition lease_names (lease : SessionLease) c : bool :=
  ((ca_ID c : Z) =? (sl_NodeID lease : Z)) && (nh_Slot (ca_Handle c) =? sl_NodeSlot lease)
  && (nh_Version (ca_Handle c) =? sl_NodeVersion lease).
Definition find_index (p : Candidate → bool) (l : list Candidate) : option nat := fst <$> list_find (λ c, p c = true) l.

Definition incumbent_of (p : stickyPreference) c : bool :=
  bool_decide (ca_Handle c = sk_handle p)
  || (((ca_ID c : Z) =? (nh_NodeID (sk_handle p) : Z)) && (nh_Slot (ca_Handle c) =? nh_Slot (sk_handle p))
      && (nh_Version (ca_Handle c) =? nh_Version (sk_handle p))).

Definition applyStickyStability e h (eligible : list Candidate) service (now : Z) :
    PolicyEngine * list Candidate * option DecisionReason :=
  let '(e, pref) := stickyPreferred e (stickyKey e service) now in
  match pref with
  | None => (e, eligible, None)
  | Some pref =>
      match find_index (incumbent_of pref) eligible, eligible with
      | Some ((S _) as index), challenger :: _ =>
          match eligible !! index with
          | None => (e, eligible, None)
          | Some incumbent =>
              let cs := candidateScore e h challenger service in
              let ic := candidateScore e h incumbent service in
              if cs_HealthPriority cs <? cs_HealthPriority ic then (e, eligible, None)
              else if (0 <? pe_switchCooldown e) && negb (time_is_zero (sk_until pref)) && negb (time_after now (sk_until pref))
              then (e, moveCandidateFirst eligible index, Some ReasonSwitchCooldown)
              else if cs_HealthPriority ic <? cs_HealthPriority cs
              then (e, moveCandidateFirst eligible index, Some ReasonStickyMargin)
              else if negb (significantlyFaster (cs_WeightedDelay cs) (cs_WeightedDelay ic) (pe_switchMargin e))
              then (e, moveCandidateFirst eligible index, Some ReasonStickyMargin)
              else (e, eligible, None)
          end
      | _, _ => (e, eligible, None)
      end
  end.

Definition hasTrustedBulkThroughput h (l : list Candidate) (serviceID : string) : bool :=
  existsb (λ c, 2 <=? (hv_throughput h (ca_Handle c) serviceID).1) l.

Definition plan (snapshot : ExecutionSnapshot) (mode : PolicyMode) (reason : DecisionReason) service (l : list Candidate) : DecisionPlan :=
  mkPlan (sn_RuntimeEpochID snapshot) (sn_CatalogRevision snapshot) (sn_Generation snapshot) mode reason l service false false.

Definition plan_mode service : PolicyMode := match ps_Mode service with ModeNone => ModeAdaptive | m => m end.

Definition supported_of (snapshot : ExecutionSnapshot) service : list Candidate :=
  filter (λ c, candidateSupports c (sc_Transport (ps_context service)) = true) (sn_Candidates snapshot).
Definition eligible_of h (snapshot : ExecutionSnapshot) service : list Candidate :=
  filter (λ c, candidateBlocked h c service = false) (supported_of snapshot service).

(** The pinned node: a plan or an error, or nothing and the rest goes on. *)
Definition plan_pinned e h (snapshot : ExecutionSnapshot) service (pinned : NodeID) : option (string + DecisionPlan) :=
  let closed := if (pe_manualFailure e =? "fail_closed")%string then Some (inl ErrNoEligibleCandidates) else None in
  match snapshot_Candidate snapshot pinned with
  | Some c =>
      if candidateSupports c (sc_Transport (ps_context service)) then
        if candidateBlocked h c service then closed
        else Some (inr (plan snapshot ModeManual ReasonManualPin service [c]))
      else closed
  | None => closed
  end.

(** The candidates by rank, with the bulk sequence of this plan. *)
Definition plan_ranked e h (snapshot : ExecutionSnapshot) service (lease : option SessionLease) (pinned : option NodeID)
    (eligible : list Candidate) (now : Z) : PolicyEngine * (string + DecisionPlan) :=
  let mode := plan_mode service in
  let e := if bool_decide (mode = ModeBulk) then with_sequence e (u64 (pe_bulkSequence e + 1)) else e in
  let sequence := if bool_decide (mode = ModeBulk) then pe_bulkSequence e else 0 in
  let eligible := sort_candidates (candidate_less e h service mode) eligible in
  let reason := match pinned with Some _ => ReasonFallback | None => ReasonRanked end in
  let '(e, eligible, reason) :=
    if bool_decide (mode = ModeAdaptive) || bool_decide (mode = ModeStrictAffinity) then
      let '(e, eligible, sticky) := applyStickyStability e h eligible service now in (e, eligible, default reason sticky)
    else (e, eligible, reason) in
  let limited := limitCandidates eligible (pe_maxAttempts e) in
  let leased := if bool_decide (mode = ModeStrictAffinity) then
                  lease ← lease; index ← find_index (lease_names lease) eligible; eligible !! index else None in
  match leased with
  | Some c => (e, inr (plan snapshot mode ReasonLease service [c]))
  | None =>
      match mode with
      | ModeStrictAffinity =>
          (e, inr (plan snapshot mode (if bool_decide (reason = ReasonRanked) then ReasonStrictNew else reason) service limited))
      | ModeBulk =>
          if hasTrustedBulkThroughput h eligible (ps_ID service) then
            if negb (sequence mod 5 =? 0) then (e, inr (plan snapshot mode ReasonBulkThroughput service limited))
            else (e, inr (plan snapshot mode ReasonBulkSpread service
                            (limitCandidates (rotateCandidates eligible (sequence / 5)) (pe_maxAttempts e))))
          else (e, inr (plan snapshot mode ReasonBulkSpread service
                          (limitCandidates (rotateCandidates eligible (sequence - 1)) (pe_maxAttempts e))))
      | ModeAdaptive | ModeLatency => (e, inr (plan snapshot mode reason service limited))
      | _ => (e, inl "adaptive policy mode is invalid"%string)
      end
  end.

Definition Plan e h (snapshot : option ExecutionSnapshot) service (lease : option SessionLease) (pinned : option NodeID) (now : Z) :
    PolicyEngine * (string + DecisionPlan) :=
  match snapshot with
  | None => (e, inl ErrNoCandidates)
  | Some snapshot =>
      let supported := supported_of snapshot service in
      let eligible := eligible_of h snapshot service in
      match pinned ≫= plan_pinned e h snapshot service with
      | Some result => (e, result)
      | None =>
          let mode := plan_mode service in
          match eligible with
          | [] =>
              match supported, mode with
              | _ :: _, (ModeAdaptive | ModeLatency | ModeBulk) =>
                  let p := plan snapshot mode ReasonWarmingFallback service (limitCandidates supported 1) in
                  (e, inr (mkPlan (dp_RuntimeEpochID p) (dp_CatalogRevision p) (dp_Generation p) mode ReasonWarmingFallback
                             (dp_Candidates p) service true true))
              | _, _ => (e, inl ErrNoEligibleCandidates)
              end
          | _ =>
              let leased := if bool_decide (mode = ModeAdaptive) then lease ← lease; find_index (lease_names lease) eligible else None in
              match leased with
              | Some index =>
                  (e, inr (plan snapshot mode ReasonLease service
                             (limitCandidates (moveCandidateFirst eligible index) (pe_maxAttempts e))))
              | None => plan_ranked e h snapshot service lease pinned eligible now
              end
          end
      end
  end.

(** ** What the list operations keep *)

Lemma insert_candidate_perm less c l : insert_candidate less c l ≡ₚ c :: l.
Proof.
  induction l as [|x l IH]; simpl; [done |]. destruct (less x c); [| done]. rewrite IH. apply Permutation_swap.
Qed.
Lemma sort_candidates_perm less l : sort_candidates less l ≡ₚ l.
Proof. induction l as [|c l IH]; simpl; [done |]. by rewrite insert_candidate_perm, IH. Qed.

Lemma moveCandidateFirst_perm l index : moveCandidateFirst l index ≡ₚ l.
Proof.
  unfold moveCandidateFirst. destruct index as [|index]; [done |]. destruct (l !! S index) as [c |] eqn:E; [| done].
  rewrite <- (take_drop_middle l (S index) c E) at 3. apply Permutation_middle.
Qed.
Lemma moveCandidateFirst_head l index c : l !! index = Some c → head (moveCandidateFirst l index) = Some c.
Proof. intros E. unfold moveCandidateFirst. destruct index as [|index]; [by destruct l | by rewrite E]. Qed.

Lemma rotateCandidates_perm l offset : rotateCandidates l offset ≡ₚ l.
Proof.
  unfold rotateCandidates. case_match; [done |]. case_match eqn:E; [done |]. rewrite <- E, Permutation_app_comm. by rewrite take_drop.
Qed.

Lemma limitCandidates_spec l limit :
  0 < limit → limitCandidates l limit ⊆+ l ∧ Z.of_nat (length (limitCandidates l limit)) ≤ limit ∧
  head (limitCandidates l limit) = head l.
Proof.
  intros Hl. unfold limitCandidates. destruct (Z.ltb_spec limit (Z.of_nat (length l))); [| by split_and!].
  split_and!.
  - apply sublist_submseteq, sublist_take.
  - rewrite length_take. lia.
  - destruct l; [by rewrite take_nil |]. destruct (Z.to_nat limit) eqn:E; [lia | done].
Qed.

Lemma stickyPreferred_engine e key now e' pref :
  stickyPreferred e key now = (e', pref) → ∃ sticky, e' = with_sticky e sticky.
Proof. unfold stickyPreferred. intros E. repeat case_match; simplify_eq; (by eexists) || (exists (pe_sticky e'); by destruct e'). Qed.

Lemma applyStickyStability_spec e h l service now e' l' reason :
  applyStickyStability e h l service now = (e', l', reason) → l' ≡ₚ l ∧ pe_maxAttempts e' = pe_maxAttempts e.
Proof.
  unfold applyStickyStability. destruct (stickyPreferred e _ now) as [e1 pref] eqn:Es.
  apply stickyPreferred_engine in Es as [sticky ->]. intros E.
  repeat case_match; simplify_eq; (split; [by rewrite ?moveCandidateFirst_perm | done]).
Qed.

Lemma find_index_Some p l index : find_index p l = Some index → ∃ c, l !! index = Some c ∧ p c = true.
Proof.
  unfold find_index. intros ([i c] & E & ->)%fmap_Some. apply list_find_Some in E as (? & ? & _). by exists c.
Qed.
Lemma find_index_is_Some p l c : c ∈ l → p c = true → is_Some (find_index p l).
Proof.
  intros Hin Hp. unfold find_index. rewrite fmap_is_Some. by eapply list_find_elem_of.
Qed.

(** ** Plans are sound *)

(** The candidates a plan may hold: no more than the attempts, each of them
    eligible, none twice; or, when all are blocked, one of them and no hedge. *)
Record plan_ok e h (s : ExecutionSnapshot) service (p : DecisionPlan) : Prop := {
  po_nonempty : dp_Candidates p ≠ [];
  po_bound : Z.of_nat (length (dp_Candidates p)) ≤ pe_maxAttempts e;
  po_eligible : dp_allowBlocked p = false → dp_Candidates p ⊆+ eligible_of h s service;
  po_blocked : dp_allowBlocked p = true →
    eligible_of h s service = [] ∧ dp_disableHedge p = true ∧
    ∃ c, dp_Candidates p = [c] ∧ c ∈ supported_of s service;
  po_epoch : dp_RuntimeEpochID p = sn_RuntimeEpochID s ∧ dp_CatalogRevision p = sn_CatalogRevision s ∧
    dp_Generation p = sn_Generation s;
}.

Lemma plan_ok_list e h s service mode reason l eligible :
  0 < pe_maxAttempts e → eligible ⊆+ eligible_of h s service → eligible ≠ [] → l ≡ₚ eligible →
  plan_ok e h s service (plan s mode reason service (limitCandidates l (pe_maxAttempts e))).
Proof.
  intros Hm Hsub Hne Hl. destruct (limitCandidates_spec l (pe_maxAttempts e) Hm) as (H1 & H2 & H3).
  split; simpl; [| done | | done | done].
  - intros E. rewrite E in H3. destruct l; [| done]. apply Hne. symmetry. by apply Permutation_nil_l.
  - intros _. etrans; [exact H1 |]. by rewrite Hl.
Qed.
Lemma plan_ok_one e h s service mode reason c :
  0 < pe_maxAttempts e → c ∈ eligible_of h s service → plan_ok e h s service (plan s mode reason service [c]).
Proof.
  intros Hm Hc. split; simpl; [done | lia | | done | done]. intros _. by apply singleton_submseteq_l.
Qed.

Lemma plan_pinned_ok e h s service pinned p :
  0 < pe_maxAttempts e → plan_pinned e h s service pinned = Some (inr p) → plan_ok e h s service p.
Proof.
  intros Hm. unfold plan_pinned. destruct (snapshot_Candidate s pinned) as [c |] eqn:Ec; [| by case_match].
  destruct (candidateSupports c _) eqn:Es; [| by case_match].
  destruct (candidateBlocked h c service) eqn:Eb; [by case_match |]. intros [= <-].
  apply plan_ok_one; [done |]. apply list_elem_of_filter. split; [done |]. apply list_elem_of_filter. split; [done |].
  unfold snapshot_Candidate in Ec. destruct (sn_ByID s !! _); [| done]. simpl in Ec. case_match; [done |].
  by eapply list_elem_of_lookup_2.
Qed.

Lemma plan_ranked_ok e h s service lease pinned now e' p :
  0 < pe_maxAttempts e → eligible_of h s service ≠ [] →
  plan_ranked e h s service lease pinned (eligible_of h s service) now = (e', inr p) → plan_ok e h s service p.
Proof.
  intros Hm Hne. unfold plan_ranked. set (mode := plan_mode service).
  set (e1 := if bool_decide (mode = ModeBulk) then with_sequence e (u64 (pe_bulkSequence e + 1)) else e).
  assert (Em : pe_maxAttempts e1 = pe_maxAttempts e) by (subst e1; by case_bool_decide).
  set (sorted := sort_candidates _ _).
  assert (Hs : sorted ≡ₚ eligible_of h s service) by apply sort_candidates_perm.
  destruct (if bool_decide (mode = ModeAdaptive) || bool_decide (mode = ModeStrictAffinity) then _ else _) as [[e2 l] reason] eqn:E2.
  assert (Hl : l ≡ₚ eligible_of h s service ∧ pe_maxAttempts e2 = pe_maxAttempts e).
  { destruct (bool_decide (mode = ModeAdaptive) || _); [| by injection E2 as <- <- _].
    destruct (applyStickyStability e1 h sorted service now) as [[e3 l3] r3] eqn:E3. injection E2 as <- <- _.
    apply applyStickyStability_spec in E3 as [E3 E4]. split; [by rewrite E3 | congruence]. }
  destruct Hl as [Hl Hm2]. clear E2. rewrite Hm2.
  destruct (if bool_decide (mode = ModeStrictAffinity) then _ else None) as [c |] eqn:Ec.
  - intros [= <- <-]. apply plan_ok_one; [done |]. rewrite <- Hl.
    destruct (bool_decide (mode = ModeStrictAffinity)); [| done]. destruct lease as [lease |]; [| done]. simpl in Ec.
    destruct (find_index _ l); [| done]. simpl in Ec. by eapply list_elem_of_lookup_2.
  - assert (Hok : ∀ r l', l' ≡ₚ l → plan_ok e h s service (plan s mode r service (limitCandidates l' (pe_maxAttempts e)))).
    { intros r l' Hl'. apply (plan_ok_list e h s service mode r l' (eligible_of h s service)); [done | done | done | by rewrite Hl', Hl]. }
    destruct mode; try done; repeat case_match; intros [= <- <-]; apply Hok; by rewrite ?rotateCandidates_perm.
Qed.

(** C15. A plan holds at least one and at most [maxAttempts] nodes of the snapshot that
    support the transport and are not blocked, none twice.  Only when every
    supporting node is blocked does it hold a blocked one: a single one, without
    hedging. *)
Theorem Plan_sound e h s service lease pinned now e' p :
  0 < pe_maxAttempts e → Plan e h (Some s) service lease pinned now = (e', inr p) → plan_ok e h s service p.
Proof.
  intros Hm. unfold Plan. destruct (pinned ≫= plan_pinned e h s service) as [res |] eqn:Ep.
  { intros [= <- ->]. destruct pinned as [id |]; [| done]. by eapply plan_pinned_ok. }
  destruct (eligible_of h s service) as [|c0 l0] eqn:El.
  - destruct (supported_of s service) as [|c1 l1] eqn:Es; [done |].
    assert (Hp : ∀ mode, plan_ok e h s service (mkPlan (sn_RuntimeEpochID s) (sn_CatalogRevision s) (sn_Generation s) mode
              ReasonWarmingFallback (limitCandidates (c1 :: l1) 1) service true true)).
    { intros mode. assert (E : limitCandidates (c1 :: l1) 1 = [c1]) by (unfold limitCandidates; destruct l1; [done |]; by rewrite (proj2 (Z.ltb_lt _ _)) by (simpl; lia)).
      rewrite E. split; simpl; [done | lia | done | | done]. intros _. split_and!; [done | done |]. exists c1. split; [done |].
      rewrite Es. left. }
    destruct (plan_mode service); try done; intros [= <- <-]; apply Hp.
  - destruct (if bool_decide (plan_mode service = ModeAdaptive) then _ else None) as [index |] eqn:Ei.
    + intros [= <- <-]. apply (plan_ok_list e h s service _ _ _ (c0 :: l0)); [done | by rewrite El | done | apply moveCandidateFirst_perm].
    + rewrite <- El. apply plan_ranked_ok; [done | by rewrite El].
Qed.

(** ** Plans are found *)

Definition fan_out_mode (m : PolicyMode) : bool := match m with ModeAdaptive | ModeLatency | ModeBulk => true | _ => false end.

Lemma plan_ranked_total e h s service lease pinned l now :
  fan_out_mode (plan_mode service) = true ∨ plan_mode service = ModeStrictAffinity →
  ∃ e' p, plan_ranked e h s service lease pinned l now = (e', inr p).
Proof.
  intros Hmode. unfold plan_ranked. destruct (if bool_decide (plan_mode service = ModeAdaptive) || _ then _ else _) as [[e2 l2] reason].
  destruct (if bool_decide (plan_mode service = ModeStrictAffinity) then _ else None) as [c |]; [by do 2 eexists |].
  destruct (plan_mode service); try by destruct Hmode as [Hmode | Hmode].
  all: repeat case_match; by do 2 eexists.
Qed.

(** Unless a pinned node is to fail closed, a dial is offered a node whenever one
    supports its transport, blocked or not; under strict affinity whenever one is
    not blocked. *)
Theorem Plan_serves e h s service lease pinned now :
  pinned = None ∨ pe_manualFailure e ≠ "fail_closed" →
  (fan_out_mode (plan_mode service) = true ∧ supported_of s service ≠ []) ∨
  (plan_mode service = ModeStrictAffinity ∧ eligible_of h s service ≠ []) →
  ∃ e' p, Plan e h (Some s) service lease pinned now = (e', inr p).
Proof.
  intros Hpin Hmode. unfold Plan.
  assert (Hp : ∀ res, pinned ≫= plan_pinned e h s service = Some res → ∃ p, res = inr p).
  { intros res. destruct pinned as [id |]; [| done]. simpl. destruct Hpin as [? | Hpin]; [done |]. unfold plan_pinned.
    apply String.eqb_neq in Hpin. rewrite Hpin. repeat case_match; try done. intros [= <-]. by eexists. }
  destruct (pinned ≫= _) as [res |]; [destruct (Hp res eq_refl) as [p ->]; by do 2 eexists |].
  destruct (eligible_of h s service) as [|c l] eqn:El.
  - destruct Hmode as [[Hm Hs] | [_ ?]]; [| done]. destruct (supported_of s service); [done |].
    destruct (plan_mode service); try done; by do 2 eexists.
  - destruct (if bool_decide (plan_mode service = ModeAdaptive) then _ else None); [by do 2 eexists |].
    apply plan_ranked_total. destruct Hmode as [[? _] | [? _]]; auto.
Qed.

(** ** The lease comes first *)

Lemma find_index_perm p l l' c :
  l ≡ₚ l' → c ∈ l' → p c = true → ∃ index c', find_index p l = Some index ∧ l !! index = Some c' ∧ p c' = true.
Proof.
  intros Hl Hin Hp. rewrite <- Hl in Hin. destruct (find_index_is_Some p l c Hin Hp) as [index Hi].
  destruct (find_index_Some p l index Hi) as (c' & ? & ?). by exists index, c'.
Qed.

(** A session whose lease names an eligible node is planned on that node first;
    under strict affinity on that node alone. *)
Theorem Plan_keeps_lease e h s service lease c now :
  0 < pe_maxAttempts e → plan_mode service = ModeAdaptive ∨ plan_mode service = ModeStrictAffinity →
  c ∈ eligible_of h s service → lease_names lease c = true →
  ∃ e' p c', Plan e h (Some s) service (Some lease) None now = (e', inr p) ∧
    dp_Reason p = ReasonLease ∧ head (dp_Candidates p) = Some c' ∧ lease_names lease c' = true ∧
    (plan_mode service = ModeStrictAffinity → dp_Candidates p = [c']).
Proof.
  intros Hm Hmode Hc Hlease. unfold Plan. simpl.
  destruct (eligible_of h s service) as [|c0 l0] eqn:El; [by apply not_elem_of_nil in Hc |].
  destruct Hmode as [Hmode | Hmode].
  - rewrite bool_decide_true by done.
    destruct (find_index_perm (lease_names lease) (c0 :: l0) (c0 :: l0) c) as (index & c' & Ei & Ec & Hn); [done.. |].
    simpl. rewrite Ei. do 2 eexists. exists c'. split_and!; [done | done | | done | congruence].
    simpl. destruct (limitCandidates_spec (moveCandidateFirst (c0 :: l0) index) (pe_maxAttempts e) Hm) as (_ & _ & ->).
    by apply moveCandidateFirst_head.
  - rewrite bool_decide_false by congruence. unfold plan_ranked. rewrite Hmode.
    rewrite (bool_decide_false (ModeStrictAffinity = ModeBulk)), (bool_decide_false (ModeStrictAffinity = ModeAdaptive)),
      (bool_decide_true (ModeStrictAffinity = ModeStrictAffinity)) by done. cbn [orb mbind option_bind].
    set (sorted := sort_candidates _ (c0 :: l0)).
    assert (Hs : sorted ≡ₚ c0 :: l0) by apply sort_candidates_perm.
    destruct (applyStickyStability e h sorted service now) as [[e2 l2] r2] eqn:E2.
    apply applyStickyStability_spec in E2 as [E2 _].
    destruct (find_index_perm (lease_names lease) l2 (c0 :: l0) c) as (index & c' & Ei & Ec & Hn); [by rewrite E2 | done | done |].
    rewrite Ei. simpl. rewrite Ec. do 2 eexists. exists c'. split_and!; done.
Qed.

(** ** The rank *)

(** The order of the candidates outside bulk mode: health, weighted delay, identity. *)
Definition rank_lt e h service (l r : Candidate) : Prop :=
  cs_HealthPriority (candidateScore e h l service) < cs_HealthPriority (candidateScore e h r service) ∨
  cs_HealthPriority (candidateScore e h l service) = cs_HealthPriority (candidateScore e h r service) ∧
  (cs_WeightedDelay (candidateScore e h l service) < cs_WeightedDelay (candidateScore e h r service) ∨
   cs_WeightedDelay (candidateScore e h l service) = cs_WeightedDelay (candidateScore e h r service) ∧
   ((ca_ID l : Z) < ca_ID r ∨ (ca_ID l : Z) = ca_ID r ∧ False)).

Lemma rank_lt_weak e h service : weak_order (rank_lt e h service).
Proof.
  apply (weak_lex (λ c, cs_HealthPriority (candidateScore e h c service))), (weak_lex (λ c, cs_WeightedDelay (candidateScore e h c service))),
    (weak_lex (ca_ID : Candidate → Z)), weak_none; apply Z_total.
Qed.

Lemma candidate_less_spec e h service mode l r :
  mode ≠ ModeBulk → candidate_less e h service mode l r = true ↔ rank_lt e h service l r.
Proof.
  intros Hm. unfold candidate_less, rank_lt. rewrite (bool_decide_false _ Hm).
  destruct (Z.eqb_spec (cs_HealthPriority (candidateScore e h l service)) (cs_HealthPriority (candidateScore e h r service)));
    destruct (Z.eqb_spec (cs_WeightedDelay (candidateScore e h l service)) (cs_WeightedDelay (candidateScore e h r service)));
    simpl; rewrite Z.ltb_lt; lia.
Qed.

(** The first of a sorted list has nothing before it. *)
Lemma sort_candidates_head e h service mode l c :
  mode ≠ ModeBulk → head (sort_candidates (candidate_less e h service mode) l) = Some c →
  c ∈ l ∧ ∀ x, x ∈ l → ¬ rank_lt e h service x c.
Proof.
  intros Hm. revert c. induction l as [|y l IH]; intros c; [done |]. cbn [sort_candidates foldr].
  fold (sort_candidates (candidate_less e h service mode) l).
  destruct (sort_candidates (candidate_less e h service mode) l) as [|z l'] eqn:Es; simpl.
  - intros [= <-]. assert (l = []) as -> by (symmetry; apply Permutation_nil_l; rewrite <- Es; apply sort_candidates_perm).
    split; [left |]. intros x ->%list_elem_of_singleton. apply (wk_irrefl _ (rank_lt_weak e h service)).
  - destruct (IH z eq_refl) as [Hz Hmin]. destruct (candidate_less e h service mode z y) eqn:E; simpl; intros [= <-].
    + apply candidate_less_spec in E; [| done]. split; [by right |]. intros x [-> | Hx]%elem_of_cons; [| by apply Hmin].
      intros Hlt. by apply (wk_irrefl _ (rank_lt_weak e h service) y), (wk_trans _ (rank_lt_weak e h service) y z).
    + assert (Hn : ¬ rank_lt e h service z y) by (rewrite <- (candidate_less_spec e h service mode z y Hm); by rewrite E).
      split; [left |]. intros x [-> | Hx]%elem_of_cons; [apply (wk_irrefl _ (rank_lt_weak e h service)) |]. intros Hlt.
      destruct (wk_neg _ (rank_lt_weak e h service) x z y Hlt); [by apply (Hmin x) | done].
Qed.

(** No eligible node ranks before [c]. *)
Definition best_ranked e h s service c : Prop :=
  c ∈ eligible_of h s service ∧ ∀ x, x ∈ eligible_of h s service → ¬ rank_lt e h service x c.

(** The ranked plan of the modes without sequence and lease. *)
Lemma Plan_ranked e h s service now :
  eligible_of h s service ≠ [] →
  Plan e h (Some s) service None None now = plan_ranked e h s service None None (eligible_of h s service) now.
Proof.
  intros Hne. unfold Plan. cbn [mbind option_bind]. destruct (eligible_of h s service) as [|c l] eqn:E; [done |].
  by destruct (bool_decide (plan_mode service = ModeAdaptive)).
Qed.

(** In latency mode the first attempt goes to a node that no eligible one beats
    on health, then weighted delay, then identity. *)
Theorem Plan_best_first e h s service now :
  0 < pe_maxAttempts e → plan_mode service = ModeLatency → eligible_of h s service ≠ [] →
  ∃ e' p c, Plan e h (Some s) service None None now = (e', inr p) ∧ head (dp_Candidates p) = Some c ∧
    best_ranked e h s service c.
Proof.
  intros Hm Hmode Hne. rewrite Plan_ranked by done. unfold plan_ranked. rewrite Hmode. cbn.
  set (sorted := sort_candidates _ _). do 2 eexists.
  destruct (head sorted) as [c |] eqn:Eh.
  - exists c. split_and!; [done | |].
    + simpl. by destruct (limitCandidates_spec sorted (pe_maxAttempts e) Hm) as (_ & _ & ->).
    + by apply (sort_candidates_head e h service ModeLatency).
  - exfalso. assert (Hs : sorted ≡ₚ eligible_of h s service) by apply sort_candidates_perm. clearbody sorted.
    destruct sorted; [| done]. apply Hne. symmetry. by apply Permutation_nil_l.
Qed.

(** The preference the engine remembers for a service, when it still counts. *)
Definition remembered e service (now : Z) (pref : stickyPreference) : Prop :=
  stickyKey e service ≠ ""%string ∧ pe_sticky e !! stickyKey e service = Some pref ∧ (nh_NodeID (sk_handle pref) : Z) ≠ 0 ∧
  (sk_until pref = time_zero ∨ now ≤ sk_until pref + 24 * hour).
Definition cooling e (now : Z) (pref : stickyPreference) : Prop :=
  0 < pe_switchCooldown e ∧ sk_until pref ≠ time_zero ∧ now ≤ sk_until pref.

Lemma stickyPreferred_remembered e service now pref :
  remembered e service now pref → stickyPreferred e (stickyKey e service) now = (e, Some pref).
Proof.
  intros (Hk & Hs & Hn & Hu). unfold stickyPreferred. apply String.eqb_neq in Hk. rewrite Hk, Hs.
  destruct (Z.eqb_spec (nh_NodeID (sk_handle pref) : Z) 0) as [| _]; [done |].
  unfold time_is_zero, time_after. destruct Hu as [-> | Hu]; [done |].
  rewrite (bool_decide_false (sk_until pref + 24 * hour < now)) by lia. by rewrite andb_false_r.
Qed.

(** What a switch away from the remembered node takes. *)
Definition may_switch e h service now pref (incumbent c : Candidate) : Prop :=
  let ic := candidateScore e h incumbent service in
  let cs := candidateScore e h c service in
  cs_HealthPriority cs < cs_HealthPriority ic ∨
  (¬ cooling e now pref ∧ cs_HealthPriority cs = cs_HealthPriority ic ∧
   significantlyFaster (cs_WeightedDelay cs) (cs_WeightedDelay ic) (pe_switchMargin e) = true).

Lemma applyStickyStability_head e h l service now pref i e' l' reason c :
  remembered e service now pref → i ∈ l → incumbent_of pref i = true → (∀ x, x ∈ l → incumbent_of pref x = true → x = i) →
  applyStickyStability e h l service now = (e', l', reason) → head l' = Some c →
  c = i ∨ (head l = Some c ∧ may_switch e h service now pref i c).
Proof.
  intros Hrem Hi Hinc Huniq. unfold applyStickyStability. rewrite (stickyPreferred_remembered _ _ _ _ Hrem).
  destruct (find_index_is_Some _ _ _ Hi Hinc) as [index Hidx]. rewrite Hidx.
  destruct (find_index_Some _ _ _ Hidx) as (i' & Ei & Hi').
  assert (i' = i) as -> by (apply Huniq; [by eapply list_elem_of_lookup_2 | done]).
  destruct l as [|ch l]; [by apply not_elem_of_nil in Hi |]. destruct index as [|index].
  { intros [= <- <- <-] [= <-]. left. by injection Ei. }
  rewrite Ei. assert (Hmove : head (moveCandidateFirst (ch :: l) (S index)) = Some i) by by apply moveCandidateFirst_head.
  set (moved := moveCandidateFirst (ch :: l) (S index)) in *. clearbody moved.
  unfold may_switch, cooling, time_is_zero, time_after.
  destruct (Z.ltb_spec (cs_HealthPriority (candidateScore e h ch service)) (cs_HealthPriority (candidateScore e h i service))) as [Hlt | Hge].
  { intros [= <- <- <-] [= <-]. by right; auto. }
  destruct (Z.ltb_spec 0 (pe_switchCooldown e)); cbn [andb].
  1: destruct (bool_decide_reflect (sk_until pref = time_zero)); cbn [negb andb].
  2: destruct (bool_decide_reflect (sk_until pref < now)); cbn [negb andb].
  all: try (intros [= <- <- <-]; rewrite Hmove; intros [= <-]; by left).
  all: destruct (Z.ltb_spec (cs_HealthPriority (candidateScore e h i service)) (cs_HealthPriority (candidateScore e h ch service)));
    [intros [= <- <- <-]; rewrite Hmove; intros [= <-]; by left |].
  all: destruct (significantlyFaster _ _ _) eqn:Ef; cbn [negb]; intros [= <- <- <-];
    [intros [= <-]; right; split; [done |]; right; split_and!; [lia || tauto | lia | done] | rewrite Hmove; intros [= <-]; by left].
Qed.

(** The first node of an adaptive plan, when a preference counts. *)
Lemma plan_first_sticky e h s service now pref i e' p c :
  0 < pe_maxAttempts e → plan_mode service = ModeAdaptive → remembered e service now pref →
  i ∈ eligible_of h s service → incumbent_of pref i = true →
  (∀ x, x ∈ eligible_of h s service → incumbent_of pref x = true → x = i) →
  Plan e h (Some s) service None None now = (e', inr p) → head (dp_Candidates p) = Some c →
  c = i ∨ (best_ranked e h s service c ∧ may_switch e h service now pref i c).
Proof.
  intros Hm Hmode Hrem Hi Hinc Huniq.
  assert (Hne : eligible_of h s service ≠ []) by (intros E; rewrite E in Hi; by apply not_elem_of_nil in Hi).
  rewrite Plan_ranked by done. unfold plan_ranked. rewrite Hmode.
  rewrite (bool_decide_false (ModeAdaptive = ModeBulk)), (bool_decide_true (ModeAdaptive = ModeAdaptive)),
    (bool_decide_false (ModeAdaptive = ModeStrictAffinity)) by done. cbn [orb].
  set (sorted := sort_candidates _ _). assert (Hs : sorted ≡ₚ eligible_of h s service) by apply sort_candidates_perm.
  destruct (applyStickyStability e h sorted service now) as [[e2 l2] r2] eqn:E2. intros [= <- <-].
  pose proof (applyStickyStability_spec _ _ _ _ _ _ _ _ E2) as [_ Em]. simpl. rewrite Em.
  destruct (limitCandidates_spec l2 (pe_maxAttempts e) Hm) as (_ & _ & ->). intros Hh.
  destruct (applyStickyStability_head e h sorted service now pref i e2 l2 r2 c) as [? | [Hhd Hsw]];
    [done | by rewrite Hs | done | intros x; rewrite Hs; apply Huniq | done | done | by left |].
  right. split; [| done]. by apply (sort_candidates_head e h service ModeAdaptive).
Qed.

(** A service stays on the node it used, while that node is eligible, unless the
    best-ranked node is healthier, or, once the cooldown is over, as healthy and
    faster by the margin. *)
Theorem Plan_hysteresis e h s service now pref i e' p c :
  0 < pe_maxAttempts e → plan_mode service = ModeAdaptive → remembered e service now pref →
  i ∈ eligible_of h s service → incumbent_of pref i = true →
  (∀ x, x ∈ eligible_of h s service → incumbent_of pref x = true → x = i) →
  Plan e h (Some s) service None None now = (e', inr p) → head (dp_Candidates p) = Some c →
  c = i ∨ (best_ranked e h s service c ∧ may_switch e h service now pref i c).
Proof. apply plan_first_sticky. Qed.

(** ** The memory of selections *)

Hypothesis visit_perm : ∀ m, visit m ≡ₚ map_to_list m.

Definition sticky_ok (m : gmap string stickyPreference) : Prop := (size m ≤ maxStickyEntries)%nat ∧ m !! ""%string = None.

(** The oldest preference is one of the map. *)
Lemma oldest_sticky_elem l best :
  (∀ k p, (k, p) ∈ l → k ≠ ""%string) → l ≠ [] ∨ best.1 ≠ ""%string →
  (∃ p, ((oldest_sticky l best).1, p) ∈ l) ∨ ((oldest_sticky l best).1 = best.1 ∧ best.1 ≠ ""%string).
Proof.
  revert best. induction l as [|[k p] l IH]; intros best Hk Hne; simpl; [right; by destruct Hne |].
  match goal with |- context [oldest_sticky l ?b] => set (best' := b) end.
  assert (Hb : best' = (k, sk_updatedAt p) ∨ best' = best ∧ best.1 ≠ ""%string).
  { subst best'. destruct (String.eqb_spec best.1 ""); simpl; [by left |]. destruct (time_before _ _); [by left | by right]. }
  assert (Hb1 : best'.1 ≠ ""%string) by (destruct Hb as [-> | [-> ?]]; [apply (Hk k p); left | done]).
  destruct (IH best') as [[q Hq] | [Eq _]]; [intros k' p' ?; apply (Hk k' p'); by right | by right | left; exists q; by right |].
  rewrite Eq. destruct Hb as [-> | [-> ?]]; [left; exists p; left | by right].
Qed.

Lemma prune_oldest_ok fuel m :
  m !! ""%string = None → (size m ≤ fuel + maxStickyEntries)%nat → sticky_ok (prune_oldest fuel m).
Proof.
  revert m. induction fuel as [|fuel IH]; intros m Hm Hs; cbn [prune_oldest]; [by split |].
  destruct (Nat.ltb_spec maxStickyEntries (size m)) as [Hlt | Hge]; [| by split].
  destruct (oldest_sticky_elem (visit m) (""%string, 0)) as [[p Hp] | [_ []]]; [| | | done].
  - intros k p Hin -> . rewrite visit_perm in Hin. apply elem_of_map_to_list in Hin. congruence.
  - left. intros E. pose proof (visit_perm m) as Hv. rewrite E in Hv. apply Permutation_nil_l in Hv.
    symmetry in Hv. apply map_to_list_empty_iff in Hv as ->. rewrite map_size_empty in Hlt. lia.
  - set (oldest := (oldest_sticky (visit m) (""%string, 0)).1) in *. clearbody oldest.
    rewrite visit_perm in Hp. apply elem_of_map_to_list in Hp. apply IH.
    + rewrite lookup_delete_None. by right.
    + pose proof (size_delete_Some _ _ _ Hp). lia.
Qed.

(** The memory holds 4096 services at most. *)
Theorem RememberSelection_bounded e key handle now clock :
  sticky_ok (pe_sticky e) → sticky_ok (pe_sticky (RememberSelection e key handle now clock)).
Proof.
  intros [Hs He]. unfold RememberSelection. destruct (String.eqb_spec key "") as [| Hk]; [done |]. simpl. case_match; [done |].
  cbn [with_sticky pe_sticky].
  match goal with |- context [<[key := ?x]> (pe_sticky e)] => set (pref := x) end.
  assert (Hn : <[key := pref]> (pe_sticky e) !! ""%string = None) by by rewrite lookup_insert_ne.
  destruct (Nat.ltb_spec maxStickyEntries (size (<[key := pref]> (pe_sticky e)))) as [Hlt | Hge]; [| by split].
  apply prune_oldest_ok.
  - apply map_lookup_filter_None. by left.
  - lia.
Qed.

(** A switch that was just remembered holds for the cooldown: until it is over,
    only a healthier node takes the place of the selected one. *)
Theorem switch_cooldown_holds e h s service i t0 now clock e' p c :
  let e1 := RememberSelection e (stickyKey e service) (ca_Handle i) t0 clock in
  0 < pe_maxAttempts e → plan_mode service = ModeAdaptive →
  stickyKey e service ≠ ""%string → pe_affinityMode e ≠ "disabled"%string → (nh_NodeID (ca_Handle i) : Z) ≠ 0 → 0 < t0 ≤ now →
  0 < pe_switchCooldown e → now ≤ t0 + pe_switchCooldown e →
  (∀ q, pe_sticky e !! stickyKey e service = Some q → sk_handle q ≠ ca_Handle i) →
  (S (size (pe_sticky e)) ≤ maxStickyEntries)%nat →
  i ∈ eligible_of h s service → (∀ x, x ∈ eligible_of h s service → ca_ID x = nh_NodeID (ca_Handle x)) →
  (∀ x, x ∈ eligible_of h s service → ca_ID x = ca_ID i → nh_Slot (ca_Handle x) = nh_Slot (ca_Handle i) →
    nh_Version (ca_Handle x) = nh_Version (ca_Handle i) → x = i) →
  Plan e1 h (Some s) service None None now = (e', inr p) → head (dp_Candidates p) = Some c →
  c = i ∨ cs_HealthPriority (candidateScore e1 h c service) < cs_HealthPriority (candidateScore e1 h i service).
Proof.
  intros e1 Hm Hmode Hkey Haff Hnode Ht Hcd Hnow Hprev Hsize Hi Hid Huniq HP Hhd.
  set (pref := mkSticky (ca_Handle i) (t0 + pe_switchCooldown e) t0).
  assert (E1 : e1 = with_sticky e (<[stickyKey e service := pref]> (pe_sticky e))).
  { subst e1. unfold RememberSelection. rewrite (proj2 (String.eqb_neq _ _) Hkey), (proj2 (String.eqb_neq _ _) Haff).
    rewrite (proj2 (Z.eqb_neq _ _) Hnode). cbn [orb].
    assert (Ez : time_is_zero t0 = false) by (apply bool_decide_false; unfold time_zero; lia).
    assert (Eprev : match pe_sticky e !! stickyKey e service with Some p => negb (bool_decide (sk_handle p = ca_Handle i)) | None => true end = true).
    { destruct (pe_sticky e !! stickyKey e service) as [q |] eqn:Eq; [| done]. by rewrite bool_decide_false by by apply Hprev. }
    rewrite Ez, Eprev, (proj2 (Z.ltb_lt _ _) Hcd). fold pref.
    pose proof (size_insert_le (stickyKey e service) pref (pe_sticky e)).
    destruct (Nat.ltb_spec maxStickyEntries (size (<[stickyKey e service := pref]> (pe_sticky e)))); [lia | done]. }
  assert (Hrem : remembered e1 service now pref).
  { rewrite E1. split_and!; [done | apply lookup_insert_eq | done |]. right. assert (0 < 24 * hour) by done. cbn [sk_until pref]. lia. }
  assert (Hinc : ∀ x, x ∈ eligible_of h s service → incumbent_of pref x = true → x = i).
  { intros x Hx Hinc. unfold incumbent_of in Hinc. cbn [sk_handle pref] in Hinc. apply orb_true_iff in Hinc as [Hinc | Hinc].
    - apply bool_decide_eq_true in Hinc. apply Huniq; [done | by rewrite !Hid, Hinc | by rewrite Hinc..].
    - rewrite !andb_true_iff, !Z.eqb_eq in Hinc. destruct Hinc as [[E2 E3] E4]. apply Huniq; [done | by rewrite (Hid i Hi) | done..]. }
  destruct (plan_first_sticky e1 h s service now pref i e' p c) as [? | [_ [? | [Hnc _]]]];
    [by rewrite E1 | done | done | done | | done | done | done | by left | by right |].
  { unfold incumbent_of. by rewrite bool_decide_true. }
  exfalso. apply Hnc. rewrite E1. unfold cooling, time_zero. simpl. split_and!; [done | lia | done].
Qed.
End engine.

(** ** Two nodes and a fresh store *)

Definition node_a : Candidate := mkCandidate 1 1 1 (mkHandle 1 1 1 1) "a" [] [] ["tcp"%string] true.
Definition node_b : Candidate := mkCandidate 2 2 1 (mkHandle 2 1 1 1) "b (2)" [] [] ["tcp"%string] true.
Definition two_nodes : ExecutionSnapshot := mkSnapshot 1 1 1 [node_b; node_a] (<[1 := 1]> (<[2 := 0]> ∅)).
Definition web (mode : PolicyMode) : policy_service := mkPolicyService (mkService "web" "tcp" "tcp/any") "" 0 mode.
Definition fresh_view : store_view := mkView (NewHealthStore hour 16) (1000 * second) [] ∅.
Definition fresh_engine : PolicyEngine := NewPolicyEngine 3 "".
Definition same_name : string → string := λ s, s.
Definition lease_b : SessionLease := mkLease 5 2 1 1 "web" "adaptive" 0 0.

(** The replica tag costs eight seconds; a tag with another suffix costs nothing. *)
Example replica_tags :
  (isProviderReplicaTag "node (2) ", isProviderReplicaTag "node (1)", isProviderReplicaTag "node (2b)", isProviderReplicaTag "node(2)")
  = (true, false, false, false).
Proof. vm_compute. reflexivity. Qed.

Lemma Plan_sound_witness :
  ∃ e' p, Plan same_name fresh_engine fresh_view (Some two_nodes) (web ModeNone) None None (1000 * second) = (e', inr p) ∧
    plan_ok same_name fresh_engine fresh_view two_nodes (web ModeNone) p.
Proof.
  do 2 eexists. split; [vm_compute; reflexivity |].
  eapply (Plan_sound same_name fresh_engine fresh_view two_nodes (web ModeNone) None None (1000 * second));
    [reflexivity | vm_compute; reflexivity].
Defined.

Lemma Plan_serves_witness :
  ∃ e' p, Plan same_name fresh_engine fresh_view (Some two_nodes) (web ModeBulk) None (Some 9) (1000 * second) = (e', inr p).
Proof.
  apply (Plan_serves same_name fresh_engine fresh_view two_nodes (web ModeBulk) None (Some 9) (1000 * second)).
  - right. discriminate.
  - left. split; [reflexivity | discriminate].
Defined.

Lemma Plan_keeps_lease_witness :
  ∃ e' p c', Plan same_name fresh_engine fresh_view (Some two_nodes) (web ModeStrictAffinity) (Some lease_b) None (1000 * second) = (e', inr p) ∧
    dp_Reason p = ReasonLease ∧ head (dp_Candidates p) = Some c' ∧ lease_names lease_b c' = true ∧
    (plan_mode (web ModeStrictAffinity) = ModeStrictAffinity → dp_Candidates p = [c']).
Proof.
  apply (Plan_keeps_lease same_name fresh_engine fresh_view two_nodes (web ModeStrictAffinity) lease_b node_b (1000 * second));
    [reflexivity | right; reflexivity | vm_compute; left | reflexivity].
Defined.

Lemma Plan_best_first_witness :
  ∃ e' p c, Plan same_name fresh_engine fresh_view (Some two_nodes) (web ModeLatency) None None (1000 * second) = (e', inr p) ∧
    head (dp_Candidates p) = Some c ∧ best_ranked same_name fresh_engine fresh_view two_nodes (web ModeLatency) c.
Proof.
  apply (Plan_best_first same_name fresh_engine fresh_view two_nodes (web ModeLatency) (1000 * second));
    [reflexivity | reflexivity | discriminate].
Defined.

Definition engine_on_b : PolicyEngine :=
  RememberSelection map_to_list fresh_engine (stickyKey fresh_engine (web ModeNone)) (ca_Handle node_b) (900 * second) (900 * second).
Definition pref_b : stickyPreference := mkSticky (ca_Handle node_b) (1020 * second) (900 * second).

Lemma two_eligible x : x ∈ eligible_of same_name fresh_view two_nodes (web ModeNone) → x = node_b ∨ x = node_a.
Proof.
  assert (E : eligible_of same_name fresh_view two_nodes (web ModeNone) = [node_b; node_a]) by (vm_compute; reflexivity).
  rewrite E. intros [? | [? | ?%not_elem_of_nil]%elem_of_cons]%elem_of_cons; [by left | by right | done].
Qed.

Lemma Plan_hysteresis_witness :
  ∃ e' p, Plan same_name engine_on_b fresh_view (Some two_nodes) (web ModeNone) None None (1000 * second) = (e', inr p) ∧
    head (dp_Candidates p) = Some node_b ∧
    (node_b = node_b ∨ (best_ranked same_name engine_on_b fresh_view two_nodes (web ModeNone) node_b ∧
                        may_switch engine_on_b fresh_view (web ModeNone) (1000 * second) pref_b node_b node_b)).
Proof.
  do 2 eexists. split; [vm_compute; reflexivity |]. split; [reflexivity |].
  eapply (Plan_hysteresis same_name engine_on_b fresh_view two_nodes (web ModeNone) (1000 * second) pref_b node_b _ _ node_b);
    [reflexivity | reflexivity | | vm_compute; left | reflexivity | | vm_compute; reflexivity | reflexivity].
  - split_and!; [discriminate | vm_compute; reflexivity | discriminate | right; vm_compute; discriminate].
  - intros x [-> | ->]%two_eligible; [reflexivity | vm_compute; discriminate].
Defined.

Lemma switch_cooldown_holds_witness :
  ∃ e' p, Plan same_name engine_on_b fresh_view (Some two_nodes) (web ModeNone) None None (1000 * second) = (e', inr p) ∧
    (node_b = node_b ∨ cs_HealthPriority (candidateScore engine_on_b fresh_view node_b (web ModeNone))
                       < cs_HealthPriority (candidateScore engine_on_b fresh_view node_b (web ModeNone))).
Proof.
  do 2 eexists. split; [vm_compute; reflexivity |].
  eapply (switch_cooldown_holds same_name map_to_list fresh_engine fresh_view two_nodes (web ModeNone) node_b (900 * second) (1000 * second)
            (900 * second) _ _ node_b);
    [reflexivity | reflexivity | discriminate | discriminate | discriminate | vm_compute; split; [reflexivity | discriminate]
    | reflexivity | vm_compute; discriminate | discriminate | | vm_compute; left | | | vm_compute; reflexivity | reflexivity].
  - cbn [fresh_engine NewPolicyEngine pe_sticky]. rewrite map_size_empty. unfold maxStickyEntries. lia.
  - intros x [-> | ->]%two_eligible; reflexivity.
  - intros x [-> | ->]%two_eligible; [reflexivity | discriminate].
Defined.

Lemma RememberSelection_bounded_witness : sticky_ok (pe_sticky engine_on_b).
Proof.
  apply (RememberSelection_bounded map_to_list (λ m, Permutation_refl _) fresh_engine). split; [| reflexivity].
  cbn [fresh_engine NewPolicyEngine pe_sticky]. rewrite map_size_empty. unfold maxStickyEntries. lia.
Defined.
