(* ===== verification/AdaptiveDial.v ===== *)
(** * Dialling the candidates of a plan

    [AttemptRunner.Dial] of [protocol/group/adaptive/retry.go].  The caller starts
    an attempt for the first candidate, and for the next one whenever an attempt
    reports a failure or, when the plan hedges, whenever the hedge delay is over;
    the first connection wins and cancels the others.  Each attempt is a goroutine
    that takes a permit, dials, settles the permit once and reports through a
    channel that has room for all.

    The model is a machine of the caller and its attempts, interleaved at every
    point where another goroutine can be seen: the caller's [select], and in an
    attempt the return of the dial, the test of the parent context and the
    report. *)

From S2P Require Import Prelude AdaptiveLease AdaptiveHealth AdaptiveCapability AdaptivePolicy.
From stdpp Require Import base gmap list strings numbers sorting.
From Stdlib Require Import ZArith Lia.

(** ** Attempts *)

Inductive report : Type := RConn | RErr | RDeferred.

(** Where the goroutine of an attempt is. *)
Inductive phase : Type :=
| Waiting                    (* not started *)
| Acquiring                  (* before the permit and [begin] *)
| Dialing                    (* permit held, in [DialContext] *)
| Dialed (ok : bool)         (* the dial has returned; the parent context is tested next *)
| Reporting (r : report)     (* [complete] called; the report is sent next *)
| Reported
| Dropped.                   (* connection closed, nothing reported *)

#[global] Instance report_eq_dec : EqDecision report.
Proof. solve_decision. Defined.
#[global] Instance phase_eq_dec : EqDecision phase.
Proof. solve_decision. Defined.

(** The phase, the permits taken and settled, and whether a connection is open. *)
Record attempt : Type := mkAttempt { at_phase : phase; at_taken : nat; at_settled : nat; at_open : bool }.
Definition not_started : attempt := mkAttempt Waiting 0 0 false.
Definition started_attempt : attempt := mkAttempt Acquiring 0 0 false.

Inductive dial_outcome : Type :=
| Connection (i : nat)                              (* the connection of candidate [i] *)
| AllFailed (errors : list (nat * report))          (* [errors.Join(attemptErrors...)] *)
| ContextDone (errors : list (nat * report)).

Record dial : Type := mkDial {
  dl_attempts : list attempt;
  dl_started : nat;
  dl_active : nat;
  dl_results : list (nat * report);
  dl_errors : list (nat * report);
  dl_ctxDone : bool;
  dl_cancelled : bool;
  dl_timer : bool;
  dl_outcome : option dial_outcome;
}.

(** [parentCtx.Err() != nil]. *)
Definition parent_done (s : dial) : bool := dl_ctxDone s || dl_cancelled s.

(** Whether the plan hedges. *)
Definition hedges (p : DecisionPlan) : bool :=
  negb (dp_disableHedge p) && negb (dp_allowBlocked p) && negb (bool_decide (dp_Mode p = ModeBulk))
  && negb (bool_decide (dp_Mode p = ModeStrictAffinity)) && (1 <? length (dp_Candidates p))%nat.

(** The state before the loop; a plan without candidates is an error. *)
Definition dial_start (p : DecisionPlan) : option dial :=
  match dp_Candidates p with
  | [] => None
  | _ :: rest => Some (mkDial (started_attempt :: replicate (length rest) not_started) 1 1 [] [] false false (hedges p) None)
  end.

Definition set_attempt (s : dial) (i : nat) (a : attempt) : dial :=
  mkDial (<[i := a]> (dl_attempts s)) (dl_started s) (dl_active s) (dl_results s) (dl_errors s) (dl_ctxDone s) (dl_cancelled s)
    (dl_timer s) (dl_outcome s).

(** [if started < len(plan.Candidates) { start(plan.Candidates[started]); ... }]. *)
Definition start_next (s : dial) : dial :=
  if (dl_started s <? length (dl_attempts s))%nat
  then mkDial (<[dl_started s := started_attempt]> (dl_attempts s)) (S (dl_started s)) (S (dl_active s)) (dl_results s) (dl_errors s)
         (dl_ctxDone s) (dl_cancelled s) (dl_timer s) (dl_outcome s)
  else s.

(** The hedge timer. *)
Definition on_timer (s : dial) : dial :=
  let s := start_next s in
  mkDial (dl_attempts s) (dl_started s) (dl_active s) (dl_results s) (dl_errors s) (dl_ctxDone s) (dl_cancelled s)
    (dl_started s <? length (dl_attempts s))%nat (dl_outcome s).

(** The caller returns; [defer cancelAll()]. *)
Definition return_with (s : dial) (o : dial_outcome) : dial :=
  mkDial (dl_attempts s) (dl_started s) (dl_active s) (dl_results s) (dl_errors s) (dl_ctxDone s) true (dl_timer s) (Some o).

(** [case result := <-results], and the end of the loop when none is active. *)
Definition on_result (s : dial) (i : nat) (r : report) (rest : list (nat * report)) : dial :=
  let s := mkDial (dl_attempts s) (dl_started s) (pred (dl_active s)) rest (dl_errors s) (dl_ctxDone s) (dl_cancelled s)
             (dl_timer s) (dl_outcome s) in
  match r with
  | RConn => return_with s (Connection i)
  | _ =>
      let s := mkDial (dl_attempts s) (dl_started s) (dl_active s) (dl_results s) (dl_errors s ++ [(i, r)]) (dl_ctxDone s)
                 (dl_cancelled s) (dl_timer s) (dl_outcome s) in
      let s := start_next s in
      if (dl_active s =? 0)%nat then return_with s (AllFailed (dl_errors s)) else s
  end.

(** ** Steps *)

(** The steps of the goroutine of attempt [i], as its attempt changes.  The deferred
    [recover] also covers the code behind a dial that succeeded ([conn.Close],
    [conn.RemoteAddr] and the completion); a panic there is not modelled. *)
Inductive attempt_step (done : bool) : attempt → attempt → Prop :=
  (** the breaker defers it, or [begin] fails and the permit is released *)
| as_refused : attempt_step done (mkAttempt Acquiring 0 0 false) (mkAttempt (Reporting RDeferred) 0 0 false)
| as_begin_failed : attempt_step done (mkAttempt Acquiring 0 0 false) (mkAttempt (Reporting RDeferred) 1 1 false)
| as_begun : attempt_step done (mkAttempt Acquiring 0 0 false) (mkAttempt Dialing 1 0 false)
  (** no execution binding, or a panic of the dial *)
| as_aborted : attempt_step done (mkAttempt Dialing 1 0 false) (mkAttempt (Reporting RErr) 1 1 false)
| as_dialed ok : attempt_step done (mkAttempt Dialing 1 0 false) (mkAttempt (Dialed ok) 1 0 ok)
| as_closed : done = true → attempt_step done (mkAttempt (Dialed true) 1 0 true) (mkAttempt Dropped 1 1 false)
| as_deferred : done = true → attempt_step done (mkAttempt (Dialed false) 1 0 false) (mkAttempt (Reporting RDeferred) 1 1 false)
| as_complete ok : done = false →
    attempt_step done (mkAttempt (Dialed ok) 1 0 ok) (mkAttempt (Reporting (if ok then RConn else RErr)) 1 1 ok).

Inductive dial_step : dial → dial → Prop :=
| ds_attempt s i a a' : dl_attempts s !! i = Some a → attempt_step (parent_done s) a a' → dial_step s (set_attempt s i a')
  (** [results <- ...] *)
| ds_send s i r m c o :
    dl_attempts s !! i = Some (mkAttempt (Reporting r) m c o) →
    dial_step s (mkDial (<[i := mkAttempt Reported m c o]> (dl_attempts s)) (dl_started s) (dl_active s) (dl_results s ++ [(i, r)])
                   (dl_errors s) (dl_ctxDone s) (dl_cancelled s) (dl_timer s) (dl_outcome s))
  (** the context of the caller ends *)
| ds_cancel s : dl_ctxDone s = false →
    dial_step s (mkDial (dl_attempts s) (dl_started s) (dl_active s) (dl_results s) (dl_errors s) true (dl_cancelled s) (dl_timer s) (dl_outcome s))
  (** the cases of the [select] *)
| ds_ctx s : dl_outcome s = None → dl_ctxDone s = true → dial_step s (return_with s (ContextDone (dl_errors s)))
| ds_timer s : dl_outcome s = None → dl_timer s = true → dial_step s (on_timer s)
| ds_result s i r rest : dl_outcome s = None → dl_results s = (i, r) :: rest → dial_step s (on_result s i r rest).

Inductive dial_reachable (p : DecisionPlan) : dial → Prop :=
| dr_start s : dial_start p = Some s → dial_reachable p s
| dr_step s s' : dial_reachable p s → dial_step s s' → dial_reachable p s'.

(** ** The invariant *)

(** The reports that were received, are in the channel, or were returned. *)
Definition handled (s : dial) : list (nat * report) :=
  dl_errors s ++ dl_results s ++ match dl_outcome s with Some (Connection i) => [(i, RConn)] | _ => [] end.

(** Permits and connections by phase. *)
Definition shape (a : attempt) : Prop :=
  match at_phase a with
  | Waiting | Acquiring => at_taken a = 0%nat ∧ at_settled a = 0%nat ∧ at_open a = false
  | Dialing => at_taken a = 1%nat ∧ at_settled a = 0%nat ∧ at_open a = false
  | Dialed ok => at_taken a = 1%nat ∧ at_settled a = 0%nat ∧ at_open a = ok
  | Reporting r => (at_taken a ≤ 1)%nat ∧ at_settled a = at_taken a ∧ at_open a = bool_decide (r = RConn)
  | Reported => (at_taken a ≤ 1)%nat ∧ at_settled a = at_taken a
  | Dropped => at_taken a = 1%nat ∧ at_settled a = 1%nat ∧ at_open a = false
  end.

Record dial_core (s : dial) : Prop := {
  ok_started : (1 ≤ dl_started s ≤ length (dl_attempts s))%nat;
  ok_waiting i a : dl_attempts s !! i = Some a → at_phase a = Waiting ↔ (dl_started s ≤ i)%nat;
  ok_shape i a : dl_attempts s !! i = Some a → shape a;
  ok_nodup : NoDup (handled s).*1;
  ok_range i : i ∈ (handled s).*1 → is_Some (dl_attempts s !! i);
  ok_reported i a : dl_attempts s !! i = Some a → at_phase a = Reported ↔ i ∈ (handled s).*1;
  ok_open i r a : (i, r) ∈ handled s → dl_attempts s !! i = Some a → at_open a = bool_decide (r = RConn);
  ok_errors i r : (i, r) ∈ dl_errors s → r ≠ RConn;
  ok_cancelled : dl_cancelled s = true → dl_outcome s ≠ None;
  ok_dropped i a : dl_attempts s !! i = Some a → at_phase a = Dropped → parent_done s = true;
  ok_failed es : dl_outcome s = Some (AllFailed es) → es = dl_errors s ∧ length es = length (dl_attempts s);
}.

(** Every started attempt is active until its report has been received. *)
Definition counted (s : dial) : Prop := (dl_active s + length (dl_errors s) = dl_started s)%nat.
Definition dial_ok (s : dial) : Prop := dial_core s ∧ (dl_outcome s = None → counted s ∧ (0 < dl_active s)%nat).

Lemma dial_start_ok p s : dial_start p = Some s → dial_core s.
Proof.
  unfold dial_start. destruct (dp_Candidates p) as [|c rest]; [done |]. intros [= <-].
  assert (Hl : ∀ i a, (started_attempt :: replicate (length rest) not_started) !! i = Some a →
            (i = 0%nat ∧ a = started_attempt) ∨ ((1 ≤ i)%nat ∧ a = not_started)).
  { intros [|i] a; simpl; [intros [= <-]; by left | intros [-> _]%lookup_replicate; right; split; [lia | done]]. }
  split; simpl; try done.
  - rewrite length_replicate. lia.
  - intros i a [[-> ->] | [Hi ->]]%Hl; simpl; split; intros; (done || lia).
  - intros i a [[-> ->] | [Hi ->]]%Hl; done.
  - apply NoDup_nil_2.
  - by intros i ?%not_elem_of_nil.
  - intros i a Ha. split; [| by intros ?%not_elem_of_nil]. by apply Hl in Ha as [[_ ->] | [_ ->]].
  - by intros i r a ?%not_elem_of_nil.
  - by intros i r ?%not_elem_of_nil.
  - intros i a [[-> ->] | [Hi ->]]%Hl; done.
Qed.

(** Changing one attempt that has not reported. *)
Lemma set_attempt_ok s i a a' :
  dial_core s → dl_attempts s !! i = Some a → at_phase a ≠ Waiting → at_phase a ≠ Reported →
  at_phase a' ≠ Waiting → at_phase a' ≠ Reported → shape a' → (at_phase a' = Dropped → parent_done s = true) →
  dial_core (set_attempt s i a').
Proof.
  intros [Hst Hwt Hsh Hnd Hrg Hrp Hop Her Hcn Hdr Hfl] Ha H1 H2 H3 H4 Hs' Hd'.
  assert (Hlen : (i < length (dl_attempts s))%nat) by by eapply lookup_lt_Some.
  assert (Hlk : ∀ j b, <[i := a']> (dl_attempts s) !! j = Some b → (j = i ∧ b = a') ∨ (j ≠ i ∧ dl_attempts s !! j = Some b)).
  { intros j b [(<- & <- & _) | [? ?]]%list_lookup_insert_Some; [by left | right; split; [congruence | done]]. }
  split; simpl; rewrite ?length_insert; try done.
  - intros j b [[-> ->] | [_ Hb]]%Hlk; [| by apply Hwt]. split; [done |]. intros Hle. by apply (Hwt i a) in Hle.
  - intros j b [[-> ->] | [_ Hb]]%Hlk; [done | by apply (Hsh j)].
  - intros j Hj. apply lookup_lt_is_Some. rewrite length_insert. by apply lookup_lt_is_Some, Hrg.
  - intros j b [[-> ->] | [_ Hb]]%Hlk; [| by apply Hrp]. split; [done |]. intros Hin. by apply (Hrp i a) in Hin.
  - intros j r b Hin [[-> ->] | [_ Hb]]%Hlk; [| by apply (Hop j r b)]. exfalso. apply H2, (Hrp i a); [done |].
    apply list_elem_of_fmap. by exists (i, r).
  - intros j b [[-> ->] | [_ Hb]]%Hlk; [done | by apply (Hdr j)].
Qed.

Lemma attempt_step_ok s i a a' :
  dial_core s → dl_attempts s !! i = Some a → attempt_step (parent_done s) a a' → dial_core (set_attempt s i a').
Proof.
  intros Hok Ha Hstep.
  destruct Hstep as [| | | | ok | Hd | Hd | ok Hd];
    (eapply set_attempt_ok; [done | done | done | done | done | done | | done]); unfold shape; simpl; try by split_and!; (done || lia).
  by destruct ok; split_and!.
Qed.

Lemma send_ok s i r m c o :
  dial_core s → dl_attempts s !! i = Some (mkAttempt (Reporting r) m c o) →
  dial_core (mkDial (<[i := mkAttempt Reported m c o]> (dl_attempts s)) (dl_started s) (dl_active s) (dl_results s ++ [(i, r)])
                   (dl_errors s) (dl_ctxDone s) (dl_cancelled s) (dl_timer s) (dl_outcome s)).
Proof.
  intros [Hst Hwt Hsh Hnd Hrg Hrp Hop Her Hcn Hdr Hfl] Ha.
  assert (Hlk : ∀ j b, <[i := mkAttempt Reported m c o]> (dl_attempts s) !! j = Some b →
            (j = i ∧ b = mkAttempt Reported m c o) ∨ (j ≠ i ∧ dl_attempts s !! j = Some b)).
  { intros j b [(<- & <- & _) | [? ?]]%list_lookup_insert_Some; [by left | right; split; [congruence | done]]. }
  assert (Hn : i ∉ (handled s).*1) by (intros Hin; by apply (Hrp i _ Ha) in Hin).
  pose proof (Hsh i _ Ha) as (Hm & Hc & Ho). simpl in Hm, Hc, Ho.
  set (s' := mkDial _ _ _ _ _ _ _ _ _).
  assert (Hh : handled s' ≡ₚ (i, r) :: handled s).
  { unfold handled. simpl. rewrite <- app_assoc. simpl. by rewrite <- !Permutation_middle. }
  assert (Hh1 : (handled s').*1 ≡ₚ i :: (handled s).*1) by by rewrite Hh.
  split; try done; subst s'; simpl; rewrite ?length_insert; try done.
  - intros j b [[-> ->] | [_ Hb]]%Hlk; [| by apply Hwt]. split; [done |]. intros Hle. by apply (Hwt i _ Ha) in Hle.
  - intros j b [[-> ->] | [_ Hb]]%Hlk; [by split_and! | by apply (Hsh j)].
  - rewrite Hh1. by apply NoDup_cons.
  - intros j. rewrite Hh1. intros [-> | Hj]%elem_of_cons; apply lookup_lt_is_Some; rewrite length_insert;
      [by eapply lookup_lt_Some | by apply lookup_lt_is_Some, Hrg].
  - intros j b Hb. rewrite Hh1, elem_of_cons. apply Hlk in Hb as [[-> ->] | [Hne Hb]]; [by split; [left |] |].
    rewrite (Hrp j b Hb). intuition.
  - intros j r' b. rewrite Hh. intros [[= -> ->] | Hin]%elem_of_cons [[? ->] | [Hne Hb]]%Hlk; simpl in *; [done | done | | by apply (Hop j r')].
    subst j. exfalso. apply Hn, list_elem_of_fmap. by exists (i, r').
  - intros j b [[-> ->] | [_ Hb]]%Hlk; [done | by apply (Hdr j)].
Qed.

Lemma start_next_core s : dial_core s → dl_outcome s = None → dial_core (start_next s).
Proof.
  intros [Hst Hwt Hsh Hnd Hrg Hrp Hop Her Hcn Hdr Hfl] Hout. unfold start_next.
  destruct (Nat.ltb_spec (dl_started s) (length (dl_attempts s))) as [Hlt | Hge]; [| by split].
  destruct (lookup_lt_is_Some_2 _ _ Hlt) as [a Ha].
  assert (Hw : at_phase a = Waiting) by by apply (Hwt _ _ Ha).
  assert (Hlk : ∀ j b, <[dl_started s := started_attempt]> (dl_attempts s) !! j = Some b →
            (j = dl_started s ∧ b = started_attempt) ∨ (j ≠ dl_started s ∧ dl_attempts s !! j = Some b)).
  { intros j b [(<- & <- & _) | [? ?]]%list_lookup_insert_Some; [by left | right; split; [congruence | done]]. }
  assert (Hn : dl_started s ∉ (handled s).*1) by (intros Hin; apply (Hrp _ _ Ha) in Hin; congruence).
  split; simpl; rewrite ?length_insert; try done.
  - lia.
  - intros j b [[-> ->] | [Hne Hb]]%Hlk; simpl; [split; [done | lia] |]. rewrite (Hwt j b Hb). lia.
  - intros j b [[-> ->] | [_ Hb]]%Hlk; [done | by apply (Hsh j)].
  - intros j Hj. apply lookup_lt_is_Some. rewrite length_insert. by apply lookup_lt_is_Some, Hrg.
  - intros j b [[-> ->] | [_ Hb]]%Hlk; [by split | by apply Hrp].
  - intros j r b Hin [[-> ->] | [_ Hb]]%Hlk; [| by apply (Hop j r b)]. exfalso. apply Hn, list_elem_of_fmap. by exists (dl_started s, r).
  - intros j b [[-> ->] | [_ Hb]]%Hlk; [done | by apply (Hdr j)].
Qed.

Lemma start_next_counted s : counted s → counted (start_next s).
Proof. unfold counted, start_next. case_match; simpl; lia. Qed.

(** Fields the invariant does not look at. *)
Lemma dial_core_frame s s' :
  dial_core s → dl_attempts s' = dl_attempts s → dl_started s' = dl_started s → handled s' = handled s →
  dl_errors s' = dl_errors s → (parent_done s = true → parent_done s' = true) → (dl_cancelled s' = true → dl_outcome s' ≠ None) →
  (∀ es, dl_outcome s' = Some (AllFailed es) → es = dl_errors s ∧ length es = length (dl_attempts s)) → dial_core s'.
Proof.
  intros [Hst Hwt Hsh Hnd Hrg Hrp Hop Her Hcn Hdr Hfl] E1 E2 E3 E4 E5 E6 E7.
  split; rewrite ?E1, ?E2, ?E3, ?E4; try done. intros i a Ha Hd. by apply E5, (Hdr i a).
Qed.

(** A report is received. *)
Lemma on_result_ok s i r rest : dial_ok s → dl_outcome s = None → dl_results s = (i, r) :: rest → dial_ok (on_result s i r rest).
Proof.
  intros [Hcore Hact] Hout Hres. destruct (Hact Hout) as [Hc Hpos]. unfold counted in Hc.
  assert (Hh : handled s = dl_errors s ++ (i, r) :: rest) by (unfold handled; rewrite Hout, Hres; by rewrite app_nil_r).
  assert (Hperm : ∀ s', dl_attempts s' = dl_attempts s → dl_started s' = dl_started s → handled s' ≡ₚ handled s →
            (∀ j q, (j, q) ∈ dl_errors s' → q ≠ RConn) → dl_ctxDone s' = dl_ctxDone s →
            (dl_cancelled s = true → dl_cancelled s' = true) → (dl_cancelled s' = true → dl_outcome s' ≠ None) →
            (∀ es, dl_outcome s' = Some (AllFailed es) → es = dl_errors s' ∧ length es = length (dl_attempts s)) → dial_core s').
  { intros s' E1 E2 E3 E4 E5 E6 E7 E8. destruct Hcore as [Hst Hwt Hsh Hnd Hrg Hrp Hop Her Hcn Hdr Hfl].
    assert (E3' : (handled s').*1 ≡ₚ (handled s).*1) by by rewrite E3.
    split; rewrite ?E1, ?E2; try done.
    - by rewrite E3'.
    - intros j. rewrite E3'. apply Hrg.
    - intros j b Hb. rewrite E3'. by apply Hrp.
    - intros j q b. rewrite E3. apply Hop.
    - intros j b Hb Hd. pose proof (Hdr j b Hb Hd) as Hp. unfold parent_done in *. rewrite E5.
      destruct (dl_ctxDone s); [done |]. simpl in *. by apply E6. }
  unfold on_result. set (s1 := mkDial (dl_attempts s) (dl_started s) (pred (dl_active s)) rest (dl_errors s) (dl_ctxDone s)
    (dl_cancelled s) (dl_timer s) (dl_outcome s)).
  destruct (decide (r = RConn)) as [-> | Hr].
  - split; [| done]. apply Hperm; try done.
    + rewrite Hh. unfold handled. simpl. by rewrite (Permutation_app_comm rest [_]).
    + simpl. intros j q. apply (ok_errors _ Hcore).
  - set (s2 := mkDial (dl_attempts s1) (dl_started s1) (dl_active s1) (dl_results s1) (dl_errors s1 ++ [(i, r)]) (dl_ctxDone s1)
                 (dl_cancelled s1) (dl_timer s1) (dl_outcome s1)).
    assert (Hcore2 : dial_core s2).
    { apply Hperm; try done; simpl.
      - rewrite Hh. unfold handled. simpl. by rewrite Hout, app_nil_r, <- app_assoc.
      - intros j q [Hin | [= -> ->]%list_elem_of_singleton]%elem_of_app; [by apply (ok_errors _ Hcore j) | done].
      - apply (ok_cancelled _ Hcore).
      - intros es. by rewrite Hout. }
    assert (Hc2 : counted s2) by (unfold counted; simpl; rewrite length_app; simpl; lia).
    pose proof (start_next_core s2 Hcore2 Hout) as Hcore3. pose proof (start_next_counted s2 Hc2) as Hc3.
    assert (Hout3 : dl_outcome (start_next s2) = None) by (unfold start_next; by case_match).
    assert (Herr3 : dl_errors (start_next s2) = dl_errors s2) by (unfold start_next; by case_match).
    assert (E : match r with RConn => return_with s1 (Connection i)
                | _ => if (dl_active (start_next s2) =? 0)%nat then return_with (start_next s2) (AllFailed (dl_errors (start_next s2)))
                       else start_next s2 end
              = if (dl_active (start_next s2) =? 0)%nat then return_with (start_next s2) (AllFailed (dl_errors (start_next s2)))
                else start_next s2) by by destruct r.
    fold s2. rewrite E. destruct (Nat.eqb_spec (dl_active (start_next s2)) 0) as [Hz | Hnz].
    + split; [| done]. apply (dial_core_frame (start_next s2)); try done.
      * unfold handled. simpl. by rewrite Hout3.
      * unfold parent_done. simpl. by rewrite orb_true_r.
      * intros es [= <-]. split; [done |]. unfold counted in Hc3. pose proof (ok_started _ Hcore3) as Hst3.
        revert Hz Hc3 Hst3. unfold start_next. destruct (Nat.ltb_spec (dl_started s2) (length (dl_attempts s2))); simpl; [lia |]. simpl in *. lia.
    + split; [done |]. intros _. split; [done | lia].
Qed.

Lemma dial_step_ok s s' : dial_ok s → dial_step s s' → dial_ok s'.
Proof.
  intros [Hcore Hact] Hstep.
  destruct Hstep as [s i a a' Ha Hst | s i r m c o Ha | s Hd | s Ho Hd | s Ho Ht | s i r rest Ho Hr].
  - split; [by eapply attempt_step_ok | done].
  - split; [by apply send_ok | done].
  - split; [| done]. apply (dial_core_frame s); try done; [apply (ok_cancelled _ Hcore) | apply (ok_failed _ Hcore)].
  - split; [| done]. apply (dial_core_frame s); try done.
    + unfold handled. simpl. by rewrite Ho.
    + unfold parent_done. simpl. by rewrite orb_true_r.
  - destruct (Hact Ho) as [Hc Hpos]. pose proof (start_next_core s Hcore Ho) as Hcore'. split.
    + apply (dial_core_frame (start_next s)); try done; [apply (ok_cancelled _ Hcore') | apply (ok_failed _ Hcore')].
    + intros _. split; [by apply start_next_counted |]. cbn [on_timer dl_active]. unfold start_next. case_match; simpl; lia.
  - by apply on_result_ok.
Qed.

Lemma dial_reachable_ok p s : dial_reachable p s → dial_ok s.
Proof.
  induction 1 as [s Hs | s s' _ IH Hstep]; [| by eapply dial_step_ok]. split; [by eapply dial_start_ok |].
  unfold dial_start in Hs. destruct (dp_Candidates p); [done |]. injection Hs as <-. unfold counted. simpl. lia.
Qed.

(** ** What dialling promises *)

Lemma dial_length p s : dial_reachable p s → length (dl_attempts s) = length (dp_Candidates p).
Proof.
  assert (Hn : ∀ s, length (dl_attempts (start_next s)) = length (dl_attempts s)).
  { intros s0. unfold start_next. case_match; simpl; by rewrite ?length_insert. }
  induction 1 as [s Hs | s s' _ IH Hstep].
  - unfold dial_start in Hs. destruct (dp_Candidates p); [done |]. injection Hs as <-. simpl. by rewrite length_replicate.
  - rewrite <- IH. destruct Hstep; simpl; rewrite ?length_insert, ?Hn; try done.
    unfold on_result. destruct r; [done | |]; (case_match; simpl; by rewrite Hn).
Qed.

(** The received errors, when the caller gives up. *)
Lemma all_reported p s es :
  dial_reachable p s → dl_outcome s = Some (AllFailed es) →
  es.*1 ≡ₚ seq 0 (length (dp_Candidates p)) ∧ ∀ i r, (i, r) ∈ es → r ≠ RConn.
Proof.
  intros Hr Ho. pose proof (dial_length p s Hr) as Hlen. apply dial_reachable_ok in Hr as [Hcore _].
  destruct (ok_failed _ Hcore es Ho) as [-> El]. split; [| apply (ok_errors _ Hcore)].
  pose proof (ok_nodup _ Hcore) as Hnd. unfold handled in Hnd. rewrite fmap_app in Hnd. apply list.NoDup_app in Hnd as (Hnd & _).
  apply submseteq_length_Permutation.
  - apply NoDup_submseteq; [done |]. intros i Hi. apply elem_of_seq. rewrite <- Hlen.
    assert (Hs : is_Some (dl_attempts s !! i)).
    { apply (ok_range _ Hcore). unfold handled. rewrite fmap_app. apply elem_of_app. by left. }
    apply lookup_lt_is_Some in Hs. lia.
  - rewrite length_seq, length_fmap. lia.
Qed.

(** Unless its context ends, the caller gives up only after every candidate of the
    plan was tried, once, and has failed or was deferred. *)
Theorem Dial_exhausts_plan p s es :
  dial_reachable p s → dl_outcome s = Some (AllFailed es) →
  es.*1 ≡ₚ seq 0 (length (dp_Candidates p)) ∧ ∀ i r, (i, r) ∈ es → r ≠ RConn.
Proof. apply all_reported. Qed.

(** The connection that is returned is open, belongs to a candidate of the plan,
    and its permit is settled; and every attempt that is over has settled each
    permit it took, exactly once. *)
Theorem Dial_settles_permits p s :
  dial_reachable p s →
  (∀ i a, dl_attempts s !! i = Some a → at_phase a = Reported ∨ at_phase a = Dropped → at_settled a = at_taken a) ∧
  (∀ i a, dl_attempts s !! i = Some a → (at_settled a ≤ at_taken a ≤ 1)%nat) ∧
  (∀ i, dl_outcome s = Some (Connection i) →
     (i < length (dp_Candidates p))%nat ∧ ∃ a, dl_attempts s !! i = Some a ∧ at_open a = true ∧ at_phase a = Reported).
Proof.
  intros Hr. pose proof (dial_length p s Hr) as Hlen. apply dial_reachable_ok in Hr as [Hcore _]. split_and!.
  - intros i a Ha Hp. pose proof (ok_shape _ Hcore i a Ha) as Hs. unfold shape in Hs. destruct Hp as [Hp | Hp]; rewrite Hp in Hs; lia.
  - intros i a Ha. pose proof (ok_shape _ Hcore i a Ha) as Hs. unfold shape in Hs. destruct (at_phase a); lia.
  - intros i Ho.
    assert (Hin : (i, RConn) ∈ handled s).
    { unfold handled. rewrite Ho. apply elem_of_app. right. apply elem_of_app. right. by apply list_elem_of_singleton. }
    assert (Hin1 : i ∈ (handled s).*1) by (apply list_elem_of_fmap; by exists (i, RConn)).
    destruct (ok_range _ Hcore i Hin1) as [a Ha]. split; [rewrite <- Hlen; by eapply lookup_lt_Some |].
    exists a. split_and!; [done | by apply (ok_open _ Hcore i RConn a) | by apply (ok_reported _ Hcore i a)].
Qed.

(** *** It returns *)

(** What is left of an attempt. *)
Definition phase_left (p : phase) : nat :=
  match p with Waiting => 5 | Acquiring => 4 | Dialing => 3 | Dialed _ => 2 | Reporting _ => 1 | Reported | Dropped => 0 end.
Definition attempts_left (l : list attempt) : nat := sum_list ((λ a, 3 * phase_left (at_phase a)) <$> l).
Definition work (s : dial) : nat :=
  attempts_left (dl_attempts s) + 2 * length (dl_results s)
  + (if dl_ctxDone s then 0 else 1) + (if dl_timer s then 2 else 0) + match dl_outcome s with Some _ => 0 | None => 1 end.

Lemma attempts_left_insert l i a a' :
  l !! i = Some a → (phase_left (at_phase a') < phase_left (at_phase a))%nat →
  (attempts_left (<[i := a']> l) + 3 ≤ attempts_left l)%nat.
Proof.
  unfold attempts_left. revert i. induction l as [|b l IH]; intros [|i] Hi Hlt; simplify_eq/=; [lia |].
  pose proof (IH i Hi Hlt). lia.
Qed.

Lemma attempt_step_left done a a' : attempt_step done a a' → (phase_left (at_phase a') < phase_left (at_phase a))%nat.
Proof. destruct 1; simpl; lia. Qed.

(** Starting an attempt uses up work, when there is one to start. *)
Lemma start_next_left s :
  (∀ a, dl_attempts s !! dl_started s = Some a → at_phase a = Waiting) →
  (attempts_left (dl_attempts (start_next s)) + (if (dl_started s <? length (dl_attempts s))%nat then 3 else 0)
   ≤ attempts_left (dl_attempts s))%nat.
Proof.
  intros Hw. unfold start_next. destruct (Nat.ltb_spec (dl_started s) (length (dl_attempts s))) as [Hlt | Hge]; [| lia].
  destruct (lookup_lt_is_Some_2 _ _ Hlt) as [a Ha]. apply (attempts_left_insert _ _ a); [done |]. rewrite (Hw a Ha). simpl. lia.
Qed.
Lemma start_next_fields s :
  dl_results (start_next s) = dl_results s ∧ dl_ctxDone (start_next s) = dl_ctxDone s ∧ dl_timer (start_next s) = dl_timer s ∧
  dl_outcome (start_next s) = dl_outcome s.
Proof. unfold start_next. by case_match. Qed.

(** C17. Every step uses up work: the goroutines and the caller stop. *)
Theorem Dial_terminates p s s' : dial_reachable p s → dial_step s s' → (work s' < work s)%nat.
Proof.
  intros [Hcore Hact]%dial_reachable_ok Hstep.
  destruct Hstep as [s i a a' Ha Hst | s i r m c o Ha | s Hd | s Ho Hd | s Ho Ht | s i r rest Ho Hr]; unfold work.
  - pose proof (attempts_left_insert _ _ _ a' Ha (attempt_step_left _ _ _ Hst)). simpl. lia.
  - pose proof (attempts_left_insert _ _ _ (mkAttempt Reported m c o) Ha) as Hs. simpl in *. rewrite length_app. simpl. lia.
  - simpl. rewrite Hd. lia.
  - simpl. rewrite Ho. lia.
  - pose proof (start_next_left s (λ a Ha, proj2 (ok_waiting _ Hcore _ a Ha) (le_n _))) as Hs.
    destruct (start_next_fields s) as (E1 & E2 & E3 & E4). simpl. rewrite E1, E2, E4, Ht.
    assert (Hge : (length (dl_attempts s) ≤ dl_started s)%nat → start_next s = s).
    { intros Hge. unfold start_next. destruct (Nat.ltb_spec (dl_started s) (length (dl_attempts s))); [lia | done]. }
    destruct (Nat.ltb_spec (dl_started s) (length (dl_attempts s))) as [Hlt | Hle].
    + destruct (dl_started (start_next s) <? length (dl_attempts (start_next s)))%nat; lia.
    + rewrite (Hge Hle). destruct (Nat.ltb_spec (dl_started s) (length (dl_attempts s))); lia.
  - destruct (decide (r = RConn)) as [-> | Hne]; [simpl; rewrite Ho, Hr; simpl; lia |].
    set (s1 := mkDial (dl_attempts s) (dl_started s) (pred (dl_active s)) rest (dl_errors s ++ [(i, r)]) (dl_ctxDone s) (dl_cancelled s)
                 (dl_timer s) (dl_outcome s)).
    assert (E : on_result s i r rest = if (dl_active (start_next s1) =? 0)%nat
              then return_with (start_next s1) (AllFailed (dl_errors (start_next s1))) else start_next s1)
      by (unfold on_result; by destruct r).
    rewrite E, Ho, Hr. pose proof (start_next_left s1 (λ a Ha, proj2 (ok_waiting _ Hcore _ a Ha) (le_n _))) as Hs.
    destruct (start_next_fields s1) as (E1 & E2 & E3 & E4).
    assert (Hfin : ∀ s2, dl_attempts s2 = dl_attempts (start_next s1) → dl_results s2 = rest → dl_ctxDone s2 = dl_ctxDone s →
              dl_timer s2 = dl_timer s →
              (attempts_left (dl_attempts s2) + 2 * length (dl_results s2) + (if dl_ctxDone s2 then 0 else 1)
               + (if dl_timer s2 then 2 else 0) + match dl_outcome s2 with Some _ => 0 | None => 1 end
               < attempts_left (dl_attempts s) + 2 * length ((i, r) :: rest) + (if dl_ctxDone s then 0 else 1)
                 + (if dl_timer s then 2 else 0) + 1)%nat).
    { intros s2 F1 F2 F3 F4. rewrite F1, F2, F3, F4. simpl in *. destruct (dl_outcome s2); lia. }
    apply Hfin; by destruct (_ =? 0)%nat.
Qed.

(** And until the caller returns, something can happen: a dial returns, a report
    is sent or received, or the end of the context is seen. *)
Theorem Dial_progress p s : dial_reachable p s → dl_outcome s = None → ∃ s', dial_step s s'.
Proof.
  intros Hr Ho. apply dial_reachable_ok in Hr as [Hcore Hact]. destruct (Hact Ho) as [Hc Hpos].
  destruct (dl_results s) as [|[i r] rest] eqn:Er; [| eexists; by eapply ds_result].
  destruct (dl_ctxDone s) eqn:Ed; [eexists; by apply ds_ctx |].
  (* a started attempt that has not reported *)
  assert (Hex : ∃ i a, dl_attempts s !! i = Some a ∧ (i < dl_started s)%nat ∧ at_phase a ≠ Reported).
  { destruct (decide (Exists (λ i, i ∉ (dl_errors s).*1) (seq 0 (dl_started s)))) as [(i & Hi%elem_of_seq & Hn)%Exists_exists | Hall].
    - destruct (lookup_lt_is_Some_2 (dl_attempts s) i) as [a Ha]; [pose proof (ok_started _ Hcore); lia |].
      exists i, a. split_and!; [done | lia |]. rewrite (ok_reported _ Hcore i a Ha). unfold handled. by rewrite Er, Ho, app_nil_r.
    - exfalso. assert (Hsub : seq 0 (dl_started s) ⊆+ (dl_errors s).*1).
      { apply NoDup_submseteq; [apply NoDup_seq |]. intros i Hi. destruct (decide (i ∈ (dl_errors s).*1)); [done |].
        exfalso. apply Hall, Exists_exists. by exists i. }
      apply submseteq_length in Hsub. rewrite length_seq, length_fmap in Hsub. unfold counted in Hc. lia. }
  destruct Hex as (i & a & Ha & Hi & Hp). pose proof (ok_shape _ Hcore i a Ha) as Hs.
  assert (Hnd : at_phase a ≠ Dropped).
  { intros Hd. pose proof (ok_dropped _ Hcore i a Ha Hd) as Hpd. unfold parent_done in Hpd. rewrite Ed in Hpd. simpl in Hpd.
    by apply (ok_cancelled _ Hcore) in Hpd. }
  assert (Hpd : parent_done s = false).
  { unfold parent_done. rewrite Ed. simpl. destruct (dl_cancelled s) eqn:Ec; [by apply (ok_cancelled _ Hcore) in Ec | done]. }
  destruct a as [ph m c o]. unfold shape in Hs. simpl in *. destruct ph as [| | | ok | r | |]; try done.
  - pose proof (proj1 (ok_waiting _ Hcore i _ Ha) eq_refl). lia.
  - destruct Hs as (-> & -> & ->). eexists. eapply ds_attempt; [done | apply as_begun].
  - destruct Hs as (-> & -> & ->). eexists. eapply ds_attempt; [done | apply (as_dialed _ true)].
  - destruct Hs as (-> & -> & ->). eexists. eapply ds_attempt; [done | apply (as_complete _ ok)]. done.
  - eexists. by eapply ds_send.
Qed.

(** ** Connections that are left open *)

(** Without hedging one attempt runs at a time. *)
Record sequential (s : dial) : Prop := {
  sq_timer : dl_timer s = false;
  sq_active : dl_outcome s = None → dl_active s = 1%nat;
  sq_started i : dl_outcome s = Some (Connection i) → dl_started s = S (length (dl_errors s));
}.

Lemma sequential_step s s' : dial_ok s → sequential s → dial_step s s' → sequential s'.
Proof.
  intros [Hcore Hact] [Ht Ha Hs] Hstep.
  destruct Hstep as [s i a a' Hi Hst | s i r m c o Hi | s Hd | s Ho Hd | s Ho Htm | s i r rest Ho Hr]; try by split.
  - congruence.
  - destruct (Hact Ho) as [Hc _]. unfold counted in Hc. rewrite (Ha Ho) in Hc.
    unfold on_result. rewrite (Ha Ho), Ho. destruct r; [| |].
    + split; [done | done |]. intros j _. simpl. lia.
    + unfold start_next. simpl. destruct (Nat.ltb_spec (dl_started s) (length (dl_attempts s))); simpl; split; simpl; done.
    + unfold start_next. simpl. destruct (Nat.ltb_spec (dl_started s) (length (dl_attempts s))); simpl; split; simpl; done.
Qed.

Lemma sequential_reachable p s : hedges p = false → dial_reachable p s → sequential s.
Proof.
  intros Hh. induction 1 as [s Hs | s s' Hr IH Hstep]; [| by eapply sequential_step; [eapply dial_reachable_ok | |]].
  unfold dial_start in Hs. destruct (dp_Candidates p); [done |]. injection Hs as <-. by rewrite Hh.
Qed.

(** C16. When all attempts have failed no connection is left open; when a plan that does
    not hedge returns a connection, no other is left open. *)
Theorem Dial_closes_connections p s j a :
  dial_reachable p s → dl_attempts s !! j = Some a → at_open a = true →
  (∀ es, dl_outcome s ≠ Some (AllFailed es)) ∧
  (∀ i, hedges p = false → dl_outcome s = Some (Connection i) → j = i).
Proof.
  intros Hr Ha Hopen. pose proof (dial_reachable_ok p s Hr) as [Hcore _].
  assert (Herr : j ∉ (dl_errors s).*1).
  { intros ([j' r] & -> & Hin)%list_elem_of_fmap. simpl in Ha.
    rewrite (ok_open _ Hcore j' r a) in Hopen; [| unfold handled; apply elem_of_app; by left | done].
    apply bool_decide_eq_true in Hopen. by apply (ok_errors _ Hcore j' r). }
  split.
  - intros es Ho. destruct (all_reported p s es Hr Ho) as [Hperm _]. destruct (ok_failed _ Hcore es Ho) as [-> _].
    apply Herr. rewrite Hperm. apply elem_of_seq. rewrite <- (dial_length p s Hr). apply lookup_lt_Some in Ha. lia.
  - intros i Hh Ho. pose proof (sq_started _ (sequential_reachable p s Hh Hr) i Ho) as Hst.
    destruct (decide (j = i)) as [| Hne]; [done |]. exfalso.
    assert (Hlt : ∀ k b, dl_attempts s !! k = Some b → at_phase b ≠ Waiting → (k < dl_started s)%nat).
    { intros k b Hk Hw. destruct (decide (dl_started s ≤ k)%nat) as [Hle |]; [| lia]. by apply (ok_waiting _ Hcore k b Hk) in Hle. }
    assert (Hj : (j < dl_started s)%nat).
    { apply (Hlt j a Ha). intros Hw. pose proof (ok_shape _ Hcore j a Ha) as Hs. unfold shape in Hs. rewrite Hw in Hs.
      destruct Hs as (_ & _ & ?). congruence. }
    set (l := j :: i :: (dl_errors s).*1).
    assert (Hi : ∀ k, k ∈ i :: (dl_errors s).*1 → k ∈ (handled s).*1).
    { intros k Hk. unfold handled. rewrite Ho, !fmap_app, !elem_of_app. apply elem_of_cons in Hk as [-> | ?]; [| by left].
      right. right. simpl. left. }
    assert (Hnd : NoDup l).
    { subst l. pose proof (ok_nodup _ Hcore) as Hnd. unfold handled in Hnd. rewrite Ho, !fmap_app in Hnd.
      apply list.NoDup_app in Hnd as (Hnd1 & Hnd2 & _). apply NoDup_cons. split; [by intros [? | ?]%elem_of_cons |].
      apply NoDup_cons. split; [| done]. intros Hin. apply (Hnd2 i Hin). apply elem_of_app. right. simpl. left. }
    assert (Hsub : l ⊆+ seq 0 (dl_started s)).
    { apply NoDup_submseteq; [done |]. intros k [-> | Hk]%elem_of_cons; apply elem_of_seq; [lia |].
      destruct (ok_range _ Hcore k (Hi k Hk)) as [b Hb].
      pose proof (proj2 (ok_reported _ Hcore k b Hb) (Hi k Hk)) as Hrep. pose proof (Hlt k b Hb). rewrite Hrep in *. split; [lia |].
      apply H. done. }
    apply submseteq_length in Hsub. subst l. simpl in Hsub. rewrite length_seq, length_fmap in Hsub. lia.
Qed.

(** *** Runs *)

(** A hedged plan of two candidates. *)
Definition hedged_plan : DecisionPlan :=
  mkPlan 1 1 1 ModeAdaptive ReasonRanked [node_a; node_b] (web ModeNone) false false.
Definition single_plan : DecisionPlan :=
  mkPlan 1 1 1 ModeStrictAffinity ReasonLease [node_a] (web ModeStrictAffinity) false false.

Definition connected : attempt := mkAttempt (Reporting RConn) 1 1 true.
Definition connected_sent : attempt := mkAttempt Reported 1 1 true.

(** Attempt [i] takes its permit, dials, connects and settles the permit. *)
Lemma run_connect p s i :
  dial_reachable p s → dl_attempts s !! i = Some started_attempt → parent_done s = false → dial_reachable p (set_attempt s i connected).
Proof.
  intros Hr Hi Hp. assert (Hlt : (i < length (dl_attempts s))%nat) by by eapply lookup_lt_Some.
  assert (Hset : ∀ a b, set_attempt (set_attempt s i a) i b = set_attempt s i b).
  { intros a b. unfold set_attempt. simpl. by rewrite list_insert_insert_eq. }
  assert (Hat : ∀ a, dl_attempts (set_attempt s i a) !! i = Some a) by (intros a; by apply list_lookup_insert_eq).
  assert (H1 : dial_reachable p (set_attempt s i (mkAttempt Dialing 1 0 false))).
  { eapply dr_step; [done |]. eapply ds_attempt; [done | apply as_begun]. }
  assert (H2 : dial_reachable p (set_attempt s i (mkAttempt (Dialed true) 1 0 true))).
  { rewrite <- (Hset (mkAttempt Dialing 1 0 false)). eapply dr_step; [exact H1 |]. eapply ds_attempt; [apply Hat | apply (as_dialed _ true)]. }
  rewrite <- (Hset (mkAttempt (Dialed true) 1 0 true)). eapply dr_step; [exact H2 |]. eapply ds_attempt; [apply Hat |].
  by apply (as_complete _ true).
Qed.

Lemma run_send p s i m c o r :
  dial_reachable p s → dl_attempts s !! i = Some (mkAttempt (Reporting r) m c o) →
  dial_reachable p (mkDial (<[i := mkAttempt Reported m c o]> (dl_attempts s)) (dl_started s) (dl_active s) (dl_results s ++ [(i, r)])
                      (dl_errors s) (dl_ctxDone s) (dl_cancelled s) (dl_timer s) (dl_outcome s)).
Proof. intros Hr Hi. eapply dr_step; [done |]. by apply ds_send. Qed.

(** Both attempts connected before the caller looked; it takes the first report. *)
Definition two_connections : dial :=
  mkDial [connected_sent; connected_sent] 2 1 [(1%nat, RConn)] [] false true false (Some (Connection 0)).

Lemma two_connections_reachable : dial_reachable hedged_plan two_connections.
Proof.
  assert (H0 : dial_reachable hedged_plan (mkDial [started_attempt; not_started] 1 1 [] [] false false true None)) by by apply dr_start.
  assert (H1 : dial_reachable hedged_plan (mkDial [started_attempt; started_attempt] 2 2 [] [] false false false None)).
  { eapply dr_step; [exact H0 |]. by apply (ds_timer (mkDial [started_attempt; not_started] 1 1 [] [] false false true None)). }
  pose proof (run_connect _ _ 0 H1 eq_refl eq_refl) as H2. pose proof (run_connect _ _ 1 H2 eq_refl eq_refl) as H3.
  pose proof (run_send _ _ 0 _ _ _ _ H3 eq_refl) as H4. pose proof (run_send _ _ 1 _ _ _ _ H4 eq_refl) as H5.
  eapply dr_step; [exact H5 |]. exact (ds_result (mkDial [connected_sent; connected_sent] 2 2 [(0%nat, RConn); (1%nat, RConn)] [] false false false None) 0 RConn [(1%nat, RConn)] eq_refl eq_refl).
Qed.

(** When two attempts connect before the caller takes the first report, the second
    connection stays in the channel: no goroutine is left that would close it. *)
Theorem hedged_connection_leaks :
  dial_reachable hedged_plan two_connections ∧ dl_outcome two_connections = Some (Connection 0) ∧
  (∃ a, dl_attempts two_connections !! 1%nat = Some a ∧ at_open a = true) ∧
  ∀ s', dial_step two_connections s' → dl_attempts s' = dl_attempts two_connections.
Proof.
  split_and!; [exact two_connections_reachable | done | by eexists |].
  intros s' Hstep. inversion Hstep as [s i a a' Hi Hst | s i r m c o Hi | | | |]; subst; try done.
  - destruct i as [|[|i]]; simplify_eq/=; inversion Hst.
  - destruct i as [|[|i]]; simplify_eq/=.
Qed.

(** The same happens to a single attempt when the context of the caller ends
    between the attempt's test and its report being taken. *)
Definition cancelled_connection : dial :=
  mkDial [connected_sent] 1 1 [(0%nat, RConn)] [] true true false (Some (ContextDone [])).

Theorem cancelled_connection_leaks :
  dial_reachable single_plan cancelled_connection ∧
  (∃ a, dl_attempts cancelled_connection !! 0%nat = Some a ∧ at_open a = true) ∧ ∀ s', ¬ dial_step cancelled_connection s'.
Proof.
  split_and!; [| by eexists |].
  - assert (H0 : dial_reachable single_plan (mkDial [started_attempt] 1 1 [] [] false false false None)) by by apply dr_start.
    pose proof (run_send _ _ 0 _ _ _ _ (run_connect _ _ 0 H0 eq_refl eq_refl) eq_refl) as H1.
    pose proof (dr_step _ _ _ H1 (ds_cancel (mkDial [connected_sent] 1 1 [(0%nat, RConn)] [] false false false None) eq_refl)) as H2.
    eapply dr_step; [exact H2 |]. by apply (ds_ctx (mkDial [connected_sent] 1 1 [(0%nat, RConn)] [] true false false None)).
  - intros s' Hstep. inversion Hstep as [s i a a' Hi Hst | s i r m c o Hi | | | |]; subst; try done.
    + destruct i as [|i]; simplify_eq/=; inversion Hst.
    + destruct i as [|i]; simplify_eq/=.
Qed.

(** A plan of one candidate whose dial fails. *)
Definition failed_single : dial :=
  mkDial [mkAttempt Reported 1 1 false] 1 0 [] [(0%nat, RErr)] false true false (Some (AllFailed [(0%nat, RErr)])).

Lemma failed_single_reachable : dial_reachable single_plan failed_single.
Proof.
  assert (H0 : dial_reachable single_plan (mkDial [started_attempt] 1 1 [] [] false false false None)) by by apply dr_start.
  assert (H1 : dial_reachable single_plan (mkDial [mkAttempt Dialing 1 0 false] 1 1 [] [] false false false None)).
  { exact (dr_step _ _ _ H0 (ds_attempt (mkDial [started_attempt] 1 1 [] [] false false false None) 0 _ _ eq_refl (as_begun _))). }
  assert (H2 : dial_reachable single_plan (mkDial [mkAttempt (Reporting RErr) 1 1 false] 1 1 [] [] false false false None)).
  { exact (dr_step _ _ _ H1 (ds_attempt (mkDial [mkAttempt Dialing 1 0 false] 1 1 [] [] false false false None) 0 _ _ eq_refl (as_aborted _))). }
  pose proof (run_send _ _ 0 _ _ _ _ H2 eq_refl) as H3. eapply dr_step; [exact H3 |].
  exact (ds_result (mkDial [mkAttempt Reported 1 1 false] 1 1 [(0%nat, RErr)] [] false false false None) 0 RErr [] eq_refl eq_refl).
Qed.

Lemma Dial_exhausts_plan_witness :
  [(0%nat, RErr)].*1 ≡ₚ seq 0 (length (dp_Candidates single_plan)) ∧ ∀ i r, (i, r) ∈ [(0%nat, RErr)] → r ≠ RConn.
Proof. exact (Dial_exhausts_plan single_plan failed_single [(0%nat, RErr)] failed_single_reachable eq_refl). Defined.

Lemma Dial_settles_permits_witness :
  dial_reachable single_plan failed_single ∧
  ∀ i a, dl_attempts failed_single !! i = Some a → at_phase a = Reported ∨ at_phase a = Dropped → at_settled a = at_taken a.
Proof. split; [exact failed_single_reachable |]. exact (proj1 (Dial_settles_permits single_plan failed_single failed_single_reachable)). Defined.

Definition one_started : dial := mkDial [started_attempt] 1 1 [] [] false false false None.
Lemma one_started_reachable : dial_reachable single_plan one_started.
Proof. by apply dr_start. Qed.

Lemma Dial_terminates_witness :
  (work (set_attempt one_started 0 (mkAttempt Dialing 1 0 false)) < work one_started)%nat.
Proof.
  apply (Dial_terminates single_plan one_started _ one_started_reachable). eapply ds_attempt; [reflexivity | apply as_begun].
Defined.
Lemma Dial_progress_witness : ∃ s', dial_step one_started s'.
Proof. exact (Dial_progress single_plan one_started one_started_reachable eq_refl). Defined.

Lemma Dial_closes_connections_witness :
  (∀ es, dl_outcome two_connections ≠ Some (AllFailed es)) ∧ at_open connected_sent = true.
Proof.
  split; [| reflexivity].
  exact (proj1 (Dial_closes_connections hedged_plan two_connections 0 connected_sent two_connections_reachable eq_refl eq_refl)).
Defined.
