(* ===== verification/TlsFragment.v ===== *)
(** * Fragmentation of a TLS ClientHello

    [src/common/tlsfragment]: the search for the server name in a ClientHello
    (index.go) and the connection whose first write is cut inside that name,
    into packets or into TLS records (conn.go, wait_linux.go).

    Slices are indexed as Go indexes them, with a panic out of range (a slice is
    taken to have no capacity beyond its length).  The loop over the extensions
    is given a number of rounds; [Diverge] says that they were not enough.  The
    operating system answers from a script: each write, socket option and poll
    takes the next answer, and an operation without an answer blocks.  The random
    numbers are a sequence, and the public suffix list a function, that the
    theorems quantify over. *)

From Stdlib Require Import ZArith Lia.
From S2P Require Import Prelude NetIP Varbin.
From stdpp Require Import base sets list strings numbers.

Local Open Scope Z_scope.

(** ** Go computations that may panic, run forever or block *)

Inductive outcome (A : Type) : Type :=
| Ret (a : A)
| Panic
| Diverge
| Blocked.
Arguments Ret {A} a.
Arguments Panic {A}.
Arguments Diverge {A}.
Arguments Blocked {A}.

Definition o_bind {A B} (m : outcome A) (f : A → outcome B) : outcome B :=
  match m with Ret a => f a | Panic => Panic | Diverge => Diverge | Blocked => Blocked end.

Declare Scope outcome_scope.
Delimit Scope outcome_scope with outcome.
Notation "'let*' x := m 'in' k" := (o_bind m (λ x, k))
  (at level 10, x pattern, k at level 200) : outcome_scope.
#[global] Open Scope outcome_scope.

Definition len {A} (b : list A) : Z := Z.of_nat (length b).

(** [b[i]], [b[i:]], [b[:j]] and [b[i:j]] *)
Definition index {A} (b : list A) (i : Z) : outcome A :=
  if i <? 0 then Panic else match b !! Z.to_nat i with Some x => Ret x | None => Panic end.
Definition slice {A} (b : list A) (i j : Z) : outcome (list A) :=
  if (0 <=? i) && (i <=? j) && (j <=? len b)
  then Ret (drop (Z.to_nat i) (take (Z.to_nat j) b)) else Panic.
Definition slice_from {A} (b : list A) (i : Z) : outcome (list A) := slice b i (len b).
Definition slice_to {A} (b : list A) (j : Z) : outcome (list A) := slice b 0 j.

(** [uint16(x)<<8 | uint16(y)] of two bytes *)
Definition be16 (x y : Z) : Z := Z.lor (u16 (Z.shiftl x 8)) y.

(** ** The search for the server name (index.go) *)

Definition recordLayerHeaderLen : Z := 5.
Definition handshakeHeaderLen : Z := 6.
Definition randomDataLen : Z := 32.
Definition sessionIDHeaderLen : Z := 1.
Definition cipherSuiteHeaderLen : Z := 2.
Definition compressMethodHeaderLen : Z := 1.
Definition extensionsHeaderLen : Z := 2.
Definition extensionHeaderLen : Z := 4.
Definition sniExtensionHeaderLen : Z := 5.
Definition contentType : Z := 22.
Definition handshakeType : Z := 1.
Definition sniExtensionType : Z := 0.
Definition sniNameDNSHostnameType : Z := 0.
Definition tlsVersionBitmask : Z := 0xFFFC.
Definition tls13 : Z := 0x0304.

Record MyServerName := {
  Index : Z;
  Length : Z;
  ServerName : bytes;
  ExtensionsListLengthIndex : Z }.

(** The case of the SNI extension with content [sex]. *)
Definition sni_extension (sex : bytes) (currentIndex : Z) : outcome (option MyServerName) :=
  if len sex <? sniExtensionHeaderLen then Ret None
  else
    let* sniType := index sex 2 in
    if negb (sniType =? sniNameDNSHostnameType) then Ret None
    else
      let* x := index sex 3 in
      let* y := index sex 4 in
      let* sex := slice_from sex sniExtensionHeaderLen in
      Ret (Some {| Index := currentIndex + extensionHeaderLen + sniExtensionHeaderLen;
                   Length := be16 x y; ServerName := sex; ExtensionsListLengthIndex := 0 |}).

(** [for currentIndex := ...; len(exs) > 0; { ... }]; the slice that continues
    starts at [4+exLen], which is a [uint16]. *)
Fixpoint extension_loop (rounds : nat) (exs : bytes) (currentIndex : Z) : outcome (option MyServerName) :=
  if negb (0 <? len exs) then Ret None
  else
    match rounds with
    | O => Diverge
    | S rounds =>
        if len exs <? extensionHeaderLen then Ret None
        else
          let* t1 := index exs 0 in
          let* t2 := index exs 1 in
          let exType := be16 t1 t2 in
          let* l1 := index exs 2 in
          let* l2 := index exs 3 in
          let exLen := be16 l1 l2 in
          if len exs <? extensionHeaderLen + exLen then Ret None
          else
            let* sex := slice exs extensionHeaderLen (extensionHeaderLen + exLen) in
            if exType =? sniExtensionType then sni_extension sex currentIndex
            else
              let* exs := slice_from exs (u16 (4 + exLen)) in
              extension_loop rounds exs (currentIndex + (4 + exLen))
    end.

Definition indexTLSServerNameFromExtensions (rounds : nat) (exs : bytes) : outcome (option MyServerName) :=
  if len exs =? 0 then Ret None
  else if len exs <? extensionsHeaderLen then Ret None
  else
    let* x := index exs 0 in
    let* y := index exs 1 in
    let exsLen := be16 x y in
    let* exs := slice_from exs extensionsHeaderLen in
    if len exs <? exsLen then Ret None
    else extension_loop rounds exs extensionsHeaderLen.

Definition indexTLSServerNameFromHandshake (rounds : nat) (handshake : bytes) : outcome (option MyServerName) :=
  if len handshake <? handshakeHeaderLen + randomDataLen + sessionIDHeaderLen then Ret None
  else
    let* h0 := index handshake 0 in
    if negb (h0 =? handshakeType) then Ret None
    else
      let* h1 := index handshake 1 in
      let* h2 := index handshake 2 in
      let* h3 := index handshake 3 in
      let handshakeLen := Z.lor (Z.lor (u32 (Z.shiftl h1 16)) (u32 (Z.shiftl h2 8))) h3 in
      let* body := slice_from handshake 4 in
      if negb (len body =? handshakeLen) then Ret None
      else
        let* v1 := index handshake 4 in
        let* v2 := index handshake 5 in
        let tlsVersion := be16 v1 v2 in
        if negb (Z.land tlsVersion tlsVersionBitmask =? 0x0300) && negb (tlsVersion =? tls13) then Ret None
        else
          let* sessionIDLen := index handshake 38 in
          let currentIndex := handshakeHeaderLen + randomDataLen + sessionIDHeaderLen + sessionIDLen in
          if len handshake <? currentIndex then Ret None
          else
            let* cipherSuites := slice_from handshake currentIndex in
            if len cipherSuites <? cipherSuiteHeaderLen then Ret None
            else
              let* c1 := index cipherSuites 0 in
              let* c2 := index cipherSuites 1 in
              let csLen := be16 c1 c2 in
              if len cipherSuites <? cipherSuiteHeaderLen + csLen + compressMethodHeaderLen then Ret None
              else
                let* compressMethodLen := index cipherSuites (cipherSuiteHeaderLen + csLen) in
                let currentIndex := currentIndex + (cipherSuiteHeaderLen + csLen + compressMethodHeaderLen + compressMethodLen) in
                if len handshake <? currentIndex then Ret None
                else
                  let* exs := slice_from handshake currentIndex in
                  let* serverName := indexTLSServerNameFromExtensions rounds exs in
                  match serverName with
                  | None => Ret None
                  | Some s => Ret (Some {| Index := Index s + currentIndex; Length := Length s;
                                           ServerName := ServerName s; ExtensionsListLengthIndex := currentIndex |})
                  end.

Definition IndexTLSServerName (rounds : nat) (payload : bytes) : outcome (option MyServerName) :=
  if len payload <? recordLayerHeaderLen then Ret None
  else
    let* p0 := index payload 0 in
    if negb (p0 =? contentType) then Ret None
    else
      let* p3 := index payload 3 in
      let* p4 := index payload 4 in
      let segmentLen := be16 p3 p4 in
      if len payload <? recordLayerHeaderLen + segmentLen then Ret None
      else
        let* handshake := slice_from payload recordLayerHeaderLen in
        let* serverName := indexTLSServerNameFromHandshake rounds handshake in
        match serverName with
        | None => Ret None
        | Some s => Ret (Some {| Index := Index s + recordLayerHeaderLen; Length := Length s; ServerName := ServerName s;
                                 ExtensionsListLengthIndex := ExtensionsListLengthIndex s + recordLayerHeaderLen |})
        end.

(** ** The operating system *)

(** What the next operation meets: an error, with the bytes a failed write has
    put out before; for a poll, the state of the context, the bytes not
    acknowledged and the time since the write. *)
Record answer := {
  an_err : option (nat * string);
  an_ctx : option string;
  an_unacked : Z;
  an_elapsed : Z }.

Inductive event : Type :=
| EvNoDelay (on : bool)
| EvWrote (p : bytes)
| EvSleep (d : Z).

Record world := { w_script : list answer; w_trace : list event }.

(** The bytes put on the wire. *)
Definition wrote (e : event) : bytes := match e with EvWrote p => p | _ => [] end.
Definition wire (w : world) : bytes := concat (map wrote (w_trace w)).

Definition log (w : world) (e : event) : world :=
  {| w_script := w_script w; w_trace := w_trace w ++ [e] |}.

Definition io (A : Type) : Type := world → outcome A * world.
Definition io_ret {A} (a : A) : io A := λ w, (Ret a, w).
Definition io_of {A} (m : outcome A) : io A := λ w, (m, w).
Definition io_bind {A B} (m : io A) (f : A → io B) : io B := λ w,
  match m w with
  | (Ret a, w) => f a w
  | (Panic, w) => (Panic, w)
  | (Diverge, w) => (Diverge, w)
  | (Blocked, w) => (Blocked, w)
  end.
Declare Scope io_scope.
Delimit Scope io_scope with io.
Notation "'do' x '<-' m ';;' k" := (io_bind m (λ x, k))
  (at level 10, x pattern, m at level 99, k at level 200) : io_scope.
#[global] Open Scope io_scope.

(** An operation that takes the next answer. *)
Definition ask : io answer := λ w,
  match w_script w with
  | [] => (Blocked, w)
  | a :: s => (Ret a, {| w_script := s; w_trace := w_trace w |})
  end.
Definition emit (e : event) : io () := λ w, (Ret (), log w e).

Definition SetNoDelay (on : bool) : io (option string) :=
  do a <- ask;;
  match an_err a with
  | Some (_, e) => io_ret (Some e)
  | None => do _ <- emit (EvNoDelay on);; io_ret None
  end.

Definition conn_Write (p : bytes) : io (Z * option string) :=
  do a <- ask;;
  match an_err a with
  | Some (n, e) => do _ <- emit (EvWrote (take n p));; io_ret (len (take n p), Some e)
  | None => do _ <- emit (EvWrote p);; io_ret (len p, None)
  end.

(** The loop of [writeAndWaitAck]: every poll takes an answer. *)
Fixpoint ack_loop (script : list answer) (fallbackDelay : Z) : io (option string) := λ w,
  match script with
  | [] => (Blocked, {| w_script := []; w_trace := w_trace w |})
  | a :: script =>
      let w := {| w_script := script; w_trace := w_trace w |} in
      match an_ctx a with
      | Some e => (Ret (Some e), w)
      | None =>
          match an_err a with
          | Some (_, e) => (Ret (Some e), w)
          | None =>
              if an_unacked a =? 0 then
                (Ret None, if an_elapsed a <=? 20 * millisecond then log w (EvSleep fallbackDelay) else w)
              else ack_loop script fallbackDelay (log w (EvSleep (10 * millisecond)))
          end
      end
  end.

(** wait_linux.go; the variant for macOS reads the bytes in flight from another
    option. *)
Definition writeAndWaitAck (payload : bytes) (fallbackDelay : Z) : io (option string) :=
  do r <- conn_Write payload;;
  match r with
  | (_, Some e) => io_ret (Some e)
  | (_, None) => λ w, ack_loop (w_script w) fallbackDelay w
  end.

(** ** The connection (conn.go) *)

Record Conn := {
  c_tcpConn : bool;  (** [tcpConn != nil] *)
  c_firstPacketWritten : bool;
  c_splitPacket : bool;
  c_splitRecord : bool;
  c_fallbackDelay : Z }.

Definition TLSFragmentFallbackDelay : Z := 500 * millisecond.

(** [tcp] tells whether the connection unwraps to a TCP connection. *)
Definition NewConn (tcp splitPacket splitRecord : bool) (fallbackDelay : Z) : Conn :=
  {| c_tcpConn := tcp; c_firstPacketWritten := false; c_splitPacket := splitPacket; c_splitRecord := splitRecord;
     c_fallbackDelay := if fallbackDelay =? 0 then TLSFragmentFallbackDelay else fallbackDelay |}.

Definition WriterReplaceable (c : Conn) : bool := c_firstPacketWritten c.

Definition dot : Z := 46.

(** [strings.Split(s, ".")] and [strings.Count(s, ".")] *)
Fixpoint Split (s : bytes) : list bytes :=
  match s with
  | [] => [[]]
  | x :: s =>
      if x =? dot then [] :: Split s
      else match Split s with [] => [[x]] | l :: ls => (x :: l) :: ls end
  end.
Definition Count (s : bytes) : Z := len (filter (λ x, x = dot) s).

(** [rand.Intn(n)] with the random number [r]. *)
Definition Intn (r n : Z) : outcome Z := if n <=? 0 then Panic else Ret (r mod n).

Section Write.
Context (PublicSuffix : bytes → bytes) (rand : nat → Z).

(** The labels that get a cut, and where the first starts. *)
Definition cut_labels (serverName : MyServerName) : outcome (list bytes * Z) :=
  let splits := Split (ServerName serverName) in
  let currentIndex := Index serverName in
  let* splits :=
    (if bool_decide (PublicSuffix (ServerName serverName) ≠ [])
     then slice_to splits (len splits - Count (ServerName serverName))
     else Ret splits) in
  if 1 <? len splits then
    let* s0 := index splits 0 in
    if bool_decide (s0 = [dot; dot; dot]) then
      let* splits := slice_from splits 1 in Ret (splits, currentIndex + (len s0 + 1))
    else Ret (splits, currentIndex)
  else Ret (splits, currentIndex).

(** [for i, split := range splits]: [n] is [len(splits)]. *)
Fixpoint split_loop (splits : list bytes) (i : nat) (n currentIndex : Z) : outcome (list Z) :=
  match splits with
  | [] => Ret []
  | split :: splits =>
      let* splitAt := Intn (rand i) (len split) in
      let next := currentIndex + len split in
      let next := if negb (Z.of_nat i =? n - 1) then next + 1 else next in
      let* rest := split_loop splits (S i) n next in
      Ret (currentIndex + splitAt :: rest)
  end.

Definition split_indexes (serverName : MyServerName) : outcome (list Z) :=
  let* (splits, currentIndex) := cut_labels serverName in
  split_loop splits 0 (len splits) currentIndex.

(** The bytes of round [i]. *)
Definition payload_at (c : Conn) (b : bytes) (splitIndexes : list Z) (i : nat) : outcome bytes :=
  if Nat.eqb i 0 then
    let* s := index splitIndexes (Z.of_nat i) in
    let* payload := slice_to b s in
    if c_splitRecord c then slice_from payload recordLayerHeaderLen else Ret payload
  else if Nat.eqb i (length splitIndexes) then
    let* s := index splitIndexes (Z.of_nat i - 1) in slice_from b s
  else
    let* s := index splitIndexes (Z.of_nat i - 1) in
    let* t := index splitIndexes (Z.of_nat i) in
    slice b s t.

(** [binary.Write(&buffer, binary.BigEndian, payloadLen)] *)
Definition put_uint16 (v : Z) : bytes := be_bytes 2 v.

(** One round: the error that ends the write, or the buffer. *)
Definition fragment_round (c : Conn) (b : bytes) (splitIndexes : list Z) (i : nat) (buffer : bytes) : io (string + bytes) :=
  do payload <- io_of (payload_at c b splitIndexes i);;
  do r <- (if c_splitRecord c then
             let buffer := if c_splitPacket c then [] else buffer in
             do h <- io_of (slice_to b 3);;
             let buffer := buffer ++ h ++ put_uint16 (u16 (len payload)) ++ payload in
             io_ret (buffer, if c_splitPacket c then buffer else payload)
           else io_ret (buffer, payload));;
  let '(buffer, payload) := r in
  if c_splitPacket c then
    if c_tcpConn c && negb (Nat.eqb i (length splitIndexes)) then
      do e <- writeAndWaitAck payload (c_fallbackDelay c);;
      io_ret (match e with Some e => inl e | None => inr buffer end)
    else
      do r <- conn_Write payload;;
      match r with
      | (_, Some e) => io_ret (inl e)
      | (_, None) =>
          if negb (Nat.eqb i (length splitIndexes)) then
            do _ <- emit (EvSleep (c_fallbackDelay c));; io_ret (inr buffer)
          else io_ret (inr buffer)
      end
  else io_ret (inr buffer).

(** [for i := 0; i <= len(splitIndexes); i++], from round [i], [k] to go. *)
Fixpoint fragment_loop (c : Conn) (b : bytes) (splitIndexes : list Z) (k i : nat) (buffer : bytes) : io (string + bytes) :=
  match k with
  | O => io_ret (inr buffer)
  | S k =>
      do r <- fragment_round c b splitIndexes i buffer;;
      match r with
      | inl e => io_ret (inl e)
      | inr buffer => fragment_loop c b splitIndexes k (S i) buffer
      end
  end.

(** [err = f(); if err != nil { return }], where the named result [n] is zero. *)
Definition check (m : io (option string)) (k : io (Z * option string)) : io (Z * option string) :=
  do e <- m;;
  match e with Some e => io_ret (0, Some e) | None => k end.

(** The branch of a ClientHello. *)
Definition write_hello (c : Conn) (b : bytes) (serverName : MyServerName) : io (Z * option string) :=
  check (if c_splitPacket c && c_tcpConn c then SetNoDelay true else io_ret None)
  (do splitIndexes <- io_of (split_indexes serverName);;
   do r <- fragment_loop c b splitIndexes (S (length splitIndexes)) 0 [];;
   match r with
   | inl e => io_ret (0, Some e)
   | inr buffer =>
       check (if c_splitRecord c && negb (c_splitPacket c)
              then do r <- conn_Write buffer;; io_ret (r.2) else io_ret None)
       (check (if c_tcpConn c then SetNoDelay false else io_ret None)
        (io_ret (len b, None)))
   end).

(** [Write]: the deferred store runs on every way out. *)
Definition Write (c : Conn) (b : bytes) : world → outcome (Z * option string) * world * Conn := λ w,
  if c_firstPacketWritten c then (conn_Write b w, c)
  else
    let r := (do serverName <- io_of (IndexTLSServerName (length b) b);;
              match serverName with
              | Some serverName => write_hello c b serverName
              | None => conn_Write b
              end) w in
    (r, {| c_tcpConn := c_tcpConn c; c_firstPacketWritten := true; c_splitPacket := c_splitPacket c;
           c_splitRecord := c_splitRecord c; c_fallbackDelay := c_fallbackDelay c |}).

(** Writes one after the other, until one does not return without an error. *)
Fixpoint writes (c : Conn) (bs : list bytes) (w : world) : bool * world * Conn :=
  match bs with
  | [] => (true, w, c)
  | b :: bs =>
      let '(o, w, c) := Write c b w in
      match o with Ret (_, None) => writes c bs w | _ => (false, w, c) end
  end.

End Write.

(** ** Rules for computations *)

(** [m] returns a value in [Q], or diverges and [d] holds. *)
Definition owp {A} (d : Prop) (m : outcome A) (Q : A → Prop) : Prop :=
  match m with Ret a => Q a | Diverge => d | Panic | Blocked => False end.

Section Rules.
Context {A : Type} (d : Prop).
Implicit Types (b : list A).

Lemma owp_ret (a : A) (Q : A → Prop) : Q a → owp d (Ret a) Q.
Proof. done. Qed.

Lemma owp_bind {B} (m : outcome A) (f : A → outcome B) Q : owp d m (λ a, owp d (f a) Q) → owp d (o_bind m f) Q.
Proof. by destruct m. Qed.

Lemma owp_mono (d' : Prop) (m : outcome A) (P Q : A → Prop) :
  owp d m P → (d → d') → (∀ a, P a → Q a) → owp d' m Q.
Proof. destruct m; simpl; auto. Qed.

Lemma owp_if (c : bool) (m1 m2 : outcome A) Q :
  (c = true → owp d m1 Q) → (c = false → owp d m2 Q) → owp d (if c then m1 else m2) Q.
Proof. destruct c; auto. Qed.

Lemma index_lookup b i x : 0 ≤ i → b !! Z.to_nat i = Some x → index b i = Ret x.
Proof. intros Hi Hx. unfold index. rewrite (proj2 (Z.ltb_ge _ _)) by lia. by rewrite Hx. Qed.

Lemma owp_index b i Q :
  0 ≤ i < len b → (∀ x, b !! Z.to_nat i = Some x → Q x) → owp d (index b i) Q.
Proof.
  intros Hi HQ. destruct (lookup_lt_is_Some_2 b (Z.to_nat i)) as [x Hx]; [unfold len in Hi; lia|].
  rewrite (index_lookup b i x) by (lia || done). by apply HQ.
Qed.

Lemma slice_ok b i j : 0 ≤ i ≤ j → j ≤ len b → slice b i j = Ret (drop (Z.to_nat i) (take (Z.to_nat j) b)).
Proof. intros Hi Hj. unfold slice. by rewrite !(proj2 (Z.leb_le _ _)) by lia. Qed.

Lemma slice_from_ok b i : 0 ≤ i ≤ len b → slice_from b i = Ret (drop (Z.to_nat i) b).
Proof.
  intros Hi. unfold slice_from. rewrite slice_ok by lia. rewrite firstn_all2; [done|]. unfold len. lia.
Qed.

Lemma slice_to_ok b j : 0 ≤ j ≤ len b → slice_to b j = Ret (take (Z.to_nat j) b).
Proof. intros Hj. unfold slice_to. by rewrite slice_ok by lia. Qed.

Lemma owp_slice_from b i Q : 0 ≤ i ≤ len b → Q (drop (Z.to_nat i) b) → owp d (slice_from b i) Q.
Proof. intros Hi HQ. by rewrite slice_from_ok. Qed.

Lemma owp_slice b i j Q :
  0 ≤ i ≤ j → j ≤ len b → Q (drop (Z.to_nat i) (take (Z.to_nat j) b)) → owp d (slice b i j) Q.
Proof. intros Hi Hj HQ. by rewrite slice_ok. Qed.

End Rules.

Lemma len_nonneg {A} (b : list A) : 0 ≤ len b.
Proof. unfold len. lia. Qed.

Lemma len_app {A} (a b : list A) : len (a ++ b) = len a + len b.
Proof. unfold len. rewrite length_app. lia. Qed.

Lemma len_cons {A} (x : A) b : len (x :: b) = 1 + len b.
Proof. unfold len. simpl. lia. Qed.

Lemma len_drop {A} (b : list A) i : 0 ≤ i ≤ len b → len (drop (Z.to_nat i) b) = len b - i.
Proof. unfold len. rewrite length_drop. lia. Qed.

Lemma len_take {A} (b : list A) i : 0 ≤ i ≤ len b → len (take (Z.to_nat i) b) = i.
Proof. unfold len. rewrite length_take. lia. Qed.

(** The steps of a specification of straight-line code. *)
Ltac ostep :=
  lazymatch goal with
  | |- owp _ (Ret _) _ => apply owp_ret
  | |- owp _ (o_bind _ _) _ => apply owp_bind
  | |- owp _ (index _ _) _ => apply owp_index; [|intros]
  | |- owp _ (if _ then _ else _) _ => apply owp_if; intros
  end.

(** *** Sixteen-bit integers *)

Abbreviation is_bytes := (Forall (fits 8)).

Lemma lookup_byte (b : bytes) i x : is_bytes b → b !! i = Some x → fits 8 x.
Proof. intros Hb Hx. by eapply Forall_lookup_1. Qed.

Lemma be16_value x y : fits 8 x → fits 8 y → be16 x y = x * 256 + y.
Proof.
  unfold fits. change (2 ^ 8) with 256. intros Hx Hy. unfold be16, u16.
  rewrite Z.shiftl_mul_pow2 by lia. change (2 ^ 8) with 256. change (2 ^ 16) with 65536. rewrite Z.mod_small by lia.
  rewrite Z.lor_comm. change 256 with (2 ^ 8) at 1. rewrite <- Z.shiftl_mul_pow2 by lia.
  rewrite lor_disjoint by (change (2 ^ 8) with 256; lia). change (2 ^ 8) with 256. lia.
Qed.

Lemma be16_range x y : fits 8 x → fits 8 y → 0 ≤ be16 x y < 65536.
Proof. intros Hx Hy. rewrite be16_value by done. unfold fits in *. change (2 ^ 8) with 256 in *. lia. Qed.

Lemma be16_lookup (b : bytes) i j x y : is_bytes b → b !! i = Some x → b !! j = Some y → 0 ≤ be16 x y < 65536.
Proof. intros Hb Hx Hy. apply be16_range; by eapply lookup_byte. Qed.

(** ** The search: no panic, termination, position *)

(** The name found is where [Index] says, [cur] being the index of [b]. *)
Definition located (b : bytes) (cur : Z) (s : MyServerName) : Prop :=
  ∃ pre post, b = pre ++ ServerName s ++ post ∧ Index s = cur + len pre.

(** What a search promises of its result; it may only diverge on a long input
    or with too few rounds. *)
Definition search_ok (rounds : nat) (b : bytes) (cur : Z) (m : outcome (option MyServerName)) : Prop :=
  owp (65536 ≤ len b ∨ (rounds < length b)%nat) m (λ r, ∀ s, r = Some s → len b < 65536 → located b cur s).

Lemma located_drop b n cur s :
  (n ≤ length b)%nat → located (drop n b) (cur + Z.of_nat n) s → located b cur s.
Proof.
  intros Hn (pre & post & E & Hi). exists (take n b ++ pre), post. split.
  - by rewrite <- app_assoc, <- E, take_drop.
  - rewrite Hi, len_app. unfold len. rewrite length_take. lia.
Qed.

Lemma search_none rounds b cur : search_ok rounds b cur (Ret None).
Proof. unfold search_ok. simpl. intros s Hs. discriminate Hs. Qed.

(** A search in what follows the first [n] bytes. *)
Lemma search_drop rounds b n cur m :
  (n ≤ length b)%nat → search_ok rounds (drop n b) (cur + Z.of_nat n) m → search_ok rounds b cur m.
Proof.
  intros Hn Hm. eapply owp_mono; [exact Hm|..]; cbv beta; unfold len; rewrite length_drop.
  - intros []; [left | right]; lia.
  - intros r Hr s Hs Hlen. eapply located_drop; [exact Hn|]. apply Hr; [done | lia].
Qed.

Lemma sni_extension_spec (sex : bytes) cur :
  owp False (sni_extension sex cur) (λ r, ∀ s, r = Some s →
    Index s = cur + 9 ∧ ∃ hd, length hd = 5%nat ∧ sex = hd ++ ServerName s).
Proof.
  unfold sni_extension. ostep; [ostep; by intros|]. apply Z.ltb_ge in H. unfold sniExtensionHeaderLen, extensionHeaderLen in *.
  ostep; ostep; [lia|]. ostep; [ostep; by intros|]. ostep; ostep; [lia|]. ostep; ostep; [lia|]. ostep.
  apply owp_slice_from; [lia|]. ostep. intros s [= <-]. cbn [Index ServerName]. split; [lia|].
  exists (take 5 sex). change (Z.to_nat 5) with 5%nat. rewrite take_drop. split; [|done]. rewrite length_take. unfold len in *. lia.
Qed.

Lemma is_bytes_drop n b : is_bytes b → is_bytes (drop n b).
Proof. apply Forall_drop. Qed.
#[local] Hint Resolve is_bytes_drop : core.

Lemma extension_loop_spec rounds exs cur :
  is_bytes exs → search_ok rounds exs cur (extension_loop rounds exs cur).
Proof.
  revert exs cur. induction rounds as [|rounds IH]; intros exs cur Hb; cbn [extension_loop].
  - unfold search_ok. ostep; [ostep; by intros|]. simpl. right. apply negb_false_iff, Z.ltb_lt in H. unfold len in H. lia.
  - unfold search_ok. ostep; [ostep; by intros|]. apply negb_false_iff, Z.ltb_lt in H. ostep; [ostep; by intros|].
    apply Z.ltb_ge in H0. unfold extensionHeaderLen in *.
    do 4 (ostep; ostep; [lia|]). pose proof (be16_lookup _ _ _ _ _ Hb H3 H4) as Hl. set (exLen := be16 x1 x2) in *.
    ostep; [ostep; by intros|]. apply Z.ltb_ge in H5. ostep. apply owp_slice; [lia..|]. ostep.
    + eapply owp_mono; [apply sni_extension_spec | done |]. cbv beta. intros r Hr s Hs _.
      destruct (Hr s Hs) as (Hi & hd & Hhd & E).
      exists (take 4 exs ++ hd), (drop (Z.to_nat (4 + exLen)) exs). split.
      * rewrite <- app_assoc, (app_assoc hd), <- E.
        assert (take (Z.to_nat (4 + exLen)) exs = take 4 exs ++ drop (Z.to_nat 4) (take (Z.to_nat (4 + exLen)) exs)) as Ht.
        { rewrite <- (take_drop 4 (take (Z.to_nat (4 + exLen)) exs)) at 1. f_equal. rewrite take_take. f_equal. lia. }
        by rewrite app_assoc, <- Ht, take_drop.
      * rewrite Hi, len_app. unfold len in *. rewrite length_take. lia.
    + assert (0 ≤ u16 (4 + exLen) ≤ 4 + exLen) as Hu.
      { unfold u16. split; [apply Z.mod_pos_bound; lia | apply Z.mod_le; lia]. }
      ostep. apply owp_slice_from; [lia|].
      pose proof (IH (drop (Z.to_nat (u16 (4 + exLen))) exs) (cur + (4 + exLen)) (is_bytes_drop _ _ Hb)) as IH'.
      destruct (Z.lt_ge_cases (4 + exLen) 65536) as [Hw|Hw].
      * assert (u16 (4 + exLen) = 4 + exLen) as Hid by (apply Z.mod_small; lia). rewrite Hid in *.
        eapply owp_mono; [exact IH'|..]; cbv beta; unfold len in *; rewrite length_drop.
        -- intros []; [left | right]; lia.
        -- intros r Hr s Hs Hlen. eapply (located_drop _ (Z.to_nat (4 + exLen))); [lia|].
           rewrite Z2Nat.id by lia. apply Hr; [done | lia].
      * eapply owp_mono; [exact IH'|..]; cbv beta; intros; [left|]; lia.
Qed.

Lemma FromExtensions_spec rounds exs :
  is_bytes exs → search_ok rounds exs 0 (indexTLSServerNameFromExtensions rounds exs).
Proof.
  intros Hb. unfold search_ok, indexTLSServerNameFromExtensions. ostep; [ostep; by intros|]. ostep; [ostep; by intros|].
  apply Z.ltb_ge in H0. unfold extensionsHeaderLen in *. do 2 (ostep; ostep; [lia|]). ostep. apply owp_slice_from; [lia|].
  ostep; [ostep; by intros|]. apply (search_drop _ _ 2); [unfold len in *; lia|]. by apply extension_loop_spec, is_bytes_drop.
Qed.

(** The caller shifts the index of what it found behind [n] bytes. *)
Lemma search_shift rounds b n m (f : MyServerName → MyServerName) :
  0 ≤ n ≤ len b → (∀ s, Index (f s) = Index s + n ∧ ServerName (f s) = ServerName s) →
  search_ok rounds (drop (Z.to_nat n) b) 0 m →
  search_ok rounds b 0 (let* r := m in match r with None => Ret None | Some s => Ret (Some (f s)) end).
Proof.
  intros Hn Hf Hm. unfold search_ok in *. apply owp_bind. eapply owp_mono; [exact Hm|..]; cbv beta.
  - unfold len in *. rewrite length_drop. intros []; [left | right]; lia.
  - intros [s|] Hs; simpl; [|done]. intros s' [= <-] Hlen.
    destruct (Hs s eq_refl) as (pre & post & E & Hi); [rewrite len_drop by done; lia|].
    destruct (Hf s) as [Hi' Hn']. apply (located_drop _ (Z.to_nat n)); [unfold len in *; lia|].
    exists pre, post. rewrite Hn', Hi', Hi. split; [done | lia].
Qed.

Lemma FromHandshake_spec rounds handshake :
  is_bytes handshake → search_ok rounds handshake 0 (indexTLSServerNameFromHandshake rounds handshake).
Proof.
  intros Hb. unfold search_ok, indexTLSServerNameFromHandshake. ostep; [ostep; by intros|]. apply Z.ltb_ge in H.
  unfold handshakeHeaderLen, randomDataLen, sessionIDHeaderLen, cipherSuiteHeaderLen, compressMethodHeaderLen in *.
  ostep; ostep; [lia|]. ostep; [ostep; by intros|]. do 3 (ostep; ostep; [lia|]). ostep. apply owp_slice_from; [lia|].
  ostep; [ostep; by intros|]. do 2 (ostep; ostep; [lia|]). ostep; [ostep; by intros|]. ostep; ostep; [lia|].
  ostep; [ostep; by intros|]. pose proof (lookup_byte _ _ _ Hb H9) as [Hs _]. apply Z.ltb_ge in H10.
  ostep. apply owp_slice_from; [lia|]. ostep; [ostep; by intros|]. apply Z.ltb_ge in H11.
  do 2 (ostep; ostep; [lia|]). pose proof (be16_lookup _ _ _ _ _ (is_bytes_drop _ _ Hb) H12 H13) as Hl.
  ostep; [ostep; by intros|]. apply Z.ltb_ge in H14. ostep; ostep; [lia|]. ostep; [ostep; by intros|]. apply Z.ltb_ge in H16.
  pose proof (lookup_byte _ _ _ (is_bytes_drop _ _ Hb) H15) as [Hc _].
  ostep. apply owp_slice_from; [lia|].
  match goal with |- owp _ (o_bind (_ _ (drop (Z.to_nat ?n) _)) _) _ =>
    apply (search_shift rounds handshake n _ (λ s, {| Index := Index s + n; Length := Length s;
       ServerName := ServerName s; ExtensionsListLengthIndex := n |})) end;
    [lia | done | by apply FromExtensions_spec, is_bytes_drop].
Qed.

Lemma IndexTLSServerName_spec rounds payload :
  is_bytes payload → search_ok rounds payload 0 (IndexTLSServerName rounds payload).
Proof.
  intros Hb. unfold search_ok, IndexTLSServerName. ostep; [ostep; by intros|]. apply Z.ltb_ge in H.
  unfold recordLayerHeaderLen in *. ostep; ostep; [lia|]. ostep; [ostep; by intros|]. do 2 (ostep; ostep; [lia|]).
  ostep; [ostep; by intros|]. ostep. apply owp_slice_from; [lia|].
  apply (search_shift rounds payload 5 _ (λ s, {| Index := Index s + 5; Length := Length s;
    ServerName := ServerName s; ExtensionsListLengthIndex := ExtensionsListLengthIndex s + 5 |}));
    [lia | done | by apply FromHandshake_spec, is_bytes_drop].
Qed.

(** A name found is behind the record header. *)
Lemma IndexTLSServerName_header rounds payload s :
  is_bytes payload → IndexTLSServerName rounds payload = Ret (Some s) → len payload < 65536 →
  ∃ pre post, payload = pre ++ ServerName s ++ post ∧ Index s = len pre ∧ 5 ≤ len pre.
Proof.
  intros Hb E Hlen. unfold IndexTLSServerName in E.
  destruct (len payload <? _) eqn:H5; [discriminate|]. apply Z.ltb_ge in H5. unfold recordLayerHeaderLen in *.
  destruct (index payload 0); simpl in E; try discriminate. destruct (negb _); [discriminate|].
  destruct (index payload 3); simpl in E; try discriminate. destruct (index payload 4); simpl in E; try discriminate.
  destruct (len payload <? _); [discriminate|]. rewrite slice_from_ok in E by lia. simpl in E.
  pose proof (FromHandshake_spec rounds (drop (Z.to_nat 5) payload) (is_bytes_drop _ _ Hb)) as Hs. unfold search_ok in Hs.
  destruct (indexTLSServerNameFromHandshake _ _) as [[s'|]| | |]; simpl in E; try discriminate. injection E as <-.
  destruct (Hs s' eq_refl) as (pre & post & E & Hi); [rewrite len_drop; lia|]. cbn [Index ServerName].
  exists (take 5 payload ++ pre), post. change (Z.to_nat 5) with 5%nat in E.
  rewrite <- app_assoc, <- E, take_drop, len_app, Hi. unfold len in *. rewrite length_take. split; [done | lia].
Qed.

(** ** The search finds the name of a well-formed ClientHello *)

Record client_hello := {
  ch_minor : Z;  (** of the version [3.minor] *)
  ch_random : bytes;
  ch_session : bytes;
  ch_ciphers : bytes;
  ch_compression : bytes }.

Definition hello_wf (h : client_hello) : Prop :=
  0 ≤ ch_minor h ≤ 4 ∧ len (ch_random h) = 32 ∧ len (ch_session h) < 256 ∧ len (ch_ciphers h) < 65536 ∧ len (ch_compression h) < 256.

(** The handshake message up to the extensions, for a body of [total] bytes. *)
Definition hello_head (h : client_hello) (total : Z) : bytes :=
  ([1] ++ be_bytes 3 total ++ [3; ch_minor h] ++ ch_random h) ++ [len (ch_session h)] ++
  ch_session h ++ be_bytes 2 (len (ch_ciphers h)) ++ ch_ciphers h ++ [len (ch_compression h)] ++ ch_compression h.

Definition hello_size (h : client_hello) : Z :=
  38 + len (ch_session h) + len (ch_ciphers h) + len (ch_compression h).

(** A record of [segment] declared bytes with the message and the extension block [block]. *)
Definition hello_record (h : client_hello) (segment : Z) (block : bytes) : bytes :=
  [22; 3; 1] ++ be_bytes 2 segment ++ hello_head h (hello_size h + len block) ++ block.

Definition extension_bytes (x : Z * bytes) : bytes := be_bytes 2 x.1 ++ be_bytes 2 (len x.2) ++ x.2.
Definition extension_block (xs : list (Z * bytes)) : bytes :=
  be_bytes 2 (len (concat (map extension_bytes xs))) ++ concat (map extension_bytes xs).
(** The server name extension (RFC 6066) with one host name. *)
Definition sni_bytes (name : bytes) : bytes := be_bytes 2 (len name + 3) ++ [0] ++ be_bytes 2 (len name) ++ name.

Lemma be_bytes_2 v : be_bytes 2 v = [(v / 256) mod 256; v mod 256].
Proof. reflexivity. Qed.

Lemma be_bytes_3 v : be_bytes 3 v = [(v / 256 / 256) mod 256; (v / 256) mod 256; v mod 256].
Proof. reflexivity. Qed.

Lemma be16_bytes v : 0 ≤ v < 65536 → be16 ((v / 256) mod 256) (v mod 256) = v.
Proof.
  intros Hv. assert (0 ≤ v / 256 < 256) by (split; [apply Z.div_pos | apply Z.div_lt_upper_bound]; lia).
  rewrite be16_value by (unfold fits; change (2 ^ 8) with 256; apply Z.mod_pos_bound; lia).
  rewrite (Z.mod_small (v / 256)) by lia. pose proof (Z.div_mod v 256). lia.
Qed.

Lemma be24_bytes v : 0 ≤ v < 2 ^ 24 →
  Z.lor (Z.lor (u32 (Z.shiftl ((v / 256 / 256) mod 256) 16)) (u32 (Z.shiftl ((v / 256) mod 256) 8))) (v mod 256) = v.
Proof.
  change (2 ^ 24) with 16777216. intros Hv.
  assert (0 ≤ v / 256 < 65536) by (split; [apply Z.div_pos | apply Z.div_lt_upper_bound]; lia).
  assert (0 ≤ v / 256 / 256 < 256) by (split; [apply Z.div_pos | apply Z.div_lt_upper_bound]; lia).
  pose proof (Z.mod_pos_bound (v / 256) 256 ltac:(lia)). pose proof (Z.mod_pos_bound v 256 ltac:(lia)).
  rewrite (Z.mod_small (v / 256 / 256)) by lia. unfold u32. rewrite !Z.shiftl_mul_pow2 by lia.
  change (2 ^ 32) with 4294967296. change (2 ^ 16) with 65536. change (2 ^ 8) with 256. rewrite !Z.mod_small by lia.
  assert (Z.lor (v / 256 / 256 * 65536) ((v / 256) mod 256 * 256) = v / 256 * 256) as ->.
  { rewrite Z.lor_comm. change 65536 with (2 ^ 16). rewrite <- Z.shiftl_mul_pow2 by lia.
    rewrite lor_disjoint by (change (2 ^ 16) with 65536; lia). change (2 ^ 16) with 65536.
    pose proof (Z.div_mod (v / 256) 256). lia. }
  rewrite Z.lor_comm. change 256 with (2 ^ 8) at 3. rewrite <- Z.shiftl_mul_pow2 by lia.
  rewrite lor_disjoint by (change (2 ^ 8) with 256; lia). change (2 ^ 8) with 256. pose proof (Z.div_mod v 256). lia.
Qed.

Lemma index_at {A} (a b : list A) x i : i = len a → index (a ++ x :: b) i = Ret x.
Proof.
  intros ->. apply index_lookup; [apply len_nonneg|]. unfold len. rewrite Nat2Z.id. by rewrite list_lookup_middle.
Qed.

Lemma slice_from_at {A} (a b : list A) i : i = len a → slice_from (a ++ b) i = Ret b.
Proof.
  intros ->. rewrite slice_from_ok by (rewrite len_app; pose proof (len_nonneg a); pose proof (len_nonneg b); lia).
  unfold len. rewrite Nat2Z.id. by rewrite drop_app_length.
Qed.

Definition shift_name (n : Z) (s : MyServerName) : MyServerName :=
  {| Index := Index s + n; Length := Length s; ServerName := ServerName s; ExtensionsListLengthIndex := n |}.

Definition head_len (h : client_hello) : Z := hello_size h + 4.

Lemma hello_head_len h total : len (ch_random h) = 32 → len (hello_head h total) = head_len h.
Proof.
  intros Hr. unfold hello_head, head_len, hello_size. rewrite be_bytes_2, be_bytes_3.
  repeat (rewrite len_app || rewrite len_cons). rewrite Hr. change (len (@nil Z)) with 0. lia.
Qed.

Lemma minor_version m : 0 ≤ m ≤ 4 →
  negb (Z.land (be16 3 m) tlsVersionBitmask =? 0x0300) && negb (be16 3 m =? tls13) = false.
Proof. intros Hm. assert (m = 0 ∨ m = 1 ∨ m = 2 ∨ m = 3 ∨ m = 4) as [|[|[|[|]]]] by lia; by subst m. Qed.

Lemma FromHandshake_hello rounds h block :
  hello_wf h → hello_size h + len block < 2 ^ 24 →
  indexTLSServerNameFromHandshake rounds (hello_head h (hello_size h + len block) ++ block) =
    let* r := indexTLSServerNameFromExtensions rounds block in Ret (shift_name (head_len h) <$> r).
Proof.
  intros (Hm & Hr & Hs & Hc & Hz) Ht. set (total := hello_size h + len block) in *.
  pose proof (len_nonneg (ch_session h)). pose proof (len_nonneg (ch_ciphers h)). pose proof (len_nonneg (ch_compression h)).
  pose proof (len_nonneg block). pose proof (hello_head_len h total Hr) as Hh.
  set (C := ch_ciphers h ++ len (ch_compression h) :: ch_compression h ++ block).
  set (R := ch_random h ++ len (ch_session h) :: ch_session h ++ be_bytes 2 (len (ch_ciphers h)) ++ C).
  set (L := hello_head h total ++ block) in *.
  assert (E : L = [1] ++ be_bytes 3 total ++ [3; ch_minor h] ++ R).
  { unfold L, R, C, hello_head. by rewrite <- !app_assoc. }
  assert (Hlen : len L = total + 4).
  { unfold L. rewrite len_app, Hh. unfold head_len, total. lia. }
  assert (Hblock : slice_from L (head_len h) = Ret block) by (by apply slice_from_at).
  assert (Hsid : index L 38 = Ret (len (ch_session h))).
  { rewrite E. unfold R. rewrite be_bytes_3, !app_assoc. apply index_at. by rewrite len_app, Hr. }
  assert (Hcs : slice_from L (39 + len (ch_session h)) = Ret (be_bytes 2 (len (ch_ciphers h)) ++ C)).
  { assert (L = ([1] ++ be_bytes 3 total ++ [3; ch_minor h] ++ ch_random h ++ [len (ch_session h)] ++ ch_session h) ++
      be_bytes 2 (len (ch_ciphers h)) ++ C) as -> by (rewrite E; unfold R; by rewrite <- !app_assoc).
    apply slice_from_at. rewrite be_bytes_3. repeat (rewrite len_app || rewrite len_cons). rewrite Hr.
    change (len (@nil Z)) with 0. lia. }
  assert (0 ≤ total) by (unfold total, hello_size; lia).
  assert (Hbody : slice_from L 4 = Ret (drop 4 L)) by (apply slice_from_ok; lia).
  assert (Hbl : len (drop 4 L) = total) by (unfold len in *; rewrite length_drop; lia).
  unfold head_len, hello_size in *. unfold indexTLSServerNameFromHandshake.
  unfold handshakeHeaderLen, randomDataLen, sessionIDHeaderLen, cipherSuiteHeaderLen, compressMethodHeaderLen, handshakeType.
  rewrite Hlen. rewrite (proj2 (Z.ltb_ge _ _)) by lia.
  assert (∀ i x, 0 ≤ i → ([1] ++ be_bytes 3 total ++ [3; ch_minor h] ++ R) !! Z.to_nat i = Some x → index L i = Ret x) as Hi.
  { intros i x Hi Hx. rewrite E. by apply index_lookup. }
  rewrite be_bytes_3 in Hi. rewrite (Hi 0 _ ltac:(lia) eq_refl), (Hi 1 _ ltac:(lia) eq_refl), (Hi 2 _ ltac:(lia) eq_refl),
    (Hi 3 _ ltac:(lia) eq_refl), (Hi 4 _ ltac:(lia) eq_refl), (Hi 5 _ ltac:(lia) eq_refl), Hbody, Hsid.
  cbn [o_bind]. change (negb (1 =? 1)) with false. cbv iota. rewrite be24_bytes, Hbl, Z.eqb_refl, minor_version by lia.
  cbn [negb]. replace (6 + 32 + 1 + len (ch_session h)) with (39 + len (ch_session h)) by lia.
  rewrite (proj2 (Z.ltb_ge _ _)) by lia. rewrite Hcs. cbn [o_bind].
  assert (len C = len (ch_ciphers h) + 1 + len (ch_compression h) + len block) as HC.
  { unfold C. rewrite len_app, len_cons, len_app. lia. }
  rewrite be_bytes_2. cbn [app]. rewrite !len_cons, HC. rewrite (proj2 (Z.ltb_ge _ _)) by lia.
  assert (∀ x y : Z, index (x :: y :: C) 0 = Ret x) as -> by done.
  assert (∀ x y : Z, index (x :: y :: C) 1 = Ret y) as -> by done. cbn [o_bind]. rewrite be16_bytes by lia.
  rewrite (proj2 (Z.ltb_ge _ _)) by lia.
  assert (∀ x y, index (x :: y :: C) (2 + len (ch_ciphers h)) = Ret (len (ch_compression h))) as ->.
  { intros x y. unfold C. rewrite !app_comm_cons. apply index_at. rewrite !len_cons. lia. }
  cbn [o_bind].
  replace (39 + len (ch_session h) + (2 + len (ch_ciphers h) + 1 + len (ch_compression h)))
    with (38 + len (ch_session h) + len (ch_ciphers h) + len (ch_compression h) + 4) by lia.
  rewrite (proj2 (Z.ltb_ge _ _)) by lia. rewrite Hblock. cbn [o_bind].
  by destruct (indexTLSServerNameFromExtensions rounds block) as [[s|]| | |].
Qed.

Definition shift_record (s : MyServerName) : MyServerName :=
  {| Index := Index s + 5; Length := Length s; ServerName := ServerName s;
     ExtensionsListLengthIndex := ExtensionsListLengthIndex s + 5 |}.

Lemma IndexTLSServerName_hello rounds h segment block :
  hello_wf h → hello_size h + len block < 2 ^ 24 → 0 ≤ segment < 65536 → segment ≤ head_len h + len block →
  IndexTLSServerName rounds (hello_record h segment block) =
    let* r := indexTLSServerNameFromExtensions rounds block in Ret (shift_record <$> (shift_name (head_len h) <$> r)).
Proof.
  intros Hh Ht Hs Hseg. set (H := hello_head h (hello_size h + len block) ++ block).
  assert (len H = head_len h + len block) as Hl.
  { unfold H. rewrite len_app, hello_head_len; [done|]. by destruct Hh as (_ & ? & _). }
  set (L := hello_record h segment block).
  assert (E : L = [22; 3; 1; (segment / 256) mod 256; segment mod 256] ++ H) by reflexivity.
  assert (len L = 5 + len H) as HL by (by rewrite E, len_app).
  assert (0 ≤ len H) by apply len_nonneg. unfold IndexTLSServerName, recordLayerHeaderLen, contentType.
  assert (slice_from L 5 = Ret H) as Hsl by (rewrite E; by apply slice_from_at).
  assert (index L 0 = Ret 22) as -> by (by rewrite E).
  assert (index L 3 = Ret ((segment / 256) mod 256)) as -> by (by rewrite E).
  assert (index L 4 = Ret (segment mod 256)) as -> by (by rewrite E). cbn [o_bind].
  rewrite (proj2 (Z.ltb_ge _ _)) by lia. change (negb (22 =? 22)) with false. cbv iota. rewrite be16_bytes by lia.
  rewrite (proj2 (Z.ltb_ge _ _)) by lia. rewrite Hsl. cbn [o_bind]. unfold H. rewrite FromHandshake_hello by done.
  by destruct (indexTLSServerNameFromExtensions rounds block) as [[s|]| | |].
Qed.

(** One extension at the head of the list. *)
Lemma extension_loop_head rounds t d rest cur :
  0 ≤ t < 65536 → len d < 65536 →
  extension_loop (S rounds) (extension_bytes (t, d) ++ rest) cur =
    if t =? sniExtensionType then sni_extension d cur
    else let* exs := slice_from (extension_bytes (t, d) ++ rest) (u16 (4 + len d)) in extension_loop rounds exs (cur + (4 + len d)).
Proof.
  intros Ht Hd. set (L := extension_bytes (t, d) ++ rest). cbn [extension_loop].
  assert (E : L = [(t / 256) mod 256; t mod 256; (len d / 256) mod 256; len d mod 256] ++ d ++ rest) by (unfold L, extension_bytes; by rewrite <- !app_assoc).
  assert (len L = 4 + len d + len rest) as Hl by (rewrite E, !len_app; change (len [_; _; _; _]) with 4; lia).
  pose proof (len_nonneg d). pose proof (len_nonneg rest). unfold extensionHeaderLen.
  rewrite (proj2 (Z.ltb_lt 0 _)) by lia. cbn [negb]. rewrite (proj2 (Z.ltb_ge _ _)) by lia.
  assert (index L 0 = Ret ((t / 256) mod 256)) as -> by (by rewrite E). assert (index L 1 = Ret (t mod 256)) as -> by (by rewrite E).
  assert (index L 2 = Ret ((len d / 256) mod 256)) as -> by (by rewrite E). assert (index L 3 = Ret (len d mod 256)) as -> by (by rewrite E).
  cbn [o_bind]. rewrite !be16_bytes by lia. rewrite (proj2 (Z.ltb_ge _ _)) by lia.
  assert (slice L 4 (4 + len d) = Ret d) as ->; [|done].
  rewrite slice_ok by lia. f_equal. rewrite E, app_assoc. unfold len.
  replace (Z.to_nat (4 + Z.of_nat (length d))) with (length ([(t / 256) mod 256; t mod 256; (len d / 256) mod 256; len d mod 256] ++ d))
    by (simpl; lia).
  rewrite take_app_length. done.
Qed.

Lemma sni_extension_bytes name cur :
  len name < 65536 → sni_extension (sni_bytes name) cur =
    Ret (Some {| Index := cur + 9; Length := len name; ServerName := name; ExtensionsListLengthIndex := 0 |}).
Proof.
  intros Hn. pose proof (len_nonneg name). unfold sni_bytes. rewrite !be_bytes_2. cbn [app]. unfold sni_extension, sniExtensionHeaderLen.
  rewrite !len_cons. rewrite (proj2 (Z.ltb_ge _ _)) by lia.
  set (L := _ :: _). assert (index L 2 = Ret 0) as -> by done. assert (index L 3 = Ret ((len name / 256) mod 256)) as -> by done.
  assert (index L 4 = Ret (len name mod 256)) as -> by done. cbn [o_bind]. change (negb (0 =? sniNameDNSHostnameType)) with false. cbv iota.
  assert (slice_from L 5 = Ret name) as ->.
  { unfold L. rewrite slice_from_ok by (rewrite !len_cons; lia). done. }
  cbn [o_bind]. rewrite be16_bytes by lia. unfold extensionHeaderLen. do 3 f_equal. lia.
Qed.

Definition plain_extension (x : Z * bytes) : Prop := 0 < x.1 < 65536 ∧ len x.2 < 65532.

Lemma extension_loop_finds rounds xs name rest cur :
  Forall plain_extension xs → len name < 65527 → (length xs < rounds)%nat →
  extension_loop rounds (concat (map extension_bytes xs) ++ extension_bytes (0, sni_bytes name) ++ rest) cur =
    Ret (Some {| Index := cur + len (concat (map extension_bytes xs)) + 9; Length := len name; ServerName := name;
                 ExtensionsListLengthIndex := 0 |}).
Proof.
  intros Hxs Hn. revert rounds cur. induction Hxs as [|[t d] xs [Ht Hd] Hxs IH]; intros rounds cur Hr; (destruct rounds as [|rounds]; [simpl in Hr; lia|]).
  - cbn [map concat app]. rewrite extension_loop_head; [|lia|].
    + change (0 =? sniExtensionType) with true. cbv iota. rewrite sni_extension_bytes by lia. change (len (@nil Z)) with 0. do 3 f_equal. lia.
    + unfold sni_bytes. rewrite !be_bytes_2. repeat (rewrite len_app || rewrite len_cons). change (len (@nil Z)) with 0. lia.
  - cbn [map concat]. simpl in Ht, Hd, Hr. rewrite <- app_assoc, extension_loop_head by lia. pose proof (len_nonneg d).
    assert (len (extension_bytes (t, d)) = 4 + len d) as He.
    { unfold extension_bytes. rewrite !be_bytes_2. repeat (rewrite len_app || rewrite len_cons). change (len (@nil Z)) with 0. simpl. lia. }
    unfold sniExtensionType. rewrite (proj2 (Z.eqb_neq t 0)) by lia. unfold u16. rewrite Z.mod_small by (change (2 ^ 16) with 65536; lia).
    rewrite slice_from_at by done. cbn [o_bind]. rewrite IH by lia. rewrite len_app, He. do 3 f_equal. lia.
Qed.

Lemma FromExtensions_block rounds xs :
  len (concat (map extension_bytes xs)) < 65536 →
  indexTLSServerNameFromExtensions rounds (extension_block xs) = extension_loop rounds (concat (map extension_bytes xs)) 2.
Proof.
  intros Hl. unfold indexTLSServerNameFromExtensions, extension_block. set (X := concat _) in *.
  pose proof (len_nonneg X). rewrite be_bytes_2. set (L := _ ++ X).
  assert (len L = 2 + len X) as HL by (unfold L; by rewrite len_app).
  rewrite (proj2 (Z.eqb_neq _ _)) by lia. unfold extensionsHeaderLen. rewrite (proj2 (Z.ltb_ge _ _)) by lia.
  assert (index L 0 = Ret ((len X / 256) mod 256)) as -> by done. assert (index L 1 = Ret (len X mod 256)) as -> by done.
  assert (slice_from L 2 = Ret X) as -> by (by apply slice_from_at). cbn [o_bind]. rewrite be16_bytes by lia.
  by rewrite Z.ltb_irrefl.
Qed.

Lemma extensions_count xs : (4 * length xs ≤ length (concat (map extension_bytes xs)))%nat.
Proof.
  induction xs as [|[t d] xs IH]; [done|]. cbn [map concat]. unfold extension_bytes at 1. rewrite !be_bytes_2, !length_app. simpl. lia.
Qed.

Lemma hello_record_len h segment block :
  len (ch_random h) = 32 → len (hello_record h segment block) = 5 + head_len h + len block.
Proof.
  intros Hr. unfold hello_record. rewrite be_bytes_2. cbn [app]. rewrite !len_cons, len_app, hello_head_len by done. lia.
Qed.

Lemma extension_block_len xs : len (extension_block xs) = 2 + len (concat (map extension_bytes xs)).
Proof. unfold extension_block. by rewrite be_bytes_2, len_app. Qed.

(** In every well-formed ClientHello of less than 65536 bytes with a server
    name extension, whatever its other extensions are, the search finds the name
    with its length and the index at which it starts. *)
Theorem IndexTLSServerName_finds h xs name ys :
  let block := extension_block (xs ++ (0, sni_bytes name) :: ys) in
  let payload := hello_record h (head_len h + len block) block in
  hello_wf h → Forall plain_extension xs → len payload < 65536 →
  ∃ pre post, payload = pre ++ concat (map extension_bytes xs) ++ extension_bytes (0, sni_bytes name) ++ post ∧
    IndexTLSServerName (length payload) payload =
      Ret (Some {| Index := len pre + len (concat (map extension_bytes xs)) + 9; Length := len name; ServerName := name;
                   ExtensionsListLengthIndex := 5 + head_len h |}).
Proof.
  intros block payload Hh Hxs Hlen. destruct Hh as (Hm & Hr & Hh). pose proof (hello_record_len h (head_len h + len block) block Hr) as Hp.
  fold payload in Hp. unfold head_len, hello_size in *.
  pose proof (len_nonneg (ch_session h)). pose proof (len_nonneg (ch_ciphers h)). pose proof (len_nonneg (ch_compression h)).
  pose proof (extension_block_len (xs ++ (0, sni_bytes name) :: ys)) as Hb. fold block in Hb.
  rewrite map_app, concat_app, map_cons, concat_cons in Hb. set (X := concat (map extension_bytes xs)) in *.
  set (Y := concat (map extension_bytes ys)) in *. pose proof (len_nonneg X). pose proof (len_nonneg Y).
  assert (len (extension_bytes (0, sni_bytes name)) = 9 + len name) as Hs.
  { unfold extension_bytes, sni_bytes. cbn [fst snd]. rewrite !be_bytes_2. repeat (rewrite len_app || rewrite len_cons). change (len (@nil Z)) with 0. lia. }
  rewrite !len_app, Hs in Hb. pose proof (len_nonneg name).
  exists ([22; 3; 1] ++ be_bytes 2 (head_len h + len block) ++ hello_head h (hello_size h + len block) ++
          be_bytes 2 (len block - 2)), Y.
  split.
  { unfold payload, hello_record, head_len, hello_size. unfold block at 3. unfold extension_block.
    rewrite map_app, concat_app, map_cons, concat_cons. fold X Y. rewrite <- !app_assoc. do 4 f_equal.
    rewrite Hb, !len_app, Hs. by replace (2 + (len X + (9 + len name + len Y)) - 2) with (len X + (9 + len name + len Y)) by lia. }
  assert (length xs < length payload)%nat as Hrounds.
  { pose proof (extensions_count xs) as Hx. fold X in Hx. unfold len in *. lia. }
  generalize dependent (length payload). intros rounds Hrounds. unfold payload. rewrite IndexTLSServerName_hello;
    [|exact (conj Hm (conj Hr Hh))|unfold head_len, hello_size; change (2 ^ 24) with 16777216; lia..].
  unfold block. rewrite FromExtensions_block; rewrite map_app, concat_app, map_cons, concat_cons; fold X Y; [|rewrite !len_app, Hs; lia].
  unfold X. rewrite extension_loop_finds by (done || lia).
  assert (len (@nil Z) = 0) as Hnil by done. rewrite !be_bytes_2, !len_app, hello_head_len by done. fold X.
  unfold head_len, hello_size. rewrite !len_cons, Hnil. cbn. unfold shift_record, shift_name. cbn.
  do 3 f_equal; unfold head_len, hello_size; lia.
Qed.

(** The witness's ClientHello: three extensions and the name [abc.io]. *)
Definition sample_hello : client_hello :=
  {| ch_minor := 3; ch_random := repeat 7 32; ch_session := [1; 2]; ch_ciphers := [19; 1]; ch_compression := [0] |}.
Definition sample_name : bytes := [97; 98; 99; 46; 105; 111].
Definition sample_block : bytes := extension_block ([(16, [0; 3; 2; 104; 50])] ++ (0, sni_bytes sample_name) :: [(43, [3; 4])]).
Definition sample_record : bytes := hello_record sample_hello (head_len sample_hello + len sample_block) sample_block.

Lemma IndexTLSServerName_finds_witness :
  ∃ pre post, sample_record = pre ++ concat (map extension_bytes [(16, [0; 3; 2; 104; 50])]) ++ extension_bytes (0, sni_bytes sample_name) ++ post ∧
    IndexTLSServerName (length sample_record) sample_record =
      Ret (Some {| Index := len pre + 9 + 9; Length := 6; ServerName := sample_name; ExtensionsListLengthIndex := 52 |}).
Proof.
  apply (IndexTLSServerName_finds sample_hello [(16, [0; 3; 2; 104; 50])] sample_name [(43, [3; 4])]); vm_compute; repeat constructor; discriminate.
Defined.

(** A single extension whose length and header make 65536 bytes. *)
Lemma extension_loop_stuck rounds t d cur :
  0 < t < 65536 → len d = 65532 → extension_loop rounds (extension_bytes (t, d)) cur = Diverge.
Proof.
  intros Ht Hd. revert cur. induction rounds as [|rounds IH]; intros cur.
  - cbn [extension_loop]. rewrite (proj2 (Z.ltb_lt _ _)); [done|]. unfold extension_bytes.
    rewrite !be_bytes_2. cbn [app]. rewrite len_cons. pose proof (len_nonneg (t mod 256 :: (len d / 256) mod 256 :: len d mod 256 :: d)). simpl. lia.
  - rewrite <- (app_nil_r (extension_bytes (t, d))), extension_loop_head by lia. unfold sniExtensionType. rewrite (proj2 (Z.eqb_neq _ _)) by lia.
    rewrite app_nil_r, Hd. change (u16 (4 + 65532)) with 0. rewrite (slice_from_at [] (extension_bytes (t, d)) 0 eq_refl : slice_from (extension_bytes (t, d)) 0 = _).
    cbn [o_bind]. apply IH.
Qed.

(** The sum [4+exLen] wraps at 16 bits: on a ClientHello longer than 65536
    bytes whose record and handshake headers are in order, an extension of 65532
    bytes is visited forever, and the search never returns. *)
Theorem IndexTLSServerName_diverges h t d segment :
  hello_wf h → 0 < t < 65536 → len d = 65532 → 0 ≤ segment < 65536 →
  ∀ rounds, IndexTLSServerName rounds (hello_record h segment (be_bytes 2 0 ++ extension_bytes (t, d))) = Diverge.
Proof.
  intros Hh Ht Hd Hs rounds. pose proof Hh as (Hm & Hr & Hh').
  assert (len (be_bytes 2 0 ++ extension_bytes (t, d)) = 65538) as Hl.
  { unfold extension_bytes. rewrite !be_bytes_2. repeat (rewrite len_app || rewrite len_cons). cbn [snd]. rewrite Hd. done. }
  rewrite IndexTLSServerName_hello; [|done|..]; rewrite ?Hl; unfold head_len, hello_size; change (2 ^ 24) with 16777216;
    pose proof (len_nonneg (ch_session h)); pose proof (len_nonneg (ch_ciphers h)); pose proof (len_nonneg (ch_compression h)); try lia.
  unfold indexTLSServerNameFromExtensions. rewrite Hl. change (65538 =? 0) with false. change (65538 <? extensionsHeaderLen) with false.
  cbv iota. rewrite be_bytes_2. set (X := extension_bytes (t, d)) in *. set (L := _ ++ X) in *.
  assert (index L 0 = Ret 0) as -> by done. assert (index L 1 = Ret 0) as -> by done.
  assert (slice_from L extensionsHeaderLen = Ret X) as -> by (by apply slice_from_at). cbn [o_bind].
  change (be16 0 0) with 0. rewrite (proj2 (Z.ltb_ge _ _)) by apply len_nonneg. unfold X.
  by rewrite extension_loop_stuck.
Qed.

Lemma IndexTLSServerName_diverges_witness :
  IndexTLSServerName 1000 (hello_record sample_hello 100 (be_bytes 2 0 ++ extension_bytes (1, repeat 0 (Z.to_nat 65532)))) = Diverge.
Proof.
  apply (IndexTLSServerName_diverges sample_hello 1 (repeat 0 (Z.to_nat 65532)) 100); [vm_compute; repeat constructor; discriminate | lia | | lia].
  unfold len. rewrite repeat_length, Z2Nat.id by lia. done.
Defined.

(** A search on less than 65536 bytes returns. *)
Lemma IndexTLSServerName_returns payload :
  is_bytes payload → len payload < 65536 → ∃ r, IndexTLSServerName (length payload) payload = Ret r.
Proof.
  intros Hb Hlen. pose proof (IndexTLSServerName_spec (length payload) payload Hb) as H. unfold search_ok in H.
  destruct (IndexTLSServerName _ _) as [r| | |]; [by exists r | done | exfalso; simpl in H; lia | done].
Qed.

(** ** Labels and cuts *)

(** [strings.Join(ls, ".")] *)
Fixpoint Join (ls : list bytes) : bytes :=
  match ls with [] => [] | [l] => l | l :: ls => l ++ [dot] ++ Join ls end.

Lemma Split_cons s : ∃ l ls, Split s = l :: ls.
Proof.
  induction s as [|x s (l & ls & IH)]; simpl; [by eexists _, _|]. rewrite IH. destruct (x =? dot); by eexists _, _.
Qed.

Lemma Join_Split s : Join (Split s) = s.
Proof.
  induction s as [|x s IH]; [done|]. cbn [Split]. destruct (Split_cons s) as (l & ls & E). rewrite E in *.
  destruct (x =? dot) eqn:Hx; [apply Z.eqb_eq in Hx; subst x; cbn [Join]; cbn [Join] in IH; by rewrite IH|].
  destruct ls; cbn [Join] in *; by rewrite <- IH.
Qed.

Lemma Split_count s : len (Split s) = Count s + 1.
Proof.
  induction s as [|x s IH]; [done|]. cbn [Split]. unfold Count in *. destruct (Split_cons s) as (l & ls & E). rewrite E in *.
  destruct (x =? dot) eqn:Hx.
  - apply Z.eqb_eq in Hx. rewrite filter_cons_True, len_cons, IH, len_cons by done. lia.
  - apply Z.eqb_neq in Hx. rewrite filter_cons_False by done. rewrite <- IH, !len_cons. done.
Qed.

Lemma Split_no_dot s : Forall (λ l, dot ∉ l) (Split s).
Proof.
  induction s as [|x s IH]; cbn [Split]; [repeat constructor; set_solver|]. destruct (x =? dot) eqn:Hx; [constructor; [set_solver|done]|].
  apply Z.eqb_neq in Hx. destruct (Split_cons s) as (l & ls & E). rewrite E in *. inversion IH; subst.
  constructor; [|done]. intros [?|?]%elem_of_cons; congruence.
Qed.

Section Cuts.
Context (PublicSuffix : bytes → bytes) (rand : nat → Z).

(** The labels that are cut: the first one when the name has a public suffix. *)
Definition target_labels (name : bytes) : list bytes :=
  if bool_decide (PublicSuffix name ≠ []) then take 1 (Split name) else Split name.

Lemma cut_labels_eq s : cut_labels PublicSuffix s = Ret (target_labels (ServerName s), Index s).
Proof.
  unfold cut_labels, target_labels. pose proof (Split_no_dot (ServerName s)) as Hd. pose proof (Split_count (ServerName s)) as Hc.
  destruct (Split_cons (ServerName s)) as (l & ls & E). rewrite E in *. inversion Hd; subst. case_bool_decide.
  - rewrite Hc. replace (Count (ServerName s) + 1 - Count (ServerName s)) with 1 by lia.
    rewrite slice_to_ok by (rewrite len_cons; pose proof (len_nonneg ls); lia). done.
  - cbn [o_bind]. destruct (1 <? len (l :: ls)); [|done]. change (index (l :: ls) 0) with (Ret l). cbn [o_bind].
    rewrite bool_decide_eq_false_2; [done|]. intros ->. set_solver.
Qed.

(** [lo ≤ x1 ≤ ... ≤ xn ≤ hi] *)
Fixpoint chain (lo : Z) (xs : list Z) (hi : Z) : Prop :=
  match xs with [] => lo ≤ hi | x :: xs => lo ≤ x ∧ chain x xs hi end.

Lemma chain_le lo xs hi : chain lo xs hi → lo ≤ hi.
Proof. revert lo. induction xs as [|x xs IH]; simpl; intros lo; [done|]. intros [? ?%IH]. lia. Qed.

Lemma chain_weaken lo lo' xs hi hi' : lo' ≤ lo → hi ≤ hi' → chain lo xs hi → chain lo' xs hi'.
Proof.
  revert lo lo'. induction xs as [|x xs IH]; simpl; intros lo lo' Hl Hh; [lia|]. intros [Hx Hc]. split; [lia|].
  eapply IH; [|done..]. lia.
Qed.

(** The cut of each label is inside the label. *)
Fixpoint cuts (ls : list bytes) (i : nat) (cur : Z) : list Z :=
  match ls with [] => [] | l :: ls => cur + rand i mod len l :: cuts ls (S i) (cur + len l + 1) end.

Lemma split_loop_eq ls i n cur :
  Z.of_nat i + len ls = n → [] ∉ ls → split_loop rand ls i n cur = Ret (cuts ls i cur).
Proof.
  revert i cur. induction ls as [|l ls IH]; intros i cur Hn Hne; [done|]. cbn [split_loop cuts]. rewrite len_cons in Hn.
  pose proof (len_nonneg ls). assert (0 < len l) as Hl by (destruct l; [set_solver | rewrite len_cons; pose proof (len_nonneg l); lia]).
  unfold Intn. rewrite (proj2 (Z.leb_gt _ _)) by lia. cbn [o_bind].
  destruct ls as [|l' ls]; [done|]. rewrite len_cons in Hn. pose proof (len_nonneg ls).
  rewrite (proj2 (Z.eqb_neq _ _)) by (rewrite len_cons in *; lia). cbn [negb].
  rewrite IH; [done | rewrite len_cons in *; lia |]. intros Hin. apply Hne. by right.
Qed.

Lemma split_loop_panic ls i n cur : [] ∈ ls → split_loop rand ls i n cur = Panic.
Proof.
  revert i cur. induction ls as [|l ls IH]; intros i cur Hin; [set_solver|]. cbn [split_loop]. unfold Intn.
  destruct (len l <=? 0) eqn:El; [done|]. cbn [o_bind]. apply Z.leb_gt in El. apply elem_of_cons in Hin as [<-|Hin]; [done|].
  by rewrite IH.
Qed.

Lemma len_pos {A} (l : list A) : l ≠ [] → 0 < len l.
Proof. intros Hl. destruct l as [|x l]; [done|]. rewrite len_cons. pose proof (len_nonneg l). lia. Qed.

Lemma cuts_chain ls i cur : [] ∉ ls → chain cur (cuts ls i cur) (cur + len (Join ls)).
Proof.
  revert i cur. induction ls as [|l ls IH]; intros i cur Hne; [simpl; pose proof (len_nonneg (@nil Z)); lia|].
  assert (0 < len l) as Hl by (apply len_pos; set_solver). pose proof (Z.mod_pos_bound (rand i) (len l) Hl).
  cbn [cuts chain]. split; [lia|]. destruct ls as [|l' ls].
  - simpl. lia.
  - assert ([] ∉ l' :: ls) as Hne' by (intros ?; apply Hne; by right).
    eapply chain_weaken; [..|apply (IH (S i) (cur + len l + 1) Hne')]; [lia|].
    change (Join (l :: l' :: ls)) with (l ++ [dot] ++ Join (l' :: ls)). rewrite !len_app. change (len [dot]) with 1. lia.
Qed.

Lemma cuts_length ls i cur : length (cuts ls i cur) = length ls.
Proof. revert i cur. induction ls; simpl; auto. Qed.

Lemma target_nonempty name : target_labels name ≠ [].
Proof. unfold target_labels. destruct (Split_cons name) as (l & ls & ->). by case_bool_decide. Qed.

Lemma target_within name : len (Join (target_labels name)) ≤ len name.
Proof.
  transitivity (len (Join (Split name))); [|by rewrite Join_Split]. unfold target_labels. case_bool_decide; [|lia]. destruct (Split name) as [|l [|l' ls]]; [done..|].
  change (take 1 (l :: l' :: ls)) with [l]. change (Join (l :: l' :: ls)) with (l ++ [dot] ++ Join (l' :: ls)).
  rewrite !len_app. pose proof (len_nonneg [dot]). pose proof (len_nonneg (Join (l' :: ls))).
  change (Join [l]) with l. lia.
Qed.

(** What the cuts are, or that an empty label makes [rand.Intn] panic. *)
Lemma split_indexes_eq s :
  split_indexes PublicSuffix rand s =
    if bool_decide ([] ∈ target_labels (ServerName s)) then Panic else Ret (cuts (target_labels (ServerName s)) 0 (Index s)).
Proof.
  unfold split_indexes. rewrite cut_labels_eq. cbn [o_bind]. case_bool_decide; [by apply split_loop_panic|].
  by apply split_loop_eq.
Qed.

End Cuts.

(** ** Fragments *)

(** The pieces of [b] from [lo] on, cut at [idx]. *)
Fixpoint pieces (lo : Z) (b : bytes) (idx : list Z) : list bytes :=
  match idx with
  | [] => [drop (Z.to_nat lo) b]
  | x :: idx => drop (Z.to_nat lo) (take (Z.to_nat x) b) :: pieces x b idx
  end.

Lemma pieces_length lo b idx : length (pieces lo b idx) = S (length idx).
Proof. revert lo. induction idx as [|x idx IH]; intros lo; simpl; [done|]. by rewrite IH. Qed.

Lemma pieces_concat lo b idx : 0 ≤ lo → chain lo idx (len b) → concat (pieces lo b idx) = drop (Z.to_nat lo) b.
Proof.
  revert lo. induction idx as [|x idx IH]; simpl; intros lo Hlo; [by rewrite app_nil_r|]. intros [Hx Hc]. rewrite IH by (lia || done).
  pose proof (chain_le _ _ _ Hc) as Hxb. unfold len in Hxb.
  rewrite <- (take_drop (Z.to_nat x) b) at 3. rewrite drop_app_le; [done|]. rewrite length_take. lia.
Qed.

Lemma pieces_small lo b idx : Forall (λ p, len p ≤ len b) (pieces lo b idx).
Proof.
  revert lo. induction idx as [|x idx IH]; simpl; intros lo; repeat constructor; auto; unfold len; rewrite length_drop, ?length_take; lia.
Qed.

Lemma pieces_lookup lo b idx i p :
  pieces lo b idx !! i = Some p →
  ∃ s, (lo :: idx) !! i = Some s ∧
       ((i = length idx ∧ p = drop (Z.to_nat s) b) ∨ ∃ t, idx !! i = Some t ∧ p = drop (Z.to_nat s) (take (Z.to_nat t) b)).
Proof.
  revert lo i. induction idx as [|x idx IH]; intros lo [|i]; simpl; intros H.
  - injection H as <-. exists lo. auto.
  - done.
  - injection H as <-. exists lo. split; [done|]. right. eauto.
  - destruct (IH x i H) as (s & Hs & [[-> ->]|(t & Ht & ->)]); exists s; (split; [done|]); [left | right]; eauto.
Qed.

Lemma chain_lookup lo idx hi i s :
  chain lo idx hi → (lo :: idx) !! i = Some s → lo ≤ s ≤ hi ∧ (∀ t, idx !! i = Some t → s ≤ t ≤ hi).
Proof.
  revert lo i. induction idx as [|x idx IH]; intros lo [|i]; simpl; intros Hc Hs; simplify_eq.
  - split; [lia|]. intros t [=].
  - destruct Hc as [Hx Hc]. pose proof (chain_le _ _ _ Hc). split; [lia|]. intros t [= ->]. lia.
  - destruct Hc as [Hx Hc]. destruct (IH x i Hc Hs) as [? Ht]. split; [lia | exact Ht].
Qed.

Section Fragments.
Context (c : Conn) (b : bytes) (idx : list Z).

Definition start : Z := if c_splitRecord c then 5 else 0.

Hypothesis Hidx : idx ≠ [].
Hypothesis Hchain : chain 5 idx (len b).

Lemma start_chain : chain start idx (len b).
Proof. eapply chain_weaken; [..|exact Hchain]; unfold start; destruct (c_splitRecord c); lia. Qed.

Lemma index_Some {A} (l : list A) (i : nat) x : l !! i = Some x → index l (Z.of_nat i) = Ret x.
Proof. intros Hx. apply index_lookup; [lia|]. by rewrite Nat2Z.id. Qed.

Lemma payload_at_eq i p : pieces start b idx !! i = Some p → payload_at c b idx i = Ret p.
Proof using All.
  intros Hp. destruct (pieces_lookup _ _ _ _ _ Hp) as (s & Hs & Hcase). unfold payload_at.
  destruct (chain_lookup _ _ _ _ _ start_chain Hs) as [Hsb Hst]. assert (0 ≤ start) as H0 by (unfold start; destruct (c_splitRecord c); lia).
  destruct i as [|i]; [change (Nat.eqb 0 0) with true | change (Nat.eqb (S i) 0) with false]; cbv iota.
  - injection Hs as <-. destruct Hcase as [[E _]|(t & Ht & ->)]; [by destruct idx|]. rewrite (index_Some _ _ _ Ht). cbn [o_bind].
    destruct (Hst t Ht). rewrite slice_to_ok by lia. cbn [o_bind]. unfold start in *. destruct (c_splitRecord c); [|done].
    assert (5 ≤ t). { destruct idx as [|x l]; [done|]. injection Ht as ->. apply Hchain. }
    rewrite slice_from_ok; [done|]. rewrite len_take by lia. unfold recordLayerHeaderLen. lia.
  - cbn [lookup list_lookup] in Hs. replace (Z.of_nat (S i) - 1) with (Z.of_nat i) by lia. rewrite (index_Some _ _ _ Hs). cbn [o_bind].
    destruct Hcase as [[E ->]|(t & Ht & ->)].
    + rewrite E, Nat.eqb_refl. apply slice_from_ok. lia.
    + rewrite (proj2 (Nat.eqb_neq _ _)) by (apply lookup_lt_Some in Ht; lia). rewrite (index_Some _ _ _ Ht). cbn [o_bind].
      destruct (Hst t Ht). apply slice_ok; lia.
Qed.

(** A piece as it is sent. *)
Definition frame (p : bytes) : bytes :=
  if c_splitRecord c then take 3 b ++ put_uint16 (u16 (len p)) ++ p else p.

End Fragments.

(** ** Writes *)

Lemma wire_log w e : wire (log w e) = wire w ++ wrote e.
Proof. unfold wire, log. cbn [w_trace]. rewrite map_app, concat_app. cbn [map concat]. by rewrite app_nil_r. Qed.

(** [m] puts out [p] and returns a value in [good], or returns one in [bad] or
    blocks after a part of [p]. *)
Definition sends {A} (p : bytes) (m : io A) (good bad : A → Prop) : Prop :=
  ∀ w, ∃ out, wire (m w).2 = wire w ++ out ∧
    match (m w).1 with
    | Ret a => (good a ∧ out = p) ∨ (bad a ∧ out `prefix_of` p)
    | Blocked => out `prefix_of` p
    | Panic | Diverge => False
    end.

Lemma sends_ret {A} (a : A) (good bad : A → Prop) : good a → sends [] (io_ret a) good bad.
Proof. intros Ha w. exists []. simpl. rewrite app_nil_r. auto. Qed.

Lemma sends_bind {A B} p q (m : io A) (f : A → io B) (good bad : A → Prop) (good' bad' : B → Prop) :
  sends p m good bad → (∀ a, good a → sends q (f a) good' bad') → (∀ a, bad a → ∃ e, f a = io_ret e ∧ bad' e) →
  sends (p ++ q) (io_bind m f) good' bad'.
Proof.
  intros Hm Hf He w. destruct (Hm w) as (out & Ho & Hr). unfold io_bind. destruct (m w) as [[a| | |] w1]; cbn [fst snd] in *; try done.
  - destruct Hr as [[Ha ->]|[Ha Hp]].
    + destruct (Hf a Ha w1) as (out2 & Ho2 & Hr2). exists (p ++ out2). rewrite Ho2, Ho, app_assoc. split; [done|].
      destruct (f a w1) as [[v| | |] w2]; cbn [fst snd] in *; try done; [|by apply prefix_app].
      destruct Hr2 as [[? ->]|[? ?]]; [left; done | right; split; [done | by apply prefix_app]].
    + destruct (He a Ha) as (e & -> & Hbad). exists out. split; [done|]. right. split; [done | by apply prefix_app_r].
  - exists out. split; [done | by apply prefix_app_r].
Qed.

Lemma sends_ext {A} p (m m' : io A) (good bad : A → Prop) : (∀ w, m w = m' w) → sends p m' good bad → sends p m good bad.
Proof. intros E Hm w. rewrite E. apply Hm. Qed.

(** A step that puts nothing out. *)
Lemma sends_silent {A B} q (m : io A) (f : A → io B) (good bad : A → Prop) (good' bad' : B → Prop) :
  sends [] m good bad → (∀ a, good a → sends q (f a) good' bad') → (∀ a, bad a → ∃ e, f a = io_ret e ∧ bad' e) →
  sends q (io_bind m f) good' bad'.
Proof. intros. change q with ([] ++ q). by eapply sends_bind. Qed.

Lemma sends_mono {A} p (m : io A) (good bad good' bad' : A → Prop) :
  sends p m good bad → (∀ a, good a → good' a) → (∀ a, bad a → bad' a) → sends p m good' bad'.
Proof.
  intros Hm Hg Hb w. destruct (Hm w) as (out & Ho & Hr). exists out. split; [done|].
  destruct (m w).1 as [a| | |]; try done. destruct Hr as [[]|[]]; [left | right]; auto.
Qed.

Abbreviation no_error := (λ e : option string, e = None).
Abbreviation an_error := (λ e : option string, e ≠ None).

Lemma sends_SetNoDelay on : sends [] (SetNoDelay on) no_error an_error.
Proof.
  intros [[|a s] tr];
    cbn -[wire log].
  - exists []. by rewrite app_nil_r.
  - destruct (an_err a) as [[n e]|]; cbn -[wire log]; exists []; rewrite app_nil_r; (split; [|by (left + right)]); [done|].
    by rewrite (wire_log {| w_script := s; w_trace := tr |} (EvNoDelay on)), app_nil_r.
Qed.

Lemma sends_conn_Write p : sends p (conn_Write p) (λ r, r = (len p, None)) (λ r, r.2 ≠ None).
Proof.
  intros [[|a s] tr];
    cbn -[wire log].
  - exists []. rewrite app_nil_r. split; [done | apply prefix_nil].
  - destruct (an_err a) as [[n e]|];
    cbn -[wire log].
    + exists (take n p). split; [by rewrite (wire_log {| w_script := s; w_trace := tr |} (EvWrote (take n p)))|].
      right. split; [done | apply prefix_take].
    + exists p. split; [by rewrite (wire_log {| w_script := s; w_trace := tr |} (EvWrote p)) | by left].
Qed.

Lemma ack_loop_wire script d w : wire (ack_loop script d w).2 = wire w ∧
  match (ack_loop script d w).1 with Ret _ | Blocked => True | _ => False end.
Proof.
  revert w. induction script as [|a script IH]; intros w; cbn [ack_loop]; [done|].
  destruct (an_ctx a); [done|]. destruct (an_err a) as [[n e]|]; [done|]. destruct (an_unacked a =? 0).
  - destruct (an_elapsed a <=? _); cbn [fst snd]; [|done]. by rewrite wire_log, app_nil_r.
  - set (w' := log _ _). destruct (IH w') as [IH1 IH2]. split; [|done]. rewrite IH1. unfold w'. by rewrite wire_log, app_nil_r.
Qed.

Lemma sends_writeAndWaitAck p d : sends p (writeAndWaitAck p d) no_error an_error.
Proof.
  unfold writeAndWaitAck. rewrite <- (app_nil_r p) at 1. eapply sends_bind; [apply sends_conn_Write|..].
  - intros r ->. intros w. exists []. rewrite app_nil_r. destruct (ack_loop_wire (w_script w) d w) as [H1 H2]. split; [done|].
    destruct (ack_loop (w_script w) d w) as [[[e|]| | |] w']; cbn in *; try done; [by right | by left].
  - intros [n [e|]] Hr; [|done]. exists (Some e). auto.
Qed.

Lemma drop_cons_inv {A} (l r : list A) i x : drop i l = x :: r → l !! i = Some x ∧ drop (S i) l = r.
Proof.
  intros E. assert (l !! i = Some x) as Hx by (rewrite <- (Nat.add_0_r i), <- lookup_drop; by rewrite E).
  split; [done|]. rewrite (drop_S _ _ _ Hx) in E. by injection E.
Qed.

Section Loop.
Context (c : Conn) (b : bytes) (idx : list Z).
Hypothesis Hidx : idx ≠ [].
Hypothesis Hchain : chain 5 idx (len b).

Abbreviation good_buffer := (λ r : string + bytes, ∃ buffer, r = inr buffer).
Abbreviation bad_buffer := (λ r : string + bytes, ∃ e, r = inl e).

Lemma header_slice : slice_to b 3 = Ret (take 3 b).
Proof using Hchain. apply slice_to_ok. pose proof (chain_le _ _ _ Hchain). lia. Qed.

(** A round in packet mode puts its frame out. *)
Lemma fragment_round_packet i p buffer :
  c_splitPacket c = true → pieces (start c) b idx !! i = Some p →
  sends (frame c b p) (fragment_round c b idx i buffer) good_buffer bad_buffer.
Proof using All.
  intros Hsp Hp. unfold fragment_round, frame. rewrite (payload_at_eq c b idx Hidx Hchain i p Hp), header_slice, Hsp.
  assert (∀ buffer q, sends q
    (if c_tcpConn c && negb (Nat.eqb i (length idx)) then
      do e <- writeAndWaitAck q (c_fallbackDelay c);; io_ret (match e with Some e => inl e | None => inr buffer end)
    else
      do r <- conn_Write q;;
      match r with
      | (_, Some e) => io_ret (inl e)
      | (_, None) => if negb (Nat.eqb i (length idx)) then do _ <- emit (EvSleep (c_fallbackDelay c));; io_ret (inr buffer) else io_ret (inr buffer)
      end) good_buffer bad_buffer) as Hsend.
  { clear Hp. intros buf q. rewrite <- (app_nil_r q) at 1. destruct (c_tcpConn c && _).
    - eapply sends_bind; [apply sends_writeAndWaitAck|..]; [intros ? ->; apply sends_ret; eauto | intros [e|] He; [eauto|done]].
    - eapply sends_bind; [apply sends_conn_Write|..]; [|intros [n [e|]] He; [eauto|done]].
      intros ? ->. destruct (negb _); [|apply sends_ret; eauto].
      intros w. exists []. cbn -[wire log]. rewrite wire_log. cbn [wrote]. rewrite app_nil_r. eauto. }
  destruct (c_splitRecord c); cbn -[fragment_round]; [|apply Hsend].
  match goal with |- sends ?q _ _ _ => exact (Hsend q q) end.
Qed.

(** A round in record mode extends the buffer. *)
Lemma fragment_round_record i p buffer w :
  c_splitPacket c = false → c_splitRecord c = true → pieces (start c) b idx !! i = Some p →
  fragment_round c b idx i buffer w = (Ret (inr (buffer ++ frame c b p)), w).
Proof using All.
  intros Hsp Hsr Hp. unfold fragment_round, frame. rewrite (payload_at_eq c b idx Hidx Hchain i p Hp), header_slice, Hsp, Hsr.
  reflexivity.
Qed.

Lemma fragment_loop_packet k i buffer ps :
  c_splitPacket c = true → ps = drop i (pieces (start c) b idx) → length ps = k →
  sends (concat (map (frame c b) ps)) (fragment_loop c b idx k i buffer) good_buffer bad_buffer.
Proof using All.
  intros Hsp. revert i buffer ps. induction k as [|k IH]; intros i buffer ps Hps Hk; cbn [fragment_loop].
  - destruct ps; [|done]. apply sends_ret. eauto.
  - destruct ps as [|p ps]; [done|]. cbn [map concat]. symmetry in Hps. destruct (drop_cons_inv _ _ _ _ Hps) as [Hp Hrest].
    eapply sends_bind; [by apply fragment_round_packet|..].
    + intros r [buf ->]. apply IH; [by rewrite Hrest | by injection Hk].
    + intros r [e ->]. eauto.
Qed.

Lemma fragment_loop_record k i buffer ps w :
  c_splitPacket c = false → c_splitRecord c = true → ps = drop i (pieces (start c) b idx) → length ps = k →
  fragment_loop c b idx k i buffer w = (Ret (inr (buffer ++ concat (map (frame c b) ps))), w).
Proof using All.
  intros Hsp Hsr. revert i buffer ps. induction k as [|k IH]; intros i buffer ps Hps Hk; cbn [fragment_loop].
  - destruct ps; [|done]. by rewrite app_nil_r.
  - destruct ps as [|p ps]; [done|]. cbn [map concat]. symmetry in Hps. destruct (drop_cons_inv _ _ _ _ Hps) as [Hp Hrest].
    unfold io_bind. rewrite (fragment_round_record i p) by done. rewrite (IH (S i) _ ps); [|by rewrite Hrest|by injection Hk].
    by rewrite <- app_assoc.
Qed.

End Loop.

(** ** What the peer reads *)

(** The records of a TLS stream: type and version, and the fragment. *)
Fixpoint read_records (rounds : nat) (s : bytes) : option (list (bytes * bytes)) :=
  match s with
  | [] => Some []
  | t :: v1 :: v2 :: l1 :: l2 :: s =>
      match rounds with
      | O => None
      | S rounds =>
          let n := Z.to_nat (l1 * 256 + l2) in
          if (length s <? n)%nat then None
          else rs ← read_records rounds (drop n s); Some (([t; v1; v2], take n s) :: rs)
      end
  | _ => None
  end.
Definition records (s : bytes) : option (list (bytes * bytes)) := read_records (length s) s.

Lemma read_records_frames hd rounds ps :
  length hd = 3%nat → Forall (λ p, len p < 65536) ps → (length ps ≤ rounds)%nat →
  read_records rounds (concat (map (λ p, hd ++ put_uint16 (u16 (len p)) ++ p) ps)) = Some (map (pair hd) ps).
Proof.
  intros Hhd Hps. revert rounds. induction Hps as [|p ps Hp Hps IH]; intros rounds Hr; [by destruct rounds|].
  destruct rounds as [|rounds]; [simpl in Hr; lia|]. destruct hd as [|t [|v1 [|v2 [|]]]]; try discriminate Hhd.
  pose proof (len_nonneg p). cbn [map concat]. unfold put_uint16, u16 at 1. rewrite Z.mod_small by (change (2 ^ 16) with 65536; lia).
  rewrite be_bytes_2. cbn [app read_records].
  assert ((len p / 256) mod 256 * 256 + len p mod 256 = len p) as ->.
  { rewrite (Z.mod_small (len p / 256)) by (split; [apply Z.div_pos | apply Z.div_lt_upper_bound]; lia). pose proof (Z.div_mod (len p) 256). lia. }
  assert (Z.to_nat (len p) = length p) as -> by (unfold len; lia).
  rewrite (proj2 (Nat.ltb_ge _ _)) by (rewrite length_app; lia). rewrite drop_app_length, take_app_length.
  rewrite IH by (simpl in Hr; lia). done.
Qed.

Lemma records_frames hd ps :
  length hd = 3%nat → Forall (λ p, len p < 65536) ps →
  records (concat (map (λ p, hd ++ put_uint16 (u16 (len p)) ++ p) ps)) = Some (map (pair hd) ps).
Proof.
  intros Hhd Hps. apply read_records_frames; [done..|]. clear Hps. induction ps as [|p ps IH]; [done|]. cbn [map concat].
  rewrite !length_app, Hhd. cbn [length]. lia.
Qed.

Section Hello.
Context (PublicSuffix : bytes → bytes) (rand : nat → Z) (c : Conn) (b : bytes) (s : MyServerName).

Definition hello_cuts : list Z := cuts rand (target_labels PublicSuffix (ServerName s)) 0 (Index s).

(** All that is put out for a ClientHello. *)
Definition hello_stream : bytes := concat (map (frame c b) (pieces (start c) b hello_cuts)).

Hypothesis Hmode : c_splitPacket c || c_splitRecord c = true.
Hypothesis Hloc : ∃ pre post, b = pre ++ ServerName s ++ post ∧ Index s = len pre ∧ 5 ≤ len pre.

Lemma hello_chain : [] ∉ target_labels PublicSuffix (ServerName s) → chain 5 hello_cuts (len b).
Proof using Hloc.
  intros Hne. destruct Hloc as (pre & post & -> & Hi & H5). unfold hello_cuts.
  eapply chain_weaken; [..|by apply cuts_chain]; [lia|]. pose proof (target_within PublicSuffix (ServerName s)).
  pose proof (len_nonneg post). rewrite !len_app. lia.
Qed.

Lemma hello_cuts_nonempty : hello_cuts ≠ [].
Proof.
  intros E. apply (f_equal length) in E. unfold hello_cuts in E. rewrite cuts_length in E.
  pose proof (target_nonempty PublicSuffix (ServerName s)). by destruct (target_labels _ _).
Qed.

Lemma sends_nodelay (cond : bool) on : sends [] (if cond then SetNoDelay on else io_ret None) no_error an_error.
Proof. destruct cond; [apply sends_SetNoDelay | by apply sends_ret]. Qed.

Lemma sends_check q m k (good bad : Z * option string → Prop) :
  sends [] m no_error an_error → sends q k good bad → (∀ e, bad (0, Some e)) → sends q (check m k) good bad.
Proof. intros Hm Hk Hb. eapply sends_silent; [exact Hm | by intros ? -> |]. intros [e|] He; [eauto | done]. Qed.

Lemma write_hello_sends :
  [] ∉ target_labels PublicSuffix (ServerName s) →
  sends hello_stream (write_hello PublicSuffix rand c b s) (λ r, r = (len b, None)) (λ r, r.2 ≠ None).
Proof using Hloc Hmode.
  intros Hne. pose proof (hello_chain Hne) as Hc. unfold write_hello. apply sends_check; [apply sends_nodelay | | done].
  rewrite split_indexes_eq, bool_decide_eq_false_2 by done. fold hello_cuts.
  assert (∀ A (x : list Z) (f : list Z → io A), io_bind (io_of (Ret x)) f = f x) as -> by done.
  assert (length (drop 0 (pieces (start c) b hello_cuts)) = S (length hello_cuts)) as Hlen by apply pieces_length.
  assert (sends [] (check (if c_tcpConn c then SetNoDelay false else io_ret None) (io_ret (len b, None)))
    (λ r, r = (len b, None)) (λ r, r.2 ≠ None)) as Htail.
  { apply sends_check; [apply sends_nodelay | by apply sends_ret | done]. }
  destruct (c_splitPacket c) eqn:Hsp; cbn [orb] in Hmode.
  - rewrite <- (app_nil_r hello_stream). eapply sends_bind.
    + by apply (fragment_loop_packet c b hello_cuts hello_cuts_nonempty Hc _ 0 [] _ Hsp eq_refl).
    + intros r [buf ->]. cbn [negb]. rewrite andb_false_r. exact Htail.
    + intros r [e ->]. eauto.
  - rewrite Hmode. cbn [andb negb]. eapply sends_ext.
    { intros w. unfold io_bind at 1.
      rewrite (fragment_loop_record c b hello_cuts hello_cuts_nonempty Hc _ 0 [] _ w Hsp Hmode eq_refl Hlen). reflexivity. }
    cbn [app]. change (concat (map (frame c b) (drop 0 (pieces (start c) b hello_cuts)))) with hello_stream.
    rewrite <- (app_nil_r hello_stream) at 1. unfold check at 1.
    eapply (sends_bind _ _ _ _ no_error an_error); [|intros ? ->; exact Htail|intros [e|] He; [eauto|done]].
    rewrite <- (app_nil_r hello_stream) at 1. eapply sends_bind; [apply sends_conn_Write | intros ? ->; by apply sends_ret |].
    intros [n [e|]] He; [eauto | done].
Qed.

(** An empty label: nothing is put out. *)
Lemma write_hello_panics w :
  [] ∈ target_labels PublicSuffix (ServerName s) →
  let r := write_hello PublicSuffix rand c b s w in
  wire r.2 = wire w ∧ (r.1 = Panic ∨ r.1 = Blocked ∨ ∃ e, r.1 = Ret (0, Some e)).
Proof.
  intros Hin r. destruct (sends_nodelay (c_splitPacket c && c_tcpConn c) true w) as (out & Ho & Hr).
  assert (r = match (if c_splitPacket c && c_tcpConn c then SetNoDelay true else io_ret None) w with
              | (Ret (Some e), w) => (Ret (0, Some e), w) | (Ret None, w) => (Panic, w)
              | (Panic, w) => (Panic, w) | (Diverge, w) => (Diverge, w) | (Blocked, w) => (Blocked, w) end) as ->.
  { unfold r, write_hello, check at 1. rewrite split_indexes_eq, bool_decide_eq_true_2 by done. unfold io_bind at 1.
    by destruct ((if c_splitPacket c && c_tcpConn c then SetNoDelay true else io_ret None) w) as [[[e|]| | |] w']. }
  destruct ((if c_splitPacket c && c_tcpConn c then SetNoDelay true else io_ret None) w) as [[[e|]| | |] w'];
    cbn [fst snd] in *; try done.
  - destruct Hr as [[? _]|[_ Hp]]; [done|]. apply prefix_nil_inv in Hp. subst out. rewrite app_nil_r in Ho. eauto.
  - assert (out = []) as -> by (destruct Hr as [[_ ?]|[? _]]; done). rewrite app_nil_r in Ho. auto.
  - apply prefix_nil_inv in Hr. subst out. rewrite app_nil_r in Ho. auto.
Qed.

End Hello.

(** ** The connection is transparent *)

(** The peer reads [b] from [full]: a ClientHello in record mode as two or more
    records with the header of [b] whose fragments make up its payload, all else
    as it is. *)
Definition same_stream (c : Conn) (b full : bytes) : Prop :=
  match IndexTLSServerName (length b) b with
  | Ret (Some _) =>
      if c_splitRecord c
      then ∃ ps, records full = Some (map (pair (take 3 b)) ps) ∧ concat ps = drop 5 b ∧ (2 ≤ length ps)%nat
      else full = b
  | _ => full = b
  end.

(** The write of [b] put [out] of [full] on the wire and returned [o]. *)
Definition delivered (o : outcome (Z * option string)) (b out full : bytes) : Prop :=
  (o = Ret (len b, None) ∧ out = full) ∨ ((o = Blocked ∨ ∃ n e, o = Ret (n, Some e)) ∧ out `prefix_of` full).

Lemma hello_same_stream PublicSuffix rand c b s :
  IndexTLSServerName (length b) b = Ret (Some s) → len b < 65536 →
  (∃ pre post, b = pre ++ ServerName s ++ post ∧ Index s = len pre ∧ 5 ≤ len pre) →
  [] ∉ target_labels PublicSuffix (ServerName s) → same_stream c b (hello_stream PublicSuffix rand c b s).
Proof.
  intros Hi Hlen Hloc Hne. pose proof (hello_chain PublicSuffix rand b s Hloc Hne) as Hc. pose proof (chain_le _ _ _ Hc) as H5.
  assert (concat (pieces (start c) b (hello_cuts PublicSuffix rand s)) = drop (Z.to_nat (start c)) b) as E.
  { apply pieces_concat; [unfold start; by destruct (c_splitRecord c) | by apply start_chain]. }
  unfold hello_stream, frame, start, same_stream in *. rewrite Hi. destruct (c_splitRecord c).
  - eexists. split_and!; [|exact E|].
    + apply records_frames; [rewrite length_take; unfold len in H5; lia|].
      apply Forall_forall. intros p Hp.
      pose proof (proj1 (Forall_forall _ _) (pieces_small 5 b (hello_cuts PublicSuffix rand s)) p Hp) as Hle. cbv beta in Hle. lia.
    + rewrite pieces_length. pose proof (hello_cuts_nonempty PublicSuffix rand s). destruct (hello_cuts _ _ _); [done | simpl; lia].
  - etransitivity; [apply f_equal, map_id | exact E].
Qed.

Lemma sends_delivered (m : io (Z * option string)) b full w :
  sends full m (λ r, r = (len b, None)) (λ r, r.2 ≠ None) →
  ∃ out, wire (m w).2 = wire w ++ out ∧ delivered (m w).1 b out full.
Proof.
  intros Hm. destruct (Hm w) as (out & Ho & Hr). exists out. split; [done|]. unfold delivered.
  destruct (m w).1 as [[n [e|]]| | |]; try done.
  - destruct Hr as [[? _]|[_ ?]]; [done|]. right. eauto.
  - destruct Hr as [[Hr ->]|[? _]]; [left; split; [by rewrite Hr | done] | done].
  - right. auto.
Qed.

Definition no_empty_label (b : bytes) : Prop :=
  ∀ s, IndexTLSServerName (length b) b = Ret (Some s) → [] ∉ Split (ServerName s).

Lemma target_sub PublicSuffix name : [] ∉ Split name → [] ∉ target_labels PublicSuffix name.
Proof.
  intros Hn. unfold target_labels. case_bool_decide; [|done]. intros Hin. apply Hn.
  rewrite <- (take_drop 1 (Split name)). apply elem_of_app. by left.
Qed.

Section Transparent.
Context (PublicSuffix : bytes → bytes) (rand : nat → Z).

Lemma Write_delivers c b w :
  is_bytes b → len b < 65536 → no_empty_label b → c_splitPacket c || c_splitRecord c = true →
  ∃ full out, let '(o, w', c') := Write PublicSuffix rand c b w in
    c_firstPacketWritten c' = true ∧ wire w' = wire w ++ out ∧ delivered o b out full ∧
    (if c_firstPacketWritten c then full = b else same_stream c b full).
Proof.
  intros Hb Hlen Hlab Hmode. unfold Write. destruct (c_firstPacketWritten c) eqn:Hf.
  { destruct (sends_delivered _ b b w (sends_conn_Write b)) as (out & Ho & Hd). exists b, out.
    destruct (conn_Write b w) as [o w']. by rewrite Hf. }
  destruct (IndexTLSServerName_returns b Hb Hlen) as [[s|] E].
  - pose proof (IndexTLSServerName_header _ _ _ Hb E Hlen) as Hloc. pose proof (target_sub PublicSuffix _ (Hlab s E)) as Hne.
    pose proof (write_hello_sends PublicSuffix rand c b s Hmode Hloc Hne) as Hs.
    destruct (sends_delivered _ b _ w Hs) as (out & Ho & Hd). rewrite E.
    change (io_bind (io_of (Ret (Some s))) ?f w) with (write_hello PublicSuffix rand c b s w).
    destruct (write_hello PublicSuffix rand c b s w) as [o w']. eexists _, out. split_and!; [done..|]. by apply hello_same_stream.
  - rewrite E. change (io_bind (io_of (Ret None)) ?f w) with (conn_Write b w).
    destruct (sends_delivered _ b b w (sends_conn_Write b)) as (out & Ho & Hd). exists b, out.
    destruct (conn_Write b w) as [o w']. split_and!; try done. unfold same_stream. by rewrite E.
Qed.

(** C35. Every write of less than 65536 bytes whose server name has no empty label
    returns without panic unless the connection blocks, and puts out a stream
    from which the peer reads the same bytes: a ClientHello in record mode arrives
    as two or more records of the same type and version whose fragments are the
    payload, anything else arrives unchanged.  A failed or blocked write has put
    out a beginning of that stream, and only the first write is changed. *)
Theorem Write_transparent c b w :
  is_bytes b → len b < 65536 → no_empty_label b → c_splitPacket c || c_splitRecord c = true →
  ∃ full out, let '(o, w', c') := Write PublicSuffix rand c b w in
    WriterReplaceable c' = true ∧ wire w' = wire w ++ out ∧ delivered o b out full ∧
    (if c_firstPacketWritten c then full = b else same_stream c b full).
Proof. apply Write_delivers. Qed.

(** After the first write the stream is the bytes written. *)
Lemma writes_after c bs w :
  c_firstPacketWritten c = true →
  let '(ok, w', _) := writes PublicSuffix rand c bs w in ok = true → wire w' = wire w ++ concat bs.
Proof.
  revert c w. induction bs as [|b bs IH]; intros c w Hf; cbn [writes]; [intros _; by rewrite app_nil_r|].
  unfold Write. rewrite Hf. destruct (sends_conn_Write b w) as (out & Ho & Hr).
  destruct (conn_Write b w) as [[[n [e|]]| | |] w1]; try done. cbn [fst snd] in *.
  destruct Hr as [[_ ->]|[? _]]; [|done]. specialize (IH c w1 Hf). destruct (writes PublicSuffix rand c bs w1) as [[ok w'] c'].
  intros ->. rewrite IH, Ho by done. by rewrite <- app_assoc.
Qed.

(** A session of writes that all succeed: the peer reads the first write as
    the same bytes, in records when that is the mode, followed by the others
    unchanged. *)
Theorem writes_transparent c b bs w w' c' :
  c_firstPacketWritten c = false → is_bytes b → len b < 65536 → no_empty_label b → c_splitPacket c || c_splitRecord c = true →
  writes PublicSuffix rand c (b :: bs) w = (true, w', c') →
  ∃ full, same_stream c b full ∧ wire w' = wire w ++ full ++ concat bs.
Proof.
  intros Hf Hb Hlen Hlab Hmode. cbn [writes]. destruct (Write_delivers c b w Hb Hlen Hlab Hmode) as (full & out & Hw).
  destruct (Write PublicSuffix rand c b w) as [[o w1] c1]. rewrite Hf in Hw. destruct Hw as (Hf1 & Ho & Hd & Hs).
  pose proof (writes_after c1 bs w1 Hf1) as Hrest. destruct o as [[n [e|]]| | |]; try discriminate. intros E. rewrite E in Hrest.
  exists full. split; [done|]. rewrite (Hrest eq_refl), Ho, <- app_assoc. f_equal. f_equal.
  destruct Hd as [[_ ->]|[[?|(? & ? & ?)] _]]; done.
Qed.

End Transparent.

(** ** Where the name is cut *)

Section Position.
Context (PublicSuffix : bytes → bytes) (rand : nat → Z).

(** The first label of the name, which always gets a cut. *)
Definition first_label (s : MyServerName) : bytes := default [] (head (Split (ServerName s))).

Lemma target_head s : ∃ ls, target_labels PublicSuffix (ServerName s) = first_label s :: ls ∧
  (PublicSuffix (ServerName s) ≠ [] → ls = []).
Proof.
  unfold target_labels, first_label. destruct (Split_cons (ServerName s)) as (l & ls & ->). cbn.
  case_bool_decide; [exists []; done | exists ls; done].
Qed.

Lemma first_label_le s : len (first_label s) ≤ len (ServerName s).
Proof.
  transitivity (len (Join (Split (ServerName s)))); [|by rewrite Join_Split]. unfold first_label.
  destruct (Split (ServerName s)) as [|l [|l' ls]]; [done..|]. change (default [] (head (l :: l' :: ls))) with l.
  change (Join (l :: l' :: ls)) with (l ++ [dot] ++ Join (l' :: ls)). rewrite len_app.
  pose proof (len_nonneg ([dot] ++ Join (l' :: ls))). lia.
Qed.

Lemma first_label_pos s : [] ∉ Split (ServerName s) → 0 < len (first_label s).
Proof.
  intros Hne. apply len_pos. intros E0. apply Hne. unfold first_label in E0.
  destruct (Split_cons (ServerName s)) as (l & ls & E). rewrite E in *. cbn in E0. subst l. by left.
Qed.

(** For a name without empty labels the cuts are found, one for each label or
    one for the first label when the name has a public suffix, in ascending order
    and inside the name; and when the random offset is not zero, the first one is
    strictly inside, so that no fragment has the whole name. *)
Theorem hello_cut_inside s :
  [] ∉ Split (ServerName s) →
  ∃ x idx, split_indexes PublicSuffix rand s = Ret (x :: idx) ∧
    length (x :: idx) = length (target_labels PublicSuffix (ServerName s)) ∧
    chain (Index s) (x :: idx) (Index s + len (ServerName s)) ∧ x < Index s + len (ServerName s) ∧
    (rand 0 mod len (first_label s) ≠ 0 → Index s < x).
Proof.
  intros Hne. destruct (target_head s) as (ls & E & _). pose proof (target_sub PublicSuffix _ Hne) as Hne'.
  pose proof (cuts_chain PublicSuffix rand _ 0 (Index s) Hne') as Hc. pose proof (cuts_length rand (target_labels PublicSuffix (ServerName s)) 0 (Index s)) as Hlen.
  rewrite split_indexes_eq, bool_decide_eq_false_2 by done. pose proof (target_within PublicSuffix (ServerName s)) as Hw.
  rewrite E in *. cbn [cuts] in *. eexists _, _. split_and!; [reflexivity | exact Hlen | | |].
  - eapply chain_weaken; [..|exact Hc]; lia.
  - pose proof (Z.mod_pos_bound (rand 0) _ (first_label_pos s Hne)). pose proof (first_label_le s). lia.
  - pose proof (Z.mod_pos_bound (rand 0) _ (first_label_pos s Hne)). lia.
Qed.

(** The offset may be zero, and is always zero in a label of one letter: the
    only cut of a name with a public suffix is then in front of it, and the second
    fragment has the whole name. *)
Theorem name_kept_whole c b s pre post :
  PublicSuffix (ServerName s) ≠ [] → rand 0 mod len (first_label s) = 0 →
  b = pre ++ ServerName s ++ post → Index s = len pre → 5 ≤ len pre →
  pieces (start c) b (hello_cuts PublicSuffix rand s) = [drop (Z.to_nat (start c)) pre; ServerName s ++ post].
Proof.
  intros Hs Hr -> Hi H5. destruct (target_head s) as (ls & E & Hls). rewrite (Hls Hs) in E. unfold hello_cuts. rewrite E.
  cbn [cuts pieces]. rewrite Hr, Z.add_0_r, Hi. unfold len. rewrite Nat2Z.id, take_app_length, drop_app_length. done.
Qed.

(** A name with an empty label in the part that is cut, as the name of a
    ClientHello chosen by a client may be, makes the write panic in [rand.Intn]. *)
Theorem empty_label_panics c b s w :
  c_firstPacketWritten c = false → c_splitPacket c && c_tcpConn c = false →
  IndexTLSServerName (length b) b = Ret (Some s) → first_label s = [] →
  (Write PublicSuffix rand c b w).1.1 = Panic.
Proof.
  intros Hf Hm E He. unfold Write. rewrite Hf, E. change (io_bind (io_of (Ret (Some s))) ?f w) with (write_hello PublicSuffix rand c b s w).
  cbn [fst]. destruct (target_head s) as (ls & El & _). unfold write_hello, check at 1. rewrite Hm.
  rewrite split_indexes_eq, bool_decide_eq_true_2 by (rewrite El, He; by left). done.
Qed.

End Position.

(** ** Witnesses *)

(** A suffix list in which every last label is a public suffix. *)
Definition last_label (name : bytes) : bytes := default [] (head (reverse (Split name))).

Definition fine : answer := {| an_err := None; an_ctx := None; an_unacked := 0; an_elapsed := 0 |}.
Definition fine_world : world := {| w_script := repeat fine 12; w_trace := [] |}.
Definition record_conn : Conn := NewConn true false true 0.

Definition sample_found : MyServerName :=
  {| Index := 72; Length := 6; ServerName := sample_name; ExtensionsListLengthIndex := 52 |}.

Lemma sample_found_eq : IndexTLSServerName (length sample_record) sample_record = Ret (Some sample_found).
Proof. vm_compute. reflexivity. Qed.

Lemma sample_no_empty_label : no_empty_label sample_record.
Proof. intros s E. rewrite sample_found_eq in E. injection E as <-. vm_compute. intros H. repeat (inversion H; subst; clear H; rename select (_ ∈ _) into H). Qed.

Lemma sample_is_bytes : is_bytes sample_record.
Proof. apply (bool_decide_unpack _). vm_compute. exact I. Qed.

Lemma Write_transparent_witness :
  ∃ full out, let '(o, w', c') := Write last_label (λ _, 1) record_conn sample_record fine_world in
    WriterReplaceable c' = true ∧ wire w' = wire fine_world ++ out ∧ delivered o sample_record out full ∧ same_stream record_conn sample_record full.
Proof.
  apply (Write_transparent last_label (λ _, 1) record_conn sample_record fine_world);
    [apply sample_is_bytes | by vm_compute | apply sample_no_empty_label | reflexivity].
Defined.

Lemma writes_transparent_witness :
  ∃ full w', same_stream record_conn sample_record full ∧ wire w' = wire fine_world ++ full ++ concat [[1; 2]; [3]].
Proof.
  destruct (writes last_label (λ _, 1) record_conn [sample_record; [1; 2]; [3]] fine_world) as [[ok w'] c'] eqn:E.
  assert (ok = true) as -> by (apply (f_equal (λ x, x.1.1)) in E; vm_compute in E; by symmetry).
  destruct (writes_transparent last_label (λ _, 1) record_conn sample_record [[1; 2]; [3]] fine_world w' c') as [full H];
    [reflexivity | apply sample_is_bytes | by vm_compute | apply sample_no_empty_label | reflexivity | exact E |].
  exists full, w'. exact H.
Defined.

Lemma hello_cut_inside_witness :
  ∃ x idx, split_indexes last_label (λ _, 1) sample_found = Ret (x :: idx) ∧
    length (x :: idx) = length (target_labels last_label sample_name) ∧
    chain 72 (x :: idx) (72 + 6) ∧ x < 72 + 6 ∧ (1 mod 3 ≠ 0 → 72 < x).
Proof.
  apply (hello_cut_inside last_label (λ _, 1) sample_found). apply (sample_no_empty_label _ sample_found_eq).
Defined.

Lemma name_kept_whole_witness :
  pieces 0 (take 72 sample_record ++ sample_name ++ drop 78 sample_record) (hello_cuts last_label (λ _, 3) sample_found) =
    [take 72 sample_record; sample_name ++ drop 78 sample_record].
Proof.
  apply (name_kept_whole last_label (λ _, 3) (NewConn true true false 0) (take 72 sample_record ++ sample_name ++ drop 78 sample_record) sample_found);
    by vm_compute.
Defined.

(** The name [.io]. *)
Definition dotted_block : bytes := extension_block [(0, sni_bytes [46; 105; 111])].
Definition dotted_record : bytes := hello_record sample_hello (head_len sample_hello + len dotted_block) dotted_block.

Lemma empty_label_panics_witness : (Write last_label (λ _, 1) record_conn dotted_record fine_world).1.1 = Panic.
Proof.
  apply (empty_label_panics last_label (λ _, 1) record_conn dotted_record
    {| Index := 63; Length := 3; ServerName := [46; 105; 111]; ExtensionsListLengthIndex := 52 |}); by vm_compute.
Defined.
