(* ===== verification/Sniff.v ===== *)
(** * Protocol sniffers

    [src/common/sniff]: which protocol the first bytes of a connection or the
    first packet speak.  Packet sniffers look at one packet; stream sniffers read
    a sequence of buffers and may ask for more data, on which [PeekStream] reads
    again.  The sniffers for BitTorrent, uTP, UDP trackers, DTLS, NTP, STUN, SSH,
    RDP and DNS are modelled; those for TLS, HTTP and QUIC call parsers of other
    libraries and are sniffers the theorems quantify over.

    Indexing is that of Go, with a panic out of range ([index], [slice] of
    [TlsFragment]).  The class [SingLib] has what is used of the [sing] library
    and of the DNS library, with its laws. *)

From Stdlib Require Import ZArith Lia Permutation.
From S2P Require Import Prelude NetIP Varbin FakeIP TlsFragment.
From stdpp Require Import base sets list strings numbers.

Local Open Scope Z_scope.

(** ** Data *)

(** The part of [adapter.InboundContext] the sniffers use. *)
Record Metadata := {
  Protocol : string;
  Client : bytes;
  DestinationPort : Z }.

Definition set_Protocol (m : Metadata) (p : string) : Metadata :=
  {| Protocol := p; Client := Client m; DestinationPort := DestinationPort m |}.
Definition set_Client (m : Metadata) (c : bytes) : Metadata :=
  {| Protocol := Protocol m; Client := c; DestinationPort := DestinationPort m |}.

Definition ProtocolDNS : string := "dns".
Definition ProtocolSTUN : string := "stun".
Definition ProtocolBitTorrent : string := "bittorrent".
Definition ProtocolDTLS : string := "dtls".
Definition ProtocolSSH : string := "ssh".
Definition ProtocolRDP : string := "rdp".
Definition ProtocolNTP : string := "ntp".

(** [os.ErrInvalid], errors that are [ErrNeedMoreData], [io.EOF] and others. *)
Inductive sniff_error : Type :=
| Invalid
| NeedMoreData
| ReadEOF
| OtherError (msg : string).

#[global] Instance sniff_error_eq_dec : EqDecision sniff_error.
Proof. solve_decision. Defined.

Definition verdict : Type := Metadata * option sniff_error.

Definition Skip (m : Metadata) : bool :=
  existsb (Z.eqb (DestinationPort m)) [25; 465; 587] || existsb (Z.eqb (DestinationPort m)) [143; 993] ||
  existsb (Z.eqb (DestinationPort m)) [110; 995].

(** ** Packet sniffers *)

Definition PacketSniffer : Type := Metadata → bytes → outcome verdict.

(** [binary.BigEndian.Uint16], [Uint32] and [Uint64] *)
Definition Uint (n : nat) (b : bytes) : outcome Z :=
  if len b <? Z.of_nat n then Panic else Ret (be_value (take n b)).

Definition reject (m : Metadata) : outcome verdict := Ret (m, Some Invalid).
Definition accept (m : Metadata) (p : string) : outcome verdict := Ret (set_Protocol m p, None).

(** The loop of [UTP] over the extensions: the reader has [rest] left, and a
    seek beyond the end leaves nothing. *)
Fixpoint utp_extensions (rounds : nat) (extension : Z) (rest : bytes) : outcome (option sniff_error) :=
  if extension =? 0 then Ret None
  else
    match rounds with
    | O => Diverge
    | S rounds =>
        match rest with
        | [] => Ret (Some ReadEOF)
        | extension :: rest =>
            if 0x04 <? extension then Ret (Some Invalid)
            else
              match rest with
              | [] => Ret (Some ReadEOF)
              | length :: rest => utp_extensions rounds extension (drop (Z.to_nat length) rest)
              end
        end
    end.

Definition UTP : PacketSniffer := λ m packet,
  if len packet <? 20 then reject m
  else
    let* p0 := index packet 0 in
    let version := Z.land p0 0x0F in
    let* p0 := index packet 0 in
    let ty := Z.shiftr p0 4 in
    if negb (version =? 1) || (4 <? ty) then reject m
    else
      let* extension := index packet 1 in
      let* rest := slice_from packet 20 in
      let* e := utp_extensions (length packet) extension rest in
      match e with
      | Some e => Ret (m, Some e)
      | None => accept m ProtocolBitTorrent
      end.

Definition trackerConnectFlag : Z := 0.
Definition trackerProtocolID : Z := 0x41727101980.
Definition trackerConnectMinSize : Z := 16.

Definition UDPTracker : PacketSniffer := λ m packet,
  if len packet <? trackerConnectMinSize then reject m
  else
    let* b := slice_to packet 8 in
    let* id := Uint 8 b in
    if negb (id =? trackerProtocolID) then reject m
    else
      let* b := slice packet 8 12 in
      let* flag := Uint 4 b in
      if negb (flag =? trackerConnectFlag) then reject m
      else accept m ProtocolBitTorrent.

Definition fixedHeaderSize : Z := 13.

Definition DTLSRecord : PacketSniffer := λ m packet,
  if len packet <? fixedHeaderSize then reject m
  else
    let* contentType := index packet 0 in
    if negb (existsb (Z.eqb contentType) [20; 21; 22; 23; 25]) then reject m
    else
      let* versionMajor := index packet 1 in
      if negb (versionMajor =? 0xfe) then reject m
      else
        let* versionMinor := index packet 2 in
        if negb (versionMinor =? 0xff) && negb (versionMinor =? 0xfd) then reject m
        else accept m ProtocolDTLS.

(** The quotient of a [uint32] by 65536 is exact in binary64, so that the
    comparison with 16.0 is one of integers. *)
Definition NTP : PacketSniffer := λ m packet,
  let pLen := len packet in
  if pLen <? 48 then reject m
  else
    let* firstByte := index packet 0 in
    let li := Z.land (Z.shiftr firstByte 6) 0x03 in
    let vn := Z.land (Z.shiftr firstByte 3) 0x07 in
    let mode := Z.land firstByte 0x07 in
    if 3 <? li then reject m
    else if negb (vn =? 3) && negb (vn =? 4) then reject m
    else if negb (mode =? 3) then reject m
    else
      let* b := slice packet 4 8 in
      let* rootDelay := Uint 4 b in
      let* b := slice packet 8 12 in
      let* rootDispersion := Uint 4 b in
      if 16 * 65536 <? rootDelay then reject m
      else if 16 * 65536 <? rootDispersion then reject m
      else accept m ProtocolNTP.

Definition STUNMessage : PacketSniffer := λ m packet,
  let pLen := len packet in
  if pLen <? 20 then reject m
  else
    let* b := slice packet 4 8 in
    let* cookie := Uint 4 b in
    if negb (cookie =? 0x2112A442) then reject m
    else
      let* b := slice packet 2 4 in
      let* size := Uint 2 b in
      if len packet <? 20 + size then reject m
      else accept m ProtocolSTUN.

(** ** What is used of other libraries *)

(** A message of the DNS library: the response bit and the sizes of its lists. *)
Record dns_msg := { Response : bool; Questions : Z; Answers : Z; Ns : Z }.

(** A reader over several buffers. *)
Abbreviation chunks := (list (list Z)).

Class SingLib := {
  error : Type;
  wrap : sniff_error → error;
  (** [E.Errors]: [nil] arguments are dropped. *)
  Errors : list (option error) → option error;
  (** [errors.Is(err, ErrNeedMoreData)] *)
  IsNeedMore : error → bool;
  (** [rw.SkipN] *)
  SkipN : nat → chunks → option chunks;
  (** [buffer.ReadFullFrom] of a buffer of [n] bytes: what was read, whether it
      is less than [n], and what remains *)
  ReadFullFrom : nat → chunks → bytes * bool * chunks;
  (** [msg.Unpack] *)
  Unpack : bytes → string + dns_msg }.

Class SingLaws `{SingLib} := {
  IsNeedMore_wrap : ∀ e, IsNeedMore (wrap e) = bool_decide (e = NeedMoreData);
  Errors_nil : ∀ l, Errors l = None ↔ Forall (λ e, e = None) l;
  Errors_Is : ∀ l e, Errors l = Some e → IsNeedMore e = existsb (λ o, match o with Some e => IsNeedMore e | None => false end) l;
  SkipN_spec : ∀ n cs, match SkipN n cs with
    | Some cs' => (n ≤ length (concat cs))%nat ∧ concat cs' = drop n (concat cs)
    | None => (length (concat cs) < n)%nat end;
  ReadFullFrom_spec : ∀ n cs, ∃ cs', ReadFullFrom n cs = (take n (concat cs), (length (concat cs) <? n)%nat, cs') ∧
    concat cs' = drop n (concat cs) }.

(** ** Stream sniffers *)

(** [io.ReadFull] of [n] bytes from the buffers: what there is of them. *)
Fixpoint read_full (n : nat) (cs : chunks) : bytes * chunks :=
  match cs with
  | [] => ([], [])
  | c :: cs =>
      if (n <=? length c)%nat then (take n c, drop n c :: cs)
      else let '(d, cs) := read_full (n - length c) cs in (c ++ d, cs)
  end.

(** One [Read] into a buffer of [n] bytes: it ends with the first buffer that is
    not used up; [true] at the end of all. *)
Fixpoint read_once (n : nat) (cs : chunks) : bytes * bool * chunks :=
  match cs with
  | [] => ([], true, [])
  | [] :: cs => read_once n cs
  | c :: cs => (take n c, false, drop n c :: cs)
  end.

(** Computations of stream sniffers; [sn_int n] is [binary.Read] of [n] bytes,
    whose errors become [ErrNeedMoreData]. *)
Definition sn (A : Type) : Type := chunks → sniff_error + A * chunks.
Definition sn_bind {A B} (m : sn A) (f : A → sn B) : sn B := λ cs,
  match m cs with inl e => inl e | inr (a, cs) => f a cs end.
Definition sn_int (n : nat) : sn Z := λ cs,
  let '(d, cs) := read_full n cs in
  if (length d <? n)%nat then inl NeedMoreData else inr (be_value d, cs).
(** [if c { return os.ErrInvalid }] *)
Definition sn_reject_if (c : bool) : sn () := λ cs, if c then inl Invalid else inr ((), cs).

Declare Scope sniff_scope.
Delimit Scope sniff_scope with sniff.
Notation "'get' x '<-' m ';;' k" := (sn_bind m (λ x, k))
  (at level 10, x pattern, m at level 99, k at level 200) : sniff_scope.
#[global] Open Scope sniff_scope.

Definition StreamSniffer : Type := Metadata → chunks → outcome verdict.

Definition header : bytes := [66; 105; 116; 84; 111; 114; 114; 101; 110; 116; 32; 112; 114; 111; 116; 111; 99; 111; 108].

Definition BitTorrent : StreamSniffer := λ m reader,
  match sn_int 1 reader with
  | inl e => Ret (m, Some e)
  | inr (first, reader) =>
      if negb (first =? 19) then reject m
      else
        let '(protocol, eof, _) := read_once 19 reader in
        let* h := slice_to header (len protocol) in
        if negb (bool_decide (protocol = h)) then reject m
        else if eof then Ret (m, Some NeedMoreData)
        else if len protocol <? 19 then Ret (m, Some NeedMoreData)
        else accept m ProtocolBitTorrent
  end.

(** "SSH-2.0-" *)
Definition sshPrefix : bytes := [83; 83; 72; 45; 50; 46; 48; 45].
(** The default size of a [bufio.Reader]. *)
Definition bufio_size : nat := 4096.

(** [bufio.Reader.ReadLine]: the line without its end, of a reader that has the
    bytes [d] to come. *)
Fixpoint index_byte (b : Z) (d : bytes) : option nat :=
  match d with [] => None | x :: d => if x =? b then Some 0%nat else S <$> index_byte b d end.
Definition drop_cr (line : bytes) : bytes :=
  match reverse line with 13 :: r => reverse r | _ => line end.
Definition ReadLine (d : bytes) : option bytes :=
  let buffered := take bufio_size d in
  match index_byte 10 buffered with
  | Some k => Some (drop_cr (take k buffered))
  | None =>
      if (bufio_size <=? length d)%nat then Some (drop_cr buffered)
      else match d with [] => None | _ => Some d end
  end.

Definition SSH : StreamSniffer := λ m reader,
  let d := concat reader in
  let prefix := take 8 d in
  let* h := slice_to sshPrefix (len prefix) in
  if negb (bool_decide (prefix = h)) then reject m
  else if len prefix <? len sshPrefix then Ret (m, Some NeedMoreData)
  else
    match ReadLine d with
    | None => Ret (m, Some ReadEOF)
    | Some fistLine =>
        let m := set_Protocol m ProtocolSSH in
        let* client := slice_from fistLine 8 in
        Ret (set_Client m client, None)
    end.

Section Streams.
Context `{SingLib}.

Definition sn_skip (n : nat) : sn () := λ cs,
  match SkipN n cs with Some cs => inr ((), cs) | None => inl NeedMoreData end.

Definition rdp_reads : sn () :=
  get tpktVersion <- sn_int 1;; get _ <- sn_reject_if (negb (tpktVersion =? 0x03));;
  get tpktReserved <- sn_int 1;; get _ <- sn_reject_if (negb (tpktReserved =? 0x00));;
  get tpktLength <- sn_int 2;; get _ <- sn_reject_if (negb (tpktLength =? 19));;
  get cotpLength <- sn_int 1;; get _ <- sn_reject_if (negb (cotpLength =? 14));;
  get cotpTpduType <- sn_int 1;; get _ <- sn_reject_if (negb (cotpTpduType =? 0xE0));;
  get _ <- sn_skip 5;;
  get rdpType <- sn_int 1;; get _ <- sn_reject_if (negb (rdpType =? 0x01));;
  get rdpFlags <- sn_int 1;;
  get rdpLength <- sn_int 1;; sn_reject_if (negb (rdpLength =? 8)).

Definition RDP : StreamSniffer := λ m reader,
  match rdp_reads reader with
  | inl e => Ret (m, Some e)
  | inr _ => accept m ProtocolRDP
  end.

Definition DomainNameQuery : PacketSniffer := λ m packet,
  match Unpack packet with
  | inl e => Ret (m, Some (OtherError e))
  | inr msg =>
      if Response msg || (Questions msg =? 0) || (0 <? Answers msg) || (0 <? Ns msg) then Ret (m, None)
      else accept m ProtocolDNS
  end.

(** [n > i && packet[i] != 0] for [i] from 6 to 9 *)
Fixpoint counts_loop (packet : bytes) (n : Z) (indexes : list Z) : outcome bool :=
  match indexes with
  | [] => Ret false
  | i :: indexes =>
      if i <? n then
        let* x := index packet i in
        if negb (x =? 0) then Ret true else counts_loop packet n indexes
      else counts_loop packet n indexes
  end.

Definition StreamDomainNameQuery : StreamSniffer := λ m reader,
  match sn_int 2 reader with
  | inl e => Ret (m, Some e)
  | inr (length, reader) =>
      if length <? 12 then reject m
      else
        let '(packet, short, _) := ReadFullFrom (Z.to_nat length) reader in
        let n := len packet in
        let* qr := (if 2 <? n then let* x := index packet 2 in Ret (negb (Z.land x 0x80 =? 0)) else Ret false) in
        if qr then reject m
        else
          let* qd := (if 5 <? n then let* x := index packet 4 in let* y := index packet 5 in Ret ((x =? 0) && (y =? 0)) else Ret false) in
          if qd then reject m
          else
            let* counts := counts_loop packet n [6; 7; 8; 9] in
            if counts then reject m
            else if short then Ret (m, Some NeedMoreData)
            else DomainNameQuery m packet
  end.

(** ** Peeking *)

Fixpoint peek_packet (m : Metadata) (packet : bytes) (sniffers : list PacketSniffer) (sniffError : list (option error))
    : outcome (Metadata * option error) :=
  match sniffers with
  | [] => Ret (m, Errors sniffError)
  | sniffer :: sniffers =>
      let* (m, err) := sniffer m packet in
      match err with
      | None => Ret (m, None)
      | Some e => peek_packet m packet sniffers (sniffError ++ [Some (wrap e)])
      end
  end.
Definition PeekPacket (m : Metadata) (packet : bytes) (sniffers : list PacketSniffer) : outcome (Metadata * option error) :=
  peek_packet m packet sniffers [].

(** The sniffers on what was read so far: [inl] ends the loop with success. *)
Fixpoint run_sniffers (m : Metadata) (reader : chunks) (sniffers : list StreamSniffer) (sniffError : option error)
    : outcome (Metadata * (() + option error)) :=
  match sniffers with
  | [] => Ret (m, inr sniffError)
  | sniffer :: sniffers =>
      let* (m, err) := sniffer m reader in
      match err with
      | None => Ret (m, inl ())
      | Some e => run_sniffers m reader sniffers (Errors [sniffError; Some (wrap e)])
      end
  end.

(** What the connection answers to a round: a failed deadline, a failed read, or
    the bytes read. *)
Inductive round : Type :=
| DeadlineFails (e : string)
| ReadFails (e : string)
| ReadData (d : bytes).

Inductive peek_result : Type :=
| DeadlineError (e : string)
| ReadError (e : string)
| Sniffed (e : option error).

(** [PeekStream] from round [i] on; without an answer it blocks.  The buffer
    ([buf.NewPacket], of a library) holds [capacity] bytes: a read takes what
    still fits, and fails without reading when the buffer is full.  A read that
    gives bytes together with an error is not modelled. *)
Fixpoint peek_stream (rounds : list round) (first : bool) (m : Metadata) (buffers : chunks) (capacity : nat) (buffer : bytes)
    (sniffers : list StreamSniffer) (sniffError : option error) : outcome (Metadata * bytes * peek_result) :=
  let read_failed e := Ret (m, buffer, if first then ReadError e else Sniffed sniffError) in
  match rounds with
  | DeadlineFails e :: _ => Ret (m, buffer, DeadlineError e)
  | [] => if (capacity <=? length buffer)%nat then read_failed "short buffer" else Blocked
  | ReadFails e :: _ => read_failed (if (capacity <=? length buffer)%nat then "short buffer" else e)
  | ReadData d :: rounds =>
      if (capacity <=? length buffer)%nat then read_failed "short buffer" else
      let buffer := buffer ++ take (capacity - length buffer) d in
      let* (m, r) := run_sniffers m (buffers ++ [buffer]) sniffers None in
      match r with
      | inl _ => Ret (m, buffer, Sniffed None)
      | inr sniffError =>
          if match sniffError with Some e => IsNeedMore e | None => false end
          then peek_stream rounds false m buffers capacity buffer sniffers sniffError
          else Ret (m, buffer, Sniffed sniffError)
      end
  end.
Definition PeekStream (rounds : list round) (m : Metadata) (buffers : chunks) (capacity : nat) (buffer : bytes) (sniffers : list StreamSniffer) :=
  peek_stream rounds true m buffers capacity buffer sniffers None.

End Streams.

(** ** Packets: what each sniffer accepts *)

(** The byte at [i], and the big-endian number of the [n] bytes from [i]. *)
Definition byte_at (p : bytes) (i : nat) : Z := nth i p 0.
Definition number_at (p : bytes) (i n : nat) : Z := be_value (take n (drop i p)).

Definition is_tracker (p : bytes) : bool :=
  (16 <=? len p) && (number_at p 0 8 =? 0x41727101980) && (number_at p 8 4 =? 0).
Definition is_dtls (p : bytes) : bool :=
  (13 <=? len p) && (existsb (Z.eqb (byte_at p 0)) [20; 21; 22; 23; 25]) && (byte_at p 1 =? 0xfe) &&
  ((byte_at p 2 =? 0xff) || (byte_at p 2 =? 0xfd)).
Definition is_ntp (p : bytes) : bool :=
  (48 <=? len p) && (((byte_at p 0 / 8) mod 8 =? 3) || ((byte_at p 0 / 8) mod 8 =? 4)) && (byte_at p 0 mod 8 =? 3) &&
  (number_at p 4 4 <=? 0x100000) && (number_at p 8 4 <=? 0x100000).
Definition is_stun (p : bytes) : bool :=
  (20 <=? len p) && (number_at p 4 4 =? 0x2112A442) && (20 + number_at p 2 2 <=? len p).

(** The chain of extensions of a uTP packet ends. *)
Definition utp_chain (p : bytes) : bool :=
  match utp_extensions (length p) (byte_at p 1) (drop 20 p) with Ret None => true | _ => false end.
Definition is_utp (p : bytes) : bool :=
  (20 <=? len p) && (byte_at p 0 mod 16 =? 1) && (byte_at p 0 / 16 <=? 4) && utp_chain p.

(** A sniffer that accepts the packets of [spec], and turns down all others
    without asking for more data. *)
Class Decides (s : PacketSniffer) (proto : string) (spec : bytes → bool) : Prop :=
  decides : ∀ m p, is_bytes p →
    if spec p then s m p = accept m proto else ∃ e, e ≠ NeedMoreData ∧ s m p = Ret (m, Some e).

Lemma index_byte_at p i : (Z.of_nat i < len p) → index p (Z.of_nat i) = Ret (byte_at p i).
Proof.
  intros Hi. apply index_lookup; [lia|]. rewrite Nat2Z.id. unfold byte_at. unfold len in Hi.
  destruct (lookup_lt_is_Some_2 p i) as [x Hx]; [lia|]. rewrite Hx. f_equal. symmetry. by apply nth_lookup_Some.
Qed.

Lemma slice_number p i n :
  Z.of_nat (i + n) ≤ len p → (let* b := slice p (Z.of_nat i) (Z.of_nat (i + n)) in Uint n b) = Ret (number_at p i n).
Proof.
  intros Hn. rewrite slice_ok by lia. cbn [o_bind]. rewrite !Nat2Z.id, <- take_drop_commute. unfold Uint, number_at, len in *.
  rewrite take_take, Nat.min_id, length_take, length_drop. rewrite (proj2 (Z.ltb_ge _ _)) by lia. done.
Qed.

Lemma o_bind_assoc {A B C} (m : outcome A) (f : A → outcome B) (g : B → outcome C) :
  o_bind m (λ x, o_bind (f x) g) = o_bind (o_bind m f) g.
Proof. by destruct m. Qed.

#[global] Instance UDPTracker_decides : Decides UDPTracker ProtocolBitTorrent is_tracker.
Proof.
  intros m p _. unfold UDPTracker, is_tracker, trackerConnectMinSize. rewrite Z.ltb_antisym.
  destruct (16 <=? len p) eqn:Hl; cbn [negb andb]; [apply Z.leb_le in Hl | by exists Invalid].
  rewrite o_bind_assoc. change (slice_to p 8) with (slice p (Z.of_nat 0) (Z.of_nat (0 + 8))). rewrite slice_number by lia. cbn [o_bind].
  unfold trackerProtocolID. destruct (number_at p 0 8 =? _); cbn [negb andb]; [|by exists Invalid].
  rewrite o_bind_assoc. change (slice p 8 12) with (slice p (Z.of_nat 8) (Z.of_nat (8 + 4))). rewrite slice_number by lia. cbn [o_bind].
  unfold trackerConnectFlag. by destruct (number_at p 8 4 =? 0); [|exists Invalid].
Qed.

#[global] Instance DTLSRecord_decides : Decides DTLSRecord ProtocolDTLS is_dtls.
Proof.
  intros m p _. unfold DTLSRecord, is_dtls, fixedHeaderSize. rewrite Z.ltb_antisym.
  destruct (13 <=? len p) eqn:Hl; cbn [negb andb]; [apply Z.leb_le in Hl | by exists Invalid].
  rewrite (index_byte_at p 0 ltac:(lia) : index p 0 = _). cbn [o_bind]. destruct (existsb _ _); cbn [negb andb]; [|by exists Invalid].
  rewrite (index_byte_at p 1 ltac:(lia) : index p 1 = _). cbn [o_bind]. destruct (byte_at p 1 =? _); cbn [negb andb]; [|by exists Invalid].
  rewrite (index_byte_at p 2 ltac:(lia) : index p 2 = _). cbn [o_bind]. destruct (byte_at p 2 =? 0xff), (byte_at p 2 =? 0xfd); cbn; try done. by exists Invalid.
Qed.

#[global] Instance STUNMessage_decides : Decides STUNMessage ProtocolSTUN is_stun.
Proof.
  intros m p _. unfold STUNMessage, is_stun. rewrite Z.ltb_antisym.
  destruct (20 <=? len p) eqn:Hl; cbn [negb andb]; [apply Z.leb_le in Hl | by exists Invalid].
  rewrite o_bind_assoc. change (slice p 4 8) with (slice p (Z.of_nat 4) (Z.of_nat (4 + 4))). rewrite slice_number by lia. cbn [o_bind].
  destruct (number_at p 4 4 =? _); cbn [negb andb]; [|by exists Invalid].
  rewrite o_bind_assoc. change (slice p 2 4) with (slice p (Z.of_nat 2) (Z.of_nat (2 + 2))). rewrite slice_number by lia. cbn [o_bind].
  rewrite Z.ltb_antisym. destruct (20 + number_at p 2 2 <=? len p); cbn [negb]; [done | by exists Invalid].
Qed.

Lemma byte_at_fits p i : is_bytes p → fits 8 (byte_at p i).
Proof.
  intros Hp. unfold byte_at. destruct (nth_in_or_default i p 0) as [Hin| ->]; [|done].
  apply (proj1 (List.Forall_forall _ _) Hp). done.
Qed.

(** Bits of a byte as quotients. *)
Lemma land_mod x k : 0 ≤ k → Z.land x (2 ^ k - 1) = x mod 2 ^ k.
Proof. intros Hk. rewrite <- Z.land_ones by done. by rewrite Z.ones_equiv, <- Z.sub_1_r. Qed.

#[global] Instance NTP_decides : Decides NTP ProtocolNTP is_ntp.
Proof.
  intros m p _. unfold NTP, is_ntp. rewrite Z.ltb_antisym.
  destruct (48 <=? len p) eqn:Hl; cbn [negb andb]; [apply Z.leb_le in Hl | by exists Invalid].
  rewrite (index_byte_at p 0 ltac:(lia) : index p 0 = _). cbn [o_bind].
  rewrite (land_mod _ 2 ltac:(lia) : Z.land _ 3 = _), !(land_mod _ 3 ltac:(lia) : Z.land _ 7 = _), !Z.shiftr_div_pow2 by lia.
  change (2 ^ 3) with 8. change (2 ^ 6) with 64. change (2 ^ 2) with 4.
  rewrite (proj2 (Z.ltb_ge 3 _)) by (pose proof (Z.mod_pos_bound (byte_at p 0 / 64) 4); lia).
  destruct ((byte_at p 0 / 8) mod 8 =? 3) eqn:H3, ((byte_at p 0 / 8) mod 8 =? 4) eqn:H4; cbn [negb andb orb]; try (by exists Invalid);
    (destruct (byte_at p 0 mod 8 =? 3); cbn [negb andb]; [|by exists Invalid]);
    rewrite o_bind_assoc; change (slice p 4 8) with (slice p (Z.of_nat 4) (Z.of_nat (4 + 4))); rewrite slice_number by lia; cbn [o_bind];
    rewrite o_bind_assoc; change (slice p 8 12) with (slice p (Z.of_nat 8) (Z.of_nat (8 + 4))); rewrite slice_number by lia; cbn [o_bind];
    change (16 * 65536) with 0x100000; rewrite !Z.ltb_antisym;
    (destruct (number_at p 4 4 <=? _); cbn [negb andb]; [|by exists Invalid]);
    (destruct (number_at p 8 4 <=? _); cbn [negb andb]; [done|by exists Invalid]).
Qed.

(** The loop over the extensions ends within as many rounds as there are bytes. *)
Lemma utp_extensions_ends rounds extension rest :
  (length rest < rounds)%nat → ∃ e, utp_extensions rounds extension rest = Ret e ∧ e ≠ Some NeedMoreData.
Proof.
  revert extension rest. induction rounds as [|rounds IH]; intros extension rest Hr; [lia|]. cbn [utp_extensions].
  destruct (extension =? 0); [by exists None|]. destruct rest as [|next rest]; [by exists (Some ReadEOF)|].
  destruct (4 <? next); [by exists (Some Invalid)|]. destruct rest as [|l rest]; [by exists (Some ReadEOF)|].
  apply IH. rewrite length_drop. simpl in Hr. lia.
Qed.

#[global] Instance UTP_decides : Decides UTP ProtocolBitTorrent is_utp.
Proof.
  intros m p Hp. unfold UTP, is_utp. rewrite Z.ltb_antisym.
  destruct (20 <=? len p) eqn:Hl; cbn [negb andb]; [apply Z.leb_le in Hl | by exists Invalid].
  rewrite (index_byte_at p 0 ltac:(lia) : index p 0 = _), (index_byte_at p 1 ltac:(lia) : index p 1 = _). cbn [o_bind].
  change 0x0F with (2 ^ 4 - 1). rewrite land_mod, Z.shiftr_div_pow2 by lia. change (2 ^ 4) with 16.
  destruct (byte_at p 0 mod 16 =? 1); cbn [negb andb orb]; [|by exists Invalid].
  rewrite (Z.ltb_antisym _ 4). destruct (byte_at p 0 / 16 <=? 4); cbn [negb andb orb]; [|by exists Invalid].
  rewrite slice_from_ok by lia. cbn [o_bind]. change (Z.to_nat 20) with 20%nat. unfold utp_chain.
  destruct (utp_extensions_ends (length p) (byte_at p 1) (drop 20 p)) as (e & E & He); [rewrite length_drop; unfold len in Hl; lia|].
  rewrite E. cbn [o_bind]. destruct e as [e|]; [|done]. exists e. split; [congruence | done].
Qed.

(** ** Packets: the order of the sniffers *)

Inductive kind : Type := KStun | KUtp | KTracker | KDtls | KNtp.

Definition sniffer_of (k : kind) : PacketSniffer :=
  match k with KStun => STUNMessage | KUtp => UTP | KTracker => UDPTracker | KDtls => DTLSRecord | KNtp => NTP end.
Definition proto_of (k : kind) : string :=
  match k with KStun => ProtocolSTUN | KUtp | KTracker => ProtocolBitTorrent | KDtls => ProtocolDTLS | KNtp => ProtocolNTP end.
Definition spec_of (k : kind) : bytes → bool :=
  match k with KStun => is_stun | KUtp => is_utp | KTracker => is_tracker | KDtls => is_dtls | KNtp => is_ntp end.

#[global] Instance kind_decides k : Decides (sniffer_of k) (proto_of k) (spec_of k).
Proof. destruct k; apply _. Qed.

Lemma be_value_append l1 l2 : be_value (l1 ++ l2) = be_value l1 * 2 ^ (8 * Z.of_nat (length l2)) + be_value l2.
Proof.
  induction l1 as [|x l1 IH]; [unfold be_value at 2; simpl; lia|]. cbn [app]. rewrite !be_value_cons, IH, length_app.
  rewrite Nat2Z.inj_add, Z.mul_add_distr_l, Z.pow_add_r by lia. lia.
Qed.

Lemma number_split p i a b :
  Z.of_nat (i + a + b) ≤ len p → number_at p i (a + b) = number_at p i a * 2 ^ (8 * Z.of_nat b) + number_at p (i + a) b.
Proof.
  intros Hl. unfold number_at, len in *. rewrite <- (take_drop a (take (a + b) (drop i p))), be_value_append.
  rewrite take_take, Nat.min_l, <- take_drop_commute, drop_drop by lia. rewrite length_take, length_drop.
  by rewrite Nat.min_l by lia.
Qed.

Lemma number_bound p i n : is_bytes p → 0 ≤ number_at p i n < 2 ^ (8 * Z.of_nat n).
Proof.
  intros Hp. unfold number_at. pose proof (be_value_bound (take n (drop i p)) (Forall_take _ _ _ (Forall_drop _ _ _ Hp))) as Hb.
  split; [apply Hb|]. eapply Z.lt_le_trans; [apply Hb|]. apply Z.pow_le_mono_r; [lia|]. rewrite length_take. lia.
Qed.

Lemma number_byte p i : Z.of_nat i < len p → number_at p i 1 = byte_at p i.
Proof.
  intros Hi. unfold number_at, byte_at, len in *. destruct (lookup_lt_is_Some_2 p i) as [x Hx]; [lia|].
  rewrite (drop_S _ _ _ Hx). rewrite (nth_lookup_Some _ _ _ _ Hx). unfold be_value. simpl. lia.
Qed.

(** The first bytes of a tracker's packet. *)
Lemma tracker_bytes p : is_bytes p → is_tracker p = true → byte_at p 0 = 0 ∧ number_at p 4 4 = 0x27101980.
Proof.
  intros Hp H. apply andb_true_iff in H as [H _]. apply andb_true_iff in H as [Hl H]. apply Z.leb_le in Hl. apply Z.eqb_eq in H.
  rewrite (number_split p 0 4 4 ltac:(lia) : number_at p 0 8 = _) in H. pose proof (number_bound p 0 4 Hp). pose proof (number_bound p 4 4 Hp).
  pose proof (number_split p 0 1 3 ltac:(lia)) as Hn1. rewrite number_byte in Hn1 by lia. cbn [Nat.add] in *.
  pose proof (number_bound p 1 3 Hp). pose proof (byte_at_fits p 0 Hp) as Hb. unfold fits in Hb.
  change (2 ^ (8 * Z.of_nat 4)) with 4294967296 in *. change (2 ^ (8 * Z.of_nat 3)) with 16777216 in *. change (2 ^ 8) with 256 in *. lia.
Qed.

Lemma dtls_byte p : is_dtls p = true → byte_at p 0 ∈ [20; 21; 22; 23; 25] ∧ 13 ≤ len p ∧ 0xfd ≤ byte_at p 2.
Proof.
  unfold is_dtls. rewrite !andb_true_iff, orb_true_iff, !Z.eqb_eq, Z.leb_le, existsb_exists. intros (((? & (x & Hin & Hx)) & _) & Hm).
  apply Z.eqb_eq in Hx. rewrite Hx. split_and!; [by apply list_elem_of_In | done | lia].
Qed.

Lemma stun_fields p : is_stun p = true → number_at p 4 4 = 0x2112A442 ∧ 20 + number_at p 2 2 ≤ len p ∧ 20 ≤ len p.
Proof. unfold is_stun. rewrite !andb_true_iff, Z.eqb_eq, !Z.leb_le. lia. Qed.

Lemma ntp_fields p : is_ntp p = true → byte_at p 0 mod 8 = 3 ∧ number_at p 4 4 ≤ 0x100000.
Proof. unfold is_ntp. rewrite !andb_true_iff, Z.eqb_eq, !Z.leb_le. lia. Qed.

Lemma utp_field p : is_utp p = true → byte_at p 0 mod 16 = 1.
Proof. unfold is_utp. rewrite !andb_true_iff, !Z.eqb_eq. lia. Qed.

(** No other two of the five accept the same packet. *)
Lemma kinds_exclusive p k1 k2 :
  is_bytes p → len p < 64788 → is_stun p && is_utp p = false → spec_of k1 p = true → spec_of k2 p = true → k1 = k2.
Proof.
  intros Hp Hlen Hsu. assert (∀ x, x mod 16 = 1 → x mod 8 = 1) as Hm by (intros x Hx; rewrite <- (Z.mod_mod_divide x 16 8) by (by exists 2); by rewrite Hx).
  assert (is_stun p = true → is_dtls p = true → False) as Hsd.
  { intros (_ & Hs & Hl)%stun_fields (_ & _ & Hd)%dtls_byte. pose proof (number_split p 2 1 1 ltac:(lia)) as H1. rewrite number_byte in H1 by lia.
    pose proof (number_bound p 3 1 Hp). cbn [Nat.add] in *. change (2 ^ (8 * Z.of_nat 1)) with 256 in *. lia. }
  assert (∀ x, x ∈ [20; 21; 22; 23; 25] → x mod 8 ≠ 3 ∧ x mod 16 ≠ 1 ∧ x ≠ 0) as Hd.
  { intros x Hx. repeat (apply elem_of_cons in Hx as [->|Hx]; [done|]). by apply not_elem_of_nil in Hx. }
  destruct k1, k2; cbn [spec_of]; intros H1 H2; try reflexivity; exfalso;
    repeat match goal with
    | H : is_tracker p = true |- _ => apply (tracker_bytes p Hp) in H as [? ?]
    | H : is_ntp p = true |- _ => apply ntp_fields in H as [? ?]
    end;
    repeat match goal with
    | H : is_utp p = true, H' : is_stun p = true |- _ => by rewrite H, H' in Hsu
    | H : is_dtls p = true, H' : is_stun p = true |- _ => exact (Hsd H' H)
    | H : is_utp p = true |- _ => apply utp_field in H; pose proof (Hm _ H)
    | H : is_stun p = true |- _ => apply stun_fields in H as (? & ? & ?)
    | H : is_dtls p = true |- _ => apply dtls_byte in H as [(? & ? & ?)%Hd _]
    end; try lia; try congruence;
    match goal with H : byte_at p 0 = 0 |- _ => rewrite H in *; done end.
Qed.

Section Packets.
Context `{SingLaws}.

(** The first sniffer that accepts gives the protocol. *)
Lemma peek_packet_first m p l acc :
  is_bytes p → (l ≠ [] ∨ ¬ Forall (λ e, e = None) acc) →
  ∃ err, peek_packet m p (map sniffer_of l) acc =
    Ret (match List.find (λ k, spec_of k p) l with Some k => set_Protocol m (proto_of k) | None => m end, err) ∧
    (err = None ↔ List.find (λ k, spec_of k p) l ≠ None).
Proof.
  intros Hp. revert acc. induction l as [|k l IH]; intros acc Hne; cbn [map peek_packet List.find].
  - exists (Errors acc). split; [done|]. destruct Hne as [|Hne]; [done|]. rewrite Errors_nil. tauto.
  - pose proof (decides (s := sniffer_of k) m p Hp) as Hk. destruct (spec_of k p).
    + rewrite Hk. cbn. exists None. split; [done|]. split; done.
    + destruct Hk as (e & _ & ->). cbn. apply IH. right. intros Hall. apply Forall_app in Hall as [_ Hall].
      inversion Hall as [|? ? He]. discriminate He.
Qed.

Lemma find_exclusive (f : kind → bool) l l' :
  (∀ k k', f k = true → f k' = true → k = k') → l ≡ₚ l' → List.find f l = List.find f l'.
Proof.
  intros Hex Hp. destruct (List.find f l) as [k|] eqn:E, (List.find f l') as [k'|] eqn:E'; [| | |done].
  - f_equal. apply Hex; [apply (List.find_some _ _ E) | apply (List.find_some _ _ E')].
  - destruct (List.find_some _ _ E) as [Hin Hk]. assert (k ∈ l') as Hin' by (rewrite <- Hp; by apply list_elem_of_In).
    by rewrite (List.find_none _ _ E' k (proj1 (list_elem_of_In _ _) Hin')) in Hk.
  - destruct (List.find_some _ _ E') as [Hin Hk]. assert (k' ∈ l) as Hin' by (rewrite Hp; by apply list_elem_of_In).
    by rewrite (List.find_none _ _ E k' (proj1 (list_elem_of_In _ _) Hin')) in Hk.
Qed.

(** The protocol sniffed from a packet does not depend on the order of the
    sniffers for STUN, uTP, UDP trackers, DTLS and NTP: but for the packets that
    are STUN messages and uTP packets at once, no two of them accept the same
    packet of less than 64788 bytes, none of them panics or runs forever on any
    packet, and each accepts exactly its header format. *)
Theorem PeekPacket_order_independent m p l l' :
  is_bytes p → len p < 64788 → is_stun p && is_utp p = false → l ≡ₚ l' → l ≠ [] →
  ∃ m' err err', PeekPacket m p (map sniffer_of l) = Ret (m', err) ∧ PeekPacket m p (map sniffer_of l') = Ret (m', err') ∧
    (err = None ↔ err' = None) ∧
    (∀ k, k ∈ l → spec_of k p = true → m' = set_Protocol m (proto_of k) ∧ err = None).
Proof.
  intros Hp Hlen Hsu Hperm Hne. assert (l' ≠ []) as Hne' by (intros ->; by apply Hne, Permutation_nil_r).
  destruct (peek_packet_first m p l [] Hp (or_introl Hne)) as (err & E & He).
  destruct (peek_packet_first m p l' [] Hp (or_introl Hne')) as (err' & E' & He').
  pose proof (λ k k', kinds_exclusive p k k' Hp Hlen Hsu) as Hex. rewrite <- (find_exclusive _ _ _ Hex Hperm) in E', He'.
  eexists _, err, err'. split_and!; [exact E | exact E' | by rewrite He, He' |].
  intros k Hk Hs. destruct (List.find (λ k, spec_of k p) l) as [k'|] eqn:Ef.
  - destruct (List.find_some _ _ Ef) as [_ Hk']. rewrite (Hex k k' Hs Hk'). split; [done|]. by apply He.
  - by rewrite (List.find_none _ _ Ef k (proj1 (list_elem_of_In _ _) Hk)) in Hs.
Qed.

(** A DNS message that is not a query is a success without a protocol: the
    sniffers behind [DomainNameQuery] are not asked, even one that would accept
    the packet. *)
Theorem dns_message_hides m p msg sniffers :
  Unpack p = inr msg → Response msg = true ∨ Questions msg = 0 →
  PeekPacket m p (DomainNameQuery :: sniffers) = Ret (m, None).
Proof.
  intros E Hmsg. unfold PeekPacket. cbn [peek_packet]. unfold DomainNameQuery. rewrite E.
  assert (Response msg || (Questions msg =? 0) || (0 <? Answers msg) || (0 <? Ns msg) = true) as ->; [|done].
  destruct Hmsg as [-> | ->]; [done|]. by rewrite orb_true_r.
Qed.

End Packets.

(** A binding success response with a mapped address. *)
Definition stun_response : bytes :=
  [1; 1; 0; 12; 0x21; 0x12; 0xA4; 0x42] ++ repeat 9 12 ++ [0; 0x20; 0; 8; 0; 1; 0x11; 0x22; 1; 2; 3; 4].

(** A STUN binding response is taken for a uTP packet as well: what it is
    sniffed as depends on the order of the sniffers. *)
Theorem stun_response_is_utp : is_bytes stun_response ∧ is_stun stun_response = true ∧ is_utp stun_response = true.
Proof. split; [apply (bool_decide_unpack _); vm_compute; exact I | by vm_compute]. Qed.

(** ** Streams: answers that more data cannot change *)

Inductive answer_kind : Type :=
| VAccept (p : option string)  (** success; [None]: the protocol is left as it is *)
| VReject
| VMore.

(** What a sniffer says of a single buffer [D]. *)
Definition answers (s : StreamSniffer) (D : bytes) (v : answer_kind) : Prop :=
  ∀ m, match v with
       | VAccept p => ∃ m', s m [D] = Ret (m', None) ∧ Protocol m' = default (Protocol m) p
       | VReject => ∃ e, e ≠ NeedMoreData ∧ s m [D] = Ret (m, Some e)
       | VMore => s m [D] = Ret (m, Some NeedMoreData)
       end.

(** A sniffer whose answer, once it is not a request for more data, is the same
    however many bytes follow. *)
Class StableSniffer (s : StreamSniffer) (view : bytes → answer_kind) : Prop := {
  stable_answers : ∀ D, answers s D (view D);
  stable_extend : ∀ D E, view D ≠ VMore → view (D ++ E) = view D }.

Lemma read_full_concat n cs :
  ∃ cs', read_full n cs = (take n (concat cs), cs') ∧ concat cs' = drop n (concat cs).
Proof.
  revert n. induction cs as [|c cs IH]; intros n; cbn [read_full concat].
  - exists []. by rewrite take_nil, drop_nil.
  - destruct (n <=? length c)%nat eqn:Hn.
    + apply Nat.leb_le in Hn. exists (drop n c :: cs). cbn [concat]. by rewrite take_app_le, drop_app_le by done.
    + apply Nat.leb_gt in Hn. destruct (IH (n - length c)%nat) as (cs' & -> & Hc). exists cs'.
      by rewrite take_app_ge, drop_app_ge by lia.
Qed.

(** A computation that sees the bytes and not the buffers, and whose answer
    stands whatever follows. *)
Definition sn_good {A} (m : sn A) : Prop := ∀ cs cs' E, concat cs' = concat cs ++ E →
  match m cs with
  | inr (a, r) => ∃ r', m cs' = inr (a, r') ∧ concat r' = concat r ++ E
  | inl NeedMoreData => E = [] → m cs' = inl NeedMoreData
  | inl e => m cs' = inl e
  end.

Lemma sn_good_bind {A B} (m : sn A) (f : A → sn B) : sn_good m → (∀ a, sn_good (f a)) → sn_good (sn_bind m f).
Proof.
  intros Hm Hf cs cs' E Hc. unfold sn_bind. specialize (Hm cs cs' E Hc). destruct (m cs) as [e|[a r]].
  - destruct e; [by rewrite Hm | intros He; by rewrite (Hm He) | by rewrite Hm..].
  - destruct Hm as (r' & -> & Hr). by apply Hf.
Qed.

Lemma sn_good_int n : sn_good (sn_int n).
Proof.
  intros cs cs' E Hc. unfold sn_int. destruct (read_full_concat n cs) as (r & -> & Hr), (read_full_concat n cs') as (r' & -> & Hr').
  rewrite Hc in *. destruct (length (take n (concat cs)) <? n)%nat eqn:Hn.
  - apply Nat.ltb_lt in Hn. intros ->. rewrite app_nil_r. by rewrite (proj2 (Nat.ltb_lt _ _)).
  - apply Nat.ltb_ge in Hn. rewrite length_take in Hn. rewrite take_app_le by lia.
    rewrite (proj2 (Nat.ltb_ge _ _)) by (rewrite length_take; lia). exists r'. split; [done|]. by rewrite Hr', Hr, drop_app_le by lia.
Qed.

Lemma sn_good_reject_if c : sn_good (sn_reject_if c).
Proof. intros cs cs' E Hc. unfold sn_reject_if. destruct c; [done|]. by exists cs'. Qed.

Section Views.
Context `{SingLaws}.

Lemma sn_good_skip n : sn_good (sn_skip n).
Proof.
  intros cs cs' E Hc. unfold sn_skip. pose proof (SkipN_spec n cs) as H1. pose proof (SkipN_spec n cs') as H2. rewrite Hc, length_app in H2.
  destruct (SkipN n cs) as [r|], (SkipN n cs') as [r'|].
  - exists r'. destruct H1 as [Hl ->], H2 as [_ ->]. split; [done|]. by rewrite drop_app_le.
  - lia.
  - intros ->. simpl in H2. lia.
  - done.
Qed.

Lemma rdp_good : sn_good rdp_reads.
Proof. unfold rdp_reads. repeat (apply sn_good_bind; [first [apply sn_good_int | apply sn_good_reject_if | apply sn_good_skip]|intros ?]). apply sn_good_reject_if. Qed.

Definition rdp_view (D : bytes) : answer_kind :=
  match rdp_reads [D] with inr _ => VAccept (Some ProtocolRDP) | inl NeedMoreData => VMore | inl _ => VReject end.

#[global] Instance RDP_stable : StableSniffer RDP rdp_view.
Proof.
  split.
  - intros D m. unfold rdp_view, RDP. destruct (rdp_reads [D]) as [e|a]; [|by eexists].
    destruct e as [| | |msg]; [by exists Invalid | done | by exists ReadEOF | by exists (OtherError msg)].
  - intros D E. unfold rdp_view. pose proof (rdp_good [D] [D ++ E] E) as Hg. cbn [concat] in Hg. rewrite !app_nil_r in Hg.
    specialize (Hg eq_refl). destruct (rdp_reads [D]) as [[]|[a r]]; try done; try (by rewrite Hg). by destruct Hg as (r' & -> & _).
Qed.

(** What RDP answers does not depend on the buffers the bytes are in. *)
Lemma RDP_buffers m cs : RDP m cs = RDP m [concat cs].
Proof.
  unfold RDP. pose proof (rdp_good cs [concat cs] []) as Hg. cbn [concat] in Hg. specialize (Hg eq_refl).
  destruct (rdp_reads cs) as [[]|[a r]]; try (by rewrite Hg). by destruct Hg as (r' & -> & _).
Qed.

End Views.

Definition bittorrent_view (D : bytes) : answer_kind :=
  match D with
  | [] => VMore
  | x :: D =>
      if negb (x =? 19) then VReject
      else if negb (bool_decide (take 19 D = take (length (take 19 D)) header)) then VReject
      else if (length D <? 19)%nat then VMore else VAccept (Some ProtocolBitTorrent)
  end.

(** A bounded prefix that is compared as far as it goes. *)
Lemma prefix_test_extend n (D E h : bytes) :
  take n D ≠ take (length (take n D)) h → take n (D ++ E) ≠ take (length (take n (D ++ E))) h.
Proof.
  intros H1 H2. apply H1. apply (f_equal (take (length (take n D)))) in H2.
  rewrite !take_take, !length_take, length_app in H2. rewrite length_take.
  rewrite take_app_le in H2 by lia. rewrite <- (firstn_all2 D (n := length D)) at 1 by done.
  rewrite take_take. replace ((n `min` length D) `min` n)%nat with (n `min` length D)%nat in H2 by lia.
  rewrite H2. f_equal. lia.
Qed.

Lemma bt_header_slice (p : bytes) : (length p ≤ 19)%nat → slice_to header (len p) = Ret (take (length p) header).
Proof. intros Hp. rewrite slice_to_ok; unfold len in *; [by rewrite Nat2Z.id | simpl; lia]. Qed.

#[global] Instance BitTorrent_stable : StableSniffer BitTorrent bittorrent_view.
Proof.
  split.
  - intros [|x D] m; [done|]. unfold BitTorrent, bittorrent_view.
    assert (sn_int 1 [x :: D] = inr (x, [D])) as ->.
    { change (sn_int 1 [x :: D]) with (@inr sniff_error _ (be_value [x], [D])). unfold be_value. simpl. by rewrite Z.mul_0_l. }
    destruct (x =? 19); cbn [negb]; [|by exists Invalid].
    destruct D as [|y D]; [done|]. cbn [read_once]. set (P := take 19 (y :: D)).
    assert (length P = (19 `min` length (y :: D))%nat) as HP by (unfold P; by rewrite length_take).
    rewrite bt_header_slice by lia. cbn [o_bind]. case_bool_decide; cbn [negb]; [|by exists Invalid].
    destruct (length (y :: D) <? 19)%nat eqn:Hl.
    + apply Nat.ltb_lt in Hl. unfold len. rewrite (proj2 (Z.ltb_lt _ _)) by lia. done.
    + apply Nat.ltb_ge in Hl. unfold len. rewrite (proj2 (Z.ltb_ge _ _)) by lia. by eexists.
  - intros [|x D] E; [done|]. cbn [bittorrent_view app]. destruct (negb (x =? 19)); [done|].
    case_bool_decide as H1; cbn [negb].
    + destruct (length D <? 19)%nat eqn:Hl; [done|]. apply Nat.ltb_ge in Hl. intros _. rewrite take_app_le by lia.
      rewrite bool_decide_eq_true_2 by done. cbn [negb]. rewrite length_app, (proj2 (Nat.ltb_ge _ _)) by lia. done.
    + intros _. by rewrite bool_decide_eq_false_2 by (by apply prefix_test_extend).
Qed.

(** *** SSH *)

Lemma drop_cr_prefix (T : bytes) : ∃ T', drop_cr (sshPrefix ++ T) = sshPrefix ++ T' ∧ T' `prefix_of` T.
Proof.
  destruct T as [|z T] using rev_ind; [exists []; split; [done | apply prefix_nil]|]. unfold drop_cr.
  rewrite app_assoc, reverse_snoc. destruct (decide (z = 13)) as [->|Hz].
  - exists T. rewrite reverse_involutive. split; [done | by exists [13]].
  - exists (T ++ [z]). rewrite app_assoc. split; [|done].
    destruct z as [|z|z]; try done. do 4 (try destruct z as [z|z|]; try done).
Qed.

(** The line of a stream with the prefix keeps the prefix: slicing it is safe. *)
Lemma ReadLine_ssh (R : bytes) : ∃ T, ReadLine (sshPrefix ++ R) = Some (sshPrefix ++ T) ∧ T `prefix_of` R.
Proof.
  unfold ReadLine. set (B := take bufio_size (sshPrefix ++ R)).
  assert (B = sshPrefix ++ take 4088 R) as HB by reflexivity. rewrite HB.
  assert (index_byte 10 (sshPrefix ++ take 4088 R) = (λ k, 8 + k)%nat <$> index_byte 10 (take 4088 R)) as ->.
  { cbn. by destruct (index_byte 10 (take 4088 R)). }
  assert (∀ T, T `prefix_of` R → ∃ T', Some (drop_cr (sshPrefix ++ T)) = Some (sshPrefix ++ T') ∧ T' `prefix_of` R) as Hcr.
  { intros T HT. destruct (drop_cr_prefix T) as (T' & -> & HT'). exists T'. split; [done | by etrans]. }
  destruct (index_byte 10 (take 4088 R)) as [k|]; cbn [fmap option_fmap option_map].
  - replace (take (8 + k) (sshPrefix ++ take 4088 R)) with (sshPrefix ++ take k (take 4088 R)) by reflexivity.
    apply Hcr. etrans; apply prefix_take.
  - destruct (bufio_size <=? length (sshPrefix ++ R))%nat; [|by exists R].
    apply Hcr, prefix_take.
Qed.

Definition ssh_view (D : bytes) : answer_kind :=
  if negb (bool_decide (take 8 D = take (length (take 8 D)) sshPrefix)) then VReject
  else if (length D <? 8)%nat then VMore else VAccept (Some ProtocolSSH).

Lemma ssh_slice (p : bytes) : (length p ≤ 8)%nat → slice_to sshPrefix (len p) = Ret (take (length p) sshPrefix).
Proof. intros Hp. rewrite slice_to_ok; unfold len in *; [by rewrite Nat2Z.id | simpl; lia]. Qed.

(** With the whole prefix there, the sniffer accepts, and the client is the part
    of the line that has arrived. *)
Lemma SSH_accepts m (D : bytes) : take 8 D = sshPrefix →
  ∃ T, SSH m [D] = Ret (set_Client (set_Protocol m ProtocolSSH) T, None) ∧ T `prefix_of` drop 8 D.
Proof.
  intros HD. destruct (ReadLine_ssh (drop 8 D)) as (T & HT & Hp). rewrite <- HD, take_drop, HD in HT. exists T. split; [|done].
  unfold SSH. cbn [concat]. rewrite app_nil_r, HD, ssh_slice by done. cbn [o_bind]. rewrite bool_decide_eq_true_2 by done.
  cbn [negb]. rewrite Z.ltb_irrefl, HT. rewrite (slice_from_at sshPrefix T) by done. done.
Qed.

#[global] Instance SSH_stable : StableSniffer SSH ssh_view.
Proof.
  split.
  - intros D m. unfold ssh_view. assert (length (take 8 D) = (8 `min` length D)%nat) as HP by apply length_take.
    case_bool_decide as Hb; cbn [negb].
    + destruct (length D <? 8)%nat eqn:Hl.
      * apply Nat.ltb_lt in Hl. unfold SSH. cbn [concat]. rewrite app_nil_r, ssh_slice by lia. cbn [o_bind].
        rewrite bool_decide_eq_true_2 by done. cbn [negb]. unfold len. rewrite (proj2 (Z.ltb_lt _ _)) by (simpl; lia). done.
      * apply Nat.ltb_ge in Hl. rewrite HP, Nat.min_l in Hb by done. destruct (SSH_accepts m D Hb) as (T & -> & _). by eexists.
    + exists Invalid. split; [done|]. unfold SSH. cbn [concat]. rewrite app_nil_r, ssh_slice by lia. cbn [o_bind].
      by rewrite bool_decide_eq_false_2.
  - intros D E. unfold ssh_view. case_bool_decide as Hb; cbn [negb].
    + destruct (length D <? 8)%nat eqn:Hl; [done|]. apply Nat.ltb_ge in Hl. intros _. rewrite take_app_le by lia.
      rewrite bool_decide_eq_true_2 by done. cbn [negb]. by rewrite length_app, (proj2 (Nat.ltb_ge _ _)) by lia.
    + intros _. by rewrite bool_decide_eq_false_2 by (by apply prefix_test_extend).
Qed.

(** *** DNS over a stream *)

(** The part of a packet that has arrived shows that it is not a query. *)
Definition dns_bad (p : bytes) : bool :=
  (2 <? len p) && negb (Z.land (byte_at p 2) 0x80 =? 0) ||
  (5 <? len p) && ((byte_at p 4 =? 0) && (byte_at p 5 =? 0)) ||
  existsb (λ i, (Z.of_nat i <? len p) && negb (byte_at p i =? 0)) [6; 7; 8; 9]%nat.

Lemma byte_at_app p e i : Z.of_nat i < len p → byte_at (p ++ e) i = byte_at p i.
Proof. intros Hi. unfold byte_at. apply app_nth1. unfold len in Hi. lia. Qed.

Lemma dns_bad_app p e : dns_bad p = true → dns_bad (p ++ e) = true.
Proof.
  unfold dns_bad. rewrite !orb_true_iff, !andb_true_iff, !Z.ltb_lt, !existsb_exists.
  pose proof (len_nonneg e) as He. rewrite len_app. intros [[[Hl H]|[Hl H]]|(i & Hi & H)].
  - left; left. rewrite byte_at_app by (simpl; lia). split; [lia | done].
  - left; right. rewrite !byte_at_app by (simpl; lia). split; [lia | done].
  - right. exists i. split; [done|]. rewrite andb_true_iff, Z.ltb_lt in *. destruct H. rewrite byte_at_app by done. split; [lia | done].
Qed.

Lemma counts_loop_eq p l :
  counts_loop p (len p) (map Z.of_nat l) = Ret (existsb (λ i, (Z.of_nat i <? len p) && negb (byte_at p i =? 0)) l).
Proof.
  induction l as [|i l IH]; [done|]. cbn [map counts_loop existsb]. destruct (Z.of_nat i <? len p) eqn:Hi; [|done].
  apply Z.ltb_lt in Hi. rewrite index_byte_at by done. cbn [o_bind andb]. by destruct (negb _).
Qed.

Section DNS.
Context `{SingLaws}.

Definition dns_view (D : bytes) : answer_kind :=
  if (length D <? 2)%nat then VMore
  else
    let n := be_value (take 2 D) in
    if n <? 12 then VReject
    else
      let packet := take (Z.to_nat n) (drop 2 D) in
      if dns_bad packet then VReject
      else if (length (drop 2 D) <? Z.to_nat n)%nat then VMore
      else
        match Unpack packet with
        | inl _ => VReject
        | inr msg => VAccept (if Response msg || (Questions msg =? 0) || (0 <? Answers msg) || (0 <? Ns msg)
                              then None else Some ProtocolDNS)
        end.

#[global] Instance StreamDomainNameQuery_stable : StableSniffer StreamDomainNameQuery dns_view.
Proof.
  split.
  - intros D m. unfold dns_view, StreamDomainNameQuery, sn_int. destruct (read_full_concat 2 [D]) as (r & -> & Hr).
    cbn [concat] in *. rewrite app_nil_r in *. assert ((length (take 2 D) <? 2)%nat = (length D <? 2)%nat) as ->.
    { rewrite length_take. apply eq_true_iff_eq. rewrite !Nat.ltb_lt. lia. }
    destruct (length D <? 2)%nat; [done|]. destruct (be_value (take 2 D) <? 12); [by exists Invalid|].
    destruct (ReadFullFrom_spec (Z.to_nat (be_value (take 2 D))) r) as (r' & -> & _). rewrite Hr.
    set (n := Z.to_nat (be_value (take 2 D))). set (p := take n (drop 2 D)). unfold dns_bad.
    assert ((if 2 <? len p then let* x := index p 2 in Ret (negb (Z.land x 0x80 =? 0)) else Ret false) =
      Ret ((2 <? len p) && negb (Z.land (byte_at p 2) 0x80 =? 0))) as ->.
    { destruct (2 <? len p) eqn:E; [|done]. apply Z.ltb_lt in E. by rewrite (index_byte_at p 2 ltac:(simpl; lia) : index p 2 = _). }
    cbn [o_bind]. set (qr := (2 <? len p) && _). destruct qr; cbn [orb]; [by exists Invalid|].
    assert ((if 5 <? len p then let* x := index p 4 in let* y := index p 5 in Ret ((x =? 0) && (y =? 0)) else Ret false) =
      Ret ((5 <? len p) && ((byte_at p 4 =? 0) && (byte_at p 5 =? 0)))) as ->.
    { destruct (5 <? len p) eqn:E; [|done]. apply Z.ltb_lt in E.
      by rewrite (index_byte_at p 4 ltac:(simpl; lia) : index p 4 = _), (index_byte_at p 5 ltac:(simpl; lia) : index p 5 = _). }
    cbn [o_bind]. set (qd := (5 <? len p) && _). destruct qd; cbn [orb]; [by exists Invalid|].
    rewrite (counts_loop_eq p [6; 7; 8; 9]%nat : counts_loop p (len p) [6; 7; 8; 9] = _). cbn [o_bind].
    destruct (existsb _ _); [by exists Invalid|]. destruct (length (drop 2 D) <? n)%nat; [done|].
    unfold DomainNameQuery. destruct (Unpack p) as [e|msg]; [by exists (OtherError e)|]. destruct (_ || (0 <? Ns msg)); by eexists.
  - intros D E. unfold dns_view. rewrite length_app. destruct (length D <? 2)%nat eqn:Hl; [done|]. apply Nat.ltb_ge in Hl.
    rewrite (proj2 (Nat.ltb_ge _ 2)) by lia. rewrite take_app_le by done. destruct (be_value (take 2 D) <? 12); [done|].
    rewrite drop_app_le by done. set (n := Z.to_nat _). set (R := drop 2 D).
    destruct (dns_bad (take n R)) eqn:Hb.
    + intros _. assert (∃ e, take n (R ++ E) = take n R ++ e) as [e ->].
      { exists (take (n - length R) E). apply take_app. }
      by rewrite dns_bad_app.
    + destruct (length R <? n)%nat eqn:Hn; [done|]. apply Nat.ltb_ge in Hn. intros _. rewrite take_app_le by done. rewrite Hb.
      rewrite length_app. by rewrite (proj2 (Nat.ltb_ge _ n)) by lia.
Qed.

End DNS.

(** ** Streams: segmentation *)

Section Peek.
Context `{SingLaws}.

(** Sniffers with their views. *)
Abbreviation viewed := (list (StreamSniffer * (bytes → answer_kind))).
Definition all_stable (l : viewed) : Prop := Forall (λ x, StableSniffer x.1 x.2) l.
Definition accepted (l : viewed) (D : bytes) (p : option string) : Prop := ∃ x, x ∈ l ∧ x.2 D = VAccept p.
Definition exclusive (l : viewed) (D : bytes) : Prop := ∀ p q, accepted l D p → accepted l D q → p = q.
Definition wants_more (l : viewed) (D : bytes) : bool :=
  existsb (λ x, match x.2 D with VMore => true | _ => false end) l.
Definition need (o : option error) : bool := match o with Some e => IsNeedMore e | None => false end.

Lemma need_Errors acc e : need (Errors [acc; Some (wrap e)]) = need acc || bool_decide (e = NeedMoreData).
Proof.
  destruct (Errors [acc; Some (wrap e)]) as [e'|] eqn:E.
  - cbn [need]. rewrite (Errors_Is _ _ E). cbn [existsb]. rewrite IsNeedMore_wrap, orb_false_r. by destruct acc.
  - apply Errors_nil in E. inversion E as [|? ? _ E']. inversion E' as [|? ? E2]. discriminate E2.
Qed.

Lemma accepted_cons x l D p : accepted l D p → accepted (x :: l) D p.
Proof. intros (y & Hy & Ha). exists y. split; [by right | done]. Qed.

(** One round of the sniffers on the buffer [D]. *)
Lemma run_sniffers_views l m D acc :
  all_stable l →
  (∃ p m', accepted l D p ∧ run_sniffers m [D] (map fst l) acc = Ret (m', inl ()) ∧ Protocol m' = default (Protocol m) p) ∨
  ((∀ p, ¬ accepted l D p) ∧ ∃ err, run_sniffers m [D] (map fst l) acc = Ret (m, inr err) ∧
     need err = need acc || wants_more l D ∧ (err = None → acc = None ∧ l = [])).
Proof.
  intros Hl. revert acc. induction Hl as [|[s view] l [Ha _] Hl IH]; intros acc; cbn [map run_sniffers wants_more existsb fst snd].
  - right. split; [by intros p (x & Hx%not_elem_of_nil & _)|]. exists acc. by rewrite orb_false_r.
  - cbn [fst snd] in Ha. specialize (Ha D m). destruct (view D) as [p| |] eqn:Ev.
    + destruct Ha as (m' & -> & Hp). left. exists p, m'. split; [|done]. exists (s, view). split; [by left | done].
    + destruct Ha as (e & He & ->). cbn [o_bind].
      destruct (IH (Errors [acc; Some (wrap e)])) as [(p & m' & Hp & Hr)|(Hno & err & Hr & Hn & Herr)].
      * left. exists p, m'. split; [by apply accepted_cons | done].
      * right. split; [intros p (x & [->|Hx]%elem_of_cons & Hx'); [by cbn [snd] in Hx'; rewrite Ev in Hx' | by apply (Hno p); exists x]|].
        exists err. rewrite need_Errors, bool_decide_eq_false_2, orb_false_r in Hn by done. split_and!; [done..|].
        intros Hz. destruct (Herr Hz) as [HE _]. apply Errors_nil in HE. inversion HE as [|? ? _ HE']. by inversion HE'.
    + rewrite Ha. cbn [o_bind]. destruct (IH (Errors [acc; Some (wrap NeedMoreData)])) as [(p & m' & Hp & Hr)|(Hno & err & Hr & Hn & Herr)].
      * left. exists p, m'. split; [by apply accepted_cons | done].
      * right. split; [intros p (x & [->|Hx]%elem_of_cons & Hx'); [by cbn [snd] in Hx'; rewrite Ev in Hx' | by apply (Hno p); exists x]|].
        exists err. rewrite need_Errors, bool_decide_eq_true_2, orb_true_r in Hn by done. rewrite orb_true_r. split_and!; [done..|].
        intros Hz. destruct (Herr Hz) as [HE _]. apply Errors_nil in HE. inversion HE as [|? ? _ HE']. by inversion HE'.
Qed.

Lemma accepted_extend l D E p : all_stable l → accepted l D p → accepted l (D ++ E) p.
Proof.
  intros Hl (x & Hx & Ha). exists x. split; [done|]. destruct (proj1 (list.Forall_forall _ _) Hl x Hx) as [_ He].
  rewrite He; [done | by rewrite Ha].
Qed.

Lemma wants_more_before l D E p : all_stable l → (∀ q, ¬ accepted l D q) → accepted l (D ++ E) p → wants_more l D = true.
Proof.
  intros Hl Hno (x & Hx & Ha). apply existsb_exists. exists x. split; [by apply list_elem_of_In|].
  destruct (proj1 (list.Forall_forall _ _) Hl x Hx) as [_ He]. destruct (x.2 D) as [q| |] eqn:Ev; [| |done].
  - destruct (Hno q). by exists x.
  - rewrite (He D E) in Ha by (by rewrite Ev). by rewrite Ev in Ha.
Qed.

(** One read of a buffer with room, and what the buffer can hold after it. *)
Lemma fill_take (cap : nat) (B d : bytes) : (length B < cap)%nat → B ++ take (cap - length B) d = take cap (B ++ d).
Proof. intros Hc. rewrite take_app, (take_ge B) by lia. done. Qed.

Lemma take_fill (cap : nat) (B d rest : bytes) : take cap (B ++ d ++ rest) = take cap (take cap (B ++ d) ++ rest).
Proof.
  rewrite app_assoc. destruct (decide (length (B ++ d) ≤ cap)%nat) as [Hc|Hc]; [by rewrite (take_ge (B ++ d)) by lia|].
  rewrite (take_app_le (B ++ d)) by lia. symmetry. apply take_app_length'. rewrite length_take. lia.
Qed.

(** A full buffer already holds all that will be read. *)
Lemma take_full (cap : nat) (B rest : bytes) : (length B ≤ cap)%nat → (cap ≤ length B)%nat → take cap (B ++ rest) = B.
Proof. intros H1 H2. rewrite take_app, take_ge, (proj2 (Nat.sub_0_le cap (length B))) by lia. apply app_nil_r. Qed.

(** The loop with [B] in the buffer: it looks at no more than fits. *)
Lemma peek_stream_accepts l ds first m cap B rest err p :
  all_stable l → ds ≠ [] → (length B < cap)%nat →
  accepted l (take cap (B ++ concat ds)) p → exclusive l (take cap (B ++ concat ds)) →
  ∃ m' buf, peek_stream (map ReadData ds ++ rest) first m [] cap B (map fst l) err = Ret (m', buf, Sniffed None) ∧
    Protocol m' = default (Protocol m) p ∧ buf `prefix_of` take cap (B ++ concat ds).
Proof.
  intros Hl. revert first m B err. induction ds as [|d ds IH]; intros first m B err Hne Hc Hacc Hex; [done|].
  cbn [map app peek_stream concat]. cbn [concat] in Hacc, Hex. rewrite (proj2 (Nat.leb_gt _ _)), fill_take by done.
  rewrite take_fill in Hacc, Hex |- *. set (B' := take cap (B ++ d)) in *.
  assert (length B' ≤ cap)%nat as Hc' by (unfold B'; rewrite length_take; lia).
  assert (B' `prefix_of` take cap (B' ++ concat ds)) as Hp'.
  { rewrite take_app, (take_ge B') by done. by apply prefix_app_r. }
  destruct (run_sniffers_views l m B' None Hl) as [(q & m' & Hq & -> & Hp)|(Hno & e & -> & Hn & _)]; cbn [o_bind].
  - exists m', B'. split_and!; [done | | done]. destruct Hp' as [k Hk]. rewrite Hk in Hex, Hacc.
    rewrite (Hex p q Hacc (accepted_extend _ _ _ _ Hl Hq)). done.
  - assert (wants_more l B' = true) as Hw.
    { destruct Hp' as [k Hk]. rewrite Hk in Hacc. exact (wants_more_before _ _ _ _ Hl Hno Hacc). }
    fold (need e). rewrite Hn, Hw. cbn [orb].
    destruct ds as [|d' ds]; [cbn [concat] in Hacc; rewrite app_nil_r, take_ge in Hacc by done; by destruct (Hno p)|].
    destruct (decide (cap ≤ length B')%nat) as [Hfull|Hroom]; [rewrite take_full in Hacc by done; by destruct (Hno p)|].
    apply IH; [done | lia | done | done].
Qed.

Lemma peek_stream_rejects l ds first m cap B e err :
  all_stable l → l ≠ [] → ds ≠ [] → (length B < cap)%nat → (∀ p, ¬ accepted l (take cap (B ++ concat ds)) p) →
  ∃ err' buf, peek_stream (map ReadData ds ++ [ReadFails e]) first m [] cap B (map fst l) err = Ret (m, buf, Sniffed (Some err')) ∧
    buf `prefix_of` take cap (B ++ concat ds).
Proof.
  intros Hl Hlne. revert first B err. induction ds as [|d ds IH]; intros first B err Hne Hc Hno; [done|].
  cbn [map app peek_stream concat]. cbn [concat] in Hno. rewrite (proj2 (Nat.leb_gt _ _)), fill_take by done.
  rewrite take_fill in Hno |- *. set (B' := take cap (B ++ d)) in *.
  assert (length B' ≤ cap)%nat as Hc' by (unfold B'; rewrite length_take; lia).
  assert (B' `prefix_of` take cap (B' ++ concat ds)) as Hp'.
  { rewrite take_app, (take_ge B') by done. by apply prefix_app_r. }
  destruct (run_sniffers_views l m B' None Hl) as [(q & m' & Hq & _)|(_ & r & -> & Hn & Hr)]; cbn [o_bind].
  { destruct Hp' as [k Hk]. rewrite Hk in Hno. by destruct (Hno q (accepted_extend _ _ _ _ Hl Hq)). }
  destruct r as [r|]; [|by destruct (Hr eq_refl)]. destruct (IsNeedMore r); [|by exists r, B'].
  destruct ds as [|d' ds]; [by exists r, B'|].
  destruct (decide (cap ≤ length B')%nat) as [Hfull|Hroom].
  - cbn [map app peek_stream]. rewrite (proj2 (Nat.leb_le _ _)) by done. by exists r, B'.
  - apply IH; [done | lia | done].
Qed.

(** C36. What a first sniff of a stream finds does not depend on how the network
    cuts the stream.  It reads into an empty buffer of [capacity > 0] bytes, with no
    buffers cached by an earlier sniff (a second sniff does depend on the cut:
    [bittorrent_buffers]).  The sniffers have stable answers (an acceptance or a
    refusal is not changed by more data) and no two of them accept the bytes with
    different protocols; the connection delivers at least one segment and then fails
    to read, within the deadline.  Then every segmentation ends in success with the
    protocol of the sniffer that accepts the first [capacity] bytes of the stream,
    when there is one, and otherwise in an error with the metadata unchanged; the
    peeked buffer always holds a beginning of the stream. *)
Theorem PeekStream_segmentation l ds m capacity e :
  all_stable l → l ≠ [] → ds ≠ [] → (0 < capacity)%nat → exclusive l (take capacity (concat ds)) →
  ∃ m' buf r, PeekStream (map ReadData ds ++ [ReadFails e]) m [] capacity [] (map fst l) = Ret (m', buf, Sniffed r) ∧
    buf `prefix_of` take capacity (concat ds) ∧
    (∀ p, accepted l (take capacity (concat ds)) p → r = None ∧ Protocol m' = default (Protocol m) p) ∧
    ((∀ p, ¬ accepted l (take capacity (concat ds)) p) → r ≠ None ∧ m' = m).
Proof.
  intros Hl Hlne Hne Hc Hex. unfold PeekStream. set (D := take capacity (concat ds)) in *.
  destruct (existsb (λ x, match x.2 D with VAccept _ => true | _ => false end) l) eqn:Hin.
  - apply existsb_exists in Hin as (x & Hx%list_elem_of_In & Ha). destruct (x.2 D) as [p| |] eqn:Ev; try done.
    assert (accepted l D p) as Hacc by (by exists x).
    destruct (peek_stream_accepts l ds true m capacity [] [ReadFails e] None p Hl Hne Hc Hacc Hex) as (m' & buf & -> & Hp & Hb).
    exists m', buf, None. split_and!; [done|done| |].
    + intros q Hq. rewrite (Hex q p Hq Hacc). done.
    + intros Hn. by destruct (Hn p).
  - assert (∀ p, ¬ accepted l D p) as Hn.
    { intros p (x & Hx & Ha). apply not_true_iff_false in Hin. apply Hin, existsb_exists. exists x.
      split; [by apply list_elem_of_In | by rewrite Ha]. }
    destruct (peek_stream_rejects l ds true m capacity [] e None Hl Hlne Hne Hc Hn) as (err' & buf & -> & Hb).
    exists m, buf, (Some err'). split_and!; [done|done| |done]. intros p Hp. by destruct (Hn p).
Qed.

End Peek.

(** *** BitTorrent, SSH and RDP accept different streams *)

Definition first_byte (D : bytes) : option Z := head D.

Lemma bittorrent_first D p : bittorrent_view D = VAccept p → first_byte D = Some 19 ∧ p = Some ProtocolBitTorrent.
Proof.
  destruct D as [|x D]; [done|]. cbn [bittorrent_view]. destruct (x =? 19) eqn:Hx; [|done]. apply Z.eqb_eq in Hx. subst x. cbn [negb].
  destruct (bool_decide _); [|done]. cbn [negb]. destruct (length D <? 19)%nat; [done|]. by intros [= <-].
Qed.

Lemma ssh_first D p : ssh_view D = VAccept p → first_byte D = Some 83 ∧ p = Some ProtocolSSH.
Proof.
  unfold ssh_view. case_bool_decide as Hb; cbn [negb]; [|done]. destruct (length D <? 8)%nat eqn:Hl; [done|]. apply Nat.ltb_ge in Hl.
  rewrite length_take, Nat.min_l in Hb by done. intros [= <-]. split; [|done]. by destruct D as [|x D]; [|injection Hb as -> _].
Qed.

Lemma rdp_first `{SingLaws} D p : rdp_view D = VAccept p → first_byte D = Some 3 ∧ p = Some ProtocolRDP.
Proof.
  unfold rdp_view, rdp_reads. destruct D as [|x D]; [done|]. unfold sn_bind at 1.
  assert (sn_int 1 [x :: D] = inr (x, [D])) as ->.
  { change (sn_int 1 [x :: D]) with (@inr sniff_error _ (be_value [x], [D])). unfold be_value. simpl. by rewrite Z.mul_0_l. }
  unfold sn_bind at 1, sn_reject_if at 1. destruct (x =? 3) eqn:Hx; cbn [negb]; [|done]. apply Z.eqb_eq in Hx. subst x.
  destruct (sn_bind _ _ _) as [[]|]; [done..|]. by intros [= <-].
Qed.

Definition three `{SingLib} : list (StreamSniffer * (bytes → answer_kind)) :=
  [(BitTorrent, bittorrent_view); (SSH, ssh_view); (RDP, rdp_view)].

Lemma three_stable `{SingLaws} : all_stable three.
Proof. repeat (apply list.Forall_cons; split; [apply _|]). apply list.Forall_nil. done. Qed.

Lemma three_exclusive `{SingLaws} D : exclusive three D.
Proof.
  assert (∀ p, accepted three D p → (first_byte D, p) ∈ [(Some 19, Some ProtocolBitTorrent); (Some 83, Some ProtocolSSH); (Some 3, Some ProtocolRDP)]) as Hall.
  { intros p (x & Hx & Ha). repeat (apply elem_of_cons in Hx as [->|Hx]; [cbn [snd] in Ha|]); [..|by apply not_elem_of_nil in Hx].
    - apply bittorrent_first in Ha as [-> ->]. by left.
    - apply ssh_first in Ha as [-> ->]. right. by left.
    - apply rdp_first in Ha as [-> ->]. right; right. by left. }
  intros p q Hp%Hall Hq%Hall. rewrite !elem_of_cons in Hp, Hq.
  destruct Hp as [Hp|[Hp|[Hp|[]%not_elem_of_nil]]]; destruct Hq as [Hq|[Hq|[Hq|[]%not_elem_of_nil]]]; congruence.
Qed.

(** ** The laws can hold *)

Definition sing_go : SingLib := {|
  error := list sniff_error;
  wrap e := [e];
  Errors l := if forallb (λ o, match o with None => true | Some _ => false end) l then None
              else Some (concat (map (default []) l));
  IsNeedMore l := existsb (λ e, bool_decide (e = NeedMoreData)) l;
  SkipN n cs := let '(d, cs) := read_full n cs in if (length d <? n)%nat then None else Some cs;
  ReadFullFrom n cs := let '(d, cs) := read_full n cs in (d, (length d <? n)%nat, cs);
  Unpack p := if len p <? 12 then inl "short"%string
              else inr {| Response := Z.testbit (byte_at p 2) 7; Questions := number_at p 4 2; Answers := number_at p 6 2; Ns := number_at p 8 2 |} |}.

Lemma sing_go_laws : @SingLaws sing_go.
Proof.
  split.
  - intros e. cbn. by rewrite orb_false_r.
  - intros l. cbn. match goal with |- context [forallb ?f ?l] => destruct (forallb f l) eqn:E end.
    + split; [|done]. intros _. rewrite forallb_forall in E. apply list.Forall_forall. intros x Hx%list_elem_of_In%E. by destruct x.
    + split; [done|]. intros Hl. apply not_true_iff_false in E. destruct E. apply forallb_forall. intros x Hx%list_elem_of_In.
      by rewrite (proj1 (list.Forall_forall _ _) Hl x Hx).
  - intros l e. cbn. match goal with |- context [forallb ?f ?l] => destruct (forallb f l) end; [done|]. intros [= <-]. induction l as [|o l IH]; [done|]. cbn [map concat existsb].
    rewrite existsb_app, IH. by destruct o.
  - intros n cs. unfold SkipN, sing_go. destruct (read_full_concat n cs) as (cs' & -> & Hc). rewrite length_take.
    destruct (Nat.ltb_spec (n `min` length (concat cs)) n); [lia|]. split; [lia | done].
  - intros n cs. unfold ReadFullFrom, sing_go. destruct (read_full_concat n cs) as (cs' & -> & Hc). exists cs'. split; [|done].
    f_equal. f_equal. rewrite length_take. apply eq_true_iff_eq. rewrite !Nat.ltb_lt. lia.
Qed.

Definition nobody : Metadata := {| Protocol := ""; Client := []; DestinationPort := 6881 |}.

Lemma PeekPacket_order_independent_witness :
  ∃ m' err err', @PeekPacket sing_go nobody (1 :: 0 :: repeat 0 30) (map sniffer_of [KNtp; KUtp]) = Ret (m', err) ∧
    @PeekPacket sing_go nobody (1 :: 0 :: repeat 0 30) (map sniffer_of [KUtp; KNtp]) = Ret (m', err') ∧
    (err = None ↔ err' = None) ∧
    (∀ k, k ∈ [KNtp; KUtp] → spec_of k (1 :: 0 :: repeat 0 30) = true → m' = set_Protocol nobody (proto_of k) ∧ err = None).
Proof.
  apply (@PeekPacket_order_independent sing_go sing_go_laws nobody (1 :: 0 :: repeat 0 30) [KNtp; KUtp] [KUtp; KNtp]).
  - apply (bool_decide_unpack _). vm_compute. exact I.
  - by vm_compute.
  - by vm_compute.
  - constructor.
  - discriminate.
Defined.

Lemma dns_message_hides_witness :
  @PeekPacket sing_go nobody ([0; 1; 0x80] ++ repeat 0 20) [@DomainNameQuery sing_go; STUNMessage] = Ret (nobody, None).
Proof.
  apply (@dns_message_hides sing_go nobody ([0; 1; 0x80] ++ repeat 0 20) {| Response := true; Questions := 0; Answers := 0; Ns := 0 |} [STUNMessage]);
    [by vm_compute | by left].
Defined.

Lemma PeekStream_segmentation_witness :
  ∃ m' buf r, @PeekStream sing_go (map ReadData [[83; 83; 72]; [45; 50; 46; 48; 45; 120]] ++ [ReadFails "timeout"]) nobody [] 64 [] (map fst (@three sing_go)) =
      Ret (m', buf, @Sniffed sing_go r) ∧
    buf `prefix_of` [83; 83; 72; 45; 50; 46; 48; 45; 120] ∧
    (∀ p, accepted (@three sing_go) [83; 83; 72; 45; 50; 46; 48; 45; 120] p → r = None ∧ Protocol m' = default (Protocol nobody) p) ∧
    ((∀ p, ¬ accepted (@three sing_go) [83; 83; 72; 45; 50; 46; 48; 45; 120] p) → r ≠ None ∧ m' = nobody).
Proof.
  apply (@PeekStream_segmentation sing_go sing_go_laws three [[83; 83; 72]; [45; 50; 46; 48; 45; 120]] nobody 64 "timeout");
    [apply (@three_stable sing_go sing_go_laws) | done | done | apply Nat.lt_0_succ | apply (@three_exclusive sing_go sing_go_laws)].
Defined.

(** ** Findings *)

(** The handshake of BitTorrent is accepted in one buffer but not when it lies
    in two: the sniffer reads once and asks for more data that it already has. *)
Theorem bittorrent_buffers m :
  (∃ m', BitTorrent m [19 :: header] = Ret (m', None)) ∧ BitTorrent m [take 5 (19 :: header); drop 5 (19 :: header)] = Ret (m, Some NeedMoreData).
Proof. split; [by eexists | done]. Qed.

(** A line that has not arrived in full is taken as it is: the client sniffed
    from "SSH-2.0-ab" is "ab", although the line continues. *)
Theorem ssh_client_truncated m :
  SSH m [sshPrefix ++ [97; 98]] = Ret (set_Client (set_Protocol m ProtocolSSH) [97; 98], None) ∧
  SSH m [sshPrefix ++ [97; 98; 99; 13; 10]] = Ret (set_Client (set_Protocol m ProtocolSSH) [97; 98; 99], None).
Proof. done. Qed.
