(* ===== verification/AdaptiveRuntime.v ===== *)
(** * Runtime epochs and node identities of the adaptive pool

    [src/protocol/group/adaptive/runtime_manager.go]: the lineage that gives each
    node a handle (a slot, a version and the revision it was born in), the epochs
    that publish handles, the optimistic transactions that prepare and commit
    them, and the leases that keep an epoch alive while connections use it.

    A [stableIdentityState] is built once by [cloneStableIdentity] and
    [preparePublish] and not changed afterwards, so that a pointer to one is its
    number in the order of allocation; pointers are compared by that number.  The
    counters are 64 bits wide.  The visiting order of the range over the lineage
    is an argument. *)

From Stdlib Require Import ZArith Lia.
From S2P Require Import Prelude.
From stdpp Require Import base gmap sets list strings numbers sorting.

Local Open Scope Z_scope.

(** ** Data *)

(** A node id is a 16-byte digest; 0 is the empty id. *)
Definition NodeID : Type := Z.

Record NodeHandle : Type := mkHandle { h_NodeID : NodeID; h_Slot : Z; h_Version : Z; h_BornRevision : Z }.

#[global] Instance NodeHandle_eq_dec : EqDecision NodeHandle.
Proof. solve_decision. Defined.

Inductive EpochLifecycle : Type := EpochActive | EpochRetiring | EpochRetired.

#[global] Instance EpochLifecycle_eq_dec : EqDecision EpochLifecycle.
Proof. solve_decision. Defined.

Record IdentityNode : Type := mkNode { n_NodeID : NodeID; n_IdentityStable : bool }.
Record IdentitySnapshot : Type := mkSnapshot { is_SourceGeneration : Z; is_Nodes : list IdentityNode }.

Record RuntimeIdentity : Type := mkIdentity {
  ri_EpochID : Z;
  ri_Revision : Z;
  ri_SourceGeneration : Z;
  ri_Handles : gmap NodeID NodeHandle;
  ri_RetiredHandles : list NodeHandle;
  ri_VersionTransitions : list (NodeHandle * NodeHandle) }.

Record stableNodeLineage : Type := mkLineage { ln_handle : NodeHandle; ln_presentInLatest : bool }.
Record retiredLineageItem : Type := mkRetired { rt_nodeID : NodeID; rt_revision : Z }.

Record stableIdentityState : Type := mkState {
  st_nextEpoch : Z;
  st_nextRevision : Z;
  st_nextSlot : Z;
  st_currentEpoch : Z;
  st_lineage : gmap NodeID stableNodeLineage;
  st_retired : list retiredLineageItem;
  st_retiredHead : nat;
  st_retiredQueued : gmap NodeID Z;
  st_maxRetired : nat }.

Definition maxRetired : nat := Z.to_nat 16384.

Definition newStableIdentityState : stableIdentityState :=
  mkState 0 0 0 0 ∅ [] 0 ∅ maxRetired.

(** ** Publishing an identity *)

Definition is_empty_id (id : NodeID) : bool := id =? 0.

Fixpoint validate_nodes (seen : gset NodeID) (nodes : list IdentityNode) : option string :=
  match nodes with
  | [] => None
  | node :: nodes =>
      if is_empty_id (n_NodeID node) then Some "adaptive identity contains empty node"%string
      else if bool_decide (n_NodeID node ∈ seen) then Some "adaptive identity contains duplicate node"%string
      else validate_nodes ({[n_NodeID node]} ∪ seen) nodes
  end.
Definition validateIdentitySnapshot (snapshot : IdentitySnapshot) : option string :=
  if is_SourceGeneration snapshot =? 0 then Some "adaptive source generation is required"%string
  else validate_nodes ∅ (is_Nodes snapshot).

(** What the first loop of [preparePublish] builds. *)
Record publishing : Type := mkPub {
  pb_nextSlot : Z;
  pb_lineage : gmap NodeID stableNodeLineage;
  pb_retiredQueued : gmap NodeID Z;
  pb_handles : gmap NodeID NodeHandle;
  pb_retiredHandles : list NodeHandle;
  pb_transitions : list (NodeHandle * NodeHandle) }.

(** The lineage of a node gets a new version when the node comes back or its
    identity is not stable. *)
Definition bumps (lineage : stableNodeLineage) (node : IdentityNode) : bool :=
  negb (ln_presentInLatest lineage) || negb (n_IdentityStable node).
Definition next_version (revision : Z) (h : NodeHandle) : NodeHandle :=
  mkHandle (h_NodeID h) (h_Slot h) (u64 (h_Version h + 1)) revision.

Definition store_node (p : publishing) (id : NodeID) (handle : NodeHandle) : publishing :=
  mkPub (pb_nextSlot p) (<[id := mkLineage handle true]> (pb_lineage p)) (delete id (pb_retiredQueued p))
    (<[id := handle]> (pb_handles p)) (pb_retiredHandles p) (pb_transitions p).

(** One node of the snapshot. *)
Definition publish_node (revision : Z) (p : publishing) (node : IdentityNode) : publishing :=
  let id := n_NodeID node in
  match pb_lineage p !! id with
  | None =>
      let slot := u64 (pb_nextSlot p + 1) in
      store_node (mkPub slot (pb_lineage p) (pb_retiredQueued p) (pb_handles p) (pb_retiredHandles p) (pb_transitions p))
        id (mkHandle id slot 1 revision)
  | Some lineage =>
      let previous := ln_handle lineage in
      if bumps lineage node then
        let handle := next_version revision previous in
        store_node (mkPub (pb_nextSlot p) (pb_lineage p) (pb_retiredQueued p) (pb_handles p)
                      (pb_retiredHandles p ++ [previous]) (pb_transitions p ++ [(previous, handle)])) id handle
      else store_node p id previous
  end.

(** The nodes that left: the range over the lineage in the order [order]. *)
Record retiring : Type := mkRetiring {
  rg_lineage : gmap NodeID stableNodeLineage;
  rg_retired : list retiredLineageItem;
  rg_retiredQueued : gmap NodeID Z;
  rg_retiredHandles : list NodeHandle }.

Definition retire_node (revision : Z) (seen : gmap NodeID NodeHandle) (r : retiring) (x : NodeID * stableNodeLineage) : retiring :=
  let '(id, lineage) := x in
  if bool_decide (seen !! id = None) && ln_presentInLatest lineage then
    mkRetiring (<[id := mkLineage (ln_handle lineage) false]> (rg_lineage r))
      (rg_retired r ++ [mkRetired id revision])
      (<[id := revision]> (rg_retiredQueued r))
      (rg_retiredHandles r ++ [ln_handle lineage])
  else r.

(** [for len(s.retired)-s.retiredHead > s.maxRetired]: the items [queue] from the
    head on; what is left of it with the number of items passed. *)
Fixpoint evict_retired (max : nat) (queue : list retiredLineageItem) (queued : gmap NodeID Z)
    (lineage : gmap NodeID stableNodeLineage) : nat * gmap NodeID Z * gmap NodeID stableNodeLineage :=
  match queue with
  | [] => (0%nat, queued, lineage)
  | item :: rest =>
      if (length queue <=? max)%nat then (0%nat, queued, lineage)
      else
        let id := rt_nodeID item in
        let '(n, queued, lineage) :=
          if bool_decide (default 0 (queued !! id) ≠ rt_revision item) then evict_retired max rest queued lineage
          else
            evict_retired max rest (delete id queued)
              (match lineage !! id with
               | Some l => if negb (ln_presentInLatest l) then delete id lineage else lineage
               | None => lineage
               end) in
        (S n, queued, lineage)
  end.

(** [order] is the visiting order of the lineage that the first loop leaves. *)
Definition preparePublish (s : stableIdentityState) (snapshot : IdentitySnapshot) (newEpoch : bool)
    (order : gmap NodeID stableNodeLineage → list (NodeID * stableNodeLineage)) : stableIdentityState * RuntimeIdentity :=
  let revision := u64 (st_nextRevision s + 1) in
  let nextEpoch := if newEpoch then u64 (st_nextEpoch s + 1) else st_nextEpoch s in
  let currentEpoch := if newEpoch then nextEpoch else st_currentEpoch s in
  let p := foldl (publish_node revision) (mkPub (st_nextSlot s) (st_lineage s) (st_retiredQueued s) ∅ [] []) (is_Nodes snapshot) in
  let r := foldl (retire_node revision (pb_handles p))
             (mkRetiring (pb_lineage p) (st_retired s) (pb_retiredQueued p) (pb_retiredHandles p)) (order (pb_lineage p)) in
  let '(n, queued, lineage) :=
    evict_retired (st_maxRetired s) (drop (st_retiredHead s) (rg_retired r)) (rg_retiredQueued r) (rg_lineage r) in
  let head := (st_retiredHead s + n)%nat in
  let compact := ((1024 <? head) && (length (rg_retired r) <? head * 2))%nat in
  (mkState nextEpoch revision (pb_nextSlot p) currentEpoch lineage
     (if compact then drop head (rg_retired r) else rg_retired r) (if compact then 0%nat else head) queued (st_maxRetired s),
   mkIdentity currentEpoch revision (is_SourceGeneration snapshot) (pb_handles p) (rg_retiredHandles r) (pb_transitions p)).

(** ** Persistence of the identity *)

Record persistedIdentityLineage : Type := mkPLineage { pl_NodeID : NodeID; pl_Handle : NodeHandle; pl_PresentInLatest : bool }.
Record persistedIdentityState : Type := mkPState {
  ps_NextEpoch : Z; ps_NextRevision : Z; ps_NextSlot : Z; ps_Lineage : list persistedIdentityLineage }.

(** The order of ids is that of their bytes. *)
Definition id_le (x y : persistedIdentityLineage) : Prop := pl_NodeID x ≤ pl_NodeID y.
#[global] Instance id_le_dec : RelDecision id_le.
Proof. intros x y. apply Z_le_dec. Defined.

(** What [PersistenceSnapshot] keeps of an identity; [order] is the order of the
    range. *)
Definition persisted_of (ident : stableIdentityState) (order : list (NodeID * stableNodeLineage)) : persistedIdentityState :=
  mkPState (st_nextEpoch ident) (st_nextRevision ident) (st_nextSlot ident)
    (merge_sort id_le (map (λ x, mkPLineage x.1 (ln_handle x.2) (ln_presentInLatest x.2)) order)).

(** The loop of [restoreStableIdentityState] over the items. *)
Fixpoint restore_lineage (nextSlot nextRevision : Z) (s : stableIdentityState) (usedSlots : gset Z) (items : list persistedIdentityLineage)
    : string + stableIdentityState :=
  match items with
  | [] => inr s
  | item :: items =>
      let handle := pl_Handle item in
      if is_empty_id (pl_NodeID item) || negb (h_NodeID handle =? pl_NodeID item) || (h_Slot handle =? 0) || (nextSlot <? h_Slot handle) ||
         (h_Version handle =? 0) || (h_BornRevision handle =? 0) || (nextRevision <? h_BornRevision handle)
      then inl "adaptive persisted identity lineage is invalid"%string
      else if bool_decide (is_Some (st_lineage s !! pl_NodeID item)) then inl "adaptive persisted identity contains duplicate node"%string
      else if bool_decide (h_Slot handle ∈ usedSlots) then inl "adaptive persisted identity contains duplicate slot"%string
      else
        let lineage := <[pl_NodeID item := mkLineage handle (pl_PresentInLatest item)]> (st_lineage s) in
        let usedSlots := {[h_Slot handle]} ∪ usedSlots in
        if pl_PresentInLatest item then
          restore_lineage nextSlot nextRevision
            (mkState (st_nextEpoch s) (st_nextRevision s) (st_nextSlot s) (st_currentEpoch s) lineage (st_retired s) (st_retiredHead s)
               (st_retiredQueued s) (st_maxRetired s)) usedSlots items
        else if (st_maxRetired s <=? length (st_retired s))%nat then inl "adaptive persisted retired lineage exceeds bound"%string
        else
          restore_lineage nextSlot nextRevision
            (mkState (st_nextEpoch s) (st_nextRevision s) (st_nextSlot s) (st_currentEpoch s) lineage
               (st_retired s ++ [mkRetired (pl_NodeID item) nextRevision]) (st_retiredHead s)
               (<[pl_NodeID item := nextRevision]> (st_retiredQueued s)) (st_maxRetired s)) usedSlots items
  end.

Definition restoreStableIdentityState (persisted : persistedIdentityState) : string + stableIdentityState :=
  if (ps_NextEpoch persisted =? 0) || (ps_NextRevision persisted =? 0) || (2 ^ 20 <? Z.of_nat (length (ps_Lineage persisted)))
  then inl "adaptive persisted identity counters are invalid"%string
  else
    restore_lineage (ps_NextSlot persisted) (ps_NextRevision persisted)
      (mkState (ps_NextEpoch persisted) (ps_NextRevision persisted) (ps_NextSlot persisted) (ps_NextEpoch persisted) ∅ [] 0 ∅ maxRetired)
      ∅ (ps_Lineage persisted).

(** ** Epochs and transactions *)

Record stableEpoch : Type := mkEpoch {
  ep_lifecycle : EpochLifecycle;
  ep_revision : Z;
  ep_lastSourceGeneration : Z;
  ep_refCount : Z;
  ep_handles : gmap NodeID NodeHandle }.

(** A pointer to an identity state, with what it points to. *)
Record identity_ref : Type := mkRef { rf_ptr : nat; rf_state : stableIdentityState }.

(** The health store, the leases and the control state of a group are kept for it
    and not used by the manager. *)
Record sharedGroupState : Type := mkGroup { g_identity : identity_ref; g_epochs : gmap Z stableEpoch }.

Record RuntimeManager : Type := mkManager {
  m_groups : gmap string sharedGroupState;
  m_groupUsers : gmap string Z;
  m_allocated : nat }.

Definition NewRuntimeManager : RuntimeManager := mkManager ∅ ∅ 0.

Definition set_groups (m : RuntimeManager) (g : gmap string sharedGroupState) : RuntimeManager :=
  mkManager g (m_groupUsers m) (m_allocated m).
Definition set_users (m : RuntimeManager) (u : gmap string Z) : RuntimeManager := mkManager (m_groups m) u (m_allocated m).
Definition set_epochs (g : sharedGroupState) (e : gmap Z stableEpoch) : sharedGroupState := mkGroup (g_identity g) e.

Definition set_refCount (e : stableEpoch) (n : Z) : stableEpoch :=
  mkEpoch (ep_lifecycle e) (ep_revision e) (ep_lastSourceGeneration e) n (ep_handles e).
Definition set_lifecycle (e : stableEpoch) (l : EpochLifecycle) : stableEpoch :=
  mkEpoch l (ep_revision e) (ep_lastSourceGeneration e) (ep_refCount e) (ep_handles e).

Definition users (m : RuntimeManager) (groupID : string) : Z := default 0 (m_groupUsers m !! groupID).

Definition RegisterGroup (m : RuntimeManager) (groupID : string) : RuntimeManager :=
  if bool_decide (groupID = ""%string) then m else set_users m (<[groupID := users m groupID + 1]> (m_groupUsers m)).

Definition tryCleanupGroupLocked (m : RuntimeManager) (groupID : string) : RuntimeManager :=
  if negb (users m groupID =? 0) then m
  else
    match m_groups m !! groupID with
    | Some state => if bool_decide (g_epochs state = ∅) then set_groups m (delete groupID (m_groups m)) else m
    | None => m
    end.

Definition UnregisterGroup (m : RuntimeManager) (groupID : string) : RuntimeManager :=
  if bool_decide (groupID = ""%string) then m
  else if 1 <? users m groupID then set_users m (<[groupID := users m groupID - 1]> (m_groupUsers m))
  else tryCleanupGroupLocked (set_users m (delete groupID (m_groupUsers m))) groupID.

Definition PersistenceSnapshot (m : RuntimeManager) (groupID : string) (order : gmap NodeID stableNodeLineage → list (NodeID * stableNodeLineage))
    : option persistedIdentityState :=
  match m_groups m !! groupID with
  | None => None
  | Some state => let ident := rf_state (g_identity state) in Some (persisted_of ident (order (st_lineage ident)))
  end.

Definition RestorePersistence (m : RuntimeManager) (groupID : string) (persisted : option persistedIdentityState) : RuntimeManager * option string :=
  match persisted with
  | None => (m, Some "adaptive persisted identity dependency is invalid"%string)
  | Some persisted =>
      if bool_decide (groupID = ""%string) then (m, Some "adaptive persisted identity dependency is invalid"%string)
      else if bool_decide (is_Some (m_groups m !! groupID)) then (m, None)
      else
        match restoreStableIdentityState persisted with
        | inl err => (m, Some err)
        | inr ident =>
            let ptr := m_allocated m in
            (mkManager (<[groupID := mkGroup (mkRef ptr ident) ∅]> (m_groups m)) (m_groupUsers m) (S ptr), None)
        end
  end.

Record PreparedIdentity : Type := mkPrepared {
  pi_groupID : string;
  pi_baseRevision : Z;
  pi_baseState : option identity_ref;
  pi_nextState : identity_ref;
  pi_identity : RuntimeIdentity;
  pi_newEpoch : bool;
  pi_committed : bool;
  pi_rolledBack : bool;
  pi_previousEpoch : option stableEpoch }.

Abbreviation range_order := (gmap NodeID stableNodeLineage → list (NodeID * stableNodeLineage)).

Definition PrepareEpoch (m : RuntimeManager) (groupID : string) (snapshot : IdentitySnapshot) (order : range_order)
    : string + RuntimeManager * PreparedIdentity :=
  if bool_decide (groupID = ""%string) then inl "adaptive stable group id is required"%string
  else
    match validateIdentitySnapshot snapshot with
    | Some err => inl err
    | None =>
        let base := match m_groups m !! groupID with Some state => rf_state (g_identity state) | None => newStableIdentityState end in
        let '(next, ident) := preparePublish base snapshot true order in
        inr (mkManager (m_groups m) (m_groupUsers m) (S (m_allocated m)),
             mkPrepared groupID (st_nextRevision base) (g_identity <$> m_groups m !! groupID) (mkRef (m_allocated m) next) ident
               true false false None)
    end.

Definition ErrSourceGenerationOutOfOrder : string := "adaptive source generation is not newer".

Definition PrepareRevision (m : RuntimeManager) (groupID : string) (epochID : Z) (snapshot : IdentitySnapshot) (order : range_order)
    : string + RuntimeManager * PreparedIdentity :=
  match validateIdentitySnapshot snapshot with
  | Some err => inl err
  | None =>
      match m_groups m !! groupID with
      | None => inl "adaptive runtime epoch is not current"%string
      | Some state =>
          let base := rf_state (g_identity state) in
          if negb (st_currentEpoch base =? epochID) then inl "adaptive runtime epoch is not current"%string
          else
            match g_epochs state !! epochID with
            | None => inl "adaptive runtime epoch is not active"%string
            | Some epoch =>
                if negb (bool_decide (ep_lifecycle epoch = EpochActive)) then inl "adaptive runtime epoch is not active"%string
                else if is_SourceGeneration snapshot <=? ep_lastSourceGeneration epoch then inl ErrSourceGenerationOutOfOrder
                else
                  let '(next, ident) := preparePublish base snapshot false order in
                  inr (mkManager (m_groups m) (m_groupUsers m) (S (m_allocated m)),
                       mkPrepared groupID (st_nextRevision base) (Some (g_identity state)) (mkRef (m_allocated m) next) ident
                         false false false (Some epoch))
            end
      end
  end.

Definition mark (p : PreparedIdentity) (committed rolledBack : bool) : PreparedIdentity :=
  mkPrepared (pi_groupID p) (pi_baseRevision p) (pi_baseState p) (pi_nextState p) (pi_identity p) (pi_newEpoch p)
    committed rolledBack (pi_previousEpoch p).

Definition ErrPreparedIdentityStale : string := "adaptive prepared identity is stale".
Definition not_committable : string := "adaptive identity preparation is no longer committable".

(** The state the transaction commits to, after the checks on its base. *)
Definition commit_target (m : RuntimeManager) (p : PreparedIdentity) : option sharedGroupState :=
  match pi_baseState p, m_groups m !! pi_groupID p with
  | None, None => Some (mkGroup (pi_nextState p) ∅)
  | None, Some _ => None
  | Some base, Some state =>
      if bool_decide (rf_ptr (g_identity state) = rf_ptr base) && (st_nextRevision (rf_state (g_identity state)) =? pi_baseRevision p)
      then Some state else None
  | Some _, None => None
  end.

Definition Commit (m : RuntimeManager) (p : PreparedIdentity) : RuntimeManager * PreparedIdentity * (string + RuntimeIdentity) :=
  if pi_committed p || pi_rolledBack p then (m, p, inl not_committable)
  else
    match commit_target m p with
    | None => (m, p, inl ErrPreparedIdentityStale)
    | Some state =>
        let ident := pi_identity p in
        let id := ri_EpochID ident in
        (* the group is in the table from here on, also when the epoch is stale *)
        let m := set_groups m (<[pi_groupID p := state]> (m_groups m)) in
        let fresh := mkEpoch EpochActive (ri_Revision ident) (ri_SourceGeneration ident) 0 (ri_Handles ident) in
        if pi_newEpoch p then
          (set_groups m (<[pi_groupID p := mkGroup (pi_nextState p) (<[id := fresh]> (g_epochs state))]> (m_groups m)),
           mark p true (pi_rolledBack p), inr ident)
        else
          match g_epochs state !! id with
          | None => (m, p, inl ErrPreparedIdentityStale)
          | Some epoch =>
              if negb (bool_decide (ep_lifecycle epoch = EpochActive)) || (ri_SourceGeneration ident <=? ep_lastSourceGeneration epoch)
              then (m, p, inl ErrPreparedIdentityStale)
              else
                let epoch := mkEpoch (ep_lifecycle epoch) (ri_Revision ident) (ri_SourceGeneration ident) (ep_refCount epoch) (ri_Handles ident) in
                (set_groups m (<[pi_groupID p := mkGroup (pi_nextState p) (<[id := epoch]> (g_epochs state))]> (m_groups m)),
                 mark p true (pi_rolledBack p), inr ident)
          end
    end.

Definition Rollback (m : RuntimeManager) (p : PreparedIdentity) : RuntimeManager * PreparedIdentity * option string :=
  if negb (pi_committed p) || pi_rolledBack p then (m, p, None)
  else
    let p := mark p (pi_committed p) true in
    match m_groups m !! pi_groupID p with
    | None => (m, p, Some ErrPreparedIdentityStale)
    | Some state =>
        if negb (bool_decide (rf_ptr (g_identity state) = rf_ptr (pi_nextState p))) then (m, p, Some ErrPreparedIdentityStale)
        else
          match pi_baseState p with
          | None => (set_groups m (delete (pi_groupID p) (m_groups m)), p, None)
          | Some base =>
              let id := ri_EpochID (pi_identity p) in
              let epochs := if pi_newEpoch p then delete id (g_epochs state)
                            else match pi_previousEpoch p with
                                 | Some restored => <[id := restored]> (g_epochs state)
                                 | None => g_epochs state
                                 end in
              (set_groups m (<[pi_groupID p := mkGroup base epochs]> (m_groups m)), p, None)
          end
    end.

(** ** Leases of an epoch *)

Record EpochLease : Type := mkLease { el_groupID : string; el_epochID : Z; el_released : bool }.

Definition AcquireEpoch (m : RuntimeManager) (groupID : string) (epochID : Z) : string + RuntimeManager * EpochLease :=
  match m_groups m !! groupID with
  | None => inl "adaptive runtime group is not published"%string
  | Some state =>
      match g_epochs state !! epochID with
      | None => inl "adaptive runtime epoch is not active"%string
      | Some epoch =>
          if negb (bool_decide (ep_lifecycle epoch = EpochActive)) then inl "adaptive runtime epoch is not active"%string
          else inr (set_groups m (<[groupID := set_epochs state (<[epochID := set_refCount epoch (ep_refCount epoch + 1)]> (g_epochs state))]> (m_groups m)),
                    mkLease groupID epochID false)
      end
  end.

(** An epoch that is gone, and the group with it when it was the last one. *)
Definition drop_epoch (m : RuntimeManager) (groupID : string) (state : sharedGroupState) (epochID : Z) : RuntimeManager :=
  tryCleanupGroupLocked (set_groups m (<[groupID := set_epochs state (delete epochID (g_epochs state))]> (m_groups m))) groupID.

(** The compare-and-swap on [released] and the section under the lock of the manager are
    one step here; in between, the code has a lease that is released and still counted. *)
Definition Release (m : RuntimeManager) (l : EpochLease) : RuntimeManager * EpochLease :=
  if el_released l then (m, l)
  else
    let l := mkLease (el_groupID l) (el_epochID l) true in
    match m_groups m !! el_groupID l with
    | None => (m, l)
    | Some state =>
        match g_epochs state !! el_epochID l with
        | None => (m, l)
        | Some epoch =>
            let epoch := if 0 <? ep_refCount epoch then set_refCount epoch (ep_refCount epoch - 1) else epoch in
            if bool_decide (ep_lifecycle epoch = EpochRetiring) && (ep_refCount epoch =? 0)
            then (drop_epoch m (el_groupID l) state (el_epochID l), l)
            else (set_groups m (<[el_groupID l := set_epochs state (<[el_epochID l := epoch]> (g_epochs state))]> (m_groups m)), l)
        end
    end.

Definition RetireEpoch (m : RuntimeManager) (groupID : string) (epochID : Z) : RuntimeManager :=
  match m_groups m !! groupID with
  | None => m
  | Some state =>
      match g_epochs state !! epochID with
      | None => m
      | Some epoch =>
          if bool_decide (ep_lifecycle epoch = EpochRetired) then m
          else if ep_refCount epoch =? 0 then drop_epoch m groupID state epochID
          else set_groups m (<[groupID := set_epochs state (<[epochID := set_lifecycle epoch EpochRetiring]> (g_epochs state))]> (m_groups m))
      end
  end.

(** ** Evidence *)

Definition validateEpochObservation (state : option sharedGroupState) (epochID revision sourceGeneration : Z) (nodeID : NodeID)
    (slot version : Z) (allowRetiring : bool) : bool :=
  match state with
  | None => false
  | Some state =>
      if (revision =? 0) || (sourceGeneration =? 0) || (slot =? 0) || (version =? 0) then false
      else
        match g_epochs state !! epochID with
        | None => false
        | Some epoch =>
            if bool_decide (ep_lifecycle epoch = EpochRetired) || (bool_decide (ep_lifecycle epoch = EpochRetiring) && negb allowRetiring) ||
               (ep_revision epoch <? revision) || (ep_lastSourceGeneration epoch <? sourceGeneration) then false
            else
              match ep_handles epoch !! nodeID, st_lineage (rf_state (g_identity state)) !! nodeID with
              | Some handle, Some lineage =>
                  ln_presentInLatest lineage && (h_Slot (ln_handle lineage) =? slot) && (h_Version (ln_handle lineage) =? version) &&
                  (h_Slot handle =? slot) && (h_Version handle =? version) && (h_BornRevision handle <=? revision)
              | _, _ => false
              end
        end
  end.

Definition ValidateObservation (m : RuntimeManager) (groupID : string) (epochID revision : Z) (nodeID : NodeID) (slot version : Z) : bool :=
  validateEpochObservation (m_groups m !! groupID) epochID revision 1 nodeID slot version false.

Definition ValidateEvidence (m : RuntimeManager) (l : EpochLease) (epochID revision sourceGeneration : Z) (handle : NodeHandle) : bool :=
  if el_released l then false
  else if negb (epochID =? el_epochID l) then false
  else validateEpochObservation (m_groups m !! el_groupID l) (el_epochID l) revision sourceGeneration
         (h_NodeID handle) (h_Slot handle) (h_Version handle) true.

(** ** The lineage: well-formed handles *)

(** The range visits every entry of the map once. *)
Definition visits_all (order : range_order) : Prop := ∀ m, range_of m (order m).

Definition handle_ok (nextSlot nextRevision : Z) (id : NodeID) (h : NodeHandle) : Prop :=
  h_NodeID h = id ∧ 1 ≤ h_Slot h ≤ nextSlot ∧ 1 ≤ h_Version h ∧ 1 ≤ h_BornRevision h ≤ nextRevision.

(** A node that left is waiting in the queue for its eviction. *)
Definition queue_ok (queue : list retiredLineageItem) (queued : gmap NodeID Z) (lineage : gmap NodeID stableNodeLineage) : Prop :=
  ∀ id l, lineage !! id = Some l → ln_presentInLatest l = false → ∃ r, queued !! id = Some r ∧ mkRetired id r ∈ queue.

Record state_ok (s : stableIdentityState) : Prop := {
  so_revision : 0 ≤ st_nextRevision s;
  so_slot : 0 ≤ st_nextSlot s;
  so_handle : ∀ id l, st_lineage s !! id = Some l → handle_ok (st_nextSlot s) (st_nextRevision s) id (ln_handle l);
  so_inj : ∀ i j li lj, st_lineage s !! i = Some li → st_lineage s !! j = Some lj →
    h_Slot (ln_handle li) = h_Slot (ln_handle lj) → i = j;
  so_head : (st_retiredHead s ≤ length (st_retired s))%nat;
  so_queue : queue_ok (drop (st_retiredHead s) (st_retired s)) (st_retiredQueued s) (st_lineage s);
  so_bound : (length (drop (st_retiredHead s) (st_retired s)) ≤ st_maxRetired s)%nat }.

(** The counters do not wrap in this publication. *)
Definition room (s : stableIdentityState) (snapshot : IdentitySnapshot) : Prop :=
  st_nextRevision s + 1 < 2 ^ 64 ∧ st_nextSlot s + Z.of_nat (length (is_Nodes snapshot)) < 2 ^ 64 ∧
  ∀ id l, st_lineage s !! id = Some l → h_Version (ln_handle l) + 1 < 2 ^ 64.

Abbreviation ids := (map n_NodeID).

(** Where the handle of a published node comes from. *)
Definition handle_from (s : stableIdentityState) (revision nextSlot : Z) (retired : list NodeHandle) (id : NodeID) (h : NodeHandle) : Prop :=
  match st_lineage s !! id with
  | None => st_nextSlot s < h_Slot h ≤ nextSlot ∧ h_Version h = 1 ∧ h_BornRevision h = revision
  | Some l =>
      h_Slot h = h_Slot (ln_handle l) ∧
      ((h_Version h = h_Version (ln_handle l) + 1 ∧ h_BornRevision h = revision ∧ ln_handle l ∈ retired) ∨
       (ln_presentInLatest l = true ∧ h = ln_handle l))
  end.

(** After the nodes [done]. *)
Record pub_inv (s : stableIdentityState) (revision : Z) (done : list IdentityNode) (p : publishing) : Prop := {
  pi_slots : st_nextSlot s ≤ pb_nextSlot p ≤ st_nextSlot s + Z.of_nat (length done);
  pi_rest : ∀ id, id ∉ ids done → pb_lineage p !! id = st_lineage s !! id ∧ pb_retiredQueued p !! id = st_retiredQueued s !! id ∧
    pb_handles p !! id = None;
  pi_done : ∀ id, id ∈ ids done → ∃ h, pb_lineage p !! id = Some (mkLineage h true) ∧ pb_handles p !! id = Some h ∧
    h_NodeID h = id ∧ handle_from s revision (pb_nextSlot p) (pb_retiredHandles p) id h;
  pi_inj : ∀ i j hi hj, pb_handles p !! i = Some hi → pb_handles p !! j = Some hj →
    st_lineage s !! i = None → st_lineage s !! j = None → h_Slot hi = h_Slot hj → i = j;
  pi_retired : ∀ h, h ∈ pb_retiredHandles p → ∃ id l h', st_lineage s !! id = Some l ∧ h = ln_handle l ∧
    pb_handles p !! id = Some h' ∧ h_Slot h' = h_Slot h ∧ h_Version h' = h_Version h + 1 }.

Lemma handle_from_mono s revision n n' r r' id h :
  n ≤ n' → (∀ x, x ∈ r → x ∈ r') → handle_from s revision n r id h → handle_from s revision n' r' id h.
Proof.
  intros Hn Hr. unfold handle_from. destruct (st_lineage s !! id) as [l|]; [|lia]. intros [Hs [(Hv & Hb & Hin)|Hk]]; split; auto.
Qed.

(** A node is stored with the handle [h]. *)
Lemma store_node_inv s revision done p q node h :
  n_NodeID node ∉ ids done → pub_inv s revision done p →
  pb_lineage q = pb_lineage p → pb_retiredQueued q = pb_retiredQueued p → pb_handles q = pb_handles p →
  pb_nextSlot p ≤ pb_nextSlot q ≤ pb_nextSlot p + 1 → (∀ x, x ∈ pb_retiredHandles p → x ∈ pb_retiredHandles q) →
  h_NodeID h = n_NodeID node → handle_from s revision (pb_nextSlot q) (pb_retiredHandles q) (n_NodeID node) h →
  (st_lineage s !! n_NodeID node = None → h_Slot h = pb_nextSlot p + 1) →
  (∀ x, x ∈ pb_retiredHandles q → x ∈ pb_retiredHandles p ∨
     ∃ l, st_lineage s !! n_NodeID node = Some l ∧ x = ln_handle l ∧ h_Slot h = h_Slot x ∧ h_Version h = h_Version x + 1) →
  pub_inv s revision (done ++ [node]) (store_node q (n_NodeID node) h).
Proof.
  intros Hnew [H1 H2 H3 H4 H5] El Eq Eh Hslot HR HhN Hhf Hfresh Hret. set (id := n_NodeID node) in *.
  assert (ids (done ++ [node]) = ids done ++ [id]) as Hids by (by rewrite map_app).
  split; unfold store_node; cbn [pb_nextSlot pb_lineage pb_retiredQueued pb_handles pb_retiredHandles pb_transitions]; rewrite ?El, ?Eq, ?Eh.
  - rewrite length_app. simpl. lia.
  - intros id' Hn. rewrite Hids, elem_of_app, list_elem_of_singleton in Hn.
    apply Decidable.not_or in Hn as [Hn Hne]. rewrite !lookup_insert_ne, lookup_delete_ne by done. by apply H2.
  - intros id' Hin. rewrite Hids, elem_of_app, list_elem_of_singleton in Hin. destruct (decide (id' = id)) as [->|Hne].
    + exists h. by rewrite !lookup_insert_eq.
    + rewrite !lookup_insert_ne by done. destruct (H3 id') as (h' & ? & ? & ? & Hf); [by destruct Hin|].
      exists h'. split_and!; [done..|]. eapply handle_from_mono; [|exact HR|exact Hf]. lia.
  - assert (∀ j hj, pb_handles p !! j = Some hj → st_lineage s !! j = None → h_Slot hj ≤ pb_nextSlot p) as Hold.
    { intros j hj Hj Nj. destruct (decide (j ∈ ids done)) as [Hin|Hni]; [|by destruct (H2 j Hni) as (_ & _ & ?); congruence].
      destruct (H3 j Hin) as (h' & _ & Hj' & _ & Hf). unfold handle_from in Hf. rewrite Nj in Hf. simplify_eq. lia. }
    intros i j hi hj Hi Hj Ni Nj Es.
    destruct (decide (i = id)) as [->|Hi']; destruct (decide (j = id)) as [->|Hj']; [done| | |].
    + rewrite lookup_insert_eq in Hi. rewrite lookup_insert_ne in Hj by done. simplify_eq. pose proof (Hold j hj Hj Nj). pose proof (Hfresh Ni). lia.
    + rewrite lookup_insert_eq in Hj. rewrite lookup_insert_ne in Hi by done. simplify_eq. pose proof (Hold i hi Hi Ni). pose proof (Hfresh Nj). lia.
    + rewrite lookup_insert_ne in Hi, Hj by done. by eapply H4.
  - intros x [Hx|(l & Hl & -> & Hs & Hv)]%Hret.
    + destruct (H5 x Hx) as (i & li & h' & ? & ? & Hi & ?). exists i, li, h'. rewrite lookup_insert_ne; [done|].
      intros <-. destruct (H2 id Hnew) as (_ & _ & ?). congruence.
    + exists id, l, h. by rewrite lookup_insert_eq.
Qed.

Lemma pub_inv_step s revision done p node :
  state_ok s → st_nextSlot s + Z.of_nat (length done) + 1 < 2 ^ 64 →
  (∀ id l, st_lineage s !! id = Some l → h_Version (ln_handle l) + 1 < 2 ^ 64) →
  n_NodeID node ∉ ids done → pub_inv s revision done p → pub_inv s revision (done ++ [node]) (publish_node revision p node).
Proof.
  intros Hs Hroom Hver Hnew Hp. pose proof (so_slot _ Hs) as Hs0. pose proof (pi_slots _ _ _ _ Hp) as H1.
  destruct (pi_rest _ _ _ _ Hp _ Hnew) as (Hl & _ & _). unfold publish_node. rewrite Hl.
  destruct (st_lineage s !! n_NodeID node) as [l|] eqn:El.
  - destruct (so_handle _ Hs _ l El) as (Hid & Hslot & Hv & Hb). pose proof (Hver _ l El) as Hv64.
    assert (u64 (h_Version (ln_handle l) + 1) = h_Version (ln_handle l) + 1) as Hu by (apply u64_id; unfold fits; lia).
    destruct (bumps l node) eqn:Eb; eapply store_node_inv; try done; cbn; try lia; rewrite ?Hu.
    + intros x Hx. apply elem_of_app. by left.
    + unfold handle_from. rewrite El. cbn. rewrite Hu. split; [done|]. left. split_and!; [done..|]. apply elem_of_app. right. by left.
    + intros N. congruence.
    + intros x [Hx| ->%list_elem_of_singleton]%elem_of_app; [by left|]. right. by exists l.
    + unfold handle_from. rewrite El. split; [done|]. right. split; [|done]. unfold bumps in Eb. by destruct (ln_presentInLatest l).
    + intros N. congruence.
    + auto.
  - assert (u64 (pb_nextSlot p + 1) = pb_nextSlot p + 1) as -> by (apply u64_id; unfold fits; lia).
    eapply store_node_inv; try done; cbn; try lia; [|auto].
    unfold handle_from. rewrite El. cbn. lia.
Qed.

Lemma validate_nodes_ok seen nodes :
  validate_nodes seen nodes = None → NoDup (ids nodes) ∧ (∀ id, id ∈ ids nodes → id ≠ 0 ∧ id ∉ seen).
Proof.
  revert seen. induction nodes as [|node nodes IH]; intros seen H; cbn [validate_nodes map] in *.
  - split; [constructor|]. by intros id Hid%not_elem_of_nil.
  - destruct (is_empty_id (n_NodeID node)) eqn:E0; [done|]. case_bool_decide as Hs; [done|]. apply Z.eqb_neq in E0.
    destruct (IH _ H) as [Hnd Hall]. split.
    + apply NoDup_cons. split; [|done]. intros Hin. destruct (Hall _ Hin) as [_ Hn]. apply Hn, elem_of_union_l, elem_of_singleton. done.
    + intros id [->|Hin]%elem_of_cons; [done|]. destruct (Hall _ Hin) as [? Hn]. split; [done|]. intros Hid. apply Hn. by apply elem_of_union_r.
Qed.

Definition start_publishing (s : stableIdentityState) : publishing :=
  mkPub (st_nextSlot s) (st_lineage s) (st_retiredQueued s) ∅ [] [].

Lemma publish_nodes_inv s revision nodes :
  state_ok s → st_nextSlot s + Z.of_nat (length nodes) < 2 ^ 64 →
  (∀ id l, st_lineage s !! id = Some l → h_Version (ln_handle l) + 1 < 2 ^ 64) →
  NoDup (ids nodes) → pub_inv s revision nodes (foldl (publish_node revision) (start_publishing s) nodes).
Proof.
  intros Hs. induction nodes as [|node nodes IH] using rev_ind; intros Hroom Hver Hnd.
  - split; cbn; [lia | done | by intros id Hid%not_elem_of_nil | intros; simplify_map_eq | by intros h Hh%not_elem_of_nil].
  - rewrite foldl_app. cbn [foldl]. rewrite length_app in Hroom. simpl in Hroom. rewrite map_app in Hnd. cbn [map] in Hnd.
    apply NoDup_app in Hnd as (Hnd & Hdis & _). apply pub_inv_step; [done | lia | done | | apply IH; [lia | done..]].
    intros Hin. apply (Hdis _ Hin). by left.
Qed.

(** *** The nodes that left *)

Definition leaves (seen : gmap NodeID NodeHandle) (id : NodeID) (l : stableNodeLineage) : Prop :=
  seen !! id = None ∧ ln_presentInLatest l = true.

Record ret_inv (L : gmap NodeID stableNodeLineage) (seen : gmap NodeID NodeHandle) (revision : Z) (r0 : retiring)
    (done : list (NodeID * stableNodeLineage)) (r : retiring) : Prop := {
  rv_lineage : ∀ id, (∀ l, L !! id = Some l → id ∈ done.*1 → leaves seen id l →
      rg_lineage r !! id = Some (mkLineage (ln_handle l) false) ∧ rg_retiredQueued r !! id = Some revision) ∧
    ((∀ l, L !! id = Some l → ¬ (id ∈ done.*1 ∧ leaves seen id l)) → rg_lineage r !! id = L !! id ∧ rg_retiredQueued r !! id = rg_retiredQueued r0 !! id);
  rv_retired : ∃ more, rg_retired r = rg_retired r0 ++ more ∧
    ∀ id l, L !! id = Some l → id ∈ done.*1 → leaves seen id l → mkRetired id revision ∈ more;
  rv_handles : ∀ h, h ∈ rg_retiredHandles r ↔ h ∈ rg_retiredHandles r0 ∨
    ∃ id l, L !! id = Some l ∧ id ∈ done.*1 ∧ leaves seen id l ∧ h = ln_handle l }.

Lemma retire_nodes_inv L seen revision r0 done :
  rg_lineage r0 = L → NoDup (done.*1) → (∀ x, x ∈ done → L !! x.1 = Some x.2) →
  ret_inv L seen revision r0 done (foldl (retire_node revision seen) r0 done).
Proof.
  intros HL. induction done as [|[id l] done IH] using rev_ind; intros Hnd Hin.
  - split; cbn.
    + intros id. split; [by intros l _ Hid%not_elem_of_nil|]. intros _. by rewrite HL.
    + exists []. rewrite app_nil_r. split; [done|]. by intros id l _ Hid%not_elem_of_nil.
    + intros h. split; [by left|]. intros [?|(id & l & _ & Hid%not_elem_of_nil & _)]; done.
  - rewrite foldl_app. cbn [foldl]. rewrite fmap_app in Hnd. cbn in Hnd. apply NoDup_app in Hnd as (Hnd & Hdis & _).
    assert (id ∉ done.*1) as Hnew by (intros Hd; apply (Hdis _ Hd); by left).
    destruct (IH Hnd) as [I1 (more & I2 & I2') I3]; [intros x Hx; apply Hin, elem_of_app; by left|].
    assert (L !! id = Some l) as Hl by (apply (Hin (id, l)), elem_of_app; right; by left).
    set (r := foldl _ _ _) in *. unfold retire_node.
    assert (∀ i, i ∈ (done ++ [(id, l)]).*1 ↔ i ∈ done.*1 ∨ i = id) as Hmem.
    { intros i. rewrite fmap_app, elem_of_app. cbn. by rewrite list_elem_of_singleton. }
    destruct (bool_decide (seen !! id = None) && ln_presentInLatest l) eqn:Eb.
    + apply andb_true_iff in Eb as [Es Ep]. apply bool_decide_eq_true_1 in Es. split; cbn.
      * intros i. destruct (decide (i = id)) as [->|Hne].
        -- split; [|intros Hno; destruct (Hno l Hl); split; [apply Hmem; by right | done]].
           intros l' Hl' _ _. simplify_eq. by rewrite !lookup_insert_eq.
        -- rewrite !lookup_insert_ne by done. destruct (I1 i) as [Ia Ib]. split.
           ++ intros l' Hl' [Hi| ->]%Hmem Hlv; [|done]. by apply Ia.
           ++ intros Hno. apply Ib. intros l' Hl' [Hi Hlv]. apply (Hno l' Hl'). split; [apply Hmem; by left | done].
      * exists (more ++ [mkRetired id revision]). rewrite I2, <- app_assoc. split; [done|].
        intros i l' Hl' [Hi| ->]%Hmem Hlv; apply elem_of_app; [left; by eapply I2' | right; by left].
      * intros h. rewrite elem_of_app, list_elem_of_singleton, I3. split.
        -- intros [[?|(i & l' & ? & ? & ? & ?)]| ->]; [by left | right; exists i, l'; rewrite Hmem; auto | right; exists id, l; rewrite Hmem; unfold leaves; auto].
        -- intros [?|(i & l' & Hl' & [Hi| ->]%Hmem & Hlv & ->)]; [auto | left; right; eauto 10|]. simplify_eq. by right.
    + assert (¬ leaves seen id l) as Hnl.
      { intros [Es Ep]. rewrite Ep, bool_decide_eq_true_2 in Eb by done. done. }
      split.
      * intros i. destruct (I1 i) as [Ia Ib]. split.
        -- intros l' Hl' [Hi| ->]%Hmem Hlv; [by apply Ia|]. simplify_eq. by destruct Hnl.
        -- intros Hno. apply Ib. intros l' Hl' [Hi Hlv]. apply (Hno l' Hl'). split; [apply Hmem; by left | done].
      * exists more. split; [done|]. intros i l' Hl' [Hi| ->]%Hmem Hlv; [by eapply I2'|]. simplify_eq. by destruct Hnl.
      * intros h. rewrite I3. split; (intros [?|(i & l' & Hl' & Hi & Hlv & ->)]; [by left|]).
        -- right. exists i, l'. rewrite Hmem. auto.
        -- apply Hmem in Hi as [Hi| ->]; [right; eauto 10|]. simplify_eq. by destruct Hnl.
Qed.

(** *** Evictions *)

Lemma evict_retired_spec max queue queued lineage n queued' lineage' :
  evict_retired max queue queued lineage = (n, queued', lineage') →
  (n ≤ length queue)%nat ∧ (length queue - n ≤ max)%nat ∧
  (∀ id, lineage' !! id = lineage !! id ∨ (lineage' !! id = None ∧ ∃ l, lineage !! id = Some l ∧ ln_presentInLatest l = false)) ∧
  (queue_ok queue queued lineage → queue_ok (drop n queue) queued' lineage').
Proof.
  revert queued lineage n queued' lineage'. induction queue as [|item rest IH]; intros queued lineage n queued' lineage' H; cbn [evict_retired] in H.
  - simplify_eq. cbn. split_and!; [lia | lia | auto | done].
  - destruct (length (item :: rest) <=? max)%nat eqn:Hl.
    + apply Nat.leb_le in Hl. simplify_eq. rewrite drop_0. split_and!; [lia | lia | auto | done].
    + apply Nat.leb_gt in Hl. simpl in Hl. case_bool_decide as Hrev.
      * destruct (evict_retired max rest queued lineage) as [[n1 q1] l1] eqn:E. simplify_eq.
        destruct (IH _ _ _ _ _ E) as (H1 & H2 & H3 & H4). cbn [length drop]. split_and!; [lia | lia | done |].
        intros Hq. apply H4. intros i l Hi Hp. destruct (Hq i l Hi Hp) as (r & Hr & [<-|Hin]%elem_of_cons); [|by exists r].
        cbn in Hrev. by rewrite Hr in Hrev.
      * set (L := match lineage !! rt_nodeID item with Some _ => _ | None => _ end) in *.
        destruct (evict_retired max rest (delete (rt_nodeID item) queued) L) as [[n1 q1] l1] eqn:E. simplify_eq.
        destruct (IH _ _ _ _ _ E) as (H1 & H2 & H3 & H4). cbn [length drop].
        assert (∀ i, L !! i = lineage !! i ∨ (i = rt_nodeID item ∧ L !! i = None ∧ ∃ l, lineage !! i = Some l ∧ ln_presentInLatest l = false)) as HL.
        { intros i. unfold L. destruct (lineage !! rt_nodeID item) as [l|] eqn:El; [|by left]. destruct (ln_presentInLatest l) eqn:Ep; cbn [negb]; [by left|].
          destruct (decide (i = rt_nodeID item)) as [->|]; [right; rewrite lookup_delete_eq; eauto | left; by rewrite lookup_delete_ne]. }
        split_and!; [lia | lia | |].
        -- intros i. destruct (H3 i) as [->|(-> & l & Hi & Hp)].
           ++ destruct (HL i) as [?|(_ & ? & ?)]; [by left | by right].
           ++ right. split; [done|]. exists l. destruct (HL i) as [Hi'|(_ & Hi' & _)]; [by rewrite <- Hi' | congruence].
        -- intros Hq. apply H4. intros i l Hi Hp. destruct (HL i) as [Hi'|(_ & Hi' & _)]; [|congruence]. rewrite Hi' in Hi.
           destruct (Hq i l Hi Hp) as (r & Hr & Hin). destruct (decide (i = rt_nodeID item)) as [->|Hne].
           ++ unfold L in Hi'. rewrite Hi, Hp in Hi'. cbn [negb] in Hi'. by rewrite lookup_delete_eq in Hi'.
           ++ exists r. rewrite lookup_delete_ne by done. split; [done|]. apply elem_of_cons in Hin as [<-|]; done.
Qed.

(** *** A publication *)

Record publication (s : stableIdentityState) (snapshot : IdentitySnapshot) (s' : stableIdentityState) (i : RuntimeIdentity) : Prop := {
  pc_revision : st_nextRevision s' = st_nextRevision s + 1 ∧ ri_Revision i = st_nextRevision s + 1;
  pc_slot : st_nextSlot s ≤ st_nextSlot s';
  pc_handles : ∀ id h, ri_Handles i !! id = Some h → id ∈ ids (is_Nodes snapshot) ∧ h_NodeID h = id ∧ st_lineage s' !! id = Some (mkLineage h true) ∧
    handle_from s (st_nextRevision s + 1) (st_nextSlot s') (ri_RetiredHandles i) id h;
  pc_all : ∀ id, id ∈ ids (is_Nodes snapshot) → is_Some (ri_Handles i !! id);
  pc_lineage : ∀ id l, st_lineage s' !! id = Some l →
    (∃ h, ri_Handles i !! id = Some h ∧ l = mkLineage h true) ∨
    (ri_Handles i !! id = None ∧ ∃ l0, st_lineage s !! id = Some l0 ∧ l = mkLineage (ln_handle l0) false);
  pc_retired : ∀ h, h ∈ ri_RetiredHandles i → ∃ id l, st_lineage s !! id = Some l ∧ h = ln_handle l ∧
    ((∃ h', ri_Handles i !! id = Some h' ∧ h_Slot h' = h_Slot h ∧ h_Version h' = h_Version h + 1) ∨
     (ri_Handles i !! id = None ∧ ln_presentInLatest l = true));
  pc_fresh : ∀ a b ha hb, ri_Handles i !! a = Some ha → ri_Handles i !! b = Some hb →
    st_lineage s !! a = None → st_lineage s !! b = None → h_Slot ha = h_Slot hb → a = b }.

Lemma queue_ok_app queue more queued lineage : queue_ok queue queued lineage → queue_ok (queue ++ more) queued lineage.
Proof. intros Hq id l Hl Hp. destruct (Hq id l Hl Hp) as (r & Hr & Hin). exists r. split; [done|]. apply elem_of_app. by left. Qed.

Section Publication.
Context (s : stableIdentityState) (snapshot : IdentitySnapshot) (newEpoch : bool) (order : range_order).
Hypothesis Hs : state_ok s.
Hypothesis Hroom : room s snapshot.
Hypothesis Hnd : NoDup (ids (is_Nodes snapshot)).
Hypothesis Horder : visits_all order.

Let revision := st_nextRevision s + 1.
Let p := foldl (publish_node revision) (start_publishing s) (is_Nodes snapshot).
Let r := foldl (retire_node revision (pb_handles p))
           (mkRetiring (pb_lineage p) (st_retired s) (pb_retiredQueued p) (pb_retiredHandles p)) (order (pb_lineage p)).

Lemma published_nodes : pub_inv s revision (is_Nodes snapshot) p.
Proof using Hs Hroom Hnd. destruct Hroom as (_ & Hslot & Hver). by apply publish_nodes_inv. Qed.

Lemma order_entries x : x ∈ order (pb_lineage p) ↔ pb_lineage p !! x.1 = Some x.2.
Proof using Horder. destruct x as [id l]. by apply range_of_lookup. Qed.

Lemma left_nodes :
  ret_inv (pb_lineage p) (pb_handles p) revision (mkRetiring (pb_lineage p) (st_retired s) (pb_retiredQueued p) (pb_retiredHandles p))
    (order (pb_lineage p)) r.
Proof using Horder.
  apply retire_nodes_inv; [done | |].
  - rewrite (Horder (pb_lineage p)). apply NoDup_fst_map_to_list.
  - intros x. apply order_entries.
Qed.

Lemma visited id l : pb_lineage p !! id = Some l → id ∈ (order (pb_lineage p)).*1.
Proof using Horder. intros Hl. apply list_elem_of_fmap. exists (id, l). split; [done|]. by apply order_entries. Qed.

(** The lineage before evictions. *)
Lemma after_loops id l :
  rg_lineage r !! id = Some l →
  (∃ h, pb_handles p !! id = Some h ∧ l = mkLineage h true) ∨
  (pb_handles p !! id = None ∧ ∃ l0, st_lineage s !! id = Some l0 ∧ l = mkLineage (ln_handle l0) false).
Proof using All.
  intros Hl. destruct left_nodes as [Hr _ _]. destruct (Hr id) as [Ha Hb]. pose proof published_nodes as [_ Hrest Hdone _ _].
  destruct (decide (id ∈ ids (is_Nodes snapshot))) as [Hin|Hni].
  - destruct (Hdone id Hin) as (h & Hp & Hh & _). left. exists h. split; [done|].
    destruct Hb as [Hb _]; [|congruence]. intros l' Hl' [_ [Hn _]]. congruence.
  - destruct (Hrest id Hni) as (Hp & _ & Hh). right. split; [done|].
    destruct (pb_lineage p !! id) as [l0|] eqn:El; [|destruct Hb as [Hb _]; [by intros ?|congruence]].
    exists l0. split; [congruence|]. destruct (ln_presentInLatest l0) eqn:Ep.
    + destruct (Ha l0 eq_refl (visited _ _ El)) as (Hl' & _); [done|]. congruence.
    + destruct Hb as [Hb _]; [intros l' Hl' [_ [_ ?]]; congruence|]. rewrite Hb in Hl. simplify_eq. destruct l as [h b]. cbn in *. by subst b.
Qed.

Lemma after_loops_queue : queue_ok (drop (st_retiredHead s) (rg_retired r)) (rg_retiredQueued r) (rg_lineage r).
Proof using All.
  intros id l Hl Hp. destruct left_nodes as [Hr (more & Hm & Hmore) _]. cbn in Hm. rewrite Hm, drop_app_le by apply (so_head _ Hs).
  destruct (Hr id) as [Ha Hb]. pose proof published_nodes as [_ Hrest Hdone _ _].
  destruct (after_loops id l Hl) as [(h & _ & ->)|(Hn & l0 & Hl0 & ->)]; [done|].
  assert (id ∉ ids (is_Nodes snapshot)) as Hni by (intros Hin; destruct (Hdone id Hin) as (? & _ & ? & _); congruence).
  destruct (Hrest id Hni) as (Hpl & Hq & _). rewrite Hl0 in Hpl. destruct (ln_presentInLatest l0) eqn:Ep.
  - destruct (Ha l0 Hpl (visited _ _ Hpl)) as (_ & Hq'); [done|]. exists revision. split; [done|]. apply elem_of_app. right.
    by apply (Hmore id l0 Hpl (visited _ _ Hpl)).
  - destruct Hb as [_ Hb]; [intros l' Hl' [_ [_ ?]]; congruence|]. cbn in Hb.
    destruct (so_queue _ Hs id l0 Hl0 Ep) as (r1 & Hr1 & Hin). exists r1. split; [by rewrite Hb, Hq|]. apply elem_of_app. by left.
Qed.

(** A published node is not evicted. *)
Lemma after_loops_present id h : pb_handles p !! id = Some h → rg_lineage r !! id = Some (mkLineage h true).
Proof using All.
  intros Hh. pose proof published_nodes as [_ Hrest Hdone _ _].
  destruct (decide (id ∈ ids (is_Nodes snapshot))) as [Hin|Hni]; [|destruct (Hrest id Hni) as (_ & _ & ?); congruence].
  destruct (Hdone id Hin) as (h' & Hp & Hh' & _). simplify_eq. destruct left_nodes as [Hr _ _]. destruct (Hr id) as [_ [Hb _]]; [|congruence].
  intros l' Hl' [_ [Hn _]]. congruence.
Qed.

Lemma preparePublish_ok s' i : preparePublish s snapshot newEpoch order = (s', i) → publication s snapshot s' i ∧ state_ok s'.
Proof using All.
  intros E. unfold preparePublish in E. fold (start_publishing s) in E.
  assert (u64 (st_nextRevision s + 1) = revision) as Hu.
  { apply u64_id. pose proof (so_revision _ Hs). destruct Hroom as [? _]. unfold fits. lia. }
  rewrite Hu in E. fold p r in E. destruct (evict_retired _ _ _ _) as [[n queued] lineage] eqn:Ev.
  destruct (evict_retired_spec _ _ _ _ _ _ _ Ev) as (Hn1 & Hn2 & Hlin & Hq). specialize (Hq after_loops_queue).
  pose proof published_nodes as [Hslots Hrest Hdone Hinj Hret]. destruct left_nodes as [Hr (more & Hm & _) Hhs]. cbn in Hm.
  assert (∀ id l, lineage !! id = Some l → rg_lineage r !! id = Some l) as Hsub.
  { intros id l Hl. destruct (Hlin id) as [?|[? _]]; congruence. }
  assert (∀ id h, pb_handles p !! id = Some h → lineage !! id = Some (mkLineage h true)) as Hpres.
  { intros id h Hh. pose proof (after_loops_present id h Hh) as Hl. destruct (Hlin id) as [?|(_ & l & Hl' & Hp)]; [congruence|]. simplify_eq. }
  assert (∀ id h, pb_handles p !! id = Some h → id ∈ ids (is_Nodes snapshot) ∧ h_NodeID h = id ∧ handle_from s revision (pb_nextSlot p) (pb_retiredHandles p) id h) as Hfrom.
  { intros id h Hh. destruct (decide (id ∈ ids (is_Nodes snapshot))) as [Hin|Hni]; [|destruct (Hrest id Hni) as (_ & _ & ?); congruence].
    destruct (Hdone id Hin) as (h' & _ & Hh' & ? & ?). simplify_eq. done. }
  assert (∀ x, x ∈ pb_retiredHandles p → x ∈ rg_retiredHandles r) as Hkeep by (intros x Hx; apply Hhs; by left).
  injection E as <- <-. split.
  - split; cbn [st_nextRevision st_nextSlot st_lineage ri_Revision ri_Handles ri_RetiredHandles]; fold p r.
    + done.
    + lia.
    + intros id h Hh. destruct (Hfrom id h Hh) as (? & ? & Hf). split_and!; [done..|by apply Hpres|].
      eapply handle_from_mono; [|exact Hkeep|exact Hf]. lia.
    + intros id Hin. destruct (Hdone id Hin) as (h & _ & Hh & _). by exists h.
    + intros id l Hl%Hsub. by apply after_loops.
    + intros h [Hh|(id & l & Hl & _ & [Hn Hp] & ->)]%Hhs.
      * destruct (Hret h Hh) as (id & l & h' & Hl & -> & Hh' & ? & ?). exists id, l. split_and!; [done..|]. left. by exists h'.
      * exists id, l. split_and!; [|done|by right]. destruct (decide (id ∈ ids (is_Nodes snapshot))) as [Hin|Hni].
        -- destruct (Hdone id Hin) as (? & _ & ? & _). congruence.
        -- destruct (Hrest id Hni) as (Hp' & _). congruence.
    + intros a b ha hb Ha Hb. by apply Hinj.
  - pose proof (so_revision _ Hs). pose proof (so_slot _ Hs).
    split; cbn [st_nextRevision st_nextSlot st_lineage st_retired st_retiredHead st_retiredQueued st_maxRetired]; fold p r.
    + lia.
    + lia.
    + intros id l Hl%Hsub. unfold handle_ok. destruct (after_loops id l Hl) as [(h & Hh & ->)|(_ & l0 & Hl0 & ->)]; cbn.
      * destruct (Hfrom id h Hh) as (_ & Hid & Hf). unfold handle_from in Hf. destruct (st_lineage s !! id) as [l0|] eqn:El0.
        -- destruct (so_handle _ Hs id l0 El0) as (? & ? & ? & ?). destruct Hf as [Hsl [(? & ? & _)|[_ ->]]]; split_and!; lia || done.
        -- split_and!; lia || done.
      * destruct (so_handle _ Hs id l0 Hl0) as (? & ? & ? & ?). split_and!; lia || done.
    + assert (∀ id l, lineage !! id = Some l → (∃ l0, st_lineage s !! id = Some l0 ∧ h_Slot (ln_handle l) = h_Slot (ln_handle l0)) ∨
        (st_lineage s !! id = None ∧ pb_handles p !! id = Some (ln_handle l) ∧ st_nextSlot s < h_Slot (ln_handle l))) as Hcase.
      { intros id l Hl%Hsub. destruct (after_loops id l Hl) as [(h & Hh & ->)|(_ & l0 & Hl0 & ->)]; [|by left; exists l0].
        destruct (Hfrom id h Hh) as (_ & _ & Hf). unfold handle_from in Hf. cbn. destruct (st_lineage s !! id) as [l0|]; [left; exists l0; by destruct Hf|].
        right. split_and!; [done..|lia]. }
      intros a b la lb Ha Hb Es. destruct (Hcase a la Ha) as [(a0 & Ea & Sa)|(Na & Pa & Sa)], (Hcase b lb Hb) as [(b0 & Eb & Sb)|(Nb & Pb & Sb)].
      * apply (so_inj _ Hs a b a0 b0 Ea Eb). lia.
      * destruct (so_handle _ Hs a a0 Ea) as (_ & ? & _). lia.
      * destruct (so_handle _ Hs b b0 Eb) as (_ & ? & _). lia.
      * by apply (Hinj a b _ _ Pa Pb Na Nb).
    + pose proof (so_head _ Hs). rewrite length_drop in Hn1. destruct (_ && _); [lia|]. rewrite Hm, length_app in *. lia.
    + rewrite drop_drop in Hq. destruct (_ && _); [by rewrite drop_0 | done].
    + rewrite length_drop in Hn2. destruct (_ && _); rewrite ?drop_0, length_drop; lia.
Qed.

End Publication.

Lemma snapshot_valid snapshot :
  validateIdentitySnapshot snapshot = None → NoDup (ids (is_Nodes snapshot)) ∧ is_SourceGeneration snapshot ≠ 0.
Proof.
  unfold validateIdentitySnapshot. destruct (is_SourceGeneration snapshot =? 0) eqn:E; [done|]. apply Z.eqb_neq in E.
  intros H. by destruct (validate_nodes_ok _ _ H).
Qed.

(** *** Nodes that stay *)

Lemma publish_node_other revision p node id :
  id ≠ n_NodeID node → pb_handles (publish_node revision p node) !! id = pb_handles p !! id.
Proof.
  intros Hne. unfold publish_node. destruct (pb_lineage p !! n_NodeID node) as [l|]; [destruct (bumps l node)|]; cbn; by rewrite lookup_insert_ne.
Qed.

Lemma publish_nodes_other revision p nodes id :
  id ∉ ids nodes → pb_handles (foldl (publish_node revision) p nodes) !! id = pb_handles p !! id.
Proof.
  revert p. induction nodes as [|node nodes IH]; intros p Hid; [done|]. cbn [foldl map] in *.
  rewrite not_elem_of_cons in Hid. destruct Hid as [Hne Hid]. rewrite IH by done. by apply publish_node_other.
Qed.

Lemma stable_handle_kept s revision nodes id l :
  state_ok s → st_nextSlot s + Z.of_nat (length nodes) < 2 ^ 64 →
  (∀ id l, st_lineage s !! id = Some l → h_Version (ln_handle l) + 1 < 2 ^ 64) → NoDup (ids nodes) →
  mkNode id true ∈ nodes → st_lineage s !! id = Some l → ln_presentInLatest l = true →
  pb_handles (foldl (publish_node revision) (start_publishing s) nodes) !! id = Some (ln_handle l).
Proof.
  intros Hs Hroom Hver Hnd Hin Hl Hp. apply list_elem_of_split in Hin as (l1 & l2 & ->).
  rewrite map_app in Hnd. cbn [map n_NodeID] in Hnd. apply NoDup_app in Hnd as (Hnd1 & Hdis & Hnd2). apply NoDup_cons in Hnd2 as [Hn2 _].
  assert (id ∉ ids l1) as Hn1 by (intros H1; apply (Hdis _ H1); by left).
  rewrite foldl_app. cbn [foldl]. rewrite publish_nodes_other by done. rewrite length_app in Hroom. simpl in Hroom.
  destruct (pi_rest _ _ _ _ (publish_nodes_inv s revision l1 Hs ltac:(lia) Hver Hnd1) id Hn1) as (Hl' & _ & _).
  set (q := foldl (publish_node revision) (start_publishing s) l1) in *. unfold publish_node. cbn [n_NodeID]. rewrite Hl', Hl. unfold bumps. rewrite Hp. cbn. by rewrite lookup_insert_eq.
Qed.

(** ** Restoring *)

Definition to_item (x : NodeID * stableNodeLineage) : persistedIdentityLineage := mkPLineage x.1 (ln_handle x.2) (ln_presentInLatest x.2).

Definition restored (item : persistedIdentityLineage) : stableNodeLineage := mkLineage (pl_Handle item) (pl_PresentInLatest item).

(** The numbers of a handle are unsigned. *)
Definition unsigned (h : NodeHandle) : Prop := 0 ≤ h_Slot h ∧ 0 ≤ h_Version h ∧ 0 ≤ h_BornRevision h.

(** What the loop keeps: a well-formed state whose used slots are known. *)
Record restoring (slot revision : Z) (s : stableIdentityState) (used : gset Z) : Prop := {
  rs_state : state_ok s;
  rs_slot : st_nextSlot s = slot;
  rs_revision : st_nextRevision s = revision;
  rs_head : st_retiredHead s = 0%nat;
  rs_used : ∀ id l, st_lineage s !! id = Some l → h_Slot (ln_handle l) ∈ used }.

Lemma restoring_add slot revision s used item queue queued :
  restoring slot revision s used → st_lineage s !! pl_NodeID item = None → h_Slot (pl_Handle item) ∉ used →
  handle_ok slot revision (pl_NodeID item) (pl_Handle item) →
  (length queue ≤ st_maxRetired s)%nat → queue_ok queue queued (<[pl_NodeID item := restored item]> (st_lineage s)) →
  restoring slot revision (mkState (st_nextEpoch s) (st_nextRevision s) (st_nextSlot s) (st_currentEpoch s)
    (<[pl_NodeID item := restored item]> (st_lineage s)) queue (st_retiredHead s) queued (st_maxRetired s)) ({[h_Slot (pl_Handle item)]} ∪ used).
Proof.
  intros [Hs Es Er Eh Hu] Hnew Hslot Hok Hlen Hq. split; cbn; try done; [split; cbn|].
  - apply (so_revision _ Hs).
  - apply (so_slot _ Hs).
  - intros id l [[<- <-]|[_ Hl]]%lookup_insert_Some; [by rewrite Es, Er | by apply (so_handle _ Hs)].
  - intros i j li lj [[<- <-]|[Hi Hli]]%lookup_insert_Some [[<- <-]|[Hj Hlj]]%lookup_insert_Some E; cbn in E; [done| | |by eapply (so_inj _ Hs)].
    + destruct Hslot. rewrite E. by eapply Hu.
    + destruct Hslot. rewrite <- E. by eapply Hu.
  - rewrite Eh. lia.
  - by rewrite Eh, drop_0.
  - by rewrite Eh, drop_0.
  - intros id l [[<- <-]|[_ Hl]]%lookup_insert_Some; apply elem_of_union; [left; by apply elem_of_singleton | right; by eapply Hu].
Qed.

Lemma queue_ok_add queue queued lineage item more mq :
  queue_ok queue queued lineage → lineage !! pl_NodeID item = None →
  (∀ id, id ≠ pl_NodeID item → mq !! id = queued !! id) →
  (pl_PresentInLatest item = false → ∃ r, mq !! pl_NodeID item = Some r ∧ mkRetired (pl_NodeID item) r ∈ more) →
  queue_ok (queue ++ more) mq (<[pl_NodeID item := restored item]> lineage).
Proof.
  intros Hq Hnew Hmq Hmore id l [[<- <-]|[Hne Hl]]%lookup_insert_Some Hp.
  - destruct (Hmore Hp) as (r & ? & ?). exists r. split; [done|]. apply elem_of_app. by right.
  - destruct (Hq id l Hl Hp) as (r & Hr & Hin). exists r. rewrite Hmq by done. split; [done|]. apply elem_of_app. by left.
Qed.

(** A state that restores is well formed and has exactly the items that were
    persisted. *)
Lemma restore_lineage_ok slot revision s used items s' :
  restoring slot revision s used → Forall (λ x, unsigned (pl_Handle x)) items →
  restore_lineage slot revision s used items = inr s' →
  state_ok s' ∧ st_nextSlot s' = slot ∧
  (∀ item, item ∈ items → st_lineage s !! pl_NodeID item = None ∧ st_lineage s' !! pl_NodeID item = Some (restored item)) ∧
  (∀ id, id ∉ map pl_NodeID items → st_lineage s' !! id = st_lineage s !! id).
Proof.
  intros Hr Hall. revert s used Hr. induction Hall as [|item items (U1 & U2 & U3) Hall IH]; intros s used Hr E; cbn [restore_lineage map] in *.
  - simplify_eq. split_and!; [by apply Hr | by apply Hr | by intros ? ?%not_elem_of_nil | done].
  - destruct (_ || (revision <? h_BornRevision (pl_Handle item))) eqn:Ev; [done|].
    rewrite !orb_false_iff, negb_false_iff, Z.eqb_eq, !Z.eqb_neq, !Z.ltb_ge in Ev. destruct Ev as ((((((_ & Hn) & Hs0) & Hs1) & Hv0) & Hb0) & Hb1).
    case_bool_decide as Hdup; [done|]. rewrite <- eq_None_not_Some in Hdup. case_bool_decide as Hslot; [done|].
    assert (handle_ok slot revision (pl_NodeID item) (pl_Handle item)) as Hok by (unfold handle_ok; lia).
    assert (∀ st, restoring slot revision st ({[h_Slot (pl_Handle item)]} ∪ used) →
      st_lineage st = <[pl_NodeID item := restored item]> (st_lineage s) →
      restore_lineage slot revision st ({[h_Slot (pl_Handle item)]} ∪ used) items = inr s' →
      state_ok s' ∧ st_nextSlot s' = slot ∧
      (∀ x, x ∈ item :: items → st_lineage s !! pl_NodeID x = None ∧ st_lineage s' !! pl_NodeID x = Some (restored x)) ∧
      (∀ id, id ∉ pl_NodeID item :: map pl_NodeID items → st_lineage s' !! id = st_lineage s !! id)) as Hgo.
    { intros st Hst Hl E'. destruct (IH st _ Hst E') as (I1 & I2 & I3 & I4). split_and!; [done | done | |].
      - intros x [->|Hx]%elem_of_cons.
        + split; [done|]. rewrite I4, Hl; [apply lookup_insert_eq|]. intros (y & Ey & Hy)%list_elem_of_fmap.
          destruct (I3 y Hy) as [Hno _]. rewrite Hl, <- Ey in Hno. by rewrite lookup_insert_eq in Hno.
        + destruct (I3 x Hx) as [Hno ?]. split; [|done]. rewrite Hl in Hno. by apply lookup_insert_None in Hno as [? _].
      - intros id [Hne Hni]%not_elem_of_cons. rewrite I4, Hl by done. by apply lookup_insert_ne. }
    pose proof (so_queue _ (rs_state _ _ _ _ Hr)) as Hq. pose proof (so_bound _ (rs_state _ _ _ _ Hr)) as Hbd.
    rewrite (rs_head _ _ _ _ Hr), drop_0 in Hq, Hbd.
    destruct (pl_PresentInLatest item) eqn:Ep; [|destruct (_ <=? _)%nat eqn:El; [done|]; apply Nat.leb_gt in El].
    + apply (Hgo _) in E; [done| |cbn; unfold restored; by rewrite Ep].
      rewrite <- Ep. apply restoring_add; try done. rewrite <- (app_nil_r (st_retired s)). apply queue_ok_add with (st_retiredQueued s); [done.. | congruence].
    + apply (Hgo _) in E; [done| |cbn; unfold restored; by rewrite Ep].
      rewrite <- Ep. apply restoring_add; try done; [rewrite length_app; simpl; lia|].
      apply queue_ok_add with (st_retiredQueued s); [done | done | intros id ?; by apply lookup_insert_ne |].
      intros _. exists revision. rewrite lookup_insert_eq. split; [done | by left].
Qed.

Lemma persisted_items s order item :
  range_of (st_lineage s) order →
  item ∈ merge_sort id_le (map to_item order) ↔ ∃ id l, item = to_item (id, l) ∧ st_lineage s !! id = Some l.
Proof.
  intros Hord. rewrite merge_sort_Permutation, list_elem_of_fmap. split.
  - intros ([id l] & -> & Hin). exists id, l. split; [done|]. by apply (range_of_lookup _ _ _ _ Hord).
  - intros (id & l & -> & Hl). exists (id, l). split; [done|]. by apply (range_of_lookup _ _ _ _ Hord).
Qed.

(** A restart: what is persisted of a well-formed state restores to a well-formed
    state with the same lineage and the same slots taken. *)
Lemma restart_same s order s' :
  state_ok s → range_of (st_lineage s) order → restoreStableIdentityState (persisted_of s order) = inr s' →
  state_ok s' ∧ st_nextSlot s' = st_nextSlot s ∧ st_lineage s' = st_lineage s.
Proof.
  intros Hs Hord. unfold restoreStableIdentityState, persisted_of. cbn [ps_NextEpoch ps_NextRevision ps_NextSlot ps_Lineage].
  destruct (_ || _); [done|]. change (map _ order) with (map to_item order). set (items := merge_sort id_le (map to_item order)). intros E.
  assert (items ≡ₚ map to_item order) as Hperm by (apply merge_sort_Permutation).
  assert (∀ item, item ∈ items ↔ ∃ id l, item = to_item (id, l) ∧ st_lineage s !! id = Some l) as Hitem by (intros; by apply persisted_items).
  assert (restoring (st_nextSlot s) (st_nextRevision s)
    (mkState (st_nextEpoch s) (st_nextRevision s) (st_nextSlot s) (st_nextEpoch s) ∅ [] 0 ∅ maxRetired) ∅) as Hstart.
  { split; try done. split; cbn; [apply (so_revision _ Hs) | apply (so_slot _ Hs) | | | done | | lia].
    - by intros id l ?%lookup_empty_Some.
    - by intros i j li lj ?%lookup_empty_Some.
    - by intros id l ?%lookup_empty_Some. }
  assert (Forall (λ x, unsigned (pl_Handle x)) items) as Hall.
  { apply list.Forall_forall. intros item (id & l & -> & Hl)%Hitem. destruct (so_handle _ Hs id l Hl) as (_ & ? & ? & ?). unfold unsigned. cbn. lia. }
  destruct (restore_lineage_ok _ _ _ _ _ _ Hstart Hall E) as (H1 & H2 & H3 & H4).
  split_and!; [done | done |]. apply map_eq. intros id. destruct (st_lineage s !! id) as [l|] eqn:Hl.
  - assert (to_item (id, l) ∈ items) as Hi by (apply Hitem; eauto). etransitivity; [apply (H3 _ Hi)|]. by destruct l.
  - etransitivity; [apply H4|apply lookup_empty]. intros (item & -> & (id' & l' & -> & Hl')%Hitem)%list_elem_of_fmap. cbn in Hl. congruence.
Qed.

(** ** Handles are never given out again *)

(** A handle that was retired: its slot is never assigned again, and the node that
    has the slot is at a later version or not published. *)
Definition dead_ok (s : stableIdentityState) (dead : list NodeHandle) : Prop :=
  ∀ h, h ∈ dead → h_Slot h ≤ st_nextSlot s ∧
    ∀ id l, st_lineage s !! id = Some l → h_Slot (ln_handle l) = h_Slot h →
      h_Version h < h_Version (ln_handle l) ∨ (h_Version h = h_Version (ln_handle l) ∧ ln_presentInLatest l = false).

(** Publications and restarts from a well-formed state, with the handles they
    retired. *)
Inductive lineage_run : stableIdentityState → list NodeHandle → Prop :=
| run_start s : state_ok s → lineage_run s []
| run_publish s dead snapshot newEpoch order s' i :
    lineage_run s dead → validateIdentitySnapshot snapshot = None → room s snapshot → visits_all order →
    preparePublish s snapshot newEpoch order = (s', i) → lineage_run s' (dead ++ ri_RetiredHandles i)
| run_restart s dead order s' :
    lineage_run s dead → range_of (st_lineage s) order →
    restoreStableIdentityState (persisted_of s order) = inr s' → lineage_run s' dead.

Lemma dead_step s dead snapshot s' i :
  state_ok s → dead_ok s dead → publication s snapshot s' i → dead_ok s' (dead ++ ri_RetiredHandles i).
Proof.
  intros Hs Hd Hpub h Hh. pose proof (pc_slot _ _ _ _ Hpub) as Hslot. apply elem_of_app in Hh as [Hh|Hh].
  - destruct (Hd h Hh) as [Hle Hold]. split; [lia|]. intros id l Hl Es.
    destruct (pc_lineage _ _ _ _ Hpub id l Hl) as [(h' & Hh' & ->)|(_ & l0 & Hl0 & ->)]; cbn in *.
    + destruct (pc_handles _ _ _ _ Hpub id h' Hh') as (_ & _ & _ & Hf). unfold handle_from in Hf.
      destruct (st_lineage s !! id) as [l0|] eqn:El0; [|lia]. destruct Hf as [Hsl [(Hv & _ & _)|[Hp ->]]].
      * assert (h_Slot (ln_handle l0) = h_Slot h) as Es' by lia. destruct (Hold id l0 El0 Es') as [?|[? _]]; left; lia.
      * destruct (Hold id l0 El0 Es) as [?|[_ ?]]; [by left | congruence].
    + destruct (Hold id l0 Hl0 Es) as [?|[? _]]; [by left | by right].
  - destruct (pc_retired _ _ _ _ Hpub h Hh) as (id0 & l0 & Hl0 & -> & Hcase).
    destruct (so_handle _ Hs id0 l0 Hl0) as (_ & Hsl0 & _). split; [lia|]. intros id l Hl Es.
    destruct (pc_lineage _ _ _ _ Hpub id l Hl) as [(h' & Hh' & ->)|(Hn & l1 & Hl1 & ->)]; cbn in *.
    + destruct (pc_handles _ _ _ _ Hpub id h' Hh') as (_ & _ & _ & Hf). unfold handle_from in Hf.
      destruct (st_lineage s !! id) as [l1|] eqn:El1; [|lia]. destruct Hf as [Hsl _].
      assert (id = id0) as -> by (apply (so_inj _ Hs id id0 l1 l0 El1 Hl0); lia). simplify_eq.
      destruct Hcase as [(h'' & Hh'' & _ & Hv)|[Hn _]]; [|congruence]. simplify_eq. left. lia.
    + assert (id = id0) as -> by (by apply (so_inj _ Hs id id0 l1 l0 Hl1 Hl0)). simplify_eq. by right.
Qed.

Lemma lineage_run_ok s dead : lineage_run s dead → state_ok s ∧ dead_ok s dead.
Proof.
  induction 1 as [s Hs|s dead snapshot ne order s' i _ [IHs IHd] Hv Hroom Hord E|s dead order s' _ [IHs IHd] Hord E];
    [split; [done|]; by intros h Hh%not_elem_of_nil| |].
  2: { destruct (restart_same s order s' IHs Hord E) as (Hs' & Es & El). split; [done|]. unfold dead_ok. by rewrite Es, El. }
  destruct (preparePublish_ok s snapshot ne order IHs Hroom (proj1 (snapshot_valid _ Hv)) Hord s' i E) as [Hpub Hs'].
  split; [done|]. exact (dead_step _ _ _ _ _ IHs IHd Hpub).
Qed.

(** C21. Over the publications of one group and restarts from the latest state that was saved,
    without rollbacks and as long as the 64-bit counters of revisions, slots and
    versions do not run over, a handle names one incarnation of one node: once a publication
    retires it, no later publication gives its slot and version out again, to that node or to
    another one, even after the lineage of the node was evicted; two nodes of a publication
    never share a slot; and while a node with a stable identity stays in the catalog, its
    handle stays the same.  (A rollback, see the findings, and unregistering the group and
    registering it anew start from older counters and do give handles out again.) *)
Theorem handle_never_reused s dead snapshot newEpoch order s' i :
  lineage_run s dead → validateIdentitySnapshot snapshot = None → room s snapshot → visits_all order →
  preparePublish s snapshot newEpoch order = (s', i) →
  (∀ id h h', ri_Handles i !! id = Some h → h' ∈ dead ++ ri_RetiredHandles i → (h_Slot h, h_Version h) ≠ (h_Slot h', h_Version h')) ∧
  (∀ a b ha hb, ri_Handles i !! a = Some ha → ri_Handles i !! b = Some hb → h_Slot ha = h_Slot hb → a = b) ∧
  (∀ id l, mkNode id true ∈ is_Nodes snapshot → st_lineage s !! id = Some l → ln_presentInLatest l = true →
     ri_Handles i !! id = Some (ln_handle l)).
Proof.
  intros Hrun Hv Hroom Hord E. destruct (lineage_run_ok _ _ Hrun) as [Hs Hd]. pose proof (proj1 (snapshot_valid _ Hv)) as Hnd.
  destruct (preparePublish_ok s snapshot newEpoch order Hs Hroom Hnd Hord s' i E) as [Hpub Hs']. split_and!.
  - intros id h h' Hh Hdead Eq. injection Eq as Es Ever. destruct (pc_handles _ _ _ _ Hpub id h Hh) as (_ & _ & Hl & _).
    destruct (dead_step _ _ _ _ _ Hs Hd Hpub h' Hdead) as [_ Hno]. destruct (Hno id _ Hl Es) as [Hlt|[_ ?]]; [cbn in Hlt; lia | done].
  - intros a b ha hb Ha Hb Es. destruct (pc_handles _ _ _ _ Hpub a ha Ha) as (_ & _ & La & _).
    destruct (pc_handles _ _ _ _ Hpub b hb Hb) as (_ & _ & Lb & _). by apply (so_inj _ Hs' a b _ _ La Lb).
  - intros id l Hin Hl Hp. destruct Hroom as (Hr1 & Hr2 & Hr3).
    unfold preparePublish in E. fold (start_publishing s) in E. destruct (evict_retired _ _ _ _) as [[n q] lin]. injection E as _ <-.
    cbn [ri_Handles]. by apply stable_handle_kept.
Qed.

Lemma ids_size_le (l : list NodeID) : (size (list_to_set l : gset NodeID) ≤ length l)%nat.
Proof.
  induction l as [|x l IH]; cbn [list_to_set length]; [by rewrite size_empty|]. rewrite size_union_alt, size_singleton.
  assert (size ((list_to_set l : gset NodeID) ∖ {[x]}) ≤ size (list_to_set l : gset NodeID))%nat; [|lia].
  apply subseteq_size. apply subseteq_difference_l. done.
Qed.

(** The lineage is bounded: after a publication it has the nodes of the
    snapshot and at most 16384 nodes that left. *)
Theorem lineage_bounded s dead snapshot newEpoch order s' i :
  lineage_run s dead → validateIdentitySnapshot snapshot = None → room s snapshot → visits_all order →
  preparePublish s snapshot newEpoch order = (s', i) →
  (size (st_lineage s') ≤ length (is_Nodes snapshot) + st_maxRetired s')%nat.
Proof.
  intros Hrun Hv Hroom Hord E. destruct (lineage_run_ok _ _ Hrun) as [Hs Hd]. pose proof (proj1 (snapshot_valid _ Hv)) as Hnd.
  destruct (preparePublish_ok s snapshot newEpoch order Hs Hroom Hnd Hord s' i E) as [Hpub Hs'].
  rewrite <- size_dom. transitivity (size (list_to_set (ids (is_Nodes snapshot) ++ map rt_nodeID (drop (st_retiredHead s') (st_retired s'))) : gset NodeID)).
  - apply subseteq_size. intros id [l Hl]%elem_of_dom. apply elem_of_list_to_set, elem_of_app.
    destruct (pc_lineage _ _ _ _ Hpub id l Hl) as [(h & Hh & _)|(_ & l0 & _ & ->)].
    + left. by destruct (pc_handles _ _ _ _ Hpub id h Hh) as (? & _).
    + right. destruct (so_queue _ Hs' id _ Hl eq_refl) as (r & _ & Hin). apply list_elem_of_fmap. by exists (mkRetired id r).
  - etransitivity; [apply ids_size_le|]. rewrite length_app, !length_map. pose proof (so_bound _ Hs'). lia.
Qed.

(** ** Evidence of retired handles *)

Lemma validate_current state epochID revision generation id slot version allow :
  validateEpochObservation (Some state) epochID revision generation id slot version allow = true →
  ∃ epoch h l, g_epochs state !! epochID = Some epoch ∧ ep_handles epoch !! id = Some h ∧
    st_lineage (rf_state (g_identity state)) !! id = Some l ∧ ln_presentInLatest l = true ∧
    h_Slot (ln_handle l) = slot ∧ h_Version (ln_handle l) = version ∧ h_Slot h = slot ∧ h_Version h = version ∧
    h_BornRevision h ≤ revision ≤ ep_revision epoch ∧ generation ≤ ep_lastSourceGeneration epoch ∧ ep_lifecycle epoch ≠ EpochRetired ∧
    (allow = false → ep_lifecycle epoch = EpochActive).
Proof.
  unfold validateEpochObservation. destruct (_ || (version =? 0)); [done|]. destruct (g_epochs state !! epochID) as [epoch|] eqn:Ee; [|done].
  destruct (_ || (ep_lastSourceGeneration epoch <? generation)) eqn:Eg; [done|]. apply orb_false_iff in Eg as [Eg Hgen].
  apply orb_false_iff in Eg as [Eg Hrev]. apply orb_false_iff in Eg as [Hret Hing]. apply Z.ltb_ge in Hgen, Hrev. apply bool_decide_eq_false in Hret.
  destruct (ep_handles epoch !! id) as [h|] eqn:Eh; [|done]. destruct (st_lineage _ !! id) as [l|] eqn:El; [|done].
  rewrite !andb_true_iff, !Z.eqb_eq, Z.leb_le. intros (((((Hp & H1) & H2) & H3) & H4) & H5).
  exists epoch, h, l. split_and!; try done. intros ->. cbn [negb] in Hing. rewrite andb_true_r in Hing. apply bool_decide_eq_false in Hing.
  by destruct (ep_lifecycle epoch).
Qed.

(** Evidence collected under a retired handle is rejected: in a group whose
    identity came about by publications, no lease validates an observation of a
    handle that a publication has retired, whatever revision it claims. *)
Theorem retired_evidence_rejected m l state dead epochID revision generation h h' :
  m_groups m !! el_groupID l = Some state → lineage_run (rf_state (g_identity state)) dead →
  h' ∈ dead → (h_Slot h, h_Version h) = (h_Slot h', h_Version h') →
  ValidateEvidence m l epochID revision generation h = false.
Proof.
  intros Hg Hrun Hdead Eq. injection Eq as Es Ev. unfold ValidateEvidence. destruct (el_released l); [done|].
  destruct (negb (epochID =? el_epochID l)); [done|]. rewrite Hg. apply not_true_iff_false. intros Hval.
  destruct (validate_current _ _ _ _ _ _ _ _ Hval) as (epoch & he & ln & _ & _ & Hl & Hp & H1 & H2 & _).
  destruct (lineage_run_ok _ _ Hrun) as [_ Hd]. destruct (Hd h' Hdead) as [_ Hno].
  destruct (Hno _ _ Hl) as [?|[_ ?]]; [lia | lia | congruence].
Qed.

(** ** The manager as a system of steps *)

Record system : Type := mkSystem {
  sy_manager : RuntimeManager;
  sy_prepared : gmap nat PreparedIdentity;
  sy_leases : gmap nat EpochLease }.

Definition epoch_room (m : RuntimeManager) (groupID : string) : Prop :=
  ∀ state, m_groups m !! groupID = Some state → st_nextEpoch (rf_state (g_identity state)) + 1 < 2 ^ 64.

(** The calls of the pools; [Rollback] is left out. *)
Inductive sys_step : system → system → Prop :=
| sy_register m ps ls g : sys_step (mkSystem m ps ls) (mkSystem (RegisterGroup m g) ps ls)
| sy_unregister m ps ls g : sys_step (mkSystem m ps ls) (mkSystem (UnregisterGroup m g) ps ls)
| sy_restore m ps ls g persisted m' err :
    (∀ p, persisted = Some p → 0 ≤ ps_NextEpoch p) →
    RestorePersistence m g persisted = (m', err) → sys_step (mkSystem m ps ls) (mkSystem m' ps ls)
| sy_prepare_epoch m ps ls g snapshot order m' p k :
    PrepareEpoch m g snapshot order = inr (m', p) → epoch_room m g → ps !! k = None → sys_step (mkSystem m ps ls) (mkSystem m' (<[k := p]> ps) ls)
| sy_prepare_revision m ps ls g e snapshot order m' p k :
    PrepareRevision m g e snapshot order = inr (m', p) → ps !! k = None → sys_step (mkSystem m ps ls) (mkSystem m' (<[k := p]> ps) ls)
| sy_commit m ps ls k p m' p' r :
    ps !! k = Some p → Commit m p = (m', p', r) → sys_step (mkSystem m ps ls) (mkSystem m' (<[k := p']> ps) ls)
| sy_acquire m ps ls g e m' l k :
    AcquireEpoch m g e = inr (m', l) → ls !! k = None → sys_step (mkSystem m ps ls) (mkSystem m' ps (<[k := l]> ls))
| sy_release m ps ls k l m' l' :
    ls !! k = Some l → Release m l = (m', l') → sys_step (mkSystem m ps ls) (mkSystem m' ps (<[k := l']> ls))
| sy_retire m ps ls g e : sys_step (mkSystem m ps ls) (mkSystem (RetireEpoch m g e) ps ls).

Inductive sys_reachable : system → Prop :=
| sys_init : sys_reachable (mkSystem NewRuntimeManager ∅ ∅)
| sys_next s s' : sys_reachable s → sys_step s s' → sys_reachable s'.

(** The leases of an epoch that are not released. *)
Definition holds (g : string) (e : Z) (x : nat * EpochLease) : Prop := el_groupID x.2 = g ∧ el_epochID x.2 = e ∧ el_released x.2 = false.
#[global] Instance holds_dec g e x : Decision (holds g e x).
Proof. unfold holds. apply _. Defined.
Definition lease_count (ls : gmap nat EpochLease) (g : string) (e : Z) : Z := Z.of_nat (size (filter (holds g e) ls)).

(** Every pointer points to what was allocated under its number. *)
Definition ref_ok (heap : gmap nat stableIdentityState) (r : identity_ref) : Prop := heap !! rf_ptr r = Some (rf_state r).

Definition prepared_ok (heap : gmap nat stableIdentityState) (p : PreparedIdentity) : Prop :=
  ref_ok heap (pi_nextState p) ∧ (∀ b, pi_baseState p = Some b → ref_ok heap b ∧ rf_ptr b ≠ rf_ptr (pi_nextState p)) ∧
  let base := match pi_baseState p with Some b => st_nextEpoch (rf_state b) | None => 0 end in
  (pi_newEpoch p = true → ri_EpochID (pi_identity p) = base + 1 ∧ st_nextEpoch (rf_state (pi_nextState p)) = base + 1) ∧
  (pi_newEpoch p = false → pi_baseState p ≠ None ∧ st_nextEpoch (rf_state (pi_nextState p)) = base).

Definition epoch_ok (ls : gmap nat EpochLease) (g : string) (identity_epoch e : Z) (epoch : stableEpoch) : Prop :=
  e ≤ identity_epoch ∧ ep_refCount epoch = lease_count ls g e ∧ ep_lifecycle epoch ≠ EpochRetired ∧
  (ep_lifecycle epoch = EpochRetiring → 0 < ep_refCount epoch).

Record sys_inv (s : system) : Prop := {
  sv_heap : ∃ heap, (∀ k, is_Some (heap !! k) → (k < m_allocated (sy_manager s))%nat) ∧
    (∀ g state, m_groups (sy_manager s) !! g = Some state → ref_ok heap (g_identity state)) ∧
    (∀ k p, sy_prepared s !! k = Some p → prepared_ok heap p);
  sv_epochs : ∀ g state e epoch, m_groups (sy_manager s) !! g = Some state → g_epochs state !! e = Some epoch →
    epoch_ok (sy_leases s) g (st_nextEpoch (rf_state (g_identity state))) e epoch;
  sv_counter : ∀ g state, m_groups (sy_manager s) !! g = Some state → 0 ≤ st_nextEpoch (rf_state (g_identity state));
  sv_leases : ∀ k l, sy_leases s !! k = Some l → el_released l = false → ∃ state, m_groups (sy_manager s) !! el_groupID l = Some state ∧
    is_Some (g_epochs state !! el_epochID l) }.

(** *** Counting leases *)

Lemma lease_count_acquire ls k l g e :
  ls !! k = None → el_released l = false →
  lease_count (<[k := l]> ls) g e = lease_count ls g e + (if decide (el_groupID l = g ∧ el_epochID l = e) then 1 else 0).
Proof.
  intros Hk Hr. unfold lease_count. destruct (decide _) as [[Hg He]|Hno].
  - rewrite map_filter_insert_True by (by split_and!). rewrite map_size_insert_None; [lia|]. apply map_lookup_filter_None. by left.
  - rewrite map_filter_insert_False by (intros (? & ? & _); by apply Hno). rewrite delete_id by done. lia.
Qed.

Lemma lease_count_release ls k l g e :
  ls !! k = Some l → el_released l = false →
  lease_count (<[k := mkLease (el_groupID l) (el_epochID l) true]> ls) g e + (if decide (el_groupID l = g ∧ el_epochID l = e) then 1 else 0) =
    lease_count ls g e.
Proof.
  intros Hk Hr. unfold lease_count. rewrite map_filter_insert_False by (by intros (_ & _ & ?)). rewrite map_filter_delete.
  destruct (decide _) as [[Hg He]|Hno].
  - assert (filter (holds g e) ls !! k = Some l) as Hf by (apply map_lookup_filter_Some; split; [done | by split_and!]).
    pose proof (size_delete_Some k l _ Hf). lia.
  - rewrite delete_id; [lia|]. apply map_lookup_filter_None. right. intros x Hx (? & ? & _). simplify_eq. by apply Hno.
Qed.

Lemma lease_count_zero ls g e : (∀ k l, ls !! k = Some l → ¬ holds g e (k, l)) → lease_count ls g e = 0.
Proof.
  intros Hno. unfold lease_count. assert (filter (holds g e) ls = ∅) as ->; [|by rewrite map_size_empty].
  apply map_empty. intros k. apply map_lookup_filter_None. right. intros l Hk. by apply Hno.
Qed.

(** *** One group is replaced *)

Lemma prepared_ok_mark heap p a b : prepared_ok heap p → prepared_ok heap (mark p a b).
Proof. by destruct p. Qed.

Lemma inv_set_group m ps ps' ls ls' g ref E :
  sys_inv (mkSystem m ps ls) →
  ((∃ state, m_groups m !! g = Some state ∧ ref = g_identity state) ∨ (∃ k p, ps !! k = Some p ∧ ref = pi_nextState p)) →
  (∀ k p', ps' !! k = Some p' → ∃ p a b, ps !! k = Some p ∧ p' = mark p a b) →
  0 ≤ st_nextEpoch (rf_state ref) →
  (∀ e epoch, E !! e = Some epoch → epoch_ok ls' g (st_nextEpoch (rf_state ref)) e epoch) →
  (∀ g' e, g' ≠ g → lease_count ls' g' e = lease_count ls g' e) →
  (∀ k l, ls' !! k = Some l → el_released l = false →
     (el_groupID l = g ∧ is_Some (E !! el_epochID l)) ∨ (el_groupID l ≠ g ∧ ls !! k = Some l)) →
  sys_inv (mkSystem (set_groups m (<[g := mkGroup ref E]> (m_groups m))) ps' ls').
Proof.
  intros [(heap & Hh1 & Hh2 & Hh3) He Hc Hl] Href Hps H0 HE Hcount Hls. cbn [sy_manager sy_prepared sy_leases] in *.
  split; cbn [sy_manager sy_prepared sy_leases set_groups m_groups m_allocated].
  - exists heap. split_and!; [done| |].
    + intros g' state' Hg'. destruct (decide (g' = g)) as [->|Hne].
      * rewrite lookup_insert_eq in Hg'. simplify_eq. cbn. destruct Href as [(state & Hs & ->)|(k & p & Hp & ->)]; [by eapply Hh2|].
        by destruct (Hh3 k p Hp).
      * rewrite lookup_insert_ne in Hg' by done. by eapply Hh2.
    + intros k p' Hp'. destruct (Hps k p' Hp') as (p & a & b' & Hp & ->). apply prepared_ok_mark. by eapply Hh3.
  - intros g' state' e epoch Hg' Hep. destruct (decide (g' = g)) as [->|Hne].
    + rewrite lookup_insert_eq in Hg'. simplify_eq. by apply HE.
    + rewrite lookup_insert_ne in Hg' by done. destruct (He g' state' e epoch Hg' Hep) as (? & Hcnt & ?). split; [done|].
      split; [|done]. by rewrite Hcount.
  - intros g' state' Hg'. destruct (decide (g' = g)) as [->|Hne].
    + rewrite lookup_insert_eq in Hg'. by simplify_eq.
    + rewrite lookup_insert_ne in Hg' by done. by eapply Hc.
  - intros k l Hk Hr. destruct (Hls k l Hk Hr) as [[-> Hsome]|[Hne Hk']].
    + eexists. rewrite lookup_insert_eq. split; [done|]. done.
    + destruct (Hl k l Hk' Hr) as (state & Hs & Hsome). exists state. by rewrite lookup_insert_ne.
Qed.

Lemma mark_same (p : PreparedIdentity) : p = mark p (pi_committed p) (pi_rolledBack p).
Proof. by destruct p. Qed.

Lemma same_prepared (ps : gmap nat PreparedIdentity) k p' : ps !! k = Some p' → ∃ p a b, ps !! k = Some p ∧ p' = mark p a b.
Proof. intros Hp. exists p', (pi_committed p'), (pi_rolledBack p'). split; [done | apply mark_same]. Qed.

(** A group without epochs has no leases and may go. *)
Lemma inv_cleanup m ps ls g : sys_inv (mkSystem m ps ls) → sys_inv (mkSystem (tryCleanupGroupLocked m g) ps ls).
Proof.
  intros Hinv. unfold tryCleanupGroupLocked. destruct (negb (users m g =? 0)); [done|]. destruct (m_groups m !! g) as [state|] eqn:Hg; [|done].
  case_bool_decide as Hempty; [|done]. destruct Hinv as [(heap & Hh1 & Hh2 & Hh3) He Hc Hl]. cbn [sy_manager sy_prepared sy_leases] in *.
  split; cbn [sy_manager sy_prepared sy_leases set_groups m_groups m_allocated].
  - exists heap. split_and!; [done| |done]. intros g' s' [_ Hg']%lookup_delete_Some. by eapply Hh2.
  - intros g' s' e epoch [_ Hg']%lookup_delete_Some. by apply He.
  - intros g' s' [_ Hg']%lookup_delete_Some. by eapply Hc.
  - intros k l Hk Hr. destruct (Hl k l Hk Hr) as (s' & Hs' & Hsome). exists s'. split; [|done]. apply lookup_delete_Some. split; [|done].
    intros ->. simplify_eq. rewrite Hempty in Hsome. by destruct Hsome.
Qed.

Lemma inv_users m ps ls u : sys_inv (mkSystem m ps ls) → sys_inv (mkSystem (set_users m u) ps ls).
Proof. by intros [H1 H2 H3 H4]. Qed.

(** An allocation. *)
Lemma inv_alloc m ps ls ps' st :
  sys_inv (mkSystem m ps ls) →
  (∀ heap, (∀ g state, m_groups m !! g = Some state → ref_ok heap (g_identity state) ∧ rf_ptr (g_identity state) ≠ m_allocated m) →
     heap !! m_allocated m = Some st →
     (∀ k p, ps !! k = Some p → prepared_ok heap p) → ∀ k p, ps' !! k = Some p → prepared_ok heap p) →
  sys_inv (mkSystem (mkManager (m_groups m) (m_groupUsers m) (S (m_allocated m))) ps' ls).
Proof.
  intros [(heap & Hh1 & Hh2 & Hh3) He Hc Hl] Hps. cbn [sy_manager sy_prepared sy_leases] in *.
  assert (heap !! m_allocated m = None) as Hn by (apply eq_None_not_Some; intros Hs; specialize (Hh1 _ Hs); lia).
  assert (∀ r, ref_ok heap r → ref_ok (<[m_allocated m := st]> heap) r) as Hmono.
  { intros r Hr. unfold ref_ok in *. rewrite lookup_insert_ne; [done|]. intros E. rewrite <- E in Hr. congruence. }
  split; cbn [sy_manager sy_prepared sy_leases m_groups m_allocated]; [|done..].
  exists (<[m_allocated m := st]> heap). split_and!.
  - intros k Hk. destruct (decide (k = m_allocated m)) as [->|Hne]; [lia|]. rewrite lookup_insert_ne in Hk by done. specialize (Hh1 k Hk). lia.
  - intros g state Hg. by eapply Hmono, Hh2.
  - apply Hps; [intros g state Hg; pose proof (Hh2 g state Hg) as Hr; split; [by apply Hmono|] | by rewrite lookup_insert_eq |].
    + intros Hp. unfold ref_ok in Hr. rewrite Hp in Hr. congruence.
    + intros k p Hp. destruct (Hh3 k p Hp) as (H1 & H2 & H3). split_and!; [by apply Hmono | | apply H3..].
      intros b Hb. destruct (H2 b Hb). split; [by apply Hmono | done].
Qed.

(** *** The steps *)

Lemma preparePublish_epoch s snapshot newEpoch order s' i :
  preparePublish s snapshot newEpoch order = (s', i) →
  st_nextEpoch s' = (if newEpoch then u64 (st_nextEpoch s + 1) else st_nextEpoch s) ∧
  ri_EpochID i = (if newEpoch then u64 (st_nextEpoch s + 1) else st_currentEpoch s).
Proof. unfold preparePublish. destruct (evict_retired _ _ _ _) as [[n q] lin]. intros [= <- <-]. by destruct newEpoch. Qed.

Lemma inv_prepare_epoch m ps ls g snapshot order m' p k :
  sys_inv (mkSystem m ps ls) → PrepareEpoch m g snapshot order = inr (m', p) → epoch_room m g →
  sys_inv (mkSystem m' (<[k := p]> ps) ls).
Proof.
  intros Hinv E Hroom. unfold PrepareEpoch in E. case_bool_decide; [done|]. destruct (validateIdentitySnapshot snapshot); [done|].
  set (base := match m_groups m !! g with Some _ => _ | None => _ end) in *.
  destruct (preparePublish base snapshot true order) as [next ident] eqn:Ep. injection E as <- <-.
  assert (u64 (st_nextEpoch base + 1) = st_nextEpoch base + 1) as Hu.
  { apply u64_id. unfold fits, base. destruct (m_groups m !! g) as [state|] eqn:Hg; [|cbn; lia].
    pose proof (Hroom state Hg). pose proof (sv_counter _ Hinv g state Hg). lia. }
  destruct (preparePublish_epoch _ _ _ _ _ _ Ep) as [E1 E2]. rewrite Hu in E1, E2.
  apply (inv_alloc m ps ls _ next Hinv). intros heap Hg Ha Hold k' p'. destruct (decide (k' = k)) as [->|Hne].
  - rewrite lookup_insert_eq. intros [= <-]. split; [done|]. cbn. split.
    + intros b Hb. apply fmap_Some in Hb as (state & Hst & ->). by eapply Hg.
    + split; [|done]. intros _. unfold base in *. by destruct (m_groups m !! g).
  - rewrite lookup_insert_ne by done. apply Hold.
Qed.

Lemma inv_prepare_revision m ps ls g e snapshot order m' p k :
  sys_inv (mkSystem m ps ls) → PrepareRevision m g e snapshot order = inr (m', p) → sys_inv (mkSystem m' (<[k := p]> ps) ls).
Proof.
  intros Hinv E. unfold PrepareRevision in E. destruct (validateIdentitySnapshot snapshot); [done|].
  destruct (m_groups m !! g) as [state|] eqn:Hg; [|done]. destruct (negb (st_currentEpoch _ =? e)); [done|].
  destruct (g_epochs state !! e) as [epoch|]; [|done]. destruct (negb (bool_decide _)); [done|]. destruct (_ <=? _); [done|].
  destruct (preparePublish _ snapshot false order) as [next ident] eqn:Ep. injection E as <- <-.
  destruct (preparePublish_epoch _ _ _ _ _ _ Ep) as [E1 E2].
  apply (inv_alloc m ps ls _ next Hinv). intros heap Hgr Ha Hold k' p'. destruct (decide (k' = k)) as [->|Hne].
  - rewrite lookup_insert_eq. intros [= <-]. split; [done|]. cbn. split; [intros b [= <-]; by eapply Hgr|]. done.
  - rewrite lookup_insert_ne by done. apply Hold.
Qed.

Lemma no_lease_none m ps ls g e :
  sys_inv (mkSystem m ps ls) → (∀ state, m_groups m !! g = Some state → g_epochs state !! e = None) → lease_count ls g e = 0.
Proof.
  intros Hinv Hno. apply lease_count_zero. intros k l Hk (Hg & He & Hr). cbn in Hg, He, Hr. destruct (sv_leases _ Hinv k l Hk Hr) as (state & Hs & Hsome).
  cbn [sy_manager] in Hs. rewrite Hg in Hs. rewrite (Hno state Hs) in Hsome || (rewrite He, (Hno state Hs) in Hsome). by destruct Hsome.
Qed.

Lemma inv_commit m ps ls k p m' p' r :
  sys_inv (mkSystem m ps ls) → ps !! k = Some p → Commit m p = (m', p', r) → sys_inv (mkSystem m' (<[k := p']> ps) ls).
Proof.
  intros Hinv Hp E. pose proof Hinv as [(heap & _ & Hh2 & Hh3) He Hc Hl]. cbn [sy_manager sy_prepared sy_leases] in *.
  destruct (Hh3 k p Hp) as (_ & Hbase & Hnew & Hold).
  assert (∀ a b' k' q', <[k := mark p a b']> ps !! k' = Some q' → ∃ q a b, ps !! k' = Some q ∧ q' = mark q a b) as Hps.
  { intros a b' k' q' Hq. destruct (decide (k' = k)) as [->|Hne]; [rewrite lookup_insert_eq in Hq; simplify_eq; by exists p, a, b'|].
    rewrite lookup_insert_ne in Hq by done. by apply same_prepared. }
  unfold Commit in E. destruct (pi_committed p || pi_rolledBack p); [simplify_eq; by rewrite insert_id|].
  destruct (commit_target m p) as [state|] eqn:Et; [|simplify_eq; by rewrite insert_id].
  set (g := pi_groupID p) in *. set (eid := ri_EpochID (pi_identity p)) in *.
  assert (∀ x y (s : sharedGroupState), set_groups (set_groups m (<[g := x]> (m_groups m))) (<[g := y]> (m_groups (set_groups m (<[g := x]> (m_groups m))))) =
    set_groups m (<[g := y]> (m_groups m))) as Hset by (intros x y _; unfold set_groups; cbn; by rewrite insert_insert_eq).
  (* the group before the commit *)
  assert ((m_groups m !! g = None ∧ pi_baseState p = None ∧ g_epochs state = ∅) ∨
          (m_groups m !! g = Some state ∧ ∃ b, pi_baseState p = Some b ∧ st_nextEpoch (rf_state b) = st_nextEpoch (rf_state (g_identity state)))) as Hbefore.
  { unfold commit_target in Et. fold g in Et. destruct (pi_baseState p) as [b|] eqn:Eb, (m_groups m !! g) as [st|] eqn:Eg; try done.
    - destruct (bool_decide _ && _) eqn:Ec; [|done]. apply andb_true_iff in Ec as [Ec%bool_decide_eq_true_1 _]. simplify_eq. right. split; [done|].
      exists b. split; [done|]. pose proof (Hh2 g state Eg) as R1. destruct (Hbase b eq_refl) as [R2 _]. unfold ref_ok in R1, R2. rewrite Ec in R1.
      congruence.
    - simplify_eq. by left. }
  destruct (pi_newEpoch p) eqn:En.
  - destruct (Hnew eq_refl) as [Hid Hnext]. rewrite (Hset _ _ state) in E. injection E as <- <- <-.
    assert (∀ e epoch, g_epochs state !! e = Some epoch → epoch_ok ls g (st_nextEpoch (rf_state (g_identity state))) e epoch ∧ e < eid) as Hep.
    { intros e epoch Hee. destruct Hbefore as [(_ & _ & Hempty)|(Hg & b & Hb & Hbe)]; [rewrite Hempty in Hee; done|].
      pose proof (He g state e epoch Hg Hee) as Hok. split; [done|]. destruct Hok as [? _]. rewrite Hb, Hbe in Hid. fold eid in Hid. lia. }
    assert (0 ≤ st_nextEpoch (rf_state (pi_nextState p))) as H0.
    { rewrite Hnext. destruct Hbefore as [(_ & -> & _)|(Hg & b & -> & ->)]; [lia|]. pose proof (Hc g state Hg). lia. }
    apply (inv_set_group m ps _ ls ls g (pi_nextState p)); [done | right; by exists k, p | apply Hps | done | | done |].
    + intros e epoch Hee. destruct (decide (e = eid)) as [->|Hne].
      * rewrite lookup_insert_eq in Hee. injection Hee as <-. split; [rewrite Hnext, <- Hid; done|]. split; [|done]. cbn. symmetry.
        apply (no_lease_none m ps ls g eid Hinv). intros st' Hst'. destruct Hbefore as [(Hg & _)|(Hg & _)]; [congruence|].
        assert (st' = state) as -> by congruence. destruct (g_epochs state !! eid) as [ep|] eqn:Eid; [|done]. destruct (Hep eid ep Eid). lia.
      * rewrite lookup_insert_ne in Hee by done. destruct (Hep e epoch Hee) as [(Hle & ? & ?) Hlt]. split; [|done]. rewrite Hnext, <- Hid. fold eid. lia.
    + intros k' l Hk' Hr. destruct (decide (el_groupID l = g)) as [Hlg|Hng]; [left|right; done]. split; [done|].
      destruct (Hl k' l Hk' Hr) as (st' & Hst' & Hsome). rewrite Hlg in Hst'. destruct Hbefore as [(Hg & _)|(Hg & _)]; [congruence|].
      assert (st' = state) as -> by congruence. apply lookup_insert_is_Some. destruct (decide (eid = el_epochID l)); [by left | by right].
  - destruct (Hold eq_refl) as [Hbn Hnext]. destruct Hbefore as [(_ & ? & _)|(Hg & b & Hb & Hbe)]; [done|].
    assert (set_groups m (<[g := state]> (m_groups m)) = m) as Hsame by (rewrite insert_id by done; by destruct m). rewrite Hsame in E.
    destruct (g_epochs state !! eid) as [epoch|] eqn:Eid; [|simplify_eq; by rewrite insert_id].
    destruct (negb _ || _); [simplify_eq; by rewrite insert_id|]. injection E as <- <- <-. rewrite Hb, Hbe in Hnext.
    destruct (He g state eid epoch Hg Eid) as (Hle & Hcnt & Hlife).
    apply (inv_set_group m ps _ ls ls g (pi_nextState p)); [done | right; by exists k, p | apply Hps | rewrite Hnext; by eapply Hc | | done |].
    + intros e epoch' Hee. rewrite Hnext. destruct (decide (e = eid)) as [->|Hne].
      * rewrite lookup_insert_eq in Hee. injection Hee as <-. by split_and!; cbn; [..|apply Hlife|apply Hlife].
      * rewrite lookup_insert_ne in Hee by done. by apply (He g state).
    + intros k' l Hk' Hr. destruct (decide (el_groupID l = g)) as [Hlg|Hng]; [left|right; done]. split; [done|].
      destruct (Hl k' l Hk' Hr) as (st' & Hst' & Hsome). rewrite Hlg in Hst'.
      assert (st' = state) as -> by congruence. apply lookup_insert_is_Some. destruct (decide (eid = el_epochID l)); [by left | by right].
Qed.

Lemma inv_acquire m ps ls g e m' l k :
  sys_inv (mkSystem m ps ls) → AcquireEpoch m g e = inr (m', l) → ls !! k = None → sys_inv (mkSystem m' ps (<[k := l]> ls)).
Proof.
  intros Hinv E Hk. pose proof Hinv as [_ He Hc Hl]. cbn [sy_manager sy_prepared sy_leases] in *. unfold AcquireEpoch in E.
  destruct (m_groups m !! g) as [state|] eqn:Hg; [|done]. destruct (g_epochs state !! e) as [epoch|] eqn:Hee; [|done].
  destruct (negb (bool_decide (ep_lifecycle epoch = EpochActive))) eqn:Ea; [done|].
  injection E as <- <-. unfold set_epochs. pose proof (λ g' e', lease_count_acquire ls k (mkLease g e false) g' e' Hk eq_refl) as Hcnt. cbn in Hcnt.
  apply (inv_set_group m ps ps ls _ g (g_identity state)); [done | left; by exists state | apply same_prepared | by eapply Hc | | |].
  - intros e' epoch' He'. destruct (decide (e' = e)) as [->|Hne].
    + rewrite lookup_insert_eq in He'. injection He' as <-. destruct (He g state e epoch Hg Hee) as (? & Hr & ? & ?). split_and!; [done| |done|].
      * cbn. rewrite Hcnt, decide_True by done. lia.
      * cbn. unfold lease_count in Hr. lia.
    + rewrite lookup_insert_ne in He' by done. destruct (He g state e' epoch' Hg He') as (? & Hr & ?). split; [done|]. split; [|done].
      rewrite Hcnt, decide_False by (by intros [_ ?]). lia.
  - intros g' e' Hne. rewrite Hcnt, decide_False by (by intros [? _]). lia.
  - intros k' l' Hk' Hr. destruct (decide (k' = k)) as [->|Hne].
    + rewrite lookup_insert_eq in Hk'. injection Hk' as <-. left. cbn. rewrite lookup_insert_eq. done.
    + rewrite lookup_insert_ne in Hk' by done. destruct (decide (el_groupID l' = g)) as [Hlg|Hng]; [left|by right]. split; [done|].
      destruct (Hl k' l' Hk' Hr) as (st' & Hst' & Hsome). rewrite Hlg in Hst'. assert (st' = state) as -> by congruence.
      apply lookup_insert_is_Some. destruct (decide (e = el_epochID l')); [by left | by right].
Qed.

(** An epoch without leases is removed. *)
Lemma inv_drop_epoch m ps ls ls' g state e :
  sys_inv (mkSystem m ps ls) → m_groups m !! g = Some state → lease_count ls' g e = 0 →
  (∀ g' e', (g', e') ≠ (g, e) → lease_count ls' g' e' = lease_count ls g' e') →
  (∀ k l, ls' !! k = Some l → el_released l = false → ls !! k = Some l) →
  sys_inv (mkSystem (drop_epoch m g state e) ps ls').
Proof.
  intros Hinv Hg H0 Hcnt Hls. pose proof Hinv as [_ He Hc Hl]. cbn [sy_manager sy_prepared sy_leases] in *. unfold drop_epoch, set_epochs.
  apply inv_cleanup, (inv_set_group m ps ps ls _ g (g_identity state)); [done | left; by exists state | apply same_prepared | by eapply Hc | | |].
  - intros e' epoch' [Hne He']%lookup_delete_Some. destruct (He g state e' epoch' Hg He') as (? & Hr & ?). split; [done|]. split; [|done].
    rewrite Hcnt; [done | by intros [= ?]].
  - intros g' e' Hne. apply Hcnt. by intros [= ?].
  - intros k l Hk Hr. pose proof (Hls k l Hk Hr) as Hk'. destruct (decide (el_groupID l = g)) as [Hlg|Hng]; [left|by right]. split; [done|].
    destruct (Hl k l Hk' Hr) as (st' & Hst' & Hsome). rewrite Hlg in Hst'. assert (st' = state) as -> by congruence.
    destruct (decide (el_epochID l = e)) as [Heq|Hne]; [|by rewrite lookup_delete_ne]. exfalso.
    assert (holds g e (k, l)) as Hh by done. assert (filter (holds g e) ls' !! k = Some l) as Hf by (by apply map_lookup_filter_Some).
    unfold lease_count in H0. pose proof (size_delete_Some k l _ Hf). lia.
Qed.

Lemma inv_release m ps ls k l m' l' :
  sys_inv (mkSystem m ps ls) → ls !! k = Some l → Release m l = (m', l') → sys_inv (mkSystem m' ps (<[k := l']> ls)).
Proof.
  intros Hinv Hk E. pose proof Hinv as [_ He Hc Hl]. cbn [sy_manager sy_prepared sy_leases] in *. unfold Release in E.
  destruct (el_released l) eqn:Hr; [simplify_eq; by rewrite insert_id|]. cbn [el_groupID el_epochID] in E.
  destruct (Hl k l Hk Hr) as (state & Hg & epoch & Hee). rewrite Hg, Hee in E.
  set (g := el_groupID l) in *. set (e := el_epochID l) in *. set (L := mkLease g e true) in *.
  pose proof (λ g' e', lease_count_release ls k l g' e' Hk Hr) as Hcnt. fold g e in Hcnt. fold L in Hcnt.
  destruct (He g state e epoch Hg Hee) as (Hle & Href & Hlife & Hpos).
  assert (0 < ep_refCount epoch) as Hp.
  { rewrite Href, <- (Hcnt g e), decide_True by done. unfold lease_count. lia. }
  rewrite (proj2 (Z.ltb_lt _ _)) in E by done. cbn [ep_lifecycle ep_refCount set_refCount] in E.
  assert (∀ g' e', (g', e') ≠ (g, e) → lease_count (<[k := L]> ls) g' e' = lease_count ls g' e') as Hother.
  { intros g' e' Hne. pose proof (Hcnt g' e') as Hx. rewrite decide_False in Hx by (intros [-> ->]; done). lia. }
  pose proof (Hcnt g e) as Hsame. rewrite decide_True in Hsame by done.
  assert (∀ k' x, <[k := L]> ls !! k' = Some x → el_released x = false → ls !! k' = Some x) as Hold.
  { intros k' x Hx Hrx. destruct (decide (k' = k)) as [->|Hne]; [rewrite lookup_insert_eq in Hx; injection Hx as <-; done|].
    by rewrite lookup_insert_ne in Hx. }
  destruct (bool_decide _ && _) eqn:Ed.
  - injection E as <- <-. apply andb_true_iff in Ed as [_ E0%Z.eqb_eq].
    apply (inv_drop_epoch m ps ls _ g state e Hinv Hg); [lia | exact Hother | exact Hold].
  - injection E as <- <-. unfold set_epochs.
    apply (inv_set_group m ps ps ls _ g (g_identity state)); [done | left; by exists state | apply same_prepared | by eapply Hc | | |].
    + intros e' epoch' He'. destruct (decide (e' = e)) as [->|Hne].
      * rewrite lookup_insert_eq in He'. injection He' as <-. split_and!; cbn; [done | lia | done |].
        intros Hret. rewrite bool_decide_eq_true_2 in Ed by done. cbn [andb] in Ed. apply Z.eqb_neq in Ed. lia.
      * rewrite lookup_insert_ne in He' by done. destruct (He g state e' epoch' Hg He') as (? & Hr' & ?). split; [done|]. split; [|done].
        rewrite Hother; [done | by intros [= ?]].
    + intros g' e' Hne. apply Hother. by intros [= ?].
    + intros k' x Hx Hrx. pose proof (Hold k' x Hx Hrx) as Hx'. destruct (decide (el_groupID x = g)) as [Hlg|Hng]; [left|by right]. split; [done|].
      destruct (Hl k' x Hx' Hrx) as (st' & Hst' & Hsome). rewrite Hlg in Hst'. assert (st' = state) as -> by congruence.
      apply lookup_insert_is_Some. destruct (decide (e = el_epochID x)); [by left | by right].
Qed.

Lemma inv_retire m ps ls g e : sys_inv (mkSystem m ps ls) → sys_inv (mkSystem (RetireEpoch m g e) ps ls).
Proof.
  intros Hinv. pose proof Hinv as [_ He Hc Hl]. cbn [sy_manager sy_prepared sy_leases] in *. unfold RetireEpoch.
  destruct (m_groups m !! g) as [state|] eqn:Hg; [|done]. destruct (g_epochs state !! e) as [epoch|] eqn:Hee; [|done].
  case_bool_decide; [done|]. destruct (He g state e epoch Hg Hee) as (Hle & Href & Hlife & Hpos). destruct (ep_refCount epoch =? 0) eqn:E0.
  - apply Z.eqb_eq in E0. apply (inv_drop_epoch m ps ls ls g state e Hinv Hg); [lia | done..].
  - apply Z.eqb_neq in E0. unfold set_epochs.
    apply (inv_set_group m ps ps ls ls g (g_identity state)); [done | left; by exists state | apply same_prepared | by eapply Hc | | done |].
    + intros e' epoch' He'. destruct (decide (e' = e)) as [->|Hne].
      * rewrite lookup_insert_eq in He'. injection He' as <-. split_and!; cbn; [done..|]. intros _. unfold lease_count in Href. lia.
      * rewrite lookup_insert_ne in He' by done. by apply (He g state).
    + intros k l Hk Hr. destruct (decide (el_groupID l = g)) as [Hlg|Hng]; [left|by right]. split; [done|].
      destruct (Hl k l Hk Hr) as (st' & Hst' & Hsome). rewrite Hlg in Hst'. assert (st' = state) as -> by congruence.
      apply lookup_insert_is_Some. destruct (decide (e = el_epochID l)); [by left | by right].
Qed.

Lemma restore_lineage_counters slot revision s used items s' :
  restore_lineage slot revision s used items = inr s' →
  st_nextEpoch s' = st_nextEpoch s ∧ st_nextRevision s' = st_nextRevision s ∧ st_nextSlot s' = st_nextSlot s ∧
  st_currentEpoch s' = st_currentEpoch s ∧ st_retiredHead s' = st_retiredHead s ∧ st_maxRetired s' = st_maxRetired s.
Proof.
  revert s used. induction items as [|item items IH]; intros s used H; cbn [restore_lineage] in H; [by simplify_eq|].
  destruct (_ || (revision <? _)); [done|]. case_bool_decide; [done|]. case_bool_decide; [done|].
  destruct (pl_PresentInLatest item); [by apply IH in H|]. destruct (_ <=? _)%nat; [done|]. by apply IH in H.
Qed.

Lemma restored_counters p s : restoreStableIdentityState p = inr s →
  st_nextEpoch s = ps_NextEpoch p ∧ st_nextRevision s = ps_NextRevision p ∧ st_nextSlot s = ps_NextSlot p ∧ st_currentEpoch s = ps_NextEpoch p.
Proof.
  unfold restoreStableIdentityState. destruct (_ || _); [done|]. intros H. by destruct (restore_lineage_counters _ _ _ _ _ _ H) as (-> & -> & -> & -> & _).
Qed.

Lemma inv_restore m ps ls g persisted m' err :
  (∀ p, persisted = Some p → 0 ≤ ps_NextEpoch p) → sys_inv (mkSystem m ps ls) → RestorePersistence m g persisted = (m', err) →
  sys_inv (mkSystem m' ps ls).
Proof.
  intros Hpos Hinv E. unfold RestorePersistence in E. destruct persisted as [p|]; [|by simplify_eq]. case_bool_decide; [by simplify_eq|].
  case_bool_decide as Hg; [by simplify_eq|]. destruct (restoreStableIdentityState p) as [e|s] eqn:Er; [by simplify_eq|]. simplify_eq.
  apply eq_None_not_Some in Hg. destruct (restored_counters _ _ Er) as (Hep & _). specialize (Hpos p eq_refl).
  destruct Hinv as [(heap & Hh1 & Hh2 & Hh3) He Hc Hl]. cbn [sy_manager sy_prepared sy_leases] in *.
  assert (∀ r, ref_ok heap r → ref_ok (<[m_allocated m := s]> heap) r) as Hmono.
  { intros r Hr. unfold ref_ok in *. rewrite lookup_insert_ne; [done|]. intros E. rewrite <- E in Hr. specialize (Hh1 (m_allocated m) (mk_is_Some _ _ Hr)). lia. }
  split; cbn [sy_manager sy_prepared sy_leases m_groups m_allocated].
  - exists (<[m_allocated m := s]> heap). split_and!.
    + intros k Hk. destruct (decide (k = m_allocated m)) as [->|Hne]; [lia|]. rewrite lookup_insert_ne in Hk by done. specialize (Hh1 k Hk). lia.
    + intros g' state Hg'. destruct (decide (g' = g)) as [->|Hne].
      * rewrite lookup_insert_eq in Hg'. simplify_eq. unfold ref_ok. cbn. by rewrite lookup_insert_eq.
      * rewrite lookup_insert_ne in Hg' by done. by eapply Hmono, Hh2.
    + intros k q Hq. destruct (Hh3 k q Hq) as (H1 & H2 & H3). split_and!; [by apply Hmono | | apply H3..].
      intros b Hb. destruct (H2 b Hb). split; [by apply Hmono | done].
  - intros g' state e epoch Hg' Hee. destruct (decide (g' = g)) as [->|Hne].
    + rewrite lookup_insert_eq in Hg'. simplify_eq.
    + rewrite lookup_insert_ne in Hg' by done. by apply He.
  - intros g' state Hg'. destruct (decide (g' = g)) as [->|Hne].
    + rewrite lookup_insert_eq in Hg'. simplify_eq. cbn. lia.
    + rewrite lookup_insert_ne in Hg' by done. by eapply Hc.
  - intros k l Hk Hr. destruct (Hl k l Hk Hr) as (state & Hs & Hsome). exists state. rewrite lookup_insert_ne; [done|]. intros Heq. congruence.
Qed.

Lemma sys_inv_reachable s : sys_reachable s → sys_inv s.
Proof.
  induction 1 as [|s s' _ IH Hstep].
  - split; cbn; [|done..]. exists ∅. split_and!; [|done..]. intros k [x Hx]. by rewrite lookup_empty in Hx.
  - destruct Hstep.
    + unfold RegisterGroup. case_bool_decide; [done | by apply inv_users].
    + unfold UnregisterGroup. case_bool_decide; [done|]. destruct (1 <? users m g); [by apply inv_users | by apply inv_cleanup, inv_users].
    + by eapply inv_restore.
    + by eapply inv_prepare_epoch.
    + by eapply inv_prepare_revision.
    + by eapply inv_commit.
    + by eapply inv_acquire.
    + by eapply inv_release.
    + by apply inv_retire.
Qed.

(** C22. The reference count of an epoch is the number of its leases: in every state
    reached without a rollback, an epoch with a lease that is not released is in
    the table of its group, so that its evidence is still judged, and an epoch
    that was retired is there only as long as such a lease is. *)
Theorem epoch_leases_counted s :
  sys_reachable s →
  (∀ k l, sy_leases s !! k = Some l → el_released l = false → ∃ state epoch,
     m_groups (sy_manager s) !! el_groupID l = Some state ∧ g_epochs state !! el_epochID l = Some epoch ∧ 0 < ep_refCount epoch) ∧
  (∀ g state e epoch, m_groups (sy_manager s) !! g = Some state → g_epochs state !! e = Some epoch →
     ep_refCount epoch = lease_count (sy_leases s) g e ∧
     (ep_lifecycle epoch = EpochActive ∨ (ep_lifecycle epoch = EpochRetiring ∧ 0 < lease_count (sy_leases s) g e))).
Proof.
  intros Hr. destruct (sys_inv_reachable s Hr) as [_ He _ Hl]. split.
  - intros k l Hk Hrel. destruct (Hl k l Hk Hrel) as (state & Hg & epoch & Hee). exists state, epoch. split_and!; [done..|].
    destruct (He _ state _ epoch Hg Hee) as (_ & -> & _). unfold lease_count.
    assert (filter (holds (el_groupID l) (el_epochID l)) (sy_leases s) !! k = Some l) as Hf by (apply map_lookup_filter_Some; split; [done | by split_and!]).
    pose proof (size_delete_Some k l _ Hf). lia.
  - intros g state e epoch Hg Hee. destruct (He g state e epoch Hg Hee) as (_ & Hc & Hn & Hp). split; [done|].
    destruct (ep_lifecycle epoch) eqn:El; [by left | right; split; [done|]; rewrite <- Hc; by apply Hp | done].
Qed.

(** Publications are serialized: of two transactions prepared on the same
    identity of a group, at most one commits; the other one finds its base gone,
    reports it and changes nothing. *)
Theorem one_commit_per_base s k1 p1 p2 m1 p1' i1 b :
  sys_reachable s → sy_prepared s !! k1 = Some p1 → pi_groupID p1 = pi_groupID p2 → pi_baseState p1 = Some b → pi_baseState p2 = Some b →
  Commit (sy_manager s) p1 = (m1, p1', inr i1) →
  ∃ err, Commit m1 p2 = (m1, p2, inl err).
Proof.
  intros Hreach Hp1 Hg Hb1 Hb2 E. destruct (sys_inv_reachable s Hreach) as [(heap & _ & _ & Hh3) _ _ _].
  destruct (Hh3 k1 p1 Hp1) as (_ & Hbase & _). destruct (Hbase b Hb1) as [_ Hne].
  unfold Commit in E. destruct (pi_committed p1 || pi_rolledBack p1); [done|]. destruct (commit_target _ p1) as [state|] eqn:Et; [|done].
  assert (∃ E', m_groups m1 !! pi_groupID p2 = Some (mkGroup (pi_nextState p1) E')) as [E' Hm1].
  { destruct (pi_newEpoch p1); [injection E as <- _ _; cbn; rewrite <- Hg, lookup_insert_eq; eauto|].
    destruct (g_epochs state !! _) as [epoch|]; [|done]. destruct (negb _ || _); [done|]. injection E as <- _ _. cbn.
    rewrite <- Hg, lookup_insert_eq. eauto. }
  unfold Commit. destruct (pi_committed p2 || pi_rolledBack p2); [eauto|]. unfold commit_target. rewrite Hb2, Hm1. cbn [g_identity].
  rewrite bool_decide_eq_false_2 by done. cbn [andb]. eauto.
Qed.

(** ** Persistence *)

Definition item_ok (slot revision : Z) (item : persistedIdentityLineage) : Prop :=
  pl_NodeID item ≠ 0 ∧ handle_ok slot revision (pl_NodeID item) (pl_Handle item).

Abbreviation item_id := (map pl_NodeID).
Abbreviation item_slot := (map (λ x, h_Slot (pl_Handle x))).

Definition absent (item : persistedIdentityLineage) : Prop := pl_PresentInLatest item = false.
#[global] Instance absent_dec item : Decision (absent item).
Proof. unfold absent. apply _. Defined.

(** Valid items with distinct ids and slots are all taken, as long as those that
    left do not exceed the bound. *)
Lemma restore_lineage_all slot revision s used items :
  Forall (item_ok slot revision) items → NoDup (item_id items) → NoDup (item_slot items) →
  (∀ id, id ∈ item_id items → st_lineage s !! id = None) → (∀ x, x ∈ item_slot items → x ∉ used) →
  (length (st_retired s) + length (filter absent items) ≤ st_maxRetired s)%nat →
  ∃ s', restore_lineage slot revision s used items = inr s' ∧
    (∀ item, item ∈ items → st_lineage s' !! pl_NodeID item = Some (mkLineage (pl_Handle item) (pl_PresentInLatest item))) ∧
    (∀ id, id ∉ item_id items → st_lineage s' !! id = st_lineage s !! id).
Proof.
  intros Hok. revert s used. induction Hok as [|item items [Hid (Hn & Hs & Hv & Hb)] Hok IH]; intros s used Hnd Hnds Hfresh Hused Hmax; cbn [restore_lineage map] in *.
  - exists s. split_and!; [done | by intros ? ?%not_elem_of_nil | done].
  - apply NoDup_cons in Hnd as [Hnew Hnd]. apply NoDup_cons in Hnds as [Hnews Hnds].
    assert (is_empty_id (pl_NodeID item) || negb (h_NodeID (pl_Handle item) =? pl_NodeID item) || (h_Slot (pl_Handle item) =? 0) ||
      (slot <? h_Slot (pl_Handle item)) || (h_Version (pl_Handle item) =? 0) || (h_BornRevision (pl_Handle item) =? 0) ||
      (revision <? h_BornRevision (pl_Handle item)) = false) as ->.
    { unfold is_empty_id. rewrite !orb_false_iff, negb_false_iff, Z.eqb_eq, !Z.eqb_neq, !Z.ltb_ge. lia. }
    rewrite bool_decide_eq_false_2 by (rewrite Hfresh by (by left); by intros [? ?]).
    rewrite bool_decide_eq_false_2 by (apply Hused; by left).
    assert (∀ st, st_lineage st = <[pl_NodeID item := mkLineage (pl_Handle item) (pl_PresentInLatest item)]> (st_lineage s) →
      (length (st_retired st) + length (filter absent items) ≤ st_maxRetired st)%nat →
      ∃ s', restore_lineage slot revision st ({[h_Slot (pl_Handle item)]} ∪ used) items = inr s' ∧
        (∀ x, x ∈ item :: items → st_lineage s' !! pl_NodeID x = Some (mkLineage (pl_Handle x) (pl_PresentInLatest x))) ∧
        (∀ id, id ∉ pl_NodeID item :: item_id items → st_lineage s' !! id = st_lineage s !! id)) as Hgo.
    { intros st Hst Hm. destruct (IH st ({[h_Slot (pl_Handle item)]} ∪ used) Hnd Hnds) as (s' & -> & Hin & Hout); [| |done|].
      - intros id Hin. rewrite Hst, lookup_insert_ne; [apply Hfresh; by right|]. intros <-. done.
      - intros x Hx. rewrite elem_of_union, elem_of_singleton. intros [->|Hu]; [done|]. by apply (Hused x); [right|].
      - exists s'. split_and!; [done| |].
        + intros x [->|Hx]%elem_of_cons; [|by apply Hin]. rewrite Hout by done. rewrite Hst. by rewrite lookup_insert_eq.
        + intros id [Hne Hni]%not_elem_of_cons. rewrite Hout by done. by rewrite Hst, lookup_insert_ne. }
    rewrite filter_cons in Hmax. destruct (pl_PresentInLatest item) eqn:Ep.
    + rewrite decide_False in Hmax by (unfold absent; congruence). apply Hgo; [done | exact Hmax].
    + rewrite decide_True in Hmax by done. simpl in Hmax. rewrite (proj2 (Nat.leb_gt _ _)) by lia. apply Hgo; [done|].
      cbn. rewrite length_app. simpl. lia.
Qed.

Lemma NoDup_filtered (items : list persistedIdentityLineage) : NoDup (item_id items) → NoDup (item_id (filter absent items)).
Proof.
  induction items as [|item items IH]; [done|]. cbn [map]. intros [Hn Hnd]%NoDup_cons. rewrite filter_cons. case_decide; [|by apply IH].
  cbn [map]. apply NoDup_cons. split; [|by apply IH]. intros (x & Ex & [_ Hx]%list_elem_of_filter)%list_elem_of_fmap.
  apply Hn, list_elem_of_fmap. by exists x.
Qed.

(** The nodes that left are in the queue, so that there are no more of them. *)
Lemma absent_bounded s order :
  state_ok s → range_of (st_lineage s) order → (length (filter absent (map to_item order)) ≤ st_maxRetired s)%nat.
Proof.
  intros Hs Hord. etransitivity; [|apply (so_bound _ Hs)].
  assert (NoDup (item_id (filter absent (map to_item order)))) as Hnd.
  { apply NoDup_filtered. rewrite map_map. cbn. rewrite (map_ext _ fst) by done. rewrite Hord. apply NoDup_fst_map_to_list. }
  rewrite <- (length_map pl_NodeID), <- (length_map rt_nodeID). apply submseteq_length, NoDup_submseteq; [done|].
  intros id (item & -> & [Ha Hin]%list_elem_of_filter)%list_elem_of_fmap. apply list_elem_of_fmap in Hin as ([id l] & -> & Hin).
  apply (range_of_lookup _ _ _ _ Hord) in Hin. destruct (so_queue _ Hs id l Hin Ha) as (r & _ & Hq).
  apply list_elem_of_fmap. by exists (mkRetired id r).
Qed.

(** What is persisted of an identity restores it: the counters and every node
    with its handle come back, so that no handle given out before a restart is
    given out to another node after it. *)
Theorem identity_round_trip s order :
  state_ok s → range_of (st_lineage s) order → st_maxRetired s = maxRetired → st_lineage s !! 0 = None →
  st_nextEpoch s ≠ 0 → st_nextRevision s ≠ 0 → Z.of_nat (size (st_lineage s)) ≤ 2 ^ 20 →
  ∃ s', restoreStableIdentityState (persisted_of s order) = inr s' ∧ st_lineage s' = st_lineage s ∧
    st_nextEpoch s' = st_nextEpoch s ∧ st_nextRevision s' = st_nextRevision s ∧ st_nextSlot s' = st_nextSlot s ∧ st_currentEpoch s' = st_nextEpoch s.
Proof.
  intros Hs Hord Hmax H0 He Hr Hsize. set (items := merge_sort id_le (map to_item order)).
  assert (items ≡ₚ map to_item order) as Hperm by (apply merge_sort_Permutation).
  assert (∀ item, item ∈ items ↔ ∃ id l, item = to_item (id, l) ∧ st_lineage s !! id = Some l) as Hitem. by (intros; by apply persisted_items).
  assert (length items = size (st_lineage s)) as Hlen.
  { rewrite Hperm, length_map, Hord. unfold size, map_size. by rewrite length_map_to_list || done. }
  assert (NoDup (order.*1)) as Hnd by (rewrite Hord; apply NoDup_fst_map_to_list).
  assert (∀ x y, x ∈ order → y ∈ order → h_Slot (ln_handle x.2) = h_Slot (ln_handle y.2) → x = y) as Hinj.
  { intros [i li] [j lj] Hi Hj Es. apply (range_of_lookup _ _ _ _ Hord) in Hi, Hj. assert (i = j) as -> by (by eapply (so_inj _ Hs)).
    rewrite Hi in Hj. by injection Hj as <-. }
  destruct (restore_lineage_all (st_nextSlot s) (st_nextRevision s)
    (mkState (st_nextEpoch s) (st_nextRevision s) (st_nextSlot s) (st_nextEpoch s) ∅ [] 0 ∅ maxRetired) ∅ items) as (s' & E & Hin & Hout).
  - apply list.Forall_forall. intros item (id & l & -> & Hl)%Hitem. split; [|by apply (so_handle _ Hs)].
    cbn. intros ->. discriminate (eq_trans (eq_sym H0) Hl).
  - rewrite Hperm, map_map. cbn. by rewrite (map_ext _ fst).
  - rewrite Hperm, map_map. cbn. clear - Hinj Hnd. induction order as [|x order IH]; cbn in *; [constructor|].
    apply NoDup_cons in Hnd as [Hn Hnd]. apply NoDup_cons. split.
    + intros (y & Es & Hy)%list_elem_of_fmap. assert (x = y) as -> by (apply Hinj; [by left | by right | done]). apply Hn. apply list_elem_of_fmap. by exists y.
    + apply IH; [done|]. intros a b Ha Hb. apply Hinj; by right.
  - intros id _. apply lookup_empty.
  - done.
  - cbn. rewrite <- Hmax. etransitivity; [|apply (absent_bounded s order Hs Hord)]. by rewrite Hperm.
  - destruct (restore_lineage_counters _ _ _ _ _ _ E) as (C1 & C2 & C3 & C4 & _). cbn in *. exists s'. split_and!; [|apply map_eq|done..].
    + unfold restoreStableIdentityState, persisted_of. cbn [ps_NextEpoch ps_NextRevision ps_NextSlot ps_Lineage].
      change (map _ order) with (map to_item order). fold items. rewrite (proj2 (Z.eqb_neq _ _)), (proj2 (Z.eqb_neq _ _)) by done. cbn [orb].
      rewrite (proj2 (Z.ltb_ge _ _)) by lia. exact E.
    + intros id. destruct (st_lineage s !! id) as [l|] eqn:Hl.
      * assert (to_item (id, l) ∈ items) as Hi by (apply Hitem; eauto). etransitivity; [apply (Hin _ Hi)|]. by destruct l.
      * rewrite Hout; [apply lookup_empty|]. intros (item & -> & (id' & l' & -> & Hl')%Hitem)%list_elem_of_fmap. cbn in Hl. congruence.
Qed.

(** ** Concrete runs *)

(** The range of an example: the entries of the map in its own order. *)
Definition in_order : range_order := map_to_list.

Lemma in_order_visits : visits_all in_order.
Proof. intros m. unfold range_of. reflexivity. Qed.

Definition get_ok {A} (d : A) (r : string + A) : A := match r with inr x => x | inl _ => d end.

(** Prepares on a manager and commits. *)
Definition dummy_prepared : PreparedIdentity :=
  mkPrepared "" 0 None (mkRef 0 newStableIdentityState) (mkIdentity 0 0 0 ∅ [] []) true false false None.
Definition prepared_epoch (m : RuntimeManager) (g : string) (generation : Z) (nodes : list IdentityNode) : RuntimeManager * PreparedIdentity :=
  get_ok (m, dummy_prepared) (PrepareEpoch m g (mkSnapshot generation nodes) in_order).
Definition prepared_revision (m : RuntimeManager) (g : string) (e generation : Z) (nodes : list IdentityNode) : RuntimeManager * PreparedIdentity :=
  get_ok (m, dummy_prepared) (PrepareRevision m g e (mkSnapshot generation nodes) in_order).

(** A group "g" whose epoch 1 publishes the node 7. *)
Definition published : RuntimeManager :=
  let '(m, p) := prepared_epoch (RegisterGroup NewRuntimeManager "g") "g" 1 [mkNode 7 true] in (Commit m p).1.1.

Example published_handle :
  (λ s, (ep_handles <$> g_epochs s !! 1, st_currentEpoch (rf_state (g_identity s)))) <$> m_groups published !! "g"%string =
  Some (Some {[7 := mkHandle 7 1 1 1]}, 1).
Proof. vm_compute. reflexivity. Qed.

(** A revision that cannot be made durable: a connection takes a lease after the
    revision was prepared and before it is rolled back. *)
Definition forgetful_run : RuntimeManager * EpochLease :=
  let '(m, p) := prepared_revision published "g" 1 2 [mkNode 7 true; mkNode 8 true] in
  let '(m, l) := get_ok (m, mkLease "" 0 true) (AcquireEpoch m "g" 1) in
  let '(m, p, _) := Commit m p in
  let '(m, _, _) := Rollback m p in
  (m, l).

(** The rollback of a revision restores the reference count of the time when the
    revision was prepared: a lease taken in between is forgotten, so that retiring
    the epoch drops it at once and what the lease observed is rejected, though the
    lease was not released; without the rollback it is accepted. *)
Theorem rollback_forgets_lease :
  let '(m, l) := forgetful_run in
  el_released l = false ∧
  (λ s, ep_refCount <$> g_epochs s !! 1) <$> m_groups m !! "g"%string = Some (Some 0) ∧
  ValidateEvidence m l 1 1 1 (mkHandle 7 1 1 1) = true ∧
  ValidateEvidence (RetireEpoch m "g" 1) l 1 1 1 (mkHandle 7 1 1 1) = false ∧
  (let '(m', l') := get_ok (published, l) (AcquireEpoch published "g" 1) in
   ValidateEvidence (RetireEpoch m' "g" 1) l' 1 1 1 (mkHandle 7 1 1 1) = true).
Proof. vm_compute. repeat split; reflexivity. Qed.

(** The rollback of an epoch that a connection has leased, and the next epoch. *)
Definition reusing_run : RuntimeManager * EpochLease :=
  let '(m, p) := prepared_epoch published "g" 2 [mkNode 7 true; mkNode 8 true] in
  let '(m, p, _) := Commit m p in
  let '(m, l) := get_ok (m, mkLease "" 0 true) (AcquireEpoch m "g" 2) in
  let '(m, _, _) := Rollback m p in
  let '(m, p) := prepared_epoch m "g" 3 [mkNode 7 true; mkNode 9 true] in
  ((Commit m p).1.1, l).

(** The rollback of an epoch also takes back the counters: the next epoch gets the
    same number and gives the same slot and version to another node, and the lease
    of the epoch that was rolled back speaks for the new one. *)
Theorem rollback_reuses_epoch :
  let '(m, l) := reusing_run in
  el_epochID l = 2 ∧ el_released l = false ∧
  (λ s, ep_handles <$> g_epochs s !! 2) <$> m_groups m !! "g"%string = Some (Some {[7 := mkHandle 7 1 1 1; 9 := mkHandle 9 2 1 2]}) ∧
  ValidateEvidence m l 2 2 3 (mkHandle 9 2 1 2) = true.
Proof. vm_compute. repeat split; reflexivity. Qed.

(** *** The theorems at concrete states *)

Lemma new_state_ok : state_ok newStableIdentityState.
Proof. split; cbn; try lia; try done; intros ? ? ?%lookup_empty_Some; done. Qed.

Definition room_check (s : stableIdentityState) (snapshot : IdentitySnapshot) : bool :=
  (st_nextRevision s + 1 <? 2 ^ 64) && (st_nextSlot s + Z.of_nat (length (is_Nodes snapshot)) <? 2 ^ 64) &&
  forallb (λ x, h_Version (ln_handle x.2) + 1 <? 2 ^ 64) (map_to_list (st_lineage s)).

Lemma room_checked s snapshot : room_check s snapshot = true → room s snapshot.
Proof.
  unfold room_check. rewrite !andb_true_iff, !Z.ltb_lt, forallb_forall. intros [[? ?] Hv]. split_and!; [done..|].
  intros id l Hl. apply Z.ltb_lt, (Hv (id, l)), list_elem_of_In, elem_of_map_to_list, Hl.
Qed.

Lemma run_more s dead snapshot newEpoch :
  lineage_run s dead → validateIdentitySnapshot snapshot = None → room_check s snapshot = true →
  lineage_run (preparePublish s snapshot newEpoch in_order).1 (dead ++ ri_RetiredHandles (preparePublish s snapshot newEpoch in_order).2).
Proof.
  intros Hrun Hv Hroom. eapply run_publish; [done | done | by apply room_checked | apply in_order_visits|]. apply surjective_pairing.
Qed.

(** The nodes 7 and 8; then 7 alone, with an identity that is not stable. *)
Definition state1 : stableIdentityState := (preparePublish newStableIdentityState (mkSnapshot 1 [mkNode 7 true; mkNode 8 true]) true in_order).1.
Definition state2 : stableIdentityState := (preparePublish state1 (mkSnapshot 2 [mkNode 7 false]) false in_order).1.
Definition dead2 : list NodeHandle := [mkHandle 7 1 1 1; mkHandle 8 2 1 1].

Lemma run2 : lineage_run state2 dead2.
Proof.
  refine (run_more state1 [] (mkSnapshot 2 [mkNode 7 false]) false _ _ _); [|vm_compute; reflexivity..].
  refine (run_more newStableIdentityState [] (mkSnapshot 1 [mkNode 7 true; mkNode 8 true]) true (run_start _ new_state_ok) _ _); vm_compute; reflexivity.
Qed.

Definition back : IdentitySnapshot := mkSnapshot 3 [mkNode 7 true; mkNode 8 true].

(** The node 8 comes back: it gets its slot with a new version. *)
Lemma handle_never_reused_witness :
  ri_Handles (preparePublish state2 back false in_order).2 =
    {[7 := mkHandle 7 1 2 2; 8 := mkHandle 8 2 2 3]} ∧
  ∀ h', h' ∈ dead2 → (2, 2) ≠ (h_Slot h', h_Version h').
Proof.
  split; [vm_compute; reflexivity|]. intros h' Hin.
  refine (proj1 (handle_never_reused state2 dead2 back false in_order _ _ run2 eq_refl
    (room_checked state2 back eq_refl) in_order_visits (surjective_pairing _)) 8 (mkHandle 8 2 2 3) h' _ _); [vm_compute; reflexivity|].
  apply elem_of_app. by left.
Defined.

Definition other_node : IdentitySnapshot := mkSnapshot 3 [mkNode 9 true].

Lemma lineage_bounded_witness :
  (size (st_lineage (preparePublish state2 other_node false in_order).1) ≤ 1 + maxRetired)%nat.
Proof.
  exact (lineage_bounded state2 dead2 other_node false in_order _ _ run2 eq_refl
    (room_checked state2 other_node eq_refl) in_order_visits (surjective_pairing _)).
Defined.

(** The manager after both publications, with a lease of its epoch. *)
Definition twice : RuntimeManager * EpochLease :=
  let '(m, p) := prepared_epoch (RegisterGroup NewRuntimeManager "g") "g" 1 [mkNode 7 true; mkNode 8 true] in
  let m := (Commit m p).1.1 in
  let '(m, p) := prepared_revision m "g" 1 2 [mkNode 7 false] in
  get_ok (m, mkLease "" 0 true) (AcquireEpoch (Commit m p).1.1 "g" 1).

Lemma retired_evidence_rejected_witness :
  ValidateEvidence twice.1 twice.2 1 1 1 (mkHandle 7 1 1 1) = false ∧ ValidateEvidence twice.1 twice.2 1 2 2 (mkHandle 7 1 2 2) = true.
Proof.
  split; [|vm_compute; reflexivity].
  refine (retired_evidence_rejected twice.1 twice.2 (mkGroup (mkRef 1 state2) {[1 := mkEpoch EpochActive 2 2 1 {[7 := mkHandle 7 1 2 2]}]}) dead2 1 1 1
    (mkHandle 7 1 1 1) (mkHandle 7 1 1 1) _ run2 _ eq_refl); [vm_compute; reflexivity | by left].
Defined.

(** The identity of [state2], saved and loaded. *)
Lemma identity_round_trip_witness :
  ∃ s', restoreStableIdentityState (persisted_of state2 (map_to_list (st_lineage state2))) = inr s' ∧ st_lineage s' = st_lineage state2.
Proof.
  destruct (identity_round_trip state2 (map_to_list (st_lineage state2)) (proj1 (lineage_run_ok _ _ run2))) as (s' & E & Hl & _);
    [unfold range_of; reflexivity | reflexivity | reflexivity | vm_compute; discriminate | vm_compute; discriminate | vm_compute; discriminate|].
  exists s'. split; [exact E | exact Hl].
Defined.

(** The system after an epoch was published and leased, with two revisions of it
    prepared. *)
Definition wm1 : RuntimeManager := RegisterGroup NewRuntimeManager "g".
Definition we : RuntimeManager * PreparedIdentity := prepared_epoch wm1 "g" 1 [mkNode 7 true].
Definition wc : RuntimeManager * PreparedIdentity := (Commit we.1 we.2).1.
Definition wl : RuntimeManager * EpochLease := get_ok (wc.1, mkLease "" 0 true) (AcquireEpoch wc.1 "g" 1).
Definition wr1 : RuntimeManager * PreparedIdentity := prepared_revision wl.1 "g" 1 2 [mkNode 7 false].
Definition wr2 : RuntimeManager * PreparedIdentity := prepared_revision wr1.1 "g" 1 3 [mkNode 8 true].

Definition wsystem : system := mkSystem wr2.1 (<[2%nat := wr2.2]> (<[1%nat := wr1.2]> (<[0%nat := wc.2]> (<[0%nat := we.2]> ∅)))) (<[0%nat := wl.2]> ∅).

Lemma wsystem_reachable : sys_reachable wsystem.
Proof.
  eapply sys_next; [|eapply (sy_prepare_revision wr1.1 _ _ "g" 1 (mkSnapshot 3 [mkNode 8 true]) in_order); [vm_compute; reflexivity | reflexivity]].
  eapply sys_next; [|eapply (sy_prepare_revision wl.1 _ _ "g" 1 (mkSnapshot 2 [mkNode 7 false]) in_order); [vm_compute; reflexivity | reflexivity]].
  eapply sys_next; [|eapply (sy_acquire wc.1 _ _ "g" 1); [vm_compute; reflexivity | reflexivity]].
  eapply sys_next; [|eapply (sy_commit we.1 _ _ 0 we.2); [apply lookup_insert_eq | vm_compute; reflexivity]].
  eapply sys_next; [|eapply (sy_prepare_epoch wm1 _ _ "g" (mkSnapshot 1 [mkNode 7 true]) in_order); [vm_compute; reflexivity | | reflexivity]].
  - eapply sys_next; [apply sys_init | apply sy_register].
  - intros state Hg. vm_compute in Hg. discriminate.
Qed.

Lemma epoch_leases_counted_witness :
  ∃ state epoch, m_groups wr2.1 !! "g"%string = Some state ∧ g_epochs state !! 1 = Some epoch ∧ 0 < ep_refCount epoch.
Proof.
  exact (proj1 (epoch_leases_counted wsystem wsystem_reachable) 0%nat wl.2 eq_refl eq_refl).
Defined.

(** Of the two revisions, the first one commits and the second one is stale. *)
Lemma one_commit_per_base_witness :
  ∃ err, Commit (Commit wr2.1 wr1.2).1.1 wr2.2 = ((Commit wr2.1 wr1.2).1.1, wr2.2, inl err).
Proof.
  refine (one_commit_per_base wsystem 1%nat wr1.2 wr2.2 (Commit wr2.1 wr1.2).1.1 (Commit wr2.1 wr1.2).1.2 (pi_identity wr1.2)
    (mkRef 0 (rf_state (pi_nextState we.2))) wsystem_reachable eq_refl eq_refl _ _ _); vm_compute; reflexivity.
Defined.
