(* ===== verification/SmartObserved.v ===== *)
(** * Observed connections of the smart group

    [src/protocol/group/smart.go]: the wrappers that turn what a stream or a packet
    connection does into evidence about its node.  A stream waits for a response to
    what was written, at most [stallTimeout]; a packet flow expects a response after
    a number of packets.  Both keep a timer with a generation under a mutex
    ([watchdog]); reads, writes, closes and timers run in goroutines of their own,
    which here are threads of indivisible actions: an atomic operation, a section
    under the mutex, or the body of a [sync.Once] that has no waiting in it. *)

From Stdlib Require Import ZArith Lia Ascii String.
From S2P Require Import Prelude.
From stdpp Require Import base gmap sets list strings numbers.

Local Open Scope Z_scope.

(** ** Classification of errors *)

(** The values that the code compares errors with by [errors.Is]. *)
Inductive sentinel : Type :=
| EOF | ErrClosed | Canceled | DeadlineExceeded | OsDeadlineExceeded
| ECONNRESET | ECONNABORTED | ECONNREFUSED | EPIPE | ETIMEDOUT | ENETUNREACH | EHOSTUNREACH.

#[global] Instance sentinel_eq_dec : EqDecision sentinel.
Proof. solve_decision. Defined.

(** An error: the sentinels in its chain, whether it is a [net.Error] that timed
    out, and its text (in ASCII). *)
Record go_error : Type := mkError { er_chain : list sentinel; er_timeout : bool; er_text : string }.

Definition errors_Is (e : go_error) (s : sentinel) : bool := bool_decide (s ∈ er_chain e).

Definition lower_ascii (c : ascii) : ascii :=
  let n := N_of_ascii c in if ((65 <=? n) && (n <=? 90))%N then ascii_of_N (n + 32) else c.
Fixpoint ToLower (s : string) : string :=
  match s with EmptyString => EmptyString | String c s => String (lower_ascii c) (ToLower s) end.

Fixpoint has_prefix (p s : string) : bool :=
  match p, s with
  | EmptyString, _ => true
  | String a p, String b s => bool_decide (a = b) && has_prefix p s
  | String _ _, EmptyString => false
  end.
Fixpoint Contains (s sub : string) : bool :=
  has_prefix sub s || match s with EmptyString => false | String _ s => Contains s sub end.

Definition markers : list string :=
  ["unknown version:"; "unknown version "; "unknown protobuf message header";
   "unknown command:"; "unknown command "; "unknown uuid:";
   "unknown flow:"; "flow mismatch"; "bad response header";
   "bad length chunk"; "bad session status"; "bad network:";
   "bad packet connection"; "bad header type"; "bad client session id";
   "bad request salt"; "bad timestamp"; "bad request:";
   "vmess: invalid chunk checksum"; "vmess: unsupported security type"; "vision: not a valid supported tls connection";
   "bad request size"; "snell: bad header"; "salt not unique";
   "server session changed more than once during the last minute"; "shadowsocks: unsupported method"; "authentication:";
   "authentication timeout"; "unsupported stream command"; "invalid dissociate message";
   "invalid message"; "unsupported client version"; "authentication failed, auth_str=";
   "unknown session id:"; "udp disabled by server"; "udp session id duplicated";
   "unknown socks version:"; "socks5: incorrect user name or password"; "socks5: unsupported auth method:";
   "socks4: authentication failed"; "socks5: authentication failed"; "socks4: udp unsupported";
   "socks4: unsupported command"; "socks5: unsupported command"; "http: authentication failed";
   "snell: reserved header"; "snell: unsupported command"; "snell: bad user key";
   "snell: invalid udp tunnel request"; "snell: duplicated salt"; "snell: server error ";
   "ssh: handshake failed"; "ssh: unable to authenticate"; "ssh: host key mismatch";
   "ssh: no common algorithm"; "ssh: no authentication methods"; "host key mismatch";
   "no shared cipher"; "cipher negotiation failed with peer"; "negotiated cipher not allowed";
   "unsupported openvpn protocol"; "invalid tls control packet"; "invalid tls-crypt packet";
   "invalid tls-auth packet"; "invalid tls-crypt-v2 packet"; "invalid tls-crypt-v2 wrapped key";
   "missing tls-crypt-v2 wrapped client key"; "peer wants tls-crypt-v2 but no server key is present"; "tls-crypt-v2 client key authentication failed";
   "invalid tls data packet"; "invalid tls data packet hmac"; "replayed tls data packet";
   "invalid tls stream data packet hmac"; "replayed tls stream data packet"; "invalid gcm ciphertext";
   "invalid gcm payload"; "replayed gcm packet"; "invalid static key payload";
   "invalid static key payload hmac"; "replayed static key data packet"; "invalid static key packet id";
   "invalid openvpn push reply fields"; "invalid openconnect authentication response"; "invalid openconnect browser authentication result";
   "protocol behavior is not supported"; "invalid cstp packet header"; "invalid cstp http headers";
   "invalid cstp http status"; "received unknown cstp packet type"; "v2ray-http: unexpected status:";
   "v2ray-http-upgrade: unexpected status:"; "v2ray-grpc: unexpected status:"; "anytls: authentication failed";
   "anytls: remote:"; "unknown user password"; "authentication failed:";
   "authentication failed, status code:"; "message authentication failed"; "remote error:"]%string.
Definition exact_messages : list string :=
  ["bad header"; "invalid request"; "bad request"; "bad version"; "replayed request"; "authentication failed"; "authentication required"; "authorization failed"]%string.

Definition isSmartProtocolHandshakeFailure (err : option go_error) : bool :=
  match err with
  | None => false
  | Some err =>
      let message := ToLower (er_text err) in
      if Contains message "i/o timeout" || Contains message "deadline exceeded" then false
      else existsb (Contains message) markers || bool_decide (message ∈ exact_messages)
  end.

Definition isSmartStreamFailure (err : option go_error) : bool :=
  match err with
  | None => false
  | Some e =>
      if errors_Is e EOF || errors_Is e ErrClosed || errors_Is e Canceled then false
      else if er_timeout e then true
      else if existsb (errors_Is e) [ECONNRESET; ECONNABORTED; EPIPE; ETIMEDOUT; ENETUNREACH; EHOSTUNREACH] then true
      else isSmartProtocolHandshakeFailure err
  end.

Definition isSmartPacketFailure (err : option go_error) : bool :=
  match err with
  | None => false
  | Some e =>
      if errors_Is e ErrClosed || errors_Is e Canceled then false
      else if er_timeout e then true
      else existsb (errors_Is e) [ECONNRESET; ECONNREFUSED; ECONNABORTED; EPIPE; ENETUNREACH; EHOSTUNREACH; ETIMEDOUT]
  end.

(** A request context: [None] when there is none, otherwise its [Err]. *)
Definition context : Type := option (option sentinel).
Definition ctx_ended (c : context) : bool := match c with Some (Some _) => true | _ => false end.

Definition isSmartRequestContextError (requestCtx : context) (err : option go_error) : bool :=
  match requestCtx, err with
  | Some (Some requestErr), Some e =>
      if bool_decide (requestErr = Canceled) then errors_Is e Canceled
      else if bool_decide (requestErr = DeadlineExceeded) then errors_Is e DeadlineExceeded || errors_Is e OsDeadlineExceeded
      else false
  | _, _ => false
  end.

(** ** The timer of a connection *)

Inductive watch_event : Type := Armed (g : Z) | Stopped | Expired (g : Z).

(** The fields under the mutex ([stallTimer], [stallGeneration], [stallPending] and
    their namesakes of packet connections; a timer is its generation), the timers
    that run with their deadlines, and the goroutines of timers that went off and
    have not taken the mutex yet.  The log is history. *)
Record watchdog : Type := mkWatch {
  w_timer : option Z;
  w_generation : Z;
  w_pending : bool;
  w_running : gmap Z Z;
  w_fired : gset Z;
  w_log : list (Z * watch_event) }.

Definition watch_new : watchdog := mkWatch None 0 false ∅ ∅ [].

(** [time.AfterFunc] under the mutex, when no timer is set. *)
Definition wd_arm (now timeout : Z) (w : watchdog) : watchdog :=
  if bool_decide (w_timer w = None) && negb (w_pending w) then
    let generation := u64 (w_generation w + 1) in
    mkWatch (Some generation) generation true (<[generation := now + timeout]> (w_running w)) (w_fired w) (w_log w ++ [(now, Armed generation)])
  else w.

(** [Stop] of a timer keeps it from going off, unless it did already. *)
Definition wd_stop (now : Z) (w : watchdog) : watchdog :=
  mkWatch None (u64 (w_generation w + 1)) false
    (match w_timer w with Some g => delete g (w_running w) | None => w_running w end) (w_fired w) (w_log w ++ [(now, Stopped)]).

(** A timer goes off. *)
Definition wd_expire (now g : Z) (w : watchdog) : option watchdog :=
  match w_running w !! g with
  | Some deadline =>
      if deadline <=? now then Some (mkWatch (w_timer w) (w_generation w) (w_pending w) (delete g (w_running w)) ({[g]} ∪ w_fired w) (w_log w))
      else None
  | None => None
  end.

(** Its goroutine takes the mutex: whether the wait is over. *)
Definition wd_fire (now : Z) (closed : bool) (generation : Z) (w : watchdog) : watchdog * bool :=
  let fired := w_fired w ∖ {[generation]} in
  if closed || negb (w_pending w) || negb (generation =? w_generation w)
  then (mkWatch (w_timer w) (w_generation w) (w_pending w) (w_running w) fired (w_log w), false)
  else (mkWatch None (w_generation w) false (w_running w) fired (w_log w ++ [(now, Expired generation)]), true).

(** *** What the timer promises *)

(** The wait of generation [g] began at [t], and nothing stopped or ended it since:
    it is the last event. *)
Definition waiting_since (l : list (Z * watch_event)) (g t : Z) : Prop := ∃ a, l = a ++ [(t, Armed g)].

(** A timer that goes off while the connection is being closed is ignored. *)
Record watch_inv (timeout now : Z) (closed : bool) (w : watchdog) : Prop := {
  wi_generation : 0 ≤ w_generation w;
  wi_pending : w_pending w = true → w_timer w = Some (w_generation w) ∧
    ∃ t, t ≤ now ∧ waiting_since (w_log w) (w_generation w) t ∧
      ((w_running w = {[w_generation w := t + timeout]} ∧ w_generation w ∉ w_fired w) ∨
       (w_running w = ∅ ∧ w_generation w ∈ w_fired w ∧ t + timeout ≤ now) ∨ (w_running w = ∅ ∧ closed = true));
  wi_idle : w_pending w = false → w_timer w = None ∧ w_running w = ∅;
  wi_fired : ∀ g, g ∈ w_fired w → g ≤ w_generation w;
  wi_history : ∀ l1 t g l2, w_log w = l1 ++ (t, Expired g) :: l2 → ∃ t0, waiting_since l1 g t0 ∧ t0 + timeout ≤ t }.

Lemma watch_new_inv timeout now closed : watch_inv timeout now closed watch_new.
Proof. split; cbn; [lia | done | done | set_solver |]. intros l1 t g l2 E. by destruct l1. Qed.

Lemma watch_later timeout now now' closed closed' w :
  watch_inv timeout now closed w → now ≤ now' → (closed = true → closed' = true) → watch_inv timeout now' closed' w.
Proof.
  intros [H1 H2 H3 H4 H5] Hle Hc. split; try done. intros Hp. destruct (H2 Hp) as (Ht & t & Htn & Hl & Hr). split; [done|].
  exists t. split_and!; [lia | done |]. destruct Hr as [?|[(? & ? & ?)|[? ?]]]; [by left | right; left; split_and!; [done | done | lia] | right; right; auto].
Qed.

(** The history after one more event. *)
Lemma history_snoc timeout w l x :
  (∀ l1 t g l2, w_log w = l1 ++ (t, Expired g) :: l2 → ∃ t0, waiting_since l1 g t0 ∧ t0 + timeout ≤ t) →
  l = w_log w ++ [x] → (∀ g, x.2 = Expired g → ∃ t0, waiting_since (w_log w) g t0 ∧ t0 + timeout ≤ x.1) →
  ∀ l1 t g l2, l = l1 ++ (t, Expired g) :: l2 → ∃ t0, waiting_since l1 g t0 ∧ t0 + timeout ≤ t.
Proof.
  intros Hold -> Hx l1 t g l2 E. destruct l2 as [|y l2 _] using rev_ind.
  - apply app_inj_tail in E as [<- ->]. exact (Hx g eq_refl).
  - rewrite app_comm_cons, app_assoc in E. apply app_inj_tail in E as [E _]. by eapply Hold.
Qed.

Lemma wd_arm_inv now timeout closed w :
  w_generation w + 1 < 2 ^ 64 → watch_inv timeout now closed w → watch_inv timeout now closed (wd_arm now timeout w).
Proof.
  intros Hroom Hw. unfold wd_arm. case_bool_decide as Ht; cbn [andb]; [|done]. destruct (w_pending w) eqn:Ep; cbn [negb]; [done|].
  destruct Hw as [H1 _ H3 H4 H5]. destruct (H3 Ep) as [_ Hr]. assert (u64 (w_generation w + 1) = w_generation w + 1) as -> by (apply u64_id; unfold fits; lia).
  split; cbn; [lia | | done | intros g Hg; pose proof (H4 g Hg); lia |].
  - intros _. split; [done|]. exists now. split_and!; [lia | by exists (w_log w) |]. left. rewrite Hr. split; [by rewrite insert_empty|].
    intros Hg. pose proof (H4 _ Hg). lia.
  - by eapply (history_snoc timeout w).
Qed.

Lemma wd_stop_inv now timeout closed w :
  w_generation w + 1 < 2 ^ 64 → watch_inv timeout now closed w → watch_inv timeout now closed (wd_stop now w).
Proof.
  intros Hroom [H1 H2 H3 H4 H5]. assert (u64 (w_generation w + 1) = w_generation w + 1) as Hu by (apply u64_id; unfold fits; lia).
  split; unfold wd_stop; cbn; rewrite ?Hu; [lia | done | | intros g Hg; pose proof (H4 g Hg); lia | by eapply (history_snoc timeout w)].
  intros _. split; [done|]. destruct (w_pending w) eqn:Ep.
  - destruct (H2 eq_refl) as (-> & t & _ & _ & [[-> _]|[[-> _]|[-> _]]]); [apply delete_singleton_eq | apply delete_empty..].
  - destruct (H3 eq_refl) as [-> ->]. done.
Qed.

Lemma wd_expire_inv now timeout closed g w w' : wd_expire now g w = Some w' → watch_inv timeout now closed w → watch_inv timeout now closed w'.
Proof.
  unfold wd_expire. destruct (w_running w !! g) as [d|] eqn:Eg; [|done]. destruct (d <=? now) eqn:Ed; [|done]. apply Z.leb_le in Ed.
  intros [= <-] [H1 H2 H3 H4 H5]. destruct (w_pending w) eqn:Ep; [|destruct (H3 eq_refl) as [_ Hr]; rewrite Hr, lookup_empty in Eg; done].
  destruct (H2 eq_refl) as (Ht & t & Htn & Hl & [[Hr Hn]|[[Hr _]|[Hr _]]]); rewrite Hr in Eg; [|by rewrite lookup_empty in Eg..].
  apply lookup_singleton_Some in Eg as [<- <-]. split; cbn; rewrite ?Ep; [done | | done | | done].
  - intros _. split; [done|]. exists t. split_and!; [done | done |]. right. left. rewrite Hr. split_and!; [apply delete_singleton_eq | set_solver | done].
  - intros g. rewrite elem_of_union, elem_of_singleton. intros [->|Hg]; [lia | by apply H4].
Qed.

Lemma wd_fire_inv now timeout closed g w w' b :
  g ∈ w_fired w → wd_fire now closed g w = (w', b) → watch_inv timeout now closed w → watch_inv timeout now closed w'.
Proof.
  unfold wd_fire. intros Hg E [H1 H2 H3 H4 H5]. destruct (closed || _ || _) eqn:Eb; injection E as <- <-.
  - split; cbn; [done | | done | set_solver | done]. intros Hp. destruct (H2 Hp) as (Ht & t & Htn & Hl & Hr). split; [done|].
    exists t. split_and!; [done | done |]. destruct Hr as [[? ?]|[(Hr & Hf & Hd)|?]]; [left; set_solver | | by right; right].
    destruct (decide (g = w_generation w)) as [->|Hne].
    + right. right. rewrite Hp, Z.eqb_refl in Eb. cbn in Eb. rewrite !orb_false_r in Eb. done.
    + right. left. split_and!; [done | set_solver | done].
  - rewrite !orb_false_iff, !negb_false_iff, Z.eqb_eq in Eb. destruct Eb as [[-> Hp] ->]. destruct (H2 Hp) as (Ht & t & Htn & Hl & Hr).
    destruct Hr as [[_ Hn]|[(Hr & Hf & Hd)|[_ ?]]]; [done | | done].
    split; cbn; [done | done | done | set_solver |]. eapply (history_snoc timeout w); [done | done |]. cbn. intros g [= <-]. by exists t.
Qed.

(** ** Stream connections *)

Inductive once : Type := OnceNew | OnceRunning | OnceDone.

#[global] Instance once_eq_dec : EqDecision once.
Proof. solve_decision. Defined.

(** What the owner of a connection is told, and the bytes counted, in order. *)
Inductive stream_event : Type :=
| ReadCounted (n : Z)
| WriteCounted (n : Z)
| OnFirstByte (elapsed : Z)
| OnFailureReason (failureType : string)
| OnFailure (failureType : string)
| OnClose (total elapsed : Z)
| OnRetransmit (ratio : Z).

(** Which callbacks are set. *)
Record callbacks : Type := mkCallbacks {
  cb_onFirstByte : bool; cb_onClose : bool; cb_onRetransmit : bool; cb_onFailure : bool; cb_onFailureReason : bool }.

Record smartObservedConn : Type := mkConn {
  sc_startedAt : Z;
  sc_readBytes : Z;
  sc_writeBytes : Z;
  sc_firstRead : bool;
  sc_closeOnce : once;
  sc_failureOnce : bool;
  sc_stallOnce : bool;
  sc_failureNotified : bool;
  sc_stallTimeout : Z;
  sc_stall : watchdog;
  sc_closed : bool;
  sc_requestCtx : context;
  sc_callbacks : callbacks;
  sc_log : list stream_event }.

Definition newSmartObservedConnWithRetransmitReason (startedAt stallTimeout : Z) (cbs : callbacks) (requestCtx : context) : smartObservedConn :=
  mkConn startedAt 0 0 false OnceNew false false false stallTimeout watch_new false requestCtx cbs [].

(** Updates of a connection. *)
Definition sc_count_read (n : Z) (c : smartObservedConn) : smartObservedConn :=
  mkConn (sc_startedAt c) (i64 (sc_readBytes c + n)) (sc_writeBytes c) (sc_firstRead c) (sc_closeOnce c) (sc_failureOnce c) (sc_stallOnce c)
    (sc_failureNotified c) (sc_stallTimeout c) (sc_stall c) (sc_closed c) (sc_requestCtx c) (sc_callbacks c) (sc_log c ++ [ReadCounted n]).
Definition sc_count_write (n : Z) (c : smartObservedConn) : smartObservedConn :=
  mkConn (sc_startedAt c) (sc_readBytes c) (i64 (sc_writeBytes c + n)) (sc_firstRead c) (sc_closeOnce c) (sc_failureOnce c) (sc_stallOnce c)
    (sc_failureNotified c) (sc_stallTimeout c) (sc_stall c) (sc_closed c) (sc_requestCtx c) (sc_callbacks c) (sc_log c ++ [WriteCounted n]).
Definition sc_set_first (c : smartObservedConn) : smartObservedConn :=
  mkConn (sc_startedAt c) (sc_readBytes c) (sc_writeBytes c) true (sc_closeOnce c) (sc_failureOnce c) (sc_stallOnce c)
    (sc_failureNotified c) (sc_stallTimeout c) (sc_stall c) (sc_closed c) (sc_requestCtx c) (sc_callbacks c) (sc_log c).
Definition sc_set_close_once (o : once) (c : smartObservedConn) : smartObservedConn :=
  mkConn (sc_startedAt c) (sc_readBytes c) (sc_writeBytes c) (sc_firstRead c) o (sc_failureOnce c) (sc_stallOnce c)
    (sc_failureNotified c) (sc_stallTimeout c) (sc_stall c) (sc_closed c) (sc_requestCtx c) (sc_callbacks c) (sc_log c).
Definition sc_set_closed (c : smartObservedConn) : smartObservedConn :=
  mkConn (sc_startedAt c) (sc_readBytes c) (sc_writeBytes c) (sc_firstRead c) (sc_closeOnce c) (sc_failureOnce c) (sc_stallOnce c)
    (sc_failureNotified c) (sc_stallTimeout c) (sc_stall c) true (sc_requestCtx c) (sc_callbacks c) (sc_log c).
Definition sc_set_stall_once (c : smartObservedConn) : smartObservedConn :=
  mkConn (sc_startedAt c) (sc_readBytes c) (sc_writeBytes c) (sc_firstRead c) (sc_closeOnce c) (sc_failureOnce c) true
    (sc_failureNotified c) (sc_stallTimeout c) (sc_stall c) (sc_closed c) (sc_requestCtx c) (sc_callbacks c) (sc_log c).
Definition sc_set_notified (c : smartObservedConn) : smartObservedConn :=
  mkConn (sc_startedAt c) (sc_readBytes c) (sc_writeBytes c) (sc_firstRead c) (sc_closeOnce c) true (sc_stallOnce c)
    true (sc_stallTimeout c) (sc_stall c) (sc_closed c) (sc_requestCtx c) (sc_callbacks c) (sc_log c).
Definition sc_set_stall (w : watchdog) (c : smartObservedConn) : smartObservedConn :=
  mkConn (sc_startedAt c) (sc_readBytes c) (sc_writeBytes c) (sc_firstRead c) (sc_closeOnce c) (sc_failureOnce c) (sc_stallOnce c)
    (sc_failureNotified c) (sc_stallTimeout c) w (sc_closed c) (sc_requestCtx c) (sc_callbacks c) (sc_log c).
Definition sc_set_ctx (x : context) (c : smartObservedConn) : smartObservedConn :=
  mkConn (sc_startedAt c) (sc_readBytes c) (sc_writeBytes c) (sc_firstRead c) (sc_closeOnce c) (sc_failureOnce c) (sc_stallOnce c)
    (sc_failureNotified c) (sc_stallTimeout c) (sc_stall c) (sc_closed c) x (sc_callbacks c) (sc_log c).
Definition sc_tell (e : stream_event) (c : smartObservedConn) : smartObservedConn :=
  mkConn (sc_startedAt c) (sc_readBytes c) (sc_writeBytes c) (sc_firstRead c) (sc_closeOnce c) (sc_failureOnce c) (sc_stallOnce c)
    (sc_failureNotified c) (sc_stallTimeout c) (sc_stall c) (sc_closed c) (sc_requestCtx c) (sc_callbacks c) (sc_log c ++ [e]).

(** The indivisible actions of the goroutines. *)
Inductive act : Type :=
| AReadBytes (n : Z)
| AStop
| AFirstRead
| AWriteBytes (n : Z)
| AArmCheck
| AArmLocked
| AFailure (err : option go_error)
| ANotify (failureType : string)
| AStallContext
| ACloseOnce (retransmit : option Z)
| ACloseStore
| ACloseStop
| ACloseReport (retransmit : option Z)
| ACloseDone.

Definition observeRead (n : Z) : list act := if n <=? 0 then [] else [AReadBytes n; AStop; AFirstRead].
Definition observeWrite (n : Z) : list act := if 0 <? n then [AWriteBytes n; AArmCheck] else [].
Definition observeFailure (err : option go_error) : list act :=
  (if bool_decide (err = None) then [] else [AStop]) ++ [AFailure err].

(** The methods after the call of the connection below, which returned [n] and
    [err]; what they do after the calls is theirs. *)
Definition Read (n : Z) (err : option go_error) : list act := observeRead n ++ observeFailure err.
Definition Write (n : Z) (err : option go_error) : list act := observeWrite n ++ observeFailure err.
Definition ReadBuffer (before after : Z) (err : option go_error) : list act := observeRead (after - before) ++ observeFailure err.
Definition WriteBuffer (writeBytes : Z) (err : option go_error) : list act :=
  (if bool_decide (err = None) && (0 <? writeBytes) then observeWrite writeBytes else []) ++ observeFailure err.
Definition Close (retransmit : option Z) : list act := [ACloseOnce retransmit].

Definition notify_event (cbs : callbacks) (failureType : string) : list stream_event :=
  if cb_onFailureReason cbs then [OnFailureReason failureType] else if cb_onFailure cbs then [OnFailure failureType] else [].

Definition notifyFailureType (failureType : string) (c : smartObservedConn) : smartObservedConn :=
  if sc_failureOnce c then c else foldl (λ c e, sc_tell e c) (sc_set_notified c) (notify_event (sc_callbacks c) failureType).

Definition armStallTimer_locked (now : Z) (c : smartObservedConn) : smartObservedConn :=
  if negb (sc_closed c) && negb (sc_failureNotified c) then sc_set_stall (wd_arm now (sc_stallTimeout c) (sc_stall c)) c else c.
Definition stopStallTimer (now : Z) (c : smartObservedConn) : smartObservedConn := sc_set_stall (wd_stop now (sc_stall c)) c.

(** The section of [observeStall] under the mutex, and what is left to do. *)
Definition observeStall (now generation : Z) (c : smartObservedConn) : smartObservedConn * list act :=
  let '(w, over) := wd_fire now (sc_closed c) generation (sc_stall c) in
  (sc_set_stall w c, if over then [AStallContext] else []).

Definition failure_acts (c : smartObservedConn) (err : option go_error) : list act :=
  if isSmartRequestContextError (sc_requestCtx c) err then []
  else if negb (isSmartStreamFailure err) then []
  else [ANotify (if isSmartProtocolHandshakeFailure err then "protocol" else "transport")%string].

(** One action: the connection it leaves and the actions that come before the rest
    of the thread; [None] while a [sync.Once] runs in another goroutine. *)
Definition act_step (now : Z) (a : act) (c : smartObservedConn) : option (smartObservedConn * list act) :=
  match a with
  | AReadBytes n => Some (sc_count_read n c, [])
  | AStop => Some (stopStallTimer now c, [])
  | AFirstRead =>
      if sc_firstRead c then Some (c, [])
      else Some (if cb_onFirstByte (sc_callbacks c) then sc_tell (OnFirstByte (time_sub now (sc_startedAt c))) (sc_set_first c) else sc_set_first c, [])
  | AWriteBytes n => Some (sc_count_write n c, [])
  | AArmCheck => Some (c, if (sc_stallTimeout c <=? 0) || sc_closed c || sc_failureNotified c then [] else [AArmLocked])
  | AArmLocked => Some (armStallTimer_locked now c, [])
  | AFailure err => Some (c, failure_acts c err)
  | ANotify failureType => Some (notifyFailureType failureType c, [])
  | AStallContext =>
      if ctx_ended (sc_requestCtx c) || sc_stallOnce c then Some (c, []) else Some (sc_set_stall_once c, [ANotify "timeout"%string])
  | ACloseOnce retransmit =>
      match sc_closeOnce c with
      | OnceNew => Some (sc_set_close_once OnceRunning c, [ACloseStore; ACloseStop; ACloseReport retransmit; ACloseDone])
      | OnceRunning => None
      | OnceDone => Some (c, [])
      end
  | ACloseStore => Some (sc_set_closed c, [])
  | ACloseStop => Some (stopStallTimer now c, [])
  | ACloseReport retransmit =>
      let c1 := if cb_onClose (sc_callbacks c)
                then sc_tell (OnClose (i64 (sc_readBytes c + sc_writeBytes c)) (time_sub now (sc_startedAt c))) c else c in
      Some (match retransmit with
            | Some ratio => if cb_onRetransmit (sc_callbacks c) then sc_tell (OnRetransmit ratio) c1 else c1
            | None => c1
            end, [])
  | ACloseDone => Some (sc_set_close_once OnceDone c, [])
  end.

(** The connection with its goroutines and the clock. *)
Record stream : Type := mkStream { sm_now : Z; sm_conn : smartObservedConn; sm_threads : list (list act) }.

(** The calls a user of the connection makes, with what the connection below
    returned.  [UnwrapReader] hands out a reader whose [Read] is the one of the
    connection together with the counter [observeRead]. *)
Inductive call : list act → Prop :=
| call_read n err : call (Read n err)
| call_write n err : call (Write n err)
| call_read_buffer before after err : call (ReadBuffer before after err)
| call_write_buffer n err : call (WriteBuffer n err)
| call_count_read n : call (observeRead n)
| call_count_write n : call (observeWrite n)
| call_close retransmit : call (Close retransmit).

(** The counter of timers does not wrap in the life of a connection. *)
Definition stall_room (c : smartObservedConn) : Prop := w_generation (sc_stall c) + 1 < 2 ^ 64.

Inductive stream_step : stream → stream → Prop :=
| ss_call now c ts p : call p → stream_step (mkStream now c ts) (mkStream now c (ts ++ [p]))
| ss_act now c ts i a rest c' more :
    ts !! i = Some (a :: rest) → act_step now a c = Some (c', more) → stall_room c →
    stream_step (mkStream now c ts) (mkStream now c' (<[i := more ++ rest]> ts))
| ss_tick now c ts now' : now ≤ now' → stream_step (mkStream now c ts) (mkStream now' c ts)
| ss_context now c ts e : sc_requestCtx c = Some None → stream_step (mkStream now c ts) (mkStream now (sc_set_ctx (Some (Some e)) c) ts)
| ss_expire now c ts g w : wd_expire now g (sc_stall c) = Some w → stream_step (mkStream now c ts) (mkStream now (sc_set_stall w c) ts)
| ss_stall now c ts g c' p :
    g ∈ w_fired (sc_stall c) → observeStall now g c = (c', p) → stream_step (mkStream now c ts) (mkStream now c' (ts ++ [p])).

Inductive stream_reachable : stream → Prop :=
| sr_new now startedAt timeout cbs ctx :
    stream_reachable (mkStream now (newSmartObservedConnWithRetransmitReason startedAt timeout cbs ctx) [])
| sr_step s s' : stream_reachable s → stream_step s s' → stream_reachable s'.

(** ** Invariant of a stream connection *)

Fixpoint bytes_counted (l : list stream_event) : Z :=
  match l with
  | [] => 0
  | ReadCounted n :: l | WriteCounted n :: l => n + bytes_counted l
  | _ :: l => bytes_counted l
  end.

Definition is_first (e : stream_event) : bool := match e with OnFirstByte _ => true | _ => false end.
Definition is_failure (e : stream_event) : bool := match e with OnFailure _ | OnFailureReason _ => true | _ => false end.
Definition is_close (e : stream_event) : bool := match e with OnClose _ _ => true | _ => false end.
Definition failure_type (e : stream_event) : option string := match e with OnFailure ty | OnFailureReason ty => Some ty | _ => None end.

Abbreviation count f l := (length (List.filter f l)).

Definition expired (w : watchdog) : Prop := ∃ t g, (t, Expired g) ∈ w_log w.

(** A report of a timeout has a timer behind it. *)
Definition justified (w : watchdog) (a : act) : Prop :=
  match a with ANotify ty => ty = "timeout"%string → expired w | AStallContext => expired w | _ => True end.

(** What holds of a connection whatever its goroutines do. *)
Record conn_ok (now : Z) (c : smartObservedConn) : Prop := {
  co_watch : watch_inv (sc_stallTimeout c) now (sc_closed c) (sc_stall c);
  co_first : (count is_first (sc_log c) ≤ if sc_firstRead c then 1 else 0)%nat;
  co_failure : (count is_failure (sc_log c) ≤ if sc_failureOnce c then 1 else 0)%nat;
  co_bytes : i64 (sc_readBytes c + sc_writeBytes c) = i64 (bytes_counted (sc_log c));
  co_close : ∀ l1 total d l2, sc_log c = l1 ++ OnClose total d :: l2 → total = i64 (bytes_counted l1);
  co_timeout : ∀ e, e ∈ sc_log c → failure_type e = Some "timeout"%string → expired (sc_stall c) }.

Lemma i64_add x y : i64 (i64 x + y) = i64 (x + y).
Proof.
  unfold i64. replace ((x + 2 ^ 63) mod 2 ^ 64 - 2 ^ 63 + y + 2 ^ 63) with ((x + 2 ^ 63) mod 2 ^ 64 + y) by lia.
  rewrite Zplus_mod_idemp_l. f_equal. f_equal. lia.
Qed.

Lemma i64_same x y z : i64 x = i64 y → i64 (x + z) = i64 (y + z).
Proof. intros E. by rewrite <- (i64_add x), <- (i64_add y), E. Qed.

Lemma bytes_counted_app l1 l2 : bytes_counted (l1 ++ l2) = bytes_counted l1 + bytes_counted l2.
Proof. induction l1 as [|[] l1 IH]; cbn; lia. Qed.

Lemma count_snoc f (l : list stream_event) e : count f (l ++ [e]) = (count f l + if f e then 1 else 0)%nat.
Proof. rewrite List.filter_app, length_app. cbn. by destruct (f e). Qed.

Lemma expired_more w w' : expired w → (∃ l, w_log w' = w_log w ++ l) → expired w'.
Proof. intros (t & g & Hin) [l E]. exists t, g. rewrite E. apply elem_of_app. by left. Qed.

Lemma close_snoc l e :
  (∀ l1 total d l2, l = l1 ++ OnClose total d :: l2 → total = i64 (bytes_counted l1)) →
  (∀ total d, e = OnClose total d → total = i64 (bytes_counted l)) →
  ∀ l1 total d l2, l ++ [e] = l1 ++ OnClose total d :: l2 → total = i64 (bytes_counted l1).
Proof.
  intros Hl He l1 total d l2 E. destruct l2 as [|y l2 _] using rev_ind.
  - apply app_inj_tail in E as [<- ->]. by eapply He.
  - rewrite app_comm_cons, app_assoc in E. apply app_inj_tail in E as [E _]. by eapply Hl.
Qed.

(** The timer is replaced by one with a longer history. *)
Lemma conn_ok_stall now c w :
  conn_ok now c → watch_inv (sc_stallTimeout c) now (sc_closed c) w → (∃ l, w_log w = w_log (sc_stall c) ++ l) → conn_ok now (sc_set_stall w c).
Proof.
  intros [H1 H2 H3 H4 H5 H6] Hw Hl. split; cbn; try done. intros e He Ht. eapply expired_more; [by eapply H6 | done].
Qed.

Lemma conn_ok_tell now c e :
  conn_ok now c → bytes_counted [e] = 0 → is_first e = false → is_failure e = false →
  (∀ total d, e = OnClose total d → total = i64 (sc_readBytes c + sc_writeBytes c)) → conn_ok now (sc_tell e c).
Proof.
  intros [H1 H2 H3 H4 H5 H6] Hb Hf Hfl Hc. split; cbn.
  - done.
  - rewrite count_snoc, Hf. lia.
  - rewrite count_snoc, Hfl. lia.
  - rewrite bytes_counted_app, Hb, H4. f_equal. lia.
  - apply close_snoc; [done|]. intros total d E. rewrite (Hc total d E). done.
  - intros e' [He| ->%list_elem_of_singleton]%elem_of_app Ht; [by eapply H6|]. by destruct e.
Qed.

Lemma wd_arm_log now timeout w : ∃ l, w_log (wd_arm now timeout w) = w_log w ++ l.
Proof. unfold wd_arm. destruct (_ && _); [by eexists | exists []; by rewrite app_nil_r]. Qed.

Lemma wd_fire_log now closed g w w' b : wd_fire now closed g w = (w', b) → (∃ l, w_log w' = w_log w ++ l) ∧ (b = true → expired w').
Proof.
  unfold wd_fire. destruct (_ || _); intros [= <- <-]; cbn.
  - split; [exists []; by rewrite app_nil_r | done].
  - split; [by eexists|]. intros _. exists now, g. cbn. apply elem_of_app. right. by left.
Qed.

Lemma conn_ok_notify now c ty : conn_ok now c → (ty = "timeout"%string → expired (sc_stall c)) → conn_ok now (notifyFailureType ty c).
Proof.
  intros Hc Hty. unfold notifyFailureType. destruct (sc_failureOnce c) eqn:Ef; [done|].
  destruct Hc as [H1 H2 H3 H4 H5 H6]. rewrite Ef in H3.
  assert (conn_ok now (sc_set_notified c)) as Hn by (split; cbn; try done; lia). unfold notify_event.
  assert (∀ e, failure_type e = Some ty → is_failure e = true → is_first e = false → bytes_counted [e] = 0 → is_close e = false → conn_ok now (sc_tell e (sc_set_notified c))) as Htell.
  { intros e Ety E1 E2 E3 E4. split; cbn; [done | | | | |].
    - rewrite count_snoc, E2. lia.
    - rewrite count_snoc, E1. lia.
    - rewrite bytes_counted_app, E3, H4. f_equal. lia.
    - apply close_snoc; [done|]. intros total d ->. done.
    - intros e' [He| ->%list_elem_of_singleton]%elem_of_app Ht; [by eapply H6|]. apply Hty. congruence. }
  destruct (cb_onFailureReason _); [by apply Htell|]. destruct (cb_onFailure _); [by apply Htell | done].
Qed.

Lemma conn_ok_act now a c c' more :
  stall_room c → justified (sc_stall c) a → act_step now a c = Some (c', more) → conn_ok now c →
  conn_ok now c' ∧ Forall (justified (sc_stall c')) more ∧ (∃ l, w_log (sc_stall c') = w_log (sc_stall c) ++ l).
Proof.
  intros Hroom Hj E Hc. assert (∃ l, w_log (sc_stall c) = w_log (sc_stall c) ++ l) as Hsame by (exists []; by rewrite app_nil_r).
  assert (conn_ok now (stopStallTimer now c) ∧ ∃ l, w_log (sc_stall (stopStallTimer now c)) = w_log (sc_stall c) ++ l) as [Hstop Hstopl].
  { split; [|by eexists]. apply conn_ok_stall; [done | apply wd_stop_inv; [done | apply Hc] | by eexists]. }
  pose proof Hc as [H1 H2 H3 H4 H5 H6].
  destruct a; cbn [act_step] in E; try (injection E as <- <-); cbn [sc_stall sc_count_read sc_count_write].
  - split_and!; [|constructor|done]. split; cbn; rewrite ?count_snoc; cbn; try lia; try done.
    + rewrite bytes_counted_app. cbn. rewrite Z.add_0_r. rewrite <- (i64_same _ _ n H4). rewrite (Z.add_comm _ (sc_writeBytes c)), (Z.add_comm (sc_writeBytes c)), i64_add. f_equal. lia.
    + by apply close_snoc.
    + intros e [He| ->%list_elem_of_singleton]%elem_of_app Ht; [by eapply H6 | done].
  - split_and!; [done | constructor | done].
  - destruct (sc_firstRead c) eqn:Ef; injection E as <- <-; [split_and!; [done | constructor | done]|].
    split_and!; [|constructor | destruct (cb_onFirstByte _); done].
    destruct (cb_onFirstByte _); split; cbn; rewrite ?count_snoc; cbn; try lia; try done.
    + rewrite bytes_counted_app, H4. cbn. f_equal. lia.
    + by apply close_snoc.
    + intros e [He| ->%list_elem_of_singleton]%elem_of_app Ht; [by eapply H6 | done].
  - split_and!; [|constructor|done]. split; cbn; rewrite ?count_snoc; cbn; try lia; try done.
    + rewrite bytes_counted_app. cbn. rewrite Z.add_0_r. rewrite <- (i64_same _ _ n H4). rewrite (Z.add_comm (sc_readBytes c)), i64_add. f_equal. lia.
    + by apply close_snoc.
    + intros e [He| ->%list_elem_of_singleton]%elem_of_app Ht; [by eapply H6 | done].
  - split_and!; [done | destruct (_ || _); repeat constructor | done].
  - unfold armStallTimer_locked. destruct (_ && _); [|split_and!; [done | constructor | done]]. cbn [sc_stall sc_set_stall].
    split_and!; [apply conn_ok_stall; [done | by apply wd_arm_inv | apply wd_arm_log] | constructor | apply wd_arm_log].
  - split_and!; [done | | done]. unfold failure_acts. destruct (isSmartRequestContextError _ _); [constructor|].
    destruct (negb _); [constructor|]. repeat constructor. destruct (isSmartProtocolHandshakeFailure _); intros ?; discriminate.
  - split_and!; [by apply conn_ok_notify | constructor |]. unfold notifyFailureType. destruct (sc_failureOnce c); [done|].
    unfold notify_event. destruct (cb_onFailureReason _); [done|]. by destruct (cb_onFailure _).
  - destruct (_ || _); injection E as <- <-; [split_and!; [done | constructor | done]|].
    split_and!; [by split | repeat constructor; by intros _ | done].
  - destruct (sc_closeOnce c); [|done|]; injection E as <- <-; (split_and!; [by split | repeat constructor | done]).
  - split_and!; [|constructor|done]. split; cbn; try done. eapply watch_later; [done | lia | done].
  - split_and!; [done | constructor | done].
  - split_and!; [|constructor | destruct (cb_onClose _), retransmit; try destruct (cb_onRetransmit _); done].
    set (c1 := if cb_onClose (sc_callbacks c) then _ else _).
    assert (conn_ok now c1) as Hc1.
    { unfold c1. destruct (cb_onClose _); [|done]. apply conn_ok_tell; try done. by intros total d [= <- _]. }
    destruct retransmit; [|done]. destruct (cb_onRetransmit _); [|done]. by apply conn_ok_tell.
  - split_and!; [by split | constructor | done].
Qed.

(** *** The goroutine that closes *)

(** A goroutine closes, or does nothing of it. *)
Definition plain (a : act) : bool :=
  match a with ACloseOnce _ | ACloseStore | ACloseStop | ACloseReport _ | ACloseDone => false | _ => true end.

Inductive close_place : Type := CPStore | CPStop | CPReport | CPDone.

Definition closing (p : list act) : option close_place :=
  match p with
  | ACloseStore :: _ => Some CPStore
  | ACloseStop :: _ => Some CPStop
  | ACloseReport _ :: _ => Some CPReport
  | ACloseDone :: _ => Some CPDone
  | _ => None
  end.

Inductive thread_ok : list act → Prop :=
| th_plain p : Forall (λ a, plain a = true) p → thread_ok p
| th_close r : thread_ok [ACloseOnce r]
| th_store r : thread_ok [ACloseStore; ACloseStop; ACloseReport r; ACloseDone]
| th_stop r : thread_ok [ACloseStop; ACloseReport r; ACloseDone]
| th_report r : thread_ok [ACloseReport r; ACloseDone]
| th_done : thread_ok [ACloseDone].

Definition at_rest (c : smartObservedConn) : Prop := sc_closed c = true ∧ w_pending (sc_stall c) = false.

Definition place_ok (pl : close_place) (c : smartObservedConn) : Prop :=
  match pl with
  | CPStore => count is_close (sc_log c) = 0%nat
  | CPStop => sc_closed c = true ∧ count is_close (sc_log c) = 0%nat
  | CPReport => at_rest c ∧ count is_close (sc_log c) = 0%nat
  | CPDone => at_rest c ∧ (count is_close (sc_log c) ≤ 1)%nat
  end.

Definition close_state (c : smartObservedConn) (ts : list (list act)) : Prop :=
  match sc_closeOnce c with
  | OnceNew => Forall (λ p, closing p = None) ts ∧ count is_close (sc_log c) = 0%nat
  | OnceRunning => ∃ i p pl, ts !! i = Some p ∧ closing p = Some pl ∧ place_ok pl c ∧
      ∀ j q, ts !! j = Some q → closing q ≠ None → j = i
  | OnceDone => Forall (λ p, closing p = None) ts ∧ at_rest c ∧ (count is_close (sc_log c) ≤ 1)%nat
  end.

(** What the other goroutines leave alone. *)
Definition calm (c c' : smartObservedConn) : Prop :=
  sc_closeOnce c' = sc_closeOnce c ∧ sc_closed c' = sc_closed c ∧ count is_close (sc_log c') = count is_close (sc_log c) ∧
  (at_rest c → at_rest c').

Lemma place_ok_calm pl c c' : calm c c' → place_ok pl c → place_ok pl c'.
Proof. intros (_ & E2 & E3 & Hr). destruct pl; cbn; rewrite ?E2, ?E3; [done | done | intros [? ?]; auto..]. Qed.

Lemma plain_closing p : Forall (λ a, plain a = true) p → closing p = None.
Proof. destruct 1 as [|[] ?]; done. Qed.

(** A goroutine that does not close takes a step or is added. *)
Lemma close_state_calm c c' ts ts' i :
  calm c c' → (∀ j q, j ≠ i → ts' !! j = Some q → ts !! j = Some q) → (∀ j q, j ≠ i → ts !! j = Some q → ts' !! j = Some q) →
  (∀ q, ts !! i = Some q → closing q = None) → (∀ q, ts' !! i = Some q → closing q = None) →
  close_state c ts → close_state c' ts'.
Proof.
  intros Hcalm Hback Hforth Hi Hi'. assert (Forall (λ p, closing p = None) ts → Forall (λ p, closing p = None) ts') as Hall.
  { rewrite !Forall_lookup. intros H j q Hj. destruct (decide (j = i)) as [->|Hne]; [by eapply Hi' | by eapply H, Hback]. }
  pose proof Hcalm as (E1 & E2 & E3 & Hr). unfold close_state. rewrite E1, E3. destruct (sc_closeOnce c).
  - intros [? ?]. auto.
  - intros (k & p & pl & Hk & Hp & Hpl & Huniq). assert (k ≠ i) as Hne by (intros ->; rewrite (Hi p Hk) in Hp; done).
    exists k, p, pl. split_and!; [by apply Hforth | done | by eapply place_ok_calm |].
    intros j q Hj Hq. destruct (decide (j = i)) as [->|Hji]; [destruct Hq; by eapply Hi' | by eapply Huniq; [apply Hback|]].
  - intros (? & ? & ?). auto.
Qed.

Lemma calm_refl c : calm c c.
Proof. by split_and!. Qed.

Lemma calm_log c c' :
  sc_closeOnce c' = sc_closeOnce c → sc_closed c' = sc_closed c → count is_close (sc_log c') = count is_close (sc_log c) →
  sc_stall c' = sc_stall c → calm c c'.
Proof. intros ? E ? E'. split_and!; try done. unfold at_rest. by rewrite E, E'. Qed.

Lemma calm_plain now a c c' more :
  plain a = true → act_step now a c = Some (c', more) → calm c c' ∧ Forall (λ a, plain a = true) more.
Proof.
  assert (calm c (stopStallTimer now c)) as Hstop by (split_and!; try done; by intros [? ?]).
  intros Hp E. destruct a; try discriminate; cbn [act_step] in E; try (injection E as <- <-).
  - split; [|constructor]. apply calm_log; try done. cbn. rewrite count_snoc. cbn. lia.
  - split; [done | constructor].
  - destruct (sc_firstRead c); injection E as <- <-; (split; [|constructor]); [apply calm_refl|].
    destruct (cb_onFirstByte _); apply calm_log; try done. cbn. rewrite count_snoc. cbn. lia.
  - split; [|constructor]. apply calm_log; try done. cbn. rewrite count_snoc. cbn. lia.
  - split; [apply calm_refl|]. destruct (_ || _); repeat constructor.
  - split; [|constructor]. unfold armStallTimer_locked. destruct (sc_closed c) eqn:Ec; cbn [negb andb]; [apply calm_refl|].
    destruct (negb _); [|apply calm_refl]. split_and!; try done. intros [? _]. congruence.
  - split; [apply calm_refl|]. unfold failure_acts. destruct (isSmartRequestContextError _ _); [constructor|]. destruct (negb _); repeat constructor.
  - split; [|constructor]. unfold notifyFailureType, notify_event. destruct (sc_failureOnce c); [apply calm_refl|].
    destruct (cb_onFailureReason _); [|destruct (cb_onFailure _)]; apply calm_log; try done; cbn; rewrite count_snoc; cbn; lia.
  - destruct (_ || _); injection E as <- <-; (split; [|repeat constructor]); [apply calm_refl | by apply calm_log].
Qed.

Record stream_inv (s : stream) : Prop := {
  sv_conn : conn_ok (sm_now s) (sm_conn s);
  sv_threads : Forall thread_ok (sm_threads s);
  sv_close : close_state (sm_conn s) (sm_threads s);
  sv_just : Forall (Forall (justified (sc_stall (sm_conn s)))) (sm_threads s) }.

Lemma call_ok p w : call p → thread_ok p ∧ closing p = None ∧ Forall (justified w) p.
Proof.
  assert (∀ n, Forall (λ a, plain a = true) (observeRead n) ∧ Forall (justified w) (observeRead n)) as Hr by (intros n; unfold observeRead; destruct (_ <=? _); repeat constructor).
  assert (∀ n, Forall (λ a, plain a = true) (observeWrite n) ∧ Forall (justified w) (observeWrite n)) as Hw by (intros n; unfold observeWrite; destruct (_ <? _); repeat constructor).
  assert (∀ e, Forall (λ a, plain a = true) (observeFailure e) ∧ Forall (justified w) (observeFailure e)) as He by (intros e; unfold observeFailure; destruct (bool_decide _); repeat constructor).
  assert (∀ q, Forall (λ a, plain a = true) q ∧ Forall (justified w) q → thread_ok q ∧ closing q = None ∧ Forall (justified w) q) as Hq
    by (intros q [? ?]; split_and!; [by constructor | by apply plain_closing | done]).
  assert (∀ q r, Forall (λ a, plain a = true) q ∧ Forall (justified w) q → Forall (λ a, plain a = true) r ∧ Forall (justified w) r →
    thread_ok (q ++ r) ∧ closing (q ++ r) = None ∧ Forall (justified w) (q ++ r)) as Happ
    by (intros q r [? ?] [? ?]; apply Hq; split; by apply Forall_app).
  destruct 1; unfold Read, Write, ReadBuffer, WriteBuffer; try (by apply Happ); try (by apply Hq).
  - apply Happ; [|done]. destruct (_ && _); [done | by split].
  - split_and!; [apply th_close | done | repeat constructor].
Qed.

Lemma justified_more w w' p : (∃ l, w_log w' = w_log w ++ l) → Forall (justified w) p → Forall (justified w') p.
Proof. intros Hl. apply Forall_impl. intros []; cbn; try done; [intros H E; by eapply expired_more; [apply H|] | intros H; by eapply expired_more]. Qed.

(** The closing goroutine takes a step. *)
Lemma close_step now c ts i a rest c' more :
  stall_room c → ts !! i = Some (a :: rest) → thread_ok (a :: rest) → plain a = false → act_step now a c = Some (c', more) → close_state c ts →
  thread_ok (more ++ rest) ∧ close_state c' (<[i := more ++ rest]> ts).
Proof.
  intros Hroom Hi Hth Hp E Hcl. assert (i < length ts)%nat as Hlen by (by eapply lookup_lt_Some).
  assert (∀ p, (∀ j q, ts !! j = Some q → closing q ≠ None → j = i) → closing p = None → Forall (λ p, closing p = None) (<[i := p]> ts)) as Hrest.
  { intros p Hu Hn. apply Forall_lookup. intros j q Hj. destruct (decide (j = i)) as [->|Hne].
    - rewrite list_lookup_insert_eq in Hj by done. by injection Hj as <-.
    - rewrite list_lookup_insert_ne in Hj by done. destruct (closing q) eqn:Eq; [|done]. destruct Hne. eapply Hu; [done | by rewrite Eq]. }
  assert (∀ p, (∀ j q, ts !! j = Some q → closing q ≠ None → j = i) → ∀ j q, <[i := p]> ts !! j = Some q → closing q ≠ None → j = i) as Huni.
  { intros p Hu j q Hj Hq. destruct (decide (j = i)) as [|Hne]; [done|]. rewrite list_lookup_insert_ne in Hj by done. by eapply Hu. }
  assert (∀ pl, closing (a :: rest) = Some pl → sc_closeOnce c = OnceRunning ∧ place_ok pl c ∧ ∀ j q, ts !! j = Some q → closing q ≠ None → j = i) as Hrun.
  { intros pl Hpl. unfold close_state in Hcl. destruct (sc_closeOnce c).
    - destruct Hcl as [Hall _]. rewrite Forall_lookup in Hall. by rewrite (Hall i _ Hi) in Hpl.
    - destruct Hcl as (k & p & pl' & Hk & Hpk & Hok & Hu). assert (i = k) as <- by (eapply Hu; [done | by rewrite Hpl]).
      rewrite Hi in Hk. injection Hk as <-. rewrite Hpl in Hpk. injection Hpk as <-. done.
    - destruct Hcl as [Hall _]. rewrite Forall_lookup in Hall. by rewrite (Hall i _ Hi) in Hpl. }
  inversion Hth as [p Hpl|r|r|r|r|]; subst; [by inversion Hpl; congruence|..]; cbn [act_step] in E.
  - unfold close_state in Hcl. destruct (sc_closeOnce c) eqn:Eo; [|done|]; injection E as <- <-; cbn [app].
    + destruct Hcl as [Hall Hc0]. split; [apply th_store|]. exists i, [ACloseStore; ACloseStop; ACloseReport r; ACloseDone], CPStore.
      split_and!; [by apply list_lookup_insert_eq | done | done |]. apply Huni. intros j q Hj Hq. rewrite Forall_lookup in Hall. by destruct Hq; eapply Hall.
    + destruct Hcl as (Hall & Hr & Hn). split; [apply th_plain; constructor|]. unfold close_state. rewrite Eo. split; [|done].
      by apply Forall_insert.
  - destruct (Hrun CPStore eq_refl) as (Eo & Hok & Hu). injection E as <- <-. split; [apply th_stop|].
    unfold close_state. cbn [sc_closeOnce sc_set_closed]. rewrite Eo. eexists i, _, CPStop. split_and!; [by apply list_lookup_insert_eq | done | by split | by apply Huni].
  - destruct (Hrun CPStop eq_refl) as (Eo & [Hc Hn] & Hu). injection E as <- <-. split; [apply th_report|].
    unfold close_state. cbn [sc_closeOnce sc_set_stall stopStallTimer]. rewrite Eo. eexists i, _, CPReport. split_and!; [by apply list_lookup_insert_eq | done | by split | by apply Huni].
  - destruct (Hrun CPReport eq_refl) as (Eo & [Hr Hn] & Hu). injection E as <- <-. split; [apply th_done|]. unfold close_state.
    set (c1 := if cb_onClose (sc_callbacks c) then _ else _). set (c2 := match r with Some _ => _ | None => _ end).
    assert (sc_closeOnce c2 = OnceRunning ∧ at_rest c2 ∧ (count is_close (sc_log c2) ≤ 1)%nat) as (-> & Hr2 & Hc2).
    { unfold c2, c1, at_rest. destruct (cb_onClose _), r; try destruct (cb_onRetransmit _); cbn; rewrite ?count_snoc; cbn; rewrite ?Hn; (split_and!; [done | apply Hr | apply Hr | lia]). }
    eexists i, _, CPDone. split_and!; [by apply list_lookup_insert_eq | done | by split | by apply Huni].
  - destruct (Hrun CPDone eq_refl) as (Eo & [Hr Hn] & Hu). injection E as <- <-. split; [apply th_plain; constructor|].
    unfold close_state. cbn. split; [by apply Hrest | by split].
Qed.

Lemma stream_inv_act now c ts i a rest c' more :
  stream_inv (mkStream now c ts) → stall_room c → ts !! i = Some (a :: rest) → act_step now a c = Some (c', more) →
  stream_inv (mkStream now c' (<[i := more ++ rest]> ts)).
Proof.
  intros [Hc Hth Hcl Hj] Hroom Hi E. cbn in *. assert (i < length ts)%nat as Hlen by (by eapply lookup_lt_Some).
  pose proof (Forall_lookup_1 _ _ _ _ Hj Hi) as Hji. apply list.Forall_cons in Hji as [Hja Hjr].
  destruct (conn_ok_act now a c c' more Hroom Hja E Hc) as (Hc' & Hjm & Hlog).
  pose proof (Forall_lookup_1 _ _ _ _ Hth Hi) as Hthi.
  assert (thread_ok (more ++ rest) ∧ close_state c' (<[i := more ++ rest]> ts)) as [Hth' Hcl'].
  { destruct (plain a) eqn:Ep; [|by eapply close_step].
    destruct (calm_plain _ _ _ _ _ Ep E) as [Hcalm Hm]. assert (Forall (λ a, plain a = true) rest) as Hr.
    { inversion Hthi as [p Hpl| | | | |]; subst; try discriminate. by inversion Hpl. }
    assert (Forall (λ a, plain a = true) (more ++ rest)) as Hmr by (by apply Forall_app). split; [by constructor|].
    eapply (close_state_calm c c' ts _ i); try done.
    - intros j q Hne Hq. by rewrite list_lookup_insert_ne in Hq.
    - intros j q Hne Hq. by rewrite list_lookup_insert_ne.
    - intros q Hq. rewrite Hi in Hq. injection Hq as <-. by destruct a.
    - intros q Hq. rewrite list_lookup_insert_eq in Hq by done. injection Hq as <-. by apply plain_closing. }
  split; cbn; [done | by apply Forall_insert | done |].
  apply Forall_insert; [|apply Forall_app; split; [done | by eapply justified_more]].
  revert Hj. apply List.Forall_impl. intros p. by apply justified_more.
Qed.

(** A goroutine is added that does not close. *)
Lemma stream_inv_spawn now c c' ts p :
  stream_inv (mkStream now c ts) → conn_ok now c' → calm c c' → (∃ l, w_log (sc_stall c') = w_log (sc_stall c) ++ l) →
  thread_ok p → closing p = None → Forall (justified (sc_stall c')) p → stream_inv (mkStream now c' (ts ++ [p])).
Proof.
  intros [Hc Hth Hcl Hj] Hc' Hcalm Hlog Hp Hn Hjp. cbn in *. split; cbn; [done | by apply Forall_app; split; [|constructor] | |].
  - eapply (close_state_calm c c' ts _ (length ts)); try done.
    + intros j q Hne Hq. apply lookup_snoc_Some in Hq as [[_ ?]|[? _]]; [done | by destruct Hne].
    + intros j q Hne Hq. by apply lookup_app_l_Some.
    + intros q Hq. by rewrite lookup_ge_None_2 in Hq.
    + intros q Hq. apply lookup_snoc_Some in Hq as [[? _]|[_ <-]]; [lia | done].
  - apply Forall_app. split; [|by constructor]. revert Hj. apply List.Forall_impl. intros q. by apply justified_more.
Qed.

Lemma calm_watch c w : (at_rest c → w_pending w = false) → calm c (sc_set_stall w c).
Proof. intros H. split_and!; try done. intros [? ?]. split; [done | by apply H]. Qed.

Lemma stream_inv_reachable s : stream_reachable s → stream_inv s.
Proof.
  induction 1 as [now startedAt timeout cbs ctx|s s' _ IH Hstep].
  - split; cbn; [|constructor | split; [constructor | done] | constructor].
    split; cbn; [apply watch_new_inv | lia | lia | done | by intros [] | by intros e He%not_elem_of_nil].
  - destruct Hstep as [now c ts p Hp|now c ts i a rest c' more Hi E Hroom|now c ts now' Hle|now c ts e Hx|now c ts g w Hw|now c ts g c' p Hg E].
    + destruct (call_ok p (sc_stall c) Hp) as (Hth & Hn & Hj). eapply stream_inv_spawn; [done | apply IH | apply calm_refl | | done..]. exists []. by rewrite app_nil_r.
    + by eapply stream_inv_act.
    + destruct IH as [[H1 H2 H3 H4 H5 H6] Hth Hcl Hj]. split; try done. split; try done. by eapply watch_later.
    + destruct IH as [[H1 H2 H3 H4 H5 H6] Hth Hcl Hj]. by split.
    + pose proof Hw as Hw'. destruct IH as [Hc Hth Hcl Hj]. cbn in *. pose proof (wd_expire_inv _ _ _ _ _ _ Hw' (co_watch _ _ Hc)) as Hinv.
      assert (w_log w = w_log (sc_stall c) ∧ w_pending w = w_pending (sc_stall c)) as [El Ep].
      { unfold wd_expire in Hw. destruct (w_running _ !! g); [|done]. destruct (_ <=? _); [|done]. by injection Hw as <-. }
      assert (∃ l, w_log w = w_log (sc_stall c) ++ l) as Hlog by (exists []; by rewrite app_nil_r).
      split; cbn; [by apply conn_ok_stall | done | |].
      * eapply (close_state_calm c _ ts ts (length ts)); [apply calm_watch; intros [_ ?]; by rewrite Ep | done | done | | | done]; intros q Hq; by rewrite lookup_ge_None_2 in Hq.
      * revert Hj. apply List.Forall_impl. intros q. by apply justified_more.
    + unfold observeStall in E. destruct (wd_fire now (sc_closed c) g (sc_stall c)) as [w b] eqn:Ef. injection E as <- <-.
      destruct (wd_fire_log _ _ _ _ _ _ Ef) as [Hlog Hexp].
      pose proof (co_watch _ _ (sv_conn _ IH)) as Hw. cbn in Hw. pose proof (wd_fire_inv _ _ _ _ _ _ _ Hg Ef Hw) as Hw'.
      eapply stream_inv_spawn; [done | apply conn_ok_stall; [apply IH | done | done] | | done | | |].
      * apply calm_watch. intros [Hcl Hp]. unfold wd_fire in Ef. rewrite Hcl in Ef. cbn in Ef. by injection Ef as <- _.
      * apply th_plain. by destruct b; repeat constructor.
      * by destruct b.
      * destruct b; repeat constructor. by apply Hexp.
Qed.

(** ** What an observed stream promises *)

(** Whatever reads, writes, closes, timers and cancellations of the request
    interleave, each callback is called at most once, and the total reported at
    the close is the number of bytes counted until then. *)
Theorem stream_callbacks_once s :
  stream_reachable s →
  (count is_first (sc_log (sm_conn s)) ≤ 1)%nat ∧ (count is_failure (sc_log (sm_conn s)) ≤ 1)%nat ∧ (count is_close (sc_log (sm_conn s)) ≤ 1)%nat ∧
  (∀ l1 total d l2, sc_log (sm_conn s) = l1 ++ OnClose total d :: l2 → total = i64 (bytes_counted l1)).
Proof.
  intros Hs. destruct (stream_inv_reachable s Hs) as [[_ H2 H3 _ H5 _] _ Hcl _]. split_and!; [| | |done].
  - destruct (sc_firstRead _); lia.
  - destruct (sc_failureOnce _); lia.
  - unfold close_state in Hcl. destruct (sc_closeOnce _); [lia| |lia]. destruct Hcl as (i & p & pl & _ & _ & Hok & _). destruct pl; cbn in Hok; lia.
Qed.

(** C25. A node is blamed for a stall only on evidence: when a connection reports the
    failure "timeout", a write had started a timer, and for the whole of the stall
    timeout after that no read, no error and no close got to stop it. *)
Theorem stall_is_evidence s e :
  stream_reachable s → e ∈ sc_log (sm_conn s) → failure_type e = Some "timeout"%string →
  ∃ l1 t0 t g l2, w_log (sc_stall (sm_conn s)) = l1 ++ (t0, Armed g) :: (t, Expired g) :: l2 ∧ t0 + sc_stallTimeout (sm_conn s) ≤ t.
Proof.
  intros Hs He Ht. destruct (stream_inv_reachable s Hs) as [[H1 _ _ _ _ H6] _ _ _].
  destruct (H6 e He Ht) as (t & g & Hin). apply list_elem_of_split in Hin as (l1 & l2 & El).
  destruct (wi_history _ _ _ _ H1 _ _ _ _ El) as (t0 & [a ->] & Hle). exists a, t0, t, g, l2. split; [|done]. rewrite El, <- app_assoc. done.
Qed.

(** A stall is not missed and no timer outlives its connection: while a
    connection waits for a response, its timer runs, or has gone off and its
    goroutine is about to report, or the connection is being closed; once the close
    was reported, nothing runs any more. *)
Theorem stall_timer_accounted s :
  stream_reachable s →
  let c := sm_conn s in let w := sc_stall c in
  (w_pending w = true → sc_closed c = true ∨ w_generation w ∈ w_fired w ∨ ∃ deadline, w_running w = {[w_generation w := deadline]}) ∧
  (w_pending w = false → w_running w = ∅) ∧
  (sc_closeOnce c = OnceDone ∨ (∃ total d, OnClose total d ∈ sc_log c) → sc_closed c = true ∧ w_pending w = false ∧ w_running w = ∅).
Proof.
  intros Hs c w. destruct (stream_inv_reachable s Hs) as [[H1 _ _ _ _ _] _ Hcl _]. fold c w in H1, Hcl. pose proof (wi_idle _ _ _ _ H1) as Hidle. split_and!.
  - intros Hp. destruct (wi_pending _ _ _ _ H1 Hp) as (_ & t & _ & _ & [[Hr _]|[(_ & Hf & _)|[_ Hc]]]); eauto.
  - intros Hp. by apply Hidle.
  - intros Hdone. assert (at_rest c) as [Hc Hp]; [|split_and!; [done | done | by apply Hidle]].
    assert (∀ total d, OnClose total d ∈ sc_log c → count is_close (sc_log c) ≠ 0%nat) as Hcount.
    { intros total d Hin E. apply length_zero_iff_nil in E. assert (OnClose total d ∈ List.filter is_close (sc_log c)) as Hf; [|rewrite E in Hf; by apply not_elem_of_nil in Hf].
      apply list_elem_of_In, filter_In. split; [by apply list_elem_of_In | done]. }
    unfold close_state in Hcl. destruct (sc_closeOnce c) eqn:Eo.
    + destruct Hdone as [?|(total & d & Hin)]; [done|]. destruct Hcl as [_ E]. by destruct (Hcount _ _ Hin).
    + destruct Hdone as [?|(total & d & Hin)]; [done|]. destruct Hcl as (i & p & pl & _ & _ & Hok & _). pose proof (Hcount _ _ Hin) as Hne.
      destruct pl; cbn in Hok; [done | by destruct Hok | by destruct Hok | by destruct Hok].
    + by destruct Hcl as (_ & ? & _).
Qed.

(** ** Schedules *)

Inductive user_call : Type :=
| CallRead (n : Z) (err : option go_error)
| CallWrite (n : Z) (err : option go_error)
| CallCountRead (n : Z)
| CallClose (retransmit : option Z).

Definition program (u : user_call) : list act :=
  match u with
  | CallRead n err => Read n err
  | CallWrite n err => Write n err
  | CallCountRead n => observeRead n
  | CallClose r => Close r
  end.

Inductive choice : Type := ChCall (u : user_call) | ChAct (i : nat) | ChTick (now : Z) | ChExpire (g : Z) | ChStall (g : Z).

Definition run_choice (s : stream) (ch : choice) : option stream :=
  let '(mkStream now c ts) := s in
  match ch with
  | ChCall u => Some (mkStream now c (ts ++ [program u]))
  | ChAct i =>
      match ts !! i with
      | Some (a :: rest) =>
          if w_generation (sc_stall c) + 1 <? 2 ^ 64 then
            '(c', more) ← act_step now a c; Some (mkStream now c' (<[i := more ++ rest]> ts))
          else None
      | _ => None
      end
  | ChTick now' => if now <=? now' then Some (mkStream now' c ts) else None
  | ChExpire g => w ← wd_expire now g (sc_stall c); Some (mkStream now (sc_set_stall w c) ts)
  | ChStall g =>
      if bool_decide (g ∈ w_fired (sc_stall c)) then let '(c', p) := observeStall now g c in Some (mkStream now c' (ts ++ [p])) else None
  end.

Fixpoint run_schedule (s : stream) (chs : list choice) : option stream :=
  match chs with [] => Some s | ch :: chs => s' ← run_choice s ch; run_schedule s' chs end.

Lemma run_choice_step s ch s' : run_choice s ch = Some s' → stream_step s s'.
Proof.
  destruct s as [now c ts], ch as [u|i|now'|g|g]; cbn [run_choice]; intros E.
  - injection E as <-. apply ss_call. destruct u; constructor.
  - destruct (ts !! i) as [[|a rest]|] eqn:Hi; [done | | done]. destruct (_ <? _) eqn:Hr; [|done]. apply Z.ltb_lt in Hr.
    destruct (act_step now a c) as [[c' more]|] eqn:Ea; cbn in E; [|done]. injection E as <-. by eapply ss_act.
  - destruct (now <=? now') eqn:Hl; [|done]. apply Z.leb_le in Hl. injection E as <-. by apply ss_tick.
  - destruct (wd_expire _ _ _) as [w|] eqn:Ew; cbn in E; [|done]. injection E as <-. by eapply ss_expire.
  - case_bool_decide; [|done]. destruct (observeStall now g c) as [c' p] eqn:Eo. injection E as <-. by eapply ss_stall.
Qed.

Lemma run_schedule_reachable s chs s' : stream_reachable s → run_schedule s chs = Some s' → stream_reachable s'.
Proof.
  revert s. induction chs as [|ch chs IH]; intros s Hs E; cbn in E; [by injection E as <-|].
  destruct (run_choice s ch) as [s1|] eqn:E1; cbn in E; [|done]. eapply IH; [|done]. eapply sr_step; [done|]. by apply run_choice_step with ch.
Qed.

Definition every_callback : callbacks := mkCallbacks true true true true true.
Definition fresh : stream := mkStream 0 (newSmartObservedConnWithRetransmitReason 0 10 every_callback None) [].

(** A request that is not answered. *)
Definition silent_peer : list choice :=
  [ChCall (CallWrite 100 None); ChAct 0; ChAct 0; ChAct 0; ChAct 0; ChTick 10; ChExpire 1; ChStall 1; ChAct 1; ChAct 1;
   ChCall (CallClose None); ChAct 2; ChAct 2; ChAct 2; ChAct 2; ChAct 2].
Definition silent : stream := default fresh (run_schedule fresh silent_peer).

Lemma silent_reachable : stream_reachable silent.
Proof. refine (run_schedule_reachable fresh silent_peer silent _ _); [apply sr_new | vm_compute; reflexivity]. Qed.

Lemma silent_log : sc_log (sm_conn silent) = [WriteCounted 100; OnFailureReason "timeout"; OnClose 100 10].
Proof. vm_compute. reflexivity. Qed.

Lemma silent_timeout : sc_stallTimeout (sm_conn silent) = 10.
Proof. vm_compute. reflexivity. Qed.

Lemma silent_closed : sc_closeOnce (sm_conn silent) = OnceDone.
Proof. vm_compute. reflexivity. Qed.

Lemma stream_callbacks_once_witness :
  sc_log (sm_conn silent) = [WriteCounted 100; OnFailureReason "timeout"; OnClose 100 10] ∧ (count is_failure (sc_log (sm_conn silent)) ≤ 1)%nat.
Proof. split; [exact silent_log|]. exact (proj1 (proj2 (stream_callbacks_once silent silent_reachable))). Defined.

Lemma stall_is_evidence_witness :
  ∃ l1 t0 t g l2, w_log (sc_stall (sm_conn silent)) = l1 ++ (t0, Armed g) :: (t, Expired g) :: l2 ∧ t0 + 10 ≤ t.
Proof.
  rewrite <- silent_timeout. apply (stall_is_evidence silent (OnFailureReason "timeout") silent_reachable); [|done].
  rewrite silent_log. set_solver.
Defined.

Lemma stall_timer_accounted_witness : w_pending (sc_stall (sm_conn silent)) = false ∧ w_running (sc_stall (sm_conn silent)) = ∅.
Proof.
  destruct (proj2 (proj2 (stall_timer_accounted silent silent_reachable)) (or_introl silent_closed)) as (_ & H1 & H2). split; [exact H1 | exact H2].
Defined.

(** ** Findings *)

(** The goroutine that wrote is overtaken: the response is read before the write is
    noted, and the timer starts for a request that was answered already. *)
Definition overtaken : list choice :=
  [ChCall (CallWrite 100 None); ChCall (CallRead 5 None); ChAct 1; ChAct 1; ChAct 1; ChAct 1; ChAct 0; ChAct 0; ChAct 0; ChAct 0;
   ChTick 10; ChExpire 2; ChStall 2; ChAct 2; ChAct 2].

(** A connection whose only request was answered at once is reported as stalled: the
    write is noted after the call below has returned, and may come after the
    response. *)
Theorem answered_request_stalls :
  ∃ s, run_schedule fresh overtaken = Some s ∧ stream_reachable s ∧
    sc_log (sm_conn s) = [ReadCounted 5; OnFirstByte 0; WriteCounted 100; OnFailureReason "timeout"].
Proof.
  eexists. split; [vm_compute; reflexivity|]. split; [|vm_compute; reflexivity].
  refine (run_schedule_reachable fresh overtaken _ (sr_new _ _ _ _ _) _). vm_compute. reflexivity.
Qed.

(** A copy loop that unwraps the connection reads through the reader it gets and
    calls the counters it gets: both count. *)
Definition unwrapped_copy (n : Z) : list choice :=
  [ChCall (CallRead n None); ChAct 0; ChAct 0; ChAct 0; ChAct 0; ChCall (CallCountRead n); ChAct 1; ChAct 1; ChAct 1;
   ChCall (CallClose None); ChAct 2; ChAct 2; ChAct 2; ChAct 2; ChAct 2].

Theorem unwrapped_bytes_counted_twice :
  ∃ s, run_schedule fresh (unwrapped_copy 1000) = Some s ∧ OnClose 2000 0 ∈ sc_log (sm_conn s).
Proof. eexists. split; [vm_compute; reflexivity|]. cbn. set_solver. Qed.

(** An alert of the TLS library counts as a failure of the proxy protocol, because
    its text begins like the error of another library. *)
Theorem tls_alert_blames_node :
  isSmartProtocolHandshakeFailure (Some (mkError [] false "remote error: tls: bad certificate")) = true.
Proof. vm_compute. reflexivity. Qed.
