(* ===== verification/SmartPacket.v ===== *)
(** * Observed packet connections of the smart group

    [src/protocol/group/smart.go]: the wrapper of a UDP flow that reports a node
    which does not answer.  A response is expected after a number of packets; the
    timer and the goroutines are those of [SmartObserved]. *)

From Stdlib Require Import ZArith Lia String.
From S2P Require Import Prelude SmartObserved.
From stdpp Require Import base gmap sets list strings numbers.

Local Open Scope Z_scope.

(** Why [onNoResponse] was called; the code does not tell. *)
Inductive blame : Type := ByWatchdog | ByClose | ByError (err : option go_error).

(** The callback, and as history the packets that were counted and the check of
    [Close]. *)
Inductive packet_event : Type :=
| PacketRead
| PacketWritten
| CloseUnanswered
| OnNoResponse (why : blame) (elapsed : Z).

Record smartObservedPacketConn : Type := mkPConn {
  pc_startedAt : Z;
  pc_expectResponse : bool;
  pc_requiredPackets : Z;
  pc_watchdogTimeout : Z;
  pc_writePackets : Z;
  pc_readPackets : Z;
  pc_closeOnce : once;
  pc_noResponseOnce : bool;
  pc_onNoResponse : bool;
  pc_closed : bool;
  pc_watchdog : watchdog;
  pc_requestCtx : context;
  pc_log : list packet_event }.

Definition newSmartObservedPacketConnWithWatchdogThreshold (startedAt : Z) (expectResponse : bool) (requiredPackets watchdogTimeout : Z)
    (onNoResponse : bool) (requestCtx : context) : smartObservedPacketConn :=
  mkPConn startedAt expectResponse (if requiredPackets =? 0 then 1 else requiredPackets) watchdogTimeout 0 0 OnceNew false onNoResponse false
    watch_new requestCtx [].

Definition pc_count_read (c : smartObservedPacketConn) : smartObservedPacketConn :=
  mkPConn (pc_startedAt c) (pc_expectResponse c) (pc_requiredPackets c) (pc_watchdogTimeout c) (pc_writePackets c) (u64 (pc_readPackets c + 1))
    (pc_closeOnce c) (pc_noResponseOnce c) (pc_onNoResponse c) (pc_closed c) (pc_watchdog c) (pc_requestCtx c) (pc_log c ++ [PacketRead]).
Definition pc_count_write (c : smartObservedPacketConn) : smartObservedPacketConn :=
  mkPConn (pc_startedAt c) (pc_expectResponse c) (pc_requiredPackets c) (pc_watchdogTimeout c) (u64 (pc_writePackets c + 1)) (pc_readPackets c)
    (pc_closeOnce c) (pc_noResponseOnce c) (pc_onNoResponse c) (pc_closed c) (pc_watchdog c) (pc_requestCtx c) (pc_log c ++ [PacketWritten]).
Definition pc_set_close_once (o : once) (c : smartObservedPacketConn) : smartObservedPacketConn :=
  mkPConn (pc_startedAt c) (pc_expectResponse c) (pc_requiredPackets c) (pc_watchdogTimeout c) (pc_writePackets c) (pc_readPackets c)
    o (pc_noResponseOnce c) (pc_onNoResponse c) (pc_closed c) (pc_watchdog c) (pc_requestCtx c) (pc_log c).
Definition pc_set_no_response_once (c : smartObservedPacketConn) : smartObservedPacketConn :=
  mkPConn (pc_startedAt c) (pc_expectResponse c) (pc_requiredPackets c) (pc_watchdogTimeout c) (pc_writePackets c) (pc_readPackets c)
    (pc_closeOnce c) true (pc_onNoResponse c) (pc_closed c) (pc_watchdog c) (pc_requestCtx c) (pc_log c).
Definition pc_set_closed (c : smartObservedPacketConn) : smartObservedPacketConn :=
  mkPConn (pc_startedAt c) (pc_expectResponse c) (pc_requiredPackets c) (pc_watchdogTimeout c) (pc_writePackets c) (pc_readPackets c)
    (pc_closeOnce c) (pc_noResponseOnce c) (pc_onNoResponse c) true (pc_watchdog c) (pc_requestCtx c) (pc_log c).
Definition pc_set_watchdog (w : watchdog) (c : smartObservedPacketConn) : smartObservedPacketConn :=
  mkPConn (pc_startedAt c) (pc_expectResponse c) (pc_requiredPackets c) (pc_watchdogTimeout c) (pc_writePackets c) (pc_readPackets c)
    (pc_closeOnce c) (pc_noResponseOnce c) (pc_onNoResponse c) (pc_closed c) w (pc_requestCtx c) (pc_log c).
Definition pc_set_ctx (x : context) (c : smartObservedPacketConn) : smartObservedPacketConn :=
  mkPConn (pc_startedAt c) (pc_expectResponse c) (pc_requiredPackets c) (pc_watchdogTimeout c) (pc_writePackets c) (pc_readPackets c)
    (pc_closeOnce c) (pc_noResponseOnce c) (pc_onNoResponse c) (pc_closed c) (pc_watchdog c) x (pc_log c).
Definition pc_tell (e : packet_event) (c : smartObservedPacketConn) : smartObservedPacketConn :=
  mkPConn (pc_startedAt c) (pc_expectResponse c) (pc_requiredPackets c) (pc_watchdogTimeout c) (pc_writePackets c) (pc_readPackets c)
    (pc_closeOnce c) (pc_noResponseOnce c) (pc_onNoResponse c) (pc_closed c) (pc_watchdog c) (pc_requestCtx c) (pc_log c ++ [e]).

Inductive pact : Type :=
| PReadPackets
| PStop
| PWritePackets
| PArmCheck
| PArmLocked
| PFailure (err : option go_error)
| PNotify (why : blame) (elapsed : option Z)
| PWatchContext
| PCloseOnce
| PCloseStore
| PCloseStop
| PCloseCheck
| PCloseDone.

Definition pobserveRead (count : Z) : list pact := if 0 <? count then [PReadPackets; PStop] else [].
Definition pobserveWrite (count : Z) : list pact := if 0 <? count then [PWritePackets] else [].
Definition observePacketFailure (err : option go_error) : list pact := if bool_decide (err = None) then [] else [PFailure err].

(** After the call of the connection below; [PNotify] measures the time itself
    unless it was measured before. *)
Definition ReadFrom (count : Z) (err : option go_error) : list pact := pobserveRead count ++ observePacketFailure err.
Definition WriteTo (count : Z) (err : option go_error) : list pact :=
  if bool_decide (err = None) then pobserveWrite count else observePacketFailure err.
Definition ReadPacket (before after : Z) (err : option go_error) : list pact := pobserveRead (after - before) ++ observePacketFailure err.
Definition WritePacket (count : Z) (err : option go_error) : list pact :=
  if bool_decide (err = None) then pobserveWrite count else observePacketFailure err.
Definition pClose : list pact := [PCloseOnce].

Definition notifyNoResponse (why : blame) (elapsed : Z) (c : smartObservedPacketConn) : smartObservedPacketConn :=
  if pc_noResponseOnce c then c
  else if pc_onNoResponse c then pc_tell (OnNoResponse why elapsed) (pc_set_no_response_once c) else pc_set_no_response_once c.

Definition armWatchdog_locked (now : Z) (c : smartObservedPacketConn) : smartObservedPacketConn :=
  if negb (pc_closed c) then pc_set_watchdog (wd_arm now (pc_watchdogTimeout c) (pc_watchdog c)) c else c.
Definition stopWatchdog (now : Z) (c : smartObservedPacketConn) : smartObservedPacketConn := pc_set_watchdog (wd_stop now (pc_watchdog c)) c.

Definition observeWatchdog (now generation : Z) (c : smartObservedPacketConn) : smartObservedPacketConn * list pact :=
  let '(w, over) := wd_fire now (pc_closed c) generation (pc_watchdog c) in
  (pc_set_watchdog w c, if over then [PWatchContext] else []).

Definition packet_failure (c : smartObservedPacketConn) (err : option go_error) : bool :=
  negb (isSmartRequestContextError (pc_requestCtx c) err) &&
  (isSmartProtocolHandshakeFailure err || (pc_expectResponse c && isSmartPacketFailure err)).

(** The condition of [Close] is read in one action. *)
Definition unanswered (now : Z) (c : smartObservedPacketConn) : bool :=
  negb (ctx_ended (pc_requestCtx c)) && pc_expectResponse c && (pc_requiredPackets c <=? pc_writePackets c) && (pc_readPackets c =? 0) &&
  (second <=? time_sub now (pc_startedAt c)) && pc_onNoResponse c.

Definition pact_step (now : Z) (a : pact) (c : smartObservedPacketConn) : option (smartObservedPacketConn * list pact) :=
  let elapsed := time_sub now (pc_startedAt c) in
  match a with
  | PReadPackets => Some (pc_count_read c, [])
  | PStop => Some (stopWatchdog now c, [])
  | PWritePackets =>
      let c := pc_count_write c in Some (c, if pc_requiredPackets c <=? pc_writePackets c then [PArmCheck] else [])
  | PArmCheck =>
      Some (c, if negb (pc_expectResponse c) || (pc_watchdogTimeout c <=? 0) || pc_closed c || (pc_writePackets c <? pc_requiredPackets c)
               then [] else [PArmLocked])
  | PArmLocked => Some (armWatchdog_locked now c, [])
  | PFailure err => Some (c, if packet_failure c err then [PStop; PNotify (ByError err) None] else [])
  | PNotify why measured => Some (notifyNoResponse why (default elapsed measured) c, [])
  | PWatchContext => Some (c, if ctx_ended (pc_requestCtx c) then [] else [PNotify ByWatchdog None])
  | PCloseOnce =>
      match pc_closeOnce c with
      | OnceNew => Some (pc_set_close_once OnceRunning c, [PCloseStore; PCloseStop; PCloseCheck; PCloseDone])
      | OnceRunning => None
      | OnceDone => Some (c, [])
      end
  | PCloseStore => Some (pc_set_closed c, [])
  | PCloseStop => Some (stopWatchdog now c, [])
  | PCloseCheck => if unanswered now c then Some (pc_tell CloseUnanswered c, [PNotify ByClose (Some elapsed)]) else Some (c, [])
  | PCloseDone => Some (pc_set_close_once OnceDone c, [])
  end.

(** ** The flow with its goroutines *)

Record flow : Type := mkFlow { fl_now : Z; fl_conn : smartObservedPacketConn; fl_threads : list (list pact) }.

Inductive packet_call : Type :=
| CallReadFrom (count : Z) (err : option go_error)
| CallWriteTo (count : Z) (err : option go_error)
| CallReadPacket (before after : Z) (err : option go_error)
| CallWritePacket (count : Z) (err : option go_error)
| CallPClose.

Definition packet_program (u : packet_call) : list pact :=
  match u with
  | CallReadFrom count err => ReadFrom count err
  | CallWriteTo count err => WriteTo count err
  | CallReadPacket before after err => ReadPacket before after err
  | CallWritePacket count err => WritePacket count err
  | CallPClose => pClose
  end.

(** The counters do not wrap. *)
Definition packet_room (c : smartObservedPacketConn) : Prop :=
  w_generation (pc_watchdog c) + 1 < 2 ^ 64 ∧ pc_writePackets c + 1 < 2 ^ 64 ∧ pc_readPackets c + 1 < 2 ^ 64.

#[global] Instance packet_room_dec c : Decision (packet_room c).
Proof. unfold packet_room. apply _. Defined.

Inductive pchoice : Type :=
| PChCall (u : packet_call) | PChAct (i : nat) | PChTick (now : Z) | PChExpire (g : Z) | PChWatchdog (g : Z) | PChContext (e : sentinel).

(** One step of the system, as chosen by the scheduler and the environment. *)
Definition flow_step (s : flow) (ch : pchoice) : option flow :=
  let '(mkFlow now c ts) := s in
  match ch with
  | PChCall u => Some (mkFlow now c (ts ++ [packet_program u]))
  | PChAct i =>
      match ts !! i with
      | Some (a :: rest) =>
          if decide (packet_room c) then '(c', more) ← pact_step now a c; Some (mkFlow now c' (<[i := more ++ rest]> ts)) else None
      | _ => None
      end
  | PChTick now' => if now <=? now' then Some (mkFlow now' c ts) else None
  | PChExpire g => w ← wd_expire now g (pc_watchdog c); Some (mkFlow now (pc_set_watchdog w c) ts)
  | PChWatchdog g =>
      if bool_decide (g ∈ w_fired (pc_watchdog c)) then let '(c', p) := observeWatchdog now g c in Some (mkFlow now c' (ts ++ [p])) else None
  | PChContext e => if bool_decide (pc_requestCtx c = Some None) then Some (mkFlow now (pc_set_ctx (Some (Some e)) c) ts) else None
  end.

Fixpoint run_flow (s : flow) (chs : list pchoice) : option flow :=
  match chs with [] => Some s | ch :: chs => s' ← flow_step s ch; run_flow s' chs end.

Definition flow_start (now startedAt : Z) (expect : bool) (required timeout : Z) (cb : bool) (ctx : context) : flow :=
  mkFlow now (newSmartObservedPacketConnWithWatchdogThreshold startedAt expect required timeout cb ctx) [].

(** ** Evidence *)

Definition never_read (l : list packet_event) : Prop := PacketRead ∉ l.

(** What must have happened for a report. *)
Definition evidence (c : smartObservedPacketConn) (why : blame) : Prop :=
  match why with
  | ByWatchdog => pc_expectResponse c = true ∧ pc_requiredPackets c ≤ pc_writePackets c ∧ expired (pc_watchdog c)
  | ByClose => pc_expectResponse c = true ∧ pc_requiredPackets c ≤ pc_writePackets c ∧
      ∃ l1 l2, pc_log c = l1 ++ CloseUnanswered :: l2 ∧ never_read l1
  | ByError err => isSmartProtocolHandshakeFailure err = true ∨ (pc_expectResponse c = true ∧ isSmartPacketFailure err = true)
  end.

Definition pjustified (c : smartObservedPacketConn) (a : pact) : Prop :=
  match a with
  | PArmLocked => pc_expectResponse c = true ∧ pc_requiredPackets c ≤ pc_writePackets c
  | PNotify why _ => evidence c why
  | PWatchContext => evidence c ByWatchdog
  | _ => True
  end.

Definition is_report (e : packet_event) : bool := match e with OnNoResponse _ _ => true | _ => false end.

Definition is_read (e : packet_event) : bool := match e with PacketRead => true | _ => false end.
Abbreviation pcount f l := (length (List.filter f l)).

Record pconn_ok (now : Z) (c : smartObservedPacketConn) : Prop := {
  po_watch : watch_inv (pc_watchdogTimeout c) now (pc_closed c) (pc_watchdog c);
  po_written : 0 ≤ pc_writePackets c;
  po_read : pc_readPackets c = Z.of_nat (pcount is_read (pc_log c));
  po_armed : ∀ t g, (t, Armed g) ∈ w_log (pc_watchdog c) → pc_expectResponse c = true ∧ pc_requiredPackets c ≤ pc_writePackets c;
  po_once : (pcount is_report (pc_log c) ≤ if pc_noResponseOnce c then 1 else 0)%nat;
  po_reports : ∀ why d, OnNoResponse why d ∈ pc_log c → evidence c why }.

(** What the actions leave: the settings, and longer histories. *)
Record grows (c c' : smartObservedPacketConn) : Prop := {
  gr_expect : pc_expectResponse c' = pc_expectResponse c;
  gr_required : pc_requiredPackets c' = pc_requiredPackets c;
  gr_written : pc_writePackets c ≤ pc_writePackets c';
  gr_log : ∃ l, pc_log c' = pc_log c ++ l;
  gr_watch : ∃ l, w_log (pc_watchdog c') = w_log (pc_watchdog c) ++ l }.

Lemma evidence_grows c c' why : grows c c' → evidence c why → evidence c' why.
Proof.
  intros [E1 E2 E3 [l El] Hw]. destruct why; cbn; rewrite ?E1, ?E2; [| |done].
  - intros (? & ? & ?). split_and!; [done | lia | by eapply expired_more].
  - intros (? & ? & l1 & l2 & E & Hn). split_and!; [done | lia |]. exists l1, (l2 ++ l). split; [|done]. rewrite El, E, <- app_assoc. done.
Qed.

Lemma pjustified_grows c c' a : grows c c' → pjustified c a → pjustified c' a.
Proof.
  intros Hg. destruct a; cbn [pjustified]; try done; [|by apply evidence_grows..].
  destruct Hg as [-> -> ? _ _]. intros [? ?]. split; [done | lia].
Qed.

Lemma pcount_snoc f (l : list packet_event) e : pcount f (l ++ [e]) = (pcount f l + if f e then 1 else 0)%nat.
Proof. rewrite List.filter_app, length_app. cbn. by destruct (f e). Qed.

Lemma never_read_zero l : pcount is_read l = 0%nat → never_read l.
Proof. intros E Hin. apply length_zero_iff_nil in E. assert (PacketRead ∈ List.filter is_read l) as Hf; [|rewrite E in Hf; by apply not_elem_of_nil in Hf]. apply list_elem_of_In, filter_In. split; [by apply list_elem_of_In | done]. Qed.

Lemma grows_same c c' :
  pc_expectResponse c' = pc_expectResponse c → pc_requiredPackets c' = pc_requiredPackets c → pc_writePackets c' = pc_writePackets c →
  pc_log c' = pc_log c → pc_watchdog c' = pc_watchdog c → grows c c'.
Proof. intros E1 E2 E3 E4 E5. split; [done | done | lia | |]; exists []; by rewrite app_nil_r, ?E4, ?E5. Qed.

Lemma grows_watch c w : (∃ l, w_log w = w_log (pc_watchdog c) ++ l) → grows c (pc_set_watchdog w c).
Proof. intros Hl. split; cbn; try done. exists []. by rewrite app_nil_r. Qed.

(** The timer is replaced; a new wait needs packets that expect a response. *)
Lemma pconn_ok_watch now c w l :
  pconn_ok now c → watch_inv (pc_watchdogTimeout c) now (pc_closed c) w → w_log w = w_log (pc_watchdog c) ++ l →
  (∀ t g, (t, Armed g) ∈ l → pc_expectResponse c = true ∧ pc_requiredPackets c ≤ pc_writePackets c) → pconn_ok now (pc_set_watchdog w c).
Proof.
  intros [H1 H2 H3 H4 H5 H6] Hw El Hl. split; cbn; try done.
  - intros t g. rewrite El, elem_of_app. intros [?|?]; [by eapply H4 | by eapply Hl].
  - intros why d Hin. eapply evidence_grows; [apply grows_watch; by exists l | by eapply H6].
Qed.

(** The report itself. *)
Lemma pconn_ok_report now c why d :
  pconn_ok now c → pc_noResponseOnce c = false → evidence c why → pconn_ok now (pc_tell (OnNoResponse why d) (pc_set_no_response_once c)).
Proof.
  intros [H1 H2 H3 H4 H5 H6] Eo Hev. rewrite Eo in H5.
  assert (grows c (pc_tell (OnNoResponse why d) (pc_set_no_response_once c))) as Hg by (split; cbn; try done; [by eexists | exists []; by rewrite app_nil_r]).
  split; cbn [pc_watchdogTimeout pc_closed pc_watchdog pc_writePackets pc_readPackets pc_log pc_noResponseOnce pc_tell pc_set_no_response_once]; try done.
  - rewrite pcount_snoc. cbn. lia.
  - rewrite pcount_snoc. cbn. lia.
  - intros why' d' [Hin|Hin%list_elem_of_singleton]%elem_of_app; (eapply evidence_grows; [exact Hg|]); [by eapply H6 | by injection Hin as -> _].
Qed.

Lemma pact_ok now a c c' more :
  packet_room c → pjustified c a → pact_step now a c = Some (c', more) → pconn_ok now c →
  pconn_ok now c' ∧ grows c c' ∧ Forall (pjustified c') more.
Proof.
  intros (Hr1 & Hr2 & Hr3) Hj E Hc. pose proof Hc as [H1 H2 H3 H4 H5 H6].
  assert (grows c c) as Hrefl by (by apply grows_same).
  assert (pconn_ok now (stopWatchdog now c) ∧ grows c (stopWatchdog now c)) as [Hstop Hstopg].
  { split; [|apply grows_watch; by eexists]. eapply pconn_ok_watch; [done | by apply wd_stop_inv | reflexivity|]. intros t g Hin%list_elem_of_singleton. done. }
  destruct a as [| | | | |err|why measured| | | | | |]; cbn [pact_step] in E; try (injection E as <- <-).
  - assert (u64 (pc_readPackets c + 1) = pc_readPackets c + 1) as Hu by (apply u64_id; unfold fits; lia).
    assert (grows c (pc_count_read c)) as Hg by (split; cbn; try done; [by eexists | exists []; by rewrite app_nil_r]).
    split_and!; [|done|constructor]. split; cbn; rewrite ?pcount_snoc, ?Hu; cbn; try done; try lia.
    intros why d [Hin|Hin%list_elem_of_singleton]%elem_of_app; [|done]. eapply evidence_grows; [exact Hg | by eapply H6].
  - split_and!; [done | done | constructor].
  - assert (u64 (pc_writePackets c + 1) = pc_writePackets c + 1) as Hu by (apply u64_id; unfold fits; lia).
    assert (grows c (pc_count_write c)) as Hg by (split; cbn; rewrite ?Hu; try done; [lia | by eexists | exists []; by rewrite app_nil_r]).
    split_and!; [|done|destruct (_ <=? _); repeat constructor]. split; cbn; rewrite ?pcount_snoc, ?Hu; cbn; try done; try lia.
    + intros t g Hin. destruct (H4 t g Hin). split; [done | lia].
    + intros why d [Hin|Hin%list_elem_of_singleton]%elem_of_app; [|done]. eapply evidence_grows; [exact Hg | by eapply H6].
  - split_and!; [done | done |]. destruct (_ || _) eqn:Eb; [constructor|]. rewrite !orb_false_iff, negb_false_iff, Z.ltb_ge in Eb.
    repeat constructor; cbn; tauto.
  - unfold armWatchdog_locked. destruct (negb _); [|split_and!; [done | done | constructor]].
    destruct (wd_arm_log now (pc_watchdogTimeout c) (pc_watchdog c)) as [l El].
    split_and!; [|apply grows_watch; by exists l | constructor]. eapply pconn_ok_watch; [done | by apply wd_arm_inv | done | by intros].
  - split_and!; [done | done |]. destruct (packet_failure c err) eqn:Ep; [|constructor]. unfold packet_failure in Ep.
    apply andb_true_iff in Ep as [_ Ep]. rewrite orb_true_iff, andb_true_iff in Ep. constructor; [done|]. constructor; [exact Ep | constructor].
  - split_and!; [| |constructor]; unfold notifyNoResponse; destruct (pc_noResponseOnce c) eqn:Eo; try done; rewrite ?Eo in H5.
    + destruct (pc_onNoResponse c); [by apply pconn_ok_report|]. split; cbn; try done. lia.
    + destruct (pc_onNoResponse c); (split; cbn; try done); try (by eexists); exists []; by rewrite app_nil_r.
  - split_and!; [done | done |]. destruct (ctx_ended _); [constructor|]. repeat constructor; apply Hj.
  - destruct (pc_closeOnce c); [|done|]; injection E as <- <-; [|split_and!; [done | done | constructor]].
    split_and!; [by split | by apply grows_same | repeat constructor].
  - split_and!; [|by apply grows_same | constructor]. split; cbn; try done. eapply watch_later; [done | lia | done].
  - split_and!; [done | done | constructor].
  - destruct (unanswered now c) eqn:Eu; injection E as <- <-; [|split_and!; [done | done | constructor]].
    unfold unanswered in Eu. rewrite !andb_true_iff, !Z.leb_le, Z.eqb_eq in Eu. destruct Eu as (((((_ & He) & Hw) & Hr) & _) & _).
    assert (grows c (pc_tell CloseUnanswered c)) as Hg by (split; cbn; try done; [by eexists | exists []; by rewrite app_nil_r]).
    split_and!; [|done|].
    + split; cbn; rewrite ?pcount_snoc; cbn; try done; try lia.
      intros why d [Hin|Hin%list_elem_of_singleton]%elem_of_app; [|done]. eapply evidence_grows; [exact Hg | by eapply H6].
    + repeat constructor; cbn; [done | done |]. exists (pc_log c), []. split; [done|]. apply never_read_zero. lia.
  - split_and!; [by split | by apply grows_same | constructor].
Qed.

Definition flow_ok (s : flow) : Prop := pconn_ok (fl_now s) (fl_conn s) ∧ Forall (Forall (pjustified (fl_conn s))) (fl_threads s).

Lemma packet_program_ok c u : Forall (pjustified c) (packet_program u).
Proof.
  assert (∀ n, Forall (pjustified c) (pobserveRead n)) as Hr by (intros n; unfold pobserveRead; destruct (_ <? _); repeat constructor).
  assert (∀ n, Forall (pjustified c) (pobserveWrite n)) as Hw by (intros n; unfold pobserveWrite; destruct (_ <? _); repeat constructor).
  assert (∀ e, Forall (pjustified c) (observePacketFailure e)) as He by (intros e; unfold observePacketFailure; destruct (bool_decide _); repeat constructor).
  destruct u; cbn; unfold ReadFrom, WriteTo, ReadPacket, WritePacket, pClose; try (by apply Forall_app); try (by destruct (bool_decide _)).
  repeat constructor.
Qed.

Lemma threads_grow c c' ts : grows c c' → Forall (Forall (pjustified c)) ts → Forall (Forall (pjustified c')) ts.
Proof. intros Hg. apply List.Forall_impl. intros p. apply List.Forall_impl. intros a. by apply pjustified_grows. Qed.

Lemma flow_step_ok s ch s' : flow_step s ch = Some s' → flow_ok s → flow_ok s'.
Proof.
  destruct s as [now c ts], ch as [u|i|now'|g|g|e]; cbn [flow_step]; intros E [Hc Ht]; cbn in Hc, Ht.
  - injection E as <-. split; [done|]. apply Forall_app. split; [done|]. constructor; [apply packet_program_ok | constructor].
  - destruct (ts !! i) as [[|a rest]|] eqn:Hi; [done | | done]. case_decide as Hroom; [|done].
    destruct (pact_step now a c) as [[c' more]|] eqn:Ea; cbn in E; [|done]. injection E as <-.
    pose proof (Forall_lookup_1 _ _ _ _ Ht Hi) as Hp. apply list.Forall_cons in Hp as [Ha Hr].
    destruct (pact_ok now a c c' more Hroom Ha Ea Hc) as (Hc' & Hg & Hm). split; [done|]. cbn.
    apply Forall_insert; [by eapply threads_grow|]. apply Forall_app. split; [done|]. revert Hr. apply List.Forall_impl. intros x. by apply pjustified_grows.
  - destruct (now <=? now') eqn:Hl; [|done]. apply Z.leb_le in Hl. injection E as <-. split; [|done]. destruct Hc as [H1 H2 H3 H4 H5 H6]. split; try done.
    by eapply watch_later.
  - destruct (wd_expire now g (pc_watchdog c)) as [w|] eqn:Ew; cbn in E; [|done]. injection E as <-.
    assert (w_log w = w_log (pc_watchdog c) ++ []) as El.
    { rewrite app_nil_r. unfold wd_expire in Ew. destruct (w_running _ !! g); [|done]. destruct (_ <=? _); [|done]. by injection Ew as <-. }
    split; cbn; [|eapply threads_grow; [apply grows_watch; by exists [] | done]].
    eapply pconn_ok_watch; [done | by eapply wd_expire_inv, Hc | done | by intros t g' ?%not_elem_of_nil].
  - case_bool_decide as Hg; [|done]. unfold observeWatchdog in E. destruct (wd_fire now (pc_closed c) g (pc_watchdog c)) as [w b] eqn:Ef. injection E as <-.
    destruct (wd_fire_log _ _ _ _ _ _ Ef) as [[l El] Hexp]. pose proof (wd_fire_inv _ _ _ _ _ _ _ Hg Ef (po_watch _ _ Hc)) as Hw.
    assert (b = true → ∃ t, (t, Armed g) ∈ w_log (pc_watchdog c)) as Harm.
    { intros ->. unfold wd_fire in Ef. destruct (_ || _) eqn:Eb; [done|]. rewrite !orb_false_iff, !negb_false_iff, Z.eqb_eq in Eb. destruct Eb as [[_ Hp] ->].
      destruct (wi_pending _ _ _ _ (po_watch _ _ Hc) Hp) as (_ & t & _ & [a ->] & _). exists t. apply elem_of_app. right. by left. }
    assert (∀ t g', (t, Armed g') ∉ l) as Hno.
    { intros t g' Hin. unfold wd_fire in Ef. destruct (_ || _); injection Ef as <- _; cbn in El.
      - assert (l = []) as -> by (apply (app_inv_head (w_log (pc_watchdog c))); by rewrite app_nil_r). by apply not_elem_of_nil in Hin.
      - apply app_inv_head in El. subst l. by apply list_elem_of_singleton in Hin. }
    split; cbn.
    + eapply pconn_ok_watch; [done | done | done |]. intros t g' Hin. by destruct (Hno t g').
    + apply Forall_app. split; [eapply threads_grow; [apply grows_watch; by exists l | done]|]. constructor; [|constructor].
      destruct b; [|constructor]. destruct (Harm eq_refl) as [t Hin]. destruct (po_armed _ _ Hc t g Hin). repeat constructor; cbn; [done | done | by apply Hexp].
  - case_bool_decide; [|done]. injection E as <-. split; cbn; [|eapply threads_grow; [|done]; by apply grows_same].
    destruct Hc as [H1 H2 H3 H4 H5 H6]. by split.
Qed.

Lemma flow_start_ok now startedAt expect required timeout cb ctx : flow_ok (flow_start now startedAt expect required timeout cb ctx).
Proof.
  split; [|constructor]. split; cbn; [apply watch_new_inv | lia | done | by intros t g ?%not_elem_of_nil | lia | by intros why d ?%not_elem_of_nil].
Qed.

Lemma run_flow_ok s chs s' : run_flow s chs = Some s' → flow_ok s → flow_ok s'.
Proof.
  revert s. induction chs as [|ch chs IH]; intros s E Hs; cbn in E; [by injection E as <-|].
  destruct (flow_step s ch) as [s1|] eqn:E1; cbn in E; [|done]. eapply IH; [done|]. by eapply flow_step_ok.
Qed.

(** C26. A packet flow blames its node at most once, and on evidence: the timer went
    off after enough packets that expect a response, and for the whole of the
    timeout after it was started no packet read, error or close got to stop it; or the flow was closed with enough
    packets sent and none ever read before; or an error of the proxy protocol was
    seen, or an error of the network on a flow that expects a response. *)
Theorem no_response_is_evidence now startedAt expect required timeout cb ctx chs s :
  run_flow (flow_start now startedAt expect required timeout cb ctx) chs = Some s →
  (pcount is_report (pc_log (fl_conn s)) ≤ 1)%nat ∧
  (∀ why d, OnNoResponse why d ∈ pc_log (fl_conn s) → evidence (fl_conn s) why) ∧
  (∀ l1 t g l2, w_log (pc_watchdog (fl_conn s)) = l1 ++ (t, Expired g) :: l2 → ∃ l0 t0, l1 = l0 ++ [(t0, Armed g)] ∧ t0 + pc_watchdogTimeout (fl_conn s) ≤ t).
Proof.
  intros E. destruct (run_flow_ok _ _ _ E (flow_start_ok _ _ _ _ _ _ _)) as [[H1 _ _ _ H5 H6] _]. split_and!; [destruct (pc_noResponseOnce _); lia | done |].
  intros l1 t g l2 El. destruct (wi_history _ _ _ _ H1 _ _ _ _ El) as (t0 & [l0 ->] & Hle). eauto.
Qed.

(** ** Runs *)

Definition flow_of (s : option flow) : flow := default (flow_start 0 0 true 1 10 true None) s.

(** A query that is not answered. *)
Definition lost_query : list pchoice :=
  [PChCall (CallWriteTo 40 None); PChAct 0; PChAct 0; PChAct 0; PChTick 10; PChExpire 1; PChWatchdog 1; PChAct 1; PChAct 1].

Lemma no_response_is_evidence_witness :
  run_flow (flow_start 0 0 true 1 10 true None) lost_query ≠ None ∧
  evidence (fl_conn (flow_of (run_flow (flow_start 0 0 true 1 10 true None) lost_query))) ByWatchdog.
Proof.
  destruct (run_flow (flow_start 0 0 true 1 10 true None) lost_query) as [s|] eqn:E; [|vm_compute in E; discriminate].
  split; [done|]. apply (proj1 (proj2 (no_response_is_evidence 0 0 true 1 10 true None lost_query s E)) ByWatchdog 10).
  assert (pc_log (fl_conn s) = [PacketWritten; OnNoResponse ByWatchdog 10]) as -> by (vm_compute in E; injection E as <-; reflexivity).
  right. by left.
Defined.

(** A session that was answered, whose last packet needs no answer. *)
Definition answered_session : list pchoice :=
  [PChCall (CallWriteTo 40 None); PChAct 0; PChAct 0; PChAct 0; PChCall (CallReadFrom 1200 None); PChAct 1; PChAct 1;
   PChCall (CallWriteTo 40 None); PChAct 2; PChAct 2; PChAct 2; PChTick 10; PChExpire 3; PChWatchdog 3; PChAct 3; PChAct 3].

(** The timer starts again for every packet that is sent after a response, and
    nothing asks whether there was one: a session that was answered blames its node
    when its last packet needs no answer. *)
Theorem answered_session_blamed :
  ∃ s, run_flow (flow_start 0 0 true 1 10 true None) answered_session = Some s ∧
    pc_log (fl_conn s) = [PacketWritten; PacketRead; PacketWritten; OnNoResponse ByWatchdog 10].
Proof. eexists. split; vm_compute; reflexivity. Qed.
