(* ===== verification/SmartSwitch.v ===== *)
(** * Switching of the smart group

    [src/protocol/group/smart.go]: which candidate a connection is ranked first, and
    what a connection that was made does to that choice: manual pins, temporary
    overrides, the stable affinity, the confirmation of a better candidate, the
    cooldown after a switch, and the rules by which the late result of a dial is
    accepted.  It is the reference policy of the build without the policy library;
    [markSelectedWithSnapshot] also has the branches of the other builds.

    Status pages are left out.  Scores and latencies are binary64 numbers; the order
    in which maps are pruned is an argument. *)

From Stdlib Require Import ZArith Lia Ascii String SpecFloat.
From S2P Require Import Prelude Float64.
From stdpp Require Import base gmap sets list strings numbers pretty.

Local Open Scope Z_scope.

(** ** Candidates *)

Record smartCandidateMetadata : Type := mkMeta { md_identity : string; md_dialIdentity : string; md_profileID : string; md_policyID : Z }.
Definition no_metadata : smartCandidateMetadata := mkMeta "" "" "" 0.

Record smartRank : Type := mkRank {
  rk_tag : string;
  rk_identity : string;
  rk_dialIdentity : string;
  rk_policyID : Z;
  rk_selectionGeneration : Z;
  rk_eligible : bool;
  rk_State : string;
  rk_Score : spec_float;
  rk_Samples : spec_float;
  rk_ConnectMS : spec_float;
  rk_ConnectP95MS : spec_float;
  rk_FirstByteMS : spec_float;
  rk_FirstByteP95MS : spec_float }.

Definition set_eligible (r : smartRank) : smartRank :=
  mkRank (rk_tag r) (rk_identity r) (rk_dialIdentity r) (rk_policyID r) (rk_selectionGeneration r) true (rk_State r) (rk_Score r) (rk_Samples r)
    (rk_ConnectMS r) (rk_ConnectP95MS r) (rk_FirstByteMS r) (rk_FirstByteP95MS r).

(** Without a required policy library. *)
Definition set_unavailable (r : smartRank) : smartRank :=
  mkRank (rk_tag r) (rk_identity r) (rk_dialIdentity r) (rk_policyID r) (rk_selectionGeneration r) false "open" (rk_Score r) (rk_Samples r)
    (rk_ConnectMS r) (rk_ConnectP95MS r) (rk_FirstByteMS r) (rk_FirstByteP95MS r).

Definition smartHealthTier (state : string) : Z :=
  if bool_decide (state = "healthy"%string) then 0
  else if bool_decide (state = "warming"%string) || bool_decide (state = "unknown"%string) then 1
  else if bool_decide (state = "suspect"%string) then 2
  else if bool_decide (state = "half_open"%string) then 3
  else if bool_decide (state = "open"%string) then 4
  else 2.

Definition smartRankByTag (ranks : list smartRank) (tag : string) : option smartRank :=
  List.find (λ r, bool_decide (rk_tag r = tag)) ranks.

Fixpoint index_where {A} (f : A → bool) (l : list A) : option nat :=
  match l with [] => None | x :: l => if f x then Some 0%nat else S <$> index_where f l end.
(** [-1] is [None]. *)
Definition smartRankIndex (ranks : list smartRank) (tag : string) : option nat := index_where (λ r, bool_decide (rk_tag r = tag)) ranks.

Definition moveSmartRankFirst (ranks : list smartRank) (index : nat) : list smartRank :=
  match ranks !! index with
  | Some selected => selected :: take index ranks ++ drop (S index) ranks
  | None => ranks
  end.

Definition hasEligibleSmartRank (ranks : list smartRank) : bool := existsb rk_eligible ranks.

(** ** Lines and endpoints *)

Definition is_digit (c : ascii) : bool := let n := N_of_ascii c in ((48 <=? n) && (n <=? 57))%N.
Definition is_lower_hex_digit (c : ascii) : bool := is_digit c || (let n := N_of_ascii c in ((97 <=? n) && (n <=? 102))%N).
Definition isLowerHex (value : string) : bool :=
  (String.length value =? 8)%nat && forallb is_lower_hex_digit (list_ascii_of_string value).
Definition isDecimal (value : string) : bool :=
  forallb is_digit (list_ascii_of_string value) && negb (bool_decide (value = ""%string)).

(** [s[from:to]]. *)
Definition slice (s : string) (from to : nat) : string := String.substring from (to - from) s.

(** [strings.LastIndex]. *)
Fixpoint LastIndex (s sub : string) : option nat :=
  match (match s with EmptyString => None | String _ s => LastIndex s sub end) with
  | Some i => Some (S i)
  | None => if String.prefix sub s then Some 0%nat else None
  end.

Definition smartLineFamily (tag : string) : string :=
  let n := String.length tag in
  if (10 <? n)%nat && bool_decide (slice tag (n - 10) (n - 8) = " #"%string) && isLowerHex (slice tag (n - 8) n) then slice tag 0 (n - 10)
  else if (1 <=? n)%nat && bool_decide (slice tag (n - 1) n = ")"%string) then
    match LastIndex tag " (" with
    | Some open => if (open + 2 <? n - 1)%nat && isDecimal (slice tag (open + 2) (n - 1)) then slice tag 0 open else tag
    | None => tag
    end
  else tag.

Definition smartEquivalentLine (left right : string) : bool :=
  negb (bool_decide (left = right)) && bool_decide (smartLineFamily left = smartLineFamily right).

Definition nonempty_s (s : string) : bool := negb (bool_decide (s = ""%string)).

Definition smartMetadataSameEndpoint (left right : smartCandidateMetadata) : bool :=
  if negb (md_policyID left =? 0) || negb (md_policyID right =? 0) then negb (md_policyID left =? 0) && (md_policyID left =? md_policyID right)
  else if nonempty_s (md_profileID left) && bool_decide (md_profileID left = md_profileID right) then true
  else if nonempty_s (md_dialIdentity left) || nonempty_s (md_dialIdentity right)
  then nonempty_s (md_dialIdentity left) && bool_decide (md_dialIdentity left = md_dialIdentity right)
  else nonempty_s (md_identity left) && bool_decide (md_identity left = md_identity right).

Definition smartSameEndpoint (metadataByTag : gmap string smartCandidateMetadata) (left right : string) : bool :=
  if bool_decide (left = right) then true
  else match metadataByTag !! left, metadataByTag !! right with
       | Some l, Some r => smartMetadataSameEndpoint l r
       | _, _ => smartEquivalentLine left right
       end.

Definition hex_digit (z : Z) : ascii := ascii_of_N (Z.to_N (if z <? 10 then 48 + z else 87 + z)).
(** [strconv.FormatUint(z, 16)]; 16 digits are enough for 64 bits. *)
Fixpoint format_hex (digits : nat) (z : Z) (acc : string) : string :=
  match digits with
  | O => acc
  | S digits =>
      let acc := String (hex_digit (z mod 16)) acc in
      if z <? 16 then acc else format_hex digits (z / 16) acc
  end.

Definition smartEndpointID (ident : string) (policyID : Z) : string :=
  if String.prefix "endpoint:" ident then ident
  else if negb (policyID =? 0) then ("policy:" ++ format_hex 16 policyID "")%string
  else ""%string.

(** ** Improvements *)

Definition smartRelativeImprovement (bestScore currentScore margin : spec_float) : bool :=
  if SFleb currentScore bestScore then false
  else if SFleb margin sf_zero then true
  else SFltb (sf_div bestScore (sf_sub sf_one margin)) currentScore.

Definition smartRankLatencyMS (rank : smartRank) : spec_float :=
  if SFltb sf_zero (rk_FirstByteP95MS rank) then rk_FirstByteP95MS rank
  else if SFltb sf_zero (rk_ConnectP95MS rank) then rk_ConnectP95MS rank
  else if SFltb sf_zero (rk_FirstByteMS rank) then rk_FirstByteMS rank
  else rk_ConnectMS rank.

Definition smartAbsoluteImprovement (best current : smartRank) (minimum : Z) : bool :=
  if minimum <=? 0 then true
  else
    let bestLatency := smartRankLatencyMS best in
    let currentLatency := smartRankLatencyMS current in
    if SFleb bestLatency sf_zero || SFleb currentLatency sf_zero then false
    else SFleb (sf_div (sf_of_Z minimum) (sf_of_Z millisecond)) (sf_sub currentLatency bestLatency).

(** ** State *)

Record smartSwitchChallenge : Type := mkChallenge { ch_Candidate : string; ch_Since : Z; ch_Count : Z }.
Record smartAffinity : Type := mkAffinity { af_Candidate : string; af_ExpiresAt : Z }.

(** The settings of a group. *)
Record settings : Type := mkSettings {
  cf_switchMargin : spec_float;
  cf_switchMinImprovement : Z;
  cf_switchConfirm : Z;
  cf_switchConfirmSamples : Z;
  cf_switchCooldown : Z;
  cf_siteStickiness : Z;
  cf_minSamples : Z;
  cf_maxHistoryEntries : Z;
  cf_phaseInitialized : bool;
  cf_policyBackendRequired : bool;
  cf_policyBackendEnabled : bool }.

(** What a group remembers of a network, site and transport. *)
Record contexts : Type := mkContexts {
  cx_lastSelected : gmap string string;
  cx_lastSelectedAt : gmap string Z;
  cx_performanceCooldown : gmap string Z;
  cx_switchChallenges : gmap string smartSwitchChallenge;
  cx_affinity : gmap string smartAffinity;
  cx_selectionGeneration : gmap string Z;
  cx_zigSelectedEndpoint : gmap string string }.

Record smartControlState : Type := mkControl {
  ct_pinned : string; ct_pinnedEndpoint : string; ct_pinnedDial : string;
  ct_temporary : string; ct_temporaryUntil : Z; ct_temporaryReason : string }.

Inductive smartPhase : Type := smartPhaseCold | smartPhaseBaseline | smartPhaseProfiling | smartPhaseSteady.
Definition phase_num (p : smartPhase) : Z :=
  match p with smartPhaseCold => 0 | smartPhaseBaseline => 1 | smartPhaseProfiling => 2 | smartPhaseSteady => 3 end.

Record SmartSwitchAudit : Type := mkAudit {
  au_Network : string; au_Site : string; au_Transport : string;
  au_Previous : string; au_PreviousEndpointID : string; au_Current : string; au_CurrentEndpointID : string;
  au_Category : string; au_Reason : string; au_PreviousState : string; au_CurrentState : string;
  au_PreviousScore : spec_float; au_CurrentScore : spec_float; au_OccurredAt : Z }.

Record counters : Type := mkCounters { cn_coldStarts : Z; cn_failureFailovers : Z; cn_performanceSwitches : Z; cn_switchesTotal : Z }.

(** What is told to other parts: the use of a candidate, the end of the old
    connections, the choice of the policy library. *)
Inductive effect : Type :=
| CandidateUsed (tag : string)
| PreviousInterrupted (previous current : string)
| BackendSelected (key : string) (policyID : Z).

Record Smart : Type := mkSmart {
  sw_contexts : contexts;
  sw_control : smartControlState;
  sw_phase : smartPhase;
  sw_counters : counters;
  sw_switchAudit : list SmartSwitchAudit;
  sw_latest : string;
  sw_metadata : gmap string smartCandidateMetadata;
  sw_candidates : gset string }.

Definition set_contexts (x : contexts) (s : Smart) : Smart :=
  mkSmart x (sw_control s) (sw_phase s) (sw_counters s) (sw_switchAudit s) (sw_latest s) (sw_metadata s) (sw_candidates s).
Definition set_control (x : smartControlState) (s : Smart) : Smart :=
  mkSmart (sw_contexts s) x (sw_phase s) (sw_counters s) (sw_switchAudit s) (sw_latest s) (sw_metadata s) (sw_candidates s).
Definition set_phase (x : smartPhase) (s : Smart) : Smart :=
  mkSmart (sw_contexts s) (sw_control s) x (sw_counters s) (sw_switchAudit s) (sw_latest s) (sw_metadata s) (sw_candidates s).
Definition set_counters (x : counters) (s : Smart) : Smart :=
  mkSmart (sw_contexts s) (sw_control s) (sw_phase s) x (sw_switchAudit s) (sw_latest s) (sw_metadata s) (sw_candidates s).
Definition set_audit (x : list SmartSwitchAudit) (s : Smart) : Smart :=
  mkSmart (sw_contexts s) (sw_control s) (sw_phase s) (sw_counters s) x (sw_latest s) (sw_metadata s) (sw_candidates s).
Definition set_latest (x : string) (s : Smart) : Smart :=
  mkSmart (sw_contexts s) (sw_control s) (sw_phase s) (sw_counters s) (sw_switchAudit s) x (sw_metadata s) (sw_candidates s).

Definition set_challenges (x : gmap string smartSwitchChallenge) (c : contexts) : contexts :=
  mkContexts (cx_lastSelected c) (cx_lastSelectedAt c) (cx_performanceCooldown c) x (cx_affinity c) (cx_selectionGeneration c) (cx_zigSelectedEndpoint c).

Definition set_affinity (x : gmap string smartAffinity) (c : contexts) : contexts :=
  mkContexts (cx_lastSelected c) (cx_lastSelectedAt c) (cx_performanceCooldown c) (cx_switchChallenges c) x (cx_selectionGeneration c) (cx_zigSelectedEndpoint c).

Definition sep : string := String (ascii_of_nat 0) EmptyString.
Definition smartSelectionKey (networkKey siteKey transport : string) : string := (networkKey ++ sep ++ siteKey ++ sep ++ transport)%string.
Definition smartStatusSelectionKey (networkKey siteDisplay transport : string) : string := (networkKey ++ sep ++ siteDisplay ++ sep ++ transport)%string.

(** ** Operations on the state *)

(** The compare-and-swap loop: the phase only rises. *)
Definition setPhase (phase : smartPhase) (s : Smart) : Smart :=
  if phase_num phase <=? phase_num (sw_phase s) then s else set_phase phase s.

Definition performanceSwitchAllowed (cf : settings) (s : Smart) : bool :=
  if negb (cf_phaseInitialized cf) then true else phase_num smartPhaseProfiling <=? phase_num (sw_phase s).

Definition smartSwitchAuditLimit : nat := 128.
Definition appendSwitchAudit (event : SmartSwitchAudit) (s : Smart) : Smart :=
  let l := sw_switchAudit s in
  let n := length l in
  let l := if (smartSwitchAuditLimit <=? n)%nat then drop (n - smartSwitchAuditLimit + 1) l else l in
  set_audit (l ++ [event]) s.

Definition performanceSwitchCoolingDown (key : string) (now : Z) (c : contexts) : bool :=
  time_after (default time_zero (cx_performanceCooldown c !! key)) now.

Definition clearSwitchChallenge (key : string) (c : contexts) : contexts := set_challenges (delete key (cx_switchChallenges c)) c.

Definition no_challenge : smartSwitchChallenge := mkChallenge "" time_zero 0.
Definition confirmSwitchChallenge (cf : settings) (key candidate : string) (now : Z) (c : contexts) : bool * contexts :=
  let challenge := default no_challenge (cx_switchChallenges c !! key) in
  if negb (bool_decide (ch_Candidate challenge = candidate)) || time_is_zero (ch_Since challenge)
  then (false, set_challenges (<[key := mkChallenge candidate now 1]> (cx_switchChallenges c)) c)
  else
    let challenge := mkChallenge (ch_Candidate challenge) (ch_Since challenge) (ch_Count challenge + 1) in
    let c := set_challenges (<[key := challenge]> (cx_switchChallenges c)) c in
    if (ch_Count challenge <? cf_switchConfirmSamples cf) || (time_sub now (ch_Since challenge) <? cf_switchConfirm cf) then (false, c)
    else (true, clearSwitchChallenge key c).

(** ** Pruning *)

(** The order in which the ranges visit the keys of the maps. *)
Record visits : Type := mkVisits {
  vs_affinity : gmap string smartAffinity → list string;
  vs_endpoints : gmap string string → list string;
  vs_generations : gmap string Z → list string }.

Definition context_limit (cf : settings) : nat := Z.to_nat (Z.min 10000 (Z.max 1024 (Z.quot (cf_maxHistoryEntries cf) 4))).

(** [for key := range m { if len(m) < limit { break }; delete(m, key) }]. *)
Fixpoint evict_until {V} (limit : nat) (keys : list string) (m : gmap string V) : gmap string V :=
  match keys with
  | [] => m
  | key :: keys => if (size m <? limit)%nat then m else evict_until limit keys (delete key m)
  end.

Definition pruneAffinityLocked (cf : settings) (v : visits) (now : Z) (m : gmap string smartAffinity) : gmap string smartAffinity :=
  let limit := context_limit cf in
  if (size m <? limit)%nat then m
  else
    let m := filter (λ x, time_after (af_ExpiresAt x.2) now = true) m in
    evict_until limit (vs_affinity v m) m.

Definition challenge_max_age (cf : settings) : Z :=
  let age := i64 (cf_switchConfirm cf * 8) in if (age <=? 0) || (hour <? age) then hour else age.

(** The range over the endpoints, which drops the generations too. *)
Fixpoint evict_endpoints (limit : nat) (keys : list string) (zig : gmap string string) (gen : gmap string Z) : gmap string string * gmap string Z :=
  match keys with
  | [] => (zig, gen)
  | key :: keys => if (size zig <? limit)%nat && (size gen <? limit)%nat then (zig, gen) else evict_endpoints limit keys (delete key zig) (delete key gen)
  end.

(** The endpoints and the generations, which share their keys. *)
Definition prune_generations (limit : nat) (v : visits) (zig : gmap string string) (gen : gmap string Z) : gmap string string * gmap string Z :=
  let '(zig, gen) := if (limit <=? size zig)%nat then evict_endpoints limit (vs_endpoints v zig) zig gen else (zig, gen) in
  (zig, if (limit <=? size gen)%nat then evict_until limit (vs_generations v gen) gen else gen).

Definition pruneContextStateLocked (cf : settings) (v : visits) (now : Z) (c : contexts) : contexts :=
  let limit := context_limit cf in
  let cooldown := filter (λ x, time_after x.2 now = true) (cx_performanceCooldown c) in
  let challenges := filter (λ x, (challenge_max_age cf <? time_sub now (ch_Since x.2)) = false) (cx_switchChallenges c) in
  let '(zig, gen) := prune_generations limit v (cx_zigSelectedEndpoint c) (cx_selectionGeneration c) in
  mkContexts (cx_lastSelected c) (cx_lastSelectedAt c) cooldown challenges (cx_affinity c) gen zig.

(** ** Control *)

Definition clearTemporaryLocked (x : smartControlState) : smartControlState :=
  mkControl (ct_pinned x) (ct_pinnedEndpoint x) (ct_pinnedDial x) "" time_zero "".
Definition ClearTemporarySelection (s : Smart) : Smart := set_control (clearTemporaryLocked (sw_control s)) s.

Definition SelectOutbound (tag : string) (s : Smart) : bool * Smart :=
  if bool_decide (tag ∈ sw_candidates s) then
    let metadata := default no_metadata (sw_metadata s !! tag) in
    let x := sw_control s in
    (true, set_control (mkControl tag (md_identity metadata) (md_dialIdentity metadata) (ct_temporary x) (ct_temporaryUntil x) (ct_temporaryReason x)) s)
  else (false, s).

Definition clear_pin (x : smartControlState) : smartControlState :=
  mkControl "" "" "" (ct_temporary x) (ct_temporaryUntil x) (ct_temporaryReason x).
Definition ClearSelection (s : Smart) : Smart := set_control (clear_pin (sw_control s)) s.

Definition SelectTemporaryOutbound (tag : string) (ttl : Z) (reason : string) (now : Z) (s : Smart) : bool * Smart :=
  let ttl := if ttl <=? 0 then 30 * minute else ttl in
  if bool_decide (tag ∈ sw_candidates s) then
    let x := sw_control s in
    (true, set_control (mkControl (ct_pinned x) (ct_pinnedEndpoint x) (ct_pinnedDial x) tag (now + ttl) reason) s)
  else (false, s).

Definition releaseConfirmedBrokenPin (candidate : string) (s : Smart) : bool * Smart :=
  if bool_decide (candidate = ""%string) || negb (bool_decide (ct_pinned (sw_control s) = candidate)) then (false, s)
  else (true, set_control (clear_pin (sw_control s)) s).

(** The three sections of [controlSnapshot] without a call of another goroutine in
    between. *)
Definition controlSnapshot (now : Z) (s : Smart) : string * string * Smart :=
  let x := sw_control s in
  let x := if nonempty_s (ct_temporary x) && negb (time_after (ct_temporaryUntil x) now) then clearTemporaryLocked x else x in
  let x := if nonempty_s (ct_temporary x) && negb (bool_decide (ct_temporary x ∈ sw_candidates s)) then clearTemporaryLocked x else x in
  (ct_pinned x, ct_temporary x, set_control x s).

(** ** The stable affinity *)

Definition fnv_offset : Z := 14695981039346656037.
Definition fnv_prime : Z := 1099511628211.
Definition fnv_write (h : Z) (s : string) : Z :=
  fold_left (λ h c, u64 (Z.lxor h (Z.of_N (N_of_ascii c)) * fnv_prime)) (list_ascii_of_string s) h.
Definition affinity_metric (key ident : string) : Z := fnv_write (fnv_write (fnv_write fnv_offset key) sep) ident.

(** The first eligible rank of the best tier. *)
Fixpoint best_tier_index (ranks : list smartRank) (i : nat) (best : option (nat * Z)) : option (nat * Z) :=
  match ranks with
  | [] => best
  | r :: ranks =>
      let tier := smartHealthTier (rk_State r) in
      best_tier_index ranks (S i)
        (if rk_eligible r && match best with Some (_, t) => tier <? t | None => true end then Some (i, tier) else best)
  end.

Definition affinity_identity (r : smartRank) : string :=
  if nonempty_s (rk_identity r) then rk_identity r
  else if negb (rk_policyID r =? 0) then format_hex 16 (rk_policyID r) "" else rk_tag r.

Fixpoint least_metric (key : string) (inPool : smartRank → bool) (ranks : list smartRank) (i : nat) (seen : gset string) (selected : option (nat * Z))
    : option (nat * Z) :=
  match ranks with
  | [] => selected
  | r :: ranks =>
      let ident := affinity_identity r in
      if negb (inPool r) || bool_decide (ident = ""%string) || bool_decide (ident ∈ seen) then least_metric key inPool ranks (S i) seen selected
      else
        let metric := affinity_metric key ident in
        least_metric key inPool ranks (S i) ({[ident]} ∪ seen)
          (match selected with
           | Some (_, m) => if metric <? m then Some (i, metric) else selected
           | None => Some (i, metric)
           end)
  end.

(** [0.05]. *)
Definition zero_score_threshold : spec_float := S754_finite false 7205759403792794 (-57).

Definition in_pool (bestTier : Z) (threshold : spec_float) (r : smartRank) : bool :=
  rk_eligible r && (smartHealthTier (rk_State r) =? bestTier) && SFleb (rk_Score r) threshold.

Definition stableAffinityIndex (cf : settings) (ranks : list smartRank) (key preferredTag : string) : option nat :=
  if bool_decide (key = ""%string) then None
  else
    match best_tier_index ranks 0 None with
    | None => None
    | Some (best, bestTier) =>
        let minimumSamples := sf_of_Z (Z.max 1 (cf_minSamples cf)) in
        if existsb (λ r, rk_eligible r && (smartHealthTier (rk_State r) =? bestTier) && SFltb (rk_Samples r) minimumSamples) ranks then None
        else
          let bestScore := default sf_zero (rk_Score <$> ranks !! best) in
          let threshold := if SFeqb bestScore sf_zero then zero_score_threshold else sf_mul bestScore (SFadd 53 1024 sf_one (cf_switchMargin cf)) in
          let inPool := in_pool bestTier threshold in
          let preferred :=
            if nonempty_s preferredTag
            then index_where (λ r, (bool_decide (rk_identity r = preferredTag) || bool_decide (rk_tag r = preferredTag)) && inPool r) ranks
            else None in
          match preferred with
          | Some i => Some i
          | None => match least_metric key inPool ranks 0 ∅ None with Some (i, _) => Some i | None => Some best end
          end
    end.

(** ** Ranking: who comes first *)

(** What [rankPooled] reads of the state before it ranks. *)
Definition incumbent (cf : settings) (now : Z) (key : string) (c : contexts) : string * Z :=
  let at_ := default time_zero (cx_lastSelectedAt c !! key) in
  let last := default ""%string (cx_lastSelected c !! key) in
  if nonempty_s last && negb (time_is_zero at_) && (0 <? cf_siteStickiness cf) && (cf_siteStickiness cf <? time_sub now at_)
  then (""%string, time_zero) else (last, at_).

Definition not_open (r : smartRank) : bool := negb (bool_decide (rk_State r = "open"%string)).
Definition usable_pin (r : smartRank) : bool := not_open r && negb (bool_decide (rk_State r = "half_open"%string)).

(** The rank of a tag when it is there and passes the test, moved first. *)
Definition promote (ranks : list smartRank) (tag : string) (ok : smartRank → bool) (f : smartRank → smartRank) : option (list smartRank) :=
  i ← smartRankIndex ranks tag; r ← ranks !! i; if ok r then Some (moveSmartRankFirst (<[i := f r]> ranks) i) else None.

(** The current candidate against the first rank. *)
Inductive verdict : Type := Keep | Confirm.
Definition challenge_current (cf : settings) (now : Z) (key current : string) (best cur : smartRank) (s : Smart) : verdict * Smart :=
  let c := sw_contexts s in
  if bool_decide (current = rk_tag best) || smartSameEndpoint (sw_metadata s) current (rk_tag best) ||
     negb (smartRelativeImprovement (rk_Score best) (rk_Score cur) (cf_switchMargin cf)) ||
     negb (smartAbsoluteImprovement best cur (cf_switchMinImprovement cf)) || performanceSwitchCoolingDown key now c
  then (Keep, set_contexts (clearSwitchChallenge key c) s)
  else
    let '(confirmed, c) := confirmSwitchChallenge cf key (rk_tag best) now c in
    (if confirmed then Confirm else Keep, set_contexts c s).

(** The candidate a context is bound to, when it is ranked and its circuit is not
    open. *)
Definition current_rank (ranks : list smartRank) (current : string) : option (nat * smartRank) :=
  if nonempty_s current then (i ← smartRankIndex ranks current; r ← ranks !! i; if not_open r then Some (i, r) else None) else None.

Definition current_of (now : Z) (lastSelected : string) (affinity : smartAffinity) : string :=
  if nonempty_s (af_Candidate affinity) && time_after (af_ExpiresAt affinity) now then af_Candidate affinity else lastSelected.

Definition affinity_first (cf : settings) (key lastSelected : string) (ranks : list smartRank) : list smartRank :=
  match stableAffinityIndex cf ranks key lastSelected with Some i => moveSmartRankFirst ranks i | None => ranks end.

(** The contest between the current candidate and the others. *)
Definition rank_contest (cf : settings) (now : Z) (key lastSelected : string) (affinity : smartAffinity) (ranks : list smartRank) (s : Smart)
    : list smartRank * Smart :=
  if negb (hasEligibleSmartRank ranks) then (ranks, s)
  else
    let ranks := affinity_first cf key lastSelected ranks in
    let current := current_of now lastSelected affinity in
    match current_rank ranks current, ranks with
    | Some (i, cur), best :: _ =>
        if negb (performanceSwitchAllowed cf s) then (moveSmartRankFirst ranks i, set_contexts (clearSwitchChallenge key (sw_contexts s)) s)
        else
          match challenge_current cf now key current best cur s with
          | (Keep, s) => (moveSmartRankFirst ranks i, s)
          | (Confirm, s) => (ranks, s)
          end
    | _, _ => (ranks, s)
    end.

(** [rankPooled] from the sorted ranks on, where the policy library is not used: it
    is not there, and then nothing is eligible if it is required, or the host ranks
    itself. *)
Definition rank_choice (cf : settings) (now : Z) (networkKey siteKey transport : string) (dashboard : bool) (pinned temporary : string)
    (lastSelected : string) (affinity : smartAffinity) (ranks : list smartRank) (s : Smart) : list smartRank * Smart :=
  let key := smartSelectionKey networkKey siteKey transport in
  match ranks with
  | [] => ([], s)
  | first :: _ =>
      if dashboard then (default ranks (promote ranks (if nonempty_s pinned then pinned else lastSelected) (λ _, true) (λ r, r)), s)
      else if cf_policyBackendRequired cf && negb (cf_policyBackendEnabled cf) then (set_unavailable <$> ranks, s)
      else if negb (not_open first) then (ranks, s)
      else
        match (if nonempty_s temporary then promote ranks temporary not_open set_eligible else None) with
        | Some ranks => (ranks, s)
        | None =>
            let s := if nonempty_s temporary then ClearTemporarySelection s else s in
            match (if nonempty_s pinned then promote ranks pinned usable_pin set_eligible else None) with
            | Some ranks => (ranks, s)
            | None =>
                let s := if nonempty_s pinned then (releaseConfirmedBrokenPin pinned s).2 else s in
                rank_contest cf now key lastSelected affinity ranks s
            end
        end
  end.

(** ** A connection was made *)

(** The snapshot that a ranking keeps for its dials. *)
Record snapshot : Type := mkSnap { sn_selected : string; sn_selectedAt : Z; sn_valid : bool }.

(** What a dial reports: the candidate and where it was tried. *)
Record dialled : Type := mkDialled { dd_tag : string; dd_attemptIndex : Z; dd_hadPriorFailure : bool }.

Definition itoaSmall (value : Z) : string := pretty (Z.to_N value).

(** What the late result of a dial means for the selection, on the state after
    pruning. *)
Record judgement : Type := mkJudgement {
  jd_previous : string;
  jd_logicalSwitch : bool;
  jd_failureSwitch : bool;
  jd_generation : Z;
  jd_retained : bool }.

Definition ready_ranks (cf : settings) (ranks : list smartRank) : Z :=
  Z.of_nat (length (List.filter (λ r, SFleb (sf_of_Z (Z.max 1 (cf_minSamples cf))) (rk_Samples r)) ranks)).

Definition judge (cf : settings) (now : Z) (key statusKey : string) (d : dialled) (snap : snapshot) (ranks : list smartRank) (s : Smart) : judgement :=
  let c := sw_contexts s in
  let '(previous, currentSelectedAt) := incumbent cf now key c in
  let sameEndpoint := smartSameEndpoint (sw_metadata s) previous (dd_tag d) in
  let logicalSwitch := nonempty_s previous && negb (bool_decide (previous = dd_tag d)) && negb sameEndpoint in
  let previousRank := smartRankByTag ranks previous in
  let currentRank := smartRankByTag ranks (dd_tag d) in
  let failureSwitch := dd_hadPriorFailure d || match previousRank with Some r => bool_decide (rk_State r = "open"%string) | None => false end in
  let currentGeneration := let g := default 0 (cx_selectionGeneration c !! statusKey) in if g =? 0 then 1 else g in
  let dialGeneration := match currentRank with Some r => rk_selectionGeneration r | None => 0 end in
  let staleSnapshot := sn_valid snap && (negb (bool_decide (previous = sn_selected snap)) || negb (bool_decide (currentSelectedAt = sn_selectedAt snap))) in
  let staleGeneration := negb (dialGeneration =? 0) && negb (dialGeneration =? currentGeneration) in
  let stale := (staleSnapshot || staleGeneration) && logicalSwitch && negb failureSwitch in
  let hedged := cf_policyBackendEnabled cf && nonempty_s previous && logicalSwitch && (0 <? dd_attemptIndex d) && negb (dd_hadPriorFailure d) in
  let materiallyBetter := match previousRank, currentRank with
                          | Some p, Some q => smartRelativeImprovement (rk_Score q) (rk_Score p) (cf_switchMargin cf) &&
                                              smartAbsoluteImprovement q p (cf_switchMinImprovement cf)
                          | _, _ => false
                          end in
  let late := negb (cf_policyBackendEnabled cf) && logicalSwitch && negb failureSwitch && (performanceSwitchCoolingDown key now c || negb materiallyBetter) in
  mkJudgement previous logicalSwitch failureSwitch currentGeneration (stale || hedged || late).

(** The maps after a selection was accepted. *)
Definition commit_contexts (cf : settings) (now : Z) (key statusKey siteKey : string) (tag : string) (j : judgement) (c : contexts)
    (currentEndpointID : string) : contexts :=
  let generation := if jd_logicalSwitch j && negb (bool_decide (default ""%string (cx_zigSelectedEndpoint c !! statusKey) = currentEndpointID))
                    then u64 (jd_generation j + 1) else jd_generation j in
  mkContexts (<[key := tag]> (cx_lastSelected c)) (<[key := now]> (cx_lastSelectedAt c))
    (if negb (cf_policyBackendEnabled cf) && jd_logicalSwitch j && negb (jd_failureSwitch j)
     then <[key := now + cf_switchCooldown cf]> (cx_performanceCooldown c) else cx_performanceCooldown c)
    (delete key (cx_switchChallenges c))
    (if nonempty_s siteKey then <[key := mkAffinity tag (now + cf_siteStickiness cf)]> (cx_affinity c) else cx_affinity c)
    (<[statusKey := generation]> (cx_selectionGeneration c))
    (cx_zigSelectedEndpoint c).

Definition count_switch (j : judgement) (n : counters) : counters :=
  if negb (nonempty_s (jd_previous j)) then mkCounters (u64 (cn_coldStarts n + 1)) (cn_failureFailovers n) (cn_performanceSwitches n) (cn_switchesTotal n)
  else if jd_logicalSwitch j then
    if jd_failureSwitch j then mkCounters (cn_coldStarts n) (u64 (cn_failureFailovers n + 1)) (cn_performanceSwitches n) (u64 (cn_switchesTotal n + 1))
    else mkCounters (cn_coldStarts n) (cn_failureFailovers n) (u64 (cn_performanceSwitches n + 1)) (u64 (cn_switchesTotal n + 1))
  else n.

Definition audit_of (now : Z) (networkKey siteDisplay transport : string) (d : dialled) (j : judgement) (ranks : list smartRank)
    (metadata : gmap string smartCandidateMetadata) : SmartSwitchAudit :=
  let meta tag := default no_metadata (metadata !! tag) in
  let endpoint tag := smartEndpointID (md_identity (meta tag)) (md_policyID (meta tag)) in
  let state tag := default ""%string (rk_State <$> smartRankByTag ranks tag) in
  let score tag := default sf_zero (rk_Score <$> smartRankByTag ranks tag) in
  mkAudit networkKey siteDisplay transport (jd_previous j) (endpoint (jd_previous j)) (dd_tag d) (endpoint (dd_tag d))
    (if jd_failureSwitch j then "failure_failover" else "performance_switch")%string
    (if jd_failureSwitch j then "failed candidate bypassed confirmation"
     else if (0 <? dd_attemptIndex d)%Z then (if dd_hadPriorFailure d then ("failover attempt " ++ itoaSmall (dd_attemptIndex d + 1)%Z)%string else "hedged connection won")
     else "selected best candidate")%string
    (state (jd_previous j)) (state (dd_tag d)) (score (jd_previous j)) (score (dd_tag d)) now.

Definition smartPolicyID (ident : string) : Z :=
  let id := fnv_write (fnv_write fnv_offset ("sing-box/smart-policy/v1" ++ sep)%string) ident in if id =? 0 then 1 else id.

Definition raise_phase (cf : settings) (ranks : list smartRank) (s : Smart) : Smart :=
  let ready := ready_ranks cf ranks in
  if (0 <? Z.of_nat (length ranks)) && (Z.min 2 (Z.of_nat (length ranks)) <=? ready) then setPhase smartPhaseSteady s
  else if 0 <? ready then setPhase smartPhaseProfiling s else s.

(** [markSelectedWithSnapshot]; [tcp] tells whether the base of the transport is
    TCP. *)
Definition markSelectedWithSnapshot (cf : settings) (v : visits) (now : Z) (networkKey siteKey siteDisplay transport : string) (tcp : bool)
    (d : dialled) (snap : snapshot) (ranks : list smartRank) (s : Smart) : Smart * list effect :=
  let key := smartSelectionKey networkKey siteKey transport in
  let statusKey := smartStatusSelectionKey networkKey siteDisplay transport in
  if cf_policyBackendRequired cf && negb (cf_policyBackendEnabled cf) then (s, [])
  else
    let c := sw_contexts s in
    let s := set_contexts (pruneContextStateLocked cf v now (set_affinity (pruneAffinityLocked cf v now (cx_affinity c)) c)) s in
    let j := judge cf now key statusKey d snap ranks s in
    if jd_retained j then (s, [])
    else
      let metadata := default no_metadata (sw_metadata s !! dd_tag d) in
      let endpoint := smartEndpointID (md_identity metadata) (md_policyID metadata) in
      let s := set_contexts (commit_contexts cf now key statusKey siteKey (dd_tag d) j (sw_contexts s) endpoint) s in
      let s := set_latest (dd_tag d) (raise_phase cf ranks s) in
      let s := set_counters (count_switch j (sw_counters s)) s in
      let s := if jd_logicalSwitch j then appendSwitchAudit (audit_of now networkKey siteDisplay transport d j ranks (sw_metadata s)) s else s in
      (s, (if cf_policyBackendEnabled cf
           then [BackendSelected key (if md_policyID metadata =? 0 then smartPolicyID (smartLineFamily (dd_tag d)) else md_policyID metadata)] else []) ++
          (if tcp then [CandidateUsed (dd_tag d)] else []) ++
          (if jd_logicalSwitch j then [PreviousInterrupted (jd_previous j) (dd_tag d)] else [])).

(** ** Ranks *)

Lemma index_where_Some {A} (f : A → bool) l i : index_where f l = Some i → ∃ x, l !! i = Some x ∧ f x = true.
Proof.
  revert i. induction l as [|x l IH]; intros i; cbn; [done|]. destruct (f x) eqn:Ef; [intros [= <-]; eauto|].
  destruct (index_where f l) as [j|] eqn:Ej; cbn; [|done]. intros [= <-]. by apply IH.
Qed.

Lemma index_where_exists {A} (f : A → bool) l x : x ∈ l → f x = true → is_Some (index_where f l).
Proof.
  intros Hin Hf. induction l as [|y l IH]; [by apply not_elem_of_nil in Hin|]. cbn. destruct (f y) eqn:Ey; [by eexists|].
  apply elem_of_cons in Hin as [->|Hin]; [congruence|]. destruct (IH Hin) as [i ->]. by eexists.
Qed.

Lemma smartRankIndex_Some ranks tag i : smartRankIndex ranks tag = Some i → ∃ r, ranks !! i = Some r ∧ rk_tag r = tag.
Proof. intros (r & Hr & Ht)%index_where_Some. exists r. split; [done|]. by apply bool_decide_eq_true_1 in Ht. Qed.

Lemma moveSmartRankFirst_perm ranks i : moveSmartRankFirst ranks i ≡ₚ ranks.
Proof.
  unfold moveSmartRankFirst. destruct (ranks !! i) as [r|] eqn:E; [|done].
  rewrite <- (take_drop_middle ranks i r E) at 3. by rewrite Permutation_middle.
Qed.

Lemma moveSmartRankFirst_head ranks i r : ranks !! i = Some r → ∃ rest, moveSmartRankFirst ranks i = r :: rest.
Proof. intros E. unfold moveSmartRankFirst. rewrite E. by eexists. Qed.

Lemma promote_Some ranks tag ok f ranks' :
  promote ranks tag ok f = Some ranks' → ∃ i r rest, ranks !! i = Some r ∧ rk_tag r = tag ∧ ok r = true ∧ ranks' = f r :: rest.
Proof.
  unfold promote. destruct (smartRankIndex ranks tag) as [i|] eqn:Ei; cbn; [|done].
  apply smartRankIndex_Some in Ei as (r & Hr & Ht). rewrite Hr. cbn. destruct (ok r) eqn:Eo; [|done]. intros [= <-].
  destruct (moveSmartRankFirst_head (<[i := f r]> ranks) i (f r)) as [rest Hrest]; [apply list_lookup_insert_eq; by eapply lookup_lt_Some|].
  by exists i, r, rest.
Qed.

(** ** Manual choices *)

Lemma challenge_current_control cf now key current best cur s : sw_control (challenge_current cf now key current best cur s).2 = sw_control s.
Proof. unfold challenge_current. destruct (_ || _); [done|]. by destruct (confirmSwitchChallenge _ _ _ _ _). Qed.

Lemma rank_contest_control cf now key last aff ranks s : sw_control (rank_contest cf now key last aff ranks s).2 = sw_control s.
Proof.
  unfold rank_contest. destruct (negb _); [done|]. destruct (current_rank _ _) as [[i cur]|]; [|done]. destruct (affinity_first _ _ _ _) as [|best rest]; [done|].
  destruct (negb _); [done|]. pose proof (challenge_current_control cf now key (current_of now last aff) best cur s) as H.
  destruct (challenge_current _ _ _ _ _ _ _) as [[] s']; done.
Qed.

(** With distinct tags, the rank of a tag is found. *)
Lemma promote_found ranks r ok f :
  NoDup (rk_tag <$> ranks) → r ∈ ranks → ok r = true → ∃ rest, promote ranks (rk_tag r) ok f = Some (f r :: rest).
Proof.
  intros Hnd Hin Hok. destruct (index_where_exists (λ x, bool_decide (rk_tag x = rk_tag r)) ranks r Hin) as [i Hi]; [by apply bool_decide_eq_true_2|].
  assert (ranks !! i = Some r) as Hr.
  { destruct (smartRankIndex_Some ranks (rk_tag r) i Hi) as (q & Hq & Ht). apply list_elem_of_lookup in Hin as [k Hk].
    assert (i = k) as ->; [|done]. apply (NoDup_lookup (rk_tag <$> ranks) i k (rk_tag r) Hnd); rewrite list_lookup_fmap, ?Hq, ?Hk; cbn; congruence. }
  unfold promote, smartRankIndex. rewrite Hi. cbn. rewrite Hr. cbn. rewrite Hok.
  destruct (moveSmartRankFirst_head (<[i := f r]> ranks) i (f r)) as [rest ->]; [apply list_lookup_insert_eq; by eapply lookup_lt_Some|]. by exists rest.
Qed.

(** A manual pin is authoritative: while its candidate is ranked with a circuit
    that is neither open nor half open and no temporary override is in force, every
    connection is ranked with it first, whatever the scores, and no state of the
    switching changes; and a pin whose candidate is not usable is released. *)
Theorem pin_authoritative cf now net site tr pinned last aff ranks s first rest :
  cf_policyBackendRequired cf = false → ranks = first :: rest → not_open first = true → nonempty_s pinned = true → ct_pinned (sw_control s) = pinned →
  NoDup (rk_tag <$> ranks) →
  let '(ranks', s') := rank_choice cf now net site tr false pinned "" last aff ranks s in
  (∀ r, r ∈ ranks → rk_tag r = pinned → usable_pin r = true → s' = s ∧ ∃ rest', ranks' = set_eligible r :: rest') ∧
  ((∀ r, r ∈ ranks → rk_tag r = pinned → usable_pin r = false) → ct_pinned (sw_control s') = ""%string).
Proof.
  intros Hreq Hranks Ho Hpin Hs Hnd.
  assert (rank_choice cf now net site tr false pinned "" last aff ranks s =
    match promote ranks pinned usable_pin set_eligible with
    | Some ranks => (ranks, s)
    | None => rank_contest cf now (smartSelectionKey net site tr) last aff ranks (releaseConfirmedBrokenPin pinned s).2
    end) as ->.
  { unfold rank_choice. rewrite Hranks, Hreq, Ho. cbn [negb andb]. change (nonempty_s "") with false. cbv iota. by rewrite Hpin. }
  destruct (promote ranks pinned usable_pin set_eligible) as [ps|] eqn:Ep.
  - destruct (promote_Some _ _ _ _ _ Ep) as (i & r & rest' & Hi & Ht & Hu & ->). split.
    + intros q Hq <- Hqu. split; [done|]. destruct (promote_found ranks q usable_pin set_eligible Hnd Hq Hqu) as [rest2 E2].
      exists rest2. congruence.
    + intros Hno. rewrite (Hno r) in Hu; [done | by eapply list_elem_of_lookup_2 | done].
  - pose proof (rank_contest_control cf now (smartSelectionKey net site tr) last aff ranks (releaseConfirmedBrokenPin pinned s).2) as Hc.
    destruct (rank_contest _ _ _ _ _ _ _) as [ranks' s']. cbn in Hc. split.
    + intros q Hq <- Hqu. destruct (promote_found ranks q usable_pin set_eligible Hnd Hq Hqu) as [rest2 E2]. congruence.
    + intros _. rewrite Hc. unfold releaseConfirmedBrokenPin. unfold nonempty_s in Hpin. apply negb_true_iff in Hpin. rewrite Hpin, Hs.
      by rewrite bool_decide_eq_true_2.
Qed.

(** ** A better candidate *)

(** A challenge that has been seen often and long enough. *)
Definition confirmed_challenge (cf : settings) (key tag : string) (now : Z) (c : contexts) : Prop :=
  ∃ ch, cx_switchChallenges c !! key = Some ch ∧ ch_Candidate ch = tag ∧ ch_Since ch ≠ time_zero ∧
    cf_switchConfirmSamples cf ≤ ch_Count ch + 1 ∧ cf_switchConfirm cf ≤ time_sub now (ch_Since ch).

Lemma confirm_true cf key tag now c c' : confirmSwitchChallenge cf key tag now c = (true, c') → tag ≠ ""%string → confirmed_challenge cf key tag now c.
Proof.
  unfold confirmSwitchChallenge. destruct (cx_switchChallenges c !! key) as [ch|] eqn:Ech; cbn [default].
  - destruct (negb _ || _) eqn:Eg; [done|]. apply orb_false_iff in Eg as [Eg Ez]. apply negb_false_iff, bool_decide_eq_true_1 in Eg.
    unfold time_is_zero in Ez. apply bool_decide_eq_false_1 in Ez. cbn [ch_Candidate ch_Since ch_Count].
    destruct (_ || _) eqn:Eo; [done|]. apply orb_false_iff in Eo as [E1 E2]. apply Z.ltb_ge in E1, E2. intros _ _. by exists ch.
  - cbn. case_bool_decide; [congruence | done].
Qed.

Lemma confirm_fresh cf key tag now c : cx_switchChallenges c !! key = None → (confirmSwitchChallenge cf key tag now c).1 = false.
Proof.
  intros E. unfold confirmSwitchChallenge. rewrite E. cbn [default]. change (time_is_zero (ch_Since no_challenge)) with true. by rewrite orb_true_r.
Qed.

Lemma affinity_first_perm cf key last ranks : affinity_first cf key last ranks ≡ₚ ranks.
Proof. unfold affinity_first. destruct (stableAffinityIndex _ _ _ _); [apply moveSmartRankFirst_perm | done]. Qed.

Lemma current_rank_Some ranks current i r :
  current_rank ranks current = Some (i, r) → ranks !! i = Some r ∧ rk_tag r = current ∧ not_open r = true.
Proof.
  unfold current_rank. destruct (nonempty_s current); [|done]. destruct (smartRankIndex ranks current) as [j|] eqn:Ej; cbn; [|done].
  apply smartRankIndex_Some in Ej as (q & Hq & Ht). rewrite Hq. cbn. destruct (not_open q) eqn:Eo; [|done]. by intros [= <- <-].
Qed.

Lemma current_rank_found ranks current :
  nonempty_s current = true → current ∈ rk_tag <$> ranks → (∀ r, r ∈ ranks → rk_tag r = current → not_open r = true) →
  ∃ i r, current_rank ranks current = Some (i, r).
Proof.
  intros Hc (r & -> & Hr)%list_elem_of_fmap Hno. unfold current_rank. rewrite Hc.
  destruct (index_where_exists (λ x, bool_decide (rk_tag x = rk_tag r)) ranks r Hr) as [i Hi]; [by apply bool_decide_eq_true_2|].
  unfold smartRankIndex. rewrite Hi. cbn. destruct (smartRankIndex_Some _ _ _ Hi) as (q & Hq & Ht). rewrite Hq. cbn.
  rewrite (Hno q); [eauto | by eapply list_elem_of_lookup_2 | done].
Qed.


(** ** Late results *)

Lemma cooling_pruned cf v now key c :
  0 ≤ now → performanceSwitchCoolingDown key now (pruneContextStateLocked cf v now c) = performanceSwitchCoolingDown key now c.
Proof.
  intros Hnow. unfold performanceSwitchCoolingDown, pruneContextStateLocked. destruct (prune_generations _ _ _ _) as [zig gen]. cbn [cx_performanceCooldown].
  rewrite map_lookup_filter. destruct (cx_performanceCooldown c !! key) as [u|]; cbn; [|done]. case_guard as Hg; cbn; [done|].
  apply not_true_is_false in Hg. rewrite Hg. unfold time_after, time_zero. case_bool_decide; [lia | done].
Qed.

Lemma prune_last cf v now c :
  cx_lastSelected (pruneContextStateLocked cf v now c) = cx_lastSelected c ∧ cx_lastSelectedAt (pruneContextStateLocked cf v now c) = cx_lastSelectedAt c ∧
  cx_affinity (pruneContextStateLocked cf v now c) = cx_affinity c.
Proof. unfold pruneContextStateLocked. destruct (prune_generations _ _ _ _) as [zig gen]. done. Qed.

(** The state on which the result of a dial is judged. *)
Definition pruned (cf : settings) (v : visits) (now : Z) (s : Smart) : Smart :=
  let c := sw_contexts s in
  set_contexts (pruneContextStateLocked cf v now (set_affinity (pruneAffinityLocked cf v now (cx_affinity c)) c)) s.

Lemma pruned_last cf v now s :
  cx_lastSelected (sw_contexts (pruned cf v now s)) = cx_lastSelected (sw_contexts s) ∧
  cx_lastSelectedAt (sw_contexts (pruned cf v now s)) = cx_lastSelectedAt (sw_contexts s) ∧
  cx_affinity (sw_contexts (pruned cf v now s)) = pruneAffinityLocked cf v now (cx_affinity (sw_contexts s)).
Proof. unfold pruned. cbn [sw_contexts set_contexts]. by destruct (prune_last cf v now (set_affinity (pruneAffinityLocked cf v now (cx_affinity (sw_contexts s))) (sw_contexts s))) as (-> & -> & ->). Qed.

Lemma pruned_incumbent cf v now key s : incumbent cf now key (sw_contexts (pruned cf v now s)) = incumbent cf now key (sw_contexts s).
Proof. unfold incumbent. by destruct (pruned_last cf v now s) as (-> & -> & _). Qed.

Lemma pruned_cooling cf v now key s :
  0 ≤ now → performanceSwitchCoolingDown key now (sw_contexts (pruned cf v now s)) = performanceSwitchCoolingDown key now (sw_contexts s).
Proof. intros Hnow. unfold pruned. cbn [sw_contexts set_contexts]. by rewrite cooling_pruned. Qed.

Lemma same_endpoint_refl m tag : smartSameEndpoint m tag tag = true.
Proof. unfold smartSameEndpoint. by rewrite bool_decide_eq_true_2. Qed.

(** A release that has no selection of its own, while the policy library is closed. *)
Definition backend_missing (cf : settings) : bool := cf_policyBackendRequired cf && negb (cf_policyBackendEnabled cf).

(** The contexts after an accepted result, as the theorems need them. *)
Lemma backend_there cf : cf_policyBackendRequired cf = false → backend_missing cf = false.
Proof. unfold backend_missing. by intros ->. Qed.

Lemma mark_unfold cf v now net site disp tr tcp d snap ranks s :
  backend_missing cf = false →
  let key := smartSelectionKey net site tr in
  let j := judge cf now key (smartStatusSelectionKey net disp tr) d snap ranks (pruned cf v now s) in
  let s' := (markSelectedWithSnapshot cf v now net site disp tr tcp d snap ranks s).1 in
  if jd_retained j then markSelectedWithSnapshot cf v now net site disp tr tcp d snap ranks s = (pruned cf v now s, [])
  else ∃ endpoint, sw_contexts s' = commit_contexts cf now key (smartStatusSelectionKey net disp tr) site (dd_tag d) j (sw_contexts (pruned cf v now s)) endpoint ∧
    sw_control s' = sw_control s ∧ sw_metadata s' = sw_metadata s ∧ sw_candidates s' = sw_candidates s ∧
    (jd_logicalSwitch j = true →
     PreviousInterrupted (jd_previous j) (dd_tag d) ∈ (markSelectedWithSnapshot cf v now net site disp tr tcp d snap ranks s).2).
Proof.
  intros Hreq key j s'. unfold s', markSelectedWithSnapshot. unfold backend_missing in Hreq. rewrite Hreq. clear Hreq. fold (pruned cf v now s) key. fold j.
  destruct (jd_retained j); [done|]. eexists. cbn [fst snd].
  assert (∀ x, sw_contexts (raise_phase cf ranks x) = sw_contexts x ∧
    sw_control (raise_phase cf ranks x) = sw_control x ∧ sw_metadata (raise_phase cf ranks x) = sw_metadata x ∧ sw_candidates (raise_phase cf ranks x) = sw_candidates x) as Hphase.
  { intros x. unfold raise_phase, setPhase. destruct (_ && _); [by destruct (_ <=? _)|]. destruct (_ <? _); [by destruct (_ <=? _) | done]. }
  set (x := set_contexts _ _). destruct (Hphase x) as (P1 & P2 & P3 & P4).
  destruct (jd_logicalSwitch j); unfold appendSwitchAudit; cbn [sw_contexts sw_control sw_metadata sw_candidates set_audit set_counters set_latest];
    rewrite P1, P2, P3, P4; split_and!; try done.
  intros _. apply elem_of_app. right. apply elem_of_app. right. by left.
Qed.

(** The parts of the judgement by name. *)
Definition stale_generation (j : judgement) (ranks : list smartRank) (tag : string) : bool :=
  let dialGeneration := match smartRankByTag ranks tag with Some r => rk_selectionGeneration r | None => 0 end in
  negb (dialGeneration =? 0) && negb (dialGeneration =? jd_generation j).
Definition materially_better (cf : settings) (ranks : list smartRank) (previous tag : string) : bool :=
  match smartRankByTag ranks previous, smartRankByTag ranks tag with
  | Some p, Some q => smartRelativeImprovement (rk_Score q) (rk_Score p) (cf_switchMargin cf) && smartAbsoluteImprovement q p (cf_switchMinImprovement cf)
  | _, _ => false
  end.

(** C23. A late result does not roll back a newer choice.  A connection through another endpoint
    than the current one is accepted as the new selection always when an attempt before it
    failed or the current candidate's circuit is open (except that with the policy library a
    hedge that won without a failure before it is never accepted); otherwise it is accepted
    only when the selection, if the dial recorded it, is the one it was ranked against, and,
    without the policy library, which judges these itself, only when the last switch has
    cooled down and it is better by both margins.  When it is not accepted, nothing is
    selected, counted or interrupted; where the library is required and closed, nothing
    changes at all. *)
Theorem late_result_judged cf v now net site disp tr tcp d snap ranks s :
  0 ≤ now →
  let key := smartSelectionKey net site tr in
  let '(previous, selectedAt) := incumbent cf now key (sw_contexts s) in
  let '(s', effects) := markSelectedWithSnapshot cf v now net site disp tr tcp d snap ranks s in
  nonempty_s previous = true → smartSameEndpoint (sw_metadata s) previous (dd_tag d) = false →
  let failed := dd_hadPriorFailure d = true ∨ (∃ r, smartRankByTag ranks previous = Some r ∧ rk_State r = "open"%string) in
  let hedged := cf_policyBackendEnabled cf = true ∧ 0 < dd_attemptIndex d ∧ dd_hadPriorFailure d = false in
  let accepted := cx_lastSelected (sw_contexts s') = <[key := dd_tag d]> (cx_lastSelected (sw_contexts s)) ∧ PreviousInterrupted previous (dd_tag d) ∈ effects in
  let rejected := cx_lastSelected (sw_contexts s') = cx_lastSelected (sw_contexts s) ∧ sw_counters s' = sw_counters s ∧ effects = [] in
  let unchanged := sn_valid snap = true → previous = sn_selected snap ∧ selectedAt = sn_selectedAt snap in
  let better := performanceSwitchCoolingDown key now (sw_contexts s) = false ∧
    ∃ p q, smartRankByTag ranks previous = Some p ∧ smartRankByTag ranks (dd_tag d) = Some q ∧
      smartRelativeImprovement (rk_Score q) (rk_Score p) (cf_switchMargin cf) = true ∧ smartAbsoluteImprovement q p (cf_switchMinImprovement cf) = true in
  if backend_missing cf then s' = s ∧ effects = []
  else (accepted ∧ ¬ hedged ∧ (failed ∨ (unchanged ∧ (cf_policyBackendEnabled cf = false → better)))) ∨ (rejected ∧ (¬ failed ∨ hedged)).
Proof.
  intros Hnow key. destruct (backend_missing cf) eqn:Hreq.
  { unfold markSelectedWithSnapshot. unfold backend_missing in Hreq. rewrite Hreq. by destruct (incumbent cf now key (sw_contexts s)). }
  pose proof (mark_unfold cf v now net site disp tr tcp d snap ranks s Hreq) as Hmark. cbv zeta in Hmark. fold key in Hmark.
  destruct (incumbent cf now key (sw_contexts s)) as [previous selectedAt] eqn:Einc.
  destruct (markSelectedWithSnapshot cf v now net site disp tr tcp d snap ranks s) as [s' effects]. cbn [fst snd] in Hmark.
  intros Hprev Hsame failed hedged accepted rejected unchanged better.
  set (j := judge cf now key (smartStatusSelectionKey net disp tr) d snap ranks (pruned cf v now s)) in *.
  assert (previous ≠ dd_tag d) as Hne by (intros ->; by rewrite same_endpoint_refl in Hsame).
  assert (jd_previous j = previous ∧ jd_logicalSwitch j = true) as [Hjp Hjl].
  { unfold j, judge. rewrite pruned_incumbent, Einc. cbn [jd_previous jd_logicalSwitch]. split; [done|].
    change (sw_metadata (pruned cf v now s)) with (sw_metadata s). by rewrite Hprev, Hsame, bool_decide_eq_false_2. }
  assert (jd_failureSwitch j = true ↔ failed) as Hfail.
  { unfold j, judge, failed. rewrite pruned_incumbent, Einc. cbn [jd_failureSwitch]. rewrite orb_true_iff. split.
    - intros [?|Hr]; [by left | right]. destruct (smartRankByTag ranks previous) as [r|]; [|done]. exists r. by apply bool_decide_eq_true_1 in Hr.
    - intros [?|(r & -> & Hr)]; [by left | right]. by apply bool_decide_eq_true_2. }
  assert (cf_policyBackendEnabled cf && (0 <? dd_attemptIndex d) && negb (dd_hadPriorFailure d) = true ↔ hedged) as Hhedge.
  { unfold hedged. rewrite !andb_true_iff, negb_true_iff, Z.ltb_lt. tauto. }
  assert (jd_retained j = ((sn_valid snap && (negb (bool_decide (previous = sn_selected snap)) || negb (bool_decide (selectedAt = sn_selectedAt snap))) ||
      stale_generation j ranks (dd_tag d)) && negb (jd_failureSwitch j) ||
    cf_policyBackendEnabled cf && (0 <? dd_attemptIndex d) && negb (dd_hadPriorFailure d) ||
    negb (cf_policyBackendEnabled cf) && negb (jd_failureSwitch j) &&
      (performanceSwitchCoolingDown key now (sw_contexts s) || negb (materially_better cf ranks previous (dd_tag d))))) as Eret.
  { revert Hjl. unfold j, judge. rewrite pruned_incumbent, Einc, ?pruned_cooling by done. cbn [jd_retained jd_logicalSwitch jd_failureSwitch].
    intros Hl. rewrite Hl, Hprev, !andb_true_r. done. }
  destruct (jd_retained j) eqn:Er; symmetry in Eret.
  - right. injection Hmark as -> ->. split; [split_and!; [apply pruned_last | done | done]|].
    destruct (jd_failureSwitch j) eqn:Ef; [right | left; intros Hf%Hfail; congruence].
    rewrite !andb_false_r, !andb_false_l, orb_false_l, orb_false_r in Eret. by apply Hhedge.
  - left. destruct Hmark as (endpoint & Hctx & _ & _ & _ & Hint). rewrite !orb_false_iff in Eret. destruct Eret as [[Est Ehedge] Elate]. split; [split | split].
    + rewrite Hctx. unfold commit_contexts. cbn [cx_lastSelected]. by destruct (pruned_last cf v now s) as (-> & _).
    + rewrite <- Hjp. by apply Hint.
    + intros Hh%Hhedge. congruence.
    + destruct (jd_failureSwitch j) eqn:Ef; [left; by apply Hfail | right]. cbn [negb] in Est, Elate. rewrite andb_true_r in Est, Elate.
      apply orb_false_iff in Est as [Est _]. split.
      * intros Hv. rewrite Hv in Est. cbn [andb] in Est. apply orb_false_iff in Est as [E1 E2]. apply negb_false_iff, bool_decide_eq_true_1 in E1, E2. done.
      * intros Hback. rewrite Hback in Elate. cbn [negb andb] in Elate. apply orb_false_iff in Elate as [Ecool Ebet]. split; [done|].
        apply negb_false_iff in Ebet. unfold materially_better in Ebet.
        destruct (smartRankByTag ranks previous) as [p|]; [|done]. destruct (smartRankByTag ranks (dd_tag d)) as [q|]; [|done].
        apply andb_true_iff in Ebet as [? ?]. by exists p, q.
Qed.

(** ** Requests one after another *)

(** A connection whose first attempt succeeds: it is ranked, the first rank is
    dialled, and the selection is marked.  [ranks] is what the estimates give at that
    time. *)
Record request : Type := mkRequest { rq_now : Z; rq_ranks : list smartRank; rq_visits : visits }.

Definition no_affinity : smartAffinity := mkAffinity "" time_zero.

Definition serve (cf : settings) (net site disp tr : string) (tcp : bool) (s : Smart) (q : request) : Smart :=
  let now := rq_now q in
  let key := smartSelectionKey net site tr in
  let '(pinned, temporary, s) := controlSnapshot now s in
  let '(last, at_) := incumbent cf now key (sw_contexts s) in
  let affinity := default no_affinity (cx_affinity (sw_contexts s) !! key) in
  let '(ranks, s) := rank_choice cf now net site tr false pinned temporary last affinity (rq_ranks q) s in
  match ranks with
  | [] => s
  | r :: _ => (markSelectedWithSnapshot cf (rq_visits q) now net site disp tr tcp (mkDialled (rk_tag r) 0 false) (mkSnap last at_ true) ranks s).1
  end.

(** The context is settled on [tag] since [at_]: no manual choice, no challenge
    pending, and no other affinity. *)
Record settled (key tag : string) (at_ : Z) (s : Smart) : Prop := {
  st_pinned : ct_pinned (sw_control s) = ""%string;
  st_temporary : ct_temporary (sw_control s) = ""%string;
  st_selected : cx_lastSelected (sw_contexts s) !! key = Some tag;
  st_at : cx_lastSelectedAt (sw_contexts s) !! key = Some at_;
  st_challenge : cx_switchChallenges (sw_contexts s) !! key = None;
  st_affinity : ∀ a, cx_affinity (sw_contexts s) !! key = Some a → af_Candidate a = tag }.

(** A request in which [tag] is ranked and healthy enough to be used. *)
Definition usable_in (tag : string) (q : request) : Prop :=
  (∃ first rest, rq_ranks q = first :: rest ∧ not_open first = true) ∧ hasEligibleSmartRank (rq_ranks q) = true ∧
  tag ∈ rk_tag <$> rq_ranks q ∧ (∀ r, r ∈ rq_ranks q → rk_tag r = tag → not_open r = true).

Lemma contest_keeps cf now key tag last aff ranks s :
  current_of now last aff = tag → nonempty_s tag = true → tag ∈ rk_tag <$> ranks → (∀ r, r ∈ ranks → rk_tag r = tag → not_open r = true) →
  hasEligibleSmartRank ranks = true → cx_switchChallenges (sw_contexts s) !! key = None →
  ∃ first rest c, rank_contest cf now key last aff ranks s = (first :: rest, set_contexts c s) ∧ rk_tag first = tag ∧
    cx_lastSelected c = cx_lastSelected (sw_contexts s) ∧ cx_lastSelectedAt c = cx_lastSelectedAt (sw_contexts s) ∧ cx_affinity c = cx_affinity (sw_contexts s).
Proof.
  intros Hcur Hne Hin Hopen Hel Hch. unfold rank_contest. rewrite Hel. cbn [negb]. rewrite Hcur.
  pose proof (affinity_first_perm cf key last ranks) as Hperm. set (rs := affinity_first cf key last ranks) in *.
  destruct (current_rank_found rs tag Hne) as (i & cur & Ec); [by rewrite Hperm | intros r Hr; apply Hopen; by rewrite <- Hperm|].
  rewrite Ec. destruct (current_rank_Some _ _ _ _ Ec) as (Hi & Ht & _). destruct (moveSmartRankFirst_head rs i cur Hi) as [rest Hmove].
  destruct rs as [|best others] eqn:Ers; [done|]. rewrite Hmove. destruct (negb _); [by eexists cur, rest, _|].
  unfold challenge_current. destruct (_ || performanceSwitchCoolingDown _ _ _); [by eexists cur, rest, _|].
  pose proof (confirm_fresh cf key (rk_tag best) now (sw_contexts s) Hch) as Hno.
  destruct (confirmSwitchChallenge cf key (rk_tag best) now (sw_contexts s)) as [b c] eqn:Ecf. cbn in Hno. subst b.
  exists cur, rest, c. split_and!; [done | done |..]; unfold confirmSwitchChallenge in Ecf; rewrite Hch in Ecf; cbn [default] in Ecf;
    change (time_is_zero (ch_Since no_challenge)) with true in Ecf; rewrite orb_true_r in Ecf; by injection Ecf as <-.
Qed.

Lemma evict_until_sub {V} limit keys (m : gmap string V) key a : evict_until limit keys m !! key = Some a → m !! key = Some a.
Proof.
  revert m. induction keys as [|k keys IH]; intros m; cbn [evict_until]; [done|]. destruct (_ <? _)%nat; [done|].
  intros Hk%IH. by apply lookup_delete_Some in Hk as [_ ?].
Qed.

Lemma pruneAffinity_sub cf v now m key a : pruneAffinityLocked cf v now m !! key = Some a → m !! key = Some a.
Proof.
  unfold pruneAffinityLocked. destruct (_ <? _)%nat; [done|]. set (m' := filter _ m). intros H.
  apply evict_until_sub in H. unfold m' in H. by apply map_lookup_filter_Some in H as [? _].
Qed.

(** One request leaves the context settled where it was. *)
Lemma serve_settled cf net site disp tr tcp s q tag at_ :
  let key := smartSelectionKey net site tr in
  cf_policyBackendRequired cf = false → cf_policyBackendEnabled cf = false → nonempty_s tag = true →
  settled key tag at_ s → usable_in tag q → at_ ≤ rq_now q ≤ at_ + cf_siteStickiness cf → cf_siteStickiness cf < i64_max →
  settled key tag (rq_now q) (serve cf net site disp tr tcp s q).
Proof.
  intros key Hreq Hback Hne [Hpin Htmp Hsel Hat Hch Haff] ((first & rest & Hranks & Hfo) & Hel & Hin & Hopen) Hnow Hst. unfold serve.
  assert (controlSnapshot (rq_now q) s = (""%string, ""%string, s)) as ->.
  { unfold controlSnapshot. cbv zeta. rewrite Htmp. change (nonempty_s "") with false. cbn [andb]. rewrite Htmp. change (nonempty_s "") with false. cbn [andb].
    rewrite Hpin, Htmp. by destruct s. }
  fold key. assert (incumbent cf (rq_now q) key (sw_contexts s) = (tag, at_)) as Hinc.
  { unfold incumbent. rewrite Hsel, Hat. cbv beta iota zeta delta [from_option id]. assert ((cf_siteStickiness cf <? time_sub (rq_now q) at_) = false) as ->; [|by rewrite andb_false_r].
    apply Z.ltb_ge. unfold time_sub. assert (i64_min ≤ 0) by (by vm_compute). lia. }
  rewrite Hinc. set (aff := default no_affinity _).
  assert (current_of (rq_now q) tag aff = tag) as Hcur.
  { unfold current_of. destruct (nonempty_s (af_Candidate aff) && _) eqn:E; [|done]. apply andb_true_iff in E as [E _]. unfold aff in *.
    destruct (cx_affinity (sw_contexts s) !! key) as [a|] eqn:Ea; cbn [default] in *; [by apply Haff | done]. }
  destruct (contest_keeps cf (rq_now q) key tag tag aff (rq_ranks q) s Hcur Hne Hin Hopen Hel Hch) as (r & others & c & Hcontest & Hrt & Hc1 & Hc2 & Hc3).
  assert (rank_choice cf (rq_now q) net site tr false "" "" tag aff (rq_ranks q) s = (r :: others, set_contexts c s)) as ->.
  { unfold rank_choice. rewrite Hranks, Hreq, Hfo. cbn [negb andb]. change (nonempty_s "") with false. cbv iota. rewrite <- Hranks. exact Hcontest. }
  pose proof (mark_unfold cf (rq_visits q) (rq_now q) net site disp tr tcp (mkDialled (rk_tag r) 0 false) (mkSnap tag at_ true) (r :: others) (set_contexts c s) (backend_there cf Hreq)) as Hmark.
  cbv zeta in Hmark. fold key in Hmark. set (j := judge _ _ _ _ _ _ _ _) in *.
  assert (jd_logicalSwitch j = false ∧ jd_retained j = false) as [Hjl Hjr].
  { unfold j, judge. rewrite pruned_incumbent. cbn [sw_contexts set_contexts].
    assert (incumbent cf (rq_now q) key c = (tag, at_)) as -> by (unfold incumbent; rewrite Hc1, Hc2; exact Hinc).
    cbn [jd_logicalSwitch jd_retained dd_tag]. rewrite Hrt, same_endpoint_refl, Hback. cbn [negb andb]. rewrite !andb_false_r. done. }
  rewrite Hjr in Hmark. destruct Hmark as (endpoint & Hctx & Hctl & _ & _ & _). cbn [dd_tag] in Hctx.
  destruct (pruned_last cf (rq_visits q) (rq_now q) (set_contexts c s)) as (_ & _ & Haffp). cbn [sw_contexts set_contexts] in Haffp.
  split; rewrite ?Hctl, ?Hctx; unfold commit_contexts; cbn [cx_lastSelected cx_lastSelectedAt cx_switchChallenges cx_affinity]; [done | done | by rewrite lookup_insert_eq, Hrt | apply lookup_insert_eq | apply lookup_delete_eq |].
  intros a. rewrite Haffp, Hc3. destruct (nonempty_s site).
  - rewrite lookup_insert_eq. intros [= <-]. exact Hrt.
  - intros Ha%pruneAffinity_sub. by apply Haff.
Qed.

(** The requests come close enough for the selection to be remembered. *)
Fixpoint steady (cf : settings) (tag : string) (at_ : Z) (qs : list request) : Prop :=
  match qs with
  | [] => True
  | q :: qs => usable_in tag q ∧ at_ ≤ rq_now q ≤ at_ + cf_siteStickiness cf ∧ steady cf tag (rq_now q) qs
  end.

(** A better candidate is never confirmed while requests are served one after
    another: every connection that is made clears the challenge, also one through the
    current candidate, so that the count of confirmations starts again with each
    request, whatever the scores and the settings of the confirmation. *)
Theorem challenge_never_confirmed cf net site disp tr tcp qs s tag at_ :
  let key := smartSelectionKey net site tr in
  cf_policyBackendRequired cf = false → cf_policyBackendEnabled cf = false → nonempty_s tag = true → cf_siteStickiness cf < i64_max →
  settled key tag at_ s → steady cf tag at_ qs →
  cx_lastSelected (sw_contexts (foldl (serve cf net site disp tr tcp) s qs)) !! key = Some tag.
Proof.
  intros key Hreq Hback Hne Hst. revert s at_. induction qs as [|q qs IH]; intros s at_ Hs Hq; cbn in *; [apply (st_selected _ _ _ _ Hs)|].
  destruct Hq as (Hu & Hn & Hq). eapply IH; [|exact Hq]. by eapply serve_settled.
Qed.

(** ** How much is remembered *)

Definition all_keys (v : visits) : Prop :=
  (∀ m k, is_Some (m !! k) → k ∈ vs_affinity v m) ∧ (∀ m k, is_Some (m !! k) → k ∈ vs_endpoints v m) ∧ (∀ m k, is_Some (m !! k) → k ∈ vs_generations v m).

Lemma evict_until_size {V} limit keys (m : gmap string V) :
  (0 < limit)%nat → (∀ k, is_Some (m !! k) → k ∈ keys) → (size (evict_until limit keys m) < limit)%nat.
Proof.
  intros Hl. revert m. induction keys as [|k keys IH]; intros m Hk; cbn [evict_until].
  - assert (m = ∅) as ->; [|by rewrite map_size_empty]. apply map_eq. intros k. rewrite lookup_empty. apply eq_None_not_Some.
    intros Hs%Hk. by apply not_elem_of_nil in Hs.
  - destruct (size m <? limit)%nat eqn:E; [by apply Nat.ltb_lt in E|]. apply IH. intros k' [a Ha]. apply lookup_delete_Some in Ha as [Hne Ha].
    assert (k' ∈ k :: keys) as Hin by (apply Hk; by exists a). apply elem_of_cons in Hin as [->|]; done.
Qed.

Lemma context_limit_bounds cf : 1024 ≤ Z.of_nat (context_limit cf) ≤ 10000.
Proof. unfold context_limit. lia. Qed.

Lemma insert_size_le {V} (m : gmap string V) k x : (size (<[k := x]> m) ≤ S (size m))%nat.
Proof. rewrite map_size_insert. destruct (m !! k); cbn; lia. Qed.

(** The affinities and the generations of the contexts are bounded: after a
    connection was marked, whatever was there before, there are at most as many as the
    limit, which is between 1024 and 10000. *)
Theorem contexts_bounded cf v now net site disp tr tcp d snap ranks s :
  cf_policyBackendRequired cf = false → all_keys v →
  let c := sw_contexts (markSelectedWithSnapshot cf v now net site disp tr tcp d snap ranks s).1 in
  (size (cx_affinity c) ≤ context_limit cf)%nat ∧ (size (cx_selectionGeneration c) ≤ context_limit cf)%nat ∧ 1024 ≤ Z.of_nat (context_limit cf) ≤ 10000.
Proof.
  intros Hreq (Hv1 & Hv2 & Hv3) c. pose proof (context_limit_bounds cf) as Hlim.
  assert (size (cx_affinity (sw_contexts (pruned cf v now s))) < context_limit cf)%nat as Ha.
  { destruct (pruned_last cf v now s) as (_ & _ & ->). unfold pruneAffinityLocked. destruct (_ <? _)%nat eqn:E; [by apply Nat.ltb_lt in E|].
    apply evict_until_size; [lia | apply Hv1]. }
  assert (size (cx_selectionGeneration (sw_contexts (pruned cf v now s))) < context_limit cf)%nat as Hg.
  { unfold pruned, pruneContextStateLocked, prune_generations. cbn [sw_contexts set_contexts].
    destruct (if (context_limit cf <=? _)%nat then evict_endpoints _ _ _ _ else _) as [zig gen]. cbn [cx_selectionGeneration].
    destruct (_ <=? _)%nat eqn:E; [apply evict_until_size; [lia | apply Hv3] | by apply Nat.leb_gt in E]. }
  pose proof (mark_unfold cf v now net site disp tr tcp d snap ranks s (backend_there cf Hreq)) as Hmark. cbv zeta in Hmark. set (j := judge _ _ _ _ _ _ _ _) in *.
  split_and!; [..|lia|lia]; unfold c; destruct (jd_retained j); [rewrite Hmark; cbn [fst]; lia | |rewrite Hmark; cbn [fst]; lia |];
    destruct Hmark as (endpoint & -> & _); unfold commit_contexts; cbn [cx_affinity cx_selectionGeneration].
  - destruct (nonempty_s site); [|lia]. etransitivity; [apply insert_size_le | lia].
  - etransitivity; [apply insert_size_le | lia].
Qed.

(** A first connection of a context. *)
Record visit_site : Type := mkVisit { vi_site : string; vi_now : Z; vi_dialled : dialled; vi_ranks : list smartRank; vi_visits : visits }.

Definition mark_visit (cf : settings) (net tr : string) (s : Smart) (x : visit_site) : Smart :=
  (markSelectedWithSnapshot cf (vi_visits x) (vi_now x) net (vi_site x) (vi_site x) tr true (vi_dialled x) (mkSnap "" time_zero true) (vi_ranks x) s).1.

(** The selections are not bounded: every site that is visited stays in the table of
    the last selections, however long ago it was. *)
Theorem selections_grow cf net tr xs s :
  cf_policyBackendRequired cf = false → NoDup ((λ x, smartSelectionKey net (vi_site x) tr) <$> xs) →
  (∀ x, x ∈ xs → cx_lastSelected (sw_contexts s) !! smartSelectionKey net (vi_site x) tr = None) →
  size (cx_lastSelected (sw_contexts (foldl (mark_visit cf net tr) s xs))) = (size (cx_lastSelected (sw_contexts s)) + length xs)%nat.
Proof.
  intros Hreq. revert s. induction xs as [|x xs IH]; intros s Hnd Hnew; [cbn; lia|]. cbn [foldl length]. cbn [fmap list_fmap] in Hnd. apply NoDup_cons in Hnd as [Hx Hnd].
  assert (cx_lastSelected (sw_contexts (mark_visit cf net tr s x)) = <[smartSelectionKey net (vi_site x) tr := dd_tag (vi_dialled x)]> (cx_lastSelected (sw_contexts s))) as Hins.
  { unfold mark_visit. pose proof (mark_unfold cf (vi_visits x) (vi_now x) net (vi_site x) (vi_site x) tr true (vi_dialled x) (mkSnap "" time_zero true) (vi_ranks x) s (backend_there cf Hreq)) as Hmark.
    cbv zeta in Hmark. set (j := judge _ _ _ _ _ _ _ _) in *.
    assert (jd_retained j = false) as Hj.
    { unfold j, judge. rewrite pruned_incumbent. unfold incumbent. rewrite (Hnew x) by (by left). cbv beta iota zeta delta [from_option id].
      change (nonempty_s "") with false. cbn [andb jd_retained]. rewrite ?andb_false_r. cbn. by rewrite ?andb_false_r. }
    rewrite Hj in Hmark. destruct Hmark as (endpoint & -> & _). unfold commit_contexts. cbn [cx_lastSelected]. by destruct (pruned_last cf (vi_visits x) (vi_now x) s) as (-> & _). }
  rewrite IH; [|done|].
  - rewrite Hins, map_size_insert_None by (apply Hnew; by left). lia.
  - intros y Hy. rewrite Hins, lookup_insert_ne; [apply Hnew; by right|]. intros Heq. apply Hx. apply list_elem_of_fmap. by exists y.
Qed.

(** ** Concrete groups *)

(** The defaults of the code: a tenth, 20 ms, two minutes, three times, ten minutes. *)
Definition example_settings : settings :=
  mkSettings (sf_div (sf_of_Z 1) (sf_of_Z 10)) (20 * millisecond) (2 * minute) 3 (10 * minute) (30 * minute) 1 4096 false false false.
Definition example_visits : visits := mkVisits (λ m, (map_to_list m).*1) (λ m, (map_to_list m).*1) (λ m, (map_to_list m).*1).

Definition example_rank (tag : string) (score : Z) : smartRank :=
  mkRank tag tag tag 0 0 true "healthy" (sf_of_Z score) (sf_of_Z 5) (sf_of_Z score) (sf_of_Z score) (sf_of_Z score) (sf_of_Z score).
Definition slow : smartRank := example_rank "slow" 100.
Definition fast : smartRank := example_rank "fast" 10.

Definition no_contexts : contexts := mkContexts ∅ ∅ ∅ ∅ ∅ ∅ ∅.
Definition example_group (pinned : string) (c : contexts) : Smart :=
  mkSmart c (mkControl pinned "" "" "" time_zero "") smartPhaseSteady (mkCounters 0 0 0 0) [] "" ∅ {["slow"%string; "fast"%string]}.

Definition example_key : string := smartSelectionKey "net" "site" "tcp".
Definition on (tag : string) (now : Z) : contexts := mkContexts {[example_key := tag]} {[example_key := now]} ∅ ∅ ∅ ∅ ∅.

Lemma pin_authoritative_witness :
  ∃ rest, (rank_choice example_settings 1 "net" "site" "tcp" false "slow" "" "fast" no_affinity [fast; slow] (example_group "slow" no_contexts)).1 = set_eligible slow :: rest.
Proof.
  pose proof (pin_authoritative example_settings 1 "net" "site" "tcp" "slow" "fast" no_affinity [fast; slow] (example_group "slow" no_contexts) fast [slow]
    eq_refl eq_refl eq_refl eq_refl eq_refl ltac:(apply (bool_decide_unpack _); vm_compute; exact I)) as H.
  destruct (rank_choice _ _ _ _ _ _ _ _ _ _ _ _) as [ranks' s']. cbn [fst].
  destruct (proj1 H slow) as [_ Hr]; [right; left | reflexivity | reflexivity | exact Hr].
Defined.


(** A slower candidate whose dial ends late does not replace the faster one. *)
Definition late_slow : Smart * list effect :=
  markSelectedWithSnapshot example_settings example_visits 2 "net" "site" "site" "tcp" true (mkDialled "slow" 0 false) (mkSnap "fast" 1 true) [fast; slow] (example_group "" (on "fast" 1)).

Lemma late_result_judged_witness : cx_lastSelected (sw_contexts late_slow.1) = {[example_key := "fast"%string]} ∧ late_slow.2 = [].
Proof.
  pose proof (late_result_judged example_settings example_visits 2 "net" "site" "site" "tcp" true (mkDialled "slow" 0 false) (mkSnap "fast" 1 true) [fast; slow]
    (example_group "" (on "fast" 1)) ltac:(lia)) as H. cbv zeta in H. fold late_slow example_key in H.
  assert (incumbent example_settings 2 example_key (sw_contexts (example_group "" (on "fast" 1))) = ("fast"%string, 1)) as Hinc by (vm_compute; reflexivity).
  rewrite Hinc in H. destruct late_slow as [s' effects]. cbn [fst snd].
  specialize (H eq_refl eq_refl). change (backend_missing example_settings) with false in H. cbn iota in H.
  destruct H as [(_ & _ & [[Hf|(r & Hr & Ho)]|[_ Hb]])|[(H1 & _ & H2) _]].
  - discriminate Hf.
  - vm_compute in Hr. injection Hr as <-. discriminate Ho.
  - destruct (Hb eq_refl) as (_ & p & q & Hp & Hq & Himp & _). vm_compute in Hp, Hq. injection Hp as <-. injection Hq as <-. vm_compute in Himp. discriminate.
  - split; [exact H1 | exact H2].
Defined.

Lemma example_visits_all : all_keys example_visits.
Proof.
  split_and!; intros m k [a Ha]; apply list_elem_of_fmap; exists (k, a); (split; [done|]); by apply elem_of_map_to_list.
Qed.

Lemma contexts_bounded_witness : (size (cx_affinity (sw_contexts late_slow.1)) ≤ context_limit example_settings)%nat.
Proof.
  exact (proj1 (contexts_bounded example_settings example_visits 2 "net" "site" "site" "tcp" true (mkDialled "slow" 0 false) (mkSnap "fast" 1 true) [fast; slow]
    (example_group "" (on "fast" 1)) eq_refl example_visits_all)).
Defined.

(** A thousand requests, one each second, to a candidate ten times slower. *)
Definition request_at (now : Z) : request := mkRequest now [fast; slow] example_visits.

Lemma slow_usable now : usable_in "slow" (request_at now).
Proof.
  split_and!; [by exists fast, [slow] | reflexivity | apply (bool_decide_unpack _); vm_compute; exact I |].
  intros r [->|[->|Hr%not_elem_of_nil]%elem_of_cons]%elem_of_cons; done.
Qed.

Example thousand_requests :
  cx_lastSelected (sw_contexts (foldl (serve example_settings "net" "site" "site" "tcp" true) (example_group "" (on "slow" 0))
    ((λ k, request_at (Z.of_nat k * second)) <$> seq 1 1000))) !! example_key = Some "slow"%string.
Proof.
  apply (challenge_never_confirmed example_settings "net" "site" "site" "tcp" true _ _ "slow" 0); try reflexivity.
  - split; try reflexivity. intros a Ha. vm_compute in Ha. discriminate.
  - generalize 1000%nat as n. intros n.
    assert (∀ k m, steady example_settings "slow" (Z.of_nat k * second) ((λ k, request_at (Z.of_nat k * second)) <$> seq (S k) m)) as Hs; [|exact (Hs 0%nat n)].
    intros k m. revert k. induction m as [|m IH]; intros k; cbn [seq fmap list_fmap steady]; [done|]. split_and!; [apply slow_usable | | | apply IH];
      cbn [rq_now request_at example_settings cf_siteStickiness]; unfold minute, second; lia.
Qed.
