(* ===== verification/SmartCandidates.v ===== *)
(** * Candidates of the smart group

    [src/protocol/group/smart.go]: the candidates are the leaves of the groups that
    the providers name, found by a walk that must not run in circles
    ([flattenCandidate]); of the candidates that are the same endpoint under several
    names one is kept ([dedupeSmartCandidates]), and a name that went away is followed
    to the endpoint it stood for ([smartRemapCandidateAlias]). *)

From Stdlib Require Import ZArith Lia String OrdersEx.
From S2P Require Import Prelude SmartSwitch.
From stdpp Require Import base gmap sets list strings numbers.

Local Open Scope Z_scope.

(** ** Flattening *)

(** An outbound is a group of tags or a leaf. *)
Inductive outbound : Type := Group (all : list string) | Leaf.

(** [seen] and [destination]. *)
Definition walk : Type := gset string * list string.

Section Flatten.
Context (outbounds : gmap string outbound) (excluded : string → bool).

(** [None] when the fuel is used up; [stack] has the groups on the way from the
    root. *)
Fixpoint flattenCandidate (fuel : nat) (tag : string) (candidate : outbound) (stack : gset string) (acc : walk) {struct fuel} : option walk :=
  match fuel with
  | O => None
  | S fuel =>
      if bool_decide (tag = ""%string) || bool_decide (tag ∈ stack) then Some acc
      else
        match candidate with
        | Group all =>
            foldl (λ r childTag,
              acc ← r;
              match outbounds !! childTag with
              | Some child => flattenCandidate fuel childTag child ({[tag]} ∪ stack) acc
              | None => Some acc
              end) (Some acc) all
        | Leaf =>
            let '(seen, destination) := acc in
            if bool_decide (tag ∈ seen) then Some acc
            else if excluded tag then Some acc
            else Some ({[tag]} ∪ seen, destination ++ [tag])
        end
  end.

(** *** What is to be found *)

(** The leaf [leaf] is below [tag]. *)
Inductive below : string → string → Prop :=
| below_leaf tag : tag ≠ ""%string → outbounds !! tag = Some Leaf → below tag tag
| below_group tag all child leaf :
    tag ≠ ""%string → outbounds !! tag = Some (Group all) → child ∈ all → below child leaf → below tag leaf.

(** ... by a way that keeps off [stack] and does not come back to itself. *)
Inductive below_off (stack : gset string) : string → string → Prop :=
| bo_leaf tag : tag ≠ ""%string → tag ∉ stack → outbounds !! tag = Some Leaf → below_off stack tag tag
| bo_group tag all child leaf :
    tag ≠ ""%string → tag ∉ stack → outbounds !! tag = Some (Group all) → child ∈ all → below_off ({[tag]} ∪ stack) child leaf →
    below_off stack tag leaf.

(** A way from its first tag down to a leaf. *)
Inductive way : list string → string → Prop :=
| way_leaf tag : tag ≠ ""%string → outbounds !! tag = Some Leaf → way [tag] tag
| way_group tag all child p leaf :
    tag ≠ ""%string → outbounds !! tag = Some (Group all) → child ∈ all → way (child :: p) leaf → way (tag :: child :: p) leaf.

Lemma below_way tag leaf : below tag leaf → ∃ p, way (tag :: p) leaf.
Proof. induction 1 as [tag|tag all child leaf ? ? ? _ [p Hp]]; [exists []; by constructor | exists (child :: p); by econstructor]. Qed.

Lemma way_suffix p q leaf x : way (p ++ x :: q) leaf → way (x :: q) leaf.
Proof.
  induction p as [|y p IH]; cbn; [done|]. intros H. apply IH. inversion H as [? ? ? E|? ? ? ? ? ? ? ? ? E]; subst.
  - by destruct p.
  - done.
Qed.

(** A way that comes back to its start can leave the loop out. *)
Lemma way_simple n tag p leaf : (length p ≤ n)%nat → way (tag :: p) leaf → ∃ q, way (tag :: q) leaf ∧ NoDup (tag :: q).
Proof.
  revert tag p. induction n as [|n IH]; intros tag p Hn H.
  - destruct p; [|cbn in Hn; lia]. exists []. split; [done|]. apply NoDup_singleton.
  - destruct (decide (tag ∈ p)) as [Hin|Hni].
    + apply list_elem_of_split in Hin as (p1 & p2 & ->). apply (IH tag p2); [rewrite length_app in Hn; cbn in Hn; lia|].
      by apply (way_suffix (tag :: p1)).
    + destruct p as [|child p]; [exists []; split; [done | apply NoDup_singleton]|].
      inversion H as [|? all ? ? ? Hne Hg Hc Hw]; subst. destruct (IH child p) as (q & Hq & Hnd); [cbn in Hn; lia | done|].
      destruct (decide (tag ∈ child :: q)) as [Hin|Hni'].
      * apply list_elem_of_split in Hin as (q1 & q2 & Eq). exists q2. rewrite Eq in Hq, Hnd. split; [by eapply way_suffix|].
        by apply list.NoDup_app in Hnd as (_ & _ & ?).
      * exists (child :: q). split; [by econstructor | by apply list.NoDup_cons].
Qed.

Lemma way_off p leaf stack tag : way (tag :: p) leaf → NoDup (tag :: p) → Forall (λ x, x ∉ stack) (tag :: p) → below_off stack tag leaf.
Proof.
  revert tag stack. induction p as [|child p IH]; intros tag stack Hw Hnd Hoff; inversion Hw as [|? all ? ? ? Hne Hg Hc Hw']; subst.
  - inversion Hoff; subst. by constructor.
  - apply list.NoDup_cons in Hnd as [Hni Hnd]. inversion Hoff as [|? ? Ht Hrest]; subst. eapply bo_group; [done..|]. apply IH; [done | done |].
    apply list.Forall_forall. intros x Hx. rewrite list.Forall_forall in Hrest. specialize (Hrest x Hx). set_solver.
Qed.

Lemma below_iff_off tag leaf : below tag leaf ↔ below_off ∅ tag leaf.
Proof.
  split.
  - intros [p Hp]%below_way. destruct (way_simple (length p) tag p leaf (Nat.le_refl _) Hp) as (q & Hq & Hnd). apply (way_off q); [done | done|].
    apply list.Forall_forall. set_solver.
  - induction 1; [by constructor | by econstructor].
Qed.

(** *** The walk *)

(** [seen] is the set of what is in [destination], and nothing is there twice. *)
Definition walk_ok (acc : walk) : Prop := NoDup acc.2 ∧ ∀ x, x ∈ acc.1 ↔ x ∈ acc.2.

(** From [acc] to [acc']: the leaves [P] that are not excluded were appended. *)
Definition collects (P : string → Prop) (acc acc' : walk) : Prop :=
  walk_ok acc' ∧ acc.2 `prefix_of` acc'.2 ∧ ∀ x, x ∈ acc'.2 ↔ x ∈ acc.2 ∨ (P x ∧ excluded x = false).

Lemma collects_nothing (P : string → Prop) acc : walk_ok acc → (∀ x, ¬ P x) → collects P acc acc.
Proof. intros Hok H. split_and!; [done | done | set_solver]. Qed.

Lemma collects_ext (P Q : string → Prop) acc acc' : (∀ x, P x ↔ Q x) → collects P acc acc' → collects Q acc acc'.
Proof. intros H (? & ? & E). split_and!; [done | done|]. intros x. by rewrite E, H. Qed.

Lemma collects_app P Q acc acc' acc'' : collects P acc acc' → collects Q acc' acc'' → collects (λ x, P x ∨ Q x) acc acc''.
Proof. intros (H1 & P1 & E1) (H2 & P2 & E2). split_and!; [done | by transitivity acc'.2|]. intros x. rewrite E2, E1. tauto. Qed.

(** A loop that appends for every item, and does not run out of fuel on any. *)
Lemma collects_foldl {A} (step : walk → A → option walk) (P : A → string → Prop) (items : list A) acc :
  walk_ok acc → (∀ a x, a ∈ items → walk_ok x → ∃ x', step x a = Some x' ∧ collects (P a) x x') →
  ∃ acc', foldl (λ r a, x ← r; step x a) (Some acc) items = Some acc' ∧ collects (λ x, ∃ a, a ∈ items ∧ P a x) acc acc'.
Proof.
  revert acc. induction items as [|a items IH]; intros acc Hok H; cbn.
  - exists acc. split; [done|]. apply collects_nothing; [done | set_solver].
  - destruct (H a acc) as (acc1 & E1 & C1); [by left | done|]. rewrite E1.
    destruct (IH acc1) as (acc2 & E2 & C2); [apply C1 | intros; apply H; [by right | done]|].
    exists acc2. split; [done|]. eapply collects_ext; [|exact (collects_app _ _ _ _ _ C1 C2)]. intros x. cbn. set_solver.
Qed.

(** The groups that can still be entered are the registered ones off the stack. *)
Definition room (stack : gset string) : nat := size (dom outbounds ∖ stack).

Lemma room_less tag (stack : gset string) : tag ∈ dom outbounds → tag ∉ stack → (room ({[tag]} ∪ stack) < room stack)%nat.
Proof. intros Hin Hni. unfold room. apply subset_size. set_solver. Qed.

Lemma flatten_collects fuel tag candidate stack acc :
  outbounds !! tag = Some candidate → walk_ok acc → (room stack < fuel)%nat →
  ∃ acc', flattenCandidate fuel tag candidate stack acc = Some acc' ∧ collects (below_off stack tag) acc acc'.
Proof.
  revert tag candidate stack acc. induction fuel as [|fuel IH]; intros tag candidate stack acc Htag Hok Hfuel; [lia|]. cbn [flattenCandidate].
  destruct (bool_decide (tag = ""%string) || bool_decide (tag ∈ stack)) eqn:Hstop.
  { exists acc. split; [done|]. apply collects_nothing; [done|]. intros x H. rewrite orb_true_iff, !bool_decide_eq_true in Hstop.
    inversion H; subst; by destruct Hstop. }
  rewrite orb_false_iff, !bool_decide_eq_false in Hstop. destruct Hstop as [Hne Hoff].
  destruct candidate as [all|].
  - destruct (collects_foldl
      (λ x childTag, match outbounds !! childTag with Some child => flattenCandidate fuel childTag child ({[tag]} ∪ stack) x | None => Some x end)
      (below_off ({[tag]} ∪ stack)) all acc) as (acc' & E & C); [done | |].
    { intros a x _ Hx. destruct (outbounds !! a) as [child|] eqn:Ea.
      - apply IH; [done | done|]. pose proof (room_less tag stack (elem_of_dom_2 _ _ _ Htag) Hoff). lia.
      - exists x. split; [done|]. apply collects_nothing; [done|]. intros y H. inversion H; congruence. }
    exists acc'. split; [exact E|]. eapply collects_ext; [|exact C]. intros x. cbn. split.
    + intros (a & Ha & Hx). by eapply bo_group.
    + intros H. inversion H; subst; [congruence|]. simplify_map_eq. eauto.
  - destruct acc as [seen destination], Hok as [Hnd Hseen]. cbn in Hnd, Hseen.
    assert (∀ x, below_off stack tag x ↔ x = tag) as Hleaf
      by (intros x; split; [intros H; inversion H; subst; [done | congruence] | intros ->; by constructor]).
    case_bool_decide as Hs; [|destruct (excluded tag) eqn:Hex]; (eexists; split; [reflexivity|]).
    + split_and!; [done | done|]. intros x. cbn. rewrite Hleaf. apply Hseen in Hs. naive_solver.
    + split_and!; [done | done|]. intros x. cbn. rewrite Hleaf. naive_solver congruence.
    + split_and!; [|by exists [tag]|].
      * split; cbn; [apply list.NoDup_app; split_and!; [done | set_solver | apply NoDup_singleton]|]. intros x. set_solver.
      * intros x. cbn. rewrite elem_of_app, list_elem_of_singleton, Hleaf. naive_solver congruence.
Qed.

(** The walk from all roots; [groups] bounds how deep it can go. *)
Definition flatten_all (fuel : nat) (roots : list (string * outbound)) : option walk :=
  foldl (λ r root, acc ← r; flattenCandidate fuel root.1 root.2 ∅ acc) (Some (∅, [])) roots.
End Flatten.

(** C29. The walk over the groups ends although groups can name each other in
    circles, and it misses nothing by keeping off the groups it is in: with one
    level more than there are outbounds it returns the leaves below the roots that are
    not excluded, every one of them once. *)
Theorem flatten_complete (outbounds : gmap string outbound) (excluded : string → bool) (roots : list (string * outbound)) :
  Forall (λ root, outbounds !! root.1 = Some root.2) roots →
  ∃ seen destination, flatten_all outbounds excluded (S (size (dom outbounds))) roots = Some (seen, destination) ∧ NoDup destination ∧
    ∀ leaf, leaf ∈ destination ↔ excluded leaf = false ∧ ∃ root, root ∈ roots ∧ below outbounds root.1 leaf.
Proof.
  intros Hroots. destruct (collects_foldl excluded (λ acc root, flattenCandidate outbounds excluded (S (size (dom outbounds))) root.1 root.2 ∅ acc)
    (λ root, below_off outbounds ∅ root.1) roots (∅, [])) as ([seen destination] & E & (Hnd & _) & _ & C).
  - split; cbn; [constructor | set_solver].
  - intros root acc Hin Hok. rewrite list.Forall_forall in Hroots. apply flatten_collects; [by apply Hroots | done|].
    unfold room. rewrite difference_empty_L. lia.
  - exists seen, destination. split_and!; [exact E | exact Hnd|]. intros leaf. cbn in C. rewrite C.
    split.
    + intros [[]%not_elem_of_nil|[(root & Hin & Hb) Hx]]. split; [done|]. exists root. split; [done | by apply below_iff_off].
    + intros [Hx (root & Hin & Hb)]. right. split; [|done]. exists root. split; [done | by apply below_iff_off].
Qed.

Definition ring : gmap string outbound :=
  {[ "a" := Group ["b"; "n1"; "gone"]; "b" := Group ["a"; "n2"; "n1"; "x"]; "n1" := Leaf; "n2" := Leaf; "x" := Leaf ]}%string.
Definition not_x (tag : string) : bool := bool_decide (tag = "x"%string).

Lemma flatten_complete_witness :
  (∃ seen destination, flatten_all ring not_x (S (size (dom ring))) [("a"%string, Group ["b"; "n1"; "gone"]%string)] = Some (seen, destination) ∧ NoDup destination ∧
    ∀ leaf, leaf ∈ destination ↔ not_x leaf = false ∧ ∃ root, root ∈ [("a"%string, Group ["b"; "n1"; "gone"]%string)] ∧ below ring root.1 leaf) ∧
  (flatten_all ring not_x 6 [("a"%string, Group ["b"; "n1"; "gone"]%string)] ≫= λ w, Some w.2) = Some ["n2"; "n1"]%string.
Proof.
  split; [|vm_compute; reflexivity]. apply (flatten_complete ring not_x [("a"%string, Group ["b"; "n1"; "gone"]%string)]).
  apply list.Forall_singleton. reflexivity.
Defined.

(** ** Identities *)

(** A leaf outbound; the identities are [None] when the outbound does not have the
    interface. *)
Record member : Type := mkMember { mb_tag : string; mb_type : string; mb_dial : option string; mb_endpoint : option string }.

Record SelectedRecord : Type := mkSelected { sr_Version : Z; sr_DisplayTag : string; sr_DialIdentity : string; sr_EndpointIdentity : string }.

Definition selectedRecordForOutbound (outbound : option member) : SelectedRecord :=
  match outbound with
  | None => mkSelected 1 "" "" ""
  | Some m => mkSelected 1 (mb_tag m) (default ""%string (mb_dial m)) (default ""%string (mb_endpoint m))
  end.

Inductive identityKind : Type := ByDial | ByEndpoint | ByTag.

Definition outboundMatchesSelectionRecord (outbound : member) (record : SelectedRecord) (kind : identityKind) : bool :=
  match kind with
  | ByDial =>
      match mb_dial outbound with
      | Some d => nonempty_s (sr_DialIdentity record) && bool_decide (d = sr_DialIdentity record)
      | None => false
      end
  | ByEndpoint =>
      match mb_endpoint outbound with
      | Some e => nonempty_s (sr_EndpointIdentity record) && bool_decide (e = sr_EndpointIdentity record)
      | None => false
      end
  | ByTag => nonempty_s (sr_DisplayTag record) && bool_decide (mb_tag outbound = sr_DisplayTag record)
  end.

Definition first_match (record : SelectedRecord) (kind : identityKind) (outbounds : list member) : option member :=
  List.find (λ outbound, outboundMatchesSelectionRecord outbound record kind) outbounds.

(** The loop over the endpoint matches, [endpointMatch] being the first seen. *)
Fixpoint endpoint_match (record : SelectedRecord) (outbounds : list member) (endpointMatch : option member) : option member :=
  match outbounds with
  | [] => endpointMatch
  | outbound :: outbounds =>
      if negb (outboundMatchesSelectionRecord outbound record ByEndpoint) then endpoint_match record outbounds endpointMatch
      else if bool_decide (mb_tag outbound = sr_DisplayTag record) then Some outbound
      else endpoint_match record outbounds (match endpointMatch with Some m => Some m | None => Some outbound end)
  end.

Definition resolveSelectionRecord (outbounds : list member) (record : SelectedRecord) : option member :=
  match (if nonempty_s (sr_DialIdentity record) then first_match record ByDial outbounds else None) with
  | Some m => Some m
  | None =>
      match (if nonempty_s (sr_EndpointIdentity record) then endpoint_match record outbounds None else None) with
      | Some m => Some m
      | None => first_match record ByTag outbounds
      end
  end.

Definition resolveStickySessionRecord (outbounds : list member) (record : SelectedRecord) : option member :=
  if nonempty_s (sr_DialIdentity record) then first_match record ByDial outbounds else resolveSelectionRecord outbounds record.

(** The identities Smart gives its candidates. [providerDial] and [providerEndpoint] are
    the digests of the options that the first provider with usable options for the
    tag has, if there is one. *)
Section Identities.
Context (providerDial providerEndpoint : string → option string).

Definition given (ident : option string) : option string :=
  match ident with Some i => if nonempty_s i then Some i else None | None => None end.

Definition probeIdentityFromProviders (candidate : member) : string :=
  match given (mb_endpoint candidate) with
  | Some i => i
  | None => default (mb_type candidate ++ sep ++ mb_tag candidate)%string (providerEndpoint (mb_tag candidate))
  end.

Definition dialIdentityLocked (candidate : member) : string :=
  match given (mb_dial candidate) with
  | Some i => i
  | None => default (probeIdentityFromProviders candidate) (providerDial (mb_tag candidate))
  end.

Definition buildCandidateMetadataWithDialIdentity (tag ident dialIdentity : string) : smartCandidateMetadata :=
  let probeIdentity := if nonempty_s ident then ident else tag in
  let dialIdentity := if nonempty_s dialIdentity then dialIdentity else probeIdentity in
  let profileID := if nonempty_s dialIdentity && negb (bool_decide (dialIdentity = tag)) then ("dial:" ++ dialIdentity)%string else tag in
  let policyIdentity := if nonempty_s ident then dialIdentity else smartLineFamily tag in
  let policyIdentity := if nonempty_s policyIdentity then policyIdentity else tag in
  mkMeta probeIdentity dialIdentity profileID (if nonempty_s policyIdentity then smartPolicyID policyIdentity else 0).

Definition candidate_metadata (candidate : member) : smartCandidateMetadata :=
  buildCandidateMetadataWithDialIdentity (mb_tag candidate) (probeIdentityFromProviders candidate) (dialIdentityLocked candidate).

Definition all_metadata (candidates : list member) : gmap string smartCandidateMetadata :=
  foldl (λ m candidate, <[mb_tag candidate := candidate_metadata candidate]> m) ∅ candidates.
End Identities.

(** ** One candidate for every endpoint *)

Section Dedupe.
Context (metadataByTag : gmap string smartCandidateMetadata).

Definition keyFor (candidate : member) : string :=
  let metadata := default no_metadata (metadataByTag !! mb_tag candidate) in
  if nonempty_s (md_dialIdentity metadata) then ("dial:" ++ md_dialIdentity metadata)%string
  else if nonempty_s (md_identity metadata) then ("path:" ++ md_identity metadata)%string
  else ("tag:" ++ mb_tag candidate)%string.

Definition note_winner (winner : gmap string string) (candidate : member) : gmap string string :=
  match winner !! keyFor candidate with
  | Some previous => if String.ltb (mb_tag candidate) previous then <[keyFor candidate := mb_tag candidate]> winner else winner
  | None => <[keyFor candidate := mb_tag candidate]> winner
  end.
Definition winners (candidates : list member) : gmap string string := foldl note_winner ∅ candidates.

Definition wins (winner : gmap string string) (candidate : member) : bool :=
  bool_decide (default ""%string (winner !! keyFor candidate) = mb_tag candidate).

Definition dedupeSmartCandidates (candidates : list member) : list member * gmap string smartCandidateMetadata :=
  if (length candidates <=? 1)%nat then (candidates, metadataByTag)
  else
    let selected := filter (λ candidate, wins (winners candidates) candidate = true) candidates in
    (selected, foldl (λ m candidate, <[mb_tag candidate := default no_metadata (metadataByTag !! mb_tag candidate)]> m) ∅ selected).

(** *** The winners *)

Lemma ltb_le a b : String.ltb a b = true → String.le a b.
Proof. unfold String.ltb, String.le, String.leb. by destruct (String.compare a b). Qed.
Lemma ltb_ge a b : String.ltb a b = false → String.le b a.
Proof. unfold String.ltb, String.le, String.leb. rewrite (String.compare_antisym b a). by destruct (String.compare a b). Qed.

(** [w] is the smallest tag that has the key. *)
Definition is_winner (candidates : list member) (key w : string) : Prop :=
  (∃ c, c ∈ candidates ∧ keyFor c = key ∧ mb_tag c = w) ∧ ∀ c, c ∈ candidates → keyFor c = key → String.le w (mb_tag c).

Lemma winners_spec candidates key :
  match winners candidates !! key with
  | Some w => is_winner candidates key w
  | None => ∀ c, c ∈ candidates → keyFor c ≠ key
  end.
Proof.
  unfold winners. induction candidates as [|c candidates IH] using rev_ind; [cbn; set_solver|].
  rewrite foldl_app. cbn [foldl]. remember (foldl note_winner ∅ candidates) as W eqn:EW. clear EW. unfold note_winner.
  destruct (decide (keyFor c = key)) as [<-|Hne].
  - destruct (W !! keyFor c) as [w|] eqn:E; [destruct IH as [(c0 & Hin & Hk & Ht) Hmin]; destruct (String.ltb _ _) eqn:El|].
    + rewrite lookup_insert_eq. split; [exists c; set_solver|]. intros c' [Hc'| ->%list_elem_of_singleton]%elem_of_app Hk'; [|done].
      transitivity w; [by apply ltb_le | by apply Hmin].
    + rewrite E. split; [exists c0; set_solver|]. intros c' [Hc'| ->%list_elem_of_singleton]%elem_of_app Hk'; [by apply Hmin | by apply ltb_ge].
    + rewrite lookup_insert_eq. split; [exists c; set_solver|]. intros c' [Hc'| ->%list_elem_of_singleton]%elem_of_app Hk'; [by destruct (IH c') | done].
  - assert (∀ o, W !! key = o →
      match o with Some w => is_winner (candidates ++ [c]) key w | None => ∀ c', c' ∈ candidates ++ [c] → keyFor c' ≠ key end) as Hold.
    { intros o <-. destruct (W !! key) as [w|]; [destruct IH as [(c0 & Hin & Hk & Ht) Hmin]; split; [exists c0; set_solver|] |];
        intros c' [Hc'| ->%list_elem_of_singleton]%elem_of_app; naive_solver. }
    destruct (W !! keyFor c); [destruct (String.ltb _ _)|]; rewrite ?lookup_insert_ne by done; by apply Hold.
Qed.

Lemma is_winner_unique candidates key w w' : is_winner candidates key w → is_winner candidates key w' → w = w'.
Proof. intros [(c & Hc & Hk & <-) Hm] [(c' & Hc' & Hk' & <-) Hm']. apply (anti_symm String.le); auto. Qed.

Lemma winners_perm candidates candidates' : candidates ≡ₚ candidates' → winners candidates = winners candidates'.
Proof.
  intros Hp. apply map_eq. intros key. pose proof (winners_spec candidates key) as H1. pose proof (winners_spec candidates' key) as H2.
  destruct (winners candidates !! key) as [w|], (winners candidates' !! key) as [w'|]; [f_equal | exfalso | exfalso | done].
  - apply (is_winner_unique candidates key); [done|]. unfold is_winner in *. by setoid_rewrite Hp.
  - destruct H1 as [(c & Hin & Hk & _) _]. rewrite Hp in Hin. by apply (H2 c).
  - destruct H2 as [(c & Hin & Hk & _) _]. rewrite <-Hp in Hin. by apply (H1 c).
Qed.

Lemma wins_spec candidates c : c ∈ candidates → wins (winners candidates) c = true ↔ is_winner candidates (keyFor c) (mb_tag c).
Proof.
  intros Hin. unfold wins. rewrite bool_decide_eq_true. pose proof (winners_spec candidates (keyFor c)) as H.
  destruct (winners candidates !! keyFor c) as [w|]; [|by destruct (H c)]. cbn. split; [by intros <- | intros H'; by eapply is_winner_unique].
Qed.

Lemma dedupe_elem candidates c : c ∈ (dedupeSmartCandidates candidates).1 ↔ c ∈ candidates ∧ is_winner candidates (keyFor c) (mb_tag c).
Proof.
  unfold dedupeSmartCandidates. destruct (Nat.leb_spec (length candidates) 1) as [Hl|Hl]; cbn [fst].
  - split; [|by intros [? _]]. intros Hin. split; [done|]. destruct candidates as [|c0 [|]]; [by apply not_elem_of_nil in Hin | | cbn in Hl; lia].
    apply list_elem_of_singleton in Hin as ->. split; [exists c0; set_solver|]. intros c' ->%list_elem_of_singleton _. done.
  - rewrite list_elem_of_filter. split; intros [H1 H2]; (split; [|]); try done; by apply wins_spec.
Qed.
End Dedupe.

(** Of the candidates that are the same endpoint exactly one is kept, the one with the
    smallest tag: the order of the candidates stays, no endpoint is lost, none is left
    twice, and the order in which the providers name them has no say in it. *)
Theorem dedupe_one_per_endpoint (metadataByTag : gmap string smartCandidateMetadata) (candidates : list member) :
  let selected := (dedupeSmartCandidates metadataByTag candidates).1 in
  selected `sublist_of` candidates ∧
  (∀ c, c ∈ candidates → ∃ w, w ∈ selected ∧ is_winner metadataByTag candidates (keyFor metadataByTag c) (mb_tag w)) ∧
  (∀ w w', w ∈ selected → w' ∈ selected → keyFor metadataByTag w = keyFor metadataByTag w' → mb_tag w = mb_tag w') ∧
  (∀ candidates', candidates ≡ₚ candidates' → selected ≡ₚ (dedupeSmartCandidates metadataByTag candidates').1).
Proof.
  cbn. split_and!.
  - unfold dedupeSmartCandidates. destruct (_ <=? 1)%nat; [done|]. apply sublist_filter.
  - intros c Hin. pose proof (winners_spec metadataByTag candidates (keyFor metadataByTag c)) as H.
    destruct (winners _ _ !! _) as [w|]; [|by destruct (H c)]. destruct (H) as [(c0 & Hin0 & Hk & <-) _].
    exists c0. split; [apply dedupe_elem; split; [done|]; by rewrite Hk | done].
  - intros w w' [_ Hw]%dedupe_elem [_ Hw']%dedupe_elem Hk. rewrite Hk in Hw. by eapply is_winner_unique.
  - intros candidates' Hp. unfold dedupeSmartCandidates. rewrite <-(Permutation_length Hp). destruct (_ <=? 1)%nat; [done|]. cbn [fst].
    rewrite (winners_perm _ _ _ Hp). by apply filter_Permutation.
Qed.

(** Three names of two endpoints. *)
Definition alias_b : member := mkMember "b" "vless" (Some "uuid-1") None.
Definition alias_a : member := mkMember "a" "vless" (Some "uuid-1") None.
Definition other_c : member := mkMember "c" "vless" (Some "uuid-2") None.
Definition no_options (_ : string) : option string := None.
Definition three : gmap string smartCandidateMetadata := all_metadata no_options no_options [alias_b; other_c; alias_a].

Lemma dedupe_one_per_endpoint_witness :
  (dedupeSmartCandidates three [alias_b; other_c; alias_a]).1 = [other_c; alias_a] ∧
  [other_c; alias_a] ≡ₚ (dedupeSmartCandidates three [alias_a; alias_b; other_c]).1.
Proof.
  assert ((dedupeSmartCandidates three [alias_b; other_c; alias_a]).1 = [other_c; alias_a]) as E by (vm_compute; reflexivity).
  split; [exact E|]. rewrite <-E. apply (dedupe_one_per_endpoint three [alias_b; other_c; alias_a]).
  transitivity ([alias_b] ++ [alias_a; other_c]); [apply (Permutation_app_head [alias_b]), perm_swap | apply perm_swap].
Defined.

(** ** A new catalog *)

Definition smartRemapCandidateAlias (tag : string) (oldMetadataByTag newMetadataByTag : gmap string smartCandidateMetadata)
    (candidates : list member) : string :=
  if bool_decide (tag = ""%string) then ""%string
  else match newMetadataByTag !! tag with
       | Some _ => tag
       | None =>
           match oldMetadataByTag !! tag with
           | None => tag
           | Some oldMetadata =>
               match List.find (λ candidate,
                 match newMetadataByTag !! mb_tag candidate with
                 | Some newMetadata => smartMetadataSameEndpoint oldMetadata newMetadata
                 | None => false
                 end) candidates with
               | Some candidate => mb_tag candidate
               | None => tag
               end
           end
       end.

(** The selections and affinities follow their endpoints, the catalog is replaced. *)
Definition publish_catalog (candidates : list member) (metadata : gmap string smartCandidateMetadata) (s : Smart) : Smart :=
  let remap tag := smartRemapCandidateAlias tag (sw_metadata s) metadata candidates in
  let c := sw_contexts s in
  let c := mkContexts (remap <$> cx_lastSelected c) (cx_lastSelectedAt c) (cx_performanceCooldown c) (cx_switchChallenges c)
             ((λ a, mkAffinity (remap (af_Candidate a)) (af_ExpiresAt a)) <$> cx_affinity c) (cx_selectionGeneration c) (cx_zigSelectedEndpoint c) in
  mkSmart c (sw_control s) (sw_phase s) (sw_counters s) (sw_switchAudit s) (sw_latest s) metadata (list_to_set (mb_tag <$> candidates)).

Definition remapPinnedCandidate (metadataByTag : gmap string smartCandidateMetadata) (candidates : list member) (s : Smart) : Smart :=
  let x := sw_control s in
  if bool_decide (ct_pinned x = ""%string) then s
  else
    match resolveSelectionRecord candidates (mkSelected 1 (ct_pinned x) (ct_pinnedDial x) (ct_pinnedEndpoint x)) with
    | None => s
    | Some selected =>
        if bool_decide (mb_tag selected = ct_pinned x) then s
        else
          let metadata := default no_metadata (metadataByTag !! mb_tag selected) in
          set_control (mkControl (mb_tag selected) (md_identity metadata) (md_dialIdentity metadata)
                         (ct_temporary x) (ct_temporaryUntil x) (ct_temporaryReason x)) s
    end.

(** The choices of the moment that have no candidate any more. *)
Definition drop_gone (s : Smart) : Smart :=
  let s := if nonempty_s (sw_latest s) && negb (bool_decide (sw_latest s ∈ sw_candidates s)) then set_latest "" s else s in
  if nonempty_s (ct_temporary (sw_control s)) && negb (bool_decide (ct_temporary (sw_control s) ∈ sw_candidates s))
  then set_control (clearTemporaryLocked (sw_control s)) s else s.

(** [true] is [errSmartNoCandidates]. [current] says, under the lock of the providers,
    that neither the group is closing nor a provider has changed since [candidates] was
    built.  The code publishes under the locks of the providers and the catalog, and then
    remaps the pin and drops the latest and the temporary choice in sections of their own;
    here they are one step, so what is shown holds when the function has returned and
    nothing else has changed these fields in between. *)
Definition rebuild_catalog (providerDial providerEndpoint : string → option string) (current : bool) (candidates : list member) (s : Smart) : bool * Smart :=
  if (length candidates =? 0)%nat then (true, s)
  else
    let '(candidates, metadata) := dedupeSmartCandidates (all_metadata providerDial providerEndpoint candidates) candidates in
    if (length candidates =? 0)%nat then (true, s)
    else if negb current then (false, s)
    else (false, drop_gone (remapPinnedCandidate metadata candidates (publish_catalog candidates metadata s))).

(** *** Resolving a record *)

Lemma nonempty_true s : nonempty_s s = true ↔ s ≠ ""%string.
Proof. unfold nonempty_s. by rewrite negb_true_iff, bool_decide_eq_false. Qed.

Lemma match_dial m record : outboundMatchesSelectionRecord m record ByDial = true ↔ mb_dial m = Some (sr_DialIdentity record) ∧ sr_DialIdentity record ≠ ""%string.
Proof. cbn. destruct (mb_dial m); [rewrite andb_true_iff, nonempty_true, bool_decide_eq_true|]; naive_solver. Qed.
Lemma match_endpoint m record :
  outboundMatchesSelectionRecord m record ByEndpoint = true ↔ mb_endpoint m = Some (sr_EndpointIdentity record) ∧ sr_EndpointIdentity record ≠ ""%string.
Proof. cbn. destruct (mb_endpoint m); [rewrite andb_true_iff, nonempty_true, bool_decide_eq_true|]; naive_solver. Qed.
Lemma match_tag m record : outboundMatchesSelectionRecord m record ByTag = true ↔ mb_tag m = sr_DisplayTag record ∧ sr_DisplayTag record ≠ ""%string.
Proof. cbn. rewrite andb_true_iff, nonempty_true, bool_decide_eq_true. naive_solver. Qed.

Lemma first_match_some record kind outbounds m :
  m ∈ outbounds → outboundMatchesSelectionRecord m record kind = true →
  ∃ m', first_match record kind outbounds = Some m' ∧ m' ∈ outbounds ∧ outboundMatchesSelectionRecord m' record kind = true.
Proof.
  intros Hin Hm. unfold first_match. destruct (List.find _ outbounds) as [m'|] eqn:E.
  - apply find_some in E as [? ?]. exists m'. split_and!; [done | by apply list_elem_of_In | done].
  - rewrite (find_none _ _ E m) in Hm; [done | by apply list_elem_of_In].
Qed.

Lemma endpoint_match_own record outbounds m before :
  m ∈ outbounds → NoDup (mb_tag <$> outbounds) → mb_tag m = sr_DisplayTag record → outboundMatchesSelectionRecord m record ByEndpoint = true →
  endpoint_match record outbounds before = Some m.
Proof.
  intros Hin Hnd Ht Hm. revert before. induction outbounds as [|o outbounds IH]; intros before; [by apply not_elem_of_nil in Hin|]. cbn [endpoint_match].
  rewrite fmap_cons, list.NoDup_cons in Hnd. destruct Hnd as [Hni Hnd]. apply elem_of_cons in Hin as [<-|Hin].
  - rewrite Hm. cbn. by rewrite bool_decide_true.
  - specialize (IH Hin Hnd). destruct (negb _); [apply IH|]. rewrite bool_decide_false; [apply IH|].
    rewrite <-Ht. intros Eo. apply Hni. rewrite Eo. by apply list_elem_of_fmap_2.
Qed.

Lemma tag_unique (l : list member) a b : NoDup (mb_tag <$> l) → a ∈ l → b ∈ l → mb_tag a = mb_tag b → a = b.
Proof.
  induction l as [|c l IH]; [by intros _ ?%not_elem_of_nil|]. rewrite fmap_cons, list.NoDup_cons, !elem_of_cons.
  intros [Hni Hnd] [->|Ha] [->|Hb] E; [done | | | by apply IH].
  - exfalso. apply Hni. rewrite E. by apply list_elem_of_fmap_2.
  - exfalso. apply Hni. rewrite <-E. by apply list_elem_of_fmap_2.
Qed.

(** What is stored of a choice finds it again: the record of a member resolves, in
    any list that has the member, to one with the same credentials if it has any, and
    without credentials to the member itself. *)
Theorem selection_roundtrip (outbounds : list member) (m : member) :
  m ∈ outbounds → NoDup (mb_tag <$> outbounds) → mb_tag m ≠ ""%string →
  ∃ m', resolveSelectionRecord outbounds (selectedRecordForOutbound (Some m)) = Some m' ∧ m' ∈ outbounds ∧
    match given (mb_dial m) with Some _ => mb_dial m' = mb_dial m | None => m' = m end.
Proof.
  intros Hin Hnd Htag. set (record := selectedRecordForOutbound (Some m)).
  assert (first_match record ByTag outbounds = Some m) as Hbytag.
  { destruct (first_match_some record ByTag outbounds m Hin) as (m' & E & Hin' & [Hm' _]%match_tag); [by apply match_tag|].
    rewrite E. f_equal. by apply (tag_unique outbounds). }
  assert (nonempty_s (sr_EndpointIdentity record) = true → endpoint_match record outbounds None = Some m) as Hbyend.
  { intros He%nonempty_true. apply endpoint_match_own; [done | done | done|]. apply match_endpoint. split; [|done].
    cbn in *. by destruct (mb_endpoint m). }
  unfold resolveSelectionRecord. destruct (nonempty_s (sr_DialIdentity record)) eqn:Hd.
  - apply nonempty_true in Hd. assert (mb_dial m = Some (sr_DialIdentity record)) as Ed by (cbn in *; by destruct (mb_dial m)).
    destruct (first_match_some record ByDial outbounds m Hin) as (m' & E & Hin' & [Hm' _]%match_dial); [by apply match_dial|].
    rewrite E. exists m'. split_and!; [done | done|]. rewrite Ed. unfold given. by apply nonempty_true in Hd as ->.
  - exists m. split_and!; [|done|].
    + destruct (nonempty_s (sr_EndpointIdentity record)); [by rewrite Hbyend | done].
    + subst record. cbn in Hd. unfold given. destruct (mb_dial m); [|done]. cbn in Hd. by rewrite Hd.
Qed.

Definition tokyo : member := mkMember "tokyo" "vless" (Some "uuid-1") (Some "1.2.3.4:443").
Definition tokyo_2 : member := mkMember "tokyo 2" "vless" (Some "uuid-2") (Some "1.2.3.4:443").
Lemma selection_roundtrip_witness :
  (∃ m', resolveSelectionRecord [tokyo_2; tokyo] (selectedRecordForOutbound (Some tokyo)) = Some m' ∧ m' ∈ [tokyo_2; tokyo] ∧
     match given (mb_dial tokyo) with Some _ => mb_dial m' = mb_dial tokyo | None => m' = tokyo end) ∧
  resolveSelectionRecord [tokyo_2; tokyo] (selectedRecordForOutbound (Some tokyo)) = Some tokyo.
Proof.
  split; [|vm_compute; reflexivity]. apply selection_roundtrip.
  - right. left.
  - apply list.NoDup_cons. split; [|apply NoDup_singleton]. intros H. apply list_elem_of_singleton in H. discriminate.
  - discriminate.
Defined.

(** *** The catalog *)

Lemma foldl_tag_lookup {A} (f : member → A) (l : list member) (acc : gmap string A) c :
  c ∈ l → (∀ c', c' ∈ l → mb_tag c' = mb_tag c → f c' = f c) → foldl (λ m c, <[mb_tag c := f c]> m) acc l !! mb_tag c = Some (f c).
Proof.
  induction l as [|c0 l IH] using rev_ind; [by intros ?%not_elem_of_nil|]. intros Hin Hf. rewrite foldl_app. cbn [foldl].
  destruct (decide (mb_tag c0 = mb_tag c)) as [E|Hne].
  - rewrite E, lookup_insert_eq. f_equal. apply Hf; [apply elem_of_app; right; by left | done].
  - rewrite lookup_insert_ne by done. apply IH; [|intros; apply Hf; [apply elem_of_app; by left | done]].
    apply elem_of_app in Hin as [?| ->%list_elem_of_singleton]; done.
Qed.

Section Catalog.
Context (providerDial providerEndpoint : string → option string) (candidates : list member).
Context (Htags : NoDup (mb_tag <$> candidates)).

Abbreviation metadata_of := (candidate_metadata providerDial providerEndpoint).
Abbreviation all := (all_metadata providerDial providerEndpoint candidates).

Lemma all_metadata_lookup m : m ∈ candidates → all !! mb_tag m = Some (metadata_of m).
Proof. intros Hin. apply foldl_tag_lookup; [done|]. intros c' Hc' E. by rewrite (tag_unique candidates c' m). Qed.

Lemma selected_metadata_lookup m :
  m ∈ (dedupeSmartCandidates all candidates).1 → (dedupeSmartCandidates all candidates).2 !! mb_tag m = Some (metadata_of m).
Proof.
  intros Hin. pose proof (proj1 (proj1 (dedupe_elem _ _ _) Hin)) as Hc. unfold dedupeSmartCandidates in *.
  destruct (_ <=? 1)%nat; cbn [fst snd] in *; [by apply all_metadata_lookup|].
  rewrite (foldl_tag_lookup (λ c, default no_metadata (all !! mb_tag c))); [by rewrite all_metadata_lookup | done | by intros c' _ ->].
Qed.

Lemma dialIdentity_given m d : mb_dial m = Some d → d ≠ ""%string → md_dialIdentity (metadata_of m) = d.
Proof.
  intros Hd Hne%nonempty_true. unfold candidate_metadata, buildCandidateMetadataWithDialIdentity, dialIdentityLocked, given.
  rewrite Hd, Hne. cbn [md_dialIdentity]. by rewrite Hne.
Qed.

(** The keys of the three kinds do not meet. *)
Lemma keyFor_dial m d : m ∈ candidates → d ≠ ""%string → keyFor all m = ("dial:" ++ d)%string ↔ md_dialIdentity (metadata_of m) = d.
Proof.
  intros Hin Hne%nonempty_true. unfold keyFor.
  assert (default no_metadata (all !! mb_tag m) = metadata_of m) as -> by by rewrite all_metadata_lookup.
  destruct (nonempty_s (md_dialIdentity _)) eqn:Hd; [split; [by intros [=] | by intros ->]|].
  split; [destruct (nonempty_s (md_identity _)); discriminate | intros E; congruence].
Qed.

(** Someone of the selected has the credentials [d]. *)
Lemma credentials_kept m d :
  m ∈ candidates → mb_dial m = Some d → d ≠ ""%string →
  (∀ m', m' ∈ candidates → md_dialIdentity (metadata_of m') = d → mb_dial m' = Some d) →
  ∃ w, w ∈ (dedupeSmartCandidates all candidates).1 ∧ mb_dial w = Some d.
Proof.
  intros Hin Hd Hne Hapart. pose proof (winners_spec all candidates (keyFor all m)) as H.
  destruct (winners _ _ !! _) as [t|]; [|by destruct (H m)]. destruct H as [(w & Hw & Hk & <-) Hmin].
  exists w. split; [apply dedupe_elem; split; [done|]; rewrite Hk; by split; [exists w|]|].
  apply Hapart; [done|]. apply keyFor_dial; [done | done|]. rewrite Hk. apply keyFor_dial; [done | done|]. by apply dialIdentity_given.
Qed.
End Catalog.

Lemma drop_gone_pinned s : ct_pinned (sw_control (drop_gone s)) = ct_pinned (sw_control s) ∧ ct_pinnedDial (sw_control (drop_gone s)) = ct_pinnedDial (sw_control s) ∧
  sw_candidates (drop_gone s) = sw_candidates s ∧ sw_metadata (drop_gone s) = sw_metadata s.
Proof. unfold drop_gone. repeat case_match; done. Qed.

Lemma remap_pinned_rest metadata candidates s :
  sw_candidates (remapPinnedCandidate metadata candidates s) = sw_candidates s ∧ sw_metadata (remapPinnedCandidate metadata candidates s) = sw_metadata s ∧
  sw_contexts (remapPinnedCandidate metadata candidates s) = sw_contexts s.
Proof. unfold remapPinnedCandidate. repeat case_match; done. Qed.

Lemma rebuild_current providerDial providerEndpoint candidates s :
  candidates ≠ [] →
  let d := dedupeSmartCandidates (all_metadata providerDial providerEndpoint candidates) candidates in
  d.1 ≠ [] ∧ rebuild_catalog providerDial providerEndpoint true candidates s = (false, drop_gone (remapPinnedCandidate d.2 d.1 (publish_catalog d.1 d.2 s))).
Proof.
  intros Hne d. assert (d.1 ≠ []) as Hd.
  { destruct candidates as [|c l]; [done|]. pose proof (winners_spec (all_metadata providerDial providerEndpoint (c :: l)) (c :: l) (keyFor (all_metadata providerDial providerEndpoint (c :: l)) c)) as H.
    destruct (winners _ _ !! _) as [t|]; [|destruct (H c); [by left | done]]. destruct (H) as [(w & Hw & Hk & Ht) Hm]. intros E.
    apply (not_elem_of_nil w). rewrite <-E. apply dedupe_elem. split; [done|]. by rewrite Hk, Ht. }
  split; [done|]. unfold rebuild_catalog. fold d. destruct d as [selected metadata]. cbn [fst snd] in *.
  destruct candidates; [done|]. cbn [length Nat.eqb]. by destruct selected.
Qed.

(** C27. A pin is a pin of credentials, not of a name: when the providers rename, reorder
    or duplicate their members, and one still has the credentials that were pinned, then
    the pin of the new catalog is a candidate with these credentials. *)
Theorem pin_follows_credentials (providerDial providerEndpoint : string → option string) (candidates : list member) (s : Smart) (m : member) (d : string) :
  NoDup (mb_tag <$> candidates) → m ∈ candidates → mb_dial m = Some d → d ≠ ""%string →
  (∀ m', m' ∈ candidates → md_dialIdentity (candidate_metadata providerDial providerEndpoint m') = d → mb_dial m' = Some d) →
  ct_pinned (sw_control s) ≠ ""%string → ct_pinnedDial (sw_control s) = d →
  ∃ s' w, rebuild_catalog providerDial providerEndpoint true candidates s = (false, s') ∧
    w ∈ candidates ∧ mb_dial w = Some d ∧ mb_tag w ∈ sw_candidates s' ∧
    ct_pinned (sw_control s') = mb_tag w ∧ ct_pinnedDial (sw_control s') = d.
Proof.
  intros Htags Hin Hd Hne Hapart Hp Hpd.
  destruct (rebuild_current providerDial providerEndpoint candidates s) as [_ E]; [by intros ->; apply not_elem_of_nil in Hin|].
  rewrite E. clear E. destruct (credentials_kept providerDial providerEndpoint candidates Htags m d) as (w0 & Hw0 & Hwd0); [done..|].
  pose proof (selected_metadata_lookup providerDial providerEndpoint candidates Htags) as Hmeta.
  assert (∀ c, c ∈ (dedupeSmartCandidates (all_metadata providerDial providerEndpoint candidates) candidates).1 → c ∈ candidates) as Hsub
    by (intros c Hc; by apply dedupe_elem in Hc as [? _]).
  destruct (dedupeSmartCandidates _ _) as [selected metadata]. cbn [fst snd] in *.
  set (published := publish_catalog selected metadata s).
  destruct (first_match_some (mkSelected 1 (ct_pinned (sw_control s)) (ct_pinnedDial (sw_control s)) (ct_pinnedEndpoint (sw_control s))) ByDial selected w0 Hw0)
    as (w & Ew & Hw & [Hwd _]%match_dial); [apply match_dial; cbn; by rewrite Hpd|]. cbn in Hwd. rewrite Hpd in Hwd.
  eexists _, w. split; [reflexivity|]. destruct (drop_gone_pinned (remapPinnedCandidate metadata selected published)) as (-> & -> & -> & _).
  destruct (remap_pinned_rest metadata selected published) as (-> & _). split; [by apply Hsub|]. split; [done|]. split.
  - cbn. apply elem_of_list_to_set. by apply list_elem_of_fmap_2.
  - unfold remapPinnedCandidate. cbn [published publish_catalog sw_control]. rewrite bool_decide_false by done.
    unfold resolveSelectionRecord. cbn [sr_DialIdentity]. rewrite (proj2 (nonempty_true _)) by by rewrite Hpd. rewrite Ew.
    case_bool_decide as Et; [by split|]. cbn. split; [done|]. rewrite Hmeta by done. by apply dialIdentity_given.
Qed.

(** The pinned "b" got a new name, and a duplicate of it another. *)
Definition pinned_b : Smart :=
  mkSmart (mkContexts {[ "k"%string := "b"%string ]} ∅ ∅ ∅ ∅ ∅ ∅) (mkControl "b" "vless" "uuid-1" "" 0 "") smartPhaseSteady (mkCounters 0 0 0 0) [] "b"
    (all_metadata no_options no_options [alias_b]) {[ "b"%string ]}.
Definition renamed : list member := [mkMember "z" "vless" (Some "uuid-2") None; mkMember "y" "vless" (Some "uuid-1") None; mkMember "x" "vless" (Some "uuid-1") None]%string.

Lemma pin_follows_credentials_witness :
  (∃ s' w, rebuild_catalog no_options no_options true renamed pinned_b = (false, s') ∧
    w ∈ renamed ∧ mb_dial w = Some "uuid-1"%string ∧ mb_tag w ∈ sw_candidates s' ∧
    ct_pinned (sw_control s') = mb_tag w ∧ ct_pinnedDial (sw_control s') = "uuid-1"%string) ∧
  ct_pinned (sw_control (rebuild_catalog no_options no_options true renamed pinned_b).2) = "x"%string.
Proof.
  split; [|vm_compute; reflexivity].
  apply (pin_follows_credentials no_options no_options renamed pinned_b (mkMember "y" "vless" (Some "uuid-1"%string) None) "uuid-1").
  - apply (bool_decide_unpack _). vm_compute. exact I.
  - right. left.
  - reflexivity.
  - discriminate.
  - intros m' H. unfold renamed in H. rewrite !elem_of_cons in H. destruct H as [->|[->|[->|[]%not_elem_of_nil]]]; vm_compute; congruence.
  - discriminate.
  - reflexivity.
Defined.

(** *** Nothing refers to what is gone *)

Lemma foldl_tag_inv {A} (f : member → A) (l : list member) t x :
  foldl (λ m c, <[mb_tag c := f c]> m) (∅ : gmap string A) l !! t = Some x → ∃ c, c ∈ l ∧ mb_tag c = t.
Proof.
  induction l as [|c0 l IH] using rev_ind; [cbn; by rewrite lookup_empty|]. rewrite foldl_app. cbn [foldl].
  destruct (decide (mb_tag c0 = t)) as [E|Hne]; [intros _; exists c0; set_solver|]. rewrite lookup_insert_ne by done. intros (c & ? & ?)%IH. set_solver.
Qed.

Lemma selected_metadata_inv providerDial providerEndpoint candidates t x :
  let d := dedupeSmartCandidates (all_metadata providerDial providerEndpoint candidates) candidates in d.2 !! t = Some x → ∃ c, c ∈ d.1 ∧ mb_tag c = t.
Proof. unfold dedupeSmartCandidates, all_metadata. destruct (_ <=? 1)%nat; cbn; apply foldl_tag_inv. Qed.

(** What a remembered tag becomes: a candidate, or itself because no candidate is
    known to be its endpoint. *)
Definition followed (old new : gmap string smartCandidateMetadata) (candidates : list member) (tag tag' : string) : Prop :=
  (∃ c, c ∈ candidates ∧ mb_tag c = tag') ∨
  (tag' = tag ∧ (tag = ""%string ∨ old !! tag = None ∨
     ∀ x c y, old !! tag = Some x → c ∈ candidates → new !! mb_tag c = Some y → smartMetadataSameEndpoint x y = false)).

Lemma remap_followed old new candidates tag :
  (∀ t x, new !! t = Some x → ∃ c, c ∈ candidates ∧ mb_tag c = t) → followed old new candidates tag (smartRemapCandidateAlias tag old new candidates).
Proof.
  intros Hnew. unfold smartRemapCandidateAlias. case_bool_decide as Ht; [right; auto|].
  destruct (new !! tag) as [y|] eqn:En; [left; by eapply Hnew|]. destruct (old !! tag) as [x|] eqn:Eo; [|right; auto].
  destruct (List.find _ _) as [c|] eqn:Ef.
  - apply find_some in Ef as [Hc _]. left. exists c. split; [by apply list_elem_of_In | done].
  - right. split; [done|]. right. right. intros x' c y Ex Hc Hy. assert (x' = x) as -> by congruence. apply list_elem_of_In in Hc. pose proof (find_none _ _ Ef c Hc) as H. cbn in H. by rewrite Hy in H.
Qed.

Lemma drop_gone_choices s :
  (sw_latest (drop_gone s) = ""%string ∨ sw_latest (drop_gone s) ∈ sw_candidates (drop_gone s)) ∧
  (ct_temporary (sw_control (drop_gone s)) = ""%string ∨ ct_temporary (sw_control (drop_gone s)) ∈ sw_candidates (drop_gone s)) ∧
  sw_contexts (drop_gone s) = sw_contexts s.
Proof.
  assert (∀ (t : string) (l : gset string), nonempty_s t && negb (bool_decide (t ∈ l)) = false → t = ""%string ∨ t ∈ l) as H.
  { intros t l. unfold nonempty_s. do 2 case_bool_decide; cbn; auto. discriminate. }
  unfold drop_gone. destruct (nonempty_s (sw_latest s) && _) eqn:E1; cbn [sw_control sw_candidates set_latest];
    destruct (nonempty_s (ct_temporary (sw_control s)) && _) eqn:E2; split_and!; cbn; auto.
Qed.

Lemma tags_nonempty (l : list member) : l ≠ [] → (list_to_set (mb_tag <$> l) : gset string) ≠ ∅.
Proof. destruct l as [|c l]; [done|]. intros _ E. apply (not_elem_of_empty (C:=gset string) (mb_tag c)). rewrite <-E. apply elem_of_list_to_set. by left. Qed.

(** The pin after a new catalog, before the choices that are gone are dropped. *)
Lemma remap_pinned_tag metadata candidates s :
  let x := sw_control s in
  ct_pinned x ≠ ""%string →
  ct_pinned (sw_control (remapPinnedCandidate metadata candidates s)) =
    from_option mb_tag (ct_pinned x) (resolveSelectionRecord candidates (mkSelected 1 (ct_pinned x) (ct_pinnedDial x) (ct_pinnedEndpoint x))).
Proof.
  intros x Hne. unfold remapPinnedCandidate. rewrite bool_decide_false by done. fold x. destruct (resolveSelectionRecord _ _) as [m|]; [|done].
  cbn [from_option]. case_bool_decide as E; [by rewrite E | done].
Qed.

(** C28. What a new catalog does to the choices of the group: the catalog has candidates; the
    latest choice and the temporary override are among them or cleared; every remembered
    selection and affinity is moved to a candidate, or kept only because no candidate is
    known to be its endpoint; the manual pin becomes the candidate its record resolves to,
    and stays as it is when there is none; switch challenges are not touched. *)
Theorem catalog_consistent (providerDial providerEndpoint : string → option string) (candidates : list member) (s : Smart) :
  candidates ≠ [] →
  let d := dedupeSmartCandidates (all_metadata providerDial providerEndpoint candidates) candidates in
  let x := sw_control s in
  ∃ s', rebuild_catalog providerDial providerEndpoint true candidates s = (false, s') ∧ sw_candidates s' = list_to_set (mb_tag <$> d.1) ∧ sw_candidates s' ≠ ∅ ∧
    (sw_latest s' = ""%string ∨ sw_latest s' ∈ sw_candidates s') ∧
    (ct_temporary (sw_control s') = ""%string ∨ ct_temporary (sw_control s') ∈ sw_candidates s') ∧
    (∀ key tag, cx_lastSelected (sw_contexts s) !! key = Some tag →
       ∃ tag', cx_lastSelected (sw_contexts s') !! key = Some tag' ∧ followed (sw_metadata s) d.2 d.1 tag tag') ∧
    (∀ key a, cx_affinity (sw_contexts s) !! key = Some a →
       ∃ a', cx_affinity (sw_contexts s') !! key = Some a' ∧ af_ExpiresAt a' = af_ExpiresAt a ∧ followed (sw_metadata s) d.2 d.1 (af_Candidate a) (af_Candidate a')) ∧
    (ct_pinned x ≠ ""%string → ct_pinned (sw_control s') =
       from_option mb_tag (ct_pinned x) (resolveSelectionRecord d.1 (mkSelected 1 (ct_pinned x) (ct_pinnedDial x) (ct_pinnedEndpoint x)))) ∧
    cx_switchChallenges (sw_contexts s') = cx_switchChallenges (sw_contexts s).
Proof.
  intros Hne d x. destruct (rebuild_current providerDial providerEndpoint candidates s Hne) as [Hd E]. fold d in Hd, E. rewrite E. eexists. split; [reflexivity|].
  assert (∀ tag, followed (sw_metadata s) d.2 d.1 tag (smartRemapCandidateAlias tag (sw_metadata s) d.2 d.1)) as Hf
    by (intros tag; apply remap_followed; apply selected_metadata_inv).
  destruct (drop_gone_choices (remapPinnedCandidate d.2 d.1 (publish_catalog d.1 d.2 s))) as (H1 & H2 & H3).
  destruct (drop_gone_pinned (remapPinnedCandidate d.2 d.1 (publish_catalog d.1 d.2 s))) as (Hpin & _ & H4 & _).
  destruct (remap_pinned_rest d.2 d.1 (publish_catalog d.1 d.2 s)) as (H5 & _ & H6). split_and!; [by rewrite H4, H5 | | done | done | | | |].
  - rewrite H4, H5. by apply tags_nonempty.
  - intros key tag Hk. rewrite H3, H6. cbn. rewrite lookup_fmap, Hk. cbn. eauto.
  - intros key a Hk. rewrite H3, H6. cbn. rewrite lookup_fmap, Hk. cbn. eauto.
  - intros Hx. rewrite Hpin. exact (remap_pinned_tag d.2 d.1 (publish_catalog d.1 d.2 s) Hx).
  - by rewrite H3, H6.
Qed.

(** The latest choice "b" is gone and cleared, the selection and the pin are at its new name. *)
Lemma catalog_consistent_witness :
  ∃ s', rebuild_catalog no_options no_options true renamed pinned_b = (false, s') ∧
    (sw_latest s' = ""%string ∨ sw_latest s' ∈ sw_candidates s') ∧ ct_pinned (sw_control s') = "x"%string ∧
    ∃ tag', cx_lastSelected (sw_contexts s') !! "k"%string = Some tag' ∧
      followed (sw_metadata pinned_b) (dedupeSmartCandidates (all_metadata no_options no_options renamed) renamed).2
        (dedupeSmartCandidates (all_metadata no_options no_options renamed) renamed).1 "b" tag'.
Proof.
  destruct (catalog_consistent no_options no_options renamed pinned_b ltac:(discriminate)) as (s' & E & _ & _ & H1 & _ & H2 & _ & H3 & _).
  exists s'. split; [exact E|]. split; [exact H1|]. split; [rewrite (H3 ltac:(discriminate)); vm_compute; reflexivity|].
  apply H2. vm_compute. reflexivity.
Defined.

Example renamed_selection : cx_lastSelected (sw_contexts (rebuild_catalog no_options no_options true renamed pinned_b).2) = {[ "k"%string := "x"%string ]}.
Proof. vm_compute. reflexivity. Qed.
