(* ===== verification/NodeProfile.v ===== *)
(** * The registry of node profiles

    [src/protocol/group/node_profile_registry.go], [group_profile.go]: the health of
    nodes as the probes of all groups found it.  A probe runs once at a time for every
    key and every endpoint, four at a time in all; callers that come later wait on a
    channel of the one that runs.  Every call is a thread whose steps are the sections
    under the mutex, the waits and the probe itself; entries are shared objects, which
    a caller keeps while the table has another one under the same key. *)

From Stdlib Require Import ZArith Lia String.
From S2P Require Import Prelude SmartSwitch SmartCandidates.
From stdpp Require Import base gmap sets list strings numbers.

Local Open Scope Z_scope.

(** ** State *)

Definition nodeProfileRegistryLimit : nat := Z.to_nat 8192.
Definition slots_limit : nat := 4.

Record nodeProfileResult : Type := mkResult {
  pr_delay : Z; pr_success : bool; pr_completedAt : Z; pr_nextProbeAt : Z; pr_successes : Z; pr_failures : Z; pr_deferred : bool }.
Definition no_result : nodeProfileResult := mkResult 0 false time_zero time_zero 0 0 false.

(** [done] is a channel while the entry is in flight. *)
Record nodeProfileEntry : Type := mkEntry { en_result : nodeProfileResult; en_inflight : bool; en_done : option Z }.
Definition new_entry : nodeProfileEntry := mkEntry no_result false None.

(** Entries and channels are numbers in the order of their allocation; [slots] counts
    the tokens in the channel of that name. *)
Record nodeProfileRegistry : Type := mkRegistry {
  rg_heap : gmap Z nodeProfileEntry;
  rg_entries : gmap string Z;
  rg_active : gmap string Z;
  rg_closed : gset Z;
  rg_slots : nat;
  rg_completedProbes : Z;
  rg_cancelled : bool;
  rg_next : Z }.

Definition newNodeProfileRegistry : nodeProfileRegistry := mkRegistry ∅ ∅ ∅ ∅ 0 0 false 0.

Definition set_heap (h : gmap Z nodeProfileEntry) (r : nodeProfileRegistry) : nodeProfileRegistry :=
  mkRegistry h (rg_entries r) (rg_active r) (rg_closed r) (rg_slots r) (rg_completedProbes r) (rg_cancelled r) (rg_next r).
Definition set_entries (m : gmap string Z) (r : nodeProfileRegistry) : nodeProfileRegistry :=
  mkRegistry (rg_heap r) m (rg_active r) (rg_closed r) (rg_slots r) (rg_completedProbes r) (rg_cancelled r) (rg_next r).
Definition set_active (m : gmap string Z) (r : nodeProfileRegistry) : nodeProfileRegistry :=
  mkRegistry (rg_heap r) (rg_entries r) m (rg_closed r) (rg_slots r) (rg_completedProbes r) (rg_cancelled r) (rg_next r).
Definition close_channel (ch : Z) (r : nodeProfileRegistry) : nodeProfileRegistry :=
  mkRegistry (rg_heap r) (rg_entries r) (rg_active r) ({[ch]} ∪ rg_closed r) (rg_slots r) (rg_completedProbes r) (rg_cancelled r) (rg_next r).
Definition set_slots (n : nat) (completed : Z) (r : nodeProfileRegistry) : nodeProfileRegistry :=
  mkRegistry (rg_heap r) (rg_entries r) (rg_active r) (rg_closed r) n completed (rg_cancelled r) (rg_next r).
Definition fresh_id (r : nodeProfileRegistry) : Z * nodeProfileRegistry :=
  (rg_next r, mkRegistry (rg_heap r) (rg_entries r) (rg_active r) (rg_closed r) (rg_slots r) (rg_completedProbes r) (rg_cancelled r) (rg_next r + 1)).

Definition entry_of (r : nodeProfileRegistry) (key : string) : option nodeProfileEntry := i ← rg_entries r !! key; rg_heap r !! i.

(** ** Reading *)

Definition dead (now : Z) (key : string) (r : nodeProfileRegistry) : bool :=
  if bool_decide (key = ""%string) then false
  else match entry_of r key with
       | None => false
       | Some e =>
           if en_inflight e || pr_success (en_result e) || (pr_failures (en_result e) <? 3) then false
           else negb (time_is_zero (pr_nextProbeAt (en_result e))) && time_before now (pr_nextProbeAt (en_result e))
       end.

Definition snapshot (key : string) (r : nodeProfileRegistry) : option nodeProfileResult :=
  if bool_decide (key = ""%string) then None
  else match entry_of r key with
       | None => None
       | Some e => if en_inflight e || time_is_zero (pr_completedAt (en_result e)) || pr_deferred (en_result e) then None else Some (en_result e)
       end.

Definition passiveFailureActive (now : Z) (key : string) (r : nodeProfileRegistry) : bool :=
  match snapshot key r with Some x => negb (pr_success x) && time_before now (pr_nextProbeAt x) | None => false end.

Definition nodeProfileCadence (success : bool) (successes failures : Z) : Z :=
  if success then (if successes <=? 1 then 5 * minute else if successes =? 2 then 15 * minute else 30 * minute)
  else (if failures <=? 1 then 30 * second else if failures =? 2 then minute else 5 * minute).

(** ** Pruning *)

Definition completed_of (r : nodeProfileRegistry) (i : Z) : Z := match rg_heap r !! i with Some e => pr_completedAt (en_result e) | None => time_zero end.
Definition inflight_of (r : nodeProfileRegistry) (i : Z) : bool := match rg_heap r !! i with Some e => en_inflight e | None => false end.

(** The range that looks for the oldest entry that is not in flight. *)
Definition note_oldest (r : nodeProfileRegistry) (best : string * Z) (x : string * Z) : string * Z :=
  if inflight_of r x.2 then best
  else if bool_decide (best.1 = ""%string) || time_before (completed_of r x.2) best.2 then (x.1, completed_of r x.2) else best.

Section Prune.
(** The order in which the ranges visit the table. *)
Context (order : gmap string Z → list (string * Z)).

Fixpoint evict_oldest (rounds : nat) (r : nodeProfileRegistry) : nodeProfileRegistry :=
  match rounds with
  | O => r
  | S rounds =>
      if (size (rg_entries r) <? nodeProfileRegistryLimit)%nat then r
      else
        let oldest := (foldl (note_oldest r) (""%string, time_zero) (order (rg_entries r))).1 in
        if bool_decide (oldest = ""%string) then r else evict_oldest rounds (set_entries (delete oldest (rg_entries r)) r)
  end.

Definition pruneLocked (now : Z) (r : nodeProfileRegistry) : nodeProfileRegistry :=
  let r := set_entries (filter (λ x, (negb (inflight_of r x.2) && (hour <? time_sub now (completed_of r x.2))) = false) (rg_entries r)) r in
  evict_oldest (S (size (rg_entries r))) r.

Definition recordPassive (now : Z) (key : string) (success : bool) (failureTTL : Z) (r : nodeProfileRegistry) : nodeProfileRegistry :=
  if bool_decide (key = ""%string) then r
  else
    let '(i, e, r) :=
      match rg_entries r !! key with
      | Some i => (i, default new_entry (rg_heap r !! i), r)
      | None => let '(i, r) := fresh_id r in (i, new_entry, set_entries (<[key := i]> (rg_entries r)) (set_heap (<[i := new_entry]> (rg_heap r)) r))
      end in
    if en_inflight e then r
    else if success then set_entries (delete key (rg_entries r)) r
    else
      let failureTTL := if failureTTL <=? 0 then 30 * second else failureTTL in
      let result := mkResult 0 false now (now + failureTTL) 0 (Z.min (u8 (pr_failures (en_result e) + 1)) 3) false in
      pruneLocked now (set_heap (<[i := mkEntry result (en_inflight e) (en_done e)]> (rg_heap r)) r).

(** ** A call *)

Record probe_call : Type := mkCall { cl_endpointKey : string; cl_key : string; cl_force : bool; cl_retryAfterInflight : bool }.

Inductive probe_error : Type := ContextEnded | SharedFailed | SharedDeferred.
(** The delay or the error, and whether the result is fresh. *)
Definition outcome : Type := (Z + probe_error) * bool.

(** Where a call is: before the section that admits it, waiting for the entry's or the
    endpoint's channel, reading the entry it waited for, waiting for a slot, probing,
    with the probe's result, or done. *)
Inductive place : Type :=
| Admit
| WaitEntry (i ch : Z)
| ReadEntry (i : Z)
| WaitActive (ch : Z)
| WantSlot (i : Z)
| Probing (i : Z)
| Store (i : Z) (result : option Z)
| Returned (o : outcome).

(** The result of an entry as it was answered to a caller. *)
Definition answer (x : nodeProfileResult) (success_fresh failure_fresh : bool) : outcome :=
  if pr_success x then (inl (pr_delay x), success_fresh)
  else if pr_deferred x then (inr SharedDeferred, false) else (inr SharedFailed, failure_fresh).

Definition release_endpoint (endpointKey : string) (r : nodeProfileRegistry) : nodeProfileRegistry :=
  if bool_decide (endpointKey = ""%string) then r
  else match rg_active r !! endpointKey with
       | Some ch => close_channel ch (set_active (delete endpointKey (rg_active r)) r)
       | None => r
       end.

(** The part of that section that starts a probe: the endpoint must be free and the
    table have room. *)
Definition start_probe (now : Z) (c : probe_call) (r : nodeProfileRegistry) : place * nodeProfileRegistry :=
  match (if bool_decide (cl_endpointKey c = ""%string) then None else rg_active r !! cl_endpointKey c) with
  | Some ch => (WaitActive ch, r)
  | None =>
      let r := if bool_decide (cl_endpointKey c = ""%string) then r
               else let '(ch, r) := fresh_id r in set_active (<[cl_endpointKey c := ch]> (rg_active r)) r in
      let r := if (nodeProfileRegistryLimit <=? size (rg_entries r))%nat then pruneLocked now r else r in
      if (nodeProfileRegistryLimit <=? size (rg_entries r))%nat then (Returned (inr SharedDeferred, false), release_endpoint (cl_endpointKey c) r)
      else
        let '(done, r) := fresh_id r in
        let '(i, r) := fresh_id r in
        (WantSlot i, set_entries (<[cl_key c := i]> (rg_entries r)) (set_heap (<[i := mkEntry no_result true (Some done)]> (rg_heap r)) r))
  end.

(** The section under the mutex that admits the call. *)
Definition admit_call (now : Z) (c : probe_call) (r : nodeProfileRegistry) : place * nodeProfileRegistry :=
  match rg_entries r !! cl_key c with
  | Some i =>
      let e := default new_entry (rg_heap r !! i) in
      if en_inflight e then (WaitEntry i (default 0 (en_done e)), r)
      else if negb (cl_force c) && time_before now (pr_nextProbeAt (en_result e)) then (Returned (answer (en_result e) false false), r)
      else start_probe now c r
  | None => start_probe now c r
  end.
End Prune.

(** Stores a result, wakes the callers that wait for it and frees the endpoint. *)
Definition settle (c : probe_call) (i : Z) (x : nodeProfileResult) (r : nodeProfileRegistry) : nodeProfileRegistry :=
  let done := rg_heap r !! i ≫= en_done in
  let r := set_heap (<[i := mkEntry x false None]> (rg_heap r)) r in
  release_endpoint (cl_endpointKey c) (match done with Some ch => close_channel ch r | None => r end).

(** The section after the probe; [result] is the delay, or nothing when it failed. *)
Definition probe_result (now : Z) (previous : nodeProfileResult) (result : option Z) : nodeProfileResult :=
  let successes := match result with Some _ => Z.min (u8 (pr_successes previous + 1)) 3 | None => 0 end in
  let failures := match result with Some _ => 0 | None => Z.min (u8 (pr_failures previous + 1)) 3 end in
  let success := bool_decide (is_Some result) in
  mkResult (default 0 result) success now (now + nodeProfileCadence success successes failures) successes failures false.

Definition store_result (now : Z) (ctxEnded : bool) (c : probe_call) (i : Z) (result : option Z) (r : nodeProfileRegistry) : outcome * nodeProfileRegistry :=
  let previous := match rg_heap r !! i with Some e => en_result e | None => no_result end in
  if ctxEnded || rg_cancelled r then
    ((inr SharedDeferred, false),
     settle c i (mkResult (pr_delay previous) (pr_success previous) now now (pr_successes previous) (pr_failures previous) true) r)
  else
    (match result with Some delay => (inl delay, true) | None => (inr SharedFailed, true) end, settle c i (probe_result now previous result) r).

(** The context of the registry ends: [close] cancels it, and so does the end of the
    context it was made from, which leaves the table as it is. *)
Definition cancel_registry (r : nodeProfileRegistry) : nodeProfileRegistry :=
  mkRegistry (rg_heap r) (rg_entries r) (rg_active r) (rg_closed r) (rg_slots r) (rg_completedProbes r) true (rg_next r).

(** [close]: the context is cancelled and the table emptied.  That other calls see the
    first without the second is a [CancelRegistry] before the [CloseRegistry]. *)
Definition close_registry (r : nodeProfileRegistry) : nodeProfileRegistry :=
  mkRegistry (rg_heap r) ∅ (rg_active r) (rg_closed r) (rg_slots r) (rg_completedProbes r) true (rg_next r).

(** ** The registry with its callers *)

Record thread : Type := mkThread { th_call : probe_call; th_ended : bool; th_place : place }.
Record system : Type := mkSystem { sy_now : Z; sy_registry : nodeProfileRegistry; sy_threads : list thread }.

(** What can happen next.  [Check] is the test of both contexts before the section that
    admits, which is a step of its own: a call is made, or made again, when it passes. *)
Inductive choice : Type :=
| Tick (now : Z)
| Call (c : probe_call)
| End (t : nat)
| CancelRegistry
| CloseRegistry
| Passive (key : string) (success : bool) (failureTTL : Z)
| Run (t : nat)
| Abandon (t : nat)
| ProbeReturns (t : nat) (result : option Z).

Section Steps.
Context (order : gmap string Z → list (string * Z)).

(** The step of a call that is not its giving up, nor the probe's return; [None] while
    it has to wait. *)
Definition run_step (now : Z) (t : thread) (r : nodeProfileRegistry) : option (place * nodeProfileRegistry) :=
  match th_place t with
  | Admit => Some (admit_call order now (th_call t) r)
  | WaitEntry i ch => if bool_decide (ch ∈ rg_closed r) then Some (ReadEntry i, r) else None
  | ReadEntry i =>
      let x := match rg_heap r !! i with Some e => en_result e | None => no_result end in
      if negb (pr_success x) && negb (pr_deferred x) && cl_force (th_call t) && cl_retryAfterInflight (th_call t) then
        Some (if th_ended t || rg_cancelled r then (Returned (inr ContextEnded, false), r) else (Admit, r))
      else Some (Returned (answer x (negb (pr_deferred x)) true), r)
  | WaitActive ch =>
      if bool_decide (ch ∈ rg_closed r) then Some (if th_ended t || rg_cancelled r then (Returned (inr ContextEnded, false), r) else (Admit, r)) else None
  | WantSlot i => if (rg_slots r <? slots_limit)%nat then Some (Probing i, set_slots (S (rg_slots r)) (rg_completedProbes r) r) else None
  | Probing _ => None
  | Store i result => let '(o, r) := store_result now (th_ended t) (th_call t) i result r in Some (Returned o, r)
  | Returned _ => None
  end.

(** A call gives up a wait when its context or the registry's ended. *)
Definition abandon (now : Z) (t : thread) (r : nodeProfileRegistry) : option (place * nodeProfileRegistry) :=
  if negb (th_ended t || rg_cancelled r) then None
  else match th_place t with
       | WaitEntry _ _ | WaitActive _ => Some (Returned (inr ContextEnded, false), r)
       | WantSlot i => Some (Returned (inr SharedDeferred, false), settle (th_call t) i (mkResult 0 false now now 0 0 true) r)
       | _ => None
       end.

Definition probe_returns (result : option Z) (t : thread) (r : nodeProfileRegistry) : option (place * nodeProfileRegistry) :=
  match th_place t with
  | Probing i => Some (Store i result, set_slots (pred (rg_slots r)) (u64 (rg_completedProbes r + 1)) r)
  | _ => None
  end.

Definition step_thread (f : thread → nodeProfileRegistry → option (place * nodeProfileRegistry)) (n : nat) (s : system) : option system :=
  t ← sy_threads s !! n;
  '(p, r) ← f t (sy_registry s);
  Some (mkSystem (sy_now s) r (<[n := mkThread (th_call t) (th_ended t) p]> (sy_threads s))).

Definition system_step (s : system) (ch : choice) : option system :=
  match ch with
  | Tick now => if sy_now s <=? now then Some (mkSystem now (sy_registry s) (sy_threads s)) else None
  | Call c =>
      if bool_decide (cl_key c = ""%string) then None
      else Some (mkSystem (sy_now s) (sy_registry s)
             (sy_threads s ++ [mkThread c false (if rg_cancelled (sy_registry s) then Returned (inr ContextEnded, false) else Admit)]))
  | End n => t ← sy_threads s !! n; Some (mkSystem (sy_now s) (sy_registry s) (<[n := mkThread (th_call t) true (th_place t)]> (sy_threads s)))
  | CancelRegistry => Some (mkSystem (sy_now s) (cancel_registry (sy_registry s)) (sy_threads s))
  | CloseRegistry => Some (mkSystem (sy_now s) (close_registry (sy_registry s)) (sy_threads s))
  | Passive key success ttl => Some (mkSystem (sy_now s) (recordPassive order (sy_now s) key success ttl (sy_registry s)) (sy_threads s))
  | Run n => step_thread (run_step (sy_now s)) n s
  | Abandon n => step_thread (abandon (sy_now s)) n s
  | ProbeReturns n result => step_thread (probe_returns result) n s
  end.

Fixpoint run_system (s : system) (chs : list choice) : option system :=
  match chs with [] => Some s | ch :: chs => s ← system_step s ch; run_system s chs end.
End Steps.

Definition system_start (now : Z) : system := mkSystem now newNodeProfileRegistry [].

(** ** The invariant *)

(** The entry that a place owns: the call put it in flight and will settle it. *)
Definition owned (p : place) : option Z :=
  match p with WantSlot i | Probing i | Store i _ => Some i | _ => None end.
Definition probing (t : thread) : bool := match th_place t with Probing _ => true | _ => false end.

Definition owner (l : list thread) (n : nat) (c : probe_call) (i : Z) : Prop := ∃ t, l !! n = Some t ∧ th_call t = c ∧ owned (th_place t) = Some i.

(** A channel that is to be closed yet, of an entry or of an endpoint. *)
Definition live (r : nodeProfileRegistry) (ch : Z) (src : Z + string) : Prop :=
  match src with
  | inl i => ∃ e, rg_heap r !! i = Some e ∧ en_done e = Some ch
  | inr ep => rg_active r !! ep = Some ch
  end.

(** What a waiting call waits for is closed or will be. *)
Definition wait_ok (r : nodeProfileRegistry) (p : place) : Prop :=
  match p with
  | WaitEntry i ch => ch ∈ rg_closed r ∨ live r ch (inl i)
  | WaitActive ch => ch ∈ rg_closed r ∨ ∃ ep, live r ch (inr ep)
  | _ => True
  end.

Fixpoint count (l : list thread) : nat := match l with [] => 0 | t :: l => (if probing t then 1 else 0) + count l end.

(** The registry by itself. *)
Record registry_ok (r : nodeProfileRegistry) : Prop := {
  ro_ids : ∀ i e, rg_heap r !! i = Some e → i < rg_next r;
  ro_live : ∀ ch src, live r ch src → ch < rg_next r ∧ ch ∉ rg_closed r;
  ro_live_inj : ∀ ch src src', live r ch src → live r ch src' → src = src';
  ro_closed : ∀ ch, ch ∈ rg_closed r → ch < rg_next r;
  ro_entry : ∀ key i, rg_entries r !! key = Some i → key ≠ ""%string ∧ is_Some (rg_heap r !! i);
  ro_entry_inj : ∀ k k' i, rg_entries r !! k = Some i → rg_entries r !! k' = Some i → k = k';
  ro_idle : ∀ i e, rg_heap r !! i = Some e → en_inflight e = false → en_done e = None;
  ro_size : (size (rg_entries r) ≤ nodeProfileRegistryLimit)%nat }.

(** An owner and the registry. *)
Record owner_ok (r : nodeProfileRegistry) (c : probe_call) (i : Z) : Prop := {
  oo_heap : ∃ ch, rg_heap r !! i = Some (mkEntry no_result true (Some ch));
  oo_active : cl_endpointKey c ≠ ""%string → is_Some (rg_active r !! cl_endpointKey c);
  oo_entry : rg_cancelled r = false → rg_entries r !! cl_key c = Some i;
  oo_key : ∀ k, rg_entries r !! k = Some i → k = cl_key c }.

Record registry_inv (r : nodeProfileRegistry) (l : list thread) : Prop := {
  ri_ok : registry_ok r;
  ri_owner : ∀ n c i, owner l n c i → owner_ok r c i;
  ri_owner_inj : ∀ n n' c c' i i', owner l n c i → owner l n' c' i' →
    i = i' ∨ (cl_endpointKey c = cl_endpointKey c' ∧ cl_endpointKey c ≠ ""%string) → n = n';
  ri_inflight : ∀ i e, rg_heap r !! i = Some e → en_inflight e = true → ∃ n c, owner l n c i;
  ri_active : ∀ ep ch, rg_active r !! ep = Some ch → ep ≠ ""%string ∧ ∃ n c i, owner l n c i ∧ cl_endpointKey c = ep;
  ri_slots : rg_slots r = count l ∧ (rg_slots r ≤ slots_limit)%nat;
  ri_wait : ∀ n t, l !! n = Some t → wait_ok r (th_place t) ∧ cl_key (th_call t) ≠ ""%string }.

(** *** Threads *)

Lemma owner_insert l n t t' m c i :
  l !! n = Some t → owner (<[n := t']> l) m c i ↔ (m = n ∧ th_call t' = c ∧ owned (th_place t') = Some i) ∨ (m ≠ n ∧ owner l m c i).
Proof.
  intros Hn. unfold owner. destruct (decide (m = n)) as [->|Hne].
  - rewrite list_lookup_insert_eq by (by eapply lookup_lt_Some). naive_solver.
  - rewrite list_lookup_insert_ne by done. naive_solver.
Qed.

Lemma count_insert l n t t' : l !! n = Some t → (count (<[n := t']> l) + (if probing t then 1 else 0) = count l + (if probing t' then 1 else 0))%nat.
Proof.
  revert n. induction l as [|u l IH]; intros [|n] Hn; [done | done | | ].
  - injection Hn as ->. cbn [count insert list_insert]. lia.
  - change (l !! n = Some t) in Hn. specialize (IH n Hn). change (<[S n := t']> (u :: l)) with (u :: <[n := t']> l). cbn [count]. lia.
Qed.

Lemma count_app l l' : count (l ++ l') = (count l + count l')%nat.
Proof. induction l as [|t l IH]; cbn; [done | rewrite IH; lia]. Qed.

(** A call that owns nothing moves on, or one that owns its entry keeps it, and the
    registry stays. *)
Lemma inv_move r l n t p b :
  registry_inv r l → l !! n = Some t → owned p = owned (th_place t) →
  (match p with Probing _ => true | _ => false end) = probing t → wait_ok r p → registry_inv r (<[n := mkThread (th_call t) b p]> l).
Proof.
  intros [H1 H2 H3 H4 H5 H6 H7] Hn Ho Hp Hw.
  assert (∀ m c i, owner (<[n := mkThread (th_call t) b p]> l) m c i ↔ owner l m c i) as Hown.
  { intros m c i. rewrite (owner_insert _ _ _ _ _ _ _ Hn). cbn. rewrite Ho. unfold owner. destruct (decide (m = n)); naive_solver. }
  split; [done | | | | | |].
  - intros m c i. rewrite Hown. apply H2.
  - intros m m' c c' i i'. rewrite !Hown. apply H3.
  - intros i e Hi He. destruct (H4 i e Hi He) as (m & c & ?). exists m, c. by rewrite Hown.
  - intros ep ch Hep. destruct (H5 ep ch Hep) as (? & m & c & i & ? & ?). split; [done|]. exists m, c, i. by rewrite Hown.
  - pose proof (count_insert l n t (mkThread (th_call t) b p) Hn) as Hc. assert (probing (mkThread (th_call t) b p) = probing t) as Eq by exact Hp. rewrite Eq in Hc. destruct H6. split; [lia | done].
  - intros m u. destruct (decide (m = n)) as [->|Hne].
    + rewrite list_lookup_insert_eq by (by eapply lookup_lt_Some). intros [= <-]. cbn. split; [done|]. by apply (H7 n).
    + rewrite list_lookup_insert_ne by done. apply H7.
Qed.

(** *** The registry's own changes *)

Lemma wait_ok_ext r r' p : (∀ ch src, live r' ch src ↔ live r ch src) → rg_closed r' = rg_closed r → wait_ok r p → wait_ok r' p.
Proof.
  intros Hlive Hc. destruct p; cbn [wait_ok]; rewrite ?Hc; try done.
  - by rewrite Hlive.
  - intros [?|[ep ?]]; [by left|]. right. exists ep. by rewrite Hlive.
Qed.

(** Only the slots differ. *)
Lemma inv_slots r l n t p k completed :
  registry_inv r l → l !! n = Some t → owned p = owned (th_place t) → wait_ok r p →
  (k + (if probing t then 1 else 0) = rg_slots r + (match p with Probing _ => 1 | _ => 0 end))%nat → (k ≤ slots_limit)%nat →
  registry_inv (set_slots k completed r) (<[n := mkThread (th_call t) (th_ended t) p]> l).
Proof.
  intros [H1 H2 H3 H4 H5 H6 H7] Hn Ho Hw Hk Hlim.
  assert (∀ m c i, owner (<[n := mkThread (th_call t) (th_ended t) p]> l) m c i ↔ owner l m c i) as Hown.
  { intros m c i. rewrite (owner_insert _ _ _ _ _ _ _ Hn). cbn. rewrite Ho. unfold owner. destruct (decide (m = n)); naive_solver. }
  split.
  - destruct H1. by split.
  - intros m c i. rewrite Hown. intros Hm. destruct (H2 _ _ _ Hm). by split.
  - intros m m' c c' i i'. rewrite !Hown. apply H3.
  - intros i e Hi He. destruct (H4 i e Hi He) as (m & c & ?). exists m, c. by rewrite Hown.
  - intros ep ch Hep. destruct (H5 ep ch Hep) as (? & m & c & i & ? & ?). split; [done|]. exists m, c, i. by rewrite Hown.
  - pose proof (count_insert l n t (mkThread (th_call t) (th_ended t) p) Hn) as Hc. destruct H6 as [H6 _]. cbn. split; [|done].
    change (probing (mkThread (th_call t) (th_ended t) p)) with (match p with Probing _ => true | _ => false end) in Hc. destruct p; lia.
  - intros m u. destruct (decide (m = n)) as [->|Hne].
    + rewrite list_lookup_insert_eq by (by eapply lookup_lt_Some). intros [= <-]. cbn. split; [by destruct p|]. by apply (H7 n).
    + rewrite list_lookup_insert_ne by done. intros Hu. destruct (H7 m u Hu). split; [|done]. by destruct (th_place u).
Qed.

(** The table loses keys whose entries are not in flight. *)
Lemma inv_forget r l m :
  registry_inv r l → (∀ k i, m !! k = Some i → rg_entries r !! k = Some i) → (size m ≤ nodeProfileRegistryLimit)%nat →
  (∀ k i, rg_entries r !! k = Some i → inflight_of r i = true → m !! k = Some i) → registry_inv (set_entries m r) l.
Proof.
  intros [H1 H2 H3 H4 H5 H6 H7] Hsub Hsize Hkeep. split; try done.
  - destruct H1 as [? ? ? ? R5 R6 ? ?]. split; try done; cbn.
    + intros k i Hk. by apply (R5 k), Hsub.
    + intros k k' i Hk Hk'. apply (R6 k k' i); by apply Hsub.
  - intros n c i Hn. destruct (H2 n c i Hn) as [[ch Hh] O2 O3 O4]. split; [by exists ch | done | |]; cbn.
    + intros Hc. apply Hkeep; [by apply O3|]. unfold inflight_of. by rewrite Hh.
    + intros k Hk. by apply O4, Hsub.
Qed.

(** *** Pruning *)

Lemma note_oldest_spec r l best :
  let o := foldl (note_oldest r) best l in
  (o.1 = best.1 ∨ ∃ x, x ∈ l ∧ x.1 = o.1 ∧ inflight_of r x.2 = false) ∧
  (o.1 = ""%string → Forall (λ x, x.1 ≠ ""%string) l → best.1 = ""%string ∧ Forall (λ x, inflight_of r x.2 = true) l).
Proof.
  revert best. induction l as [|x l IH]; intros best; cbn [foldl]; [split; [by left | by intros ? _; split; [|constructor]]|].
  specialize (IH (note_oldest r best x)). cbv zeta in *. destruct IH as [IH1 IH2].
  assert (note_oldest r best x = best ∨ (note_oldest r best x).1 = x.1 ∧ inflight_of r x.2 = false) as Hx
    by (unfold note_oldest; destruct (inflight_of r x.2); [by left|]; destruct (_ || _); [by right | by left]).
  split.
  - destruct IH1 as [->|(y & Hy & ? & ?)]; [|right; exists y; split; [by right | done]].
    destruct Hx as [->|[-> Hx]]; [by left|]. right. exists x. split; [by left | done].
  - intros Ho Hall. apply list.Forall_cons in Hall as [Hne Hall]. destruct (IH2 Ho Hall) as [Hb Hl].
    unfold note_oldest in Hb. destruct (inflight_of r x.2) eqn:Ex; [split; [done | by constructor]|].
    destruct (bool_decide (best.1 = ""%string)) eqn:Eb; cbn in Hb; [done|]. destruct (time_before _ _); cbn in Hb; [done|]. by apply bool_decide_eq_false in Eb.
Qed.

Section PruneOk.
Context (order : gmap string Z → list (string * Z)) (Horder : ∀ m, range_of m (order m)).

(** What is left of the table: the entries in flight are, and there is room or there is
    nothing else. *)
Definition pruned_to (r : nodeProfileRegistry) (m : gmap string Z) : Prop :=
  (∀ k i, m !! k = Some i → rg_entries r !! k = Some i) ∧
  (∀ k i, rg_entries r !! k = Some i → inflight_of r i = true → m !! k = Some i) ∧
  ((size m < nodeProfileRegistryLimit)%nat ∨ ∀ k i, m !! k = Some i → inflight_of r i = true).

Lemma evict_oldest_spec rounds r :
  (∀ k i, rg_entries r !! k = Some i → k ≠ ""%string) → (size (rg_entries r) < rounds)%nat → ∃ m, evict_oldest order rounds r = set_entries m r ∧ pruned_to r m.
Proof.
  revert r. induction rounds as [|rounds IH]; intros r Hkeys Hrounds; [lia|]. cbn [evict_oldest].
  destruct (Nat.ltb_spec (size (rg_entries r)) nodeProfileRegistryLimit) as [Hlt|Hge].
  { exists (rg_entries r). split; [by destruct r | split_and!; auto]. }
  set (l := order (rg_entries r)). pose proof (note_oldest_spec r l (""%string, time_zero)) as Ho. cbv zeta in Ho. cbn [fst] in Ho.
  set (oldest := (foldl (note_oldest r) (""%string, time_zero) l).1) in *. destruct Ho as [Ho1 Ho2].
  assert (∀ k i, (k, i) ∈ l ↔ rg_entries r !! k = Some i) as Hl by (intros k i; apply range_of_lookup, Horder).
  case_bool_decide as Eo.
  - exists (rg_entries r). split; [by destruct r | split_and!; auto]. right. intros k i Hk.
    destruct (Ho2 Eo) as [_ Hall]; [apply list.Forall_forall; intros [k' i'] Hk'; by apply Hl, Hkeys in Hk'|].
    rewrite list.Forall_forall in Hall. by apply (Hall (k, i)), Hl.
  - destruct Ho1 as [?|([k0 i0] & Hin & Hk0 & Hfl)]; [done|]. cbn in Hk0, Hfl. subst k0. apply Hl in Hin.
    destruct (IH (set_entries (delete oldest (rg_entries r)) r)) as (m & Em & Hsub & Hkeep & Hroom).
    + cbn. intros k i [_ Hk]%lookup_delete_Some. by eapply Hkeys.
    + cbn. rewrite map_size_delete, Hin. assert (size (rg_entries r) ≠ 0%nat) by (intros E; apply map_size_empty_iff in E; by rewrite E, lookup_empty in Hin). lia.
    + exists m. split; [by rewrite Em; destruct r|]. cbn in *. split_and!; [| | done].
      * intros k i Hk. by apply Hsub, lookup_delete_Some in Hk as [_ ?].
      * intros k i Hk Hfk. apply Hkeep; [|done]. apply lookup_delete_Some. split; [|done]. intros <-.
        change (inflight_of r i = true) in Hfk. rewrite Hin in Hk. injection Hk as ->. by rewrite Hfl in Hfk.
Qed.

Lemma pruneLocked_spec now r : (∀ k i, rg_entries r !! k = Some i → k ≠ ""%string) → ∃ m, pruneLocked order now r = set_entries m r ∧ pruned_to r m.
Proof.
  intros Hkeys. unfold pruneLocked. set (m0 := filter _ (rg_entries r)).
  destruct (evict_oldest_spec (S (size m0)) (set_entries m0 r)) as (m & Em & Hsub & Hkeep & Hroom).
  - cbn. intros k i [Hk _]%map_lookup_filter_Some. by eapply Hkeys.
  - cbn. lia.
  - exists m. split; [etransitivity; [exact Em | by destruct r]|]. cbn in *. split_and!; [| | done].
    + intros k i Hk. by apply Hsub, map_lookup_filter_Some in Hk as [? _].
    + intros k i Hk Hfk. apply Hkeep; [|done]. apply map_lookup_filter_Some. cbn. split; [done|]. by rewrite Hfk.
Qed.

Lemma inv_prune now r l : registry_inv r l → registry_inv (pruneLocked order now r) l.
Proof.
  intros Hr. destruct (pruneLocked_spec now r) as (m & -> & Hsub & Hkeep & _).
  - intros k i Hk. by apply (ro_entry _ (ri_ok _ _ Hr) k i).
  - apply inv_forget; [done | done | | done]. etransitivity; [|exact (ro_size _ (ri_ok _ _ Hr))]. apply map_subseteq_size, map_subseteq_spec, Hsub.
Qed.

(** The entry of a key that no probe is in flight for is written. *)
Lemma inv_write r l i x :
  registry_inv r l → is_Some (rg_heap r !! i) → inflight_of r i = false → registry_inv (set_heap (<[i := mkEntry x false None]> (rg_heap r)) r) l.
Proof.
  intros [H1 H2 H3 H4 H5 H6 H7] [e He] Hfl. unfold inflight_of in Hfl. rewrite He in Hfl.
  pose proof (ro_idle _ H1 i e He Hfl) as Hdone.
  assert (∀ ch src, live (set_heap (<[i := mkEntry x false None]> (rg_heap r)) r) ch src ↔ live r ch src) as Hlive.
  { intros ch [j|ep]; cbn; [|done]. destruct (decide (i = j)) as [<-|Hne]; [rewrite lookup_insert_eq; naive_solver | by rewrite lookup_insert_ne]. }
  split; try done.
  - destruct H1 as [R1 R2 R3 R4 R5 R6 R7 R8]. split; try done; cbn.
    + intros j e' [[<- _]|[_ Hj]]%lookup_insert_Some; eauto.
    + intros ch src. rewrite Hlive. apply R2.
    + intros ch src src'. rewrite !Hlive. apply R3.
    + intros k j Hk. split; [by apply (R5 k j)|]. destruct (decide (i = j)) as [<-|]; [by rewrite lookup_insert_eq | rewrite lookup_insert_ne by done; by apply (R5 k j)].
    + intros j e' [[<- <-]|[_ Hj]]%lookup_insert_Some; [done | by eapply R7].
  - intros n c j Hn. destruct (H2 n c j Hn) as [[ch Hh] O2 O3 O4]. split; try done. exists ch. cbn.
    rewrite lookup_insert_ne; [done|]. intros <-. rewrite He in Hh. by simplify_eq.
  - cbn. intros j e' [[<- <-]|[_ Hj]]%lookup_insert_Some; [done | by apply H4].
  - intros n t Hn. destruct (H7 n t Hn) as [Hw ?]. split; [|done]. by apply (wait_ok_ext r).
Qed.

(** A fresh entry that is not in flight gets a key. *)
Lemma inv_new_entry r l key :
  registry_inv r l → key ≠ ""%string → rg_entries r !! key = None →
  registry_inv (set_heap (<[rg_next r := new_entry]> (rg_heap r)) (fresh_id r).2) l.
Proof.
  intros [H1 H2 H3 H4 H5 H6 H7] Hne Hk. destruct H1 as [R1 R2 R3 R4 R5 R6 R7 R8].
  assert (rg_heap r !! rg_next r = None) as Hfree by (destruct (rg_heap r !! rg_next r) eqn:E; [apply R1 in E; lia | done]).
  set (r' := set_heap _ _). assert (∀ ch src, live r' ch src ↔ live r ch src) as Hlive.
  { intros ch [j|ep]; cbn; [|done]. destruct (decide (rg_next r = j)) as [<-|?]; [rewrite lookup_insert_eq, Hfree; naive_solver | by rewrite lookup_insert_ne]. }
  split; try done.
  - split; try done; cbn.
    + intros j e' [[<- _]|[_ Hj]]%lookup_insert_Some; [lia|]. apply R1 in Hj. lia.
    + intros ch src. rewrite Hlive. intros [? ?]%R2. split; [lia | done].
    + intros ch src src'. rewrite !Hlive. apply R3.
    + intros ch ?%R4. lia.
    + intros k j Hj. destruct (R5 k j Hj) as [? [e' He']]. split; [done|]. rewrite lookup_insert_ne by (intros <-; congruence). by exists e'.
    + intros j e' [[<- <-]|[_ Hj]]%lookup_insert_Some; [done | by eapply R7].
  - intros n c j Hn. destruct (H2 n c j Hn) as [[ch Hh] O2 O3 O4]. split; try done. exists ch. cbn. rewrite lookup_insert_ne; [done|]. intros <-. congruence.
  - cbn. intros j e' [[<- <-]|[_ Hj]]%lookup_insert_Some; [done | by apply H4].
  - intros n t Hn. destruct (H7 n t Hn) as [Hw ?]. split; [|done]. by apply (wait_ok_ext r).
Qed.

(** The table changes: keys of entries that are not in flight come or go. *)
Lemma inv_table r l m key j :
  registry_inv r l → key ≠ ""%string → is_Some (rg_heap r !! j) → inflight_of r j = false → (∀ k, rg_entries r !! k ≠ Some j) →
  (∀ k i, m !! k = Some i → rg_entries r !! k = Some i ∨ (k = key ∧ i = j)) → (size m ≤ nodeProfileRegistryLimit)%nat →
  (∀ k i, rg_entries r !! k = Some i → inflight_of r i = true → m !! k = Some i) → registry_inv (set_entries m r) l.
Proof.
  intros [H1 H2 H3 H4 H5 H6 H7] Hne Hj Hfl Hnot Hsub Hsize Hkeep. split; try done.
  - destruct H1 as [? ? ? ? R5 R6 ? ?]. split; try done; cbn.
    + intros k i [Hk|[-> ->]]%Hsub; [by apply (R5 k) | done].
    + intros k k' i [Hk|[-> ->]]%Hsub [Hk'|[-> Ei]]%Hsub; [by apply (R6 k k' i) | subst; by apply Hnot in Hk | by apply Hnot in Hk' | done].
  - intros n c i Hn. destruct (H2 n c i Hn) as [[ch Hh] O2 O3 O4]. split; [by exists ch | done | |]; cbn.
    + intros Hc. apply Hkeep; [by apply O3|]. unfold inflight_of. by rewrite Hh.
    + intros k [Hk|[-> ->]]%Hsub; [by apply O4|]. unfold inflight_of in Hfl. by rewrite Hh in Hfl.
Qed.

Lemma inv_passive now key success ttl r l : registry_inv r l → registry_inv (recordPassive order now key success ttl r) l.
Proof.
  intros Hr. pose proof (ri_ok _ _ Hr) as [R1 R2 R3 R4 R5 R6 R7 R8]. unfold recordPassive. case_bool_decide as Hne; [done|].
  destruct (rg_entries r !! key) as [i|] eqn:Ek.
  - destruct (R5 key i Ek) as [_ [e He]]. rewrite He. cbn [default]. destruct (en_inflight e) eqn:Efl; cbn [from_option id]; rewrite Efl; [done|].
    assert (inflight_of r i = false) as Hfl by (unfold inflight_of; by rewrite He). destruct success.
    + apply inv_forget; [done | by intros k j [_ ?]%lookup_delete_Some | etransitivity; [apply size_delete_le | done] |].
      intros k j Hk Hfj. apply lookup_delete_Some. split; [intros <-; congruence | done].
    + apply inv_prune. rewrite (R7 i e He Efl). apply inv_write; [done | by exists e | done].
  - cbn [fresh_id en_inflight new_entry].
    pose proof (inv_new_entry r l key Hr Hne Ek) as Hnew. cbn [fresh_id snd] in Hnew. set (r1 := set_heap _ _) in Hnew.
    destruct success.
    { replace (set_entries _ _) with r1; [done|]. unfold r1, set_entries, set_heap. cbn. rewrite delete_insert_id by done. done. }
    set (x := mkResult 0 false now _ 0 _ false). assert (is_Some (rg_heap r1 !! rg_next r)) as Hsome by (cbn; by rewrite lookup_insert_eq).
    assert (inflight_of r1 (rg_next r) = false) as Hfl by (unfold inflight_of; cbn; by rewrite lookup_insert_eq).
    pose proof (inv_write r1 l (rg_next r) x Hnew Hsome Hfl) as Hw. set (r2 := set_heap _ r1) in Hw.
    change (registry_inv (pruneLocked order now (set_entries (<[key := rg_next r]> (rg_entries r2)) r2)) l).
    assert (inflight_of r2 (rg_next r) = false) as Hfl2 by (unfold inflight_of; cbn; by rewrite lookup_insert_eq).
    destruct (pruneLocked_spec now (set_entries (<[key := rg_next r]> (rg_entries r2)) r2)) as (m & -> & Hsub & Hkeep & Hroom).
    { cbn. intros k j [[<- _]|[_ Hk]]%lookup_insert_Some; [done | by apply (R5 k j)]. }
    cbn [rg_entries set_entries] in *. change (set_entries m (set_entries (<[key := rg_next r]> (rg_entries r2)) r2)) with (set_entries m r2).
    assert (∀ k, rg_entries r2 !! k ≠ Some (rg_next r)) as Hnot by (cbn; intros k [_ [e He]]%R5; apply R1 in He; lia).
    apply (inv_table r2 l m key (rg_next r)); [done | done | cbn; by rewrite lookup_insert_eq | done | done | | |].
    + intros k j [[<- <-]|[_ ?]]%Hsub%lookup_insert_Some; auto.
    + destruct Hroom as [?|Hall]; [lia|]. assert (m ⊆ rg_entries r2) as Hm%map_subseteq_size; [|cbn in Hm; lia].
      apply map_subseteq_spec. intros k j Hk. pose proof (Hall k j Hk) as Hj. apply Hsub, lookup_insert_Some in Hk as [[_ <-]|[_ ?]]; [|done].
      change (inflight_of r2 (rg_next r) = true) in Hj. congruence.
    + intros k j Hk Hj. apply Hkeep; [|done]. rewrite lookup_insert_ne; [done|]. intros <-. change (rg_entries r !! key = Some j) in Hk. congruence.
Qed.
End PruneOk.

(** *** Starting and settling *)

Lemma settle_spec c i x r e ch :
  rg_heap r !! i = Some e → en_done e = Some ch → rg_active r !! ""%string = None →
  let r' := settle c i x r in
  rg_heap r' = <[i := mkEntry x false None]> (rg_heap r) ∧ rg_entries r' = rg_entries r ∧ rg_active r' = delete (cl_endpointKey c) (rg_active r) ∧
  (∀ y, y ∈ rg_closed r' ↔ y ∈ rg_closed r ∨ y = ch ∨ rg_active r !! cl_endpointKey c = Some y) ∧
  rg_slots r' = rg_slots r ∧ rg_cancelled r' = rg_cancelled r ∧ rg_next r' = rg_next r.
Proof.
  intros He Hd Hnone. unfold settle. rewrite He. cbn [mbind option_bind]. rewrite Hd. unfold release_endpoint. cbn [rg_active close_channel set_heap].
  case_bool_decide as Hep; [|destruct (rg_active r !! cl_endpointKey c) as [ch2|] eqn:Ea]; cbn.
  - rewrite Hep, Hnone. split_and!; try done; [by rewrite delete_id | set_solver].
  - split_and!; try done. intros y. rewrite !elem_of_union, !elem_of_singleton. naive_solver.
  - split_and!; try done; [by rewrite delete_id | set_solver].
Qed.

(** The owner of an entry stores its result and goes its way. *)
Lemma inv_settle r l n t i x p :
  registry_inv r l → l !! n = Some t → owned (th_place t) = Some i → probing t = false → owned p = None → probing (mkThread (th_call t) (th_ended t) p) = false →
  (∀ r', wait_ok r' p) → registry_inv (settle (th_call t) i x r) (<[n := mkThread (th_call t) (th_ended t) p]> l).
Proof.
  intros [H1 H2 H3 H4 H5 H6 H7] Hn Ho Hnp Hp Hpp Hw. set (c := th_call t) in *.
  assert (owner l n c i) as Hown by (by exists t). destruct (H2 _ _ _ Hown) as [[ch Hh] O2 O3 O4].
  destruct (settle_spec c i x r _ ch Hh eq_refl) as (Eh & Ee & Ea & Ec & Es & Ecan & En).
  { destruct (rg_active r !! ""%string) eqn:E; [by apply H5 in E as [? _] | done]. }
  set (r' := settle c i x r) in *. destruct H1 as [R1 R2 R3 R4 R5 R6 R7 R8].
  assert (∀ m d j, owner (<[n := mkThread c (th_ended t) p]> l) m d j ↔ m ≠ n ∧ owner l m d j) as Hown'.
  { intros m d j. rewrite (owner_insert _ _ _ _ _ _ _ Hn). cbn. rewrite Hp. naive_solver. }
  assert (∀ m d j, m ≠ n → owner l m d j → j ≠ i ∧ (cl_endpointKey d ≠ cl_endpointKey c ∨ cl_endpointKey d = ""%string)) as Hother.
  { intros m d j Hne Hm. split; [intros ->; apply Hne; apply (H3 m n d c i i); auto|].
    destruct (decide (cl_endpointKey d = ""%string)) as [?|Hd]; [by right|]. left. intros Heq. apply Hne. apply (H3 m n d c j i); auto. }
  assert (∀ y src, live r' y src ↔ live r y src ∧ src ≠ inl i ∧ src ≠ inr (cl_endpointKey c)) as Hlive.
  { intros y [j|ep]; unfold live; rewrite ?Eh, ?Ea.
    - destruct (decide (i = j)) as [<-|Hne]; [rewrite lookup_insert_eq; naive_solver | rewrite lookup_insert_ne by done; naive_solver].
    - rewrite lookup_delete_Some. naive_solver. }
  split.
  - split; rewrite ?Eh, ?Ee, ?En; try done.
    + intros j e [[<- _]|[_ Hj]]%lookup_insert_Some; eauto.
    + intros y src [Hy [? ?]]%Hlive. destruct (R2 y src Hy) as [? Hny]. split; [done|]. rewrite Ec. intros [?|[->|Hac]]; [done| |].
      * assert (src = inl i) by (apply (R3 ch); [done | by eexists]). done.
      * assert (src = inr (cl_endpointKey c)) by (by apply (R3 y)). done.
    + intros y src src' [Hy _]%Hlive [Hy' _]%Hlive. by apply (R3 y).
    + intros y [?|[->|Hy]]%Ec; [by apply R4 | by apply (R2 ch (inl i)); eexists | by apply (R2 y (inr (cl_endpointKey c)))].
    + intros k j Hk. destruct (R5 k j Hk) as [? [e' He']]. split; [done|]. destruct (decide (i = j)) as [<-|]; [by rewrite lookup_insert_eq | by rewrite lookup_insert_ne, He'].
    + intros j e [[<- <-]|[_ Hj]]%lookup_insert_Some; [done | by eapply R7].
  - intros m d j [Hne Hm]%Hown'. destruct (Hother m d j Hne Hm) as [Hji Hep]. destruct (H2 m d j Hm) as [[ch' Hh'] P2 P3 P4].
    split; rewrite ?Eh, ?Ee, ?Ea, ?Ecan; [exists ch'; by rewrite lookup_insert_ne | | done | done].
    intros Hd. rewrite lookup_delete_ne; [by apply P2|]. naive_solver.
  - intros m m' d d' j j' [_ Hm]%Hown' [_ Hm']%Hown'. by apply H3.
  - rewrite Eh. intros j e [[<- <-]|[Hji Hj]]%lookup_insert_Some He; [done|]. destruct (H4 j e Hj He) as (m & d & Hm). exists m, d. apply Hown'.
    split; [|done]. intros ->. apply Hji. destruct Hm as (t' & Ht' & _ & Hj'). by simplify_eq.
  - rewrite Ea. intros ep y [Hep Hy]%lookup_delete_Some. destruct (H5 ep y Hy) as (? & m & d & j & Hm & Hd). split; [done|]. exists m, d, j. rewrite Hown'.
    split; [|done]. split; [|done]. intros ->. apply Hep. destruct Hm as (t' & Ht' & Hd' & _). by simplify_eq.
  - rewrite Es. pose proof (count_insert l n t (mkThread c (th_ended t) p) Hn) as Hc. rewrite Hnp, Hpp in Hc. destruct H6. split; [lia | done].
  - intros m u. destruct (decide (m = n)) as [->|Hne].
    + rewrite list_lookup_insert_eq by (by eapply lookup_lt_Some). intros [= <-]. cbn. split; [apply Hw|]. by apply (H7 n).
    + rewrite list_lookup_insert_ne by done. intros Hu. destruct (H7 m u Hu) as [Hwu ?]. split; [|done].
      destruct (th_place u) as [|j y|j|y| | | |]; cbn [wait_ok] in *; try done; rewrite Ec.
      * destruct Hwu as [?|Hl]; [auto|]. destruct (decide (j = i)) as [->|]; [left; right; left; destruct Hl as (e & He & Hde); simplify_eq; by simplify_eq/= | right; apply Hlive; naive_solver].
      * destruct Hwu as [?|[ep Hl]]; [auto|]. destruct (decide (ep = cl_endpointKey c)) as [->|]; [auto|]. right. exists ep. apply Hlive. naive_solver.
Qed.

(** A channel is made and closed, nothing else. *)
Lemma inv_burn r l :
  registry_inv r l →
  registry_inv (mkRegistry (rg_heap r) (rg_entries r) (rg_active r) ({[rg_next r]} ∪ rg_closed r) (rg_slots r) (rg_completedProbes r) (rg_cancelled r) (rg_next r + 1)) l.
Proof.
  intros [H1 H2 H3 H4 H5 H6 H7]. destruct H1 as [R1 R2 R3 R4 R5 R6 R7 R8].
  set (r' := mkRegistry _ _ _ _ _ _ _ _). assert (∀ ch src, live r' ch src ↔ live r ch src) as Hlive by (by intros ch [|]).
  split; try done.
  - split; try done; cbn.
    + intros i e Hi. apply R1 in Hi. lia.
    + intros ch src. rewrite Hlive. intros [? ?]%R2. split; [lia|]. rewrite elem_of_union, elem_of_singleton. intros [->|?]; [lia | done].
    + intros ch. rewrite elem_of_union, elem_of_singleton. intros [->|?%R4]; lia.
  - intros n c i Hn. destruct (H2 n c i Hn). by split.
  - intros n t Hn. destruct (H7 n t Hn) as [Hw ?]. split; [|done]. destruct (th_place t) as [|i ch| |ch| | | |]; cbn [wait_ok] in *; try done; set_solver.
Qed.

(** A call puts an entry in flight: [done], [i] and the channel of the endpoint are new. *)
Lemma inv_own r l n t p i done active next :
  let c := th_call t in
  registry_inv r l → l !! n = Some t → owned (th_place t) = None → probing t = false → p = WantSlot i →
  rg_next r ≤ done → rg_next r ≤ i → done < next → i < next →
  (∀ j, rg_entries r !! cl_key c = Some j → inflight_of r j = false) → (size (rg_entries r) < nodeProfileRegistryLimit)%nat →
  (if bool_decide (cl_endpointKey c = ""%string) then active = rg_active r
   else rg_active r !! cl_endpointKey c = None ∧ ∃ ch, active = <[cl_endpointKey c := ch]> (rg_active r) ∧ rg_next r ≤ ch ∧ ch < next ∧ ch ≠ done) →
  registry_inv (mkRegistry (<[i := mkEntry no_result true (Some done)]> (rg_heap r)) (<[cl_key c := i]> (rg_entries r)) active (rg_closed r)
                  (rg_slots r) (rg_completedProbes r) (rg_cancelled r) next) (<[n := mkThread c (th_ended t) p]> l).
Proof.
  intros c [H1 H2 H3 H4 H5 H6 H7] Hn Ho Hnp -> Hd Hi Hdn Hin Hidle Hsize Hact. destruct H1 as [R1 R2 R3 R4 R5 R6 R7 R8].
  set (r' := mkRegistry _ _ _ _ _ _ _ _). assert (rg_heap r !! i = None) as Hfree by (destruct (rg_heap r !! i) eqn:E; [apply R1 in E; lia | done]).
  assert (rg_next r ≤ next) as Hnext by lia.
  assert (∀ ep ch, active !! ep = Some ch → rg_active r !! ep = Some ch ∨ (ep = cl_endpointKey c ∧ ep ≠ ""%string ∧ rg_next r ≤ ch < next ∧ ch ≠ done)) as Hact1.
  { intros ep ch. case_bool_decide as Hep; [subst; by left|]. destruct Hact as (_ & ch' & -> & ? & ? & ?). intros [[<- <-]|[_ ?]]%lookup_insert_Some; [right; split_and!; done | by left]. }
  assert (∀ ep ch, rg_active r !! ep = Some ch → active !! ep = Some ch) as Hact2.
  { intros ep ch He. case_bool_decide as Hep; [by subst|]. destruct Hact as (Hnone & ch' & -> & _). rewrite lookup_insert_ne; [done|]. intros <-. congruence. }
  assert (∀ ch src, live r' ch src → live r ch src ∨ (src = inl i ∧ ch = done) ∨ (src = inr (cl_endpointKey c) ∧ rg_next r ≤ ch < next ∧ ch ≠ done)) as Hlive.
  { intros ch [j|ep]; cbn.
    - intros (e & [[<- <-]|[_ He]]%lookup_insert_Some & Hde); [cbn in Hde; naive_solver|]. left. by exists e.
    - intros [?|(-> & _ & ? & ?)]%Hact1; auto. }
  assert (∀ ch src, live r ch src → live r' ch src) as Hlive2.
  { intros ch [j|ep]; cbn; [|by apply Hact2]. intros (e & He & Hde). exists e. split; [|done]. rewrite lookup_insert_ne; [done|]. intros <-. congruence. }
  assert (∀ m d j, owner (<[n := mkThread c (th_ended t) (WantSlot i)]> l) m d j ↔ (m = n ∧ d = c ∧ j = i) ∨ (m ≠ n ∧ owner l m d j)) as Hown.
  { intros m d j. rewrite (owner_insert _ _ _ _ _ _ _ Hn). cbn. naive_solver. }
  assert (∀ m d j, owner l m d j → j ≠ i ∧ (cl_endpointKey d ≠ ""%string → cl_endpointKey d ≠ cl_endpointKey c)) as Hother.
  { intros m d j Hm. destruct (H2 m d j Hm) as [[ch Hh] P2 _ _]. split; [intros ->; congruence|]. intros Hne Heq.
    destruct (P2 Hne) as [ch' Hch']. rewrite Heq in Hch', Hne. rewrite bool_decide_false in Hact by done. destruct Hact as [? _]. congruence. }
  split.
  - split; cbn; try done.
    + intros j e [[<- _]|[_ Hj]]%lookup_insert_Some; [done|]. apply R1 in Hj. lia.
    + intros ch src [Hl|[[-> ->]|(-> & ? & ?)]]%Hlive.
      * apply R2 in Hl as [? ?]. split; [lia | done].
      * split; [done|]. intros ?%R4. lia.
      * split; [lia|]. intros ?%R4. lia.
    + intros ch src src' Hs Hs'. apply Hlive in Hs, Hs'.
      destruct Hs as [Hs|[[-> ->]|(-> & ? & ?)]], Hs' as [Hs'|[[-> E']|(-> & ? & ?)]]; try done; try (by apply (R3 ch)); try (apply R2 in Hs as [? _]; lia); apply R2 in Hs' as [? _]; lia.
    + intros ch ?%R4. lia.
    + intros k j [[<- <-]|[_ Hk]]%lookup_insert_Some; [split; [by apply (H7 n t) | by rewrite lookup_insert_eq]|].
      destruct (R5 k j Hk) as [? [e He]]. split; [done|]. rewrite lookup_insert_ne by (intros <-; congruence). by exists e.
    + intros k k' j [[<- <-]|[_ Hk]]%lookup_insert_Some [[<- E]|[_ Hk']]%lookup_insert_Some; try done; [|subst|by apply (R6 k k' j)].
      * apply R5 in Hk' as [_ [? ?]]. congruence.
      * apply R5 in Hk as [_ [? ?]]. congruence.
    + intros j e [[<- <-]|[_ Hj]]%lookup_insert_Some; [done | by eapply R7].
    + etransitivity; [apply size_insert_le | lia].
  - intros m d j [(-> & -> & ->)|[Hne Hm]]%Hown.
    + split; cbn; [exists done; by rewrite lookup_insert_eq | | intros _; by rewrite lookup_insert_eq |].
      * intros Hep. rewrite bool_decide_false in Hact by done. destruct Hact as (_ & ch & -> & _). by rewrite lookup_insert_eq.
      * intros k [[<- _]|[_ Hk]]%lookup_insert_Some; [done|]. apply R5 in Hk as [_ [? ?]]. congruence.
    + destruct (Hother m d j Hm) as [Hji _]. destruct (H2 m d j Hm) as [[ch Hh] P2 P3 P4]. split; cbn.
      * exists ch. by rewrite lookup_insert_ne.
      * intros Hd'. destruct (P2 Hd') as [ch' Hch']. exists ch'. by apply Hact2.
      * intros Hcan. specialize (P3 Hcan). rewrite lookup_insert_ne; [done|]. intros Hk. rewrite <- Hk in P3. pose proof (Hidle _ P3) as Hf. unfold inflight_of in Hf. by rewrite Hh in Hf.
      * intros k [[<- E]|[_ Hk]]%lookup_insert_Some; [by subst | by apply P4].
  - intros m m' d d' j j' Hm Hm' Hor. apply Hown in Hm, Hm'.
    destruct Hm as [(-> & -> & ->)|[Hne Hm]], Hm' as [(-> & -> & ->)|[Hne' Hm']]; [done | | | by apply (H3 m m' d d' j j')].
    + destruct (Hother m' d' j' Hm') as [? Hx]. destruct Hor as [?|[E1 E2]]; [congruence|]. destruct (Hx); congruence.
    + destruct (Hother m d j Hm) as [? Hx]. destruct Hor as [?|[E1 E2]]; [congruence|]. destruct (Hx); congruence.
  - cbn. intros j e [[<- <-]|[Hji Hj]]%lookup_insert_Some He; [exists n, c; apply Hown; by left|]. destruct (H4 j e Hj He) as (m & d & Hm). exists m, d. apply Hown.
    right. split; [|done]. intros ->. destruct Hm as (t' & Ht' & _ & Hj'). by simplify_eq.
  - cbn. intros ep ch [Hep|(-> & Hne & _)]%Hact1.
    + destruct (H5 ep ch Hep) as (? & m & d & j & Hm & Hd'). split; [done|]. exists m, d, j. split; [|done]. apply Hown. right. split; [|done].
      intros ->. destruct Hm as (t' & Ht' & _ & Hj'). by simplify_eq.
    + split; [done|]. exists n, c, i. split; [apply Hown; by left | done].
  - cbn. pose proof (count_insert l n t (mkThread c (th_ended t) (WantSlot i)) Hn) as Hc. rewrite Hnp in Hc. cbn in Hc. destruct H6. split; [lia | done].
  - intros m u. destruct (decide (m = n)) as [->|Hne].
    + rewrite list_lookup_insert_eq by (by eapply lookup_lt_Some). intros [= <-]. cbn. split; [done|]. by apply (H7 n t).
    + rewrite list_lookup_insert_ne by done. intros Hu. destruct (H7 m u Hu) as [Hwu ?]. split; [|done].
      destruct (th_place u) as [|j y|j|y| | | |]; cbn [wait_ok] in *; try done; [destruct Hwu as [?|?]; auto | destruct Hwu as [?|[ep ?]]; [auto|]; right; exists ep; auto].
Qed.

(** *** Every step *)

Section StepOk.
Context (order : gmap string Z → list (string * Z)) (Horder : ∀ m, range_of m (order m)).

Lemma inv_return r l n t o : registry_inv r l → l !! n = Some t → owned (th_place t) = None → probing t = false →
  registry_inv r (<[n := mkThread (th_call t) (th_ended t) (Returned o)]> l).
Proof. intros Hr Hn Ho Hp. apply inv_move; [done | done | by rewrite Ho | by rewrite Hp | done]. Qed.

Lemma inv_start_probe now r l n t :
  registry_inv r l → l !! n = Some t → owned (th_place t) = None → probing t = false →
  (∀ j, rg_entries r !! cl_key (th_call t) = Some j → inflight_of r j = false) →
  let '(p, r') := start_probe order now (th_call t) r in registry_inv r' (<[n := mkThread (th_call t) (th_ended t) p]> l).
Proof.
  intros Hr Hn Ho Hnp Hidle. unfold start_probe. set (c := th_call t) in *.
  destruct (if bool_decide (cl_endpointKey c = ""%string) then None else rg_active r !! cl_endpointKey c) as [ch|] eqn:Eact.
  { apply inv_move; [done | done | by rewrite Ho | by rewrite Hnp |]. cbn. case_bool_decide; [done|]. right. by exists (cl_endpointKey c). }
  set (r1 := if bool_decide (cl_endpointKey c = ""%string) then r else _).
  assert (∃ m, (if (nodeProfileRegistryLimit <=? size (rg_entries r1))%nat then pruneLocked order now r1 else r1) = set_entries m r1 ∧
            registry_inv (set_entries m r) l ∧ (∀ k i, m !! k = Some i → rg_entries r !! k = Some i)) as (m & -> & Hm & Hsub).
  { assert (rg_entries r1 = rg_entries r ∧ rg_heap r1 = rg_heap r) as [Ee Eh] by (unfold r1; case_bool_decide; done). rewrite Ee.
    destruct (_ <=? _)%nat.
    - destruct (pruneLocked_spec order Horder now r1) as (m & -> & Hsub & Hkeep & _).
      { rewrite Ee. intros k i Hk. by apply (ro_entry _ (ri_ok _ _ Hr) k i). }
      rewrite Ee in Hsub, Hkeep. exists m. split_and!; [done | | done]. apply inv_forget; [done | done | |].
      + etransitivity; [|exact (ro_size _ (ri_ok _ _ Hr))]. apply map_subseteq_size, map_subseteq_spec, Hsub.
      + intros k i Hk Hi. apply Hkeep; [done|]. unfold inflight_of in *. by rewrite Eh.
    - exists (rg_entries r). split_and!; [by rewrite <- Ee; destruct r1 | by destruct r | done]. }
  cbn [rg_entries set_entries]. destruct (Nat.leb_spec nodeProfileRegistryLimit (size m)) as [Hfull|Hroom].
  - unfold r1, release_endpoint. case_bool_decide as Hep; [by apply inv_return|]. cbn [rg_active set_entries set_active fresh_id]. rewrite lookup_insert_eq.
    rewrite delete_insert_id by done. apply inv_return; [|done..]. exact (inv_burn _ _ Hm).
  - assert (∀ j, rg_entries (set_entries m r) !! cl_key c = Some j → inflight_of (set_entries m r) j = false) as Hidle' by (cbn; intros j Hj; by apply Hidle, Hsub).
    unfold r1. case_bool_decide as Hep.
    + apply (inv_own (set_entries m r) l n t _ _ _ (rg_active r)); cbn; try done; try lia. by rewrite bool_decide_true.
    + apply (inv_own (set_entries m r) l n t _ _ _ (<[cl_endpointKey c := rg_next r]> (rg_active r))); cbn; try done; try lia.
      rewrite bool_decide_false by done. split; [done|]. exists (rg_next r). split_and!; [done | lia..].
Qed.

Lemma inv_admit now r l n t :
  registry_inv r l → l !! n = Some t → th_place t = Admit →
  let '(p, r') := admit_call order now (th_call t) r in registry_inv r' (<[n := mkThread (th_call t) (th_ended t) p]> l).
Proof.
  intros Hr Hn Hp. assert (owned (th_place t) = None) as Ho by by rewrite Hp. assert (probing t = false) as Hnp by (unfold probing; by rewrite Hp).
  unfold admit_call. destruct (rg_entries r !! cl_key (th_call t)) as [i|] eqn:Ek.
  - destruct (ro_entry _ (ri_ok _ _ Hr) _ _ Ek) as [_ [e He]]. rewrite He. cbn [from_option id default].
    destruct (en_inflight e) eqn:Ef.
    + apply inv_move; [done | done | by rewrite Ho | by rewrite Hnp |]. destruct (ri_inflight _ _ Hr i e He Ef) as (m & d & Hm).
      destruct (oo_heap _ _ _ (ri_owner _ _ Hr m d i Hm)) as [ch Hh]. rewrite He in Hh. injection Hh as ->. right. by eexists.
    + destruct (_ && _); [by apply inv_return|]. apply inv_start_probe; [done..|]. intros j Hj. rewrite Ek in Hj. injection Hj as <-. unfold inflight_of. by rewrite He.
  - apply inv_start_probe; [done..|]. intros j Hj. congruence.
Qed.

Lemma inv_run_step now r l n t p r' :
  registry_inv r l → l !! n = Some t → run_step order now t r = Some (p, r') → registry_inv r' (<[n := mkThread (th_call t) (th_ended t) p]> l).
Proof.
  intros Hr Hn E. unfold run_step in E. destruct (th_place t) as [|i ch|i|ch|i|i|i result|o] eqn:Ep; try done.
  - injection E as E. pose proof (inv_admit now r l n t Hr Hn Ep) as H. by rewrite E in H.
  - case_bool_decide; [|done]. injection E as <- <-. apply inv_move; [done | done | by rewrite Ep | unfold probing; by rewrite Ep | done].
  - assert (owned (th_place t) = None) as Ho by by rewrite Ep. assert (probing t = false) as Hnp by (unfold probing; by rewrite Ep).
    destruct (negb _ && _ && _ && _); [destruct (_ || _)|]; injection E as <- <-; try by apply inv_return. by apply inv_move; [| |rewrite Ho|rewrite Hnp|].
  - assert (owned (th_place t) = None) as Ho by by rewrite Ep. assert (probing t = false) as Hnp by (unfold probing; by rewrite Ep).
    case_bool_decide; [|done]. destruct (_ || _); injection E as <- <-; [by apply inv_return|]. by apply inv_move; [| |rewrite Ho|rewrite Hnp|].
  - destruct (Nat.ltb_spec (rg_slots r) slots_limit); [|done]. injection E as <- <-.
    apply inv_slots; [done | done | by rewrite Ep | done | unfold probing; rewrite Ep; lia | lia].
  - unfold store_result in E. destruct (_ || _); injection E as <- <-; apply inv_settle; try done; try (by rewrite Ep); unfold probing; by rewrite Ep.
Qed.

Lemma inv_abandon now r l n t p r' :
  registry_inv r l → l !! n = Some t → abandon now t r = Some (p, r') → registry_inv r' (<[n := mkThread (th_call t) (th_ended t) p]> l).
Proof.
  intros Hr Hn E. unfold abandon in E. destruct (negb _); [done|]. destruct (th_place t) as [|i ch|i|ch|i|i|i result|o] eqn:Ep; try done; injection E as <- <-.
  - apply inv_return; [done | done | by rewrite Ep | unfold probing; by rewrite Ep].
  - apply inv_return; [done | done | by rewrite Ep | unfold probing; by rewrite Ep].
  - apply inv_settle; try done; [by rewrite Ep | unfold probing; by rewrite Ep].
Qed.

Lemma inv_probe_returns result r l n t p r' :
  registry_inv r l → l !! n = Some t → probe_returns result t r = Some (p, r') → registry_inv r' (<[n := mkThread (th_call t) (th_ended t) p]> l).
Proof.
  intros Hr Hn E. unfold probe_returns in E. destruct (th_place t) as [|i ch|i|ch|i|i|i result'|o] eqn:Ep; try done. injection E as <- <-.
  assert (probing t = true) as Hp by (unfold probing; by rewrite Ep). destruct (ri_slots _ _ Hr) as [Hs Hl].
  assert (0 < count l)%nat as Hpos by (pose proof (count_insert l n t (mkThread (th_call t) (th_ended t) Admit) Hn) as Hc; rewrite Hp in Hc; cbn in Hc; lia).
  apply inv_slots; [done | done | by rewrite Ep | done | rewrite Hp; lia | lia].
Qed.

Lemma inv_close r l : registry_inv r l → registry_inv (close_registry r) l.
Proof.
  intros [H1 H2 H3 H4 H5 H6 H7]. split; try done.
  - destruct H1. split; try done; cbn [rg_entries close_registry]; try (intros *; by rewrite lookup_empty). rewrite map_size_empty. lia.
  - intros n c i Hn. destruct (H2 n c i Hn). split; try done.
Qed.

Lemma inv_cancel r l : registry_inv r l → registry_inv (cancel_registry r) l.
Proof.
  intros [H1 H2 H3 H4 H5 H6 H7]. split; try done.
  - destruct H1. by split.
  - intros n c i Hn. destruct (H2 n c i Hn). split; try done.
Qed.

Lemma inv_thread_more r l c p :
  registry_inv r l → cl_key c ≠ ""%string → owned p = None → probing (mkThread c false p) = false → wait_ok r p → registry_inv r (l ++ [mkThread c false p]).
Proof.
  intros [H1 H2 H3 H4 H5 H6 H7] Hk Ho Hp Hw.
  assert (∀ m d j, owner (l ++ [mkThread c false p]) m d j ↔ owner l m d j) as Hown.
  { intros m d j. unfold owner. split; intros (t & Ht & ? & ?); exists t; (split; [|done]).
    - apply lookup_app_Some in Ht as [?|[_ Ht]]; [done|]. apply list_lookup_singleton_Some in Ht as [_ <-]. cbn in *. congruence.
    - by apply lookup_app_l_Some. }
  split; try done.
  - intros m d j. rewrite Hown. apply H2.
  - intros m m' d d' j j'. rewrite !Hown. apply H3.
  - intros i e Hi He. destruct (H4 i e Hi He) as (m & d & ?). exists m, d. by rewrite Hown.
  - intros ep ch Hep. destruct (H5 ep ch Hep) as (? & m & d & i & ? & ?). split; [done|]. exists m, d, i. by rewrite Hown.
  - rewrite count_app. cbn [count]. rewrite Hp. destruct H6. split; [lia | done].
  - intros m t [Ht|[_ Ht]]%lookup_app_Some; [by apply (H7 m)|]. apply list_lookup_singleton_Some in Ht as [_ <-]. done.
Qed.

Definition system_inv (s : system) : Prop := registry_inv (sy_registry s) (sy_threads s).

Lemma start_inv now : system_inv (system_start now).
Proof.
  assert (∀ n c i, ¬ owner [] n c i) as Hno by (by intros n c i (t & Ht & _)).
  split.
  - split; cbn [rg_heap rg_entries rg_closed rg_active newNodeProfileRegistry system_start sy_registry]; try (by intros * ?; rewrite lookup_empty in *); try (by intros ch ?%elem_of_empty).
    + intros ch [i|ep]; cbn; [intros (e & He & _); by rewrite lookup_empty in He | by rewrite lookup_empty].
    + intros ch [i|ep] src'; cbn; [intros (e & He & _); by rewrite lookup_empty in He | by rewrite lookup_empty].
    + rewrite map_size_empty. lia.
  - by intros n c i ?%Hno.
  - by intros n n' c c' i i' ?%Hno.
  - cbn. intros i e. by rewrite lookup_empty.
  - cbn. intros ep ch. by rewrite lookup_empty.
  - cbn. unfold slots_limit. lia.
  - by intros n t.
Qed.

Lemma step_inv s ch s' : system_step order s ch = Some s' → system_inv s → system_inv s'.
Proof.
  intros E Hs. destruct s as [now r l]. unfold system_inv in *. cbn [sy_registry sy_threads] in Hs.
  assert (∀ f n, step_thread f n (mkSystem now r l) = Some s' →
    (∀ t p r', l !! n = Some t → f t r = Some (p, r') → registry_inv r' (<[n := mkThread (th_call t) (th_ended t) p]> l)) → registry_inv (sy_registry s') (sy_threads s')) as Hthread.
  { intros f n Ef Hf. unfold step_thread in Ef. cbn [sy_threads sy_registry sy_now] in Ef. destruct (l !! n) as [t|] eqn:Et; [|done]. cbn in Ef.
    destruct (f t r) as [[p r']|] eqn:Eft; [|done]. injection Ef as <-. by apply Hf. }
  destruct ch as [now'|c|n| | |key success ttl|n|n|n result]; cbn [system_step sy_now sy_registry sy_threads] in E.
  - destruct (_ <=? _); [|done]. by injection E as <-.
  - case_bool_decide as Hk; [done|]. injection E as <-. cbn [sy_registry sy_threads]. apply inv_thread_more; [done | done |..]; by destruct (rg_cancelled r).
  - destruct (l !! n) as [t|] eqn:Et; [|done]. injection E as <-. apply inv_move; [done | done | done | done | by apply (ri_wait _ _ Hs n)].
  - injection E as <-. by apply inv_cancel.
  - injection E as <-. by apply inv_close.
  - injection E as <-. by apply inv_passive.
  - apply (Hthread _ _ E). intros t p r' Ht Ef. by eapply inv_run_step.
  - apply (Hthread _ _ E). intros t p r' Ht Ef. by eapply inv_abandon.
  - apply (Hthread _ _ E). intros t p r' Ht Ef. by eapply inv_probe_returns.
Qed.

Lemma run_inv s chs s' : run_system order s chs = Some s' → system_inv s → system_inv s'.
Proof.
  revert s. induction chs as [|ch chs IH]; intros s E Hs; cbn in E; [by injection E as <-|].
  destruct (system_step order s ch) as [s1|] eqn:E1; cbn in E; [|done]. eapply IH; [done|]. by eapply step_inv.
Qed.
End StepOk.

(** ** What the registry promises *)

Lemma filter_count l : length (List.filter probing l) = count l.
Proof. induction l as [|t l IH]; [done|]. cbn [List.filter count]. destruct (probing t); cbn; lia. Qed.

(** C30. The probes of all groups share one registry: at most four run at a time, no two of
    them for the same endpoint, nor for the same key while the registry is open, and the
    table never has more entries than its limit; whatever calls, cancellations, passive
    observations and closes come in whatever order. *)
Theorem probes_exclusive (order : gmap string Z → list (string * Z)) (now : Z) (chs : list choice) (s : system) :
  (∀ m, range_of m (order m)) → run_system order (system_start now) chs = Some s →
  (length (List.filter probing (sy_threads s)) ≤ slots_limit)%nat ∧ (size (rg_entries (sy_registry s)) ≤ nodeProfileRegistryLimit)%nat ∧
  (∀ n n' t t' i i', sy_threads s !! n = Some t → sy_threads s !! n' = Some t' → owned (th_place t) = Some i → owned (th_place t') = Some i' →
     (cl_endpointKey (th_call t) = cl_endpointKey (th_call t') ∧ cl_endpointKey (th_call t) ≠ ""%string) ∨
     (cl_key (th_call t) = cl_key (th_call t') ∧ rg_cancelled (sy_registry s) = false) → n = n').
Proof.
  intros Horder E. pose proof (run_inv order Horder _ _ _ E (start_inv now)) as H. split_and!.
  - rewrite filter_count. destruct (ri_slots _ _ H). lia.
  - exact (ro_size _ (ri_ok _ _ H)).
  - intros n n' t t' i i' Hn Hn' Hi Hi' Hor.
    assert (owner (sy_threads s) n (th_call t) i) as Ho by (by exists t). assert (owner (sy_threads s) n' (th_call t') i') as Ho' by (by exists t').
    apply (ri_owner_inj _ _ H _ _ _ _ _ _ Ho Ho'). destruct Hor as [?|[Hk Hc]]; [by right|]. left.
    pose proof (oo_entry _ _ _ (ri_owner _ _ H _ _ _ Ho) Hc) as E1. pose proof (oo_entry _ _ _ (ri_owner _ _ H _ _ _ Ho') Hc) as E2. rewrite Hk in E1. congruence.
Qed.

Lemma probing_exists l : (0 < count l)%nat → ∃ n t, l !! n = Some t ∧ probing t = true.
Proof.
  induction l as [|t l IH]; cbn [count]; [lia|]. destruct (probing t) eqn:E; [by exists 0%nat, t|]. intros H.
  destruct IH as (n & u & ? & ?); [lia|]. by exists (S n), u.
Qed.

Definition returned (t : thread) : bool := match th_place t with Returned _ => true | _ => false end.

(** Settling an entry closes its channel and the one of its endpoint. *)
Lemma settle_closes r c i x ch :
  (∃ e, rg_heap r !! i = Some e ∧ en_done e = Some ch) ∨ (cl_endpointKey c ≠ ""%string ∧ rg_active r !! cl_endpointKey c = Some ch) →
  ch ∈ rg_closed (settle c i x r).
Proof.
  assert (∀ r0, ch ∈ rg_closed r0 → ch ∈ rg_closed (release_endpoint (cl_endpointKey c) r0)) as Hkeep.
  { intros r0 Hin. unfold release_endpoint. case_bool_decide; [done|]. destruct (rg_active r0 !! _); [|done]. cbn. set_solver. }
  intros [(e & He & Hd)|[Hne Ha]]; unfold settle.
  - rewrite He. cbn [mbind option_bind]. rewrite Hd. apply Hkeep. cbn. set_solver.
  - unfold release_endpoint. rewrite bool_decide_false by done. destruct (rg_heap r !! i ≫= en_done); cbn; rewrite Ha; cbn; set_solver.
Qed.

(** The call [m] holds what is waited for at [ch]: whatever it settles with closes it. *)
Definition will_close (s : system) (m : nat) (ch : Z) : Prop :=
  ∃ u i, sy_threads s !! m = Some u ∧ owned (th_place u) = Some i ∧ ∀ x, ch ∈ rg_closed (settle (th_call u) i x (sy_registry s)).

(** What a call needs to go on. *)
Definition can_go_on (order : gmap string Z → list (string * Z)) (s : system) (n : nat) (t : thread) : Prop :=
  let runs := is_Some (system_step order s (Run n)) in
  match th_place t with
  | Returned _ | Probing _ => True
  | Admit | ReadEntry _ | Store _ _ => runs
  | WantSlot _ => runs ∨ length (List.filter probing (sy_threads s)) = slots_limit
  | WaitEntry _ ch | WaitActive ch => runs ∨ ∃ m, m ≠ n ∧ will_close s m ch
  end.

Lemma thread_goes_on order s n t : system_inv s → sy_threads s !! n = Some t → can_go_on order s n t.
Proof.
  destruct s as [now' r l]. unfold system_inv, can_go_on, will_close. cbn [sy_registry sy_threads]. intros H Hn.
  assert (is_Some (run_step order now' t r) → is_Some (system_step order (mkSystem now' r l) (Run n))) as Hgo.
  { intros [[p r'] Er]. cbn [system_step sy_now]. unfold step_thread. cbn [sy_threads sy_registry sy_now]. rewrite Hn. cbn. rewrite Er. cbn. eauto. }
  unfold run_step in Hgo.
  destruct (th_place t) as [|i ch|i|ch|i|i|i res|o] eqn:Ep; [apply Hgo; eauto | | | | | done | | done].
  - destruct (ri_wait _ _ H n t Hn) as [Hw _]. rewrite Ep in Hw. destruct Hw as [Hc|(e & He & Hd)]; [left; apply Hgo; rewrite bool_decide_true by done; eauto|].
    right. destruct (en_inflight e) eqn:Ef; [|by rewrite (ro_idle _ (ri_ok _ _ H) i e He Ef) in Hd]. destruct (ri_inflight _ _ H i e He Ef) as (m & c & u & Hu & Hcl & Ho).
    exists m. split; [intros ->; rewrite Hn in Hu; injection Hu as <-; by rewrite Ep in Ho|]. exists u, i. split_and!; [done | done|].
    intros x. apply settle_closes. left. by exists e.
  - apply Hgo. destruct (_ && _ && _ && _); eauto.
  - destruct (ri_wait _ _ H n t Hn) as [Hw _]. rewrite Ep in Hw. destruct Hw as [Hc|[ep Hl]]; [left; apply Hgo; rewrite bool_decide_true by done; eauto|].
    right. destruct (ri_active _ _ H ep ch Hl) as (Hne & m & c & j & (u & Hu & Hcl & Ho) & Hep).
    exists m. split; [intros ->; rewrite Hn in Hu; injection Hu as <-; by rewrite Ep in Ho|]. exists u, j. split_and!; [done | done|].
    intros x. apply settle_closes. right. rewrite Hcl, Hep. by split.
  - destruct (Nat.ltb_spec (rg_slots r) slots_limit) as [Hlt|Hge]; [left; apply Hgo; eauto|]. right. rewrite filter_count. destruct (ri_slots _ _ H). lia.
  - apply Hgo. unfold store_result. destruct (_ || _); eauto.
Qed.

(** C31. The registry does not deadlock, and every wait has someone who ends it.  In every state
    that can be reached, a call that is not waiting can take its next step; one that waits
    for a slot can take it unless four probes are running; and one that waits for an entry
    or an endpoint can go on, or another call holds what it waits for and closes its channel
    when it settles, however its probe ends and also when it gives up.  So either all calls
    have returned, or one of them can go on, or a probe is running.  (A call whose wait
    ended may have to wait again, for another probe; how often is not bounded here.) *)
Theorem registry_never_stuck (order : gmap string Z → list (string * Z)) (now : Z) (chs : list choice) (s : system) :
  (∀ m, range_of m (order m)) → run_system order (system_start now) chs = Some s →
  (∀ n t, sy_threads s !! n = Some t → can_go_on order s n t) ∧
  (Forall (λ t, returned t = true) (sy_threads s) ∨
   (∃ n s', system_step order s (Run n) = Some s') ∨ (∃ n t i, sy_threads s !! n = Some t ∧ th_place t = Probing i)).
Proof.
  intros Horder E. pose proof (run_inv order Horder _ _ _ E (start_inv now)) as H.
  assert (∀ n t, sy_threads s !! n = Some t → can_go_on order s n t) as Hgo by (intros n t; by apply thread_goes_on). split; [done|].
  destruct (decide (Forall (λ t, returned t = true) (sy_threads s))) as [Hall|Hsome]; [by left|]. right.
  apply not_Forall_Exists in Hsome; [|apply _]. apply list.Exists_exists in Hsome as (t & Hin & Hnot). apply list_elem_of_lookup in Hin as [n Hn]. cbn in Hnot. unfold returned in Hnot.
  assert (∀ m u i, sy_threads s !! m = Some u → owned (th_place u) = Some i →
    (∃ n s', system_step order s (Run n) = Some s') ∨ (∃ n t i, sy_threads s !! n = Some t ∧ th_place t = Probing i)) as Howner.
  { intros m u i Hu Hi. pose proof (Hgo m u Hu) as Hg. unfold can_go_on in Hg. destruct (th_place u) as [| | | |j|j|j res|] eqn:Eu; try done.
    - destruct Hg as [[s' Hs]|Hfull]; [left; eauto|]. right. rewrite filter_count in Hfull.
      destruct (probing_exists (sy_threads s)) as (k & v & Hk & Hv); [unfold slots_limit in Hfull; lia|]. unfold probing in Hv. destruct (th_place v) eqn:Ev; try done. eauto.
    - right. eauto.
    - destruct Hg as [s' Hs]. left. eauto. }
  pose proof (Hgo n t Hn) as Hg. unfold can_go_on in Hg. destruct (th_place t) eqn:Ep;
    [ destruct Hg as [s' Hs]; left; eauto
    | destruct Hg as [[s' Hs]|(m & _ & u & i' & Hu & Ho & _)]; [left; eauto | by eapply Howner]
    | destruct Hg as [s' Hs]; left; eauto
    | destruct Hg as [[s' Hs]|(m & _ & u & i' & Hu & Ho & _)]; [left; eauto | by eapply Howner]
    | eapply (Howner n t); [done | by rewrite Ep]
    | right; eauto
    | destruct Hg as [s' Hs]; left; eauto
    | done ].
Qed.

(** Two callers of one endpoint: the second waits. *)
Definition call_of (endpointKey key : string) (force : bool) : probe_call := mkCall endpointKey key force false.
Definition two_callers : list choice := [Tick 1000; Call (call_of "e" "k" false); Call (call_of "e" "j" false); Run 0; Run 1; Run 0].

Lemma probes_exclusive_witness :
  ∃ s, run_system map_to_list (system_start 0) two_callers = Some s ∧ (size (rg_entries (sy_registry s)) ≤ nodeProfileRegistryLimit)%nat ∧
    th_place <$> sy_threads s = [Probing 2; WaitActive 0].
Proof.
  destruct (run_system map_to_list (system_start 0) two_callers) as [s|] eqn:E; [|vm_compute in E; discriminate].
  exists s. split; [reflexivity|]. split; [apply (probes_exclusive map_to_list 0 two_callers s (λ m, reflexivity _) E)|].
  vm_compute in E. injection E as <-. reflexivity.
Defined.

(** The second caller waits for the first, whose result will wake it. *)
Lemma registry_never_stuck_witness :
  ∃ s, run_system map_to_list (system_start 0) two_callers = Some s ∧ system_step map_to_list s (Run 1) = None ∧
    ∃ m ch, m ≠ 1%nat ∧ will_close s m ch ∧ th_place <$> (sy_threads s !! 1%nat) = Some (WaitActive ch).
Proof.
  destruct (run_system map_to_list (system_start 0) two_callers) as [s|] eqn:E; [|vm_compute in E; discriminate].
  exists s. split; [reflexivity|]. pose proof (proj1 (registry_never_stuck map_to_list 0 two_callers s (λ m, reflexivity _) E) 1%nat) as H.
  vm_compute in E. injection E as <-. split; [vm_compute; reflexivity|].
  destruct (H _ eq_refl) as [[s' Hs]|(m & Hm & Hc)]; [vm_compute in Hs; discriminate|]. exists m. eexists. split; [exact Hm|]. split; [exact Hc | reflexivity].
Defined.

(** ** What the probes leave behind *)

Section Counts.
Context (order : gmap string Z → list (string * Z)) (Horder : ∀ m, range_of m (order m)).
(** The keys of passive observations. *)
Context (P : string → Prop).

Definition low (x : nodeProfileResult) : Prop := pr_successes x ≤ 1 ∧ pr_failures x ≤ 1.
Definition counts_ok (r : nodeProfileRegistry) : Prop := ∀ key i e, rg_entries r !! key = Some i → ¬ P key → rg_heap r !! i = Some e → low (en_result e).

(** Everything in the table was there before, or is low. *)
Lemma counts_ext r r' :
  counts_ok r → (∀ key i e, rg_entries r' !! key = Some i → ¬ P key → rg_heap r' !! i = Some e → low (en_result e) ∨ (rg_entries r !! key = Some i ∧ rg_heap r !! i = Some e)) →
  counts_ok r'.
Proof. intros Hr H key i e Hk Hp He. destruct (H key i e Hk Hp He) as [?|[? ?]]; [done | by eapply Hr]. Qed.

Lemma counts_prune now r : (∀ k i, rg_entries r !! k = Some i → k ≠ ""%string) → counts_ok r → counts_ok (pruneLocked order now r).
Proof.
  intros Hkeys Hr. destruct (pruneLocked_spec order Horder now r Hkeys) as (m & -> & Hsub & _).
  eapply counts_ext; [exact Hr|]. cbn. intros key i e Hk _ He. right. split; [by apply Hsub | done].
Qed.

Lemma counts_passive now key success ttl r : registry_ok r → P key → counts_ok r → counts_ok (recordPassive order now key success ttl r).
Proof.
  intros [R1 R2 R3 R4 R5 R6 R7 R8] HP Hr. unfold recordPassive. case_bool_decide as Hne; [done|].
  assert (∀ r0 i, (∀ k, k ≠ key → rg_entries r !! k ≠ Some i) → (∀ k j, rg_entries r0 !! k = Some j → (k = key ∧ j = i) ∨ rg_entries r !! k = Some j) →
    (∀ j, j ≠ i → rg_heap r0 !! j = rg_heap r !! j) → counts_ok r0) as Hgen.
  { intros r0 i Hi He Hh. eapply counts_ext; [exact Hr|]. intros k j e Hk Hp Hj. right. destruct (He k j Hk) as [[-> ->]|Hk']; [done|].
    split; [done|]. rewrite <- Hh; [done|]. intros ->. apply (Hi k); [by intros -> | done]. }
  destruct (rg_entries r !! key) as [i|] eqn:Ek.
  - destruct (R5 key i Ek) as [_ [e He]]. rewrite He. cbn [default from_option id]. destruct (en_inflight e); [done|]. destruct success.
    + apply (Hgen _ i); cbn; [intros k Hk Hk'; by rewrite (R6 k key i) in Hk | intros k j [_ ?]%lookup_delete_Some; by right | done].
    + apply counts_prune; [cbn; intros k j Hk; by apply (R5 k j)|].
      apply (Hgen _ i); cbn; [intros k Hk Hk'; by rewrite (R6 k key i) in Hk | by right | intros j Hj; by rewrite lookup_insert_ne].
  - cbn [fresh_id en_inflight new_entry]. assert (∀ k, k ≠ key → rg_entries r !! k ≠ Some (rg_next r)) as Hfree by (intros k _ [_ [e He]]%R5; apply R1 in He; lia).
    destruct success.
    + apply (Hgen _ (rg_next r)); cbn; [done | | intros j Hj; by rewrite lookup_insert_ne].
      intros k j [? [[? _]|[_ ?]]%lookup_insert_Some]%lookup_delete_Some; [done | by right].
    + apply counts_prune; [cbn; intros k j [[<- _]|[_ Hk]]%lookup_insert_Some; [done | by apply (R5 k j)]|].
      apply (Hgen _ (rg_next r)); cbn; [done | intros k j [[<- <-]|[_ ?]]%lookup_insert_Some; auto | intros j Hj; by rewrite !lookup_insert_ne].
Qed.

Lemma counts_settle c i x r : low x → counts_ok r → counts_ok (settle c i x r).
Proof.
  intros Hx Hr. eapply counts_ext; [exact Hr|]. intros key j e Hk _ He.
  assert (rg_entries (settle c i x r) = rg_entries r ∧ rg_heap (settle c i x r) = <[i := mkEntry x false None]> (rg_heap r)) as [E1 E2].
  { unfold settle, release_endpoint. destruct (rg_heap r !! i ≫= en_done); (case_bool_decide; [done|]); by destruct (_ !! cl_endpointKey c). }
  rewrite E1 in Hk. rewrite E2 in He. apply lookup_insert_Some in He as [[<- <-]|[_ ?]]; [by left | by right].
Qed.

Lemma counts_start_probe now c r p r' : (∀ k i, rg_entries r !! k = Some i → k ≠ ""%string) → counts_ok r → start_probe order now c r = (p, r') → counts_ok r'.
Proof.
  intros Hkeys Hr. unfold start_probe. destruct (if bool_decide _ then None else _); [by intros [= _ <-]|].
  set (r1 := if bool_decide (cl_endpointKey c = ""%string) then r else _).
  assert (rg_entries r1 = rg_entries r ∧ rg_heap r1 = rg_heap r) as [E1 E2] by (unfold r1; by case_bool_decide).
  assert (counts_ok r1) as Hr1 by (intros key i e; rewrite E1, E2; apply Hr).
  set (r2 := if (_ <=? size (rg_entries r1))%nat then _ else r1).
  assert (counts_ok r2) as Hr2 by (unfold r2; destruct (_ <=? _)%nat; [apply counts_prune; [by rewrite E1 | done] | done]).
  clearbody r2. destruct (_ <=? size (rg_entries r2))%nat; intros E; apply (f_equal snd) in E; cbn [snd] in E; subst r'.
  - unfold release_endpoint. case_bool_decide; [done|]. by destruct (rg_active r2 !! cl_endpointKey c).
  - eapply counts_ext; [exact Hr2|]. cbn. intros key i e Hk _ He.
    apply lookup_insert_Some in He as [[_ <-]|[Hi He]]; [left; cbn; unfold low, no_result; cbn; lia|]. right.
    apply lookup_insert_Some in Hk as [[_ ?]|[_ ?]]; [by subst | done].
Qed.

Lemma low_probe now result : low (probe_result now no_result result).
Proof. destruct result; unfold low, probe_result; cbn; vm_compute; split; discriminate. Qed.

Lemma counts_step s ch s' :
  (∀ key success ttl, ch = Passive key success ttl → P key) → system_step order s ch = Some s' → system_inv s → counts_ok (sy_registry s) → counts_ok (sy_registry s').
Proof.
  intros HP E Hs Hr. destruct s as [now r l]. unfold system_inv in Hs. cbn [sy_registry sy_threads] in *. pose proof (ri_ok _ _ Hs) as Hok.
  assert (∀ f n, step_thread f n (mkSystem now r l) = Some s' → (∀ t p r', l !! n = Some t → f t r = Some (p, r') → counts_ok r') → counts_ok (sy_registry s')) as Hthread.
  { intros f n Ef Hf. unfold step_thread in Ef. cbn [sy_threads sy_registry sy_now] in Ef. destruct (l !! n) as [t|] eqn:Et; [|done]. cbn in Ef.
    destruct (f t r) as [[p r']|] eqn:Eft; [|done]. injection Ef as <-. by eapply Hf. }
  assert (∀ k i, rg_entries r !! k = Some i → k ≠ ""%string) as Hkeys by (intros k i Hk; by apply (ro_entry _ Hok k i)).
  destruct ch as [now'|c|n| | |key success ttl|n|n|n result]; cbn [system_step sy_now sy_registry sy_threads] in E.
  - destruct (_ <=? _); [|done]. by injection E as <-.
  - case_bool_decide; [done|]. by injection E as <-.
  - destruct (l !! n); [|done]. by injection E as <-.
  - by injection E as <-.
  - injection E as <-. intros key i e. cbn. by rewrite lookup_empty.
  - injection E as <-. apply counts_passive; [done | by eapply HP | done].
  - apply (Hthread _ _ E). intros t p r' Ht Ef. unfold run_step in Ef. destruct (th_place t) as [|i ch|i|ch|i|i|i res|o] eqn:Ep; try done.
    + injection Ef as Ef. unfold admit_call in Ef. destruct (rg_entries r !! _); [|by eapply counts_start_probe].
      destruct (en_inflight _); [by injection Ef as <- <-|]. destruct (_ && _); [by injection Ef as <- <- | by eapply counts_start_probe].
    + case_bool_decide; [|done]. by injection Ef as <- <-.
    + destruct (negb _ && _ && _ && _); [destruct (_ || _)|]; by injection Ef as <- <-.
    + case_bool_decide; [|done]. destruct (_ || _); by injection Ef as <- <-.
    + destruct (_ <? _)%nat; [|done]. by injection Ef as <- <-.
    + destruct (ri_owner _ _ Hs n (th_call t) i) as [[ch Hh] _ _ _]; [exists t; by rewrite Ep|].
      unfold store_result in Ef. rewrite Hh in Ef. cbn [en_result] in Ef. destruct (_ || _); injection Ef as <- <-; (apply counts_settle; [|done]); [unfold low; cbn; lia | apply low_probe].
  - apply (Hthread _ _ E). intros t p r' Ht Ef. unfold abandon in Ef. destruct (negb _); [done|]. destruct (th_place t); try done; injection Ef as <- <-; try done.
    apply counts_settle; [unfold low; cbn; lia | done].
  - apply (Hthread _ _ E). intros t p r' Ht Ef. unfold probe_returns in Ef. destruct (th_place t); try done. by injection Ef as <- <-.
Qed.

Lemma counts_run s chs s' :
  (∀ key success ttl, Passive key success ttl ∈ chs → P key) → run_system order s chs = Some s' → system_inv s → counts_ok (sy_registry s) → counts_ok (sy_registry s').
Proof.
  revert s. induction chs as [|ch chs IH]; intros s HP E Hs Hr; cbn in E; [by injection E as <-|].
  destruct (system_step order s ch) as [s1|] eqn:E1; cbn in E; [|done]. eapply IH; [|done|by eapply step_inv|].
  - intros key success ttl Hin. apply (HP key success ttl). by right.
  - eapply counts_step; [|done..]. intros key success ttl ->. apply (HP key success ttl). by left.
Qed.
End Counts.

(** The counts of successes and failures never grow past one, because every probe starts
    with a new entry and takes the counts of that entry for the previous ones: whatever
    happens, the cadence is the shortest one, and the registry never holds a key dead
    that only probes write. *)
Theorem probe_counts_never_grow (order : gmap string Z → list (string * Z)) (P : string → Prop) (now : Z) (chs : list choice) (s : system) :
  (∀ m, range_of m (order m)) → (∀ key success ttl, Passive key success ttl ∈ chs → P key) → run_system order (system_start now) chs = Some s →
  ∀ key, ¬ P key →
    (∀ e, entry_of (sy_registry s) key = Some e → pr_successes (en_result e) ≤ 1 ∧ pr_failures (en_result e) ≤ 1) ∧
    (∀ later, dead later key (sy_registry s) = false).
Proof.
  intros Horder HP E key Hkey.
  assert (counts_ok P (sy_registry s)) as Hc.
  { eapply counts_run; [done | done | done | apply start_inv |]. intros k i e. cbn. by rewrite lookup_empty. }
  assert (∀ e, entry_of (sy_registry s) key = Some e → low (en_result e)) as Hlow.
  { intros e He. unfold entry_of in He. destruct (rg_entries _ !! key) as [i|] eqn:Ek; [|done]. by eapply Hc. }
  split; [exact Hlow|]. intros later. unfold dead. case_bool_decide; [done|]. destruct (entry_of _ key) as [e|] eqn:Ee; [|done].
  destruct (Hlow e eq_refl) as [_ Hf]. assert ((pr_failures (en_result e) <? 3) = true) as -> by (apply Z.ltb_lt; lia). by rewrite orb_true_r.
Qed.

(** ** Members of groups *)

(** [digest] is the hash of a key, [NetworkName] the function of that name of the library
    for network names. *)
Section Members.
Context (digest NetworkName : string → string).

Definition nodeProfileKey (ident probeURL : string) : string := digest (ident ++ sep ++ probeURL ++ sep ++ "0s")%string.

Definition groupProfileIdentity (outbound : member) : string * string :=
  let record := selectedRecordForOutbound (Some outbound) in
  let endpointKey := sr_EndpointIdentity record in
  let endpointKey := if nonempty_s endpointKey then endpointKey else sr_DialIdentity record in
  let endpointKey := if nonempty_s endpointKey then endpointKey else sr_DisplayTag record in
  (endpointKey, if nonempty_s (sr_DialIdentity record) then sr_DialIdentity record else endpointKey).

Definition canonicalTCPNetwork (network : string) : string :=
  if bool_decide (network = "tcp4"%string) || bool_decide (network = "tcp/ipv4"%string) then "tcp/ipv4"
  else if bool_decide (network = "tcp6"%string) || bool_decide (network = "tcp/ipv6"%string) then "tcp/ipv6"
  else if bool_decide (network = ""%string) || bool_decide (network = "tcp"%string) then "tcp" else ("invalid/" ++ network)%string.

Definition isTCPFamily (network : string) : bool := bool_decide (network ∈ [""; "tcp"; "tcp4"; "tcp6"; "tcp/ipv4"; "tcp/ipv6"]%string).

Definition groupTCPProfileKeyForIdentity (dialKey link network : string) : string := nodeProfileKey dialKey (link ++ sep ++ canonicalTCPNetwork network)%string.

(** [network] is [None] when the argument is left out. *)
Definition groupTCPProfileKey (outbound : member) (link : string) (network : option string) : string * string :=
  let '(endpointKey, dialKey) := groupProfileIdentity outbound in
  let profileNetwork := match network with Some n => if nonempty_s n then canonicalTCPNetwork n else "tcp"%string | None => "tcp"%string end in
  (endpointKey, groupTCPProfileKeyForIdentity dialKey link profileNetwork).

Definition groupUDPProfileKey (outbound : member) : string := nodeProfileKey (groupProfileIdentity outbound).2 ("passive" ++ sep ++ "udp")%string.
Definition groupTCPPassiveProfileKey (outbound : member) (network : string) : string :=
  nodeProfileKey (groupProfileIdentity outbound).2 ("passive" ++ sep ++ canonicalTCPNetwork network)%string.

Definition groupTCPProfileSnapshot (outbound : member) (link network : string) (r : nodeProfileRegistry) : option nodeProfileResult :=
  let generic := snapshot (groupTCPProfileKey outbound link None).2 r in
  if isTCPFamily network && negb (bool_decide (canonicalTCPNetwork network = "tcp"%string)) then
    match snapshot (groupTCPProfileKey outbound link (Some network)).2 r with Some x => Some x | None => generic end
  else generic.

Definition groupProfileBaselineAlive (now : Z) (outbound : member) (link : string) (window : Z) (network : string) (r : nodeProfileRegistry) : bool :=
  match groupTCPProfileSnapshot outbound link network r with
  | Some x => pr_success x && negb ((0 <? window) && (window <=? time_sub now (pr_completedAt x)))
  | None => false
  end.

Definition groupTransportAvailable (now : Z) (outbound : member) (network : string) (r : nodeProfileRegistry) : bool :=
  if bool_decide (NetworkName network = "udp"%string) then negb (passiveFailureActive now (groupUDPProfileKey outbound) r)
  else negb (passiveFailureActive now (groupTCPPassiveProfileKey outbound network) r).

Definition groupProfileAlive (now : Z) (outbound : member) (link : string) (window : Z) (network : string) (r : nodeProfileRegistry) : bool :=
  groupProfileBaselineAlive now outbound link window network r && groupTransportAvailable now outbound network r.

(** While a member is probed it does not count as alive, however fresh and good its last
    result is: the entry that held it is gone. *)
Theorem probe_hides_member (order : gmap string Z → list (string * Z)) (now : Z) (chs : list choice) (s : system) (n : nat) (t : thread) (i : Z)
    (outbound : member) (link : string) (later window : Z) :
  (∀ m, range_of m (order m)) → run_system order (system_start now) chs = Some s → sy_threads s !! n = Some t → owned (th_place t) = Some i →
  rg_cancelled (sy_registry s) = false → cl_key (th_call t) = (groupTCPProfileKey outbound link None).2 →
  groupProfileBaselineAlive later outbound link window "tcp" (sy_registry s) = false.
Proof.
  intros Horder E Hn Hi Hc Hk. pose proof (run_inv order Horder _ _ _ E (start_inv now)) as H.
  destruct (ri_owner _ _ H n (th_call t) i) as [[ch Hh] _ He _]; [by exists t|]. specialize (He Hc).
  assert (groupTCPProfileSnapshot outbound link "tcp" (sy_registry s) = None) as Hs.
  { change (groupTCPProfileSnapshot outbound link "tcp" (sy_registry s)) with (snapshot (groupTCPProfileKey outbound link None).2 (sy_registry s)).
    rewrite <- Hk. unfold snapshot, entry_of. case_bool_decide; [done|]. rewrite He. cbn. by rewrite Hh. }
  unfold groupProfileBaselineAlive. by rewrite Hs.
Qed.
End Members.

(** A member that answered a second ago, in a group that trusts a result for ten minutes: a
    forced check hides it, and when the check is cancelled what was known of the member
    is lost. *)
Definition as_is (s : string) : string := s.
Definition node_a : member := mkMember "a" "vless" (Some "uuid-1") None.
Definition key_a : string := (groupTCPProfileKey as_is node_a "url" None).2.
Definition probed : list choice := [Tick 1000; Call (call_of "e" key_a false); Run 0; Run 0; ProbeReturns 0 (Some 20); Run 0; Tick (1000 + second)].
Definition alive_after (chs : list choice) : option bool :=
  s ← run_system map_to_list (system_start 0) chs; Some (groupProfileBaselineAlive as_is (sy_now s) node_a "url" (10 * minute) "tcp" (sy_registry s)).

Theorem cancelled_probe_loses_evidence :
  alive_after probed = Some true ∧
  alive_after (probed ++ [Call (call_of "e" key_a true); Run 1]) = Some false ∧
  alive_after (probed ++ [Call (call_of "e" key_a true); Run 1; Run 1; End 1; ProbeReturns 1 None; Run 1]) = Some false.
Proof. split_and!; vm_compute; reflexivity. Qed.
