(* ===== verification/LoadBalance.v ===== *)
(** * Load balancing

    [src/protocol/group/loadbalance.go]: the strategies that choose a member of a group
    for a connection.  Which members are available is what the registry of
    [NodeProfile] says at the moment; the hash of a key, the public suffix list and the
    cache of sessions are libraries. *)

From Stdlib Require Import ZArith Lia String SpecFloat.
From S2P Require Import Prelude Float64 SmartSwitch SmartCandidates NodeProfile.
From stdpp Require Import base gmap sets list strings numbers.

Local Open Scope Z_scope.

(** ** The jump hash *)

Definition jump_key (key : Z) : Z := u64 (key * 2862933555777941757 + 1).
Definition jump_next (key b : Z) : Z :=
  sf_trunc (sf_mul (sf_of_Z (b + 1)) (sf_div (sf_of_Z (2 ^ 31)) (sf_of_Z (Z.shiftr key 33 + 1)))).

(** The loop; [None] when the fuel is used up. *)
Fixpoint jump_loop (fuel : nat) (key b j buckets : Z) : option Z :=
  match fuel with
  | O => None
  | S fuel => if j <? buckets then let key := jump_key key in jump_loop fuel key j (jump_next key j) buckets else Some b
  end.

(** Every round ends at a higher [j], so that many rounds are enough. *)
Definition jumpHash (key buckets : Z) : option Z := jump_loop (S (Z.to_nat buckets)) key 0 0 buckets.

Lemma jump_key_fits key : 0 ≤ jump_key key < 2 ^ 64.
Proof. apply (u64_fits (key * 2862933555777941757 + 1)). Qed.

Lemma jump_next_grows key b : 0 ≤ key < 2 ^ 64 → 0 ≤ b < 2 ^ 31 → b < jump_next key b.
Proof.
  intros Hk Hb. unfold jump_next. assert (0 ≤ Z.shiftr key 33 < 2 ^ 31) as Hs.
  { rewrite Z.shiftr_div_pow2 by lia. split; [apply Z.div_pos; lia | apply Z.div_lt_upper_bound; lia]. }
  destruct (ratio_spec (Z.shiftr key 33 + 1) ltac:(lia)) as (m & e & -> & He & Hm).
  pose proof (product_spec (b + 1) m e ltac:(lia) He Hm). lia.
Qed.

(** The loop from [j], which is past the last [b], ends with a bucket, or with [b] when
    there is nothing to do. *)
Lemma jump_loop_spec fuel key b j buckets :
  buckets ≤ 2 ^ 31 → 0 ≤ b < j → (Z.to_nat (buckets - j) < fuel)%nat → b < buckets → ∃ r, jump_loop fuel key b j buckets = Some r ∧ b ≤ r < buckets.
Proof.
  intros Hmax. revert key b j. induction fuel as [|fuel IH]; intros key b j Hb Hfuel Hlt; [lia|]. cbn [jump_loop].
  destruct (Z.ltb_spec j buckets) as [Hj|Hj]; [|exists b; split; [done | lia]].
  pose proof (jump_next_grows (jump_key key) j (jump_key_fits key) ltac:(lia)) as Hn.
  destruct (IH (jump_key key) j (jump_next (jump_key key) j)) as (r & -> & Hr); [lia | lia | lia|]. exists r. split; [done | lia].
Qed.

Lemma jump_loop_fuel fuel fuel' key b j buckets r : jump_loop fuel key b j buckets = Some r → (fuel ≤ fuel')%nat → jump_loop fuel' key b j buckets = Some r.
Proof.
  revert fuel' key b j. induction fuel as [|fuel IH]; intros fuel' key b j E Hle; [done|]. destruct fuel' as [|fuel']; [lia|]. cbn [jump_loop] in *.
  destruct (j <? buckets); [|done]. apply IH; [done | lia].
Qed.

Lemma jump_loop_det fuel fuel' key b j buckets r r' : jump_loop fuel key b j buckets = Some r → jump_loop fuel' key b j buckets = Some r' → r = r'.
Proof.
  intros E E'. pose proof (jump_loop_fuel _ (Nat.max fuel fuel') _ _ _ _ _ E ltac:(lia)). pose proof (jump_loop_fuel _ (Nat.max fuel fuel') _ _ _ _ _ E' ltac:(lia)). congruence.
Qed.

Lemma jumpHash_returns key buckets : 0 < buckets ≤ 2 ^ 31 → ∃ b, jumpHash key buckets = Some b ∧ 0 ≤ b < buckets.
Proof.
  intros Hb. unfold jumpHash. cbn [jump_loop]. assert ((0 <? buckets) = true) as -> by (apply Z.ltb_lt; lia).
  pose proof (jump_next_grows (jump_key key) 0 (jump_key_fits key) ltac:(lia)) as Hn.
  destruct (jump_loop_spec (Z.to_nat buckets) (jump_key key) 0 (jump_next (jump_key key) 0) buckets) as (r & -> & Hr); [lia | lia | lia | lia|]. exists r. split; [done | lia].
Qed.

(** C33. The jump hash of a key returns, and it returns one of the buckets: although it is
    computed with floating-point numbers, every round of its loop makes progress. *)
Theorem jumpHash_in_range (key buckets : Z) : 0 < buckets ≤ 2 ^ 31 → ∃ b, jumpHash key buckets = Some b ∧ 0 ≤ b < buckets.
Proof. apply jumpHash_returns. Qed.

Lemma jumpHash_in_range_witness : ∃ b, jumpHash 123456789 5 = Some b ∧ 0 ≤ b < 5.
Proof. apply (jumpHash_in_range 123456789 5). lia. Defined.

(** One bucket more, from the same point on. *)
Lemma jump_loop_more fuel key b j n r :
  n < 2 ^ 31 → 0 ≤ j → jump_loop fuel key b j n = Some r → ∃ fuel', jump_loop fuel' key b j (n + 1) = Some r ∨ jump_loop fuel' key b j (n + 1) = Some n.
Proof.
  intros Hmax. revert key b j. induction fuel as [|fuel IH]; intros key b j Hj E; [done|]. cbn [jump_loop] in E. destruct (Z.ltb_spec j n) as [Hlt|Hge].
  - pose proof (jump_next_grows (jump_key key) j (jump_key_fits key) ltac:(lia)) as Hn. destruct (IH (jump_key key) j (jump_next (jump_key key) j) ltac:(lia) E) as [fuel' H].
    exists (S fuel'). cbn [jump_loop]. assert ((j <? n + 1) = true) as -> by (apply Z.ltb_lt; lia). exact H.
  - injection E as ->. exists 2%nat. cbn [jump_loop]. destruct (Z.ltb_spec j (n + 1)) as [Hlt|Hge']; [|by left].
    assert (j = n) as -> by lia. pose proof (jump_next_grows (jump_key key) n (jump_key_fits key) ltac:(lia)) as Hn.
    assert ((jump_next (jump_key key) n <? n + 1) = false) as -> by (apply Z.ltb_ge; lia). by right.
Qed.

(** C32. The hashing is consistent: when a member is added at the end, a key keeps its bucket
    or moves to the new one, and never from one old member to another. *)
Theorem jumpHash_consistent (key n : Z) : 0 < n < 2 ^ 31 → jumpHash key (n + 1) = jumpHash key n ∨ jumpHash key (n + 1) = Some n.
Proof.
  intros Hn. destruct (jumpHash_returns key n ltac:(lia)) as (r & Er & _). destruct (jumpHash_returns key (n + 1) ltac:(lia)) as (r' & Er' & _).
  destruct (jump_loop_more (S (Z.to_nat n)) key 0 0 n r ltac:(lia) ltac:(lia) Er) as [fuel H]. rewrite Er, Er'.
  destruct H as [H|H]; [left | right]; by rewrite (jump_loop_det _ _ _ _ _ _ _ _ Er' H).
Qed.

Lemma jumpHash_consistent_witness : jumpHash 123456789 (5 + 1) = jumpHash 123456789 5 ∨ jumpHash 123456789 (5 + 1) = Some 5.
Proof. apply (jumpHash_consistent 123456789 5). lia. Defined.

(** ** A connection's key *)

(** What the strategies look at of a connection; an address is its text, or nothing when it
    is not valid. *)
Record connection : Type := mkConnection {
  cn_fqdn : option string; cn_sniffHost : string; cn_domain : string;
  cn_destinationAddresses : list (option string); cn_destinationAddr : option string; cn_source : string; cn_network : string }.

Section Keys.
(** [net.ParseIP] tells whether a text is an address; [EffectiveTLDPlusOne] may fail. *)
Context (ParseIP : string → bool) (EffectiveTLDPlusOne : string → option string).

(** [Destination.IsDomain()] is the case of a name in [cn_fqdn]. *)
Definition metadata_host (m : connection) : string :=
  match cn_fqdn m with
  | Some fqdn => fqdn
  | None => if nonempty_s (cn_sniffHost m) then cn_sniffHost m else cn_domain m
  end.

Definition destination_key (m : connection) : string :=
  default ""%string (match cn_destinationAddresses m with a :: _ => a | [] => cn_destinationAddr m end).

Definition getKey (m : option connection) : string :=
  match m with
  | None => ""
  | Some m =>
      let host := metadata_host m in
      if nonempty_s host then
        if ParseIP host then host
        else match EffectiveTLDPlusOne host with Some etld => etld | None => destination_key m end
      else destination_key m
  end.
End Keys.

(** ** The strategies *)

Definition outboundMatcher : Type := option (member → bool).
Definition refuses (matcher : outboundMatcher) (m : member) : bool := match matcher with Some f => negb (f m) | None => false end.

Definition memberAvailable (digest NetworkName : string → string) (now : Z) (link : string) (window : Z) (network : string) (r : nodeProfileRegistry)
    (m : member) : bool :=
  groupProfileBaselineAlive digest now m link window network r && groupTransportAvailable digest NetworkName now m network r.

Section Strategies.
(** The members, and which of them are available now. *)
Context (outbounds : list member) (available : member → bool).

Definition nextFallback (touch : bool) (matcher : outboundMatcher) (fallbackIdx : Z) : option member * Z :=
  if (length outbounds =? 0)%nat then (None, fallbackIdx)
  else
    let fallbackIdx' := if bool_decide (matcher = None) || touch then u32 (fallbackIdx + 1) else fallbackIdx in
    match outbounds !! Z.to_nat (fallbackIdx mod Z.of_nat (length outbounds)) with
    | Some outbound => (if refuses matcher outbound then None else Some outbound, fallbackIdx')
    | None => (None, fallbackIdx')
    end.
Definition strategyRandom (pick : nat → nat) (matcher : outboundMatcher) : option member :=
  let passing := List.filter (λ m, available m && negb (refuses matcher m)) outbounds in
  let passing := if (length passing =? 0)%nat then List.filter (λ m, negb (refuses matcher m)) outbounds else passing in
  passing !! pick (length passing).

(** The loop of the round robin over the offsets: the position and the member. *)
Fixpoint rr_find (idx : nat) (offsets : list nat) : option (nat * member) :=
  match offsets with
  | [] => None
  | offset :: offsets =>
      let id := ((idx + offset) mod length outbounds)%nat in
      match outbounds !! id with
      | Some proxy => if available proxy then Some (id, proxy) else rr_find idx offsets
      | None => None
      end
  end.

(** The state is [idx] and the index of the fallback. *)
Definition strategyRoundRobin (touch : bool) (matcher : outboundMatcher) (s : nat * Z) : option member * (nat * Z) :=
  let '(idx, fallbackIdx) := s in
  if (length outbounds =? 0)%nat then (None, s)
  else
    let idx := (idx mod length outbounds)%nat in
    match rr_find idx (seq 0 (length outbounds)) with
    | Some (id, proxy) =>
        if refuses matcher proxy then (None, (idx, fallbackIdx))
        else (Some proxy, (if touch then ((id + 1) mod length outbounds)%nat else idx, fallbackIdx))
    | None => let '(o, fallbackIdx) := nextFallback touch matcher fallbackIdx in (o, (idx, fallbackIdx))
    end.

(** The retries of the hashing. *)
Fixpoint hash_retry (i : Z) (retries : nat) (key : Z) : option member :=
  match retries with
  | O => None
  | S retries =>
      match jumpHash key (Z.of_nat (length outbounds)) ≫= λ idx, outbounds !! Z.to_nat idx with
      | Some proxy => if available proxy then Some proxy else hash_retry (i + 1) retries (u64 (key + (i + 1) * 11400714819323198485))
      | None => None
      end
  end.

Definition strategyHashing (key : Z) (touch : bool) (matcher : outboundMatcher) (fallbackIdx : Z) : option member * Z :=
  if (length outbounds =? 0)%nat then (None, fallbackIdx)
  else
    match hash_retry 0 5 key with
    | Some proxy => (if refuses matcher proxy then None else Some proxy, fallbackIdx)
    | None =>
        match List.find available outbounds with
        | Some proxy => (if refuses matcher proxy then None else Some proxy, fallbackIdx)
        | None => nextFallback touch matcher fallbackIdx
        end
    end.
End Strategies.

(** *** Sessions *)

(** The cache of the library: what was just added is found. *)
Class SessionCache (C : Type) : Type := {
  cache_get : Z → C → option SelectedRecord * C;
  cache_peek : Z → C → option SelectedRecord;
  cache_add : Z → SelectedRecord → C → C;
  cache_get_add : ∀ k v c, (cache_get k (cache_add k v c)).1 = Some v;
  cache_peek_get : ∀ k c, cache_peek k c = (cache_get k c).1 }.

Section Sticky.
Context {C : Type} `{!SessionCache C}.
Context (outbounds : list member) (available : member → bool).
(** The index that is picked in each try, which depends on the clock. *)
Context (selectIndex : nat → nat).

Fixpoint sticky_try (i retries : nat) : option member :=
  match retries with
  | O => None
  | S retries =>
      match outbounds !! (selectIndex i mod length outbounds)%nat with
      | Some proxy => if available proxy then Some proxy else sticky_try (S i) retries
      | None => None
      end
  end.

Definition strategyStickySessions (key : Z) (matcher : outboundMatcher) (c : C) : option member * C :=
  if (length outbounds =? 0)%nat then (None, c)
  else
    let '(cachedRecord, c) := match matcher with None => cache_get key c | Some _ => (cache_peek key c, c) end in
    let preferred := r ← cachedRecord; m ← resolveStickySessionRecord outbounds r; if available m then Some m else None in
    match preferred with
    | Some m =>
        if refuses matcher m then (None, c) else (Some m, match matcher with Some _ => (cache_get key c).2 | None => c end)
    | None =>
        match sticky_try 0 5 with
        | Some proxy => (if refuses matcher proxy then None else Some proxy, cache_add key (selectedRecordForOutbound (Some proxy)) c)
        | None =>
            match jumpHash key (Z.of_nat (length outbounds)) ≫= λ idx, outbounds !! Z.to_nat idx with
            | Some m => (if refuses matcher m then None else Some m, cache_add key (selectedRecordForOutbound (Some m)) c)
            | None => (None, c)
            end
        end
    end.
End Sticky.

(** ** Going round *)

Definition rot {A} (i : nat) (l : list A) : list A := drop i l ++ take i l.

Lemma rot_perm {A} i (l : list A) : rot i l ≡ₚ l.
Proof. unfold rot. rewrite (comm (++)). by rewrite take_drop. Qed.

Lemma rot_lookup {A} i o (l : list A) : (i < length l)%nat → (o < length l)%nat → l !! ((i + o) mod length l)%nat = rot i l !! o.
Proof.
  intros Hi Ho. unfold rot. destruct (decide (i + o < length l)%nat) as [Hlt|Hge].
  - rewrite Nat.mod_small by done. rewrite lookup_app_l by (rewrite length_drop; lia). by rewrite lookup_drop.
  - rewrite lookup_app_r by (rewrite length_drop; lia). rewrite length_drop. replace ((i + o) mod length l)%nat with (i + o - length l)%nat by (apply (Nat.mod_unique _ _ 1); lia).
    rewrite lookup_take_lt by lia. f_equal. lia.
Qed.

Lemma rot_add {A} i k (l : list A) : (i < length l)%nat → (k ≤ length l)%nat → rot ((i + k) mod length l)%nat l = drop k (rot i l) ++ take k (rot i l).
Proof.
  intros Hi Hk. unfold rot. destruct (decide (i + k < length l)%nat) as [Hlt|Hge].
  - rewrite Nat.mod_small by done. rewrite drop_app_le, take_app_le by (rewrite length_drop; lia). by rewrite <- app_assoc, take_take_drop, drop_drop.
  - replace ((i + k) mod length l)%nat with (i + k - length l)%nat by (apply (Nat.mod_unique _ _ 1); lia). set (d := (i + k - length l)%nat).
    rewrite drop_app_ge, take_app_ge by (rewrite length_drop; lia). rewrite length_drop. replace (k - (length l - i))%nat with d by lia.
    rewrite take_take. replace (d `min` i)%nat with d by lia. rewrite !app_assoc. f_equal.
    rewrite <- (take_drop i l) at 1. apply drop_app_le. rewrite length_take. lia.
Qed.

Section RoundRobin.
Context (outbounds : list member) (available : member → bool).
Abbreviation n := (length outbounds).

Lemma rr_find_spec idx l k :
  (idx < n)%nat → drop k (rot idx outbounds) = l → (k ≤ n)%nat →
  match l with
  | [] => rr_find outbounds available idx (seq k (n - k)) = None
  | _ => (Forall (λ m, available m = false) l ∧ rr_find outbounds available idx (seq k (n - k)) = None) ∨
         ∃ pre p post, l = pre ++ p :: post ∧ Forall (λ m, available m = false) pre ∧ available p = true ∧
           rr_find outbounds available idx (seq k (n - k)) = Some (((idx + (k + length pre)) mod n)%nat, p)
  end.
Proof.
  intros Hidx. revert k. induction l as [|x l IH]; intros k Hl Hk.
  - assert (length (rot idx outbounds) ≤ k)%nat as Hge by (pose proof (f_equal length Hl) as E; rewrite length_drop in E; cbn in E; lia).
    rewrite (Permutation_length (rot_perm idx outbounds)) in Hge. by replace (n - k)%nat with 0%nat by lia.
  - assert (rot idx outbounds !! k = Some x) as Hx by (rewrite <- (Nat.add_0_r k), <- lookup_drop, Hl; done).
    assert (k < n)%nat as Hlt by (apply lookup_lt_Some in Hx; by rewrite (Permutation_length (rot_perm idx outbounds)) in Hx).
    replace (n - k)%nat with (S (n - S k)) by lia. cbn [seq rr_find]. rewrite rot_lookup, Hx by lia.
    assert (drop (S k) (rot idx outbounds) = l) as Hl' by (rewrite <- Nat.add_1_r, <- drop_drop, Hl; done).
    destruct (available x) eqn:Ex.
    + right. exists [], x, l. split_and!; [done | constructor | done|]. cbn. by rewrite Nat.add_0_r.
    + specialize (IH (S k) Hl' ltac:(lia)). destruct l as [|y l].
      * left. split; [by repeat constructor | done].
      * destruct IH as [[Hall Hnone]|(pre & p & post & -> & Hpre & Hp & Hf)]; [left; split; [by constructor | done]|].
        right. exists (x :: pre), p, post. split_and!; [done | by constructor | done|]. rewrite Hf. cbn. do 4 f_equal. lia.
Qed.

(** One choice takes the first available member of the round and puts it last. *)
Lemma rr_step idx fb p q :
  (idx < n)%nat → filter (λ m, available m = true) (rot idx outbounds) = p :: q →
  ∃ idx', strategyRoundRobin outbounds available true None (idx, fb) = (Some p, (idx', fb)) ∧ (idx' < n)%nat ∧
    filter (λ m, available m = true) (rot idx' outbounds) = q ++ [p].
Proof.
  intros Hidx Hq. unfold strategyRoundRobin. assert ((n =? 0)%nat = false) as -> by (apply Nat.eqb_neq; lia). rewrite Nat.mod_small by done.
  pose proof (rr_find_spec idx (rot idx outbounds) 0 Hidx eq_refl ltac:(lia)) as H. rewrite Nat.sub_0_r in H.
  assert (∀ l, Forall (λ m, available m = false) l → filter (λ m, available m = true) l = []) as Hnone.
  { intros l Hl. (induction Hl as [|x l Hx Hl IH]; [done|]; rewrite list.filter_cons_False by congruence; done). }
  destruct (rot idx outbounds) as [|x l] eqn:Er; [done|].
  destruct H as [[Hall _]|(pre & p' & post & El & Hpre & Hp & Hf)]; [by rewrite (Hnone _ Hall) in Hq|].
  rewrite El, list.filter_app, (Hnone _ Hpre), list.filter_cons_True in Hq by done. injection Hq as -> <-. rewrite Hf. cbn [refuses Nat.add].
  eexists. split; [reflexivity|]. split; [apply Nat.mod_upper_bound; lia|].
  assert (length pre < n)%nat as Hlen.
  { rewrite <- (Permutation_length (rot_perm idx outbounds)), Er, El, length_app. cbn. lia. }
  assert ((((idx + length pre) mod n + 1) mod n)%nat = ((idx + (length pre + 1)) mod n)%nat) as -> by (rewrite Nat.Div0.add_mod_idemp_l; f_equal; lia).
  rewrite rot_add by lia. rewrite Er, El. assert (pre ++ p :: post = (pre ++ [p]) ++ post) as -> by (by rewrite <- app_assoc).
  assert (length pre + 1 = length (pre ++ [p]))%nat as -> by (rewrite length_app; done). rewrite drop_app_length, take_app_length.
  rewrite !list.filter_app, (Hnone _ Hpre). by rewrite list.filter_cons_True.
Qed.

(** [k] connections in a row. *)
Fixpoint rr_run (k : nat) (s : nat * Z) : list (option member) :=
  match k with O => [] | S k => let '(m, s) := strategyRoundRobin outbounds available true None s in m :: rr_run k s end.

Lemma rr_run_take k idx fb q :
  (idx < n)%nat → filter (λ m, available m = true) (rot idx outbounds) = q → (k ≤ length q)%nat → rr_run k (idx, fb) = Some <$> take k q.
Proof.
  revert idx q. induction k as [|k IH]; intros idx q Hidx Hq Hk; [done|]. destruct q as [|p q]; [cbn in Hk; lia|].
  destruct (rr_step idx fb p q Hidx Hq) as (idx' & E & Hidx' & Hq'). cbn [rr_run]. rewrite E.
  rewrite (IH idx' (q ++ [p])); [|done | done | rewrite length_app; cbn in *; lia]. cbn [take]. rewrite fmap_cons. f_equal. f_equal. apply take_app_le. cbn in Hk. lia.
Qed.
End RoundRobin.

(** C34. The round robin is fair: as many connections in a row as there are available members
    are given to each of them exactly once, from wherever the round is. *)
Theorem round_robin_fair (outbounds : list member) (available : member → bool) (idx : nat) (fb : Z) :
  let members := filter (λ m, available m = true) outbounds in
  ∃ chosen, rr_run outbounds available (length members) (idx, fb) = Some <$> chosen ∧ chosen ≡ₚ members.
Proof.
  intros members. destruct (decide (length outbounds = 0)%nat) as [E0|Hn].
  { apply nil_length_inv in E0. exists []. subst members. by rewrite E0. }
  assert (filter (λ m, available m = true) (rot (idx mod length outbounds) outbounds) ≡ₚ members) as Hperm by (unfold members; by rewrite rot_perm).
  exists (filter (λ m, available m = true) (rot (idx mod length outbounds) outbounds)). split; [|done].
  assert (∀ k, rr_run outbounds available k (idx, fb) = rr_run outbounds available k ((idx mod length outbounds)%nat, fb)) as ->.
  { intros [|k]; [done|]. cbn [rr_run]. unfold strategyRoundRobin. apply Nat.eqb_neq in Hn. rewrite Hn. by rewrite Nat.Div0.mod_mod. }
  rewrite (rr_run_take _ _ _ _ _ _ (Nat.mod_upper_bound _ _ Hn) eq_refl) by (by rewrite (Permutation_length Hperm)).
  f_equal. apply take_ge. by rewrite (Permutation_length Hperm).
Qed.

(** ** Members that are chosen *)

Lemma elem_length {A} (l : list A) x : x ∈ l → (0 < length l)%nat.
Proof. destruct l; [by intros ?%not_elem_of_nil | cbn; lia]. Qed.

Lemma rr_find_exists outbounds available idx :
  (idx < length outbounds)%nat → (∃ m, m ∈ outbounds ∧ available m = true) →
  ∃ id p, rr_find outbounds available idx (seq 0 (length outbounds)) = Some (id, p) ∧ p ∈ outbounds ∧ available p = true.
Proof.
  intros Hidx (m & Hm & Ha). pose proof (rr_find_spec outbounds available idx (rot idx outbounds) 0 Hidx eq_refl ltac:(lia)) as H. rewrite Nat.sub_0_r in H.
  assert (m ∈ rot idx outbounds) as Hm' by (by rewrite rot_perm). destruct (rot idx outbounds) as [|x l] eqn:Er; [by apply not_elem_of_nil in Hm'|].
  destruct H as [[Hall _]|(pre & p & post & El & _ & Hp & Hf)].
  - rewrite list.Forall_forall in Hall. specialize (Hall m Hm'). congruence.
  - eexists _, p. split_and!; [exact Hf | | done]. rewrite <- (rot_perm idx outbounds), Er, El. apply elem_of_app. right. by left.
Qed.

Lemma hash_retry_available outbounds available i retries key p : hash_retry outbounds available i retries key = Some p → p ∈ outbounds ∧ available p = true.
Proof.
  revert i key. induction retries as [|retries IH]; intros i key; cbn [hash_retry]; [done|].
  destruct (jumpHash _ _) as [idx|]; cbn; [|done]. destruct (outbounds !! Z.to_nat idx) as [m|] eqn:Em; [|done].
  destruct (available m) eqn:Ea; [intros [= <-]; split; [by eapply list_elem_of_lookup_2 | done] | apply IH].
Qed.

Lemma find_available (outbounds : list member) (available : member → bool) : (∃ m, m ∈ outbounds ∧ available m = true) → ∃ p, List.find available outbounds = Some p ∧ p ∈ outbounds ∧ available p = true.
Proof.
  intros (m & Hm & Ha). destruct (List.find available outbounds) as [p|] eqn:E.
  - apply find_some in E as [? ?]. exists p. split_and!; [done | by apply list_elem_of_In | done].
  - rewrite (find_none _ _ E m) in Ha; [done | by apply list_elem_of_In].
Qed.

(** A group that has an available member uses an available member: the random choice, the
    round robin and the hashing all return one, whatever the random number, the position
    of the round and the key are. *)
Theorem strategies_pick_available (outbounds : list member) (available : member → bool) :
  (∃ m, m ∈ outbounds ∧ available m = true) →
  (∀ pick, (∀ n, (0 < n)%nat → (pick n < n)%nat) → ∃ m, strategyRandom outbounds available pick None = Some m ∧ m ∈ outbounds ∧ available m = true) ∧
  (∀ touch s, ∃ m s', strategyRoundRobin outbounds available touch None s = (Some m, s') ∧ m ∈ outbounds ∧ available m = true) ∧
  (∀ key touch fb, ∃ m, strategyHashing outbounds available key touch None fb = (Some m, fb) ∧ m ∈ outbounds ∧ available m = true).
Proof.
  intros Hex. assert (length outbounds ≠ 0%nat) as Hn by (destruct Hex as (m & Hm & _); pose proof (elem_length _ _ Hm); lia).
  split_and!.
  - intros pick Hpick. unfold strategyRandom. set (l := List.filter _ outbounds).
    assert (∀ m, m ∈ l ↔ m ∈ outbounds ∧ available m = true) as Hl.
    { intros m. unfold l. rewrite !list_elem_of_In, filter_In. cbn. by rewrite andb_true_r. }
    assert (0 < length l)%nat as Hl0 by (destruct Hex as (m & Hm & Ha); apply (elem_length l m), Hl; done).
    destruct (Nat.eqb_spec (length l) 0) as [?|_]; [lia|]. destruct (lookup_lt_is_Some_2 l (pick (length l))) as [m Em]; [by apply Hpick|].
    exists m. split; [done|]. by apply Hl, (list_elem_of_lookup_2 _ (pick (length l))).
  - intros touch [idx fb]. unfold strategyRoundRobin. pose proof Hn as Hn'. apply Nat.eqb_neq in Hn as ->.
    destruct (rr_find_exists outbounds available (idx mod length outbounds) (Nat.mod_upper_bound _ _ Hn') Hex) as (id & p & -> & ? & ?).
    cbn [refuses]. eauto.
  - intros key touch fb. unfold strategyHashing. apply Nat.eqb_neq in Hn as ->. destruct (hash_retry _ _ _ _ _) as [p|] eqn:E.
    + apply hash_retry_available in E as [? ?]. cbn [refuses]. eauto.
    + destruct (find_available outbounds available Hex) as (p & -> & ? & ?). cbn [refuses]. eauto.
Qed.

(** Two members, of which the first does not answer. *)
Definition two_members : list member := [alias_a; other_c].
Definition only_c (m : member) : bool := bool_decide (mb_tag m = "c"%string).

Lemma strategies_pick_available_witness :
  ∃ m, strategyHashing two_members only_c 7 true None 0 = (Some m, 0) ∧ m ∈ two_members ∧ only_c m = true.
Proof.
  destruct (strategies_pick_available two_members only_c) as (_ & _ & H); [exists other_c; split; [right; left | reflexivity]|].
  exact (H 7 true 0).
Defined.

Lemma round_robin_fair_witness :
  ∃ chosen, rr_run two_members (λ _, true) 2 (1%nat, 0) = Some <$> chosen ∧ chosen ≡ₚ two_members.
Proof. exact (round_robin_fair two_members (λ _, true) 1 0). Defined.

(** *** Sessions stay *)

Section StickyOk.
Context {C : Type} `{!SessionCache C}.

Lemma sticky_try_spec outbounds available selectIndex i retries p : sticky_try outbounds available selectIndex i retries = Some p → p ∈ outbounds ∧ available p = true.
Proof.
  revert i. induction retries as [|retries IH]; intros i; cbn [sticky_try]; [done|]. destruct (outbounds !! _) as [m|] eqn:Em; [|done].
  destruct (available m) eqn:Ea; [intros [= <-]; split; [by eapply list_elem_of_lookup_2 | done] | apply IH].
Qed.

(** A record with credentials resolves to a member that has them, if there is one. *)
Lemma sticky_resolves outbounds record m :
  m ∈ outbounds → mb_dial m = Some (sr_DialIdentity record) → sr_DialIdentity record ≠ ""%string →
  ∃ m', resolveStickySessionRecord outbounds record = Some m' ∧ m' ∈ outbounds ∧ mb_dial m' = Some (sr_DialIdentity record).
Proof.
  intros Hin Hd Hne. unfold resolveStickySessionRecord. rewrite (proj2 (nonempty_true _) Hne).
  destruct (first_match_some record ByDial outbounds m Hin) as (m' & E & Hin' & [Hm' _]%match_dial); [by apply match_dial|]. eauto.
Qed.

(** A session stays with its credentials: when its first connection was given a member, and
    the members change in whatever way afterwards, the next connection of the session is
    given a member with the same credentials, if there is one and the members with these
    credentials are available. *)
Theorem sticky_keeps_credentials (outbounds outbounds' : list member) (available available' : member → bool) (select select' : nat → nat)
    (key : Z) (c c' : C) (m : member) (d : string) :
  strategyStickySessions outbounds available select key None c = (Some m, c') → available m = true → cache_peek key c = None →
  mb_dial m = Some d → d ≠ ""%string →
  (∃ w, w ∈ outbounds' ∧ mb_dial w = Some d) → (∀ w, w ∈ outbounds' → mb_dial w = Some d → available' w = true) →
  ∃ m' c'', strategyStickySessions outbounds' available' select' key None c' = (Some m', c'') ∧ m' ∈ outbounds' ∧ mb_dial m' = Some d.
Proof.
  intros E Ha Hpeek Hd Hne (w & Hw & Hwd) Hav.
  assert (∃ c0, c' = cache_add key (selectedRecordForOutbound (Some m)) c0) as [c0 ->].
  { unfold strategyStickySessions in E. destruct (_ =? 0)%nat; [done|]. destruct (cache_get key c) as [r c1] eqn:Eg.
    assert (r = None) as -> by (rewrite cache_peek_get, Eg in Hpeek; done). cbn [mbind option_bind] in E.
    destruct (sticky_try _ _ _ _ _) as [p|]; [injection E as -> <-; by eexists|].
    destruct (jumpHash _ _) as [idx|]; cbn in E; [|done]. destruct (outbounds !! Z.to_nat idx) as [p|]; [|done]. injection E as -> <-. by eexists. }
  destruct (sticky_resolves outbounds' (selectedRecordForOutbound (Some m)) w Hw) as (m' & Er & Hin' & Hd').
  { cbn. by rewrite Hd. }
  { cbn. by rewrite Hd. }
  cbn in Hd'. rewrite Hd in Hd'. cbn in Hd'. unfold strategyStickySessions.
  assert ((length outbounds' =? 0)%nat = false) as -> by (apply Nat.eqb_neq; pose proof (elem_length _ _ Hw); lia).
  destruct (cache_get key _) as [r c1] eqn:Eg. pose proof (cache_get_add key (selectedRecordForOutbound (Some m)) c0) as Hga. rewrite Eg in Hga. cbn [fst] in Hga. subst r.
  cbn [mbind option_bind]. rewrite Er. cbn [mbind option_bind]. rewrite (Hav m' Hin' Hd'). cbn [refuses]. eauto.
Qed.
End StickyOk.

(** A cache without limits. *)
#[global] Program Instance map_cache : SessionCache (gmap Z SelectedRecord) := {|
  cache_get k c := (c !! k, c); cache_peek k c := c !! k; cache_add k v c := <[k := v]> c |}.
Next Obligation. intros k v c. apply lookup_insert_eq. Qed.
Next Obligation. done. Qed.

Definition always (m : member) : bool := true.
Definition index_0 (i : nat) : nat := 0%nat.

(** The session of "a" after the member was renamed "b" and moved. *)
Lemma sticky_keeps_credentials_witness :
  ∃ m' c'', strategyStickySessions [other_c; alias_b] always index_0 9 None {[ 9 := selectedRecordForOutbound (Some alias_a) ]} = (Some m', c'') ∧
    m' ∈ [other_c; alias_b] ∧ mb_dial m' = Some "uuid-1"%string.
Proof.
  apply (sticky_keeps_credentials [alias_a; other_c] [other_c; alias_b] always always index_0 index_0 9 (∅ : gmap Z SelectedRecord)
    {[ 9 := selectedRecordForOutbound (Some alias_a) ]} alias_a "uuid-1").
  - vm_compute. reflexivity.
  - reflexivity.
  - vm_compute. reflexivity.
  - reflexivity.
  - discriminate.
  - exists alias_b. split; [right; left | reflexivity].
  - intros w _ _. reflexivity.
Defined.

(** Unlike the other strategies, sessions can be given a member that is not available while
    another one is: after five picks that failed the jump hash decides alone. *)
Theorem sticky_picks_unavailable :
  ∃ c', strategyStickySessions two_members only_c index_0 0 None (∅ : gmap Z SelectedRecord) = (Some alias_a, c') ∧
    only_c alias_a = false ∧ only_c other_c = true ∧ other_c ∈ two_members.
Proof. eexists. split; [vm_compute; reflexivity|]. split_and!; [done | done | right; left]. Qed.
