(* ===== verification/AdaptiveAudit.v ===== *)
(** * Selection memory and switch audit of the adaptive pool

    [src/protocol/group/adaptive/switch_audit.go], [selection_memory.go]: the bounded
    records that explain to operators which node a service was moved to and why.  A
    failure of a session is kept until the next selection of the session, which it
    explains. *)

From Stdlib Require Import ZArith Lia String.
From S2P Require Import Prelude AdaptiveLease.
From stdpp Require Import base gmap sets list strings numbers sorting.

Local Open Scope Z_scope.

#[global] Instance audit_handle_eq_dec : EqDecision NodeHandle.
Proof. solve_decision. Defined.

(** ** Switch audit *)

Definition switchAuditLimit : nat := 64.
Definition pendingSwitchLimit : nat := Z.to_nat 1024.

Record pendingSwitchFailure : Type := mkPending {
  ps_serviceID : string; ps_node : NodeHandle; ps_tag : string; ps_failure : string; ps_source : string; ps_at : Z }.

(** What is read of a candidate; the tag as [safePersistentTag] left it. *)
Record candidate : Type := mkCandidate { cd_ID : NodeID; cd_Handle : NodeHandle; cd_tag : string }.

Record AdaptiveSwitchAudit : Type := mkAuditEvent {
  ev_ServiceID : string; ev_Session : SessionKey; ev_OldNode : NodeID; ev_OldTag : string; ev_NewNode : NodeID; ev_NewTag : string;
  ev_Reason : string; ev_Failure : string; ev_FailureSource : string; ev_OccurredAt : Z }.

Record SwitchAuditStore : Type := mkStore {
  sa_entries : list AdaptiveSwitchAudit; sa_pending : gmap SessionKey pendingSwitchFailure; sa_total : Z }.

Definition NewSwitchAuditStore : SwitchAuditStore := mkStore [] ∅ 0.

Definition expire_pending (at_ : Z) (m : gmap SessionKey pendingSwitchFailure) : gmap SessionKey pendingSwitchFailure :=
  if (pendingSwitchLimit <=? size m)%nat then filter (λ x, (10 * minute <? time_sub at_ (ps_at x.2)) = false) m else m.

Definition RecordFailure (session : SessionKey) (serviceID : string) (c : candidate) (failure source : string) (at_ : Z) (s : SwitchAuditStore)
    : SwitchAuditStore :=
  if (session =? 0) || (cd_ID c =? 0) || bool_decide (serviceID = ""%string) then s
  else
    let pending := expire_pending at_ (sa_pending s) in
    let pending := if (size pending <? pendingSwitchLimit)%nat
                   then <[session := mkPending serviceID (cd_Handle c) (cd_tag c) failure source at_]> pending else pending in
    mkStore (sa_entries s) pending (sa_total s).

Definition same_node (a b : NodeHandle) : bool := (nh_NodeID a =? nh_NodeID b) && (nh_Slot a =? nh_Slot b) && (nh_Version a =? nh_Version b).

(** The event of a selection, if there is one, and whether it counts as a switch. *)
Definition selection_event (session : SessionKey) (serviceID : string) (previous : NodeHandle) (c : candidate) (reason : string) (at_ : Z)
    (pending : option pendingSwitchFailure) : option (AdaptiveSwitchAudit * bool) :=
  match pending with
  | Some p =>
      let retry := (nh_NodeID (ps_node p) =? cd_ID c) && (nh_Slot (ps_node p) =? nh_Slot (cd_Handle c)) && (nh_Version (ps_node p) =? nh_Version (cd_Handle c)) in
      Some (mkAuditEvent serviceID session (nh_NodeID (ps_node p)) (ps_tag p) (cd_ID c) (cd_tag c)
              (if retry then "failure_retry" else "failure_failover")%string (ps_failure p) (ps_source p) at_, negb retry)
  | None =>
      if (nh_NodeID previous =? 0) || same_node previous (cd_Handle c) then None
      else Some (mkAuditEvent serviceID session (nh_NodeID previous) "" (cd_ID c) (cd_tag c) reason "" "" at_, true)
  end.

Definition keep_last (l : list AdaptiveSwitchAudit) : list AdaptiveSwitchAudit :=
  if (switchAuditLimit <? length l)%nat then drop (length l - switchAuditLimit) l else l.

Definition RecordSelection (session : SessionKey) (serviceID : string) (previous : NodeHandle) (c : candidate) (reason : string) (at_ : Z)
    (s : SwitchAuditStore) : SwitchAuditStore :=
  if (cd_ID c =? 0) || bool_decide (serviceID = ""%string) then s
  else
    match selection_event session serviceID previous c reason at_ (sa_pending s !! session) with
    | None => s
    | Some (event, switch) =>
        mkStore (keep_last (sa_entries s ++ [event])) (delete session (sa_pending s)) (if switch then u64 (sa_total s + 1) else sa_total s)
    end.

Definition Snapshot (s : SwitchAuditStore) : list AdaptiveSwitchAudit * Z := (sa_entries s, sa_total s).
Definition Clear (s : SwitchAuditStore) : SwitchAuditStore := mkStore [] ∅ (sa_total s).

(** *** What the audit promises *)

Inductive audit_op : Type :=
| OpFailure (session : SessionKey) (serviceID : string) (c : candidate) (failure source : string) (at_ : Z)
| OpSelection (session : SessionKey) (serviceID : string) (previous : NodeHandle) (c : candidate) (reason : string) (at_ : Z).

Definition audit_step (s : SwitchAuditStore) (o : audit_op) : SwitchAuditStore :=
  match o with
  | OpFailure session serviceID c failure source at_ => RecordFailure session serviceID c failure source at_ s
  | OpSelection session serviceID previous c reason at_ => RecordSelection session serviceID previous c reason at_ s
  end.

(** The whole history of events, as the operations produce them. *)
Definition audit_events (s : SwitchAuditStore) (o : audit_op) : list (AdaptiveSwitchAudit * bool) :=
  match o with
  | OpFailure _ _ _ _ _ _ => []
  | OpSelection session serviceID previous c reason at_ =>
      if (cd_ID c =? 0) || bool_decide (serviceID = ""%string) then []
      else match selection_event session serviceID previous c reason at_ (sa_pending s !! session) with Some e => [e] | None => [] end
  end.

Fixpoint audit_run (s : SwitchAuditStore) (ops : list audit_op) : SwitchAuditStore * list (AdaptiveSwitchAudit * bool) :=
  match ops with
  | [] => (s, [])
  | o :: ops => let '(s', history) := audit_run (audit_step s o) ops in (s', audit_events s o ++ history)
  end.

(** The last [n] of a list. *)
Definition last_of {A} (n : nat) (l : list A) : list A := drop (length l - n) l.

Lemma keep_last_eq l : keep_last l = last_of switchAuditLimit l.
Proof. unfold keep_last, last_of. destruct (Nat.ltb_spec switchAuditLimit (length l)); [done|]. by replace (length l - switchAuditLimit)%nat with 0%nat by lia. Qed.

Lemma last_of_app {A} n (l l' : list A) : last_of n (last_of n l ++ l') = last_of n (l ++ l').
Proof.
  unfold last_of. rewrite !length_app, length_drop. destruct (decide (n ≤ length l)%nat) as [Hle|Hgt].
  - rewrite <- (drop_app_le l l' (length l - n)) by lia. rewrite drop_drop. f_equal. lia.
  - replace (length l - n)%nat with 0%nat by lia. rewrite drop_0. f_equal. lia.
Qed.

Lemma expire_pending_size at_ m : (size (expire_pending at_ m) ≤ size m)%nat.
Proof. unfold expire_pending. destruct (_ <=? _)%nat; [|done]. apply map_subseteq_size, map_filter_subseteq. Qed.

Lemma audit_run_spec s ops past :
  sa_entries s = last_of switchAuditLimit past → (size (sa_pending s) ≤ pendingSwitchLimit)%nat →
  let '(s', history) := audit_run s ops in
  sa_entries s' = last_of switchAuditLimit (past ++ history.*1) ∧ (size (sa_pending s') ≤ pendingSwitchLimit)%nat ∧
  (sa_total s + Z.of_nat (length (List.filter snd history)) < 2 ^ 64 → 0 ≤ sa_total s → sa_total s' = sa_total s + Z.of_nat (length (List.filter snd history))).
Proof.
  revert s past. induction ops as [|o ops IH]; intros s past He Hp; cbn [audit_run].
  { cbn. rewrite app_nil_r. split_and!; [done | done | lia]. }
  assert (sa_entries (audit_step s o) = last_of switchAuditLimit (past ++ (audit_events s o).*1) ∧ (size (sa_pending (audit_step s o)) ≤ pendingSwitchLimit)%nat ∧
    (sa_total (audit_step s o) = sa_total s + Z.of_nat (length (List.filter snd (audit_events s o))) ∨
     2 ^ 64 ≤ sa_total s + Z.of_nat (length (List.filter snd (audit_events s o))) ∨ sa_total s < 0)) as (H1 & H2 & H3).
  { destruct o as [session serviceID c failure source at_|session serviceID previous c reason at_]; cbn [audit_step audit_events].
    - rewrite app_nil_r. unfold RecordFailure. destruct (_ || _ || _); [split_and!; [done | done | left; cbn; lia]|]. cbn [sa_entries sa_pending sa_total]. split_and!; [done | | left; cbn; lia].
      destruct (Nat.ltb_spec (size (expire_pending at_ (sa_pending s))) pendingSwitchLimit) as [Hlt|_].
      + etransitivity; [apply size_insert_le | lia].
      + etransitivity; [apply expire_pending_size | done].
    - unfold RecordSelection. destruct (_ || _); [rewrite app_nil_r; split_and!; [done | done | left; cbn; lia]|].
      destruct (selection_event _ _ _ _ _ _ _) as [[event switch]|]; [|rewrite app_nil_r; split_and!; [done | done | left; cbn; lia]].
      cbn [sa_entries sa_pending sa_total]. split_and!.
      + rewrite keep_last_eq, He. apply last_of_app.
      + etransitivity; [apply size_delete_le | done].
      + destruct switch; cbn; [|left; lia]. destruct (decide (sa_total s < 0)); [auto|]. destruct (decide (sa_total s + 1 < 2 ^ 64)); [|right; left; lia].
        left. rewrite u64_id; [lia | unfold fits; lia]. }
  specialize (IH (audit_step s o) _ H1 H2). destruct (audit_run (audit_step s o) ops) as [s' history]. destruct IH as (I1 & I2 & I3).
  rewrite fmap_app, app_assoc. split_and!; [done | done|]. rewrite List.filter_app, length_app, Nat2Z.inj_add. intros Hb H0.
  destruct H3 as [H3|[?|?]]; [rewrite H3 in I3; rewrite I3; lia | lia | lia].
Qed.

(** The audit is the recent history: after any failures and selections it holds the last
    64 events in their order, counts every switch, and keeps at most 1024 failures that
    wait for their selection. *)
Theorem audit_refines_history (ops : list audit_op) :
  let '(s, history) := audit_run NewSwitchAuditStore ops in
  sa_entries s = last_of switchAuditLimit history.*1 ∧ (size (sa_pending s) ≤ pendingSwitchLimit)%nat ∧
  (Z.of_nat (length (List.filter snd history)) < 2 ^ 64 → sa_total s = Z.of_nat (length (List.filter snd history))).
Proof.
  pose proof (audit_run_spec NewSwitchAuditStore ops [] eq_refl) as H. destruct (audit_run NewSwitchAuditStore ops) as [s history].
  destruct H as (H1 & H2 & H3); [cbn [sa_pending NewSwitchAuditStore]; rewrite map_size_empty; lia|]. split_and!; [done | done|]. intros Hb. apply H3; [exact Hb | done].
Qed.

(** When the table of failures is full of recent ones, a new failure of a session that is in
    it is dropped, and the next selection is explained by the old one. *)
Theorem full_audit_keeps_old_failure (session : SessionKey) (serviceID : string) (c : candidate) (failure source : string) (at_ : Z) (s : SwitchAuditStore) :
  (pendingSwitchLimit ≤ size (sa_pending s))%nat → (∀ k p, sa_pending s !! k = Some p → time_sub at_ (ps_at p) ≤ 10 * minute) →
  sa_pending (RecordFailure session serviceID c failure source at_ s) = sa_pending s.
Proof.
  intros Hfull Hrecent. unfold RecordFailure. destruct (_ || _ || _); [done|]. cbn [sa_pending].
  assert (expire_pending at_ (sa_pending s) = sa_pending s) as ->.
  { unfold expire_pending. destruct (_ <=? _)%nat; [|done]. apply map_filter_id. intros k p Hk. cbn. apply Z.ltb_ge. by eapply Hrecent. }
  destruct (Nat.ltb_spec (size (sa_pending s)) pendingSwitchLimit); [lia | done].
Qed.

(** ** Selection memory *)

Record selectionMemoryEntry : Type := mkMemory {
  me_reason : string; me_selectionAt : Z; me_failure : string; me_serviceID : string; me_path : string; me_failureAt : Z; me_at : Z }.
Definition no_memory : selectionMemoryEntry := mkMemory "" time_zero "" "" "" time_zero time_zero.

(** [selectionMemoryKey]: the handle's four fields, the service and the path. *)
Abbreviation selectionMemoryKey := (Z * Z * Z * Z * string * string)%type.
Definition memory_key (h : NodeHandle) (serviceID path : string) : selectionMemoryKey := (nh_NodeID h, nh_Slot h, nh_Version h, nh_BornRevision h, serviceID, path).
Definition key_node (k : selectionMemoryKey) : NodeID := k.1.1.1.1.1.

Definition selectionMemoryLimit : nat := Z.to_nat 4096.
Abbreviation memory := (gmap selectionMemoryKey selectionMemoryEntry).

Definition firstNonEmpty (values : list string) : string := default ""%string (List.find (λ v, negb (bool_decide (v = ""%string))) values).

Section Memory.
(** The order in which the ranges visit the memory. *)
Context (order : memory → list (selectionMemoryKey * selectionMemoryEntry)).

Definition write_entry (reason failure serviceID path : string) (at_ : Z) (e : selectionMemoryEntry) : selectionMemoryEntry :=
  if negb (bool_decide (failure = ""%string)) then mkMemory (me_reason e) (me_selectionAt e) failure serviceID path at_ at_
  else if negb (bool_decide (reason = ""%string)) then mkMemory reason at_ (me_failure e) (me_serviceID e) (me_path e) (me_failureAt e) at_
  else mkMemory (me_reason e) (me_selectionAt e) (me_failure e) (me_serviceID e) (me_path e) (me_failureAt e) at_.

Definition recordSelectionMemory (handle : NodeHandle) (reason failure serviceID path : string) (at_ : Z) (m : memory) : memory :=
  if nh_NodeID handle =? 0 then m
  else
    let key := memory_key handle serviceID path in
    let m := <[key := write_entry reason failure serviceID path at_ (default no_memory (m !! key))]> m in
    if (selectionMemoryLimit <? size m)%nat then
      match scan_min me_at (order m) with Some oldest => delete oldest m | None => m end
    else m.

Definition recordFailureMemory (c : candidate) (failure serviceID path : string) (now : Z) (m : memory) : memory :=
  if cd_ID c =? 0 then m else recordSelectionMemory (cd_Handle c) "failure" failure serviceID path now m.

Record AdaptiveServiceMemory : Type := mkService {
  sv_ServiceID : string; sv_Path : string; sv_SelectionReason : string; sv_Failure : string; sv_SelectedAt : Z; sv_FailedAt : Z }.
Definition no_service : AdaptiveServiceMemory := mkService "" "" "" "" time_zero time_zero.

(** The view while the range builds it, with [byService]. *)
Record view_state : Type := mkViewing {
  vs_latestSelection : selectionMemoryEntry; vs_latestFailure : selectionMemoryEntry; vs_byService : gmap string AdaptiveServiceMemory }.

Record selectionMemoryView : Type := mkView {
  vw_latestSelection : selectionMemoryEntry; vw_latestFailure : selectionMemoryEntry; vw_services : list AdaptiveServiceMemory }.

Definition key_service (k : selectionMemoryKey) : string := k.1.2.
Definition key_path (k : selectionMemoryKey) : string := k.2.

(** The body of the range, for an entry of the node. *)
Definition view_entry (v : view_state) (x : selectionMemoryKey * selectionMemoryEntry) : view_state :=
  let '(k, e) := x in
  let serviceID := firstNonEmpty [me_serviceID e; key_service k] in
  let selection := if time_after (me_selectionAt e) (me_selectionAt (vs_latestSelection v))
    then mkMemory (me_reason e) (me_selectionAt e) (me_failure e) serviceID (me_path e) (me_failureAt e) (me_at e) else vs_latestSelection v in
  let failure := if time_after (me_failureAt e) (me_failureAt (vs_latestFailure v))
    then mkMemory (me_reason e) (me_selectionAt e) (me_failure e) serviceID (firstNonEmpty [me_path e; key_path k]) (me_failureAt e) (me_at e) else vs_latestFailure v in
  let serviceID := if bool_decide (serviceID = ""%string) then "unknown"%string else serviceID in
  let i := default no_service (vs_byService v !! serviceID) in
  let i := mkService serviceID (sv_Path i) (sv_SelectionReason i) (sv_Failure i) (sv_SelectedAt i) (sv_FailedAt i) in
  let i := if time_after (me_selectionAt e) (sv_SelectedAt i)
    then mkService serviceID (if bool_decide (key_path k = ""%string) then sv_Path i else key_path k) (me_reason e) (sv_Failure i) (me_selectionAt e) (sv_FailedAt i) else i in
  let i := if time_after (me_failureAt e) (sv_FailedAt i)
    then mkService serviceID (firstNonEmpty [me_path e; key_path k; sv_Path i]) (sv_SelectionReason i) (me_failure e) (sv_SelectedAt i) (me_failureAt e) else i in
  mkViewing selection failure (<[serviceID := i]> (vs_byService v)).

(** The comparison of the sort: the service with the latest event first, then by name. *)
Definition service_at (i : AdaptiveServiceMemory) : Z := if time_after (sv_FailedAt i) (sv_SelectedAt i) then sv_FailedAt i else sv_SelectedAt i.
Definition service_less (left right : AdaptiveServiceMemory) : bool :=
  if negb (service_at left =? service_at right) then time_after (service_at left) (service_at right) else String.ltb (sv_ServiceID left) (sv_ServiceID right).
Definition service_le (left right : AdaptiveServiceMemory) : Prop := service_less right left = false.
#[local] Instance service_le_dec : RelDecision service_le := λ l r, decide (service_less r l = false).

Definition selectionMemoryForHandle (handle : NodeHandle) (m : memory) : selectionMemoryView :=
  let v := foldl view_entry (mkViewing no_memory no_memory ∅) (List.filter (λ x, key_node x.1 =? nh_NodeID handle) (order m)) in
  mkView (vs_latestSelection v) (vs_latestFailure v) (merge_sort service_le (map_to_list (vs_byService v)).*2).

(** The latest selection, completed by a later failure.  The handle has no slot, no version and no birth. *)
Definition selectionMemoryFor (nodeID : NodeID) (m : memory) : selectionMemoryEntry :=
  let view := selectionMemoryForHandle (mkHandle nodeID 0 0 0) m in
  let e := vw_latestSelection view in
  let f := vw_latestFailure view in
  let e := if time_after (me_failureAt f) (me_failureAt e)
           then mkMemory (me_reason e) (me_selectionAt e) (me_failure f) (me_serviceID f) (me_path f) (me_failureAt f) (me_at e) else e in
  if time_after (me_at f) (me_at e)
  then mkMemory (me_reason e) (me_selectionAt e) (me_failure e) (me_serviceID e) (me_path e) (me_failureAt e) (me_at f) else e.

Definition clearSelectionMemory : memory := ∅.

(** *** What it promises *)

Lemma view_times l v :
  let v' := foldl view_entry v l in
  me_selectionAt (vs_latestSelection v') = foldr Z.max (me_selectionAt (vs_latestSelection v)) ((λ x, me_selectionAt x.2) <$> l) ∧
  me_failureAt (vs_latestFailure v') = foldr Z.max (me_failureAt (vs_latestFailure v)) ((λ x, me_failureAt x.2) <$> l).
Proof.
  assert (∀ a b ys, foldr Z.max (Z.max a b) ys = Z.max b (foldr Z.max a ys)) as Hmax by (intros a b ys; induction ys as [|y ys IHy]; cbn; lia).
  revert v. induction l as [|[k e] l IH]; intros v; [done|]. cbn [foldl]. destruct (IH (view_entry v (k, e))) as [I1 I2]. cbv zeta. rewrite I1, I2.
  cbn [fmap list_fmap foldr snd]. cbn [view_entry vs_latestSelection vs_latestFailure]. unfold time_after.
  split; case_bool_decide; cbn [me_selectionAt me_failureAt].
  - rewrite <- (Hmax (me_selectionAt (vs_latestSelection v)) (me_selectionAt e)). f_equal. lia.
  - rewrite <- (Hmax (me_selectionAt (vs_latestSelection v)) (me_selectionAt e)). f_equal. lia.
  - rewrite <- (Hmax (me_failureAt (vs_latestFailure v)) (me_failureAt e)). f_equal. lia.
  - rewrite <- (Hmax (me_failureAt (vs_latestFailure v)) (me_failureAt e)). f_equal. lia.
Qed.

Lemma service_le_total l r : service_le l r ∨ service_le r l.
Proof.
  unfold service_le, service_less, time_after. rewrite (Z.eqb_sym (service_at r)). destruct (Z.eqb_spec (service_at l) (service_at r)) as [E|E]; cbn.
  - unfold String.ltb. rewrite (String.compare_antisym (sv_ServiceID r)). destruct (String.compare _ _); cbn; auto.
  - repeat case_bool_decide; auto; lia.
Qed.

Lemma view_by_service l v :
  (∀ k i, vs_byService v !! k = Some i → sv_ServiceID i = k) → ∀ k i, vs_byService (foldl view_entry v l) !! k = Some i → sv_ServiceID i = k.
Proof.
  revert v. induction l as [|[k0 e] l IH]; intros v Hv; [done|]. cbn [foldl]. apply IH. intros k i. cbn [view_entry vs_byService].
  destruct (decide (k = if bool_decide (firstNonEmpty [me_serviceID e; key_service k0] = ""%string) then "unknown"%string else firstNonEmpty [me_serviceID e; key_service k0])) as [->|Hne].
  - rewrite lookup_insert_eq. intros [= <-]. by repeat case_match.
  - rewrite lookup_insert_ne by done. apply Hv.
Qed.

(** The services of a view are in the order of the sort and each service is told once. *)
Lemma view_services_ok handle m :
  let services := vw_services (selectionMemoryForHandle handle m) in
  Sorted service_le services ∧ NoDup (sv_ServiceID <$> services).
Proof.
  cbv zeta. unfold selectionMemoryForHandle. cbn [vw_services]. split; [apply Sorted_merge_sort; intros ??; apply service_le_total|].
  set (v := foldl _ _ _). assert (∀ k i, vs_byService v !! k = Some i → sv_ServiceID i = k) as Hv.
  { apply view_by_service. intros k i H. cbn in H. by rewrite lookup_empty in H. }
  rewrite merge_sort_Permutation, <- list_fmap_compose.
  rewrite (list_fmap_ext (sv_ServiceID ∘ snd) fst (map_to_list (vs_byService v))); [apply NoDup_fst_map_to_list|].
  intros ? [k i] Hin%list_elem_of_lookup_2%elem_of_map_to_list. by apply Hv.
Qed.
End Memory.

Lemma foldr_max_perm a (l l' : list Z) : l ≡ₚ l' → foldr Z.max a l = foldr Z.max a l'.
Proof. induction 1; cbn; lia. Qed.

Lemma list_filter_perm {A} (f : A → bool) l l' : l ≡ₚ l' → List.filter f l ≡ₚ List.filter f l'.
Proof.
  induction 1 as [|x l l' _ IH|x y l|l l' l'' _ IH1 _ IH2]; cbn; [done | | | by etransitivity].
  - destruct (f x); [by constructor | done].
  - destruct (f x), (f y); [apply perm_swap | done..].
Qed.

(** The memory of selections is bounded, what was just recorded is found, and what a view
    tells as the times of the latest selection and failure of a node does not depend on the
    order of the map; it tells each service once, the latest first. *)
Theorem selection_memory_ok (order order' : memory → list (selectionMemoryKey * selectionMemoryEntry)) (handle : NodeHandle)
    (reason failure serviceID path : string) (at_ : Z) (m : memory) :
  (∀ m, range_of m (order m)) → (∀ m, range_of m (order' m)) → nh_NodeID handle ≠ 0 → (size m ≤ selectionMemoryLimit)%nat →
  (∀ k e, m !! k = Some e → me_at e < at_) →
  let m' := recordSelectionMemory order handle reason failure serviceID path at_ m in
  (size m' ≤ selectionMemoryLimit)%nat ∧ is_Some (m' !! memory_key handle serviceID path) ∧
  me_selectionAt (vw_latestSelection (selectionMemoryForHandle order handle m')) = me_selectionAt (vw_latestSelection (selectionMemoryForHandle order' handle m')) ∧
  me_failureAt (vw_latestFailure (selectionMemoryForHandle order handle m')) = me_failureAt (vw_latestFailure (selectionMemoryForHandle order' handle m')) ∧
  Sorted service_le (vw_services (selectionMemoryForHandle order handle m')) ∧
  NoDup (sv_ServiceID <$> vw_services (selectionMemoryForHandle order handle m')).
Proof.
  intros Ho Ho' Hne Hsize Hold m'. split; [|split].
  - unfold m', recordSelectionMemory. assert ((nh_NodeID handle =? 0) = false) as -> by (by apply Z.eqb_neq).
    set (m1 := <[_ := _]> m). pose proof (size_insert_le (memory_key handle serviceID path) (write_entry reason failure serviceID path at_ (default no_memory (m !! memory_key handle serviceID path))) m) as Hle. fold m1 in Hle.
    destruct (Nat.ltb_spec selectionMemoryLimit (size m1)) as [Hgt|]; [|done].
    destruct (scan_min me_at (order m1)) as [oldest|] eqn:Es.
    + apply scan_min_spec in Es as (v & Hv & _). apply (range_of_lookup _ _ _ _ (Ho m1)) in Hv. pose proof (size_delete_Some _ _ _ Hv) as Hd. lia.
    + apply scan_min_None in Es. pose proof (Ho m1) as Hr. rewrite Es in Hr. apply range_of_nil in Hr. rewrite Hr, map_size_empty in Hgt. lia.
  - unfold m', recordSelectionMemory. assert ((nh_NodeID handle =? 0) = false) as -> by (by apply Z.eqb_neq).
    set (key := memory_key handle serviceID path). set (e1 := write_entry _ _ _ _ _ _). set (m1 := <[key := e1]> m).
    assert (me_at e1 = at_) as He1 by (unfold e1, write_entry; by repeat case_bool_decide).
    assert (m1 !! key = Some e1) as Hk by (unfold m1; by rewrite lookup_insert_eq).
    destruct (Nat.ltb_spec selectionMemoryLimit (size m1)) as [Hgt|]; [|by exists e1]. destruct (scan_min me_at (order m1)) as [oldest|] eqn:Es; [|by exists e1].
    apply scan_min_spec in Es as (v & Hv & Hmin). rewrite lookup_delete_ne; [by exists e1|]. intros ->.
    apply (range_of_lookup _ _ _ _ (Ho m1)) in Hv. rewrite Hk in Hv. injection Hv as <-.
    assert (∃ k e, k ≠ key ∧ m1 !! k = Some e) as (k & e & Hke & He).
    { destruct (map_choose (delete key m1)) as (k & e & Hd).
      - intros E. pose proof (size_delete_Some _ _ _ Hk) as Hd. rewrite E, map_size_empty in Hd. unfold selectionMemoryLimit in Hgt. lia.
      - apply lookup_delete_Some in Hd as [? ?]. by exists k, e. }
    assert (m !! k = Some e) as Hme by (unfold m1 in He; by rewrite lookup_insert_ne in He). pose proof (Hold k e Hme).
    apply (range_of_lookup _ _ _ _ (Ho m1)) in He. pose proof (Hmin k e He). lia.
  - destruct (view_services_ok order handle m') as [S1 S2]. unfold selectionMemoryForHandle. cbn [vw_latestSelection vw_latestFailure]. destruct (view_times (List.filter (λ x, key_node x.1 =? nh_NodeID handle) (order m')) (mkViewing no_memory no_memory ∅)) as [-> ->].
    destruct (view_times (List.filter (λ x, key_node x.1 =? nh_NodeID handle) (order' m')) (mkViewing no_memory no_memory ∅)) as [-> ->].
    assert (List.filter (λ x, key_node x.1 =? nh_NodeID handle) (order m') ≡ₚ List.filter (λ x, key_node x.1 =? nh_NodeID handle) (order' m')) as Hperm.
    { apply list_filter_perm. etransitivity; [apply Ho | symmetry; apply Ho']. }
    split_and!; [by apply foldr_max_perm, fmap_Permutation.. | exact S1 | exact S2].
Qed.

Lemma selection_memory_ok_witness :
  is_Some (recordSelectionMemory map_to_list (mkHandle 1 0 1 1) "policy" "" "web" "tcp" 5 ∅ !! memory_key (mkHandle 1 0 1 1) "web" "tcp").
Proof.
  apply (selection_memory_ok map_to_list map_to_list (mkHandle 1 0 1 1) "policy" "" "web" "tcp" 5 ∅ (λ m, reflexivity _) (λ m, reflexivity _)).
  - discriminate.
  - rewrite map_size_empty. lia.
  - intros k e H. rewrite lookup_empty in H. discriminate.
Defined.
